(* ===== verification/_CoqProject ===== *)
-Q . S2P
Prelude.v
PyVal.v
PyConv.v
Selectors.v
State.v
TraceMindAdapter.v
Explorer.v
CtlSyntax.v
CtlParse.v
CtlRoundtrip.v
Ctl.v
CtlSpec.v
Report.v
Joint.v
BundleAdapter.v
Compositional.v
CompositionalSpec.v
Network.v
Rolling.v
Breaker.v
RateLimit.v
GovManager.v
GovSpec.v
Task.v
MemQueue.v
Idempotency.v
Retry.v
QueueManager.v
QueueSpec.v
AuditLog.v
Hitl.v
Guard.v
GovConfig.v
MetaControl.v
FileQueue.v
FileQueueSpec.v
FileRecovery.v
FileReopen.v
FileRefine.v
FlowDef.v
FlowExec.v
FlowGov.v
FlowRuntime.v
FlowTasks.v
FlowTasksSpec.v
FlowRuntimeSpec.v
FlowGraph.v
FlowEngine.v
FlowEngineSpec.v
FlowAnalysis.v
FlowDemo.v
Policy.v
Deterministic.v
PolicyReplay.v
PolicyStore.v
Artifact.v
Profile.v
Completeness.v
IntentGate.v
Session.v
SessionSpec.v
SessionStore.v
Dsl.v
DslIr.v
DslFlow.v
ProofChain.v
Transport.v
NetworkControl.v
Binlog.v
Simulator.v
Conflicts.v
DslLint.v
Triggers.v
TriggerEvents.v
IntentTree.v
AgentContract.v
PlanLint.v
Composer.v
ProfileGov.v
Cycle.v
