(* ===== verification/Prelude.v ===== *)
(** * TraceMind: a verification library

    TraceMind runs agent workflows: plans of steps with read and write
    effects, executed by a pipeline, verified offline by an explicit-state
    model checker, admitted by a governance layer and processed by workers
    that lease tasks from a queue.  Intents are designed in sessions, policies
    judge states and actions, and networks of agents report to a center.  This library models the parts of
    [tm/] that carry this logic and proves what they promise.  It is grouped
    as the program is.

    ** Verification of plans ([tm/pipeline], [tm/verify])

    - [Selectors]: selector parsing and matching ([selectors.py]); plans,
      rules and the pipeline run ([engine.py]).
    - [State], [TraceMindAdapter]: the Kripke state and its two hash modes ([state.py]; SHA-256 is the parameter
      [Digest]), the transition-system interface, a plan as a transition
      system ([adapter.py]).  Theorems: the transitions of a plan are exactly
      its enabled steps with their effects; where every fact of a reachable
      state comes from.
    - [Explorer]: bounded breadth-first exploration
      ([explorer.py]).  It terminates, lists only reachable states, lists all
      of them within the bound when the hash tells states apart, and its
      paths are paths.
    - [CtlSyntax], [CtlParse], [CtlRoundtrip], [Ctl], [CtlSpec]: the formula
      language, tokenizer, recursive-descent parser and fixpoint evaluator
      ([ctl.py]).  Parsing undoes serialization; the evaluator computes the
      declarative CTL semantics.
    - [Report]: invariant and property verdicts and their
      counterexamples ([invariants.py], [report.py]).
    - [Joint]: the asynchronous product of several components
      and joint verification ([joint.py]), proved against the class of lawful
      components of [State].
    - [BundleAdapter], [Compositional], [CompositionalSpec], [Network]:
      bundles as plans ([bundle_adapter.py], [spec.py]),
      interface abstraction and assume-guarantee discharge
      ([compositional.py]), networks ([network.py]) and the state-count
      measurement ([por.py]).  A formula that passes on the abstraction
      passes on the product, under hypotheses that are shown necessary by
      evaluated examples.  [Network] ends with the theorems of this group
      applied to concrete plans.

    ** Governance ([tm/governance])

    - [Rolling], [Breaker], [RateLimit]: rolling windows and budgets
      ([utils.py], [budget.py]), the circuit breaker ([breaker.py]), rate and
      concurrency limits ([ratelimit.py]).
    - [GovManager], [GovSpec]: admission, activation, completion and
      cancellation of requests over all scopes ([manager.py], settings of
      [config.py]).  A refused request leaves no reservation behind; an
      admitted one reserves once per scope.
    - [GovConfig]: the TOML loaders of the governance
      settings and of the retry policy ([config.py], [retry.py]), and the
      guard calls of the manager.  The loader is total on every document, and
      what it accepts is well formed.
    - [Guard]: the content filters ([guard/filters.py]): which
      payloads each rule refuses and with what reason.
    - [AuditLog]: masking and the audit trail ([audit.py]).
    - [Hitl]: human approvals and their shared store
      ([hitl.py]).  A request is decided at most once, before its deadline;
      a restarted manager knows the same open requests.

    ** Flow runtime ([tm/flow])

    - [FlowDef]: flow specifications, step ids, revisions, policies and the
      registry of deferred runs ([spec.py], [operations.py], [policies.py],
      [correlate.py]).
    - [FlowExec]: the run of a flow through the hooks of its
      steps ([runtime.py], [_execute_immediately]); it ends on every flow.
    - [FlowGov]: the calls the runtime makes on governance as a class, the
      discipline of reservations as a class of laws, and the manager of
      [GovManager] as its instance.
    - [FlowRuntime], [FlowTasks]: the runtime object and its tasks
      ([runtime.py]) as a step relation: a stretch between two suspensions of
      a coroutine is one step.
    - [FlowTasksSpec], [FlowRuntimeSpec]: the invariant, proved for every
      lawful governance; one answer per call, one run per idempotency key, the
      limits of a flow over all its requests, and draining; the theorems on
      concrete calls, and calls that wait for ever after a queue timeout, a
      failing guard or a failing worker.
    - [FlowGraph], [FlowEngine]: the synchronous engine ([core.py]):
      registries, flow graphs and their builders, the static analyzer, the
      tracer, policies and [Engine.run].  networkx is the class [DiGraph] with
      its documented laws, with a concrete instance.
    - [FlowEngineSpec], [FlowAnalysis]: the histories a flow can have, as
      relations; the run of an acyclic flow is its one complete history, and a
      flow without issues fails only where a check or an operator does.
    - [FlowDemo]: the demo flow of [core.py], and flows that show what the
      analyzer, the tracer and the timeouts leave out.

    ** Controller cycles ([tm/controllers], [tm/runtime])

    - [Cycle]: reliability profiles and the state of a run
      ([reliability.py]), the bodies of a cycle and their verification
      ([controllers/models.py], [artifacts/verify.py]), and the cycle itself
      ([controllers/cycle.py]) as a state monad with failure over an
      environment of agents, clocks and cancellations.  Its theorem is proved
      with assertions before and after each operation: bounded attempts, no
      agent after a plan that is not cleared, at most one after a
      cancellation, all artifacts stored or none.

    ** Meta control ([tm/control/meta])

    - [MetaControl]: KPI windows, the convergence detector, the
      escalator and the control loop ([kpi_tracker.py], [convergence.py],
      [escalation.py], [controller.py]).  A run stops within its iteration
      limit and its report says why.
    - [ProofChain]: the proof report of a cycle, its verdict, hash and
      encoding, the difference of snapshots, the hash chain and the evidence
      of peers ([proof.py]).
    - [Transport]: transport in one process and over files
      ([tm/transport/base.py], [file_queue.py]).  One sender's messages arrive
      in order; a request under a new key is answered, under a remembered key
      it never is.
    - [NetworkControl]: the body and topology of a star network, the handler
      of a leaf and the controller of the center ([network.py]).  The hash chain commits to a report, a report read back
      is the report written, and a cycle that returns has a valid chain over
      all leaves.

    ** Policies ([tm/policy])

    - [Policy]: conditions, invariants and guards over states
      ([engine.py]); which conditions the parser decides correctly.
    - [Deterministic]: prioritised rules and the patch they make
      ([deterministic.py]); the highest priority wins.
    - [PolicyReplay]: recorded decisions run again; [PolicyStore]: the local
      store, its adapter, the allowlist, the guard and the classifier of
      conflicts ([local_store.py], [adapter.py], [policies_v0.py],
      [guard.py], [conflict.py]).

    ** Intents ([tm/intent], [tm/artifacts])

    - [Artifact]: the canonical form of bodies, their hash (SHA-256 is the
      class [BodyDigest]) and the decoding of fields ([normalize.py],
      [hash.py], [models.py]).
    - [Profile], [Completeness]: profiles with inheritance and dispositions
      of open points ([completeness.py], [uncertainty.py]), and the judgment
      of a document along the six dimensions.  Loading returns whatever the
      files extend; a clean seal report closes every error.
    - [ProfileGov]: proposals to change a profile ([profile_governance.py]).
      Changes are flagged exactly on the ways the module names, and an intent
      that passes under an unflagged change passed before it, with two
      exceptions the file exhibits.
    - [IntentTree]: the validator of intent trees and the coverage of intents
      by tests ([tree_validator.py], [coverage.py]).  The validator is silent
      exactly on trees.
    - [IntentGate]: the consistency gate and its questions
      ([consistency_gate.py], [clarify.py]).
    - [Session], [SessionSpec], [SessionStore]: the design loop, the journal,
      transitions and sealing, and the stored form ([design_loop.py],
      [session.py], [session_store.py]).  Reachable sessions are consistent,
      the head of the journal commits to it, and a saved session is the one
      loaded.

    ** Languages ([tm/dsl])

    - [Dsl]: the parser of workflow and policy documents
      ([parser.py]).  It returns on every text, and undoes printing.
    - [DslIr]: workflows and policies from parsed documents, and compiled
      policies ([ir.py], [_render.py], [compiler_policy.py]).
    - [DslFlow]: the compiler of workflows ([compiler_flow.py]).  A compiled
      flow is well formed and acyclic, and every step lies between its entry
      and its finish.
    - [DslLint]: the linter and the planner ([lint.py], [plan.py]).  A
      workflow without errors is one whose references resolve in every
      execution; plans are connected.

    ** Validation and storage ([tm/validate], [tm/lint], [tm/storage])

    - [Simulator]: the discrete simulation of steps that take locks
      ([simulator.py]).  It ends, steps that run together share their locks,
      and a deadlock is a set of steps that wait for one another.
    - [Conflicts]: the checks over flows and policies ([static.py]); they are
      silent exactly on clean documents.
    - [AgentContract]: agents, their contracts and bundles, and the linter of
      contracts ([tm/agents/models.py], [tm/lint/io_contract_lint.py]);
      [PlanLint]: the linter of plans ([tm/lint/plan_lint.py]).  Both are
      silent exactly on the documents their theorems describe.
    - [Binlog]: the binary event log ([binlog.py]).  What was appended is read
      back over all segments; a cut tail costs a suffix only.

    ** Composition ([tm/composer])

    - [Composer]: workflows from templates, checked against a policy and an
      intent and ranked by cost ([engine.py]).

    ** Triggers ([tm/triggers])

    - [Triggers]: the loader of schedules, webhooks and watchers
      ([config.py]) and cron schedules ([manager.py]).  A schedule plans
      exactly the minutes it names, over the Gregorian calendar.
    - [TriggerEvents]: templates and events, webhook servers, the directory
      watcher, the cron adapter and the dispatch into the work queue
      ([manager.py], [queue.py]).  A webhook event is handed over at most
      once and only for a client that knows the secret of the route.

    ** Task runtime ([tm/runtime])

    - [Task]: task envelopes ([task.py]) and the queue interface
      ([queue/base.py]) as a class of operations and a class of laws;
      [MemQueue]: the
      in-memory queue ([queue/memory.py]), the specification of its leases,
      and its instance of the laws.
    - [FileQueue]: the file-backed queue with its segment logs, index,
      counters and compaction ([queue/file.py]).  [FileQueueSpec] relates
      each operation to the in-memory queue; [FileRecovery] gives the
      invariant between the disk and the memory; [FileReopen] computes what a
      new process reads back; [FileRefine] has the results: every sequence of
      calls answers as the in-memory queue does, and a queue closed and
      opened again holds the same tasks with all leases released.
    - [Idempotency]: the result cache and its snapshot
      ([idempotency.py]).
    - [Retry]: retry decisions and dead letters ([retry.py],
      [dlq.py]).
    - [QueueManager], [QueueSpec]: the queue manager and the worker's step
      ([queue/manager.py], [workers.py]), proved for every lawful queue:
      duplicate suppression, and every failed task is retried or
      dead-lettered within the attempt limit.

    ** Conventions

    Python exceptions are values ([res], [exn]); a stateful operation returns
    the state after it, also when it raises.  Values from JSON or TOML are
    [json] ([PyVal]); dictionaries whose order matters are association lists,
    others are finite maps.  Floats are exact numbers in millionths with the
    infinities and NaN ([pyfloat]); rounding is not modelled.  Clock readings,
    random draws and fresh identifiers are arguments.  Text conversions of the
    interpreter ([str] of floats and containers, [float] and [int] of strings)
    are the parameter [PyText].  Locks are not modelled: an operation is
    atomic.

    Fuel: the exploration loop and the breadth-first search of joint
    verification run on fuel and give [None] when it runs out; [Explorer]
    proves that on every lawful adapter some amount suffices and that more
    never changes the outcome.  The parser runs on as much fuel as it has
    tokens, and each fixpoint of the evaluator for one pass more than there
    are states with successors; both are proved to be enough.  A flow run takes
    one round per step ([FlowExec]) or per node of its graph ([FlowEngine],
    whose loop does not end on cyclic graphs).  The condition parser and the
    document parser take as much as they have tokens or lines, the loader of
    profiles as much as there are files.  Polls for a reply happen once per
    step of the other processes that is given.  The other recursions are
    structural.

    ** Not modelled

    Worker supervision and process engines, the evaluator of documents,
    recipes and the copy of the synchronous engine split over several files,
    JSON schemas and what is checked against them only, artifacts other than
    bundles, networks, sessions and those of a controller cycle, HTTP, other
    storage, server, command line and calls to language models.  The rest of
    the DSL could be modelled in the same way; the others are I/O, glue or
    third-party code.  In the flow runtime the cancellation of a caller by its
    own task is left out; operators and checks of the synchronous engine do
    not change the dictionaries they are given.

    This file holds what all components share: exceptions, the error monad,
    tactics, list and string lemmas, computations with fuel. *)

From stdpp Require Import base gmap strings list sets fin_maps.
From Stdlib Require Import ZArith Lia Ascii.


(** ** Errors as values

    Python exceptions the modelled code raises, with their message. *)
Inductive exn : Type :=
| ValueError (msg : string)
| TypeError (msg : string)
| KeyError (msg : string)
| IndexError (msg : string)
| RuntimeError (msg : string)
| TimeoutError (msg : string)
| OverflowError (msg : string)
| AttributeError (msg : string)
| RegexError (msg : string)
| TransportError (msg : string) (peer : option string).

#[export] Instance exn_eq_dec : EqDecision exn.
Proof. solve_decision. Defined.

(** A computation that returns or raises. *)
Inductive res (A : Type) : Type :=
| Ok (a : A)
| Raise (e : exn).
Arguments Ok {A} _.
Arguments Raise {A} _.

#[export] Instance res_eq_dec {A} `{EqDecision A} : EqDecision (res A).
Proof. solve_decision. Defined.

#[export] Instance res_ret : MRet res := fun A a => Ok a.
#[export] Instance res_bind : MBind res := fun A B f m =>
  match m with Ok a => f a | Raise e => Raise e end.
#[export] Instance res_fmap : FMap res := fun A B f m =>
  match m with Ok a => Ok (f a) | Raise e => Raise e end.

Definition is_ok {A} (r : res A) : bool :=
  match r with Ok _ => true | Raise _ => false end.

Lemma res_bind_ok {A B} (m : res A) (f : A → res B) b :
  (m ≫= f) = Ok b ↔ ∃ a, m = Ok a ∧ f a = Ok b.
Proof.
  unfold mbind, res_bind. destruct m as [a|e]; split.
  - eauto.
  - intros (a' & [= ->] & H). exact H.
  - discriminate.
  - intros (a' & H & _). discriminate.
Qed.

Lemma res_fmap_ok {A B} (m : res A) (f : A → B) b :
  (f <$> m) = Ok b ↔ ∃ a, m = Ok a ∧ f a = b.
Proof.
  unfold fmap, res_fmap. destruct m as [a|e]; split.
  - intros [= <-]. eauto.
  - intros (a' & [= ->] & <-). reflexivity.
  - discriminate.
  - intros (a' & H & _). discriminate.
Qed.

(** [mapM] over [res] succeeds exactly when every element does. *)
Lemma mapM_res_ok {A B} (f : A → res B) (l : list A) (k : list B) :
  mapM f l = Ok k ↔ Forall2 (fun a b => f a = Ok b) l k.
Proof.
  revert k. induction l as [|a l IH]; intros k; simpl.
  - split; [intros [= <-]; constructor | by inversion 1].
  - rewrite res_bind_ok. split.
    + intros (b & Hb & Hk). apply res_bind_ok in Hk as (k' & Hk' & [= <-]).
      constructor; [done | by apply IH].
    + inversion 1 as [|? b ? k' Hb Hk]; subst. exists b. split; [done|].
      apply res_bind_ok. exists k'. split; [by apply IH | done].
Qed.

Lemma mapM_res_map {A B} (f : A → res B) (g : A → B) (l : list A) :
  (∀ a, a ∈ l → f a = Ok (g a)) → mapM f l = Ok (g <$> l).
Proof.
  intros H. apply mapM_res_ok. apply Forall2_fmap_r, Forall_Forall2_diag.
  apply Forall_forall. exact H.
Qed.

(** ** Tactics and hints *)

(** Split a successful computation into its successful parts. *)
Ltac inv_ok :=
  repeat match goal with
  | H : (_ ≫= _) = Ok _ |- _ =>
      let a := fresh "a" in let Ha := fresh "Ha" in
      apply res_bind_ok in H as (a & Ha & H)
  | H : (_ <$> _) = Ok _ |- _ =>
      let a := fresh "a" in let Ha := fresh "Ha" in
      apply res_fmap_ok in H as (a & Ha & H)
  | H : Ok _ = Ok _ |- _ => injection H as H
  | H : mret _ = Ok _ |- _ => injection H as H
  | H : Raise _ = Ok _ |- _ => discriminate H
  | H : Some _ = Some _ |- _ => injection H as H
  | H : None = Some _ |- _ => discriminate H
  end.

(** Case analysis on the boolean conditionals of a goal, with the reflected
    proposition as hypothesis. *)
Ltac split_if :=
  repeat match goal with
  | |- context [if ?b then _ else _] =>
      match type of b with bool => let E := fresh "E" in destruct b eqn:E end
  end.

Create HintDb tm discriminated.

(** ** Lists *)

(** [x in l] of Python on a list of comparable values. *)
Definition inb {A} `{EqDecision A} (x : A) (l : list A) : bool :=
  bool_decide (x ∈ l).

Declare Scope tm_scope.
Delimit Scope tm_scope with tm.
Notation "x ∈? l" := (inb x l) (at level 70, no associativity) : tm_scope.
Open Scope tm_scope.

Lemma inb_true {A} `{EqDecision A} (x : A) l : inb x l = true ↔ x ∈ l.
Proof. unfold inb. apply bool_decide_eq_true. Qed.
Lemma inb_false {A} `{EqDecision A} (x : A) l : inb x l = false ↔ x ∉ l.
Proof. unfold inb. apply bool_decide_eq_false. Qed.

(** [list.remove(x)] inside [try/except ValueError]: drop the first
    occurrence, or leave the list alone. *)
Fixpoint remove_first {A} `{EqDecision A} (x : A) (l : list A) : list A :=
  match l with
  | [] => []
  | y :: l' => if decide (x = y) then l' else y :: remove_first x l'
  end.

Lemma elem_of_remove_first {A} `{EqDecision A} (x y : A) l :
  y ∈ remove_first x l → y ∈ l.
Proof.
  induction l as [|z l IH]; simpl; [done|]. case_decide; set_solver.
Qed.

Lemma elem_of_remove_first_ne {A} `{EqDecision A} (x y : A) l :
  x ≠ y → y ∈ remove_first x l ↔ y ∈ l.
Proof.
  intros Hne. induction l as [|z l IH]; simpl; [done|]. case_decide; set_solver.
Qed.

Lemma NoDup_remove_first {A} `{EqDecision A} (x : A) l :
  NoDup l → NoDup (remove_first x l).
Proof.
  induction 1 as [|z l Hz Hl IH]; simpl; [constructor|]. case_decide; [done|].
  constructor; [|done]. intros ?%elem_of_remove_first. done.
Qed.

Lemma not_elem_of_remove_first {A} `{EqDecision A} (x : A) l :
  NoDup l → x ∉ remove_first x l.
Proof.
  induction 1 as [|z l Hz Hl IH]; simpl; [set_solver|]. case_decide; set_solver.
Qed.

(** Append the elements of [new] that are not yet there, in order: the
    [if s not in acc: acc.append(s)] loop. *)
Definition append_new {A} `{EqDecision A} (acc new : list A) : list A :=
  foldl (fun acc s => if inb s acc then acc else acc ++ [s]) acc new.

Lemma elem_of_append_new {A} `{EqDecision A} (acc new : list A) x :
  x ∈ append_new acc new ↔ x ∈ acc ∨ x ∈ new.
Proof.
  unfold append_new. revert acc.
  induction new as [|s new IH]; intros acc; simpl; [set_solver|].
  rewrite IH. destruct (inb s acc) eqn:E.
  - apply inb_true in E. set_solver.
  - set_solver.
Qed.

Lemma NoDup_append_new {A} `{EqDecision A} (acc new : list A) :
  NoDup acc → NoDup (append_new acc new).
Proof.
  unfold append_new. revert acc.
  induction new as [|s new IH]; intros acc Hacc; simpl; [done|].
  apply IH. destruct (inb s acc) eqn:E; [done|].
  apply inb_false in E. apply NoDup_app. split_and!; [done| |].
  - intros x Hx ->%list_elem_of_singleton. done.
  - apply NoDup_singleton.
Qed.

(** Lookup in an association list: the first pair with that key. *)
Fixpoint alookup {K V} `{EqDecision K} (k : K) (l : list (K * V)) : option V :=
  match l with
  | [] => None
  | (k', v) :: l' => if decide (k = k') then Some v else alookup k l'
  end.

Lemma alookup_elem_of {K V} `{EqDecision K} (k : K) (v : V) l :
  alookup k l = Some v → (k, v) ∈ l.
Proof.
  induction l as [|[k' v'] l IH]; simpl; [done|].
  case_decide as Hk; intros H; [injection H as ->; subst; left|right; auto].
Qed.

Lemma alookup_NoDup {K V} `{EqDecision K} (k : K) (v : V) l :
  NoDup l.*1 → (k, v) ∈ l → alookup k l = Some v.
Proof.
  induction l as [|[k' v'] l IH]; simpl; intros Hnd Hin; [set_solver|].
  apply NoDup_cons in Hnd as [Hk' Hnd].
  apply elem_of_cons in Hin as [[= -> ->]|Hin]; [by rewrite decide_True|].
  rewrite decide_False; [by apply IH|]. intros ->. apply Hk'.
  by apply (list_elem_of_fmap_2 fst _ (k', v)).
Qed.

Lemma alookup_None {K V} `{EqDecision K} (k : K) (l : list (K * V)) :
  alookup k l = None ↔ k ∉ l.*1.
Proof.
  induction l as [|[k' v'] l IH]; simpl; [set_solver|].
  case_decide as Hk; [split; [done|]|rewrite IH]; set_solver.
Qed.

#[export] Hint Resolve alookup_elem_of NoDup_append_new NoDup_remove_first : tm.

(** Last element of a non-empty path. *)
Lemma last_snoc_Some {A} (l : list A) x : last (l ++ [x]) = Some x.
Proof. apply last_snoc. Qed.

(** ** Strings *)

#[global] Arguments String.append : simpl nomatch.

(** [str.lower] on ASCII letters. *)
Definition ascii_lower (c : ascii) : ascii :=
  let n := nat_of_ascii c in
  if ((65 <=? n) && (n <=? 90))%nat then ascii_of_nat (n + 32) else c.

Fixpoint str_lower (s : string) : string :=
  match s with
  | EmptyString => EmptyString
  | String c s' => String (ascii_lower c) (str_lower s')
  end.

(** Whitespace of [str.strip] and of the regex class [\s], ASCII part. *)
Definition is_space (c : ascii) : bool :=
  let n := nat_of_ascii c in
  (((9 <=? n) && (n <=? 13)) || ((28 <=? n) && (n <=? 31)) || (n =? 32))%nat.

Definition is_digit (c : ascii) : bool :=
  let n := nat_of_ascii c in ((48 <=? n) && (n <=? 57))%nat.

Definition is_alpha (c : ascii) : bool :=
  let n := nat_of_ascii c in
  (((65 <=? n) && (n <=? 90)) || ((97 <=? n) && (n <=? 122)))%nat.

Fixpoint lstrip (s : string) : string :=
  match s with
  | EmptyString => EmptyString
  | String c s' => if is_space c then lstrip s' else s
  end.

Fixpoint rstrip (s : string) : string :=
  match s with
  | EmptyString => EmptyString
  | String c s' =>
      match rstrip s' with
      | EmptyString => if is_space c then EmptyString else String c EmptyString
      | r => String c r
      end
  end.

Definition strip (s : string) : string := rstrip (lstrip s).

(** ["".join(parts)]. *)
Definition join_empty (parts : list string) : string := foldr String.append EmptyString parts.

Fixpoint str_forall (p : ascii → bool) (s : string) : bool :=
  match s with
  | EmptyString => true
  | String c s' => p c && str_forall p s'
  end.

Lemma str_forall_app p s t :
  str_forall p (s +:+ t) = str_forall p s && str_forall p t.
Proof. induction s as [|c s IH]; simpl; [done|]. by rewrite IH, andb_assoc. Qed.

Lemma str_app_nil_r s : s +:+ EmptyString = s.
Proof. induction s as [|c s IH]; simpl; [done|]. by rewrite IH. Qed.

Lemma str_app_assoc a b c : (a +:+ b) +:+ c = a +:+ (b +:+ c).
Proof. induction a as [|x a IH]; simpl; [done|]. by rewrite IH. Qed.

Lemma str_app_inj_l a b c : a +:+ b = a +:+ c → b = c.
Proof. induction a as [|x a IH]; simpl; [done|]. intros [= H]. auto. Qed.

Lemma str_length_app a b : String.length (a +:+ b) = String.length a + String.length b.
Proof. induction a as [|c a IH]; [done|]. simpl. by rewrite IH. Qed.

Lemma substring_app_l a b : String.substring 0 (String.length a) (a +:+ b) = a.
Proof. induction a as [|c a IH]; [by destruct b|]. simpl. by rewrite IH. Qed.

Lemma substring_app_r a b n m : String.substring (String.length a + n) m (a +:+ b) = String.substring n m b.
Proof. induction a as [|c a IH]; [done|]. apply IH. Qed.

Lemma substring_all s : String.substring 0 (String.length s) s = s.
Proof. rewrite <-(str_app_nil_r s) at 2. apply substring_app_l. Qed.

Lemma lstrip_nospace s : str_forall (fun c => negb (is_space c)) s = true → lstrip s = s.
Proof. destruct s as [|c s]; simpl; [done|]. by destruct (is_space c). Qed.

Lemma rstrip_nospace s : str_forall (fun c => negb (is_space c)) s = true → rstrip s = s.
Proof.
  induction s as [|c s IH]; simpl; [done|]. intros [Hc Hs]%andb_true_iff.
  rewrite (IH Hs). destruct s; [|done]. by destruct (is_space c).
Qed.

Lemma strip_nospace s : str_forall (fun c => negb (is_space c)) s = true → strip s = s.
Proof. intros H. unfold strip. rewrite (lstrip_nospace s H). by apply rstrip_nospace. Qed.

Lemma rstrip_nonspace c s : is_space c = false → rstrip (String c s) = String c (rstrip s).
Proof. intros Hc. simpl. rewrite Hc. by destruct (rstrip s). Qed.

Lemma rstrip_idem s : rstrip (rstrip s) = rstrip s.
Proof.
  induction s as [|c s IH]; [done|]. simpl. destruct (rstrip s) as [|d t] eqn:E.
  - destruct (is_space c) eqn:Ec; [done|]. simpl. by rewrite Ec.
  - cbn [rstrip] in IH |- *. by rewrite IH.
Qed.

Lemma strip_idem s : strip (strip s) = strip s.
Proof.
  unfold strip. assert (lstrip (rstrip (lstrip s)) = rstrip (lstrip s)) as ->; [|apply rstrip_idem].
  induction s as [|c s IH]; [done|]. cbn [lstrip]. destruct (is_space c) eqn:Ec; [done|].
  rewrite rstrip_nonspace by done. simpl. by rewrite Ec.
Qed.


(** ** Computations with fuel

    [None] when the fuel runs out, otherwise a result or an exception. *)
Definition fueled (A : Type) : Type := option (res A).

Definition fbind {A B} (m : fueled A) (f : A → fueled B) : fueled B :=
  match m with
  | None => None
  | Some (Raise e) => Some (Raise e)
  | Some (Ok a) => f a
  end.

Notation "'let!' x := m 'in' f" := (fbind m (fun x => f))
  (at level 10, x name, m at level 100, f at level 200) : tm_scope.

Lemma fbind_ok {A B} (m : fueled A) (f : A → fueled B) b :
  fbind m f = Some (Ok b) ↔ ∃ a, m = Some (Ok a) ∧ f a = Some (Ok b).
Proof.
  destruct m as [[a|e]|]; simpl; split.
  - eauto.
  - by intros (a' & [= ->] & H).
  - done.
  - by intros (a' & ? & H).
  - done.
  - by intros (a' & ? & H).
Qed.

(** [for x in l: out.append(f(x))] over such computations. *)
Fixpoint fmapM {A B} (f : A → fueled B) (l : list A) : fueled (list B) :=
  match l with
  | [] => Some (Ok [])
  | x :: l' => fbind (f x) (fun y => fbind (fmapM f l') (fun k => Some (Ok (y :: k))))
  end.
