(* ===== verification/PyVal.v ===== *)
(** * Python values shared by the components

    [pyfloat]: a binary64 value as the code observes it through comparison
    and addition: an exact finite number (counted in a fixed unit), the two
    infinities and NaN.  [json]: the values that reach [json.dumps].  String
    sorting in code-point order. *)

From S2P Require Import Prelude.
From stdpp Require Import base gmap strings list sorting.
From Stdlib Require Import ZArith Lia Ascii.

(** ** Floats

    Finite floats are counted in millionths (seconds in microseconds); finer
    fractions and the rounding of sums are not modelled. *)
Inductive pyfloat : Type :=
| Fin (z : Z)
| PInf
| NInf
| NaN.

#[export] Instance pyfloat_eq_dec : EqDecision pyfloat.
Proof. solve_decision. Defined.

(** [a < b], false as soon as one side is NaN. *)
Definition flt (a b : pyfloat) : bool :=
  match a, b with
  | Fin x, Fin y => (x <? y)%Z
  | Fin _, PInf | NInf, Fin _ | NInf, PInf => true
  | _, _ => false
  end.

(** [a == b]: NaN differs from itself. *)
Definition feq (a b : pyfloat) : bool :=
  match a, b with
  | Fin x, Fin y => (x =? y)%Z
  | PInf, PInf | NInf, NInf => true
  | _, _ => false
  end.

(** [a >= b]. *)
Definition fge (a b : pyfloat) : bool := flt b a || feq a b.

Definition fadd (a b : pyfloat) : pyfloat :=
  match a, b with
  | Fin x, Fin y => Fin (x + y)
  | NaN, _ | _, NaN => NaN
  | PInf, NInf | NInf, PInf => NaN
  | PInf, _ | _, PInf => PInf
  | NInf, _ | _, NInf => NInf
  end.

Definition fneg (a : pyfloat) : pyfloat :=
  match a with Fin x => Fin (- x) | PInf => NInf | NInf => PInf | NaN => NaN end.

Definition fsub (a b : pyfloat) : pyfloat := fadd a (fneg b).

(** Python's [max(a, b)]: [b] only when [b > a]. *)
Definition fmax (a b : pyfloat) : pyfloat := if flt a b then b else a.

Definition fisnan (a : pyfloat) : bool :=
  match a with NaN => true | _ => false end.

(** The float [1.0] and the conversion [float(n)] of an integer, in the unit
    of the model. *)
Definition funit : Z := 1000000.
Definition of_int (n : Z) : pyfloat := Fin (n * funit).
Definition fone : pyfloat := of_int 1.
Definition fzero : pyfloat := Fin 0.

(** ** Sorting strings in code-point order *)

Definition str_le (s t : string) : Prop := String.leb s t = true.

#[export] Instance str_le_dec : RelDecision str_le.
Proof. intros s t. unfold str_le. apply _. Defined.

Lemma ascii_compare_refl_iff (a b : ascii) : Ascii.compare a b = Eq ↔ a = b.
Proof.
  unfold Ascii.compare. rewrite N.compare_eq_iff. split; [|by intros ->].
  intros H. rewrite <- (ascii_N_embedding a), <- (ascii_N_embedding b). by rewrite H.
Qed.

Lemma str_compare_eq s t : String.compare s t = Eq ↔ s = t.
Proof.
  split; [apply String.compare_eq_iff|]. intros ->. induction t as [|c t IH]; [done|].
  simpl. by rewrite (proj2 (ascii_compare_refl_iff c c) eq_refl).
Qed.

#[export] Instance str_le_total : Total str_le.
Proof.
  intros s t. unfold str_le, String.leb.
  rewrite (String.compare_antisym t s). destruct (String.compare s t); simpl; auto.
Qed.

#[export] Instance str_le_antisymm : AntiSymm (=) str_le.
Proof.
  intros s t. unfold str_le, String.leb.
  rewrite (String.compare_antisym t s).
  destruct (String.compare s t) eqn:E; simpl; intros; try done.
  by apply str_compare_eq in E.
Qed.

Lemma str_le_alt s t : str_le s t ↔ String.compare s t ≠ Gt.
Proof. unfold str_le, String.leb. destruct (String.compare s t); naive_solver. Qed.

#[export] Instance str_le_trans : Transitive str_le.
Proof.
  intros s t u. rewrite !str_le_alt. revert t u.
  induction s as [|a s IH]; intros [|b t] [|c u]; simpl; try done.
  unfold Ascii.compare.
  destruct (N.compare_spec (N_of_ascii a) (N_of_ascii b)) as [E1|E1|E1];
  destruct (N.compare_spec (N_of_ascii b) (N_of_ascii c)) as [E2|E2|E2];
  destruct (N.compare_spec (N_of_ascii a) (N_of_ascii c)) as [E3|E3|E3];
  try done; try lia; eauto.
Qed.

(** [sorted(d.items(), key=lambda kv: kv[0])]: by key, unique keys. *)
Definition key_le {V} (a b : string * V) : Prop := str_le a.1 b.1.

#[export] Instance key_le_dec {V} : RelDecision (@key_le V).
Proof. intros a b. unfold key_le. apply _. Defined.
#[export] Instance key_le_trans {V} : Transitive (@key_le V).
Proof. intros a b c. unfold key_le. apply transitivity. Qed.
#[export] Instance key_le_total {V} : Total (@key_le V).
Proof. intros a b. unfold key_le. apply str_le_total. Qed.

Definition sort_items {V} (l : list (string * V)) : list (string * V) :=
  merge_sort key_le l.

Definition sort_strings (l : list string) : list string := merge_sort str_le l.

Lemma sort_items_perm {V} (l : list (string * V)) : sort_items l ≡ₚ l.
Proof. apply merge_sort_Permutation. Qed.

Lemma elem_of_sort_strings x l : x ∈ sort_strings l ↔ x ∈ l.
Proof. unfold sort_strings. by rewrite merge_sort_Permutation. Qed.

(** ** JSON values *)

Inductive json : Type :=
| JNull
| JBool (b : bool)
| JInt (z : Z)
| JFloat (f : pyfloat)
| JStr (s : string)
| JArr (l : list json)
| JObj (l : list (string * json)).

Fixpoint json_eqb (a b : json) {struct a} : bool :=
  match a, b with
  | JNull, JNull => true
  | JBool x, JBool y => Bool.eqb x y
  | JInt x, JInt y => (x =? y)%Z
  | JFloat x, JFloat y => bool_decide (x = y)
  | JStr x, JStr y => String.eqb x y
  | JArr x, JArr y =>
      (fix go (x y : list json) {struct x} : bool :=
         match x, y with
         | [], [] => true
         | a :: x, b :: y => json_eqb a b && go x y
         | _, _ => false
         end) x y
  | JObj x, JObj y =>
      (fix go (x y : list (string * json)) {struct x} : bool :=
         match x, y with
         | [], [] => true
         | (k, a) :: x, (k', b) :: y => String.eqb k k' && json_eqb a b && go x y
         | _, _ => false
         end) x y
  | _, _ => false
  end.

(** Induction with the hypothesis for every nested value. *)
Section json_ind.
Context (P : json → Prop).
Context (Hnull : P JNull) (Hbool : ∀ b, P (JBool b)) (Hint : ∀ z, P (JInt z))
        (Hfloat : ∀ f, P (JFloat f)) (Hstr : ∀ s, P (JStr s))
        (Harr : ∀ l, Forall P l → P (JArr l))
        (Hobj : ∀ l, Forall (fun kv => P kv.2) l → P (JObj l)).

Fixpoint json_ind' (j : json) : P j :=
  match j with
  | JNull => Hnull
  | JBool b => Hbool b
  | JInt z => Hint z
  | JFloat f => Hfloat f
  | JStr s => Hstr s
  | JArr l =>
      Harr l ((fix go l : Forall P l :=
                 match l with
                 | [] => Forall_nil_2 _
                 | a :: l => Forall_cons_2 _ _ _ (json_ind' a) (go l)
                 end) l)
  | JObj l =>
      Hobj l ((fix go l : Forall (fun kv => P kv.2) l :=
                 match l with
                 | [] => Forall_nil_2 _
                 | kv :: l => Forall_cons_2 _ _ _ (json_ind' kv.2) (go l)
                 end) l)
  end.
End json_ind.

Lemma json_eqb_eq a b : json_eqb a b = true ↔ a = b.
Proof.
  revert b. induction a as [|x|x|x|x|l IH|l IH] using json_ind'; intros [|y|y|y|y|k|k];
    simpl; try (by split; [discriminate|congruence]); try done.
  - rewrite Bool.eqb_true_iff. naive_solver.
  - rewrite Z.eqb_eq. naive_solver.
  - rewrite bool_decide_eq_true. naive_solver.
  - rewrite String.eqb_eq. naive_solver.
  - revert k. induction IH as [|a l Ha Hl IHl]; intros [|b k]; try (by split; [discriminate|congruence]); [done|].
    rewrite andb_true_iff, Ha, IHl. naive_solver.
  - revert k. induction IH as [|[ka a] l Ha Hl IHl]; intros [|[kb b] k];
      try (by split; [discriminate|congruence]); [done|]. simpl in *.
    rewrite !andb_true_iff, String.eqb_eq, Ha, IHl. naive_solver.
Qed.

#[export] Instance json_eq_dec : EqDecision json.
Proof.
  intros a b. destruct (json_eqb a b) eqn:E; [left|right].
  - by apply json_eqb_eq.
  - intros H%json_eqb_eq. congruence.
Defined.

(** [bool(value)]. *)
Definition truthy (j : json) : bool :=
  match j with
  | JNull => false
  | JBool b => b
  | JInt z => negb (z =? 0)%Z
  | JFloat f => negb (bool_decide (f = Fin 0))
  | JStr s => negb (String.eqb s "")
  | JArr l => match l with [] => false | _ => true end
  | JObj l => match l with [] => false | _ => true end
  end.
