(* ===== verification/PyConv.v ===== *)
(** * Conversions between Python values

    What the code uses of [dict.get], [or], iteration, [str], [int], [float]
    and [dict(...)] on values that come from JSON or TOML. *)

From S2P Require Import Prelude PyVal.
From stdpp Require Import base gmap strings list pretty.
From Stdlib Require Import ZArith Lia Ascii.

(** [d.get(key)] on a mapping. *)
Definition jget (key : string) (m : list (string * json)) : json :=
  default JNull (alookup key m).

(** [value or default]. *)
Definition jor (v d : json) : json := if truthy v then v else d.

(** Iterating over a value: a sequence's elements, a mapping's keys, a
    string's characters. *)
Fixpoint chars (s : string) : list json :=
  match s with EmptyString => [] | String c s' => JStr (String c EmptyString) :: chars s' end.

Definition py_iter (v : json) : res (list json) :=
  match v with
  | JArr l => Ok l
  | JObj m => Ok (JStr <$> m.*1)
  | JStr s => Ok (chars s)
  | _ => Raise (TypeError "object is not iterable")
  end.

(** [str(value)]; [other_str] is its text on floats, lists and mappings,
    which the code never inspects. *)
Definition py_str (other_str : json → string) (v : json) : string :=
  match v with
  | JStr s => s
  | JNull => "None"
  | JBool b => if b then "True" else "False"
  | JInt z => pretty z
  | _ => other_str v
  end.

(** The text conversions the code leaves to the interpreter: [str] of floats
    and containers, [float] and [int] of strings. *)
Class PyText := {
  other_str : json → string;
  float_of_str : string → option pyfloat;
  int_of_str : string → option Z
}.

(** No string reads as a number: enough to evaluate what never parses one. *)
Definition plain_text : PyText :=
  {| other_str := fun _ => EmptyString;
     float_of_str := fun _ => None;
     int_of_str := fun _ => None |}.

(** The smallest integer [float] refuses: it would round to [2^1024]. *)
Definition float_max : Z := 2 ^ 1024 - 2 ^ 970.

Section conversions.
Context `{PyText}.

(** [float(value)]. *)
Definition py_float (v : json) : res pyfloat :=
  match v with
  | JFloat f => Ok f
  | JBool b => Ok (of_int (if b then 1 else 0))
  | JInt z =>
      if (Z.abs z <? float_max)%Z then Ok (of_int z)
      else Raise (OverflowError "int too large to convert to float")
  | JStr s =>
      match float_of_str s with
      | Some f => Ok f
      | None => Raise (ValueError ("could not convert string to float: " +:+ s))
      end
  | _ => Raise (TypeError "float() argument must be a string or a real number")
  end.

(** [int(value)]: floats are truncated towards zero. *)
Definition py_int (v : json) : res Z :=
  match v with
  | JInt z => Ok z
  | JBool b => Ok (if b then 1 else 0)%Z
  | JFloat (Fin z) => Ok (Z.quot z funit)
  | JFloat NaN => Raise (ValueError "cannot convert float NaN to integer")
  | JFloat _ => Raise (OverflowError "cannot convert float infinity to integer")
  | JStr s =>
      match int_of_str s with
      | Some z => Ok z
      | None => Raise (ValueError ("invalid literal for int() with base 10: " +:+ s))
      end
  | _ => Raise (TypeError "int() argument must be a string or a real number")
  end.
End conversions.

(** [isinstance(value, Mapping)], with its items. *)
Definition as_mapping (v : json) : option (list (string * json)) :=
  match v with JObj m => Some m | _ => None end.

(** [d[key] = value] keeps the position of a key that is there. *)
Fixpoint dict_set {V} (key : string) (v : V) (m : list (string * V)) : list (string * V) :=
  match m with
  | [] => [(key, v)]
  | (k, x) :: m' => if decide (key = k) then (k, v) :: m' else (k, x) :: dict_set key v m'
  end.

(** [d.pop(key, None)], the mapping that is left. *)
Definition dict_pop {V} (key : string) (m : list (string * V)) : list (string * V) :=
  filter (fun kv => kv.1 ≠ key) m.

(** [{**a, **b}]. *)
Definition dict_update {V} (a b : list (string * V)) : list (string * V) :=
  foldl (fun m kv => dict_set kv.1 kv.2 m) a b.

(** Python's [==] on values: numbers compare across their types, mappings
    without order. *)
Fixpoint py_eq (a b : json) {struct a} : bool :=
  let num (v : json) : option pyfloat :=
    match v with
    | JBool b => Some (of_int (if b then 1 else 0))
    | JInt z => Some (of_int z)
    | JFloat f => Some f
    | _ => None
    end in
  match a, b with
  | JNull, JNull => true
  | JStr x, JStr y => String.eqb x y
  | JArr x, JArr y =>
      (fix go (x y : list json) {struct x} : bool :=
         match x, y with
         | [], [] => true
         | a :: x, b :: y => py_eq a b && go x y
         | _, _ => false
         end) x y
  | JObj x, JObj y =>
      Nat.eqb (length x) (length y) &&
      (fix go (x : list (string * json)) {struct x} : bool :=
         match x with
         | [] => true
         | (k, a) :: x =>
             match alookup k y with Some b => py_eq a b && go x | None => false end
         end) x
  | _, _ => match num a, num b with Some f, Some g => feq f g | _, _ => false end
  end.

(** [s.split(c)]: never empty. *)
Fixpoint split_char (c : ascii) (s : string) : string * list string :=
  match s with
  | EmptyString => (EmptyString, [])
  | String a s' =>
      let '(p, rest) := split_char c s' in
      if decide (a = c) then (EmptyString, p :: rest) else (String a p, rest)
  end.

(** [json.dumps(value, sort_keys=True)] writes the keys of mappings in order. *)
Fixpoint sort_keys (v : json) : json :=
  match v with
  | JArr l => JArr ((fix go (l : list json) : list json :=
                       match l with [] => [] | x :: l => sort_keys x :: go l end) l)
  | JObj m => JObj (sort_items ((fix go (m : list (string * json)) : list (string * json) :=
                       match m with [] => [] | (k, x) :: m => (k, sort_keys x) :: go m end) m))
  | _ => v
  end.

(** [dict(value)]: a mapping, or a sequence of pairs.  Keys are strings, as in
    JSON. *)
Definition dict_pair (v : json) : res (string * json) :=
  items ← py_iter v;
  match items with
  | [JStr k; x] => Ok (k, x)
  | [_; _] => Raise (TypeError "dictionary keys are strings")
  | _ => Raise (ValueError "dictionary update sequence element needs length 2")
  end.

Definition dict_of (v : json) : res (list (string * json)) :=
  match v with
  | JObj m => Ok m
  | _ =>
      items ← py_iter v;
      pairs ← mapM dict_pair items;
      Ok (dict_update [] pairs)
  end.

(** [data.get(key, default)] of something that must be a mapping. *)
Definition mapping_of (v : json) : res (list (string * json)) :=
  match v with JObj m => Ok m | _ => Raise (AttributeError "object has no attribute 'get'") end.

Definition get_or (key : string) (d : json) (m : list (string * json)) : json := default d (alookup key m).

(** ** Ordered dictionaries *)

Lemma alookup_dict_set {V} key k (v : V) m :
  alookup k (dict_set key v m) = if decide (k = key) then Some v else alookup k m.
Proof.
  induction m as [|[k' x] m IH]; simpl; [by repeat case_decide|].
  repeat case_decide; subst; simpl; repeat case_decide; try congruence.
Qed.

Lemma alookup_dict_pop {V} key k (m : list (string * V)) :
  alookup k (dict_pop key m) = if decide (k = key) then None else alookup k m.
Proof.
  unfold dict_pop. induction m as [|[k' x] m IH]; simpl; [by case_decide|].
  destruct (decide (k' = key)) as [->|Hne].
  - rewrite filter_cons_False by (simpl; naive_solver). rewrite IH.
    repeat case_decide; congruence.
  - rewrite filter_cons_True by done. simpl. rewrite IH. repeat case_decide; congruence.
Qed.

Lemma dict_pop_app {V} key (l k : list (string * V)) :
  dict_pop key (l ++ k) = dict_pop key l ++ dict_pop key k.
Proof. apply filter_app. Qed.

Lemma dict_pop_notin {V} key (l : list (string * V)) : key ∉ l.*1 → dict_pop key l = l.
Proof.
  unfold dict_pop. induction l as [|[k v] l IH]; [done|]. rewrite fmap_cons. intros Hk.
  rewrite filter_cons_True by (simpl in *; set_solver). f_equal. apply IH. set_solver.
Qed.

Lemma dict_pop_cons {V} key (v : V) l : dict_pop key ((key, v) :: l) = dict_pop key l.
Proof. unfold dict_pop. by rewrite filter_cons_False by (simpl; tauto). Qed.

Lemma elem_of_dict_pop {V} key (l : list (string * V)) kv :
  kv ∈ dict_pop key l ↔ kv.1 ≠ key ∧ kv ∈ l.
Proof. unfold dict_pop. by rewrite list_elem_of_filter. Qed.

Lemma dict_pop_keys {V} key k (l : list (string * V)) :
  k ∈ (dict_pop key l).*1 ↔ k ≠ key ∧ k ∈ l.*1.
Proof.
  rewrite !list_elem_of_fmap. split.
  - intros (kv & -> & [H1 H2]%elem_of_dict_pop). eauto.
  - intros (Hne & kv & -> & Hin). exists kv. split; [done|]. by apply elem_of_dict_pop.
Qed.

Lemma NoDup_filter_keys {V} (P : string * V → Prop) `{∀ x, Decision (P x)} l :
  NoDup l.*1 → NoDup (filter P l).*1.
Proof.
  induction l as [|kv l IH]; [done|]. rewrite fmap_cons. intros [Hk Hnd]%NoDup_cons.
  rewrite filter_cons. case_decide; [|by apply IH]. rewrite fmap_cons. constructor; [|by apply IH].
  intros (kv' & E & [_ Hin]%list_elem_of_filter)%list_elem_of_fmap. apply Hk. rewrite E.
  by apply list_elem_of_fmap_2.
Qed.

Lemma NoDup_dict_pop {V} key (l : list (string * V)) : NoDup l.*1 → NoDup (dict_pop key l).*1.
Proof. apply NoDup_filter_keys. Qed.

Lemma length_dict_pop {V} key (l : list (string * V)) : length (dict_pop key l) ≤ length l.
Proof. apply length_filter. Qed.

(** Assigning and then moving to the end: the old entry, if any, is gone. *)
Lemma pop_dict_set {V} key (v : V) l : dict_pop key (dict_set key v l) = dict_pop key l.
Proof.
  unfold dict_pop. induction l as [|[k x] l IH]; simpl.
  - by rewrite filter_cons_False by (simpl; naive_solver).
  - case_decide as Hk.
    + subst. by rewrite !filter_cons_False by (simpl; naive_solver).
    + rewrite !filter_cons_True by (simpl; congruence). by rewrite IH.
Qed.

Lemma dict_pop_length_in {V} key (l : list (string * V)) :
  key ∈ l.*1 → S (length (dict_pop key l)) ≤ length l.
Proof.
  unfold dict_pop. induction l as [|[k v] l IH]; [set_solver|]. rewrite fmap_cons. intros Hin.
  destruct (decide (k = key)) as [->|Hne].
  - rewrite filter_cons_False by (simpl; naive_solver).
    pose proof (length_filter (fun kv : string * V => kv.1 ≠ key) l). simpl. lia.
  - rewrite filter_cons_True by done. simpl. apply le_n_S, IH. set_solver.
Qed.

Lemma dict_set_fresh {V} key (v : V) l : key ∉ l.*1 → dict_set key v l = l ++ [(key, v)].
Proof.
  induction l as [|[k x] l IH]; [done|]. rewrite fmap_cons. intros Hk. simpl.
  rewrite decide_False by (simpl in Hk; set_solver). f_equal. apply IH. set_solver.
Qed.

Lemma alookup_filter {V} (P : string * V → Prop) `{∀ x, Decision (P x)} k l :
  NoDup l.*1 →
  alookup k (filter P l) = v ← alookup k l; if decide (P (k, v)) then Some v else None.
Proof.
  induction l as [|[k' v] l IH]; [done|]. rewrite fmap_cons. intros [Hk Hnd]%NoDup_cons. simpl in Hk.
  rewrite filter_cons. simpl. destruct (decide (k = k')) as [->|Hne].
  - simpl. destruct (decide (P (k', v))); simpl; [by rewrite decide_True|].
    rewrite IH by done. apply alookup_None in Hk. by rewrite Hk.
  - destruct (decide (P (k', v))); simpl; [rewrite decide_False by done|]; by apply IH.
Qed.

Lemma NoDup_dict_set {V} key (v : V) l : NoDup l.*1 → NoDup (dict_set key v l).*1.
Proof.
  intros Hnd. destruct (decide (key ∈ l.*1)) as [Hin|Hni].
  - assert ((dict_set key v l).*1 = l.*1) as ->; [|done]. clear Hnd.
    induction l as [|[k x] l IH]; [set_solver|]. simpl. case_decide as Hk; [done|].
    rewrite !fmap_cons. f_equal. apply IH. rewrite fmap_cons in Hin. simpl in Hin. set_solver.
  - rewrite dict_set_fresh by done. rewrite fmap_app. apply NoDup_app.
    split_and!; [done| |apply NoDup_singleton]. intros k Hk ->%list_elem_of_singleton. done.
Qed.

Lemma dict_set_keys {V} key (v : V) l k : k ∈ (dict_set key v l).*1 ↔ k = key ∨ k ∈ l.*1.
Proof.
  induction l as [|[k' x] l IH]; csimpl; [set_solver|]. case_decide; subst; csimpl; [set_solver|].
  rewrite !elem_of_cons, IH. naive_solver.
Qed.

Lemma length_dict_set_in {V} key (v v' : V) l :
  alookup key l = Some v' → length (dict_set key v l) = length l.
Proof.
  induction l as [|[k x] l IH]; simpl; [done|]. case_decide; simpl; [done|]. intros E. f_equal. by apply IH.
Qed.

#[export] Hint Resolve NoDup_dict_pop NoDup_dict_set NoDup_filter_keys : tm.
