(* ===== verification/Selectors.v ===== *)
(** * Selectors and the pipeline ([tm/pipeline/selectors.py], [engine.py])

    A selector is a dotted path with optional brackets; [parse] splits it into
    tokens, [match_] tests a concrete path, and the verifier's
    [_selector_to_path] turns a written selector into the path it denotes. *)

From S2P Require Import Prelude.
From stdpp Require Import base gmap strings list.
From Stdlib Require Import ZArith Lia Ascii.

(** An element of a path: a key or an index. *)
Inductive pelem : Type :=
| PStr (s : string)
| PInt (z : Z).

#[export] Instance pelem_eq_dec : EqDecision pelem.
Proof. solve_decision. Defined.

Abbreviation Path := (list pelem).

(** [parse]: [buf] is the pending key, [br] the text since an open bracket
    (the slice [expr[i:j+1]] up to the next closing one). *)
Fixpoint parse_go (s buf : string) (br : option string) (toks : list string)
  : res (list string) :=
  match s with
  | EmptyString =>
      match br with
      | Some _ => Raise (ValueError "Unclosed '[' in selector")
      | None => Ok (if String.eqb buf "" then toks else toks ++ [buf])
      end
  | String ch s' =>
      match br with
      | Some acc =>
          if Ascii.eqb ch "]"
          then parse_go s' "" None (toks ++ [acc +:+ String ch ""])
          else parse_go s' "" (Some (acc +:+ String ch "")) toks
      | None =>
          if Ascii.eqb ch "." then
            parse_go s' "" None (if String.eqb buf "" then toks else toks ++ [buf])
          else if Ascii.eqb ch "[" then
            parse_go s' "" (Some "[") (if String.eqb buf "" then toks else toks ++ [buf])
          else parse_go s' (buf +:+ String ch "") None toks
      end
  end.

Definition parse (expr : string) : res (list string) := parse_go expr "" None [].

(** [tk.startswith("[") and tk.endswith("]")], with [tk[1:-1]]. *)
Fixpoint drop_last (s : string) : option (string * ascii) :=
  match s with
  | EmptyString => None
  | String c s' =>
      match drop_last s' with
      | None => Some (EmptyString, c)
      | Some (t, l) => Some (String c t, l)
      end
  end.

Definition bracketed (tk : string) : option string :=
  match tk with
  | String c s' =>
      if Ascii.eqb c "[" then
        match drop_last s' with
        | Some (inner, l) => if Ascii.eqb l "]" then Some inner else None
        | None => None
        end
      else None
  | EmptyString => None
  end.

(** [int(text)]: surrounding whitespace, a sign, digits with single
    underscores between them. *)
Fixpoint digits_go (s : string) (acc : Z) (after_digit : bool) : option Z :=
  match s with
  | EmptyString => if after_digit then Some acc else None
  | String c s' =>
      if is_digit c then
        digits_go s' (acc * 10 + (Z.of_nat (nat_of_ascii c) - 48)) true
      else if Ascii.eqb c "_" && after_digit then digits_go s' acc false
      else None
  end.

Definition py_int (s : string) : option Z :=
  match strip s with
  | String c s' =>
      if Ascii.eqb c "-" then Z.opp <$> digits_go s' 0 false
      else if Ascii.eqb c "+" then digits_go s' 0 false
      else digits_go (String c s') 0 false
  | EmptyString => None
  end.

(** One token against one path element. *)
Definition match_token (tk : string) (v : pelem) : bool :=
  if String.eqb tk "*" then true
  else if String.eqb tk "[]" then
    match v with PInt _ => true | PStr _ => false end
  else
    match bracketed tk with
    | Some inner =>
        if String.eqb inner "" then
          match v with PInt _ => true | PStr _ => false end
        else
          match py_int inner with
          | None => false
          | Some idx => bool_decide (v = PInt idx)
          end
    | None => bool_decide (v = PStr tk)
    end.

Fixpoint match_tokens (toks : list string) (path : Path) : bool :=
  match toks, path with
  | [], [] => true
  | [], _ :: _ => false
  | _ :: _, [] => false
  | tk :: toks', v :: path' => match_token tk v && match_tokens toks' path'
  end.

Definition match_ (expr : string) (path : Path) : res bool :=
  toks ← parse expr; Ok (match_tokens toks path).

(** [tm/verify/adapter.py: _selector_to_path]. *)
Definition token_to_elem (tk : string) : pelem :=
  if String.eqb tk "[]" then PInt 0
  else if String.eqb tk "*" then PStr "*"
  else
    match bracketed tk with
    | Some inner =>
        match py_int inner with Some i => PInt i | None => PStr inner end
    | None => PStr tk
    end.

Definition _selector_to_path (expr : string) : res Path :=
  toks ← parse expr; Ok (token_to_elem <$> (toks : list string)).

(** ** Properties *)

(** A token that can match the element it denotes: every bracket holds an
    integer (or nothing). *)
Definition concrete_token (tk : string) : bool :=
  match bracketed tk with
  | Some inner =>
      String.eqb inner "" || match py_int inner with Some _ => true | None => false end
  | None => true
  end.

Lemma match_token_self tk : match_token tk (token_to_elem tk) = concrete_token tk.
Proof.
  unfold match_token, token_to_elem, concrete_token.
  destruct (String.eqb_spec tk "*") as [->|Hstar]; [done|].
  destruct (String.eqb_spec tk "[]") as [->|Hbr]; [done|].
  destruct (bracketed tk) as [inner|] eqn:E; [|by apply bool_decide_eq_true].
  destruct (String.eqb_spec inner "") as [->|Hi]; simpl.
  - exfalso. apply Hbr. destruct tk as [|c tk]; [done|]. simpl in E.
    destruct (Ascii.eqb_spec c "["); [subst c|done].
    destruct tk as [|d tk]; [done|]. simpl in E.
    destruct (drop_last tk) as [[t l]|] eqn:Ed; [destruct (Ascii.eqb l "]"); done|].
    destruct (Ascii.eqb_spec d "]"); [subst d|done].
    destruct tk as [|x tk]; [done|]. simpl in Ed. destruct (drop_last tk) as [[??]|]; done.
  - destruct (py_int inner) as [i|]; [by apply bool_decide_eq_true|done].
Qed.

Lemma match_tokens_self toks :
  match_tokens toks (token_to_elem <$> toks) = forallb concrete_token toks.
Proof.
  induction toks as [|tk toks IH]; [done|].
  rewrite fmap_cons. cbn [match_tokens forallb]. by rewrite match_token_self, IH.
Qed.

(** The path denoted by a selector is matched by that selector exactly when
    every bracket of it holds an integer (or is empty): such a written
    selector fires the rules that name it, any other silently does not. *)
Lemma selector_self_match expr toks :
  parse expr = Ok toks →
  ∃ p, _selector_to_path expr = Ok p ∧
       match_ expr p = Ok (forallb concrete_token toks).
Proof.
  intros H. exists (token_to_elem <$> toks). unfold _selector_to_path, match_.
  rewrite H. unfold mbind, res_bind. by rewrite match_tokens_self.
Qed.

Example parse_ex : parse "services[].a[3].*" = Ok ["services"; "[]"; "a"; "[3]"; "*"].
Proof. vm_compute. reflexivity. Qed.
Example path_ex : _selector_to_path "a[3].b" = Ok [PStr "a"; PInt 3; PStr "b"].
Proof. vm_compute. reflexivity. Qed.

(** ** Plans and their runtime ([tm/pipeline/engine.py])

    [StepSpec], [Rule] and [Plan] are the data shared by the runtime pipeline
    and the verifier; [run] is [Selectors.run], with the spans sent to the trace
    sink returned in order. *)

From S2P Require Import Prelude PyVal.
From stdpp Require Import base gmap strings list.

Record StepSpec : Type := mkStep {
  s_name : string;
  s_reads : list string;
  s_writes : list string;
  s_fn : json → res json;
  s_clears : list string
}.

Record Rule : Type := mkRule {
  r_name : string;
  r_triggers : list string;
  r_steps : list string
}.

(** [steps] is a dict in insertion order. *)
Record Plan : Type := mkPlan {
  p_steps : list (string * StepSpec);
  p_rules : list Rule
}.

Definition get_step (p : Plan) (name : string) : option StepSpec :=
  alookup name (p_steps p).

(** A span of the trace, without its two timestamps. *)
Record TraceSpan : Type := mkSpan {
  t_rule : string;
  t_step : string;
  t_inputs : json;
  t_outputs : json;
  t_error : option exn
}.

(** [_match_any]: the nested loops, in order; a matcher may raise. *)
Fixpoint any_path (matcher : string → Path → res bool) (e : string) (changed : list Path)
  : res bool :=
  match changed with
  | [] => Ok false
  | p :: changed' =>
      b ← matcher e p; if (b : bool) then Ok true else any_path matcher e changed'
  end.

Fixpoint _match_any (exprs : list string) (changed : list Path)
  (matcher : string → Path → res bool) : res bool :=
  match exprs with
  | [] => Ok false
  | e :: exprs' =>
      b ← any_path matcher e changed;
      if (b : bool) then Ok true else _match_any exprs' changed matcher
  end.

(** The steps of one fired rule: an exception in a step is recorded in its
    span and stops the rule; an unknown step name is a [KeyError]. *)
Fixpoint run_steps (plan : Plan) (rule : Rule) (names : list string) (ctx : json)
  : res (json * list TraceSpan) :=
  match names with
  | [] => Ok (ctx, [])
  | step_name :: names' =>
      match get_step plan step_name with
      | None => Raise (KeyError step_name)
      | Some spec =>
          match s_fn spec ctx with
          | Ok ctx' =>
              '(ctx'', spans) ← run_steps plan rule names' ctx';
              Ok (ctx'', mkSpan (r_name rule) (s_name spec) ctx ctx' None :: spans)
          | Raise ex =>
              Ok (ctx, [mkSpan (r_name rule) (s_name spec) ctx ctx (Some ex)])
          end
      end
  end.

Fixpoint run_rules (plan : Plan) (rules : list Rule) (ctx : json)
  (changed : list Path) (matcher : string → Path → res bool)
  : res (json * list TraceSpan) :=
  match rules with
  | [] => Ok (ctx, [])
  | rule :: rules' =>
      fired ← _match_any (r_triggers rule) changed matcher;
      if (fired : bool) then
        '(ctx', spans) ← run_steps plan rule (r_steps rule) ctx;
        '(ctx'', spans') ← run_rules plan rules' ctx' changed matcher;
        Ok (ctx'', spans ++ spans')
      else run_rules plan rules' ctx changed matcher
  end.

Definition run (plan : Plan) (ctx : json) (changed : list Path)
  (matcher : string → Path → res bool) : res (json * list TraceSpan) :=
  run_rules plan (p_rules plan) ctx changed matcher.

(** ** The spans of a rule *)

(** The spans chain the context: each starts where the previous ended, only
    the last may carry an error, and they follow the rule's step names. *)
Inductive chained (plan : Plan) (rule : Rule) :
  list string → json → list TraceSpan → json → Prop :=
| chained_nil ctx : chained plan rule [] ctx [] ctx
| chained_error n ns spec ctx ex :
    get_step plan n = Some spec → s_fn spec ctx = Raise ex →
    chained plan rule (n :: ns) ctx
      [mkSpan (r_name rule) (s_name spec) ctx ctx (Some ex)] ctx
| chained_ok n ns spec ctx ctx' ctx'' spans :
    get_step plan n = Some spec → s_fn spec ctx = Ok ctx' →
    chained plan rule ns ctx' spans ctx'' →
    chained plan rule (n :: ns) ctx
      (mkSpan (r_name rule) (s_name spec) ctx ctx' None :: spans) ctx''.

Lemma run_steps_chained plan rule names ctx ctx' spans :
  run_steps plan rule names ctx = Ok (ctx', spans) ↔
  chained plan rule names ctx spans ctx'.
Proof.
  split.
  - revert ctx ctx' spans. induction names as [|n names IH]; simpl; intros ctx ctx' spans H.
    { inv_ok. simplify_eq. constructor. }
    destruct (get_step plan n) as [spec|] eqn:Hn; [|done].
    destruct (s_fn spec ctx) as [c|ex] eqn:Hf; inv_ok.
    + destruct a as [c' sp]. inv_ok. simplify_eq. eapply chained_ok; eauto.
    + simplify_eq. eapply chained_error; eauto.
  - induction 1 as [|n ns spec ctx ex Hn Hf|n ns spec ctx c1 c2 spans Hn Hf _ IH]; simpl;
      [done|by rewrite Hn, Hf|]. rewrite Hn, Hf, IH. done.
Qed.
