(* ===== verification/State.v ===== *)
(** * Kripke states, their hash, and transition systems ([tm/verify/state.py])

    [stable_hash] is SHA-256 of the JSON text of the state's payload; the
    digest of a payload is the only thing taken as a parameter. *)

From S2P Require Import Prelude PyVal.
From stdpp Require Import base gmap strings list sorting fin_maps.

Record State : Type := mkState {
  store : gmap string json;
  pending : list string;
  done_ : list string;
  events : list string
}.

#[export] Instance State_eq_dec : EqDecision State.
Proof. solve_decision. Defined.

(** [_normalize]: mappings sorted by key, recursively. *)
Fixpoint _normalize (v : json) : json :=
  match v with
  | JObj l => JObj (sort_items ((fix go (l : list (string * json)) :=
                match l with [] => [] | (k, v) :: l' => (k, _normalize v) :: go l' end) l))
  | JArr l => JArr (_normalize <$> l)
  | _ => v
  end.

Definition normalize_store (m : gmap string json) : json :=
  JObj ((fun kv => (kv.1, _normalize kv.2)) <$> sort_items (map_to_list m)).

(** The two hash modes of [stable_hash]; any other name is an error. *)
Inductive hash_mode : Type := HFull | HStore.

Definition hash_mode_of (mode : string) : res hash_mode :=
  if String.eqb mode "full" then Ok HFull
  else if String.eqb mode "store" then Ok HStore
  else Raise (ValueError ("Unknown hash mode '" +:+ mode +:+ "'")).

Definition payload (mode : hash_mode) (st : State) : json :=
  let jstrs (l : list string) := JArr (JStr <$> l) in
  match mode with
  | HStore => JObj [("store", normalize_store (store st))]
  | HFull => JObj [("store", normalize_store (store st));
                   ("pending", jstrs (pending st));
                   ("done", jstrs (done_ st));
                   ("events", jstrs (events st))]
  end.

(** [hashlib.sha256(json.dumps(payload, sort_keys=True))]. *)
Class Digest (K : Type) := {
  digest_eq_dec :: EqDecision K;
  digest : json → K
}.

(** Collision freedom of the digest on the payloads. *)
Class InjDigest K `{Digest K} := digest_inj :: Inj (=) (=) digest.

Section hash.
Context {K : Type} `{Digest K}.

Definition hash_with (mode : hash_mode) (st : State) : K := digest (payload mode st).

Definition stable_hash (mode : string) (st : State) : res K :=
  m ← hash_mode_of mode; Ok (hash_with m st).

(** The payload of [as_dict]. *)
Definition as_dict (st : State) : json :=
  let jstrs (l : list string) := JArr (JStr <$> l) in
  JObj [("store", JObj (map_to_list (store st)));
        ("pending", jstrs (pending st));
        ("done", jstrs (done_ st));
        ("events", jstrs (events st))].
End hash.

(** The identity digest: a collision-free instance for evaluation. *)
Definition identity_digest : Digest json :=
  {| digest_eq_dec := json_eq_dec; digest := fun j => j |}.

Lemma identity_digest_inj : @InjDigest json identity_digest.
Proof. intros a b H. exact H. Qed.

(** ** Injectivity of the full hash *)

(** Values already in normal form (scalars, and mappings with sorted keys):
    what [json.dumps(..., sort_keys=True)] tells apart. *)
Definition canonical (st : State) : Prop :=
  map_Forall (fun _ v => _normalize v = v) (store st).

Lemma sort_items_map_inj {V} (m1 m2 : gmap string V) :
  sort_items (map_to_list m1) = sort_items (map_to_list m2) → m1 = m2.
Proof.
  intros Heq. apply map_to_list_inj.
  by rewrite <- (sort_items_perm (map_to_list m1)), Heq, sort_items_perm.
Qed.

Lemma normalize_store_canonical (st : State) :
  canonical st → normalize_store (store st) = JObj (sort_items (map_to_list (store st))).
Proof.
  intros Hc. unfold normalize_store. f_equal.
  rewrite <- (list_fmap_id (sort_items _)) at 2.
  apply list_fmap_ext. intros i [k v] Hi. simpl. f_equal. apply (Hc k).
  apply elem_of_map_to_list. rewrite <- (sort_items_perm (map_to_list _)).
  by eapply list_elem_of_lookup_2.
Qed.

#[export] Instance JStr_inj : Inj (=) (=) JStr.
Proof. by intros a b [= H]. Qed.

Lemma payload_full_inj st st' :
  canonical st → canonical st' → payload HFull st = payload HFull st' → st = st'.
Proof.
  intros Hc Hc' Heq. unfold payload in Heq.
  assert (normalize_store (store st) = normalize_store (store st')) as Hs by congruence.
  assert (JStr <$> pending st = JStr <$> pending st') as Hp by congruence.
  assert (JStr <$> done_ st = JStr <$> done_ st') as Hd by congruence.
  assert (JStr <$> events st = JStr <$> events st') as He by congruence. clear Heq.
  rewrite !normalize_store_canonical in Hs by done.
  destruct st as [s p d e], st' as [s' p' d' e']; simpl in *. f_equal.
  - apply sort_items_map_inj. by injection Hs.
  - by apply (inj (fmap (M:=list) JStr)) in Hp.
  - by apply (inj (fmap (M:=list) JStr)) in Hd.
  - by apply (inj (fmap (M:=list) JStr)) in He.
Qed.

Lemma payload_store_inj st st' :
  canonical st → canonical st' → payload HStore st = payload HStore st' →
  store st = store st'.
Proof.
  intros Hc Hc' Heq. unfold payload in Heq.
  assert (normalize_store (store st) = normalize_store (store st')) as Hs by congruence.
  rewrite !normalize_store_canonical in Hs by done.
  apply sort_items_map_inj. by injection Hs.
Qed.

(** With a collision-free digest the full hash identifies a state. *)
Lemma hash_full_inj {K} `{InjDigest K} st st' :
  canonical st → canonical st' → hash_with HFull st = hash_with HFull st' → st = st'.
Proof. intros Hc Hc' Heq%digest_inj. by apply payload_full_inj. Qed.

#[export] Hint Resolve hash_full_inj : tm.

(** ** Adapters: the interface between models and the explorer

    [ComponentAdapter] is the duck-typed protocol of [tm/verify/joint.py];
    [Adapter] is the same surface for an object that may change while it is
    queried (the joint product fills a memo).  [LawfulAdapter] states what the
    explorer relies on; the explorer's theorems are proved against it and each
    adapter discharges it. *)

From S2P Require Import Prelude PyVal.
From stdpp Require Import base gmap strings list.

Class ComponentAdapter (C : Type) := {
  c_initial_state : C → res State;
  c_successors : C → State → res (list (string * State));
  c_is_deadlocked : C → State → bool;
  c_enabled_steps : C → State → list string
}.

Class Adapter (A : Type) := {
  initial_state : A → res (State * A);
  successors : A → State → res (list (string * State) * A);
  is_deadlocked : A → State → bool;
  enabled_steps : A → State → list string
}.

(** A component queried directly: the object does not change. *)
#[export] Instance component_is_adapter {C} `{ComponentAdapter C} : Adapter C := {
  initial_state c := st ← c_initial_state c; Ok (st, c);
  successors c st := l ← c_successors c st; Ok (l, c);
  is_deadlocked := c_is_deadlocked;
  enabled_steps := c_enabled_steps
}.

(** What the explorer relies on.  [known a st]: the adapter can answer about
    [st]; [post a st]: its transitions.  Queries never fail on known states,
    return [post], make the returned states known, and never change the answer
    about a state known before. *)
Class LawfulAdapter (A : Type) `{Adapter A} := {
  adapter_wf : A → Prop;
  known : A → State → Prop;
  post : A → State → list (string * State);
  start : A → State;
  law_initial a : adapter_wf a →
    ∃ a', initial_state a = Ok (start a, a') ∧ adapter_wf a' ∧ known a' (start a);
  law_successors a st : adapter_wf a → known a st →
    ∃ a', successors a st = Ok (post a st, a') ∧ adapter_wf a' ∧
      (∀ s, known a s → known a' s ∧ post a' s = post a s) ∧
      Forall (fun ls => known a' ls.2) (post a st)
}.

(** Transitions, and paths of a given length. *)
Definition step {A} `{LawfulAdapter A} (a : A) (s s' : State) : Prop :=
  ∃ l, (l, s') ∈ post a s.

Inductive steps {A} `{LawfulAdapter A} (a : A) : nat → State → State → Prop :=
| steps_refl s : steps a 0 s s
| steps_snoc n s s' s'' :
    steps a n s s' → known a s' → step a s' s'' → steps a (S n) s s''.

(** [a'] answers like [a] about everything [a] knows. *)
Definition extends {A} `{LawfulAdapter A} (a a' : A) : Prop :=
  ∀ s, known a s → known a' s ∧ post a' s = post a s.

#[export] Instance extends_preorder {A} `{LawfulAdapter A} : PreOrder (@extends A _ _).
Proof.
  split; [by intros a s|]. intros a b c Hab Hbc s Hs.
  destruct (Hab s Hs) as [Hb Eb]. destruct (Hbc s Hb) as [Hc Ec].
  split; [done|]. by rewrite Ec, Eb.
Qed.

(** The law on [successors] in the form the explorer uses. *)
Lemma law_successors_ok {A} `{LawfulAdapter A} (a : A) st :
  adapter_wf a → known a st →
  ∃ a', successors a st = Ok (post a st, a') ∧ adapter_wf a' ∧ extends a a' ∧
        Forall (fun ls => known a' ls.2) (post a st).
Proof. apply law_successors. Qed.

Lemma steps_extends {A} `{LawfulAdapter A} (a a' : A) n s s' :
  extends a a' → steps a n s s' → steps a' n s s'.
Proof.
  intros Hext. induction 1 as [s|n s s' s'' Hs IH Hk [l Hl]]; [constructor|].
  destruct (Hext s' Hk) as [Hk' Hp]. econstructor; [done|done|]. exists l. by rewrite Hp.
Qed.

(** The same contract for a component that does not change when queried; its
    states are canonical, so their full hash identifies them. *)
Class LawfulComponent (C : Type) `{ComponentAdapter C} := {
  comp_wf : C → Prop;
  comp_known : C → State → Prop;
  comp_post : C → State → list (string * State);
  comp_start : C → State;
  comp_initial c : comp_wf c →
    c_initial_state c = Ok (comp_start c) ∧ comp_known c (comp_start c);
  comp_successors c st : comp_wf c → comp_known c st →
    c_successors c st = Ok (comp_post c st) ∧
    Forall (fun ls => comp_known c ls.2) (comp_post c st);
  comp_canonical c st : comp_known c st → canonical st
}.

#[export] Program Instance component_lawful {C} `{LawfulComponent C} : LawfulAdapter C := {
  adapter_wf := comp_wf;
  known := comp_known;
  post := comp_post;
  start := comp_start
}.
Next Obligation.
  intros C ? ? c Hwf. simpl. destruct (comp_initial c Hwf) as [-> Hk]. simpl. eauto.
Qed.
Next Obligation.
  intros C ? ? c st Hwf Hk. simpl. destruct (comp_successors c st Hwf Hk) as [-> Hf].
  simpl. exists c. done.
Qed.
