(* ===== verification/TraceMindAdapter.v ===== *)
(** * The plan adapter ([tm/verify/adapter.py])

    A plan seen as a transition system: a pending step whose reads are in the
    store is enabled; running it writes and clears facts and enqueues the steps
    of the rules its writes trigger.  Below, the specification of its
    transitions. *)

From S2P Require Import Prelude PyVal Selectors State.
From stdpp Require Import base gmap strings list fin_maps.

Record TraceMindAdapter : Type := mkAdapter {
  plan : Plan;
  initial_store : gmap string json;
  changed_paths : list Path;
  initial_pending : list string;
  initial_done : list string
}.

Definition _rule_triggered (triggers : list string) (changed : list Path) : res bool :=
  _match_any triggers changed match_.

Definition from_plan (p : Plan) (istore : gmap string json) (changed : list string)
  (ipending idone : list string) : res TraceMindAdapter :=
  paths ← mapM _selector_to_path changed;
  Ok (mkAdapter p istore paths ipending idone).

Fixpoint collect_rules (rules : list Rule) (changed : list Path) : res (list string) :=
  match rules with
  | [] => Ok []
  | rule :: rules' =>
      t ← _rule_triggered (r_triggers rule) changed;
      rest ← collect_rules rules' changed;
      Ok (if (t : bool) then r_steps rule ++ rest else rest)
  end.

Definition _collect_steps (a : TraceMindAdapter) (changed : list Path) : res (list string) :=
  collect_rules (p_rules (plan a)) changed.

Definition tm_initial_state (a : TraceMindAdapter) : res State :=
  collected ← _collect_steps a (changed_paths a);
  Ok (mkState (initial_store a)
              (append_new [] (initial_pending a ++ collected))
              (initial_done a) []).

Definition _reads_available (spec : StepSpec) (st : gmap string json) : bool :=
  forallb (fun read => bool_decide (is_Some (st !! read))) (s_reads spec).

Definition tm_enabled_steps (a : TraceMindAdapter) (state : State) : list string :=
  foldl (fun enabled step_name =>
    match get_step (plan a) step_name with
    | None => enabled
    | Some spec =>
        if _reads_available spec (store state) then
          if step_name ∈? enabled then enabled else enabled ++ [step_name]
        else enabled
    end) [] (pending state).

(** Writes first, then clears. *)
Definition apply_effects (spec : StepSpec) (st : gmap string json) : gmap string json :=
  let written := foldl (fun m w => <[w := JBool true]> m) st (s_writes spec) in
  foldl (fun m c => delete c m) written (s_clears spec).

Definition _run_step (a : TraceMindAdapter) (state : State) (step_name : string)
  (spec : StepSpec) : res State :=
  let pending0 := remove_first step_name (pending state) in
  let store' := apply_effects spec (store state) in
  paths ← mapM _selector_to_path (s_writes spec);
  triggered ← _collect_steps a paths;
  Ok (mkState store'
        (append_new pending0 triggered)
        (if step_name ∈? done_ state then done_ state else done_ state ++ [step_name])
        (events state ++ ["step:" +:+ step_name])).

Fixpoint run_enabled (a : TraceMindAdapter) (state : State) (names : list string)
  : res (list (string * State)) :=
  match names with
  | [] => Ok []
  | n :: names' =>
      match get_step (plan a) n with
      | None => run_enabled a state names'
      | Some spec =>
          st' ← _run_step a state n spec;
          rest ← run_enabled a state names';
          Ok ((n, st') :: rest)
      end
  end.

Definition tm_successors (a : TraceMindAdapter) (state : State)
  : res (list (string * State)) :=
  run_enabled a state (tm_enabled_steps a state).

Definition tm_is_deadlocked (a : TraceMindAdapter) (state : State) : bool :=
  match pending state with
  | [] => false
  | _ => match tm_enabled_steps a state with [] => true | _ => false end
  end.

#[export] Instance tracemind_component : ComponentAdapter TraceMindAdapter := {
  c_initial_state := tm_initial_state;
  c_successors := tm_successors;
  c_is_deadlocked := tm_is_deadlocked;
  c_enabled_steps := tm_enabled_steps
}.

(** ** Enabled steps *)

Lemma enabled_fold (a : TraceMindAdapter) m acc l x :
  x ∈ foldl (fun enabled step_name =>
    match get_step (plan a) step_name with
    | None => enabled
    | Some spec =>
        if _reads_available spec m then
          if step_name ∈? enabled then enabled else enabled ++ [step_name]
        else enabled
    end) acc l ↔
  x ∈ acc ∨ (x ∈ l ∧ ∃ spec, get_step (plan a) x = Some spec ∧ _reads_available spec m = true).
Proof.
  revert acc. induction l as [|n l IH]; intros acc; simpl; [set_solver|].
  rewrite IH, elem_of_cons. split.
  - intros [Hx|Hx]; [|tauto].
    destruct (get_step (plan a) n) as [spec|] eqn:Hn; [|tauto].
    destruct (_reads_available spec m) eqn:Hr; [|tauto].
    destruct (n ∈? acc); [tauto|]. apply elem_of_app in Hx as [Hx|Hx]; [tauto|].
    apply list_elem_of_singleton in Hx as ->. right. split; [by left|eauto].
  - intros [Hx|[[->|Hx] (spec & Hn & Hr)]].
    + left. destruct (get_step (plan a) n) as [spec|]; [|done].
      destruct (_reads_available spec m), (n ∈? acc); set_solver.
    + left. rewrite Hn, Hr. destruct (n ∈? acc) eqn:Hin; [by apply inb_true in Hin|set_solver].
    + right. eauto.
Qed.

Lemma elem_of_enabled a st n :
  n ∈ tm_enabled_steps a st ↔
  n ∈ pending st ∧ ∃ spec, get_step (plan a) n = Some spec ∧
                           _reads_available spec (store st) = true.
Proof. unfold tm_enabled_steps. rewrite enabled_fold. set_solver. Qed.

Lemma reads_available_true spec m :
  _reads_available spec m = true ↔ Forall (fun r => is_Some (m !! r)) (s_reads spec).
Proof.
  unfold _reads_available. rewrite forallb_forall, Forall_forall.
  setoid_rewrite <- list_elem_of_In. setoid_rewrite bool_decide_eq_true. done.
Qed.

(** ** Effects of a step on the store *)

Lemma lookup_writes (l : list string) (m : gmap string json) k :
  foldl (fun m w => <[w := JBool true]> m) m l !! k =
  if k ∈? l then Some (JBool true) else m !! k.
Proof.
  revert m. induction l as [|w l IH]; intros m; simpl; [done|].
  rewrite IH. unfold inb. destruct (decide (k ∈ l)) as [H|H].
  - rewrite !bool_decide_true by set_solver. done.
  - rewrite (bool_decide_false (k ∈ l)) by done. destruct (decide (k = w)) as [->|Hne].
    + rewrite bool_decide_true by set_solver. by rewrite lookup_insert_eq.
    + rewrite bool_decide_false by set_solver. by rewrite lookup_insert_ne.
Qed.

Lemma lookup_clears (l : list string) (m : gmap string json) k :
  foldl (fun m c => delete c m) m l !! k = if k ∈? l then None else m !! k.
Proof.
  revert m. induction l as [|w l IH]; intros m; simpl; [done|].
  rewrite IH. unfold inb. destruct (decide (k ∈ l)) as [H|H].
  - rewrite !bool_decide_true by set_solver. done.
  - rewrite (bool_decide_false (k ∈ l)) by done. destruct (decide (k = w)) as [->|Hne].
    + rewrite bool_decide_true by set_solver. by rewrite lookup_delete_eq.
    + rewrite bool_decide_false by set_solver. by rewrite lookup_delete_ne.
Qed.

Lemma lookup_apply_effects spec m k :
  apply_effects spec m !! k =
  if k ∈? s_clears spec then None
  else if k ∈? s_writes spec then Some (JBool true) else m !! k.
Proof. unfold apply_effects. by rewrite lookup_clears, lookup_writes. Qed.

(** ** Well-formed selectors: no query raises *)

Definition parses (e : string) : bool := is_ok (parse e).

Definition selectors_ok (p : Plan) : bool :=
  forallb (fun r => forallb parses (r_triggers r)) (p_rules p) &&
  forallb (fun s => forallb parses (s_writes s.2)) (p_steps p).

Lemma parses_ok e : parses e = true → ∃ toks, parse e = Ok toks.
Proof. unfold parses. destruct (parse e); [eauto|done]. Qed.

Lemma match_parsed e toks p : parse e = Ok toks → match_ e p = Ok (match_tokens toks p).
Proof. intros H. unfold match_. by rewrite H. Qed.

Lemma selector_parsed e toks :
  parse e = Ok toks → _selector_to_path e = Ok (token_to_elem <$> toks).
Proof. intros H. unfold _selector_to_path. by rewrite H. Qed.

Lemma match_any_ok exprs changed :
  forallb parses exprs = true → ∃ b, _match_any exprs changed match_ = Ok b.
Proof.
  induction exprs as [|e exprs IH]; simpl; [eauto|].
  intros [[toks He]%parses_ok Hes]%andb_true_iff.
  assert (∃ b, any_path match_ e changed = Ok b) as [b Hb].
  { clear IH. induction changed as [|p changed IHc]; simpl; [eauto|].
    rewrite (match_parsed e toks p He). simpl. destruct (match_tokens toks p); eauto. }
  rewrite Hb. simpl. destruct b; eauto.
Qed.

Lemma collect_rules_ok rules changed :
  forallb (fun r => forallb parses (r_triggers r)) rules = true →
  ∃ l, collect_rules rules changed = Ok l.
Proof.
  induction rules as [|r rules IH]; simpl; [eauto|].
  intros [Hr Hrs]%andb_true_iff. unfold _rule_triggered.
  destruct (match_any_ok (r_triggers r) changed Hr) as [b ->]. simpl.
  destruct (IH Hrs) as [l ->]. simpl. eauto.
Qed.

Lemma selectors_mapM_ok l :
  forallb parses l = true → ∃ ps, mapM _selector_to_path l = Ok ps.
Proof.
  induction l as [|e l IH]; simpl; [eauto|].
  intros [[toks He]%parses_ok Hl]%andb_true_iff. rewrite (selector_parsed e toks He).
  simpl. destruct (IH Hl) as [ps ->]. simpl. eauto.
Qed.

Lemma run_step_ok a st n spec :
  selectors_ok (plan a) = true → get_step (plan a) n = Some spec →
  ∃ st', _run_step a st n spec = Ok st'.
Proof.
  intros [Hr Hs]%andb_true_iff Hn. unfold _run_step.
  rewrite forallb_forall in Hs. unfold get_step in Hn.
  apply alookup_elem_of, list_elem_of_In, Hs in Hn. cbn [snd] in Hn.
  destruct (selectors_mapM_ok _ Hn) as [ps ->]. simpl. unfold _collect_steps.
  destruct (collect_rules_ok _ ps Hr) as [l ->]. simpl. eauto.
Qed.

Lemma run_enabled_ok a st names :
  selectors_ok (plan a) = true → ∃ l, run_enabled a st names = Ok l.
Proof.
  intros Hok. induction names as [|n names [l IH]]; simpl; [eauto|].
  destruct (get_step (plan a) n) as [spec|] eqn:Hn; [|eauto].
  destruct (run_step_ok a st n spec Hok Hn) as [st' ->]. simpl. rewrite IH. simpl. eauto.
Qed.

Lemma elem_of_run_enabled a st names l n st' :
  run_enabled a st names = Ok l →
  (n, st') ∈ l ↔ n ∈ names ∧ ∃ spec, get_step (plan a) n = Some spec ∧
                                   _run_step a st n spec = Ok st'.
Proof.
  revert l. induction names as [|m names IH]; simpl; intros l H.
  { inv_ok. subst. set_solver. }
  destruct (get_step (plan a) m) as [spec|] eqn:Hm.
  - inv_ok. subst l. rewrite elem_of_cons, (IH _ Ha0), elem_of_cons. split.
    + intros [[= -> ->]|[Hn Hs]]; eauto.
    + intros [[->|Hn] (sp & Hsp & Hr)]; [left; congruence|eauto].
  - rewrite (IH _ H), elem_of_cons. split; [tauto|].
    intros [[->|Hn] (sp & Hsp & Hr)]; [congruence|eauto].
Qed.

(** The transitions, as a specification: the enabled steps and their effect. *)
Lemma elem_of_successors a st l n st' :
  tm_successors a st = Ok l →
  (n, st') ∈ l ↔
  n ∈ pending st ∧ ∃ spec, get_step (plan a) n = Some spec ∧
    _reads_available spec (store st) = true ∧ _run_step a st n spec = Ok st'.
Proof.
  intros H. rewrite (elem_of_run_enabled _ _ _ _ _ _ H), elem_of_enabled. naive_solver.
Qed.

(** ** The adapter is lawful *)

Lemma run_step_canonical a st n spec st' :
  _run_step a st n spec = Ok st' → canonical st → canonical st'.
Proof.
  intros H Hc. unfold _run_step in H. inv_ok. subst st'. intros k v. simpl.
  rewrite lookup_apply_effects. destruct (k ∈? s_clears spec); [done|].
  destruct (k ∈? s_writes spec); [by intros [= <-]|apply Hc].
Qed.

Definition tm_wf (a : TraceMindAdapter) : Prop :=
  selectors_ok (plan a) = true ∧ map_Forall (fun _ v => _normalize v = v) (initial_store a).

Definition res_default {A} (d : A) (r : res A) : A :=
  match r with Ok x => x | Raise _ => d end.

#[export] Program Instance tracemind_lawful : LawfulComponent TraceMindAdapter := {
  comp_wf := tm_wf;
  comp_known _ st := canonical st;
  comp_post a st := res_default [] (tm_successors a st);
  comp_start a := res_default (mkState ∅ [] [] []) (tm_initial_state a)
}.
Next Obligation.
  intros a [Hok Hc]. simpl. unfold tm_initial_state, _collect_steps.
  apply andb_true_iff in Hok as Hok'.
  destruct (collect_rules_ok _ (changed_paths a) (proj1 Hok')) as [l ->]. done.
Qed.
Next Obligation.
  intros a st [Hok Hc] Hk. simpl. unfold tm_successors.
  destruct (run_enabled_ok a st (tm_enabled_steps a st) Hok) as [l Hl]. rewrite Hl. simpl.
  split; [done|]. apply Forall_forall. intros [n st'] Hin. simpl.
  apply (elem_of_run_enabled _ _ _ _ _ _ Hl) in Hin as (_ & spec & _ & Hr).
  by eapply run_step_canonical.
Qed.
Next Obligation. intros a st Hk. exact Hk. Qed.

(** The contract, for a plan. *)
Lemma tm_comp_initial (a : TraceMindAdapter) :
  tm_wf a → tm_initial_state a = Ok (comp_start a) ∧ canonical (comp_start a).
Proof. exact (@comp_initial _ _ tracemind_lawful a). Qed.

Lemma tm_comp_successors (a : TraceMindAdapter) st :
  tm_wf a → canonical st →
  tm_successors a st = Ok (comp_post a st) ∧ Forall (fun ls => canonical ls.2) (comp_post a st).
Proof. exact (@comp_successors _ _ tracemind_lawful a st). Qed.

(** ** What the plan adapter's transitions mean

    The transitions of a plan as a specification on stores, and what holds in
    every state they reach. *)

From S2P Require Import Prelude PyVal Selectors State.
From stdpp Require Import base gmap strings list fin_maps.
From Stdlib Require Import Lia.

(** A rule fires on the written selectors [ws]: one of its triggers matches
    the path of one of them. *)
Definition fires (r : Rule) (ws : list string) : Prop :=
  ∃ t w p, t ∈ r_triggers r ∧ w ∈ ws ∧ _selector_to_path w = Ok p ∧ match_ t p = Ok true.

Lemma any_path_true e changed b :
  any_path match_ e changed = Ok b →
  b = true ↔ ∃ p, p ∈ changed ∧ match_ e p = Ok true.
Proof.
  revert b. induction changed as [|p changed IH]; simpl; intros b Hb.
  { inv_ok. subst. split; [done|]. intros (p & Hp & _). set_solver. }
  inv_ok. destruct a.
  - inv_ok. subst. split; [|done]. intros _. exists p. split; [left|done].
  - rewrite (IH _ Hb). split.
    + intros (q & Hq & Hm). exists q. split; [by right|done].
    + intros (q & [->|Hq]%elem_of_cons & Hm); [congruence|eauto].
Qed.

Lemma match_any_true exprs changed b :
  _match_any exprs changed match_ = Ok b →
  b = true ↔ ∃ e p, e ∈ exprs ∧ p ∈ changed ∧ match_ e p = Ok true.
Proof.
  revert b. induction exprs as [|e exprs IH]; simpl; intros b Hb.
  { inv_ok. subst. split; [done|]. intros (e & p & He & _). set_solver. }
  inv_ok. pose proof (any_path_true _ _ _ Ha) as Hany. destruct a.
  - inv_ok. subst. split; [|done]. intros _. destruct Hany as [(p & Hp & Hm) _]; [done|].
    exists e, p. split_and!; [left|done|done].
  - rewrite (IH _ Hb). split.
    + intros (e' & p & He & Hp). exists e', p. split; [by right|done].
    + intros (e' & p & [->|He]%elem_of_cons & Hp & Hm); [|eauto 6].
      destruct Hany as [_ Hany]. discriminate Hany. eauto.
Qed.

Lemma elem_of_collect rules changed l x :
  collect_rules rules changed = Ok l →
  x ∈ l ↔ ∃ r, r ∈ rules ∧ x ∈ r_steps r ∧
           ∃ t p, t ∈ r_triggers r ∧ p ∈ changed ∧ match_ t p = Ok true.
Proof.
  revert l. induction rules as [|r rules IH]; simpl; intros l Hl.
  { inv_ok. subst. split; [set_solver|]. intros (r & Hr & _). set_solver. }
  inv_ok. pose proof (match_any_true _ _ _ Ha) as Hm. subst l.
  transitivity ((a = true ∧ x ∈ r_steps r) ∨ x ∈ a0).
  { destruct a; [rewrite elem_of_app|]; naive_solver. }
  rewrite (IH _ Ha0), Hm. split.
  - intros [[Hex Hx]|(r' & Hr' & Hx)]; [exists r|exists r']; rewrite elem_of_cons; naive_solver.
  - intros (r' & [->|Hr']%elem_of_cons & Hx & Hex); [left|right]; eauto.
Qed.

Lemma elem_of_write_paths ws ps p :
  mapM _selector_to_path ws = Ok ps → p ∈ ps ↔ ∃ w, w ∈ ws ∧ _selector_to_path w = Ok p.
Proof.
  intros H%mapM_res_ok. split.
  - intros [i Hi]%list_elem_of_lookup. destruct (Forall2_lookup_r _ _ _ _ _ H Hi) as (w & Hw & E).
    exists w. split; [by eapply list_elem_of_lookup_2|done].
  - intros (w & [i Hi]%list_elem_of_lookup & E).
    destruct (Forall2_lookup_l _ _ _ _ _ H Hi) as (q & Hq & E').
    assert (q = p) as -> by congruence. by eapply list_elem_of_lookup_2.
Qed.

Lemma run_step_spec a st n spec st' :
  _run_step a st n spec = Ok st' →
  store st' = apply_effects spec (store st) ∧
  (∀ x, x ∈ pending st' ↔ x ∈ remove_first n (pending st) ∨
        ∃ r, r ∈ p_rules (plan a) ∧ fires r (s_writes spec) ∧ x ∈ r_steps r) ∧
  done_ st' = append_new (done_ st) [n] ∧
  events st' = events st ++ ["step:" +:+ n].
Proof.
  intros H. unfold _run_step in H. inv_ok. subst st'. simpl. split_and!; [done| |done|done].
  intros x. rewrite elem_of_append_new. unfold _collect_steps in Ha0.
  rewrite (elem_of_collect _ _ _ x Ha0). apply or_iff_compat_l. unfold fires. split.
  - intros (r & Hr & Hx & t & p & Ht & Hp & Hm).
    apply (elem_of_write_paths _ _ _ Ha) in Hp as (w & Hw & E). exists r. eauto 10.
  - intros (r & Hr & (t & w & p & Ht & Hw & E & Hm) & Hx). exists r. split_and!; [done|done|].
    exists t, p. split_and!; [done| |done]. apply (elem_of_write_paths _ _ _ Ha). eauto.
Qed.

(** The transitions of a plan: they are exactly the pending known steps
    whose reads are in the store; each one writes its writes, removes its
    clears (which win), leaves every other fact, replaces itself in the
    pending steps by the steps of the rules its writes fire, and is recorded
    as done and as an event.  A state with pending steps and no transition is
    a deadlock. *)
Lemma plan_transition_steps (a : TraceMindAdapter) (st : State) :
  selectors_ok (plan a) = true →
  ∃ l, tm_successors a st = Ok l ∧
    (∀ n, n ∈ l.*1 ↔ n ∈ pending st ∧ ∃ spec, get_step (plan a) n = Some spec ∧
                       Forall (fun r => is_Some (store st !! r)) (s_reads spec)) ∧
    (∀ n st', (n, st') ∈ l → ∃ spec, get_step (plan a) n = Some spec ∧
       (∀ k, store st' !! k = if k ∈? s_clears spec then None
                              else if k ∈? s_writes spec then Some (JBool true)
                              else store st !! k) ∧
       (∀ x, x ∈ pending st' ↔ x ∈ remove_first n (pending st) ∨
             ∃ r, r ∈ p_rules (plan a) ∧ fires r (s_writes spec) ∧ x ∈ r_steps r) ∧
       (∀ x, x ∈ done_ st' ↔ x = n ∨ x ∈ done_ st) ∧
       events st' = events st ++ ["step:" +:+ n]) ∧
    (tm_is_deadlocked a st = true ↔ pending st ≠ [] ∧ l = []).
Proof.
  intros Hok. destruct (run_enabled_ok a st (tm_enabled_steps a st) Hok) as [l Hl].
  exists l. split_and!; [done| | |].
  - intros n. setoid_rewrite <- reads_available_true. rewrite list_elem_of_fmap. split.
    + intros ([m st'] & -> & Hin). apply (elem_of_successors _ _ _ _ _ Hl) in Hin. naive_solver.
    + intros (Hn & spec & Hg & Hr). destruct (run_step_ok a st n spec Hok Hg) as [st' Hst'].
      exists (n, st'). split; [done|]. apply (elem_of_successors _ _ _ _ _ Hl). eauto.
  - intros n st' Hin. apply (elem_of_successors _ _ _ _ _ Hl) in Hin as (_ & spec & Hg & _ & Hr).
    destruct (run_step_spec _ _ _ _ _ Hr) as (Hs & Hp & Hd & He).
    exists spec. split_and!; [done| |done| |done].
    + intros k. rewrite Hs. apply lookup_apply_effects.
    + intros x. rewrite Hd, elem_of_append_new. set_solver.
  - unfold tm_is_deadlocked. assert (l = [] ↔ tm_enabled_steps a st = []) as Hiff.
    { split; intros E; [|rewrite E in Hl; simpl in Hl; congruence].
      destruct (tm_enabled_steps a st) as [|n ns] eqn:En; [done|].
      assert (n ∈ tm_enabled_steps a st) as (Hn & spec & Hg & Hr)%elem_of_enabled
        by (rewrite En; left).
      destruct (run_step_ok a st n spec Hok Hg) as [st' Hst'].
      assert ((n, st') ∈ l) as Hin; [|subst; set_solver].
      apply (elem_of_run_enabled _ _ _ _ _ _ Hl). split; [left|eauto]. }
    rewrite Hiff. destruct (pending st), (tm_enabled_steps a st); naive_solver.
Qed.

(** ** Reachable states *)

(** Where a reachable state comes from: pending steps are listed once, the
    log has one event per transition, every event is of a done step, and a
    fact in the store is an initial one or written by a done step. *)
Record provenance (a : TraceMindAdapter) (n : nat) (st : State) : Prop := {
  pv_pending : NoDup (pending st);
  pv_done : NoDup (initial_done a) → NoDup (done_ st);
  pv_log : length (events st) = n;
  pv_events e : e ∈ events st → ∃ x, e = "step:" +:+ x ∧ x ∈ done_ st;
  pv_finished x : x ∈ done_ st → x ∈ initial_done a ∨ is_Some (get_step (plan a) x);
  pv_store k : is_Some (store st !! k) → is_Some (initial_store a !! k) ∨
    ∃ x spec, x ∈ done_ st ∧ get_step (plan a) x = Some spec ∧ k ∈ s_writes spec
}.

Lemma provenance_step a n st l st' :
  provenance a n st → tm_wf a → (l, st') ∈ post a st → provenance a (S n) st'.
Proof.
  intros [Hp Hd Hl He Hf Hs] [Hok _] Hin. simpl in Hin. unfold tm_successors in Hin.
  destruct (run_enabled_ok a st (tm_enabled_steps a st) Hok) as [ls Hls]. rewrite Hls in Hin.
  simpl in Hin. apply (elem_of_run_enabled _ _ _ _ _ _ Hls) in Hin as (_ & spec & Hg & Hr).
  destruct (run_step_spec _ _ _ _ _ Hr) as (Es & _ & Ed & Ee).
  assert (∀ x, x ∈ done_ st' ↔ x ∈ done_ st ∨ x = l) as Hdone.
  { intros x. rewrite Ed, elem_of_append_new. set_solver. }
  constructor.
  - unfold _run_step in Hr. inv_ok. subst st'. apply NoDup_append_new, NoDup_remove_first, Hp.
  - rewrite Ed. intros H. apply NoDup_append_new, Hd, H.
  - rewrite Ee, length_app. simpl. lia.
  - intros e. rewrite Ee. intros [H|H]%elem_of_app.
    + destruct (He e H) as (x & -> & Hx). exists x. rewrite Hdone. eauto.
    + apply list_elem_of_singleton in H as ->. exists l. rewrite Hdone. eauto.
  - intros x [Hx| ->]%Hdone; [by apply Hf|]. right. eauto.
  - intros k. rewrite Es, lookup_apply_effects. destruct (k ∈? s_clears spec); [by intros []|].
    destruct (k ∈? s_writes spec) eqn:Hw.
    + apply inb_true in Hw. intros _. right. exists l, spec. rewrite Hdone. eauto.
    + intros [H|(x & sp & Hx & Hsp)]%Hs; [by left|]. right. exists x, sp. rewrite Hdone. eauto.
Qed.

(** What every reachable state of a plan satisfies: no step is pending
    twice, exactly one event was logged per transition and each for a done
    step, done steps are steps of the plan, and every fact is an initial one
    or was written by a done step. *)
Lemma plan_state_provenance (a : TraceMindAdapter) n s :
  tm_wf a → steps a n (start a) s → provenance a n s.
Proof.
  intros Hwf. remember (start a) as s0 eqn:Hs0. induction 1 as [s|n s s' s'' Hs IH Hk [l Hl]].
  - subst s. destruct Hwf as [[Hr _]%andb_true_iff _]. simpl. unfold tm_initial_state, _collect_steps.
    destruct (collect_rules_ok _ (changed_paths a) Hr) as [l ->]. simpl.
    constructor; simpl; [apply NoDup_append_new, NoDup_nil_2|done|done|set_solver|eauto|eauto].
  - eapply provenance_step; eauto.
Qed.

(** What a transition of a plan does: it writes the step's writes, removes its
    clears (which win), leaves every other fact, replaces the step in the
    pending ones by the steps of the rules the writes fire, and records it as
    done and as an event. *)
Definition step_effect (a : TraceMindAdapter) (st : State) (n : string) (st' : State) : Prop :=
  ∃ spec, get_step (plan a) n = Some spec ∧
    (∀ k, store st' !! k = if k ∈? s_clears spec then None
                           else if k ∈? s_writes spec then Some (JBool true)
                           else store st !! k) ∧
    (∀ x, x ∈ pending st' ↔ x ∈ remove_first n (pending st) ∨
          ∃ r, r ∈ p_rules (plan a) ∧ fires r (s_writes spec) ∧ x ∈ r_steps r) ∧
    (∀ x, x ∈ done_ st' ↔ x = n ∨ x ∈ done_ st) ∧
    events st' = events st ++ ["step:" +:+ n].

(** C11: the state machine of a plan.  Its transitions are exactly the pending
    known steps whose reads are in the store, each with the effect of its
    step; a state with pending steps and no transition is a deadlock.  In
    every reachable state no step is pending twice, exactly one event was
    logged per transition and each for a done step, done steps are steps of
    the plan, and every fact is an initial one or was written by a done
    step. *)
Theorem plan_semantics (a : TraceMindAdapter) :
  tm_wf a →
  (∀ st, ∃ l, tm_successors a st = Ok l ∧
     (∀ n, n ∈ l.*1 ↔ n ∈ pending st ∧ ∃ spec, get_step (plan a) n = Some spec ∧
                        Forall (fun r => is_Some (store st !! r)) (s_reads spec)) ∧
     (∀ n st', (n, st') ∈ l → step_effect a st n st') ∧
     (tm_is_deadlocked a st = true ↔ pending st ≠ [] ∧ l = [])) ∧
  (∀ n s, steps a n (start a) s → provenance a n s).
Proof.
  intros Hwf. split; [|intros n s; by apply plan_state_provenance].
  intros st. destruct Hwf as [Hok _]. by apply plan_transition_steps.
Qed.
