(* ===== verification/Explorer.v ===== *)
(** * Bounded breadth-first exploration ([tm/verify/explorer.py])

    [explorer_run] is [Explorer.run]: the queue loop with its dictionaries.
    States are numbered in order of discovery, so the dict [depths] (keys
    [0..len-1], added in order) is a list; [edges] is a dict in insertion
    order, [seen] maps a hash to its state number. *)

From S2P Require Import Prelude PyVal State.
From stdpp Require Import base gmap strings list fin_maps.
From Stdlib Require Import Lia.

Record ExplorationResult : Type := mkResult {
  states : list State;
  edges : list (nat * list nat);
  predecessors : gmap nat (nat * string);
  deadlocks : list nat;
  hash_mode_used : hash_mode;
  max_depth_used : nat
}.

(** ** [path_to]: back-track the predecessor chain, stopping on a cycle *)

(** The list under construction is kept reversed, as [path.reverse()] leaves
    it.  Each round adds a new number to [seen], so [S (size preds)] rounds
    are enough ([path_loop_total]). *)
Fixpoint path_loop (fuel : nat) (preds : gmap nat (nat * string)) (cur : nat)
  (seen : gset nat) (path : list nat) : option (list nat) :=
  match fuel with
  | 0 => None
  | S fuel' =>
      match preds !! cur with
      | None => Some path
      | Some (prev, _) =>
          if decide (prev ∈ seen) then Some path
          else path_loop fuel' preds prev ({[prev]} ∪ seen) (prev :: path)
      end
  end.

Definition path_to (m : ExplorationResult) (target : nat) : list nat :=
  if decide (length (states m) ≤ target) then []
  else default [] (path_loop (S (size (predecessors m))) (predecessors m) target
                     {[target]} [target]).

(** ** The exploration loop *)

Section explorer.
Context {K : Type} `{Digest K} {A : Type} `{Adapter A}.

Record est : Type := mkEst {
  e_states : list State;
  e_edges : list (nat * list nat);
  e_preds : gmap nat (nat * string);
  e_dead : list nat;
  e_seen : list (K * nat);
  e_depths : list nat;
  e_queue : list (nat * State)
}.

(** [edges[sid].append(nid)] on the [defaultdict(list)]. *)
Fixpoint add_edge (sid nid : nat) (es : list (nat * list nat)) : list (nat * list nat) :=
  match es with
  | [] => [(sid, [nid])]
  | (k, v) :: es' =>
      if decide (k = sid) then (k, v ++ [nid]) :: es' else (k, v) :: add_edge sid nid es'
  end.

(** [predecessors.setdefault(nid, (sid, label))]. *)
Definition set_default (nid : nat) (p : nat * string) (preds : gmap nat (nat * string)) :=
  match preds !! nid with Some _ => preds | None => <[nid := p]> preds end.

(** The body of [for label, nxt in succ]. *)
Definition visit (hash : State → K) (sid depth : nat) (e : est) (ln : string * State) : est :=
  let '(label, nxt) := ln in
  let h := hash nxt in
  match alookup h (e_seen e) with
  | Some nid =>
      mkEst (e_states e) (add_edge sid nid (e_edges e))
            (set_default nid (sid, label) (e_preds e)) (e_dead e)
            (e_seen e) (e_depths e) (e_queue e)
  | None =>
      let nid := length (e_states e) in
      mkEst (e_states e ++ [nxt]) (add_edge sid nid (e_edges e))
            (set_default nid (sid, label) (e_preds e)) (e_dead e)
            (e_seen e ++ [(h, nid)]) (e_depths e ++ [S depth])
            (e_queue e ++ [(nid, nxt)])
  end.

(** The rest of one round, once the successors are known. *)
Definition expand (hash : State → K) (sid depth : nat) (dead : bool) (q : list (nat * State))
  (e : est) (succ : list (string * State)) : est :=
  let e1 := mkEst (e_states e) (e_edges e) (e_preds e)
              (if dead then e_dead e ++ [sid] else e_dead e)
              (e_seen e) (e_depths e) q in
  foldl (visit hash sid depth) e1 succ.

Definition no_succ (succ : list (string * State)) : bool :=
  match succ with [] => true | _ => false end.

(** [while q:]; [None] only when the fuel runs out. *)
Fixpoint loop (fuel : nat) (hash : State → K) (max_depth : nat) (a : A) (e : est)
  : option (res (est * A)) :=
  match fuel with
  | 0 => None
  | S fuel' =>
      match e_queue e with
      | [] => Some (Ok (e, a))
      | (sid, st) :: q =>
          let depth := default 0 (e_depths e !! sid) in
          match (if decide (max_depth ≤ depth) then Ok ([], a) else successors a st) with
          | Raise ex => Some (Raise ex)
          | Ok (succ, a') =>
              loop fuel' hash max_depth a'
                (expand hash sid depth (no_succ succ && is_deadlocked a' st) q e succ)
          end
      end
  end.

Definition initial_est (hash : State → K) (root : State) : est :=
  mkEst [root] [] ∅ [] [(hash root, 0)] [0] [(0, root)].

Definition explorer_run (fuel : nat) (a : A) (max_depth : nat) (mode : string)
  : option (res (ExplorationResult * A)) :=
  match initial_state a with
  | Raise ex => Some (Raise ex)
  | Ok (root, a1) =>
      match hash_mode_of mode with
      | Raise ex => Some (Raise ex)
      | Ok m =>
          match loop fuel (hash_with m) max_depth a1 (initial_est (hash_with m) root) with
          | None => None
          | Some (Raise ex) => Some (Raise ex)
          | Some (Ok (e, a2)) =>
              Some (Ok (mkResult (e_states e) (e_edges e) (e_preds e) (e_dead e) m max_depth, a2))
          end
      end
  end.
End explorer.
Arguments est K : clear implicits.

(** ** Correctness of the explorer

    Against [LawfulAdapter]: the loop terminates, every state it lists is
    reachable by a path of the recorded length, the edges are the transitions,
    and, when the hash is injective on the states met, every state reachable
    within the depth bound is listed. *)

From S2P Require Import Prelude PyVal State.
From stdpp Require Import base gmap strings list fin_maps.
From Stdlib Require Import Lia.

(** ** Dictionaries of the loop *)

Lemma add_edge_fresh sid nid es :
  sid ∉ es.*1 → add_edge sid nid es = es ++ [(sid, [nid])].
Proof.
  induction es as [|[k v] es IH]; simpl; [done|]. intros Hn.
  rewrite decide_False by set_solver. f_equal. apply IH. set_solver.
Qed.

Lemma add_edge_snoc sid nid es js :
  sid ∉ es.*1 → add_edge sid nid (es ++ [(sid, js)]) = es ++ [(sid, js ++ [nid])].
Proof.
  induction es as [|[k v] es IH]; simpl; intros Hn; [by rewrite decide_True|].
  rewrite decide_False by set_solver. f_equal. apply IH. set_solver.
Qed.

(** Adding the targets [js] of a fresh source. *)
Definition add_edges (sid : nat) (js : list nat) (es : list (nat * list nat)) :=
  foldl (fun es j => add_edge sid j es) es js.

Lemma add_edges_fresh sid js es :
  sid ∉ es.*1 →
  add_edges sid js es = match js with [] => es | _ => es ++ [(sid, js)] end.
Proof.
  intros Hn. destruct js as [|j js]; [done|]. unfold add_edges. simpl.
  rewrite add_edge_fresh by done.
  assert (∀ acc, foldl (fun es j => add_edge sid j es) (es ++ [(sid, j :: acc)]) js =
                 es ++ [(sid, j :: acc ++ js)]) as Hgen.
  { induction js as [|j' js IH]; intros acc'; simpl; [by rewrite app_nil_r|].
    rewrite add_edge_snoc by done. simpl. rewrite IH. by rewrite <- app_assoc. }
  exact (Hgen []).
Qed.

Section seen.
Context {K : Type} `{Digest K}.

(** [seen] maps exactly the hashes of the listed states to their number. *)
Definition seen_ok (hash : State → K) (ss : list State) (seen : list (K * nat)) : Prop :=
  ∀ h i, alookup h seen = Some i ↔ ∃ s, ss !! i = Some s ∧ hash s = h.

Lemma alookup_snoc (h h' : K) (i : nat) (seen : list (K * nat)) :
  alookup h (seen ++ [(h', i)]) =
  match alookup h seen with
  | Some j => Some j
  | None => if decide (h = h') then Some i else None
  end.
Proof.
  induction seen as [|[k v] seen IH]; simpl; [done|].
  destruct (decide (h = k)); [done|exact IH].
Qed.

Lemma seen_ok_snoc hash ss seen s :
  seen_ok hash ss seen → alookup (hash s) seen = None →
  seen_ok hash (ss ++ [s]) (seen ++ [(hash s, length ss)]).
Proof.
  intros Hok Hnone h i. rewrite alookup_snoc. destruct (alookup h seen) as [j|] eqn:Ej.
  - split.
    + intros [= <-]. apply Hok in Ej as (s' & Hs' & Hh). exists s'.
      split; [|done]. by apply lookup_app_l_Some.
    + intros (s' & Hs' & Hh). rewrite <- Ej. apply lookup_app_Some in Hs' as [Hs'|[Hi Hs']].
      * apply Hok. eauto.
      * apply list_lookup_singleton_Some in Hs' as [_ <-]. congruence.
  - case_decide as Hd.
    + split.
      * intros [= <-]. exists s. split; [|done]. by apply list_lookup_middle.
      * intros (s' & Hs' & Hh). apply lookup_app_Some in Hs' as [Hs'|[Hi Hs']].
        -- assert (alookup h seen = Some i) as E by (apply Hok; eauto). congruence.
        -- apply list_lookup_singleton_Some in Hs' as [Hi' _]. f_equal. lia.
    + split; [done|]. intros (s' & Hs' & Hh). exfalso.
      apply lookup_app_Some in Hs' as [Hs'|[Hi Hs']].
      * assert (alookup h seen = Some i) as E by (apply Hok; eauto). congruence.
      * apply list_lookup_singleton_Some in Hs' as [_ <-]. congruence.
Qed.
End seen.

Lemma set_default_lookup nid p preds j q :
  set_default nid p preds !! j = Some q →
  preds !! j = Some q ∨ (j = nid ∧ q = p ∧ preds !! j = None).
Proof.
  unfold set_default. destruct (preds !! nid) eqn:E; [tauto|].
  rewrite lookup_insert. case_decide as Hj; [|tauto]. subst. intros [= <-]. tauto.
Qed.

Lemma set_default_mono nid p preds j q :
  preds !! j = Some q → set_default nid p preds !! j = Some q.
Proof.
  intros Hj. unfold set_default. destruct (preds !! nid) eqn:E; [done|].
  rewrite lookup_insert_ne; [done|congruence].
Qed.

Lemma set_default_self nid p preds : is_Some (set_default nid p preds !! nid).
Proof.
  unfold set_default. destruct (preds !! nid) eqn:E; [by rewrite E|].
  rewrite lookup_insert_eq. eauto.
Qed.

(** ** One round of the loop *)

Section round.
Context {K : Type} `{Digest K} (hash : State → K).

(** What visiting the successors [succ] of number [sid] does: some of them
    ([news]) are appended as new states, [js] are the numbers they get. *)
Definition grow (sid depth : nat) (succ : list (string * State)) (e e' : est K) : Prop :=
  ∃ news js,
    e_states e' = e_states e ++ news ∧
    e_depths e' = e_depths e ++ replicate (length news) (S depth) ∧
    e_queue e' = e_queue e ++ imap (fun i s => (length (e_states e) + i, s)) news ∧
    e_edges e' = add_edges sid js (e_edges e) ∧
    e_dead e' = e_dead e ∧
    seen_ok hash (e_states e') (e_seen e') ∧
    Forall2 (fun ls j => ∃ s', e_states e' !! j = Some s' ∧ hash s' = hash ls.2) succ js ∧
    Forall (fun s => ∃ l, (l, s) ∈ succ) news ∧
    (∀ j q, e_preds e !! j = Some q → e_preds e' !! j = Some q) ∧
    (∀ j i l, e_preds e' !! j = Some (i, l) →
       e_preds e !! j = Some (i, l) ∨
       (i = sid ∧ j ∈ js ∧ ∃ s s', (l, s) ∈ succ ∧ e_states e' !! j = Some s' ∧ hash s = hash s')) ∧
    (∀ j, j ∈ js → is_Some (e_preds e' !! j)) ∧
    (∀ j, length (e_states e) ≤ j → j < length (e_states e') → j ∈ js).

Lemma visit_grow sid depth ln e :
  seen_ok hash (e_states e) (e_seen e) → grow sid depth [ln] e (visit hash sid depth e ln).
Proof.
  intros Hok. destruct ln as [label nxt]. unfold visit.
  destruct (alookup (hash nxt) (e_seen e)) as [nid|] eqn:E.
  - apply Hok in E as Hs. destruct Hs as (s & Hs & Hh).
    exists [], [nid]. simpl. rewrite !app_nil_r. split_and!; try done.
    + constructor; [|constructor]. eauto.
    + intros j q. apply set_default_mono.
    + intros j i l [Hj|(-> & [= -> ->] & _)]%set_default_lookup; [tauto|].
      right. split_and!; [done|set_solver|]. exists nxt, s. set_solver.
    + intros j ->%list_elem_of_singleton. apply set_default_self.
    + intros j. lia.
  - exists [nxt], [length (e_states e)]. simpl. rewrite Nat.add_0_r. split_and!; try done.
    + by apply seen_ok_snoc.
    + constructor; [|constructor]. exists nxt. split; [|done]. by apply list_lookup_middle.
    + constructor; [|constructor]. exists label. set_solver.
    + intros j q. apply set_default_mono.
    + intros j i l [Hj|(-> & [= -> ->] & _)]%set_default_lookup; [tauto|].
      right. split_and!; [done|set_solver|]. exists nxt, nxt. split_and!; [set_solver| |done].
      by apply list_lookup_middle.
    + intros j ->%list_elem_of_singleton. apply set_default_self.
    + intros j Hj. rewrite length_app. simpl. intros. assert (j = length (e_states e)) by lia. set_solver.
Qed.

Lemma grow_nil sid depth e : seen_ok hash (e_states e) (e_seen e) → grow sid depth [] e e.
Proof.
  intros Hok. exists [], []. simpl. rewrite !app_nil_r. split_and!; try done.
  - tauto.
  - set_solver.
  - intros j. lia.
Qed.

Lemma grow_app sid depth l1 l2 e1 e2 e3 :
  grow sid depth l1 e1 e2 → grow sid depth l2 e2 e3 → grow sid depth (l1 ++ l2) e1 e3.
Proof.
  intros (n1 & j1 & Hst1 & Hd1 & Hq1 & He1 & Hde1 & Hs1 & Hf1 & Hn1 & Hm1 & Hp1 & Hj1 & Ha1)
         (n2 & j2 & Hst2 & Hd2 & Hq2 & He2 & Hde2 & Hs2 & Hf2 & Hn2 & Hm2 & Hp2 & Hj2 & Ha2).
  exists (n1 ++ n2), (j1 ++ j2). split_and!.
  - by rewrite Hst2, Hst1, app_assoc.
  - rewrite Hd2, Hd1, length_app, <- app_assoc. f_equal. by rewrite replicate_add.
  - rewrite Hq2, Hq1, imap_app, <- app_assoc. do 2 f_equal. rewrite Hst1, length_app.
    apply imap_ext. intros i s _. simpl. f_equal. lia.
  - rewrite He2, He1. unfold add_edges. by rewrite foldl_app.
  - congruence.
  - done.
  - apply Forall2_app; [|done]. eapply Forall2_impl; [exact Hf1|].
    intros ls j (s' & Hs' & Hh). exists s'. split; [|done]. rewrite Hst2.
    by apply lookup_app_l_Some.
  - apply Forall_app. split; (eapply Forall_impl; [eassumption|]); intros s [l Hl]; exists l; set_solver.
  - eauto.
  - intros j i l [Hp|(-> & Hj & s & s' & Hs & Hs' & Hh)]%Hp2.
    + apply Hp1 in Hp as [Hp|(-> & Hj & s & s' & Hs & Hs' & Hh)]; [tauto|]. right.
      split_and!; [done|set_solver|]. exists s, s'. split_and!; [set_solver| |done].
      rewrite Hst2. by apply lookup_app_l_Some.
    + right. split_and!; [done|set_solver|]. exists s, s'. split_and!; [set_solver|done|done].
  - intros j [Hj|Hj]%elem_of_app; [|by apply Hj2].
    destruct (Hj1 j Hj) as [q Hq]. eauto.
  - intros j Hj1' Hj2'. apply elem_of_app.
    destruct (decide (j < length (e_states e2))); [left; by apply Ha1|right; apply Ha2; lia].
Qed.

Lemma visits_grow sid depth succ e :
  seen_ok hash (e_states e) (e_seen e) →
  grow sid depth succ e (foldl (visit hash sid depth) e succ).
Proof.
  revert e. induction succ as [|ln succ IH]; intros e Hok; simpl; [by apply grow_nil|].
  pose proof (visit_grow sid depth ln e Hok) as Hv.
  change (ln :: succ) with ([ln] ++ succ). eapply grow_app; [exact Hv|].
  apply IH. by destruct Hv as (?&?&?&?&?&?&?&?&?).
Qed.
End round.

(** ** The loop invariant *)

Section invariant.
Context {K : Type} `{Digest K} {A : Type} `{LawfulAdapter A}.
Context (hash : State → K) (root : State) (D : nat).

(** The first [k] states are processed; the queue holds the others. *)
Record explored (a : A) (e : est K) (k : nat) : Prop := {
  x_queue : e_queue e = drop k (imap (fun i s => (i, s)) (e_states e));
  x_k : k ≤ length (e_states e);
  x_root : e_states e !! 0 = Some root;
  x_droot : e_depths e !! 0 = Some 0;
  x_len : length (e_depths e) = length (e_states e);
  x_known : Forall (known a) (e_states e);
  x_seen : seen_ok hash (e_states e) (e_seen e);
  x_mono : ∀ i j di dj, i ≤ j → e_depths e !! i = Some di → e_depths e !! j = Some dj → di ≤ dj;
  x_band : ∀ j dj dk, e_depths e !! k = Some dk → e_depths e !! j = Some dj → dj ≤ S dk;
  x_reach : ∀ i s d, e_states e !! i = Some s → e_depths e !! i = Some d →
    d ≤ D ∧ steps a d root s;
  x_edges : ∀ i js, (i, js) ∈ e_edges e →
    i < k ∧ js ≠ [] ∧ ∃ s d, e_states e !! i = Some s ∧ e_depths e !! i = Some d ∧ d < D ∧
      Forall2 (fun ls j => ∃ s', e_states e !! j = Some s' ∧ hash s' = hash ls.2) (post a s) js;
  x_nodup : NoDup (e_edges e).*1;
  x_complete : ∀ i s d, i < k → e_states e !! i = Some s → e_depths e !! i = Some d →
    d < D → post a s ≠ [] → i ∈ (e_edges e).*1;
  x_cover : ∀ i s d l s', i < k → e_states e !! i = Some s → e_depths e !! i = Some d →
    d < D → (l, s') ∈ post a s →
    ∃ j sj dj, e_states e !! j = Some sj ∧ hash sj = hash s' ∧ e_depths e !! j = Some dj ∧ dj ≤ S d;
  x_preds : ∀ j i l, e_preds e !! j = Some (i, l) →
    i < k ∧ (j ≠ 0 → i < j) ∧ (∃ js, (i, js) ∈ e_edges e ∧ j ∈ js) ∧
    ∃ s s' sj, e_states e !! i = Some s ∧ (l, s') ∈ post a s ∧
               e_states e !! j = Some sj ∧ hash s' = hash sj;
  x_pred_total : ∀ j, 0 < j → j < length (e_states e) → is_Some (e_preds e !! j)
}.

(** Facts the round needs about the first queued state. *)
Lemma explored_head a e k sid st q :
  explored a e k → e_queue e = (sid, st) :: q →
  sid = k ∧ e_states e !! k = Some st ∧ k < length (e_states e) ∧ known a st ∧
  q = drop (S k) (imap (fun i s => (i, s)) (e_states e)) ∧
  ∃ dk, e_depths e !! k = Some dk.
Proof.
  intros Hx Hq. rewrite (x_queue _ _ _ Hx) in Hq.
  assert (imap (fun i s => (i, s)) (e_states e) !! k = Some (sid, st)) as Hk.
  { rewrite <- (Nat.add_0_r k), <- lookup_drop, Hq. done. }
  rewrite list_lookup_imap in Hk. apply fmap_Some in Hk as (s & Hs & [= -> ->]).
  assert (k < length (e_states e)) as Hlt by (by eapply lookup_lt_Some).
  split_and!; [done|done|done| | |].
  - eapply Forall_lookup_1; [apply (x_known _ _ _ Hx)|done].
  - rewrite <- Nat.add_1_r, <- drop_drop, Hq. done.
  - apply lookup_lt_is_Some. by rewrite (x_len _ _ _ Hx).
Qed.

Definition succ_of (a : A) (s : State) (d : nat) : list (string * State) :=
  if decide (D ≤ d) then [] else post a s.

(** One round: the state [k] is processed. *)
Section step.
Context (a a' : A) (e e' : est K) (k dk : nat) (st : State).
Hypothesis Hx : explored a e k.
Hypothesis Hext : extends a a'.
Hypothesis Hst : e_states e !! k = Some st.
Hypothesis Hdk : e_depths e !! k = Some dk.
Hypothesis Hpost : Forall (fun ls => known a' ls.2) (succ_of a st dk).
Context (news : list State) (js : list nat).
Hypothesis Hstates : e_states e' = e_states e ++ news.
Hypothesis Hdepths : e_depths e' = e_depths e ++ replicate (length news) (S dk).
Hypothesis Hedges : e_edges e' = add_edges k js (e_edges e).
Hypothesis Hjs : Forall2 (fun ls j => ∃ s', e_states e' !! j = Some s' ∧ hash s' = hash ls.2)
                   (succ_of a st dk) js.
Hypothesis Hnews : Forall (fun s => ∃ l, (l, s) ∈ succ_of a st dk) news.

Lemma round_lookup_old i s : e_states e !! i = Some s → e_states e' !! i = Some s.
Proof. intros Hi. rewrite Hstates. by apply lookup_app_l_Some. Qed.

Lemma round_depth_old i d : e_depths e !! i = Some d → e_depths e' !! i = Some d.
Proof. intros Hi. rewrite Hdepths. by apply lookup_app_l_Some. Qed.

Lemma round_depth_cases i d :
  e_depths e' !! i = Some d →
  e_depths e !! i = Some d ∨
  (length (e_states e) ≤ i ∧ d = S dk ∧ dk < D).
Proof.
  rewrite Hdepths. intros [Hi|[Hi Hr]]%lookup_app_Some; [tauto|right].
  apply lookup_replicate in Hr as [-> Hlt]. rewrite (x_len _ _ _ Hx) in Hi.
  split_and!; [lia|done|]. destruct news as [|n news']; [simpl in *; lia|].
  apply Forall_cons in Hnews as [[l Hl] _]. unfold succ_of in Hl. case_decide; [set_solver|lia].
Qed.

Lemma round_succ_lt : dk < D → succ_of a st dk = post a st.
Proof. intros. unfold succ_of. by rewrite decide_False by lia. Qed.

Lemma round_fresh : k ∉ (e_edges e).*1.
Proof.
  intros Hin. apply list_elem_of_fmap in Hin as ([i js'] & -> & Hin).
  apply (x_edges _ _ _ Hx) in Hin as [Hlt _]. simpl in Hlt. lia.
Qed.

Lemma round_edges_eq :
  e_edges e' = match js with [] => e_edges e | _ => e_edges e ++ [(k, js)] end.
Proof. rewrite Hedges. apply add_edges_fresh, round_fresh. Qed.

Lemma round_edge_cases i js' :
  (i, js') ∈ e_edges e' → (i, js') ∈ e_edges e ∨ (i = k ∧ js' = js ∧ js ≠ []).
Proof.
  rewrite round_edges_eq. destruct js as [|j js0]; [tauto|].
  intros [?|[= -> ->]%list_elem_of_singleton]%elem_of_app; [tauto|]. right. done.
Qed.

Lemma round_edge_old i js' : (i, js') ∈ e_edges e → (i, js') ∈ e_edges e'.
Proof. rewrite round_edges_eq. destruct js; [done|]. set_solver. Qed.

Lemma round_dk_le : dk ≤ D.
Proof. apply (x_reach _ _ _ Hx k st dk Hst Hdk). Qed.

Lemma round_known : Forall (known a') (e_states e').
Proof.
  rewrite Hstates. apply Forall_app. split.
  - eapply Forall_impl; [apply (x_known _ _ _ Hx)|]. intros s Hs. by apply Hext.
  - eapply Forall_impl; [exact Hnews|]. intros s [l Hl].
    rewrite Forall_forall in Hpost. by apply (Hpost (l, s)).
Qed.

Lemma round_known_old i s : e_states e !! i = Some s → known a s ∧ post a' s = post a s.
Proof.
  intros Hs. assert (known a s) as Hk.
  { eapply Forall_lookup_1; [apply (x_known _ _ _ Hx)|done]. }
  split; [done|]. by apply Hext.
Qed.

Lemma round_reach i s d :
  e_states e' !! i = Some s → e_depths e' !! i = Some d → d ≤ D ∧ steps a' d root s.
Proof.
  intros Hs Hd. rewrite Hstates in Hs. apply lookup_app_Some in Hs as [Hs|[Hi Hs]].
  - apply round_depth_cases in Hd as [Hd|[Hi _]];
      [|apply lookup_lt_Some in Hs; lia].
    destruct (x_reach _ _ _ Hx i s d Hs Hd) as [? ?].
    split; [done|by eapply steps_extends].
  - apply round_depth_cases in Hd as [Hd|(_ & -> & Hlt)].
    { apply lookup_lt_Some in Hd. rewrite (x_len _ _ _ Hx) in Hd. lia. }
    split; [lia|]. apply list_elem_of_lookup_2 in Hs. rewrite Forall_forall in Hnews.
    destruct (Hnews _ Hs) as [l Hl]. rewrite round_succ_lt in Hl by done.
    destruct (round_known_old k st Hst) as [Hk Hp].
    econstructor; [|by apply Hext|exists l; by rewrite Hp].
    eapply steps_extends; [exact Hext|]. by apply (x_reach _ _ _ Hx k).
Qed.

Lemma round_depth_of_js j sj :
  j ∈ js → e_states e' !! j = Some sj → ∃ dj, e_depths e' !! j = Some dj ∧ dj ≤ S dk.
Proof.
  intros Hj Hs. assert (j < length (e_depths e')) as Hlt.
  { rewrite Hdepths, length_app, length_replicate, (x_len _ _ _ Hx), <- length_app, <- Hstates.
    by eapply lookup_lt_Some. }
  apply lookup_lt_is_Some in Hlt as [dj Hdj]. exists dj. split; [done|].
  apply round_depth_cases in Hdj as [Hdj|(_ & -> & _)]; [|done].
  by eapply (x_band _ _ _ Hx j).
Qed.

Lemma round_cover_self l s' :
  dk < D → (l, s') ∈ post a st →
  ∃ j sj dj, e_states e' !! j = Some sj ∧ hash sj = hash s' ∧
             e_depths e' !! j = Some dj ∧ dj ≤ S dk.
Proof.
  intros Hlt Hl. rewrite <- round_succ_lt in Hl by done.
  apply list_elem_of_lookup in Hl as [n Hn].
  destruct (Forall2_lookup_l _ _ _ _ _ Hjs Hn) as (j & Hj & sj & Hsj & Hh).
  destruct (round_depth_of_js j sj) as (dj & Hdj & Hle); [by eapply list_elem_of_lookup_2|done|].
  eauto 10.
Qed.

Lemma round_mono i j di dj :
  i ≤ j → e_depths e' !! i = Some di → e_depths e' !! j = Some dj → di ≤ dj.
Proof.
  intros Hij [Hi|(Hi & -> & _)]%round_depth_cases [Hj|(Hj & -> & _)]%round_depth_cases.
  - by eapply (x_mono _ _ _ Hx i j).
  - by eapply (x_band _ _ _ Hx i).
  - apply lookup_lt_Some in Hj. rewrite (x_len _ _ _ Hx) in Hj. lia.
  - done.
Qed.

Lemma round_band j dj d1 :
  e_depths e' !! S k = Some d1 → e_depths e' !! j = Some dj → dj ≤ S d1.
Proof.
  intros H1' Hj. assert (dk ≤ d1) as Hle.
  { eapply (round_mono k (S k)); [lia| |done]. by apply round_depth_old. }
  apply round_depth_cases in Hj as [Hj|(_ & -> & _)]; [|lia].
  pose proof (x_band _ _ _ Hx j dj dk Hdk Hj). lia.
Qed.

Lemma round_edges i js' :
  (i, js') ∈ e_edges e' →
  i < S k ∧ js' ≠ [] ∧ ∃ s d, e_states e' !! i = Some s ∧ e_depths e' !! i = Some d ∧ d < D ∧
    Forall2 (fun ls j => ∃ s', e_states e' !! j = Some s' ∧ hash s' = hash ls.2) (post a' s) js'.
Proof.
  intros [Hin|(-> & -> & Hne)]%round_edge_cases.
  - apply (x_edges _ _ _ Hx) in Hin as (Hi & Hne & s & d & Hs & Hd & Hlt & Hf).
    split_and!; [lia|done|]. exists s, d. destruct (round_known_old i s Hs) as [_ ->].
    split_and!; [by apply round_lookup_old|by apply round_depth_old|done|].
    eapply Forall2_impl; [exact Hf|]. intros ls j (s' & Hs' & Hh). exists s'.
    split; [by apply round_lookup_old|done].
  - split_and!; [lia|done|]. exists st, dk. destruct (round_known_old k st Hst) as [_ ->].
    assert (dk < D) as Hlt.
    { revert Hjs. unfold succ_of. case_decide; [|lia]. intros Hf.
      by apply Forall2_nil_inv_l in Hf. }
    rewrite round_succ_lt in Hjs by done.
    split_and!; [by apply round_lookup_old|by apply round_depth_old|done|done].
Qed.

Lemma round_nodup : NoDup (e_edges e').*1.
Proof.
  pose proof (x_nodup _ _ _ Hx) as Hnd. pose proof round_fresh as Hfresh.
  rewrite round_edges_eq. destruct js as [|j js0]; [done|].
  rewrite fmap_app. apply NoDup_app. split_and!; [done| |apply NoDup_singleton].
  intros i Hi ->%list_elem_of_singleton. done.
Qed.

Lemma round_states_lt i s d :
  i < S k → e_states e' !! i = Some s → e_depths e' !! i = Some d →
  e_states e !! i = Some s ∧ e_depths e !! i = Some d.
Proof.
  intros Hi Hs Hd. assert (i < length (e_states e)) as Hlt.
  { pose proof (lookup_lt_Some _ _ _ Hst). lia. }
  split.
  - rewrite Hstates in Hs. by rewrite lookup_app_l in Hs.
  - rewrite Hdepths in Hd. rewrite lookup_app_l in Hd; [done|]. by rewrite (x_len _ _ _ Hx).
Qed.

Lemma round_complete i s d :
  i < S k → e_states e' !! i = Some s → e_depths e' !! i = Some d →
  d < D → post a' s ≠ [] → i ∈ (e_edges e').*1.
Proof.
  intros Hi Hs Hd Hlt Hne. destruct (round_states_lt i s d Hi Hs Hd) as [Hs0 Hd0].
  destruct (round_known_old i s Hs0) as [_ Hp]. rewrite Hp in Hne.
  destruct (decide (i = k)) as [->|Hik].
  - assert (s = st) as -> by congruence. assert (d = dk) as -> by congruence.
    rewrite round_edges_eq. rewrite round_succ_lt in Hjs by done.
    destruct js as [|j js0].
    + by apply Forall2_nil_inv_r in Hjs.
    + rewrite fmap_app. set_solver.
  - assert (i ∈ (e_edges e).*1) as Hin by (eapply (x_complete _ _ _ Hx); eauto; lia).
    apply list_elem_of_fmap in Hin as ([i' js'] & -> & Hin).
    by eapply (list_elem_of_fmap_2 fst), round_edge_old.
Qed.

Lemma round_cover i s d l s' :
  i < S k → e_states e' !! i = Some s → e_depths e' !! i = Some d →
  d < D → (l, s') ∈ post a' s →
  ∃ j sj dj, e_states e' !! j = Some sj ∧ hash sj = hash s' ∧
             e_depths e' !! j = Some dj ∧ dj ≤ S d.
Proof.
  intros Hi Hs Hd Hlt Hl. destruct (round_states_lt i s d Hi Hs Hd) as [Hs0 Hd0].
  destruct (round_known_old i s Hs0) as [_ Hp]. rewrite Hp in Hl.
  destruct (decide (i = k)) as [->|Hik].
  - assert (s = st) as -> by congruence. assert (d = dk) as -> by congruence.
    by eapply round_cover_self.
  - destruct (x_cover _ _ _ Hx i s d l s') as (j & sj & dj & Hj & Hh & Hdj & Hle);
      [lia|done..|].
    exists j, sj, dj. split_and!; [by apply round_lookup_old|done|by apply round_depth_old|done].
Qed.

Hypothesis Hseen : seen_ok hash (e_states e') (e_seen e').
Hypothesis Hpmono : ∀ j q, e_preds e !! j = Some q → e_preds e' !! j = Some q.
Hypothesis Hpcase : ∀ j i l, e_preds e' !! j = Some (i, l) →
  e_preds e !! j = Some (i, l) ∨
  (i = k ∧ j ∈ js ∧ ∃ s s', (l, s) ∈ succ_of a st dk ∧ e_states e' !! j = Some s' ∧ hash s = hash s').
Hypothesis Hpjs : ∀ j, j ∈ js → is_Some (e_preds e' !! j).
Hypothesis Hjnew : ∀ j, length (e_states e) ≤ j → j < length (e_states e') → j ∈ js.

Lemma round_pred_total j : 0 < j → j < length (e_states e') → is_Some (e_preds e' !! j).
Proof.
  intros H0' Hlt. destruct (decide (j < length (e_states e))).
  - destruct (x_pred_total _ _ _ Hx j) as [q Hq]; [lia|done|]. eauto.
  - apply Hpjs, Hjnew; lia.
Qed.

Lemma round_preds j i l :
  e_preds e' !! j = Some (i, l) →
  i < S k ∧ (j ≠ 0 → i < j) ∧ (∃ js', (i, js') ∈ e_edges e' ∧ j ∈ js') ∧
  ∃ s s' sj, e_states e' !! i = Some s ∧ (l, s') ∈ post a' s ∧
             e_states e' !! j = Some sj ∧ hash s' = hash sj.
Proof.
  intros Hp. destruct (e_preds e !! j) as [[i0 l0]|] eqn:Hold.
  - apply Hpmono in Hold as Hp'. rewrite Hp in Hp'. injection Hp' as <- <-.
    destruct (x_preds _ _ _ Hx j i l Hold) as (Hi & Hij & (js' & He & Hj) & s & s' & sj & Hs & Hl & Hsj & Hh).
    split_and!; [lia|done| |].
    + exists js'. split; [by apply round_edge_old|done].
    + exists s, s', sj. destruct (round_known_old i s Hs) as [_ ->].
      split_and!; [by apply round_lookup_old|done|by apply round_lookup_old|done].
  - apply Hpcase in Hp as [Hp|(-> & Hj & s & s' & Hl & Hs' & Hh)]; [congruence|].
    assert (dk < D) as Hlt.
    { revert Hl. unfold succ_of. case_decide; [set_solver|lia]. }
    split_and!; [lia| | |].
    + intros Hj0. destruct (decide (j < length (e_states e))) as [Hjl|Hjl].
      * destruct (x_pred_total _ _ _ Hx j) as [q Hq]; [lia|done|]. congruence.
      * pose proof (lookup_lt_Some _ _ _ Hst). lia.
    + exists js. split; [|done]. rewrite round_edges_eq. destruct js; set_solver.
    + exists st, s, s'. destruct (round_known_old k st Hst) as [_ ->].
      rewrite round_succ_lt in Hl by done. split_and!; [by apply round_lookup_old|done..].
Qed.

Hypothesis Hqueue : e_queue e' = drop (S k) (imap (fun i s => (i, s)) (e_states e)) ++
                                 imap (fun i s => (length (e_states e) + i, s)) news.

Lemma round_explored : explored a' e' (S k).
Proof.
  pose proof (lookup_lt_Some _ _ _ Hst) as Hklt. constructor.
  - rewrite Hqueue, Hstates, imap_app, drop_app_le by (rewrite length_imap; lia).
    f_equal.
  - rewrite Hstates, length_app. lia.
  - apply round_lookup_old, (x_root _ _ _ Hx).
  - apply round_depth_old, (x_droot _ _ _ Hx).
  - by rewrite Hdepths, Hstates, !length_app, length_replicate, (x_len _ _ _ Hx).
  - apply round_known.
  - done.
  - apply round_mono.
  - apply round_band.
  - apply round_reach.
  - apply round_edges.
  - apply round_nodup.
  - apply round_complete.
  - apply round_cover.
  - apply round_preds.
  - apply round_pred_total.
Qed.
End step.
End invariant.

(** ** The whole loop *)

Section run.
Context {K : Type} `{Digest K} {A : Type} `{LawfulAdapter A}.
Context (hash : State → K) (root : State) (D : nat).

(** One round from a state satisfying the invariant: the query succeeds and
    the next state satisfies it again. *)
Lemma round_step a e k sid st q :
  adapter_wf a → explored hash root D a e k → e_queue e = (sid, st) :: q →
  ∃ dk succ a' e',
    e_depths e !! k = Some dk ∧
    (if decide (D ≤ default 0 (e_depths e !! sid)) then Ok ([], a) else successors a st)
      = Ok (succ, a') ∧
    e' = expand hash sid (default 0 (e_depths e !! sid))
           (no_succ succ && is_deadlocked a' st) q e succ ∧
    adapter_wf a' ∧ extends a a' ∧ explored hash root D a' e' (S k) ∧
    ∃ n, e_depths e' = e_depths e ++ replicate n (S dk).
Proof.
  intros Hwf Hx Hq.
  destruct (explored_head _ _ _ _ _ _ _ _ _ Hx Hq) as (-> & Hst & Hk & Hkn & Hq' & dk & Hdk).
  rewrite Hdk. simpl.
  assert (∃ a', (if decide (D ≤ dk) then Ok ([], a) else successors a st)
                = Ok (succ_of D a st dk, a') ∧ adapter_wf a' ∧ extends a a' ∧
                Forall (fun ls => known a' ls.2) (succ_of D a st dk))
    as (a' & Hsucc & Hwf' & Hext & Hpost).
  { unfold succ_of. case_decide.
    - exists a. split_and!; [done|done|reflexivity|constructor].
    - by apply law_successors_ok. }
  exists dk, (succ_of D a st dk), a'. eexists. split_and!; [done|done|reflexivity|done|done| |].
  - destruct (visits_grow hash k dk (succ_of D a st dk)
      (mkEst (e_states e) (e_edges e) (e_preds e)
         (if no_succ (succ_of D a st dk) && is_deadlocked a' st
          then e_dead e ++ [k] else e_dead e) (e_seen e) (e_depths e) q))
      as (news & js & Hstates & Hdepths & Hqueue & Hedges & _ & Hseen & Hjs & Hnews & Hpm & Hpc & Hpj & Hjn);
      [apply (x_seen _ _ _ _ _ _ Hx)|].
    cbn [e_states e_edges e_preds e_dead e_seen e_depths e_queue] in *.
    rewrite Hq' in Hqueue. unfold expand.
    eapply (round_explored hash root D a a' e); eauto.
    by rewrite <- Hq' in *.
  - destruct (visits_grow hash k dk (succ_of D a st dk)
      (mkEst (e_states e) (e_edges e) (e_preds e)
         (if no_succ (succ_of D a st dk) && is_deadlocked a' st
          then e_dead e ++ [k] else e_dead e) (e_seen e) (e_depths e) q))
      as (news & js & _ & Hdepths & _); [apply (x_seen _ _ _ _ _ _ Hx)|].
    exists (length news). exact Hdepths.
Qed.

Lemma initial_explored a :
  known a root → explored hash root D a (initial_est hash root) 0.
Proof.
  intros Hk. constructor; simpl; try done.
  - lia.
  - by constructor.
  - intros h i. simpl. case_decide as Hh.
    + subst h. split; [intros [= <-]; exists root; done|].
      intros (s & Hs & _). apply list_lookup_singleton_Some in Hs as [-> _]. done.
    + split; [done|]. intros (s & Hs & Hh'). apply list_lookup_singleton_Some in Hs as [_ <-]. done.
  - intros i j di dj _ [_ <-]%list_lookup_singleton_Some [_ <-]%list_lookup_singleton_Some. done.
  - intros j dj dk [= <-] [_ <-]%list_lookup_singleton_Some. lia.
  - intros i s d [_ <-]%list_lookup_singleton_Some [_ <-]%list_lookup_singleton_Some.
    split; [lia|constructor].
  - set_solver.
  - constructor.
  - intros. lia.
  - intros. lia.
  - intros j Hj Hlt. lia.
Qed.

(** The result of the loop satisfies the invariant with an empty queue. *)
Lemma loop_explored fuel a e k e' a' :
  adapter_wf a → explored hash root D a e k → loop fuel hash D a e = Some (Ok (e', a')) →
  explored hash root D a' e' (length (e_states e')).
Proof.
  revert a e k. induction fuel as [|fuel IH]; intros a e k Hwf Hx; simpl; [done|].
  destruct (e_queue e) as [|[sid st] q] eqn:Hq.
  - intros [= <- <-]. assert (k = length (e_states e)) as <-; [|done].
    pose proof (x_queue _ _ _ _ _ _ Hx) as Hd. rewrite Hq in Hd.
    symmetry in Hd. apply (f_equal length) in Hd. rewrite length_drop, length_imap in Hd.
    pose proof (x_k _ _ _ _ _ _ Hx). simpl in Hd. lia.
  - destruct (round_step a e k sid st q Hwf Hx Hq)
      as (dk & succ & a1 & e1 & _ & -> & -> & Hwf1 & _ & Hx1 & _).
    by apply IH with (k := S k).
Qed.

Lemma loop_wf fuel a e k e' a' :
  adapter_wf a → explored hash root D a e k → loop fuel hash D a e = Some (Ok (e', a')) →
  adapter_wf a'.
Proof.
  revert a e k. induction fuel as [|fuel IH]; intros a e k Hwf Hx; simpl; [done|].
  destruct (e_queue e) as [|[sid st] q] eqn:Hq; [by intros [= <- <-]|].
  destruct (round_step a e k sid st q Hwf Hx Hq)
    as (dk & succ & a1 & e1 & _ & -> & -> & Hwf1 & _ & Hx1 & _).
  by apply IH with (k := S k).
Qed.

Lemma loop_no_raise fuel a e k ex :
  adapter_wf a → explored hash root D a e k → loop fuel hash D a e ≠ Some (Raise ex).
Proof.
  revert a e k. induction fuel as [|fuel IH]; intros a e k Hwf Hx; simpl; [done|].
  destruct (e_queue e) as [|[sid st] q] eqn:Hq; [done|].
  destruct (round_step a e k sid st q Hwf Hx Hq)
    as (dk & succ & a1 & e1 & _ & -> & -> & Hwf1 & _ & Hx1 & _).
  by apply IH with (k := S k).
Qed.

Lemma loop_fuel_mono fuel fuel' (a : A) e r :
  loop fuel hash D a e = Some r → fuel ≤ fuel' → loop fuel' hash D a e = Some r.
Proof.
  revert fuel' a e. induction fuel as [|fuel IH]; intros fuel' a e; simpl; [done|].
  destruct fuel' as [|fuel']; [lia|]. simpl. intros Hl Hle.
  destruct (e_queue e) as [|[sid st] q]; [done|].
  destruct (if decide (D ≤ default 0 (e_depths e !! sid)) then Ok ([], a) else successors a st)
    as [[succ a']|ex]; [|done].
  apply IH; [done|lia].
Qed.

(** Termination: the depth of the first queued state grows, or stays and one
    fewer queued state has it. *)
Definition at_depth (e : est K) (k d : nat) : nat :=
  length (filter (fun x => x = d) (drop k (e_depths e))).

Lemma at_depth_step e e' k d n :
  e_depths e !! k = Some d → e_depths e' = e_depths e ++ replicate n (S d) →
  at_depth e k d = S (at_depth e' (S k) d).
Proof.
  intros Hk He'. unfold at_depth. rewrite He'.
  rewrite drop_app_le by (apply lookup_lt_Some in Hk; lia).
  rewrite filter_app, length_app. rewrite (drop_S _ _ _ Hk).
  rewrite filter_cons_True by done. simpl.
  assert (filter (fun x => x = d) (replicate n (S d)) = []) as ->; [|simpl; lia].
  clear He'. induction n as [|n IH]; simpl; [done|].
  rewrite filter_cons_False by lia. exact IH.
Qed.

Lemma loop_terminates_aux r c a e k d :
  adapter_wf a → explored hash root D a e k → e_depths e !! k = Some d →
  D - d = r → at_depth e k d = c → ∃ fuel res, loop fuel hash D a e = Some res.
Proof.
  revert c a e k d. induction r as [r IHr] using lt_wf_ind.
  induction c as [c IHc] using lt_wf_ind. intros a e k d Hwf Hx Hd Hr Hc.
  destruct (e_queue e) as [|[sid st] q] eqn:Hq.
  { exists 1. simpl. rewrite Hq. eauto. }
  destruct (round_step a e k sid st q Hwf Hx Hq)
    as (dk & succ & a1 & e1 & Hdk & Hs & He1 & Hwf1 & _ & Hx1 & n & Hn).
  assert (dk = d) as -> by congruence.
  assert (∃ fuel res, loop fuel hash D a1 e1 = Some res) as (fuel & res & Hres).
  { destruct (e_depths e1 !! S k) as [d1|] eqn:Hd1.
    - assert (e_depths e1 !! k = Some d) as Hk1.
      { rewrite Hn. by apply lookup_app_l_Some. }
      assert (d ≤ d1) as Hle by (eapply (x_mono _ _ _ _ _ _ Hx1 k (S k)); [lia|done|done]).
      assert (is_Some (e_states e1 !! S k)) as [s1 Hs1].
      { apply lookup_lt_is_Some. rewrite <- (x_len _ _ _ _ _ _ Hx1). by eapply lookup_lt_Some. }
      destruct (x_reach _ _ _ _ _ _ Hx1 (S k) s1 d1 Hs1 Hd1) as [HD _].
      pose proof (at_depth_step e e1 k d n Hd Hn) as Hat.
      destruct (decide (d = d1)) as [<-|Hne].
      + eapply (IHc (at_depth e1 (S k) d)); eauto. lia.
      + eapply (IHr (D - d1)); eauto. lia.
    - exists 1, (Ok (e1, a1)). simpl.
      assert (e_queue e1 = []) as ->; [|done].
      rewrite (x_queue _ _ _ _ _ _ Hx1). apply drop_ge. rewrite length_imap.
      apply lookup_ge_None in Hd1. by rewrite (x_len _ _ _ _ _ _ Hx1) in Hd1. }
  exists (S fuel), res. simpl. rewrite Hq, Hs, <- He1. exact Hres.
Qed.

Lemma loop_terminates a :
  adapter_wf a → known a root →
  ∃ fuel e' a', loop fuel hash D a (initial_est hash root) = Some (Ok (e', a')).
Proof.
  intros Hwf Hk. pose proof (initial_explored a Hk) as Hx.
  destruct (loop_terminates_aux _ _ a _ 0 0 Hwf Hx eq_refl eq_refl eq_refl) as (fuel & [[e' a']|ex] & Hr).
  - eauto.
  - exfalso. by eapply loop_no_raise.
Qed.
End run.

(** ** The result of a run *)

(** [edge m i j]: the explored graph has an edge from [i] to [j]. *)
Definition edge (m : ExplorationResult) (i j : nat) : Prop :=
  ∃ js, (i, js) ∈ edges m ∧ j ∈ js.

Section result.
Context {K : Type} `{Digest K} {A : Type} `{LawfulAdapter A}.

Lemma explorer_run_explored fuel (a : A) D mode r a' :
  adapter_wf a → explorer_run (K:=K) fuel a D mode = Some (Ok (r, a')) →
  ∃ m e, hash_mode_of mode = Ok m ∧
    r = mkResult (e_states e) (e_edges e) (e_preds e) (e_dead e) m D ∧
    explored (hash_with (K:=K) m) (start a) D a' e (length (e_states e)).
Proof.
  intros Hwf Hrun. unfold explorer_run in Hrun.
  destruct (law_initial a Hwf) as (a1 & Hi & Hwf1 & Hk). rewrite Hi in Hrun.
  destruct (hash_mode_of mode) as [m|ex]; [|done].
  destruct (loop fuel (hash_with m) D a1 (initial_est (hash_with m) (start a)))
    as [[[e a2]|ex]|] eqn:Hl; [|done|done].
  injection Hrun as <- <-. exists m, e. split_and!; [done|done|].
  eapply loop_explored; [exact Hwf1|by apply initial_explored|exact Hl].
Qed.

Lemma explorer_run_wf fuel (a : A) D mode r a' :
  adapter_wf a → explorer_run (K:=K) fuel a D mode = Some (Ok (r, a')) → adapter_wf a'.
Proof.
  intros Hwf Hrun. unfold explorer_run in Hrun.
  destruct (law_initial a Hwf) as (a1 & Hi & Hwf1 & Hk). rewrite Hi in Hrun.
  destruct (hash_mode_of mode) as [m|ex]; [|done].
  destruct (loop fuel (hash_with m) D a1 (initial_est (hash_with m) (start a)))
    as [[[e a2]|ex]|] eqn:Hl; [|done|done].
  injection Hrun as <- <-. eapply loop_wf; [exact Hwf1|by apply initial_explored|exact Hl].
Qed.

(** What every query of the adapter preserves, the run preserves. *)
Lemma explorer_run_preserves (P : A → Prop) fuel (a : A) D mode r a' :
  (∀ b s b', initial_state b = Ok (s, b') → P b → P b') →
  (∀ b s l b', successors b s = Ok (l, b') → P b → P b') →
  explorer_run (K:=K) fuel a D mode = Some (Ok (r, a')) → P a → P a'.
Proof.
  intros Hinit Hsucc Hrun Ha. unfold explorer_run in Hrun.
  destruct (initial_state a) as [[root a1]|ex] eqn:Hi; [|done].
  destruct (hash_mode_of mode) as [m|ex]; [|done].
  apply Hinit in Hi; [|done].
  assert (∀ n b e e' b', loop n (hash_with (K:=K) m) D b e = Some (Ok (e', b')) → P b → P b')
    as Hloop; [|by repeat case_match; simplify_eq; eauto].
  clear -Hsucc. intros n. induction n as [|n IH]; intros b e e' b' Hl Hb; simpl in Hl; [done|].
  destruct (e_queue e) as [|[sid st] q]; [by simplify_eq|].
  case_decide; simpl in Hl; [by apply IH in Hl|].
  destruct (successors b st) as [[l b1]|ex] eqn:Hs; [|done].
  apply IH in Hl; [done|]. by eapply Hsucc.
Qed.

Lemma explorer_run_mono fuel fuel' (a : A) D mode r :
  explorer_run (K:=K) fuel a D mode = Some r → fuel ≤ fuel' →
  explorer_run (K:=K) fuel' a D mode = Some r.
Proof.
  unfold explorer_run. intros Hrun Hle. destruct (initial_state a) as [[root a1]|ex]; [|done].
  destruct (hash_mode_of mode) as [m|ex]; [|done].
  destruct (loop fuel _ D a1 _) as [o|] eqn:Hl; [|done].
  by rewrite (loop_fuel_mono _ _ _ fuel' _ _ _ Hl Hle).
Qed.

Lemma explorer_total (a : A) D mode m :
  adapter_wf a → hash_mode_of mode = Ok m →
  ∃ fuel0, ∀ fuel, fuel0 ≤ fuel →
    ∃ r a', explorer_run (K:=K) fuel a D mode = Some (Ok (r, a')).
Proof.
  intros Hwf Hm. destruct (law_initial a Hwf) as (a1 & Hi & Hwf1 & Hk).
  destruct (loop_terminates (hash_with (K:=K) m) (start a) D a1 Hwf1 Hk)
    as (fuel0 & e & a2 & Hl).
  exists fuel0. intros fuel Hle. unfold explorer_run. rewrite Hi, Hm.
  rewrite (loop_fuel_mono _ _ _ fuel _ _ _ Hl Hle). eauto.
Qed.

(** Exploration terminates: for an adapter that keeps its contract there
    is an amount of fuel from which on the run returns one and the same result
    (or, for an unknown hash mode, one and the same [ValueError]): more fuel
    never changes it. *)
Lemma explorer_returns (a : A) D mode :
  adapter_wf a →
  ∃ fuel0 out, (∀ fuel, fuel0 ≤ fuel → explorer_run (K:=K) fuel a D mode = Some out) ∧
    (is_ok out = true ↔ mode = "full" ∨ mode = "store").
Proof.
  intros Hwf. destruct (hash_mode_of mode) as [m|ex] eqn:Hm.
  - destruct (explorer_total a D mode m Hwf Hm) as [fuel0 Hrun].
    destruct (Hrun fuel0 (le_n _)) as (r & a' & Hr). exists fuel0, (Ok (r, a')). split.
    + intros fuel Hle. by eapply explorer_run_mono.
    + unfold hash_mode_of in Hm. split; [intros _|done].
      destruct (String.eqb_spec mode "full"); [by left|].
      destruct (String.eqb_spec mode "store"); [by right|done].
  - destruct (law_initial a Hwf) as (a1 & Hi & _). exists 0, (Raise ex). split.
    + intros fuel _. unfold explorer_run. by rewrite Hi, Hm.
    + unfold hash_mode_of in Hm. split; [done|]. intros [->| ->]; done.
Qed.

(** A finished exploration lists every state reachable within the bound, at a
    depth that is no more than the length of the path. *)
Lemma explored_covers_depth hash root D (a : A) (e : est K) n s :
  explored hash root D a e (length (e_states e)) →
  (∀ s1 s2, known a s1 → known a s2 → hash s1 = hash s2 → s1 = s2) →
  steps a n root s → known a s → n ≤ D →
  ∃ i d, e_states e !! i = Some s ∧ e_depths e !! i = Some d ∧ d ≤ n.
Proof.
  intros Hx Hinj Hst. induction Hst as [s|n s0 s' s'' Hst IH Hk' [l Hl]]; intros Hks Hn.
  { exists 0, 0. split_and!;
      [apply (x_root _ _ _ _ _ _ Hx)|apply (x_droot _ _ _ _ _ _ Hx)|lia]. }
  destruct IH as (i & d & Hi & Hd & Hle); [first [done|lia]..|].
  destruct (x_cover _ _ _ _ _ _ Hx i s' d l s'') as (j & sj & dj & Hj & Hh & Hdj & Hle');
    [by eapply lookup_lt_Some|done|done|lia|done|].
  exists j, dj. split_and!; [|done|lia]. rewrite Hj. f_equal. apply Hinj; [|done|done].
  eapply Forall_lookup_1; [apply (x_known _ _ _ _ _ _ Hx)|done].
Qed.

Lemma explored_covers hash root D (a : A) (e : est K) n s :
  explored hash root D a e (length (e_states e)) →
  (∀ s1 s2, known a s1 → known a s2 → hash s1 = hash s2 → s1 = s2) →
  steps a n root s → known a s → n ≤ D → s ∈ e_states e.
Proof.
  intros Hx Hinj Hst Hks Hn.
  destruct (explored_covers_depth _ _ _ _ _ _ _ Hx Hinj Hst Hks Hn) as (i & d & Hi & _).
  by eapply list_elem_of_lookup_2.
Qed.

(** A listed state is known and reachable within the bound. *)
Lemma explored_listed hash root D (a : A) (e : est K) k i s :
  explored hash root D a e k → e_states e !! i = Some s →
  known a s ∧ ∃ n, n ≤ D ∧ steps a n root s.
Proof.
  intros Hx Hs. split; [eapply Forall_lookup_1; [apply (x_known _ _ _ _ _ _ Hx)|done]|].
  assert (is_Some (e_depths e !! i)) as [d Hd].
  { apply lookup_lt_is_Some. rewrite (x_len _ _ _ _ _ _ Hx). by eapply lookup_lt_Some. }
  exists d. by apply (x_reach _ _ _ _ _ _ Hx i).
Qed.

(** What a result of exploration from [a] in the hash mode [m] is: state 0 is
    the initial state; every listed state is reachable in at most [D]
    transitions; no two listed states have the same hash; the recorded
    successors of a state are, in order, its transitions up to the hash; a
    listed state that the depth bound did not cut off and that has transitions
    has recorded successors; and when the hash tells the adapter's states
    apart, every state reachable in at most [D] transitions is listed. *)
Definition exact_result (a : A) (D : nat) (m : hash_mode) (r : ExplorationResult) (a' : A) : Prop :=
  states r !! 0 = Some (start a) ∧
  (∀ i s, states r !! i = Some s → ∃ n, n ≤ D ∧ steps a' n (start a) s) ∧
  (∀ i j s s', states r !! i = Some s → states r !! j = Some s' →
     hash_with (K:=K) m s = hash_with m s' → i = j) ∧
  (∀ i js, (i, js) ∈ edges r → ∃ s, states r !! i = Some s ∧
     Forall2 (fun ls j => ∃ s', states r !! j = Some s' ∧
                                hash_with (K:=K) m s' = hash_with m ls.2) (post a' s) js) ∧
  (∀ i s, states r !! i = Some s → i ∉ (edges r).*1 → post a' s ≠ [] →
     steps a' D (start a) s) ∧
  ((∀ s1 s2, known a' s1 → known a' s2 → hash_with (K:=K) m s1 = hash_with m s2 → s1 = s2) →
   ∀ n s, steps a' n (start a) s → known a' s → n ≤ D → s ∈ states r).

Lemma explorer_run_exact fuel (a : A) D mode m r a' :
  adapter_wf a → hash_mode_of mode = Ok m →
  explorer_run (K:=K) fuel a D mode = Some (Ok (r, a')) →
  exact_result a D m r a'.
Proof.
  intros Hwf Hm Hrun.
  destruct (explorer_run_explored _ _ _ _ _ _ Hwf Hrun) as (m' & e & Hm' & -> & Hx).
  assert (m' = m) as -> by congruence. simpl.
  assert (∀ i s, e_states e !! i = Some s → ∃ d, e_depths e !! i = Some d) as Hdep.
  { intros i s Hs. apply lookup_lt_is_Some. rewrite (x_len _ _ _ _ _ _ Hx). by eapply lookup_lt_Some. }
  split_and!.
  - apply (x_root _ _ _ _ _ _ Hx).
  - intros i s Hs. destruct (Hdep i s Hs) as [d Hd]. exists d.
    by apply (x_reach _ _ _ _ _ _ Hx i).
  - intros i j s s' Hs Hs' Hh.
    assert (alookup (hash_with m s) (e_seen e) = Some i) by (apply (x_seen _ _ _ _ _ _ Hx); eauto).
    assert (alookup (hash_with m s) (e_seen e) = Some j) by (apply (x_seen _ _ _ _ _ _ Hx); eauto).
    congruence.
  - intros i js Hin. apply (x_edges _ _ _ _ _ _ Hx) in Hin as (_ & _ & s & d & Hs & _ & _ & Hf). eauto.
  - intros i s Hs Hni Hne. destruct (Hdep i s Hs) as [d Hd].
    destruct (x_reach _ _ _ _ _ _ Hx i s d Hs Hd) as [Hle Hst].
    destruct (decide (d = D)) as [->|]; [done|]. exfalso. apply Hni.
    eapply (x_complete _ _ _ _ _ _ Hx i s d); [by eapply lookup_lt_Some|done|done|lia|done].
  - intros Hinj n s Hst Hks Hn. by eapply explored_covers.
Qed.

(** C1: exploration terminates, and is sound and complete.  For an adapter
    that keeps its contract there is an amount of fuel from which on the run
    returns one and the same result (or, for an unknown hash mode, one and the
    same [ValueError]).  In the result every listed state is reachable within
    the bound, states are distinct up to the hash, recorded successors are the
    transitions up to the hash, and when the hash tells states apart (the full
    mode with a collision-free digest) every state reachable within the bound
    is listed. *)
Theorem explorer_correct (a : A) D mode :
  adapter_wf a →
  ∃ fuel0 out, (∀ fuel, fuel0 ≤ fuel → explorer_run (K:=K) fuel a D mode = Some out) ∧
    (is_ok out = true ↔ mode = "full" ∨ mode = "store") ∧
    ∀ m r a', hash_mode_of mode = Ok m → out = Ok (r, a') → exact_result a D m r a'.
Proof.
  intros Hwf. destruct (explorer_returns a D mode Hwf) as (fuel0 & out & Hrun & Hok). exists fuel0, out. split_and!; [done|done|].
  intros m r a' Hm ->. by eapply explorer_run_exact; [..|apply (Hrun fuel0)].
Qed.

End result.

(** ** [path_to] *)

Lemma path_loop_total_aux fuel preds cur seen path :
  size (dom preds ∖ (seen ∖ {[cur]})) < fuel →
  cur ∈ seen →
  is_Some (path_loop fuel preds cur seen path).
Proof.
  revert cur seen path. induction fuel as [|fuel IH]; intros cur seen path Hsz Hcur; [lia|].
  simpl. destruct (preds !! cur) as [[prev l]|] eqn:Hp; [|eauto].
  case_decide as Hin; [eauto|]. apply IH; [|set_solver].
  assert (cur ∈ dom preds) as Hd by (apply elem_of_dom; eauto).
  assert (size (dom preds ∖ (({[prev]} ∪ seen) ∖ {[prev]})) <
          size (dom preds ∖ (seen ∖ {[cur]}))) as Hlt; [|lia].
  apply subset_size. split; [set_solver|]. intros Hsub.
  assert (cur ∈ dom preds ∖ (seen ∖ {[cur]})) as Hc by set_solver.
  apply Hsub in Hc. assert (cur ≠ prev) by congruence. set_solver.
Qed.

(** [path_to]'s loop always ends within its fuel. *)
Lemma path_loop_total preds target :
  is_Some (path_loop (S (size preds)) preds target {[target]} [target]).
Proof.
  apply path_loop_total_aux; [|set_solver].
  rewrite <- size_dom. apply Nat.lt_succ_r. apply subseteq_size. set_solver.
Qed.

(** Consecutive elements are related. *)
Inductive chain (R : nat → nat → Prop) : list nat → Prop :=
| chain_one i : chain R [i]
| chain_cons i j p : R i j → chain R (j :: p) → chain R (i :: j :: p).

Lemma chain_impl (R R' : nat → nat → Prop) p :
  (∀ i j, R i j → R' i j) → chain R p → chain R' p.
Proof. intros HR. induction 1; constructor; auto. Qed.

Lemma chain_increasing (R : nat → nat → Prop) h p :
  (∀ i j, R i j → i < j) → chain R (h :: p) → ∀ x, x ∈ p → h < x.
Proof.
  intros HR. revert h. induction p as [|j p IH]; intros h Hc x; [set_solver|].
  inversion Hc as [|? ? ? Hij Hc']; subst. apply HR in Hij.
  intros [->|Hx]%elem_of_cons; [done|]. specialize (IH j Hc' x Hx). lia.
Qed.

(** A path of the explored graph. *)
Definition is_path (m : ExplorationResult) (p : list nat) : Prop := chain (edge m) p.

(** [pred_of preds i j]: [i] is the recorded predecessor of [j]. *)
Definition pred_of (preds : gmap nat (nat * string)) (i j : nat) : Prop :=
  ∃ l, preds !! j = Some (i, l).

Lemma path_loop_spec fuel preds cur seen path p :
  path_loop fuel preds cur seen (cur :: path) = Some p →
  chain (pred_of preds) (cur :: path) → (∀ x, x ∈ cur :: path ↔ x ∈ seen) →
  NoDup (cur :: path) →
  chain (pred_of preds) p ∧ NoDup p ∧ last p = last (cur :: path) ∧
  (∃ h p', p = h :: p' ∧ (preds !! h = None ∨ ∃ prev, pred_of preds prev h ∧ prev ∈ p)).
Proof.
  revert cur seen path. induction fuel as [|fuel IH]; intros cur seen path; simpl; [done|].
  destruct (preds !! cur) as [[prev l]|] eqn:Hp.
  - case_decide as Hin.
    + intros [= <-] Hpath Hseen Hnd. split_and!; [done..|]. exists cur, path. split; [done|].
      right. exists prev. split; [by exists l|]. by apply Hseen.
    + intros Hl Hpath Hseen Hnd.
      assert (chain (pred_of preds) (prev :: cur :: path)) as Hc by (constructor; [by exists l|done]).
      assert (∀ x, x ∈ prev :: cur :: path ↔ x ∈ {[prev]} ∪ seen) as Hs.
      { intros x. rewrite elem_of_cons, Hseen. set_solver. }
      assert (NoDup (prev :: cur :: path)) as Hn by (constructor; [by rewrite Hseen|done]).
      exact (IH prev _ _ Hl Hc Hs Hn).
  - intros [= <-] Hpath Hseen Hnd. split_and!; [done..|]. exists cur, path. auto.
Qed.

Section paths.
Context {K : Type} `{Digest K} {A : Type} `{LawfulAdapter A}.

Lemma path_to_chain m target :
  target < length (states m) →
  chain (pred_of (predecessors m)) (path_to m target) ∧ NoDup (path_to m target) ∧
  last (path_to m target) = Some target ∧
  ∃ h p', path_to m target = h :: p' ∧
    (predecessors m !! h = None ∨
     ∃ prev, pred_of (predecessors m) prev h ∧ prev ∈ path_to m target).
Proof.
  intros Hlt. unfold path_to. rewrite decide_False by lia.
  destruct (path_loop_total (predecessors m) target) as [p Hp]. rewrite Hp. simpl.
  apply (path_loop_spec _ _ _ _ [] p Hp); [constructor|set_solver|apply NoDup_singleton].
Qed.

(** A path reported by [path_to] is made of explored edges, visits no
    state twice and ends in the target; when no explored edge leads back to
    the initial state it also starts in the initial state. *)
Theorem path_to_correct fuel (a : A) D mode r a' target :
  adapter_wf a → explorer_run (K:=K) fuel a D mode = Some (Ok (r, a')) →
  target < length (states r) →
  is_path r (path_to r target) ∧ NoDup (path_to r target) ∧
  last (path_to r target) = Some target ∧
  ((∀ i, ¬ edge r i 0) → head (path_to r target) = Some 0).
Proof.
  intros Hwf Hrun Hlt.
  destruct (explorer_run_explored _ _ _ _ _ _ Hwf Hrun) as (m & e & Hm & -> & Hx).
  set (r := mkResult _ _ _ _ _ _) in *.
  assert (∀ i j, pred_of (predecessors r) i j → edge r i j) as Hedge.
  { intros i j [l Hp]. apply (x_preds _ _ _ _ _ _ Hx) in Hp as (_ & _ & He & _). exact He. }
  destruct (path_to_chain r target Hlt) as (Hc & Hnd & Hlast & h & p' & Hp & Hh).
  rewrite Hp in *. split_and!; [by eapply chain_impl|done|done|].
  intros Hno. simpl. f_equal. destruct (decide (h = 0)) as [->|Hne]; [done|exfalso].
  assert (∀ i j, pred_of (predecessors r) i j → i < j) as Hinc.
  { intros i j Hij. destruct (decide (j = 0)) as [->|Hj]; [by exfalso; eapply Hno, Hedge|].
    destruct Hij as [l Hl]. apply (x_preds _ _ _ _ _ _ Hx) in Hl as (_ & Hij & _). auto. }
  destruct Hh as [Hnone|(prev & Hprev & Hin)].
  - assert (h < length (e_states e)) as Hhl.
    { inversion Hc as [|? j ? [l Hl] ?]; subst; [simpl in Hlast; injection Hlast as ->; exact Hlt|].
      apply (x_preds _ _ _ _ _ _ Hx) in Hl as (? & _). lia. }
    destruct (x_pred_total _ _ _ _ _ _ Hx h) as [q Hq]; [lia|done|]. simpl in Hnone. congruence.
  - apply Hinc in Hprev. apply elem_of_cons in Hin as [->|Hin]; [lia|].
    pose proof (chain_increasing _ _ _ Hinc Hc prev Hin). lia.
Qed.
End paths.
