(* ===== verification/CtlSyntax.v ===== *)
(** * CTL formulas: syntax, tokenizer and parser ([tm/verify/ctl.py])

    The regular expression [_TOKEN] as an ordered choice of alternatives, the
    recursive-descent parser over the token list, and the serializer
    [_unparse] of [tm/verify/compositional.py].  Strings are ASCII. *)

From S2P Require Import Prelude.
From stdpp Require Import base gmap strings list.
From Stdlib Require Import Lia Ascii.

Inductive Expr : Type :=
| Predicate (name : string) (value : option string)
| Not (child : Expr)
| And (left right : Expr)
| Or (left right : Expr)
| Ctl (op : string) (child : Expr)
| Until (op : string) (left right : Expr).

#[export] Instance Expr_eq_dec : EqDecision Expr.
Proof. solve_decision. Defined.

(** ** Tokenizer *)

(** [str_strip_prefix p s]: the rest of [s] after the literal [p]. *)
Fixpoint str_strip_prefix (p s : string) : option string :=
  match p, s with
  | EmptyString, _ => Some s
  | String c p', String d s' => if Ascii.eqb c d then str_strip_prefix p' s' else None
  | String _ _, EmptyString => None
  end.

(** The literal alternatives of [_TOKEN], in order. *)
Definition literals : list string :=
  ["EX"; "EF"; "EG"; "EU"; "AF"; "AG"; "AU"; "AND"; "OR"; "NOT"; "||"; "&&"; "!"; "("; ")"].

Fixpoint match_literal (ls : list string) (s : string) : option (string * string) :=
  match ls with
  | [] => None
  | l :: ls' =>
      match str_strip_prefix l s with
      | Some rest => Some (l, rest)
      | None => match_literal ls' s
      end
  end.

(** [[A-Za-z_]] and [[A-Za-z0-9_\-\.\[\]\*]]. *)
Definition ident_start (c : ascii) : bool := is_alpha c || Ascii.eqb c "_".
Definition ident_char (c : ascii) : bool :=
  is_alpha c || is_digit c || Ascii.eqb c "_" || Ascii.eqb c "-" || Ascii.eqb c "." ||
  Ascii.eqb c "[" || Ascii.eqb c "]" || Ascii.eqb c "*".

(** Greedy repetition. *)
Fixpoint span_ident (s : string) : string * string :=
  match s with
  | EmptyString => (EmptyString, EmptyString)
  | String c s' =>
      if ident_char c then let '(a, b) := span_ident s' in (String c a, b)
      else (EmptyString, s)
  end.

(** One match of the alternatives at a non-blank position. *)
Definition next_token (s : string) : option (string * string) :=
  match match_literal literals s with
  | Some r => Some r
  | None =>
      match s with
      | EmptyString => None
      | String c s' =>
          if ident_start c then let '(a, b) := span_ident s' in Some (String c a, b)
          else Some (String c EmptyString, s')
      end
  end.

(** [_tokenize]: skip blanks, match, until no match.  A match consumes at
    least one character, so the length of the input is enough fuel. *)
Fixpoint tokenize_go (fuel : nat) (s : string) : list string :=
  match fuel with
  | 0 => []
  | S fuel' =>
      match next_token (lstrip s) with
      | None => []
      | Some (tok, rest) => tok :: tokenize_go fuel' rest
      end
  end.

Definition _tokenize (expr : string) : list string :=
  tokenize_go (String.length expr) expr.

(** ** Parser

    Each function maps the remaining tokens to a result and the tokens left;
    [None] means the fuel ran out. *)
Definition presult : Type := option (res (Expr * list string)).

Definition pbind (m : presult) (f : Expr → list string → presult) : presult :=
  match m with
  | None => None
  | Some (Raise ex) => Some (Raise ex)
  | Some (Ok (e, ts)) => f e ts
  end.

Notation "'let*' ( e , ts ) := m 'in' k" := (pbind m (fun e ts => k))
  (at level 10, e name, ts name, m at level 100, k at level 200, only parsing) : tm_scope.

Definition perr (msg : string) : presult := Some (Raise (ValueError msg)).
(** [pop()] past the end. *)
Definition pindex : presult := Some (Raise (IndexError "list index out of range")).

(** [while peek() not in (")", None): parts.append(pop())]. *)
Fixpoint take_args (ts : list string) : list string * list string :=
  match ts with
  | [] => ([], [])
  | t :: ts' =>
      if String.eqb t ")" then ([], ts)
      else let '(a, b) := take_args ts' in (t :: a, b)
  end.

(** [peek() == t] followed by [pop()]. *)
Definition eat (t : string) (ts : list string) : option (list string) :=
  match ts with
  | t' :: ts' => if String.eqb t' t then Some ts' else None
  | [] => None
  end.

(** The tail of [parse_predicate] for a head other than [peer]. *)
Definition finish_predicate (head : string) (value : option string) : Expr :=
  if String.eqb (str_lower head) "terminal" then Predicate "Terminal" None
  else Predicate head value.

Definition plain_predicate (head : string) (ts : list string) : presult :=
  match eat "(" ts with
  | Some ts1 =>
      let '(parts, ts2) := take_args ts1 in
      match eat ")" ts2 with
      | Some ts3 =>
          let v := strip (join_empty parts) in
          Some (Ok (finish_predicate head (if String.eqb v "" then None else Some v), ts3))
      | None => perr "missing ')' in predicate"
      end
  | None => Some (Ok (finish_predicate head None, ts))
  end.

(** What [peer(agent, inner)] makes of its inner predicate. *)
Definition peer_predicate (agent_id : string) (inner : Expr) (ts : list string) : presult :=
  match inner with
  | Predicate name value =>
      match value with
      | None => perr "peer() inner predicate requires an argument"
      | Some v =>
          if str_lower name ∈? ["has"; "pending"; "done"] then
            Some (Ok (Predicate name (Some (agent_id +:+ "." +:+ v)), ts))
          else perr "peer() supports has/pending/done inner predicates only"
      end
  | _ => perr "peer() second argument must be a predicate call"
  end.

Fixpoint parse_predicate (fuel : nat) (ts : list string) : presult :=
  match fuel with
  | 0 => None
  | S fuel' =>
      match ts with
      | [] => pindex
      | head :: ts1 =>
          if String.eqb (str_lower head) "peer" then
            match eat "(" ts1 with
            | Some [] => pindex
            | Some (agent_id :: ts3) =>
                let ts4 := default ts3 (eat "," ts3) in
                let* (inner, ts5) := parse_predicate fuel' ts4 in
                peer_predicate agent_id inner (default ts5 (eat ")" ts5))
            | None => perr "peer() requires '('"
            end
          else plain_predicate head ts1
      end
  end.

Definition expect (t : string) (msg : string) (ts : list string)
  (k : list string → presult) : presult :=
  match eat t ts with Some ts' => k ts' | None => perr msg end.

Fixpoint parse_unary (fuel : nat) (ts : list string) : presult :=
  match fuel with
  | 0 => None
  | S fuel' =>
      match ts with
      | [] => perr "unexpected end of expression"
      | tok :: ts1 =>
          if tok ∈? ["!"; "NOT"] then
            let* (e, ts2) := parse_unary fuel' ts1 in Some (Ok (Not e, ts2))
          else if tok ∈? ["EX"; "EF"; "EG"; "AF"; "AG"] then
            let* (e, ts2) := parse_unary fuel' ts1 in Some (Ok (Ctl tok e, ts2))
          else if tok ∈? ["EU"; "AU"] then
            expect "(" (tok +:+ " requires '(' (use " +:+ tok +:+ "(p, q))") ts1 (fun ts2 =>
              let* (l, ts3) := parse_or fuel' ts2 in
              expect "," (tok +:+ " requires two comma-separated operands: " +:+ tok +:+ "(p, q)")
                ts3 (fun ts4 =>
                let* (r, ts5) := parse_or fuel' ts4 in
                expect ")" ("missing ')' in " +:+ tok +:+ "(...)") ts5 (fun ts6 =>
                  Some (Ok (Until tok l r, ts6)))))
          else if String.eqb tok "(" then
            let* (e, ts2) := parse_or fuel' ts1 in
            expect ")" "missing ')'" ts2 (fun ts3 => Some (Ok (e, ts3)))
          else parse_predicate fuel' ts
      end
  end
with parse_and (fuel : nat) (ts : list string) : presult :=
  match fuel with
  | 0 => None
  | S fuel' => let* (e, ts1) := parse_unary fuel' ts in and_loop fuel' e ts1
  end
with and_loop (fuel : nat) (node : Expr) (ts : list string) : presult :=
  match fuel with
  | 0 => None
  | S fuel' =>
      match ts with
      | tok :: ts1 =>
          if tok ∈? ["&&"; "AND"] then
            let* (r, ts2) := parse_unary fuel' ts1 in and_loop fuel' (And node r) ts2
          else Some (Ok (node, ts))
      | [] => Some (Ok (node, ts))
      end
  end
with parse_or (fuel : nat) (ts : list string) : presult :=
  match fuel with
  | 0 => None
  | S fuel' => let* (e, ts1) := parse_and fuel' ts in or_loop fuel' e ts1
  end
with or_loop (fuel : nat) (node : Expr) (ts : list string) : presult :=
  match fuel with
  | 0 => None
  | S fuel' =>
      match ts with
      | tok :: ts1 =>
          if tok ∈? ["||"; "OR"] then
            let* (r, ts2) := parse_and fuel' ts1 in or_loop fuel' (Or node r) ts2
          else Some (Ok (node, ts))
      | [] => Some (Ok (node, ts))
      end
  end.

(** Every nesting level consumes a token and goes through at most four of the
    functions above; [parse_total] shows this fuel is enough. *)
Definition parse_fuel (ts : list string) : nat := 4 * length ts + 4.

Definition parse_tokens (tokens : list string) : res Expr :=
  match parse_or (parse_fuel tokens) tokens with
  | Some (Ok (node, [])) => Ok node
  | Some (Ok (_, tok :: _)) => Raise (ValueError ("unexpected token '" +:+ tok +:+ "'"))
  | Some (Raise ex) => Raise ex
  | None => Raise (RuntimeError "out of fuel")
  end.

Definition parse_expr (expr : string) : res Expr := parse_tokens (_tokenize expr).

(** [_parse_predicate_call] with its [parse_predicate_expr] caller. *)
Definition _parse_predicate_call (head : string) (ts : list string)
  : res (Expr * list string) :=
  match eat "(" ts with
  | Some ts1 =>
      let '(parts, ts2) := take_args ts1 in
      match eat ")" ts2 with
      | Some ts3 =>
          Ok (Predicate head (match parts with [] => None | _ => Some (strip (join_empty parts)) end), ts3)
      | None => Raise (ValueError "missing ')' in predicate")
      end
  | None => Ok (Predicate head None, ts)
  end.

Definition parse_predicate_expr (expr : string) : res Expr :=
  match _tokenize expr with
  | [] => Raise (ValueError "empty predicate")
  | head :: ts =>
      if String.eqb (str_lower head) "peer" then
        e ← parse_expr expr;
        match e with
        | Predicate _ _ => Ok e
        | _ => Raise (ValueError "peer expression must desugar to a predicate")
        end
      else
        '(p, rest) ← _parse_predicate_call head ts;
        match rest with
        | [] => Ok p
        | _ => Raise (ValueError "trailing tokens in predicate")
        end
  end.

(** ** Serializer ([compositional._unparse]) *)

Fixpoint _unparse (e : Expr) : string :=
  match e with
  | Predicate name None => name
  | Predicate name (Some v) => name +:+ "(" +:+ v +:+ ")"
  | Not c => "!" +:+ _unparse c
  | And l r => "(" +:+ _unparse l +:+ " && " +:+ _unparse r +:+ ")"
  | Or l r => "(" +:+ _unparse l +:+ " || " +:+ _unparse r +:+ ")"
  | Ctl op c => op +:+ " " +:+ _unparse c
  | Until op l r => op +:+ "(" +:+ _unparse l +:+ ", " +:+ _unparse r +:+ ")"
  end.

Fixpoint has_ctl_nodes (e : Expr) : bool :=
  match e with
  | Ctl _ _ | Until _ _ _ => true
  | Predicate _ _ => false
  | Not c => has_ctl_nodes c
  | And l r | Or l r => has_ctl_nodes l || has_ctl_nodes r
  end.

Example parse_mutex :
  parse_expr "AG !(has(agent0.locked) && has(agent1.locked))" =
  Ok (Ctl "AG" (Not (And (Predicate "has" (Some "agent0.locked"))
                         (Predicate "has" (Some "agent1.locked"))))).
Proof. vm_compute. reflexivity. Qed.

Example parse_peer : parse_expr "EU(peer(a, has(x)), Terminal || !done(s))" =
  Ok (Until "EU" (Predicate "has" (Some "a.x"))
        (Or (Predicate "Terminal" None) (Not (Predicate "done" (Some "s"))))).
Proof. vm_compute. reflexivity. Qed.

Example parse_keyword_prefix : parse_expr "NOTready" = Ok (Not (Predicate "ready" None)).
Proof. vm_compute. reflexivity. Qed.
