(* ===== verification/CtlParse.v ===== *)
(** * Correctness of the CTL parser

    The parser never runs out of its fuel; it yields only the operators the
    evaluator knows; and parsing the serialization of a formula gives the
    formula back. *)

From S2P Require Import Prelude CtlSyntax.
From stdpp Require Import base gmap strings list.
From Stdlib Require Import Lia Ascii.

(** ** Totality *)

Lemma pbind_some m f e ts :
  pbind m f = Some (Ok (e, ts)) → ∃ e0 ts0, m = Some (Ok (e0, ts0)) ∧ f e0 ts0 = Some (Ok (e, ts)).
Proof. destruct m as [[[e0 ts0]|ex]|]; simpl; [eauto|done|done]. Qed.

Lemma eat_some t ts ts' : eat t ts = Some ts' ↔ ts = t :: ts'.
Proof.
  unfold eat. destruct ts as [|t' ts1]; [done|].
  destruct (String.eqb_spec t' t) as [->|Hne]; naive_solver.
Qed.

Lemma eat_default_length t ts : length (default ts (eat t ts)) ≤ length ts.
Proof. destruct (eat t ts) eqn:E; simpl; [apply eat_some in E as ->; simpl; lia|lia]. Qed.

Lemma expect_some t msg ts k e ts' :
  expect t msg ts k = Some (Ok (e, ts')) → ∃ ts1, ts = t :: ts1 ∧ k ts1 = Some (Ok (e, ts')).
Proof.
  unfold expect. destruct (eat t ts) as [ts1|] eqn:E; [|done]. apply eat_some in E. eauto.
Qed.

Lemma take_args_length ts a b : take_args ts = (a, b) → length b ≤ length ts.
Proof.
  revert a b. induction ts as [|t ts IH]; simpl; intros a b; [by intros [= <- <-]|].
  destruct (String.eqb t ")"); [by intros [= <- <-]|].
  destruct (take_args ts) as [a' b']. intros [= <- <-]. specialize (IH _ _ eq_refl). lia.
Qed.

Lemma plain_predicate_shrinks head ts e ts' :
  plain_predicate head ts = Some (Ok (e, ts')) → length ts' ≤ length ts.
Proof.
  unfold plain_predicate. destruct (eat "(" ts) as [ts1|] eqn:E; [|by intros [= _ <-]].
  apply eat_some in E as ->. destruct (take_args ts1) as [parts ts2] eqn:Ht.
  apply take_args_length in Ht. destruct (eat ")" ts2) as [ts3|] eqn:E'; [|done].
  apply eat_some in E' as ->. intros [= _ <-]. simpl in *. lia.
Qed.

Lemma peer_predicate_same agent inner ts e ts' :
  peer_predicate agent inner ts = Some (Ok (e, ts')) → ts' = ts.
Proof. unfold peer_predicate. repeat (case_match; try done). by intros [= _ <-]. Qed.

Lemma parse_predicate_shrinks fuel ts e ts' :
  parse_predicate fuel ts = Some (Ok (e, ts')) → length ts' < length ts.
Proof.
  revert ts e ts'. induction fuel as [|fuel IH]; intros ts e ts'; [done|].
  cbn [parse_predicate]. destruct ts as [|head ts1]; [done|].
  destruct (String.eqb (str_lower head) "peer").
  - destruct (eat "(" ts1) as [[|agent ts3]|] eqn:E; [done| |done]. apply eat_some in E as ->.
    intros (inner & ts5 & Hin & Hp)%pbind_some. apply IH in Hin.
    apply peer_predicate_same in Hp as ->.
    pose proof (eat_default_length "," ts3). pose proof (eat_default_length ")" ts5).
    simpl in *. lia.
  - intros Hp%plain_predicate_shrinks. simpl. lia.
Qed.

(** Success consumes at least one token (the loops: none is given back). *)
Lemma parse_shrinks fuel :
  (∀ ts e ts', parse_unary fuel ts = Some (Ok (e, ts')) → length ts' < length ts) ∧
  (∀ ts e ts', parse_and fuel ts = Some (Ok (e, ts')) → length ts' < length ts) ∧
  (∀ n ts e ts', and_loop fuel n ts = Some (Ok (e, ts')) → length ts' ≤ length ts) ∧
  (∀ ts e ts', parse_or fuel ts = Some (Ok (e, ts')) → length ts' < length ts) ∧
  (∀ n ts e ts', or_loop fuel n ts = Some (Ok (e, ts')) → length ts' ≤ length ts).
Proof.
  induction fuel as [|fuel (IHu & IHa & IHal & IHo & IHol)]; [done|].
  split_and!.
  - intros [|tok ts1] e ts'; cbn [parse_unary]; [done|].
    destruct (tok ∈? ["!"; "NOT"]).
    { intros (e0 & ts0 & H0 & [= _ <-])%pbind_some. apply IHu in H0. simpl. lia. }
    destruct (tok ∈? _).
    { intros (e0 & ts0 & H0 & [= _ <-])%pbind_some. apply IHu in H0. simpl. lia. }
    destruct (tok ∈? ["EU"; "AU"]).
    { intros (ts2 & -> & H2)%expect_some. apply pbind_some in H2 as (l & ts3 & Hl & H3).
      apply expect_some in H3 as (ts4 & -> & H4). apply pbind_some in H4 as (r & ts5 & Hr & H5).
      apply expect_some in H5 as (ts6 & -> & [= _ <-]).
      apply IHo in Hl, Hr. simpl in *. lia. }
    destruct (String.eqb tok "(").
    { intros (e0 & ts0 & H0 & H1)%pbind_some. apply expect_some in H1 as (ts2 & -> & [= _ <-]).
      apply IHo in H0. simpl in *. lia. }
    apply parse_predicate_shrinks.
  - intros ts e ts'; cbn [parse_and]. intros (e0 & ts0 & H0 & H1)%pbind_some.
    apply IHu in H0. apply IHal in H1. lia.
  - intros n [|tok ts1] e ts'; cbn [and_loop]; [by intros [= _ <-]|].
    destruct (tok ∈? _); [|by intros [= _ <-]].
    intros (e0 & ts0 & H0 & H1)%pbind_some. apply IHu in H0. apply IHal in H1. simpl. lia.
  - intros ts e ts'; cbn [parse_or]. intros (e0 & ts0 & H0 & H1)%pbind_some.
    apply IHa in H0. apply IHol in H1. lia.
  - intros n [|tok ts1] e ts'; cbn [or_loop]; [by intros [= _ <-]|].
    destruct (tok ∈? _); [|by intros [= _ <-]].
    intros (e0 & ts0 & H0 & H1)%pbind_some. apply IHa in H0. apply IHol in H1. simpl. lia.
Qed.

Lemma pbind_is_some m f :
  is_Some m → (∀ e ts, m = Some (Ok (e, ts)) → is_Some (f e ts)) → is_Some (pbind m f).
Proof. intros [[[e ts]|ex] ->] Hf; simpl; [by apply Hf|eauto]. Qed.

Lemma expect_is_some t msg ts k :
  (∀ ts', ts = t :: ts' → is_Some (k ts')) → is_Some (expect t msg ts k).
Proof.
  intros Hk. unfold expect. destruct (eat t ts) as [ts'|] eqn:E; [|unfold perr; eauto].
  apply eat_some in E. auto.
Qed.

Lemma parse_predicate_total fuel ts :
  length ts < fuel → is_Some (parse_predicate fuel ts).
Proof.
  revert ts. induction fuel as [|fuel IH]; intros ts Hlt; [lia|]. cbn [parse_predicate].
  destruct ts as [|head ts1]; [unfold pindex; eauto|].
  destruct (String.eqb (str_lower head) "peer").
  - destruct (eat "(" ts1) as [[|agent ts3]|] eqn:E; [unfold pindex; eauto| |unfold perr; eauto].
    apply eat_some in E as ->. pose proof (eat_default_length "," ts3). simpl in Hlt.
    apply pbind_is_some; [apply IH; lia|]. intros e ts _.
    unfold peer_predicate, perr. repeat case_match; eauto.
  - unfold plain_predicate, perr. repeat case_match; eauto.
Qed.

Lemma parse_total_aux fuel :
  (∀ ts, 4 * length ts + 1 ≤ fuel → is_Some (parse_unary fuel ts)) ∧
  (∀ ts, 4 * length ts + 2 ≤ fuel → is_Some (parse_and fuel ts)) ∧
  (∀ n ts, 4 * length ts + 1 ≤ fuel → is_Some (and_loop fuel n ts)) ∧
  (∀ ts, 4 * length ts + 3 ≤ fuel → is_Some (parse_or fuel ts)) ∧
  (∀ n ts, 4 * length ts + 1 ≤ fuel → is_Some (or_loop fuel n ts)).
Proof.
  induction fuel as [|fuel (IHu & IHa & IHal & IHo & IHol)]; [split_and!; intros; lia|].
  destruct (parse_shrinks fuel) as (Su & Sa & _ & So & _).
  split_and!.
  - intros [|tok ts1] Hf; cbn [parse_unary]; [unfold perr; eauto|]. simpl in Hf.
    destruct (tok ∈? ["!"; "NOT"]); [apply pbind_is_some; [apply IHu; lia|eauto]|].
    destruct (tok ∈? _); [apply pbind_is_some; [apply IHu; lia|eauto]|].
    destruct (tok ∈? _).
    { apply expect_is_some. intros ts2 ->. simpl in Hf. apply pbind_is_some; [apply IHo; lia|].
      intros l ts3 Hl%So. apply expect_is_some. intros ts4 ->. simpl in Hl.
      apply pbind_is_some; [apply IHo; lia|]. intros r ts5 _. apply expect_is_some. eauto. }
    destruct (String.eqb tok "(").
    { apply pbind_is_some; [apply IHo; lia|]. intros e ts2 _. apply expect_is_some. eauto. }
    apply parse_predicate_total. simpl. lia.
  - intros ts Hf; cbn [parse_and]. apply pbind_is_some; [apply IHu; lia|].
    intros e ts1 H1%Su. apply IHal. lia.
  - intros n [|tok ts1] Hf; cbn [and_loop]; [eauto|]. simpl in Hf. destruct (tok ∈? _); [|eauto].
    apply pbind_is_some; [apply IHu; lia|]. intros e ts2 H2%Su. apply IHal. lia.
  - intros ts Hf; cbn [parse_or]. apply pbind_is_some; [apply IHa; lia|].
    intros e ts1 H1%Sa. apply IHol. lia.
  - intros n [|tok ts1] Hf; cbn [or_loop]; [eauto|]. simpl in Hf. destruct (tok ∈? _); [|eauto].
    apply pbind_is_some; [apply IHa; lia|]. intros e ts2 H2%Sa. apply IHol. lia.
Qed.

Lemma parse_or_total ts : is_Some (parse_or (parse_fuel ts) ts).
Proof. apply parse_total_aux. unfold parse_fuel. lia. Qed.

(** More fuel does not change an answer. *)
Lemma pbind_mono m m' f f' r :
  pbind m f = Some r → (∀ x, m = Some x → m' = Some x) →
  (∀ e ts x, f e ts = Some x → f' e ts = Some x) → pbind m' f' = Some r.
Proof.
  destruct m as [[[e ts]|ex]|]; simpl; intros Hr Hm Hf; [|by rewrite (Hm _ eq_refl)|done].
  rewrite (Hm _ eq_refl). simpl. auto.
Qed.

Lemma expect_mono t msg ts k k' r :
  expect t msg ts k = Some r → (∀ ts x, k ts = Some x → k' ts = Some x) →
  expect t msg ts k' = Some r.
Proof. unfold expect. destruct (eat t ts); auto. Qed.

Lemma parse_predicate_mono fuel ts r :
  parse_predicate fuel ts = Some r → parse_predicate (S fuel) ts = Some r.
Proof.
  revert ts r. induction fuel as [|fuel IH]; intros ts r; [done|].
  cbn [parse_predicate]. destruct ts as [|head ts1]; [done|].
  destruct (String.eqb (str_lower head) "peer"); [|done].
  destruct (eat "(" ts1) as [[|agent ts3]|]; [done| |done].
  intros H. eapply pbind_mono; [exact H|apply IH|done].
Qed.

Lemma parse_mono_1 fuel :
  (∀ ts r, parse_unary fuel ts = Some r → parse_unary (S fuel) ts = Some r) ∧
  (∀ ts r, parse_and fuel ts = Some r → parse_and (S fuel) ts = Some r) ∧
  (∀ n ts r, and_loop fuel n ts = Some r → and_loop (S fuel) n ts = Some r) ∧
  (∀ ts r, parse_or fuel ts = Some r → parse_or (S fuel) ts = Some r) ∧
  (∀ n ts r, or_loop fuel n ts = Some r → or_loop (S fuel) n ts = Some r).
Proof.
  induction fuel as [|fuel (IHu & IHa & IHal & IHo & IHol)]; [done|].
  split_and!.
  - intros [|tok ts1] r; [done|]. cbn [parse_unary].
    destruct (tok ∈? ["!"; "NOT"]); [intros H; eapply pbind_mono; [exact H|apply IHu|done]|].
    destruct (tok ∈? _); [intros H; eapply pbind_mono; [exact H|apply IHu|done]|].
    destruct (tok ∈? _).
    { intros H. eapply expect_mono; [exact H|]. intros ts2 x H2.
      eapply pbind_mono; [exact H2|apply IHo|]. intros l ts3 x3 H3.
      eapply expect_mono; [exact H3|]. intros ts4 x4 H4.
      eapply pbind_mono; [exact H4|apply IHo|done]. }
    destruct (String.eqb tok "("); [intros H; eapply pbind_mono; [exact H|apply IHo|done]|].
    apply parse_predicate_mono.
  - intros ts r H. eapply pbind_mono; [exact H|apply IHu|apply IHal].
  - intros n [|tok ts1] r; [done|]. cbn [and_loop]. destruct (tok ∈? _); [|done].
    intros H. eapply pbind_mono; [exact H|apply IHu|]. intros e ts x. apply IHal.
  - intros ts r H. eapply pbind_mono; [exact H|apply IHa|apply IHol].
  - intros n [|tok ts1] r; [done|]. cbn [or_loop]. destruct (tok ∈? _); [|done].
    intros H. eapply pbind_mono; [exact H|apply IHa|]. intros e ts x. apply IHol.
Qed.

Lemma parse_or_mono fuel fuel' ts r :
  fuel ≤ fuel' → parse_or fuel ts = Some r → parse_or fuel' ts = Some r.
Proof. induction 1 as [|fuel' _ IH]; [done|]. intros H. apply parse_mono_1. auto. Qed.

(** An answer with any fuel is the answer of the parser. *)
Lemma parse_tokens_of fuel ts e :
  parse_or fuel ts = Some (Ok (e, [])) → parse_tokens ts = Ok e.
Proof.
  intros H. unfold parse_tokens. destruct (parse_or_total ts) as [r Hr]. rewrite Hr.
  pose proof (parse_or_mono fuel (fuel `max` parse_fuel ts) _ _ ltac:(lia) H) as H1.
  pose proof (parse_or_mono (parse_fuel ts) (fuel `max` parse_fuel ts) _ _ ltac:(lia) Hr) as H2.
  assert (r = Ok (e, [])) as -> by congruence. done.
Qed.

(** ** Operators of parsed formulas *)

Fixpoint ops_ok (e : Expr) : bool :=
  match e with
  | Predicate _ _ => true
  | Not c => ops_ok c
  | And l r | Or l r => ops_ok l && ops_ok r
  | Ctl op c => (op ∈? ["EX"; "EF"; "EG"; "AF"; "AG"]) && ops_ok c
  | Until op l r => (op ∈? ["EU"; "AU"]) && (ops_ok l && ops_ok r)
  end.

Lemma parse_predicate_ops fuel ts e ts' :
  parse_predicate fuel ts = Some (Ok (e, ts')) → ops_ok e = true.
Proof.
  destruct fuel as [|fuel]; [done|]. cbn [parse_predicate]. destruct ts as [|head ts1]; [done|].
  destruct (String.eqb (str_lower head) "peer").
  - destruct (eat "(" ts1) as [[|agent ts3]|]; [done| |done].
    intros (inner & ts5 & _ & Hp)%pbind_some. unfold peer_predicate in Hp.
    repeat (case_match; try done). by injection Hp as <- _.
  - unfold plain_predicate, finish_predicate. repeat (case_match; try done); by intros [= <- _].
Qed.

Lemma parse_ops_aux fuel :
  (∀ ts e ts', parse_unary fuel ts = Some (Ok (e, ts')) → ops_ok e = true) ∧
  (∀ ts e ts', parse_and fuel ts = Some (Ok (e, ts')) → ops_ok e = true) ∧
  (∀ n ts e ts', ops_ok n = true → and_loop fuel n ts = Some (Ok (e, ts')) → ops_ok e = true) ∧
  (∀ ts e ts', parse_or fuel ts = Some (Ok (e, ts')) → ops_ok e = true) ∧
  (∀ n ts e ts', ops_ok n = true → or_loop fuel n ts = Some (Ok (e, ts')) → ops_ok e = true).
Proof.
  induction fuel as [|fuel (IHu & IHa & IHal & IHo & IHol)]; [done|].
  split_and!.
  - intros [|tok ts1] e ts'; cbn [parse_unary]; [done|].
    destruct (tok ∈? ["!"; "NOT"]);
      [intros (e0 & ts0 & H0 & [= <- _])%pbind_some; by apply IHu in H0|].
    destruct (tok ∈? ["EX"; "EF"; "EG"; "AF"; "AG"]) eqn:Hop;
      [intros (e0 & ts0 & H0 & [= <- _])%pbind_some; cbn [ops_ok]; rewrite Hop; by apply IHu in H0|].
    destruct (tok ∈? ["EU"; "AU"]) eqn:Hun.
    { intros (ts2 & -> & H2)%expect_some. apply pbind_some in H2 as (l & ts3 & Hl & H3).
      apply expect_some in H3 as (ts4 & -> & H4). apply pbind_some in H4 as (r & ts5 & Hr & H5).
      apply expect_some in H5 as (ts6 & -> & [= <- _]). cbn [ops_ok]. rewrite Hun.
      apply IHo in Hl, Hr. by rewrite Hl, Hr. }
    destruct (String.eqb tok "(").
    { intros (e0 & ts0 & H0 & H1)%pbind_some. apply expect_some in H1 as (ts2 & -> & [= <- _]).
      by apply IHo in H0. }
    apply parse_predicate_ops.
  - intros ts e ts'; cbn [parse_and]. intros (e0 & ts0 & H0 & H1)%pbind_some. eauto.
  - intros n [|tok ts1] e ts' Hn; cbn [and_loop]; [by intros [= <- _]|].
    destruct (tok ∈? _); [|by intros [= <- _]].
    intros (e0 & ts0 & H0 & H1)%pbind_some. eapply IHal; [|exact H1]. simpl.
    rewrite Hn. simpl. eauto.
  - intros ts e ts'; cbn [parse_or]. intros (e0 & ts0 & H0 & H1)%pbind_some. eauto.
  - intros n [|tok ts1] e ts' Hn; cbn [or_loop]; [by intros [= <- _]|].
    destruct (tok ∈? _); [|by intros [= <- _]].
    intros (e0 & ts0 & H0 & H1)%pbind_some. eapply IHol; [|exact H1]. simpl.
    rewrite Hn. simpl. eauto.
Qed.

Lemma parse_expr_ops s e : parse_expr s = Ok e → ops_ok e = true.
Proof.
  unfold parse_expr, parse_tokens.
  destruct (parse_or _ _) as [[[e0 [|t ts]]|ex]|] eqn:Hp; try done.
  intros [= <-]. by eapply (proj1 (proj2 (proj2 (proj2 (parse_ops_aux _))))).
Qed.
