(* ===== verification/CtlRoundtrip.v ===== *)
(** * Serializing and re-parsing CTL formulas

    [parse_expr (_unparse e) = Ok e] for every formula whose predicate names
    are single tokens and whose arguments hold no blank and no closing
    parenthesis: the round trip [assume_guarantee_verify] relies on when it
    re-parses the conjuncts of a decomposed formula. *)

From S2P Require Import Prelude CtlSyntax CtlParse.
From stdpp Require Import base gmap strings list.
From Stdlib Require Import Lia Ascii.

(** ** Strings and tokens *)

Lemma length_append a b : String.length (a +:+ b) = String.length a + String.length b.
Proof. induction a as [|c a IH]; simpl; [done|]. by rewrite IH. Qed.

Lemma str_strip_prefix_app p s r : str_strip_prefix p s = Some r ↔ s = p +:+ r.
Proof.
  revert s. induction p as [|c p IH]; intros s; simpl; [naive_solver|].
  destruct s as [|d s]; [naive_solver|].
  destruct (Ascii.eqb_spec c d) as [->|Hne]; [rewrite IH; naive_solver|naive_solver].
Qed.

Lemma match_literal_app ls s t r : match_literal ls s = Some (t, r) → t ∈ ls ∧ s = t +:+ r.
Proof.
  induction ls as [|l ls IH]; simpl; [done|].
  destruct (str_strip_prefix l s) as [r'|] eqn:E.
  - intros [= <- <-]. apply str_strip_prefix_app in E. split; [left|done].
  - intros H. apply IH in H as [? ?]. split; [by right|done].
Qed.

Lemma span_ident_app s a b : span_ident s = (a, b) → s = a +:+ b.
Proof.
  revert a b. induction s as [|c s IH]; simpl; intros a b; [by intros [= <- <-]|].
  destruct (ident_char c); [|by intros [= <- <-]].
  destruct (span_ident s) as [a' b']. intros [= <- <-]. simpl. f_equal. by apply IH.
Qed.

Lemma literals_nonempty t : t ∈ literals → ∃ c t', t = String c t'.
Proof. unfold literals. rewrite !elem_of_cons, elem_of_nil. naive_solver. Qed.

(** A token is a non-empty prefix of the text. *)
Lemma next_token_app s t r :
  next_token s = Some (t, r) → s = t +:+ r ∧ ∃ c t', t = String c t'.
Proof.
  unfold next_token. destruct (match_literal literals s) as [[l r']|] eqn:E.
  - intros [= <- <-]. apply match_literal_app in E as [Hl ->]. split; [done|].
    by apply literals_nonempty.
  - destruct s as [|c s]; [done|]. destruct (ident_start c).
    + destruct (span_ident s) as [a b] eqn:Es. intros [= <- <-].
      apply span_ident_app in Es as ->. eauto.
    + intros [= <- <-]. eauto.
Qed.

Lemma lstrip_length s : String.length (lstrip s) ≤ String.length s.
Proof. induction s as [|c s IH]; simpl; [lia|]. destruct (is_space c); simpl; lia. Qed.

Lemma tokenize_go_fuel n m s :
  String.length s ≤ n → String.length s ≤ m → tokenize_go n s = tokenize_go m s.
Proof.
  revert m s. induction n as [|n IH]; intros m s Hn Hm.
  - destruct s; [|simpl in *; lia]. by destruct m.
  - destruct m as [|m]; [destruct s; [done|simpl in *; lia]|]. cbn [tokenize_go].
    destruct (next_token (lstrip s)) as [[t r]|] eqn:E; [|done]. f_equal.
    apply next_token_app in E as [Hs (c & t' & ->)].
    pose proof (lstrip_length s) as Hl. rewrite Hs, length_append in Hl. simpl in Hl.
    apply IH; lia.
Qed.

Lemma tokenize_cons s t r :
  next_token (lstrip s) = Some (t, r) → _tokenize s = t :: _tokenize r.
Proof.
  intros E. unfold _tokenize. apply next_token_app in E as Hs. destruct Hs as [Hs (c & t' & ->)].
  pose proof (lstrip_length s) as Hl. rewrite Hs, length_append in Hl. simpl in Hl.
  destruct (String.length s) as [|n] eqn:En; [lia|]. cbn [tokenize_go]. rewrite E. f_equal.
  apply tokenize_go_fuel; lia.
Qed.

Lemma tokenize_space s : _tokenize (String " " s) = _tokenize s.
Proof.
  destruct (next_token (lstrip s)) as [[t r]|] eqn:E.
  - rewrite (tokenize_cons (String " " s) t r), (tokenize_cons s t r); done.
  - unfold _tokenize. simpl. rewrite E. destruct s as [|c s']; [done|].
    cbn [String.length tokenize_go]. by rewrite E.
Qed.

(** ** Tokens do not extend over a delimiter *)

Definition is_delim (c : ascii) : bool :=
  Ascii.eqb c " " || Ascii.eqb c "(" || Ascii.eqb c ")" || Ascii.eqb c ",".

Lemma is_delim_cases d : is_delim d = true → d = " "%char ∨ d = "("%char ∨ d = ")"%char ∨ d = ","%char.
Proof. unfold is_delim. rewrite !orb_true_iff, !Ascii.eqb_eq. tauto. Qed.

Lemma strip_prefix_delim l v d s :
  is_delim d = true → str_forall (fun c => negb (is_delim c)) l = true →
  str_strip_prefix l (v +:+ String d s) =
  match str_strip_prefix l v with Some r => Some (r +:+ String d s) | None => None end.
Proof.
  intros Hd. revert v. induction l as [|c l IH]; intros v Hl; [done|].
  simpl in Hl. apply andb_true_iff in Hl as [Hc Hl].
  destruct v as [|c' v]; simpl.
  - destruct (Ascii.eqb_spec c d) as [->|]; [|done]. by rewrite Hd in Hc.
  - destruct (Ascii.eqb c c'); [by apply IH|done].
Qed.

(** The literals contain a delimiter only as their first character. *)
Lemma literals_tail l :
  l ∈ literals → ∃ c l', l = String c l' ∧ str_forall (fun c => negb (is_delim c)) l' = true.
Proof.
  unfold literals. rewrite !elem_of_cons, elem_of_nil.
  intros Hl. repeat (destruct Hl as [->|Hl]; [eexists _, _; split; reflexivity|]). done.
Qed.

Lemma match_literal_delim ls c v d s :
  is_delim d = true → ls ⊆ literals →
  match_literal ls (String c v +:+ String d s) =
  match match_literal ls (String c v) with
  | Some (t, r) => Some (t, r +:+ String d s)
  | None => None
  end.
Proof.
  intros Hd. induction ls as [|l ls IH]; intros Hsub; [done|]. cbn [match_literal].
  destruct (literals_tail l) as (c' & l' & -> & Hl'); [set_solver|].
  assert (str_strip_prefix (String c' l') (String c v +:+ String d s) =
          match str_strip_prefix (String c' l') (String c v) with
          | Some r => Some (r +:+ String d s) | None => None end) as ->.
  { simpl. destruct (Ascii.eqb c' c); [by apply strip_prefix_delim|done]. }
  destruct (str_strip_prefix (String c' l') (String c v)); [done|]. apply IH. set_solver.
Qed.

Lemma span_ident_delim v d s :
  is_delim d = true →
  span_ident (v +:+ String d s) = ((span_ident v).1, (span_ident v).2 +:+ String d s).
Proof.
  intros Hd. induction v as [|c v IH]; simpl.
  - by destruct (is_delim_cases d Hd) as [->|[->|[->| ->]]].
  - destruct (ident_char c); [|done]. rewrite IH. by destruct (span_ident v).
Qed.

Lemma next_token_delim v d s t r :
  is_delim d = true → next_token v = Some (t, r) →
  next_token (v +:+ String d s) = Some (t, r +:+ String d s).
Proof.
  intros Hd. unfold next_token. destruct v as [|c v]; [done|].
  rewrite match_literal_delim by done.
  destruct (match_literal literals (String c v)) as [[t' r']|]; [by intros [= <- <-]|].
  simpl. destruct (ident_start c); [|by intros [= <- <-]].
  rewrite span_ident_delim by done. destruct (span_ident v) as [a b]. by intros [= <- <-].
Qed.

(** Text without blanks before a delimiter is tokenized on its own. *)
Definition no_blank (s : string) : bool := str_forall (fun c => negb (is_space c)) s.

Lemma lstrip_no_blank_app c v s :
  no_blank (String c v) = true → lstrip (String c v +:+ s) = String c v +:+ s.
Proof. unfold no_blank. simpl. by destruct (is_space c). Qed.

Lemma next_token_some c v : ∃ t r, next_token (String c v) = Some (t, r).
Proof.
  unfold next_token. destruct (match_literal literals (String c v)) as [[t r]|]; [eauto|].
  destruct (ident_start c); [destruct (span_ident v)|]; eauto.
Qed.

Lemma tokenize_delim v d s :
  is_delim d = true → no_blank v = true →
  _tokenize (v +:+ String d s) = _tokenize v ++ _tokenize (String d s).
Proof.
  intros Hd. remember (String.length v) as n eqn:Hn. revert v Hn.
  induction n as [n IH] using lt_wf_ind. intros [|c v] -> Hv; [done|].
  destruct (next_token_some c v) as (t & r & E).
  apply next_token_app in E as Hs. destruct Hs as [Hs (c' & t' & Ht)].
  assert (no_blank r = true) as Hr.
  { unfold no_blank in *. rewrite Hs, str_forall_app in Hv. by apply andb_true_iff in Hv as [_ ?]. }
  rewrite (tokenize_cons _ t (r +:+ String d s)).
  2: { rewrite lstrip_no_blank_app by done. by apply next_token_delim. }
  rewrite (tokenize_cons (String c v) t r).
  2: { by rewrite (lstrip_nospace (String c v) Hv). }
  simpl. f_equal. eapply (IH (String.length r)); [|done|done].
  rewrite Hs, length_append, Ht. simpl. lia.
Qed.

(** Joining the tokens of such a text gives it back, and no token of it is a
    closing parenthesis unless the text holds one. *)
Lemma tokenize_join v : no_blank v = true → join_empty (_tokenize v) = v.
Proof.
  remember (String.length v) as n eqn:Hn. revert v Hn.
  induction n as [n IH] using lt_wf_ind. intros [|c v] -> Hv; [done|].
  destruct (next_token_some c v) as (t & r & E).
  apply next_token_app in E as Hs. destruct Hs as [Hs (c' & t' & Ht)].
  rewrite (tokenize_cons (String c v) t r) by (by rewrite (lstrip_nospace (String c v) Hv)).
  unfold join_empty. simpl. fold (join_empty (_tokenize r)).
  assert (no_blank r = true) as Hr.
  { unfold no_blank in *. rewrite Hs, str_forall_app in Hv. by apply andb_true_iff in Hv as [_ ?]. }
  rewrite (IH (String.length r)); [by rewrite Hs| |done|done].
  rewrite Hs, length_append, Ht. simpl. lia.
Qed.

Definition no_close (s : string) : bool := str_forall (fun c => negb (Ascii.eqb c ")")) s.

Lemma tokenize_no_close v :
  no_blank v = true → no_close v = true → Forall (fun t => t ≠ ")") (_tokenize v).
Proof.
  remember (String.length v) as n eqn:Hn. revert v Hn.
  induction n as [n IH] using lt_wf_ind. intros [|c v] -> Hv Hc; [constructor|].
  destruct (next_token_some c v) as (t & r & E).
  apply next_token_app in E as Hs. destruct Hs as [Hs (c' & t' & Ht)].
  rewrite (tokenize_cons (String c v) t r) by (by rewrite (lstrip_nospace (String c v) Hv)).
  unfold no_blank, no_close in *. rewrite Hs, str_forall_app in Hv, Hc.
  apply andb_true_iff in Hv as [_ Hvr]. apply andb_true_iff in Hc as [Hct Hcr].
  constructor; [by intros ->|]. eapply (IH (String.length r)); [|done|done|done].
  rewrite Hs, length_append, Ht. simpl. lia.
Qed.

Lemma take_args_no_close l rest :
  Forall (fun t => t ≠ ")") l → take_args (l ++ ")" :: rest) = (l, ")" :: rest).
Proof.
  induction 1 as [|t l Ht Hl IH]; simpl; [done|].
  destruct (String.eqb_spec t ")"); [done|]. by rewrite IH.
Qed.

(** ** Tokens of a serialized formula *)

Definition reserved : list string :=
  ["!"; "NOT"; "EX"; "EF"; "EG"; "AF"; "AG"; "EU"; "AU"; "("].

Definition name_ok (name : string) : bool :=
  bool_decide (next_token name = Some (name, EmptyString)) && no_blank name &&
  negb (name ∈? reserved) && negb (String.eqb (str_lower name) "peer").

Definition value_ok (v : string) : bool :=
  negb (String.eqb v "") && no_blank v && no_close v.

(** Names are single tokens that are not operators; arguments are non-empty,
    without blanks and closing parentheses; [Terminal] is in the spelling the
    parser gives it. *)
Fixpoint printable (e : Expr) : bool :=
  match e with
  | Predicate n v =>
      name_ok n &&
      (if String.eqb (str_lower n) "terminal"
       then String.eqb n "Terminal" && bool_decide (v = None) else true) &&
      match v with None => true | Some v => value_ok v end
  | Not c => printable c
  | And l r | Or l r => printable l && printable r
  | Ctl op c => (op ∈? ["EX"; "EF"; "EG"; "AF"; "AG"]) && printable c
  | Until op l r => (op ∈? ["EU"; "AU"]) && (printable l && printable r)
  end.

Fixpoint tokens_of (e : Expr) : list string :=
  match e with
  | Predicate n None => [n]
  | Predicate n (Some v) => n :: "(" :: _tokenize v ++ [")"]
  | Not c => "!" :: tokens_of c
  | And l r => "(" :: tokens_of l ++ "&&" :: tokens_of r ++ [")"]
  | Or l r => "(" :: tokens_of l ++ "||" :: tokens_of r ++ [")"]
  | Ctl op c => op :: tokens_of c
  | Until op l r => op :: "(" :: tokens_of l ++ "," :: tokens_of r ++ [")"]
  end.

(** What may follow a formula in the text. *)
Definition stops (s : string) : Prop := s = "" ∨ ∃ d s', s = String d s' ∧ is_delim d = true.

Lemma stops_delim d s : is_delim d = true → stops (String d s).
Proof. right. eauto. Qed.
#[local] Hint Resolve stops_delim : tm.

Lemma name_ok_inv n :
  name_ok n = true →
  next_token n = Some (n, EmptyString) ∧ no_blank n = true ∧ (n ∉ reserved) ∧
  String.eqb (str_lower n) "peer" = false.
Proof.
  unfold name_ok. rewrite !andb_true_iff, !negb_true_iff, bool_decide_eq_true.
  intros [[[? ?] ?%inb_false] ?]. done.
Qed.

Lemma tokenize_name n : name_ok n = true → _tokenize n = [n].
Proof.
  intros (Hn & Hb & _ & _)%name_ok_inv. rewrite (tokenize_cons n n ""); [done|].
  by rewrite (lstrip_nospace n Hb).
Qed.

Lemma tokenize_name_stops n s :
  name_ok n = true → stops s → _tokenize (n +:+ s) = n :: _tokenize s.
Proof.
  intros Hn [->|(d & s' & -> & Hd)].
  - rewrite str_app_nil_r. by rewrite tokenize_name.
  - pose proof (name_ok_inv n Hn) as (_ & Hb & _). rewrite tokenize_delim by done.
    by rewrite tokenize_name.
Qed.

Lemma tokenize_open s : _tokenize (String "(" s) = "(" :: _tokenize s.
Proof. by apply tokenize_cons. Qed.
Lemma tokenize_close s : _tokenize (String ")" s) = ")" :: _tokenize s.
Proof. by apply tokenize_cons. Qed.
Lemma tokenize_bang s : _tokenize (String "!" s) = "!" :: _tokenize s.
Proof. by apply tokenize_cons. Qed.
Lemma tokenize_comma s : _tokenize (String "," s) = "," :: _tokenize s.
Proof. by apply tokenize_cons. Qed.
Lemma tokenize_and s : _tokenize (String " " (String "&" (String "&" (String " " s)))) = "&&" :: _tokenize s.
Proof. rewrite (tokenize_cons _ "&&" (String " " s)) by done. by rewrite tokenize_space. Qed.
Lemma tokenize_or s : _tokenize (String " " (String "|" (String "|" (String " " s)))) = "||" :: _tokenize s.
Proof. rewrite (tokenize_cons _ "||" (String " " s)) by done. by rewrite tokenize_space. Qed.

Lemma tokenize_op op s :
  op ∈ ["EX"; "EF"; "EG"; "AF"; "AG"; "EU"; "AU"] → _tokenize (op +:+ s) = op :: _tokenize s.
Proof.
  rewrite !elem_of_cons, elem_of_nil. intros Hop. apply tokenize_cons.
  repeat (destruct Hop as [->|Hop]; [done|]). done.
Qed.

Lemma tokenize_unparse e s :
  printable e = true → stops s → _tokenize (_unparse e +:+ s) = tokens_of e ++ _tokenize s.
Proof.
  revert s. induction e as [n v|c IH|l IHl r IHr|l IHl r IHr|op c IH|op l IHl r IHr];
    intros s Hp Hs; simpl in Hp; simpl _unparse; simpl tokens_of.
  - rewrite !andb_true_iff in Hp. destruct Hp as [[Hn _] Hv]. destruct v as [v|].
    + unfold value_ok in Hv. rewrite !andb_true_iff in Hv. destruct Hv as [[_ Hb] _].
      rewrite ?str_app_assoc. simpl. rewrite tokenize_name_stops by auto with tm.
      rewrite tokenize_open, ?str_app_assoc. simpl. rewrite tokenize_delim by done.
      rewrite tokenize_close. simpl.
      by rewrite <- app_assoc.
    + by rewrite tokenize_name_stops.
  - simpl. rewrite tokenize_bang. by rewrite IH.
  - apply andb_true_iff in Hp as [Hl Hr]. rewrite ?str_app_assoc. simpl. rewrite tokenize_open.
    rewrite ?str_app_assoc. simpl. rewrite IHl by (auto with tm). rewrite tokenize_and.
    rewrite ?str_app_assoc; simpl. rewrite IHr by (auto with tm). rewrite tokenize_close.
    rewrite <- !app_assoc. simpl. by rewrite <- !app_assoc.
  - apply andb_true_iff in Hp as [Hl Hr]. rewrite ?str_app_assoc. simpl. rewrite tokenize_open.
    rewrite ?str_app_assoc. simpl. rewrite IHl by (auto with tm). rewrite tokenize_or.
    rewrite ?str_app_assoc. simpl. rewrite IHr by (auto with tm). rewrite tokenize_close.
    rewrite <- !app_assoc. simpl. by rewrite <- !app_assoc.
  - apply andb_true_iff in Hp as [Hop%inb_true Hc]. rewrite ?str_app_assoc, tokenize_op by set_solver.
    simpl. rewrite tokenize_space. by rewrite IH.
  - rewrite !andb_true_iff in Hp. destruct Hp as [Hop%inb_true [Hl Hr]].
    rewrite ?str_app_assoc, tokenize_op by set_solver. simpl. rewrite tokenize_open.
    rewrite ?str_app_assoc. simpl. rewrite IHl by (auto with tm). rewrite tokenize_comma, tokenize_space.
    rewrite ?str_app_assoc. simpl. rewrite IHr by (auto with tm). rewrite tokenize_close.
    rewrite <- !app_assoc. simpl. by rewrite <- !app_assoc.
Qed.

(** ** Parsing them back *)

(** [eventually f r]: with enough fuel [f] answers [r]. *)
Definition eventually (f : nat → presult) (r : res (Expr * list string)) : Prop :=
  ∃ n, ∀ m, n ≤ m → f m = Some r.

Lemma eventually_step f g r : (∀ n, g (S n) = f n) → eventually f r → eventually g r.
Proof. intros Hg [n Hn]. exists (S n). intros [|m] Hm; [lia|]. rewrite Hg. apply Hn. lia. Qed.

Lemma eventually_ext f g r : (∀ n, g n = f n) → eventually f r → eventually g r.
Proof. intros Hg [n Hn]. exists n. intros m Hm. rewrite Hg. auto. Qed.

Lemma eventually_bind f k e ts r :
  eventually f (Ok (e, ts)) → eventually (fun n => k n e ts) r →
  eventually (fun n => pbind (f n) (k n)) r.
Proof.
  intros [n Hn] [m Hm]. exists (n `max` m). intros p Hp. rewrite Hn by lia. simpl. apply Hm. lia.
Qed.

Lemma eventually_const r : eventually (fun _ => Some r) r.
Proof. by exists 0. Qed.

Lemma eat_cons t ts : eat t (t :: ts) = Some ts.
Proof. by apply eat_some. Qed.

Lemma expect_cons t msg ts k : expect t msg (t :: ts) k = k ts.
Proof. unfold expect. by rewrite eat_cons. Qed.

(** The token after a formula does not continue it. *)
Definition closes (ts : list string) : Prop :=
  match ts with [] => True | t :: _ => t ∉ ["("; "&&"; "AND"; "||"; "OR"] end.

Lemma and_loop_stops node ts :
  match ts with [] => True | t :: _ => t ∉ ["&&"; "AND"] end →
  eventually (fun n => and_loop n node ts) (Ok (node, ts)).
Proof.
  intros Hc. exists 1. intros [|n] Hn; [lia|]. cbn [and_loop]. destruct ts as [|t ts]; [done|].
  destruct (t ∈? ["&&"; "AND"]) eqn:E; [|done]. by apply inb_true in E.
Qed.

Lemma or_loop_stops node ts :
  match ts with [] => True | t :: _ => t ∉ ["||"; "OR"] end →
  eventually (fun n => or_loop n node ts) (Ok (node, ts)).
Proof.
  intros Hc. exists 1. intros [|n] Hn; [lia|]. cbn [or_loop]. destruct ts as [|t ts]; [done|].
  destruct (t ∈? ["||"; "OR"]) eqn:E; [|done]. by apply inb_true in E.
Qed.

(** A unary formula followed by a closing token is a whole [parse_or]. *)
Lemma or_of_unary ts e rest :
  closes rest → eventually (fun n => parse_unary n ts) (Ok (e, rest)) →
  eventually (fun n => parse_or n ts) (Ok (e, rest)).
Proof.
  intros Hc Hu.
  eapply (eventually_step (fun n => pbind (parse_and n ts) (or_loop n))); [done|].
  eapply eventually_bind.
  - eapply (eventually_step (fun n => pbind (parse_unary n ts) (and_loop n))); [done|].
    eapply eventually_bind; [exact Hu|]. apply and_loop_stops.
    destruct rest; [done|]. simpl in Hc. set_solver.
  - apply or_loop_stops. destruct rest; [done|]. simpl in Hc. set_solver.
Qed.

(** The two operands of a parenthesized connective. *)
Lemma or_of_and ts l rest r rest' :
  eventually (fun n => parse_unary n ts) (Ok (l, "&&" :: rest)) →
  closes rest' → eventually (fun n => parse_unary n rest) (Ok (r, rest')) →
  eventually (fun n => parse_or n ts) (Ok (And l r, rest')).
Proof.
  intros Hl Hc Hr.
  eapply (eventually_step (fun n => pbind (parse_and n ts) (or_loop n))); [done|].
  eapply eventually_bind; [|apply or_loop_stops; destruct rest'; [done|]; simpl in Hc; set_solver].
  eapply (eventually_step (fun n => pbind (parse_unary n ts) (and_loop n))); [done|].
  eapply eventually_bind; [exact Hl|].
  eapply (eventually_step (fun n => pbind (parse_unary n rest) (fun r ts => and_loop n (And l r) ts)));
    [done|].
  eapply eventually_bind; [exact Hr|]. apply and_loop_stops. destruct rest'; [done|]. simpl in Hc. set_solver.
Qed.

Lemma or_of_or ts l rest r rest' :
  eventually (fun n => parse_unary n ts) (Ok (l, "||" :: rest)) →
  closes rest' → eventually (fun n => parse_unary n rest) (Ok (r, rest')) →
  eventually (fun n => parse_or n ts) (Ok (Or l r, rest')).
Proof.
  intros Hl Hc Hr.
  eapply (eventually_step (fun n => pbind (parse_and n ts) (or_loop n))); [done|].
  eapply eventually_bind.
  - eapply (eventually_step (fun n => pbind (parse_unary n ts) (and_loop n))); [done|].
    eapply eventually_bind; [exact Hl|]. apply and_loop_stops. set_solver.
  - eapply (eventually_step (fun n => pbind (parse_and n rest) (fun r ts => or_loop n (Or l r) ts)));
      [done|].
    eapply eventually_bind; [|apply or_loop_stops; destruct rest'; [done|]; simpl in Hc; set_solver].
    eapply (eventually_step (fun n => pbind (parse_unary n rest) (and_loop n))); [done|].
    eapply eventually_bind; [exact Hr|]. apply and_loop_stops. destruct rest'; [done|]. simpl in Hc. set_solver.
Qed.

Lemma unary_predicate n v rest :
  printable (Predicate n v) = true → head rest ≠ Some "(" →
  eventually (fun m => parse_unary m (tokens_of (Predicate n v) ++ rest)) (Ok (Predicate n v, rest)).
Proof.
  intros Hp Hr. cbn [printable] in Hp. rewrite !andb_true_iff in Hp. destruct Hp as [[Hn Ht] Hv].
  apply name_ok_inv in Hn as (_ & _ & Hres & Hpeer). exists 2. intros [|[|m]] Hm; [lia|lia|].
  assert (∃ ts, tokens_of (Predicate n v) ++ rest = n :: ts ∧
                plain_predicate n ts = Some (Ok (Predicate n v, rest))) as (ts & -> & Hpl).
  { assert (∀ w, v = w → finish_predicate n w = Predicate n v) as Hfin.
    { intros w <-. unfold finish_predicate. destruct (String.eqb (str_lower n) "terminal"); [|done].
      apply andb_true_iff in Ht as [->%String.eqb_eq ->%bool_decide_eq_true]. done. }
    destruct v as [v|].
    - exists ("(" :: _tokenize v ++ [")"] ++ rest). split; [simpl; by rewrite <- app_assoc|].
      unfold value_ok in Hv. rewrite !andb_true_iff, negb_true_iff in Hv. destruct Hv as [[Hne Hb] Hc].
      unfold plain_predicate. rewrite eat_cons. cbn [app].
      rewrite take_args_no_close by (by apply tokenize_no_close).
      rewrite eat_cons, tokenize_join, (strip_nospace v Hb), Hne by done.
      by rewrite Hfin.
    - exists rest. split; [done|]. unfold plain_predicate, eat.
      destruct rest as [|t rest]; [by rewrite Hfin|].
      destruct (String.eqb_spec t "(") as [->|]; [done|]. by rewrite Hfin. }
  cbn [parse_unary]. unfold reserved in Hres.
  assert ((n ∈? ["!"; "NOT"]) = false) as -> by (apply inb_false; set_solver).
  assert ((n ∈? ["EX"; "EF"; "EG"; "AF"; "AG"]) = false) as -> by (apply inb_false; set_solver).
  assert ((n ∈? ["EU"; "AU"]) = false) as -> by (apply inb_false; set_solver).
  destruct (String.eqb_spec n "(") as [->|]; [set_solver|].
  cbn [parse_predicate]. by rewrite Hpeer.
Qed.

Lemma unary_until op l r rest :
  inb op ["EU"; "AU"] = true →
  (∀ rest, head rest ≠ Some "(" → eventually (fun n => parse_unary n (tokens_of l ++ rest)) (Ok (l, rest))) →
  (∀ rest, head rest ≠ Some "(" → eventually (fun n => parse_unary n (tokens_of r ++ rest)) (Ok (r, rest))) →
  eventually (fun n => parse_unary n (tokens_of (Until op l r) ++ rest)) (Ok (Until op l r, rest)).
Proof.
  intros Hop Hl Hr.
  eapply (eventually_step (fun n =>
    pbind (parse_or n (tokens_of l ++ "," :: tokens_of r ++ ")" :: rest)) (fun l ts3 =>
      expect "," (op +:+ " requires two comma-separated operands: " +:+ op +:+ "(p, q)") ts3 (fun ts4 =>
        pbind (parse_or n ts4) (fun r ts5 =>
          expect ")" ("missing ')' in " +:+ op +:+ "(...)") ts5 (fun ts6 =>
            Some (Ok (Until op l r, ts6)))))))).
  { intros n. cbn [tokens_of app parse_unary]. rewrite Hop.
    apply inb_true in Hop.
    assert ((op ∈? ["!"; "NOT"]) = false) as -> by (apply inb_false; set_solver).
    assert ((op ∈? ["EX"; "EF"; "EG"; "AF"; "AG"]) = false) as -> by (apply inb_false; set_solver).
    rewrite expect_cons. rewrite <- app_assoc. cbn [app]. by rewrite <- app_assoc. }
  eapply eventually_bind.
  { apply or_of_unary; [|by apply Hl]. simpl. set_solver. }
  eapply (eventually_ext (fun n => pbind (parse_or n (tokens_of r ++ ")" :: rest)) (fun r ts5 =>
    expect ")" ("missing ')' in " +:+ op +:+ "(...)") ts5 (fun ts6 =>
      Some (Ok (Until op l r, ts6)))))); [intros n; apply expect_cons|].
  eapply eventually_bind; [|rewrite expect_cons; apply eventually_const].
  apply or_of_unary; [|by apply Hr]. simpl. set_solver.
Qed.

Lemma unary_tokens e rest :
  printable e = true → head rest ≠ Some "(" →
  eventually (fun n => parse_unary n (tokens_of e ++ rest)) (Ok (e, rest)).
Proof.
  revert rest. induction e as [n v|c IH|l IHl r IHr|l IHl r IHr|op c IH|op l IHl r IHr];
    intros rest Hp Hr; [by apply unary_predicate|..]; cbn [printable] in Hp.
  - eapply (eventually_step (fun n => pbind (parse_unary n (tokens_of c ++ rest))
             (fun e ts => Some (Ok (Not e, ts))))); [done|].
    eapply eventually_bind; [by apply IH|apply eventually_const].
  - apply andb_true_iff in Hp as [Hl Hr'].
    eapply (eventually_step (fun n => pbind (parse_or n (tokens_of l ++ "&&" :: tokens_of r ++ ")" :: rest))
             (fun e ts => expect ")" "missing ')'" ts (fun ts3 => Some (Ok (e, ts3)))))).
    { intros n. cbn [tokens_of app]. rewrite <- app_assoc. cbn [app]. by rewrite <- app_assoc. }
    eapply eventually_bind; [|rewrite expect_cons; apply eventually_const].
    eapply or_of_and; [by apply IHl| |by apply IHr]. simpl. set_solver.
  - apply andb_true_iff in Hp as [Hl Hr'].
    eapply (eventually_step (fun n => pbind (parse_or n (tokens_of l ++ "||" :: tokens_of r ++ ")" :: rest))
             (fun e ts => expect ")" "missing ')'" ts (fun ts3 => Some (Ok (e, ts3)))))).
    { intros n. cbn [tokens_of app]. rewrite <- app_assoc. cbn [app]. by rewrite <- app_assoc. }
    eapply eventually_bind; [|rewrite expect_cons; apply eventually_const].
    eapply or_of_or; [by apply IHl| |by apply IHr]. simpl. set_solver.
  - apply andb_true_iff in Hp as [Hop Hc].
    eapply (eventually_step (fun n => pbind (parse_unary n (tokens_of c ++ rest))
             (fun e ts => Some (Ok (Ctl op e, ts))))).
    { intros n. cbn [tokens_of app parse_unary]. rewrite Hop.
      assert ((op ∈? ["!"; "NOT"]) = false) as ->; [|done].
      apply inb_true in Hop. apply inb_false. set_solver. }
    eapply eventually_bind; [by apply IH|apply eventually_const].
  - rewrite !andb_true_iff in Hp. destruct Hp as [Hop [Hl Hr']].
    apply unary_until; [done|intros rest' H; by apply IHl|intros rest' H; by apply IHr].
Qed.

(** C5: serializing a formula and parsing the text gives the formula back. *)
Theorem unparse_parse_roundtrip e :
  printable e = true → parse_expr (_unparse e) = Ok e.
Proof.
  intros Hp. unfold parse_expr.
  rewrite <- (str_app_nil_r (_unparse e)), tokenize_unparse by (try left; done).
  destruct (or_of_unary (tokens_of e ++ []) e []) as [n Hn]; [done|by apply unary_tokens|].
  eapply parse_tokens_of. apply (Hn n). lia.
Qed.
