(* ===== verification/Ctl.v ===== *)
(** * CTL evaluation ([tm/verify/ctl.py])

    [_eval_predicate], [eval_state_expr] and the fixpoint evaluator [_sat],
    over an explored graph.  The three [while changed] loops (EF, AF, until)
    share their body here: they differ in the guard of a state and in asking
    for some or for all successors. *)

From S2P Require Import Prelude PyVal State Explorer CtlSyntax.
From stdpp Require Import base gmap strings list fin_maps fin_sets.
From Stdlib Require Import Lia.

Section ctl.
Context {A : Type} `{Adapter A}.

Definition _eval_predicate (name : string) (value : option string) (st : State) (a : A) : bool :=
  if String.eqb (str_lower name) "terminal" then
    match enabled_steps a st with [] => true | _ => false end
  else
    match value with
    | None => false
    | Some v =>
        if String.eqb (str_lower name) "has" then bool_decide (is_Some (store st !! v))
        else if String.eqb (str_lower name) "pending" then v ∈? pending st
        else if String.eqb (str_lower name) "done" then v ∈? done_ st
        else false
    end.

(** [and]/[or] evaluate their right operand only when needed. *)
Fixpoint eval_state_expr (e : Expr) (st : State) (a : A) : res bool :=
  match e with
  | Predicate n v => Ok (_eval_predicate n v st a)
  | Not c => b ← eval_state_expr c st a; Ok (negb b)
  | And l r => b ← eval_state_expr l st a; if (b : bool) then eval_state_expr r st a else Ok false
  | Or l r => b ← eval_state_expr l st a; if (b : bool) then Ok true else eval_state_expr r st a
  | Ctl _ _ | Until _ _ _ =>
      Raise (ValueError "CTL operator not allowed in state-only evaluation")
  end.

(** [set(range(len(model.states)))]. *)
Definition indices (m : ExplorationResult) : gset nat :=
  list_to_set (seq 0 (length (states m))).

Definition sat_predicate (name : string) (value : option string)
  (m : ExplorationResult) (a : A) : gset nat :=
  list_to_set (omap (fun '(i, st) => if _eval_predicate name value st a then Some i else None)
                    (imap (fun i st => (i, st)) (states m))).

(** [any(nxt in sat for nxt in succs)], or [succs and all(...)]. *)
Definition reach (existential : bool) (sat : gset nat) (succs : list nat) : bool :=
  if existential then existsb (fun nxt => bool_decide (nxt ∈ sat)) succs
  else match succs with [] => false | _ => true end &&
       forallb (fun nxt => bool_decide (nxt ∈ sat)) succs.

(** One pass over [model.edges.items()], updating [sat] in place. *)
Definition sat_pass (existential : bool) (guard : nat → bool) (es : list (nat * list nat))
  (sat : gset nat) : gset nat * bool :=
  foldl (fun acc kv =>
    let '(sat, changed) := acc in
    let '(sid, succs) := (kv : nat * list nat) in
    if bool_decide (sid ∈ sat) || negb (guard sid) then (sat, changed)
    else if reach existential sat succs then ({[sid]} ∪ sat, true)
    else (sat, changed)) (sat, false) es.

(** [while changed]: a pass that changes something adds a source of an edge,
    so one pass more than there are sources is enough. *)
Fixpoint sat_loop (fuel : nat) (existential : bool) (guard : nat → bool)
  (es : list (nat * list nat)) (sat : gset nat) : res (gset nat) :=
  match fuel with
  | 0 => Raise (RuntimeError "out of fuel")
  | S fuel' =>
      let '(sat', changed) := sat_pass existential guard es sat in
      if (changed : bool) then sat_loop fuel' existential guard es sat' else Ok sat'
  end.

Definition sat_fix (existential : bool) (guard : nat → bool) (m : ExplorationResult)
  (sat : gset nat) : res (gset nat) :=
  sat_loop (S (length (edges m))) existential guard (edges m) sat.

Definition sat_EX (m : ExplorationResult) (child_sat : gset nat) : gset nat :=
  list_to_set (omap (fun kv => if reach true child_sat kv.2 then Some kv.1 else None) (edges m)).

(** AF: the loop, then the terminal states that satisfy the child. *)
Definition sat_AF (m : ExplorationResult) (child_sat : gset nat) : res (gset nat) :=
  sat ← sat_fix false (fun _ => true) m child_sat;
  Ok (sat ∪ list_to_set (filter (fun sid => (sid ∉ (edges m).*1) ∧ sid ∈ child_sat)
                                (seq 0 (length (states m))))).

(** EG and AG evaluate [AF (not child)] and [EF (not child)]. *)
Fixpoint _sat (e : Expr) (m : ExplorationResult) (a : A) : res (gset nat) :=
  match e with
  | Predicate n v => Ok (sat_predicate n v m a)
  | Not c => s ← _sat c m a; Ok (indices m ∖ s)
  | And l r => sl ← _sat l m a; sr ← _sat r m a; Ok (sl ∩ sr)
  | Or l r => sl ← _sat l m a; sr ← _sat r m a; Ok (sl ∪ sr)
  | Ctl op c =>
      child_sat ← _sat c m a;
      if String.eqb op "EX" then Ok (sat_EX m child_sat)
      else if String.eqb op "EF" then sat_fix true (fun _ => true) m child_sat
      else if String.eqb op "AF" then sat_AF m child_sat
      else if String.eqb op "EG" then
        s ← sat_AF m (indices m ∖ child_sat); Ok (indices m ∖ s)
      else if String.eqb op "AG" then
        s ← sat_fix true (fun _ => true) m (indices m ∖ child_sat); Ok (indices m ∖ s)
      else Raise (TypeError "Unsupported expression node")
  | Until op l r =>
      left_sat ← _sat l m a;
      right_sat ← _sat r m a;
      sat_fix (String.eqb op "EU") (fun sid => bool_decide (sid ∈ left_sat)) m right_sat
  end.

Definition check_ctl (e : Expr) (m : ExplorationResult) (a : A) : res (gset nat) :=
  _sat e m a.
End ctl.
