(* ===== verification/CtlSpec.v ===== *)
(** * Correctness of the CTL evaluator

    A declarative semantics of the formulas over the explored graph (paths,
    inductive eventualities, a greatest fixpoint for [EG]) and the proof that
    [_sat] computes it: the model checker is sound and complete for its
    graph. *)

From S2P Require Import Prelude PyVal State Explorer CtlSyntax CtlParse Ctl.
From stdpp Require Import base gmap strings list fin_maps fin_sets relations.
From Stdlib Require Import Lia.

(** ** Semantics *)

(** [E[P U Q]]. *)
Inductive ex_until (R : nat → nat → Prop) (P Q : nat → Prop) : nat → Prop :=
| ex_until_now i : Q i → ex_until R P Q i
| ex_until_step i j : P i → R i j → ex_until R P Q j → ex_until R P Q i.

(** [A[P U Q]] on maximal paths: a state without successors has no future. *)
Inductive all_until (R : nat → nat → Prop) (P Q : nat → Prop) : nat → Prop :=
| all_until_now i : Q i → all_until R P Q i
| all_until_step i : P i → (∃ j, R i j) → (∀ j, R i j → all_until R P Q j) → all_until R P Q i.

(** [EG P]: a maximal path (infinite, or ending in a state without
    successors) along which [P] holds, given by the set of its states. *)
Definition ex_always (R : nat → nat → Prop) (P : nat → Prop) (i : nat) : Prop :=
  ∃ X : nat → Prop, X i ∧ ∀ k, X k → P k ∧ ((∀ j, ¬ R k j) ∨ ∃ j, R k j ∧ X j).

Fixpoint holds {A} `{Adapter A} (a : A) (m : ExplorationResult) (e : Expr) (i : nat) : Prop :=
  match e with
  | Predicate n v => ∃ st, states m !! i = Some st ∧ _eval_predicate n v st a = true
  | Not c => ¬ holds a m c i
  | And l r => holds a m l i ∧ holds a m r i
  | Or l r => holds a m l i ∨ holds a m r i
  | Ctl op c =>
      if String.eqb op "EX" then ∃ j, edge m i j ∧ holds a m c j
      else if String.eqb op "EF" then ∃ j, rtc (edge m) i j ∧ holds a m c j
      else if String.eqb op "AF" then all_until (edge m) (fun _ => True) (holds a m c) i
      else if String.eqb op "EG" then ex_always (edge m) (holds a m c) i
      else ∀ j, rtc (edge m) i j → holds a m c j
  | Until op l r =>
      if String.eqb op "EU" then ex_until (edge m) (holds a m l) (holds a m r) i
      else all_until (edge m) (holds a m l) (holds a m r) i
  end.

(** Graphs the explorer produces: one entry per source, everything in range. *)
Record model_wf (m : ExplorationResult) : Prop := {
  mw_nodup : NoDup (edges m).*1;
  mw_range : ∀ i js, (i, js) ∈ edges m →
    i < length (states m) ∧ js ≠ [] ∧ Forall (fun j => j < length (states m)) js
}.

(** ** The fixpoint loop *)

Section lfp.
Context (existential : bool) (guard : nat → bool) (es : list (nat * list nat)).

Definition reachP (X : nat → Prop) (succs : list nat) : Prop :=
  if existential then ∃ j, j ∈ succs ∧ X j
  else succs ≠ [] ∧ ∀ j, j ∈ succs → X j.

Lemma reach_true sat succs : reach existential sat succs = true ↔ reachP (.∈ sat) succs.
Proof.
  unfold reach, reachP. destruct existential.
  - rewrite existsb_exists. setoid_rewrite <- list_elem_of_In.
    by setoid_rewrite bool_decide_eq_true.
  - rewrite andb_true_iff, forallb_forall. setoid_rewrite <- list_elem_of_In.
    setoid_rewrite bool_decide_eq_true. destruct succs; split; by intros [? ?].
Qed.

Lemma reachP_mono (X Y : nat → Prop) succs :
  (∀ j, X j → Y j) → reachP X succs → reachP Y succs.
Proof. unfold reachP. destruct existential; naive_solver. Qed.

(** The invariant of a pass: [sat] grows, stays within every closed set, and
    [changed] tells whether something was added. *)
Definition closed (X : nat → Prop) : Prop :=
  ∀ i js, (i, js) ∈ es → guard i = true → reachP X js → X i.

Lemma pass_spec es' sat ch sat' ch' :
  es' ⊆ es →
  foldl (fun acc kv =>
    let '(sat, changed) := acc in
    let '(sid, succs) := (kv : nat * list nat) in
    if bool_decide (sid ∈ sat) || negb (guard sid) then (sat, changed)
    else if reach existential sat succs then ({[sid]} ∪ sat, true)
    else (sat, changed)) (sat, ch) es' = (sat', ch') →
  sat ⊆ sat' ∧ (∀ X : nat → Prop, closed X → (∀ i, i ∈ sat → X i) → ∀ i, i ∈ sat' → X i) ∧
  (ch' = false → ch = false ∧ sat' = sat ∧
     ∀ i js, (i, js) ∈ es' → guard i = true → reachP (.∈ sat) js → i ∈ sat) ∧
  (ch = false → ch' = true → ∃ i, i ∈ es'.*1 ∧ i ∈ sat' ∧ i ∉ sat).
Proof.
  revert sat ch. induction es' as [|[sid succs] es' IH]; intros sat ch Hsub; simpl.
  { intros [= <- <-]. split_and!; [done|auto|intros; split_and!; [done|done|set_solver]|congruence]. }
  intros Hf. assert (es' ⊆ es) as Hsub' by set_solver.
  assert ((sid, succs) ∈ es) as Hin by set_solver.
  destruct (bool_decide (sid ∈ sat) || negb (guard sid)) eqn:Eg; simpl in Hf.
  - destruct (IH sat ch Hsub' Hf) as (H1 & H2 & H3 & H4). split_and!; [done|done| |].
    + intros Hc. destruct (H3 Hc) as (Hch & Hs & Hcl). split_and!; [done|done|].
      intros i js [[= -> ->]|Hi]%elem_of_cons Hg Hr; [|by eapply Hcl].
      apply orb_true_iff in Eg as [Eg%bool_decide_eq_true|Eg]; [done|]. by rewrite Hg in Eg.
    + intros Hc Hc'. destruct (H4 Hc Hc') as (i & Hi & ? & ?). exists i. split_and!; [set_solver|done|done].
  - apply orb_false_iff in Eg as [Eg%bool_decide_eq_false Hg%negb_false_iff].
    destruct (reach existential sat succs) eqn:Er.
    + destruct (IH ({[sid]} ∪ sat) true Hsub' Hf) as (H1 & H2 & H3 & H4).
      split_and!; [set_solver| | |].
      * intros X HX Hsat. apply H2; [done|].
        intros i [->%elem_of_singleton|Hi]%elem_of_union; [|by apply Hsat].
        eapply HX; [exact Hin|done|]. eapply reachP_mono; [|by apply reach_true]. done.
      * intros Hc. destruct (H3 Hc) as (? & _). done.
      * intros _ _. exists sid. split_and!; [set_solver|set_solver|done].
    + destruct (IH sat ch Hsub' Hf) as (H1 & H2 & H3 & H4). split_and!; [done|done| |].
      * intros Hc. destruct (H3 Hc) as (Hch & Hs & Hcl). split_and!; [done|done|].
        intros i js [[= -> ->]|Hi]%elem_of_cons Hg' Hr; [|by eapply Hcl].
        apply reach_true in Hr. congruence.
      * intros Hc Hc'. destruct (H4 Hc Hc') as (i & Hi & ? & ?). exists i. split_and!; [set_solver|done|done].
Qed.

(** The loop returns the least closed set containing the start. *)
Lemma loop_spec fuel sat :
  size (list_to_set (C:=gset nat) es.*1 ∖ sat) < fuel →
  ∃ S, sat_loop fuel existential guard es sat = Ok S ∧ sat ⊆ S ∧
    closed (.∈ S) ∧
    (∀ X : nat → Prop, closed X → (∀ i, i ∈ sat → X i) → ∀ i, i ∈ S → X i).
Proof.
  revert sat. induction fuel as [|fuel IH]; intros sat Hf; [lia|]. simpl.
  destruct (sat_pass existential guard es sat) as [sat' ch] eqn:E.
  destruct (pass_spec es sat false sat' ch) as (H1 & H2 & H3 & H4); [done|exact E|].
  destruct ch.
  - destruct (H4 eq_refl eq_refl) as (i & Hi & Hi' & Hni).
    destruct (IH sat') as (S & HS & Hsub & Hcl & Hleast).
    { assert (size (list_to_set (C:=gset nat) es.*1 ∖ sat') <
              size (list_to_set (C:=gset nat) es.*1 ∖ sat)); [|lia].
      apply subset_size. split; [set_solver|]. intros Hs.
      assert (i ∈ list_to_set (C:=gset nat) es.*1 ∖ sat) as Hx.
      { apply elem_of_difference. split; [by apply elem_of_list_to_set|done]. }
      apply Hs in Hx. set_solver. }
    exists S. split_and!; [done|set_solver|done|]. intros X HX Hs.
    apply Hleast; [done|]. by apply H2.
  - destruct (H3 eq_refl) as (_ & -> & Hcl). exists sat. split_and!; [done|done|exact Hcl|auto].
Qed.
End lfp.

Lemma size_list_to_set_le (l : list nat) : size (list_to_set (C:=gset nat) l) ≤ length l.
Proof.
  induction l as [|x l IH]; [by rewrite list_to_set_nil, size_empty|].
  rewrite list_to_set_cons, size_union_alt, size_singleton. simpl.
  assert (size (list_to_set (C:=gset nat) l ∖ {[x]}) ≤ size (list_to_set (C:=gset nat) l)); [|lia].
  by apply subseteq_size, subseteq_difference_l.
Qed.

Lemma sat_fix_spec existential guard m sat :
  ∃ S, sat_fix existential guard m sat = Ok S ∧ sat ⊆ S ∧
    closed existential guard (edges m) (.∈ S) ∧
    (∀ X : nat → Prop, closed existential guard (edges m) X → (∀ i, i ∈ sat → X i) →
       ∀ i, i ∈ S → X i).
Proof.
  apply loop_spec. apply Nat.lt_succ_r. rewrite <- (length_fmap fst (edges m)).
  etransitivity; [apply subseteq_size, subseteq_difference_l; reflexivity|].
  apply size_list_to_set_le.
Qed.

(** ** Edges of a well-formed graph *)

Lemma elem_of_indices m i : i ∈ indices m ↔ i < length (states m).
Proof. unfold indices. rewrite elem_of_list_to_set, elem_of_seq. lia. Qed.

Section graph.
Context (m : ExplorationResult) (Hm : model_wf m).

Lemma edge_entry i js j : (i, js) ∈ edges m → edge m i j ↔ j ∈ js.
Proof.
  intros Hi. split; [|by exists js]. intros (js' & Hi' & Hj).
  pose proof (alookup_NoDup _ _ _ (mw_nodup m Hm) Hi).
  pose proof (alookup_NoDup _ _ _ (mw_nodup m Hm) Hi'). congruence.
Qed.

Lemma edge_range i j : edge m i j → i < length (states m) ∧ j < length (states m).
Proof.
  intros (js & Hi & Hj). destruct (mw_range m Hm i js Hi) as (? & _ & Hf).
  split; [done|]. rewrite Forall_forall in Hf. auto.
Qed.

Lemma no_entry_no_edge i j : i ∉ (edges m).*1 → ¬ edge m i j.
Proof. intros Hi (js & Hin & _). apply Hi. by apply (list_elem_of_fmap_2 fst _ (i, js)). Qed.

(** A state with an entry has a successor. *)
Lemma entry_dec i : {js | (i, js) ∈ edges m} + {i ∉ (edges m).*1}.
Proof.
  destruct (alookup i (edges m)) as [js|] eqn:E.
  - left. exists js. by apply alookup_elem_of.
  - right. by apply alookup_None.
Qed.

Lemma closed_ex guard (X : nat → Prop) :
  closed true guard (edges m) X ↔ ∀ i j, guard i = true → edge m i j → X j → X i.
Proof.
  unfold closed, reachP. split.
  - intros HX i j Hg (js & Hi & Hj) Hxj. eapply HX; eauto.
  - intros HX i js Hi Hg (j & Hj & Hxj). eapply HX; [done| |done]. by exists js.
Qed.

Lemma closed_all guard (X : nat → Prop) :
  closed false guard (edges m) X ↔
  ∀ i, guard i = true → (∃ j, edge m i j) → (∀ j, edge m i j → X j) → X i.
Proof.
  unfold closed, reachP. split.
  - intros HX i Hg (j & js & Hi & Hj) Hall. eapply (HX i js); [done|done|].
    split; [by intros ->; set_solver|]. intros j' Hj'. apply Hall. by apply (edge_entry i js).
  - intros HX i js Hi Hg [Hne Hall]. apply HX; [done| |].
    + destruct js as [|j js]; [done|]. exists j. exists (j :: js). split; [done|set_solver].
    + intros j Hj. apply Hall. by apply (edge_entry i js j Hi).
Qed.

(** The existential loop computes [E[P U Q]] and the universal one
    [A[P U Q]]. *)
Lemma sat_fix_ex guard (P Q : nat → Prop) sat :
  (∀ i, i < length (states m) → guard i = true ↔ P i) →
  (∀ i, i ∈ sat ↔ i < length (states m) ∧ Q i) →
  ∃ S, sat_fix true guard m sat = Ok S ∧
       ∀ i, i ∈ S ↔ i < length (states m) ∧ ex_until (edge m) P Q i.
Proof.
  intros HP HQ. destruct (sat_fix_spec true guard m sat) as (S & HS & Hsub & Hcl & Hleast).
  exists S. split; [done|]. intros i. split.
  - apply (Hleast (fun i => i < length (states m) ∧ ex_until (edge m) P Q i)).
    + apply closed_ex. intros k j Hg He [_ Hj]. destruct (edge_range k j He) as [Hk _].
      split; [done|]. eapply ex_until_step; [by apply HP|done|done].
    + intros k Hk. apply HQ in Hk as [? ?]. split; [done|by constructor].
  - intros [Hi Hu]. induction Hu as [i Hq|i j Hp He Hu IH].
    + apply Hsub, HQ. done.
    + destruct (edge_range i j He) as [_ Hj].
      eapply (proj1 (closed_ex guard _) Hcl); [by apply HP|done|by apply IH].
Qed.

Lemma sat_fix_all guard (P Q : nat → Prop) sat :
  (∀ i, i < length (states m) → guard i = true ↔ P i) →
  (∀ i, i ∈ sat ↔ i < length (states m) ∧ Q i) →
  ∃ S, sat_fix false guard m sat = Ok S ∧
       ∀ i, i ∈ S ↔ i < length (states m) ∧ all_until (edge m) P Q i.
Proof.
  intros HP HQ. destruct (sat_fix_spec false guard m sat) as (S & HS & Hsub & Hcl & Hleast).
  exists S. split; [done|]. intros i. split.
  - apply (Hleast (fun i => i < length (states m) ∧ all_until (edge m) P Q i)).
    + apply closed_all. intros k Hg [j He] Hall. destruct (edge_range k j He) as [Hk _].
      split; [done|]. apply all_until_step; [by apply HP|eauto|].
      intros j' Hj'. by apply Hall.
    + intros k Hk. apply HQ in Hk as [? ?]. split; [done|by constructor].
  - intros [Hi Hu]. revert Hi. induction Hu as [i Hq|i Hp Hex Hall IH]; intros Hi.
    + apply Hsub, HQ. done.
    + eapply (proj1 (closed_all guard _) Hcl); [by apply HP|done|].
      intros j Hj. apply IH; [done|]. by apply (edge_range i j).
Qed.
End graph.

(** ** The evaluator computes the semantics *)

Section sat.
Context {A : Type} `{Adapter A} (a : A) (m : ExplorationResult) (Hm : model_wf m).

(** [S] is the set of the states where [P] holds. *)
Definition denotes (S : gset nat) (P : nat → Prop) : Prop :=
  ∀ i, i ∈ S ↔ i < length (states m) ∧ P i.

Lemma denotes_compl S P : denotes S P → denotes (indices m ∖ S) (fun i => ¬ P i).
Proof.
  intros HS i. rewrite elem_of_difference, elem_of_indices, (HS i). split; [|tauto].
  intros [Hi Hn]. split; [done|]. intros HP. by apply Hn.
Qed.

Lemma denotes_ext S P Q : (∀ i, i < length (states m) → P i ↔ Q i) → denotes S P → denotes S Q.
Proof. intros HPQ HS i. rewrite (HS i). split; intros [Hi ?]; split; try done; by apply HPQ. Qed.

(** Membership in a computed set is decidable, so its complement is the
    negation. *)
Lemma denotes_dec S P i : denotes S P → i < length (states m) → P i ∨ ¬ P i.
Proof.
  intros HS Hi. destruct (decide (i ∈ S)) as [Hin|Hin].
  - left. by apply HS.
  - right. intros HP. apply Hin, HS. done.
Qed.

Lemma denotes_predicate n v :
  denotes (sat_predicate n v m a) (holds a m (Predicate n v)).
Proof.
  intros i. unfold sat_predicate. rewrite elem_of_list_to_set, list_elem_of_omap. simpl. split.
  - intros ([k st] & Hin & Hk). destruct (_eval_predicate n v st a) eqn:E; [|done].
    injection Hk as ->. apply list_elem_of_lookup in Hin as [k Hk].
    rewrite list_lookup_imap in Hk. apply fmap_Some in Hk as (st' & Hst & [= -> ->]).
    split; [by eapply lookup_lt_Some|eauto].
  - intros [Hi (st & Hst & E)]. exists (i, st). rewrite E. split; [|done].
    apply list_elem_of_lookup. exists i. by rewrite list_lookup_imap, Hst.
Qed.

Lemma denotes_EX S P : denotes S P → denotes (sat_EX m S) (fun i => ∃ j, edge m i j ∧ P j).
Proof.
  intros HS i. unfold sat_EX. rewrite elem_of_list_to_set, list_elem_of_omap. split.
  - intros ([k js] & Hin & Hk). cbn [fst snd] in Hk.
    destruct (reach true S js) eqn:E; [|done].
    injection Hk as ->. apply reach_true in E as (j & Hj & HjS).
    assert (edge m i j) as He by (exists js; done).
    destruct (edge_range m Hm i j He) as [Hi _]. split; [done|]. exists j. split; [done|]. by apply HS.
  - intros [Hi (j & (js & Hin & Hj) & HP)]. exists (i, js). split; [done|]. cbn [fst snd].
    assert (reach true S js = true) as ->; [|done]. apply reach_true. exists j. split; [done|].
    apply HS. split; [|done]. apply (edge_range m Hm i j). exists js. done.
Qed.

Lemma ex_until_rtc (P : nat → Prop) i :
  ex_until (edge m) (fun _ => True) P i ↔ ∃ j, rtc (edge m) i j ∧ P j.
Proof.
  split.
  - induction 1 as [i HP|i j _ He _ (k & Hk & HP)]; [exists i; split; [apply rtc_refl|done]|].
    exists k. split; [by eapply rtc_l|done].
  - intros (j & Hr & HP). induction Hr as [i|i k j He Hr IH]; [by constructor|].
    eapply ex_until_step; [done|done|auto].
Qed.

Lemma denotes_EF S P :
  denotes S P → ∃ S', sat_fix true (fun _ => true) m S = Ok S' ∧
    denotes S' (fun i => ∃ j, rtc (edge m) i j ∧ P j).
Proof.
  intros HS. destruct (sat_fix_ex m Hm (fun _ => true) (fun _ => True) P S) as (S' & HS' & Hd);
    [done|exact HS|].
  exists S'. split; [done|]. eapply denotes_ext; [|exact Hd]. intros i _. apply ex_until_rtc.
Qed.

Lemma denotes_AF S P :
  denotes S P → ∃ S', sat_AF m S = Ok S' ∧
    denotes S' (all_until (edge m) (fun _ => True) P).
Proof.
  intros HS. destruct (sat_fix_all m Hm (fun _ => true) (fun _ => True) P S) as (S' & HS' & Hd);
    [done|exact HS|].
  unfold sat_AF. rewrite HS'. eexists. split; [reflexivity|]. intros i.
  rewrite elem_of_union, (Hd i), elem_of_list_to_set, list_elem_of_filter, elem_of_seq.
  split; [|tauto]. intros [?|[[_ Hi] _]]; [done|]. apply HS in Hi as [? ?].
  split; [done|by constructor].
Qed.

Lemma all_until_not_always (P : nat → Prop) i :
  all_until (edge m) (fun _ => True) (fun i => ¬ P i) i → ¬ ex_always (edge m) P i.
Proof.
  induction 1 as [i Hn|i _ [j0 Hj0] Hall IH]; intros (X & Xi & HX).
  - by destruct (HX i Xi).
  - destruct (HX i Xi) as [_ [Hno|(j & He & Xj)]]; [by eapply Hno|].
    eapply (IH j He). by exists X.
Qed.

(** The complement of [AF not P] is [EG P]. *)
Lemma denotes_EG S P S' :
  denotes S P → denotes S' (all_until (edge m) (fun _ => True) (fun i => ¬ P i)) →
  denotes (indices m ∖ S') (ex_always (edge m) P).
Proof.
  intros HS HS' i. rewrite elem_of_difference, elem_of_indices. split.
  - intros [Hi Hn]. split; [done|]. exists (fun k => k < length (states m) ∧ k ∉ S'). split; [done|].
    intros k [Hk Hkn]. split.
    + destruct (denotes_dec S P k HS Hk) as [HP|HP]; [done|]. exfalso. apply Hkn, HS'.
      split; [done|by constructor].
    + destruct (entry_dec m k) as [[js Hjs]|Hnone].
      2: { left. intros j. by apply no_entry_no_edge. }
      right. destruct (decide (Forall (fun j => j ∈ S') js)) as [Hall|Hex].
      * exfalso. apply Hkn, HS'. split; [done|].
        destruct (mw_range m Hm k js Hjs) as (_ & Hne & _).
        apply all_until_step; [done| |].
        -- destruct js as [|j js]; [done|]. exists j. exists (j :: js). split; [done|set_solver].
        -- intros j Hj%(edge_entry m Hm k js j Hjs). rewrite Forall_forall in Hall.
           by apply HS', Hall.
      * apply not_Forall_Exists in Hex; [|apply _]. apply Exists_exists in Hex as (j & Hj & Hjn).
        assert (edge m k j) as He by (exists js; done).
        exists j. split_and!; [done|by apply (edge_range m Hm k j)|done].
  - intros [Hi Hg]. split; [done|]. intros [_ Hu]%HS'. by eapply all_until_not_always.
Qed.

(** The complement of [EF not P] is [AG P]. *)
Lemma denotes_AG S P S' :
  denotes S P → denotes S' (fun i => ∃ j, rtc (edge m) i j ∧ ¬ P j) →
  denotes (indices m ∖ S') (fun i => ∀ j, rtc (edge m) i j → P j).
Proof.
  intros HS HS' i. rewrite elem_of_difference, elem_of_indices, (HS' i). split.
  - intros [Hi Hn]. split; [done|]. intros j Hj.
    assert (j < length (states m)) as Hjl.
    { destruct (rtc_inv_r _ _ Hj) as [<-|(k & _ & He)]; [done|].
      by apply (edge_range m Hm k j). }
    destruct (denotes_dec S P j HS Hjl) as [HP|HP]; [done|]. exfalso. apply Hn. eauto.
  - intros [Hi Hall]. split; [done|]. intros [_ (j & Hj & Hn)]. by apply Hn, Hall.
Qed.

Lemma sat_denotes e : ops_ok e = true → ∃ S, _sat e m a = Ok S ∧ denotes S (holds a m e).
Proof.
  induction e as [n v|c IH|l IHl r IHr|l IHl r IHr|op c IH|op l IHl r IHr]; cbn [ops_ok _sat].
  - intros _. eexists. split; [reflexivity|]. apply denotes_predicate.
  - intros Hc. destruct (IH Hc) as (S & -> & HS). eexists. split; [reflexivity|].
    by apply denotes_compl.
  - intros [Hl Hr]%andb_true_iff. destruct (IHl Hl) as (Sl & -> & HSl).
    destruct (IHr Hr) as (Sr & -> & HSr). eexists. split; [reflexivity|].
    intros i. rewrite elem_of_intersection, (HSl i), (HSr i). simpl. tauto.
  - intros [Hl Hr]%andb_true_iff. destruct (IHl Hl) as (Sl & -> & HSl).
    destruct (IHr Hr) as (Sr & -> & HSr). eexists. split; [reflexivity|].
    intros i. rewrite elem_of_union, (HSl i), (HSr i). simpl. tauto.
  - intros [Hop%inb_true Hc]%andb_true_iff. destruct (IH Hc) as (S & -> & HS).
    rewrite !elem_of_cons, elem_of_nil in Hop.
    destruct Hop as [->|[->|[->|[->|[->|[]]]]]]; cbn -[sat_fix sat_AF].
    + eexists. split; [reflexivity|]. by apply denotes_EX.
    + by apply denotes_EF.
    + destruct (denotes_AF _ _ (denotes_compl _ _ HS)) as (S' & -> & HS').
      eexists. split; [reflexivity|]. by eapply denotes_EG.
    + by apply denotes_AF.
    + destruct (denotes_EF _ _ (denotes_compl _ _ HS)) as (S' & -> & HS').
      eexists. split; [reflexivity|]. by eapply denotes_AG.
  - intros [Hop%inb_true [Hl Hr]%andb_true_iff]%andb_true_iff.
    destruct (IHl Hl) as (Sl & -> & HSl). destruct (IHr Hr) as (Sr & -> & HSr).
    assert (∀ i, i < length (states m) → bool_decide (i ∈ Sl) = true ↔ holds a m l i) as Hg.
    { intros i Hi. rewrite bool_decide_eq_true, (HSl i). tauto. }
    rewrite !elem_of_cons, elem_of_nil in Hop. destruct Hop as [->|[->|[]]]; cbn -[sat_fix].
    + by apply sat_fix_ex.
    + by apply sat_fix_all.
Qed.
End sat.

(** C6: the CTL evaluator is correct: on a well-formed explored graph and for
    every formula the parser can produce, [check_ctl] terminates without
    raising and returns exactly the numbers of the states where the formula
    holds under the declarative semantics. *)
Theorem check_ctl_correct {A} `{Adapter A} (a : A) m e :
  model_wf m → ops_ok e = true →
  ∃ S, check_ctl e m a = Ok S ∧
       ∀ i, i ∈ S ↔ i < length (states m) ∧ holds a m e i.
Proof. intros Hm Hop. destruct (sat_denotes a m Hm e Hop) as (S & HS & Hd). eauto. Qed.
