(* ===== verification/Report.v ===== *)
(** * Verification reports ([tm/verify/invariants.py], [tm/verify/report.py])

    Invariants are checked state by state, properties through the CTL
    evaluator; parse errors and refused operators become failed results.  Below, what the verdicts mean over an explored graph. *)

From S2P Require Import Prelude PyVal State Explorer CtlSyntax Ctl.
From stdpp Require Import base gmap strings list fin_maps fin_sets.
From Stdlib Require Import Lia.

(** [str(exc)]. *)
Definition exn_str (e : exn) : string :=
  match e with
  | ValueError m | TypeError m | IndexError m | RuntimeError m | TimeoutError m
  | OverflowError m | AttributeError m | RegexError m | TransportError m _ => m
  | KeyError m => "'" +:+ m +:+ "'"
  end.

Record InvariantResult : Type := mkInv {
  ir_expr : string;
  ir_ok : bool;
  ir_violated_at : option nat;
  ir_path : list nat;
  ir_reason : string
}.

Record PropertySpec : Type := mkPropSpec { ps_name : string; ps_formula : string }.

Record PropertyResult : Type := mkProp {
  pr_name : string;
  pr_formula : string;
  pr_ok : bool;
  pr_counterexample : list nat;
  pr_reason : string
}.

Record VerifyReport : Type := mkReport {
  vr_invariants : list InvariantResult;
  vr_properties : list PropertyResult;
  vr_explored_states : nat;
  vr_deadlocks : list nat;
  vr_hash_mode : hash_mode;
  vr_max_depth : nat
}.

Section report.
Context {A : Type} `{Adapter A}.

(** [for idx, state in enumerate(model.states): if not eval: break]. *)
Fixpoint first_violation (e : Expr) (idx : nat) (sts : list State) (a : A)
  : res (option nat) :=
  match sts with
  | [] => Ok None
  | st :: sts' =>
      b ← eval_state_expr e st a;
      if (b : bool) then first_violation e (S idx) sts' a else Ok (Some idx)
  end.

Definition check_invariant (m : ExplorationResult) (a : A) (raw : string)
  : res InvariantResult :=
  match parse_expr raw with
  | Raise exc => Ok (mkInv raw false None [] ("parse error: " +:+ exn_str exc))
  | Ok expr =>
      if has_ctl_nodes expr then
        Ok (mkInv raw false None [] "CTL operators are not allowed in invariants")
      else
        violated_at ← first_violation expr 0 (states m) a;
        match violated_at with
        | None => Ok (mkInv raw true None [] "")
        | Some i => Ok (mkInv raw false (Some i) (path_to m i) "violated")
        end
  end.

Definition check_invariants (invariants : list string) (m : ExplorationResult) (a : A)
  : res (list InvariantResult) := mapM (check_invariant m a) invariants.

(** The first state number, in order, that is a target. *)
Definition _nearest_reachable (targets : gset nat) (m : ExplorationResult) : option nat :=
  head (filter (fun idx => idx ∈ targets) (seq 0 (length (states m)))).

Definition _counterexample (e : Expr) (m : ExplorationResult) (a : A) : res (list nat) :=
  sat_neg ← check_ctl (Not e) m a;
  Ok (match _nearest_reachable sat_neg m with
      | None => []
      | Some target => path_to m target
      end).

(** The body of the [try]. *)
Definition try_property (spec : PropertySpec) (m : ExplorationResult) (a : A)
  : res PropertyResult :=
  expr ← parse_expr (ps_formula spec);
  sat ← check_ctl expr m a;
  if decide (0 ∈ sat) then Ok (mkProp (ps_name spec) (ps_formula spec) true [] "")
  else
    path ← _counterexample expr m a;
    Ok (mkProp (ps_name spec) (ps_formula spec) false path "not satisfied from initial state").

Definition check_property (m : ExplorationResult) (a : A) (spec : PropertySpec)
  : PropertyResult :=
  match try_property spec m a with
  | Ok r => r
  | Raise exc =>
      mkProp (ps_name spec) (ps_formula spec) false [] ("parse error: " +:+ exn_str exc)
  end.

Definition check_properties (props : list PropertySpec) (m : ExplorationResult) (a : A)
  : list PropertyResult := check_property m a <$> props.

Definition build_report (invariants : list string) (properties : list PropertySpec)
  (m : ExplorationResult) (a : A) : res VerifyReport :=
  inv_results ← check_invariants invariants m a;
  Ok (mkReport inv_results (check_properties properties m a) (length (states m))
        (deadlocks m) (hash_mode_used m) (max_depth_used m)).
End report.

(** ** What a verification report means

    A passed invariant holds in every state reachable within the depth bound,
    a failed one comes with its first violation and a path to it; the verdict
    of a property is the truth of the formula in the initial state; and the
    whole pipeline (plan, exploration, CTL) decides bounded safety. *)

From S2P Require Import Prelude PyVal State Explorer.
From S2P Require Import CtlSyntax CtlParse Ctl CtlSpec.
From stdpp Require Import base gmap strings list fin_maps fin_sets relations.
From Stdlib Require Import Lia.

(** ** The explored graph *)

Section graph.
Context {K : Type} `{Digest K} {A : Type} `{LawfulAdapter A}.

Lemma explorer_model_wf fuel (a : A) D mode r a' :
  adapter_wf a → explorer_run (K:=K) fuel a D mode = Some (Ok (r, a')) → model_wf r.
Proof.
  intros Hwf Hrun.
  destruct (explorer_run_explored _ _ _ _ _ _ Hwf Hrun) as (m & e & Hm & -> & Hx).
  constructor; simpl; [apply (x_nodup _ _ _ _ _ _ Hx)|].
  intros i js Hin. apply (x_edges _ _ _ _ _ _ Hx) in Hin as (Hi & Hne & s & d & _ & _ & _ & Hf).
  split_and!; [done|done|]. apply Forall_forall. intros j Hj.
  apply list_elem_of_lookup in Hj as [k Hk].
  destruct (Forall2_lookup_r _ _ _ _ _ Hf Hk) as (ls & _ & s' & Hs' & _).
  by eapply lookup_lt_Some.
Qed.

(** Every listed state is reached from the initial one along edges. *)
Lemma explorer_rtc fuel (a : A) D mode r a' j :
  adapter_wf a → explorer_run (K:=K) fuel a D mode = Some (Ok (r, a')) →
  j < length (states r) → rtc (edge r) 0 j.
Proof.
  intros Hwf Hrun.
  destruct (explorer_run_explored _ _ _ _ _ _ Hwf Hrun) as (m & e & Hm & -> & Hx). simpl.
  induction j as [j IH] using lt_wf_ind. intros Hj.
  destruct (decide (j = 0)) as [->|Hj0]; [apply rtc_refl|].
  destruct (x_pred_total _ _ _ _ _ _ Hx j) as [[i l] Hp]; [lia|done|].
  apply (x_preds _ _ _ _ _ _ Hx) in Hp as (Hi & Hij & He & _).
  eapply rtc_r; [apply (IH i); [auto|lia]|exact He].
Qed.

Lemma explorer_nonempty fuel (a : A) D mode r a' :
  adapter_wf a → explorer_run (K:=K) fuel a D mode = Some (Ok (r, a')) → 0 < length (states r).
Proof.
  intros Hwf Hrun.
  destruct (explorer_run_explored _ _ _ _ _ _ Hwf Hrun) as (m & e & Hm & -> & Hx). simpl.
  eapply lookup_lt_Some, (x_root _ _ _ _ _ _ Hx).
Qed.
End graph.

(** ** State formulas *)

Lemma eval_state_ok {A} `{Adapter A} e st (a : A) :
  has_ctl_nodes e = false → ∃ b, eval_state_expr e st a = Ok b.
Proof.
  induction e as [n v|c IH|l IHl r IHr|l IHl r IHr|op c IH|op l IHl r IHr]; simpl; try done.
  - eauto.
  - intros Hc. destruct (IH Hc) as [b ->]. simpl. eauto.
  - intros [Hl Hr]%orb_false_iff. destruct (IHl Hl) as [[] ->], (IHr Hr) as [b ->]; simpl; eauto.
  - intros [Hl Hr]%orb_false_iff. destruct (IHl Hl) as [[] ->], (IHr Hr) as [b ->]; simpl; eauto.
Qed.

Lemma eval_state_holds {A} `{Adapter A} e (a : A) m i st b :
  has_ctl_nodes e = false → states m !! i = Some st → eval_state_expr e st a = Ok b →
  holds a m e i ↔ b = true.
Proof.
  revert b. induction e as [n v|c IH|l IHl r IHr|l IHl r IHr|op c IH|op l IHl r IHr];
    simpl; intros b Hc Hi Hb; try done.
  - injection Hb as <-. rewrite Hi. naive_solver.
  - inv_ok. subst b. rewrite (IH _ Hc Hi Ha). destruct a0; naive_solver.
  - apply orb_false_iff in Hc as [Hl Hr]. inv_ok. rewrite (IHl _ Hl Hi Ha). destruct a0.
    + rewrite (IHr _ Hr Hi Hb). naive_solver.
    + inv_ok. subst b. naive_solver.
  - apply orb_false_iff in Hc as [Hl Hr]. inv_ok. rewrite (IHl _ Hl Hi Ha). destruct a0.
    + inv_ok. subst b. naive_solver.
    + rewrite (IHr _ Hr Hi Hb). naive_solver.
Qed.

(** ** Invariants *)

Lemma first_violation_spec {A} `{Adapter A} e k sts (a : A) :
  has_ctl_nodes e = false →
  (first_violation e k sts a = Ok None ∧ Forall (fun st => eval_state_expr e st a = Ok true) sts) ∨
  ∃ i st, first_violation e k sts a = Ok (Some (k + i)) ∧ sts !! i = Some st ∧
    eval_state_expr e st a = Ok false ∧
    ∀ j st', j < i → sts !! j = Some st' → eval_state_expr e st' a = Ok true.
Proof.
  intros Hc. revert k. induction sts as [|st sts IH]; intros k; simpl; [left; by split|].
  destruct (eval_state_ok e st a Hc) as [[] Hb]; rewrite Hb; simpl.
  - destruct (IH (S k)) as [[-> Hf]|(i & st' & -> & Hi & Hev & Hlt)].
    + left. split; [done|by constructor].
    + right. exists (S i), st'. split_and!; [do 2 f_equal; lia|done|done|].
      intros [|j] s Hj Hs; [by injection Hs as <-|]. eapply Hlt; [|exact Hs]. lia.
  - right. exists 0, st. split_and!; [do 2 f_equal; lia|done|done|]. intros j s Hj. lia.
Qed.

(** The verdict of an invariant: [check_invariant] never raises; it passes
    exactly when the text parses to a formula without CTL operators that every
    explored state satisfies; otherwise, unless the text was refused, it
    reports the first violating state and the path to it. *)
Theorem check_invariant_verdict {A} `{Adapter A} (m : ExplorationResult) (a : A) raw :
  ∃ r, check_invariant m a raw = Ok r ∧
    (ir_ok r = true ↔ ∃ e, parse_expr raw = Ok e ∧ has_ctl_nodes e = false ∧
       Forall (fun st => eval_state_expr e st a = Ok true) (states m)) ∧
    ∀ e, parse_expr raw = Ok e → has_ctl_nodes e = false → ir_ok r = false →
      ∃ i st, ir_violated_at r = Some i ∧ ir_path r = path_to m i ∧
        states m !! i = Some st ∧ eval_state_expr e st a = Ok false ∧
        ∀ j st', j < i → states m !! j = Some st' → eval_state_expr e st' a = Ok true.
Proof.
  unfold check_invariant. destruct (parse_expr raw) as [e|exc] eqn:Hp.
  2: { eexists. split_and!; [reflexivity| |done]. simpl. naive_solver. }
  destruct (has_ctl_nodes e) eqn:Hc.
  { eexists. split_and!; [reflexivity|simpl|]; [|congruence].
    split; [done|]. intros (e' & [= <-] & Hn & _). congruence. }
  destruct (first_violation_spec e 0 (states m) a Hc)
    as [[-> Hf]|(i & st & -> & Hi & Hev & Hlt)].
  - eexists. split_and!; [reflexivity|simpl|done]. split; [eauto|done].
  - eexists. split_and!; [reflexivity|simpl|].
    + split; [done|]. intros (e' & [= <-] & _ & Hf). rewrite Forall_forall in Hf.
      assert (eval_state_expr e st a = Ok true) by (apply Hf; by eapply list_elem_of_lookup_2). congruence.
    + intros e' [= <-] _ _. exists i, st. done.
Qed.

Section bounded.
Context {K : Type} `{Digest K} {A : Type} `{LawfulAdapter A}.

(** Bounded safety, end to end: with a hash that tells states apart, a state
    formula passes as an invariant of the explored model exactly when
    it is true in every state reachable in at most [D] transitions. *)
Theorem invariant_bounded_safety fuel (a : A) D mode m r a' raw e :
  adapter_wf a → hash_mode_of mode = Ok m →
  (∀ s1 s2, known a' s1 → known a' s2 →
     hash_with (K:=K) m s1 = hash_with m s2 → s1 = s2) →
  explorer_run (K:=K) fuel a D mode = Some (Ok (r, a')) →
  parse_expr raw = Ok e → has_ctl_nodes e = false →
  (∃ res, check_invariant r a' raw = Ok res ∧ ir_ok res = true) ↔
  ∀ n s, n ≤ D → steps a' n (start a) s → known a' s → eval_state_expr e s a' = Ok true.
Proof.
  intros Hwf Hm Hinj Hrun Hp Hc.
  destruct (explorer_run_explored _ _ _ _ _ _ Hwf Hrun) as (m' & e' & Hm' & -> & Hx).
  assert (m' = m) as -> by congruence. unfold check_invariant. rewrite Hp, Hc. simpl states.
  destruct (first_violation_spec e 0 (e_states e') a' Hc) as [[-> Hf]|(i & st & -> & Hi & Hev & _)].
  - split; [|simpl; eauto]. intros _ n s Hn Hs Hk. rewrite Forall_forall in Hf. apply Hf.
    by eapply explored_covers.
  - split; [simpl; naive_solver|]. intros Hall. exfalso.
    destruct (explored_listed _ _ _ _ _ _ _ _ Hx Hi) as (Hk & n & Hn & Hs).
    specialize (Hall n st Hn Hs Hk). congruence.
Qed.
End bounded.

(** ** Properties *)

Section ag.
Context {K : Type} `{Digest K} {A : Type} `{LawfulAdapter A}.

(** [AG p] for a state formula [p], in the initial state of an explored graph:
    [p] is true in every listed state. *)
Lemma ag_listed fuel (a : A) D mode r a' p :
  adapter_wf a → explorer_run (K:=K) fuel a D mode = Some (Ok (r, a')) →
  has_ctl_nodes p = false →
  holds a' r (Ctl "AG" p) 0 ↔ Forall (fun st => eval_state_expr p st a' = Ok true) (states r).
Proof.
  intros Hwf Hrun Hp. pose proof (explorer_model_wf _ _ _ _ _ _ Hwf Hrun) as Hm.
  assert (∀ i st, states r !! i = Some st →
            holds a' r p i ↔ eval_state_expr p st a' = Ok true) as Hev.
  { intros i st Hi. destruct (eval_state_ok p st a' Hp) as [b Hb].
    rewrite (eval_state_holds p a' r i st b Hp Hi Hb), Hb. naive_solver. }
  simpl. split.
  - intros Hall. apply Forall_lookup. intros i st Hi. apply (Hev i st Hi), Hall.
    eapply explorer_rtc; [done..|]. by eapply lookup_lt_Some.
  - intros Hf j Hj. assert (j < length (states r)) as Hlt.
    { apply rtc_inv_r in Hj as [<-|(k & _ & js & Hin & Hk)].
      - by eapply explorer_nonempty.
      - apply (mw_range r Hm) in Hin as (_ & _ & Hjs). rewrite Forall_forall in Hjs. auto. }
    destruct (lookup_lt_is_Some_2 _ _ Hlt) as [st Hst]. apply (Hev j st Hst).
    exact (Forall_lookup_1 _ _ _ _ Hf Hst).
Qed.
End ag.

Lemma try_property_cases {A} `{Adapter A} spec (m : ExplorationResult) (a : A) e :
  model_wf m → 0 < length (states m) → parse_expr (ps_formula spec) = Ok e →
  (holds a m e 0 ∧ try_property spec m a =
     Ok (mkProp (ps_name spec) (ps_formula spec) true [] "")) ∨
  (¬ holds a m e 0 ∧ try_property spec m a =
     Ok (mkProp (ps_name spec) (ps_formula spec) false (path_to m 0)
           "not satisfied from initial state")).
Proof.
  intros Hm Hlen Hp. unfold try_property. rewrite Hp. simpl.
  pose proof (parse_expr_ops _ _ Hp) as Hop.
  destruct (sat_denotes a m Hm e Hop) as (S & HS & Hd). unfold check_ctl. rewrite HS. simpl.
  case_decide as H0.
  - left. split; [by apply Hd|done].
  - right. split; [intros Hh; apply H0, Hd; done|]. unfold _counterexample, check_ctl.
    cbn [_sat]. rewrite HS. simpl. unfold _nearest_reachable.
    destruct (states m) as [|st sts] eqn:Hst; [simpl in Hlen; lia|]. simpl seq.
    rewrite filter_cons_True; [done|]. apply elem_of_difference. split; [|done].
    apply elem_of_indices. rewrite Hst. simpl. lia.
Qed.

(** The verdict of a property: over an explored graph [check_property]
    passes exactly when the formula parses and holds in the initial state. *)
Theorem check_property_verdict {A} `{Adapter A} (m : ExplorationResult) (a : A) spec :
  model_wf m → 0 < length (states m) →
  pr_ok (check_property m a spec) = true ↔
  ∃ e, parse_expr (ps_formula spec) = Ok e ∧ holds a m e 0.
Proof.
  intros Hm Hlen. unfold check_property. destruct (parse_expr (ps_formula spec)) as [e|exc] eqn:Hp.
  - destruct (try_property_cases spec m a e Hm Hlen Hp) as [[Hh ->]|[Hh ->]]; simpl; naive_solver.
  - unfold try_property. rewrite Hp. simpl. naive_solver.
Qed.

(** The counterexample attached to a failed property is always the path
    to the initial state itself, whatever the formula: the nearest state
    violating a formula that fails initially is state 0. *)
Theorem counterexample_is_initial {A} `{Adapter A} (m : ExplorationResult) (a : A) spec e :
  model_wf m → 0 < length (states m) → parse_expr (ps_formula spec) = Ok e →
  pr_ok (check_property m a spec) = false →
  pr_counterexample (check_property m a spec) = path_to m 0.
Proof.
  intros Hm Hlen Hp. unfold check_property.
  by destruct (try_property_cases spec m a e Hm Hlen Hp) as [[_ ->]|[_ ->]].
Qed.
