(* ===== verification/Joint.v ===== *)
(** * Joint verification ([tm/verify/joint.py])

    The asynchronous product of N components: exactly one component moves per
    transition.  A joint state is shown to the explorer as one namespaced
    state; a memo from the full hash of that state gives the tuple back. *)

From S2P Require Import Prelude PyVal State Explorer CtlSyntax Ctl.
From stdpp Require Import base gmap strings list fin_maps fin_sets pretty.
From Stdlib Require Import Lia.

Record JointState : Type := mkJoint { js_components : list State; js_ids : list string }.

(** [__post_init__]. *)
Definition make_joint (components : list State) (ids : list string) : res JointState :=
  if decide (length components = length ids) then Ok (mkJoint components ids)
  else Raise (ValueError "components and component_ids must have the same length").

Definition dotted (cid : string) : string := cid +:+ ".".

(** One round of the loop of [_project]; a later component overwrites. *)
Definition project_one (acc : State) (ic : string * State) : State :=
  let prefix := dotted ic.1 in
  mkState (kmap (String.append prefix) (store ic.2) ∪ store acc)
          (pending acc ++ (String.append prefix <$> pending ic.2))
          (done_ acc ++ (String.append prefix <$> done_ ic.2))
          (events acc ++ (String.append prefix <$> events ic.2)).

Definition _project (components : list State) (ids : list string) : State :=
  foldl project_one (mkState ∅ [] [] []) (zip ids components).

Section joint.
Context {K : Type} `{Digest K} {C : Type} `{ComponentAdapter C}.

Record JointAdapter : Type := mkJA {
  j_components : list C;
  j_ids : list string;
  j_memo : list (K * list State)
}.

Definition default_ids (n : nat) : list string :=
  (fun i => "agent" +:+ pretty i) <$> seq 0 n.

Definition from_components (components : list C) (component_ids : option (list string))
  : res JointAdapter :=
  match components with
  | [] => Raise (ValueError "JointAdapter requires at least one component")
  | _ =>
      match component_ids with
      | None => Ok (mkJA components (default_ids (length components)) [])
      | Some ids =>
          if negb (bool_decide (length ids = length components)) then
            Raise (ValueError ("component_ids length " +:+ pretty (length ids) +:+
                     " != component count " +:+ pretty (length components)))
          else if negb (bool_decide (NoDup ids)) then
            Raise (ValueError "component_ids must be unique")
          else if "" ∈? ids then
            Raise (ValueError "component_id must be non-empty, got ''")
          else Ok (mkJA components ids [])
      end
  end.

Definition full_hash (ids : list string) (joint : list State) : K :=
  hash_with HFull (_project joint ids).

(** [self._memo[projected.stable_hash("full")] = joint]: the newest entry is
    the one a lookup finds. *)
Definition remember (a : JointAdapter) (joint : list State) : JointAdapter :=
  mkJA (j_components a) (j_ids a) ((full_hash (j_ids a) joint, joint) :: j_memo a).

Definition joint_initial_state (a : JointAdapter) : res (State * JointAdapter) :=
  joint ← mapM c_initial_state (j_components a);
  Ok (_project joint (j_ids a), remember a joint).

Definition _lookup_joint (a : JointAdapter) (state : State) : res (list State) :=
  match alookup (hash_with HFull state) (j_memo a) with
  | Some joint => Ok joint
  | None => Raise (KeyError "JointAdapter cannot reconstruct joint state")
  end.

(** The moves of every component, in order, with the tuple after the move. *)
Fixpoint joint_moves (joint : list State) (i : nat) (rest : list ((C * string) * State))
  : res (list (string * list State)) :=
  match rest with
  | [] => Ok []
  | ((comp, cid), st) :: rest' =>
      succ ← c_successors comp st;
      out ← joint_moves joint (S i) rest';
      Ok (((fun ls => (cid +:+ ":" +:+ ls.1, <[i := ls.2]> joint)) <$> succ) ++ out)
  end.

Definition moves_of (a : JointAdapter) (joint : list State) : res (list (string * list State)) :=
  joint_moves joint 0 (zip (zip (j_components a) (j_ids a)) joint).

Definition joint_successors (a : JointAdapter) (state : State)
  : res (list (string * State) * JointAdapter) :=
  joint ← _lookup_joint a state;
  moves ← moves_of a joint;
  Ok ((fun lj => (lj.1, _project lj.2 (j_ids a))) <$> moves, foldl remember a (moves.*2)).

Definition joint_enabled_steps (a : JointAdapter) (state : State) : list string :=
  match _lookup_joint a state with
  | Raise _ => []
  | Ok joint =>
      mjoin ((fun x : (C * string) * State =>
                (fun step => dotted x.1.2 +:+ step) <$> c_enabled_steps x.1.1 x.2)
             <$> zip (zip (j_components a) (j_ids a)) joint)
  end.

Definition joint_is_deadlocked (a : JointAdapter) (state : State) : bool :=
  match pending state with
  | [] => false
  | _ => match joint_enabled_steps a state with [] => true | _ => false end
  end.

Definition joint_state (a : JointAdapter) (state : State) : res JointState :=
  joint ← _lookup_joint a state; make_joint joint (j_ids a).

#[export] Instance joint_adapter : Adapter JointAdapter := {
  initial_state := joint_initial_state;
  successors := joint_successors;
  is_deadlocked := joint_is_deadlocked;
  enabled_steps := joint_enabled_steps
}.

(** ** Counterexamples *)

Record CexNode : Type := mkNode {
  n_store : gmap string json; n_pending : list string; n_done : list string
}.

Record CexStep : Type := mkCex {
  x_state_index : nat;
  x_transition : option string;
  x_nodes : list (string * CexNode)
}.

Record JointVerdict : Type := mkVerdict {
  jv_formula : string;
  jv_satisfied : bool;
  jv_violation_path : list nat;
  jv_counterexample : list CexStep
}.

Record JointReport : Type := mkJReport {
  jr_verified : bool;
  jr_component_count : nat;
  jr_component_ids : list string;
  jr_formulas : list string;
  jr_verdicts : list JointVerdict;
  jr_state_count : nat;
  jr_edge_count : nat;
  jr_deadlock_count : nat;
  jr_mode : string
}.

Definition failed_formulas (r : JointReport) : list string :=
  jv_formula <$> filter (fun v => jv_satisfied v = false) (jr_verdicts r).

(** The inner [for] of [_bfs_path_outside]: either a path is returned or the
    loop goes on with more visited states and a longer queue. *)
Fixpoint bfs_scan (sat : gset nat) (path : list nat) (succs : list nat) (visited : gset nat)
  (queue : list (nat * list nat)) : list nat + (gset nat * list (nat * list nat)) :=
  match succs with
  | [] => inr (visited, queue)
  | nxt :: succs' =>
      if decide (nxt ∈ visited) then bfs_scan sat path succs' visited queue
      else if decide (nxt ∉ sat) then inl (path ++ [nxt])
      else bfs_scan sat path succs' ({[nxt]} ∪ visited) (queue ++ [(nxt, path ++ [nxt])])
  end.

(** [while queue]: every round takes out a queue entry, and each state enters
    the queue once. *)
Fixpoint bfs_loop (fuel : nat) (es : list (nat * list nat)) (sat visited : gset nat)
  (queue : list (nat * list nat)) : option (list nat) :=
  match fuel with
  | 0 => None
  | S fuel' =>
      match queue with
      | [] => Some []
      | (sid, path) :: queue' =>
          match bfs_scan sat path (default [] (alookup sid es)) visited queue' with
          | inl p => Some p
          | inr (visited', queue'') => bfs_loop fuel' es sat visited' queue''
          end
      end
  end.

(** Only states in [sat] are queued, besides the initial one. *)
Definition _bfs_path_outside (es : list (nat * list nat)) (sat : gset nat) : list nat :=
  if decide ((0 ∉ sat) ∧ sat ≠ ∅) then [0]
  else default [] (bfs_loop (S (S (size sat))) es sat {[0]} [(0, [0])]).

(** [for sid in range(len(model.states))] of [_witness_violation_path]. *)
Fixpoint probe_path (m : ExplorationResult) (a : JointAdapter) (probe : Expr) (sid : nat)
  (sts : list State) : res (option (list nat)) :=
  match sts with
  | [] => Ok None
  | st :: sts' =>
      b ← eval_state_expr probe st a;
      match (b : bool), path_to m sid with
      | false, (_ :: _) as p => Ok (Some p)
      | _, _ => probe_path m a probe (S sid) sts'
      end
  end.

Definition probe_of (e : Expr) : Expr :=
  match e with
  | Ctl op c => if String.eqb op "AG" then c else e
  | _ => e
  end.

Definition _witness_violation_path (m : ExplorationResult) (a : JointAdapter) (e : Expr)
  (sat : gset nat) : res (list nat) :=
  if decide (0 ∈ sat) then Ok []
  else
    let first := if decide (sat = ∅) then [] else _bfs_path_outside (edges m) sat in
    match first with
    | _ :: _ => Ok first
    | [] =>
        found ← (if has_ctl_nodes (probe_of e) then Ok None
                 else probe_path m a (probe_of e) 0 (states m));
        match found with
        | Some p => Ok p
        | None =>
            match _bfs_path_outside (edges m) sat with
            | [] => Ok [0]
            | p => Ok p
            end
        end
    end.

(** The snapshots of a path; [prev] is the element before. *)
Fixpoint project_counterexample (a : JointAdapter) (m : ExplorationResult) (prev : option nat)
  (path : list nat) : res (list CexStep) :=
  match path with
  | [] => Ok []
  | sid :: path' =>
      match states m !! sid with
      | None => project_counterexample a m (Some sid) path'
      | Some st =>
          joint ← joint_state a st;
          rest ← project_counterexample a m (Some sid) path';
          let nodes := (fun ic => (ic.1, mkNode (store ic.2) (pending ic.2) (done_ ic.2)))
                       <$> zip (js_ids joint) (js_components joint) in
          let transition :=
            match prev, predecessors m !! sid with
            | Some p, Some (q, label) => if decide (q = p) then Some label else None
            | _, _ => None
            end in
          Ok (mkCex sid transition nodes :: rest)
      end
  end.

(** The body of [for formula_str in formulas]. *)
Definition joint_check (a : JointAdapter) (m : ExplorationResult) (project : bool)
  (formula : string) : res JointVerdict :=
  expr ← parse_expr formula;
  sat ← check_ctl expr m a;
  if decide (0 ∈ (sat : gset nat)) then Ok (mkVerdict formula true [] [])
  else
    path ← _witness_violation_path m a expr sat;
    cex ← (if project then project_counterexample a m None path else Ok []);
    Ok (mkVerdict formula false path cex).

Definition joint_verify (fuel : nat) (components : list C) (formulas : list string)
  (component_ids : option (list string)) (max_depth : nat) (mode : string) (project : bool)
  : option (res JointReport) :=
  match from_components components component_ids with
  | Raise ex => Some (Raise ex)
  | Ok adapter =>
      match explorer_run (K:=K) fuel adapter max_depth mode with
      | None => None
      | Some (Raise ex) => Some (Raise ex)
      | Some (Ok (m, adapter')) =>
          Some (
            verdicts ← mapM (joint_check adapter' m project) formulas;
            Ok (mkJReport (forallb jv_satisfied verdicts) (length components) (j_ids adapter')
                  formulas verdicts (length (states m)) (sum_list (length <$> (edges m).*2))
                  (length (deadlocks m)) "monolithic"))
      end
  end.
End joint.
Arguments JointAdapter K C : clear implicits.

(** ** The joint product is the interleaving of its components

    The namespaced projection is injective when no id, dotted, is a prefix of
    another one; then the memo always gives back the right tuple, the joint
    adapter keeps the explorer's contract, and its transitions are exactly the
    moves of one component. *)

From S2P Require Import Prelude PyVal State Explorer.
From S2P Require Import CtlSyntax CtlParse Ctl CtlSpec Report.
From stdpp Require Import base gmap strings list fin_maps fin_sets relations pretty.
From Stdlib Require Import Lia.

(** ** Prefixes *)

Lemma strip_prefix_app p s : str_strip_prefix p (p +:+ s) = Some s.
Proof. induction p as [|c p IH]; simpl; [done|]. by rewrite Ascii.eqb_refl. Qed.

Lemma strip_prefix_some p s r : str_strip_prefix p s = Some r → s = p +:+ r.
Proof.
  revert s. induction p as [|c p IH]; intros s; simpl; [by intros [= ->]|].
  destruct s as [|d s]; [done|]. destruct (Ascii.eqb c d) eqn:E; [|done].
  apply Ascii.eqb_eq in E as ->. intros ->%IH. done.
Qed.

(** Two prefixes of one string are comparable. *)
Lemma strip_prefix_comparable p q s r :
  str_strip_prefix p (q +:+ s) = Some r →
  is_Some (str_strip_prefix p q) ∨ is_Some (str_strip_prefix q p).
Proof.
  revert q. induction p as [|c p IH]; intros [|d q]; simpl; [eauto..|].
  destruct (Ascii.eqb c d) eqn:E; [|done]. apply Ascii.eqb_eq in E as ->.
  rewrite Ascii.eqb_refl. apply IH.
Qed.

#[export] Instance append_inj p : Inj (=) (=) (String.append p).
Proof. intros s t. apply str_app_inj_l. Qed.

Definition clash (a b : string) : bool :=
  bool_decide (is_Some (str_strip_prefix (dotted a) (dotted b))) ||
  bool_decide (is_Some (str_strip_prefix (dotted b) (dotted a))).

(** No dotted id is a prefix of another one. *)
Fixpoint prefix_free (ids : list string) : bool :=
  match ids with
  | [] => true
  | a :: ids' => forallb (fun b => negb (clash a b)) ids' && prefix_free ids'
  end.

Lemma clash_sym a b : clash a b = clash b a.
Proof. unfold clash. apply orb_comm. Qed.

Lemma clash_false a b k : clash a b = false → str_strip_prefix (dotted a) (dotted b +:+ k) = None.
Proof.
  intros [H1 H2]%orb_false_iff. rewrite bool_decide_eq_false in H1, H2.
  destruct (str_strip_prefix (dotted a) (dotted b +:+ k)) as [r|] eqn:E; [exfalso|done].
  apply strip_prefix_comparable in E. tauto.
Qed.

Lemma prefix_free_cons a ids :
  prefix_free (a :: ids) = true ↔ (∀ b, b ∈ ids → clash a b = false) ∧ prefix_free ids = true.
Proof.
  simpl. rewrite andb_true_iff, forallb_forall. setoid_rewrite <- list_elem_of_In.
  by setoid_rewrite negb_true_iff.
Qed.

(** ** What the projection shows of each component *)

(** A key under a prefix that clashes with no id is left alone. *)
Lemma project_store_other cid ids js acc k :
  (∀ b, b ∈ ids → clash cid b = false) →
  store (foldl project_one acc (zip ids js)) !! (dotted cid +:+ k) =
  store acc !! (dotted cid +:+ k).
Proof.
  revert js acc. induction ids as [|b ids IH]; intros [|s js] acc Hc; simpl; [done..|].
  rewrite IH by (intros; apply Hc; by right). simpl. apply lookup_union_r.
  apply lookup_kmap_None; [apply _|]. intros k' Hk'. exfalso.
  assert (str_strip_prefix (dotted cid) (dotted b +:+ k') = None) as Hn
    by (apply clash_false, Hc; left).
  rewrite <- Hk', strip_prefix_app in Hn. done.
Qed.

Lemma project_store_at ids js acc i cid s k :
  prefix_free ids = true → ids !! i = Some cid → js !! i = Some s →
  store (foldl project_one acc (zip ids js)) !! (dotted cid +:+ k) =
  store s !! k ∪ store acc !! (dotted cid +:+ k).
Proof.
  revert js acc i. induction ids as [|b ids IH]; intros [|s' js] acc i Hpf Hi Hs; [done..|].
  apply prefix_free_cons in Hpf as [Hb Hpf].
  destruct i as [|i]; simpl in Hi, Hs; cbn [zip zip_with foldl].
  - simplify_eq. rewrite project_store_other by done. simpl.
    by rewrite lookup_union, lookup_kmap by apply _.
  - rewrite (IH js _ i) by done. f_equal. simpl. apply lookup_union_r.
    apply lookup_kmap_None; [apply _|]. intros k' Hk'. exfalso.
    assert (str_strip_prefix (dotted cid) (dotted b +:+ k') = None) as Hn.
    { apply clash_false. rewrite clash_sym. apply Hb. by eapply list_elem_of_lookup_2. }
    rewrite <- Hk', strip_prefix_app in Hn. done.
Qed.

Lemma project_store ids js i cid s k :
  prefix_free ids = true → ids !! i = Some cid → js !! i = Some s →
  store (_project js ids) !! (dotted cid +:+ k) = store s !! k.
Proof.
  intros Hpf Hi Hs. unfold _project. rewrite (project_store_at _ _ _ i cid s) by done.
  simpl. rewrite lookup_empty. by destruct (store s !! k).
Qed.

(** The three lists of a state. *)
Inductive field : Type := FPending | FDone | FEvents.

Definition get (f : field) : State → list string :=
  match f with FPending => pending | FDone => done_ | FEvents => events end.

Definition namespaced (cid : string) (l : list string) : list string :=
  String.append (dotted cid) <$> l.

Lemma project_list_acc f ids js acc :
  get f (foldl project_one acc (zip ids js)) =
  get f acc ++ mjoin (zip_with (fun cid s => namespaced cid (get f s)) ids js).
Proof.
  revert js acc. induction ids as [|cid ids IH]; intros [|s js] acc; simpl;
    [by rewrite app_nil_r..|]. rewrite IH.
  by destruct f; simpl; rewrite <- (assoc_L (++)).
Qed.

Lemma project_list f ids js :
  get f (_project js ids) = mjoin (zip_with (fun cid s => namespaced cid (get f s)) ids js).
Proof. unfold _project. rewrite project_list_acc. by destruct f. Qed.

Lemma strip_namespaced_self cid l :
  omap (str_strip_prefix (dotted cid)) (namespaced cid l) = l.
Proof.
  unfold namespaced. induction l as [|x l IH]; simpl; [done|]. rewrite strip_prefix_app.
  f_equal. exact IH.
Qed.

Lemma strip_namespaced_other a b l :
  clash a b = false → omap (str_strip_prefix (dotted a)) (namespaced b l) = [].
Proof.
  unfold namespaced. intros Hc. induction l as [|x l IH]; simpl; [done|].
  rewrite clash_false by done. exact IH.
Qed.

Lemma strip_namespaced_others f cid ids js :
  (∀ b, b ∈ ids → clash cid b = false) →
  omap (str_strip_prefix (dotted cid))
    (mjoin (zip_with (fun cid s => namespaced cid (get f s)) ids js)) = [].
Proof.
  revert js. induction ids as [|b ids IH]; intros [|s js] Hc; simpl; [done..|].
  rewrite omap_app, strip_namespaced_other by (apply Hc; left).
  apply IH. intros; apply Hc; by right.
Qed.

(** Stripping a component's prefix from the projection gives its list back. *)
Lemma project_list_strip f ids js i cid s :
  prefix_free ids = true → ids !! i = Some cid → js !! i = Some s →
  omap (str_strip_prefix (dotted cid)) (get f (_project js ids)) = get f s.
Proof.
  rewrite project_list. revert js i.
  induction ids as [|b ids IH]; intros [|s' js] i Hpf Hi Hs; [done..|].
  apply prefix_free_cons in Hpf as [Hb Hpf]. simpl. rewrite omap_app.
  destruct i as [|i]; simpl in Hi, Hs.
  - simplify_eq. rewrite strip_namespaced_self, strip_namespaced_others by done.
    apply app_nil_r.
  - rewrite (IH js i), strip_namespaced_other; [done| |done..].
    rewrite clash_sym. apply Hb. by eapply list_elem_of_lookup_2.
Qed.

Lemma project_list_elem f ids js i cid s x :
  prefix_free ids = true → ids !! i = Some cid → js !! i = Some s →
  dotted cid +:+ x ∈ get f (_project js ids) ↔ x ∈ get f s.
Proof.
  intros Hpf Hi Hs. rewrite <- (project_list_strip f ids js i cid s) by done.
  rewrite list_elem_of_omap. split.
  - intros Hx. exists (dotted cid +:+ x). split; [done|apply strip_prefix_app].
  - intros (y & Hy & ->%strip_prefix_some). done.
Qed.

Lemma project_inj ids js js' :
  prefix_free ids = true → length js = length ids → length js' = length ids →
  _project js ids = _project js' ids → js = js'.
Proof.
  intros Hpf Hl Hl' Heq. apply list_eq_same_length with (length ids); [done|done|].
  intros i s s' Hi Hs Hs'.
  destruct (lookup_lt_is_Some_2 ids i Hi) as [cid Hcid].
  assert (∀ f, get f s = get f s') as Hget.
  { intros f. rewrite <- (project_list_strip f ids js i cid s), Heq by done.
    by apply (project_list_strip f ids js' i cid s'). }
  assert (store s = store s') as Hst.
  { apply map_eq. intros k. rewrite <- (project_store ids js i cid s), Heq by done.
    by apply (project_store ids js' i cid s'). }
  pose proof (Hget FPending). pose proof (Hget FDone). pose proof (Hget FEvents).
  destruct s, s'; simpl in *. by f_equal.
Qed.

Lemma project_canonical ids js : Forall canonical js → canonical (_project js ids).
Proof.
  unfold _project. assert (canonical (mkState ∅ [] [] [])) as Hacc by apply map_Forall_empty.
  revert Hacc. generalize (mkState ∅ [] [] []) as acc. intros acc Hacc Hf. revert ids acc Hacc.
  induction Hf as [|s js Hs Hf IH]; intros [|cid ids] acc Hacc; simpl; [done..|].
  apply IH. intros k v [Hk|[_ Hk]]%lookup_union_Some_raw; [|by apply (Hacc k)].
  apply lookup_kmap_Some in Hk as (k' & -> & Hk); [|apply _]. by apply (Hs k').
Qed.

(** ** The interleaving *)

Section interleaving.
Context {K : Type} `{InjDigest K} {C : Type} `{LawfulComponent C}.
Implicit Types (a : JointAdapter K C) (joint : list State).

(** One component moves, the others stay. *)
Definition jmove (comps : list C) (ids : list string) joint (l : string) joint' : Prop :=
  ∃ i c cid s l' s', comps !! i = Some c ∧ ids !! i = Some cid ∧ joint !! i = Some s ∧
    (l', s') ∈ comp_post c s ∧ l = cid +:+ ":" +:+ l' ∧ joint' = <[i := s']> joint.

(** The product of the components: tuples reached in [n] moves. *)
Inductive jsteps (comps : list C) (ids : list string) : nat → list State → list State → Prop :=
| jsteps_refl joint : jsteps comps ids 0 joint joint
| jsteps_snoc n joint joint' joint'' l :
    jsteps comps ids n joint joint' → jmove comps ids joint' l joint'' →
    jsteps comps ids (S n) joint joint''.

Definition joint_ok a joint : Prop := Forall2 comp_known (j_components a) joint.

Definition memo_ok a : Prop :=
  Forall (fun hj => hj.1 = full_hash (j_ids a) hj.2 ∧ joint_ok a hj.2) (j_memo a).

Definition joint_wf a : Prop :=
  Forall comp_wf (j_components a) ∧ length (j_ids a) = length (j_components a) ∧
  prefix_free (j_ids a) = true ∧ memo_ok a.

Lemma joint_ok_canonical a joint : joint_ok a joint → Forall canonical joint.
Proof.
  unfold joint_ok. induction 1 as [|c s comps joint Hk _ IH]; constructor; [|done].
  by eapply comp_canonical.
Qed.

Lemma project_ok_inj a joint joint' :
  joint_wf a → joint_ok a joint → joint_ok a joint' →
  _project joint (j_ids a) = _project joint' (j_ids a) → joint = joint'.
Proof.
  intros (_ & Hlen & Hpf & _) Hj Hj' Heq.
  pose proof (Forall2_length _ _ _ Hj). pose proof (Forall2_length _ _ _ Hj').
  apply (project_inj (j_ids a)); [done|congruence..|done].
Qed.

Lemma full_hash_inj a joint joint' :
  joint_wf a → joint_ok a joint → joint_ok a joint' →
  full_hash (K:=K) (j_ids a) joint = full_hash (j_ids a) joint' → joint = joint'.
Proof.
  intros Hwf Hj Hj' Heq. apply (project_ok_inj a); [done..|].
  apply hash_full_inj in Heq; [done|..]; by eapply project_canonical, joint_ok_canonical.
Qed.

(** Every entry of the memo is found again. *)
Lemma memo_lookup a joint :
  joint_wf a → joint_ok a joint → (full_hash (j_ids a) joint, joint) ∈ j_memo a →
  alookup (full_hash (j_ids a) joint) (j_memo a) = Some joint.
Proof.
  intros Hwf Hj Hin. destruct (alookup _ _) as [joint'|] eqn:E.
  - apply alookup_elem_of in E. pose proof Hwf as (_ & _ & _ & Hm).
    unfold memo_ok in Hm. rewrite Forall_forall in Hm. destruct (Hm _ E) as [Hh Hj']. simpl in *.
    f_equal. symmetry. by apply (full_hash_inj a).
  - apply alookup_None in E. destruct E. by apply (list_elem_of_fmap_2 fst _ _ Hin).
Qed.

Definition joint_known a (st : State) : Prop :=
  ∃ joint, joint_ok a joint ∧ st = _project joint (j_ids a) ∧
           (full_hash (j_ids a) joint, joint) ∈ j_memo a.

Fixpoint comp_moves joint (i : nat) (rest : list ((C * string) * State))
  : list (string * list State) :=
  match rest with
  | [] => []
  | ((comp, cid), st) :: rest' =>
      ((fun ls => (cid +:+ ":" +:+ ls.1, <[i := ls.2]> joint)) <$> comp_post comp st) ++
      comp_moves joint (S i) rest'
  end.

Definition post_moves a joint : list (string * list State) :=
  comp_moves joint 0 (zip (zip (j_components a) (j_ids a)) joint).

Lemma joint_moves_ok joint i rest :
  Forall (fun x => comp_wf x.1.1 ∧ comp_known x.1.1 x.2) rest →
  joint_moves joint i rest = Ok (comp_moves joint i rest).
Proof.
  intros Hf. revert i. induction Hf as [|[[c cid] s] rest [Hw Hk] _ IH]; intros i; simpl; [done|].
  simpl in *. destruct (comp_successors c s Hw Hk) as [-> _]. simpl. by rewrite IH.
Qed.

Lemma zip_components a joint :
  joint_wf a → joint_ok a joint →
  Forall (fun x => comp_wf x.1.1 ∧ comp_known x.1.1 x.2)
    (zip (zip (j_components a) (j_ids a)) joint).
Proof.
  intros (Hw & Hlen & _) Hj. apply Forall_lookup. intros i [[c cid] s] Hi.
  apply lookup_zip_Some in Hi as [[Hc _]%lookup_zip_Some Hs]. simpl in *.
  split; [by eapply Forall_lookup_1|by eapply Forall2_lookup_lr].
Qed.

Lemma elem_of_comp_moves joint i rest l joint' :
  (l, joint') ∈ comp_moves joint i rest ↔
  ∃ k c cid s l' s', rest !! k = Some ((c, cid), s) ∧ (l', s') ∈ comp_post c s ∧
    l = cid +:+ ":" +:+ l' ∧ joint' = <[i + k := s']> joint.
Proof.
  revert i. induction rest as [|[[c cid] s] rest IH]; intros i; simpl.
  { split; [set_solver|]. intros (k & ? & ? & ? & ? & ? & Hk & _). by rewrite lookup_nil in Hk. }
  rewrite elem_of_app, list_elem_of_fmap, IH. split.
  - intros [([l' s'] & [= -> ->] & Hin)|(k & c' & cid' & s0 & l' & s' & Hk & Hin & -> & ->)].
    + exists 0, c, cid, s, l', s'. rewrite Nat.add_0_r. done.
    + exists (S k), c', cid', s0, l', s'. split_and!; [done..|]. f_equal. lia.
  - intros ([|k] & c' & cid' & s0 & l' & s' & Hk & Hin & -> & ->); simpl in Hk.
    + injection Hk as <- <- <-. left. exists (l', s'). rewrite Nat.add_0_r. done.
    + right. exists k, c', cid', s0, l', s'. split_and!; [done..|]. f_equal. lia.
Qed.

Lemma elem_of_post_moves a joint l joint' :
  (l, joint') ∈ post_moves a joint ↔ jmove (j_components a) (j_ids a) joint l joint'.
Proof.
  unfold post_moves. rewrite elem_of_comp_moves. unfold jmove. split.
  - intros (k & c & cid & s & l' & s' & Hk & Hin & -> & ->).
    apply lookup_zip_Some in Hk as [[Hc Hi]%lookup_zip_Some Hs]. simpl in *.
    exists k, c, cid, s, l', s'. done.
  - intros (k & c & cid & s & l' & s' & Hc & Hi & Hs & Hin & -> & ->).
    exists k, c, cid, s, l', s'. split_and!; [|done..].
    apply lookup_zip_Some. split; [|done]. by apply lookup_zip_Some.
Qed.

Lemma jmove_ok a joint l joint' :
  joint_wf a → joint_ok a joint → jmove (j_components a) (j_ids a) joint l joint' →
  joint_ok a joint'.
Proof.
  intros (Hw & _) Hj (i & c & cid & s & l' & s' & Hc & _ & Hs & Hin & _ & ->).
  unfold joint_ok in *. rewrite <- (list_insert_id (j_components a) i c Hc).
  apply Forall2_insert; [done|].
  destruct (comp_successors c s) as [_ Hf].
  - by eapply Forall_lookup_1.
  - by eapply Forall2_lookup_lr.
  - rewrite Forall_forall in Hf. by apply (Hf _ Hin).
Qed.

Lemma jsteps_ok a n joint joint' :
  joint_wf a → joint_ok a joint → jsteps (j_components a) (j_ids a) n joint joint' →
  joint_ok a joint'.
Proof.
  intros Hwf Hj Hs. revert Hj. induction Hs as [|n j j' j'' l Hs IH Hm]; intros Hj; [done|].
  eapply jmove_ok; [done| |exact Hm]. by apply IH.
Qed.

(** ** Filling the memo *)

Lemma remember_all_fields a joints :
  j_components (foldl remember a joints) = j_components a ∧
  j_ids (foldl remember a joints) = j_ids a.
Proof.
  revert a. induction joints as [|j joints IH]; intros a; simpl; [done|].
  exact (IH (remember a j)).
Qed.

Lemma remember_all_memo a joints :
  Forall (fun j => joint_ok a j) joints → joint_wf a →
  joint_wf (foldl remember a joints) ∧
  (∀ x, x ∈ j_memo a → x ∈ j_memo (foldl remember a joints)) ∧
  Forall (fun j => (full_hash (j_ids a) j, j) ∈ j_memo (foldl remember a joints)) joints.
Proof.
  intros Hf. revert a Hf. induction joints as [|j joints IH]; intros a Hf Hwf; simpl.
  { split_and!; [done|done|constructor]. }
  inversion Hf as [|? ? Hj Hjs]; subst.
  destruct (IH (remember a j)) as (Hw & Hold & Hnew).
  - done.
  - destruct Hwf as (Hcw & Hlen & Hpf & Hm). split_and!; [done..|].
    constructor; [by split|exact Hm].
  - split_and!; [done| |].
    + intros x Hx. apply Hold. simpl. by right.
    + constructor; [|done]. apply Hold. simpl. left.
Qed.

Lemma joint_known_mono a joints st :
  Forall (fun j => joint_ok a j) joints → joint_wf a → joint_known a st →
  joint_known (foldl remember a joints) st.
Proof.
  intros Hf Hwf (joint & Hj & -> & Hin).
  destruct (remember_all_memo a joints Hf Hwf) as (_ & Hold & _).
  destruct (remember_all_fields a joints) as [Ec Ei].
  exists joint. unfold joint_ok. rewrite Ec, Ei. split_and!; [done..|]. by apply Hold.
Qed.

Definition joint_post a (st : State) : list (string * State) :=
  match alookup (hash_with HFull st) (j_memo a) with
  | Some joint => (fun lj => (lj.1, _project lj.2 (j_ids a))) <$> post_moves a joint
  | None => []
  end.

Lemma joint_post_at a joint :
  joint_wf a → joint_ok a joint → (full_hash (j_ids a) joint, joint) ∈ j_memo a →
  joint_post a (_project joint (j_ids a)) =
  (fun lj => (lj.1, _project lj.2 (j_ids a))) <$> post_moves a joint.
Proof.
  intros Hwf Hj Hin. unfold joint_post. fold (full_hash (K:=K) (j_ids a) joint).
  by rewrite (memo_lookup a joint).
Qed.

Lemma post_moves_ext a a' joint :
  j_components a = j_components a' → j_ids a = j_ids a' → post_moves a joint = post_moves a' joint.
Proof. intros Ec Ei. unfold post_moves. by rewrite Ec, Ei. Qed.

Lemma post_moves_ok a joint :
  joint_wf a → joint_ok a joint → Forall (fun j => joint_ok a j) (post_moves a joint).*2.
Proof.
  intros Hwf Hj. apply Forall_forall. intros j ([l j'] & -> & Hin)%list_elem_of_fmap.
  apply elem_of_post_moves in Hin. by eapply jmove_ok.
Qed.

#[export] Program Instance joint_lawful : LawfulAdapter (JointAdapter K C) := {
  adapter_wf := joint_wf;
  known := joint_known;
  post := joint_post;
  start a := _project (comp_start <$> j_components a) (j_ids a)
}.
Next Obligation.
  intros a Hwf. simpl. unfold joint_initial_state.
  assert (joint_ok a (comp_start <$> j_components a)) as Hj.
  { destruct Hwf as [Hw _]. unfold joint_ok. apply Forall2_fmap_r, Forall_Forall2_diag.
    eapply Forall_impl; [exact Hw|]. intros c Hc. by apply comp_initial. }
  rewrite (mapM_res_map _ comp_start).
  2: { intros c Hc. destruct Hwf as [Hw _]. rewrite Forall_forall in Hw.
       by apply comp_initial, Hw. }
  eexists. split; [reflexivity|].
  destruct (remember_all_memo a [comp_start <$> j_components a]) as (Hw & _ & Hnew);
    [by constructor|done|]. simpl in *. split; [done|].
  eexists. split_and!; [exact Hj|reflexivity|]. simpl. left.
Qed.
Next Obligation.
  intros a st Hwf Hk. destruct Hk as (joint & Hj & -> & Hin). simpl.
  unfold joint_successors, _lookup_joint. fold (full_hash (K:=K) (j_ids a) joint).
  rewrite memo_lookup by done. simpl. unfold moves_of.
  rewrite joint_moves_ok by (by apply zip_components). simpl.
  fold (post_moves a joint). rewrite joint_post_at by done.
  pose proof (post_moves_ok a joint Hwf Hj) as Hok.
  destruct (remember_all_memo a _ Hok Hwf) as (Hw & Hold & Hnew).
  destruct (remember_all_fields a (post_moves a joint).*2) as [Ec Ei].
  eexists. split_and!; [reflexivity|done| |].
  - intros s Hs. split; [by apply joint_known_mono|]. destruct Hs as (j & Hj' & -> & Hin').
    rewrite joint_post_at by done. rewrite <- Ei at 1. rewrite joint_post_at; [|done|..].
    + by rewrite (post_moves_ext _ a j Ec Ei), Ei.
    + unfold joint_ok. by rewrite Ec.
    + rewrite Ei. by apply Hold.
  - apply Forall_fmap, Forall_forall. intros [l j] Hlj. simpl.
    rewrite Forall_forall in Hok, Hnew.
    assert (j ∈ (post_moves a joint).*2) as Hj2 by by apply (list_elem_of_fmap_2 snd _ _ Hlj).
    exists j. unfold joint_ok. rewrite Ec, Ei. split_and!; [by apply Hok|done|by apply Hnew].
Qed.

(** ** The memo during a run *)

Lemma joint_run_fields fuel a D mode r a' :
  explorer_run (K:=K) fuel a D mode = Some (Ok (r, a')) →
  j_components a' = j_components a ∧ j_ids a' = j_ids a.
Proof.
  intros Hrun.
  apply (explorer_run_preserves
           (fun b => j_components b = j_components a ∧ j_ids b = j_ids a) fuel a D mode r a');
    [| |done|done].
  - intros b s b' Hi Hb. simpl in Hi. unfold joint_initial_state in Hi. inv_ok. by simplify_eq.
  - intros b s l b' Hs [Hc Hi]. simpl in Hs. unfold joint_successors in Hs. inv_ok. simplify_eq.
    destruct (remember_all_fields b a1.*2) as [-> ->]. done.
Qed.

Lemma steps_jsteps a n joint0 s :
  joint_wf a → joint_ok a joint0 → known a s →
  steps a n (_project joint0 (j_ids a)) s →
  ∃ joint, jsteps (j_components a) (j_ids a) n joint0 joint ∧ joint_ok a joint ∧
           s = _project joint (j_ids a).
Proof.
  intros Hwf Hj0 Hk Hs. remember (_project joint0 (j_ids a)) as s0 eqn:Hs0.
  revert Hs0 Hk. induction Hs as [s|n s s' s'' Hs IH Hk' [l Hl]]; intros -> Hk.
  { exists joint0. split_and!; [constructor|done|done]. }
  destruct (IH eq_refl Hk') as (joint & Hjs & Hj & ->).
  destruct Hk' as (joint' & Hj' & Heq & Hin).
  assert (joint = joint') as <- by by eapply project_ok_inj.
  simpl in Hl. rewrite joint_post_at in Hl by done.
  apply list_elem_of_fmap in Hl as ([l' joint''] & [= -> ->] & Hm).
  apply elem_of_post_moves in Hm. simpl.
  exists joint''. split_and!; [by econstructor|by eapply jmove_ok|done].
Qed.

(** A finished exploration of the product lists every tuple the components
    reach within the bound, and nothing else. *)
Lemma joint_listed_iff a e D joint0 (s : State) :
  joint_wf a → joint_ok a joint0 →
  explored (hash_with (K:=K) HFull) (_project joint0 (j_ids a)) D a e (length (e_states e)) →
  s ∈ e_states e ↔ ∃ n joint, n ≤ D ∧ jsteps (j_components a) (j_ids a) n joint0 joint ∧
                              s = _project joint (j_ids a).
Proof.
  intros Hwf Hj0 Hx. split.
  - intros [i Hi]%list_elem_of_lookup.
    destruct (explored_listed _ _ _ _ _ _ _ _ Hx Hi) as (Hk & n & Hn & Hs).
    destruct (steps_jsteps _ _ _ _ Hwf Hj0 Hk Hs) as (joint & Hjs & _ & ->). eauto.
  - intros (n & joint & Hn & Hjs & ->).
    assert (joint_ok a joint ∧ ∃ i d, e_states e !! i = Some (_project joint (j_ids a)) ∧
              e_depths e !! i = Some d ∧ d ≤ n) as (_ & i & d & Hi & _).
    2: { by eapply list_elem_of_lookup_2. }
    induction Hjs as [joint0|n joint0 joint joint' l Hjs IH Hm].
    { split; [done|]. exists 0, 0. split_and!;
        [apply (x_root _ _ _ _ _ _ Hx)|apply (x_droot _ _ _ _ _ _ Hx)|lia]. }
    destruct IH as (Hj & i & d & Hi & Hd & Hle); [first [done|lia]..|].
    pose proof (jmove_ok _ _ _ _ Hwf Hj Hm) as Hj'. split; [done|].
    destruct (explored_listed _ _ _ _ _ _ _ _ Hx Hi) as ((joint1 & Hj1 & Heq & Hin) & _).
    assert (joint = joint1) as <- by by eapply project_ok_inj.
    destruct (x_cover _ _ _ _ _ _ Hx i (_project joint (j_ids a)) d l (_project joint' (j_ids a)))
      as (j & sj & dj & Hj2 & Hh & Hdj & Hle'); [by eapply lookup_lt_Some|done|done|lia| |].
    { simpl. rewrite joint_post_at by done. apply list_elem_of_fmap.
      exists (l, joint'). split; [done|]. by apply elem_of_post_moves. }
    exists j, dj. split_and!; [|done|lia]. rewrite Hj2. f_equal.
    destruct (explored_listed _ _ _ _ _ _ _ _ Hx Hj2) as ((joint2 & Hjok & -> & _) & _).
    apply hash_full_inj in Hh; [done|..]; by eapply project_canonical, joint_ok_canonical.
Qed.

(** ** Formulas on tuples *)

(** The truth of a state formula on a tuple, in the adapter that knows just
    this tuple. *)
Definition joint_holds (comps : list C) (ids : list string) (p : Expr) joint : res bool :=
  eval_state_expr p (_project joint ids) (remember (K:=K) (mkJA comps ids []) joint).

Lemma joint_lookup_known a joint :
  joint_wf a → joint_ok a joint → (full_hash (j_ids a) joint, joint) ∈ j_memo a →
  _lookup_joint a (_project joint (j_ids a)) = Ok joint.
Proof.
  intros Hwf Hj Hin. unfold _lookup_joint. fold (full_hash (K:=K) (j_ids a) joint).
  by rewrite (memo_lookup a joint).
Qed.

Lemma eval_state_ext {B1 B2} `{Adapter B1, Adapter B2} (b1 : B1) (b2 : B2) p st :
  enabled_steps b1 st = enabled_steps b2 st → eval_state_expr p st b1 = eval_state_expr p st b2.
Proof.
  intros Heq. induction p as [n v|c IH|l IHl r IHr|l IHl r IHr|op c IH|op l IHl r IHr]; simpl.
  - unfold _eval_predicate. by rewrite Heq.
  - by rewrite IH.
  - by rewrite IHl, IHr.
  - by rewrite IHl, IHr.
  - done.
  - done.
Qed.

Lemma joint_holds_eval a joint p :
  joint_wf a → joint_ok a joint → (full_hash (j_ids a) joint, joint) ∈ j_memo a →
  eval_state_expr p (_project joint (j_ids a)) a =
  joint_holds (j_components a) (j_ids a) p joint.
Proof.
  intros Hwf Hj Hin. apply eval_state_ext. simpl. unfold joint_enabled_steps.
  rewrite (joint_lookup_known a joint) by done. unfold _lookup_joint. simpl.
  by rewrite decide_True by done.
Qed.

(** ** A run of [joint_verify] *)

Lemma joint_state_known a st :
  joint_wf a → joint_known a st → ∃ j, joint_state a st = Ok j.
Proof.
  intros Hwf (joint & Hj & -> & Hin). unfold joint_state.
  rewrite joint_lookup_known by done. simpl. unfold make_joint.
  rewrite decide_True; [eauto|]. destruct Hwf as (_ & -> & _). symmetry.
  by eapply Forall2_length.
Qed.

Lemma project_counterexample_ok a m prev path :
  joint_wf a → Forall (joint_known a) (states m) →
  ∃ cex, project_counterexample a m prev path = Ok cex.
Proof.
  intros Hwf Hk. revert prev. induction path as [|sid path IH]; intros prev; simpl; [eauto|].
  destruct (states m !! sid) as [st|] eqn:Hs; [|apply IH].
  destruct (joint_state_known a st Hwf) as [j ->]; [by eapply Forall_lookup_1|].
  simpl. destruct (IH (Some sid)) as [cex ->]. simpl. eauto.
Qed.

Lemma probe_path_ok m a probe sid sts :
  has_ctl_nodes probe = false → ∃ p, probe_path m a probe sid sts = Ok p.
Proof.
  intros Hp. revert sid. induction sts as [|st sts IH]; intros sid; simpl; [eauto|].
  destruct (eval_state_ok probe st a Hp) as [b ->]. simpl.
  destruct b, (path_to m sid); eauto.
Qed.

Lemma witness_path_ok m a e sat : ∃ p, _witness_violation_path m a e sat = Ok p.
Proof.
  unfold _witness_violation_path. case_decide; [eauto|]. set (first := if decide (sat = ∅) then _ else _).
  destruct first as [|i first]; [|eauto].
  destruct (has_ctl_nodes (probe_of e)) eqn:Hp; simpl; [case_match; eauto|].
  destruct (probe_path_ok m a (probe_of e) 0 (states m) Hp) as [[p|] ->]; simpl; [eauto|].
  case_match; eauto.
Qed.

(** The verdict on one formula over an explored product. *)
Lemma joint_check_ok a m project f e :
  joint_wf a → Forall (joint_known a) (states m) → model_wf m → 0 < length (states m) →
  parse_expr f = Ok e →
  ∃ v, joint_check a m project f = Ok v ∧ jv_formula v = f ∧
       (jv_satisfied v = true ↔ holds a m e 0).
Proof.
  intros Hwf Hk Hm Hlen Hp. unfold joint_check, check_ctl. rewrite Hp. simpl.
  destruct (sat_denotes a m Hm e (parse_expr_ops _ _ Hp)) as (S & HS & Hd). rewrite HS. simpl.
  assert (0 ∈ S ↔ holds a m e 0) as Hzero by (rewrite (Hd 0); naive_solver).
  case_decide as Hin; [eexists; split_and!; [reflexivity|done|simpl; tauto]|].
  destruct (witness_path_ok m a e S) as [p ->]. simpl.
  destruct project; simpl.
  - destruct (project_counterexample_ok a m None p Hwf Hk) as [cex ->]. simpl.
    eexists. split_and!; [reflexivity|done|simpl]. split; [done|]. tauto.
  - eexists. split_and!; [reflexivity|done|simpl]. split; [done|]. tauto.
Qed.

Lemma joint_checks_ok a m project formulas :
  joint_wf a → Forall (joint_known a) (states m) → model_wf m → 0 < length (states m) →
  Forall (fun f => is_ok (parse_expr f) = true) formulas →
  ∃ vs, mapM (joint_check a m project) formulas = Ok vs ∧
    Forall2 (fun f v => jv_formula v = f ∧
      ∀ e, parse_expr f = Ok e → (jv_satisfied v = true ↔ holds a m e 0)) formulas vs.
Proof.
  intros Hwf Hk Hm Hlen Hf. induction Hf as [|f formulas Hp Hf (vs & Hvs & IH)].
  { exists []. split; [done|constructor]. }
  destruct (parse_expr f) as [e|] eqn:He; [|done].
  destruct (joint_check_ok a m project f e) as (v & Hv & Hvf & Hsat); [done..|].
  exists (v :: vs). simpl. rewrite Hv. simpl. rewrite Hvs. simpl.
  split; [done|]. constructor; [|done]. split; [done|].
  intros e' He'. assert (e' = e) as -> by congruence. exact Hsat.
Qed.

Lemma from_components_ok (comps : list C) ids :
  comps ≠ [] → length ids = length comps → NoDup ids → "" ∉ ids →
  from_components (K:=K) comps (Some ids) = Ok (mkJA comps ids []).
Proof.
  intros Hne Hlen Hnd Hem. unfold from_components. destruct comps as [|c comps]; [done|].
  rewrite !bool_decide_true by done. simpl. by rewrite (proj2 (inb_false _ _) Hem).
Qed.

Lemma joint_fresh_wf (comps : list C) ids :
  Forall comp_wf comps → length ids = length comps → prefix_free ids = true →
  joint_wf (mkJA comps ids []).
Proof. intros Hw Hlen Hpf. split_and!; [done..|]. constructor. Qed.

Lemma joint_start_ok a : joint_wf a → joint_ok a (comp_start <$> j_components a).
Proof.
  intros [Hw _]. unfold joint_ok. apply Forall2_fmap_r, Forall_Forall2_diag.
  eapply Forall_impl; [exact Hw|]. intros c Hc. by apply comp_initial.
Qed.

(** [AG p] over the explored product says [p] of every tuple within the bound. *)
Lemma joint_ag fuel (comps : list C) ids D r a' p :
  joint_wf (mkJA comps ids []) →
  explorer_run (K:=K) fuel (mkJA comps ids []) D "full" = Some (Ok (r, a')) →
  has_ctl_nodes p = false →
  joint_wf a' ∧ Forall (joint_known a') (states r) ∧
  (holds a' r (Ctl "AG" p) 0 ↔
   ∀ n joint, n ≤ D → jsteps comps ids n (comp_start <$> comps) joint →
     joint_holds comps ids p joint = Ok true).
Proof.
  intros Hwf Hrun Hp. destruct (joint_run_fields _ _ _ _ _ _ Hrun) as [Ec Ei]. simpl in Ec, Ei.
  assert (adapter_wf (mkJA comps ids [] : JointAdapter K C)) as Hawf by exact Hwf.
  pose proof (ag_listed _ _ _ _ _ _ p Hawf Hrun Hp) as Hag.
  assert (joint_wf a') as Hwf'.
  { exact (explorer_run_wf _ _ _ _ _ _ Hawf Hrun). }
  destruct (explorer_run_explored _ _ _ _ _ _ Hawf Hrun) as (m & e & [= <-] & -> & Hx).
  simpl states in *. pose proof (x_known _ _ _ _ _ _ Hx) as Hk.
  split_and!; [done|done|]. rewrite Hag. clear Hag.
  pose proof (joint_start_ok a' Hwf') as Hj0. rewrite Ec in Hj0.
  assert (explored (hash_with (K:=K) HFull) (_project (comp_start <$> comps) (j_ids a')) D a' e
            (length (e_states e))) as Hx' by (rewrite Ei; exact Hx).
  pose proof (fun s => joint_listed_iff a' e D (comp_start <$> comps) s Hwf' Hj0 Hx') as Hiff.
  assert (∀ joint, joint_ok a' joint → _project joint ids ∈ e_states e →
            eval_state_expr p (_project joint ids) a' = joint_holds comps ids p joint) as Hev.
  { intros joint Hj Hin. rewrite Forall_forall in Hk. apply Hk in Hin as (joint' & Hj' & Heq & Hm).
    rewrite <- Ei in Heq. assert (joint = joint') as <- by by eapply project_ok_inj.
    rewrite <- Ei, <- Ec. by apply joint_holds_eval. }
  rewrite Forall_forall. split.
  - intros Hall n joint Hn Hs. assert (_project joint ids ∈ e_states e) as Hin.
    { apply Hiff. exists n, joint. rewrite Ec, Ei. done. }
    rewrite <- Hev; [by apply Hall| |done].
    eapply jsteps_ok; [exact Hwf'|exact Hj0|]. rewrite Ec, Ei. exact Hs.
  - intros Hall s Hin. pose proof Hin as (n & joint & Hn & Hs & ->)%Hiff.
    pose proof (jsteps_ok _ _ _ _ Hwf' Hj0 Hs) as Hj. rewrite Ei in Hin |- *.
    rewrite Hev by done. rewrite Ec, Ei in Hs. by eapply Hall.
Qed.

(** ** The theorems *)

(** The transitions of the joint product: for a tuple the adapter has
    handed out, [successors] returns exactly the moves of one component with
    the others unchanged, labelled with the component's id, and every state it
    returns is looked up as its own tuple afterwards. *)
Theorem joint_interleaving a joint :
  joint_wf a → joint_ok a joint → (full_hash (j_ids a) joint, joint) ∈ j_memo a →
  ∃ l a', joint_successors a (_project joint (j_ids a)) = Ok (l, a') ∧
    (∀ lab s, (lab, s) ∈ l ↔ ∃ joint', jmove (j_components a) (j_ids a) joint lab joint' ∧
                                       s = _project joint' (j_ids a)) ∧
    (∀ lab joint', jmove (j_components a) (j_ids a) joint lab joint' →
       _lookup_joint a' (_project joint' (j_ids a)) = Ok joint').
Proof.
  intros Hwf Hj Hin. assert (joint_known a (_project joint (j_ids a))) as Hk by (by exists joint).
  assert (adapter_wf a) as Hawf by exact Hwf.
  assert (known a (_project joint (j_ids a))) as Hak by exact Hk.
  destruct (law_successors a _ Hawf Hak) as (a' & Hs & Hwf' & _ & Hf).
  simpl in Hs, Hwf'. exists (joint_post a (_project joint (j_ids a))), a'. split_and!; [done| |].
  - intros lab s. rewrite joint_post_at by done. rewrite list_elem_of_fmap. split.
    + intros ([l j] & [= -> ->] & Hm). apply elem_of_post_moves in Hm. eauto.
    + intros (j & Hm & ->). exists (lab, j). split; [done|]. by apply elem_of_post_moves.
  - intros lab joint' Hm. assert (joint_ok a joint') as Hj' by by eapply jmove_ok.
    assert (j_components a' = j_components a ∧ j_ids a' = j_ids a) as [Ec Ei].
    { unfold joint_successors in Hs. inv_ok. simplify_eq. apply remember_all_fields. }
    assert (joint_known a' (_project joint' (j_ids a))) as (j & Hjok & Heq & Hmem).
    { rewrite Forall_forall in Hf. apply (Hf (lab, _project joint' (j_ids a))).
      simpl. rewrite joint_post_at by done. apply list_elem_of_fmap. exists (lab, joint').
      split; [done|]. by apply elem_of_post_moves. }
    rewrite <- Ei in Heq |- *. assert (joint' = j) as ->; [|by apply joint_lookup_known].
    eapply project_ok_inj; [exact Hwf'| |done|done]. unfold joint_ok. by rewrite Ec.
Qed.

(** The report of a run whose exploration is given. *)
Lemma joint_verify_at fuel (comps : list C) ids formulas D project r a' :
  comps ≠ [] → length ids = length comps → NoDup ids → "" ∉ ids →
  prefix_free ids = true → Forall comp_wf comps →
  Forall (fun f => is_ok (parse_expr f) = true) formulas →
  explorer_run (K:=K) fuel (mkJA comps ids []) D "full" = Some (Ok (r, a')) →
  ∃ rep, joint_verify (K:=K) fuel comps formulas (Some ids) D "full" project = Some (Ok rep) ∧
    jr_formulas rep = formulas ∧ jr_verified rep = forallb jv_satisfied (jr_verdicts rep) ∧
    Forall2 (fun f v => jv_formula v = f ∧
      ∀ p, parse_expr f = Ok (Ctl "AG" p) → has_ctl_nodes p = false →
        (jv_satisfied v = true ↔
         ∀ n joint, n ≤ D → jsteps comps ids n (comp_start <$> comps) joint →
           joint_holds comps ids p joint = Ok true)) formulas (jr_verdicts rep).
Proof.
  intros Hne Hlen Hnd Hem Hpf Hw Hf Hr.
  pose proof (joint_fresh_wf comps ids Hw Hlen Hpf) as Hwf.
  assert (adapter_wf (mkJA comps ids [] : JointAdapter K C)) as Hawf by exact Hwf.
  unfold joint_verify. rewrite from_components_ok by done. rewrite Hr.
  destruct (joint_ag _ _ _ _ _ _ (Predicate "has" None) Hwf Hr eq_refl) as (Hwf' & Hk & _).
  destruct (joint_checks_ok a' r project formulas) as (vs & -> & Hvs); [done|done| | |done|].
  { exact (explorer_model_wf _ _ _ _ _ _ Hawf Hr). }
  { exact (explorer_nonempty _ _ _ _ _ _ Hawf Hr). }
  eexists. split_and!; [reflexivity|done|done|]. simpl.
  eapply Forall2_impl; [exact Hvs|]. intros f v [Hfv Hv]. split; [done|].
  intros p Hp Hc. rewrite (Hv _ Hp). by eapply joint_ag.
Qed.

Lemma joint_run_total (comps : list C) ids D :
  length ids = length comps → prefix_free ids = true → Forall comp_wf comps →
  ∃ fuel0, ∀ fuel, fuel0 ≤ fuel →
    ∃ r a', explorer_run (K:=K) fuel (mkJA comps ids []) D "full" = Some (Ok (r, a')).
Proof.
  intros Hlen Hpf Hw.
  assert (adapter_wf (mkJA comps ids [] : JointAdapter K C)) as Hawf by by apply joint_fresh_wf.
  exact (explorer_total (K:=K) (mkJA comps ids []) D "full" HFull Hawf eq_refl).
Qed.


(** The naming convention of joint formulas: under prefix-free ids,
    [has(id.k)], [pending(id.k)] and [done(id.k)] on the projected state speak
    about [k] in the state of the component [id], and of no other. *)
Theorem joint_namespacing a joint i cid s k :
  prefix_free (j_ids a) = true → j_ids a !! i = Some cid → joint !! i = Some s →
  let st := _project joint (j_ids a) in
  _eval_predicate "has" (Some (dotted cid +:+ k)) st a = bool_decide (is_Some (store s !! k)) ∧
  _eval_predicate "pending" (Some (dotted cid +:+ k)) st a = (k ∈? pending s) ∧
  _eval_predicate "done" (Some (dotted cid +:+ k)) st a = (k ∈? done_ s).
Proof.
  intros Hpf Hi Hs st. unfold _eval_predicate. simpl. unfold inb. split_and!.
  - subst st. by rewrite (project_store _ _ i cid s).
  - apply bool_decide_ext. apply (project_list_elem FPending _ _ i cid s k Hpf Hi Hs).
  - apply bool_decide_ext. apply (project_list_elem FDone _ _ i cid s k Hpf Hi Hs).
Qed.
End interleaving.
