(* ===== verification/BundleAdapter.v ===== *)
(** * Bundles as plans ([tm/verify/bundle_adapter.py], [tm/verify/spec.py])

    The offline model a bundle declares under [meta.verify], read from its
    mapping.  [other_str] is [str] on floats, lists and mappings, whose text
    the code never inspects. *)

From S2P Require Import Prelude PyVal PyConv Selectors State TraceMindAdapter Report.
From stdpp Require Import base gmap strings list fin_maps pretty.
From Stdlib Require Import Lia Ascii.

(** The part of [VerifySpec] and [AgentBundleBody] that is read. *)
Record VerifySpec : Type := mkVSpec {
  vs_initial_store : gmap string json;
  vs_initial_pending : list string;
  vs_changed_paths : list string;
  vs_invariants : list string;
  vs_properties : list PropertySpec
}.

Record AgentBundleBody : Type := mkBundle {
  bundle_id : string;
  bundle_meta : list (string * json)
}.

Section bundle.
Context (other_str : json → string).

#[local] Abbreviation py_str := (PyConv.py_str other_str).

(** [[str(x) for x in (raw.get(key) or [])]]. *)
Definition str_list (key : string) (m : list (string * json)) : res (list string) :=
  l ← py_iter (jor (jget key m) (JArr [])); Ok (py_str <$> (l : list json)).

Definition _noop (ctx : json) : res json := Ok ctx.

Fixpoint parse_steps (l : list (string * json)) : res (list (string * StepSpec)) :=
  match l with
  | [] => Ok []
  | (name, JObj raw) :: l' =>
      reads ← str_list "reads" raw;
      writes ← str_list "writes" raw;
      clears ← str_list "clears" raw;
      rest ← parse_steps l';
      Ok ((name, mkStep name reads writes _noop clears) :: rest)
  | (name, _) :: _ => Raise (ValueError ("meta.verify.steps['" +:+ name +:+ "'] must be a mapping"))
  end.

Definition parse_rule (v : json) : res Rule :=
  match v with
  | JObj raw =>
      triggers ← str_list "triggers" raw;
      steps ← str_list "steps" raw;
      Ok (mkRule (py_str (jor (jget "name" raw) (JStr "rule"))) triggers steps)
  | _ => Raise (ValueError "each meta.verify.rules entry must be a mapping")
  end.

Definition plan_from_verify_meta (meta : list (string * json)) : res Plan :=
  match jor (jget "steps" meta) (JObj []) with
  | JObj steps_raw =>
      steps ← parse_steps steps_raw;
      match jor (jget "rules" meta) (JArr []) with
      | JArr rules_raw =>
          rules ← mapM parse_rule rules_raw;
          match steps with
          | [] => Raise (ValueError "meta.verify.steps must contain at least one step")
          | _ => Ok (mkPlan steps rules)
          end
      | _ => Raise (ValueError "meta.verify.rules must be a sequence")
      end
  | _ => Raise (ValueError "meta.verify.steps must be a mapping")
  end.

(** [dict(meta.get("initial_store") or {})] of a mapping. *)
Definition as_store (v : json) : res (gmap string json) :=
  match jor v (JObj []) with
  | JObj m => Ok (foldl (fun acc kv => <[kv.1 := kv.2]> acc) ∅ m)
  | _ => Raise (TypeError "initial_store is not a mapping")
  end.

(** The [enumerate] loop over the declared properties. *)
Fixpoint parse_properties (i : nat) (l : list json) : list PropertySpec :=
  match l with
  | [] => []
  | JObj entry :: l' =>
      mkPropSpec (py_str (jor (jget "name" entry) (JStr ("property_" +:+ pretty i))))
                 (py_str (jor (jget "formula" entry) (JStr "")))
      :: parse_properties (S i) l'
  | _ :: l' => parse_properties (S i) l'
  end.

Definition missing_verify (body : AgentBundleBody) : exn :=
  ValueError ("bundle '" +:+ bundle_id body +:+ "' missing meta.verify mapping").

Definition verify_spec_from_bundle (body : AgentBundleBody) : res VerifySpec :=
  match jget "verify" (bundle_meta body) with
  | JObj meta =>
      let properties :=
        match jor (jget "properties" meta) (JArr []) with
        | JArr l => parse_properties 0 l
        | _ => []
        end in
      store ← as_store (jget "initial_store" meta);
      pend ← str_list "initial_pending" meta;
      changed ← str_list "changed_paths" meta;
      invs ← str_list "invariants" meta;
      Ok (mkVSpec store pend changed invs properties)
  | _ => Raise (missing_verify body)
  end.

Definition adapter_from_bundle (body : AgentBundleBody) : res TraceMindAdapter :=
  match jget "verify" (bundle_meta body) with
  | JObj meta =>
      plan ← plan_from_verify_meta meta;
      spec ← verify_spec_from_bundle body;
      from_plan plan (vs_initial_store spec) (vs_changed_paths spec)
                (vs_initial_pending spec) []
  | _ => Raise (missing_verify body)
  end.
End bundle.
