(* ===== verification/Compositional.v ===== *)
(** * Compositional verification ([tm/verify/compositional.py])

    The interface abstraction of a leaf (its explored graph projected on the
    interface facts), the classification of formulas, and the
    assume-guarantee run that picks how each formula is discharged. *)

From S2P Require Import Prelude PyVal Selectors State TraceMindAdapter.
From S2P Require Import Explorer CtlSyntax Ctl Report Joint BundleAdapter.
From stdpp Require Import base gmap strings list fin_maps fin_sets sorting pretty.
From Stdlib Require Import Lia Ascii.

(** ** The interface alphabet *)

(** [[A-Za-z0-9_.]]. *)
Definition atom_char (c : ascii) : bool :=
  is_alpha c || is_digit c || Ascii.eqb c "_" || Ascii.eqb c ".".

Fixpoint span_atom (s : string) : string * string :=
  match s with
  | EmptyString => (EmptyString, EmptyString)
  | String c s' =>
      if atom_char c then let '(a, b) := span_atom s' in (String c a, b) else (EmptyString, s)
  end.

(** A match of [_HAS_ATOM] at the head of the text. *)
Definition match_has (s : string) : option (string * string) :=
  match str_strip_prefix "has(" s with
  | None => None
  | Some r =>
      let '(tok, r') := span_atom (lstrip r) in
      match tok, lstrip r' with
      | EmptyString, _ => None
      | _, String c r'' => if Ascii.eqb c ")" then Some (tok, r'') else None
      | _, EmptyString => None
      end
  end.

(** [_HAS_ATOM.findall]: each round consumes a character, so the length of the
    text is enough fuel. *)
Fixpoint findall_go (fuel : nat) (s : string) : list string :=
  match fuel, s with
  | S fuel', String c s' =>
      match match_has s with
      | Some (tok, rest) => tok :: findall_go fuel' rest
      | None => findall_go fuel' s'
      end
  | _, _ => []
  end.

Definition has_atoms (formula : string) : list string :=
  findall_go (String.length formula) formula.

(** [token.split(".")[-1]]. *)
Fixpoint last_segment (s : string) : string :=
  match s with
  | EmptyString => EmptyString
  | String c s' =>
      if str_forall (fun d => negb (Ascii.eqb d ".")) s
      then s else last_segment s'
  end.

Definition interface_atoms (kpi_keys guarantees : list string) : list string :=
  sort_strings (elements (list_to_set kpi_keys ∪
    list_to_set (last_segment <$> mjoin (has_atoms <$> guarantees)) : gset string)).

(** ** Abstract states *)

Definition Present : Type := gset string.

Definition _present_key (present : Present) : list string := sort_strings (elements present).

(** Tuples of strings compare lexicographically. *)
Fixpoint strs_leb (l k : list string) : bool :=
  match l, k with
  | [], _ => true
  | _ :: _, [] => false
  | a :: l', b :: k' => if String.eqb a b then strs_leb l' k' else String.leb a b
  end.

Definition present_le (a b : Present) : Prop := strs_leb (_present_key a) (_present_key b) = true.

#[export] Instance present_le_dec : RelDecision present_le.
Proof. intros a b. unfold present_le. apply _. Defined.

Definition comma_join (l : list string) : string :=
  match l with [] => "" | x :: l' => foldl (fun acc y => acc +:+ "," +:+ y) x l' end.

Definition _label (a b : Present) : string :=
  let added := _present_key (b ∖ a) in
  let removed := _present_key (a ∖ b) in
  match added, removed with
  | [], [] => "abs:stutter"
  | _, _ => "abs:" +:+ comma_join ((String.append "+" <$> added) ++ (String.append "-" <$> removed))
  end.

Record AbstractionStats : Type := mkStats {
  st_interface_atoms : list string;
  st_concrete_state_count : nat;
  st_abstract_state_count : nat
}.

Record InterfaceAdapter : Type := mkIface {
  i_atoms : list string;
  i_initial_present : Present;
  i_transitions : list (Present * list Present);
  i_deadlock_presents : list Present;
  i_stats : AbstractionStats
}.

(** [{k: True for k in sorted(present)}] and empty lists. *)
Definition abs_state (present : Present) : State :=
  mkState (set_to_map (fun k => (k, JBool true)) present) [] [] [].

(** [frozenset(k for k in atoms if state.store.get(k))]. *)
Definition present_of (atoms : list string) (state : State) : Present :=
  list_to_set (filter (fun k => truthy (default JNull (store state !! k)) = true) atoms).

Definition transitions_of (a : InterfaceAdapter) (present : Present) : list Present :=
  default [] (alookup present (i_transitions a)).

Definition i_initial_state (a : InterfaceAdapter) : res State := Ok (abs_state (i_initial_present a)).

Definition i_successors (a : InterfaceAdapter) (state : State) : res (list (string * State)) :=
  let present := present_of (i_atoms a) state in
  Ok ((fun nxt => (_label present nxt, abs_state nxt)) <$> transitions_of a present).

Definition i_enabled_steps (a : InterfaceAdapter) (state : State) : list string :=
  let present := present_of (i_atoms a) state in
  _label present <$> transitions_of a present.

Definition i_is_deadlocked (a : InterfaceAdapter) (state : State) : bool :=
  let present := present_of (i_atoms a) state in
  (present ∈? i_deadlock_presents a) &&
  match transitions_of a present with [] => true | _ => false end.

#[export] Instance interface_component : ComponentAdapter InterfaceAdapter := {
  c_initial_state := i_initial_state;
  c_successors := i_successors;
  c_is_deadlocked := i_is_deadlocked;
  c_enabled_steps := i_enabled_steps
}.

(** The members of an abstract composition: a concrete component or an
    abstraction, behind the same interface. *)
#[export] Instance sum_component {A B} `{ComponentAdapter A, ComponentAdapter B}
  : ComponentAdapter (A + B) := {
  c_initial_state c := match c with inl a => c_initial_state a | inr b => c_initial_state b end;
  c_successors c := match c with inl a => c_successors a | inr b => c_successors b end;
  c_is_deadlocked c := match c with inl a => c_is_deadlocked a | inr b => c_is_deadlocked b end;
  c_enabled_steps c := match c with inl a => c_enabled_steps a | inr b => c_enabled_steps b end
}.

(** [buckets.setdefault(a, [])] and the appends of one explored source. *)
Fixpoint bucket_add (a : Present) (bs : list Present) (buckets : list (Present * list Present))
  : list (Present * list Present) :=
  match buckets with
  | [] => [(a, append_new [] bs)]
  | (k, bucket) :: rest =>
      if decide (k = a) then (k, append_new bucket bs) :: rest
      else (k, bucket) :: bucket_add a bs rest
  end.

Definition proj_at (proj : list Present) (i : nat) : Present := default ∅ (proj !! i).

Definition build_buckets (proj : list Present) (es : list (nat * list nat))
  : list (Present * list Present) :=
  foldl (fun buckets kv => bucket_add (proj_at proj kv.1) (proj_at proj <$> kv.2) buckets) [] es.

(** The abstraction of an explored leaf. *)
Definition abstract_result (atoms : list string) (result : ExplorationResult) : InterfaceAdapter :=
  let proj := present_of atoms <$> states result in
  mkIface atoms (proj_at proj 0)
    ((fun kb => (kb.1, merge_sort present_le kb.2)) <$> build_buckets proj (edges result))
    (proj_at proj <$> deadlocks result)
    (mkStats atoms (length (states result)) (length (remove_dups proj))).

(** ** Classification *)

Inductive PropertyClass : Type :=
| SAFETY_GLOBAL
| SINGLE_COMPONENT
| DECOMPOSABLE
| OUT_OF_CLASS.

#[export] Instance PropertyClass_eq_dec : EqDecision PropertyClass.
Proof. solve_decision. Defined.

Definition class_value (pc : PropertyClass) : string :=
  match pc with
  | SAFETY_GLOBAL => "safety_global"
  | SINGLE_COMPONENT => "single_component"
  | DECOMPOSABLE => "decomposable"
  | OUT_OF_CLASS => "out_of_class"
  end.

(** Longest id that is the value or a dotted prefix of it. *)
Definition _predicate_component (value : string) (component_ids : list string) : option string :=
  foldl (fun best cid =>
    if String.eqb value cid || bool_decide (is_Some (str_strip_prefix (dotted cid) value)) then
      match best with
      | None => Some cid
      | Some b => if (String.length b <? String.length cid)%nat then Some cid else best
      end
    else best) None component_ids.

Fixpoint referenced_components (e : Expr) (ids : list string) : gset string :=
  match e with
  | Predicate _ (Some v) =>
      match _predicate_component v ids with Some cid => {[cid]} | None => ∅ end
  | Predicate _ None => ∅
  | Not c => referenced_components c ids
  | And l r | Or l r => referenced_components l ids ∪ referenced_components r ids
  | Ctl _ c => referenced_components c ids
  | Until _ l r => referenced_components l ids ∪ referenced_components r ids
  end.

Fixpoint _contains_terminal (e : Expr) : bool :=
  match e with
  | Predicate n _ => String.eqb (str_lower n) "terminal"
  | Not c | Ctl _ c => _contains_terminal c
  | And l r | Or l r | Until _ l r => _contains_terminal l || _contains_terminal r
  end.

Fixpoint _contains_eventually (e : Expr) : bool :=
  match e with
  | Predicate _ _ => false
  | Not c => _contains_eventually c
  | And l r | Or l r => _contains_eventually l || _contains_eventually r
  | Ctl op c => (op ∈? ["EF"; "AF"]) || _contains_eventually c
  | Until _ _ _ => true
  end.

Fixpoint _split_conjuncts (e : Expr) : list Expr :=
  match e with
  | And l r => _split_conjuncts l ++ _split_conjuncts r
  | _ => [e]
  end.

Record Classification : Type := mkClass {
  cl_formula : string;
  cl_property_class : PropertyClass;
  cl_components : list string;
  cl_compositional : bool;
  cl_reason : string
}.

(** [isinstance(expr, Ctl) and expr.op == op and not has_ctl_nodes(expr.child)]. *)
Definition ctl_over_state (op : string) (e : Expr) : option Expr :=
  match e with
  | Ctl o c => if String.eqb o op && negb (has_ctl_nodes c) then Some c else None
  | _ => None
  end.

Definition classify_expr (formula : string) (e : Expr) (ids : list string) : Classification :=
  let refs := sort_strings (elements (referenced_components e ids)) in
  let out := mkClass formula OUT_OF_CLASS refs false in
  if _contains_terminal e then
    out "Terminal is a joint-global predicate; not soundly decomposable"
  else
    match ctl_over_state "AG" e with
    | Some body =>
        let conjuncts := _split_conjuncts body in
        if (1 <? length conjuncts)%nat &&
           forallb (fun c => (size (referenced_components c ids) <=? 1)%nat) conjuncts then
          mkClass formula DECOMPOSABLE refs true
            "AG over a conjunction of single-component obligations (per-leaf local discharge)"
        else if (size (referenced_components body ids) <=? 1)%nat then
          mkClass formula SINGLE_COMPONENT refs true
            "AG safety over a single component (exact local discharge)"
        else
          mkClass formula SAFETY_GLOBAL refs true
            "AG safety over multiple components (assume-guarantee discharge)"
    | None =>
        match ctl_over_state "EF" e with
        | Some body =>
            if (size (referenced_components body ids) =? 1)%nat then
              mkClass formula SINGLE_COMPONENT refs true
                "EF reachability over a single component (exact local discharge)"
            else
              out "existential reachability over multiple components is not over-approximation-sound"
        | None =>
            if match e with
               | Ctl op c => String.eqb op "AG" && _contains_eventually c
               | _ => false
               end then out ("fairness/conditional-liveness (AG over an eventually): ∃-abstraction " +:+
                    "is not subset-closed for EF/AF (false-PASS risk) and single-component " +:+
                    "liveness is not preserved by the unfair async product (starvation) → monolithic")
            else if _contains_eventually e then
              out ((if (length refs <=? 1)%nat then "single-component" else "cross-component") +:+
                   " liveness/eventually (AF/EU/nested EF) is not soundly liftable: the " +:+
                   "async product admits schedules that starve the component, so a locally-true " +:+
                   "eventually need not hold in the product → monolithic")
            else
              out "liveness/existential/nested CTL is outside the sound compositional fragment"
        end
    end.

Definition classify_formula (formula : string) (ids : list string) : res Classification :=
  e ← parse_expr formula; Ok (classify_expr formula e ids).

(** ** The assume-guarantee run *)

Record LeafSpec : Type := mkLeaf {
  lf_component_id : string;
  lf_bundle : AgentBundleBody;
  lf_kpi_keys : list string;
  lf_guarantees : list string;
  lf_assumptions : list string
}.

Record LocalVerdict : Type := mkLocal {
  lv_component_id : string; lv_guarantee : string; lv_satisfied : bool
}.

Record Fallback : Type := mkFallback {
  fb_formula : string;
  fb_trigger : string;
  fb_reason : string;
  fb_monolithic_satisfied : bool
}.

Record CompositionalVerdict : Type := mkCV {
  cv_formula : string;
  cv_satisfied : bool;
  cv_property_class : string;
  cv_via : string
}.

Record CompositionalReport : Type := mkCReport {
  cr_verified : bool;
  cr_center_id : string;
  cr_leaf_ids : list string;
  cr_formulas : list string;
  cr_verdicts : list CompositionalVerdict;
  cr_local_verdicts : list LocalVerdict;
  cr_abstraction_stats : list (string * AbstractionStats);
  cr_compositional_state_count : nat;
  cr_monolithic_state_count : option nat;
  cr_fallbacks : list Fallback;
  cr_mode : string
}.

(** [for a in spec.assumptions]: does one name a sibling?  A [ValueError] of
    the parser skips the assumption, any other exception propagates. *)
Fixpoint assumes_sibling (assumptions : list string) (leaf_ids : list string) (others : gset string)
  : res bool :=
  match assumptions with
  | [] => Ok false
  | a :: rest =>
      match parse_expr a with
      | Raise (ValueError _) => assumes_sibling rest leaf_ids others
      | Raise ex => Raise ex
      | Ok e =>
          if decide (referenced_components e leaf_ids ∩ others = ∅)
          then assumes_sibling rest leaf_ids others else Ok true
      end
  end.

Fixpoint _assumption_cycle (leaves : list LeafSpec) (leaf_ids : list string)
  : res (option string) :=
  match leaves with
  | [] => Ok None
  | spec :: rest =>
      b ← assumes_sibling (lf_assumptions spec) leaf_ids
            (list_to_set leaf_ids ∖ {[lf_component_id spec]});
      if (b : bool) then Ok (Some (lf_component_id spec)) else _assumption_cycle rest leaf_ids
  end.

Section verify.
Context {K : Type} `{Digest K} (other_str : json → string).

Definition interface_adapter_from_contract (fuel : nat) (bundle : AgentBundleBody)
  (kpi_keys guarantees : list string) (max_depth : nat) (mode : string)
  : fueled InterfaceAdapter :=
  let! concrete := Some (adapter_from_bundle other_str bundle) in
  let! result := explorer_run (K:=K) fuel concrete max_depth mode in
  Some (Ok (abstract_result (interface_atoms kpi_keys guarantees) result.1)).

Definition member : Type := TraceMindAdapter + InterfaceAdapter.

(** [joint_verify] on one formula: its verdict and the number of states. *)
Definition verify_one (fuel : nat) (comps : list member) (ids : list string) (max_depth : nat)
  (mode : string) (f : string) : fueled (bool * nat) :=
  let! rep := joint_verify (K:=K) fuel comps [f] (Some ids) max_depth mode true in
  match jr_verdicts rep with
  | v :: _ => Some (Ok (jv_satisfied v, jr_state_count rep))
  | [] => Some (Raise (IndexError "list index out of range"))
  end.

(** What the closures of [assume_guarantee_verify] share. *)
Record ag_env : Type := mkEnv {
  ag_fuel : nat;
  ag_depth : nat;
  ag_mode : string;
  ag_ids : list string;
  ag_concrete : list (string * TraceMindAdapter);
  ag_abstract : list member;
  ag_cyclic : option string
}.

(** [concrete[cid]]: the newest entry of the dict. *)
Definition concrete_at (env : ag_env) (cid : string) : res member :=
  match alookup cid (ag_concrete env) with
  | Some a => Ok (inl a)
  | None => Raise (KeyError cid)
  end.

Definition mono_verify (env : ag_env) (f : string) : fueled (bool * nat) :=
  let! comps := Some (mapM (concrete_at env) (ag_ids env)) in
  verify_one (ag_fuel env) comps (ag_ids env) (ag_depth env) (ag_mode env) f.

Definition exact_local (env : ag_env) (f cid : string) : fueled bool :=
  let! comp := Some (concrete_at env cid) in
  let! r := verify_one (ag_fuel env) [comp] [cid] (ag_depth env) (ag_mode env) f in
  Some (Ok r.1).

Definition center_verify (env : ag_env) (f : string) : fueled bool :=
  let! r := verify_one (ag_fuel env) (ag_abstract env) (ag_ids env) (ag_depth env) (ag_mode env) f in
  Some (Ok r.1).

(** The loop over the conjuncts: [sat = check(...) and sat]. *)
Fixpoint discharge_conjuncts (env : ag_env) (conjuncts : list Expr) (sat : bool)
  (mono : option nat) : fueled (bool * option nat) :=
  match conjuncts with
  | [] => Some (Ok (sat, mono))
  | cj :: rest =>
      let sub := "AG " +:+ _unparse cj in
      match elements (referenced_components cj (ag_ids env)) with
      | [cid] =>
          let! b := exact_local env sub cid in
          discharge_conjuncts env rest (b && sat) mono
      | _ =>
          let! r := mono_verify env sub in
          discharge_conjuncts env rest (r.1 && sat) (Some r.2)
      end
  end.

(** One formula: its verdict, the fallbacks it adds and the last size of the
    monolithic product. *)
Definition discharged : Type := (CompositionalVerdict * list Fallback * option nat)%type.

Definition by_product (env : ag_env) (f : string) (pc : PropertyClass) (via trigger reason : string)
  : fueled discharged :=
  let! r := mono_verify env f in
  Some (Ok (mkCV f r.1 (class_value pc) via, [mkFallback f trigger reason r.1], Some r.2)).

Definition discharge (env : ag_env) (f : string) (mono : option nat) : fueled discharged :=
  let! cls := Some (classify_formula f (ag_ids env)) in
  let pc := cl_property_class cls in
  match cl_compositional cls, ag_cyclic env with
  | true, Some leaf =>
      by_product env f pc "monolithic_fallback" "cyclic_assumption"
        ("leaf '" +:+ leaf +:+
         "' assumption references a sibling leaf; A-G non-circularity violated")
  | _, _ =>
      match pc with
      | OUT_OF_CLASS => by_product env f pc "monolithic_fallback" "out_of_class" (cl_reason cls)
      | SINGLE_COMPONENT =>
          match cl_components cls with
          | [cid] =>
              let! b := exact_local env f cid in
              Some (Ok (mkCV f b (class_value pc) "compositional_local", [], mono))
          | _ =>
              by_product env f pc "monolithic_fallback" "out_of_class"
                "no single component could be resolved for local discharge"
          end
      | DECOMPOSABLE =>
          let! e := Some (parse_expr f) in
          match e with
          | Ctl _ body =>
              let! r := discharge_conjuncts env (_split_conjuncts body) true mono in
              Some (Ok (mkCV f r.1 (class_value pc) "compositional_decomposed", [], r.2))
          | _ => Some (Raise (TypeError "no child"))
          end
      | SAFETY_GLOBAL =>
          let! b := center_verify env f in
          if (b : bool) then Some (Ok (mkCV f true (class_value pc) "compositional", [], mono))
          else by_product env f pc "monolithic_recheck" "spurious_fail_recheck"
                 "abstract composition reported FAIL; re-verified on the full product (authoritative)"
      end
  end.

Fixpoint discharge_all (env : ag_env) (formulas : list string) (mono : option nat)
  : fueled (list CompositionalVerdict * list Fallback * option nat) :=
  match formulas with
  | [] => Some (Ok ([], [], mono))
  | f :: rest =>
      let! d := discharge env f mono in
      let! r := discharge_all env rest d.2 in
      Some (Ok (d.1.1 :: r.1.1, d.1.2 ++ r.1.2, r.2))
  end.

(** Step 1: the local guarantee checks. *)
Definition local_checks (env : ag_env) (leaves : list LeafSpec) : fueled (list LocalVerdict) :=
  fmapM (fun sg : LeafSpec * string =>
           let cid := lf_component_id sg.1 in
           let! b := exact_local env sg.2 cid in
           Some (Ok (mkLocal cid sg.2 b)))
        (s ← leaves; (fun g => (s, g)) <$> lf_guarantees s).

Definition assume_guarantee_verify (fuel : nat) (center_bundle : AgentBundleBody)
  (leaves : list LeafSpec) (formulas : list string) (center_id : string)
  (max_depth : nat) (mode : string) : fueled CompositionalReport :=
  let! center := Some (adapter_from_bundle other_str center_bundle) in
  let leaf_ids := lf_component_id <$> leaves in
  let all_ids := center_id :: leaf_ids in
  let! leaf_adapters := Some (mapM (fun s => adapter_from_bundle other_str (lf_bundle s)) leaves) in
  let! abs := fmapM (fun s => interface_adapter_from_contract fuel (lf_bundle s) (lf_kpi_keys s)
                                (lf_guarantees s) max_depth mode) leaves in
  let abs_components := inl center :: (inr <$> abs) in
  let! joint := Some (from_components (K:=K) abs_components (Some all_ids)) in
  let! comp_model := explorer_run (K:=K) fuel joint max_depth mode in
  let env0 := mkEnv fuel max_depth mode all_ids
                (reverse (zip all_ids (center :: leaf_adapters))) abs_components None in
  let! local_verdicts := local_checks env0 leaves in
  let! cyclic := Some (_assumption_cycle leaves leaf_ids) in
  let env := mkEnv fuel max_depth mode all_ids (ag_concrete env0) abs_components cyclic in
  let! out := discharge_all env formulas None in
  Some (Ok (mkCReport (forallb cv_satisfied out.1.1) center_id leaf_ids formulas out.1.1
              local_verdicts (zip leaf_ids (i_stats <$> abs)) (length (states comp_model.1))
              out.2 out.1.2 "compositional")).
End verify.
