(* ===== verification/CompositionalSpec.v ===== *)
(** * Soundness of the interface abstraction

    The abstraction of a leaf simulates the leaf on its interface facts, so an
    [AG] formula over interface facts that passes on the abstract composition
    passes on the product: no false PASS. *)

From S2P Require Import Prelude PyVal Selectors State TraceMindAdapter.
From S2P Require Import Explorer CtlSyntax Ctl Report Joint.
From S2P Require Import BundleAdapter Compositional.
From stdpp Require Import base gmap strings list fin_maps fin_sets sorting.
From Stdlib Require Import Lia.

(** ** Abstract states *)

Lemma lookup_abs_state (p : Present) k :
  store (abs_state p) !! k = if decide (k ∈ p) then Some (JBool true) else None.
Proof.
  simpl. case_decide as Hk.
  - apply lookup_set_to_map; [naive_solver|]. exists k. done.
  - apply eq_None_not_Some. intros [v Hv].
    apply lookup_set_to_map in Hv as (k' & Hk' & [= <- <-]); [done|naive_solver].
Qed.

Lemma elem_of_present_of atoms st k :
  k ∈ present_of atoms st ↔ k ∈ atoms ∧ truthy (default JNull (store st !! k)) = true.
Proof. unfold present_of. rewrite elem_of_list_to_set, list_elem_of_filter. tauto. Qed.

Lemma present_of_abs atoms (p : Present) :
  (∀ k, k ∈ p → k ∈ atoms) → present_of atoms (abs_state p) = p.
Proof.
  intros Hp. apply set_eq. intros k. rewrite elem_of_present_of, lookup_abs_state.
  case_decide; simpl; naive_solver.
Qed.

Lemma abs_state_canonical p : canonical (abs_state p).
Proof. intros k v. rewrite lookup_abs_state. case_decide; [by intros [= <-]|done]. Qed.

(** ** Buckets *)

Lemma alookup_bucket_add a bs B k :
  alookup k (bucket_add a bs B) =
  if decide (k = a) then Some (append_new (default [] (alookup a B)) bs) else alookup k B.
Proof.
  induction B as [|[a' b] B IH]; simpl.
  { case_decide; [done|]. done. }
  destruct (decide (a' = a)) as [->|Hne]; simpl.
  - rewrite (decide_True _ _ (eq_refl a)). by case_decide.
  - rewrite (decide_False (P:=a = a')) by done. rewrite IH.
    destruct (decide (k = a)) as [->|]; [by rewrite decide_False|done].
Qed.

Section buckets.
Context (proj : list Present).

Definition grow_buckets (B : list (Present * list Present)) (es : list (nat * list nat)) :=
  foldl (fun buckets kv => bucket_add (proj_at proj kv.1) (proj_at proj <$> kv.2) buckets) B es.

Lemma grow_buckets_mono B es k bs x :
  alookup k B = Some bs → x ∈ bs →
  ∃ bs', alookup k (grow_buckets B es) = Some bs' ∧ x ∈ bs'.
Proof.
  revert B bs. induction es as [|[i js] es IH]; intros B bs Hk Hx; simpl; [eauto|].
  destruct (decide (k = proj_at proj i)) as [->|Hne].
  - eapply IH; [by rewrite alookup_bucket_add, decide_True|].
    rewrite Hk. apply elem_of_append_new. by left.
  - eapply IH; [by rewrite alookup_bucket_add, decide_False|done].
Qed.

Lemma grow_buckets_edge B es i js j :
  (i, js) ∈ es → j ∈ js →
  ∃ bs, alookup (proj_at proj i) (grow_buckets B es) = Some bs ∧ proj_at proj j ∈ bs.
Proof.
  revert B. induction es as [|[i' js'] es IH]; intros B Hin Hj; simpl; [set_solver|].
  apply elem_of_cons in Hin as [[= -> ->]|Hin]; [|by apply IH].
  eapply grow_buckets_mono; [by rewrite alookup_bucket_add, decide_True|].
  apply elem_of_append_new. right. by apply list_elem_of_fmap_2.
Qed.

Lemma grow_buckets_range (P : Present → Prop) B es :
  (∀ i, P (proj_at proj i)) → (∀ k bs, alookup k B = Some bs → Forall P bs) →
  ∀ k bs, alookup k (grow_buckets B es) = Some bs → Forall P bs.
Proof.
  intros HP. revert B. induction es as [|[i js] es IH]; intros B HB k bs; simpl; [apply HB|].
  apply IH. intros k' bs'. rewrite alookup_bucket_add. case_decide as Hk; [|apply HB].
  intros [= <-]. apply Forall_forall. intros x [Hx|Hx]%elem_of_append_new.
  - destruct (alookup (proj_at proj i) B) as [b|] eqn:E; [|set_solver].
    apply HB in E. rewrite Forall_forall in E. by apply E.
  - apply list_elem_of_fmap in Hx as (j & -> & _). apply HP.
Qed.
End buckets.

Lemma alookup_fmap_snd {V W} `{EqDecision X} (f : V → W) (k : X) l :
  alookup k ((fun kb => (kb.1, f kb.2)) <$> l) = f <$> alookup k l.
Proof. induction l as [|[k' v] l IH]; simpl; [done|]. by case_decide. Qed.

Lemma transitions_abstract atoms r p :
  transitions_of (abstract_result atoms r) p ≡ₚ
  default [] (alookup p (grow_buckets (present_of atoms <$> states r) [] (edges r))).
Proof.
  unfold transitions_of, abstract_result, build_buckets. simpl.
  fold (grow_buckets (present_of atoms <$> states r) [] (edges r)).
  rewrite (alookup_fmap_snd (merge_sort present_le)).
  destruct (alookup _ _); simpl; [|done]. apply merge_sort_Permutation.
Qed.

(** ** The abstraction as a component *)

Definition within (atoms : list string) (p : Present) : Prop := ∀ k, k ∈ p → k ∈ atoms.

Definition iface_wf (a : InterfaceAdapter) : Prop :=
  within (i_atoms a) (i_initial_present a) ∧
  ∀ p, Forall (within (i_atoms a)) (transitions_of a p).

#[export] Program Instance interface_lawful : LawfulComponent InterfaceAdapter := {
  comp_wf := iface_wf;
  comp_known a st := ∃ p, st = abs_state p ∧ within (i_atoms a) p;
  comp_post a st := res_default [] (i_successors a st);
  comp_start a := abs_state (i_initial_present a)
}.
Next Obligation. intros a [Hi _]. simpl. split; [done|]. eauto. Qed.
Next Obligation.
  intros a st [_ Ht] _. split; [done|]. simpl. apply Forall_fmap.
  eapply Forall_impl; [apply Ht|]. intros p Hp. simpl. eauto.
Qed.
Next Obligation. intros a st (p & -> & _). apply abs_state_canonical. Qed.

#[export] Program Instance sum_lawful {A B} `{LawfulComponent A, LawfulComponent B}
  : LawfulComponent (A + B) := {
  comp_wf c := match c with inl a => comp_wf a | inr b => comp_wf b end;
  comp_known c := match c with inl a => comp_known a | inr b => comp_known b end;
  comp_post c := match c with inl a => comp_post a | inr b => comp_post b end;
  comp_start c := match c with inl a => comp_start a | inr b => comp_start b end
}.
Next Obligation. intros A B ? ? ? ? [a|b] Hw; simpl; by apply comp_initial. Qed.
Next Obligation. intros A B ? ? ? ? [a|b] st Hw Hk; simpl; by apply comp_successors. Qed.
Next Obligation. intros A B ? ? ? ? [a|b] st; simpl; apply comp_canonical. Qed.

Lemma abstract_wf atoms r : iface_wf (abstract_result atoms r).
Proof.
  assert (∀ i, within atoms (proj_at (present_of atoms <$> states r) i)) as Hp.
  { intros i k. unfold proj_at. rewrite list_lookup_fmap.
    destruct (states r !! i); simpl; [|set_solver]. by rewrite elem_of_present_of; intros [? _]. }
  split; [apply Hp|]. intros p. rewrite transitions_abstract. simpl.
  destruct (alookup p _) as [bs|] eqn:E; simpl; [|constructor].
  eapply grow_buckets_range; [apply Hp| |exact E]. done.
Qed.

(** ** The abstraction simulates the leaf *)

Section simulation.
Context {K : Type} `{InjDigest K}.

Lemma leaf_run_same fuel (leaf : TraceMindAdapter) D mode r a' :
  explorer_run (K:=K) fuel leaf D mode = Some (Ok (r, a')) → a' = leaf.
Proof.
  intros Hrun. eapply (explorer_run_preserves (fun b => b = leaf)); [| |exact Hrun|done].
  - intros b s b' Hi ->. simpl in Hi. inv_ok. by simplify_eq.
  - intros b s l b' Hs ->. simpl in Hs. inv_ok. by simplify_eq.
Qed.

(** The initial states agree, and every move of the leaf within the bound is a
    move of the abstraction. *)
Lemma leaf_simulated fuel (leaf : TraceMindAdapter) D r a' atoms :
  tm_wf leaf → explorer_run (K:=K) fuel leaf D "full" = Some (Ok (r, a')) →
  i_initial_present (abstract_result atoms r) = present_of atoms (comp_start leaf) ∧
  ∀ n s l s', steps leaf n (start leaf) s → canonical s → n < D →
    (l, s') ∈ comp_post leaf s → canonical s' →
    present_of atoms s' ∈ transitions_of (abstract_result atoms r) (present_of atoms s).
Proof.
  intros Hwf Hrun. rewrite (leaf_run_same _ _ _ _ _ _ Hrun) in Hrun.
  assert (adapter_wf leaf) as Hawf by exact Hwf.
  destruct (explorer_run_explored _ _ _ _ _ _ Hawf Hrun) as (m & e & [= <-] & -> & Hx).
  split.
  { simpl. unfold proj_at. rewrite list_lookup_fmap, (x_root _ _ _ _ _ _ Hx). done. }
  intros n s l s' Hs Hc Hn Hp Hc'.
  destruct (explored_covers_depth _ _ _ _ _ n s Hx) as (i & d & Hi & Hd & Hle); [|done|done|lia|].
  { intros s1 s2 H1 H2. by apply hash_full_inj. }
  assert (i ∈ (e_edges e).*1) as Hie.
  { eapply (x_complete _ _ _ _ _ _ Hx i s d); [by eapply lookup_lt_Some|done|done|lia|].
    intros Hnil. simpl in Hnil, Hp. rewrite Hnil in Hp. set_solver. }
  apply list_elem_of_fmap in Hie as ([i' js] & -> & Hin). simpl in *.
  destruct (x_edges _ _ _ _ _ _ Hx _ _ Hin) as (_ & _ & s1 & d1 & Hs1 & _ & _ & Hf).
  assert (s1 = s) as -> by congruence.
  apply list_elem_of_lookup in Hp as [x Hpx].
  destruct (Forall2_lookup_l _ _ _ _ _ Hf Hpx) as (j & Hj & sj & Hsj & Hh). simpl in Hh.
  assert (sj = s') as ->.
  { apply hash_full_inj in Hh; [done| |done].
    eapply (Forall_lookup_1 canonical); [apply (x_known _ _ _ _ _ _ Hx)|exact Hsj]. }
  rewrite transitions_abstract. simpl.
  destruct (grow_buckets_edge (present_of atoms <$> e_states e) [] (e_edges e) i' js j)
    as (bs & Hbs & Hin'); [done|by eapply list_elem_of_lookup_2|].
  unfold proj_at in Hbs, Hin'. rewrite !list_lookup_fmap, Hi in Hbs.
  rewrite !list_lookup_fmap, Hsj in Hin'. simpl in Hbs, Hin'. by rewrite Hbs.
Qed.

(** ** The star: a center and its leaves *)

(** A leaf with its interface alphabet and the result of exploring it. *)
Record leaf_data : Type := mkLD {
  ld_leaf : TraceMindAdapter;
  ld_atoms : list string;
  ld_result : ExplorationResult
}.

Definition leaf_abs (x : leaf_data) : InterfaceAdapter := abstract_result (ld_atoms x) (ld_result x).

Definition leaf_ok (D : nat) (x : leaf_data) : Prop :=
  tm_wf (ld_leaf x) ∧ map_Forall (fun _ v => truthy v = true) (initial_store (ld_leaf x)) ∧
  ∃ fuel a', explorer_run (K:=K) fuel (ld_leaf x) D "full" = Some (Ok ((ld_result x), a')).

Definition concrete_star (center : TraceMindAdapter) (leaves : list leaf_data) : list member :=
  inl center :: ((fun x => inl (ld_leaf x)) <$> leaves).

Definition abstract_star (center : TraceMindAdapter) (leaves : list leaf_data) : list member :=
  inl center :: ((fun x => inr (leaf_abs x)) <$> leaves).

(** What is known of a leaf's state after [n] moves of the star. *)
Definition leaf_at (n : nat) (x : leaf_data) (s : State) : Prop :=
  canonical s ∧ map_Forall (fun _ v => truthy v = true) (store s) ∧
  ∃ d, d ≤ n ∧ steps (ld_leaf x) d (start (ld_leaf x)) s.

Definition abs_of (x : leaf_data) (s : State) : State := abs_state (present_of (ld_atoms x) s).

Definition abs_tuple (leaves : list leaf_data) (joint : list State) : list State :=
  match joint with [] => [] | s0 :: ss => s0 :: zip_with abs_of leaves ss end.

Lemma leaf_at_mono n m x s : n ≤ m → leaf_at n x s → leaf_at m x s.
Proof. intros Hle (Hc & Ht & d & Hd & Hs). split_and!; [done..|]. exists d. split; [lia|done]. Qed.

Lemma leaf_move D n x s l s' :
  leaf_ok D x → leaf_at n x s → (l, s') ∈ comp_post (ld_leaf x) s → leaf_at (S n) x s'.
Proof.
  intros (Hwf & _) (Hc & Ht & d & Hd & Hs) Hp.
  destruct (tm_comp_successors (ld_leaf x) s Hwf Hc) as [Hsucc Hf].
  rewrite Forall_forall in Hf. pose proof (Hf _ Hp) as Hc'. split_and!; [done| |].
  - simpl in Hsucc. apply (elem_of_successors _ _ _ _ _ Hsucc) in Hp as (_ & spec & _ & _ & Hr).
    unfold _run_step in Hr. inv_ok. subst s'. simpl. intros k v.
    rewrite lookup_apply_effects. destruct (k ∈? s_clears spec); [done|].
    destruct (k ∈? s_writes spec); [by intros [= <-]|apply Ht].
  - exists (S d). split; [lia|]. econstructor; [exact Hs|exact Hc|]. by exists l.
Qed.

Lemma leaf_start D x : leaf_ok D x → leaf_at 0 x (comp_start (ld_leaf x)).
Proof.
  intros (Hwf & Ht & _). destruct (tm_comp_initial (ld_leaf x) Hwf) as [Hi Hc]. split_and!; [done| |].
  - clear Hc. revert Hi. generalize (comp_start (ld_leaf x)). intros c Hi.
    unfold tm_initial_state in Hi. inv_ok. by subst c.
  - exists 0. split; [lia|constructor].
Qed.

Lemma abs_post x s nxt :
  nxt ∈ transitions_of (leaf_abs x) (present_of (ld_atoms x) s) →
  (_label (present_of (ld_atoms x) s) nxt, abs_state nxt) ∈
    comp_post (inr (leaf_abs x) : member) (abs_of x s).
Proof.
  intros Hin. simpl. apply list_elem_of_fmap. exists nxt. unfold abs_of.
  rewrite present_of_abs by (intros k; rewrite elem_of_present_of; tauto). done.
Qed.

(** A move of the concrete star is a move of the abstract star. *)
Lemma star_move D center leaves ids n s0 ss l joint' :
  Forall (leaf_ok D) leaves → Forall2 (leaf_at n) leaves ss → n < D →
  jmove (concrete_star center leaves) ids (s0 :: ss) l joint' →
  ∃ s0' ss' l', joint' = s0' :: ss' ∧ Forall2 (leaf_at (S n)) leaves ss' ∧
    jmove (abstract_star center leaves) ids (abs_tuple leaves (s0 :: ss)) l' (abs_tuple leaves joint').
Proof.
  intros Hok Hat Hn (i & c & cid & s & l0 & s' & Hc & Hi & Hs & Hp & -> & ->).
  destruct i as [|i]; simpl in Hc, Hs.
  - injection Hc as <-. injection Hs as <-. exists s', ss, (cid +:+ ":" +:+ l0).
    split_and!; [done| |].
    + eapply Forall2_impl; [exact Hat|]. intros x s. apply leaf_at_mono. lia.
    + exists 0, (inl center), cid, s0, l0, s'. by split_and!.
  - rewrite list_lookup_fmap in Hc. apply fmap_Some in Hc as (x & Hx & ->).
    pose proof (Forall_lookup_1 _ _ _ _ Hok Hx) as Hxok.
    pose proof (Forall2_lookup_lr _ _ _ _ _ _ Hat Hx Hs) as Hxs.
    pose proof (leaf_move _ _ _ _ _ _ Hxok Hxs Hp) as Hxs'.
    assert (<[i := abs_of x s']> (zip_with abs_of leaves ss) =
            zip_with abs_of leaves (<[i := s']> ss)) as Hins.
    { rewrite insert_zip_with. by rewrite (list_insert_id leaves i x Hx). }
    exists s0, (<[i := s']> ss), (cid +:+ ":" +:+ _label (present_of (ld_atoms x) s) (present_of (ld_atoms x) s')).
    split_and!; [done| |].
    + rewrite <- (list_insert_id leaves i x Hx). apply Forall2_insert; [|done].
      eapply Forall2_impl; [exact Hat|]. intros y t. apply leaf_at_mono. lia.
    + exists (S i), (inr (leaf_abs x)), cid, (abs_of x s),
        (_label (present_of (ld_atoms x) s) (present_of (ld_atoms x) s')), (abs_of x s').
      split_and!; [|done| | |done|simpl; by rewrite Hins].
      * change (((fun x => inr (leaf_abs x)) <$> leaves) !! i = Some (inr (leaf_abs x) : member)).
        by rewrite list_lookup_fmap, Hx.
      * simpl. rewrite lookup_zip_with, Hx. simpl. by rewrite Hs.
      * destruct Hxok as (Hwf & _ & fuel & a' & Hrun). destruct Hxs as (Hcs & _ & d & Hd & Hsteps).
        destruct Hxs' as (Hcs' & _). apply abs_post.
        eapply (leaf_simulated fuel (ld_leaf x) D (ld_result x) a' (ld_atoms x) Hwf Hrun);
          [exact Hsteps|done|lia|exact Hp|done].
Qed.

Lemma star_start D center leaves :
  Forall (leaf_ok D) leaves →
  Forall2 (leaf_at 0) leaves ((fun x => comp_start (ld_leaf x)) <$> leaves) ∧
  comp_start <$> concrete_star center leaves =
    comp_start center :: ((fun x => comp_start (ld_leaf x)) <$> leaves) ∧
  comp_start <$> abstract_star center leaves =
    abs_tuple leaves (comp_start center :: ((fun x => comp_start (ld_leaf x)) <$> leaves)).
Proof.
  intros Hok. split_and!.
  - apply Forall2_fmap_r, Forall_Forall2_diag. eapply Forall_impl; [exact Hok|]. apply leaf_start.
  - unfold concrete_star. rewrite fmap_cons. f_equal. by rewrite <- list_fmap_compose.
  - unfold abstract_star. rewrite fmap_cons. simpl. f_equal.
    rewrite <- list_fmap_compose. induction Hok as [|x leaves (Hwf & _ & fuel & a' & Hrun) _ IH]; [done|].
    cbn [fmap list_fmap zip_with]. f_equal; [|exact IH]. unfold abs_of.
    exact (f_equal abs_state (proj1 (leaf_simulated fuel (ld_leaf x) D (ld_result x) a'
                                       (ld_atoms x) Hwf Hrun))).
Qed.

(** Every tuple of the product within the bound has its abstraction among the
    tuples of the abstract composition. *)
Lemma star_simulated D center leaves ids n joint :
  Forall (leaf_ok D) leaves → n ≤ D →
  jsteps (concrete_star center leaves) ids n (comp_start <$> concrete_star center leaves) joint →
  ∃ s0 ss, joint = s0 :: ss ∧ Forall2 (leaf_at n) leaves ss ∧
    jsteps (abstract_star center leaves) ids n (comp_start <$> abstract_star center leaves)
      (abs_tuple leaves joint).
Proof.
  intros Hok Hn Hs. destruct (star_start D center leaves Hok) as (Hat0 & Hc & Ha).
  rewrite Hc in Hs. rewrite Ha.
  remember (comp_start center :: ((fun x => comp_start (ld_leaf x)) <$> leaves)) as start0 eqn:E0.
  induction Hs as [|n j0 j1 j2 l Hs IH Hm].
  { subst. eexists _, _. split_and!; [done|done|constructor]. }
  destruct IH as (s0 & ss & -> & Hat & Hsteps); [lia|done..|].
  destruct (star_move D center leaves ids n s0 ss l j2) as (s0' & ss' & l' & -> & Hat' & Hm');
    [done|done|lia|done|].
  exists s0', ss'. split_and!; [done|done|]. by econstructor.
Qed.

(** ** Formulas over the interface *)

(** Every predicate is [has(id.k)], of any key of the center or of an
    interface key of a leaf. *)
Fixpoint interface_formula (ids : list string) (leaves : list leaf_data) (p : Expr) : Prop :=
  match p with
  | Predicate n v =>
      str_lower n = "has" ∧
      ∃ i cid k, v = Some (dotted cid +:+ k) ∧ ids !! i = Some cid ∧
        match i with 0 => True | S i' => ∃ x, leaves !! i' = Some x ∧ k ∈ ld_atoms x end
  | Not c => interface_formula ids leaves c
  | And l r | Or l r => interface_formula ids leaves l ∧ interface_formula ids leaves r
  | _ => False
  end.

(** On truthy stores the abstraction shows exactly the interface facts. *)
Lemma abs_has n x s k :
  leaf_at n x s → k ∈ ld_atoms x → is_Some (store (abs_of x s) !! k) ↔ is_Some (store s !! k).
Proof.
  intros (_ & Ht & _) Hk. unfold abs_of. rewrite lookup_abs_state.
  case_decide as Hp; rewrite elem_of_present_of in Hp.
  - destruct Hp as [_ Hp]. destruct (store s !! k); naive_solver.
  - split; [by intros []|]. intros [v Hv]. destruct Hp. rewrite Hv. split; [done|].
    exact (Ht k v Hv).
Qed.

Lemma abs_tuple_eval {A B} `{Adapter A, Adapter B} ids leaves n s0 ss p (a : A) (b : B) :
  prefix_free ids = true → length ids = S (length leaves) →
  Forall2 (leaf_at n) leaves ss → interface_formula ids leaves p →
  eval_state_expr p (_project (s0 :: ss) ids) a =
  eval_state_expr p (_project (abs_tuple leaves (s0 :: ss)) ids) b.
Proof.
  intros Hpf Hlen Hat. induction p as [nm v|c IH|l IHl r IHr|l IHl r IHr| |]; simpl; [|..|done|done].
  - intros (Hn & i & cid & k & -> & Hi & Hk). f_equal. unfold _eval_predicate. rewrite Hn. simpl.
    apply bool_decide_ext. destruct i as [|i].
    + rewrite !(project_store ids _ 0 cid s0) by done. done.
    + destruct Hk as (x & Hx & Hk). destruct (Forall2_lookup_l _ _ _ _ _ Hat Hx) as (s & Hs & Hxs).
      rewrite (project_store ids (s0 :: ss) (S i) cid s) by done.
      rewrite (project_store ids (s0 :: zip_with abs_of leaves ss) (S i) cid (abs_of x s)).
      * symmetry. by eapply abs_has.
      * done.
      * done.
      * simpl. rewrite lookup_zip_with, Hx. simpl. by rewrite Hs.
  - intros Hc. by rewrite IH.
  - intros [Hl Hr]. by rewrite IHl, IHr.
  - intros [Hl Hr]. by rewrite IHl, IHr.
Qed.

(** ** Discharging a formula *)

Lemma verify_one_ag fuel comps ids D f p r a' :
  comps ≠ [] → length ids = length comps → NoDup ids → "" ∉ ids → prefix_free ids = true →
  Forall comp_wf comps → parse_expr f = Ok (Ctl "AG" p) → has_ctl_nodes p = false →
  explorer_run (K:=K) fuel (mkJA comps ids []) D "full" = Some (Ok (r, a')) →
  ∃ b n, verify_one (K:=K) fuel comps ids D "full" f = Some (Ok (b, n)) ∧
    (b = true ↔ ∀ n joint, n ≤ D → jsteps comps ids n (comp_start <$> comps) joint →
                  joint_holds (K:=K) comps ids p joint = Ok true).
Proof.
  intros Hne Hlen Hnd Hem Hpf Hw Hp Hc Hr.
  destruct (joint_verify_at fuel comps ids [f] D true r a') as (rep & Hrep & _ & _ & Hv);
    [done..|constructor; [by rewrite Hp|done]|done|].
  inversion Hv as [|f' v ? vs [_ Hsat] Hnil Ef Ev]; subst. inversion Hnil; subst.
  exists (jv_satisfied v), (jr_state_count rep). split; [|by apply Hsat].
  unfold verify_one. rewrite Hrep. simpl. by rewrite <- Ev.
Qed.

Lemma concrete_members env center leaves :
  ag_concrete env = reverse (zip (ag_ids env) (center :: (ld_leaf <$> leaves))) →
  length (ag_ids env) = S (length leaves) → NoDup (ag_ids env) →
  mapM (concrete_at env) (ag_ids env) = Ok (concrete_star center leaves).
Proof.
  intros Hconc Hlen Hnd. set (comps := center :: (ld_leaf <$> leaves)) in *.
  assert (concrete_star center leaves = inl <$> comps) as ->.
  { unfold concrete_star, comps. rewrite fmap_cons. by rewrite <- list_fmap_compose. }
  assert (length comps = length (ag_ids env)) as Hl.
  { unfold comps. simpl. by rewrite length_fmap, Hlen. }
  apply mapM_res_ok, Forall2_same_length_lookup. split; [by rewrite length_fmap|].
  intros i cid c Hi Hc. rewrite list_lookup_fmap in Hc. apply fmap_Some in Hc as (a & Ha & ->).
  unfold concrete_at. rewrite (alookup_NoDup cid a); [done| |].
  - rewrite Hconc, fmap_reverse, fst_zip by lia. by rewrite reverse_Permutation.
  - rewrite Hconc. apply elem_of_reverse. apply (list_elem_of_lookup_2 _ i).
    by apply lookup_zip_Some.
Qed.

(** C16: no false PASS: for a star with prefix-free ids, leaves whose stores
    start with truthy values, and an [AG] of a state formula over [has(...)]
    facts of the center and of the leaves' interfaces, checked with the full
    hash: when the abstract composition passes the formula, the full product
    passes it too, at the same depth. *)
Theorem compositional_no_false_pass center leaves ids D f p cyclic :
  length ids = S (length leaves) → NoDup ids → "" ∉ ids → prefix_free ids = true →
  tm_wf center → Forall (leaf_ok D) leaves →
  parse_expr f = Ok (Ctl "AG" p) → has_ctl_nodes p = false → interface_formula ids leaves p →
  ∃ fuel0, ∀ fuel, fuel0 ≤ fuel →
    let env := mkEnv fuel D "full" ids (reverse (zip ids (center :: (ld_leaf <$> leaves))))
                 (abstract_star center leaves) cyclic in
    ∃ b, center_verify (K:=K) env f = Some (Ok b) ∧
         (b = true → ∃ n, mono_verify (K:=K) env f = Some (Ok (true, n))).
Proof.
  intros Hlen Hnd Hem Hpf Hwc Hok Hp Hc Hif.
  assert (Forall comp_wf (concrete_star center leaves)) as Hcw.
  { constructor; [exact Hwc|]. apply Forall_fmap. eapply Forall_impl; [exact Hok|].
    intros x (Hw & _). exact Hw. }
  assert (Forall comp_wf (abstract_star center leaves)) as Haw.
  { constructor; [exact Hwc|]. apply Forall_fmap, Forall_true. intros x. apply abstract_wf. }
  assert (length ids = length (concrete_star center leaves)) as Hl1
    by (simpl; by rewrite length_fmap).
  assert (length ids = length (abstract_star center leaves)) as Hl2
    by (simpl; by rewrite length_fmap).
  destruct (joint_run_total (K:=K) _ ids D Hl1 Hpf Hcw) as [f1 Hrun1].
  destruct (joint_run_total (K:=K) _ ids D Hl2 Hpf Haw) as [f2 Hrun2].
  exists (f1 `max` f2). intros fuel Hle env.
  destruct (Hrun1 fuel) as (r1 & a1 & Hr1); [lia|]. destruct (Hrun2 fuel) as (r2 & a2 & Hr2); [lia|].
  destruct (verify_one_ag fuel (concrete_star center leaves) ids D f p r1 a1) as (b1 & n1 & Hv1 & Hb1); [done..|].
  destruct (verify_one_ag fuel (abstract_star center leaves) ids D f p r2 a2) as (b2 & n2 & Hv2 & Hb2); [done..|].
  exists b2. split; [unfold center_verify; simpl; by rewrite Hv2|]. intros ->.
  exists n1. unfold mono_verify. rewrite (concrete_members env center leaves) by done. simpl.
  rewrite Hv1. do 3 f_equal. apply Hb1. intros n joint Hn Hs.
  destruct (star_simulated D center leaves ids n joint Hok Hn Hs) as (s0 & ss & -> & Hat & Hs').
  unfold joint_holds. rewrite (abs_tuple_eval ids leaves n s0 ss p _
    (remember (K:=K) (mkJA (abstract_star center leaves) ids []) (abs_tuple leaves (s0 :: ss))))
    by done.
  by apply (proj1 Hb2 eq_refl n).
Qed.

(** ** Formulas over one component *)

(** Every predicate is [has], [pending] or [done] of a key of [cid]. *)
Fixpoint local_formula (cid : string) (p : Expr) : Prop :=
  match p with
  | Predicate n v => str_lower n ∈ ["has"; "pending"; "done"] ∧ ∃ k, v = Some (dotted cid +:+ k)
  | Not c => local_formula cid c
  | And l r | Or l r => local_formula cid l ∧ local_formula cid r
  | _ => False
  end.

(** The truth of such a formula depends on the state of [cid] only. *)
Lemma local_eval {A B} `{Adapter A, Adapter B} cid p s ids joint i ids' joint' i' (a : A) (b : B) :
  prefix_free ids = true → ids !! i = Some cid → joint !! i = Some s →
  prefix_free ids' = true → ids' !! i' = Some cid → joint' !! i' = Some s →
  local_formula cid p →
  eval_state_expr p (_project joint ids) a = eval_state_expr p (_project joint' ids') b.
Proof.
  intros Hpf Hi Hs Hpf' Hi' Hs'.
  induction p as [n v|c IH|l IHl r IHr|l IHl r IHr| |]; simpl; [|..|done|done].
  - intros (Hn & k & ->). f_equal. unfold _eval_predicate. unfold inb.
    set_unfold in Hn. destruct Hn as [->|[->|[->|[]]]]; simpl; apply bool_decide_ext.
    + by rewrite (project_store ids joint i cid s), (project_store ids' joint' i' cid s).
    + by rewrite (project_list_elem FPending ids joint i cid s k),
        (project_list_elem FPending ids' joint' i' cid s k).
    + by rewrite (project_list_elem FDone ids joint i cid s k),
        (project_list_elem FDone ids' joint' i' cid s k).
  - intros Hc. by rewrite IH.
  - intros [Hl Hr]. by rewrite IHl, IHr.
  - intros [Hl Hr]. by rewrite IHl, IHr.
Qed.

(** A component's state in the product is reached by its own moves, and the
    product can let it run alone. *)
Lemma product_local (comps : list member) ids i c cid n joint :
  comps !! i = Some c → ids !! i = Some cid →
  jsteps comps ids n (comp_start <$> comps) joint →
  ∃ s d, joint !! i = Some s ∧ d ≤ n ∧ jsteps [c] [cid] d [comp_start c] [s].
Proof.
  intros Hc Hi Hs. remember (comp_start <$> comps) as joint0 eqn:E.
  induction Hs as [|n j0 j1 j2 l Hs IH (x & cx & cidx & sx & l0 & s' & Hcx & Hix & Hsx & Hp & -> & ->)].
  { subst. exists (comp_start c), 0. split_and!; [by rewrite list_lookup_fmap, Hc|lia|constructor]. }
  destruct (IH E) as (s & d & Hj & Hd & Hsd). destruct (decide (x = i)) as [->|Hne].
  - simplify_eq. exists s', (S d). split_and!; [|lia|].
    + apply list_lookup_insert_eq. by eapply lookup_lt_Some.
    + eapply jsteps_snoc; [exact Hsd|]. by exists 0, c, cid, sx, l0, s'.
  - exists s, d. split_and!; [by rewrite list_lookup_insert_ne|lia|done].
Qed.

Lemma local_product (comps : list member) ids i c cid n joint s0 tuple :
  comps !! i = Some c → ids !! i = Some cid → tuple !! i = Some s0 →
  jsteps [c] [cid] n [s0] joint →
  ∃ s, joint = [s] ∧ jsteps comps ids n tuple (<[i := s]> tuple).
Proof.
  intros Hc Hi Ht Hs. remember [s0] as j0 eqn:E.
  induction Hs as [|n j0 j1 j2 l Hs IH Hm].
  { subst. exists s0. split; [done|]. rewrite list_insert_id by done. constructor. }
  destruct (IH E) as (s & -> & Hp). destruct Hm as ([|x] & cx & cidx & sx & l0 & s' & Hcx & Hix & Hsx & Hpost & -> & ->);
    [|done].
  simpl in Hcx, Hix, Hsx. simplify_eq. exists s'. split; [done|].
  eapply jsteps_snoc; [exact Hp|]. exists i, cx, cidx, sx, l0, s'. split_and!; try done.
  - apply list_lookup_insert_eq. by eapply lookup_lt_Some.
  - by rewrite list_insert_insert_eq.
Qed.

(** Local discharge is exact: for an [AG] of a state formula over one
    component, checking that component alone gives the verdict of the full
    product, at the same depth. *)
Theorem single_component_exact center leaves ids D f p cid abs cyclic :
  length ids = S (length leaves) → NoDup ids → "" ∉ ids → prefix_free ids = true →
  tm_wf center → Forall (fun x => tm_wf (ld_leaf x)) leaves → cid ∈ ids →
  parse_expr f = Ok (Ctl "AG" p) → has_ctl_nodes p = false → local_formula cid p →
  ∃ fuel0, ∀ fuel, fuel0 ≤ fuel →
    let env := mkEnv fuel D "full" ids (reverse (zip ids (center :: (ld_leaf <$> leaves))))
                 abs cyclic in
    ∃ b n, exact_local (K:=K) env f cid = Some (Ok b) ∧
           mono_verify (K:=K) env f = Some (Ok (b, n)).
Proof.
  intros Hlen Hnd Hem Hpf Hwc Hok Hin Hp Hc Hlf.
  assert (Forall comp_wf (concrete_star center leaves)) as Hcw.
  { constructor; [exact Hwc|]. apply Forall_fmap. eapply Forall_impl; [exact Hok|].
    intros x Hw. exact Hw. }
  assert (length ids = length (concrete_star center leaves)) as Hl
    by (simpl; by rewrite length_fmap).
  apply list_elem_of_lookup in Hin as [i Hi].
  destruct (lookup_lt_is_Some_2 (concrete_star center leaves) i) as [c Hci].
  { rewrite <- Hl. by eapply lookup_lt_Some. }
  assert (Forall comp_wf [c]) as Hcw1 by (constructor; [by eapply Forall_lookup_1|constructor]).
  destruct (joint_run_total (K:=K) _ ids D Hl Hpf Hcw) as [f1 Hrun1].
  destruct (joint_run_total (K:=K) [c] [cid] D eq_refl eq_refl Hcw1) as [f2 Hrun2].
  exists (f1 `max` f2). intros fuel Hle env.
  destruct (Hrun1 fuel) as (r1 & a1 & Hr1); [lia|]. destruct (Hrun2 fuel) as (r2 & a2 & Hr2); [lia|].
  destruct (verify_one_ag fuel (concrete_star center leaves) ids D f p r1 a1)
    as (b1 & n1 & Hv1 & Hb1); [done..|].
  assert (cid ≠ "") as Hcid by (intros ->; apply Hem; by eapply list_elem_of_lookup_2).
  destruct (verify_one_ag fuel [c] [cid] D f p r2 a2) as (b2 & n2 & Hv2 & Hb2);
    [done|done|apply NoDup_singleton|set_solver|done..|].
  assert (concrete_at env cid = Ok c) as Hat.
  { pose proof (concrete_members env center leaves eq_refl Hlen Hnd) as Hm.
    apply mapM_res_ok in Hm. destruct (Forall2_lookup_l _ _ _ _ _ Hm Hi) as (c' & Hc' & E).
    by simplify_eq. }
  assert (b1 = b2) as ->.
  { apply eq_true_iff_eq. rewrite Hb1, Hb2. split.
    - intros Hall n joint Hn Hs.
      destruct (local_product (concrete_star center leaves) ids i c cid n joint (comp_start c)
                  (comp_start <$> concrete_star center leaves)) as (s & -> & Hs');
        [done|done|by rewrite list_lookup_fmap, Hci|done|].
      rewrite <- (Hall n _ Hn Hs'). unfold joint_holds.
      eapply (local_eval cid p s _ _ 0 _ _ i); try done.
      apply list_lookup_insert_eq. rewrite length_fmap. by eapply lookup_lt_Some.
    - intros Hall n joint Hn Hs.
      destruct (product_local _ _ i c cid n joint Hci Hi Hs) as (s & d & Hj & Hd & Hs').
      rewrite <- (Hall d [s]); [|lia|done]. by eapply (local_eval cid p s _ _ i _ _ 0). }
  exists b2, n1. split.
  - unfold exact_local. rewrite Hat. simpl. by rewrite Hv2.
  - unfold mono_verify. rewrite (concrete_members env center leaves) by done. simpl. exact Hv1.
Qed.
End simulation.
