(* ===== verification/Network.v ===== *)
(** * Network verification and reduction measurement
      ([tm/verify/network.py], [tm/verify/por.py])

    A star network resolved to its bundles and verified on the full product or
    compositionally; and the state counts of the product under both hash
    modes.  Below, what the reports mean, and the theorems of the verifier on
    concrete plans. *)

From S2P Require Import Prelude PyVal PyConv Selectors State TraceMindAdapter.
From S2P Require Import Explorer CtlSyntax Ctl Report Joint BundleAdapter Compositional.
From stdpp Require Import base gmap strings list fin_maps.
From Stdlib Require Import Lia.

(** The fields of [AgentNetworkEdge] and [AgentNetworkBody] that are read. *)
Record AgentNetworkEdge : Type := mkNEdge {
  ne_source : string; ne_target : string; ne_kpi_keys : list string
}.

Record AgentNetworkBody : Type := mkNetwork {
  nw_network_id : string;
  nw_topology : string;
  nw_center_bundle_ref : string;
  nw_leaf_bundle_refs : list string;
  nw_edges : list AgentNetworkEdge;
  nw_transport_default : string;
  nw_metadata : list (string * json)
}.

Record NetworkVerifyReport : Type := mkNReport {
  nr_verified : bool;
  nr_network_id : string;
  nr_component_ids : list string;
  nr_formulas : list string;
  nr_verdicts : list JointVerdict;
  nr_state_count : nat;
  nr_edge_count : nat;
  nr_deadlock_count : nat;
  nr_mode : string;
  nr_local_verdicts : list LocalVerdict;
  nr_abstraction_stats : list (string * AbstractionStats);
  nr_compositional_state_count : option nat;
  nr_monolithic_state_count : option nat;
  nr_fallbacks : list (Fallback * string)
}.

Definition network_failed_formulas (r : NetworkVerifyReport) : list string :=
  jv_formula <$> filter (fun v => jv_satisfied v = false) (nr_verdicts r).

Definition missing_bundle (ref : string) : exn :=
  KeyError ("missing bundle artifact for ref '" +:+ ref +:+ "'").

Section network.
Context {K : Type} `{Digest K} (other_str : json → string).
Implicit Types (bundles : gmap string AgentBundleBody) (network : AgentNetworkBody).

Definition resolve_bundle_adapters network bundles : res (list TraceMindAdapter * list string) :=
  let required := nw_center_bundle_ref network :: nw_leaf_bundle_refs network in
  adapters ← mapM (fun ref =>
    match bundles !! ref with
    | None => Raise (missing_bundle ref)
    | Some body => adapter_from_bundle other_str body
    end) required;
  Ok (adapters, required).

(** The mapping under a key, or an empty one. *)
Definition mapping_at (key : string) (m : list (string * json)) : list (string * json) :=
  match jget key m with JObj o => o | _ => [] end.

(** The keys on every edge that touches the leaf, in order, once. *)
Definition leaf_kpis network (ref : string) : list string :=
  foldl (fun kpis edge =>
    if String.eqb ref (ne_source edge) || String.eqb ref (ne_target edge)
    then append_new kpis (ne_kpi_keys edge) else kpis) [] (nw_edges network).

Definition resolve_leaf_spec network bundles (ref : string) : res LeafSpec :=
  match bundles !! ref with
  | None => Raise (missing_bundle ref)
  | Some body =>
      let contract := mapping_at ref (mapping_at "contracts" (nw_metadata network)) in
      guarantees ← str_list other_str "guarantees" contract;
      assumptions ← str_list other_str "assumptions" contract;
      Ok (mkLeaf ref body (leaf_kpis network ref) guarantees assumptions)
  end.

Definition resolve_leaf_specs network bundles : res (list LeafSpec) :=
  mapM (resolve_leaf_spec network bundles) (nw_leaf_bundle_refs network).

(** [via_by_formula[f.formula]]: the last verdict for the formula. *)
Definition via_of (verdicts : list CompositionalVerdict) (f : Fallback) : res (Fallback * string) :=
  match alookup (fb_formula f) (reverse ((fun v => (cv_formula v, cv_via v)) <$> verdicts)) with
  | Some via => Ok (f, via)
  | None => Raise (KeyError (fb_formula f))
  end.

Definition _zip_fallbacks (crep : CompositionalReport) : res (list (Fallback * string)) :=
  mapM (via_of (cr_verdicts crep)) (cr_fallbacks crep).

Definition _network_verify_compositional (fuel : nat) network bundles (formulas : list string)
  (max_depth : nat) (hash_mode : string) : fueled NetworkVerifyReport :=
  match bundles !! nw_center_bundle_ref network with
  | None => Some (Raise (missing_bundle (nw_center_bundle_ref network)))
  | Some center_bundle =>
      let! leaf_specs := Some (resolve_leaf_specs network bundles) in
      let! crep := assume_guarantee_verify (K:=K) other_str fuel center_bundle leaf_specs formulas
                     (nw_center_bundle_ref network) max_depth hash_mode in
      let! fallbacks := Some (_zip_fallbacks crep) in
      Some (Ok (mkNReport (cr_verified crep) (nw_network_id network)
                  (cr_center_id crep :: cr_leaf_ids crep) formulas
                  ((fun v => mkVerdict (cv_formula v) (cv_satisfied v) [] []) <$> cr_verdicts crep)
                  (cr_compositional_state_count crep) 0 0 "compositional"
                  (cr_local_verdicts crep) (cr_abstraction_stats crep)
                  (Some (cr_compositional_state_count crep)) (cr_monolithic_state_count crep)
                  fallbacks))
  end.

Definition network_verify (fuel : nat) network bundles (formulas : list string) (mode : string)
  (max_depth : nat) (hash_mode : string) (project : bool) : fueled NetworkVerifyReport :=
  match formulas with
  | [] => Some (Raise (ValueError "network_verify requires at least one formula"))
  | _ =>
      if negb (mode ∈? ["monolithic"; "compositional"]) then
        Some (Raise (ValueError ("mode must be 'monolithic' or 'compositional', got '" +:+ mode +:+ "'")))
      else if String.eqb mode "compositional" then
        _network_verify_compositional fuel network bundles formulas max_depth hash_mode
      else
        let! ac := Some (resolve_bundle_adapters network bundles) in
        let! report := joint_verify (K:=K) fuel ac.1 formulas (Some ac.2) max_depth hash_mode project in
        Some (Ok (mkNReport (jr_verified report) (nw_network_id network) (jr_component_ids report)
                    (jr_formulas report) (jr_verdicts report) (jr_state_count report)
                    (jr_edge_count report) (jr_deadlock_count report) "monolithic"
                    [] [] None None []))
  end.

(** ** Reduction measurement *)

Record PORMeasurement : Type := mkPOR {
  full_state_count : nat;
  store_state_count : nat;
  full_edge_count : nat;
  store_edge_count : nat;
  por_max_depth : nat
}.

Definition states_eliminated (m : PORMeasurement) : Z :=
  (Z.of_nat (full_state_count m) - Z.of_nat (store_state_count m))%Z.

Definition _edge_count (es : list (nat * list nat)) : nat := sum_list (length <$> es.*2).

(** Both runs share the adapter, so the second one starts with the memo the
    first one filled. *)
Definition measure_por (fuel : nat) {C} `{ComponentAdapter C} (components : list C)
  (component_ids : option (list string)) (max_depth : nat) : fueled PORMeasurement :=
  let! adapter := Some (from_components (K:=K) components component_ids) in
  let! full := explorer_run (K:=K) fuel adapter max_depth "full" in
  let! store := explorer_run (K:=K) fuel full.2 max_depth "store" in
  Some (Ok (mkPOR (length (states full.1)) (length (states store.1))
              (_edge_count (edges full.1)) (_edge_count (edges store.1)) max_depth)).

Definition measure_network_por (fuel : nat) network bundles (max_depth : nat)
  : fueled PORMeasurement :=
  let! ac := Some (resolve_bundle_adapters network bundles) in
  measure_por fuel ac.1 (Some ac.2) max_depth.
End network.

(** ** Reduction measurement: the store hash never adds states

    And instances of the compositional theorems on a small star, with two
    networks on which the compositional mode and the product disagree. *)

From S2P Require Import Prelude PyVal PyConv Selectors State TraceMindAdapter.
From S2P Require Import Explorer CtlSyntax Ctl Report Joint.
From S2P Require Import BundleAdapter Compositional CompositionalSpec.
From stdpp Require Import base gmap strings list fin_maps fin_sets.
From Stdlib Require Import Lia ZArith.

Section por.
Context {K : Type} `{InjDigest K} {C : Type} `{LawfulComponent C}.

Lemma explored_states_nodup hash root D (a : JointAdapter K C) (e : est K) k :
  explored hash root D a e k → NoDup (e_states e).
Proof.
  intros Hx. apply NoDup_alt. intros i j s Hi Hj.
  assert (alookup (hash s) (e_seen e) = Some i) by (apply (x_seen _ _ _ _ _ _ Hx); eauto).
  assert (alookup (hash s) (e_seen e) = Some j) by (apply (x_seen _ _ _ _ _ _ Hx); eauto).
  congruence.
Qed.

(** The measurement is total on well-formed components with prefix-free
    ids, and the store hash never lists more states than the full hash: the
    reported number of eliminated states is not negative. *)
Theorem measure_por_reduces (comps : list C) ids D :
  comps ≠ [] → length ids = length comps → NoDup ids → "" ∉ ids →
  prefix_free ids = true → Forall comp_wf comps →
  ∃ fuel0, ∀ fuel, fuel0 ≤ fuel →
    ∃ m, measure_por (K:=K) fuel comps (Some ids) D = Some (Ok m) ∧
         (0 ≤ states_eliminated m)%Z ∧ 0 < store_state_count m.
Proof.
  intros Hne Hlen Hnd Hem Hpf Hw.
  set (a0 := mkJA comps ids [] : JointAdapter K C).
  assert (adapter_wf a0) as Hwf0 by by apply joint_fresh_wf.
  destruct (explorer_total (K:=K) a0 D "full" HFull Hwf0 eq_refl) as [f1 Hrun1].
  destruct (Hrun1 f1 (le_n _)) as (r1 & a1 & Hr1).
  pose proof (explorer_run_wf _ _ _ _ _ _ Hwf0 Hr1) as Hwf1.
  destruct (explorer_total (K:=K) a1 D "store" HStore Hwf1 eq_refl) as [f2 Hrun2].
  exists (f1 `max` f2). intros fuel Hle. destruct (Hrun2 fuel) as (r2 & a2 & Hr2); [lia|].
  apply (explorer_run_mono _ fuel) in Hr1; [|lia].
  unfold measure_por. rewrite from_components_ok by done. simpl. fold a0. rewrite Hr1. simpl.
  rewrite Hr2. simpl. eexists. split_and!; [reflexivity| |].
  2: { simpl. exact (explorer_nonempty _ _ _ _ _ _ Hwf1 Hr2). }
  pose proof (joint_run_fields _ _ _ _ _ _ Hr1) as [Ec1 Ei1].
  pose proof (joint_run_fields _ _ _ _ _ _ Hr2) as [Ec2 Ei2].
  pose proof (explorer_run_wf _ _ _ _ _ _ Hwf1 Hr2) as Hwf2.
  destruct (explorer_run_explored _ _ _ _ _ _ Hwf0 Hr1) as (m1 & e1 & [= <-] & -> & Hx1).
  destruct (explorer_run_explored _ _ _ _ _ _ Hwf1 Hr2) as (m2 & e2 & [= <-] & -> & Hx2).
  unfold states_eliminated. simpl. apply Zle_minus_le_0, inj_le, submseteq_length.
  apply NoDup_submseteq; [by eapply explored_states_nodup|]. intros s [i Hi]%list_elem_of_lookup.
  destruct (explored_listed _ _ _ _ _ _ _ _ Hx2 Hi) as (Hk & n & Hn & Hs).
  pose proof (joint_start_ok a2 Hwf2) as Hok2. pose proof (joint_start_ok a1 Hwf1) as Hok1.
  simpl in Hs, Hx1, Ec1, Ei1. rewrite Ec1 in Ec2, Hok1. rewrite Ei1 in Ei2. rewrite Ec2 in Hok2.
  assert (steps a2 n (_project (comp_start <$> comps) (j_ids a2)) s) as Hs2
    by (rewrite Ei2; rewrite Ec1, Ei1 in Hs; exact Hs).
  destruct (steps_jsteps a2 n _ s Hwf2 Hok2 Hk Hs2) as (joint & Hjs & _ & ->).
  apply (joint_listed_iff a1 e1 D (comp_start <$> comps) _ Hwf1 Hok1); [by rewrite Ei1|].
  exists n, joint. rewrite Ec1, Ei1, Ei2. rewrite Ec2, Ei2 in Hjs. done.
Qed.
End por.

(** ** A small star *)

#[local] Existing Instance identity_digest.
#[local] Existing Instance identity_digest_inj.

Definition no_repr (v : json) : string := "?".

Definition jstrs (l : list string) : json := JArr (JStr <$> l).

Definition jstep (n : string) (reads writes : list string) : string * json :=
  (n, JObj [("reads", jstrs reads); ("writes", jstrs writes)]).

Definition bundle (n : string) (store : list (string * json)) (pend : list string)
  (steps : list (string * json)) (rules : list (string * list string * list string))
  : AgentBundleBody :=
  mkBundle n [("verify", JObj [
    ("initial_store", JObj store); ("initial_pending", jstrs pend); ("steps", JObj steps);
    ("rules", JArr ((fun r => JObj [("name", JStr r.1.1); ("triggers", jstrs r.1.2);
                                    ("steps", jstrs r.2)]) <$> rules))])].

(** The center raises [up]; the leaf fetches [x], then [use] writes [out]. *)
Definition center_bundle : AgentBundleBody :=
  bundle "center" [] ["raise"] [jstep "raise" [] ["up"]] [].

Definition leaf_bundle (out : string) (store : list (string * json)) : AgentBundleBody :=
  bundle "leaf" store ["fetch"] [jstep "fetch" [] ["x"]; jstep "use" ["x"] [out]]
    [("r", ["x"], ["use"])].

Definition star_network : AgentNetworkBody :=
  mkNetwork "net" "star" "center" ["leaf"] [mkNEdge "leaf" "center" ["kpi"]] "file_queue" [].

Definition star_bundles (out : string) (store : list (string * json)) : gmap string AgentBundleBody :=
  <["center" := center_bundle]> {["leaf" := leaf_bundle out store]}.

(** The verdicts of a network run. *)
Definition network_verdicts (out : string) (store : list (string * json)) (f mode : string) : option (list bool) :=
  match network_verify (K:=json) no_repr 100 star_network (star_bundles out store) [f] mode 6 "full" true with
  | Some (Ok r) => Some (jv_satisfied <$> nr_verdicts r)
  | _ => None
  end.

(** An interface formula gets the same verdict in both modes. *)
Example modes_agree :
  network_verdicts "kpi" [] "AG(!(has(center.up) && has(leaf.kpi)))" "monolithic" = Some [false] ∧
  network_verdicts "kpi" [] "AG(!(has(center.up) && has(leaf.kpi)))" "compositional" = Some [false].
Proof. vm_compute. done. Qed.

(** A formula over [pending] of a leaf is classified as safety, but an
    abstract state has no pending steps: the compositional mode passes what
    the product refutes. *)
Lemma compositional_pending_false_pass :
  network_verdicts "kpi" [] "AG(!(has(center.up) && pending(leaf.use)))" "monolithic" = Some [false] ∧
  network_verdicts "kpi" [] "AG(!(has(center.up) && pending(leaf.use)))" "compositional" = Some [true].
Proof. vm_compute. done. Qed.

(** So is a formula over a leaf's fact that is on no edge and in no
    guarantee, *)
Lemma compositional_internal_false_pass :
  network_verdicts "kpi" [] "AG(!(has(center.up) && has(leaf.x)))" "monolithic" = Some [false] ∧
  network_verdicts "kpi" [] "AG(!(has(center.up) && has(leaf.x)))" "compositional" = Some [true].
Proof. vm_compute. done. Qed.

(** and one over an interface fact that is present with a falsy value. *)
Lemma compositional_falsy_false_pass :
  network_verdicts "y" [("kpi", JBool false)] "AG(!(has(center.up) && has(leaf.kpi)))" "monolithic"
    = Some [false] ∧
  network_verdicts "y" [("kpi", JBool false)] "AG(!(has(center.up) && has(leaf.kpi)))" "compositional"
    = Some [true].
Proof. vm_compute. done. Qed.

(** ** Instances of the theorems *)

Definition adapter_of (b : AgentBundleBody) : TraceMindAdapter :=
  res_default (mkAdapter (mkPlan [] []) ∅ [] [] []) (adapter_from_bundle no_repr b).

Definition demo_center : TraceMindAdapter := adapter_of center_bundle.
Definition demo_leaf : TraceMindAdapter := adapter_of (leaf_bundle "kpi" []).

Definition demo_leaf_result : ExplorationResult :=
  match explorer_run (K:=json) 50 demo_leaf 6 "full" with
  | Some (Ok (r, _)) => r
  | _ => mkResult [] [] ∅ [] HFull 0
  end.

Definition demo_leaves : list leaf_data := [mkLD demo_leaf ["kpi"] demo_leaf_result].

Definition star_ids : list string := ["center"; "leaf"].

Lemma demo_center_wf : tm_wf demo_center.
Proof. split; [by vm_compute|]. apply map_Forall_empty. Qed.

Lemma demo_leaf_wf : tm_wf demo_leaf.
Proof. split; [by vm_compute|]. apply map_Forall_empty. Qed.

Lemma demo_leaves_ok : Forall (leaf_ok (K:=json) 6) demo_leaves.
Proof.
  constructor; [|constructor]. split_and!; [apply demo_leaf_wf|apply map_Forall_empty|].
  exists 50, demo_leaf. vm_compute. reflexivity.
Qed.

Lemma star_ids_nodup : NoDup star_ids.
Proof. apply (bool_decide_unpack (NoDup star_ids)). by vm_compute. Qed.

Lemma star_ids_nonempty : "" ∉ star_ids.
Proof. apply (bool_decide_unpack (¬ ("" ∈ star_ids))). by vm_compute. Qed.

Definition star_formula : Expr :=
  Not (And (Predicate "has" (Some "center.down")) (Predicate "has" (Some "leaf.kpi"))).

Lemma compositional_no_false_pass_witness :
  ∃ fuel0, ∀ fuel, fuel0 ≤ fuel →
    let env := mkEnv fuel 6 "full" star_ids (reverse (zip star_ids [demo_center; demo_leaf]))
                 (abstract_star demo_center demo_leaves) None in
    ∃ b, center_verify (K:=json) env "AG(!(has(center.down) && has(leaf.kpi)))" = Some (Ok b) ∧
      (b = true → ∃ n, mono_verify (K:=json) env "AG(!(has(center.down) && has(leaf.kpi)))"
                       = Some (Ok (true, n))).
Proof.
  apply (compositional_no_false_pass demo_center demo_leaves star_ids 6 _ star_formula None).
  - reflexivity.
  - exact star_ids_nodup.
  - exact star_ids_nonempty.
  - by vm_compute.
  - exact demo_center_wf.
  - exact demo_leaves_ok.
  - by vm_compute.
  - reflexivity.
  - split; (split; [reflexivity|]).
    + by exists 0, "center", "down".
    + exists 1, "leaf", "kpi". split_and!; [reflexivity|reflexivity|].
      eexists. split; [reflexivity|]. left.
Defined.

Lemma single_component_exact_witness :
  ∃ fuel0, ∀ fuel, fuel0 ≤ fuel →
    let env := mkEnv fuel 6 "full" star_ids (reverse (zip star_ids [demo_center; demo_leaf]))
                 [] None in
    ∃ b n, exact_local (K:=json) env "AG(!pending(leaf.other))" "leaf" = Some (Ok b) ∧
           mono_verify (K:=json) env "AG(!pending(leaf.other))" = Some (Ok (b, n)).
Proof.
  apply (single_component_exact demo_center demo_leaves star_ids 6 _
           (Not (Predicate "pending" (Some "leaf.other"))) "leaf" [] None).
  - reflexivity.
  - exact star_ids_nodup.
  - exact star_ids_nonempty.
  - by vm_compute.
  - exact demo_center_wf.
  - constructor; [apply demo_leaf_wf|constructor].
  - right. left.
  - by vm_compute.
  - reflexivity.
  - split; [right; left|]. by exists "other".
Defined.

Lemma measure_por_reduces_witness :
  ∃ fuel0, ∀ fuel, fuel0 ≤ fuel →
    ∃ m, measure_por (K:=json) fuel [demo_center; demo_leaf] (Some star_ids) 6 = Some (Ok m) ∧
         (0 ≤ states_eliminated m)%Z ∧ 0 < store_state_count m.
Proof.
  apply (measure_por_reduces [demo_center; demo_leaf] star_ids 6).
  - done.
  - reflexivity.
  - exact star_ids_nodup.
  - exact star_ids_nonempty.
  - by vm_compute.
  - constructor; [apply demo_center_wf|]. constructor; [apply demo_leaf_wf|constructor].
Defined.

(** ** The verifier on concrete plans

    Instances of the theorems on the explorer, the CTL evaluator and the
    report, evaluated on small plans, and two plans on which the code departs
    from its documentation: a path that does not start in the initial state,
    and a reachable fact that the store hash hides. *)

From S2P Require Import Prelude PyVal Selectors State TraceMindAdapter.
From S2P Require Import Explorer CtlSyntax CtlParse CtlRoundtrip Ctl CtlSpec.
From S2P Require Import Report Joint.
From stdpp Require Import base gmap strings list fin_maps fin_sets.
From Stdlib Require Import Lia.

#[local] Existing Instance identity_digest.
#[local] Existing Instance identity_digest_inj.

Definition pure_step (n : string) (reads writes clears : list string) : string * StepSpec :=
  (n, mkStep n reads writes (fun j => Ok j) clears).

(** A two-step plan: [fetch] writes [x], which triggers [use]. *)
Definition demo_plan : Plan :=
  mkPlan [pure_step "fetch" [] ["x"] []; pure_step "use" ["x"] ["y"] []]
         [mkRule "r" ["x"] ["use"]].

Definition demo : TraceMindAdapter := mkAdapter demo_plan ∅ [] ["fetch"] [].

Definition result_of (r : option (res (ExplorationResult * TraceMindAdapter))) : ExplorationResult :=
  match r with
  | Some (Ok (r, _)) => r
  | _ => mkResult [] [] ∅ [] HFull 0
  end.

Definition demo_result : ExplorationResult :=
  result_of (explorer_run (K:=json) 20 demo 5 "full").

Lemma demo_wf : adapter_wf demo.
Proof. split; [by vm_compute|]. apply map_Forall_empty. Qed.

Lemma demo_run : explorer_run (K:=json) 20 demo 5 "full" = Some (Ok (demo_result, demo)).
Proof. vm_compute. reflexivity. Qed.

Lemma demo_hash_inj (s1 s2 : State) :
  known demo s1 → known demo s2 → hash_with (K:=json) HFull s1 = hash_with HFull s2 → s1 = s2.
Proof. intros H1 H2. by apply hash_full_inj. Qed.

Lemma demo_model_wf : model_wf demo_result.
Proof. exact (explorer_model_wf _ _ _ _ _ _ demo_wf demo_run). Qed.

Lemma explorer_correct_witness :
  adapter_wf demo ∧ ∃ fuel0 r a', (∀ fuel, fuel0 ≤ fuel → explorer_run (K:=json) fuel demo 5 "full" = Some (Ok (r, a'))) ∧
    exact_result (K:=json) demo 5 HFull r a'.
Proof.
  split; [exact demo_wf|]. destruct (explorer_correct (K:=json) demo 5 "full" demo_wf) as (fuel0 & [[r a']|e] & Hrun & Hok & Hex).
  - exists fuel0, r, a'. split; [exact Hrun|]. by apply Hex.
  - assert (is_ok (Raise e : res (ExplorationResult * TraceMindAdapter)) = true) by (apply Hok; by left). done.
Defined.

Lemma path_to_correct_witness :
  path_to demo_result 2 = [0; 1; 2] ∧ is_path demo_result (path_to demo_result 2).
Proof.
  split; [by vm_compute|].
  apply (path_to_correct 20 demo 5 "full" demo_result demo 2 demo_wf demo_run).
  apply Nat.ltb_lt. by vm_compute.
Defined.

Lemma plan_semantics_witness :
  tm_wf demo ∧ provenance demo 0 (start demo) ∧
  ∃ l, tm_successors demo (start demo) = Ok l ∧ l.*1 = ["fetch"] ∧
    ∀ n st', (n, st') ∈ l → events st' = ["step:" +:+ n].
Proof.
  destruct (plan_semantics demo demo_wf) as [Ht Hp]. destruct (Ht (start demo)) as (l & Hl & _ & Hpost & _).
  split; [exact demo_wf|]. split; [apply Hp; constructor|]. exists l. split_and!; [done| |].
  - vm_compute in Hl. by injection Hl as <-.
  - intros n st' Hin. destruct (Hpost n st' Hin) as (_ & _ & _ & _ & _ & He). exact He.
Defined.

(** A formula with every kind of node. *)
Definition demo_formula : Expr :=
  And (Ctl "EF" (Predicate "has" (Some "y")))
      (Or (Not (Predicate "done" (Some "use"))) (Until "AU" (Predicate "pending" (Some "fetch"))
          (Predicate "Terminal" None))).

Lemma unparse_parse_roundtrip_witness :
  _unparse demo_formula =
    "(EF has(y) && (!done(use) || AU(pending(fetch), Terminal)))" ∧
  parse_expr (_unparse demo_formula) = Ok demo_formula.
Proof. split; [by vm_compute|]. apply (unparse_parse_roundtrip demo_formula). by vm_compute. Defined.

Lemma check_ctl_correct_witness :
  ∃ S, check_ctl demo_formula demo_result demo = Ok S ∧
       ∀ i, i ∈ S ↔ i < length (states demo_result) ∧ holds demo demo_result demo_formula i.
Proof. apply (check_ctl_correct demo demo_result demo_formula demo_model_wf). by vm_compute. Defined.

Lemma check_invariant_verdict_witness :
  ∃ r, check_invariant demo_result demo "!has(y)" = Ok r ∧ ir_ok r = false ∧
       ir_path r = [0; 1; 2].
Proof.
  destruct (check_invariant_verdict demo_result demo "!has(y)") as (r & Hr & _ & _).
  exists r. vm_compute in Hr. injection Hr as <-. vm_compute. done.
Defined.

Lemma invariant_bounded_safety_witness :
  length (states demo_result) = 3 ∧
  ∀ n s, n ≤ 5 → steps demo n (start demo) s → known demo s →
    eval_state_expr (Not (Predicate "has" (Some "z"))) s demo = Ok true.
Proof.
  split; [by vm_compute|].
  apply (invariant_bounded_safety 20 demo 5 "full" HFull demo_result demo "!has(z)"
           (Not (Predicate "has" (Some "z"))) demo_wf eq_refl demo_hash_inj demo_run).
  - by vm_compute.
  - reflexivity.
  - eexists. split; [by vm_compute|reflexivity].
Defined.

Lemma check_property_verdict_witness :
  pr_ok (check_property demo_result demo (mkPropSpec "p" "AF(has(y))")) = true ∧
  ∃ e, parse_expr "AF(has(y))" = Ok e ∧ holds demo demo_result e 0.
Proof.
  split; [by vm_compute|].
  apply (check_property_verdict demo_result demo (mkPropSpec "p" "AF(has(y))") demo_model_wf);
    [apply Nat.ltb_lt; by vm_compute|by vm_compute].
Defined.

Lemma counterexample_is_initial_witness :
  pr_counterexample (check_property demo_result demo (mkPropSpec "p" "AG(!has(y))")) = [0].
Proof.
  rewrite (counterexample_is_initial demo_result demo (mkPropSpec "p" "AG(!has(y))")
             (Ctl "AG" (Not (Predicate "has" (Some "y")))) demo_model_wf).
  - by vm_compute.
  - apply Nat.ltb_lt. by vm_compute.
  - by vm_compute.
  - by vm_compute.
Defined.

(** ** Two copies of the plan side by side *)

Definition pair_ids : list string := ["center"; "leaf"].

Definition pair_starts : list State := comp_start <$> [demo; demo].

Definition pair_adapter : JointAdapter json TraceMindAdapter :=
  remember (mkJA [demo; demo] pair_ids []) pair_starts.

Lemma pair_ok : joint_ok pair_adapter pair_starts.
Proof. repeat constructor; apply map_Forall_empty. Qed.

Lemma pair_wf : joint_wf pair_adapter.
Proof.
  split_and!; [repeat constructor; apply demo_wf|reflexivity|by vm_compute|].
  constructor; [|constructor]. split; [reflexivity|exact pair_ok].
Qed.

Lemma joint_interleaving_witness :
  ∃ l a', joint_successors pair_adapter (_project pair_starts pair_ids) = Ok (l, a') ∧
    l.*1 = ["center:fetch"; "leaf:fetch"] ∧
    ∀ lab joint', jmove [demo; demo] pair_ids pair_starts lab joint' →
       _lookup_joint a' (_project joint' pair_ids) = Ok joint'.
Proof.
  destruct (joint_interleaving pair_adapter pair_starts pair_wf pair_ok) as (l & a' & Hs & _ & Hl).
  { left. }
  exists l, a'. split_and!; [exact Hs| |exact Hl].
  vm_compute in Hs. by injection Hs as <- _.
Defined.


Lemma joint_namespacing_witness :
  _eval_predicate "pending" (Some "leaf.fetch") (_project pair_starts pair_ids) pair_adapter = true.
Proof.
  destruct (joint_namespacing pair_adapter pair_starts 1 "leaf" (comp_start demo) "fetch")
    as (_ & Hp & _); [by vm_compute|reflexivity|reflexivity|].
  etransitivity; [exact Hp|]. by vm_compute.
Defined.

(** ** A path that does not start in the initial state *)

(** [on] and [off] undo each other, so an edge leads back to the initial
    state and gives it a predecessor. *)
Definition cyclic_plan : Plan :=
  mkPlan [pure_step "on" [] ["x"] []; pure_step "off" ["x"] ["y"] ["x"; "y"];
          pure_step "other" [] ["z"] []]
         [mkRule "a" ["x"] ["off"]; mkRule "b" ["y"] ["on"]].

Definition cyclic : TraceMindAdapter := mkAdapter cyclic_plan ∅ [] ["on"; "other"] [].

Definition cyclic_result : ExplorationResult :=
  result_of (explorer_run (K:=json) 40 cyclic 6 "store").

(** The path reported to the initial state, and through it the paths to other
    states, start in state 1. *)
Lemma path_to_skips_root :
  path_to cyclic_result 0 = [1; 0] ∧ path_to cyclic_result 2 = [1; 0; 2].
Proof. vm_compute. done. Qed.

(** ** The store hash hides a reachable fact *)

(** [touch] rewrites a fact that is already there: the store does not change,
    but [bad] becomes pending. *)
Definition hidden_plan : Plan :=
  mkPlan [pure_step "touch" [] ["k"] []; pure_step "bad" [] ["x"] []]
         [mkRule "r" ["k"] ["bad"]].

Definition hidden : TraceMindAdapter :=
  mkAdapter hidden_plan {["k" := JBool true]} [] ["touch"] [].

Definition hidden_verdict (mode : string) : option bool :=
  match explorer_run (K:=json) 40 hidden 6 mode with
  | Some (Ok (r, a)) =>
      match check_invariant r a "!has(x)" with Ok i => Some (ir_ok i) | Raise _ => None end
  | _ => None
  end.

(** The invariant [!has(x)] only reads the store; it passes in store mode and
    fails in full mode. *)
Lemma store_hash_false_pass :
  hidden_verdict "store" = Some true ∧ hidden_verdict "full" = Some false.
Proof. vm_compute. done. Qed.
