(* ===== verification/Rolling.v ===== *)
(** * Rolling windows and budgets
      ([tm/governance/utils.py], [tm/governance/budget.py])

    Timestamps are integers (ticks of a monotonic clock); values are floats. *)

From S2P Require Import Prelude PyVal.
From stdpp Require Import base gmap strings list.
From Stdlib Require Import ZArith Lia Sorting.

(** ** [RollingWindow] *)

Record RollingWindow : Type := mkRW {
  rw_window : Z;
  rw_entries : list (Z * pyfloat);
  rw_total : pyfloat
}.

Definition rw_new (window_sec : Z) : RollingWindow := mkRW (Z.max window_sec 0) [] fzero.

(** [while self._entries and self._entries[0].timestamp <= cutoff]. *)
Fixpoint prune_entries (cutoff : Z) (entries : list (Z * pyfloat)) (total : pyfloat)
  : list (Z * pyfloat) * pyfloat :=
  match entries with
  | [] => ([], total)
  | (t, v) :: rest =>
      if (t <=? cutoff)%Z then prune_entries cutoff rest (fsub total v) else (entries, total)
  end.

Definition _prune (w : RollingWindow) (current_ts : Z) : RollingWindow :=
  let '(entries, total) :=
    prune_entries (current_ts - rw_window w) (rw_entries w) (rw_total w) in
  mkRW (rw_window w) entries total.

Definition rw_observe (w : RollingWindow) (value : pyfloat) (timestamp : Z) : RollingWindow :=
  if (rw_window w <=? 0)%Z then w
  else
    let w' := _prune w timestamp in
    mkRW (rw_window w') (rw_entries w' ++ [(timestamp, value)]) (fadd (rw_total w') value).

Definition rw_get_total (w : RollingWindow) (timestamp : Z) : pyfloat * RollingWindow :=
  if (rw_window w <=? 0)%Z then (fzero, w)
  else let w' := _prune w timestamp in (rw_total w', w').

Definition rw_reset (w : RollingWindow) : RollingWindow := mkRW (rw_window w) [] fzero.

Definition rw_extend (w : RollingWindow) (entries : list (Z * pyfloat)) : RollingWindow :=
  let all := rw_entries w ++ entries in
  mkRW (rw_window w) all (foldl (fun acc e => fadd acc e.2) fzero all).

(** ** The window holds what was observed in the last [window] ticks *)

Fixpoint fsum (l : list (Z * pyfloat)) : pyfloat :=
  match l with [] => fzero | (_, v) :: l' => fadd v (fsum l') end.

Definition finite (v : pyfloat) : Prop := ∃ z, v = Fin z.

Lemma fsum_finite l : Forall (fun e => finite e.2) l → finite (fsum l).
Proof.
  induction 1 as [|[t v] l [z Hz] _ [s Hs]]; simpl; [by exists 0%Z|].
  simpl in Hz. rewrite Hz, Hs. simpl. eexists. reflexivity.
Qed.

Lemma fsum_app l k :
  Forall (fun e => finite e.2) l → Forall (fun e => finite e.2) k →
  fsum (l ++ k) = fadd (fsum l) (fsum k).
Proof.
  intros Hl Hk. destruct (fsum_finite k Hk) as [s Hs].
  induction Hl as [|[t v] l [z Hz] Hl' IH]; simpl; rewrite ?Hs; [done|].
  simpl in Hz. subst v. destruct (fsum_finite l Hl') as [s' Hs'].
  rewrite IH, Hs, Hs'. simpl. f_equal. lia.
Qed.

(** Entries newer than the cutoff. *)
Definition newer (cutoff : Z) (l : list (Z * pyfloat)) : list (Z * pyfloat) :=
  filter (fun e => cutoff < e.1)%Z l.

Definition by_time (l : list (Z * pyfloat)) : Prop := StronglySorted (fun a b => a.1 <= b.1)%Z l.

Lemma newer_all cutoff l : Forall (fun e => cutoff < e.1)%Z l → newer cutoff l = l.
Proof.
  induction 1 as [|e l He _ IH]; [done|]. unfold newer. rewrite filter_cons_True by done.
  f_equal. exact IH.
Qed.

Lemma prune_newer cutoff l total :
  by_time l → Forall (fun e => finite e.2) l → total = fsum l →
  prune_entries cutoff l total = (newer cutoff l, fsum (newer cutoff l)).
Proof.
  intros Hs Hf ->. induction Hs as [|[t v] l Hs IH Ht]; [done|].
  inversion Hf as [|? ? [z Hz] Hf']; subst. simpl in Hz. subst v. cbn [prune_entries].
  destruct (Z.leb_spec t cutoff) as [Hle|Hlt].
  - unfold newer. rewrite filter_cons_False by (simpl; lia). fold (newer cutoff l).
    rewrite <- IH by done. f_equal. destruct (fsum_finite l Hf') as [s Hs'].
    simpl. rewrite Hs'. simpl. f_equal. lia.
  - assert (newer cutoff ((t, Fin z) :: l) = (t, Fin z) :: l) as ->; [|done].
    apply newer_all. constructor; [done|]. eapply Forall_impl; [exact Ht|].
    intros e He. simpl in He. lia.
Qed.

(** The state of a window after the observations [obs], seen at the last
    timestamp [t]. *)
Record window_ok (w : RollingWindow) : Prop := {
  wo_sorted : by_time (rw_entries w);
  wo_finite : Forall (fun e => finite e.2) (rw_entries w);
  wo_total : rw_total w = fsum (rw_entries w)
}.

Lemma prune_ok w t :
  window_ok w → window_ok (_prune w t) ∧
  rw_window (_prune w t) = rw_window w ∧
  rw_entries (_prune w t) = newer (t - rw_window w) (rw_entries w).
Proof.
  intros [Hs Hf Ht]. unfold _prune. rewrite prune_newer by done. simpl. split_and!; [|done|done].
  constructor; simpl; [| |done].
  - clear -Hs. unfold newer, by_time in *. induction Hs as [|e l Hs IH He]; [constructor|].
    destruct (decide (t - rw_window w < e.1)%Z).
    + rewrite filter_cons_True by done. constructor; [done|].
      apply Forall_forall. intros x Hx%list_elem_of_filter. rewrite Forall_forall in He. naive_solver.
    + by rewrite filter_cons_False.
  - apply Forall_forall. intros x Hx%list_elem_of_filter. rewrite Forall_forall in Hf. naive_solver.
Qed.

Lemma observe_ok w v t :
  window_ok w → finite v → Forall (fun e => e.1 <= t)%Z (rw_entries w) →
  window_ok (rw_observe w v t) ∧ rw_window (rw_observe w v t) = rw_window w ∧
  Forall (fun e => e.1 <= t)%Z (rw_entries (rw_observe w v t)).
Proof.
  intros Hw Hv Ht. unfold rw_observe. destruct (rw_window w <=? 0)%Z; [done|].
  destruct (prune_ok w t Hw) as ([Hs Hf Htot] & Ew & Ee). simpl.
  assert (Forall (fun e => e.1 <= t)%Z (rw_entries (_prune w t))) as Hle.
  { rewrite Ee. apply Forall_forall. intros x Hx%list_elem_of_filter. rewrite Forall_forall in Ht.
    naive_solver. }
  split_and!; [|done|apply Forall_app; split; [done|constructor; [simpl; lia|done]]].
  constructor; simpl.
  - unfold by_time in *. clear -Hs Hle. induction Hs as [|e l Hs IH He]; simpl.
    { constructor; constructor. }
    inversion Hle; subst. constructor; [by apply IH|]. apply Forall_app. split; [done|].
    constructor; [done|constructor].
  - apply Forall_app. split; [done|]. by constructor.
  - rewrite fsum_app by (try done; by constructor). rewrite Htot. f_equal.
    destruct Hv as [z ->]. simpl. f_equal. lia.
Qed.

(** Reference: observations in order of time, each observed when it happens. *)
Definition observe_all (w : RollingWindow) (obs : list (Z * pyfloat)) : RollingWindow :=
  foldl (fun w e => rw_observe w e.2 e.1) w obs.

Lemma newer_newer a b l : (b <= a)%Z → newer a (newer b l) = newer a l.
Proof.
  intros Hab. unfold newer. rewrite list_filter_filter. apply list_filter_iff. intros x. lia.
Qed.

Lemma newer_app a l k : newer a (l ++ k) = newer a l ++ newer a k.
Proof. apply filter_app. Qed.

Lemma observe_all_newer obs w now :
  (0 < rw_window w)%Z → window_ok w → by_time obs →
  Forall (fun e => finite e.2) obs → Forall (fun e => e.1 <= now)%Z obs →
  Forall (fun e => Forall (fun o => e.1 <= o.1)%Z obs) (rw_entries w) →
  window_ok (observe_all w obs) ∧ rw_window (observe_all w obs) = rw_window w ∧
  newer (now - rw_window w) (rw_entries (observe_all w obs)) =
  newer (now - rw_window w) (rw_entries w ++ obs).
Proof.
  intros Hpos Hw Hs Hf Hn. revert w Hpos Hw.
  induction Hs as [|[t v] obs Hs IH Ht]; intros w Hpos Hw Hle; simpl.
  { by rewrite app_nil_r. }
  inversion Hf as [|? ? Hv Hf']; subst. inversion Hn as [|? ? Htn Hn']; subst. simpl in *.
  destruct (observe_ok w v t Hw Hv) as (Hw' & Ew & Hle').
  { eapply Forall_impl; [exact Hle|]. intros e He. by inversion He. }
  destruct (IH Hf' Hn' (rw_observe w v t)) as (Hw2 & Ew2 & E2); [by rewrite Ew|done| |].
  { eapply Forall_impl; [exact Hle'|]. intros e He. simpl in He.
    eapply Forall_impl; [exact Ht|]. intros o Ho. simpl in Ho. lia. }
  rewrite Ew in *. split_and!; [done|done|]. rewrite E2, !newer_app.
  unfold rw_observe. destruct (Z.leb_spec (rw_window w) 0); [lia|]. simpl.
  destruct (prune_ok w t Hw) as (_ & _ & Ee). rewrite Ee, newer_app, newer_newer by lia.
  rewrite <- (assoc_L (++)). f_equal. rewrite <- newer_app. done.
Qed.

Lemma fsum_ones l : Forall (fun e => e.2 = fone) l → fsum l = of_int (Z.of_nat (length l)).
Proof.
  induction 1 as [|[t v] l Hv _ IH]; [done|]. simpl in *. rewrite Hv, IH.
  unfold fone, of_int. simpl. f_equal. lia.
Qed.

Lemma rw_new_ok window : window_ok (rw_new window).
Proof. constructor; [constructor|constructor|done]. Qed.

Lemma rolling_total_newer (window now : Z) (obs : list (Z * pyfloat)) :
  (0 < window)%Z → by_time obs → Forall (fun e => finite e.2) obs →
  Forall (fun e => e.1 <= now)%Z obs →
  (rw_get_total (observe_all (rw_new window) obs) now).1 = fsum (newer (now - window) obs).
Proof.
  intros Hpos Hs Hf Hn.
  assert (rw_window (rw_new window) = window) as Ew by (simpl; lia).
  destruct (observe_all_newer obs (rw_new window) now) as (Hw & Ew' & E);
    [by rewrite Ew|apply rw_new_ok|done|done|done|constructor|].
  unfold rw_get_total. rewrite Ew', Ew. destruct (Z.leb_spec window 0); [lia|]. simpl.
  destruct (prune_ok _ now Hw) as ([_ _ Ht] & _ & Ee). rewrite Ht, Ee, Ew', E, Ew. done.
Qed.

(** Rolling windows: a window fed with finite values in order of time
    reports, at any later time, exactly the sum of the values observed in the
    last [window] ticks (nothing for a width of zero or less), and asking twice
    at the same time gives the same answer. *)
Theorem rolling_window_total (window now : Z) (obs : list (Z * pyfloat)) :
  by_time obs → Forall (fun e => finite e.2) obs → Forall (fun e => e.1 <= now)%Z obs →
  let '(total, w') := rw_get_total (observe_all (rw_new window) obs) now in
  total = (if (0 <? window)%Z then fsum (newer (now - window) obs) else fzero) ∧
  (rw_get_total w' now).1 = total.
Proof.
  intros Hs Hf Hn. destruct (rw_get_total _ now) as [total w'] eqn:E.
  destruct (Z.ltb_spec 0 window) as [Hpos|Hneg].
  - pose proof (rolling_total_newer window now obs Hpos Hs Hf Hn) as Ht. rewrite E in Ht.
    simpl in Ht. split; [done|]. revert E. unfold rw_get_total.
    set (w := observe_all (rw_new window) obs).
    destruct (observe_all_newer obs (rw_new window) now) as (Hw & Ew & _);
      [simpl; lia|apply rw_new_ok|done|done|done|constructor|]. fold w in Hw, Ew.
    rewrite Ew. simpl. rewrite Z.max_l by lia. destruct (Z.leb_spec window 0); [lia|].
    intros [= <- <-]. destruct (prune_ok w now Hw) as (Hw1 & Ew1 & Ee1).
    rewrite Ew1, Ew. simpl. rewrite Z.max_l by lia. destruct (Z.leb_spec window 0); [lia|]. simpl.
    destruct (prune_ok _ now Hw1) as ([_ _ Ht2] & _ & Ee2).
    rewrite Ht2, Ee2, (wo_total _ Hw1), Ew1, Ee1. by rewrite newer_newer by lia.
  - assert (observe_all (rw_new window) obs = rw_new window) as Eo.
    { clear -Hneg. induction obs as [|e obs IH]; [done|]. simpl. unfold rw_observe at 1. simpl.
      destruct (Z.leb_spec (Z.max window 0) 0); [exact IH|lia]. }
    rewrite Eo in E. unfold rw_get_total in E. simpl in E.
    destruct (Z.leb_spec (Z.max window 0) 0); [|lia]. simplify_eq. split; [done|].
    unfold rw_get_total. simpl. destruct (Z.leb_spec (Z.max window 0) 0); [done|lia].
Qed.

Lemma rolling_window_total_witness :
  (rw_get_total (observe_all (rw_new 10) [(1%Z, fone); (5%Z, fone); (12%Z, of_int 3)]) 13).1
    = of_int 4.
Proof.
  pose proof (rolling_window_total 10 13 [(1%Z, fone); (5%Z, fone); (12%Z, of_int 3)]) as H.
  destruct (rw_get_total _ 13) as [total w'] eqn:E. destruct H as [Ht _].
  - repeat constructor; simpl; lia.
  - repeat constructor; simpl; eexists; reflexivity.
  - repeat constructor; simpl; lia.
  - simpl. rewrite Ht. by vm_compute.
Defined.

(** ** [BudgetTracker] *)

Record LimitSettings : Type := mkLimit {
  ls_enabled : bool;
  ls_qps : option pyfloat;
  ls_concurrency : option Z;
  ls_tokens_per_min : option pyfloat;
  ls_cost_per_hour : option pyfloat
}.

Definition limit_is_active (s : LimitSettings) : bool :=
  ls_enabled s &&
  (bool_decide (is_Some (ls_qps s)) || bool_decide (is_Some (ls_concurrency s)) ||
   bool_decide (is_Some (ls_tokens_per_min s)) || bool_decide (is_Some (ls_cost_per_hour s))).

(** Clock ticks per second. *)
Definition ticks : Z := 1000.
Definition TOKENS_WINDOW_SEC : Z := 60 * ticks.
Definition COST_WINDOW_SEC : Z := 3600 * ticks.
Definition QPS_WINDOW_SEC : Z := ticks.

Record BudgetTracker : Type := mkBT {
  bt_settings : LimitSettings; bt_tokens : RollingWindow; bt_cost : RollingWindow
}.

Definition budget_new (s : LimitSettings) : BudgetTracker :=
  mkBT s (rw_new TOKENS_WINDOW_SEC) (rw_new COST_WINDOW_SEC).

(** [BudgetDecision]: allowed, or refused for a kind of budget. *)
Inductive BudgetDecision : Type :=
| BudgetOk
| BudgetExceeded (kind : string).

(** One of the two checks of [can_accept]. *)
Definition over_limit (limit : option pyfloat) (w : RollingWindow) (now : Z) : bool * RollingWindow :=
  match limit with
  | None => (false, w)
  | Some l => let '(current, w') := rw_get_total w now in (fge current l, w')
  end.

Definition budget_can_accept (b : BudgetTracker) (now : Z) : BudgetDecision * BudgetTracker :=
  if negb (ls_enabled (bt_settings b)) then (BudgetOk, b)
  else
    let '(over_t, tok) := over_limit (ls_tokens_per_min (bt_settings b)) (bt_tokens b) now in
    if (over_t : bool) then (BudgetExceeded "tokens", mkBT (bt_settings b) tok (bt_cost b))
    else
      let '(over_c, cost) := over_limit (ls_cost_per_hour (bt_settings b)) (bt_cost b) now in
      let b' := mkBT (bt_settings b) tok cost in
      if (over_c : bool) then (BudgetExceeded "cost", b') else (BudgetOk, b').

(** [max(0.0, float(v))], observed when it is a positive number. *)
Definition record_usage (limit usage : option pyfloat) (w : RollingWindow) (now : Z) : RollingWindow :=
  match usage, limit with
  | Some v, Some _ =>
      let value := fmax fzero v in
      if negb (fisnan value) && flt fzero value then rw_observe w value now else w
  | _, _ => w
  end.

Definition budget_record (b : BudgetTracker) (tokens cost : option pyfloat) (now : Z) : BudgetTracker :=
  if negb (ls_enabled (bt_settings b)) then b
  else mkBT (bt_settings b)
         (record_usage (ls_tokens_per_min (bt_settings b)) tokens (bt_tokens b) now)
         (record_usage (ls_cost_per_hour (bt_settings b)) cost (bt_cost b) now).

Definition usage_of (limit : option pyfloat) (w : RollingWindow) (now : Z)
  : option pyfloat * RollingWindow :=
  match limit with
  | None => (None, w)
  | Some _ => let '(v, w') := rw_get_total w now in (Some v, w')
  end.

Definition budget_snapshot (b : BudgetTracker) (now : Z)
  : (option pyfloat * option pyfloat) * BudgetTracker :=
  let '(tokens, tok) := usage_of (ls_tokens_per_min (bt_settings b)) (bt_tokens b) now in
  let '(cost, cst) := usage_of (ls_cost_per_hour (bt_settings b)) (bt_cost b) now in
  ((tokens, cost), mkBT (bt_settings b) tok cst).

(** An infinite usage leaves the window with a NaN total once it expires, and a
    NaN total is below every limit: the budget is not enforced any more. *)
Example budget_inf_disables :
  let s := mkLimit true None None (Some (of_int 10)) None in
  let b := budget_record (budget_new s) (Some PInf) None 0 in
  let '(d1, b1) := budget_can_accept b 1 in
  let '(d2, b2) := budget_can_accept b1 (2 * TOKENS_WINDOW_SEC) in
  let b3 := budget_record b2 (Some (of_int 1000)) None (2 * TOKENS_WINDOW_SEC) in
  d1 = BudgetExceeded "tokens" ∧ d2 = BudgetOk ∧
  (budget_can_accept b3 (2 * TOKENS_WINDOW_SEC + 1)).1 = BudgetOk.
Proof. vm_compute. done. Qed.
