(* ===== verification/Breaker.v ===== *)
(** * The circuit breaker ([tm/governance/breaker.py])

    The closed, open and half-open machine with its two rolling windows, and
    what holds in every state it can reach. *)

From S2P Require Import Prelude PyVal Rolling.
From stdpp Require Import base gmap strings list.
From Stdlib Require Import ZArith Lia.

Record BreakerSettings : Type := mkBS {
  bs_enabled : bool;
  bs_window_sec : Z;
  bs_failure_threshold : Z;
  bs_timeout_threshold : Z;
  bs_cooldown_sec : Z;
  bs_half_open_max_calls : Z
}.

Definition breaker_is_active (s : BreakerSettings) : bool :=
  bs_enabled s && ((0 <? bs_failure_threshold s)%Z || (0 <? bs_timeout_threshold s)%Z).

Inductive BreakerState : Type := CLOSED | OPEN | HALF_OPEN.

#[export] Instance BreakerState_eq_dec : EqDecision BreakerState.
Proof. solve_decision. Defined.

Record BreakerDecision : Type := mkBD {
  bd_allowed : bool; bd_state : BreakerState; bd_reason : option string
}.

Record CircuitBreaker : Type := mkCB {
  cb_settings : BreakerSettings;
  cb_failures : RollingWindow;
  cb_timeouts : RollingWindow;
  cb_state : BreakerState;
  cb_opened_at : option Z;
  cb_half_open_inflight : Z
}.

Definition breaker_new (s : BreakerSettings) : CircuitBreaker :=
  mkCB s (rw_new (bs_window_sec s)) (rw_new (bs_window_sec s)) CLOSED None 0.

Definition _trip (b : CircuitBreaker) (now : Z) : CircuitBreaker :=
  mkCB (cb_settings b) (cb_failures b) (cb_timeouts b) OPEN (Some now) 0.

Definition _transition_to_half_open (b : CircuitBreaker) : CircuitBreaker :=
  mkCB (cb_settings b) (cb_failures b) (cb_timeouts b) HALF_OPEN (cb_opened_at b) 0.

Definition _reset (b : CircuitBreaker) : CircuitBreaker :=
  mkCB (cb_settings b) (rw_reset (cb_failures b)) (rw_reset (cb_timeouts b)) CLOSED None 0.

Definition with_windows (b : CircuitBreaker) (f t : RollingWindow) : CircuitBreaker :=
  mkCB (cb_settings b) f t (cb_state b) (cb_opened_at b) (cb_half_open_inflight b).

Definition with_inflight (b : CircuitBreaker) (n : Z) : CircuitBreaker :=
  mkCB (cb_settings b) (cb_failures b) (cb_timeouts b) (cb_state b) (cb_opened_at b) n.

(** [threshold and window.total(now) >= float(threshold)]. *)
Definition reached (threshold : Z) (w : RollingWindow) (now : Z) : bool * RollingWindow :=
  if (threshold =? 0)%Z then (false, w)
  else let '(total, w') := rw_get_total w now in (fge total (of_int threshold), w').

Definition _should_trip (b : CircuitBreaker) (now : Z) : bool * CircuitBreaker :=
  let '(f, fw) := reached (Z.max 0 (bs_failure_threshold (cb_settings b))) (cb_failures b) now in
  if (f : bool) then (true, with_windows b fw (cb_timeouts b))
  else
    let '(t, tw) := reached (Z.max 0 (bs_timeout_threshold (cb_settings b))) (cb_timeouts b) now in
    (t, with_windows b fw tw).

Definition refuse (b : CircuitBreaker) : BreakerDecision * CircuitBreaker :=
  (mkBD false (cb_state b) (Some "CIRCUIT_OPEN"), b).

(** The half-open branch. *)
Definition half_open_admit (b : CircuitBreaker) : BreakerDecision * CircuitBreaker :=
  if (Z.max 1 (bs_half_open_max_calls (cb_settings b)) <=? cb_half_open_inflight b)%Z then refuse b
  else (mkBD true HALF_OPEN None, with_inflight b (cb_half_open_inflight b + 1)).

Definition can_execute (b : CircuitBreaker) (now : Z) : BreakerDecision * CircuitBreaker :=
  if negb (bs_enabled (cb_settings b)) then (mkBD true CLOSED None, b)
  else
    match cb_state b with
    | OPEN =>
        match cb_opened_at b with
        | None =>
            (mkBD false OPEN (Some "CIRCUIT_OPEN"),
             mkCB (cb_settings b) (cb_failures b) (cb_timeouts b) OPEN (Some now)
               (cb_half_open_inflight b))
        | Some at_ =>
            if (bs_cooldown_sec (cb_settings b) <=? now - at_)%Z
            then half_open_admit (_transition_to_half_open b)
            else refuse b
        end
    | HALF_OPEN => half_open_admit b
    | CLOSED =>
        let '(trip, b') := _should_trip b now in
        if (trip : bool) then refuse (_trip b' now) else (mkBD true CLOSED None, b')
    end.

Definition record_success (b : CircuitBreaker) (now : Z) : CircuitBreaker :=
  if negb (bs_enabled (cb_settings b)) then b
  else
    match cb_state b with
    | HALF_OPEN | OPEN => _reset b
    | CLOSED =>
        with_windows b (rw_get_total (cb_failures b) now).2 (rw_get_total (cb_timeouts b) now).2
    end.

Definition record_failure (b : CircuitBreaker) (now : Z) (timeout : bool) : CircuitBreaker :=
  if negb (bs_enabled (cb_settings b)) then b
  else
    let b1 := if timeout then with_windows b (cb_failures b) (rw_observe (cb_timeouts b) fone now)
              else with_windows b (rw_observe (cb_failures b) fone now) (cb_timeouts b) in
    match cb_state b1 with
    | HALF_OPEN => _trip b1 now
    | CLOSED => let '(trip, b2) := _should_trip b1 now in if (trip : bool) then _trip b2 now else b2
    | OPEN => b1
    end.

Definition release_half_open_slot (b : CircuitBreaker) : CircuitBreaker :=
  if (0 <? cb_half_open_inflight b)%Z then with_inflight b (cb_half_open_inflight b - 1) else b.

(** ** The state machine *)

(** One call of the breaker's interface at time [now]; [admitted] says whether
    the call was a successful [can_execute]. *)
Inductive breaker_step : CircuitBreaker → Z → bool → CircuitBreaker → Prop :=
| bs_can b now d b' : can_execute b now = (d, b') → breaker_step b now (bd_allowed d) b'
| bs_success b now : breaker_step b now false (record_success b now)
| bs_failure b now timeout : breaker_step b now false (record_failure b now timeout)
| bs_release b now : breaker_step b now false (release_half_open_slot b).

Inductive breaker_reachable (s : BreakerSettings) : CircuitBreaker → Prop :=
| br_new : breaker_reachable s (breaker_new s)
| br_step b now adm b' : breaker_reachable s b → breaker_step b now adm b' → breaker_reachable s b'.

Record breaker_inv (s : BreakerSettings) (b : CircuitBreaker) : Prop := {
  bi_settings : cb_settings b = s;
  bi_bound : (0 <= cb_half_open_inflight b <= Z.max 1 (bs_half_open_max_calls s))%Z;
  bi_half : (0 < cb_half_open_inflight b)%Z → cb_state b = HALF_OPEN;
  bi_opened : cb_state b ≠ CLOSED → is_Some (cb_opened_at b);
  bi_disabled : bs_enabled s = false → cb_state b = CLOSED
}.

Lemma should_trip_frame b now :
  cb_settings (_should_trip b now).2 = cb_settings b ∧
  cb_state (_should_trip b now).2 = cb_state b ∧
  cb_opened_at (_should_trip b now).2 = cb_opened_at b ∧
  cb_half_open_inflight (_should_trip b now).2 = cb_half_open_inflight b.
Proof. unfold _should_trip. repeat case_match; by simplify_eq/=. Qed.

Lemma trip_inv s b now : cb_settings b = s → bs_enabled s = true → breaker_inv s (_trip b now).
Proof. intros Hs He. constructor; simpl; [done|lia|lia|eauto|congruence]. Qed.

Lemma frame_inv s b b' :
  breaker_inv s b → cb_settings b' = cb_settings b → cb_state b' = cb_state b →
  cb_opened_at b' = cb_opened_at b → cb_half_open_inflight b' = cb_half_open_inflight b →
  breaker_inv s b'.
Proof. intros [? ? ? ? ?] Es Est Eo Ei. constructor; rewrite ?Es, ?Est, ?Eo, ?Ei; done. Qed.

Lemma half_open_admit_inv s b d b' :
  cb_settings b = s → bs_enabled s = true → cb_state b = HALF_OPEN → is_Some (cb_opened_at b) →
  (0 <= cb_half_open_inflight b <= Z.max 1 (bs_half_open_max_calls s))%Z →
  half_open_admit b = (d, b') → breaker_inv s b'.
Proof.
  unfold half_open_admit. intros Hs He Hst Ho Hb.
  destruct (Z.leb_spec (Z.max 1 (bs_half_open_max_calls (cb_settings b))) (cb_half_open_inflight b));
    intros [= <- <-]; constructor; simpl; rewrite ?Hs, ?Hst in *; try done; try congruence; lia.
Qed.

Lemma breaker_step_inv s b now adm b' :
  breaker_inv s b → breaker_step b now adm b' → breaker_inv s b'.
Proof.
  intros Hi. pose proof Hi as [Hs Hb Hh Ho Hd].
  destruct 1 as [b now d b' Hc|b now|b now timeout|b now].
  - unfold can_execute, refuse in Hc. rewrite Hs in Hc.
    destruct (bs_enabled s) eqn:He; simpl in Hc; [|by simplify_eq].
    destruct (cb_state b) eqn:Est.
    + pose proof (should_trip_frame b now) as (E1 & E2 & E3 & E4).
      destruct (_should_trip b now) as [[] b1]; simpl in *; simplify_eq.
      * apply trip_inv; [congruence|done].
      * eapply frame_inv; [exact Hi|congruence..].
    + destruct Ho as [t Ht]; [done|]. rewrite Ht in Hc. case_match.
      * eapply half_open_admit_inv; [..|exact Hc]; simpl; [done|done|done|by rewrite Ht|lia].
      * by simplify_eq.
    + eapply half_open_admit_inv; [..|exact Hc]; auto.
  - unfold record_success. rewrite Hs. destruct (bs_enabled s) eqn:He; simpl; [|done].
    destruct (cb_state b) eqn:Est; [by eapply frame_inv|..]; constructor; simpl; try done; lia.
  - unfold record_failure. rewrite Hs. destruct (bs_enabled s) eqn:He; simpl; [|done].
    set (b1 := if timeout then _ else _).
    assert (breaker_inv s b1) as Hi1 by (unfold b1; destruct timeout; by eapply frame_inv).
    destruct (cb_state b1) eqn:Est; [|done|apply trip_inv; [apply Hi1|done]].
    pose proof (should_trip_frame b1 now) as (E1 & E2 & E3 & E4).
    destruct (_should_trip b1 now) as [[] b2]; simpl in *.
    + apply trip_inv; [rewrite E1; apply Hi1|done].
    + eapply frame_inv; eauto.
  - unfold release_half_open_slot. destruct (Z.ltb_spec 0 (cb_half_open_inflight b)); [|done].
    constructor; simpl; [done|lia| |done|done]. intros _. apply Hh. lia.
Qed.

Lemma breaker_reachable_inv s b : breaker_reachable s b → breaker_inv s b.
Proof.
  induction 1 as [|b now adm b' _ IH Hs].
  - constructor; simpl; [done|lia|lia|done|done].
  - by eapply breaker_step_inv.
Qed.

(** C20: the breaker's state machine: in every reachable state the number of
    half-open calls in flight is between 0 and the maximum (at least one), and
    positive only while half-open; an open breaker knows when it opened, admits
    a call only after the cooldown, and then moves to half-open with that one
    call in flight; a failure while half-open opens it again at once. *)
Theorem breaker_state_machine s b :
  breaker_reachable s b → bs_enabled s = true →
  (0 <= cb_half_open_inflight b <= Z.max 1 (bs_half_open_max_calls s))%Z ∧
  ((0 < cb_half_open_inflight b)%Z → cb_state b = HALF_OPEN) ∧
  (cb_state b = OPEN → ∃ t, cb_opened_at b = Some t ∧
     ∀ now, let '(d, b') := can_execute b now in
       (bd_allowed d = true ↔ (bs_cooldown_sec s <= now - t)%Z) ∧
       (bd_allowed d = true → cb_state b' = HALF_OPEN ∧ cb_half_open_inflight b' = 1%Z) ∧
       (bd_allowed d = false → b' = b)) ∧
  (cb_state b = HALF_OPEN → ∀ now timeout,
     cb_state (record_failure b now timeout) = OPEN ∧
     cb_opened_at (record_failure b now timeout) = Some now).
Proof.
  intros Hr He. destruct (breaker_reachable_inv s b Hr) as [Hs Hb Hh Ho _].
  split_and!; [apply Hb|apply Hb|done| |].
  - intros Hst. destruct Ho as [t Ht]; [congruence|]. exists t. split; [done|]. intros now.
    unfold can_execute. rewrite Hs, He, Hst, Ht. simpl.
    destruct (Z.leb_spec (bs_cooldown_sec s) (now - t)) as [Hle|Hlt]; simpl.
    + unfold half_open_admit. simpl. rewrite Hs.
      destruct (Z.leb_spec (Z.max 1 (bs_half_open_max_calls s)) 0); [lia|]. simpl. done.
    + split_and!; [|done|done]. split; [done|lia].
  - intros Hst now timeout. unfold record_failure. rewrite Hs, He. simpl.
    destruct timeout; simpl; rewrite Hst; done.
Qed.

(** ** Thresholds *)

(** Failures (or timeouts) recorded in order of time, none after [now]. *)
Definition failure_log (now : Z) (obs : list (Z * pyfloat)) : Prop :=
  by_time obs ∧ Forall (fun e => e.2 = fone) obs ∧ Forall (fun e => e.1 <= now)%Z obs.

Lemma failure_log_finite now obs : failure_log now obs → Forall (fun e => finite e.2) obs.
Proof. intros (_ & H & _). eapply Forall_impl; [exact H|]. intros e ->. eexists. done. Qed.

Lemma reached_count window now threshold obs :
  (0 < window)%Z → failure_log now obs →
  (reached (Z.max 0 threshold) (observe_all (rw_new window) obs) now).1 =
  (0 <? threshold)%Z && (threshold <=? Z.of_nat (length (newer (now - window) obs)))%Z.
Proof.
  intros Hw Hl. unfold reached. destruct (Z.eqb_spec (Z.max 0 threshold) 0) as [E|E].
  { destruct (Z.ltb_spec 0 threshold); [lia|done]. }
  destruct (Z.ltb_spec 0 threshold); [|lia]. rewrite Z.max_r by lia. simpl.
  destruct (rw_get_total _ now) as [total w'] eqn:Et. simpl.
  assert (total = of_int (Z.of_nat (length (newer (now - window) obs)))) as ->.
  { rewrite <- fsum_ones.
    - rewrite <- rolling_total_newer by (done || by eapply failure_log_finite || apply Hl).
      by rewrite Et.
    - destruct Hl as (_ & H1 & _). rewrite Forall_forall in H1 |- *.
      intros e [_ He]%list_elem_of_filter. by apply H1. }
  unfold fge, flt, feq, of_int.
  destruct (Z.leb_spec threshold (Z.of_nat (length (newer (now - window) obs)))).
  - destruct (Z.ltb_spec (threshold * funit) (Z.of_nat (length (newer (now - window) obs)) * funit)); [done|].
    simpl. apply Z.eqb_eq. unfold funit in *. lia.
  - apply orb_false_iff. unfold funit in *. split; [apply Z.ltb_ge|apply Z.eqb_neq]; lia.
Qed.

(** A closed breaker admits a call exactly when, of the failures and the
    timeouts recorded within the last window, neither has reached its
    threshold (a threshold of 0 or less never trips); otherwise it opens. *)
Theorem breaker_threshold s now failures timeouts opened inflight :
  bs_enabled s = true → (0 < bs_window_sec s)%Z →
  failure_log now failures → failure_log now timeouts →
  let b := mkCB s (observe_all (rw_new (bs_window_sec s)) failures)
             (observe_all (rw_new (bs_window_sec s)) timeouts) CLOSED opened inflight in
  let hit threshold obs := (0 < threshold ∧
        threshold <= Z.of_nat (length (newer (now - bs_window_sec s) obs)))%Z in
  let '(d, b') := can_execute b now in
  (bd_allowed d = false ↔ hit (bs_failure_threshold s) failures ∨ hit (bs_timeout_threshold s) timeouts) ∧
  cb_state b' = if bd_allowed d then CLOSED else OPEN.
Proof.
  intros He Hw Hf Ht b hit. unfold can_execute. simpl. rewrite He. simpl. unfold _should_trip. simpl.
  pose proof (reached_count (bs_window_sec s) now (bs_failure_threshold s) failures Hw Hf) as Ef.
  pose proof (reached_count (bs_window_sec s) now (bs_timeout_threshold s) timeouts Hw Ht) as Et.
  assert (∀ th obs, (0 <? th)%Z && (th <=? Z.of_nat (length (newer (now - bs_window_sec s) obs)))%Z = true ↔
                    hit th obs) as Hhit.
  { intros th obs. unfold hit. rewrite andb_true_iff, Z.ltb_lt, Z.leb_le. done. }
  destruct (reached (Z.max 0 (bs_failure_threshold s)) _ now) as [f fw]. simpl in Ef.
  destruct (reached (Z.max 0 (bs_timeout_threshold s)) _ now) as [t tw]. simpl in Et.
  pose proof (Hhit (bs_failure_threshold s) failures) as Hf'. rewrite <- Ef in Hf'.
  pose proof (Hhit (bs_timeout_threshold s) timeouts) as Ht'. rewrite <- Et in Ht'.
  clear Hhit Ef Et. unfold hit in *. destruct f, t; simpl; (split; [|done]); naive_solver.
Qed.

(** Witnesses: one failure below the threshold, then the threshold. *)
Definition demo_settings : BreakerSettings := mkBS true 100 2 2 50 1.

Definition demo_breaker : CircuitBreaker :=
  record_failure (record_failure (breaker_new demo_settings) 1 false) 2 false.

Lemma demo_breaker_reachable : breaker_reachable demo_settings demo_breaker.
Proof.
  apply (br_step _ (record_failure (breaker_new demo_settings) 1 false) 2 false);
    [|apply bs_failure].
  apply (br_step _ (breaker_new demo_settings) 1 false); [constructor|apply bs_failure].
Qed.

Lemma breaker_state_machine_witness :
  cb_state demo_breaker = OPEN ∧ bd_allowed (can_execute demo_breaker 51).1 = false ∧
  bd_allowed (can_execute demo_breaker 52).1 = true.
Proof.
  split; [by vm_compute|].
  destruct (breaker_state_machine demo_settings demo_breaker demo_breaker_reachable eq_refl)
    as (_ & _ & Hopen & _). destruct Hopen as (t & Ht & Hcan); [by vm_compute|].
  vm_compute in Ht. injection Ht as <-. split.
  - by vm_compute.
  - pose proof (Hcan 52%Z) as H. destruct (can_execute demo_breaker 52) as [d b'].
    apply H. simpl. lia.
Defined.

Lemma breaker_threshold_witness :
  let b := mkCB demo_settings (observe_all (rw_new 100) [(1%Z, fone); (2%Z, fone)])
             (observe_all (rw_new 100) []) CLOSED None 0 in
  bd_allowed (can_execute b 3).1 = false.
Proof.
  pose proof (breaker_threshold demo_settings 3 [(1%Z, fone); (2%Z, fone)] [] None 0 eq_refl) as H.
  cbv zeta in H |- *. change (bs_window_sec demo_settings) with 100%Z in H.
  destruct (can_execute _ 3) as [d b']. apply H.
  - lia.
  - split_and!; repeat constructor; simpl; lia.
  - split_and!; constructor.
  - left. vm_compute. done.
Defined.
