(* ===== verification/RateLimit.v ===== *)
(** * Rate and concurrency limits ([tm/governance/ratelimit.py])

    The tracker, and the bounds it enforces for a client that activates,
    releases and cancels only what it reserved. *)

From S2P Require Import Prelude PyVal Rolling.
From stdpp Require Import base gmap strings list.
From Stdlib Require Import ZArith Lia.

Record RateTracker : Type := mkRT {
  rt_settings : LimitSettings;
  rt_qps : RollingWindow;
  rt_pending : Z;
  rt_active : Z
}.

Definition rate_new (s : LimitSettings) : RateTracker := mkRT s (rw_new QPS_WINDOW_SEC) 0 0.

(** The two checks, then the reservation; [true] when allowed. *)
Definition check_and_reserve (r : RateTracker) (now : Z) : bool * RateTracker :=
  if negb (ls_enabled (rt_settings r)) then (true, r)
  else
    let '(limited, w) :=
      match ls_qps (rt_settings r) with
      | None => (false, rt_qps r)
      | Some q =>
          let '(current, w') := rw_get_total (rt_qps r) now in
          (fge (fadd current (of_int (rt_pending r))) q, w')
      end in
    let r1 := mkRT (rt_settings r) w (rt_pending r) (rt_active r) in
    if (limited : bool) then (false, r1)
    else
      match ls_concurrency (rt_settings r) with
      | Some c =>
          if (c <=? rt_active r + rt_pending r)%Z then (false, r1)
          else (true, mkRT (rt_settings r) w (rt_pending r + 1) (rt_active r))
      | None => (true, mkRT (rt_settings r) w (rt_pending r + 1) (rt_active r))
      end.

Definition dec_pending (p : Z) : Z := if (0 <? p)%Z then (p - 1)%Z else p.

Definition rate_activate (r : RateTracker) (now : Z) : RateTracker :=
  if negb (ls_enabled (rt_settings r)) then r
  else
    mkRT (rt_settings r)
      (match ls_qps (rt_settings r) with None => rt_qps r | Some _ => rw_observe (rt_qps r) fone now end)
      (dec_pending (rt_pending r))
      (match ls_concurrency (rt_settings r) with None => rt_active r | Some _ => rt_active r + 1 end)%Z.

Definition rate_release (r : RateTracker) : RateTracker :=
  if negb (ls_enabled (rt_settings r)) then r
  else
    match ls_concurrency (rt_settings r) with
    | Some _ =>
        if (0 <? rt_active r)%Z
        then mkRT (rt_settings r) (rt_qps r) (rt_pending r) (rt_active r - 1) else r
    | None => r
    end.

Definition cancel_pending (r : RateTracker) : RateTracker :=
  if negb (ls_enabled (rt_settings r)) then r
  else mkRT (rt_settings r) (rt_qps r) (dec_pending (rt_pending r)) (rt_active r).

(** ** A disciplined client *)

(** [rate_run s r clock waiting running log]: the tracker [r] after a run in
    which [waiting] requests are reserved and not started, [running] ones are
    started and not finished, and [log] are the starts so far. *)
Inductive rate_run (s : LimitSettings)
  : RateTracker → Z → nat → nat → list (Z * pyfloat) → Prop :=
| run_new t : rate_run s (rate_new s) t 0 0 []
| run_reserve r t w n log now r' :
    rate_run s r t w n log → (t <= now)%Z → check_and_reserve r now = (true, r') →
    rate_run s r' now (S w) n log
| run_refuse r t w n log now r' :
    rate_run s r t w n log → (t <= now)%Z → check_and_reserve r now = (false, r') →
    rate_run s r' now w n log
| run_activate r t w n log now :
    rate_run s r t (S w) n log → (t <= now)%Z →
    rate_run s (rate_activate r now) now w (S n) (log ++ [(now, fone)])
| run_release r t w n log :
    rate_run s r t w (S n) log → rate_run s (rate_release r) t w n log
| run_cancel r t w n log :
    rate_run s r t (S w) n log → rate_run s (cancel_pending r) t w n log.

(** Starts within the last second before [now]. *)
Definition recent (now : Z) (log : list (Z * pyfloat)) : nat :=
  length (newer (now - QPS_WINDOW_SEC) log).

Record rate_inv (s : LimitSettings) (r : RateTracker) (t : Z) (w n : nat) (log : list (Z * pyfloat))
  : Prop := {
  ri_settings : rt_settings r = s;
  ri_pending : rt_pending r = Z.of_nat w;
  ri_active : is_Some (ls_concurrency s) → rt_active r = Z.of_nat n;
  ri_window : window_ok (rt_qps r);
  ri_width : rw_window (rt_qps r) = QPS_WINDOW_SEC;
  ri_ones : Forall (fun e => e.2 = fone) (rw_entries (rt_qps r));
  ri_past : Forall (fun e => e.1 <= t)%Z (rw_entries (rt_qps r));
  ri_log : is_Some (ls_qps s) → ∀ now, (t <= now)%Z →
    newer (now - QPS_WINDOW_SEC) (rw_entries (rt_qps r)) = newer (now - QPS_WINDOW_SEC) log;
  ri_conc : ∀ c, ls_concurrency s = Some c → (Z.of_nat (w + n) <= Z.max 0 c)%Z;
  ri_rate : ∀ q, ls_qps s = Some (of_int q) → ∀ now, (t <= now)%Z →
    (Z.of_nat (recent now log + w) <= Z.max 0 q)%Z
}.

Lemma recent_mono a b log : (a <= b)%Z → recent b log ≤ recent a log.
Proof.
  intros Hab. unfold recent. rewrite <- (newer_newer (b - QPS_WINDOW_SEC) (a - QPS_WINDOW_SEC)) by lia.
  unfold newer at 1. apply length_filter.
Qed.

Lemma recent_snoc now log e : recent now (log ++ [e]) ≤ S (recent now log).
Proof.
  unfold recent. rewrite newer_app, length_app.
  assert (length (newer (now - QPS_WINDOW_SEC) [e]) ≤ 1) by apply (length_filter _ [e]). lia.
Qed.


Lemma newer_Forall {P : Z * pyfloat → Prop} a l : Forall P l → Forall P (newer a l).
Proof. rewrite !Forall_forall. intros H e [_ He]%list_elem_of_filter. by apply H. Qed.

(** What asking for the total does to the window. *)
Lemma rate_total s r t w n log now :
  rate_inv s r t w n log → is_Some (ls_qps s) → (t <= now)%Z →
  ∃ win, rw_get_total (rt_qps r) now = (of_int (Z.of_nat (recent now log)), win) ∧
    rate_inv s (mkRT (rt_settings r) win (rt_pending r) (rt_active r)) now w n log.
Proof.
  intros Hi Hq Hle. pose proof Hi as [Hs Hp Ha Hw Hwd Ho Hpast Hlog Hc Hr].
  unfold rw_get_total. rewrite Hwd. simpl.
  destruct (prune_ok (rt_qps r) now Hw) as (Hw' & Ewd & Ee). rewrite Hwd in Ee.
  eexists. split.
  - f_equal. rewrite (wo_total _ Hw'), Ee, (Hlog Hq) by done. apply fsum_ones.
    rewrite <- (Hlog Hq) by done. by apply newer_Forall.
  - constructor; simpl; rewrite ?Ewd, ?Ee; try done.
    + by apply newer_Forall.
    + apply newer_Forall. eapply Forall_impl; [exact Hpast|]. intros e He. simpl in He. lia.
    + intros Hq' t' Ht'. rewrite newer_newer by lia. apply Hlog; [done|lia].
    + intros q Eq t' Ht'. apply Hr; [done|lia].
Qed.

Lemma rate_weaken s r t w n log now :
  rate_inv s r t w n log → (t <= now)%Z → rate_inv s r now w n log.
Proof.
  intros [Hs Hp Ha Hw Hwd Ho Hpast Hlog Hc Hr] Hle. constructor; try done.
  - eapply Forall_impl; [exact Hpast|]. intros e He. simpl in He. lia.
  - intros Hq t' Ht'. apply Hlog; [done|lia].
  - intros q Eq t' Ht'. apply Hr; [done|lia].
Qed.

(** A new reservation keeps the bounds when both checks passed. *)
Lemma rate_reserve s r t w n log :
  rate_inv s r t w n log →
  (∀ c, ls_concurrency s = Some c → (rt_active r + rt_pending r < c)%Z) →
  (∀ q, ls_qps s = Some (of_int q) → (Z.of_nat (recent t log) + rt_pending r < q)%Z) →
  rate_inv s (mkRT (rt_settings r) (rt_qps r) (rt_pending r + 1) (rt_active r)) t (S w) n log.
Proof.
  intros [Hs Hp Ha Hw Hwd Ho Hpast Hlog Hc Hr] Hconc Hrate. constructor; simpl; try done.
  - lia.
  - intros c Ec. specialize (Hconc c Ec). rewrite Ha in Hconc by eauto. lia.
  - intros q Eq t' Ht'. specialize (Hrate q Eq). pose proof (recent_mono t t' log Ht'). lia.
Qed.

Lemma fge_of_int a b : fge (of_int a) (of_int b) = (b <=? a)%Z.
Proof.
  unfold fge, flt, feq, of_int, funit. destruct (Z.leb_spec b a).
  - destruct (Z.ltb_spec (b * 1000000) (a * 1000000)); [done|]. simpl. apply Z.eqb_eq. lia.
  - apply orb_false_iff. split; [apply Z.ltb_ge|apply Z.eqb_neq]; lia.
Qed.

Lemma check_and_reserve_inv s r t w n log now ok r' :
  ls_enabled s = true → rate_inv s r t w n log → (t <= now)%Z →
  check_and_reserve r now = (ok, r') →
  rate_inv s r' now (if ok then S w else w) n log.
Proof.
  intros He Hi Hle. unfold check_and_reserve. rewrite (ri_settings _ _ _ _ _ _ Hi), He. simpl.
  assert (∀ r1, rate_inv s r1 now w n log →
    (∀ q, ls_qps s = Some (of_int q) → (Z.of_nat (recent now log) + rt_pending r1 < q)%Z) →
    (match ls_concurrency s with
     | Some c => if (c <=? rt_active r1 + rt_pending r1)%Z then (false, r1)
                 else (true, mkRT (rt_settings r1) (rt_qps r1) (rt_pending r1 + 1) (rt_active r1))
     | None => (true, mkRT (rt_settings r1) (rt_qps r1) (rt_pending r1 + 1) (rt_active r1))
     end) = (ok, r') → rate_inv s r' now (if ok then S w else w) n log) as Hconc.
  { intros r1 Hi1 Hq. destruct (ls_concurrency s) as [c|] eqn:Ec.
    - destruct (Z.leb_spec c (rt_active r1 + rt_pending r1)); intros [= <- <-]; [done|].
      apply rate_reserve; [done| |done]. intros c' Ec'. assert (c' = c) as -> by congruence. lia.
    - intros [= <- <-]. apply rate_reserve; [done| |done]. congruence. }
  destruct (ls_qps s) as [q|] eqn:Eq.
  - destruct (rate_total s r t w n log now Hi) as (win & Ew & Hi'); [by rewrite Eq|done|].
    rewrite Ew. cbn zeta. rewrite (ri_settings _ _ _ _ _ _ Hi) in Hi'.
    destruct (fge (fadd _ _) q) eqn:Ef; [by intros [= <- <-]|].
    apply (Hconc (mkRT s win (rt_pending r) (rt_active r)) Hi').
    intros q' [= ->]. simpl. unfold of_int in Ef at 1 2. simpl in Ef.
    rewrite <- Z.mul_add_distr_r in Ef. fold (of_int (Z.of_nat (recent now log) + rt_pending r)) in Ef.
    rewrite fge_of_int in Ef. apply Z.leb_gt in Ef. lia.
  - cbn zeta. intros Hm. apply rate_weaken with (now := now) in Hi; [|done].
    apply (Hconc (mkRT s (rt_qps r) (rt_pending r) (rt_active r))); [|congruence|exact Hm].
    pose proof (ri_settings _ _ _ _ _ _ Hi) as Hs. destruct r. simpl in *. by subst.
Qed.

Lemma rate_activate_inv s r t w n log now :
  ls_enabled s = true → rate_inv s r t (S w) n log → (t <= now)%Z →
  rate_inv s (rate_activate r now) now w (S n) (log ++ [(now, fone)]).
Proof.
  intros He Hi Hle. apply rate_weaken with (now := now) in Hi; [|done].
  destruct Hi as [Hs Hp Ha Hw Hwd Ho Hpast Hlog Hc Hr].
  unfold rate_activate. rewrite Hs, He. simpl.
  assert (dec_pending (rt_pending r) = Z.of_nat w) as Hdec.
  { unfold dec_pending. rewrite Hp. destruct (Z.ltb_spec 0 (Z.of_nat (S w))); lia. }
  assert (finite fone) as Hone by (by eexists).
  destruct (observe_ok (rt_qps r) fone now Hw Hone Hpast) as (Hw' & Ewd' & Hpast').
  constructor; simpl; try done.
  - intros [c Ec]. rewrite Ec. rewrite Ha by eauto. lia.
  - by destruct (ls_qps s).
  - destruct (ls_qps s); [by rewrite Ewd'|done].
  - destruct (ls_qps s); [|done]. unfold rw_observe. rewrite Hwd. simpl.
    destruct (prune_ok (rt_qps r) now Hw) as (_ & _ & Ee). rewrite Ee.
    apply Forall_app. split; [by apply newer_Forall|]. by constructor.
  - by destruct (ls_qps s).
  - intros [q Eq] t' Ht'. rewrite Eq. unfold rw_observe. rewrite Hwd. simpl.
    destruct (prune_ok (rt_qps r) now Hw) as (_ & _ & Ee). rewrite Ee, Hwd.
    rewrite !newer_app, newer_newer by lia. f_equal. apply Hlog; [by rewrite Eq|lia].
  - intros c Ec. specialize (Hc c Ec). lia.
  - intros q Eq t' Ht'. specialize (Hr q Eq t'). pose proof (recent_snoc t' log (now, fone)). lia.
Qed.

Lemma rate_run_inv s r t w n log :
  ls_enabled s = true → rate_run s r t w n log → rate_inv s r t w n log.
Proof.
  intros He. induction 1 as [t|r t w n log now r' _ IH Hle Hc|r t w n log now r' _ IH Hle Hc
                            |r t w n log now _ IH Hle|r t w n log _ IH|r t w n log _ IH].
  - constructor; simpl; [done|done|done|apply rw_new_ok|done|constructor|constructor|done| |].
    + intros c _. lia.
    + intros q _ now _. unfold recent. simpl. lia.
  - exact (check_and_reserve_inv _ _ _ _ _ _ _ _ _ He IH Hle Hc).
  - exact (check_and_reserve_inv _ _ _ _ _ _ _ _ _ He IH Hle Hc).
  - by eapply rate_activate_inv.
  - destruct IH as [Hs Hp Ha Hw Hwd Ho Hpast Hlog Hc Hr]. unfold rate_release. rewrite Hs, He. simpl.
    destruct (ls_concurrency s) as [c|] eqn:Ec; [rewrite Ha by done|];
      [destruct (Z.ltb_spec 0 (Z.of_nat (S n))); [|lia]|];
      constructor; simpl; try done; rewrite ?Ec; try congruence; try (intros []; congruence).
    + intros _. lia.
    + intros c' [= <-]. specialize (Hc c eq_refl). lia.
  - destruct IH as [Hs Hp Ha Hw Hwd Ho Hpast Hlog Hc Hr]. unfold cancel_pending. rewrite Hs, He. simpl.
    constructor; simpl; try done.
    + unfold dec_pending. rewrite Hp. destruct (Z.ltb_spec 0 (Z.of_nat (S w))); lia.
    + intros c Ec. specialize (Hc c Ec). lia.
    + intros q Eq t' Ht'. specialize (Hr q Eq t' Ht'). lia.
Qed.


Definition demo_limits : LimitSettings := mkLimit true (Some (of_int 2)) (Some 1%Z) None None.

