(* ===== verification/GovManager.v ===== *)
(** * The governance manager ([tm/governance/manager.py], settings of
      [tm/governance/config.py])

    Requests are checked against the breakers and limits of their scopes and
    hold reservations until they are activated, finalized or cancelled.  A
    reservation refers to the tracker object of its key, which the manager
    creates once and never replaces, so the key stands for the object.  The
    metrics sent to the counters are logged in order. *)

From S2P Require Import Prelude PyVal Rolling Breaker RateLimit.
From stdpp Require Import base gmap strings list fin_maps.
From Stdlib Require Import ZArith Lia.

(** ** Configuration *)

Record LimitsConfig : Type := mkLC {
  lc_enabled : bool;
  lc_global : LimitSettings;
  lc_per_flow : gmap string LimitSettings;
  lc_per_policy_arm : gmap (string * string) LimitSettings
}.

(** [any(pred(v) for v in d.values())]. *)
Definition any_value {K V} `{Countable K} (pred : V → bool) (m : gmap K V) : bool :=
  existsb (fun kv => pred kv.2) (map_to_list m).

Definition any_limits (c : LimitsConfig) : bool :=
  lc_enabled c &&
  (limit_is_active (lc_global c) || any_value limit_is_active (lc_per_flow c) ||
   any_value limit_is_active (lc_per_policy_arm c)).

Record BreakerConfig : Type := mkBC {
  bc_enabled : bool;
  bc_global : BreakerSettings;
  bc_per_flow : gmap string BreakerSettings;
  bc_per_policy : gmap string BreakerSettings
}.

Definition any_breakers (c : BreakerConfig) : bool :=
  bc_enabled c &&
  (breaker_is_active (bc_global c) || any_value breaker_is_active (bc_per_flow c) ||
   any_value breaker_is_active (bc_per_policy c)).

Record GovernanceConfig : Type := mkGC {
  gc_enabled : bool; gc_limits : LimitsConfig; gc_breaker : BreakerConfig
}.

Definition limits_enabled (c : GovernanceConfig) : bool := gc_enabled c && any_limits (gc_limits c).
Definition breaker_enabled (c : GovernanceConfig) : bool := gc_enabled c && any_breakers (gc_breaker c).

(** ** State *)

Definition LimitKey : Type := (string * option string * option string)%type.
Definition BreakerKey : Type := (string * option string)%type.

Record RequestDescriptor : Type := mkReq {
  rq_flow : string; rq_binding : option string; rq_policy_arm : option string
}.

Record GovernanceDecision : Type := mkGD {
  gd_allowed : bool;
  gd_error_code : option string;
  gd_scope : option string;
  gd_meta : list (string * string);
  gd_limits : list LimitKey;
  gd_breakers : list BreakerKey
}.

Record _LimitState : Type := mkLS { lst_rate : RateTracker; lst_budget : BudgetTracker }.

Inductive Metric : Type :=
| RateReject (scope : string)
| BudgetReject (scope kind : string)
| BreakerReject (target : string) (state : BreakerState)
| BreakerGauge (target : string) (state : BreakerState)
| BudgetUsage (scope kind : string) (value : pyfloat)
| ConcurrencyGauge (flow : string) (active : Z).

Record GovernanceManager : Type := mkGM {
  gm_config : GovernanceConfig;
  gm_limits : gmap LimitKey _LimitState;
  gm_breakers : gmap BreakerKey CircuitBreaker;
  gm_metrics : list Metric
}.

Definition gov_new (c : GovernanceConfig) : GovernanceManager := mkGM c ∅ ∅ [].

(** [if request.binding]: present and not empty. *)
Definition given (s : option string) : option string :=
  match s with Some EmptyString | None => None | Some v => Some v end.

Definition _format_limit_scope (key : LimitKey) : string :=
  match key with
  | (level, name, arm) =>
      if String.eqb level "global" then "global"
      else
        match given name, given arm with
        | Some n, a =>
            if String.eqb level "flow" then "flow:" +:+ n
            else
              match a with
              | Some ar => if String.eqb level "policy" then "policy:" +:+ n +:+ ":" +:+ ar else level
              | None => level
              end
        | None, _ => level
        end
  end.

Definition _format_breaker_scope (key : BreakerKey) : string :=
  match given key.2 with
  | Some n => if String.eqb key.1 "global" then "global" else key.1 +:+ ":" +:+ n
  | None => "global"
  end.

(** [sub in s]. *)
Fixpoint str_contains (sub s : string) : bool :=
  String.prefix sub s || match s with EmptyString => false | String _ s' => str_contains sub s' end.

Definition _looks_like_timeout (error_code : option string) : bool :=
  match given error_code with
  | None => false
  | Some e => str_contains "timeout" (str_lower e) || String.eqb (str_lower e) "asyncio.timeouterror"
  end.

(** A scope applies when the configuration has an entry for it. *)
Definition scope_of {K S} (key : K) (cfg : option S) : list (K * S) :=
  match cfg with Some s => [(key, s)] | None => [] end.

Definition _limit_scopes (gm : GovernanceManager) (r : RequestDescriptor)
  : list (LimitKey * LimitSettings) :=
  let limits := gc_limits (gm_config gm) in
  if negb (lc_enabled limits) then []
  else
    (match given (rq_binding r), given (rq_policy_arm r) with
     | Some b, Some a => scope_of ("policy", Some b, Some a) (lc_per_policy_arm limits !! (b, a))
     | _, _ => []
     end) ++
    (match given (Some (rq_flow r)) with
     | Some f => scope_of ("flow", Some f, None) (lc_per_flow limits !! f)
     | None => []
     end) ++
    (if limit_is_active (lc_global limits) then [(("global", None, None), lc_global limits)] else []).

Definition _breaker_scopes (gm : GovernanceManager) (r : RequestDescriptor)
  : list (BreakerKey * BreakerSettings) :=
  let breaker := gc_breaker (gm_config gm) in
  if negb (bc_enabled breaker) then []
  else
    (match given (rq_binding r) with
     | Some b => scope_of ("policy", Some b) (bc_per_policy breaker !! b)
     | None => []
     end) ++
    (match given (Some (rq_flow r)) with
     | Some f => scope_of ("flow", Some f) (bc_per_flow breaker !! f)
     | None => []
     end) ++
    (if breaker_is_active (bc_global breaker) then [(("global", None), bc_global breaker)] else []).

Definition _ensure_limit_state (gm : GovernanceManager) (key : LimitKey) (s : LimitSettings)
  : _LimitState :=
  default (mkLS (rate_new s) (budget_new s)) (gm_limits gm !! key).

Definition _ensure_breaker_state (gm : GovernanceManager) (key : BreakerKey) (s : BreakerSettings)
  : CircuitBreaker :=
  default (breaker_new s) (gm_breakers gm !! key).

Definition set_limit (gm : GovernanceManager) (key : LimitKey) (st : _LimitState) : GovernanceManager :=
  mkGM (gm_config gm) (<[key := st]> (gm_limits gm)) (gm_breakers gm) (gm_metrics gm).

Definition set_breaker (gm : GovernanceManager) (key : BreakerKey) (b : CircuitBreaker)
  : GovernanceManager :=
  mkGM (gm_config gm) (gm_limits gm) (<[key := b]> (gm_breakers gm)) (gm_metrics gm).

Definition emit (gm : GovernanceManager) (ms : list Metric) : GovernanceManager :=
  mkGM (gm_config gm) (gm_limits gm) (gm_breakers gm) (gm_metrics gm ++ ms).

(** [reservation.rate.cancel_pending()] on the tracker of a key. *)
Definition cancel_limit (gm : GovernanceManager) (key : LimitKey) : GovernanceManager :=
  match gm_limits gm !! key with
  | Some st => set_limit gm key (mkLS (cancel_pending (lst_rate st)) (lst_budget st))
  | None => gm
  end.

Definition _rollback_limits (gm : GovernanceManager) (keys : list LimitKey) : GovernanceManager :=
  foldl cancel_limit gm keys.

Definition release_breaker (gm : GovernanceManager) (key : BreakerKey) : GovernanceManager :=
  match gm_breakers gm !! key with
  | Some b => set_breaker gm key (release_half_open_slot b)
  | None => gm
  end.

Definition _release_breakers (gm : GovernanceManager) (keys : list BreakerKey) : GovernanceManager :=
  foldl release_breaker gm keys.

Definition reject (code scope : string) (meta : list (string * string)) : GovernanceDecision :=
  mkGD false (Some code) (Some scope) meta [] [].

(** ** [check] *)

(** The loop over the breaker scopes: a rejection, or all handles. *)
Fixpoint admit_breakers (gm : GovernanceManager) (now : Z)
  (scopes : list (BreakerKey * BreakerSettings)) (handles : list BreakerKey)
  : (GovernanceDecision + list BreakerKey) * GovernanceManager :=
  match scopes with
  | [] => (inr handles, gm)
  | (key, settings) :: rest =>
      let '(d, b) := can_execute (_ensure_breaker_state gm key settings) now in
      let gm1 := set_breaker gm key b in
      if bd_allowed d then admit_breakers gm1 now rest (handles ++ [key])
      else
        let target := _format_breaker_scope key in
        let gm2 := emit gm1 [BreakerReject target (bd_state d); BreakerGauge target (bd_state d)] in
        (inl (reject (default "CIRCUIT_OPEN" (bd_reason d)) target []),
         _release_breakers gm2 handles)
  end.

(** The loop over the limit scopes. *)
Fixpoint reserve_limits (gm : GovernanceManager) (now : Z) (handles : list BreakerKey)
  (scopes : list (LimitKey * LimitSettings)) (reservations : list LimitKey)
  : (GovernanceDecision + list LimitKey) * GovernanceManager :=
  match scopes with
  | [] => (inr reservations, gm)
  | (key, settings) :: rest =>
      let st := _ensure_limit_state gm key settings in
      let scope := _format_limit_scope key in
      let '(ok, rate) := check_and_reserve (lst_rate st) now in
      if negb ok then
        let gm1 := emit (set_limit gm key (mkLS rate (lst_budget st))) [RateReject scope] in
        (inl (reject "RATE_LIMITED" scope []),
         _release_breakers (_rollback_limits gm1 reservations) handles)
      else
        let '(bd, budget) := budget_can_accept (lst_budget st) now in
        match bd with
        | BudgetExceeded kind =>
            let gm1 := set_limit gm key (mkLS (cancel_pending rate) budget) in
            let gm2 := _release_breakers (_rollback_limits gm1 reservations) handles in
            (inl (reject "BUDGET_EXCEEDED" scope [("budget_kind", kind)]),
             emit gm2 [BudgetReject scope kind])
        | BudgetOk =>
            reserve_limits (set_limit gm key (mkLS rate budget)) now handles rest
              (reservations ++ [key])
        end
  end.

Definition check (gm : GovernanceManager) (r : RequestDescriptor) (now : Z)
  : GovernanceDecision * GovernanceManager :=
  let limits := limits_enabled (gm_config gm) in
  let breakers := breaker_enabled (gm_config gm) in
  if negb (limits || breakers) then (mkGD true None None [] [] [], gm)
  else
    let '(res1, gm1) :=
      if breakers then admit_breakers gm now (_breaker_scopes gm r) [] else (inr [], gm) in
    match res1 with
    | inl d => (d, gm1)
    | inr handles =>
        let '(res2, gm2) :=
          if limits then reserve_limits gm1 now handles (_limit_scopes gm1 r) [] else (inr [], gm1) in
        match res2 with
        | inl d => (d, gm2)
        | inr reservations => (mkGD true None None [] reservations handles, gm2)
        end
    end.

(** ** [activate], [finalize], [cancel] *)

Definition concurrency_gauge (key : LimitKey) (active : Z) : list Metric :=
  match key with
  | (level, name, _) =>
      match given name with
      | Some n => if String.eqb level "flow" then [ConcurrencyGauge n active] else []
      | None => []
      end
  end.

Definition activate_limit (now : Z) (gm : GovernanceManager) (key : LimitKey) : GovernanceManager :=
  match gm_limits gm !! key with
  | Some st =>
      let rate := rate_activate (lst_rate st) now in
      emit (set_limit gm key (mkLS rate (lst_budget st))) (concurrency_gauge key (rt_active rate))
  | None => gm
  end.

Definition gov_activate (gm : GovernanceManager) (d : GovernanceDecision) (now : Z)
  : GovernanceManager :=
  if negb (gd_allowed d) then gm else foldl (activate_limit now) gm (gd_limits d).

Definition usage_metric (scope kind : string) (v : option pyfloat) : list Metric :=
  match v with Some x => [BudgetUsage scope kind x] | None => [] end.

Definition finalize_limit (tokens cost : option pyfloat) (now : Z) (gm : GovernanceManager)
  (key : LimitKey) : GovernanceManager :=
  match gm_limits gm !! key with
  | Some st =>
      let rate := rate_release (lst_rate st) in
      let '(usage, budget) := budget_snapshot (budget_record (lst_budget st) tokens cost now) now in
      let scope := _format_limit_scope key in
      emit (set_limit gm key (mkLS rate budget))
           (concurrency_gauge key (rt_active rate) ++ usage_metric scope "tokens" usage.1 ++
            usage_metric scope "cost" usage.2)
  | None => gm
  end.

Definition finalize_breaker (success timeout : bool) (now : Z) (gm : GovernanceManager)
  (key : BreakerKey) : GovernanceManager :=
  match gm_breakers gm !! key with
  | Some b =>
      let b1 := release_half_open_slot b in
      let b2 := if success then record_success b1 now else record_failure b1 now timeout in
      emit (set_breaker gm key b2) [BreakerGauge (_format_breaker_scope key) (cb_state b2)]
  | None => gm
  end.

Definition finalize (gm : GovernanceManager) (d : GovernanceDecision) (status : string)
  (error_code : option string) (tokens cost : option pyfloat) (now : Z) : GovernanceManager :=
  if negb (gd_allowed d) then gm
  else
    let gm1 := foldl (finalize_limit tokens cost now) gm (gd_limits d) in
    foldl (finalize_breaker (String.eqb status "ok") (_looks_like_timeout error_code) now) gm1
      (gd_breakers d).

Definition gov_cancel (gm : GovernanceManager) (d : GovernanceDecision) : GovernanceManager :=
  if negb (gd_allowed d) then gm
  else _release_breakers (foldl cancel_limit gm (gd_limits d)) (gd_breakers d).
