(* ===== verification/GovSpec.v ===== *)
(** * Reservations of the governance manager

    A refused request leaves every reservation counter as it was; an admitted
    one reserves exactly once in each of its scopes. *)

From S2P Require Import Prelude PyVal Rolling Breaker RateLimit GovManager.
From stdpp Require Import base gmap strings list fin_maps.
From Stdlib Require Import ZArith Lia.

(** ** Counters *)

Definition pending_of (gm : GovernanceManager) (k : LimitKey) : Z :=
  match gm_limits gm !! k with Some st => rt_pending (lst_rate st) | None => 0 end.

Definition active_of (gm : GovernanceManager) (k : LimitKey) : Z :=
  match gm_limits gm !! k with Some st => rt_active (lst_rate st) | None => 0 end.

Definition inflight_of (gm : GovernanceManager) (k : BreakerKey) : Z :=
  match gm_breakers gm !! k with Some b => cb_half_open_inflight b | None => 0 end.

(** Every tracker counts from zero up, every breaker is in a state its state
    machine allows. *)
Definition gov_inv (gm : GovernanceManager) : Prop :=
  map_Forall (fun _ st => 0 <= rt_pending (lst_rate st))%Z (gm_limits gm) ∧
  map_Forall (fun _ b => breaker_inv (cb_settings b) b) (gm_breakers gm).

(** ** One tracker *)

Definition counted (r : RateTracker) : Z := if ls_enabled (rt_settings r) then 1 else 0.

Lemma check_and_reserve_counts r now ok r' :
  check_and_reserve r now = (ok, r') →
  rt_settings r' = rt_settings r ∧ rt_active r' = rt_active r ∧
  rt_pending r' = (rt_pending r + if ok then counted r else 0)%Z.
Proof.
  unfold check_and_reserve, counted. destruct (ls_enabled (rt_settings r)); simpl.
  2: { intros [= <- <-]. split_and!; [done|done|lia]. }
  intros H. repeat case_match; simplify_eq/=; split_and!; try done; lia.
Qed.

Lemma cancel_pending_counts r :
  (0 <= rt_pending r)%Z →
  rt_settings (cancel_pending r) = rt_settings r ∧ rt_active (cancel_pending r) = rt_active r ∧
  (0 <= rt_pending (cancel_pending r))%Z ∧
  ((counted r <= rt_pending r)%Z → rt_pending (cancel_pending r) = (rt_pending r - counted r)%Z).
Proof.
  unfold cancel_pending, counted, dec_pending. intros Hp.
  destruct (ls_enabled (rt_settings r)); simpl; [|split_and!; [done..|lia]].
  destruct (Z.ltb_spec 0 (rt_pending r)); split_and!; try done; lia.
Qed.

Lemma release_zero b : cb_half_open_inflight b = 0%Z → release_half_open_slot b = b.
Proof. unfold release_half_open_slot. by intros ->. Qed.

Lemma can_execute_counts b now d b' :
  breaker_inv (cb_settings b) b → can_execute b now = (d, b') →
  breaker_inv (cb_settings b') b' ∧
  if bd_allowed d then cb_half_open_inflight (release_half_open_slot b') = cb_half_open_inflight b
  else cb_half_open_inflight b' = cb_half_open_inflight b.
Proof.
  intros Hi Hc. assert (cb_settings b' = cb_settings b) as Es.
  { apply (breaker_step_inv _ b now (bd_allowed d) b' Hi). by constructor. }
  split. { rewrite Es. eapply breaker_step_inv; [exact Hi|]. by apply bs_can. }
  destruct Hi as [_ Hb Hh Ho Hd].
  assert (cb_state b ≠ HALF_OPEN → cb_half_open_inflight b = 0%Z) as Hz.
  { intros Hne. destruct (decide (0 < cb_half_open_inflight b)%Z) as [Hp|]; [|lia].
    by apply Hh in Hp. }
  unfold can_execute, refuse in Hc. destruct (bs_enabled (cb_settings b)); simpl in Hc.
  2: { simplify_eq/=. rewrite release_zero; [done|]. apply Hz. by rewrite Hd. }
  destruct (cb_state b) eqn:Est.
  - pose proof (should_trip_frame b now) as (_ & _ & _ & E4).
    destruct (_should_trip b now) as [[] b1]; simplify_eq/=; [by rewrite Hz|].
    rewrite release_zero; rewrite E4; [done|]. by apply Hz.
  - rewrite Hz in * by done. destruct Ho as [t Ht]; [done|]. rewrite Ht in Hc. case_match.
    + unfold half_open_admit in Hc. simpl in Hc. case_match; [lia|]. by simplify_eq/=.
    + simplify_eq/=. by apply Hz.
  - unfold half_open_admit, refuse in Hc. case_match; simplify_eq/=; [done|].
    unfold release_half_open_slot. simpl.
    destruct (Z.ltb_spec 0 (cb_half_open_inflight b + 1)); simpl; lia.
Qed.

(** ** Rolling back *)

Lemma lookup_rollback gm keys k :
  NoDup keys →
  gm_limits (_rollback_limits gm keys) !! k =
  if k ∈? keys then (fun st => mkLS (cancel_pending (lst_rate st)) (lst_budget st)) <$> gm_limits gm !! k
  else gm_limits gm !! k.
Proof.
  intros Hnd. revert gm. induction Hnd as [|k0 keys Hk0 Hnd IH]; intros gm; simpl; [done|].
  unfold _rollback_limits in *. simpl. rewrite IH. unfold cancel_limit.
  destruct (gm_limits gm !! k0) as [st|] eqn:E0; unfold inb.
  - destruct (decide (k = k0)) as [->|Hne].
    + rewrite (bool_decide_false (k0 ∈ keys)) by done. rewrite bool_decide_true by set_solver.
      simpl. by rewrite lookup_insert_eq, E0.
    + simpl. rewrite lookup_insert_ne by done.
      by rewrite (bool_decide_ext (k ∈ k0 :: keys) (k ∈ keys)) by set_solver.
  - destruct (decide (k = k0)) as [->|Hne].
    + rewrite E0. simpl. by destruct (bool_decide (k0 ∈ keys)), (bool_decide (k0 ∈ k0 :: keys)).
    + by rewrite (bool_decide_ext (k ∈ k0 :: keys) (k ∈ keys)) by set_solver.
Qed.

Lemma rollback_breakers gm keys : gm_breakers (_rollback_limits gm keys) = gm_breakers gm.
Proof.
  revert gm. induction keys as [|k keys IH]; intros gm; simpl; [done|].
  unfold _rollback_limits in *. simpl. rewrite IH. unfold cancel_limit.
  by destruct (gm_limits gm !! k).
Qed.

Lemma lookup_release gm keys k :
  NoDup keys →
  gm_breakers (_release_breakers gm keys) !! k =
  if k ∈? keys then release_half_open_slot <$> gm_breakers gm !! k else gm_breakers gm !! k.
Proof.
  intros Hnd. revert gm. induction Hnd as [|k0 keys Hk0 Hnd IH]; intros gm; simpl; [done|].
  unfold _release_breakers in *. simpl. rewrite IH. unfold release_breaker.
  destruct (gm_breakers gm !! k0) as [b|] eqn:E0; unfold inb.
  - destruct (decide (k = k0)) as [->|Hne].
    + rewrite (bool_decide_false (k0 ∈ keys)) by done. rewrite bool_decide_true by set_solver.
      simpl. by rewrite lookup_insert_eq, E0.
    + simpl. rewrite lookup_insert_ne by done.
      by rewrite (bool_decide_ext (k ∈ k0 :: keys) (k ∈ keys)) by set_solver.
  - destruct (decide (k = k0)) as [->|Hne].
    + rewrite E0. simpl. by destruct (bool_decide (k0 ∈ keys)), (bool_decide (k0 ∈ k0 :: keys)).
    + by rewrite (bool_decide_ext (k ∈ k0 :: keys) (k ∈ keys)) by set_solver.
Qed.

Lemma release_limits gm keys : gm_limits (_release_breakers gm keys) = gm_limits gm.
Proof.
  revert gm. induction keys as [|k keys IH]; intros gm; simpl; [done|].
  unfold _release_breakers in *. simpl. rewrite IH. unfold release_breaker.
  by destruct (gm_breakers gm !! k).
Qed.

Lemma release_config gm keys : gm_config (_release_breakers gm keys) = gm_config gm.
Proof.
  revert gm. induction keys as [|k keys IH]; intros gm; simpl; [done|].
  unfold _release_breakers in *. simpl. rewrite IH. unfold release_breaker.
  by destruct (gm_breakers gm !! k).
Qed.

(** ** What the loops have reserved so far *)

Definition counted_at (gm : GovernanceManager) (k : LimitKey) : Z :=
  match gm_limits gm !! k with Some st => counted (lst_rate st) | None => 0 end.

(** Since [gm0], one reservation was added in each scope of [keys] and nothing
    else changed in the counters. *)
Record reserved (gm0 gm : GovernanceManager) (keys : list LimitKey) : Prop := {
  rv_pending k : pending_of gm k = (pending_of gm0 k + if k ∈? keys then counted_at gm k else 0)%Z;
  rv_active k : active_of gm k = active_of gm0 k;
  rv_pos : map_Forall (fun _ st => 0 <= rt_pending (lst_rate st))%Z (gm_limits gm)
}.

Record held (gm0 gm : GovernanceManager) (handles : list BreakerKey) : Prop := {
  hd_inv : map_Forall (fun _ b => breaker_inv (cb_settings b) b) (gm_breakers gm);
  hd_inflight k :
    match gm_breakers gm !! k with
    | Some b => if k ∈? handles then cb_half_open_inflight (release_half_open_slot b)
                else cb_half_open_inflight b
    | None => 0%Z
    end = inflight_of gm0 k
}.

Lemma pending_nonneg gm k :
  map_Forall (fun _ st => 0 <= rt_pending (lst_rate st))%Z (gm_limits gm) →
  (0 <= pending_of gm k)%Z.
Proof.
  intros H. unfold pending_of. destruct (gm_limits gm !! k) as [st|] eqn:E; [exact (H k st E)|lia].
Qed.

Lemma rollback_reserved gm0 gm keys :
  reserved gm0 gm keys → NoDup keys →
  map_Forall (fun _ st => 0 <= rt_pending (lst_rate st))%Z (gm_limits gm0) →
  reserved gm0 (_rollback_limits gm keys) [].
Proof.
  intros [Hp Ha Hpos] Hnd Hpos0.
  assert (∀ k st, gm_limits gm !! k = Some st → k ∈ keys →
    rt_pending (cancel_pending (lst_rate st)) = pending_of gm0 k) as Hcancel.
  { intros k st E Hk. destruct (cancel_pending_counts (lst_rate st)) as (_ & _ & _ & Hc); [exact (Hpos k st E)|].
    specialize (Hp k). unfold pending_of, counted_at in Hp. rewrite E in Hp.
    rewrite (proj2 (inb_true k keys) Hk) in Hp. fold (pending_of gm0 k) in Hp.
    pose proof (pending_nonneg gm0 k Hpos0). rewrite Hc; lia. }
  constructor.
  - intros k. unfold pending_of at 1. rewrite lookup_rollback by done. simpl. rewrite Z.add_0_r.
    destruct (k ∈? keys) eqn:Hk; specialize (Hp k); rewrite Hk in Hp.
    + apply inb_true in Hk. unfold pending_of in Hp.
      destruct (gm_limits gm !! k) as [st|] eqn:E; simpl; [by apply Hcancel|].
      unfold counted_at in Hp. rewrite E in Hp. unfold pending_of. lia.
    + unfold pending_of in Hp at 1. rewrite Hp. lia.
  - intros k. rewrite <- Ha. unfold active_of. rewrite lookup_rollback by done.
    destruct (k ∈? keys); [|done]. destruct (gm_limits gm !! k) as [st|] eqn:E; [|done]. simpl.
    by apply cancel_pending_counts, (Hpos k).
  - intros k st. rewrite lookup_rollback by done. destruct (k ∈? keys); [|apply Hpos].
    destruct (gm_limits gm !! k) as [st'|] eqn:E; [|done]. intros [= <-]. simpl.
    by apply cancel_pending_counts, (Hpos k).
Qed.

Lemma release_inv b :
  breaker_inv (cb_settings b) b →
  breaker_inv (cb_settings (release_half_open_slot b)) (release_half_open_slot b).
Proof.
  intros Hi. assert (cb_settings (release_half_open_slot b) = cb_settings b) as ->.
  { unfold release_half_open_slot. by case_match. }
  eapply breaker_step_inv; [exact Hi|]. apply (bs_release b 0).
Qed.

Lemma release_held gm0 gm handles :
  held gm0 gm handles → NoDup handles → held gm0 (_release_breakers gm handles) [].
Proof.
  intros [Hi Hf] Hnd. constructor.
  - intros k b. rewrite lookup_release by done. destruct (k ∈? handles); [|apply Hi].
    destruct (gm_breakers gm !! k) as [b'|] eqn:E; [|done]. intros [= <-].
    apply release_inv, (Hi k b' E).
  - intros k. rewrite <- Hf, lookup_release by done.
    destruct (k ∈? handles), (gm_breakers gm !! k); done.
Qed.

Lemma ensure_limit gm k s :
  map_Forall (fun _ st => 0 <= rt_pending (lst_rate st))%Z (gm_limits gm) →
  (0 <= rt_pending (lst_rate (_ensure_limit_state gm k s)))%Z ∧
  pending_of gm k = rt_pending (lst_rate (_ensure_limit_state gm k s)) ∧
  active_of gm k = rt_active (lst_rate (_ensure_limit_state gm k s)).
Proof.
  intros Hpos. unfold _ensure_limit_state, pending_of, active_of.
  destruct (gm_limits gm !! k) as [st|] eqn:E; simpl; [|done]. split; [exact (Hpos k st E)|done].
Qed.

(** Replacing the tracker of a scope not yet reserved. *)
Lemma reserved_set gm0 gm keys k st (add : bool) :
  reserved gm0 gm keys → k ∉ keys →
  (0 <= rt_pending (lst_rate st))%Z → rt_active (lst_rate st) = active_of gm k →
  rt_pending (lst_rate st) = (pending_of gm k + if add then counted (lst_rate st) else 0)%Z →
  reserved gm0 (set_limit gm k st) (if add then keys ++ [k] else keys).
Proof.
  intros [Hp Ha Hpos] Hk Hst Hact Hpend. constructor; simpl.
  - intros k'. unfold pending_of at 1, counted_at. simpl. destruct (decide (k' = k)) as [->|Hne].
    + rewrite lookup_insert_eq, Hpend, (Hp k). rewrite (proj2 (inb_false k keys) Hk).
      destruct add; [rewrite (proj2 (inb_true k (keys ++ [k])))|rewrite (proj2 (inb_false k keys) Hk)];
        [lia|set_solver|lia].
    + rewrite lookup_insert_ne by done. specialize (Hp k'). unfold pending_of in Hp at 1.
      unfold counted_at in Hp. rewrite Hp.
      assert ((k' ∈? (if add then keys ++ [k] else keys)) = (k' ∈? keys)) as ->; [|done].
      unfold inb. apply bool_decide_ext. destruct add; set_solver.
  - intros k'. rewrite <- Ha. unfold active_of at 1. simpl.
    destruct (decide (k' = k)) as [->|Hne]; [by rewrite lookup_insert_eq|by rewrite lookup_insert_ne].
  - by apply map_Forall_insert_2.
Qed.

Lemma held_set gm0 gm handles k b (add : bool) :
  held gm0 gm handles → k ∉ handles → breaker_inv (cb_settings b) b →
  cb_half_open_inflight (if add then release_half_open_slot b else b) = inflight_of gm k →
  held gm0 (set_breaker gm k b) (if add then handles ++ [k] else handles).
Proof.
  intros [Hi Hf] Hk Hb Hc. constructor; simpl; [by apply map_Forall_insert_2|]. intros k'.
  destruct (decide (k' = k)) as [->|Hne].
  - rewrite lookup_insert_eq. rewrite <- Hf. unfold inflight_of in Hc.
    rewrite (proj2 (inb_false k handles) Hk).
    destruct add; [rewrite (proj2 (inb_true k (handles ++ [k]))) by set_solver|
                   rewrite (proj2 (inb_false k handles) Hk)]; exact Hc.
  - rewrite lookup_insert_ne by done. rewrite <- Hf.
    assert ((k' ∈? (if add then handles ++ [k] else handles)) = (k' ∈? handles)) as ->; [|done].
    unfold inb. apply bool_decide_ext. destruct add; set_solver.
Qed.

Lemma ensure_breaker gm k s :
  map_Forall (fun _ b => breaker_inv (cb_settings b) b) (gm_breakers gm) →
  breaker_inv (cb_settings (_ensure_breaker_state gm k s)) (_ensure_breaker_state gm k s) ∧
  inflight_of gm k = cb_half_open_inflight (_ensure_breaker_state gm k s).
Proof.
  intros Hi. unfold _ensure_breaker_state, inflight_of.
  destruct (gm_breakers gm !! k) as [b|] eqn:E; simpl; [split; [exact (Hi k b E)|done]|].
  split; [|done]. apply breaker_reachable_inv. constructor.
Qed.

(** Metrics are no counters. *)
Lemma reserved_emit gm0 gm keys ms : reserved gm0 gm keys → reserved gm0 (emit gm ms) keys.
Proof. by intros [? ? ?]. Qed.
Lemma held_emit gm0 gm keys ms : held gm0 gm keys → held gm0 (emit gm ms) keys.
Proof. by intros [? ?]. Qed.
Lemma reserved_breakers gm0 gm gm' keys :
  reserved gm0 gm keys → gm_limits gm' = gm_limits gm → reserved gm0 gm' keys.
Proof.
  intros [Hp Ha Hpos] E. unfold pending_of, active_of, counted_at in *.
  constructor; unfold pending_of, active_of, counted_at; rewrite ?E; done.
Qed.
Lemma held_limits gm0 gm gm' keys :
  held gm0 gm keys → gm_breakers gm' = gm_breakers gm → held gm0 gm' keys.
Proof. intros [Hi Hf] E. constructor; rewrite E; done. Qed.

#[export] Hint Resolve reserved_emit held_emit : tm.

Lemma admit_breakers_spec gm0 gm now scopes handles res gm' :
  NoDup (handles ++ scopes.*1) → held gm0 gm handles →
  admit_breakers gm now scopes handles = (res, gm') →
  gm_limits gm' = gm_limits gm ∧ gm_config gm' = gm_config gm ∧
  match res with
  | inl d => gd_allowed d = false ∧ held gm0 gm' []
  | inr handles' => handles' = handles ++ scopes.*1 ∧ held gm0 gm' handles'
  end.
Proof.
  revert gm handles. induction scopes as [|[k s] scopes IH]; intros gm handles Hnd Hh; simpl.
  { intros [= <- <-]. rewrite app_nil_r. done. }
  simpl in Hnd. assert ((k ∉ handles) ∧ NoDup handles) as [Hk Hndh].
  { apply NoDup_app in Hnd as (Hndh & Hdis & _). split; [|done].
    intros Hin. apply (Hdis k Hin). left. }
  destruct (ensure_breaker gm k s (hd_inv _ _ _ Hh)) as [Hb Ef].
  destruct (can_execute (_ensure_breaker_state gm k s) now) as [d b] eqn:Hc.
  destruct (can_execute_counts _ _ _ _ Hb Hc) as [Hb' Hcnt].
  destruct (bd_allowed d).
  - intros Hrec. destruct (IH (set_breaker gm k b) (handles ++ [k])) as (El & Ec & Hres).
    + rewrite <- (assoc_L (++)). exact Hnd.
    + apply (held_set gm0 gm handles k b true Hh Hk Hb'). congruence.
    + exact Hrec.
    + split_and!; [done|done|]. destruct res; [done|].
      destruct Hres as [-> Hh']. rewrite <- (assoc_L (++)) in *. done.
  - intros [= <- <-]. rewrite release_limits. split_and!; [done| |done|].
    + by rewrite release_config.
    + apply release_held; [|done]. apply held_emit.
      apply (held_set gm0 gm handles k b false Hh Hk Hb'). congruence.
Qed.

Lemma reserve_limits_spec gm0 gm now handles scopes keys res gm' :
  NoDup (keys ++ scopes.*1) → NoDup handles →
  map_Forall (fun _ st => 0 <= rt_pending (lst_rate st))%Z (gm_limits gm0) →
  reserved gm0 gm keys → held gm0 gm handles →
  reserve_limits gm now handles scopes keys = (res, gm') →
  match res with
  | inl d => gd_allowed d = false ∧ reserved gm0 gm' [] ∧ held gm0 gm' []
  | inr keys' => keys' = keys ++ scopes.*1 ∧ reserved gm0 gm' keys' ∧ held gm0 gm' handles
  end.
Proof.
  intros Hnd Hndh Hpos0. revert gm keys Hnd.
  induction scopes as [|[k s] scopes IH]; intros gm keys Hnd Hr Hh; simpl.
  { intros [= <- <-]. rewrite app_nil_r. done. }
  simpl in Hnd. assert ((k ∉ keys) ∧ NoDup keys) as [Hk Hndk].
  { apply NoDup_app in Hnd as (Hndk & Hdis & _). split; [|done].
    intros Hin. apply (Hdis k Hin). left. }
  destruct (ensure_limit gm k s (rv_pos _ _ _ Hr)) as (Hp0 & Ep & Ea).
  set (st := _ensure_limit_state gm k s) in *.
  destruct (check_and_reserve (lst_rate st) now) as [ok rate] eqn:Hc.
  destruct (check_and_reserve_counts _ _ _ _ Hc) as (Es & Eact & Epend).
  assert (counted rate = counted (lst_rate st)) as Ecnt by (unfold counted; by rewrite Es).
  assert (0 <= counted (lst_rate st))%Z as Hc0
    by (unfold counted; destruct (ls_enabled (rt_settings (lst_rate st))); lia).
  assert (∀ gm1, reserved gm0 gm1 keys → held gm0 gm1 handles →
    reserved gm0 (_release_breakers (_rollback_limits gm1 keys) handles) [] ∧
    held gm0 (_release_breakers (_rollback_limits gm1 keys) handles) []) as Hundo.
  { intros gm1 Hr1 Hh1. split.
    - eapply reserved_breakers; [by apply rollback_reserved|]. apply release_limits.
    - apply release_held; [|done]. eapply held_limits; [exact Hh1|]. apply rollback_breakers. }
  destruct ok; simpl.
  - destruct (budget_can_accept (lst_budget st) now) as [[|kind] budget].
    + intros Hrec. pose proof (IH (set_limit gm k (mkLS rate budget)) (keys ++ [k])) as Hres.
      rewrite <- (assoc_L (++)) in Hres. apply Hres in Hrec; [|done| |].
      * by destruct res.
      * apply (reserved_set gm0 gm keys k (mkLS rate budget) true Hr Hk); simpl; lia.
      * by eapply held_limits.
    + intros [= <- <-]. split; [done|].
      destruct (cancel_pending_counts rate) as (_ & Ea' & Hp' & Hcc); [lia|].
      destruct (Hundo (set_limit gm k (mkLS (cancel_pending rate) budget))) as [Hr' Hh'].
      * apply (reserved_set gm0 gm keys k _ false Hr Hk); simpl; [done|congruence|].
        rewrite Hcc; lia.
      * by eapply held_limits.
      * split; [by apply reserved_emit|by apply held_emit].
  - intros [= <- <-]. split; [done|]. apply Hundo.
    + apply reserved_emit, (reserved_set gm0 gm keys k _ false Hr Hk); simpl; lia.
    + apply held_emit. by eapply held_limits.
Qed.

(** ** The scopes of a request are distinct *)

Lemma limit_scopes_nodup gm r : NoDup (_limit_scopes gm r).*1.
Proof.
  unfold _limit_scopes. destruct (negb _); [constructor|].
  repeat match goal with
  | |- context [given ?x] => destruct (given x)
  | |- context [scope_of _ (?m !! ?k)] => destruct (m !! k)
  | |- context [limit_is_active ?c] => destruct (limit_is_active c)
  end; simpl; repeat constructor; set_solver.
Qed.

Lemma breaker_scopes_nodup gm r : NoDup (_breaker_scopes gm r).*1.
Proof.
  unfold _breaker_scopes. destruct (negb _); [constructor|].
  repeat match goal with
  | |- context [given ?x] => destruct (given x)
  | |- context [scope_of _ (?m !! ?k)] => destruct (m !! k)
  | |- context [breaker_is_active ?c] => destruct (breaker_is_active c)
  end; simpl; repeat constructor; set_solver.
Qed.

(** ** Reachable managers *)

Inductive gov_step : GovernanceManager → GovernanceManager → Prop :=
| gs_check gm r now : gov_step gm (check gm r now).2
| gs_activate gm d now : gov_step gm (gov_activate gm d now)
| gs_finalize gm d status code tokens cost now :
    gov_step gm (finalize gm d status code tokens cost now)
| gs_cancel gm d : gov_step gm (gov_cancel gm d).

Inductive gov_reachable (c : GovernanceConfig) : GovernanceManager → Prop :=
| gr_new : gov_reachable c (gov_new c)
| gr_step gm gm' : gov_reachable c gm → gov_step gm gm' → gov_reachable c gm'.

Lemma reserved_self gm : gov_inv gm → reserved gm gm [].
Proof. intros [Hp _]. constructor; [|done|done]. intros k. simpl. lia. Qed.

Lemma held_self gm : gov_inv gm → held gm gm [].
Proof. intros [_ Hb]. constructor; [done|]. done. Qed.

(** The two outcomes of a check. *)
Lemma check_spec gm r now d gm' :
  gov_inv gm → check gm r now = (d, gm') →
  (gd_allowed d = false ∧ reserved gm gm' [] ∧ held gm gm' []) ∨
  (gd_allowed d = true ∧ reserved gm gm' (gd_limits d) ∧ held gm gm' (gd_breakers d) ∧
   NoDup (gd_limits d) ∧ NoDup (gd_breakers d) ∧
   gd_limits d = (if limits_enabled (gm_config gm) then (_limit_scopes gm r).*1 else []) ∧
   gd_breakers d = (if breaker_enabled (gm_config gm) then (_breaker_scopes gm r).*1 else [])).
Proof.
  intros Hi. pose proof (reserved_self gm Hi) as Hr0. pose proof (held_self gm Hi) as Hh0.
  unfold check. destruct (limits_enabled (gm_config gm) || breaker_enabled (gm_config gm)) eqn:He;
    simpl.
  2: { intros [= <- <-]. right. apply orb_false_iff in He as [-> ->]. simpl.
       split_and!; try done; constructor. }
  clear He.
  assert (∃ res1 gm1, (if breaker_enabled (gm_config gm)
            then admit_breakers gm now (_breaker_scopes gm r) [] else (inr [], gm)) = (res1, gm1) ∧
          gm_config gm1 = gm_config gm ∧ reserved gm gm1 [] ∧
          match res1 with
          | inl d => gd_allowed d = false ∧ held gm gm1 []
          | inr hs => hs = (if breaker_enabled (gm_config gm) then (_breaker_scopes gm r).*1 else []) ∧
                      held gm gm1 hs ∧ NoDup hs
          end) as (res1 & gm1 & E1 & Ec1 & Hr1 & Hres1).
  { destruct (breaker_enabled (gm_config gm)).
    - destruct (admit_breakers gm now (_breaker_scopes gm r) []) as [res1 gm1] eqn:E.
      destruct (admit_breakers_spec gm gm now (_breaker_scopes gm r) [] res1 gm1) as (El & Ec & Hres);
        [apply breaker_scopes_nodup|done|done|].
      exists res1, gm1. split_and!; [done|done|by eapply reserved_breakers|].
      destruct res1; [done|]. destruct Hres as [-> Hh]. split_and!; [done|done|].
      apply breaker_scopes_nodup.
    - exists (inr []), gm. split_and!; try done. constructor. }
  rewrite E1. destruct res1 as [d1|hs].
  { intros [= <- <-]. left. destruct Hres1. done. }
  destruct Hres1 as (Ehs & Hh1 & Hndh).
  assert (_limit_scopes gm1 r = _limit_scopes gm r) as Esc by (unfold _limit_scopes; by rewrite Ec1).
  rewrite Esc. destruct (limits_enabled (gm_config gm)).
  - destruct (reserve_limits gm1 now hs (_limit_scopes gm r) []) as [res2 gm2] eqn:E2.
    pose proof (reserve_limits_spec gm gm1 now hs (_limit_scopes gm r) [] res2 gm2) as Hres2.
    specialize (Hres2 (limit_scopes_nodup gm r) Hndh (proj1 Hi) Hr1 Hh1 E2).
    destruct res2 as [d2|ks]; intros [= <- <-]; [by left|]. right. simpl.
    destruct Hres2 as (-> & Hr2 & Hh2). split_and!; try done. apply limit_scopes_nodup.
  - intros [= <- <-]. right. simpl. split_and!; try done. constructor.
Qed.

Lemma reserved_held_inv gm0 gm keys handles :
  reserved gm0 gm keys → held gm0 gm handles → gov_inv gm.
Proof. intros [_ _ Hp] [Hb _]. done. Qed.

Lemma set_limit_inv gm k st :
  gov_inv gm → (0 <= rt_pending (lst_rate st))%Z → gov_inv (set_limit gm k st).
Proof. intros [Hp Hb] Hst. split; [|done]. by apply map_Forall_insert_2. Qed.

Lemma set_breaker_inv gm k b :
  gov_inv gm → breaker_inv (cb_settings b) b → gov_inv (set_breaker gm k b).
Proof. intros [Hp Hb] Hst. split; [done|]. by apply map_Forall_insert_2. Qed.

Lemma fold_inv {X} (f : GovernanceManager → X → GovernanceManager) gm l :
  (∀ g x, gov_inv g → gov_inv (f g x)) → gov_inv gm → gov_inv (foldl f gm l).
Proof. intros Hf. revert gm. induction l as [|x l IH]; intros gm Hi; simpl; [done|]. by apply IH, Hf. Qed.

Lemma cancel_limit_inv gm k : gov_inv gm → gov_inv (cancel_limit gm k).
Proof.
  intros Hi. unfold cancel_limit. destruct (gm_limits gm !! k) as [st|] eqn:E; [|done].
  apply set_limit_inv; [done|]. simpl. apply cancel_pending_counts, (proj1 Hi k st E).
Qed.

Lemma release_breaker_inv gm k : gov_inv gm → gov_inv (release_breaker gm k).
Proof.
  intros Hi. unfold release_breaker. destruct (gm_breakers gm !! k) as [b|] eqn:E; [|done].
  apply set_breaker_inv; [done|]. apply release_inv, (proj2 Hi k b E).
Qed.

Lemma activate_limit_inv now gm k : gov_inv gm → gov_inv (activate_limit now gm k).
Proof.
  intros Hi. unfold activate_limit. destruct (gm_limits gm !! k) as [st|] eqn:E; [|done].
  apply (set_limit_inv gm k); [done|]. simpl. pose proof (proj1 Hi k st E) as Hp. simpl in Hp.
  unfold rate_activate, dec_pending. destruct (ls_enabled (rt_settings (lst_rate st))); simpl; [|done].
  destruct (Z.ltb_spec 0 (rt_pending (lst_rate st))); lia.
Qed.

Lemma finalize_limit_inv tokens cost now gm k :
  gov_inv gm → gov_inv (finalize_limit tokens cost now gm k).
Proof.
  intros Hi. unfold finalize_limit. destruct (gm_limits gm !! k) as [st|] eqn:E; [|done].
  destruct (budget_snapshot _ now) as [usage budget].
  apply (set_limit_inv gm k); [done|]. simpl. pose proof (proj1 Hi k st E) as Hp. simpl in Hp.
  unfold rate_release. repeat case_match; simpl; done.
Qed.

Lemma finalize_breaker_inv success timeout now gm k :
  gov_inv gm → gov_inv (finalize_breaker success timeout now gm k).
Proof.
  intros Hi. unfold finalize_breaker. destruct (gm_breakers gm !! k) as [b|] eqn:E; [|done].
  apply (set_breaker_inv gm k); [done|]. pose proof (release_inv b (proj2 Hi k b E)) as Hb.
  set (b1 := release_half_open_slot b) in *.
  assert (∀ b2, breaker_step b1 now false b2 → breaker_inv (cb_settings b2) b2) as Hstep.
  { intros b2 Hs. pose proof (breaker_step_inv _ _ _ _ _ Hb Hs) as Hb2.
    by rewrite (bi_settings _ _ Hb2). }
  apply Hstep. destruct success; constructor.
Qed.

Lemma gov_step_inv gm gm' : gov_inv gm → gov_step gm gm' → gov_inv gm'.
Proof.
  intros Hi. destruct 1 as [gm r now|gm d now|gm d status code tokens cost now|gm d].
  - destruct (check gm r now) as [d gm'] eqn:Hc. simpl.
    destruct (check_spec gm r now d gm' Hi Hc) as [(_ & Hr & Hh)|(_ & Hr & Hh & _)];
      by eapply reserved_held_inv.
  - unfold gov_activate. destruct (gd_allowed d); simpl; [|done].
    apply fold_inv; [|done]. intros g x. apply activate_limit_inv.
  - unfold finalize. destruct (gd_allowed d); simpl; [|done].
    apply fold_inv; [intros g x; apply finalize_breaker_inv|].
    apply fold_inv; [|done]. intros g x. apply finalize_limit_inv.
  - unfold gov_cancel. destruct (gd_allowed d); simpl; [|done].
    apply fold_inv; [intros g x; apply release_breaker_inv|].
    apply fold_inv; [|done]. intros g x. apply cancel_limit_inv.
Qed.

Lemma gov_reachable_inv c gm : gov_reachable c gm → gov_inv gm.
Proof.
  induction 1 as [|gm gm' _ IH Hs]; [split; apply map_Forall_empty|]. by eapply gov_step_inv.
Qed.

(** C23: a refused check is free: whatever refused the request (a breaker, a
    rate or concurrency limit, a budget), after it every scope has as many
    pending and active requests, and every breaker as many half-open calls in
    flight, as before. *)
Theorem check_reject_rolls_back c gm r now d gm' :
  gov_reachable c gm → check gm r now = (d, gm') → gd_allowed d = false →
  (∀ k, pending_of gm' k = pending_of gm k ∧ active_of gm' k = active_of gm k) ∧
  (∀ k, inflight_of gm' k = inflight_of gm k).
Proof.
  intros Hr Hc Hd. apply gov_reachable_inv in Hr.
  destruct (check_spec gm r now d gm' Hr Hc) as [(_ & [Hp Ha _] & [_ Hf])|(He & _)]; [|congruence].
  split; [|intros k; unfold inflight_of at 1; exact (Hf k)].
  intros k. split; [|done]. rewrite Hp. simpl. lia.
Qed.

(** An admitted check reserves once in each of the request's limit scopes
    (for which limits are enabled) and nowhere else, and cancelling the
    decision at once gives every counter back. *)
Theorem check_admit_reserves c gm r now d gm' :
  gov_reachable c gm → check gm r now = (d, gm') → gd_allowed d = true →
  gd_limits d = (if limits_enabled (gm_config gm) then (_limit_scopes gm r).*1 else []) ∧
  (∀ k, pending_of gm' k =
        (pending_of gm k + if k ∈? gd_limits d then counted_at gm' k else 0)%Z) ∧
  (∀ k, active_of gm' k = active_of gm k) ∧
  (∀ k, pending_of (gov_cancel gm' d) k = pending_of gm k) ∧
  (∀ k, inflight_of (gov_cancel gm' d) k = inflight_of gm k).
Proof.
  intros Hr Hc Hd. apply gov_reachable_inv in Hr as Hi.
  destruct (check_spec gm r now d gm' Hi Hc)
    as [(He & _)|(_ & Hres & Hheld & Hndl & Hndb & El & _)]; [congruence|].
  unfold gov_cancel. rewrite Hd. simpl. fold (_rollback_limits gm' (gd_limits d)).
  pose proof (rollback_reserved _ _ _ Hres Hndl (proj1 Hi)) as [Hp _ _].
  assert (held gm (_rollback_limits gm' (gd_limits d)) (gd_breakers d)) as Hh
    by (eapply held_limits; [exact Hheld|apply rollback_breakers]).
  pose proof (release_held _ _ _ Hh Hndb) as [_ Hf]. destruct Hres as [Hp' Ha' _].
  split_and!; [done|done|done| |].
  - intros k. specialize (Hp k). simpl in Hp. unfold pending_of in Hp at 1.
    unfold pending_of at 1. rewrite release_limits. lia.
  - intros k. unfold inflight_of at 1. exact (Hf k).
Qed.

(** ** Concrete managers *)

Definition no_limit : LimitSettings := mkLimit true None None None None.
Definition demo_config : GovernanceConfig :=
  mkGC true (mkLC true (mkLimit true None (Some 1%Z) None None) ∅ ∅)
       (mkBC true (mkBS true 100 1 0 50 1) ∅ ∅).

Definition demo_request : RequestDescriptor := mkReq "f" None None.

Definition demo_first := check (gov_new demo_config) demo_request 1.

Lemma check_admit_reserves_witness :
  gd_allowed demo_first.1 = true ∧ pending_of demo_first.2 ("global", None, None) = 1%Z ∧
  pending_of (gov_cancel demo_first.2 demo_first.1) ("global", None, None) = 0%Z.
Proof.
  destruct (check_admit_reserves demo_config (gov_new demo_config) demo_request 1
              demo_first.1 demo_first.2) as (_ & Hp & _ & Hc & _).
  - constructor.
  - by vm_compute.
  - by vm_compute.
  - split_and!; [by vm_compute|rewrite Hp; by vm_compute|rewrite Hc; by vm_compute].
Defined.

Lemma check_reject_rolls_back_witness :
  gd_allowed (check demo_first.2 demo_request 2).1 = false ∧
  pending_of (check demo_first.2 demo_request 2).2 ("global", None, None) =
  pending_of demo_first.2 ("global", None, None).
Proof.
  split; [by vm_compute|].
  destruct (check demo_first.2 demo_request 2) as [d gm'] eqn:E.
  apply (check_reject_rolls_back demo_config demo_first.2 demo_request 2 d gm').
  - eapply gr_step; [constructor|]. apply gs_check.
  - exact E.
  - vm_compute in E. by injection E as <- _.
Defined.

(** A request admitted while the breaker was closed holds no half-open slot,
    but cancelling it while the breaker is half-open frees the slot of another
    request: two probes are in flight where one is allowed. *)
Definition breaker_only : GovernanceConfig :=
  mkGC true (mkLC false no_limit ∅ ∅) (mkBC true (mkBS true 100 1 0 50 1) ∅ ∅).

Example cancel_frees_foreign_slot :
  let '(a, g1) := check (gov_new breaker_only) demo_request 1 in
  let '(b, g2) := check g1 demo_request 1 in
  let g3 := finalize g2 b "error" None None None 2 in
  let '(c, g4) := check g3 demo_request 60 in
  let '(refused, g5) := check g4 demo_request 61 in
  let '(d, g6) := check (gov_cancel g5 a) demo_request 62 in
  (gd_allowed a, gd_allowed b, gd_allowed c, gd_allowed refused, gd_allowed d) =
  (true, true, true, false, true).
Proof. vm_compute. done. Qed.
