(* ===== verification/Task.v ===== *)
(** * Task envelopes and the queue interface ([tm/runtime/task.py],
      [queue/base.py])

    The schema of a queued task and its conversion to and from the mapping
    the queue stores.  [uuid] and [wall] are the identifier and the wall-clock
    reading a fresh envelope takes. *)

From S2P Require Import Prelude PyVal PyConv.
From stdpp Require Import base gmap strings list.
From Stdlib Require Import ZArith Lia.

(** Mappings with string keys, in insertion order. *)
Record mapping : Type := Map { items : list (string * json) }.

#[export] Instance mapping_eq_dec : EqDecision mapping.
Proof. solve_decision. Defined.

Definition empty_map : mapping := Map [].

Record TaskEnvelope : Type := mkTask {
  task_id : string;
  flow_id : string;
  te_input : mapping;
  te_headers : mapping;
  te_attempt : Z;
  te_scheduled_at : pyfloat;
  te_trace : mapping
}.

#[export] Instance TaskEnvelope_eq_dec : EqDecision TaskEnvelope.
Proof. solve_decision. Defined.

Definition idempotency_key (e : TaskEnvelope) : option string :=
  match jget "idempotency_key" (items (te_headers e)) with
  | JStr s => if String.eqb s "" then None else Some s
  | _ => None
  end.

Definition composite_key (e : TaskEnvelope) : string :=
  default (task_id e) (idempotency_key e).

Definition to_dict (e : TaskEnvelope) : mapping :=
  Map [("task_id", JStr (task_id e));
       ("flow_id", JStr (flow_id e));
       ("input", JObj (items (te_input e)));
       ("headers", JObj (items (te_headers e)));
       ("attempt", JInt (te_attempt e));
       ("scheduled_at", JFloat (te_scheduled_at e));
       ("trace", JObj (items (te_trace e)))].

Definition with_retry (e : TaskEnvelope) (attempt : Z) (scheduled_at : pyfloat) : TaskEnvelope :=
  mkTask (task_id e) (flow_id e) (te_input e) (te_headers e) attempt scheduled_at (te_trace e).

(** [TaskEnvelope.new] without the optional [task_id] and [scheduled_at]. *)
Definition task_new (uuid : string) (wall : pyfloat) (flow : string)
    (input headers trace : mapping) : TaskEnvelope :=
  mkTask uuid flow input (Map (dict_pop "task_id" (items headers))) 0 wall trace.

Definition _freeze_mapping (v : json) : res mapping :=
  match v with
  | JNull => Ok empty_map
  | JObj m => Ok (Map m)
  | _ => Raise (TypeError "expected mapping for task field")
  end.

Section from_dict.
Context `{PyText}.

Definition from_dict (wall : pyfloat) (payload : json) : res TaskEnvelope :=
  match as_mapping payload with
  | None => Raise (TypeError "task payload must be a mapping")
  | Some m =>
      let task_id := py_str other_str (jget "task_id" m) in
      if String.eqb task_id "" then Raise (ValueError "task payload missing task_id") else
      let flow_id := py_str other_str (jget "flow_id" m) in
      if String.eqb flow_id "" then Raise (ValueError "task payload missing flow_id") else
      attempt ← py_int (default (JInt 0) (alookup "attempt" m));
      scheduled_at ← match jget "scheduled_at" m with JNull => Ok wall | v => py_float v end;
      input ← _freeze_mapping (jor (jget "input" m) (JObj []));
      headers ← _freeze_mapping (jor (jget "headers" m) (JObj []));
      trace ← _freeze_mapping (jor (jget "trace" m) (JObj []));
      Ok (mkTask task_id flow_id input headers attempt scheduled_at trace)
  end.

(** An envelope the schema accepts. *)
Definition task_valid (e : TaskEnvelope) : Prop := task_id e ≠ "" ∧ flow_id e ≠ "".

Lemma freeze_or_empty m : _freeze_mapping (jor (JObj m) (JObj [])) = Ok (Map m).
Proof. by destruct m. Qed.

Lemma from_to_dict wall e : task_valid e → from_dict wall (JObj (items (to_dict e))) = Ok e.
Proof.
  intros [Ht Hf]. destruct e as [t f [i] [h] a s [tr]]. simpl in *.
  apply String.eqb_neq in Ht, Hf. unfold from_dict, to_dict. cbn [as_mapping items].
  repeat match goal with
  | |- context [jget ?k ?m] => let v := eval cbv in (jget k m) in change (jget k m) with v
  end.
  cbn -[String.eqb jor]. rewrite Ht, Hf. by rewrite !freeze_or_empty.
Qed.

Lemma with_retry_key e a s : idempotency_key (with_retry e a s) = idempotency_key e.
Proof. done. Qed.

Lemma with_retry_composite e a s : composite_key (with_retry e a s) = composite_key e.
Proof. done. Qed.

Lemma task_new_valid uuid wall flow i h tr :
  uuid ≠ "" → flow ≠ "" → task_valid (task_new uuid wall flow i h tr).
Proof. done. Qed.

Lemma task_new_key uuid wall flow i h tr :
  idempotency_key (task_new uuid wall flow i h tr) =
  match jget "idempotency_key" (items h) with
  | JStr s => if String.eqb s "" then None else Some s
  | _ => None
  end.
Proof. unfold idempotency_key, jget. simpl. by rewrite alookup_dict_pop. Qed.
End from_dict.

(** ** The work-queue interface ([tm/runtime/queue/base.py])

    [WorkQueue]: the operations every queue offers, as the abstract base class
    lists them, with the clock readings they take made explicit.
    [LawfulWorkQueue]: what a queue promises its clients, stated on a view of
    the queue as a finite map from offsets to the stored task and the token of
    its lease, if any. *)

From S2P Require Import Prelude PyVal PyConv.
From stdpp Require Import base gmap strings list.
From Stdlib Require Import ZArith Lia.

(** The readings of [time.monotonic()] and [time.time()], in microseconds,
    that one operation takes. *)
Record Now : Type := mkNow { mono : Z; wall : Z }.

Record LeasedTask : Type := mkLeased {
  lt_offset : N;
  lt_task : mapping;
  lt_deadline : Z;
  lt_token : string
}.

Class WorkQueue (Q : Type) := {
  wq_put : Q → mapping → Now → N * Q;
  wq_lease : Q → Z → Z → Now → list LeasedTask * Q;
  wq_ack : Q → N → string → Q;
  wq_nack : Q → N → string → bool → Now → Q;
  wq_reschedule : Q → N → pyfloat → Q;
  wq_pending_count : Q → N;
  wq_oldest_available_at : Q → option pyfloat
}.

(** A stored task and the token of its current lease. *)
Record slot : Type := mkSlot { sl_task : mapping; sl_token : option string }.

Class LawfulWorkQueue (Q : Type) `{WorkQueue Q} := {
  wq_ok : Q → Prop;
  wq_view : Q → gmap N slot;
  wq_count q : wq_ok q → wq_pending_count q = N.of_nat (size (wq_view q));
  (** [put] stores under an offset that was not in use. *)
  wq_put_law q task now : wq_ok q →
    let '(off, q') := wq_put q task now in
    wq_ok q' ∧ wq_view q !! off = None ∧
    wq_view q' = <[off := mkSlot task None]> (wq_view q);
  (** [lease] keeps every task; what it returns is leased under the token it
      returns, and a token it does not return was there before. *)
  wq_lease_law q count ms now : wq_ok q →
    let '(ls, q') := wq_lease q count ms now in
    wq_ok q' ∧
    sl_task <$> wq_view q' = sl_task <$> wq_view q ∧
    NoDup (lt_offset <$> ls) ∧
    (∀ l, l ∈ ls → wq_view q' !! lt_offset l = Some (mkSlot (lt_task l) (Some (lt_token l)))) ∧
    (∀ off t tok, wq_view q' !! off = Some (mkSlot t (Some tok)) →
       wq_view q !! off = Some (mkSlot t (Some tok)) ∨
       ∃ l, l ∈ ls ∧ lt_offset l = off ∧ lt_task l = t ∧ lt_token l = tok);
  (** The holder of the current token removes the task, or gives it back;
      any other token changes nothing. *)
  wq_ack_law q off tok : wq_ok q →
    wq_ok (wq_ack q off tok) ∧
    wq_view (wq_ack q off tok) =
      match wq_view q !! off with
      | Some (mkSlot _ (Some tok')) =>
          if String.eqb tok tok' then delete off (wq_view q) else wq_view q
      | _ => wq_view q
      end;
  wq_nack_law q off tok requeue now : wq_ok q →
    wq_ok (wq_nack q off tok requeue now) ∧
    wq_view (wq_nack q off tok requeue now) =
      match wq_view q !! off with
      | Some (mkSlot t (Some tok')) =>
          if String.eqb tok tok' then
            if requeue then <[off := mkSlot t None]> (wq_view q) else delete off (wq_view q)
          else wq_view q
      | _ => wq_view q
      end
}.
