(* ===== verification/MemQueue.v ===== *)
(** * The in-memory work queue ([tm/runtime/queue/memory.py])

    [heapq] is kept by its contract: a list sorted by (availability, offset)
    with insertion and removal of the least element, so that [heappop] is the
    head of the list.  Lease deadlines are clock readings in microseconds. *)

From S2P Require Import Prelude PyVal PyConv Task.
From stdpp Require Import base gmap strings list pretty.
From Stdlib Require Import ZArith Lia.

(** ** State *)

Record Entry : Type := mkEntry {
  e_task : mapping;
  e_available_at : pyfloat;
  e_lease_deadline : Z;
  e_token : option string;
  e_acked : bool
}.

Record InMemoryWorkQueue : Type := mkMQ {
  mq_next_offset : N;
  mq_entries : gmap N Entry;
  mq_ready : list (pyfloat * N);
  mq_lease_seq : N
}.

Definition mq_new : InMemoryWorkQueue := mkMQ 0 ∅ [] 0.

(** ** The heap *)

(** [x < y] on pairs (availability, offset). *)
Definition item_ltb (x y : pyfloat * N) : bool :=
  flt x.1 y.1 || (feq x.1 y.1 && (x.2 <? y.2)%N).

Fixpoint heappush (h : list (pyfloat * N)) (x : pyfloat * N) : list (pyfloat * N) :=
  match h with
  | [] => [x]
  | y :: h' => if item_ltb x y then x :: h else y :: heappush h' x
  end.

(** ** Operations *)

Section operations.
Context `{PyText}.

Definition _extract_available_at (task : mapping) (now : Now) : pyfloat :=
  let scheduled :=
    match py_float (default (JFloat fzero) (alookup "scheduled_at" (items task))) with
    | Ok f => f
    | Raise _ => fzero
    end in
  if fge fzero scheduled then Fin (mono now)
  else fadd (Fin (mono now)) (fmax fzero (fsub scheduled (Fin (wall now)))).

Definition mq_put (q : InMemoryWorkQueue) (task : mapping) (now : Now) : N * InMemoryWorkQueue :=
  let offset := mq_next_offset q in
  let available_at := _extract_available_at task now in
  (offset,
   mkMQ (offset + 1) (<[offset := mkEntry task available_at 0 None false]> (mq_entries q))
     (heappush (mq_ready q) (available_at, offset)) (mq_lease_seq q)).
End operations.

(** One step of the loop of [_release_expired]. *)
Definition release_one (now : Z) (q : InMemoryWorkQueue) (oe : N * Entry) : InMemoryWorkQueue :=
  let '(offset, e) := oe in
  match e_token e with
  | Some _ =>
      if negb (e_acked e) && (e_lease_deadline e <=? now)%Z then
        mkMQ (mq_next_offset q)
          (<[offset := mkEntry (e_task e) (e_available_at e) 0 None (e_acked e)]> (mq_entries q))
          (heappush (mq_ready q) (e_available_at e, offset)) (mq_lease_seq q)
      else q
  | None => q
  end.

Definition _release_expired (q : InMemoryWorkQueue) (now : Z) : InMemoryWorkQueue :=
  foldl (release_one now) q (map_to_list (mq_entries q)).

Definition token_of (seq : N) : string := "lease-" +:+ pretty seq.

(** The loop of [lease]: [room] leases may still be handed out. *)
Fixpoint lease_loop (now deadline : Z) (room : nat) (ready : list (pyfloat * N))
    (entries : gmap N Entry) (seq : N)
  : list LeasedTask * (list (pyfloat * N) * gmap N Entry * N) :=
  match room, ready with
  | S room', (available_at, offset) :: rest =>
      if flt (Fin now) available_at then ([], (ready, entries, seq))
      else
        match entries !! offset with
        | None => lease_loop now deadline room rest entries seq
        | Some e =>
            if e_acked e then lease_loop now deadline room rest entries seq
            else
              let token := token_of (seq + 1) in
              let e' := mkEntry (e_task e) (e_available_at e) deadline (Some token) (e_acked e) in
              let '(leased, st) :=
                lease_loop now deadline room' rest (<[offset := e']> entries) (seq + 1) in
              (mkLeased offset (e_task e) deadline token :: leased, st)
        end
  | _, _ => ([], (ready, entries, seq))
  end.

Definition mq_lease (q : InMemoryWorkQueue) (count lease_ms : Z) (now : Now)
  : list LeasedTask * InMemoryWorkQueue :=
  if (count <=? 0)%Z then ([], q)
  else
    let deadline := (mono now + Z.max lease_ms 0 * 1000)%Z in
    let q1 := _release_expired q (mono now) in
    let '(leased, (ready, entries, seq)) :=
      lease_loop (mono now) deadline (Z.to_nat count) (mq_ready q1) (mq_entries q1)
        (mq_lease_seq q1) in
    (leased, mkMQ (mq_next_offset q1) entries ready seq).

(** The guard shared by [ack] and [nack]: the entry held under this token. *)
Definition held_by (q : InMemoryWorkQueue) (offset : N) (token : string) : option Entry :=
  e ← mq_entries q !! offset;
  if e_acked e then None
  else
    match e_token e with
    | Some t => if String.eqb t token then Some e else None
    | None => None
    end.

Definition mq_ack (q : InMemoryWorkQueue) (offset : N) (token : string) : InMemoryWorkQueue :=
  match held_by q offset token with
  | None => q
  | Some _ =>
      mkMQ (mq_next_offset q) (delete offset (mq_entries q)) (mq_ready q) (mq_lease_seq q)
  end.

Definition mq_nack (q : InMemoryWorkQueue) (offset : N) (token : string) (requeue : bool)
    (now : Now) : InMemoryWorkQueue :=
  match held_by q offset token with
  | None => q
  | Some e =>
      if requeue then
        let available_at :=
          if flt (e_available_at e) (Fin (mono now)) then Fin (mono now) else e_available_at e in
        mkMQ (mq_next_offset q)
          (<[offset := mkEntry (e_task e) available_at 0 None (e_acked e)]> (mq_entries q))
          (heappush (mq_ready q) (available_at, offset)) (mq_lease_seq q)
      else mkMQ (mq_next_offset q) (delete offset (mq_entries q)) (mq_ready q) (mq_lease_seq q)
  end.

Definition mq_reschedule (q : InMemoryWorkQueue) (offset : N) (available_at : pyfloat)
  : InMemoryWorkQueue :=
  match mq_entries q !! offset with
  | None => q
  | Some e =>
      if e_acked e then q
      else
        mkMQ (mq_next_offset q)
          (<[offset := mkEntry (e_task e) available_at (e_lease_deadline e) (e_token e)
                         (e_acked e)]> (mq_entries q))
          (match e_token e with
           | None => heappush (mq_ready q) (available_at, offset)
           | Some _ => mq_ready q
           end)
          (mq_lease_seq q)
  end.

Definition mq_pending_count (q : InMemoryWorkQueue) : N := N.of_nat (size (mq_entries q)).

(** [min] of a non-empty list of floats: the first one no later one is below. *)
Definition fmin_list (x : pyfloat) (l : list pyfloat) : pyfloat :=
  foldl (fun m y => if flt y m then y else m) x l.

Definition mq_oldest_available_at (q : InMemoryWorkQueue) : option pyfloat :=
  match omap (fun oe : N * Entry =>
                match e_token oe.2 with None => Some (e_available_at oe.2) | Some _ => None end)
          (map_to_list (mq_entries q)) with
  | [] => None
  | x :: l => Some (fmin_list x l)
  end.

#[export] Instance InMemoryWorkQueue_queue `{PyText} : WorkQueue InMemoryWorkQueue := {
  wq_put := mq_put;
  wq_lease := mq_lease;
  wq_ack := mq_ack;
  wq_nack := mq_nack;
  wq_reschedule := mq_reschedule;
  wq_pending_count := mq_pending_count;
  wq_oldest_available_at := mq_oldest_available_at
}.

(** ** Correctness of the in-memory queue

    Invariants of the reachable queues, the lease specification (exact when
    nobody reschedules), no task is lost, and the instance of the work-queue
    interface's laws. *)

From S2P Require Import Prelude PyVal PyConv Task.
From stdpp Require Import base gmap strings list pretty fin_maps.
From Stdlib Require Import ZArith Lia Sorting ZifyBool ZifyN.

(** ** The heap order on availabilities that are numbers *)

Definition is_num (f : pyfloat) : Prop := f ≠ NaN.

Definition item_le (x y : pyfloat * N) : Prop := item_ltb y x = false.

Definition items_ok (h : list (pyfloat * N)) : Prop :=
  StronglySorted item_le h ∧ Forall (fun x => is_num x.1) h.

(** [now >= available_at]: the item may be leased. *)
Definition item_due (now : Z) (x : pyfloat * N) : Prop := flt (Fin now) x.1 = false.

Ltac num_cases :=
  unfold item_le, item_due, item_ltb, is_num, flt, feq in *; simpl in *;
  repeat match goal with
  | x : (pyfloat * N)%type |- _ => destruct x
  | f : pyfloat |- _ => destruct f
  end; simpl in *; try congruence.

Lemma item_le_total x y : is_num x.1 → is_num y.1 → item_ltb x y = true → item_le x y.
Proof. intros Hx Hy. num_cases; lia. Qed.

Lemma item_le_trans x y z :
  is_num x.1 → is_num y.1 → is_num z.1 → item_le x y → item_le y z → item_le x z.
Proof. intros Hx Hy Hz. num_cases; lia. Qed.

Lemma item_due_le now x y :
  is_num x.1 → is_num y.1 → item_le x y → item_due now y → item_due now x.
Proof. intros Hx Hy. num_cases; lia. Qed.

Lemma heappush_perm h x : heappush h x ≡ₚ x :: h.
Proof.
  induction h as [|y h IH]; simpl; [done|]. destruct (item_ltb x y); [done|].
  rewrite IH. apply Permutation_swap.
Qed.

Lemma elem_of_heappush h x y : y ∈ heappush h x ↔ y = x ∨ y ∈ h.
Proof. rewrite heappush_perm. apply elem_of_cons. Qed.

Lemma heappush_ok h x : items_ok h → is_num x.1 → items_ok (heappush h x).
Proof.
  intros [Hs Hn] Hx. split; [|rewrite heappush_perm; by constructor].
  induction Hs as [|y h Hs IH Hy]; simpl; [by repeat constructor|].
  apply Forall_cons in Hn as [Hy' Hn].
  destruct (item_ltb x y) eqn:E.
  - constructor; [by constructor|]. constructor; [by apply item_le_total|].
    rewrite Forall_forall in Hy, Hn |- *. intros z Hz.
    by eapply item_le_trans; [done|exact Hy'|apply Hn, Hz|by apply item_le_total|apply Hy].
  - constructor; [by apply IH|]. rewrite heappush_perm. by constructor.
Qed.

(** ** The lease loop *)

(** The entry after it was leased. *)
Definition leased_entry (deadline : Z) (e : Entry) (token : string) : Entry :=
  mkEntry (e_task e) (e_available_at e) deadline (Some token) (e_acked e).

Definition none_acked (entries : gmap N Entry) : Prop :=
  ∀ off e, entries !! off = Some e → e_acked e = false.

(** What the loop does: it pops a prefix of due items, leases those whose task
    is still there under consecutive tokens, and stops for lack of room or at
    an item that is not due. *)
Record lease_run (now deadline : Z) (room : nat) (ready : list (pyfloat * N))
    (entries : gmap N Entry) (seq : N) (leased : list LeasedTask) (popped : list (pyfloat * N))
    (ready' : list (pyfloat * N)) (entries' : gmap N Entry) (seq' : N) : Prop := {
  ls_popped : ready = popped ++ ready';
  ls_due : Forall (item_due now) popped;
  ls_stop : length leased = room ∨ ∀ x, head ready' = Some x → ¬ item_due now x;
  ls_room : length leased ≤ room;
  ls_seq : seq' = (seq + N.of_nat (length leased))%N;
  ls_offsets : lt_offset <$> leased = filter (fun off => is_Some (entries !! off)) popped.*2;
  ls_leased : ∀ i l, leased !! i = Some l →
    lt_token l = token_of (seq + 1 + N.of_nat i) ∧ lt_deadline l = deadline ∧
    ∃ e, entries !! lt_offset l = Some e ∧ lt_task l = e_task e;
  ls_dom : ∀ off, is_Some (entries' !! off) ↔ is_Some (entries !! off);
  ls_entries : ∀ off e', entries' !! off = Some e' →
    ∃ e, entries !! off = Some e ∧
      ((off ∉ lt_offset <$> leased) ∧ e' = e ∨
       ∃ l, l ∈ leased ∧ lt_offset l = off ∧ e' = leased_entry deadline e (lt_token l))
}.

Arguments ls_popped {_ _ _ _ _ _ _ _ _ _ _} _.
Arguments ls_due {_ _ _ _ _ _ _ _ _ _ _} _.
Arguments ls_stop {_ _ _ _ _ _ _ _ _ _ _} _.
Arguments ls_room {_ _ _ _ _ _ _ _ _ _ _} _.
Arguments ls_seq {_ _ _ _ _ _ _ _ _ _ _} _.
Arguments ls_offsets {_ _ _ _ _ _ _ _ _ _ _} _.
Arguments ls_leased {_ _ _ _ _ _ _ _ _ _ _} _.
Arguments ls_dom {_ _ _ _ _ _ _ _ _ _ _} _.
Arguments ls_entries {_ _ _ _ _ _ _ _ _ _ _} _.

Lemma loop_spec_stop now deadline room ready entries seq :
  (room = 0 ∨ ∀ x, head ready = Some x → ¬ item_due now x) →
  lease_run now deadline room ready entries seq [] [] ready entries seq.
Proof.
  intros Hstop. split; try done; simpl; try lia.
  - destruct Hstop; [by left|by right].
  - intros off e' He. exists e'. split; [done|]. left. split; [set_solver|done].
Qed.

Lemma loop_spec_lease now deadline room x rest entries seq e leased popped ready' entries' seq' :
  item_due now x → entries !! x.2 = Some e → e_acked e = false →
  lease_run now deadline room rest
    (<[x.2 := leased_entry deadline e (token_of (seq + 1))]> entries) (seq + 1)
    leased popped ready' entries' seq' →
  lease_run now deadline (S room) (x :: rest) entries seq
    (mkLeased x.2 (e_task e) deadline (token_of (seq + 1)) :: leased)
    (x :: popped) ready' entries' seq'.
Proof.
  intros Hd He Ha [-> Hdue Hstop Hroom -> Hoff Hl Hdom Hent].
  assert (∀ off, is_Some (<[x.2:=leased_entry deadline e (token_of (seq + 1))]> entries !! off)
                 ↔ is_Some (entries !! off)) as Hsome.
  { intros off. destruct (decide (off = x.2)) as [->|Hne].
    - rewrite lookup_insert_eq, He. split; eauto.
    - by rewrite lookup_insert_ne. }
  split; try (simpl; lia).
  - done.
  - by constructor.
  - destruct Hstop as [<-|Hstop]; [by left|by right].
  - rewrite !fmap_cons, filter_cons_True by eauto. simpl. f_equal. rewrite Hoff.
    apply list_filter_iff. intros off. apply Hsome.
  - intros [|i] l; simpl.
    + intros [= <-]. simpl. split_and!; [f_equal; lia|done|eauto].
    + intros Hi. destruct (Hl i l Hi) as (Ht & Hdl & e1 & He1 & Htask).
      split_and!; [rewrite Ht; f_equal; lia|done|].
      destruct (decide (lt_offset l = x.2)) as [E|Hne].
      * rewrite E, lookup_insert_eq in He1. injection He1 as <-. exists e. by rewrite E.
      * rewrite lookup_insert_ne in He1 by done. eauto.
  - intros off. by rewrite Hdom, Hsome.
  - intros off e' He'. destruct (Hent off e' He') as (e1 & He1 & Hc).
    destruct (decide (off = x.2)) as [->|Hne].
    + rewrite lookup_insert_eq in He1. injection He1 as <-. exists e. split; [done|]. right.
      destruct Hc as [[_ ->]|(l & Hin & Ho & ->)].
      * eexists. split; [left|]. done.
      * exists l. split; [by right|]. done.
    + rewrite lookup_insert_ne in He1 by done. exists e1. split; [done|].
      destruct Hc as [[Hnot ->]|(l & Hin & Ho & ->)].
      * left. split; [rewrite fmap_cons; set_solver|done].
      * right. exists l. split; [by right|]. done.
Qed.

Lemma loop_spec_skip now deadline room x rest entries seq leased popped ready' entries' seq' :
  item_due now x → entries !! x.2 = None →
  lease_run now deadline room rest entries seq leased popped ready' entries' seq' →
  lease_run now deadline room (x :: rest) entries seq leased (x :: popped) ready' entries' seq'.
Proof.
  intros Hd He [-> Hdue Hstop Hroom -> Hoff Hl Hdom Hent]. split; try done.
  - by constructor.
  - simpl. rewrite filter_cons_False by (rewrite He; by intros [? ?]). exact Hoff.
Qed.

Lemma lease_loop_spec now deadline room ready entries seq leased ready' entries' seq' :
  lease_loop now deadline room ready entries seq = (leased, (ready', entries', seq')) →
  none_acked entries →
  ∃ popped, lease_run now deadline room ready entries seq leased popped ready' entries' seq'.
Proof.
  revert room entries seq leased ready' entries' seq'.
  induction ready as [|[av off] rest IH]; intros [|room] entries seq leased ready' entries' seq' Hl Hna;
    cbn [lease_loop] in Hl; try (simplify_eq; exists []; apply loop_spec_stop; naive_solver).
  destruct (flt (Fin now) av) eqn:Ed.
  { simplify_eq. exists []. apply loop_spec_stop. right.
    intros x [= <-]. unfold item_due. cbn [fst]. congruence. }
  destruct (entries !! off) as [e|] eqn:Ee.
  - rewrite (Hna _ _ Ee) in Hl.
    destruct (lease_loop _ _ _ _ _ _) as [ls [[r1 en1] s1]] eqn:El.
    injection Hl as <- <- <- <-.
    apply IH in El as [popped Hp].
    + exists ((av, off) :: popped). eapply (loop_spec_lease _ _ _ (av, off)); [done|done|by apply (Hna off)|unfold leased_entry; rewrite (Hna off e Ee); exact Hp].
    + intros o e1. destruct (decide (o = off)) as [->|Hne].
      * rewrite lookup_insert_eq. by intros [= <-].
      * rewrite lookup_insert_ne by done. apply Hna.
  - apply IH in Hl as [popped Hp]; [|done].
    exists ((av, off) :: popped). by apply (loop_spec_skip _ _ _ (av, off)).
Qed.

(** ** Invariants *)

Record mq_inv (q : InMemoryWorkQueue) : Prop := {
  mi_offset off e : mq_entries q !! off = Some e → (off < mq_next_offset q)%N;
  mi_acked : none_acked (mq_entries q);
  mi_num off e : mq_entries q !! off = Some e → is_num (e_available_at e);
  mi_token off e t : mq_entries q !! off = Some e → e_token e = Some t →
    ∃ n, t = token_of n ∧ (n <= mq_lease_seq q)%N;
  mi_unique o1 o2 e1 e2 t : mq_entries q !! o1 = Some e1 → mq_entries q !! o2 = Some e2 →
    e_token e1 = Some t → e_token e2 = Some t → o1 = o2;
  mi_queued off e : mq_entries q !! off = Some e → e_token e = None →
    (e_available_at e, off) ∈ mq_ready q;
  mi_ready : items_ok (mq_ready q)
}.

(** What holds as well when nobody reschedules: the heap lists exactly the
    tasks that are not leased, once each. *)
Record mq_exact (q : InMemoryWorkQueue) : Prop := {
  mx_inv : mq_inv q;
  mx_ready av off : (av, off) ∈ mq_ready q →
    ∃ e, mq_entries q !! off = Some e ∧ e_token e = None ∧ e_available_at e = av;
  mx_nodup : NoDup (mq_ready q).*2
}.

Lemma token_of_inj n n' : token_of n = token_of n' → n = n'.
Proof. unfold token_of. intros H%str_app_inj_l. by apply (inj pretty). Qed.

Lemma heappush_nodup h x : NoDup h.*2 → x.2 ∉ h.*2 → NoDup (heappush h x).*2.
Proof. intros Hh Hx. rewrite heappush_perm. by constructor. Qed.

(** Putting back an entry that is leased, or adding a new one. *)
Definition store (q : InMemoryWorkQueue) (off : N) (e : Entry) (next : N) : InMemoryWorkQueue :=
  mkMQ next (<[off := e]> (mq_entries q)) (heappush (mq_ready q) (e_available_at e, off))
    (mq_lease_seq q).

Lemma store_inv q off e next :
  mq_inv q → (off < next)%N → (mq_next_offset q <= next)%N →
  e_acked e = false → is_num (e_available_at e) → e_token e = None →
  mq_inv (store q off e next).
Proof.
  intros [Ho Ha Hn Ht Hu Hq Hr] Hlt Hle Hea Hen Het. split; simpl.
  - intros o e1 H. destruct (decide (o = off)) as [->|Hne]; [done|].
    rewrite lookup_insert_ne in H by done. specialize (Ho _ _ H); lia.
  - intros o e1 H. destruct (decide (o = off)) as [->|Hne].
    + rewrite lookup_insert_eq in H. by injection H as <-.
    + rewrite lookup_insert_ne in H by done. by eapply Ha.
  - intros o e1 H. destruct (decide (o = off)) as [->|Hne].
    + rewrite lookup_insert_eq in H. by injection H as <-.
    + rewrite lookup_insert_ne in H by done. by eapply Hn.
  - intros o e1 t H. destruct (decide (o = off)) as [->|Hne].
    + rewrite lookup_insert_eq in H. injection H as <-. congruence.
    + rewrite lookup_insert_ne in H by done. by eapply Ht.
  - intros o1 o2 e1 e2 t H1 H2 Ht1 Ht2.
    apply lookup_insert_Some in H1 as [[<- <-]|[Hn1 H1]]; [congruence|].
    apply lookup_insert_Some in H2 as [[<- <-]|[Hn2 H2]]; [congruence|]. eauto.
  - intros o e1 H Htok. rewrite elem_of_heappush. destruct (decide (o = off)) as [->|Hne].
    + rewrite lookup_insert_eq in H. injection H as <-. by left.
    + rewrite lookup_insert_ne in H by done. right. by apply Hq.
  - by apply heappush_ok.
Qed.

Lemma store_exact q off e next :
  mq_exact q → (off < next)%N → (mq_next_offset q <= next)%N →
  e_acked e = false → is_num (e_available_at e) → e_token e = None →
  (∀ e', mq_entries q !! off = Some e' → e_token e' ≠ None) →
  mq_exact (store q off e next).
Proof.
  intros [Hi Hr Hnd] Hlt Hle Hea Hen Het Hout.
  assert (off ∉ (mq_ready q).*2) as Hnot.
  { intros ([av o] & -> & Hin)%list_elem_of_fmap. apply Hr in Hin as (e' & He' & Htok & _).
    by apply (Hout e'). }
  split; [by apply store_inv| |by apply heappush_nodup].
  intros av o [[= -> ->]|Hin]%elem_of_heappush.
  - exists e. split; [apply lookup_insert_eq|done].
  - simpl. rewrite lookup_insert_ne; [by apply Hr|]. intros <-. apply Hnot.
    apply list_elem_of_fmap. by exists (av, off).
Qed.

(** Removing an entry. *)
Definition remove (q : InMemoryWorkQueue) (off : N) : InMemoryWorkQueue :=
  mkMQ (mq_next_offset q) (delete off (mq_entries q)) (mq_ready q) (mq_lease_seq q).

Lemma remove_inv q off : mq_inv q → mq_inv (remove q off).
Proof.
  intros [Ho Ha Hn Ht Hu Hq Hr]. split; simpl; try done.
  - intros o e [_ H]%lookup_delete_Some. eauto.
  - intros o e [_ H]%lookup_delete_Some. by eapply Ha.
  - intros o e [_ H]%lookup_delete_Some. by eapply Hn.
  - intros o e t [_ H]%lookup_delete_Some. by eapply Ht.
  - intros o1 o2 e1 e2 t [_ H1]%lookup_delete_Some [_ H2]%lookup_delete_Some. eauto.
  - intros o e [_ H]%lookup_delete_Some. by apply Hq.
Qed.

Lemma remove_exact q off :
  mq_exact q → (∀ e', mq_entries q !! off = Some e' → e_token e' ≠ None) →
  mq_exact (remove q off).
Proof.
  intros [Hi Hr Hnd] Hout. split; [by apply remove_inv| |done].
  intros av o Hin. apply Hr in Hin as (e & He & Ht & Hav). exists e.
  split; [|done]. apply lookup_delete_Some. split; [|done]. intros <-. by apply (Hout e).
Qed.

(** ** Releasing expired leases *)

Definition expired (now : Z) (e : Entry) : bool :=
  match e_token e with Some _ => (e_lease_deadline e <=? now)%Z | None => false end.

Definition expire (now : Z) (e : Entry) : Entry :=
  if expired now e then mkEntry (e_task e) (e_available_at e) 0 None (e_acked e) else e.

Lemma release_one_eq now q off e :
  e_acked e = false →
  release_one now q (off, e) =
  if expired now e then store q off (expire now e) (mq_next_offset q) else q.
Proof.
  intros Ha. unfold release_one, expire, expired, store. rewrite Ha.
  destruct (e_token e); [|done]. by destruct (Z.leb_spec (e_lease_deadline e) now).
Qed.

Lemma release_fold (P : InMemoryWorkQueue → Prop) now l q :
  (∀ q off e, P q → mq_entries q !! off = Some e → expired now e = true →
     e_acked e = false ∧ P (store q off (expire now e) (mq_next_offset q))) →
  none_acked (mq_entries q) →
  NoDup l.*1 → (∀ off e, (off, e) ∈ l → mq_entries q !! off = Some e) → P q →
  let q' := foldl (release_one now) q l in
  P q' ∧ mq_next_offset q' = mq_next_offset q ∧ mq_lease_seq q' = mq_lease_seq q ∧
  ∀ off, mq_entries q' !! off =
         if decide (off ∈ l.*1) then expire now <$> mq_entries q !! off else mq_entries q !! off.
Proof.
  intros HP. revert q. induction l as [|[o e] l IH]; intros q Hna Hnd Hl HPq.
  { simpl. by split_and!. }
  apply NoDup_cons in Hnd as [Hno Hnd].
  assert (mq_entries q !! o = Some e) as He by (apply Hl; left).
  cbn [foldl]. rewrite release_one_eq by (by eapply Hna).
  destruct (expired now e) eqn:Ex.
  - destruct (HP q o e HPq He Ex) as [Hea HP1].
    destruct (IH (store q o (expire now e) (mq_next_offset q))) as (H1 & H2 & H3 & H4); try done.
    + intros o' e'. simpl. rewrite lookup_insert_Some. intros [[<- <-]|[_ H']]; [|by eapply Hna].
      unfold expire. by rewrite Ex.
    + intros o' e' Hin. simpl. rewrite lookup_insert_ne; [apply Hl; by right|].
      intros <-. apply Hno. apply list_elem_of_fmap. by exists (o, e').
    + split_and!; [exact H1|exact H2|exact H3|]. intros off. rewrite H4. simpl.
      destruct (decide (off = o)) as [->|Hne].
      * rewrite (decide_False (P:= o ∈ l.*1)) by done. rewrite decide_True by set_solver.
        by rewrite lookup_insert_eq, He.
      * rewrite lookup_insert_ne by done. repeat case_decide; set_solver.
  - destruct (IH q) as (H1 & H2 & H3 & H4); try done.
    { intros o' e' Hin. apply Hl. by right. }
    split_and!; [exact H1|exact H2|exact H3|]. intros off. rewrite H4. simpl.
    destruct (decide (off = o)) as [->|Hne].
    + rewrite (decide_False (P:= o ∈ l.*1)) by done. rewrite decide_True by set_solver.
      rewrite He. simpl. unfold expire. by rewrite Ex.
    + repeat case_decide; set_solver.
Qed.

Lemma release_expired_gen (P : InMemoryWorkQueue → Prop) now q :
  (∀ q off e, P q → mq_entries q !! off = Some e → expired now e = true →
     e_acked e = false ∧ P (store q off (expire now e) (mq_next_offset q))) →
  none_acked (mq_entries q) → P q →
  let q' := _release_expired q now in
  P q' ∧ mq_next_offset q' = mq_next_offset q ∧ mq_lease_seq q' = mq_lease_seq q ∧
  mq_entries q' = expire now <$> mq_entries q.
Proof.
  intros HP Hna HPq.
  destruct (release_fold P now (map_to_list (mq_entries q)) q HP Hna) as (H1 & H2 & H3 & H4).
  - apply NoDup_fst_map_to_list.
  - intros off e. apply elem_of_map_to_list.
  - done.
  - split_and!; [exact H1|exact H2|exact H3|]. apply map_eq. intros off.
    unfold _release_expired. rewrite H4, lookup_fmap. case_decide as Hin; [done|].
    destruct (mq_entries q !! off) as [e|] eqn:E; [|done].
    destruct Hin. apply list_elem_of_fmap. exists (off, e). split; [done|].
    by apply elem_of_map_to_list.
Qed.

Lemma mq_release_inv now q :
  mq_inv q →
  let q' := _release_expired q now in
  mq_inv q' ∧ mq_next_offset q' = mq_next_offset q ∧ mq_lease_seq q' = mq_lease_seq q ∧
  mq_entries q' = expire now <$> mq_entries q.
Proof.
  intros Hi. apply (release_expired_gen mq_inv); [|apply Hi|done].
  intros q1 off e Hi1 He Ex. split; [by eapply mi_acked|].
  apply store_inv; try done; [by eapply mi_offset| | |]; unfold expire; rewrite Ex; simpl.
  { by eapply mi_acked. } { by eapply mi_num. } { done. }
Qed.

Lemma release_exact now q : mq_exact q → mq_exact (_release_expired q now).
Proof.
  intros Hi. apply (release_expired_gen mq_exact); [|apply Hi|done].
  intros q1 off e Hi1 He Ex. pose proof (mx_inv _ Hi1) as Hinv. split; [by eapply mi_acked|].
  apply store_exact; try done; [by eapply mi_offset| | | |].
  1-3: unfold expire; rewrite Ex; simpl.
  { by eapply mi_acked. } { by eapply mi_num. } { done. }
  intros e' He'. rewrite He in He'. injection He' as <-. unfold expired in Ex.
  by destruct (e_token e).
Qed.

(** ** Leasing *)

(** The task may be leased at [now]: available, and not under a live lease. *)
Definition may_lease (now : Z) (e : Entry) : bool :=
  negb (flt (Fin now) (e_available_at e)) &&
  match e_token e with None => true | Some _ => (e_lease_deadline e <=? now)%Z end.

Lemma may_lease_expire now e :
  may_lease now e = true ↔ item_due now (e_available_at (expire now e), 0%N) ∧ e_token (expire now e) = None.
Proof.
  unfold may_lease, item_due, expire, expired. cbn [fst].
  destruct (e_token e) eqn:Et; [destruct (e_lease_deadline e <=? now)%Z|]; cbn [e_available_at e_token];
    destruct (flt (Fin now) (e_available_at e)); simpl; rewrite ?Et; naive_solver.
Qed.

Lemma expire_fields now e :
  e_task (expire now e) = e_task e ∧ e_available_at (expire now e) = e_available_at e ∧
  e_acked (expire now e) = e_acked e.
Proof. unfold expire. by destruct (expired now e). Qed.

Lemma StronglySorted_app_inv {A} (R : A → A → Prop) l k :
  StronglySorted R (l ++ k) → StronglySorted R k ∧ ∀ x y, x ∈ l → y ∈ k → R x y.
Proof.
  induction l as [|a l IH]; simpl; [intros; split; [done|set_solver]|].
  inversion 1 as [|? ? Hs Ha]; subst. destruct (IH Hs) as [Hk Hlk]. split; [done|].
  intros x y [->|Hx]%elem_of_cons Hy; [|by apply Hlk].
  rewrite Forall_forall in Ha. apply Ha. set_solver.
Qed.

Section after_loop.
Context (now deadline : Z) (room : nat) (q : InMemoryWorkQueue).
Context (leased : list LeasedTask) (popped ready' : list (pyfloat * N)).
Context (entries' : gmap N Entry) (seq' : N).
Context (Hspec : lease_run now deadline room (mq_ready q) (mq_entries q) (mq_lease_seq q)
                   leased popped ready' entries' seq').

Definition after : InMemoryWorkQueue := mkMQ (mq_next_offset q) entries' ready' seq'.

Lemma popped_in x : x ∈ popped → x ∈ mq_ready q.
Proof. rewrite (ls_popped Hspec). set_solver. Qed.

Lemma leased_offset l : l ∈ leased → lt_offset l ∈ popped.*2.
Proof.
  intros Hl. assert (lt_offset l ∈ lt_offset <$> leased) as H by (by apply list_elem_of_fmap_2).
  rewrite (ls_offsets Hspec) in H.
  by apply list_elem_of_filter in H as [_ ?].
Qed.

(** The item of a queued task is popped if and only if the task is leased. *)
Lemma popped_leased x e :
  x ∈ popped → mq_entries q !! x.2 = Some e → x.2 ∈ lt_offset <$> leased.
Proof.
  intros Hx He. rewrite (ls_offsets Hspec). apply list_elem_of_filter.
  split; [eauto|]. by apply list_elem_of_fmap_2.
Qed.

Lemma leased_token l :
  l ∈ leased → ∃ n, lt_token l = token_of n ∧ (mq_lease_seq q < n <= seq')%N.
Proof.
  intros [i Hi]%list_elem_of_lookup. destruct (ls_leased Hspec i l Hi) as [Ht _].
  exists (mq_lease_seq q + 1 + N.of_nat i)%N. split; [done|].
  apply lookup_lt_Some in Hi. rewrite (ls_seq Hspec). lia.
Qed.

Lemma leased_token_inj l l' : l ∈ leased → l' ∈ leased → lt_token l = lt_token l' → l = l'.
Proof.
  intros [i Hi]%list_elem_of_lookup [j Hj]%list_elem_of_lookup E.
  destruct (ls_leased Hspec i l Hi) as [Ht _].
  destruct (ls_leased Hspec j l' Hj) as [Ht' _].
  rewrite Ht, Ht' in E. apply token_of_inj in E. assert (i = j) as <- by lia. congruence.
Qed.

Lemma after_inv : mq_inv q → mq_inv after.
Proof.
  intros Hi. pose proof (ls_entries Hspec) as Hent. split; simpl.
  - intros off e' He. destruct (Hent off e' He) as (e & He1 & _). by eapply mi_offset.
  - intros off e' He. destruct (Hent off e' He) as (e & He1 & [[_ ->]|(l & _ & _ & ->)]); simpl; by eapply mi_acked.
  - intros off e' He. destruct (Hent off e' He) as (e & He1 & [[_ ->]|(l & _ & _ & ->)]); simpl; by eapply mi_num.
  - intros off e' t He Ht. destruct (Hent off e' He) as (e & He1 & [[_ ->]|(l & Hl & _ & ->)]).
    + destruct (mi_token _ Hi off e t He1 Ht) as (n & -> & Hn). exists n. split; [done|].
      rewrite (ls_seq Hspec). lia.
    + simpl in Ht. injection Ht as <-. destruct (leased_token l Hl) as (n & -> & ?).
      exists n. split; [done|lia].
  - intros o1 o2 e1' e2' t H1 H2 Ht1 Ht2.
    destruct (Hent o1 e1' H1) as (e1 & He1 & [[_ ->]|(l1 & Hl1 & <- & ->)]);
    destruct (Hent o2 e2' H2) as (e2 & He2 & [[_ ->]|(l2 & Hl2 & <- & ->)]); simpl in *.
    + eapply mi_unique; eauto.
    + destruct (mi_token _ Hi _ _ _ He1 Ht1) as (n & -> & Hn). injection Ht2 as E.
      destruct (leased_token l2 Hl2) as (n' & E' & ?). rewrite E in E'. apply token_of_inj in E'. lia.
    + destruct (mi_token _ Hi _ _ _ He2 Ht2) as (n & -> & Hn). injection Ht1 as E.
      destruct (leased_token l1 Hl1) as (n' & E' & ?). rewrite E in E'. apply token_of_inj in E'. lia.
    + f_equal. apply leased_token_inj; congruence.
  - intros off e' He Ht. destruct (Hent off e' He) as (e & He1 & [[Hno ->]|(l & _ & _ & ->)]); [|done].
    pose proof (mi_queued _ Hi _ _ He1 Ht) as Hin.
    rewrite (ls_popped Hspec) in Hin. apply elem_of_app in Hin as [Hin|Hin]; [|done].
    destruct Hno. by apply (popped_leased (e_available_at e, off) e).
  - destruct (mi_ready _ Hi) as [Hs Hn]. rewrite (ls_popped Hspec) in Hs, Hn.
    split; [by apply StronglySorted_app_inv in Hs as [? _]|by apply Forall_app in Hn as [_ ?]].
Qed.

Lemma after_exact : mq_exact q → mq_exact after ∧ lt_offset <$> leased = popped.*2.
Proof.
  intros [Hi Hr Hnd]. split.
  - split; [by apply after_inv| |].
    + simpl. intros av off Hin.
      assert ((av, off) ∈ mq_ready q) as Hin' by (rewrite (ls_popped Hspec); set_solver).
      destruct (Hr av off Hin') as (e & He & Ht & Hav).
      destruct (proj2 (ls_dom Hspec off)) as [e' He']; [eauto|].
      destruct (ls_entries Hspec off e' He') as (e1 & He1 & Hc).
      rewrite He in He1. injection He1 as <-. exists e'. split; [done|].
      destruct Hc as [[_ ->]|(l & Hl & <- & _)]; [done|].
      apply leased_offset in Hl. rewrite (ls_popped Hspec), fmap_app in Hnd.
      apply NoDup_app in Hnd as (_ & Hnd & _). destruct (Hnd _ Hl).
      apply list_elem_of_fmap. by exists (av, lt_offset l).
    + simpl. rewrite (ls_popped Hspec), fmap_app in Hnd.
      by apply NoDup_app in Hnd as (_ & _ & ?).
  - rewrite (ls_offsets Hspec).
    assert (Forall (fun off => is_Some (mq_entries q !! off)) popped.*2) as Hall.
    { apply Forall_forall. intros off ([av o] & -> & Hin)%list_elem_of_fmap.
      apply popped_in in Hin. apply Hr in Hin as (e & He & _). simpl. eauto. }
    clear -Hall. induction popped.*2 as [|off l IH]; [done|].
    apply Forall_cons in Hall as [H1 H2]. rewrite filter_cons_True by done. f_equal. by apply IH.
Qed.
End after_loop.

(** ** Reachable queues *)

Section reachable.
Context {PT : PyText}.

(** One operation; [resched] allows [reschedule]. *)
Inductive mq_step (resched : bool) : InMemoryWorkQueue → InMemoryWorkQueue → Prop :=
| step_put q task now : mq_step resched q (mq_put q task now).2
| step_lease q count ms now : mq_step resched q (mq_lease q count ms now).2
| step_ack q off token : mq_step resched q (mq_ack q off token)
| step_nack q off token requeue now : mq_step resched q (mq_nack q off token requeue now)
| step_reschedule q off av : resched = true → is_num av → mq_step resched q (mq_reschedule q off av).

Lemma extract_num task now : is_num (_extract_available_at task now).
Proof.
  unfold _extract_available_at, is_num. set (s := match py_float _ with Ok f => f | Raise _ => fzero end).
  destruct s as [z| | |]; unfold fge, fmax, fsub, fzero; simpl; try done.
  by repeat case_match.
Qed.

Lemma held_by_Some q off token e :
  held_by q off token = Some e ↔
  mq_entries q !! off = Some e ∧ e_acked e = false ∧ e_token e = Some token.
Proof.
  unfold held_by. destruct (mq_entries q !! off) as [e1|]; simpl; [|naive_solver].
  destruct (e_acked e1) eqn:Ea; [naive_solver congruence|].
  destruct (e_token e1) as [t|] eqn:Et; [|naive_solver congruence].
  destruct (String.eqb_spec t token) as [->|Hne]; naive_solver congruence.
Qed.

Lemma put_eq q task now :
  (mq_put q task now).2 =
  store q (mq_next_offset q) (mkEntry task (_extract_available_at task now) 0 None false)
    (mq_next_offset q + 1).
Proof. done. Qed.

Definition nack_entry (e : Entry) (now : Now) : Entry :=
  mkEntry (e_task e)
    (if flt (e_available_at e) (Fin (mono now)) then Fin (mono now) else e_available_at e)
    0 None (e_acked e).

Lemma nack_eq q off token requeue now :
  mq_nack q off token requeue now =
  match held_by q off token with
  | None => q
  | Some e => if requeue then store q off (nack_entry e now) (mq_next_offset q) else remove q off
  end.
Proof. unfold mq_nack. by destruct (held_by q off token), requeue. Qed.

Lemma lease_cases q count ms now ls q' :
  mq_lease q count ms now = (ls, q') → mq_inv q →
  (count <= 0)%Z ∧ ls = [] ∧ q' = q ∨
  (0 < count)%Z ∧ ∃ popped ready' entries' seq',
    let q1 := _release_expired q (mono now) in
    lease_run (mono now) (mono now + Z.max ms 0 * 1000) (Z.to_nat count) (mq_ready q1)
      (mq_entries q1) (mq_lease_seq q1) ls popped ready' entries' seq' ∧
    q' = after q1 ready' entries' seq'.
Proof.
  unfold mq_lease. intros Hl Hi. destruct (Z.leb_spec count 0); [left; naive_solver|right].
  destruct (lease_loop _ _ _ _ _ _) as [ls1 [[r1 en1] s1]] eqn:El. injection Hl as <- <-.
  split; [done|]. apply lease_loop_spec in El as [popped Hp].
  - exists popped, r1, en1, s1. done.
  - apply (mq_release_inv (mono now) q Hi).
Qed.

Lemma nack_entry_num e now : is_num (e_available_at e) → is_num (e_available_at (nack_entry e now)).
Proof. intros H. simpl. by destruct (flt _ _). Qed.

Lemma reschedule_inv q off av : mq_inv q → is_num av → mq_inv (mq_reschedule q off av).
Proof.
  intros Hi Hav. unfold mq_reschedule. destruct (mq_entries q !! off) as [e|] eqn:He; [|done].
  rewrite (mi_acked _ Hi _ _ He). destruct (e_token e) as [t|] eqn:Et.
  - split; simpl; [| | | | | |apply Hi].
    + intros o e1 [[<- <-]|[_ H1]]%lookup_insert_Some; by eapply mi_offset.
    + intros o e1 [[<- <-]|[_ H1]]%lookup_insert_Some; [done|by eapply mi_acked].
    + intros o e1 [[<- <-]|[_ H1]]%lookup_insert_Some; [done|by eapply mi_num].
    + intros o e1 t1 [[<- <-]|[_ H1]]%lookup_insert_Some Ht; [|by eapply mi_token].
      eapply mi_token; [done|exact He|]. simpl in Ht. congruence.
    + intros o1 o2 e1 e2 t1 H1 H2 Ht1 Ht2.
      apply lookup_insert_Some in H1 as [[<- <-]|[_ H1]];
      apply lookup_insert_Some in H2 as [[<- <-]|[_ H2]]; simpl in *;
        solve [done | eapply (mi_unique _ Hi); eauto; congruence].
    + intros o e1 [[<- <-]|[_ H1]]%lookup_insert_Some; [done|by eapply mi_queued].
  - apply (store_inv q off (mkEntry (e_task e) av (e_lease_deadline e) None false)); try done.
    by eapply mi_offset.
Qed.

Lemma step_inv b q q' : mq_step b q q' → mq_inv q → mq_inv q'.
Proof.
  intros [q0 task now|q0 count ms now|q0 off token|q0 off token requeue now|q0 off av _ Hav] Hi.
  - rewrite put_eq. apply store_inv; simpl; try done; try lia. apply extract_num.
  - destruct (mq_lease q0 count ms now) as [ls q2] eqn:El.
    destruct (lease_cases _ _ _ _ _ _ El Hi) as [(_ & _ & ->)|(_ & p & r & en & s & Hs & ->)]; [done|].
    eapply after_inv; [exact Hs|]. by apply mq_release_inv.
  - unfold mq_ack. destruct (held_by q0 off token); [by apply remove_inv|done].
  - rewrite nack_eq. destruct (held_by q0 off token) as [e|] eqn:Eh; [|done].
    apply held_by_Some in Eh as (He & Ha & Ht). destruct requeue; [|by apply remove_inv].
    apply store_inv; try done; [by eapply mi_offset|]. apply nack_entry_num. by eapply mi_num.
  - by apply reschedule_inv.
Qed.

Lemma step_exact q q' : mq_step false q q' → mq_exact q → mq_exact q'.
Proof.
  intros [q0 task now|q0 count ms now|q0 off token|q0 off token requeue now|q0 off av E _] Hx;
    [| | | |done]; pose proof (mx_inv _ Hx) as Hi.
  - rewrite put_eq. apply store_exact; simpl; try done; try lia; [apply extract_num|].
    intros e' He'. apply (mi_offset _ Hi) in He'. lia.
  - destruct (mq_lease q0 count ms now) as [ls q2] eqn:El.
    destruct (lease_cases _ _ _ _ _ _ El Hi) as [(_ & _ & ->)|(_ & p & r & en & s & Hs & ->)]; [done|].
    eapply after_exact; [exact Hs|]. by apply release_exact.
  - unfold mq_ack. destruct (held_by q0 off token) as [e|] eqn:Eh; [|done].
    apply held_by_Some in Eh as (He & _ & Ht). apply remove_exact; [done|]. naive_solver congruence.
  - rewrite nack_eq. destruct (held_by q0 off token) as [e|] eqn:Eh; [|done].
    apply held_by_Some in Eh as (He & Ha & Ht). destruct requeue.
    + apply store_exact; try done; [by eapply mi_offset| |naive_solver congruence].
      apply nack_entry_num. by eapply mi_num.
    + apply remove_exact; [done|]. naive_solver congruence.
Qed.

Lemma new_exact : mq_exact mq_new.
Proof.
  split; [split| |]; simpl; unfold none_acked; try (intros *; rewrite lookup_empty; discriminate).
  - split; constructor.
  - intros av off Hin. by apply elem_of_nil in Hin.
  - constructor.
Qed.

Lemma reachable_inv b q : rtc (mq_step b) mq_new q → mq_inv q.
Proof.
  intros Hr. pose proof (mx_inv _ new_exact) as H0. induction Hr as [|x y z Hxy _ IH]; [done|].
  apply IH. by eapply step_inv.
Qed.

Lemma reachable_exact q : rtc (mq_step false) mq_new q → mq_exact q.
Proof.
  intros Hr. pose proof new_exact as H0. induction Hr as [|x y z Hxy _ IH]; [done|].
  apply IH. by eapply step_exact.
Qed.

(** *** What a lease call hands out *)

Definition leasable (q : InMemoryWorkQueue) (now : Z) : gmap N Entry :=
  filter (fun oe => may_lease now oe.2 = true) (mq_entries q).

(** After the expired leases are released, the due items of the heap are the
    tasks that may be leased. *)
Lemma due_items q now av off :
  mq_exact q →
  let q1 := _release_expired q now in
  (av, off) ∈ mq_ready q1 ∧ item_due now (av, off) ↔
  ∃ e, leasable q now !! off = Some e ∧ e_available_at e = av.
Proof.
  intros Hx. pose proof (mq_release_inv now q (mx_inv _ Hx)) as (Hi1 & _ & _ & Hent).
  pose proof (release_exact now q Hx) as Hx1. simpl in *. unfold leasable. split.
  - intros [Hin Hd]. apply (mx_ready _ Hx1) in Hin as (e1 & He1 & Ht & Hav).
    rewrite Hent, lookup_fmap in He1. apply fmap_Some in He1 as (e & He & ->).
    exists e. destruct (expire_fields now e) as (_ & Hav' & _). split; [|congruence].
    apply map_lookup_filter_Some. split; [done|]. apply may_lease_expire. split; [|done].
    cbn [snd]. rewrite Hav. exact Hd.
  - intros (e & [He Hm]%map_lookup_filter_Some & <-). apply may_lease_expire in Hm as [Hd Ht].
    destruct (expire_fields now e) as (_ & Hav' & _). cbn [snd] in Hd, Ht; rewrite Hav' in Hd. split; [|exact Hd].
    rewrite <- Hav'. apply (mi_queued _ Hi1); [|done]. by rewrite Hent, lookup_fmap, He.
Qed.

Lemma popped_count q now (popped ready' : list (pyfloat * N)) (room n : nat) :
  mq_exact q → mq_ready (_release_expired q now) = popped ++ ready' →
  Forall (item_due now) popped → n = length popped → n ≤ room →
  (n = room ∨ ∀ x, head ready' = Some x → ¬ item_due now x) →
  n = room `min` size (leasable q now).
Proof.
  intros Hx Hr Hdue -> Hle Hstop. pose proof (release_exact now q Hx) as Hx1.
  assert (NoDup popped.*2) as Hnd.
  { pose proof (mx_nodup _ Hx1) as Hn. rewrite Hr, fmap_app in Hn. by apply NoDup_app in Hn as (? & _). }
  assert (popped.*2 ⊆+ (map_to_list (leasable q now)).*1) as Hsub.
  { apply NoDup_submseteq; [done|]. intros off ([av o] & -> & Hin)%list_elem_of_fmap.
    destruct (proj1 (due_items q now av o Hx)) as (e & He & _).
    - rewrite Hr. split; [set_solver|]. by apply (proj1 (Forall_forall _ _) Hdue).
    - apply list_elem_of_fmap. exists (o, e). split; [done|]. by apply elem_of_map_to_list. }
  pose proof (submseteq_length _ _ Hsub) as Hlen. rewrite !length_fmap, length_map_to_list in Hlen.
  destruct Hstop as [E|Hstop]; [lia|].
  assert ((map_to_list (leasable q now)).*1 ⊆+ popped.*2) as Hsub2.
  { apply NoDup_submseteq; [apply NoDup_fst_map_to_list|].
    intros off ([o e] & -> & Hin%elem_of_map_to_list)%list_elem_of_fmap. simpl.
    destruct (proj2 (due_items q now (e_available_at e) o Hx)) as [Hin' Hd]; [eauto|].
    rewrite Hr in Hin'. apply elem_of_app in Hin' as [Hin'|Hin'].
    - apply list_elem_of_fmap. by exists (e_available_at e, o).
    - exfalso. destruct ready' as [|x r]; [set_solver|].
      destruct (mi_ready _ (mx_inv _ Hx1)) as [Hs Hn]. rewrite Hr in Hs, Hn.
      apply Forall_app in Hn as [_ Hn]. apply StronglySorted_app_inv in Hs as [Hs _].
      apply (Hstop x); [done|]. apply elem_of_cons in Hin' as [<-|Hin']; [done|].
      inversion Hs as [|? ? _ Hall]; subst. rewrite Forall_forall in Hall, Hn.
      eapply item_due_le; [apply Hn; left|apply Hn; right; exact Hin'|by apply Hall|done]. }
  pose proof (submseteq_length _ _ Hsub2) as Hlen2.
  rewrite !length_fmap, length_map_to_list in Hlen2. lia.
Qed.

Lemma item_lt_of_le x y : is_num x.1 → is_num y.1 → item_le x y → x.2 ≠ y.2 → item_ltb x y = true.
Proof. intros Hx Hy. num_cases; lia. Qed.

Definition lease_deadline (ms : Z) (now : Now) : Z := (mono now + Z.max ms 0 * 1000)%Z.


(** *** No task is lost *)

Lemma release_length now q :
  length (mq_ready (_release_expired q now)) ≤ length (mq_ready q) + size (mq_entries q).
Proof.
  unfold _release_expired. rewrite <- length_map_to_list.
  generalize (map_to_list (mq_entries q)). intros l. revert q.
  induction l as [|[off e] l IH]; intros q; simpl; [lia|].
  etransitivity; [apply IH|]. destruct (e_token e); [|simpl; lia].
  destruct (negb (e_acked e) && (e_lease_deadline e <=? now)%Z); simpl; [|lia].
  rewrite heappush_perm. simpl. lia.
Qed.

Lemma step_keeps b q q' off e :
  mq_step b q q' → mq_inv q → mq_entries q !! off = Some e →
  (∃ e', mq_entries q' !! off = Some e' ∧ e_task e' = e_task e) ∨
  (∃ t, e_token e = Some t ∧
     (q' = mq_ack q off t ∨ ∃ now, q' = mq_nack q off t false now) ∧ mq_entries q' !! off = None).
Proof.
  intros Hs Hi He.
  destruct Hs as [q0 task now|q0 count ms now|q0 o token|q0 o token requeue now|q0 o av _ _].
  - left. exists e. split; [|done]. simpl. rewrite lookup_insert_ne; [done|].
    intros E. apply (mi_offset _ Hi) in He. lia.
  - left. destruct (mq_lease q0 count ms now) as [ls q2] eqn:El.
    destruct (lease_cases _ _ _ _ _ _ El Hi) as [(_ & _ & ->)|(_ & p & r & en & s & Hl & ->)]; [eauto|].
    destruct (mq_release_inv (mono now) q0 Hi) as (_ & _ & _ & Hent). simpl in Hent.
    assert (mq_entries (_release_expired q0 (mono now)) !! off = Some (expire (mono now) e)) as He1
      by (by rewrite Hent, lookup_fmap, He).
    destruct (proj2 (ls_dom Hl off)) as [e' He']; [eauto|]. exists e'. split; [done|].
    destruct (expire_fields (mono now) e) as (Ht & _ & _).
    destruct (ls_entries Hl off e' He') as (e1 & He1' & [[_ ->]|(l & _ & _ & ->)]); simpl; congruence.
  - destruct (held_by q0 o token) as [e1|] eqn:Eh; [|left; unfold mq_ack; rewrite Eh; eauto].
    pose proof Eh as (He1 & Ha & Ht)%held_by_Some. destruct (decide (o = off)) as [->|Hne].
    + right. exists token. split_and!; [congruence|by left|].
      unfold mq_ack. rewrite Eh. apply lookup_delete_eq.
    + left. exists e. unfold mq_ack. rewrite Eh. simpl. by rewrite lookup_delete_ne.
  - destruct (held_by q0 o token) as [e1|] eqn:Eh; [|left; rewrite nack_eq, Eh; eauto].
    pose proof Eh as (He1 & Ha & Ht)%held_by_Some. destruct requeue, (decide (o = off)) as [->|Hne].
    + left. exists (nack_entry e1 now). rewrite nack_eq, Eh. simpl. rewrite lookup_insert_eq.
      split; [done|]. congruence.
    + left. exists e. rewrite nack_eq, Eh. simpl. by rewrite lookup_insert_ne.
    + right. exists token. split_and!; [congruence|by eauto|]. rewrite nack_eq, Eh. apply lookup_delete_eq.
    + left. exists e. rewrite nack_eq, Eh. simpl. by rewrite lookup_delete_ne.
  - left. unfold mq_reschedule. destruct (mq_entries q0 !! o) as [e1|] eqn:E1; [|eauto].
    destruct (e_acked e1); [eauto|]. simpl. destruct (decide (o = off)) as [->|Hne].
    + rewrite lookup_insert_eq. eexists. split; [done|]. simpl. congruence.
    + rewrite lookup_insert_ne by done. eauto.
Qed.

(** No task is lost, rescheduling included: an operation removes a task
    only if it is [ack] or a final [nack] with the token of the task's current
    lease, and a call of [lease] with room for the whole heap hands out every
    task that is available and not under a live lease. *)
Theorem mem_no_task_lost q off e :
  rtc (mq_step true) mq_new q → mq_entries q !! off = Some e →
  (∀ q', mq_step true q q' →
     (∃ e', mq_entries q' !! off = Some e' ∧ e_task e' = e_task e) ∨
     (∃ t, e_token e = Some t ∧
        (q' = mq_ack q off t ∨ ∃ now, q' = mq_nack q off t false now) ∧
        mq_entries q' !! off = None)) ∧
  (∀ count ms now, may_lease (mono now) e = true →
     (Z.of_nat (length (mq_ready q) + size (mq_entries q)) <= count)%Z →
     off ∈ lt_offset <$> (mq_lease q count ms now).1).
Proof.
  intros Hr He. pose proof (reachable_inv _ q Hr) as Hi. split.
  { intros q' Hs. by eapply step_keeps. }
  intros count ms now Hm Hc. destruct (mq_lease q count ms now) as [ls q'] eqn:El. simpl.
  apply may_lease_expire in Hm as [Hd Ht].
  destruct (mq_release_inv (mono now) q Hi) as (Hi1 & _ & _ & Hent). simpl in Hent.
  assert (mq_entries (_release_expired q (mono now)) !! off = Some (expire (mono now) e)) as He1
    by (by rewrite Hent, lookup_fmap, He).
  pose proof (mi_queued _ Hi1 _ _ He1 Ht) as Hin.
  pose proof (release_length (mono now) q) as Hlen.
  destruct (lease_cases _ _ _ _ _ _ El Hi) as [(Hc0 & _)|(_ & p & r & en & s & Hl & ->)].
  { assert (mq_entries q = ∅) as E by (apply map_size_empty_iff; lia).
    by rewrite E, lookup_empty in He. }
  eapply (popped_leased _ _ _ _ _ _ _ _ _ Hl (e_available_at (expire (mono now) e), off)); [|exact He1].
  pose proof (ls_popped Hl) as Hp. rewrite Hp in Hin, Hlen.
  apply elem_of_app in Hin as [Hin|Hin]; [done|exfalso].
  destruct (ls_stop Hl) as [Hroom|Hstop].
  - assert (length ls ≤ length p) as Hlp.
    { rewrite <- (length_fmap lt_offset), (ls_offsets Hl).
      etransitivity; [apply length_filter|]. by rewrite length_fmap. }
    rewrite length_app in Hlen. destruct r; [set_solver|]. simpl in Hlen. lia.
  - destruct r as [|x r]; [set_solver|]. destruct (mi_ready _ Hi1) as [Hs Hn]. rewrite Hp in Hs, Hn.
    apply Forall_app in Hn as [_ Hn]. apply StronglySorted_app_inv in Hs as [Hs _].
    apply (Hstop x); [done|]. apply elem_of_cons in Hin as [<-|Hin]; [done|].
    inversion Hs as [|? ? _ Hall]; subst. rewrite Forall_forall in Hall, Hn.
    by eapply item_due_le; [apply Hn; left|apply Hn; right; exact Hin|apply Hall|].
Qed.
End reachable.

(** ** The laws of the interface *)

Definition slot_of (e : Entry) : slot := mkSlot (e_task e) (e_token e).

Definition mq_view (q : InMemoryWorkQueue) : gmap N slot := slot_of <$> mq_entries q.

Lemma view_lookup q off t tok :
  mq_view q !! off = Some (mkSlot t tok) ↔
  ∃ e, mq_entries q !! off = Some e ∧ e_task e = t ∧ e_token e = tok.
Proof.
  unfold mq_view. rewrite lookup_fmap, fmap_Some. unfold slot_of. split.
  - intros (e & He & [= -> ->]). eauto.
  - intros (e & He & <- & <-). eauto.
Qed.

Lemma held_by_view q off token :
  none_acked (mq_entries q) →
  match mq_view q !! off with
  | Some (mkSlot _ (Some tok')) => String.eqb token tok'
  | _ => false
  end = bool_decide (is_Some (held_by q off token)).
Proof.
  intros Hna. unfold mq_view, held_by. rewrite lookup_fmap.
  destruct (mq_entries q !! off) as [e|] eqn:He; simpl.
  - rewrite (Hna _ _ He). destruct (e_token e) as [t|]; simpl.
    + rewrite String.eqb_sym. by destruct (String.eqb t token).
    + done.
  - done.
Qed.

Lemma slot_fmap_insert q off e :
  slot_of <$> <[off := e]> (mq_entries q) = <[off := slot_of e]> (mq_view q).
Proof. apply fmap_insert. Qed.

Section laws.
Context {PT : PyText}.

Lemma mem_put_law q task now :
  mq_exact q →
  let '(off, q') := mq_put q task now in
  mq_exact q' ∧ mq_view q !! off = None ∧ mq_view q' = <[off := mkSlot task None]> (mq_view q).
Proof.
  intros Hx. pose proof (step_exact _ _ (step_put false q task now) Hx) as Hx'. simpl in Hx'.
  unfold mq_put. split_and!; [exact Hx'| |unfold mq_view at 1; simpl; apply slot_fmap_insert].
  unfold mq_view. rewrite lookup_fmap.
  destruct (mq_entries q !! mq_next_offset q) as [e|] eqn:E; [|done].
  apply (mi_offset _ (mx_inv _ Hx)) in E. lia.
Qed.

(** The entry of a leased task carries the token of its lease. *)
Lemma leased_lookup now deadline room ready entries seq ls popped ready' en seq' l e e' :
  lease_run now deadline room ready entries seq ls popped ready' en seq' →
  NoDup (lt_offset <$> ls) → l ∈ ls →
  entries !! lt_offset l = Some e → en !! lt_offset l = Some e' →
  e' = leased_entry deadline e (lt_token l).
Proof.
  intros Hl Hnd Hin He He'. destruct (ls_entries Hl _ e' He') as (e2 & He2 & Hc).
  rewrite He in He2. injection He2 as <-.
  destruct Hc as [[Hno _]|(l' & Hin' & Eo & ->)]; [destruct Hno; by apply list_elem_of_fmap_2|].
  apply list_elem_of_lookup in Hin as [i Hi]. apply list_elem_of_lookup in Hin' as [j Hj].
  assert (j = i) as ->; [|congruence].
  eapply NoDup_lookup; [exact Hnd|rewrite list_lookup_fmap, Hj; simpl; by rewrite Eo|].
  by rewrite list_lookup_fmap, Hi.
Qed.

Lemma mem_lease_law q count ms now :
  mq_exact q →
  let '(ls, q') := mq_lease q count ms now in
  mq_exact q' ∧ sl_task <$> mq_view q' = sl_task <$> mq_view q ∧
  NoDup (lt_offset <$> ls) ∧
  (∀ l, l ∈ ls → mq_view q' !! lt_offset l = Some (mkSlot (lt_task l) (Some (lt_token l)))) ∧
  (∀ off t tok, mq_view q' !! off = Some (mkSlot t (Some tok)) →
     mq_view q !! off = Some (mkSlot t (Some tok)) ∨
     ∃ l, l ∈ ls ∧ lt_offset l = off ∧ lt_task l = t ∧ lt_token l = tok).
Proof.
  intros Hx. pose proof (mx_inv _ Hx) as Hi.
  pose proof (step_exact _ _ (step_lease false q count ms now) Hx) as Hx'.
  destruct (mq_lease q count ms now) as [ls q'] eqn:El. simpl in Hx'. split; [done|].
  destruct (lease_cases _ _ _ _ _ _ El Hi) as [(_ & -> & ->)|(_ & p & r & en & s & Hl & ->)].
  { split_and!; [done|constructor|set_solver|by left]. }
  destruct (mq_release_inv (mono now) q Hi) as (_ & _ & _ & Hent). simpl in Hent.
  pose proof (release_exact (mono now) q Hx) as Hx1.
  destruct (after_exact _ _ _ _ _ _ _ _ _ Hl Hx1) as [_ Hoffs].
  assert (NoDup (lt_offset <$> ls)) as Hnd.
  { rewrite Hoffs. pose proof (mx_nodup _ Hx1) as Hn. rewrite (ls_popped Hl), fmap_app in Hn.
    by apply NoDup_app in Hn as (? & _). }
  assert (∀ off e', en !! off = Some e' → ∃ e, mq_entries q !! off = Some e ∧ e_task e' = e_task e) as Hback.
  { intros off e' He'. destruct (ls_entries Hl off e' He') as (e1 & He1 & Hc).
    rewrite Hent, lookup_fmap in He1. apply fmap_Some in He1 as (e & He & ->). exists e. split; [done|].
    destruct (expire_fields (mono now) e) as (Ht & _ & _).
    destruct Hc as [[_ ->]|(l & _ & _ & ->)]; [done|]. done. }
  split_and!; [|done| |].
  - apply map_eq. intros off. unfold mq_view. rewrite !lookup_fmap. simpl.
    destruct (en !! off) as [e'|] eqn:E'.
    + destruct (Hback off e' E') as (e & He & Ht). rewrite He. simpl. by rewrite Ht.
    + destruct (mq_entries q !! off) as [e|] eqn:E; [|done]. exfalso.
      apply (is_Some_None (A:=Entry)). rewrite <- E'. apply (ls_dom Hl).
      rewrite Hent, lookup_fmap, E. eauto.
  - intros l Hin. apply view_lookup. simpl.
    pose proof Hin as [i Hi']%list_elem_of_lookup.
    destruct (ls_leased Hl i l Hi') as (_ & _ & e1 & He1 & Ht).
    destruct (proj2 (ls_dom Hl (lt_offset l))) as [e' He']; [eauto|]. exists e'. split; [done|].
    rewrite (leased_lookup _ _ _ _ _ _ _ _ _ _ _ _ _ _ Hl Hnd Hin He1 He'). done.
  - intros off t tok Hv. apply view_lookup in Hv as (e' & He' & Ht & Htok). simpl in He'.
    destruct (ls_entries Hl off e' He') as (e1 & He1 & [[_ ->]|(l & Hin & Eo & ->)]).
    + left. rewrite Hent, lookup_fmap in He1. apply fmap_Some in He1 as (e & He & ->).
      apply view_lookup. exists e. unfold expire in *. by destruct (expired (mono now) e).
    + right. exists l. split_and!; [done|done| |].
      * pose proof Hin as [i Hi']%list_elem_of_lookup.
        destruct (ls_leased Hl i l Hi') as (_ & _ & e2 & He2 & Ht2). simpl in Ht. congruence.
      * simpl in Htok. congruence.
Qed.

Lemma mem_ack_law q off tok :
  mq_exact q →
  mq_exact (mq_ack q off tok) ∧
  mq_view (mq_ack q off tok) =
    match mq_view q !! off with
    | Some (mkSlot _ (Some tok')) =>
        if String.eqb tok tok' then delete off (mq_view q) else mq_view q
    | _ => mq_view q
    end.
Proof.
  intros Hx. split; [by eapply step_exact; [apply step_ack|]|].
  pose proof (held_by_view q off tok (mi_acked _ (mx_inv _ Hx))) as Hh. unfold mq_ack.
  destruct (held_by q off tok) as [e|] eqn:Eh; simpl in Hh;
    destruct (mq_view q !! off) as [[t [tok'|]]|]; try done; rewrite ?Hh; try done.
  unfold mq_view at 1. simpl. by rewrite fmap_delete.
Qed.

Lemma mem_nack_law q off tok requeue now :
  mq_exact q →
  mq_exact (mq_nack q off tok requeue now) ∧
  mq_view (mq_nack q off tok requeue now) =
    match mq_view q !! off with
    | Some (mkSlot t (Some tok')) =>
        if String.eqb tok tok' then
          if requeue then <[off := mkSlot t None]> (mq_view q) else delete off (mq_view q)
        else mq_view q
    | _ => mq_view q
    end.
Proof.
  intros Hx. split; [by eapply step_exact; [apply step_nack|]|].
  pose proof (held_by_view q off tok (mi_acked _ (mx_inv _ Hx))) as Hh. rewrite nack_eq.
  destruct (held_by q off tok) as [e|] eqn:Eh; simpl in Hh;
    destruct (mq_view q !! off) as [[t [tok'|]]|] eqn:Ev; try done; rewrite ?Hh; try done.
  apply held_by_Some in Eh as (He & _ & _). apply view_lookup in Ev as (e1 & He1 & <- & _).
  rewrite He in He1. injection He1 as <-.
  destruct requeue; unfold mq_view at 1; simpl; [apply slot_fmap_insert|by rewrite fmap_delete].
Qed.

Lemma mem_count_law q : mq_exact q → mq_pending_count q = N.of_nat (size (mq_view q)).
Proof. intros _. unfold mq_pending_count, mq_view. by rewrite map_size_fmap. Qed.

#[export] Instance mem_lawful : LawfulWorkQueue InMemoryWorkQueue := {
  wq_ok := mq_exact;
  wq_view := mq_view;
  wq_count := mem_count_law;
  wq_put_law := mem_put_law;
  wq_lease_law := mem_lease_law;
  wq_ack_law := mem_ack_law;
  wq_nack_law := mem_nack_law
}.
End laws.

(** ** Examples *)

#[local] Existing Instance plain_text.

Definition demo_task (id : string) (at_ : Z) : mapping :=
  Map [("task_id", JStr id); ("flow_id", JStr "f"); ("scheduled_at", JFloat (Fin at_))].

(** Two tasks, the second scheduled ten seconds later; the first is leased. *)
Definition demo_q0 : InMemoryWorkQueue :=
  let q := (mq_put mq_new (demo_task "a" 0) (mkNow 1000 5000)).2 in
  (mq_put q (demo_task "b" 10005000) (mkNow 1000 5000)).2.
Definition demo_q1 : InMemoryWorkQueue := (mq_lease demo_q0 1 30 (mkNow 2000 6000)).2.

Lemma demo_q0_reachable b : rtc (mq_step b) mq_new demo_q0.
Proof.
  unfold demo_q0.
  eapply rtc_l; [apply (step_put b mq_new (demo_task "a" 0) (mkNow 1000 5000))|].
  eapply rtc_l; [apply (step_put b _ (demo_task "b" 10005000) (mkNow 1000 5000))|]. apply rtc_refl.
Qed.

Lemma demo_q1_reachable b : rtc (mq_step b) mq_new demo_q1.
Proof.
  eapply rtc_r; [apply demo_q0_reachable|]. apply (step_lease b demo_q0 1 30 (mkNow 2000 6000)).
Qed.


Lemma mem_no_task_lost_witness :
  1%N ∈ lt_offset <$> (mq_lease demo_q1 5 30 (mkNow 20000000 20004000)).1.
Proof.
  apply (mem_no_task_lost demo_q1 1
           (mkEntry (demo_task "b" 10005000) (Fin 10001000) 0 None false) (demo_q1_reachable true)).
  - by vm_compute.
  - by vm_compute.
  - by vm_compute.
Defined.

(** Rescheduling a task that waits in the heap adds a second heap item: one
    call of [lease] hands the task out twice, under two tokens, and the first
    holder's [ack] is ignored. *)
Example reschedule_leases_twice :
  let q := mq_reschedule demo_q0 0 (Fin 1500) in
  let '(ls, q') := mq_lease q 5 30 (mkNow 2000 6000) in
  (lt_offset <$> ls) = [0%N; 0%N] ∧ (lt_token <$> ls) = ["lease-1"; "lease-2"] ∧
  mq_ack q' 0 "lease-1" = q'.
Proof. by vm_compute. Qed.

(** Rescheduling to a later time does not delay it: the old item is still due. *)
Example reschedule_later_ignored :
  (lt_offset <$> (mq_lease (mq_reschedule demo_q0 0 (Fin 9000000)) 5 30 (mkNow 2000 6000)).1)
  = [0%N].
Proof. by vm_compute. Qed.
