(* ===== verification/Idempotency.v ===== *)
(** * The idempotency store ([tm/runtime/idempotency.py])

    A least-recently-used cache of task results with expiry, kept as the
    ordered dictionary the code has (oldest first), and its JSON snapshot.
    [is_file] is the content of [idempotency.json], [None] when it does not
    exist or cannot be decoded; [now] is the reading of the store's clock. *)

From S2P Require Import Prelude PyVal PyConv Task.
From stdpp Require Import base gmap strings list sets.
From Stdlib Require Import ZArith Lia.

(** ** Results *)

Record IdempotencyResult : Type := mkIR {
  ir_status : string;
  ir_output : mapping;
  ir_error : option mapping
}.

#[export] Instance IdempotencyResult_eq_dec : EqDecision IdempotencyResult.
Proof. solve_decision. Defined.

Definition to_payload (r : IdempotencyResult) : json :=
  JObj [("status", JStr (ir_status r));
        ("output", JObj (items (ir_output r)));
        ("error", match ir_error r with Some m => JObj (items m) | None => JNull end)].

Section from_payload.
Context `{PyText}.

Definition from_payload (payload : list (string * json)) : res IdempotencyResult :=
  let status := py_str other_str (jor (jget "status" payload) (JStr "")) in
  if String.eqb status "" then Raise (ValueError "idempotency payload missing status")
  else
    match jor (jget "output" payload) (JObj []), jget "error" payload with
    | JObj out, JObj err => Ok (mkIR status (Map out) (Some (Map err)))
    | JObj out, JNull => Ok (mkIR status (Map out) None)
    | JObj _, _ => Raise (TypeError "idempotency error must be mapping")
    | _, _ => Raise (TypeError "idempotency output must be mapping")
    end.
End from_payload.

(** ** The store *)

Record IEntry : Type := mkIE {
  ie_result : IdempotencyResult;
  ie_expires_at : pyfloat;
  ie_created_at : Z
}.

Record IdempotencyStore : Type := mkIS {
  is_capacity : Z;
  is_snapshot_interval : Z;
  is_last_snapshot : Z;
  is_entries : list (string * IEntry);
  is_file : option json
}.

Definition with_entries (s : IdempotencyStore) (es : list (string * IEntry)) : IdempotencyStore :=
  mkIS (is_capacity s) (is_snapshot_interval s) (is_last_snapshot s) es (is_file s).

(** [while len(self._entries) > self._capacity: self._entries.popitem(last=False)]. *)
Fixpoint _enforce_capacity (capacity : Z) (es : list (string * IEntry)) : list (string * IEntry) :=
  match es with
  | [] => []
  | _ :: es' => if (capacity <? Z.of_nat (length es))%Z then _enforce_capacity capacity es' else es
  end.

(** [entry.expires_at <= now]. *)
Definition is_expired (now : Z) (e : IEntry) : bool := fge (Fin now) (ie_expires_at e).

Definition move_to_end {V} (key : string) (v : V) (es : list (string * V)) : list (string * V) :=
  dict_pop key es ++ [(key, v)].

Definition idem_get (s : IdempotencyStore) (key : string) (now : Z)
  : option IdempotencyResult * IdempotencyStore :=
  match alookup key (is_entries s) with
  | None => (None, s)
  | Some e =>
      if is_expired now e then (None, with_entries s (dict_pop key (is_entries s)))
      else (Some (ie_result e), with_entries s (move_to_end key e (is_entries s)))
  end.

(** The document a snapshot writes. *)
Definition snapshot_item (ke : string * IEntry) : json :=
  JObj [("key", JStr ke.1);
        ("expires_at", JFloat (ie_expires_at ke.2));
        ("result", to_payload (ie_result ke.2))].

Definition snapshot (es : list (string * IEntry)) (now : Z) : json :=
  JObj [("entries",
         JArr (snapshot_item <$> filter (fun ke => flt (Fin now) (ie_expires_at ke.2) = true) es))].

Definition _maybe_snapshot_locked (s : IdempotencyStore) (now : Z) (force : bool)
  : IdempotencyStore :=
  if negb force && (now - is_last_snapshot s <? is_snapshot_interval s)%Z then s
  else mkIS (is_capacity s) (is_snapshot_interval s) now (is_entries s)
         (Some (snapshot (is_entries s) now)).

Definition idem_remember (s : IdempotencyStore) (key : string) (r : IdempotencyResult)
    (ttl_seconds : pyfloat) (now : Z) : IdempotencyStore :=
  if fge fzero ttl_seconds then s
  else
    let record := mkIE r (fadd (Fin now) ttl_seconds) now in
    let es := move_to_end key record (dict_set key record (is_entries s)) in
    _maybe_snapshot_locked (with_entries s (_enforce_capacity (is_capacity s) es)) now false.

Definition idem_prune (s : IdempotencyStore) (now : Z) : IdempotencyStore :=
  _maybe_snapshot_locked
    (with_entries s (filter (fun ke => is_expired now ke.2 = false) (is_entries s))) now true.

Section load.
Context `{PyText}.

(** [isinstance(value, (int, float))]. *)
Definition is_number (v : json) : bool :=
  match v with JInt _ | JBool _ | JFloat _ => true | _ => false end.

(** The comparison [expires_at <= now], exact on integers of any size. *)
Definition number_le (v : json) (now : Z) : bool :=
  match v with
  | JInt z => (z * funit <=? now)%Z
  | JBool b => ((if b then funit else 0) <=? now)%Z
  | JFloat f => fge (Fin now) f
  | _ => false
  end.

(** One iteration of the loop of [_load]; [float] of a huge integer raises. *)
Definition load_item (now : Z) (es : list (string * IEntry)) (item : json)
  : res (list (string * IEntry)) :=
  match as_mapping item with
  | None => Ok es
  | Some m =>
      match jget "key" m with
      | JStr key =>
          let expires_at := jget "expires_at" m in
          if negb (is_number expires_at) || number_le expires_at now then Ok es
          else
            match as_mapping (jget "result" m) with
            | None => Ok es
            | Some payload =>
                match from_payload payload with
                | Raise _ => Ok es
                | Ok r => f ← py_float expires_at; Ok (dict_set key (mkIE r f now) es)
                end
            end
      | _ => Ok es
      end
  end.

Fixpoint load_items (now : Z) (es : list (string * IEntry)) (l : list json)
  : res (list (string * IEntry)) :=
  match l with
  | [] => Ok es
  | item :: l' => es' ← load_item now es item; load_items now es' l'
  end.

Definition _load (capacity : Z) (file : option json) (now : Z) : res (list (string * IEntry)) :=
  match file with
  | Some (JObj data) =>
      match jget "entries" data with
      | JArr l => es ← load_items now [] l; Ok (_enforce_capacity capacity es)
      | _ => Ok []
      end
  | _ => Ok []
  end.

Definition idem_new (capacity snapshot_interval : Z) (file : option json) (now : Z)
  : res IdempotencyStore :=
  if (capacity <=? 0)%Z then Raise (ValueError "capacity must be positive")
  else
    es ← _load capacity file now;
    Ok (mkIS capacity (Z.max snapshot_interval funit) 0 es file).
End load.

(** ** The execution guard *)

Record ExecutionIdempotencyGuard : Type := mkGuard {
  eg_ttl_seconds : pyfloat;
  eg_history : gmap string (mapping * pyfloat)
}.

Definition guard_lookup (g : ExecutionIdempotencyGuard) (key : string) (now : Z)
  : option mapping * ExecutionIdempotencyGuard :=
  match eg_history g !! key with
  | None => (None, g)
  | Some (result, expires_at) =>
      if fge (Fin now) expires_at then
        (None, mkGuard (eg_ttl_seconds g) (delete key (eg_history g)))
      else (Some result, g)
  end.

Definition guard_record (g : ExecutionIdempotencyGuard) (key : string) (result : mapping) (now : Z)
  : ExecutionIdempotencyGuard :=
  mkGuard (eg_ttl_seconds g)
    (<[key := (result, fadd (Fin now) (eg_ttl_seconds g))]> (eg_history g)).

(** ** Correctness of the idempotency store

    The cache against the history of its operations: what it returns is the
    last result remembered and not expired, it never exceeds its capacity, it
    keeps a result while fewer than [capacity] other keys are used, and a
    snapshot loads back. *)

From S2P Require Import Prelude PyVal PyConv Task.
From stdpp Require Import base gmap strings list sets.
From Stdlib Require Import ZArith Lia ZifyBool.

(** ** Ordered dictionaries *)

Lemma move_dict_set {V} key (v : V) l :
  move_to_end key v (dict_set key v l) = move_to_end key v l.
Proof. unfold move_to_end. by rewrite pop_dict_set. Qed.

Lemma NoDup_move_to_end {V} key (v : V) l : NoDup l.*1 → NoDup (move_to_end key v l).*1.
Proof.
  intros Hnd. unfold move_to_end. rewrite fmap_app. apply NoDup_app.
  split_and!; [by apply NoDup_dict_pop| |apply NoDup_singleton].
  intros k [Hne _]%dict_pop_keys ->%list_elem_of_singleton. done.
Qed.

(** ** Capacity *)

Lemma enforce_drop cap es :
  _enforce_capacity cap es = drop (length es - Z.to_nat cap) es.
Proof.
  induction es as [|kv es IH]; cbn [_enforce_capacity length]; [by destruct (0 - Z.to_nat cap)|].
  destruct (Z.ltb_spec cap (Z.of_nat (S (length es)))) as [Hlt|Hge].
  - rewrite IH. destruct (Z.to_nat cap) as [|n] eqn:E; simpl.
    + rewrite Nat.sub_0_r. done.
    + destruct (decide (length es ≤ n)) as [Hle|Hnle].
      * lia.
      * replace (length es - n) with (S (length es - S n)) by lia. done.
  - by replace (S (length es) - Z.to_nat cap) with 0 by lia.
Qed.

Lemma enforce_suffix cap es : ∃ pre, es = pre ++ _enforce_capacity cap es.
Proof. rewrite enforce_drop. eexists. symmetry. apply take_drop. Qed.

Lemma enforce_bound cap es : (0 <= cap)%Z → (Z.of_nat (length (_enforce_capacity cap es)) <= cap)%Z.
Proof. intros Hc. rewrite enforce_drop, length_drop. lia. Qed.

Lemma enforce_keep cap pre (x : string * IEntry) post :
  (Z.of_nat (length post) < cap)%Z →
  ∃ pre', _enforce_capacity cap (pre ++ x :: post) = pre' ++ x :: post ∧ pre'.*1 ⊆ pre.*1.
Proof.
  intros Hl. rewrite enforce_drop, length_app. simpl.
  exists (drop (length pre + S (length post) - Z.to_nat cap) pre). rewrite drop_app_le by lia.
  split; [done|]. rewrite fmap_drop. intros k Hk.
  rewrite <- (take_drop (length pre + S (length post) - Z.to_nat cap) (pre.*1)). set_solver.
Qed.

(** ** Histories *)

Inductive idem_op : Type :=
| IGet (key : string) (now : Z)
| IRemember (key : string) (r : IdempotencyResult) (ttl : pyfloat) (now : Z)
| IPrune (now : Z).

Definition run_op (s : IdempotencyStore) (op : idem_op) : IdempotencyStore :=
  match op with
  | IGet key now => (idem_get s key now).2
  | IRemember key r ttl now => idem_remember s key r ttl now
  | IPrune now => idem_prune s now
  end.

Definition run (s : IdempotencyStore) (ops : list idem_op) : IdempotencyStore := foldl run_op s ops.

Definition op_key (op : idem_op) : option string :=
  match op with IGet key _ | IRemember key _ _ _ => Some key | IPrune _ => None end.

Definition op_time (op : idem_op) : Z :=
  match op with IGet _ now | IRemember _ _ _ now | IPrune now => now end.

(** The specification: the last result remembered under a key, with its
    expiry; a non-positive time to live does not count. *)
Definition remembered_by (key : string) (op : idem_op) : option (IdempotencyResult * pyfloat) :=
  match op with
  | IRemember k r ttl now =>
      if bool_decide (k = key) && negb (fge fzero ttl) then Some (r, fadd (Fin now) ttl) else None
  | _ => None
  end.

Definition last_remembered (key : string) (ops : list idem_op)
  : option (IdempotencyResult * pyfloat) :=
  foldl (fun acc op => match remembered_by key op with Some x => Some x | None => acc end) None ops.

Lemma snapshot_entries s now force : is_entries (_maybe_snapshot_locked s now force) = is_entries s.
Proof. unfold _maybe_snapshot_locked. by destruct (negb force && _). Qed.

Lemma snapshot_capacity s now force : is_capacity (_maybe_snapshot_locked s now force) = is_capacity s.
Proof. unfold _maybe_snapshot_locked. by destruct (negb force && _). Qed.

Lemma remember_entries s key r ttl now :
  fge fzero ttl = false →
  is_entries (idem_remember s key r ttl now) =
  _enforce_capacity (is_capacity s)
    (move_to_end key (mkIE r (fadd (Fin now) ttl) now) (is_entries s)).
Proof.
  intros Ht. unfold idem_remember. rewrite Ht, snapshot_entries. simpl. by rewrite move_dict_set.
Qed.

(** *** Well-formedness and the history *)

Record idem_ok (s : IdempotencyStore) : Prop := {
  io_capacity : (0 < is_capacity s)%Z;
  io_keys : NoDup (is_entries s).*1;
  io_bound : (Z.of_nat (length (is_entries s)) <= is_capacity s)%Z
}.

Lemma enforce_nodup cap es : NoDup es.*1 → NoDup (_enforce_capacity cap es).*1.
Proof.
  destruct (enforce_suffix cap es) as [pre E]. rewrite E at 1. rewrite fmap_app.
  by intros (_ & _ & ?)%NoDup_app.
Qed.

Lemma enforce_incl cap es kv : kv ∈ _enforce_capacity cap es → kv ∈ es.
Proof. destruct (enforce_suffix cap es) as [pre E]. rewrite E at 2. set_solver. Qed.

Lemma run_op_capacity s op : is_capacity (run_op s op) = is_capacity s.
Proof.
  destruct op as [key now|key r ttl now|now]; cbn [run_op].
  - unfold idem_get. destruct (alookup key (is_entries s)) as [e|]; [|done].
    by destruct (is_expired now e).
  - unfold idem_remember. destruct (fge fzero ttl); [done|]. by rewrite snapshot_capacity.
  - unfold idem_prune. by rewrite snapshot_capacity.
Qed.

Lemma run_capacity s ops : is_capacity (run s ops) = is_capacity s.
Proof.
  revert s. induction ops as [|op ops IH]; intros s; [done|]. simpl. rewrite IH. apply run_op_capacity.
Qed.

Lemma run_op_ok s op : idem_ok s → idem_ok (run_op s op).
Proof.
  intros [Hc Hk Hb]. split; [by rewrite run_op_capacity| |rewrite run_op_capacity];
    destruct op as [key now|key r ttl now|now]; cbn [run_op].
  - unfold idem_get. destruct (alookup key (is_entries s)) as [e|]; [|done].
    destruct (is_expired now e); simpl; [by apply NoDup_dict_pop|by apply NoDup_move_to_end].
  - destruct (fge fzero ttl) eqn:Et; [unfold idem_remember; by rewrite Et|].
    rewrite remember_entries by done. by apply enforce_nodup, NoDup_move_to_end.
  - unfold idem_prune. rewrite snapshot_entries. by apply NoDup_filter_keys.
  - unfold idem_get. destruct (alookup key (is_entries s)) as [e|] eqn:El; [|done].
    destruct (is_expired now e); simpl.
    + pose proof (length_dict_pop key (is_entries s)). lia.
    + unfold move_to_end. rewrite length_app. simpl.
      assert (key ∈ (is_entries s).*1) as Hin.
      { apply alookup_elem_of in El. by apply (list_elem_of_fmap_2 fst _ (key, e)). }
      pose proof (dict_pop_length_in key (is_entries s) Hin). lia.
  - destruct (fge fzero ttl) eqn:Et; [unfold idem_remember; by rewrite Et|].
    rewrite remember_entries by done. apply enforce_bound. lia.
  - unfold idem_prune. rewrite snapshot_entries. simpl.
    pose proof (length_filter (fun ke => is_expired now ke.2 = false) (is_entries s)). lia.
Qed.

Lemma run_ok s ops : idem_ok s → idem_ok (run s ops).
Proof. revert s. induction ops as [|op ops IH]; intros s Hs; [done|]. apply IH. by apply run_op_ok. Qed.

(** Every entry is what was last remembered under its key. *)
Definition history_ok (ops : list idem_op) (s : IdempotencyStore) : Prop :=
  ∀ key e, (key, e) ∈ is_entries s → last_remembered key ops = Some (ie_result e, ie_expires_at e).

Lemma last_remembered_snoc key ops op :
  last_remembered key (ops ++ [op]) =
  match remembered_by key op with Some x => Some x | None => last_remembered key ops end.
Proof. unfold last_remembered. by rewrite foldl_app. Qed.

(** An operation leaves the other entries, or their absence, alone. *)
Lemma run_op_entry s op key e :
  NoDup (is_entries s).*1 → (key, e) ∈ is_entries (run_op s op) →
  match remembered_by key op with
  | Some x => x = (ie_result e, ie_expires_at e)
  | None => (key, e) ∈ is_entries s
  end.
Proof.
  intros Hnd. destruct op as [k now|k r ttl now|now]; cbn [run_op remembered_by].
  - unfold idem_get. destruct (alookup k (is_entries s)) as [e1|] eqn:El; [|done].
    destruct (is_expired now e1); simpl.
    + by intros [_ ?]%elem_of_dict_pop.
    + unfold move_to_end. rewrite elem_of_app, list_elem_of_singleton.
      intros [[_ ?]%elem_of_dict_pop|[= -> ->]]; [done|]. by apply alookup_elem_of.
  - destruct (fge fzero ttl) eqn:Et.
    { unfold idem_remember. rewrite Et, andb_false_r. done. }
    rewrite remember_entries, andb_true_r by done. intros Hin%enforce_incl.
    unfold move_to_end in Hin. apply elem_of_app in Hin as [[Hne Hin]%elem_of_dict_pop|Hin].
    + simpl in Hne. by rewrite bool_decide_eq_false_2.
    + apply list_elem_of_singleton in Hin as [= -> ->]. by rewrite bool_decide_eq_true_2.
  - unfold idem_prune. rewrite snapshot_entries. simpl. by intros [_ ?]%list_elem_of_filter.
Qed.

Lemma run_history s ops : idem_ok s → is_entries s = [] → history_ok ops (run s ops).
Proof.
  intros Hs He. induction ops as [|op ops IH] using rev_ind.
  { intros key e Hin. unfold run in Hin. simpl in Hin. rewrite He in Hin. set_solver. }
  intros key e. unfold run. rewrite foldl_app, last_remembered_snoc. simpl. fold (run s ops).
  intros Hin. apply run_op_entry in Hin; [|apply run_ok, Hs].
  destruct (remembered_by key op) as [x|]; [by f_equal|]. by apply IH.
Qed.

(** *** What is kept *)

(** The entry of [key] is there, and every entry used after it has a key of
    [K]. *)
Definition kept (key : string) (x : IdempotencyResult * pyfloat) (K : gset string)
    (s : IdempotencyStore) : Prop :=
  ∃ pre e post, is_entries s = pre ++ (key, e) :: post ∧
    (ie_result e, ie_expires_at e) = x ∧ (key ∉ post.*1) ∧ (∀ k, k ∈ post.*1 → k ∈ K).

Lemma kept_length key (K : gset string) s pre e post :
  NoDup (is_entries s).*1 → is_entries s = pre ++ (key, e) :: post →
  (∀ k, k ∈ post.*1 → k ∈ K) → length post ≤ size K.
Proof.
  intros Hnd E Hk. rewrite E, fmap_app, fmap_cons in Hnd.
  apply NoDup_app in Hnd as (_ & _ & [_ Hnd]%NoDup_cons).
  rewrite <- (length_fmap fst). rewrite <- (size_list_to_set (C:=gset string)) by done.
  apply subseteq_size. intros k. rewrite elem_of_list_to_set. apply Hk.
Qed.

(** Using another key of [K] at the end. *)
Lemma kept_move key x (K : gset string) k (v : IEntry) pre e post :
  k ≠ key → (ie_result e, ie_expires_at e) = x → (key ∉ post.*1) →
  (∀ k, k ∈ post.*1 → k ∈ K) → k ∈ K →
  ∃ pre' post', move_to_end k v (pre ++ (key, e) :: post) = pre' ++ (key, e) :: post' ∧
    (key ∉ post'.*1) ∧ (∀ k, k ∈ post'.*1 → k ∈ K).
Proof.
  intros Hne Hx Hp Hk Hin. unfold move_to_end.
  exists (dict_pop k pre), (dict_pop k post ++ [(k, v)]). split_and!.
  - rewrite dict_pop_app. unfold dict_pop at 2. rewrite filter_cons_True by (simpl; congruence).
    by rewrite <- app_assoc.
  - rewrite fmap_app, elem_of_app, dict_pop_keys. set_solver.
  - intros k'. rewrite fmap_app, elem_of_app, dict_pop_keys. set_solver.
Qed.

Lemma kept_pop key (K : gset string) k (pre : list (string * IEntry)) e post :
  k ≠ key → (key ∉ post.*1) → (∀ k', k' ∈ post.*1 → k' ∈ K) →
  ∃ pre' post', dict_pop k (pre ++ (key, e) :: post) = pre' ++ (key, e) :: post' ∧
    (key ∉ post'.*1) ∧ (∀ k', k' ∈ post'.*1 → k' ∈ K).
Proof.
  intros Hne Hp Hk. exists (dict_pop k pre), (dict_pop k post). rewrite dict_pop_app. split_and!.
  - unfold dict_pop at 2. by rewrite filter_cons_True by (simpl; congruence).
  - rewrite dict_pop_keys. naive_solver.
  - intros k'. rewrite dict_pop_keys. naive_solver.
Qed.

Lemma kept_step key x K s op :
  idem_ok s → (Z.of_nat (size K) < is_capacity s)%Z →
  remembered_by key op = None → fge (Fin (op_time op)) x.2 = false →
  (∀ k, op_key op = Some k → k ≠ key → k ∈ K) →
  kept key x K s → kept key x K (run_op s op).
Proof.
  intros Hs HK Hr Ht Hop (pre & e & post & E & Hx & Hp & Hk). subst x. simpl in Ht.
  assert (NoDup (pre ++ (key, e) :: post).*1) as Hnd by (rewrite <- E; apply Hs).
  assert (key ∉ pre.*1) as Hpre.
  { rewrite fmap_app, fmap_cons in Hnd. apply NoDup_app in Hnd as (_ & Hnd & _).
    intros Hin. apply (Hnd key Hin). left. }
  assert (alookup key (is_entries s) = Some e) as Hl.
  { apply alookup_NoDup; [apply Hs|]. rewrite E. set_solver. }
  destruct op as [k now|k r ttl now|now]; cbn [run_op op_time op_key remembered_by] in *.
  - unfold idem_get. destruct (decide (k = key)) as [->|Hne].
    + rewrite Hl. unfold is_expired. rewrite Ht. simpl.
      exists (dict_pop key (is_entries s)), e, []. by split_and!; [|done|set_solver|set_solver].
    + destruct (alookup k (is_entries s)) as [e1|]; [|by exists pre, e, post].
      destruct (is_expired now e1); simpl.
      * destruct (kept_pop key K k pre e post Hne Hp Hk) as (pre' & post' & E' & ? & ?).
        exists pre', e, post'. by rewrite E, E'.
      * destruct (kept_move key _ K k e1 pre e post Hne eq_refl Hp Hk) as (pre' & post' & E' & ? & ?);
          [by apply Hop|].
        exists pre', e, post'. by rewrite E, E'.
  - destruct (fge fzero ttl) eqn:Et.
    { unfold idem_remember. rewrite Et. by exists pre, e, post. }
    rewrite andb_true_r in Hr. destruct (bool_decide_reflect (k = key)) as [->|Hne]; [done|].
    unfold kept. rewrite remember_entries by done.
    destruct (kept_move key _ K k (mkIE r (fadd (Fin now) ttl) now) pre e post Hne eq_refl Hp Hk)
      as (pre' & post' & E' & Hp' & Hk'); [by apply Hop|].
    assert (length post' ≤ size K) as Hlen.
    { apply (kept_length key K
               (with_entries s (pre' ++ (key, e) :: post')) pre' e); [|done|done].
      simpl. rewrite <- E', <- E. apply NoDup_move_to_end. apply Hs. }
    rewrite E, E'. destruct (enforce_keep (is_capacity s) pre' (key, e) post') as (pre2 & E2 & _); [lia|].
    exists pre2, e, post'. by rewrite E2.
  - unfold kept, idem_prune. rewrite snapshot_entries. simpl. rewrite E, filter_app.
    exists (filter (fun ke => is_expired now ke.2 = false) pre), e,
           (filter (fun ke => is_expired now ke.2 = false) post).
    split_and!; [by rewrite filter_cons_True|done| |].
    + intros (kv & -> & [_ Hin]%list_elem_of_filter)%list_elem_of_fmap. apply Hp.
      by apply list_elem_of_fmap_2.
    + intros k (kv & -> & [_ Hin]%list_elem_of_filter)%list_elem_of_fmap. apply Hk.
      by apply list_elem_of_fmap_2.
Qed.

Lemma kept_run key x K s ops :
  idem_ok s → (Z.of_nat (size K) < is_capacity s)%Z →
  Forall (fun op => remembered_by key op = None ∧ fge (Fin (op_time op)) x.2 = false) ops →
  (∀ op k, op ∈ ops → op_key op = Some k → k ≠ key → k ∈ K) →
  kept key x K s → kept key x K (run s ops).
Proof.
  revert s. induction ops as [|op ops IH]; intros s Hs HK Hall Hkeys Hkept; [done|].
  apply Forall_cons in Hall as [[Hr Ht] Hall]. apply IH; [by apply run_op_ok|by rewrite run_op_capacity|done| |].
  - intros op' k Hin. apply Hkeys. by right.
  - apply kept_step; try done. intros k. apply Hkeys. left.
Qed.

Lemma kept_remember key r ttl now K s :
  idem_ok s → fge fzero ttl = false →
  kept key (r, fadd (Fin now) ttl) K (idem_remember s key r ttl now).
Proof.
  intros Hs Ht. unfold kept. rewrite remember_entries by done. unfold move_to_end.
  destruct (enforce_keep (is_capacity s) (dict_pop key (is_entries s))
              (key, mkIE r (fadd (Fin now) ttl) now) []) as (pre & -> & _).
  { pose proof (io_capacity s Hs). simpl. lia. }
  exists pre, (mkIE r (fadd (Fin now) ttl) now), []. by split_and!; [|done|set_solver|set_solver].
Qed.

Lemma kept_get key x K s now :
  NoDup (is_entries s).*1 → kept key x K s → fge (Fin now) x.2 = false →
  (idem_get s key now).1 = Some x.1.
Proof.
  intros Hnd (pre & e & post & E & <- & _ & _) Ht. simpl in *. unfold idem_get.
  assert (alookup key (is_entries s) = Some e) as ->.
  { apply alookup_NoDup; [done|]. rewrite E. set_solver. }
  unfold is_expired. by rewrite Ht.
Qed.

Section claims.
Context {PT : PyText}.

Lemma idem_new_empty cap interval t0 s :
  idem_new cap interval None t0 = Ok s →
  idem_ok s ∧ is_entries s = [] ∧ is_capacity s = cap.
Proof.
  unfold idem_new. destruct (Z.leb_spec cap 0); [done|]. intros [= <-]. simpl.
  split_and!; [|done|done]. split; simpl; [lia|constructor|lia].
Qed.

(** The idempotency store is a least-recently-used cache with expiry: it
    never holds more than [capacity] results; a result it returns is the one
    last remembered under the key, and not expired; and it does return that
    result as long as it is not expired and fewer than [capacity] other keys
    were used since it was remembered. *)
Theorem idem_cache_spec cap interval t0 s0 ops :
  idem_new cap interval None t0 = Ok s0 →
  let s := run s0 ops in
  (Z.of_nat (length (is_entries s)) <= cap)%Z ∧
  (∀ key now r, (idem_get s key now).1 = Some r →
     ∃ expires, last_remembered key ops = Some (r, expires) ∧ fge (Fin now) expires = false) ∧
  (∀ ops1 key r ttl t ops2 now,
     ops = ops1 ++ IRemember key r ttl t :: ops2 → fge fzero ttl = false →
     let expires := fadd (Fin t) ttl in
     Forall (fun op => remembered_by key op = None ∧ fge (Fin (op_time op)) expires = false) ops2 →
     fge (Fin now) expires = false →
     (Z.of_nat (size (list_to_set (omap op_key ops2) ∖ {[key]} : gset string)) < cap)%Z →
     (idem_get s key now).1 = Some r).
Proof.
  intros Hnew s. apply idem_new_empty in Hnew as (Hok & Hemp & Hcap).
  assert (idem_ok s) as Hs by (by apply run_ok).
  split_and!.
  - rewrite <- Hcap, <- (run_capacity s0 ops). apply Hs.
  - intros key now r. unfold idem_get. destruct (alookup key (is_entries s)) as [e|] eqn:El; [|done].
    destruct (is_expired now e) eqn:Ex; [done|]. simpl. intros [= <-]. exists (ie_expires_at e).
    split; [|done]. apply (run_history s0 ops Hok Hemp). by apply alookup_elem_of.
  - intros ops1 key r ttl t ops2 now -> Ht expires Hall Hnow Hsize.
    set (K := list_to_set (omap op_key ops2) ∖ {[key]} : gset string) in *.
    assert (s = run (idem_remember (run s0 ops1) key r ttl t) ops2) as ->
      by (subst s; unfold run; by rewrite foldl_app).
    assert (idem_ok (idem_remember (run s0 ops1) key r ttl t)) as Hs1
      by (apply (run_op_ok _ (IRemember key r ttl t)); by apply run_ok).
    apply (kept_get key (r, expires) K); [by apply run_ok| |done].
    apply kept_run; [done| |done| |].
    + change (idem_remember (run s0 ops1) key r ttl t) with (run_op (run s0 ops1) (IRemember key r ttl t)).
      by rewrite run_op_capacity, run_capacity, Hcap.
    + intros op k Hin Hk Hne. unfold K. apply elem_of_difference.
      split; [|by apply not_elem_of_singleton].
      apply elem_of_list_to_set, list_elem_of_omap. eauto.
    + apply kept_remember; [|done]. by apply run_ok.
Qed.

(** ** Snapshots *)

Lemma to_from_payload r : ir_status r ≠ "" →
  ∃ payload, to_payload r = JObj payload ∧ from_payload payload = Ok r.
Proof.
  intros Hs. destruct r as [st [out] err]. simpl in *. eexists. split; [done|].
  unfold from_payload.
  repeat match goal with
  | |- context [jget ?k ?m] => let v := eval cbv in (jget k m) in change (jget k m) with v
  end.
  assert (String.eqb st "" = false) as Hst by (by apply String.eqb_neq).
  assert (jor (JStr st) (JStr "") = JStr st) as -> by (unfold jor; simpl; by rewrite Hst).
  cbn -[String.eqb jor]. rewrite Hst. by destruct out, err as [[er]|].
Qed.

Definition reload (now' : Z) (ke : string * IEntry) : string * IEntry :=
  (ke.1, mkIE (ie_result ke.2) (ie_expires_at ke.2) now').

Lemma load_item_snapshot now' acc ke :
  ir_status (ie_result ke.2) ≠ "" →
  load_item now' acc (snapshot_item ke) =
  Ok (if is_expired now' ke.2 then acc else dict_set ke.1 (reload now' ke).2 acc).
Proof.
  intros Hst. destruct ke as [key [r exp c]]. simpl in Hst.
  destruct (to_from_payload r Hst) as (payload & Hp & Hf).
  unfold load_item, snapshot_item. cbn [as_mapping fst snd ie_expires_at ie_result]. rewrite Hp.
  repeat match goal with
  | |- context [jget ?k ?m] => let v := eval cbv in (jget k m) in change (jget k m) with v
  end.
  cbn [is_number negb orb number_le as_mapping]. unfold is_expired. cbn [ie_expires_at snd].
  destruct (fge (Fin now') exp); [done|]. rewrite Hf. done.
Qed.

Lemma load_items_snapshot now' acc es :
  NoDup (acc.*1 ++ es.*1) → Forall (fun ke => ir_status (ie_result ke.2) ≠ "") es →
  load_items now' acc (snapshot_item <$> es) =
  Ok (acc ++ (reload now' <$> filter (fun ke => is_expired now' ke.2 = false) es)).
Proof.
  revert acc. induction es as [|ke es IH]; intros acc Hnd Hst; [simpl; by rewrite app_nil_r|].
  apply Forall_cons in Hst as [Hke Hst]. rewrite fmap_cons in Hnd. rewrite fmap_cons. cbn [load_items].
  rewrite load_item_snapshot by done. cbn [mbind res_bind].
  destruct (is_expired now' ke.2) eqn:Ex.
  - rewrite filter_cons_False by congruence. apply IH; [|done].
    apply NoDup_app in Hnd as (H1 & H2 & [H3 H4]%NoDup_cons). apply NoDup_app. set_solver.
  - rewrite filter_cons_True by done. rewrite fmap_cons, cons_middle, app_assoc.
    rewrite dict_set_fresh; [apply IH; [|done]|].
    + by rewrite fmap_app, <- app_assoc.
    + intros Hin. apply NoDup_app in Hnd as (_ & H2 & _). apply (H2 _ Hin). left.
Qed.

Lemma alookup_reload now' k es :
  alookup k (reload now' <$> es) =
  (fun e => mkIE (ie_result e) (ie_expires_at e) now') <$> alookup k es.
Proof. induction es as [|[k' e] es IH]; [done|]. simpl. case_decide; [done|]. exact IH. Qed.

Lemma load_snapshot cap es now now' :
  NoDup es.*1 → (Z.of_nat (length es) <= cap)%Z →
  Forall (fun ke => ir_status (ie_result ke.2) ≠ "") es →
  _load cap (Some (snapshot es now)) now' =
  Ok (reload now' <$> filter (fun ke => is_expired now' ke.2 = false)
                        (filter (fun ke => flt (Fin now) (ie_expires_at ke.2) = true) es)).
Proof.
  intros Hnd Hlen Hst. unfold _load, snapshot.
  set (l := filter (fun ke => flt (Fin now) (ie_expires_at ke.2) = true) es).
  change (jget "entries" _) with (JArr (snapshot_item <$> l)). cbn match.
  rewrite load_items_snapshot; simpl.
  - f_equal. rewrite enforce_drop, length_fmap.
    pose proof (length_filter (fun ke => is_expired now' ke.2 = false) l) as H1.
    pose proof (length_filter (fun ke => flt (Fin now) (ie_expires_at ke.2) = true) es) as H2.
    fold l in H2. replace (length _ - Z.to_nat cap) with 0; [done|]. lia.
  - by apply NoDup_filter_keys.
  - apply Forall_forall. intros ke [_ Hin]%list_elem_of_filter. by apply (proj1 (Forall_forall _ _) Hst).
Qed.

(** What a snapshot can store: a result with a status, a time to live that is
    a number. *)
Definition storable (op : idem_op) : Prop :=
  match op with IRemember _ r ttl _ => ir_status r ≠ "" ∧ ttl ≠ NaN | _ => True end.

Definition entry_storable (e : IEntry) : Prop :=
  ir_status (ie_result e) ≠ "" ∧ ie_expires_at e ≠ NaN.

Lemma remembered_storable key ops x :
  Forall storable ops → last_remembered key ops = Some x → ir_status x.1 ≠ "" ∧ x.2 ≠ NaN.
Proof.
  induction ops as [|op ops IH] using rev_ind; [done|].
  rewrite last_remembered_snoc. intros [Hops Hop]%Forall_app. apply Forall_cons in Hop as [Hop _].
  destruct (remembered_by key op) as [y|] eqn:Ey; [|by apply IH].
  intros [= <-]. destruct op as [| k r ttl t |]; simpl in Ey; try done.
  destruct (bool_decide _ && _); [|done]. injection Ey as <-. simpl in *. destruct Hop as [Hs Ht].
  split; [done|]. by destruct ttl.
Qed.

Lemma idem_get_result s key now :
  (idem_get s key now).1 =
  e ← alookup key (is_entries s); if is_expired now e then None else Some (ie_result e).
Proof.
  unfold idem_get. destruct (alookup key (is_entries s)) as [e|]; simpl; [|done].
  by destruct (is_expired now e).
Qed.

Lemma live_before t' t e :
  ie_expires_at e ≠ NaN → (t' <= t)%Z → is_expired t e = false →
  is_expired t' e = false ∧ flt (Fin t') (ie_expires_at e) = true.
Proof.
  unfold is_expired. destruct (ie_expires_at e) as [z| | |]; intros Hn Hle; try done.
  unfold fge. simpl. lia.
Qed.

(** A snapshot loads back: a store opened, at a later time, on the file
    that [prune] wrote answers every later lookup as the original store does. *)
Theorem idem_snapshot_roundtrip cap interval t0 s0 ops now now' :
  idem_new cap interval None t0 = Ok s0 → Forall storable ops → (now <= now')%Z →
  let s := run s0 ops in
  ∃ s', idem_new cap interval (is_file (idem_prune s now)) now' = Ok s' ∧
        ∀ key t, (now' <= t)%Z → (idem_get s' key t).1 = (idem_get s key t).1.
Proof.
  intros Hnew Hst Hle s. pose proof Hnew as (Hok & Hemp & Hcap)%idem_new_empty.
  assert (idem_ok s) as Hs by (by apply run_ok).
  assert (∀ key e, (key, e) ∈ is_entries s → entry_storable e) as Hsto.
  { intros key e Hin. apply (run_history s0 ops Hok Hemp) in Hin.
    by apply remembered_storable in Hin. }
  set (live := filter (fun ke => is_expired now ke.2 = false) (is_entries s)).
  assert (NoDup live.*1) as Hnd by (apply NoDup_filter_keys, Hs).
  assert (is_file (idem_prune s now) = Some (snapshot live now)) as -> by done.
  unfold idem_new in *. destruct (Z.leb_spec cap 0) as [?|Hpos]; [done|].
  rewrite load_snapshot; [simpl|done| |].
  - eexists. split; [done|]. intros key t Ht. rewrite !idem_get_result. cbn [is_entries].
    unfold live. rewrite alookup_reload, !alookup_filter by (repeat apply NoDup_filter_keys; apply Hs).
    destruct (alookup key (is_entries s)) as [e|] eqn:El; [|done].
    destruct (Hsto key e) as [_ Hnum]; [by apply alookup_elem_of|]. cbn [mbind option_bind snd].
    destruct (is_expired t e) eqn:Ex.
    + repeat (case_decide; cbn [mbind option_bind snd]; [|done]).
      cbn [fmap option_fmap option_map mbind option_bind].
      change (is_expired t (mkIE (ie_result e) (ie_expires_at e) now')) with (is_expired t e).
      by rewrite Ex.
    + destruct (live_before now t e) as [E1 E2]; [done|lia|done|].
      destruct (live_before now' t e) as [E3 _]; [done|lia|done|].
      rewrite decide_True by done. cbn [mbind option_bind snd].
      rewrite decide_True by done. cbn [mbind option_bind snd].
      rewrite decide_True by done. cbn [fmap option_fmap option_map mbind option_bind].
      change (is_expired t (mkIE (ie_result e) (ie_expires_at e) now')) with (is_expired t e).
      by rewrite Ex.
  - rewrite <- Hcap. pose proof (io_bound s Hs) as Hb.
    assert (is_capacity s = is_capacity s0) as Ec by apply run_capacity. rewrite Ec in Hb.
    pose proof (length_filter (fun ke => is_expired now ke.2 = false) (is_entries s)) as Hl.
    fold live in Hl. lia.
  - apply Forall_forall. intros [key e] [_ Hin]%list_elem_of_filter. by apply (Hsto key).
Qed.
End claims.

(** ** Examples *)

#[local] Existing Instance plain_text.

Definition demo_result : IdempotencyResult := mkIR "ok" (Map [("n", JInt 1)]) None.
Definition demo_store : IdempotencyStore := mkIS 4 funit 0 [] None.
Definition demo_ops : list idem_op :=
  [IRemember "a" demo_result (of_int 60) 0; IGet "b" 1; IRemember "c" demo_result (of_int 5) 2;
   IGet "a" 3; IRemember "d" demo_result (of_int 5) 4].

Lemma idem_cache_spec_witness : (idem_get (run demo_store demo_ops) "a" 100).1 = Some demo_result.
Proof.
  apply (proj2 (proj2 (idem_cache_spec 4 0 0 demo_store demo_ops eq_refl))
           [] "a" demo_result (of_int 60) 0%Z (tail demo_ops) 100%Z).
  - reflexivity.
  - reflexivity.
  - repeat constructor.
  - reflexivity.
  - by vm_compute.
Defined.

Lemma idem_snapshot_roundtrip_witness :
  ∃ s', idem_new 4 0 (is_file (idem_prune (run demo_store demo_ops) 100)) 200 = Ok s' ∧
        (idem_get s' "a" 300).1 = Some demo_result.
Proof.
  destruct (idem_snapshot_roundtrip 4 0 0 demo_store demo_ops 100 200) as (s' & Hs & Hget).
  - reflexivity.
  - repeat constructor; done.
  - lia.
  - exists s'. split; [exact Hs|]. rewrite Hget by lia. by vm_compute.
Defined.

(** The clock is monotonic and restarts with the machine, the snapshot keeps
    its readings: a result that had a second left is served, after a restart,
    long after it expired. *)
Example restart_revives_expired :
  let s := idem_remember demo_store "a" demo_result (of_int 1) (10 * funit) in
  match idem_new 4 0 (is_file (idem_prune s (10 * funit))) 0 with
  | Ok s' => (idem_get s' "a" (9 * funit)).1 = Some demo_result
  | Raise _ => False
  end.
Proof. by vm_compute. Qed.
