(* ===== verification/Retry.v ===== *)
(** * Retry policy and dead letters ([tm/runtime/retry.py], [dlq.py])

    Delays are exact rationals (the rounding and the overflow of floats are not
    modelled); [u] is the draw of [random.random()] that [random.uniform]
    scales. *)

From S2P Require Import Prelude PyVal PyConv Task.
From stdpp Require Import base gmap strings list.
From Stdlib Require Import ZArith QArith Qpower Qminmax Qround Lia Lqa.

Record RetrySettings : Type := mkRetry {
  max_attempts : Z;
  base_ms : Q;
  factor : Q;
  jitter_ms : Q;
  dlq_after : option Z
}.

Definition default_retry : RetrySettings := mkRetry 3 200 2 50 None.

Definition next_delay (s : RetrySettings) (attempt : Z) (u : Q) : Q :=
  if (attempt <=? 0)%Z then (base_ms s / 1000)%Q
  else
    let delay_ms := (base_ms s * factor s ^ (attempt - 1))%Q in
    let delay_ms := if Qle_bool (jitter_ms s) 0 then delay_ms else (delay_ms + jitter_ms s * u)%Q in
    Qmax (delay_ms / 1000) 0.

Record RetryDecision : Type := mkDecision {
  rd_action : string;
  rd_delay_seconds : Q;
  rd_reason : option string
}.

Record RetryPolicy : Type := mkPolicy {
  rp_default : RetrySettings;
  rp_per_flow : gmap string RetrySettings
}.

Definition settings_for (p : RetryPolicy) (flow_id : string) : RetrySettings :=
  default (rp_default p) (rp_per_flow p !! flow_id).

Definition forbidden_codes : list string := ["POLICY_FORBIDDEN"; "VALIDATION_FAILED"].

(** The first three returns of [decide], from the error alone. *)
Definition error_verdict (error : option mapping) : option RetryDecision :=
  match error with
  | None => None
  | Some m =>
      match jget "retryable" (items m) with
      | JBool false => Some (mkDecision "dlq" 0 (Some "non_retryable"))
      | _ =>
          match jget "error_code" (items m) with
          | JStr code =>
              if code ∈? forbidden_codes then Some (mkDecision "dlq" 0 (Some code)) else None
          | _ => None
          end
      end
  end.

Definition decide_retry (p : RetryPolicy) (flow_id : string) (attempt : Z)
    (error : option mapping) (u : Q) : RetryDecision :=
  match error_verdict error with
  | Some d => d
  | None =>
      let settings := settings_for p flow_id in
      if (Z.max 1 (max_attempts settings) <=? attempt)%Z then
        mkDecision "dlq" 0 (Some "max_attempts")
      else
        match dlq_after settings with
        | Some n =>
            if ((0 <=? n) && (n <=? attempt))%Z then mkDecision "dlq" 0 (Some "dlq_after")
            else mkDecision "retry" (next_delay settings attempt u) None
        | None => mkDecision "retry" (next_delay settings attempt u) None
        end
  end.

(** ** Properties *)

(** Settings as the configuration parser leaves them. *)
Record settings_ok (s : RetrySettings) : Prop := {
  so_attempts : (1 <= max_attempts s)%Z;
  so_base : (0 <= base_ms s)%Q;
  so_factor : (1 <= factor s)%Q;
  so_jitter : (0 <= jitter_ms s)%Q
}.

Lemma decide_retry_bound p flow attempt error u :
  rd_action (decide_retry p flow attempt error u) = "retry" →
  (attempt < Z.max 1 (max_attempts (settings_for p flow)))%Z.
Proof.
  unfold decide_retry, error_verdict.
  destruct (Z.leb_spec (Z.max 1 (max_attempts (settings_for p flow))) attempt) as [Hle|Hlt];
    [|done].
  repeat case_match; simplify_eq/=; done.
Qed.

Lemma decide_retry_action p flow attempt error u :
  rd_action (decide_retry p flow attempt error u) = "retry" ∨
  rd_action (decide_retry p flow attempt error u) = "dlq".
Proof. unfold decide_retry, error_verdict. repeat case_match; simplify_eq/=; auto. Qed.

Lemma factor_pow_le s n m :
  settings_ok s → (0 <= n <= m)%Z → (factor s ^ n <= factor s ^ m)%Q.
Proof. intros Hs Hnm. apply Qpower_le_compat_l; [lia|apply Hs]. Qed.

(** The exponential part of a delay, in milliseconds. *)
Definition backoff_ms (s : RetrySettings) (attempt : Z) : Q := (base_ms s * factor s ^ (attempt - 1))%Q.

Lemma backoff_nonneg s attempt : settings_ok s → (1 <= attempt)%Z → (0 <= backoff_ms s attempt)%Q.
Proof.
  intros Hs Ha. unfold backoff_ms. apply Qmult_le_0_compat; [apply Hs|].
  apply Qpower_pos. pose proof (so_factor s Hs). lra.
Qed.

Lemma backoff_mono s n m :
  settings_ok s → (1 <= n <= m)%Z → (backoff_ms s n <= backoff_ms s m)%Q.
Proof.
  intros Hs Hnm. unfold backoff_ms. rewrite !(Qmult_comm (base_ms s)).
  apply Qmult_le_compat_r; [|apply Hs]. apply factor_pow_le; [done|lia].
Qed.

Lemma next_delay_bounds s attempt u :
  settings_ok s → (0 <= u <= 1)%Q → (1 <= attempt)%Z →
  (backoff_ms s attempt / 1000 <= next_delay s attempt u <=
   (backoff_ms s attempt + jitter_ms s) / 1000)%Q.
Proof.
  intros Hs [Hu0 Hu1] Ha. pose proof (backoff_nonneg s attempt Hs Ha) as Hb.
  pose proof (so_jitter s Hs) as Hj. unfold next_delay.
  destruct (Z.leb_spec attempt 0); [lia|]. fold (backoff_ms s attempt).
  set (d := if Qle_bool (jitter_ms s) 0 then backoff_ms s attempt
            else (backoff_ms s attempt + jitter_ms s * u)%Q).
  assert (backoff_ms s attempt <= d <= backoff_ms s attempt + jitter_ms s)%Q as [Hd1 Hd2].
  { unfold d. destruct (Qle_bool (jitter_ms s) 0); [lra|].
    assert (0 <= jitter_ms s * u)%Q by (apply Qmult_le_0_compat; lra).
    assert (jitter_ms s * u <= jitter_ms s * 1)%Q.
    { rewrite !(Qmult_comm (jitter_ms s)). apply Qmult_le_compat_r; lra. }
    lra. }
  assert (0 <= / 1000)%Q by (apply Qinv_le_0_compat; lra).
  assert (backoff_ms s attempt / 1000 <= d / 1000)%Q by (by apply Qmult_le_compat_r).
  assert (0 <= d / 1000)%Q by (apply Qmult_le_0_compat; lra).
  rewrite Q.max_l by done. split; [done|]. by apply Qmult_le_compat_r.
Qed.

(** A failure the policy may retry. *)
Definition retryable (error : option mapping) : Prop := error_verdict error = None.

(** The retry policy: a failure is retried exactly when its error does not
    forbid it, fewer than [max_attempts] (at least one) attempts were made and
    the [dlq_after] limit is not reached; otherwise it goes to the dead letters
    with a reason.  The delay of a retry lies between the exponential backoff
    of the attempt and the same plus the jitter, and the backoff never
    decreases from one attempt to the next. *)
Theorem retry_decision_spec p flow attempt error u :
  let s := settings_for p flow in
  let d := decide_retry p flow attempt error u in
  settings_ok s → (0 <= u <= 1)%Q → (1 <= attempt)%Z →
  (rd_action d = "retry" ↔
     retryable error ∧ (attempt < Z.max 1 (max_attempts s))%Z ∧
     ∀ n, dlq_after s = Some n → (0 <= n)%Z → (attempt < n)%Z) ∧
  (rd_action d ≠ "retry" → rd_action d = "dlq" ∧ is_Some (rd_reason d)) ∧
  (rd_action d = "retry" →
     (backoff_ms s attempt / 1000 <= rd_delay_seconds d <=
      (backoff_ms s attempt + jitter_ms s) / 1000)%Q) ∧
  (backoff_ms s attempt <= backoff_ms s (attempt + 1))%Q.
Proof.
  intros s d Hs Hu Ha. pose proof (next_delay_bounds s attempt u Hs Hu Ha) as Hb.
  split; [|split; [|split; [|apply backoff_mono; [done|lia]]]];
    subst d; unfold decide_retry, retryable; destruct (error_verdict error) as [d|] eqn:Ev.
  - split; [|naive_solver]. unfold error_verdict in Ev. by repeat case_match; simplify_eq/=.
  - destruct (Z.leb_spec (Z.max 1 (max_attempts (settings_for p flow))) attempt) as [Hle|Hlt].
    { split; [done|]. unfold s. intros (_ & ? & _). lia. }
    unfold s. destruct (dlq_after (settings_for p flow)) as [n|]; [|naive_solver].
    destruct (Z.leb_spec 0 n), (Z.leb_spec n attempt); simpl; split; try done.
    + intros (_ & _ & Hn). specialize (Hn n eq_refl). lia.
    + intros _. split_and!; [done|done|]. intros m [= <-]. lia.
    + intros _. split_and!; [done|done|]. intros m [= <-]. lia.
    + intros _. split_and!; [done|done|]. intros m [= <-]. lia.
  - intros _. unfold error_verdict in Ev. by repeat case_match; simplify_eq/=; eauto.
  - repeat case_match; simpl; intros; try done; eauto.
  - intros E. unfold error_verdict in Ev. by repeat case_match; simplify_eq/=.
  - by repeat case_match; simplify_eq/=.
Qed.

Definition demo_policy : RetryPolicy := mkPolicy default_retry ∅.

Lemma retry_decision_spec_witness :
  rd_action (decide_retry demo_policy "f" 2 None (1 # 2)) = "retry" ∧
  rd_action (decide_retry demo_policy "f" 3 None (1 # 2)) ≠ "retry" ∧
  (backoff_ms default_retry 2 / 1000 <=
   rd_delay_seconds (decide_retry demo_policy "f" 2 None (1 # 2)))%Q.
Proof.
  assert (settings_ok default_retry) as Hs by (split; simpl; [lia|lra|lra|lra]).
  split_and!; [reflexivity|discriminate|].
  apply (retry_decision_spec demo_policy "f" 2 None (1 # 2)).
  - exact Hs.
  - split; unfold Qle; simpl; lia.
  - lia.
Defined.

(** ** Dead letters ([tm/runtime/dlq.py])

    The three directories of the store are finite maps from file names
    (without the suffix) to the JSON documents they hold.  [wall] is the
    reading of [time.time()] in microseconds, [pid] the process number. *)

From S2P Require Import Prelude PyVal PyConv Task.
From stdpp Require Import base gmap strings list pretty.
From Stdlib Require Import ZArith Lia Ascii.

Record DeadLetterRecord : Type := mkDLR {
  dl_entry_id : string;
  dl_flow_id : string;
  dl_task : mapping;
  dl_error : mapping;
  dl_attempt : Z;
  dl_timestamp : pyfloat;
  dl_state : string
}.

Record DeadLetterStore : Type := mkDLS {
  dls_pending : gmap string json;
  dls_requeued : gmap string json;
  dls_purged : gmap string json
}.

Definition dlq_new : DeadLetterStore := mkDLS ∅ ∅ ∅.

(** [f"{n:0{width}d}"] for a non-negative [n]. *)
Fixpoint zeros (n : nat) : string :=
  match n with O => "" | S n' => String "0"%char (zeros n') end.

Definition zero_pad (width : nat) (n : Z) : string :=
  let s := pretty n in zeros (width - String.length s) +:+ s.

Definition entry_id_of (wall pid : Z) : string :=
  "dlq-" +:+ zero_pad 13 (wall / 1000) +:+ "-" +:+ zero_pad 5 pid.

Definition dlq_document (r : DeadLetterRecord) (consumed_at : option Z) : json :=
  JObj ([("entry_id", JStr (dl_entry_id r)); ("flow_id", JStr (dl_flow_id r));
         ("task", JObj (items (dl_task r))); ("error", JObj (items (dl_error r)));
         ("attempt", JInt (dl_attempt r)); ("timestamp", JFloat (dl_timestamp r));
         ("state", JStr (dl_state r))] ++
        match consumed_at with Some t => [("consumed_at", JFloat (Fin t))] | None => [] end).

Definition dlq_append (s : DeadLetterStore) (flow_id : string) (task error : mapping) (attempt : Z)
    (wall pid : Z) : DeadLetterRecord * DeadLetterStore :=
  let entry_id := entry_id_of wall pid in
  let r := mkDLR entry_id flow_id task error attempt (Fin wall) "pending" in
  (r, mkDLS (<[entry_id := dlq_document r None]> (dls_pending s)) (dls_requeued s) (dls_purged s)).

Section reading.
Context `{PyText}.

(** [isinstance(value, int)] with the value. *)
Definition as_int (v : json) : option Z :=
  match v with JInt z => Some z | JBool b => Some (if b then 1 else 0)%Z | _ => None end.

(** [isinstance(value, (int, float))] and [float(value)]. *)
Definition as_number (v : json) : option (res pyfloat) :=
  match v with JInt _ | JBool _ | JFloat _ => Some (py_float v) | _ => None end.

(** [_load_path] on the document of a file; a huge integer timestamp raises. *)
Definition _load_path (doc : option json) : res (option DeadLetterRecord) :=
  match doc with
  | Some (JObj data) =>
      match jget "entry_id" data, jget "flow_id" data,
            jget "task" data, jget "error" data,
            as_int (jget "attempt" data), as_number (jget "timestamp" data) with
      | JStr entry_id, JStr flow_id, JObj task, JObj error, Some attempt, Some timestamp =>
          t ← timestamp;
          Ok (Some (mkDLR entry_id flow_id (Map task) (Map error) attempt t
                      (py_str other_str (default (JStr "pending") (alookup "state" data)))))
      | _, _, _, _, _, _ => Ok None
      end
  | _ => Ok None
  end.

Definition dlq_load (s : DeadLetterStore) (entry_id : string) : res (option DeadLetterRecord) :=
  _load_path (dls_pending s !! entry_id).

(** [list]: in the order of the file names. *)
Definition dlq_list (s : DeadLetterStore) : res (list DeadLetterRecord) :=
  l ← mapM (fun kd => _load_path (Some kd.2)) (sort_items (map_to_list (dls_pending s)));
  Ok (omap id (l : list (option DeadLetterRecord))).

Definition dlq_consume (s : DeadLetterStore) (entry_id state : string) (wall : Z)
  : res (option DeadLetterRecord * DeadLetterStore) :=
  r ← dlq_load s entry_id;
  match r with
  | None => Ok (None, s)
  | Some r =>
      let r' := mkDLR (dl_entry_id r) (dl_flow_id r) (dl_task r) (dl_error r) (dl_attempt r)
                  (dl_timestamp r) state in
      let doc := dlq_document r' (Some wall) in
      let pending := delete entry_id (dls_pending s) in
      Ok (Some r',
          if String.eqb state "requeued"
          then mkDLS pending (<[entry_id := doc]> (dls_requeued s)) (dls_purged s)
          else mkDLS pending (dls_requeued s) (<[entry_id := doc]> (dls_purged s)))
  end.

(** ** Properties *)

Lemma load_document r consumed : _load_path (Some (dlq_document r consumed)) = Ok (Some r).
Proof. destruct r as [i f [t] [e] a ts st], consumed; reflexivity. Qed.

(** Two failures in the same millisecond of the same process get one name. *)
Lemma entry_id_collides t t' pid :
  (t / 1000 = t' / 1000)%Z → entry_id_of t pid = entry_id_of t' pid.
Proof. unfold entry_id_of. by intros ->. Qed.

(** The archived document of an entry, in the directory of its state. *)
Definition archived (s : DeadLetterStore) (state entry_id : string) : option json :=
  if String.eqb state "requeued" then dls_requeued s !! entry_id else dls_purged s !! entry_id.

(** The life of a dead letter: what [append] stores is what [load] gives
    back; [consume] returns it with the new state, removes it from the pending
    entries and archives it in the directory of that state; consuming it again
    finds nothing; other entries are not touched. *)
Theorem dlq_lifecycle s flow task error attempt wall pid state wall' :
  let '(r, s1) := dlq_append s flow task error attempt wall pid in
  let eid := dl_entry_id r in
  dlq_load s1 eid = Ok (Some r) ∧
  ∃ r' s2, dlq_consume s1 eid state wall' = Ok (Some r', s2) ∧
    r' = mkDLR eid flow task error attempt (Fin wall) state ∧
    dlq_consume s2 eid state wall' = Ok (None, s2) ∧
    archived s2 state eid = Some (dlq_document r' (Some wall')) ∧
    ∀ other, other ≠ eid →
      dls_pending s2 !! other = dls_pending s !! other ∧
      archived s2 state other = archived s state other.
Proof.
  unfold dlq_append. cbn [dl_entry_id]. set (eid := entry_id_of wall pid).
  set (r := mkDLR eid flow task error attempt (Fin wall) "pending").
  assert (dlq_load (mkDLS (<[eid := dlq_document r None]> (dls_pending s)) (dls_requeued s)
            (dls_purged s)) eid = Ok (Some r)) as Hload.
  { unfold dlq_load. cbn [dls_pending]. rewrite lookup_insert_eq. apply load_document. }
  split; [exact Hload|].
  unfold dlq_consume at 1. rewrite Hload. cbn [mbind res_bind].
  eexists _, _. split; [reflexivity|]. split; [reflexivity|].
  split_and!.
  - unfold dlq_consume, dlq_load. destruct (String.eqb state "requeued"); cbn [dls_pending];
      by rewrite lookup_delete_eq.
  - unfold archived. destruct (String.eqb state "requeued"); simpl; by rewrite lookup_insert_eq.
  - intros other Hne. unfold archived. destruct (String.eqb state "requeued"); simpl;
      rewrite lookup_delete_ne, !lookup_insert_ne by congruence; done.
Qed.
End reading.

Example dlq_overwrites :
  let s1 := (dlq_append dlq_new "f" (Map [("task_id", JStr "a")]) empty_map 1 1700000000000100 7).2 in
  let s2 := (dlq_append s1 "f" (Map [("task_id", JStr "b")]) empty_map 1 1700000000000900 7).2 in
  size (dls_pending s2) = 1.
Proof. by vm_compute. Qed.
