(* ===== verification/QueueManager.v ===== *)
(** * The task queue manager and the worker's step
      ([tm/runtime/queue/manager.py], [tm/runtime/workers.py])

    Over any work queue.  Each operation takes one reading [now] of the
    clocks; [u] is the random draw of the retry delay, [pid] the process
    number dead letters are named after.  Metrics are kept as the list of
    calls made. *)

From S2P Require Import Prelude PyVal PyConv Task Idempotency Retry.
From stdpp Require Import base gmap strings list.
From Stdlib Require Import ZArith QArith Qround Lia.

Record ManagedLease : Type := mkLease {
  ml_offset : N;
  ml_token : string;
  ml_deadline : Z;
  ml_envelope : TaskEnvelope
}.

Record EnqueueOutcome : Type := mkOutcome {
  eo_queued : bool;
  eo_envelope : option TaskEnvelope;
  eo_cached_result : option IdempotencyResult
}.

(** Calls into [counters.metrics]. *)
Inductive QMetric : Type :=
| Inc (name : string) (labels : list (string * string))
| SetDepth (depth : N)
| SetLag (lag : pyfloat)
| SetInflight (n : Z)
| Observe (flow status : string).

Section manager.
Context {Qu : Type} `{WorkQueue Qu} {PT : PyText}.

Record TaskQueueManager : Type := mkMgr {
  qm_queue : Qu;
  qm_idempotency : IdempotencyStore;
  qm_dead_letters : option DeadLetterStore;
  qm_retry_policy : option RetryPolicy;
  qm_default_ttl : pyfloat;
  qm_pending_keys : gmap string string;
  qm_task_offsets : gmap string N;
  qm_inflight : Z;
  qm_metrics : list QMetric
}.

Definition with_queue (m : TaskQueueManager) (q : Qu) : TaskQueueManager :=
  mkMgr q (qm_idempotency m) (qm_dead_letters m) (qm_retry_policy m) (qm_default_ttl m)
    (qm_pending_keys m) (qm_task_offsets m) (qm_inflight m) (qm_metrics m).

Definition with_idempotency (m : TaskQueueManager) (s : IdempotencyStore) : TaskQueueManager :=
  mkMgr (qm_queue m) s (qm_dead_letters m) (qm_retry_policy m) (qm_default_ttl m)
    (qm_pending_keys m) (qm_task_offsets m) (qm_inflight m) (qm_metrics m).

Definition with_dead_letters (m : TaskQueueManager) (d : option DeadLetterStore)
  : TaskQueueManager :=
  mkMgr (qm_queue m) (qm_idempotency m) d (qm_retry_policy m) (qm_default_ttl m)
    (qm_pending_keys m) (qm_task_offsets m) (qm_inflight m) (qm_metrics m).

Definition with_keys (m : TaskQueueManager) (keys : gmap string string) : TaskQueueManager :=
  mkMgr (qm_queue m) (qm_idempotency m) (qm_dead_letters m) (qm_retry_policy m) (qm_default_ttl m)
    keys (qm_task_offsets m) (qm_inflight m) (qm_metrics m).

Definition with_offsets (m : TaskQueueManager) (offsets : gmap string N) (inflight : Z)
  : TaskQueueManager :=
  mkMgr (qm_queue m) (qm_idempotency m) (qm_dead_letters m) (qm_retry_policy m) (qm_default_ttl m)
    (qm_pending_keys m) offsets inflight (qm_metrics m).

Definition log_metrics (m : TaskQueueManager) (ms : list QMetric) : TaskQueueManager :=
  mkMgr (qm_queue m) (qm_idempotency m) (qm_dead_letters m) (qm_retry_policy m) (qm_default_ttl m)
    (qm_pending_keys m) (qm_task_offsets m) (qm_inflight m) (qm_metrics m ++ ms).

Definition count (m : TaskQueueManager) (name flow : string) : TaskQueueManager :=
  log_metrics m [Inc name [("flow", flow)]].

Definition _record_queue_metrics (m : TaskQueueManager) (now : Now) : TaskQueueManager :=
  let lag :=
    match wq_oldest_available_at (qm_queue m) with
    | Some oldest => fmax fzero (fsub (Fin (mono now)) oldest)
    | None => fzero
    end in
  log_metrics m [SetDepth (wq_pending_count (qm_queue m)); SetLag lag; SetInflight (qm_inflight m)].

Definition manager_new (q : Qu) (s : IdempotencyStore) (dead_letters : option DeadLetterStore)
    (policy : option RetryPolicy) (default_ttl : pyfloat) (now : Now) : TaskQueueManager :=
  _record_queue_metrics
    (mkMgr q s dead_letters policy (fmax default_ttl (of_int 60)) ∅ ∅ 0 []) now.

(** ** Bookkeeping *)

Definition _clear_pending (m : TaskQueueManager) (e : TaskEnvelope) : TaskQueueManager :=
  match idempotency_key e with
  | None => m
  | Some _ =>
      if bool_decide (qm_pending_keys m !! composite_key e = Some (task_id e))
      then with_keys m (delete (composite_key e) (qm_pending_keys m))
      else m
  end.

(** [dict.setdefault]. *)
Definition set_default_key (key v : string) (keys : gmap string string) : gmap string string :=
  match keys !! key with Some _ => keys | None => <[key := v]> keys end.

Definition _store_envelope (m : TaskQueueManager) (e : TaskEnvelope) (now : Now)
  : TaskQueueManager :=
  let '(offset, q) := wq_put (qm_queue m) (to_dict e) now in
  let m := with_queue m q in
  let m := with_offsets m (<[task_id e := offset]> (qm_task_offsets m)) (qm_inflight m) in
  let m :=
    match idempotency_key e with
    | None => m
    | Some _ => with_keys m (set_default_key (composite_key e) (task_id e) (qm_pending_keys m))
    end in
  _record_queue_metrics m now.

(** ** Enqueue *)

Definition enqueue (m : TaskQueueManager) (flow : string) (input headers trace : mapping)
    (uuid : string) (now : Now) : EnqueueOutcome * TaskQueueManager :=
  let envelope := task_new uuid (Fin (wall now)) flow input headers trace in
  let composite := composite_key envelope in
  let store m := (mkOutcome true (Some envelope) None,
                  count (_store_envelope m envelope now) "tm_queue_enqueued_total" flow) in
  match idempotency_key envelope with
  | None => store m
  | Some _ =>
      let '(cached, s) := idem_get (qm_idempotency m) composite (mono now) in
      let m := with_idempotency m s in
      match cached with
      | Some r => (mkOutcome false None (Some r), count m "tm_queue_idempo_hits_total" flow)
      | None =>
          match qm_pending_keys m !! composite with
          | Some _ => (mkOutcome false None None, m)
          | None =>
              store (with_keys m (<[composite := task_id envelope]> (qm_pending_keys m)))
          end
      end
  end.

(** ** Lease, acknowledge, give back *)

Fixpoint managed (now : Now) (ls : list LeasedTask) : res (list ManagedLease) :=
  match ls with
  | [] => Ok []
  | l :: ls' =>
      envelope ← from_dict (Fin (wall now)) (JObj (items (lt_task l)));
      rest ← managed now ls';
      Ok (mkLease (lt_offset l) (lt_token l) (lt_deadline l) envelope :: rest)
  end.

Definition mgr_lease (m : TaskQueueManager) (n lease_ms : Z) (now : Now)
  : res (list ManagedLease) * TaskQueueManager :=
  let '(leased, q) := wq_lease (qm_queue m) n lease_ms now in
  let m := with_queue m q in
  match managed now leased with
  | Raise e => (Raise e, m)
  | Ok [] => (Ok [], m)
  | Ok ls =>
      (Ok ls,
       _record_queue_metrics
         (with_offsets m (qm_task_offsets m) (qm_inflight m + Z.of_nat (length ls))) now)
  end.

(** The counters after a lease ends. *)
Definition lease_ended (m : TaskQueueManager) (l : ManagedLease) : TaskQueueManager :=
  with_offsets m (delete (task_id (ml_envelope l)) (qm_task_offsets m))
    (if (0 <? qm_inflight m)%Z then qm_inflight m - 1 else qm_inflight m).

Definition mgr_ack (m : TaskQueueManager) (l : ManagedLease) (clear_pending record_metrics : bool)
    (now : Now) : TaskQueueManager :=
  let m := with_queue m (wq_ack (qm_queue m) (ml_offset l) (ml_token l)) in
  let m := lease_ended m l in
  let m := if clear_pending then _clear_pending m (ml_envelope l) else m in
  let m := if record_metrics then count m "tm_queue_acked_total" (flow_id (ml_envelope l)) else m in
  _record_queue_metrics m now.

Definition mgr_nack (m : TaskQueueManager) (l : ManagedLease) (requeue : bool) (now : Now)
  : TaskQueueManager :=
  let m := with_queue m (wq_nack (qm_queue m) (ml_offset l) (ml_token l) requeue now) in
  let m := lease_ended m l in
  let m := if requeue then m else _clear_pending m (ml_envelope l) in
  let m := log_metrics m [Inc "tm_queue_nacked_total"
             [("flow", flow_id (ml_envelope l)); ("requeue", if requeue then "true" else "false")]] in
  _record_queue_metrics m now.

(** ** Results and failures *)

Definition record_result (m : TaskQueueManager) (e : TaskEnvelope) (r : IdempotencyResult)
    (ttl : option pyfloat) (now : Now) : TaskQueueManager :=
  let m := with_idempotency m
             (idem_remember (qm_idempotency m) (composite_key e) r
                (default (qm_default_ttl m) ttl) (mono now)) in
  _record_queue_metrics (_clear_pending m e) now.

(** Seconds as clock ticks. *)
Definition ticks_of (q : Q) : Z := Qfloor (q * inject_Z funit).

Definition record_retry (m : TaskQueueManager) (l : ManagedLease) (delay_seconds : Q) (now : Now)
  : TaskEnvelope * TaskQueueManager :=
  let m := mgr_ack m l false false now in
  let e := ml_envelope l in
  let scheduled_at := Fin (wall now + ticks_of (Qminmax.Qmax delay_seconds 0)) in
  let e' := with_retry e (te_attempt e + 1) scheduled_at in
  let m := _store_envelope m e' now in
  let m :=
    match idempotency_key e with
    | None => m
    | Some _ => with_keys m (<[composite_key e' := task_id e']> (qm_pending_keys m))
    end in
  (e', count (count m "tm_queue_redelivered_total" (flow_id e)) "tm_retries_total" (flow_id e)).

Definition record_dead_letter (m : TaskQueueManager) (l : ManagedLease) (error : mapping)
    (reason : string) (now : Now) (pid : Z) : TaskQueueManager :=
  let m := mgr_ack m l true false now in
  let e := ml_envelope l in
  let m :=
    match qm_dead_letters m with
    | None => m
    | Some d =>
        with_dead_letters m
          (Some (dlq_append d (flow_id e) (to_dict e)
                   (Map (dict_set "reason" (JStr reason) (items error)))
                   (te_attempt e + 1) (wall now) pid).2)
    end in
  log_metrics m [Inc "tm_dlq_total" [("flow", flow_id e); ("reason", reason)]].

Definition get_cached_result (m : TaskQueueManager) (e : TaskEnvelope) (now : Now)
  : option IdempotencyResult * TaskQueueManager :=
  let '(r, s) := idem_get (qm_idempotency m) (composite_key e) (mono now) in
  (r, with_idempotency m s).

Definition handle_failure (m : TaskQueueManager) (l : ManagedLease) (error : mapping)
    (now : Now) (pid : Z) (u : Q) : option RetryDecision * TaskQueueManager :=
  let attempt := (te_attempt (ml_envelope l) + 1)%Z in
  match qm_retry_policy m with
  | None => (None, record_dead_letter m l error "no_policy" now pid)
  | Some policy =>
      let d := decide_retry policy (flow_id (ml_envelope l)) attempt (Some error) u in
      if String.eqb (rd_action d) "retry" then
        (Some d, (record_retry m l (rd_delay_seconds d) now).2)
      else
        let reason :=
          match rd_reason d with
          | Some r => if String.eqb r "" then "max_attempts" else r
          | None => "max_attempts"
          end in
        (Some d, record_dead_letter m l error reason now pid)
  end.

(** ** The worker *)

(** [_serialize_result]. *)
Definition _serialize_result (result : mapping) : IdempotencyResult :=
  let status := py_str other_str (default (JStr "ok") (alookup "status" (items result))) in
  mkIR status result
    (if String.eqb status "ok" then None
     else Some (Map [("error_code", jget "error_code" (items result));
                     ("error_message", jget "error_message" (items result))])).

(** What [runtime.run] did: raised, or returned a value. *)
Inductive RunOutcome : Type :=
| Raised (text : string)
| Returned (value : json).

(** The error a failed run is reported with; [None] for a run that is [ok]. *)
Definition failure_of (o : RunOutcome) : option mapping :=
  match o with
  | Raised text =>
      Some (Map [("error_code", JStr "RUNTIME_EXCEPTION"); ("error_message", JStr text);
                 ("retryable", JBool true)])
  | Returned (JObj m) =>
      if bool_decide (jget "status" m = JStr "ok") then None
      else Some (Map [("error_code", jget "error_code" m);
                      ("error_message", jget "error_message" m);
                      ("retryable", default (JBool true) (alookup "retryable" m))])
  | Returned _ =>
      Some (Map [("error_code", JNull); ("error_message", JStr "task error");
                 ("retryable", JBool true)])
  end.

Definition observe (m : TaskQueueManager) (e : TaskEnvelope) (status : string) : TaskQueueManager :=
  log_metrics m [Observe (flow_id e) status].

(** [_process_lease], with the outcome [o] of the run it makes when no result
    is cached. *)
Definition _process_lease (m : TaskQueueManager) (l : ManagedLease) (o : RunOutcome)
    (now : Now) (pid : Z) (u : Q) : TaskQueueManager :=
  let e := ml_envelope l in
  let '(cached, m) := get_cached_result m e now in
  match cached with
  | Some _ => observe (mgr_ack m l true true now) e "cached"
  | None =>
      match failure_of o with
      | Some error => observe (handle_failure m l error now pid u).2 e "error"
      | None =>
          let m := mgr_ack m l true true now in
          let m :=
            match o with
            | Returned (JObj r) => record_result m e (_serialize_result (Map r)) None now
            | _ => m
            end in
          observe m e "ok"
      end
  end.
End manager.

Arguments TaskQueueManager : clear implicits.
