(* ===== verification/QueueSpec.v ===== *)
(** * Correctness of the task queue manager

    Proved against the work-queue interface: the pending keys are exactly the
    idempotency keys of the queued tasks, a failed task is either queued again
    or dead-lettered, and attempts are bounded. *)

From S2P Require Import Prelude PyVal PyConv Task Idempotency Retry QueueManager.
From S2P Require Import MemQueue.
From stdpp Require Import base gmap strings list fin_maps.
From Stdlib Require Import ZArith QArith Lia.

Lemma to_dict_inj e e' : to_dict e = to_dict e' → e = e'.
Proof.
  destruct e as [? ? [] [] ? ? []], e' as [? ? [] [] ? ? []]. unfold to_dict. simpl.
  intros [=]. by subst.
Qed.

Lemma composite_of_key e k : idempotency_key e = Some k → composite_key e = k.
Proof. unfold composite_key. by intros ->. Qed.

(** ** The tasks and the pending keys *)

Section core.
Context (limit : string → Z).

(** [tasks]: what the queue stores; [used]: the task ids given out. *)
Record core (used : gset string) (tasks : gmap N mapping) (keys : gmap string string) : Prop := {
  co_tasks off t : tasks !! off = Some t →
    ∃ e, t = to_dict e ∧ task_valid e ∧ task_id e ∈ used ∧
         (0 <= te_attempt e < limit (flow_id e))%Z;
  co_ids o1 o2 e1 e2 : tasks !! o1 = Some (to_dict e1) → tasks !! o2 = Some (to_dict e2) →
    task_id e1 = task_id e2 → o1 = o2;
  co_keys k id : keys !! k = Some id ↔
    ∃ off e, tasks !! off = Some (to_dict e) ∧ idempotency_key e = Some k ∧ task_id e = id
}.

Definition add_key (e : TaskEnvelope) (keys : gmap string string) : gmap string string :=
  match idempotency_key e with Some k => <[k := task_id e]> keys | None => keys end.

Definition drop_key (e : TaskEnvelope) (keys : gmap string string) : gmap string string :=
  match idempotency_key e with Some k => delete k keys | None => keys end.

Lemma core_key used tasks keys off e k :
  core used tasks keys → tasks !! off = Some (to_dict e) → idempotency_key e = Some k →
  keys !! k = Some (task_id e).
Proof. intros Hc He Hk. apply (co_keys _ _ _ Hc). eauto. Qed.

Lemma core_add used tasks keys off e :
  core used tasks keys → tasks !! off = None → task_valid e →
  (0 <= te_attempt e < limit (flow_id e))%Z →
  (∀ o e', tasks !! o = Some (to_dict e') → task_id e' ≠ task_id e) →
  (∀ k, idempotency_key e = Some k → keys !! k = None) →
  core ({[task_id e]} ∪ used) (<[off := to_dict e]> tasks) (add_key e keys).
Proof.
  intros Hc Hoff Hv Ha Hid Hkey. split.
  - intros o t [[<- <-]|[Hne H']]%lookup_insert_Some; [exists e; set_solver|].
    destruct (co_tasks _ _ _ Hc _ _ H') as (e' & ? & ? & ? & ?). exists e'. set_solver.
  - intros o1 o2 e1 e2 H1 H2 E.
    apply lookup_insert_Some in H1 as [[<- <-%to_dict_inj]|[Hn1 H1]];
    apply lookup_insert_Some in H2 as [[<- <-%to_dict_inj]|[Hn2 H2]].
    + done.
    + by destruct (Hid o2 e2 H2).
    + by destruct (Hid o1 e1 H1).
    + by eapply (co_ids _ _ _ Hc).
  - intros k id. split.
    + unfold add_key. destruct (idempotency_key e) as [k'|] eqn:Ek.
      * intros [[<- <-]|[Hne Hk]]%lookup_insert_Some.
        -- exists off, e. by rewrite lookup_insert_eq.
        -- apply (co_keys _ _ _ Hc) in Hk as (o & e' & He' & ? & ?). exists o, e'.
           rewrite lookup_insert_ne by congruence. done.
      * intros Hk. apply (co_keys _ _ _ Hc) in Hk as (o & e' & He' & ? & ?). exists o, e'.
        rewrite lookup_insert_ne by congruence. done.
    + intros (o & e' & He' & Hk & Hi).
      apply lookup_insert_Some in He' as [[<- <-%to_dict_inj]|[Hne He']].
      * unfold add_key. rewrite Hk. by rewrite lookup_insert_eq, Hi.
      * assert (keys !! k = Some id) as Hks by (apply (co_keys _ _ _ Hc); eauto).
        unfold add_key. destruct (idempotency_key e) as [k'|] eqn:Ek; [|done].
        rewrite lookup_insert_ne; [done|]. intros ->. rewrite (Hkey k eq_refl) in Hks. done.
Qed.

Lemma core_remove used tasks keys off e :
  core used tasks keys → tasks !! off = Some (to_dict e) →
  core used (delete off tasks) (drop_key e keys).
Proof.
  intros Hc He.
  assert (∀ o e' k, tasks !! o = Some (to_dict e') → idempotency_key e = Some k →
            idempotency_key e' = Some k → o = off) as Hsame.
  { intros o e' k He' Hk Hk'. eapply (co_ids _ _ _ Hc); [done|done|].
    pose proof (core_key _ _ _ _ _ _ Hc He Hk) as E1.
    pose proof (core_key _ _ _ _ _ _ Hc He' Hk') as E2. congruence. }
  split.
  - intros o t [_ H']%lookup_delete_Some. by eapply (co_tasks _ _ _ Hc).
  - intros o1 o2 e1 e2 [_ H1]%lookup_delete_Some [_ H2]%lookup_delete_Some.
    by eapply (co_ids _ _ _ Hc).
  - intros k id. unfold drop_key. split.
    + intros Hk. assert (keys !! k = Some id ∧ idempotency_key e ≠ Some k) as [Hk' Hne].
      { destruct (idempotency_key e) as [k'|]; [|done].
        apply lookup_delete_Some in Hk as [? ?]. split; congruence. }
      apply (co_keys _ _ _ Hc) in Hk' as (o & e' & He' & Hkey & Hi). exists o, e'.
      split_and!; [|done|done]. apply lookup_delete_Some. split; [|done]. intros <-.
      assert (to_dict e = to_dict e') as E%to_dict_inj by congruence. by subst.
    + intros (o & e' & [Hne He']%lookup_delete_Some & Hkey & Hi).
      assert (keys !! k = Some id) as Hk by (apply (co_keys _ _ _ Hc); eauto).
      destruct (idempotency_key e) as [k'|] eqn:Ek; [|done].
      apply lookup_delete_Some. split; [|done]. intros ->. apply Hne. symmetry.
      by eapply Hsame.
Qed.

Lemma core_weaken used used' tasks keys :
  used ⊆ used' → core used tasks keys → core used' tasks keys.
Proof.
  intros Hsub [H1 H2 H3]. split; [|done|done].
  intros off t Ht. destruct (H1 off t Ht) as (e & ? & ? & ? & ?). exists e. set_solver.
Qed.

(** Removing a task and storing its retry under the same id and key. *)
Lemma core_replace used tasks keys off off' e e' :
  core used tasks keys → tasks !! off = Some (to_dict e) → delete off tasks !! off' = None →
  task_id e' = task_id e → idempotency_key e' = idempotency_key e → task_valid e' →
  (0 <= te_attempt e' < limit (flow_id e'))%Z →
  core used (<[off' := to_dict e']> (delete off tasks)) keys.
Proof.
  intros Hc He Hoff Hid Hkey Hv Ha.
  assert (task_id e ∈ used) as Hin.
  { destruct (co_tasks _ _ _ Hc _ _ He) as (e1 & E%to_dict_inj & _ & ? & _). by subst. }
  pose proof (core_remove _ _ _ _ _ Hc He) as Hr.
  assert (add_key e' (drop_key e keys) = keys) as Ekeys.
  { unfold add_key, drop_key. rewrite Hkey, Hid. destruct (idempotency_key e) as [k|] eqn:Ek; [|done].
    rewrite insert_delete_id; [done|]. by eapply (core_key used tasks keys off e). }
  rewrite <- Ekeys. apply (core_weaken ({[task_id e']} ∪ used)); [rewrite Hid; apply union_least; [by apply singleton_subseteq_l|done]|].
  apply core_add; try done.
  - intros o e1 [Hne He1]%lookup_delete_Some E. apply Hne. symmetry.
    eapply (co_ids _ _ _ Hc); [exact He1|exact He|congruence].
  - intros k Hk. unfold drop_key. rewrite <- Hkey, Hk. apply lookup_delete_eq.
Qed.
End core.

(** ** The manager's operations *)

Section manager_spec.
Context {Qu : Type} {HQ : WorkQueue Qu} {HL : LawfulWorkQueue Qu} {PT : PyText}.
#[local] Abbreviation Mgr := (TaskQueueManager Qu).

Definition tasks_of (m : Mgr) : gmap N mapping := sl_task <$> wq_view (qm_queue m).

(** How many attempts a task of a flow may have behind it, plus one. *)
Definition attempt_limit (policy : option RetryPolicy) (flow : string) : Z :=
  match policy with Some p => Z.max 1 (max_attempts (settings_for p flow)) | None => 1 end.

Lemma attempt_limit_pos policy flow : (0 < attempt_limit policy flow)%Z.
Proof. unfold attempt_limit. destruct policy; lia. Qed.

Definition mgr_inv (used : gset string) (m : Mgr) : Prop :=
  wq_ok (qm_queue m) ∧
  core (attempt_limit (qm_retry_policy m)) used (tasks_of m) (qm_pending_keys m).

(** The lease is the current one of its task. *)
Definition live (m : Mgr) (l : ManagedLease) : Prop :=
  wq_view (qm_queue m) !! ml_offset l =
  Some (mkSlot (to_dict (ml_envelope l)) (Some (ml_token l))).

Lemma live_task (m : Mgr) l : live m l → tasks_of m !! ml_offset l = Some (to_dict (ml_envelope l)).
Proof. unfold live, tasks_of. intros Hl. by rewrite lookup_fmap, Hl. Qed.

Lemma mgr_inv_core used (m m' : Mgr) :
  mgr_inv used m → qm_queue m' = qm_queue m → qm_retry_policy m' = qm_retry_policy m →
  qm_pending_keys m' = qm_pending_keys m → mgr_inv used m'.
Proof. unfold mgr_inv, tasks_of. by intros ? -> -> ->. Qed.

(** Clearing the pending key of a task the queue holds drops its key. *)
Lemma clear_pending_keys (m : Mgr) e :
  (∀ k, idempotency_key e = Some k → qm_pending_keys m !! k = Some (task_id e)) →
  qm_pending_keys (_clear_pending m e) = drop_key e (qm_pending_keys m).
Proof.
  intros Hk. unfold _clear_pending, drop_key. destruct (idempotency_key e) as [k|] eqn:E; [|done].
  rewrite (composite_of_key _ _ E), bool_decide_eq_true_2 by (by apply Hk). done.
Qed.

Lemma clear_pending_rest (m : Mgr) e :
  qm_queue (_clear_pending m e) = qm_queue m ∧
  qm_retry_policy (_clear_pending m e) = qm_retry_policy m ∧
  qm_dead_letters (_clear_pending m e) = qm_dead_letters m.
Proof. unfold _clear_pending. destruct (idempotency_key e); [|done]. by case_bool_decide. Qed.

(** Clearing the pending key of a task the queue does not hold. *)
Lemma clear_pending_noop (m : Mgr) e :
  (∀ k, qm_pending_keys m !! k ≠ Some (task_id e)) → _clear_pending m e = m.
Proof.
  intros Hk. unfold _clear_pending. destruct (idempotency_key e); [|done].
  rewrite bool_decide_eq_false_2; [done|]. apply Hk.
Qed.

Lemma ack_view (m : Mgr) l :
  wq_ok (qm_queue m) → live m l →
  wq_ok (wq_ack (qm_queue m) (ml_offset l) (ml_token l)) ∧
  wq_view (wq_ack (qm_queue m) (ml_offset l) (ml_token l)) =
  delete (ml_offset l) (wq_view (qm_queue m)).
Proof.
  intros Hok Hl. destruct (wq_ack_law (qm_queue m) (ml_offset l) (ml_token l) Hok) as [H1 H2].
  split; [done|]. by rewrite H2, Hl, String.eqb_refl.
Qed.

(** What an acknowledgement changes. *)
Lemma mgr_ack_fields (m : Mgr) l clear metrics now :
  qm_queue (mgr_ack m l clear metrics now) = wq_ack (qm_queue m) (ml_offset l) (ml_token l) ∧
  qm_retry_policy (mgr_ack m l clear metrics now) = qm_retry_policy m ∧
  qm_dead_letters (mgr_ack m l clear metrics now) = qm_dead_letters m ∧
  qm_pending_keys (mgr_ack m l clear metrics now) =
    if clear then qm_pending_keys (_clear_pending m (ml_envelope l)) else qm_pending_keys m.
Proof.
  unfold mgr_ack. destruct clear, metrics; simpl; try done;
    unfold _clear_pending; simpl; destruct (idempotency_key (ml_envelope l)); simpl; try done;
    by case_bool_decide.
Qed.

Lemma ack_removes used (m : Mgr) l clear metrics now :
  mgr_inv used m → live m l →
  let m' := mgr_ack m l clear metrics now in
  wq_ok (qm_queue m') ∧ qm_retry_policy m' = qm_retry_policy m ∧
  qm_dead_letters m' = qm_dead_letters m ∧
  wq_view (qm_queue m') = delete (ml_offset l) (wq_view (qm_queue m)) ∧
  qm_pending_keys m' =
    if clear then drop_key (ml_envelope l) (qm_pending_keys m) else qm_pending_keys m.
Proof.
  intros [Hok Hc] Hl m'. destruct (mgr_ack_fields m l clear metrics now) as (Eq & Ep & Ed & Ek).
  destruct (ack_view m l Hok Hl) as [Hok' Hv]. subst m'. rewrite Eq, Ep, Ed, Ek.
  split_and!; try done. destruct clear; [|done].
  apply clear_pending_keys. intros k Hk. eapply core_key; [exact Hc|by apply live_task|done].
Qed.

Lemma tasks_delete (m m' : Mgr) off :
  wq_view (qm_queue m') = delete off (wq_view (qm_queue m)) →
  tasks_of m' = delete off (tasks_of m).
Proof. unfold tasks_of. intros ->. apply fmap_delete. Qed.

Lemma mgr_ack_inv used (m : Mgr) l metrics now :
  mgr_inv used m → live m l → mgr_inv used (mgr_ack m l true metrics now).
Proof.
  intros Hi Hl. destruct (ack_removes used m l true metrics now Hi Hl) as (Hok & Ep & _ & Hv & Ek).
  split; [done|]. rewrite Ep, Ek, (tasks_delete m _ _ Hv).
  apply core_remove; [apply Hi|by apply live_task].
Qed.

(** *** Storing an envelope *)

Lemma store_envelope_spec (m : Mgr) e now :
  wq_ok (qm_queue m) →
  let m' := _store_envelope m e now in
  wq_ok (qm_queue m') ∧ qm_retry_policy m' = qm_retry_policy m ∧
  qm_dead_letters m' = qm_dead_letters m ∧
  (∃ off, wq_view (qm_queue m) !! off = None ∧
     wq_view (qm_queue m') = <[off := mkSlot (to_dict e) None]> (wq_view (qm_queue m))) ∧
  qm_pending_keys m' =
    match idempotency_key e with
    | Some k => set_default_key k (task_id e) (qm_pending_keys m)
    | None => qm_pending_keys m
    end.
Proof.
  intros Hok. unfold _store_envelope. pose proof (wq_put_law (qm_queue m) (to_dict e) now Hok) as Hp.
  destruct (wq_put (qm_queue m) (to_dict e) now) as [off q]. destruct Hp as (Hok' & Hn & Hv).
  destruct (idempotency_key e) as [k|] eqn:E; simpl.
  - rewrite (composite_of_key _ _ E). split_and!; try done. eauto.
  - split_and!; try done. eauto.
Qed.

Lemma tasks_insert (m m' : Mgr) off t :
  wq_view (qm_queue m') = <[off := mkSlot t None]> (wq_view (qm_queue m)) →
  tasks_of m' = <[off := t]> (tasks_of m).
Proof. unfold tasks_of. intros ->. apply fmap_insert. Qed.

Lemma tasks_none (m : Mgr) off : wq_view (qm_queue m) !! off = None ↔ tasks_of m !! off = None.
Proof. unfold tasks_of. by rewrite lookup_fmap, fmap_None. Qed.

Lemma set_default_add k v keys :
  keys !! k = None ∨ keys !! k = Some v → set_default_key k v keys = <[k := v]> keys.
Proof.
  unfold set_default_key. intros [->|E]; [done|]. rewrite E. symmetry. by apply insert_id.
Qed.

(** *** Enqueue *)

(** A new task is stored, under a key that was free. *)
Lemma store_new_inv used (m : Mgr) e now :
  mgr_inv used m → task_id e ∉ used → task_valid e → te_attempt e = 0%Z →
  (∀ k, idempotency_key e = Some k → qm_pending_keys m !! k = None) →
  mgr_inv ({[task_id e]} ∪ used) (_store_envelope m e now) ∧
  ∃ off, tasks_of m !! off = None ∧
         tasks_of (_store_envelope m e now) = <[off := to_dict e]> (tasks_of m).
Proof.
  intros [Hok Hc] Hid Hv Ha Hk.
  destruct (store_envelope_spec m e now Hok) as (Hok' & Ep & _ & (off & Hn & Hview) & Ek).
  apply tasks_none in Hn. apply tasks_insert in Hview. split; [|by exists off].
  split; [done|]. rewrite Ep, Hview.
  assert (qm_pending_keys (_store_envelope m e now) = add_key e (qm_pending_keys m)) as ->.
  { rewrite Ek. unfold add_key. destruct (idempotency_key e) as [k|]; [|done].
    apply set_default_add. left. by apply Hk. }
  apply core_add; try done.
  - rewrite Ha. pose proof (attempt_limit_pos (qm_retry_policy m) (flow_id e)). lia.
  - intros o e' He' E. apply Hid. destruct (co_tasks _ _ _ _ Hc _ _ He') as (e1 & E1%to_dict_inj & _ & ? & _).
    subst. by rewrite <- E.
Qed.

(** As [enqueue] does it: the key is claimed first. *)
Lemma store_claimed (m : Mgr) e k now :
  idempotency_key e = Some k → qm_pending_keys m !! k = None →
  let m1 := with_keys m (<[k := task_id e]> (qm_pending_keys m)) in
  qm_queue (_store_envelope m1 e now) = qm_queue (_store_envelope m e now) ∧
  qm_retry_policy (_store_envelope m1 e now) = qm_retry_policy (_store_envelope m e now) ∧
  qm_pending_keys (_store_envelope m1 e now) = qm_pending_keys (_store_envelope m e now).
Proof.
  intros Ek Hk. unfold _store_envelope. simpl.
  destruct (wq_put (qm_queue m) (to_dict e) now) as [off q]. rewrite Ek. simpl.
  rewrite (composite_of_key _ _ Ek). split_and!; [done|done|].
  unfold set_default_key at 1. rewrite lookup_insert_eq.
  symmetry. apply set_default_add. by left.
Qed.

Lemma enqueue_spec used (m : Mgr) flow input headers trace uuid now :
  mgr_inv used m → uuid ∉ used → uuid ≠ "" → flow ≠ "" →
  let e := task_new uuid (Fin (wall now)) flow input headers trace in
  let '(o, m') := enqueue m flow input headers trace uuid now in
  mgr_inv ({[uuid]} ∪ used) m' ∧
  (eo_queued o = true ↔
     ∀ k, idempotency_key e = Some k →
       qm_pending_keys m !! k = None ∧ (idem_get (qm_idempotency m) k (mono now)).1 = None) ∧
  (eo_queued o = true → ∃ off, tasks_of m !! off = None ∧
     tasks_of m' = <[off := to_dict e]> (tasks_of m)) ∧
  (eo_queued o = false → tasks_of m' = tasks_of m).
Proof.
  intros Hi Hu Hun Hfn e. assert (task_valid e) as Hv by (by apply task_new_valid).
  unfold enqueue. fold e. destruct (idempotency_key e) as [k|] eqn:Ek.
  - rewrite (composite_of_key _ _ Ek).
    destruct (idem_get (qm_idempotency m) k (mono now)) as [[r|] s] eqn:Eg.
    + split_and!; simpl; [|split; [done|]|done|done].
      * eapply mgr_inv_core; [|done|done|done]. destruct Hi as [Hok Hc]. split; [done|].
        eapply core_weaken; [|done]. set_solver.
      * intros Hall. destruct (Hall k eq_refl) as [_ ?]. rewrite Eg in *. done.
    + simpl. destruct (qm_pending_keys m !! k) as [id|] eqn:Epk.
      * split_and!; simpl; [|split; [done|]|done|done].
        -- destruct Hi as [Hok Hc]. split; [done|]. eapply core_weaken; [|done]. set_solver.
        -- intros Hall. destruct (Hall k eq_refl) as [? _]. congruence.
      * set (m1 := with_idempotency m s).
        assert (mgr_inv used m1) as Hi1 by (by eapply mgr_inv_core).
        destruct (store_new_inv used m1 e now Hi1) as [Hi2 (off & Hn & Ht)]; try done.
        { intros k' [= <-]%(eq_trans (eq_sym Ek)). done. }
        destruct (store_claimed m1 e k now Ek Epk) as (E1 & E2 & E3).
        split_and!; simpl; [|split; [|done]| |done].
        -- eapply mgr_inv_core; [exact Hi2|exact E1|exact E2|exact E3].
        -- intros _ k' [= <-]. by rewrite Eg.
        -- intros _. exists off. split; [exact Hn|].
           change (tasks_of m) with (tasks_of m1). rewrite <- Ht. unfold tasks_of.
           f_equal. f_equal. exact E1.
  - destruct (store_new_inv used m e now Hi) as [Hi2 (off & Hn & Ht)]; try done.
    { by rewrite Ek. }
    split_and!; simpl; [|split; [done|done]| |done].
    + by eapply mgr_inv_core.
    + intros _. exists off. split; [exact Hn|]. exact Ht.
Qed.

(** *** Failures *)

Definition retry_envelope (l : ManagedLease) (delay : Q) (now : Now) : TaskEnvelope :=
  with_retry (ml_envelope l) (te_attempt (ml_envelope l) + 1)
    (Fin (wall now + ticks_of (Qminmax.Qmax delay 0))).

Lemma record_retry_spec used (m : Mgr) l delay now :
  mgr_inv used m → live m l →
  (te_attempt (ml_envelope l) + 1 <
     attempt_limit (qm_retry_policy m) (flow_id (ml_envelope l)))%Z →
  let m' := (record_retry m l delay now).2 in
  mgr_inv used m' ∧ qm_retry_policy m' = qm_retry_policy m ∧
  qm_dead_letters m' = qm_dead_letters m ∧ qm_pending_keys m' = qm_pending_keys m ∧
  ∃ off, delete (ml_offset l) (tasks_of m) !! off = None ∧
    tasks_of m' = <[off := to_dict (retry_envelope l delay now)]> (delete (ml_offset l) (tasks_of m)).
Proof.
  intros Hi Hl Hlt m'.
  destruct (ack_removes used m l false false now Hi Hl) as (Hok1 & Ep1 & Ed1 & Hv1 & Ek1).
  unfold m', record_retry. cbv zeta. fold (retry_envelope l delay now).
  set (m1 := mgr_ack m l false false now) in *. set (e := ml_envelope l) in *.
  set (e' := retry_envelope l delay now) in *.
  destruct (store_envelope_spec m1 e' now Hok1) as (Hok2 & Ep2 & Ed2 & (off & Hn & Hv2) & Ek2).
  set (m2 := _store_envelope m1 e' now) in *. cbn match in Ek1.
  assert (idempotency_key e' = idempotency_key e) as Ekey by done. rewrite Ekey in Ek2.
  pose proof Hi as [_ Hc]. pose proof (live_task m l Hl) as Ht. fold e in Ht.
  apply tasks_delete in Hv1. apply tasks_none in Hn. apply tasks_insert in Hv2.
  rewrite Hv1 in Hn, Hv2.
  assert (qm_pending_keys m2 = qm_pending_keys m) as Ek.
  { rewrite Ek2, Ek1. destruct (idempotency_key e) as [k|] eqn:E; [|done].
    unfold set_default_key. by rewrite (core_key _ _ _ _ _ _ _ Hc Ht E). }
  assert (∀ k, idempotency_key e = Some k →
            <[composite_key e' := task_id e']> (qm_pending_keys m2) = qm_pending_keys m) as Eins.
  { intros k E. rewrite Ek. apply insert_id. rewrite (composite_of_key e' k) by (by rewrite Ekey).
    exact (core_key _ _ _ _ _ _ _ Hc Ht E). }
  match goal with |- mgr_inv _ ?x ∧ _ => set (mf := x) end.
  assert (qm_queue mf = qm_queue m2 ∧ qm_retry_policy mf = qm_retry_policy m2 ∧
          qm_dead_letters mf = qm_dead_letters m2) as (Fq & Fp & Fd)
    by (unfold mf; by destruct (idempotency_key e)).
  assert (qm_pending_keys mf = qm_pending_keys m) as Fk.
  { unfold mf. destruct (idempotency_key e) as [k|] eqn:E; [exact (Eins k eq_refl)|exact Ek]. }
  assert (tasks_of mf = tasks_of m2) as Ft by (unfold tasks_of; by rewrite Fq).
  split_and!; [|congruence|congruence|done|exists off; by rewrite Ft].
  split; [by rewrite Fq|]. rewrite Fp, Ep2, Ep1, Fk, Ft, Hv2.
  destruct (co_tasks _ _ _ _ Hc _ _ Ht) as (e1 & E1%to_dict_inj & Hval & _ & Hatt). subst e1.
  apply core_replace with e; try done. simpl. fold e. lia.
Qed.

Lemma record_dead_letter_spec used (m : Mgr) l error reason now pid :
  mgr_inv used m → live m l →
  let m' := record_dead_letter m l error reason now pid in
  mgr_inv used m' ∧ qm_retry_policy m' = qm_retry_policy m ∧
  tasks_of m' = delete (ml_offset l) (tasks_of m) ∧
  qm_dead_letters m' =
    (fun d => (dlq_append d (flow_id (ml_envelope l)) (to_dict (ml_envelope l))
                 (Map (dict_set "reason" (JStr reason) (items error)))
                 (te_attempt (ml_envelope l) + 1) (wall now) pid).2) <$> qm_dead_letters m.
Proof.
  intros Hi Hl m'. pose proof (mgr_ack_inv used m l false now Hi Hl) as Hi1.
  destruct (ack_removes used m l true false now Hi Hl) as (_ & Ep & Ed & Hv & _).
  apply tasks_delete in Hv. unfold m', record_dead_letter.
  set (m1 := mgr_ack m l true false now) in *. rewrite Ed.
  destruct (qm_dead_letters m) as [d|] eqn:E; simpl; split_and!; try done;
    by eapply mgr_inv_core.
Qed.

(** *** Leases *)

Lemma managed_ok (tasks : gmap N mapping) now ls :
  (∀ l, l ∈ ls → ∃ e, lt_task l = to_dict e ∧ task_valid e) →
  ∃ ms, managed now ls = Ok ms ∧
    Forall2 (fun l m => ml_offset m = lt_offset l ∧ ml_token m = lt_token l ∧
                        to_dict (ml_envelope m) = lt_task l) ls ms.
Proof.
  induction ls as [|l ls IH]; intros Hall; [by exists []|].
  destruct (Hall l) as (e & He & Hv); [left|].
  destruct IH as (ms & Hms & Hf); [intros l' Hin; apply Hall; by right|].
  eexists. simpl. rewrite He, from_to_dict, Hms by done. simpl. split; [done|].
  constructor; [|done]. by rewrite He.
Qed.

(** The manager's lease never fails; what it returns is live. *)
Lemma mgr_lease_spec used (m : Mgr) n ms now :
  mgr_inv used m →
  let '(r, m') := mgr_lease m n ms now in
  mgr_inv used m' ∧ tasks_of m' = tasks_of m ∧
  ∃ ls, r = Ok ls ∧ NoDup (ml_offset <$> ls) ∧ ∀ l, l ∈ ls → live m' l.
Proof.
  intros [Hok Hc]. unfold mgr_lease. pose proof (wq_lease_law (qm_queue m) n ms now Hok) as Hl.
  destruct (wq_lease (qm_queue m) n ms now) as [leased q].
  destruct Hl as (Hok' & Htasks & Hnd & Hlive & _).
  destruct (managed_ok (tasks_of m) now leased) as (ls & Hls & Hf).
  { intros l Hin. apply Hlive in Hin.
    assert (tasks_of m !! lt_offset l = Some (lt_task l)) as Ht
      by (unfold tasks_of; by rewrite <- Htasks, lookup_fmap, Hin).
    destruct (co_tasks _ _ _ _ Hc _ _ Ht) as (e & ? & ? & _). eauto. }
  assert (ml_offset <$> ls = lt_offset <$> leased) as Eo.
  { clear -Hf. induction Hf as [|l m ls ms (E & _) _ IH]; [done|]. by rewrite !fmap_cons, IH, E. }
  assert (∀ l, l ∈ ls → wq_view q !! ml_offset l =
            Some (mkSlot (to_dict (ml_envelope l)) (Some (ml_token l)))) as Hall.
  { intros l (i & Hi)%list_elem_of_lookup.
    destruct (Forall2_lookup_r _ _ _ _ _ Hf Hi) as (l0 & Hl0 & -> & -> & ->).
    apply Hlive. by eapply list_elem_of_lookup_2. }
  assert (mgr_inv used (with_queue m q)) as Hi'.
  { split; [done|]. unfold tasks_of. simpl. by rewrite Htasks. }
  rewrite Hls. destruct ls as [|l0 ls0].
  - split_and!; [done|exact Htasks|]. exists []. split_and!; [done|constructor|set_solver].
  - split_and!; [by eapply mgr_inv_core|exact Htasks|].
    eexists. split_and!; [done|rewrite Eo; done|exact Hall].
Qed.

Lemma mgr_nack_inv used (m : Mgr) l requeue now :
  mgr_inv used m → live m l → mgr_inv used (mgr_nack m l requeue now).
Proof.
  intros Hi Hl. pose proof Hi as [Hok Hc].
  destruct (wq_nack_law (qm_queue m) (ml_offset l) (ml_token l) requeue now Hok) as [Hok' Hv].
  rewrite Hl, String.eqb_refl in Hv. unfold mgr_nack.
  set (m1 := lease_ended (with_queue m (wq_nack (qm_queue m) (ml_offset l) (ml_token l) requeue now)) l).
  destruct requeue.
  - apply (mgr_inv_core _ m1); try done. split; [done|]. unfold tasks_of. simpl. rewrite Hv, fmap_insert.
    simpl. rewrite insert_id; [done|]. by apply live_task.
  - destruct (clear_pending_rest m1 (ml_envelope l)) as (Eq & Ep & _).
    apply (mgr_inv_core _ (_clear_pending m1 (ml_envelope l))); try done.
    split; [by rewrite Eq|]. rewrite Ep, clear_pending_keys; [|].
    + unfold tasks_of. rewrite Eq. simpl. rewrite Hv, fmap_delete.
      apply core_remove; [done|by apply live_task].
    + intros k Hk. simpl. eapply core_key; [exact Hc|by apply live_task|done].
Qed.

Definition queued_id (m : Mgr) (id : string) : Prop :=
  ∃ off e, tasks_of m !! off = Some (to_dict e) ∧ task_id e = id.

Lemma record_result_inv used (m : Mgr) e r ttl now :
  mgr_inv used m → ¬ queued_id m (task_id e) → mgr_inv used (record_result m e r ttl now).
Proof.
  intros Hi Hno. unfold record_result. rewrite clear_pending_noop; [by eapply mgr_inv_core|].
  intros k Hk. simpl in Hk. apply (co_keys _ _ _ _ (proj2 Hi)) in Hk as (off & e' & He' & _ & Hid).
  apply Hno. by exists off, e'.
Qed.

(** Handling a failure: the task is queued again, or it is dead-lettered. *)
Lemma handle_failure_spec used (m : Mgr) l error now pid u :
  mgr_inv used m → live m l →
  let '(d, m') := handle_failure m l error now pid u in
  let retried := match d with Some d => String.eqb (rd_action d) "retry" | None => false end in
  mgr_inv used m' ∧ qm_retry_policy m' = qm_retry_policy m ∧
  if retried then
    qm_dead_letters m' = qm_dead_letters m ∧
    ∃ off delay, delete (ml_offset l) (tasks_of m) !! off = None ∧
      tasks_of m' =
      <[off := to_dict (retry_envelope l delay now)]> (delete (ml_offset l) (tasks_of m))
  else
    tasks_of m' = delete (ml_offset l) (tasks_of m) ∧
    ∀ dls, qm_dead_letters m = Some dls → ∃ reason,
      qm_dead_letters m' =
      Some (dlq_append dls (flow_id (ml_envelope l)) (to_dict (ml_envelope l))
              (Map (dict_set "reason" (JStr reason) (items error)))
              (te_attempt (ml_envelope l) + 1) (wall now) pid).2.
Proof.
  intros Hi Hl. unfold handle_failure.
  assert (∀ reason, let m' := record_dead_letter m l error reason now pid in
    mgr_inv used m' ∧ qm_retry_policy m' = qm_retry_policy m ∧
    tasks_of m' = delete (ml_offset l) (tasks_of m) ∧
    ∀ dls, qm_dead_letters m = Some dls → ∃ reason,
      qm_dead_letters m' =
      Some (dlq_append dls (flow_id (ml_envelope l)) (to_dict (ml_envelope l))
              (Map (dict_set "reason" (JStr reason) (items error)))
              (te_attempt (ml_envelope l) + 1) (wall now) pid).2) as Hdead.
  { intros reason. destruct (record_dead_letter_spec used m l error reason now pid Hi Hl)
      as (H1 & H2 & H3 & H4). split_and!; [done|done|done|].
    intros dls E. exists reason. rewrite H4, E. done. }
  destruct (qm_retry_policy m) as [p|] eqn:Ep; [|exact (Hdead "no_policy")].
  destruct (String.eqb_spec (rd_action (decide_retry p (flow_id (ml_envelope l))
    (te_attempt (ml_envelope l) + 1) (Some error) u)) "retry") as [E|E].
  - cbn beta iota zeta. rewrite E. cbn match. rewrite <- Ep.
    match goal with |- context [record_retry m l ?d now] =>
      destruct (record_retry_spec used m l d now Hi Hl) as (H1 & H2 & H3 & _ & off & H5 & H6) end.
    { rewrite Ep. simpl. by apply decide_retry_bound in E. }
    rewrite String.eqb_refl. split_and!; [done|done|done|]. eauto.
  - cbn beta iota zeta. apply String.eqb_neq in E. rewrite E. apply Hdead.
Qed.

(** ** Reachable managers

    One client that completes only leases that are still its own, and records
    a result after it acknowledged the task. *)
Inductive mgr_step : gset string → Mgr → gset string → Mgr → Prop :=
| ms_enqueue used m flow input headers trace uuid now :
    uuid ∉ used → uuid ≠ "" → flow ≠ "" →
    mgr_step used m ({[uuid]} ∪ used) (enqueue m flow input headers trace uuid now).2
| ms_lease used m n ms now : mgr_step used m used (mgr_lease m n ms now).2
| ms_ack used m l metrics now :
    live m l → mgr_step used m used (mgr_ack m l true metrics now)
| ms_nack used m l requeue now : live m l → mgr_step used m used (mgr_nack m l requeue now)
| ms_failure used m l error now pid u :
    live m l → mgr_step used m used (handle_failure m l error now pid u).2
| ms_result used m e r ttl now :
    ¬ queued_id m (task_id e) → mgr_step used m used (record_result m e r ttl now)
| ms_cached used m e now : mgr_step used m used (get_cached_result m e now).2
| ms_observe used m e status : mgr_step used m used (observe m e status).

Inductive mgr_reachable : gset string → Mgr → Prop :=
| mr_new q s dead policy ttl now :
    wq_ok q → wq_view q = ∅ → mgr_reachable ∅ (manager_new q s dead policy ttl now)
| mr_step used m used' m' :
    mgr_reachable used m → mgr_step used m used' m' → mgr_reachable used' m'.

Lemma mgr_step_inv used m used' m' : mgr_step used m used' m' → mgr_inv used m → mgr_inv used' m'.
Proof.
  intros Hs Hi.
  destruct Hs as [used m flow i h tr uuid now Hu Hun Hf|used m n ms now|used m l metrics now Hl
    |used m l requeue now Hl|used m l error now pid u Hl|used m e r ttl now Hno|used m e now|used m e st].
  - pose proof (enqueue_spec used m flow i h tr uuid now Hi Hu Hun Hf) as He.
    destruct (enqueue m flow i h tr uuid now) as [o m']. apply He.
  - pose proof (mgr_lease_spec used m n ms now Hi) as Hl.
    destruct (mgr_lease m n ms now) as [r m']. apply Hl.
  - by apply mgr_ack_inv.
  - by apply mgr_nack_inv.
  - pose proof (handle_failure_spec used m l error now pid u Hi Hl) as Hh.
    destruct (handle_failure m l error now pid u) as [d m']. apply Hh.
  - by apply record_result_inv.
  - unfold get_cached_result. destruct (idem_get _ _ _) as [r s]. by eapply mgr_inv_core.
  - by eapply mgr_inv_core.
Qed.

Lemma mgr_reachable_inv used m : mgr_reachable used m → mgr_inv used m.
Proof.
  induction 1 as [q s dead policy ttl now Hok Hv|used m used' m' _ IH Hs]; [|by eapply mgr_step_inv].
  split; [done|]. unfold tasks_of. simpl. rewrite Hv, fmap_empty. split.
  - intros off t. by rewrite lookup_empty.
  - intros o1 o2 e1 e2. by rewrite lookup_empty.
  - intros k id. rewrite lookup_empty. split; [done|]. intros (off & e & He & _).
    by rewrite lookup_empty in He.
Qed.

(** The worker only makes such steps. *)
Lemma process_lease_reachable used (m : Mgr) l o now pid u :
  mgr_reachable used m → live m l → mgr_reachable used (_process_lease m l o now pid u).
Proof.
  intros Hr Hl. unfold _process_lease.
  pose proof (mr_step _ _ _ _ Hr (ms_cached used m (ml_envelope l) now)) as Hr1.
  assert (live (get_cached_result m (ml_envelope l) now).2 l) as Hl1.
  { unfold get_cached_result. by destruct (idem_get _ _ _). }
  destruct (get_cached_result m (ml_envelope l) now) as [[r|] m1]; simpl in Hr1, Hl1.
  - eapply mr_step; [|apply ms_observe]. eapply mr_step; [exact Hr1|]. by apply ms_ack.
  - destruct (failure_of o) as [error|].
    + eapply mr_step; [|apply ms_observe]. eapply mr_step; [exact Hr1|]. by apply ms_failure.
    + eapply mr_step; [|apply ms_observe].
      assert (mgr_reachable used (mgr_ack m1 l true true now)) as Hr2
        by (eapply mr_step; [exact Hr1|]; by apply ms_ack).
      destruct o as [|[| | | | | |r]]; try done. eapply mr_step; [exact Hr2|].
      apply ms_result. intros (off & e & He & Hid).
      pose proof (mgr_reachable_inv _ _ Hr1) as Hi1.
      destruct (ack_removes used m1 l true true now Hi1 Hl1) as (_ & _ & _ & Hv & _).
      apply tasks_delete in Hv. rewrite Hv in He. apply lookup_delete_Some in He as [Hne He].
      apply Hne. symmetry. eapply (co_ids _ _ _ _ (proj2 Hi1)); [exact He|by apply live_task|done].
Qed.

(** The pending keys are the idempotency keys of the tasks in the queue. *)
Definition keys_exact (m : Mgr) : Prop :=
  ∀ k id, qm_pending_keys m !! k = Some id ↔
    ∃ off e, tasks_of m !! off = Some (to_dict e) ∧ idempotency_key e = Some k ∧ task_id e = id.

(** A task with a key is queued when no queued task has that key and no
    unexpired result is cached under it; otherwise the queue is as it was. *)
Definition enqueue_decides (used : gset string) (m : Mgr) : Prop :=
  ∀ flow input headers trace uuid now, uuid ∉ used → uuid ≠ "" → flow ≠ "" →
    let e := task_new uuid (Fin (wall now)) flow input headers trace in
    let '(o, m') := enqueue m flow input headers trace uuid now in
    (eo_queued o = true ↔
       ∀ k, idempotency_key e = Some k →
         (¬ ∃ off e', tasks_of m !! off = Some (to_dict e') ∧ idempotency_key e' = Some k) ∧
         (idem_get (qm_idempotency m) k (mono now)).1 = None) ∧
    (eo_queued o = true → ∃ off, tasks_of m !! off = None ∧
       tasks_of m' = <[off := to_dict e]> (tasks_of m)) ∧
    (eo_queued o = false → tasks_of m' = tasks_of m).

(** Each queued task has fewer attempts behind it than its flow allows (one
    without a policy). *)
Definition attempts_bounded (m : Mgr) : Prop :=
  ∀ off t, tasks_of m !! off = Some t → ∃ e, t = to_dict e ∧
    (0 <= te_attempt e < attempt_limit (qm_retry_policy m) (flow_id e))%Z.

(** The failure of a live lease takes the task out of the queue and stores it
    again with one more attempt, or appends it to the dead letters. *)
Definition failure_handled (m : Mgr) : Prop :=
  ∀ l error now pid u, live m l →
    let '(d, m') := handle_failure m l error now pid u in
    let retried := match d with Some d => String.eqb (rd_action d) "retry" | None => false end in
    if retried then
      qm_dead_letters m' = qm_dead_letters m ∧
      ∃ off delay, delete (ml_offset l) (tasks_of m) !! off = None ∧
        tasks_of m' =
        <[off := to_dict (retry_envelope l delay now)]> (delete (ml_offset l) (tasks_of m))
    else
      tasks_of m' = delete (ml_offset l) (tasks_of m) ∧
      ∀ dls, qm_dead_letters m = Some dls → ∃ reason,
        qm_dead_letters m' =
        Some (dlq_append dls (flow_id (ml_envelope l)) (to_dict (ml_envelope l))
                (Map (dict_set "reason" (JStr reason) (items error)))
                (te_attempt (ml_envelope l) + 1) (wall now) pid).2.

Lemma enqueue_spec_holds used m : mgr_inv used m → enqueue_decides used m.
Proof.
  intros Hi. pose proof (proj2 Hi) as Hc. intros flow i h tr uuid now Hu Hun Hf e.
  pose proof (enqueue_spec used m flow i h tr uuid now Hi Hu Hun Hf) as He.
  destruct (enqueue m flow i h tr uuid now) as [o m'].
  destruct He as (_ & Hq & H3 & H4). split; [|by split]. rewrite Hq. fold e.
  assert (∀ k, qm_pending_keys m !! k = None ↔
    ¬ ∃ off e', tasks_of m !! off = Some (to_dict e') ∧ idempotency_key e' = Some k) as Hk.
  { intros k. destruct (qm_pending_keys m !! k) as [id|] eqn:E.
    - split; [done|]. intros Hno. destruct Hno. apply (co_keys _ _ _ _ Hc) in E as (off & e' & ? & ? & _). eauto.
    - split; [|done]. intros _ (off & e' & He' & Hke'). by rewrite (core_key _ _ _ _ _ _ _ Hc He' Hke') in E. }
  split; intros Hall k Ek; destruct (Hall k Ek) as [H1 H2]; split; try done; by apply Hk.
Qed.

End manager_spec.

(** ** Examples, on the in-memory queue *)

#[local] Existing Instance plain_text.

Definition demo_mgr : TaskQueueManager InMemoryWorkQueue :=
  manager_new mq_new (mkIS 8 funit 0 [] None) (Some dlq_new) (Some demo_policy) (of_int 3600)
    (mkNow 0 0).

Definition demo_headers : mapping := Map [("idempotency_key", JStr "k")].

Definition demo_queued : TaskQueueManager InMemoryWorkQueue :=
  (enqueue demo_mgr "f" empty_map demo_headers empty_map "id1" (mkNow 10 1000)).2.

Definition demo_leased : TaskQueueManager InMemoryWorkQueue :=
  (mgr_lease demo_queued 1 30 (mkNow 20 1010)).2.

Definition demo_lease : ManagedLease :=
  mkLease 0 "lease-1" 30020
    (mkTask "id1" "f" empty_map demo_headers 0 (Fin 1000) empty_map).

Lemma demo_queued_reachable : mgr_reachable {["id1"]} demo_queued.
Proof.
  replace ({["id1"]} : gset string) with ({["id1"]} ∪ ∅ : gset string) by set_solver.
  eapply mr_step; [|apply ms_enqueue; [set_solver|done|done]].
  apply mr_new; [apply new_exact|done].
Qed.

Lemma demo_leased_reachable : mgr_reachable {["id1"]} demo_leased.
Proof. eapply mr_step; [apply demo_queued_reachable|apply ms_lease]. Qed.


(** Acknowledging with an expired lease: the queue ignores it and keeps the
    task, the manager frees the key all the same, and the same key is then
    queued a second time. *)
Example stale_ack_frees_key :
  let m1 := (mgr_lease demo_leased 1 30 (mkNow 40000 41000)).2 in
  let m2 := mgr_ack m1 demo_lease true true (mkNow 40010 41010) in
  let '(o, m3) := enqueue m2 "f" empty_map demo_headers empty_map "id2" (mkNow 40020 41020) in
  eo_queued o = true ∧ size (tasks_of m3) = 2%nat.
Proof. by vm_compute. Qed.
