(* ===== verification/AuditLog.v ===== *)
(** * The audit trail ([tm/governance/audit.py])

    Masking of payloads and the entries written.  The file is the list of the
    documents appended to it; the write that a running event loop defers is
    taken as done. *)

From S2P Require Import Prelude PyVal PyConv Task.
From stdpp Require Import base gmap strings list.
From Stdlib Require Import ZArith Lia.

(** ** Masking *)

Fixpoint _mask_value (v : json) : json :=
  match v with
  | JNull => JNull
  | JObj m => JObj ((fix go (m : list (string * json)) : list (string * json) :=
                       match m with [] => [] | (k, x) :: m' => (k, _mask_value x) :: go m' end) m)
  | JArr l => JArr ((fix go (l : list json) : list json :=
                       match l with [] => [] | x :: l' => _mask_value x :: go l' end) l)
  | JStr _ => JStr "***"
  | JInt _ | JBool _ => JInt 0
  | JFloat _ => JFloat fzero
  end.

Section mask.
Context (mask_fields : list string).

Fixpoint _mask_payload (v : json) : json :=
  match v with
  | JObj m =>
      JObj ((fix go (m : list (string * json)) : list (string * json) :=
               match m with
               | [] => []
               | (k, x) :: m' =>
                   (k, if k ∈? mask_fields then _mask_value x else _mask_payload x) :: go m'
               end) m)
  | JArr l =>
      JArr ((fix go (l : list json) : list json :=
               match l with [] => [] | x :: l' => _mask_payload x :: go l' end) l)
  | _ => v
  end.

(** ** Paths into a document *)

Inductive segment : Type := Key (k : string) | Index (i : nat).

Fixpoint jpath (p : list segment) (v : json) : option json :=
  match p, v with
  | [], _ => Some v
  | Key k :: p', JObj m => x ← alookup k m; jpath p' x
  | Index i :: p', JArr l => x ← l !! i; jpath p' x
  | _, _ => None
  end.

(** The path goes through a masked field. *)
Fixpoint masked_path (p : list segment) : bool :=
  match p with
  | [] => false
  | Key k :: p' => (k ∈? mask_fields) || masked_path p'
  | Index _ :: p' => masked_path p'
  end.

(** A value without parts. *)
Definition scalar (v : json) : bool :=
  match v with JArr _ | JObj _ => false | _ => true end.

Lemma mask_value_obj m : _mask_value (JObj m) = JObj ((fun kx => (kx.1, _mask_value kx.2)) <$> m).
Proof. simpl. f_equal. induction m as [|[k x] m IH]; [done|]. simpl. by rewrite IH. Qed.

Lemma mask_value_arr l : _mask_value (JArr l) = JArr (_mask_value <$> l).
Proof. done. Qed.

Lemma mask_payload_obj m :
  _mask_payload (JObj m) =
  JObj ((fun kx => (kx.1, if kx.1 ∈? mask_fields then _mask_value kx.2 else _mask_payload kx.2)) <$> m).
Proof. simpl. f_equal. induction m as [|[k x] m IH]; [done|]. simpl. by rewrite IH. Qed.

Lemma mask_payload_arr l : _mask_payload (JArr l) = JArr (_mask_payload <$> l).
Proof. done. Qed.

Lemma alookup_map (f : string → json → json) k m :
  alookup k ((fun kx => (kx.1, f kx.1 kx.2)) <$> m) = f k <$> alookup k m.
Proof.
  induction m as [|[k' x] m IH]; [done|]. simpl. case_decide; [by subst|]. exact IH.
Qed.

Lemma mask_value_path p v x :
  jpath p v = Some x → jpath p (_mask_value v) = Some (_mask_value x).
Proof.
  revert v. induction p as [|[k|i] p IH]; intros v; [by intros [= ->]| |].
  - destruct v as [| | | | | |m]; try done. rewrite mask_value_obj. cbn [jpath].
    rewrite (alookup_map (fun _ => _mask_value)). destruct (alookup k m); [|done]. simpl. apply IH.
  - destruct v as [| | | | |l|]; try done. rewrite mask_value_arr. cbn [jpath].
    rewrite list_lookup_fmap. destruct (l !! i); [|done]. simpl. apply IH.
Qed.

Lemma mask_payload_path p v x :
  jpath p v = Some x →
  jpath p (_mask_payload v) = Some (if masked_path p then _mask_value x else _mask_payload x).
Proof.
  revert v. induction p as [|[k|i] p IH]; intros v; [by intros [= ->]| |].
  - destruct v as [| | | | | |m]; try done. rewrite mask_payload_obj. cbn [jpath masked_path].
    rewrite (alookup_map (fun k x => if k ∈? mask_fields then _mask_value x else _mask_payload x)).
    destruct (alookup k m) as [y|]; [|done]. cbn [mbind option_bind fmap option_fmap option_map].
    destruct (k ∈? mask_fields); simpl; [apply mask_value_path|apply IH].
  - destruct v as [| | | | |l|]; try done. rewrite mask_payload_arr. cbn [jpath masked_path].
    rewrite list_lookup_fmap. destruct (l !! i) as [y|]; [|done]. simpl. apply IH.
Qed.

(** What masking leaves of a scalar. *)
Definition redacted (v : json) : Prop :=
  v = JNull ∨ v = JStr "***" ∨ v = JInt 0 ∨ v = JFloat fzero.

(** Audit masking: in the masked payload every scalar reached through a
    field of the mask, at any depth, is replaced by a constant that depends on
    its type only, and every other scalar is kept as it was. *)
Theorem audit_masking p v x :
  jpath p v = Some x → scalar x = true →
  ∃ y, jpath p (_mask_payload v) = Some y ∧
       if masked_path p then redacted y else y = x.
Proof.
  intros Hp Hs. rewrite (mask_payload_path p v x Hp). eexists. split; [done|].
  destruct (masked_path p); destruct x; try done; unfold redacted; simpl; auto.
Qed.
End mask.

Definition demo_payload : json :=
  JObj [("flow", JStr "f");
        ("steps", JArr [JObj [("input", JObj [("user", JArr [JStr "bob"; JInt 7])])]])].

Lemma audit_masking_witness :
  ∃ y, jpath [Key "steps"; Index 0; Key "input"; Key "user"; Index 0]
         (_mask_payload ["input"; "output"] demo_payload) = Some y ∧ redacted y.
Proof.
  exact (audit_masking ["input"; "output"]
           [Key "steps"; Index 0; Key "input"; Key "user"; Index 0] demo_payload
           (JStr "bob") eq_refl eq_refl).
Defined.

(** ** The trail *)

Record AuditTrail : Type := mkAudit {
  at_enabled : bool;
  at_mask_fields : list string;
  at_file : list json
}.

Definition _prepare_entry (a : AuditTrail) (event_type : string) (payload : mapping) (now : Z)
  : json :=
  JObj [("ts", JFloat (Fin now)); ("type", JStr event_type);
        ("payload", _mask_payload (at_mask_fields a) (JObj (items payload)))].

Definition audit_record (a : AuditTrail) (event_type : string) (payload : mapping) (now : Z)
  : AuditTrail :=
  if negb (at_enabled a) then a
  else mkAudit true (at_mask_fields a) (at_file a ++ [_prepare_entry a event_type payload now]).
