(* ===== verification/Hitl.v ===== *)
(** * Human approvals ([tm/governance/hitl.py])

    The approval queue of one process and the store file it shares with
    others: a list of lines, [None] for a line that is not JSON; the manager's
    file offset counts the lines it has read.  Times are readings of
    [time.time()] in microseconds; [uuid] is the identifier a submission draws.
    Records are values: a caller that kept a record sees its later state by
    asking again. *)

From S2P Require Import Prelude PyVal PyConv Task AuditLog.
From stdpp Require Import base gmap strings list.
From Stdlib Require Import ZArith Lia.

Inductive ApprovalDecision : Type := APPROVE | DENY | TIMEOUT.

#[export] Instance ApprovalDecision_eq_dec : EqDecision ApprovalDecision.
Proof. solve_decision. Defined.

Definition decision_value (d : ApprovalDecision) : string :=
  match d with APPROVE => "approve" | DENY => "deny" | TIMEOUT => "timeout" end.

Record ApprovalRecord : Type := mkApproval {
  ap_id : string;
  ap_flow : string;
  ap_step : string;
  ap_reason : string;
  ap_requested_by : string;
  ap_ttl_ms : Z;
  ap_default : ApprovalDecision;
  ap_actors : list string;
  ap_created_at : pyfloat;
  ap_payload : mapping;
  ap_status : string;
  ap_decided_at : option pyfloat;
  ap_decided_by : option string;
  ap_note : option string
}.

#[export] Instance ApprovalRecord_eq_dec : EqDecision ApprovalRecord.
Proof. solve_decision. Defined.

Definition approval_expired (r : ApprovalRecord) (now : Z) : bool :=
  String.eqb (ap_status r) "pending" && (0 <? ap_ttl_ms r)%Z &&
  fge (Fin now) (fadd (ap_created_at r) (Fin (ap_ttl_ms r * 1000))).

(** The fields a decision or a timeout sets. *)
Definition with_status (r : ApprovalRecord) (status : string) (at_ : option pyfloat)
    (by_ note : option string) : ApprovalRecord :=
  mkApproval (ap_id r) (ap_flow r) (ap_step r) (ap_reason r) (ap_requested_by r) (ap_ttl_ms r)
    (ap_default r) (ap_actors r) (ap_created_at r) (ap_payload r) status at_ by_ note.

Record HitlManager : Type := mkHitl {
  hm_enabled : bool;
  hm_default_ttl_ms : Z;
  hm_queue_limit : Z;
  hm_persistent : bool;
  hm_audit : option AuditTrail;
  hm_pending : list (string * ApprovalRecord);
  hm_store_offset : nat
}.

Definition with_pending (m : HitlManager) (p : list (string * ApprovalRecord)) : HitlManager :=
  mkHitl (hm_enabled m) (hm_default_ttl_ms m) (hm_queue_limit m) (hm_persistent m) (hm_audit m) p
    (hm_store_offset m).

Definition with_offset (m : HitlManager) (n : nat) : HitlManager :=
  mkHitl (hm_enabled m) (hm_default_ttl_ms m) (hm_queue_limit m) (hm_persistent m) (hm_audit m)
    (hm_pending m) n.

Definition with_audit (m : HitlManager) (a : option AuditTrail) : HitlManager :=
  mkHitl (hm_enabled m) (hm_default_ttl_ms m) (hm_queue_limit m) (hm_persistent m) a
    (hm_pending m) (hm_store_offset m).

(** The manager and the store file. *)
Record world : Type := World { w_mgr : HitlManager; w_file : list (option json) }.

Definition _normalize_decision (value : string) : res ApprovalDecision :=
  let lowered := strip (str_lower value) in
  if lowered ∈? ["approve"; "approved"; "ok"; "yes"] then Ok APPROVE
  else if lowered ∈? ["deny"; "denied"; "reject"; "rejected"; "no"] then Ok DENY
  else Raise (ValueError ("Unsupported decision '" +:+ value +:+ "'")).

(** ** Audit and store *)

Definition opt_field (key : string) (v : option string) : list (string * json) :=
  match v with
  | Some s => if String.eqb s "" then [] else [(key, JStr s)]
  | None => []
  end.

Definition _log (m : HitlManager) (event : string) (r : ApprovalRecord)
    (extra : list (string * json)) (now : Z) : HitlManager :=
  match hm_audit m with
  | None => m
  | Some a =>
      if negb (at_enabled a) then m
      else
        let payload :=
          [("approval_id", JStr (ap_id r)); ("flow", JStr (ap_flow r)); ("step", JStr (ap_step r));
           ("reason", JStr (ap_reason r)); ("status", JStr (ap_status r));
           ("default", JStr (decision_value (ap_default r)));
           ("actors", JArr (JStr <$> ap_actors r))]
          ++ opt_field "decided_by" (ap_decided_by r) ++ opt_field "note" (ap_note r) in
        with_audit m (Some (audit_record a event (Map (dict_update payload extra)) now))
  end.

Definition _append_store (w : world) (entry : json) : world :=
  if hm_persistent (w_mgr w) then
    let file := w_file w ++ [Some entry] in
    World (with_offset (w_mgr w) (length file)) file
  else w.

Definition pending_entry (r : ApprovalRecord) : json :=
  JObj [("type", JStr "pending"); ("approval_id", JStr (ap_id r)); ("flow", JStr (ap_flow r));
        ("step", JStr (ap_step r)); ("reason", JStr (ap_reason r));
        ("requested_by", JStr (ap_requested_by r)); ("ttl_ms", JInt (ap_ttl_ms r));
        ("default", JStr (decision_value (ap_default r)));
        ("actors", JArr (JStr <$> ap_actors r)); ("created_at", JFloat (ap_created_at r));
        ("payload", JObj (items (ap_payload r)))].

Definition opt_str (v : option string) : json := match v with Some s => JStr s | None => JNull end.
Definition opt_float (v : option pyfloat) : json := match v with Some f => JFloat f | None => JNull end.

Definition decision_entry (r : ApprovalRecord) : json :=
  JObj [("type", JStr "decision"); ("approval_id", JStr (ap_id r)); ("decision", JStr (ap_status r));
        ("actor", opt_str (ap_decided_by r)); ("note", opt_str (ap_note r));
        ("ts", opt_float (ap_decided_at r))].

Section store.
Context `{PyText}.

(** [str(entry.get(key, default))]. *)
Definition get_str (data : list (string * json)) (key d : string) : string :=
  py_str other_str (default (JStr d) (alookup key data)).

(** [dict(value)] of a stored payload; a list of pairs, which no manager
    writes, counts as an error. *)
Definition py_dict (v : json) : res mapping :=
  match v with
  | JObj m => Ok (Map m)
  | JArr [] => Ok empty_map
  | _ => Raise (TypeError "cannot convert to a dictionary")
  end.

Definition decode_record (m : HitlManager) (approval_id : string) (data : list (string * json))
    (now : Z) : res ApprovalRecord :=
  ttl ← py_int (default (JInt (hm_default_ttl_ms m)) (alookup "ttl_ms" data));
  actors ← py_iter (default (JArr []) (alookup "actors" data));
  created ← py_float (default (JFloat (Fin now)) (alookup "created_at" data));
  payload ← py_dict (default (JObj []) (alookup "payload" data));
  Ok (mkApproval approval_id (get_str data "flow" "unknown") (get_str data "step" "unknown")
        (get_str data "reason" "approval required") (get_str data "requested_by" "unknown") ttl
        (if String.eqb (str_lower (get_str data "default" "approve")) "approve" then APPROVE else DENY)
        (py_str other_str <$> filter (fun a => truthy a = true) (actors : list json))
        created payload "pending" None None None).

(** The exception, if any, and the state it leaves behind. *)
Definition _apply_store_entry (m : HitlManager) (entry : json) (now : Z) (initial : bool)
  : option exn * HitlManager :=
  match as_mapping entry with
  | None => (Some (AttributeError "object has no attribute 'get'"), m)
  | Some data =>
      let entry_type := jget "type" data in
      match jget "approval_id" data with
      | JStr approval_id =>
          if bool_decide (entry_type = JStr "pending") then
            match decode_record m approval_id data now with
            | Raise e => (Some e, m)
            | Ok r =>
                (None,
                 if initial || bool_decide (alookup approval_id (hm_pending m) = None)
                 then with_pending m (dict_set approval_id r (hm_pending m)) else m)
            end
          else if bool_decide (entry_type = JStr "decision") then
            match alookup approval_id (hm_pending m) with
            | None => (None, m)
            | Some r =>
                let note := match jget "note" data with JStr s => Some s | _ => None end in
                let changed at_ := with_status r (get_str data "decision" "deny") at_
                                     (Some (get_str data "actor" "unknown")) note in
                match py_float (default (JFloat (Fin now)) (alookup "ts" data)) with
                | Raise e =>
                    (Some e, with_pending m
                               (dict_set approval_id (changed (ap_decided_at r)) (hm_pending m)))
                | Ok _ => (None, with_pending m (dict_pop approval_id (hm_pending m)))
                end
            end
          else (None, m)
      | _ => (None, m)
      end
  end.

Fixpoint apply_lines (m : HitlManager) (lines : list (option json)) (now : Z) (initial : bool)
  : option exn * HitlManager :=
  match lines with
  | [] => (None, m)
  | None :: lines' => apply_lines m lines' now initial
  | Some entry :: lines' =>
      match _apply_store_entry m entry now initial with
      | (Some e, m') => (Some e, m')
      | (None, m') => apply_lines m' lines' now initial
      end
  end.

Definition _sync_store (w : world) (now : Z) : option exn * world :=
  if negb (hm_persistent (w_mgr w)) then (None, w)
  else
    match apply_lines (w_mgr w) (drop (hm_store_offset (w_mgr w)) (w_file w)) now false with
    | (Some e, m) => (Some e, World m (w_file w))
    | (None, m) => (None, World (with_offset m (length (w_file w))) (w_file w))
    end.

(** [HitlManager(config, audit=...)] on an existing store. *)
Definition hitl_new (enabled : bool) (default_ttl_ms queue_size : Z) (persistent : bool)
    (audit : option AuditTrail) (file : list (option json)) (now : Z) : option exn * world :=
  let m := mkHitl enabled default_ttl_ms (Z.max 0 queue_size) persistent audit [] 0 in
  if negb persistent then (None, World m file)
  else
    match apply_lines m file now true with
    | (Some e, m) => (Some e, World m file)
    | (None, m) => (None, World (with_offset m (length file)) file)
    end.

(** ** Operations *)

Definition submit (w : world) (flow step reason requested_by : string) (ttl_ms : option Z)
    (default_ : string) (actors : list string) (payload : mapping) (uuid : string) (now : Z)
  : res ApprovalRecord * world :=
  if negb (hm_enabled (w_mgr w)) then (Raise (RuntimeError "HITL approvals are disabled"), w)
  else
    match _sync_store w now with
    | (Some e, w) => (Raise e, w)
    | (None, w) =>
        let m := w_mgr w in
        if negb (hm_queue_limit m =? 0)%Z &&
           (hm_queue_limit m <=? Z.of_nat (length (hm_pending m)))%Z
        then (Raise (RuntimeError "approval queue is full"), w)
        else
          let r := mkApproval uuid flow step reason requested_by
                     (default (hm_default_ttl_ms m) ttl_ms)
                     (if String.eqb (str_lower default_) "approve" then APPROVE else DENY)
                     (filter (fun a => a ≠ "") actors) (Fin now) payload "pending" None None None in
          let m := with_pending m (dict_set uuid r (hm_pending m)) in
          let m := _log m "hitl_pending" r [("status", JStr "pending")] now in
          (Ok r, _append_store (World m (w_file w)) (pending_entry r))
    end.

Definition or_else (s d : string) : string := if String.eqb s "" then d else s.

Definition decide_approval (w : world) (approval_id decision actor : string) (note : option string)
    (now : Z) : res ApprovalRecord * world :=
  match _sync_store w now with
  | (Some e, w) => (Raise e, w)
  | (None, w) =>
      let m := w_mgr w in
      match alookup approval_id (hm_pending m) with
      | None => (Raise (KeyError ("Unknown approval_id '" +:+ approval_id +:+ "'")), w)
      | Some r =>
          if negb (String.eqb (ap_status r) "pending") then (Ok r, w)
          else
            match _normalize_decision decision with
            | Raise e => (Raise e, w)
            | Ok normalized =>
                if approval_expired r now then
                  let r' := with_status r "timeout" (Some (Fin now)) (Some (or_else actor "system")) note in
                  let m := with_pending m (dict_set approval_id r' (hm_pending m)) in
                  let m := _log m "hitl_timeout" r'
                             [("decision", JStr (decision_value (ap_default r')))] now in
                  (Raise (TimeoutError "approval has expired"), World m (w_file w))
                else
                  let by_ := or_else actor "unknown" in
                  let r' := with_status r (decision_value normalized) (Some (Fin now)) (Some by_) note in
                  let m := with_pending m (dict_set approval_id r' (hm_pending m)) in
                  let m := _log m "hitl_decision" r'
                             [("decision", JStr (ap_status r')); ("actor", JStr by_)] now in
                  let m := with_pending m (dict_pop approval_id (hm_pending m)) in
                  (Ok r', _append_store (World m (w_file w)) (decision_entry r'))
            end
      end
  end.

Definition _mark_expired (m : HitlManager) (approval_id : string) (r : ApprovalRecord) (now : Z)
  : HitlManager :=
  let r' := with_status r "timeout" (Some (Fin now)) (Some "system") (ap_note r) in
  _log (with_pending m (dict_set approval_id r' (hm_pending m))) "hitl_timeout" r'
    [("decision", JStr (decision_value (ap_default r')))] now.

Definition get_approval (w : world) (approval_id : string) (now : Z)
  : res (option ApprovalRecord) * world :=
  match _sync_store w now with
  | (Some e, w) => (Raise e, w)
  | (None, w) =>
      match alookup approval_id (hm_pending (w_mgr w)) with
      | Some r =>
          if approval_expired r now
          then (Ok None, World (_mark_expired (w_mgr w) approval_id r now) (w_file w))
          else (Ok (Some r), w)
      | None => (Ok None, w)
      end
  end.

(** The first loop of [pending]: over a copy of the items. *)
Definition mark_all (m : HitlManager) (now : Z) : HitlManager :=
  foldl (fun m ir => if approval_expired ir.2 now then _mark_expired m ir.1 ir.2 now else m)
    m (hm_pending m).

Definition pending_approvals (w : world) (now : Z) : res (list ApprovalRecord) * world :=
  match _sync_store w now with
  | (Some e, w) => (Raise e, w)
  | (None, w) =>
      let m := w_mgr w in
      let expired := (filter (fun ir => approval_expired ir.2 now = true) (hm_pending m)).*1 in
      let m := mark_all m now in
      let m := with_pending m
                 (foldl (fun p id => dict_pop id p) (hm_pending m) expired) in
      (Ok (hm_pending m).*2, World m (w_file w))
  end.
End store.

(** ** Correctness of the approval queue

    Runs of one process: a request is decided at most once and never after its
    deadline, the queue limit holds, and a manager that replays the store
    knows the same open requests. *)

From S2P Require Import Prelude PyVal PyConv Task AuditLog.
From stdpp Require Import base gmap strings list.
From Stdlib Require Import ZArith Lia ZifyBool.

(** ** What the operations leave alone *)

Lemma log_fields m ev r extra now :
  hm_pending (_log m ev r extra now) = hm_pending m ∧
  hm_persistent (_log m ev r extra now) = hm_persistent m ∧
  hm_store_offset (_log m ev r extra now) = hm_store_offset m ∧
  hm_queue_limit (_log m ev r extra now) = hm_queue_limit m ∧
  hm_enabled (_log m ev r extra now) = hm_enabled m.
Proof. unfold _log. destruct (hm_audit m) as [a|]; [|done]. by destruct (negb (at_enabled a)). Qed.

Lemma mark_fields m id r now :
  hm_pending (_mark_expired m id r now) =
    dict_set id (with_status r "timeout" (Some (Fin now)) (Some "system") (ap_note r)) (hm_pending m) ∧
  hm_persistent (_mark_expired m id r now) = hm_persistent m ∧
  hm_store_offset (_mark_expired m id r now) = hm_store_offset m ∧
  hm_queue_limit (_mark_expired m id r now) = hm_queue_limit m ∧
  hm_enabled (_mark_expired m id r now) = hm_enabled m.
Proof. unfold _mark_expired. match goal with |- context [_log ?a ?b ?c ?d ?e] => apply (log_fields a b c d e) end. Qed.

(** ** The loops of [pending] *)

Definition expired_ids (now : Z) (l : list (string * ApprovalRecord)) : list string :=
  (filter (fun ir => approval_expired ir.2 now = true) l).*1.

Definition mark_step (now : Z) (m : HitlManager) (ir : string * ApprovalRecord) : HitlManager :=
  if approval_expired ir.2 now then _mark_expired m ir.1 ir.2 now else m.

Lemma mark_fold now l m :
  let m' := foldl (mark_step now) m l in
  (∀ id, id ∉ expired_ids now l → alookup id (hm_pending m') = alookup id (hm_pending m)) ∧
  (NoDup (hm_pending m).*1 → NoDup (hm_pending m').*1) ∧
  hm_persistent m' = hm_persistent m ∧ hm_store_offset m' = hm_store_offset m ∧
  hm_queue_limit m' = hm_queue_limit m ∧ hm_enabled m' = hm_enabled m.
Proof.
  revert m. induction l as [|[i r] l IH]; intros m; [done|]. cbn [foldl].
  destruct (IH (mark_step now m (i, r))) as (H1 & H2 & H3 & H4 & H5 & H6).
  unfold mark_step in *. cbn [fst snd] in *. unfold expired_ids.
  destruct (approval_expired r now) eqn:Ex.
  - destruct (mark_fields m i r now) as (Ep & E3 & E4 & E5 & E6).
    rewrite filter_cons_True by done. rewrite fmap_cons. split_and!; [|rewrite Ep in H2|congruence..].
    + intros id Hid. rewrite H1, Ep, alookup_dict_set by set_solver.
      rewrite decide_False; [done|]. simpl in Hid. set_solver.
    + intros Hnd. apply H2. by apply NoDup_dict_set.
  - rewrite filter_cons_False by (simpl; congruence). by split_and!.
Qed.

Lemma pop_fold {V} ids (p : list (string * V)) :
  let p' := foldl (fun p id => dict_pop id p) p ids in
  (∀ id, alookup id p' = if decide (id ∈ ids) then None else alookup id p) ∧
  (NoDup p.*1 → NoDup p'.*1) ∧ length p' ≤ length p.
Proof.
  revert p. induction ids as [|i ids IH]; intros p; [done|]. cbn [foldl].
  destruct (IH (dict_pop i p)) as (H1 & H2 & H3). split_and!.
  - intros id. rewrite H1, alookup_dict_pop.
    destruct (decide (id ∈ ids)), (decide (id = i)), (decide (id ∈ i :: ids)); set_solver.
  - intros Hnd. by apply H2, NoDup_dict_pop.
  - pose proof (length_dict_pop i p). simpl in *. lia.
Qed.

Lemma expired_ids_alookup now l id :
  NoDup l.*1 →
  id ∈ expired_ids now l ↔ ∃ r, alookup id l = Some r ∧ approval_expired r now = true.
Proof.
  intros Hnd. unfold expired_ids. rewrite list_elem_of_fmap. split.
  - intros ([i r] & -> & [Hx Hin]%list_elem_of_filter). exists r. split; [|done].
    by apply alookup_NoDup.
  - intros (r & Hr%alookup_elem_of & Hx). exists (id, r). split; [done|].
    by apply list_elem_of_filter.
Qed.

(** ** Decoding what was stored *)

(** A request as [submit] makes it. *)
Record fresh_record (r : ApprovalRecord) : Prop := {
  fr_status : ap_status r = "pending";
  fr_open : ap_decided_at r = None ∧ ap_decided_by r = None ∧ ap_note r = None;
  fr_default : ap_default r ≠ TIMEOUT;
  fr_actors : Forall (fun a => a ≠ "") (ap_actors r);
  fr_created : ∃ c, ap_created_at r = Fin c
}.

Lemma expired_mono r t now :
  fresh_record r → (t <= now)%Z → approval_expired r t = true → approval_expired r now = true.
Proof.
  intros Hr Hle. unfold approval_expired. destruct (fr_created r Hr) as [c ->].
  destruct (String.eqb _ _); [|done]. destruct (0 <? ap_ttl_ms r)%Z; [|done].
  unfold fge. simpl. lia.
Qed.

Section decode.
Context {PT : PyText}.

Lemma decode_actors (l : list string) :
  Forall (fun a => a ≠ "") l →
  py_str other_str <$> filter (fun a => truthy a = true) (JStr <$> l) = l.
Proof.
  induction 1 as [|a l Ha _ IH]; [done|]. rewrite fmap_cons, filter_cons_True.
  - rewrite fmap_cons. by f_equal.
  - simpl. apply String.eqb_neq in Ha. by rewrite Ha.
Qed.

Lemma apply_pending m r now :
  fresh_record r →
  _apply_store_entry m (pending_entry r) now true =
  (None, with_pending m (dict_set (ap_id r) r (hm_pending m))).
Proof.
  intros [Hs (Ha & Hb & Hn) Hd Hac Hc]. destruct r as [aid fl st rs rq ttl d ac cr [pl] status da db nt].
  simpl in *. subst. unfold _apply_store_entry, pending_entry. cbn [as_mapping]. cbv zeta.
  match goal with |- context [jget "approval_id" ?l] => set (data := l) end.
  change (jget "approval_id" data) with (JStr aid). change (jget "type" data) with (JStr "pending").
  cbn match. rewrite bool_decide_eq_true_2 by done.
  assert (decode_record m aid data now =
    Ok (mkApproval aid fl st rs rq ttl d ac cr (Map pl) "pending" None None None)) as ->; [|done].
  unfold decode_record.
  change (alookup "ttl_ms" data) with (Some (JInt ttl)).
  change (alookup "actors" data) with (Some (JArr (JStr <$> ac))).
  change (alookup "created_at" data) with (Some (JFloat cr)).
  change (alookup "payload" data) with (Some (JObj pl)).
  cbn [from_option id py_int py_iter py_float py_dict mbind res_bind].
  rewrite decode_actors by done. unfold get_str.
  change (alookup "flow" data) with (Some (JStr fl)).
  change (alookup "step" data) with (Some (JStr st)).
  change (alookup "reason" data) with (Some (JStr rs)).
  change (alookup "requested_by" data) with (Some (JStr rq)).
  change (alookup "default" data) with (Some (JStr (decision_value d))).
  cbn [from_option id py_str]. by destruct d.
Qed.

Lemma apply_decision m r now :
  is_Some (ap_decided_at r) →
  _apply_store_entry m (decision_entry r) now true =
  (None, with_pending m (dict_pop (ap_id r) (hm_pending m))).
Proof.
  intros [ts Hts]. unfold _apply_store_entry, decision_entry. cbn [as_mapping]. cbv zeta.
  match goal with |- context [jget "approval_id" ?l] => set (data := l) end.
  change (jget "approval_id" data) with (JStr (ap_id r)).
  change (jget "type" data) with (JStr "decision"). cbn match.
  rewrite bool_decide_eq_false_2 by done. rewrite bool_decide_eq_true_2 by done.
  change (alookup "ts" data) with (Some (opt_float (ap_decided_at r))). rewrite Hts.
  destruct (alookup (ap_id r) (hm_pending m)) as [r0|] eqn:El; [done|].
  f_equal. apply alookup_None in El. rewrite dict_pop_notin by done. by destruct m.
Qed.

Lemma apply_lines_snoc m l entry now m' :
  apply_lines m l now true = (None, m') →
  apply_lines m (l ++ [Some entry]) now true =
  match _apply_store_entry m' entry now true with
  | (Some e, m2) => (Some e, m2)
  | (None, m2) => (None, m2)
  end.
Proof.
  revert m. induction l as [|[x|] l IH]; intros m; simpl.
  - by intros [= ->].
  - destruct (_apply_store_entry m x now true) as [[e|] m1]; [done|]. apply IH.
  - apply IH.
Qed.
End decode.

(** ** Runs of one process *)

Section runs.
Context {PT : PyText}.
Context (default_ttl limit : Z) (persistent : bool) (audit : option AuditTrail).

(** The requests submitted and the decisions that succeeded, with their time. *)
Definition subs_after (subs : gmap string ApprovalRecord) (uuid : string)
    (o : res ApprovalRecord) : gmap string ApprovalRecord :=
  match o with Ok r => <[uuid := r]> subs | Raise _ => subs end.

Definition log_after (log : list (string * (string * Z))) (id : string)
    (o : res ApprovalRecord) (now : Z) : list (string * (string * Z)) :=
  match o with
  | Ok r => if String.eqb (ap_status r) "timeout" then log else log ++ [(id, (ap_status r, now))]
  | Raise _ => log
  end.

Inductive hitl_run : world → Z → gmap string ApprovalRecord → list (string * (string * Z)) → Prop :=
| hr_new now : hitl_run (hitl_new true default_ttl limit persistent audit [] now).2 now ∅ []
| hr_submit w t subs log flow step reason by_ ttl d actors payload uuid now :
    hitl_run w t subs log → (t <= now)%Z → subs !! uuid = None →
    let o := submit w flow step reason by_ ttl d actors payload uuid now in
    hitl_run o.2 now (subs_after subs uuid o.1) log
| hr_decide w t subs log id decision actor note now :
    hitl_run w t subs log → (t <= now)%Z →
    let o := decide_approval w id decision actor note now in
    hitl_run o.2 now subs (log_after log id o.1 now)
| hr_get w t subs log id now :
    hitl_run w t subs log → (t <= now)%Z → hitl_run (get_approval w id now).2 now subs log
| hr_pending w t subs log now :
    hitl_run w t subs log → (t <= now)%Z → hitl_run (pending_approvals w now).2 now subs log.

(** The state of a request in memory: open, or timed out. *)
Definition in_memory (r0 r : ApprovalRecord) (t : Z) : Prop :=
  r = r0 ∨ approval_expired r0 t = true ∧ ∃ at_ by_ note, r = with_status r0 "timeout" at_ by_ note.

Record hitl_inv (w : world) (t : Z) (subs : gmap string ApprovalRecord)
    (log : list (string * (string * Z))) : Prop := {
  hi_config : hm_persistent (w_mgr w) = persistent ∧ hm_enabled (w_mgr w) = true ∧
              hm_queue_limit (w_mgr w) = Z.max 0 limit;
  hi_offset : persistent = true → hm_store_offset (w_mgr w) = length (w_file w);
  hi_keys : NoDup (hm_pending (w_mgr w)).*1;
  hi_limit : (0 < limit)%Z → (Z.of_nat (length (hm_pending (w_mgr w))) <= limit)%Z;
  hi_subs id r : subs !! id = Some r → fresh_record r ∧ ap_id r = id;
  hi_pending id r : alookup id (hm_pending (w_mgr w)) = Some r →
    ∃ r0, subs !! id = Some r0 ∧ (id ∉ log.*1) ∧ in_memory r0 r t;
  hi_gone id r0 : subs !! id = Some r0 → id ∉ log.*1 →
    alookup id (hm_pending (w_mgr w)) = None → approval_expired r0 t = true;
  hi_log id st t' : (id, (st, t')) ∈ log →
    (st = "approve" ∨ st = "deny") ∧ ∃ r0, subs !! id = Some r0 ∧ approval_expired r0 t' = false;
  hi_once : NoDup log.*1;
  hi_file : persistent = true → ∀ m0 now, hm_pending m0 = [] →
    ∃ m', apply_lines m0 (w_file w) now true = (None, m') ∧
      ∀ id, alookup id (hm_pending m') = if decide (id ∈ log.*1) then None else subs !! id
}.

Lemma sync_noop w t subs log now : hitl_inv w t subs log → _sync_store w now = (None, w).
Proof.
  intros Hi. unfold _sync_store. destruct (hi_config _ _ _ _ Hi) as (-> & _).
  destruct w as [m f]. destruct persistent eqn:Ep; [|done]. simpl.
  pose proof (hi_offset _ _ _ _ Hi Ep) as Ho. simpl in Ho. rewrite Ho, drop_all. simpl.
  rewrite <- Ho. by destruct m.
Qed.

Lemma in_memory_mono r0 r t now :
  fresh_record r0 → (t <= now)%Z → in_memory r0 r t → in_memory r0 r now.
Proof.
  intros Hf Hle [->|[Hx Hs]]; [by left|right]. split; [|done]. by eapply expired_mono.
Qed.

(** Time passes. *)
Lemma hitl_inv_time w t now subs log : hitl_inv w t subs log → (t <= now)%Z → hitl_inv w now subs log.
Proof.
  intros [H1 H2 H3 H4 H5 H6 H7 H8 H9 H10] Hle. split; try done.
  - intros id r Hr. destruct (H6 id r Hr) as (r0 & Hr0 & Hl & Hm). exists r0. split_and!; [done|done|].
    eapply in_memory_mono; [by apply (H5 id)|done|done].
  - intros id r0 Hr0 Hl Hn. eapply expired_mono; [by apply (H5 id)|done|by apply (H7 id)].
Qed.

(** A timed-out record replaces an open one. *)
Lemma hitl_inv_timeout m m' f t subs log id r at_ by_ note :
  hitl_inv (World m f) t subs log → alookup id (hm_pending m) = Some r →
  approval_expired r t = true →
  hm_pending m' = dict_set id (with_status r "timeout" at_ by_ note) (hm_pending m) →
  hm_persistent m' = hm_persistent m → hm_store_offset m' = hm_store_offset m →
  hm_queue_limit m' = hm_queue_limit m → hm_enabled m' = hm_enabled m →
  hitl_inv (World m' f) t subs log.
Proof.
  intros [H1 H2 H3 H4 H5 H6 H7 H8 H9 H10] Hr Hx Ep E1 E2 E3 E4. simpl in *.
  destruct (H6 id r Hr) as (r0 & Hr0 & Hl & Hm).
  assert (r = r0) as ->.
  { destruct Hm as [->|[_ (a & b & n & ->)]]; [done|]. done. }
  split; simpl; try done.
  - by rewrite E1, E3, E4.
  - by rewrite E2.
  - rewrite Ep. by apply NoDup_dict_set.
  - rewrite Ep. by erewrite length_dict_set_in.
  - intros i r. rewrite Ep, alookup_dict_set. case_decide as Hi; [|apply H6].
    intros [= <-]. subst i. exists r0. split_and!; [done|done|]. right. eauto.
  - intros i ri Hri Hli. rewrite Ep, alookup_dict_set. case_decide; [done|]. by apply H7.
Qed.

(** The store file after [entry] was appended, when there is one. *)
Record stored (w w' : world) (entry : json) : Prop := {
  st_config : hm_persistent (w_mgr w') = persistent ∧ hm_enabled (w_mgr w') = true ∧
              hm_queue_limit (w_mgr w') = Z.max 0 limit;
  st_file : persistent = true → hm_store_offset (w_mgr w') = length (w_file w') ∧
              w_file w' = w_file w ++ [Some entry]
}.

Lemma append_stored w m entry :
  hm_persistent m = persistent → hm_enabled m = true → hm_queue_limit m = Z.max 0 limit →
  stored w (_append_store (World m (w_file w)) entry) entry ∧
  hm_pending (w_mgr (_append_store (World m (w_file w)) entry)) = hm_pending m.
Proof.
  intros E1 E2 E3. unfold _append_store. simpl. rewrite E1.
  destruct persistent eqn:Ep; simpl; split; [split; simpl; rewrite ?Ep; done|done|split; simpl; rewrite ?Ep; done|done].
Qed.

(** A new request. *)
Lemma hitl_inv_add w w' t subs log id r :
  hitl_inv w t subs log → subs !! id = None → fresh_record r → ap_id r = id →
  ((0 < limit)%Z → (Z.of_nat (length (hm_pending (w_mgr w))) < limit)%Z) →
  stored w w' (pending_entry r) →
  hm_pending (w_mgr w') = dict_set id r (hm_pending (w_mgr w)) →
  hitl_inv w' t (<[id := r]> subs) log.
Proof.
  intros [H1 H2 H3 H4 H5 H6 H7 H8 H9 H10] Hu Hf Hid Hroom [Hcfg Hfile] Ep.
  assert (id ∉ log.*1) as Hnl.
  { intros ([i [st t']] & E & Hin)%list_elem_of_fmap. simpl in E. subst i.
    destruct (H8 _ _ _ Hin) as (_ & r0 & Hr0 & _). congruence. }
  assert (alookup id (hm_pending (w_mgr w)) = None) as Hnp.
  { destruct (alookup id _) as [r1|] eqn:E; [|done]. destruct (H6 _ _ E) as (r0 & ? & _). congruence. }
  split.
  - done.
  - intros Hp. by apply Hfile.
  - rewrite Ep. by apply NoDup_dict_set.
  - intros Hl. rewrite Ep, dict_set_fresh, length_app by (by apply alookup_None).
    specialize (Hroom Hl). simpl. lia.
  - intros i r'. rewrite lookup_insert_Some. intros [[<- <-]|[_ Hr']]; [done|by apply H5].
  - intros i r'. rewrite Ep, alookup_dict_set. case_decide as Hd.
    + intros [= <-]. subst i. exists r. rewrite lookup_insert_eq. split_and!; [done|done|by left].
    + intros Hr'. rewrite lookup_insert_ne by congruence. by apply H6.
  - intros i r0. rewrite Ep, alookup_dict_set, lookup_insert_Some.
    intros [[<- <-]|[Hne Hr0]]; [by rewrite decide_True|]. rewrite decide_False by congruence. by apply H7.
  - intros i st t' Hin. destruct (H8 _ _ _ Hin) as (Hst & r0 & Hr0 & Hx). split; [done|].
    exists r0. split; [|done]. rewrite lookup_insert_ne; [done|]. congruence.
  - done.
  - intros Hp m0 now Hm0. destruct (H10 Hp m0 now Hm0) as (m' & Ha & Hm').
    destruct (Hfile Hp) as [_ ->]. eexists. split.
    + rewrite (apply_lines_snoc _ _ _ _ _ Ha), apply_pending by done. done.
    + intros i. simpl. rewrite Hid, alookup_dict_set, Hm'. case_decide as Hd.
      * subst i. rewrite decide_False by done. by rewrite lookup_insert_eq.
      * by rewrite lookup_insert_ne by congruence.
Qed.

(** A request that is decided in time. *)
Lemma hitl_inv_decide w w' t subs log id r0 r' st :
  hitl_inv w t subs log → subs !! id = Some r0 → id ∉ log.*1 →
  approval_expired r0 t = false → st = "approve" ∨ st = "deny" →
  ap_id r' = id → is_Some (ap_decided_at r') → stored w w' (decision_entry r') →
  hm_pending (w_mgr w') = dict_pop id (hm_pending (w_mgr w)) →
  hitl_inv w' t subs (log ++ [(id, (st, t))]).
Proof.
  intros [H1 H2 H3 H4 H5 H6 H7 H8 H9 H10] Hr0 Hnl Hx Hst Hid Hda [Hcfg Hfile] Ep.
  assert (∀ i, i ∈ (log ++ [(id, (st, t))]).*1 ↔ i ∈ log.*1 ∨ i = id) as Hlog.
  { intros i. rewrite fmap_app, elem_of_app. simpl. by rewrite list_elem_of_singleton. }
  split.
  - done.
  - intros Hp. by apply Hfile.
  - rewrite Ep. by apply NoDup_dict_pop.
  - intros Hl. rewrite Ep. pose proof (length_dict_pop id (hm_pending (w_mgr w))).
    specialize (H4 Hl). lia.
  - done.
  - intros i ri. rewrite Ep, alookup_dict_pop. case_decide as Hd; [done|]. intros Hri.
    destruct (H6 i ri Hri) as (r1 & ? & ? & ?). exists r1. split_and!; try done. rewrite Hlog. tauto.
  - intros i ri Hri Hl. rewrite Hlog in Hl. rewrite Ep, alookup_dict_pop, decide_False by tauto.
    apply H7; [done|tauto].
  - intros i s' t' [Hin|Hin]%elem_of_app; [by apply H8|].
    apply list_elem_of_singleton in Hin as [= -> -> ->]. split; [done|]. eauto.
  - rewrite fmap_app. apply NoDup_app. split_and!; [done| |apply NoDup_singleton].
    intros x Hin ->%list_elem_of_singleton. done.
  - intros Hp m0 now Hm0. destruct (H10 Hp m0 now Hm0) as (m' & Ha & Hm').
    destruct (Hfile Hp) as [_ ->]. eexists. split.
    + rewrite (apply_lines_snoc _ _ _ _ _ Ha), apply_decision by done. done.
    + intros i. simpl. rewrite Hid, alookup_dict_pop, Hm'.
      destruct (decide (i ∈ (log ++ [(id, (st, t))]).*1)) as [Hin|Hout]; rewrite Hlog in *;
        repeat case_decide; tauto.
Qed.

Lemma submit_inv w t subs log flow step reason by_ ttl d actors payload uuid :
  hitl_inv w t subs log → subs !! uuid = None →
  let o := submit w flow step reason by_ ttl d actors payload uuid t in
  hitl_inv o.2 t (subs_after subs uuid o.1) log.
Proof.
  intros Hi Hu o. unfold o, submit. pose proof (sync_noop w t subs log t Hi) as Hsync.
  destruct (hi_config _ _ _ _ Hi) as (E1 & E2 & E3). rewrite E2, Hsync. simpl.
  destruct (negb (hm_queue_limit (w_mgr w) =? 0)%Z && _) eqn:Efull; [done|].
  match goal with |- context [dict_set uuid ?x] => set (r := x) end.
  match goal with |- context [_log ?a ?b ?c ?e ?f] =>
    destruct (log_fields a b c e f) as (Ep & F1 & F2 & F3 & F4); set (m2 := _log a b c e f) in * end.
  simpl in Ep, F1, F3, F4.
  destruct (append_stored w m2 (pending_entry r)) as [Hs Hp]; [congruence|congruence|congruence|].
  eapply hitl_inv_add; [exact Hi|exact Hu| |reflexivity|lia|exact Hs|by rewrite <- Ep].
  split; simpl; [done|done|by destruct (String.eqb _ _)| |eauto].
  apply Forall_forall. intros a [? _]%list_elem_of_filter. done.
Qed.

Lemma decide_inv w t subs log id decision actor note :
  hitl_inv w t subs log →
  let o := decide_approval w id decision actor note t in
  hitl_inv o.2 t subs (log_after log id o.1 t).
Proof.
  intros Hi o. unfold o, decide_approval. rewrite (sync_noop w t subs log t Hi).
  destruct (alookup id (hm_pending (w_mgr w))) as [r|] eqn:El; [|done].
  destruct (hi_pending _ _ _ _ Hi id r El) as (r0 & Hr0 & Hnl & Hm).
  destruct (hi_subs _ _ _ _ Hi id r0 Hr0) as [Hf Hid].
  destruct (String.eqb_spec (ap_status r) "pending") as [Hs|Hs]; simpl.
  2: { destruct Hm as [->|[_ (a & b & n & ->)]]; [by destruct (fr_status r0 Hf)|]. done. }
  assert (r = r0) as -> by (destruct Hm as [->|[_ (a & b & n & ->)]]; done).
  destruct (_normalize_decision decision) as [dn|] eqn:En; [|done].
  destruct (hi_config _ _ _ _ Hi) as (E1 & E2 & E3).
  destruct (approval_expired r0 t) eqn:Ex; cbn [fst snd log_after].
  - destruct w as [m f].
    match goal with |- context [_log ?a ?b ?c ?e ?g] => destruct (log_fields a b c e g) as (Ep & F1 & F2 & F3 & F4) end.
    eapply (hitl_inv_timeout m _ f t subs log id r0);
      [exact Hi|exact El|exact Ex|exact Ep|exact F1|exact F2|exact F3|exact F4].
  - assert (String.eqb (decision_value dn) "timeout" = false ∧
            (decision_value dn = "approve" ∨ decision_value dn = "deny")) as [Hdt Hdv].
    { unfold _normalize_decision in En. destruct (_ ∈? _); [injection En as <-; auto|].
      destruct (_ ∈? _); [injection En as <-; auto|done]. }
    cbn [ap_status with_status]. rewrite Hdt.
    match goal with |- context [_log ?a ?b ?c ?e ?g] =>
      destruct (log_fields a b c e g) as (Ep & F1 & F2 & F3 & F4); set (m2 := _log a b c e g) in * end.
    simpl in Ep, F1, F3, F4. match goal with |- context [decision_entry ?x] => set (r' := x) end.
    destruct (append_stored w (with_pending m2 (dict_pop id (hm_pending m2))) (decision_entry r'))
      as [Hst Hp]; [simpl; congruence|simpl; congruence|simpl; congruence|].
    eapply (hitl_inv_decide w _ t subs log id r0 r'); try done.
    rewrite Hp. simpl. rewrite Ep. apply pop_dict_set.
Qed.

Lemma get_inv w t subs log id :
  hitl_inv w t subs log → hitl_inv (get_approval w id t).2 t subs log.
Proof.
  intros Hi. unfold get_approval. rewrite (sync_noop w t subs log t Hi).
  destruct (alookup id (hm_pending (w_mgr w))) as [r|] eqn:El; [|done].
  destruct (approval_expired r t) eqn:Ex; [|done]. destruct w as [m f]. cbn [snd w_mgr w_file].
  destruct (mark_fields m id r t) as (Ep & F1 & F2 & F3 & F4).
  eapply (hitl_inv_timeout m _ f t subs log id r);
    [exact Hi|exact El|exact Ex|exact Ep|exact F1|exact F2|exact F3|exact F4].
Qed.

Lemma pending_inv w t subs log :
  hitl_inv w t subs log → hitl_inv (pending_approvals w t).2 t subs log.
Proof.
  intros Hi. unfold pending_approvals. rewrite (sync_noop w t subs log t Hi).
  destruct w as [m f]. cbn [snd w_mgr w_file]. unfold mark_all.
  change (fun m ir => if approval_expired ir.2 t then _mark_expired m ir.1 ir.2 t else m) with (mark_step t).
  fold (expired_ids t (hm_pending m)).
  destruct (mark_fold t (hm_pending m) m) as (M1 & M2 & F1 & F2 & F3 & F4).
  set (m1 := foldl (mark_step t) m (hm_pending m)) in *.
  destruct (pop_fold (expired_ids t (hm_pending m)) (hm_pending m1)) as (P1 & P2 & P3).
  set (p' := foldl _ (hm_pending m1) _) in *. destruct Hi as [H1 H2 H3 H4 H5 H6 H7 H8 H9 H10]. simpl in *.
  assert (∀ i, alookup i p' = if decide (i ∈ expired_ids t (hm_pending m)) then None
                              else alookup i (hm_pending m)) as Hp'.
  { intros i. rewrite P1. case_decide; [done|]. by apply M1. }
  assert (length p' ≤ length (hm_pending m)) as Hlen.
  { rewrite <- (length_fmap fst p'), <- (length_fmap fst (hm_pending m)).
    apply submseteq_length, NoDup_submseteq; [by auto|]. intros i Hin.
    destruct (alookup i p') as [x|] eqn:E; [|by apply alookup_None in E].
    rewrite Hp' in E. case_decide; [done|]. apply alookup_elem_of in E.
    by apply (list_elem_of_fmap_2 fst _ (i, x)). }
  split; simpl; try done.
  - by rewrite F1, F3, F4.
  - by rewrite F2.
  - by auto.
  - intros Hl. specialize (H4 Hl). lia.
  - intros i r. rewrite Hp'. case_decide; [done|]. apply H6.
  - intros i r0 Hr0 Hnl. rewrite Hp'. case_decide as Hd; [|by apply H7].
    intros _. apply expired_ids_alookup in Hd as (r & Hr & Hx); [|done].
    destruct (H6 i r Hr) as (r1 & Hr1 & _ & Hm). rewrite Hr0 in Hr1. injection Hr1 as <-.
    destruct Hm as [->|[Hx' _]]; done.
Qed.

Lemma run_inv w t subs log : hitl_run w t subs log → hitl_inv w t subs log.
Proof.
  induction 1 as [now|w t subs log flow step reason by_ ttl d actors payload uuid now _ IH Hle Hu o
    |w t subs log id decision actor note now _ IH Hle o|w t subs log id now _ IH Hle|w t subs log now _ IH Hle].
  - unfold hitl_new. destruct persistent eqn:Ep; simpl; split; simpl; try done; try (by constructor); try lia.
    all: try (intros; set_solver).
    intros _ m0 now' Hm0. exists m0. split; [done|]. intros id. by rewrite Hm0.
  - apply submit_inv; [|done]. by eapply hitl_inv_time.
  - apply decide_inv. by eapply hitl_inv_time.
  - apply get_inv. by eapply hitl_inv_time.
  - apply pending_inv. by eapply hitl_inv_time.
Qed.


(** Recovery: a manager started on the store file of a running one knows
    the same open requests: asked at the same time, it returns a record with
    status pending exactly when the running manager returns that record. *)
Theorem hitl_recovery w t subs log now :
  persistent = true → hitl_run w t subs log → (t <= now)%Z →
  ∃ w', hitl_new true default_ttl limit persistent audit (w_file w) now = (None, w') ∧
    ∀ id r, ap_status r = "pending" →
      ((get_approval w' id now).1 = Ok (Some r) ↔ (get_approval w id now).1 = Ok (Some r)).
Proof.
  intros Hp Hr Hle. pose proof (hitl_inv_time _ _ _ _ _ (run_inv _ _ _ _ Hr) Hle) as Hi.
  unfold hitl_new. rewrite Hp. simpl.
  set (m0 := mkHitl true default_ttl (Z.max 0 limit) true audit [] 0).
  destruct (hi_file _ _ _ _ Hi Hp m0 now eq_refl) as (m' & Ha & Hm'). rewrite Ha.
  eexists. split; [done|]. intros id r Hst.
  assert (∀ w1 : world, _sync_store w1 now = (None, w1) →
    (get_approval w1 id now).1 = Ok (Some r) ↔
    alookup id (hm_pending (w_mgr w1)) = Some r ∧ approval_expired r now = false) as Hget.
  { intros w1 Hs. unfold get_approval. rewrite Hs.
    destruct (alookup id (hm_pending (w_mgr w1))) as [r1|]; [|naive_solver].
    destruct (approval_expired r1 now) eqn:E; simpl; naive_solver congruence. }
  assert (hm_persistent m' = true) as Hpm.
  { clear -Ha. assert (∀ l m m', apply_lines m l now true = (None, m') → hm_persistent m' = hm_persistent m) as Hall.
    { clear. induction l as [|[x|] l IH]; intros m m'; simpl; [by intros [= ->]| |apply IH].
      destruct (_apply_store_entry m x now true) as [[e|] m1] eqn:E; [done|].
      intros H1%IH. rewrite H1. unfold _apply_store_entry in E.
      repeat case_match; simplify_eq/=; done. }
    by apply Hall in Ha. }
  rewrite Hget, (Hget w); [|by eapply sync_noop|].
  - cbn [w_mgr hm_pending with_offset]. rewrite Hm'.
    destruct (decide (id ∈ log.*1)) as [Hin|Hnl].
    + split; [naive_solver|]. intros [E _]. by destruct (hi_pending _ _ _ _ Hi _ _ E) as (_ & _ & Hnl & _).
    + split.
      * intros [Hr0 Hx]. split; [|done].
        destruct (alookup id (hm_pending (w_mgr w))) as [r1|] eqn:E.
        -- destruct (hi_pending _ _ _ _ Hi _ _ E) as (r0 & Hr0' & _ & Hm).
           destruct Hm as [->|[Hx' _]]; congruence.
        -- pose proof (hi_gone _ _ _ _ Hi _ _ Hr0 Hnl E). congruence.
      * intros [E Hx]. destruct (hi_pending _ _ _ _ Hi _ _ E) as (r0 & Hr0 & _ & Hm).
        destruct Hm as [->|[_ (a & b & n & ->)]]; [done|]. done.
  - unfold _sync_store. cbn [w_mgr hm_persistent with_offset hm_store_offset w_file].
    rewrite Hpm, drop_all. done.
Qed.
End runs.

(** ** Examples *)

#[local] Existing Instance plain_text.

Definition demo_w0 : world := (hitl_new true 1000 1 true None [] 0).2.
Definition demo_sub (w : world) (uuid : string) (now : Z) : res ApprovalRecord * world :=
  submit w "f" "s" "why" "bot" None "deny" ["ops"] empty_map uuid now.
Definition demo_w1 : world := (demo_sub demo_w0 "a" 10).2.
Definition demo_w2 : world := (decide_approval demo_w1 "a" "Yes " "ops" None 500).2.

Lemma demo_run1 : ∃ subs, hitl_run 1000 1 true None demo_w1 10 subs [].
Proof.
  eexists. apply (hr_submit 1000 1 true None demo_w0 0 ∅ [] "f" "s" "why" "bot" None "deny" ["ops"]
                    empty_map "a" 10); [apply hr_new|lia|done].
Defined.

Lemma demo_run2 : ∃ subs, hitl_run 1000 1 true None demo_w2 500 subs [("a", ("approve", 500%Z))].
Proof.
  destruct demo_run1 as [subs Hr]. exists subs.
  apply (hr_decide 1000 1 true None demo_w1 10 subs [] "a" "Yes " "ops" None 500 Hr). lia.
Defined.


Lemma hitl_recovery_witness :
  ∃ w', hitl_new true 1000 1 true None (w_file demo_w1) 20 = (None, w') ∧
    ∃ r, (get_approval w' "a" 20).1 = Ok (Some r) ∧ ap_status r = "pending".
Proof.
  destruct demo_run1 as [subs Hr].
  destruct (hitl_recovery 1000 1 true None demo_w1 10 subs [] 20 eq_refl Hr) as (w' & Hw & Hget);
    [lia|].
  exists w'. split; [exact Hw|].
  exists (mkApproval "a" "f" "s" "why" "bot" 1000 DENY ["ops"] (Fin 10) empty_map "pending" None None None).
  split; [|reflexivity]. apply Hget; [reflexivity|]. by vm_compute.
Defined.

(** A request that [get] or [decide] finds expired is marked but stays in the
    queue: the next [get] returns it, [pending] lists it, and it counts against
    the limit for good. *)
Example expired_stays :
  let late := 2000000%Z in
  let w := (get_approval demo_w1 "a" late).2 in
  (get_approval demo_w1 "a" late).1 = Ok None ∧
  (ap_status <$> (match (get_approval w "a" late).1 with Ok (Some r) => [r] | _ => [] end)) = ["timeout"] ∧
  (ap_status <$> (match (pending_approvals w late).1 with Ok l => l | _ => [] end)) = ["timeout"] ∧
  (demo_sub w "b" late).1 = Raise (RuntimeError "approval queue is full").
Proof. by vm_compute. Qed.
