(* ===== verification/Guard.v ===== *)
(** * Guard filters ([tm/guard/filters.py])

    Rules that inspect the values a path selects in a payload.  Regular
    expressions are a parameter (class [PyRegex]): what [re.compile] makes of a
    pattern; handlers registered by other code are an argument of
    [evaluate].  Texts are compared as ASCII. *)

From S2P Require Import Prelude PyVal PyConv.
From stdpp Require Import base gmap strings list.
From Stdlib Require Import ZArith Lia Ascii ZifyBool.

(** ** Rules and decisions *)

Record GuardRule : Type := mkRule {
  gr_name : string;
  gr_path : option string;
  gr_options : list (string * json)
}.

Record GuardViolation : Type := mkViolation {
  gv_rule : string;
  gv_path : option string;
  gv_reason : string;
  gv_details : list (string * json)
}.

Definition violation_dict (v : GuardViolation) : list (string * json) :=
  let payload := [("rule", JStr (gv_rule v)); ("reason", JStr (gv_reason v))] in
  let payload :=
    match gv_path v with
    | Some p => if String.eqb p "" then payload else dict_set "path" (JStr p) payload
    | None => payload
    end in
  dict_update payload (gv_details v).

Record GuardDecision : Type := mkGuardDecision {
  gu_allowed : bool;
  gu_violations : list GuardViolation
}.

Definition gu_first (d : GuardDecision) : option GuardViolation := head (gu_violations d).

(** What a compiled pattern finds: [re.compile(pattern, flags).search]. *)
Class PyRegex := re_compile : string → bool → option (string → bool).

(** ** Paths *)

(** [text.strip] of the single and the double quote (codes 39 and 34). *)
Definition is_quote (c : ascii) : bool := Ascii.eqb c "039" || Ascii.eqb c "034".

Fixpoint lstrip_quotes (s : string) : string :=
  match s with
  | EmptyString => EmptyString
  | String c s' => if is_quote c then lstrip_quotes s' else s
  end.

Fixpoint rstrip_quotes (s : string) : string :=
  match s with
  | EmptyString => EmptyString
  | String c s' =>
      match rstrip_quotes s' with
      | EmptyString => if is_quote c then EmptyString else String c EmptyString
      | r => String c r
      end
  end.

Definition strip_quotes (s : string) : string := rstrip_quotes (lstrip_quotes s).

Definition flush (buffer : string) (tokens : list string) : list string :=
  if String.eqb buffer "" then tokens else tokens ++ [buffer].

Definition bracket_token (content : string) : string :=
  let content := strip content in
  if String.eqb content "*" || String.eqb content "" then "*" else strip_quotes content.

(** The loop: [bracket] is the text since an open bracket.  A bracket that is
    never closed ends the path. *)
Fixpoint path_loop (s buffer : string) (bracket : option string) (tokens : list string)
  : list string :=
  match s with
  | EmptyString => match bracket with None => flush buffer tokens | Some _ => tokens end
  | String c s' =>
      match bracket with
      | None =>
          if Ascii.eqb c "." then path_loop s' "" None (flush buffer tokens)
          else if Ascii.eqb c "[" then path_loop s' "" (Some "") (flush buffer tokens)
          else path_loop s' (buffer +:+ String c "") None tokens
      | Some content =>
          if Ascii.eqb c "]" then path_loop s' "" None (tokens ++ [bracket_token content])
          else path_loop s' "" (Some (content +:+ String c "")) tokens
      end
  end.

Definition _tokenize_path (path : string) : list string :=
  let cleaned := strip path in
  let cleaned :=
    match cleaned with
    | String "$" s => match s with String "." s' => s' | _ => s end
    | _ => cleaned
    end in
  (fun token => if String.eqb token "" then "*" else token) <$> path_loop cleaned "" None [].

Section guard.
Context {PT : PyText} {RX : PyRegex}.

(** What a token selects in one value. *)
Definition token_values (token : string) (v : json) : list json :=
  match v with
  | JObj m =>
      if String.eqb token "*" then m.*2
      else match alookup token m with Some w => [w] | None => [] end
  | JArr l =>
      if String.eqb token "*" then l
      else
        match int_of_str token with
        | Some i =>
            if (0 <=? i)%Z && (i <? Z.of_nat (length l))%Z then option_list (l !! Z.to_nat i)
            else []
        | None => []
        end
  | _ => []
  end.

Definition is_null (v : json) : bool := match v with JNull => true | _ => false end.

Fixpoint extract_loop (data : json) (tokens : list string) (current : list json) : list json :=
  match tokens with
  | [] => current
  | token :: tokens =>
      if String.eqb token "root" then extract_loop data tokens [data]
      else
        let next := filter (fun v => is_null v = false) (mjoin (token_values token <$> current)) in
        match next with [] => [] | _ => extract_loop data tokens next end
  end.

Definition _extract_values (data : json) (path : option string) : list json :=
  match path with
  | None => [data]
  | Some p =>
      if String.eqb p "" then [data]
      else
        match _tokenize_path p with
        | [] => [data]
        | tokens => extract_loop data tokens [data]
        end
  end.

(** ** Built-in handlers *)

Definition violation (rule : GuardRule) (reason : string) (details : list (string * json))
  : GuardViolation := mkViolation (gr_name rule) (gr_path rule) reason details.

Definition jnat (n : nat) : json := JInt (Z.of_nat n).

Definition _rule_length_max (rule : GuardRule) (values : list json) : res (list GuardViolation) :=
  match jget "value" (gr_options rule) with
  | JNull => Ok []
  | raw_limit =>
      match py_int raw_limit with
      | Raise (TypeError _) | Raise (ValueError _) => Ok []
      | Raise e => Raise e
      | Ok limit =>
          Ok (mjoin (imap (fun idx value =>
            let text := py_str other_str value in
            if negb (is_null value) && (limit <? Z.of_nat (String.length text))%Z then
              [violation rule "length_exceeded"
                 [("limit", JInt limit); ("actual", jnat (String.length text)); ("index", jnat idx)]]
            else []) values))
      end
  end.

(** [value in (None, "", [], {})]. *)
Definition is_blank (v : json) : bool :=
  match v with
  | JNull | JArr [] | JObj [] => true
  | JStr s => String.eqb s ""
  | _ => false
  end.

Definition _rule_required (rule : GuardRule) (values : list json) : res (list GuardViolation) :=
  if existsb (fun v => negb (is_blank v)) values then Ok []
  else Ok [violation rule "missing_required_value" []].

Definition _rule_regex_deny (rule : GuardRule) (values : list json) : res (list GuardViolation) :=
  match jget "pattern" (gr_options rule) with
  | JStr pattern =>
      if String.eqb pattern "" then Ok []
      else
        let ignore_case := truthy (default (JBool true) (alookup "ignore_case" (gr_options rule))) in
        match re_compile pattern ignore_case with
        | None => Raise (RegexError pattern)
        | Some search =>
            Ok (mjoin (imap (fun idx value =>
              match value with
              | JStr s =>
                  if search s then
                    [violation rule "regex_block" [("pattern", JStr pattern); ("index", jnat idx)]]
                  else []
              | _ => []
              end) values))
        end
  | _ => Ok []
  end.

(** [needle in text]. *)
Fixpoint str_contains (needle text : string) : bool :=
  String.prefix needle text ||
  match text with EmptyString => false | String _ text' => str_contains needle text' end.

Definition keywords_of (raw_list : list json) : list string :=
  omap (fun item => match item with JStr s => Some (str_lower s) | _ => None end) raw_list.

Definition _rule_deny_keywords (rule : GuardRule) (values : list json)
  : res (list GuardViolation) :=
  match jget "values" (gr_options rule) with
  | JArr raw_list =>
      match keywords_of raw_list with
      | [] => Ok []
      | keywords =>
          Ok (mjoin (imap (fun idx value =>
            match value with
            | JStr s =>
                match List.find (fun needle => str_contains needle (str_lower s)) keywords with
                | Some needle =>
                    [violation rule "keyword_block"
                       [("keyword", JStr needle); ("index", jnat idx)]]
                | None => []
                end
            | _ => []
            end) values))
      end
  | _ => Ok []
  end.

(** ** The engine *)

Definition GuardHandler : Type :=
  GuardRule → list json → list (string * json) → res (list GuardViolation).

(** [custom]: the handlers of the engine's registry and of [register_guard]. *)
Definition _resolve_handler (custom : string → option GuardHandler) (name : string)
  : option GuardHandler :=
  match custom name with
  | Some h => Some h
  | None =>
      if String.eqb name "length_max" then Some (fun r v _ => _rule_length_max r v)
      else if String.eqb name "required" then Some (fun r v _ => _rule_required r v)
      else if String.eqb name "regex_deny" then Some (fun r v _ => _rule_regex_deny r v)
      else if String.eqb name "deny_keywords" then Some (fun r v _ => _rule_deny_keywords r v)
      else None
  end.

Fixpoint collect (custom : string → option GuardHandler) (payload : json)
    (context : list (string * json)) (rules : list GuardRule) : res (list GuardViolation) :=
  match rules with
  | [] => Ok []
  | rule :: rules =>
      match _resolve_handler custom (gr_name rule) with
      | None => collect custom payload context rules
      | Some handler =>
          vs ← handler rule (_extract_values payload (gr_path rule)) context;
          rest ← collect custom payload context rules;
          Ok (vs ++ rest)
      end
  end.

Definition evaluate (custom : string → option GuardHandler) (payload : json)
    (rules : list GuardRule) (context : list (string * json)) : res GuardDecision :=
  violations ← collect custom payload context rules;
  Ok (mkGuardDecision (match violations with [] => true | _ => false end) violations).

Definition compile_rule (entry : json) : option GuardRule :=
  match entry with
  | JObj m =>
      match jget "type" m with
      | JStr raw_name =>
          if String.eqb (strip raw_name) "" then None
          else
            Some (mkRule (strip raw_name)
                    (match jget "path" m with
                     | JStr p => if String.eqb p "" then None else Some p
                     | _ => None
                     end)
                    (filter (fun kv => kv.1 ∉ ["type"; "path"]) m))
      | _ => None
      end
  | _ => None
  end.

Definition compile_rules (definitions : list json) : list GuardRule := omap compile_rule definitions.
End guard.

(** ** What the guard rules mean

    A declarative reading of paths and of the built-in rules, and the theorem
    that the engine decides it. *)

From S2P Require Import Prelude PyVal PyConv.
From stdpp Require Import base gmap strings list.
From Stdlib Require Import ZArith Lia Ascii ZifyBool.

Section spec.
Context {PT : PyText} {RX : PyRegex}.

(** ** Paths *)

(** One token leads from a value to another; [root] leads back to the payload. *)
Inductive path_step (data : json) : string → json → json → Prop :=
| ps_root v : path_step data "root" v data
| ps_key m k w : k ≠ "root" → k ≠ "*" → alookup k m = Some w → w ≠ JNull →
    path_step data k (JObj m) w
| ps_any_key m k w : (k, w) ∈ m → w ≠ JNull → path_step data "*" (JObj m) w
| ps_index l k i w : k ≠ "root" → k ≠ "*" → int_of_str k = Some i → (0 <= i)%Z →
    l !! Z.to_nat i = Some w → w ≠ JNull → path_step data k (JArr l) w
| ps_any_item l w : w ∈ l → w ≠ JNull → path_step data "*" (JArr l) w.

Fixpoint path_reaches (data : json) (tokens : list string) (v w : json) : Prop :=
  match tokens with
  | [] => v = w
  | t :: tokens => ∃ u, path_step data t v u ∧ path_reaches data tokens u w
  end.

Definition selected (data : json) (path : option string) (w : json) : Prop :=
  match path with
  | None => w = data
  | Some p => path_reaches data (_tokenize_path p) data w
  end.

Lemma is_null_false v : is_null v = false ↔ v ≠ JNull.
Proof. by destruct v. Qed.

Lemma token_values_step data t v w :
  t ≠ "root" → (w ∈ token_values t v ∧ w ≠ JNull) ↔ path_step data t v w.
Proof.
  intros Hr. split.
  - intros [Hin Hw]. destruct v as [| | | | |l|m]; simpl in Hin; try (by apply elem_of_nil in Hin).
    + destruct (String.eqb_spec t "*") as [->|Ht]; [by apply ps_any_item|].
      destruct (int_of_str t) as [i|] eqn:Ei; [|by apply elem_of_nil in Hin].
      destruct ((0 <=? i)%Z && (i <? Z.of_nat (length l))%Z) eqn:Eb; [|by apply elem_of_nil in Hin].
      apply andb_true_iff in Eb as [E1 E2].
      destruct (l !! Z.to_nat i) as [x|] eqn:El; simpl in Hin; [|by apply elem_of_nil in Hin].
      apply list_elem_of_singleton in Hin as ->. eapply ps_index; eauto; lia.
    + destruct (String.eqb_spec t "*") as [->|Ht].
      * apply list_elem_of_fmap in Hin as ([k x] & -> & Hin). by eapply ps_any_key.
      * destruct (alookup t m) as [x|] eqn:E; [|by apply elem_of_nil in Hin].
        apply list_elem_of_singleton in Hin as ->. by apply ps_key.
  - intros Hs. inversion Hs as [v0|m k w0 H1 H2 H3 H4|m k w0 H1 H2|l k i w0 H1 H2 H3 H4 H5 H6|l w0 H1 H2];
      subst; [done|..]; simpl; (split; [|done]).
    + by rewrite (proj2 (String.eqb_neq _ _) H2), H3, list_elem_of_singleton.
    + by apply (list_elem_of_fmap_2 snd _ (k, w)).
    + rewrite (proj2 (String.eqb_neq _ _) H2), H3. pose proof (lookup_lt_Some _ _ _ H5).
      rewrite (proj2 (Z.leb_le _ _) H4), (proj2 (Z.ltb_lt _ _)) by lia. simpl.
      rewrite H5. by apply list_elem_of_singleton.
    + done.
Qed.

Lemma extract_loop_spec data tokens current w :
  current ≠ [] →
  w ∈ extract_loop data tokens current ↔ ∃ v, v ∈ current ∧ path_reaches data tokens v w.
Proof.
  revert current. induction tokens as [|t tokens IH]; intros current Hne; simpl.
  { split; [intros Hw; by exists w|by intros (v & Hv & <-)]. }
  destruct (String.eqb_spec t "root") as [->|Hr].
  - rewrite IH by done. split.
    + intros (v & ->%list_elem_of_singleton & Hp). destruct current as [|c current]; [done|].
      exists c. split; [left|]. exists data. split; [constructor|done].
    + intros (v & _ & u & Hs & Hp). exists data. split; [by left|].
      inversion Hs; subst; done.
  - set (next := filter _ _).
    assert (∀ u, u ∈ next ↔ ∃ v, v ∈ current ∧ path_step data t v u) as Hn.
    { intros u. unfold next. rewrite list_elem_of_filter, is_null_false, list_elem_of_join.
      setoid_rewrite list_elem_of_fmap. split.
      - intros (Hu & vs & Hin & v & -> & Hv). exists v. split; [done|]. by apply token_values_step.
      - intros (v & Hv & [Hin Hu]%token_values_step); [|done]. split; [done|]. eauto. }
    clearbody next. transitivity (∃ u, u ∈ next ∧ path_reaches data tokens u w).
    + destruct next as [|x next]; [|by apply IH].
      split; [by intros ?%elem_of_nil|by intros (u & ?%elem_of_nil & _)].
    + split.
      * intros (u & (v & Hv & Hs)%Hn & Hp). exists v. eauto.
      * intros (v & Hv & u & Hs & Hp). exists u. split; [|done]. apply Hn. eauto.
Qed.

Lemma extract_values_spec data path w : w ∈ _extract_values data path ↔ selected data path w.
Proof.
  destruct path as [p|]; [|apply list_elem_of_singleton]. unfold _extract_values, selected.
  destruct (String.eqb_spec p "") as [->|Hp].
  { rewrite list_elem_of_singleton. simpl. split; congruence. }
  destruct (_tokenize_path p) as [|t ts] eqn:E.
  { rewrite list_elem_of_singleton. simpl. split; congruence. }
  rewrite extract_loop_spec by done. split.
  - by intros (v & ->%list_elem_of_singleton & H).
  - intros H. exists data. split; [by left|done].
Qed.

(** ** Substrings *)

Lemma prefix_spec a s : String.prefix a s = true ↔ ∃ b, s = a +:+ b.
Proof.
  revert s. induction a as [|c a IH]; intros s; simpl.
  - split; [intros _; by exists s|by destruct s].
  - destruct s as [|d s]; [split; [done|by intros [b [=]]]|].
    cbn [String.prefix]. destruct (ascii_dec c d) as [->|Hne].
    + rewrite IH. split; intros [b Hb]; exists b; simpl in *; congruence.
    + split; [done|]. intros [b Hb]. simpl in Hb. congruence.
Qed.

Lemma str_contains_spec needle text :
  str_contains needle text = true ↔ ∃ a b, text = a +:+ needle +:+ b.
Proof.
  induction text as [|c text IH]; cbn [str_contains]; rewrite orb_true_iff, prefix_spec.
  - split.
    + intros [[b Hb]|H]; [|done]. exists "", b. done.
    + intros (a & b & H). left. exists b. destruct a; [done|]. done.
  - rewrite IH. split.
    + intros [[b Hb]|(a & b & ->)]; [by exists "", b|]. by exists (String c a), b.
    + intros ([|d a] & b & H); simpl in H; [left; by exists b|]. right. injection H as -> ->. by exists a, b.
Qed.

(** ** Rules *)

(** A rule the engine can evaluate: the limit is not infinite, the pattern is a
    regular expression. *)
Definition rule_ok (r : GuardRule) : bool :=
  if String.eqb (gr_name r) "length_max" then
    match jget "value" (gr_options r) with
    | JFloat PInf | JFloat NInf => false
    | _ => true
    end
  else if String.eqb (gr_name r) "regex_deny" then
    match jget "pattern" (gr_options r) with
    | JStr pattern =>
        String.eqb pattern "" ||
        bool_decide (is_Some (re_compile pattern
          (truthy (default (JBool true) (alookup "ignore_case" (gr_options r))))))
    | _ => true
    end
  else true.

(** The limit, the pattern and the keywords a rule is configured with. *)
Definition length_limit (r : GuardRule) : option Z :=
  match jget "value" (gr_options r) with
  | JNull => None
  | raw => match py_int raw with Ok limit => Some limit | Raise _ => None end
  end.

Definition deny_search (r : GuardRule) : option (string → bool) :=
  match jget "pattern" (gr_options r) with
  | JStr pattern =>
      if String.eqb pattern "" then None
      else re_compile pattern (truthy (default (JBool true) (alookup "ignore_case" (gr_options r))))
  | _ => None
  end.

Definition deny_list (r : GuardRule) : list string :=
  match jget "values" (gr_options r) with JArr raw => keywords_of raw | _ => [] end.

(** What a built-in rule demands of one value, given its configuration. *)
Definition value_ok (r : GuardRule) (v : json) : Prop :=
  if String.eqb (gr_name r) "length_max" then
    ∀ limit, length_limit r = Some limit → v ≠ JNull →
      (Z.of_nat (String.length (py_str other_str v)) <= limit)%Z
  else if String.eqb (gr_name r) "regex_deny" then
    ∀ search s, deny_search r = Some search → v = JStr s → search s = false
  else if String.eqb (gr_name r) "deny_keywords" then
    ∀ k s, k ∈ deny_list r → v = JStr s → ¬ ∃ a b, str_lower s = a +:+ k +:+ b
  else True.

(** What a built-in rule demands of the payload. *)
Definition rule_holds (data : json) (r : GuardRule) : Prop :=
  if String.eqb (gr_name r) "required" then
    ∃ v, selected data (gr_path r) v ∧ is_blank v = false
  else ∀ v, selected data (gr_path r) v → value_ok r v.

(** ** One lemma per handler *)

(** The verdict of a handler: violations of that rule, none exactly when the
    rule holds. *)
Definition verdict (data : json) (r : GuardRule) (out : res (list GuardViolation)) : Prop :=
  if rule_ok r then
    ∃ vs, out = Ok vs ∧ (vs = [] ↔ rule_holds data r) ∧
          Forall (fun v => gv_rule v = gr_name r ∧ gv_path v = gr_path r) vs
  else ∃ e, out = Raise e.

(** A handler that looks at each value in turn. *)
Lemma each_value_spec (f : nat → json → list GuardViolation) data r :
  rule_ok r = true → gr_name r ≠ "required" →
  (∀ i v, f i v = [] ↔ value_ok r v) →
  (∀ i v, Forall (fun x => gv_rule x = gr_name r ∧ gv_path x = gr_path r) (f i v)) →
  verdict data r (Ok (mjoin (imap f (_extract_values data (gr_path r))))).
Proof.
  intros Hok Hreq Hf HF. unfold verdict, rule_holds. rewrite Hok.
  rewrite (proj2 (String.eqb_neq _ _) Hreq). eexists. split; [done|].
  assert (∀ l g, (∀ i v, g i v = [] ↔ value_ok r v) →
            (∀ i v, Forall (fun x => gv_rule x = gr_name r ∧ gv_path x = gr_path r) (g i v)) →
            (mjoin (imap g l) = [] ↔ ∀ v, v ∈ l → value_ok r v) ∧
            Forall (fun x => gv_rule x = gr_name r ∧ gv_path x = gr_path r) (mjoin (imap g l))) as H.
  { clear f Hf HF. induction l as [|a l IH]; intros g Hg HG; simpl.
    { split; [|constructor]. split; [by intros _ v ?%elem_of_nil|done]. }
    destruct (IH (g ∘ S)) as [E HE]; [intros i v; apply Hg|intros i v; apply HG|].
    split; [|apply Forall_app; split; [apply HG|exact HE]].
    rewrite app_nil, Hg, E. split.
    - intros [Ha Hl] v [->|Hv]%elem_of_cons; [done|by apply Hl].
    - intros Hl. split; [apply Hl; left|]. intros v Hv. apply Hl. by right. }
  destruct (H (_extract_values data (gr_path r)) f Hf HF) as [E HE]. split; [|done].
  rewrite E. by setoid_rewrite extract_values_spec.
Qed.

(** A rule without an effective configuration finds nothing. *)
Lemma no_config_spec data r :
  rule_ok r = true → gr_name r ≠ "required" → (∀ v, value_ok r v) → verdict data r (Ok []).
Proof.
  intros Hok Hreq Hv. unfold verdict, rule_holds. rewrite Hok, (proj2 (String.eqb_neq _ _) Hreq).
  exists []. split_and!; [done| |constructor]. split; [|done]. intros _ v _. apply Hv.
Qed.

Lemma length_max_spec data r :
  gr_name r = "length_max" →
  verdict data r (_rule_length_max r (_extract_values data (gr_path r))).
Proof.
  intros Hn. assert (∀ v, value_ok r v ↔ ∀ limit, length_limit r = Some limit → v ≠ JNull →
    (Z.of_nat (String.length (py_str other_str v)) <= limit)%Z) as Hvo.
  { intros v. unfold value_ok. by rewrite Hn. }
  unfold _rule_length_max. destruct (decide (jget "value" (gr_options r) = JNull)) as [En|Hnn].
  { rewrite En. apply no_config_spec; [unfold rule_ok; by rewrite Hn, En|by rewrite Hn|].
    intros v. apply Hvo. unfold length_limit. rewrite En. done. }
  assert (length_limit r = match py_int (jget "value" (gr_options r)) with Ok l => Some l | Raise _ => None end) as El.
  { unfold length_limit. by destruct (jget "value" (gr_options r)). }
  assert (rule_ok r = match jget "value" (gr_options r) with JFloat PInf | JFloat NInf => false | _ => true end) as Er.
  { unfold rule_ok. by rewrite Hn. }
  destruct (py_int (jget "value" (gr_options r))) as [limit|ex] eqn:Ei.
  - assert (rule_ok r = true) as Hok.
    { rewrite Er. destruct (jget "value" (gr_options r)) as [| | |[]| | |]; done. }
    match goal with |- verdict _ _ ?o => assert (o = Ok (mjoin (imap (fun idx value =>
      if negb (is_null value) && (limit <? Z.of_nat (String.length (py_str other_str value)))%Z then
        [violation r "length_exceeded" [("limit", JInt limit);
           ("actual", jnat (String.length (py_str other_str value))); ("index", jnat idx)]]
      else []) (_extract_values data (gr_path r))))) as ->
        by (destruct (jget "value" (gr_options r)); [done|by rewrite Ei..]) end.
    apply each_value_spec; [done|by rewrite Hn| |].
    + intros i v. rewrite Hvo, El. pose proof (is_null_false v).
      destruct (is_null v) eqn:Env; simpl; [naive_solver|].
      destruct (Z.ltb_spec limit (Z.of_nat (String.length (py_str other_str v)))); split; try done.
      * intros H1. specialize (H1 limit eq_refl). naive_solver lia.
      * intros _ l [= <-] _. done.
    + intros i v. destruct (_ && _); repeat constructor.
  - destruct (rule_ok r) eqn:Hok.
    + assert (∀ v, value_ok r v) as Hall by (intros v; apply Hvo; by rewrite El).
      pose proof (no_config_spec data r Hok ltac:(by rewrite Hn) Hall) as H.
      destruct (jget "value" (gr_options r)) as [| | |[]|st| |]; simpl in *; simplify_eq; try done.
      by destruct (int_of_str st); simplify_eq.
    + unfold verdict. rewrite Hok.
      destruct (jget "value" (gr_options r)) as [| | |[]| | |]; simpl in *; simplify_eq; eauto.
Qed.

Lemma required_spec data r :
  gr_name r = "required" →
  verdict data r (_rule_required r (_extract_values data (gr_path r))).
Proof.
  intros Hn. unfold verdict, rule_ok, rule_holds, _rule_required. rewrite Hn. cbn -[_extract_values].
  assert (existsb (fun v => negb (is_blank v)) (_extract_values data (gr_path r)) = true ↔
          ∃ v, selected data (gr_path r) v ∧ is_blank v = false) as E.
  { rewrite existsb_exists. setoid_rewrite negb_true_iff. setoid_rewrite <- extract_values_spec.
    setoid_rewrite list_elem_of_In. done. }
  destruct (existsb _ _); (eexists; split; [done|]).
  - split; [|constructor]. split; [intros _; by apply E|done].
  - split; [|by repeat constructor]. split; [done|]. intros H. by apply E in H.
Qed.

Lemma regex_deny_spec data r :
  gr_name r = "regex_deny" →
  verdict data r (_rule_regex_deny r (_extract_values data (gr_path r))).
Proof.
  intros Hn. assert (∀ v, value_ok r v ↔ ∀ search s, deny_search r = Some search → v = JStr s →
    search s = false) as Hvo by (intros v; unfold value_ok; by rewrite Hn).
  unfold _rule_regex_deny.
  destruct (jget "pattern" (gr_options r)) as [| | | |p| |] eqn:Ep;
    try (apply no_config_spec; [unfold rule_ok; by rewrite Hn, Ep|by rewrite Hn|];
         intros v; apply Hvo; unfold deny_search; by rewrite Ep).
  assert (deny_search r = if String.eqb p "" then None else re_compile p _) as Es
    by (unfold deny_search; by rewrite Ep).
  assert (rule_ok r = String.eqb p "" || bool_decide (is_Some (re_compile p _))) as Er
    by (unfold rule_ok; rewrite Hn; simpl; by rewrite Ep).
  destruct (String.eqb p "") eqn:Epe.
  { apply no_config_spec; [by rewrite Er|by rewrite Hn|]. intros v. apply Hvo. by rewrite Es. }
  destruct (re_compile p _) as [search|] eqn:Ec.
  - apply each_value_spec; [by rewrite Er|by rewrite Hn| |].
    + intros i v. rewrite Hvo, Es. destruct v as [| | | |s| |]; try naive_solver.
      destruct (search s) eqn:E; naive_solver congruence.
    + intros i v. destruct v as [| | | |s| |]; try constructor. destruct (search s); repeat constructor.
  - unfold verdict. rewrite Er. simpl. eauto.
Qed.

Lemma deny_keywords_spec data r :
  gr_name r = "deny_keywords" →
  verdict data r (_rule_deny_keywords r (_extract_values data (gr_path r))).
Proof.
  intros Hn. assert (∀ v, value_ok r v ↔ ∀ k s, k ∈ deny_list r → v = JStr s →
    ¬ ∃ a b, str_lower s = a +:+ k +:+ b) as Hvo by (intros v; unfold value_ok; by rewrite Hn).
  assert (rule_ok r = true) as Hok by (unfold rule_ok; by rewrite Hn).
  unfold _rule_deny_keywords.
  destruct (jget "values" (gr_options r)) as [| | | | |raw|] eqn:Ev;
    try (apply no_config_spec; [done|by rewrite Hn|]; intros v; apply Hvo; unfold deny_list; rewrite Ev;
         intros k txt Hk; by apply elem_of_nil in Hk).
  assert (deny_list r = keywords_of raw) as Ed by (unfold deny_list; by rewrite Ev).
  destruct (keywords_of raw) as [|k0 ks].
  { apply no_config_spec; [done|by rewrite Hn|]. intros v. apply Hvo. rewrite Ed. by intros k s ?%elem_of_nil. }
  apply each_value_spec; [done|by rewrite Hn| |].
  - intros i v. rewrite Hvo, Ed. destruct v as [| | | |s| |];
      try (split; [intros _ k txt _ Heq; discriminate|reflexivity]).
    destruct (List.find _ _) as [needle|] eqn:Ef.
    + split; [done|]. intros H. apply List.find_some in Ef as [Hin Hc]. apply list_elem_of_In in Hin.
      destruct (H _ _ Hin eq_refl). by apply str_contains_spec.
    + split; [|done]. intros _ k s' Hin [= <-] Hc. apply str_contains_spec in Hc.
      apply list_elem_of_In in Hin. apply (List.find_none _ _ Ef) in Hin. cbn beta in Hin. congruence.
  - intros i v. destruct v as [| | | |s| |]; try constructor. destruct (List.find _ _); repeat constructor.
Qed.

(** ** The engine *)

(** Without handlers registered by other code. *)
Definition builtins_only : string → option GuardHandler := fun _ => None.

Lemma resolve_verdict data r ctx :
  match _resolve_handler builtins_only (gr_name r) with
  | Some h => verdict data r (h r (_extract_values data (gr_path r)) ctx)
  | None => rule_ok r = true ∧ rule_holds data r
  end.
Proof.
  unfold _resolve_handler, builtins_only.
  destruct (String.eqb_spec (gr_name r) "length_max"); [by apply length_max_spec|].
  destruct (String.eqb_spec (gr_name r) "required"); [by apply required_spec|].
  destruct (String.eqb_spec (gr_name r) "regex_deny"); [by apply regex_deny_spec|].
  destruct (String.eqb_spec (gr_name r) "deny_keywords"); [by apply deny_keywords_spec|].
  unfold rule_ok, rule_holds, value_ok. by rewrite !(proj2 (String.eqb_neq _ _)).
Qed.

(** A violation names a rule of the list. *)
Definition blames (rules : list GuardRule) (v : GuardViolation) : Prop :=
  ∃ r, r ∈ rules ∧ gv_rule v = gr_name r ∧ gv_path v = gr_path r.

Lemma collect_spec data ctx rules :
  if forallb rule_ok rules then
    ∃ vs, collect builtins_only data ctx rules = Ok vs ∧
          (vs = [] ↔ ∀ r, r ∈ rules → rule_holds data r) ∧ Forall (blames rules) vs
  else ∃ e, collect builtins_only data ctx rules = Raise e.
Proof.
  induction rules as [|r rules IH]; simpl.
  { exists []. split_and!; [done| |constructor]. split; [by intros _ r ?%elem_of_nil|done]. }
  assert (∀ v, blames rules v → blames (r :: rules) v) as Hmono.
  { intros v (r' & Hin & H). exists r'. split; [by right|done]. }
  pose proof (resolve_verdict data r ctx) as Hr.
  destruct (_resolve_handler builtins_only (gr_name r)) as [h|].
  - unfold verdict in Hr. destruct (rule_ok r); simpl.
    + destruct Hr as (vs & -> & Hvs & HF). destruct (forallb rule_ok rules).
      * destruct IH as (rest & -> & Hrest & HF'). exists (vs ++ rest). split_and!; [done| |].
        -- rewrite app_nil, Hvs, Hrest. split.
           ++ intros [H1 H2] r' [->|Hin]%elem_of_cons; [done|by apply H2].
           ++ intros H. split; [apply H; left|]. intros r' Hin. apply H. by right.
        -- apply Forall_app. split; [|by eapply Forall_impl].
           eapply Forall_impl; [exact HF|]. intros v Hv. exists r. split; [by left|done].
      * destruct IH as [e ->]. by exists e.
    + destruct Hr as [e ->]. by exists e.
  - destruct Hr as [-> Hh]. simpl. destruct (forallb rule_ok rules); [|done].
    destruct IH as (vs & -> & Hvs & HF). exists vs. split_and!; [done| |by eapply Forall_impl].
    rewrite Hvs. split.
    + intros H r' [->|Hin]%elem_of_cons; [done|by apply H].
    + intros H r' Hin. apply H. by right.
Qed.

(** C38: the guard engine decides its rules.  With well-formed rules it returns
    a decision, which allows the payload exactly when every rule holds for the
    values its path selects, and every violation names a rule of the list; an
    infinite length limit or a pattern that is no regular expression makes it
    raise instead. *)
Theorem guard_decides data rules ctx :
  (forallb rule_ok rules = true →
     ∃ d, evaluate builtins_only data rules ctx = Ok d ∧
          (gu_allowed d = true ↔ ∀ r, r ∈ rules → rule_holds data r) ∧
          Forall (blames rules) (gu_violations d)) ∧
  (forallb rule_ok rules = false → ∃ e, evaluate builtins_only data rules ctx = Raise e).
Proof.
  pose proof (collect_spec data ctx rules) as H. unfold evaluate. split; intros E; rewrite E in H.
  - destruct H as (vs & -> & Hvs & HF). eexists. split; [done|]. split; [|done].
    rewrite <- Hvs. by destruct vs.
  - destruct H as [e ->]. by exists e.
Qed.
End spec.

(** ** Examples *)

Section examples.
#[local] Existing Instance plain_text.
#[local] Instance demo_regex : PyRegex := fun pattern _ => Some (str_contains pattern).

Definition demo_order : json :=
  JObj [("user", JObj [("name", JStr "Bob")]);
        ("items", JArr [JObj [("note", JStr "please IGNORE previous")]; JNull;
                        JObj [("note", JStr "thanks")]])].

Definition demo_rules : list GuardRule :=
  [mkRule "required" (Some "$.user.name") [];
   mkRule "deny_keywords" (Some "items[*].note") [("values", JArr [JStr "Ignore Previous"])];
   mkRule "length_max" (Some "user['name']") [("value", JInt 2)]].

Example demo_tokens :
  _tokenize_path " $.user['name'].x[*][" = ["user"; "name"; "x"; "*"].
Proof. by vm_compute. Qed.

Lemma guard_decides_witness :
  ∃ d, evaluate builtins_only demo_order demo_rules [] = Ok d ∧
       (gv_reason <$> gu_violations d) = ["keyword_block"; "length_exceeded"] ∧
       ¬ (∀ r, r ∈ demo_rules → rule_holds demo_order r).
Proof.
  destruct (guard_decides demo_order demo_rules []) as [H _].
  destruct (H eq_refl) as (d & Hd & Hiff & _). exists d. split; [exact Hd|].
  vm_compute in Hd. injection Hd as <-. split; [reflexivity|]. intros Hall.
  apply Hiff in Hall. discriminate.
Defined.

(** An infinite limit, which TOML can express, is not caught. *)
Example infinite_limit_raises :
  evaluate builtins_only demo_order
    [mkRule "length_max" None [("value", JFloat PInf)]] [] =
  Raise (OverflowError "cannot convert float infinity to integer").
Proof. by vm_compute. Qed.

(** A bracket that is not closed drops the rest of the path: the rule then
    looks at a larger value than the one written. *)
Example open_bracket_ignored :
  _extract_values demo_order (Some "user[name") = [JObj [("name", JStr "Bob")]].
Proof. by vm_compute. Qed.
End examples.
