(* ===== verification/GovConfig.v ===== *)
(** * The governance configuration ([tm/governance/config.py], the loader of
      [tm/runtime/retry.py] and the guard entry points of
      [tm/governance/manager.py])

    A document is the value [tomllib] makes of the file: tables are objects;
    TOML has no null, dates are not represented.  Durations stay the floats the
    document gives; [breaker_of_doc] relates them to the breaker's clock
    ticks. *)

From S2P Require Import Prelude PyVal PyConv Rolling Breaker GovManager AuditLog Task Guard.
From stdpp Require Import base gmap strings list.
From Stdlib Require Import ZArith Lia Ascii.

(** ** Settings *)

Definition limit_off : LimitSettings := mkLimit false None None None None.

(** [BreakerSettings] with its durations as floats. *)
Record BreakerDoc : Type := mkBDoc {
  bk_enabled : bool;
  bk_window_sec : pyfloat;
  bk_failure_threshold : Z;
  bk_timeout_threshold : Z;
  bk_cooldown_sec : pyfloat;
  bk_half_open_max_calls : Z
}.

Definition breaker_off : BreakerDoc := mkBDoc false (of_int 30) 5 5 (of_int 30) 1.

Definition bk_is_active (s : BreakerDoc) : bool :=
  bk_enabled s && ((0 <? bk_failure_threshold s)%Z || (0 <? bk_timeout_threshold s)%Z).

(** Durations in whole milliseconds are the breaker's ticks. *)
Definition ms_of (f : pyfloat) : option Z :=
  match f with Fin z => if (z mod 1000 =? 0)%Z then Some (z / 1000)%Z else None | _ => None end.

Definition breaker_of_doc (s : BreakerDoc) : option BreakerSettings :=
  w ← ms_of (bk_window_sec s);
  c ← ms_of (bk_cooldown_sec s);
  Some (mkBS (bk_enabled s) w (bk_failure_threshold s) (bk_timeout_threshold s) c
          (bk_half_open_max_calls s)).

Record BreakersDoc : Type := mkBreakers {
  bks_enabled : bool;
  bks_global : BreakerDoc;
  bks_per_flow : gmap string BreakerDoc;
  bks_per_policy : gmap string BreakerDoc
}.

Record GuardConfig : Type := mkGuardConfig {
  gdc_enabled : bool;
  gdc_global : list json;
  gdc_flow : list (string * list json);
  gdc_policy : list (string * list json)
}.

Definition has_rules (c : GuardConfig) : bool :=
  match gdc_global c, gdc_flow c, gdc_policy c with [], [], [] => false | _, _, _ => true end.

Record HitlConfig : Type := mkHitlConfig {
  hc_enabled : bool;
  hc_default_ttl_ms : Z;
  hc_persistence_path : option string;
  hc_queue_size : Z
}.

Definition hitl_off : HitlConfig := mkHitlConfig false 600000 None 0.

Record AuditConfig : Type := mkAuditConfig {
  ac_enabled : bool;
  ac_path : string;
  ac_mask_fields : list string
}.

Definition audit_off : AuditConfig := mkAuditConfig false "data/audit.jsonl" ["input"; "output"].

Record GovernanceDoc : Type := mkGovDoc {
  gv_enabled : bool;
  gv_limits : LimitsConfig;
  gv_breaker : BreakersDoc;
  gv_guard : GuardConfig;
  gv_hitl : HitlConfig;
  gv_audit : AuditConfig
}.

(** [GovernanceConfig()]. *)
Definition default_doc : GovernanceDoc :=
  mkGovDoc false (mkLC false (mkLimit true None None None None) ∅ ∅)
    (mkBreakers false (mkBDoc true (of_int 30) 5 5 (of_int 30) 1) ∅ ∅)
    (mkGuardConfig false [] [] []) hitl_off audit_off.

Definition guard_enabled (c : GovernanceDoc) : bool :=
  gv_enabled c && gdc_enabled (gv_guard c) && has_rules (gv_guard c).
Definition hitl_enabled (c : GovernanceDoc) : bool := gv_enabled c && hc_enabled (gv_hitl c).
Definition audit_enabled (c : GovernanceDoc) : bool := gv_enabled c && ac_enabled (gv_audit c).

(** ** Reading fields *)

Abbreviation table := (list (string * json)) (only parsing).

Section loader.
Context {PT : PyText}.

Definition _get_bool (section : table) (key : string) (d : bool) : bool :=
  match jget key section with
  | JBool b => b
  | (JInt _ | JFloat _) as v => truthy v
  | JStr s =>
      let lowered := str_lower (strip s) in
      if lowered ∈? ["1"; "true"; "yes"; "on"] then true
      else if lowered ∈? ["0"; "false"; "no"; "off"] then false
      else d
  | _ => d
  end.

(** The value a failed conversion falls back to; other errors go up. *)
Definition or_default {A} (r : res A) (d : option A) : res (option A) :=
  match r with
  | Ok a => Ok (Some a)
  | Raise (TypeError _) | Raise (ValueError _) => Ok d
  | Raise e => Raise e
  end.

Definition _get_int (section : table) (key : string) (d : option Z) : res (option Z) :=
  match jget key section with
  | JNull => Ok d
  | (JBool _ | JInt _ | JFloat _ | JStr _) as v => or_default (py_int v) d
  | _ => Ok d
  end.

Definition _get_float (section : table) (key : string) (d : option pyfloat) : res (option pyfloat) :=
  match jget key section with
  | JNull => Ok d
  | (JBool _ | JInt _ | JFloat _ | JStr _) as v => or_default (py_float v) d
  | _ => Ok d
  end.

(** [value or fallback] on numbers. *)
Definition int_or (v : option Z) (fallback : Z) : Z :=
  match v with Some z => if (z =? 0)%Z then fallback else z | None => fallback end.

Definition float_or (v : option pyfloat) (fallback : pyfloat) : pyfloat :=
  match v with
  | Some (Fin 0) | None => fallback
  | Some f => f
  end.

Fixpoint _coalesce_sections (data : table) (keys : list string) : table :=
  match keys with
  | [] => []
  | key :: keys =>
      match jget key data with JObj section => section | _ => _coalesce_sections data keys end
  end.

(** ** Limits *)

Definition _parse_limit_settings (raw : json) : res LimitSettings :=
  match raw with
  | JObj m =>
      qps ← _get_float m "qps" None;
      concurrency ← _get_int m "concurrency" None;
      tokens ← _get_float m "tokens_per_min" None;
      cost ← _get_float m "cost_per_hour" None;
      Ok (mkLimit (_get_bool m "enabled" true) qps concurrency tokens cost)
  | _ => Ok limit_off
  end.

(** The entries of a table whose settings are active, by name. *)
Fixpoint parse_entries {S} (parse : json → res S) (active : S → bool) (entries : table)
    (acc : gmap string S) : res (gmap string S) :=
  match entries with
  | [] => Ok acc
  | (name, cfg) :: entries =>
      settings ← parse cfg;
      parse_entries parse active entries
        (if active settings then <[name := settings]> acc else acc)
  end.

(** The arms of one policy. *)
Fixpoint parse_arms (policy_name : string) (entries : table)
    (acc : gmap (string * string) LimitSettings) : res (gmap (string * string) LimitSettings) :=
  match entries with
  | [] => Ok acc
  | (arm_name, cfg) :: entries =>
      settings ← _parse_limit_settings cfg;
      parse_arms policy_name entries
        (if limit_is_active settings then <[(policy_name, arm_name) := settings]> acc else acc)
  end.

Fixpoint parse_policies (entries : table) (acc : gmap (string * string) LimitSettings)
  : res (gmap (string * string) LimitSettings) :=
  match entries with
  | [] => Ok acc
  | (policy_name, JObj policy_cfg) :: entries =>
      let arm_section := match jget "arm" policy_cfg with JObj m => m | _ => policy_cfg end in
      acc' ← parse_arms policy_name arm_section acc;
      parse_policies entries acc'
  | _ :: entries => parse_policies entries acc
  end.

(** The table under [key], when the section is enabled and has one. *)
Definition sub_table (section : table) (key : string) (enabled : bool) : table :=
  if enabled then match jget key section with JObj m => m | _ => [] end else [].

Definition _parse_limits (section : table) (enabled : bool) : res LimitsConfig :=
  global_cfg ← (if enabled then _parse_limit_settings (jget "global" section) else Ok limit_off);
  flow_settings ← parse_entries _parse_limit_settings limit_is_active
                    (sub_table section "flow" enabled) ∅;
  policy_settings ← parse_policies (sub_table section "policy" enabled) ∅;
  Ok (mkLC enabled (if limit_is_active global_cfg then global_cfg else limit_off) flow_settings
        policy_settings).

(** ** Breakers *)

Definition _parse_breaker_settings (raw : json) : res BreakerDoc :=
  match raw with
  | JObj m =>
      window ← _get_float m "window_sec" (Some (of_int 30));
      failures ← _get_int m "failure_threshold" (Some 5%Z);
      timeouts ← _get_int m "timeout_threshold" (Some 5%Z);
      cooldown ← _get_float m "cooldown_sec" (Some (of_int 30));
      half_open ← _get_int m "half_open_max_calls" (Some 1%Z);
      Ok (mkBDoc (_get_bool m "enabled" true) (float_or window (of_int 30)) (int_or failures 0)
            (int_or timeouts 0) (float_or cooldown fzero) (int_or half_open 1))
  | _ => Ok breaker_off
  end.

Definition _parse_breakers (section : table) (enabled : bool) : res BreakersDoc :=
  global_cfg ← (if enabled then _parse_breaker_settings (jget "global" section) else Ok breaker_off);
  flow_settings ← parse_entries _parse_breaker_settings bk_is_active
                    (sub_table section "flow" enabled) ∅;
  policy_settings ← parse_entries _parse_breaker_settings bk_is_active
                      (sub_table section "policy" enabled) ∅;
  Ok (mkBreakers enabled (if bk_is_active global_cfg then global_cfg else breaker_off)
        flow_settings policy_settings).

(** ** Guard rules *)

Definition rule_entry (item : json) : option json :=
  match item with
  | JObj m =>
      match jget "type" m with
      | JStr t => if String.eqb (strip t) "" then None else Some (JObj (dict_set "type" (JStr (strip t)) m))
      | _ => None
      end
  | _ => None
  end.

Definition _as_rule_tuple (items : list json) : list json := omap rule_entry items.

Definition _rules_from_obj (raw : json) : list json :=
  match raw with
  | JObj m => match alookup "type" m with Some _ => _as_rule_tuple [raw] | None => [] end
  | JArr l => _as_rule_tuple l
  | _ => []
  end.

(** The three collections the parser fills. *)
Record rule_sets : Type := mkSets {
  rs_global : list json;
  rs_flow : list (string * list json);
  rs_policy : list (string * list json)
}.

(** [d.setdefault(key, []).extend(rules)]. *)
Definition extend_at (key : string) (rules : list json) (d : list (string * list json))
  : list (string * list json) :=
  dict_set key (default [] (alookup key d) ++ rules) d.

Definition _consume_rules (scope : string) (target : option string) (rules_obj : json)
    (st : rule_sets) : rule_sets :=
  match _rules_from_obj rules_obj with
  | [] => st
  | rules =>
      if String.eqb scope "global" then mkSets (rs_global st ++ rules) (rs_flow st) (rs_policy st)
      else
        match given target with
        | Some t =>
            if String.eqb scope "flow" then
              mkSets (rs_global st) (extend_at t rules (rs_flow st)) (rs_policy st)
            else if String.eqb scope "policy" then
              mkSets (rs_global st) (rs_flow st) (extend_at t rules (rs_policy st))
            else st
        | None => st
        end
  end.

Definition consume_block (st : rule_sets) (block : json) : rule_sets :=
  match block with
  | JObj m =>
      let scope :=
        str_lower (strip (py_str other_str
          (jor (default (JStr "global") (alookup "scope" m)) (JStr "global")))) in
      let target := match jget "target" m with JStr t => Some t | _ => None end in
      _consume_rules scope target (default block (alookup "rules" m)) st
  | _ => st
  end.

Definition consume_named (scope : string) (entries : table) (st : rule_sets) : rule_sets :=
  foldl (fun st kv => _consume_rules scope (Some kv.1) kv.2 st) st entries.

Definition _parse_guard (section : table) (enabled : bool) : GuardConfig :=
  if negb enabled then mkGuardConfig false [] [] []
  else
    let st := match jget "rules" section with
              | JArr blocks => foldl consume_block (mkSets [] [] []) blocks
              | _ => mkSets [] [] []
              end in
    let st := match jget "global" section with
              | JObj m => _consume_rules "global" None (default (JObj m) (alookup "rules" m)) st
              | _ => st
              end in
    let st := match jget "flow" section with JObj m => consume_named "flow" m st | _ => st end in
    let st := match jget "policy" section with JObj m => consume_named "policy" m st | _ => st end in
    mkGuardConfig true (_as_rule_tuple (rs_global st))
      (prod_map id _as_rule_tuple <$> rs_flow st) (prod_map id _as_rule_tuple <$> rs_policy st).

(** ** Approvals and audit *)

Definition _parse_hitl (section : table) (enabled : bool) : res HitlConfig :=
  if negb enabled then Ok hitl_off
  else
    ttl ← _get_int section "default_ttl_ms" (Some 600000%Z);
    size ← _get_int section "queue_size" (Some 0%Z);
    Ok (mkHitlConfig true (int_or ttl 600000)
          (match jget "persistence" section with JStr p => Some p | _ => None end) (int_or size 0)).

Definition _parse_audit (section : table) (enabled : bool) : AuditConfig :=
  if negb enabled then audit_off
  else
    let masks :=
      match jget "mask_fields" section with
      | JArr (v :: l) => omap (fun e => match e with JStr s => Some s | _ => None end) (v :: l)
      | _ => ["input"; "output"]
      end in
    let path :=
      match jget "path" section with
      | JStr p => if String.eqb p "" then "data/audit.jsonl" else p
      | _ => "data/audit.jsonl"
      end in
    mkAuditConfig true path masks.

(** ** The loader *)

(** [data]: the document, or nothing when the file is missing or is not TOML. *)
Definition load_governance_config (data : option table) : res GovernanceDoc :=
  match data with
  | None => Ok default_doc
  | Some data =>
      let g := match jget "governance" data with JObj m => m | _ => data end in
      let enabled := _get_bool g "enabled" true in
      let limits_section := _coalesce_sections g ["limits"] in
      limits ← _parse_limits limits_section (_get_bool limits_section "enabled" true && enabled);
      let breaker_section := _coalesce_sections g ["breaker"; "circuit"; "circuit_breaker"] in
      breaker ← _parse_breakers breaker_section (_get_bool breaker_section "enabled" true && enabled);
      let guard_section := _coalesce_sections g ["guard"] in
      let guard := _parse_guard guard_section (_get_bool guard_section "enabled" true && enabled) in
      let hitl_section := _coalesce_sections g ["hitl"; "approval"] in
      hitl ← _parse_hitl hitl_section (_get_bool hitl_section "enabled" true && enabled);
      let audit_section := _coalesce_sections g ["audit"] in
      let audit := _parse_audit audit_section (_get_bool audit_section "enabled" true && enabled) in
      Ok (mkGovDoc enabled limits breaker guard hitl audit)
  end.
End loader.

(** ** Guard evaluation by the manager *)

Section manager.
Context {PT : PyText} {RX : PyRegex}.

(** The rules that apply to a request: global, of its flow, of its policy. *)
Definition rules_for (c : GuardConfig) (request : RequestDescriptor) : list GuardRule :=
  compile_rules (gdc_global c) ++
  match alookup (rq_flow request) (gdc_flow c) with Some rs => compile_rules rs | None => [] end ++
  match given (rq_binding request) with
  | Some policy =>
      match alookup policy (gdc_policy c) with Some rs => compile_rules rs | None => [] end
  | None => []
  end.

(** [meta.setdefault(key, value)]. *)
Definition dict_setdefault (key : string) (v : json) (m : table) : table :=
  match alookup key m with Some _ => m | None => dict_set key v m end.

Definition block_meta (d : GuardDecision) : table :=
  match gu_first d with
  | Some v => violation_dict v
  | None => [("reason", JStr "guard_blocked")]
  end.

Definition evaluate_guard (custom : string → option GuardHandler) (c : GovernanceDoc)
    (audit : AuditTrail) (payload : json) (request : RequestDescriptor) (now : Z)
  : res (GuardDecision * AuditTrail) :=
  if negb (guard_enabled c) then Ok (mkGuardDecision true [], audit)
  else
    match rules_for (gv_guard c) request with
    | [] => Ok (mkGuardDecision true [], audit)
    | rules =>
        decision ← evaluate custom payload rules
          [("flow", JStr (rq_flow request));
           ("binding", match rq_binding request with Some b => JStr b | None => JNull end)];
        if negb (gu_allowed decision) && at_enabled audit then
          let meta := dict_setdefault "flow" (JStr (rq_flow request)) (block_meta decision) in
          let meta :=
            match given (rq_binding request) with
            | Some b => dict_setdefault "binding" (JStr b) meta
            | None => meta
            end in
          Ok (decision, audit_record audit "guard_block" (Map meta) now)
        else Ok (decision, audit)
    end.

Definition evaluate_custom_guard (custom : string → option GuardHandler) (audit : AuditTrail)
    (rules : list json) (payload : json) (context : table) (now : Z)
  : res (GuardDecision * AuditTrail) :=
  decision ← evaluate custom payload (compile_rules rules) context;
  if negb (gu_allowed decision) && at_enabled audit then
    Ok (decision, audit_record audit "guard_block" (Map (block_meta decision)) now)
  else Ok (decision, audit).
End manager.

(** ** Retry settings *)

(** [RetrySettings] with its delays as floats. *)
Record RetryDoc : Type := mkRetryDoc {
  ry_max_attempts : Z;
  ry_base_ms : pyfloat;
  ry_factor : pyfloat;
  ry_jitter_ms : pyfloat;
  ry_dlq_after : option Z
}.

Definition retry_default : RetryDoc := mkRetryDoc 3 (of_int 200) (of_int 2) (of_int 50) None.

Section retry.
Context {PT : PyText}.

Definition _parse_retry_settings (raw : json) (fallback : option RetryDoc) : res RetryDoc :=
  let base := default retry_default fallback in
  match raw with
  | JObj m =>
      max_attempts ← match alookup "max_attempts" m with
                     | Some v => py_int v | None => Ok (ry_max_attempts base) end;
      base_ms ← match alookup "base_ms" m with
                | Some v => py_float v | None => Ok (ry_base_ms base) end;
      factor ← match alookup "factor" m with
               | Some v => py_float v | None => Ok (ry_factor base) end;
      jitter_ms ← match alookup "jitter_ms" m with
                  | Some v => py_float v | None => Ok (ry_jitter_ms base) end;
      dlq_after ← match alookup "dlq_after" m with
                  | Some JNull => Ok None
                  | Some v => z ← py_int v; Ok (Some z)
                  | None => Ok (ry_dlq_after base)
                  end;
      Ok (mkRetryDoc (Z.max 1 max_attempts) (fmax fzero base_ms) (fmax fone factor)
            (fmax fzero jitter_ms) dlq_after)
  | _ => Ok base
  end.

Definition _lookup (data : table) (key : string) : table :=
  match jget key data with JObj m => m | _ => [] end.

Fixpoint parse_flows (entries : table) (fallback : RetryDoc) (acc : gmap string RetryDoc)
  : res (gmap string RetryDoc) :=
  match entries with
  | [] => Ok acc
  | (flow_id, spec) :: entries =>
      settings ← _parse_retry_settings spec (Some fallback);
      parse_flows entries fallback (<[flow_id := settings]> acc)
  end.

Definition load_retry_policy (data : option table) : res (RetryDoc * gmap string RetryDoc) :=
  match data with
  | None => Ok (retry_default, ∅)
  | Some data =>
      let retry_data := _lookup data "retries" in
      default_settings ← _parse_retry_settings (jget "default" retry_data) None;
      per_flow ← parse_flows (_lookup retry_data "flow") default_settings ∅;
      Ok (default_settings, per_flow)
  end.
End retry.

(** ** What the configuration loaders guarantee

    Every document that loads gives well-formed settings; loading fails only
    on numbers that no conversion accepts. *)

From S2P Require Import Prelude PyVal PyConv Rolling Breaker GovManager AuditLog Task Guard.
From stdpp Require Import base gmap strings list.
From Stdlib Require Import ZArith Lia Ascii ZifyBool.

(** ** Well-formed settings *)

Record limits_ok (c : LimitsConfig) : Prop := {
  lk_global : limit_is_active (lc_global c) = true ∨ lc_global c = limit_off;
  lk_flow n s : lc_per_flow c !! n = Some s → limit_is_active s = true;
  lk_policy k s : lc_per_policy_arm c !! k = Some s → limit_is_active s = true;
  lk_off : lc_enabled c = false → any_limits c = false ∧ lc_per_flow c = ∅ ∧ lc_per_policy_arm c = ∅
}.

(** An active breaker has a window and admits a call when half-open. *)
Definition breaker_ok (s : BreakerDoc) : Prop :=
  bk_is_active s = true ∧ bk_window_sec s ≠ fzero ∧ bk_half_open_max_calls s ≠ 0%Z.

Record breakers_ok (c : BreakersDoc) : Prop := {
  bo_global : breaker_ok (bks_global c) ∨ bks_global c = breaker_off;
  bo_flow n s : bks_per_flow c !! n = Some s → breaker_ok s;
  bo_policy n s : bks_per_policy c !! n = Some s → breaker_ok s;
  bo_off : bks_enabled c = false → bks_global c = breaker_off ∧ bks_per_flow c = ∅ ∧ bks_per_policy c = ∅
}.

(** Every guard entry compiles to a rule. *)
Definition rules_ok (rules : list json) : Prop := Forall (fun r => is_Some (compile_rule r)) rules.

Record guard_ok (c : GuardConfig) : Prop := {
  go_global : rules_ok (gdc_global c);
  go_flow n rules : (n, rules) ∈ gdc_flow c → rules_ok rules;
  go_policy n rules : (n, rules) ∈ gdc_policy c → rules_ok rules;
  go_off : gdc_enabled c = false → has_rules c = false
}.

Record doc_ok (c : GovernanceDoc) : Prop := {
  dk_limits : limits_ok (gv_limits c);
  dk_breakers : breakers_ok (gv_breaker c);
  dk_guard : guard_ok (gv_guard c);
  dk_hitl : hc_default_ttl_ms (gv_hitl c) ≠ 0%Z;
  dk_audit : ac_path (gv_audit c) ≠ "";
  (** Governance that is off switches every part off. *)
  dk_off : gv_enabled c = false →
    lc_enabled (gv_limits c) = false ∧ bks_enabled (gv_breaker c) = false ∧
    gdc_enabled (gv_guard c) = false ∧ hc_enabled (gv_hitl c) = false ∧
    ac_enabled (gv_audit c) = false
}.

(** ** Numbers every conversion accepts *)

Fixpoint finite_numbers (v : json) : bool :=
  match v with
  | JFloat PInf | JFloat NInf => false
  | JInt z => (Z.abs z <? float_max)%Z
  | JArr l => forallb finite_numbers l
  | JObj m => forallb (fun kv => finite_numbers kv.2) m
  | _ => true
  end.

Definition finite_table (m : list (string * json)) : Prop :=
  forallb (fun kv => finite_numbers kv.2) m = true.

Lemma finite_jget m k : finite_table m → finite_numbers (jget k m) = true.
Proof.
  unfold finite_table, jget. intros H. destruct (alookup k m) as [v|] eqn:E; [|done]. simpl.
  apply alookup_elem_of in E. rewrite forallb_forall in H. apply (H (k, v)). by apply list_elem_of_In.
Qed.

Lemma finite_jget_obj m k m' : finite_table m → jget k m = JObj m' → finite_table m'.
Proof. intros H E. pose proof (finite_jget m k H) as H'. by rewrite E in H'. Qed.

Section spec.
Context {PT : PyText}.

(** An outcome that can only fail with [OverflowError], and not on [good] input. *)
Definition only_overflow {A} (good : Prop) (r : res A) : Prop :=
  (∀ e, r = Raise e → ∃ msg, e = OverflowError msg) ∧ (good → is_ok r = true).

Lemma only_overflow_ok {A} good (a : A) : only_overflow good (Ok a).
Proof. split; [done|done]. Qed.

Lemma only_overflow_bind {A B} good (r : res A) (f : A → res B) :
  only_overflow good r → (∀ a, r = Ok a → only_overflow good (f a)) →
  only_overflow good (a ← r; f a).
Proof.
  intros [H1 H2] Hf. destruct r as [a|e].
  - change (a0 ← Ok a; f a0) with (f a). by apply Hf.
  - split; [intros e' [= <-]; by apply H1|]. intros Hg. specialize (H2 Hg). done.
Qed.

Lemma get_int_overflow m k d : only_overflow (finite_table m) (_get_int m k d).
Proof.
  unfold _get_int. pose proof (finite_jget m k) as Hf.
  destruct (jget k m) as [|b|z|[z| | |]|s|l|o]; try apply only_overflow_ok; simpl;
    try (split; [intros e [= <-]; eauto|intros H; by specialize (Hf H)]).
  destruct (int_of_str s); apply only_overflow_ok.
Qed.

Lemma get_float_overflow m k d : only_overflow (finite_table m) (_get_float m k d).
Proof.
  unfold _get_float. pose proof (finite_jget m k) as Hf.
  destruct (jget k m) as [|b|z|f|s|l|o]; try apply only_overflow_ok; simpl.
  - destruct (Z.abs z <? float_max)%Z eqn:E; [apply only_overflow_ok|].
    split; [intros e [= <-]; eauto|]. intros H. specialize (Hf H). simpl in Hf. congruence.
  - destruct (float_of_str s); apply only_overflow_ok.
Qed.

Lemma only_overflow_impl {A} (good good' : Prop) (r : res A) :
  (good' → good) → only_overflow good r → only_overflow good' r.
Proof. intros Hg [H1 H2]. split; [done|auto]. Qed.

(** Peel binds off, one conversion at a time. *)
Ltac overflow :=
  repeat first
    [ apply only_overflow_ok
    | apply get_int_overflow
    | apply get_float_overflow
    | apply only_overflow_bind; [|intros ? ?] ].

Lemma parse_limit_overflow raw :
  only_overflow (finite_numbers raw = true) (_parse_limit_settings raw).
Proof.
  destruct raw as [| | | | | |m]; try apply only_overflow_ok. unfold _parse_limit_settings.
  change (finite_numbers (JObj m) = true) with (finite_table m). overflow.
Qed.

Lemma parse_breaker_overflow raw :
  only_overflow (finite_numbers raw = true) (_parse_breaker_settings raw).
Proof.
  destruct raw as [| | | | | |m]; try apply only_overflow_ok. unfold _parse_breaker_settings.
  change (finite_numbers (JObj m) = true) with (finite_table m). overflow.
Qed.

Lemma finite_cons k v m : finite_table ((k, v) :: m) → finite_numbers v = true ∧ finite_table m.
Proof. unfold finite_table. simpl. by intros [? ?]%andb_true_iff. Qed.

Lemma parse_entries_overflow {S} (parse : json → res S) active entries acc :
  (∀ raw, only_overflow (finite_numbers raw = true) (parse raw)) →
  only_overflow (finite_table entries) (parse_entries parse active entries acc).
Proof.
  intros Hp. revert acc. induction entries as [|[k v] entries IH]; intros acc; simpl; [apply only_overflow_ok|].
  apply only_overflow_bind; [eapply only_overflow_impl; [|apply Hp]; by intros [? _]%finite_cons|].
  intros s _. eapply only_overflow_impl; [|apply IH]. by intros [_ ?]%finite_cons.
Qed.

Lemma parse_arms_overflow name entries acc :
  only_overflow (finite_table entries) (parse_arms name entries acc).
Proof.
  revert acc. induction entries as [|[k v] entries IH]; intros acc; simpl; [apply only_overflow_ok|].
  apply only_overflow_bind; [eapply only_overflow_impl; [|apply parse_limit_overflow]; by intros [? _]%finite_cons|].
  intros s _. eapply only_overflow_impl; [|apply IH]. by intros [_ ?]%finite_cons.
Qed.

Lemma parse_policies_overflow entries acc :
  only_overflow (finite_table entries) (parse_policies entries acc).
Proof.
  revert acc. induction entries as [|[k v] entries IH]; intros acc; [apply only_overflow_ok|].
  assert (∀ acc, only_overflow (finite_table ((k, v) :: entries)) (parse_policies entries acc)) as Hrest.
  { intros acc'. eapply only_overflow_impl; [|apply IH]. by intros [_ ?]%finite_cons. }
  destruct v as [| | | | | |m]; simpl; try apply Hrest.
  apply only_overflow_bind; [|intros; apply Hrest].
  eapply only_overflow_impl; [|apply parse_arms_overflow]. intros [Hv _]%finite_cons.
  destruct (jget "arm" m) as [| | | | | |arm] eqn:E; try exact Hv. exact (finite_jget_obj m _ arm Hv E).
Qed.

Lemma finite_sub_table m k b : finite_table m → finite_table (sub_table m k b).
Proof.
  intros H. unfold sub_table. destruct b; [|done].
  destruct (jget k m) as [| | | | | |m'] eqn:E; try done. exact (finite_jget_obj m k m' H E).
Qed.

Lemma parse_limits_overflow section enabled :
  only_overflow (finite_table section) (_parse_limits section enabled).
Proof.
  unfold _parse_limits. apply only_overflow_bind.
  { destruct enabled; [|apply only_overflow_ok]. eapply only_overflow_impl; [|apply parse_limit_overflow].
    apply finite_jget. }
  intros g _. apply only_overflow_bind.
  { eapply only_overflow_impl; [|apply parse_entries_overflow, parse_limit_overflow]. apply finite_sub_table. }
  intros f _. apply only_overflow_bind; [|intros; apply only_overflow_ok].
  eapply only_overflow_impl; [|apply parse_policies_overflow]. apply finite_sub_table.
Qed.

Lemma parse_breakers_overflow section enabled :
  only_overflow (finite_table section) (_parse_breakers section enabled).
Proof.
  unfold _parse_breakers. apply only_overflow_bind.
  { destruct enabled; [|apply only_overflow_ok]. eapply only_overflow_impl; [|apply parse_breaker_overflow].
    apply finite_jget. }
  intros g _. apply only_overflow_bind.
  { eapply only_overflow_impl; [|apply parse_entries_overflow, parse_breaker_overflow]. apply finite_sub_table. }
  intros f _. apply only_overflow_bind; [|intros; apply only_overflow_ok].
  eapply only_overflow_impl; [|apply parse_entries_overflow, parse_breaker_overflow]. apply finite_sub_table.
Qed.

Lemma parse_hitl_overflow section enabled :
  only_overflow (finite_table section) (_parse_hitl section enabled).
Proof. unfold _parse_hitl. destruct (negb enabled); overflow. Qed.

Lemma finite_coalesce data keys : finite_table data → finite_table (_coalesce_sections data keys).
Proof.
  intros H. induction keys as [|k keys IH]; simpl; [done|].
  destruct (jget k data) as [| | | | | |m] eqn:E; try done. exact (finite_jget_obj data k m H E).
Qed.

(** ** What loads is well formed *)

Lemma parse_entries_active {S} (parse : json → res S) active (P : S → Prop) entries acc out :
  (∀ raw s, parse raw = Ok s → active s = true → P s) →
  parse_entries parse active entries acc = Ok out →
  (∀ n s, acc !! n = Some s → P s) → ∀ n s, out !! n = Some s → P s.
Proof.
  intros Hp. revert acc. induction entries as [|[k v] entries IH]; intros acc Ho Hacc; simpl in Ho.
  { by injection Ho as <-. }
  apply res_bind_ok in Ho as (st & Hst & Ho). apply (IH _ Ho). intros n s.
  destruct (active st) eqn:Ea; [|apply Hacc]. intros [[<- <-]|[_ H]]%lookup_insert_Some; eauto.
Qed.

Lemma parse_arms_active name entries acc out :
  parse_arms name entries acc = Ok out →
  (∀ k s, acc !! k = Some s → limit_is_active s = true) →
  ∀ k s, out !! k = Some s → limit_is_active s = true.
Proof.
  revert acc. induction entries as [|[k v] entries IH]; intros acc Ho Hacc; simpl in Ho.
  { by injection Ho as <-. }
  apply res_bind_ok in Ho as (st & Hst & Ho). apply (IH _ Ho). intros k' s.
  destruct (limit_is_active st) eqn:Ea; [|apply Hacc].
  intros [[<- <-]|[_ H]]%lookup_insert_Some; [done|by eapply Hacc].
Qed.

Lemma parse_policies_active entries acc out :
  parse_policies entries acc = Ok out →
  (∀ k s, acc !! k = Some s → limit_is_active s = true) →
  ∀ k s, out !! k = Some s → limit_is_active s = true.
Proof.
  revert acc. induction entries as [|[k v] entries IH]; intros acc Ho Hacc.
  { by injection Ho as <-. }
  destruct v as [| | | | | |m]; simpl in Ho; try (by apply (IH _ Ho)).
  apply res_bind_ok in Ho as (acc' & Ha & Ho). apply (IH _ Ho). by eapply parse_arms_active.
Qed.

Lemma parse_limits_ok section enabled c :
  _parse_limits section enabled = Ok c → limits_ok c ∧ lc_enabled c = enabled.
Proof.
  unfold _parse_limits. intros H. apply res_bind_ok in H as (g & Hg & H).
  apply res_bind_ok in H as (f & Hf & H). apply res_bind_ok in H as (p & Hp & [= <-]).
  split; [|done]. split; simpl.
  - destruct (limit_is_active g) eqn:E; [by left|by right].
  - apply (parse_entries_active _ _ (fun s => limit_is_active s = true) _ _ _ (fun _ _ _ H => H) Hf).
    intros n s H. by rewrite lookup_empty in H.
  - apply (parse_policies_active _ _ _ Hp). intros k s H. by rewrite lookup_empty in H.
  - intros ->. simpl in *. injection Hf as <-. injection Hp as <-. done.
Qed.

Lemma float_or_nonzero v d : d ≠ fzero → float_or v d ≠ fzero.
Proof. intros Hd. destruct v as [[[]| | |]|]; simpl; done. Qed.

Lemma int_or_nonzero v d : d ≠ 0%Z → int_or v d ≠ 0%Z.
Proof. intros Hd. destruct v as [z|]; simpl; [|done]. destruct (Z.eqb_spec z 0); done. Qed.

Lemma parse_breaker_ok raw s :
  _parse_breaker_settings raw = Ok s → bk_is_active s = true → breaker_ok s.
Proof.
  intros H Ha. split; [done|]. destruct raw as [| | | | | |m]; simpl in H; simplify_eq; try done.
  repeat (apply res_bind_ok in H as (? & _ & H)). injection H as <-. simpl.
  split; [by apply float_or_nonzero|by apply int_or_nonzero].
Qed.

Lemma parse_breakers_ok section enabled c :
  _parse_breakers section enabled = Ok c → breakers_ok c ∧ bks_enabled c = enabled.
Proof.
  unfold _parse_breakers. intros H. apply res_bind_ok in H as (g & Hg & H).
  apply res_bind_ok in H as (f & Hf & H). apply res_bind_ok in H as (p & Hp & [= <-]).
  split; [|done]. split; simpl.
  - destruct (bk_is_active g) eqn:E; [left|by right]. destruct enabled; [by eapply parse_breaker_ok|].
    by injection Hg as <-.
  - apply (parse_entries_active _ _ _ _ _ _ parse_breaker_ok Hf). intros n s H. by rewrite lookup_empty in H.
  - apply (parse_entries_active _ _ _ _ _ _ parse_breaker_ok Hp). intros n s H. by rewrite lookup_empty in H.
  - intros ->. simpl in *. injection Hg as <-. injection Hf as <-. injection Hp as <-. done.
Qed.

(** *** Guard rules *)

Lemma rule_entry_compiles item r : rule_entry item = Some r → is_Some (compile_rule r).
Proof.
  destruct item as [| | | | | |m]; simpl; try done. destruct (jget "type" m) as [| | | |t| |]; try done.
  destruct (String.eqb_spec (strip t) "") as [|Hne]; [done|]. intros [= <-]. simpl.
  unfold jget. rewrite alookup_dict_set, decide_True by done. simpl. rewrite strip_idem.
  rewrite (proj2 (String.eqb_neq _ _) Hne). eauto.
Qed.

Lemma as_rule_tuple_ok items : rules_ok (_as_rule_tuple items).
Proof.
  unfold rules_ok, _as_rule_tuple. apply Forall_forall. intros r (item & _ & H)%list_elem_of_omap.
  by eapply rule_entry_compiles.
Qed.

Lemma parse_guard_ok section enabled :
  guard_ok (_parse_guard section enabled) ∧ gdc_enabled (_parse_guard section enabled) = enabled.
Proof.
  unfold _parse_guard. destruct enabled; simpl.
  - split; [|done]. split; simpl; [apply as_rule_tuple_ok| | |done];
      intros n rules ([k v] & [= -> ->] & _)%list_elem_of_fmap; apply as_rule_tuple_ok.
  - split; [|done]. split; simpl; [constructor| | |done]; by intros n rules ?%elem_of_nil.
Qed.

Lemma parse_hitl_ok section enabled c :
  _parse_hitl section enabled = Ok c → hc_default_ttl_ms c ≠ 0%Z ∧ hc_enabled c = enabled.
Proof.
  unfold _parse_hitl. destruct enabled; simpl; [|by intros [= <-]]. intros H.
  apply res_bind_ok in H as (ttl & _ & H). apply res_bind_ok in H as (sz & _ & [= <-]).
  split; [by apply int_or_nonzero|done].
Qed.

Lemma parse_audit_ok section enabled :
  ac_path (_parse_audit section enabled) ≠ "" ∧ ac_enabled (_parse_audit section enabled) = enabled.
Proof.
  unfold _parse_audit. destruct enabled; simpl; [|done]. split; [|done].
  destruct (jget "path" section) as [| | | |p| |]; try done. by destruct (String.eqb_spec p "").
Qed.

End spec.

(** ** Examples *)

Section examples.
#[local] Existing Instance plain_text.

(** A limit that is not active is dropped, blank types are dropped, a zero
    window falls back to thirty seconds. *)
Example demo_load :
  let doc := [("governance", JObj [
     ("limits", JObj [("flow", JObj [("a", JObj [("qps", JInt 5)]); ("b", JObj [])])]);
     ("circuit", JObj [("global", JObj [("window_sec", JInt 0); ("failure_threshold", JInt 2)])]);
     ("guard", JObj [("rules", JArr [JObj [("type", JStr " required ")]; JObj [("type", JStr " ")]])])])] in
  match load_governance_config (Some doc) with
  | Ok c =>
      map_to_list (lc_per_flow (gv_limits c)) = [("a", mkLimit true (Some (of_int 5)) None None None)] ∧
      bks_global (gv_breaker c) = mkBDoc true (of_int 30) 2 5 (of_int 30) 1 ∧
      gdc_global (gv_guard c) = [JObj [("type", JStr "required")]]
  | Raise _ => False
  end.
Proof. by vm_compute. Qed.

(** [half_open_max_calls = inf] escapes the handler around [int]. *)
Example infinite_setting_raises :
  load_governance_config
    (Some [("breaker", JObj [("global", JObj [("half_open_max_calls", JFloat PInf)])])]) =
  Raise (OverflowError "cannot convert float infinity to integer").
Proof. by vm_compute. Qed.
End examples.
