(* ===== verification/MetaControl.v ===== *)
(** * Meta control ([tm/control/meta/kpi_tracker.py], [convergence.py],
      [escalation.py], [controller.py])

    The loop that runs controller cycles until a key figure reaches its target
    or the strategy fails.  The texts Python makes of floats and of times are
    parameters (class [Texts]); the cycle runner is an argument. *)

From S2P Require Import Prelude PyVal PyConv Task.
From stdpp Require Import base gmap strings list pretty.
From Stdlib Require Import ZArith Lia Ascii.

(** ** Key figures *)

Record CycleRecord : Type := mkCycle {
  cy_cycle_id : string;
  cy_timestamp : Z;
  cy_kpis : list (string * pyfloat);
  cy_policy_rule_fired : string;
  cy_act_status : string;
  cy_errors : list json
}.

Section cycle.
Context {PT : PyText}.

Definition _coerce_numeric (value : json) : option pyfloat :=
  match value with
  | JInt _ | JFloat _ =>
      match py_float value with Ok f => Some f | Raise _ => None end
  | JStr s => float_of_str s
  | _ => None
  end.

Definition add_kpi (key : string) (raw : json) (kpis : list (string * pyfloat))
  : list (string * pyfloat) :=
  match _coerce_numeric raw with Some f => dict_set key f kpis | None => kpis end.

Definition collect_kpis (snapshot : json) (kpi_keys : option (list string))
  : list (string * pyfloat) :=
  let env := match snapshot with
             | JObj m => default (JObj []) (alookup "environment" m)
             | _ => JObj []
             end in
  let metrics := match env with
                 | JObj m => default (JObj []) (alookup "metrics" m)
                 | _ => JObj []
                 end in
  match metrics with
  | JObj m =>
      match kpi_keys with
      | None => foldl (fun kpis kv => add_kpi kv.1 kv.2 kpis) [] m
      | Some keys => foldl (fun kpis key => add_kpi key (jget key m) kpis) [] keys
      end
  | _ => []
  end.

(** The [rule_id] of the first applied action. *)
Fixpoint first_applied (actions : list json) : string :=
  match actions with
  | [] => ""
  | JObj m :: actions =>
      if truthy (jget "applied" m)
      then py_str other_str (default (JStr "") (alookup "rule_id" m))
      else first_applied actions
  | _ :: actions => first_applied actions
  end.

Definition rule_fired (policy_result : json) : string :=
  match policy_result with
  | JObj m =>
      match default (JArr []) (alookup "actions" m) with
      | JArr actions => first_applied actions
      | _ => ""
      end
  | _ => ""
  end.

Definition from_cycle_outputs (cycle_id : string) (snapshot report policy_result : json)
    (kpi_keys : option (list string)) (now : Z) : res CycleRecord :=
  let report_map := match report with JObj m => m | _ => [] end in
  errors ← py_iter (default (JArr []) (alookup "errors" report_map));
  Ok (mkCycle cycle_id now (collect_kpis snapshot kpi_keys) (rule_fired policy_result)
        (py_str other_str (default (JStr "") (alookup "status" report_map))) errors).
End cycle.

(** [deque(maxlen=window_size)]. *)
Record KpiTracker : Type := mkTracker { kt_window_size : nat; kt_window : list CycleRecord }.

Definition tracker_new (window_size : nat) : KpiTracker := mkTracker window_size [].

(** The last [n] elements. *)
Definition last_n {A} (n : nat) (l : list A) : list A := drop (length l - n) l.

Definition kt_record (t : KpiTracker) (rec : CycleRecord) : KpiTracker :=
  mkTracker (kt_window_size t) (last_n (kt_window_size t) (kt_window t ++ [rec])).

Definition kt_count (t : KpiTracker) : nat := length (kt_window t).

Definition kpi_series (t : KpiTracker) (kpi_name : string) : list pyfloat :=
  omap (fun rec => alookup kpi_name (cy_kpis rec)) (kt_window t).

Definition kt_latest (t : KpiTracker) : option CycleRecord := last (kt_window t).

Definition kt_clear (t : KpiTracker) : KpiTracker := mkTracker (kt_window_size t) [].

(** ** Convergence *)

Inductive Trend : Type := IMPROVING | STALLED | WORSENING | INSUFFICIENT_DATA.

#[export] Instance Trend_eq_dec : EqDecision Trend.
Proof. solve_decision. Defined.

Definition trend_value (t : Trend) : string :=
  match t with
  | IMPROVING => "improving"
  | STALLED => "stalled"
  | WORSENING => "worsening"
  | INSUFFICIENT_DATA => "insufficient_data"
  end.

Record ConvergenceVerdict : Type := mkVerdict {
  cv_converged : bool;
  cv_trend : Trend;
  cv_kpi_name : string;
  cv_values : list pyfloat;
  cv_delta : pyfloat;
  cv_reason : string
}.

Definition needs_escalation (v : ConvergenceVerdict) : bool :=
  match cv_trend v with WORSENING | STALLED => true | _ => false end.

Record ConvergenceDetector : Type := mkDetector {
  dt_target_kpi : string;
  dt_target_value : pyfloat;
  dt_tolerance : pyfloat;
  dt_min_window : Z;
  dt_stall_threshold : pyfloat;
  dt_direction : string
}.

(** [f"{x:.4f}"], [f"{x:+.4f}"], [f"{x}"] and
    [time.strftime("%Y-%m-%dT%H:%M:%SZ", time.gmtime())]. *)
Class Texts := {
  fixed4 : pyfloat → string;
  signed4 : pyfloat → string;
  plain_float : pyfloat → string;
  utc_text : Z → string
}.

Definition fabs (f : pyfloat) : pyfloat :=
  match f with Fin z => Fin (Z.abs z) | NInf => PInf | f => f end.

(** [series[-n:]]. *)
Definition slice_last {A} (n : Z) (l : list A) : list A :=
  if (0 <? n)%Z then last_n (Z.to_nat n) l else drop (Z.to_nat (- n)) l.

Section convergence.
Context {TX : Texts}.

Definition detector_evaluate (d : ConvergenceDetector) (t : KpiTracker) : res ConvergenceVerdict :=
  let kpi := dt_target_kpi d in
  let series := kpi_series t kpi in
  if (Z.of_nat (length series) <? dt_min_window d)%Z then
    Ok (mkVerdict false INSUFFICIENT_DATA kpi series fzero
          ("need " +:+ pretty (dt_min_window d) +:+ " data points, have " +:+
           pretty (length series)))
  else
    let recent := slice_last (dt_min_window d) series in
    match head recent, last recent with
    | Some first, Some current =>
        let gap := fsub current (dt_target_value d) in
        if flt (fabs gap) (dt_tolerance d) then
          Ok (mkVerdict true IMPROVING kpi recent gap
                (kpi +:+ "=" +:+ fixed4 current +:+ " within tolerance of target " +:+
                 plain_float (dt_target_value d)))
        else
          let delta := fsub current first in
          if flt (fabs delta) (dt_stall_threshold d) then
            Ok (mkVerdict false STALLED kpi recent delta
                  (kpi +:+ " stalled: Δ=" +:+ signed4 delta +:+ " over " +:+
                   pretty (length recent) +:+ " cycles (threshold=" +:+
                   plain_float (dt_stall_threshold d) +:+ ")"))
          else if (if String.eqb (dt_direction d) "down" then flt delta fzero else flt fzero delta) then
            Ok (mkVerdict false IMPROVING kpi recent delta
                  (kpi +:+ " improving: Δ=" +:+ signed4 delta +:+ " over " +:+
                   pretty (length recent) +:+ " cycles"))
          else
            Ok (mkVerdict false WORSENING kpi recent delta
                  (kpi +:+ " worsening: Δ=" +:+ signed4 delta +:+ " over " +:+
                   pretty (length recent) +:+ " cycles — adversary may have adapted"))
    | _, _ => Raise (IndexError "list index out of range")
    end.

Definition with_kpi (d : ConvergenceDetector) (kpi : string) : ConvergenceDetector :=
  mkDetector kpi (dt_target_value d) (dt_tolerance d) (dt_min_window d) (dt_stall_threshold d)
    (dt_direction d).

Fixpoint evaluate_each (d : ConvergenceDetector) (t : KpiTracker) (kpis : list string)
  : res (list ConvergenceVerdict) :=
  match kpis with
  | [] => Ok []
  | kpi :: kpis =>
      v ← detector_evaluate (with_kpi d kpi) t;
      vs ← evaluate_each d t kpis;
      Ok (v :: vs)
  end.

(** [verdicts.sort(key=priority)] is stable: the verdicts of each trend, in
    their order. *)
Definition evaluate_multiple (d : ConvergenceDetector) (t : KpiTracker)
    (kpis : option (list string)) : res (list ConvergenceVerdict) :=
  let targets := match kpis with Some (k :: ks) => k :: ks | _ => [dt_target_kpi d] end in
  verdicts ← evaluate_each d t targets;
  Ok (mjoin ((fun trend => filter (fun v => cv_trend v = trend) verdicts) <$>
             [WORSENING; STALLED; INSUFFICIENT_DATA; IMPROVING])).
End convergence.

(** ** Escalation *)

Inductive Severity : Type := INFO | WARNING | CRITICAL.

#[export] Instance Severity_eq_dec : EqDecision Severity.
Proof. solve_decision. Defined.

Definition severity_value (s : Severity) : string :=
  match s with INFO => "info" | WARNING => "warning" | CRITICAL => "critical" end.

Inductive SuggestedAction : Type :=
| TIGHTEN_THRESHOLDS | ADD_NEW_RULE | UPDATE_KNOWLEDGE | RETRAIN_MODEL | HUMAN_REVIEW
| RECOMPILE_BUNDLE | ADJUST_KRIPKE_PROPERTIES.

Definition action_value (a : SuggestedAction) : string :=
  match a with
  | TIGHTEN_THRESHOLDS => "tighten_thresholds"
  | ADD_NEW_RULE => "add_new_rule"
  | UPDATE_KNOWLEDGE => "update_knowledge"
  | RETRAIN_MODEL => "retrain_model"
  | HUMAN_REVIEW => "human_review"
  | RECOMPILE_BUNDLE => "recompile_bundle"
  | ADJUST_KRIPKE_PROPERTIES => "adjust_kripke_properties"
  end.

Definition all_actions : list SuggestedAction :=
  [TIGHTEN_THRESHOLDS; ADD_NEW_RULE; UPDATE_KNOWLEDGE; RETRAIN_MODEL; HUMAN_REVIEW;
   RECOMPILE_BUNDLE; ADJUST_KRIPKE_PROPERTIES].

Definition all_trends : list Trend := [IMPROVING; STALLED; WORSENING; INSUFFICIENT_DATA].
Definition all_severities : list Severity := [INFO; WARNING; CRITICAL].

(** [Enum(value)]: the member with that value. *)
Definition enum_of {E} (members : list E) (value : E → string) (s : string) : option E :=
  List.find (fun m => String.eqb (value m) s) members.

Definition UNSPECIFIED_INTENT_REF : string := "intent.unspecified".

Record EscalationReport : Type := mkEscalation {
  es_report_id : string;
  es_timestamp : string;
  es_severity : Severity;
  es_intent_ref : string;
  es_verdicts : list ConvergenceVerdict;
  es_kpi_history : list CycleRecord;
  es_recent_rules_fired : list string;
  es_recent_errors : list string;
  es_gap_summary : string;
  es_suggested_actions : list SuggestedAction;
  es_counterexample : option (list (string * json));
  es_peer_node_id : option string
}.

Definition verdict_dict (v : ConvergenceVerdict) : json :=
  JObj [("kpi", JStr (cv_kpi_name v)); ("trend", JStr (trend_value (cv_trend v)));
        ("converged", JBool (cv_converged v)); ("delta", JFloat (cv_delta v));
        ("values", JArr (JFloat <$> cv_values v)); ("reason", JStr (cv_reason v))].

Definition report_dict (r : EscalationReport) : list (string * json) :=
  [("report_id", JStr (es_report_id r)); ("timestamp", JStr (es_timestamp r));
   ("severity", JStr (severity_value (es_severity r))); ("intent_ref", JStr (es_intent_ref r));
   ("verdicts", JArr (verdict_dict <$> es_verdicts r));
   ("kpi_history_count", JInt (Z.of_nat (length (es_kpi_history r))));
   ("recent_rules_fired", JArr (JStr <$> es_recent_rules_fired r));
   ("recent_errors", JArr (JStr <$> es_recent_errors r));
   ("gap_summary", JStr (es_gap_summary r));
   ("suggested_actions", JArr ((fun a => JStr (action_value a)) <$> es_suggested_actions r));
   ("counterexample", match es_counterexample r with
                      | Some (kv :: m) => JObj (kv :: m) | _ => JNull end)] ++
  match es_peer_node_id r with Some p => [("peer_node_id", JStr p)] | None => [] end.

Section report.
Context {PT : PyText}.

Definition text_of (key : string) (d : json) (m : list (string * json)) : string :=
  py_str other_str (default d (alookup key m)).

Fixpoint floats_of (l : list json) : res (list pyfloat) :=
  match l with
  | [] => Ok []
  | v :: l => f ← py_float v; fs ← floats_of l; Ok (f :: fs)
  end.

(** [isinstance(values_raw, Sequence)] holds for strings as well. *)
Definition verdict_of (m : list (string * json)) : res ConvergenceVerdict :=
  let trend := default INSUFFICIENT_DATA
                 (enum_of all_trends trend_value (text_of "trend" (JStr "insufficient_data") m)) in
  values ← match default (JArr []) (alookup "values" m) with
           | JArr l => floats_of l
           | JStr s => floats_of (chars s)
           | _ => Ok []
           end;
  delta ← py_float (default (JFloat fzero) (alookup "delta" m));
  Ok (mkVerdict (truthy (default (JBool false) (alookup "converged" m))) trend
        (text_of "kpi" (default (JStr "") (alookup "kpi_name" m)) m) values delta
        (text_of "reason" (JStr "") m)).

Fixpoint verdicts_of (l : list json) : res (list ConvergenceVerdict) :=
  match l with
  | [] => Ok []
  | JObj m :: l => v ← verdict_of m; vs ← verdicts_of l; Ok (v :: vs)
  | _ :: l => verdicts_of l
  end.

Definition list_at (key : string) (m : list (string * json)) : res (list json) :=
  py_iter (default (JArr []) (alookup key m)).

Definition report_of (data : list (string * json)) : res EscalationReport :=
  raw_verdicts ← list_at "verdicts" data;
  verdicts ← verdicts_of raw_verdicts;
  raw_actions ← list_at "suggested_actions" data;
  rules ← list_at "recent_rules_fired" data;
  errors ← list_at "recent_errors" data;
  Ok (mkEscalation (text_of "report_id" (JStr "") data) (text_of "timestamp" (JStr "") data)
        (default WARNING (enum_of all_severities severity_value
                            (text_of "severity" (JStr "warning") data)))
        (text_of "intent_ref" (JStr UNSPECIFIED_INTENT_REF) data) verdicts []
        (py_str other_str <$> rules) (py_str other_str <$> errors)
        (text_of "gap_summary" (JStr "") data)
        (omap (fun a => enum_of all_actions action_value (py_str other_str a)) raw_actions)
        (match jget "counterexample" data with JObj m => Some m | _ => None end)
        (match jget "peer_node_id" data with
         | JNull => None
         | v => Some (py_str other_str v)
         end)).
End report.

(** [sep.join(parts)]. *)
Fixpoint join_with (sep : string) (parts : list string) : string :=
  match parts with
  | [] => ""
  | [p] => p
  | p :: parts => p +:+ sep +:+ join_with sep parts
  end.

(** The elements of [cy_errors] must be texts to be joined; anything else makes
    [set.update], [sorted] or [join] raise. *)
Fixpoint texts_of (l : list json) : res (list string) :=
  match l with
  | [] => Ok []
  | JStr s :: l => ss ← texts_of l; Ok (s :: ss)
  | _ :: _ => Raise (TypeError "sequence item: expected str instance")
  end.

Section escalator.
Context {PT : PyText} {TX : Texts}.

(** The rules that fired, in order. *)
Definition rules_fired (records : list CycleRecord) : list string :=
  filter (fun r => r ≠ "") (cy_policy_rule_fired <$> records).

Definition errors_of (records : list CycleRecord) : list json := mjoin (cy_errors <$> records).

Definition _classify_severity (worst : ConvergenceVerdict) (t : KpiTracker) : Severity :=
  match cv_trend worst with
  | WORSENING => if kt_window_size t <=? kt_count t then CRITICAL else WARNING
  | STALLED => WARNING
  | _ => INFO
  end.

Definition _build_gap_summary (needs : list ConvergenceVerdict) (t : KpiTracker) : res string :=
  errors ← texts_of (errors_of (kt_window t));
  let parts := (fun v => "[" +:+ trend_value (cv_trend v) +:+ "] " +:+ cv_kpi_name v +:+ ": " +:+
                         cv_reason v) <$> needs in
  let fired := append_new [] (rules_fired (kt_window t)) in
  let parts := match fired with
               | [] => parts
               | _ => parts ++ ["Rules fired without effect: " +:+ join_with ", " (sort_strings fired)]
               end in
  let error_set := append_new [] errors in
  let parts := match error_set with
               | [] => parts
               | _ => parts ++ ["Execution errors: " +:+ join_with "; " (sort_strings error_set)]
               end in
  Ok (join_with " | " parts).

Definition _suggest_actions (worst : ConvergenceVerdict) (t : KpiTracker) : list SuggestedAction :=
  match cv_trend worst with
  | WORSENING =>
      [HUMAN_REVIEW; ADD_NEW_RULE; UPDATE_KNOWLEDGE] ++
      (if kt_window_size t <=? kt_count t then [RECOMPILE_BUNDLE] else [])
  | STALLED => [TIGHTEN_THRESHOLDS; ADD_NEW_RULE]
  | _ => []
  end.

Definition cycle_dict (r : CycleRecord) : json :=
  JObj [("cycle_id", JStr (cy_cycle_id r)); ("kpis", JObj (prod_map id JFloat <$> cy_kpis r));
        ("rule_fired", JStr (cy_policy_rule_fired r))].

Definition _build_counterexample (worst : ConvergenceVerdict) (t : KpiTracker)
  : res (option (list (string * json))) :=
  match cv_trend worst with
  | WORSENING =>
      match kt_window t with
      | early :: second :: rest =>
          match head (cv_values worst), last (cv_values worst) with
          | Some v0, Some v1 =>
              Ok (Some
                [("description",
                   JStr (cv_kpi_name worst +:+ " worsened from " +:+ fixed4 v0 +:+ " to " +:+
                         fixed4 v1 +:+ " despite L1 interventions"));
                 ("before", cycle_dict early);
                 ("after", cycle_dict (default early (last (second :: rest))));
                 ("hypothesis",
                   JStr "Adversary may have adapted to current countermeasures. Consider new detection signals or policy rules.")])
          | _, _ => Raise (IndexError "tuple index out of range")
          end
      | _ => Ok None
      end
  | _ => Ok None
  end.

Definition escalator_evaluate (intent_ref : string) (t : KpiTracker)
    (verdicts : list ConvergenceVerdict) (now : Z) : res (option EscalationReport) :=
  match filter (fun v => needs_escalation v = true) verdicts with
  | [] => Ok None
  | worst :: more =>
      gap_summary ← _build_gap_summary (worst :: more) t;
      counterexample ← _build_counterexample worst t;
      errors ← texts_of (errors_of (kt_window t));
      Ok (Some (mkEscalation ("esc-" +:+ intent_ref +:+ "-" +:+ pretty (Z.quot now funit))
                  (utc_text now) (_classify_severity worst t) intent_ref (worst :: more)
                  (kt_window t) (append_new [] (rules_fired (kt_window t)))
                  (append_new [] errors) gap_summary (_suggest_actions worst t) counterexample None))
  end.
End escalator.

(** ** Escalation across nodes *)

Record CrossNodeEscalationReport : Type := mkCross {
  cn_network_id : string;
  cn_severity : Severity;
  cn_summary : string;
  cn_center : option EscalationReport;
  cn_peers : list (string * EscalationReport);
  cn_chain_valid : bool;
  cn_chain_errors : list string
}.

Definition severity_order (s : Severity) : nat :=
  match s with INFO => 0 | WARNING => 1 | CRITICAL => 2 end.

Definition _worst_severity (center : option EscalationReport) (peers : list EscalationReport)
  : Severity :=
  foldl (fun worst r => if severity_order worst <? severity_order (es_severity r)
                        then es_severity r else worst)
    INFO (option_list center ++ peers).

Definition aggregate (network_id : string) (center : option EscalationReport)
    (peer_escalations : list (string * option EscalationReport)) (chain_valid : bool)
    (chain_errors : list string) : option CrossNodeEscalationReport :=
  let peers := omap (fun pr : string * option EscalationReport => r ← pr.2; Some (pr.1, r))
                 peer_escalations in
  if match center, peers with None, [] => chain_valid | _, _ => false end then None
  else
    let severity := if chain_valid then _worst_severity center peers.*2 else CRITICAL in
    let parts :=
      (if chain_valid then [] else "peer proof chain verification failed" :: chain_errors) ++
      match center with Some r => ["center: " +:+ es_gap_summary r] | None => [] end ++
      ((fun pr => "peer " +:+ pr.1 +:+ ": " +:+ es_gap_summary pr.2) <$> sort_items peers) in
    Some (mkCross network_id severity
            (match parts with [] => "cross-node escalation" | _ => join_with " | " parts end)
            center peers chain_valid chain_errors).

Definition cross_dict (r : CrossNodeEscalationReport) : list (string * json) :=
  [("network_id", JStr (cn_network_id r)); ("severity", JStr (severity_value (cn_severity r)));
   ("summary", JStr (cn_summary r)); ("peer_chain_valid", JBool (cn_chain_valid r));
   ("peer_chain_errors", JArr (JStr <$> cn_chain_errors r));
   ("center_escalation", match cn_center r with Some c => JObj (report_dict c) | None => JNull end);
   ("peer_escalations",
     JObj ((fun pr => (pr.1, JObj (report_dict pr.2))) <$> sort_items (cn_peers r)))].

(** ** The controller *)

Record L1CycleResult : Type := mkL1 {
  l1_cycle_id : string;
  l1_snapshot : json;
  l1_report : json;
  l1_policy_result : json
}.

Record MetaControllerResult : Type := mkMeta {
  mr_total_cycles : nat;
  mr_converged : bool;
  mr_final_verdict : ConvergenceVerdict;
  mr_escalation : option EscalationReport;
  mr_cycle_records : list CycleRecord
}.

(** The runner and the clock answer per cycle; either may depend on anything
    outside the controller. *)
Record MetaController : Type := mkController {
  mc_l1_runner : nat → res L1CycleResult;
  mc_clock : nat → Z;
  mc_detector : ConvergenceDetector;
  mc_intent_ref : string;
  mc_max_cycles : nat;
  mc_tracker : KpiTracker;
  mc_kpi_keys : option (list string)
}.

Section controller.
Context {PT : PyText} {TX : Texts}.

Definition cycle_id_of (c : MetaController) (n : nat) : string :=
  "cycle-" +:+ pretty n +:+ "-" +:+ pretty (Z.quot (mc_clock c n) funit).

(** One cycle: its record, the tracker and the verdict. *)
Definition run_cycle (c : MetaController) (t : KpiTracker) (n : nat)
  : res (CycleRecord * KpiTracker * ConvergenceVerdict) :=
  l1 ← mc_l1_runner c n;
  record ← from_cycle_outputs (cycle_id_of c n) (l1_snapshot l1) (l1_report l1)
             (l1_policy_result l1) (mc_kpi_keys c) (mc_clock c n);
  let t' := kt_record t record in
  verdict ← detector_evaluate (mc_detector c) t';
  Ok (record, t', verdict).

(** Cycles [n], [n + 1], ...; [budget] of them remain. *)
Fixpoint run_loop (c : MetaController) (budget n : nat) (t : KpiTracker) (records : list CycleRecord)
  : res (MetaControllerResult * KpiTracker) :=
  match budget with
  | O =>
      final_verdict ← detector_evaluate (mc_detector c) t;
      escalation ← escalator_evaluate (mc_intent_ref c) t [final_verdict] (mc_clock c n);
      Ok (mkMeta (mc_max_cycles c) false final_verdict escalation records, t)
  | S budget =>
      '(record, t', verdict) ← run_cycle c t n;
      let records := records ++ [record] in
      if cv_converged verdict then Ok (mkMeta n true verdict None records, t')
      else if needs_escalation verdict then
        escalation ← escalator_evaluate (mc_intent_ref c) t' [verdict] (mc_clock c n);
        Ok (mkMeta n false verdict escalation records, t')
      else run_loop c budget (S n) t' records
  end.

Definition meta_run (c : MetaController) : res (MetaControllerResult * KpiTracker) :=
  run_loop c (mc_max_cycles c) 1 (mc_tracker c) [].
End controller.

(** ** What the meta controller promises

    The outcome of a run in terms of the cycles it executed, and the round
    trip of escalation reports. *)

From S2P Require Import Prelude PyVal PyConv Task.
From stdpp Require Import base gmap strings list pretty.
From Stdlib Require Import ZArith Lia Ascii ZifyBool.

(** ** Verdicts *)

(** Enough data, and the last value within the tolerance of the target. *)
Definition on_target (d : ConvergenceDetector) (t : KpiTracker) : Prop :=
  let series := kpi_series t (dt_target_kpi d) in
  (dt_min_window d <= Z.of_nat (length series))%Z ∧
  ∃ x, last series = Some x ∧ flt (fabs (fsub x (dt_target_value d))) (dt_tolerance d) = true.

Lemma last_drop_nonempty {A} k (l : list A) x : last (drop k l) = Some x → last l = Some x.
Proof.
  intros H. rewrite <- (take_drop k l), last_app. by rewrite H.
Qed.

Lemma slice_last_last {A} n (l : list A) x : last (slice_last n l) = Some x → last l = Some x.
Proof. unfold slice_last, last_n. destruct (0 <? n)%Z; apply last_drop_nonempty. Qed.

Section spec.
Context {PT : PyText} {TX : Texts}.

Lemma detector_spec d t v :
  detector_evaluate d t = Ok v →
  (cv_converged v = true ↔ on_target d t) ∧
  (cv_converged v = true → needs_escalation v = false).
Proof.
  unfold detector_evaluate, on_target. set (series := kpi_series t (dt_target_kpi d)).
  destruct (Z.ltb_spec (Z.of_nat (length series)) (dt_min_window d)) as [Hlt|Hge].
  { intros [= <-]. simpl. split; [|done]. split; [done|]. intros [? _]. lia. }
  destruct (head (slice_last (dt_min_window d) series)) as [first|]; [|done].
  destruct (last (slice_last (dt_min_window d) series)) as [x|] eqn:El; [|done].
  apply slice_last_last in El.
  destruct (flt (fabs (fsub x (dt_target_value d))) (dt_tolerance d)) eqn:Et.
  { intros [= <-]. simpl. split; [|done]. split; [|done]. intros _. split; [done|]. by exists x. }
  assert (¬ (dt_min_window d <= Z.of_nat (length series))%Z ∨
          ¬ ∃ x, last series = Some x ∧ flt (fabs (fsub x (dt_target_value d))) (dt_tolerance d) = true) as Hno.
  { right. intros (y & Hy & Hy'). rewrite El in Hy. injection Hy as <-. congruence. }
  intros H. assert (cv_converged v = false) as ->; [|split; [|done]; split; [done|]; tauto].
  destruct (flt _ (dt_stall_threshold d)); [by injection H as <-|].
  destruct (if String.eqb _ _ then _ else _); by injection H as <-.
Qed.

(** With a positive window the detector always has a verdict. *)
Lemma detector_total d t : (0 < dt_min_window d)%Z → ∃ v, detector_evaluate d t = Ok v.
Proof.
  intros Hpos. unfold detector_evaluate. set (series := kpi_series t (dt_target_kpi d)).
  destruct (Z.ltb_spec (Z.of_nat (length series)) (dt_min_window d)) as [Hlt|Hge]; [eauto|].
  assert (slice_last (dt_min_window d) series ≠ []) as Hne.
  { unfold slice_last, last_n. rewrite (proj2 (Z.ltb_lt _ _) Hpos). intros E.
    apply (f_equal length) in E. rewrite length_drop in E. simpl in E. lia. }
  destruct (slice_last (dt_min_window d) series) as [|a l] eqn:E; [done|]. cbn [head].
  destruct (last (a :: l)) as [x|] eqn:El; [|by apply last_None in El].
  destruct (flt _ (dt_tolerance d)); [eauto|]. destruct (flt _ (dt_stall_threshold d)); [eauto|].
  destruct (if String.eqb _ _ then _ else _); eauto.
Qed.

(** ** Escalation *)

(** What an escalation of one verdict says. *)
Definition escalation_for (t : KpiTracker) (v : ConvergenceVerdict) (e : option EscalationReport)
  : Prop :=
  match e with
  | None => needs_escalation v = false
  | Some r =>
      needs_escalation v = true ∧ es_verdicts r = [v] ∧ es_kpi_history r = kt_window t ∧
      es_severity r = (if bool_decide (cv_trend v = WORSENING) && (kt_window_size t <=? kt_count t)
                       then CRITICAL else WARNING)
  end.

Lemma escalator_spec ref t v now e :
  escalator_evaluate ref t [v] now = Ok e → escalation_for t v e.
Proof.
  unfold escalator_evaluate, escalation_for. destruct (needs_escalation v) eqn:En.
  - rewrite filter_cons_True by done. rewrite filter_nil. intros H.
    apply res_bind_ok in H as (gap & _ & H). apply res_bind_ok in H as (ce & _ & H).
    apply res_bind_ok in H as (errs & _ & [= <-]). simpl. split_and!; try done.
    unfold needs_escalation, _classify_severity in *. by destruct (cv_trend v).
  - rewrite filter_cons_False by congruence. rewrite filter_nil. by intros [= <-].
Qed.

(** The errors of all records are texts. *)
Definition texts_only (records : list CycleRecord) : Prop :=
  ∃ errors, texts_of (errors_of records) = Ok errors.

Lemma texts_of_app l k :
  texts_of (l ++ k) = (a ← texts_of l; b ← texts_of k; Ok (a ++ b)).
Proof.
  induction l as [|x l IH]; simpl; [by destruct (texts_of k)|].
  destruct x; try done. rewrite IH. by destruct (texts_of l), (texts_of k).
Qed.

Lemma counterexample_total v t :
  (cv_trend v = WORSENING → cv_values v ≠ []) → ∃ ce, _build_counterexample v t = Ok ce.
Proof.
  intros Hv. unfold _build_counterexample. destruct (cv_trend v); eauto.
  destruct (kt_window t) as [|e [|s rest]]; eauto.
  destruct (cv_values v) as [|a l] eqn:E; [by destruct Hv|]. cbn [head].
  destruct (last (a :: l)) as [x|] eqn:El; [eauto|by apply last_None in El].
Qed.

Lemma escalator_total ref t v now :
  texts_only (kt_window t) → (cv_trend v = WORSENING → cv_values v ≠ []) →
  ∃ e, escalator_evaluate ref t [v] now = Ok e.
Proof.
  intros [errs He] Hv. unfold escalator_evaluate. destruct (filter _ _) as [|worst more] eqn:Ef; [eauto|].
  assert (worst = v) as ->.
  { rewrite filter_cons in Ef. case_decide; rewrite filter_nil in Ef; congruence. }
  unfold _build_gap_summary. rewrite He. cbn [mbind res_bind].
  destruct (counterexample_total v t Hv) as [ce ->]. cbn [mbind res_bind]. eauto.
Qed.

Lemma detector_values d t v :
  detector_evaluate d t = Ok v → cv_trend v = WORSENING → cv_values v ≠ [].
Proof.
  unfold detector_evaluate. destruct (_ <? _)%Z; [by intros [= <-]|].
  destruct (slice_last (dt_min_window d) _) as [|a l]; [done|]. cbn [head].
  destruct (last (a :: l)); [|done]. repeat case_match; by intros [= <-].
Qed.

Lemma texts_only_drop k records : texts_only records → texts_only (drop k records).
Proof.
  unfold texts_only, errors_of. intros [errs H]. rewrite <- (take_drop k records), fmap_app, join_app, texts_of_app in H.
  apply res_bind_ok in H as (a & _ & H). apply res_bind_ok in H as (b & Hb & _). eauto.
Qed.

Lemma texts_only_record t r :
  texts_only (kt_window t) → texts_only [r] → texts_only (kt_window (kt_record t r)).
Proof.
  intros [a Ha] [b Hb]. simpl. apply texts_only_drop. unfold texts_only, errors_of in *.
  rewrite fmap_app, join_app, texts_of_app, Ha. cbn [mbind res_bind]. rewrite Hb. eauto.
Qed.

(** ** Runs *)

(** The first [k] cycles, whatever their verdicts. *)
Fixpoint cycles (c : MetaController) (k : nat)
  : res (KpiTracker * list (CycleRecord * ConvergenceVerdict)) :=
  match k with
  | O => Ok (mc_tracker c, [])
  | S k =>
      '(t, h) ← cycles c k;
      '(record, t', verdict) ← run_cycle c t (S k);
      Ok (t', h ++ [(record, verdict)])
  end.

(** Neither on target nor failing. *)
Definition undecided (v : ConvergenceVerdict) : Prop :=
  cv_converged v = false ∧ needs_escalation v = false.

(** A result of the controller after the cycles [h], which left the tracker [t]. *)
Record run_result (c : MetaController) (r : MetaControllerResult) (t : KpiTracker)
    (h : list (CycleRecord * ConvergenceVerdict)) : Prop := {
  rr_cycles : cycles c (mr_total_cycles r) = Ok (t, h);
  rr_bound : mr_total_cycles r ≤ mc_max_cycles c;
  rr_records : mr_cycle_records r = h.*1;
  rr_verdict : detector_evaluate (mc_detector c) t = Ok (mr_final_verdict r);
  rr_converged : mr_converged r = true ↔ 0 < mr_total_cycles r ∧ on_target (mc_detector c) t;
  rr_escalation : escalation_for t (mr_final_verdict r) (mr_escalation r);
  rr_first k rv : h !! k = Some rv → S k < mr_total_cycles r → undecided rv.2;
  rr_stop : mr_total_cycles r < mc_max_cycles c → ¬ undecided (mr_final_verdict r)
}.

Lemma run_cycle_verdict c t n rec t' v :
  run_cycle c t n = Ok (rec, t', v) → detector_evaluate (mc_detector c) t' = Ok v.
Proof.
  unfold run_cycle. intros H. apply res_bind_ok in H as (l1 & _ & H).
  apply res_bind_ok in H as (r & _ & H). apply res_bind_ok in H as (v' & Hv & [= <- <- <-]). done.
Qed.

Lemma cycles_length c k t h : cycles c k = Ok (t, h) → length h = k.
Proof.
  revert t h. induction k as [|k IH]; intros t h; simpl; [by intros [= _ <-]|]. intros H.
  apply res_bind_ok in H as ([t0 h0] & H0 & H). apply res_bind_ok in H as ([[r t1] v] & _ & [= _ <-]).
  rewrite length_app, (IH _ _ H0). simpl. lia.
Qed.

Lemma run_loop_spec c budget n t h r t' :
  cycles c n = Ok (t, h) → Forall (fun rv => undecided rv.2) h →
  n + budget = mc_max_cycles c →
  run_loop c budget (S n) t h.*1 = Ok (r, t') → ∃ h', run_result c r t' h'.
Proof.
  revert n t h. induction budget as [|budget IH]; intros n t h Hc Hund Hmax; cbn [run_loop]; intros H.
  - apply res_bind_ok in H as (v & Hv & H). apply res_bind_ok in H as (e & He & [= <- <-]).
    rewrite Nat.add_0_r in Hmax. subst n.
    exists h. split; simpl; try done; try lia.
    + split; [done|]. intros [Hpos Hon]. exfalso.
      pose proof (cycles_length _ _ _ _ Hc) as Hlen.
      destruct (mc_max_cycles c) as [|m]; [lia|]. simpl in Hc.
      apply res_bind_ok in Hc as ([t0 h0] & H0 & Hc). apply res_bind_ok in Hc as ([[rec t1] v1] & Hr & [= <- <-]).
      apply Forall_app in Hund as [_ Hund]. apply Forall_cons in Hund as [[Hnc _] _]. simpl in Hnc.
      pose proof (run_cycle_verdict _ _ _ _ _ _ Hr) as Hv1.
      apply (detector_spec _ _ _ Hv1) in Hon. congruence.
    + by eapply escalator_spec.
    + intros k rv Hk _. rewrite Forall_forall in Hund. apply Hund. by eapply list_elem_of_lookup_2.
  - apply res_bind_ok in H as ([[rec t1] v] & Hr & H).
    assert (cycles c (S n) = Ok (t1, h ++ [(rec, v)])) as Hc1 by (simpl; by rewrite Hc; cbn [mbind res_bind]; rewrite Hr).
    pose proof (run_cycle_verdict _ _ _ _ _ _ Hr) as Hv.
    destruct (detector_spec _ _ _ Hv) as [Hconv Hne].
    assert (∀ k rv, (h ++ [(rec, v)]) !! k = Some rv → S k < S n → undecided rv.2) as Hfirst.
    { intros k rv Hk Hlt. rewrite lookup_app_l in Hk by (rewrite (cycles_length _ _ _ _ Hc); lia).
      rewrite Forall_forall in Hund. apply Hund. by eapply list_elem_of_lookup_2. }
    assert (h.*1 ++ [rec] = (h ++ [(rec, v)]).*1) as Erec by (by rewrite fmap_app).
    destruct (cv_converged v) eqn:Ecv.
    + injection H as <- <-. exists (h ++ [(rec, v)]). split; simpl; try done; try lia.
      * split; [|done]. intros _. split; [lia|]. by apply Hconv.
      * unfold undecided. intros _. rewrite Ecv. by intros [? _].
    + destruct (needs_escalation v) eqn:En.
      * apply res_bind_ok in H as (e & He & [= <- <-]). exists (h ++ [(rec, v)]).
        split; simpl; try done; try lia.
        -- split; [done|]. intros [_ Hon]. by apply Hconv in Hon.
        -- by eapply escalator_spec.
        -- unfold undecided. intros _. rewrite En. by intros [_ ?].
      * rewrite Erec in H. apply (IH (S n) t1 (h ++ [(rec, v)])); [done| |lia|done].
        apply Forall_app. split; [done|]. by repeat constructor.
Qed.

(** A controller whose runner answers, with errors that are texts, and whose
    detector wants at least one value. *)
Definition well_behaved (c : MetaController) : Prop :=
  (0 < dt_min_window (mc_detector c))%Z ∧ texts_only (kt_window (mc_tracker c)) ∧
  ∀ n, ∃ l1 l errors, mc_l1_runner c n = Ok l1 ∧
    default (JArr []) (alookup "errors" (match l1_report l1 with JObj m => m | _ => [] end)) = JArr l ∧
    texts_of l = Ok errors.

Lemma run_cycle_total c t n :
  well_behaved c → texts_only (kt_window t) →
  ∃ rec t' v, run_cycle c t n = Ok (rec, t', v) ∧ texts_only (kt_window t').
Proof.
  intros (Hw & _ & Hr) Ht. unfold run_cycle. destruct (Hr n) as (l1 & l & errors & -> & El & Ee).
  cbn [mbind res_bind]. unfold from_cycle_outputs. rewrite El. cbn [py_iter mbind res_bind].
  set (rec := mkCycle _ _ _ _ _ _). destruct (detector_total (mc_detector c) (kt_record t rec) Hw) as [v ->].
  cbn [mbind res_bind]. eexists _, _, _. split; [done|]. apply texts_only_record; [done|].
  exists errors. unfold errors_of. simpl. by rewrite app_nil_r.
Qed.

Lemma run_loop_total c budget n t records :
  well_behaved c → texts_only (kt_window t) → ∃ out, run_loop c budget n t records = Ok out.
Proof.
  intros Hw. revert n t records. induction budget as [|budget IH]; intros n t records Ht; cbn [run_loop].
  - destruct (detector_total (mc_detector c) t (proj1 Hw)) as [v Hv]. rewrite Hv. cbn [mbind res_bind].
    destruct (escalator_total (mc_intent_ref c) t v (mc_clock c n) Ht (detector_values _ _ _ Hv)) as [e ->].
    cbn [mbind res_bind]. eauto.
  - destruct (run_cycle_total c t n Hw Ht) as (rec & t' & v & Hr & Ht'). rewrite Hr. cbn [mbind res_bind].
    destruct (cv_converged v); [eauto|]. destruct (needs_escalation v); [|by apply IH].
    destruct (escalator_total (mc_intent_ref c) t' v (mc_clock c n) Ht') as [e ->]; [|cbn [mbind res_bind]; eauto].
    eapply detector_values. by eapply run_cycle_verdict.
Qed.


(** ** Reports survive the trip through a document *)

Lemma floats_of_list l : floats_of (JFloat <$> l) = Ok l.
Proof. induction l as [|f l IH]; [done|]. rewrite fmap_cons. cbn [floats_of py_float]. cbn [mbind res_bind]. by rewrite IH. Qed.

Lemma enum_of_value {E} (members : list E) (value : E → string) e :
  e ∈ members → (∀ a b, a ∈ members → value a = value b → a = b) → enum_of members value (value e) = Some e.
Proof.
  intros Hin Hinj. unfold enum_of. induction members as [|m members IH]; [by apply elem_of_nil in Hin|].
  cbn [List.find]. destruct (String.eqb_spec (value m) (value e)) as [Heq|Hne].
  - f_equal. apply Hinj; [left|done].
  - apply elem_of_cons in Hin as [->|Hin]; [done|]. apply IH; [done|]. intros a b Ha. apply Hinj. by right.
Qed.

Lemma trend_roundtrip t : enum_of all_trends trend_value (trend_value t) = Some t.
Proof. by destruct t. Qed.
Lemma severity_roundtrip s : enum_of all_severities severity_value (severity_value s) = Some s.
Proof. by destruct s. Qed.
Lemma action_roundtrip a : enum_of all_actions action_value (action_value a) = Some a.
Proof. by destruct a. Qed.

Lemma verdict_roundtrip v m : verdict_dict v = JObj m → verdict_of m = Ok v.
Proof.
  intros [= <-]. unfold verdict_of.
  match goal with |- context [alookup "values" ?m] =>
    change (alookup "values" m) with (Some (JArr (JFloat <$> cv_values v))) end.
  cbn [default from_option id]. rewrite floats_of_list. cbn [mbind res_bind].
  destruct v as [cvg tr k vals dl rs]. by destruct tr.
Qed.

Lemma verdicts_roundtrip vs : verdicts_of (verdict_dict <$> vs) = Ok vs.
Proof.
  induction vs as [|v vs IH]; [done|]. rewrite fmap_cons.
  destruct (verdict_dict v) as [| | | | | |m] eqn:E; try done. cbn [verdicts_of].
  rewrite (verdict_roundtrip v m E). cbn [mbind res_bind]. by rewrite IH.
Qed.

Lemma strings_roundtrip (l : list string) : py_str other_str <$> (JStr <$> l) = l.
Proof. rewrite <- list_fmap_compose. apply list_fmap_id. Qed.

Lemma actions_roundtrip (l : list SuggestedAction) :
  omap (fun a => enum_of all_actions action_value (py_str other_str a))
    ((fun a => JStr (action_value a)) <$> l) = l.
Proof.
  induction l as [|a l IH]; [done|]. rewrite fmap_cons. cbn [omap list_omap py_str].
  rewrite action_roundtrip. by f_equal.
Qed.

(** Only the history is lost, and an empty counterexample. *)
Lemma report_roundtrip r :
  es_counterexample r ≠ Some [] →
  report_of (report_dict r) =
  Ok (mkEscalation (es_report_id r) (es_timestamp r) (es_severity r) (es_intent_ref r)
        (es_verdicts r) [] (es_recent_rules_fired r) (es_recent_errors r) (es_gap_summary r)
        (es_suggested_actions r) (es_counterexample r) (es_peer_node_id r)).
Proof.
  intros Hce. unfold report_of, list_at.
  assert (alookup "verdicts" (report_dict r) = Some (JArr (verdict_dict <$> es_verdicts r))) as -> by done.
  assert (alookup "suggested_actions" (report_dict r) =
          Some (JArr ((fun a => JStr (action_value a)) <$> es_suggested_actions r))) as -> by done.
  assert (alookup "recent_rules_fired" (report_dict r) = Some (JArr (JStr <$> es_recent_rules_fired r))) as -> by done.
  assert (alookup "recent_errors" (report_dict r) = Some (JArr (JStr <$> es_recent_errors r))) as -> by done.
  cbn [default from_option id py_iter mbind res_bind]. rewrite verdicts_roundtrip. cbn [mbind res_bind].
  rewrite !strings_roundtrip, actions_roundtrip.
  assert (enum_of all_severities severity_value (text_of "severity" (JStr "warning") (report_dict r)) =
          Some (es_severity r)) as -> by apply severity_roundtrip.
  assert (match jget "counterexample" (report_dict r) with JObj m => Some m | _ => None end =
          es_counterexample r) as ->.
  { unfold jget. simpl. by destruct (es_counterexample r) as [[|kv m]|]. }
  assert (match jget "peer_node_id" (report_dict r) with
          | JNull => None | v => Some (py_str other_str v) end = es_peer_node_id r) as ->.
  { unfold jget, report_dict. by destruct (es_peer_node_id r). }
  done.
Qed.
End spec.

(** ** Examples *)

Section examples.
#[local] Existing Instance plain_text.
#[local] Instance demo_texts : Texts :=
  {| fixed4 := fun _ => ""; signed4 := fun _ => ""; plain_float := fun _ => ""; utc_text := fun _ => "" |}.

Definition demo_cycle (x : Z) : L1CycleResult :=
  mkL1 "" (JObj [("environment", JObj [("metrics", JObj [("err", JFloat (Fin x)); ("up", JBool true)])])])
    (JObj [("status", JStr "ok"); ("errors", JArr [])]) JNull.

(** An error rate of 0.9, 0.5, 0.3, ... that reaches the target. *)
Definition demo_controller (max_cycles : nat) (values : nat → Z) : MetaController :=
  mkController (fun n => Ok (demo_cycle (values n))) (fun _ => 0%Z)
    (mkDetector "err" fzero (Fin 50000) 3 (Fin 20000) "down") "intent.x" max_cycles
    (tracker_new max_cycles) None.

Definition falling (n : nat) : Z := (1000000 - 250000 * Z.of_nat n)%Z.

Lemma demo_well_behaved k f : well_behaved (demo_controller k f).
Proof.
  split; [done|]. split; [by exists []|]. intros n. eexists _, [], []. split; [done|]. done.
Qed.


(** The documented escalation at the limit of cycles does not happen while the
    figure still improves, or when there are too few values to judge. *)
Example no_forced_escalation :
  match meta_run (demo_controller 3 falling), meta_run (demo_controller 2 falling) with
  | Ok (r, _), Ok (r', _) =>
      mr_converged r = false ∧ mr_escalation r = None ∧
      mr_converged r' = false ∧ mr_escalation r' = None
  | _, _ => False
  end.
Proof. by vm_compute. Qed.
End examples.
