(* ===== verification/FileQueue.v ===== *)
(** * The file-backed work queue ([tm/runtime/queue/file.py])

    The directory of the queue is a value: one log per segment, the index file
    of a segment, and the two counter files.  Every operation takes and
    returns the queue together with its directory.  Locks, [flush] and [fsync]
    do not change what a single process reads back and have no counterpart;
    the order in which the two thread locks are taken is modelled at the end.

    A segment object is shared by the list [_segments], the dictionary
    [_segments_by_seq] and [_current_segment]: the dictionary is the store, the
    list and the current segment hold sequence numbers.  As in the in-memory
    queue, [heapq] is kept by its contract. *)

From S2P Require Import Prelude PyVal PyConv Task MemQueue.
From stdpp Require Import base gmap strings list pretty sorting.
From Stdlib Require Import ZArith Lia DecimalN.

(** ** The directory *)

(** A line of a log as the loader sees it: blank, not JSON, or the record of a
    task.  Other JSON values are never written to a log. *)
Inductive line_body : Type :=
| Blank
| Garbage
| Rec (offset : N) (task : json) (enqueued_at : Z).

Record log_line : Type := mkLine { ln_size : N; ln_body : line_body }.

(** The complete lines, and the text after the last newline. *)
Record segment_log : Type := mkLog { lg_lines : list log_line; lg_tail : option log_line }.

Definition empty_log : segment_log := mkLog [] None.

(** [for line in fh]. *)
Definition log_iter (lg : segment_log) : list log_line := lg_lines lg ++ option_list (lg_tail lg).

Definition log_size (lg : segment_log) : N := foldr N.add 0%N (ln_size <$> log_iter lg).

(** Writing a record (with its newline) at the end of the file: text that was
    left without a newline becomes part of the same line. *)
Definition log_write (lg : segment_log) (size : N) (body : line_body) : segment_log :=
  match lg_tail lg with
  | None => mkLog (lg_lines lg ++ [mkLine size body]) None
  | Some t =>
      mkLog (lg_lines lg ++
             [mkLine (ln_size t + size) (match ln_body t with Blank => body | _ => Garbage end)])
        None
  end.

Inductive index_file : Type :=
| Unreadable
| Index (raw : json).

(** [dk_meta] and [dk_offset]: the digits in [queue.meta] and [queue.offset]
    (none when the file is empty or missing). *)
Record disk : Type := mkDisk {
  dk_logs : gmap N segment_log;
  dk_indexes : gmap N index_file;
  dk_meta : Decimal.uint;
  dk_offset : Decimal.uint
}.

Definition empty_disk : disk := mkDisk ∅ ∅ Decimal.Nil Decimal.Nil.

(** [int(data) if data else 0]. *)
Definition counter_value (data : Decimal.uint) : N := N.of_uint data.

(** [a+b] opens for appending: a write lands at the end of the file, whatever
    the position. *)
Definition counter_raise (data : Decimal.uint) (value : N) : Decimal.uint :=
  if (counter_value data <? value)%N then Decimal.app data (N.to_uint value) else data.

(** ** State *)

Record _FileEntry : Type := mkFE {
  fe_task : mapping;
  fe_segment_seq : N;
  fe_available_at : pyfloat;
  fe_lease_deadline : Z;
  fe_token : option string;
  fe_acked : bool
}.

Record _FileSegment : Type := mkSeg {
  sg_seq : N;
  sg_start_offset : N;
  sg_end_offset : Z;
  sg_size_bytes : N;
  sg_record_count : N;
  sg_pending : N;
  sg_acked : gset N
}.

Definition add_record (s : _FileSegment) (offset size : N) : _FileSegment :=
  mkSeg (sg_seq s) (if (sg_record_count s =? 0)%N then offset else sg_start_offset s)
    (Z.of_N offset) (sg_size_bytes s + size) (sg_record_count s + 1) (sg_pending s + 1)
    (sg_acked s).

Definition segment_ack (s : _FileSegment) (offset : N) : _FileSegment :=
  if decide (offset ∈ sg_acked s) then s
  else
    mkSeg (sg_seq s) (sg_start_offset s) (sg_end_offset s) (sg_size_bytes s) (sg_record_count s)
      (if (0 <? sg_pending s)%N then sg_pending s - 1 else sg_pending s)
      ({[offset]} ∪ sg_acked s).

(** [fq_max] and [fq_v2]: the settings read at construction. *)
Record FileWorkQueue : Type := mkFQ {
  fq_max : N;
  fq_v2 : bool;
  fq_segments : list N;
  fq_by_seq : gmap N _FileSegment;
  fq_entries : gmap N _FileEntry;
  fq_ready_heap : list (pyfloat * N);
  fq_ready_set : gset N;
  fq_lease_seq : N;
  fq_next_offset : N;
  fq_current : option N;
  fq_disk : disk
}.

Definition with_entries (q : FileWorkQueue) (es : gmap N _FileEntry) : FileWorkQueue :=
  mkFQ (fq_max q) (fq_v2 q) (fq_segments q) (fq_by_seq q) es (fq_ready_heap q) (fq_ready_set q)
    (fq_lease_seq q) (fq_next_offset q) (fq_current q) (fq_disk q).

Definition with_ready (q : FileWorkQueue) (h : list (pyfloat * N)) (s : gset N) : FileWorkQueue :=
  mkFQ (fq_max q) (fq_v2 q) (fq_segments q) (fq_by_seq q) (fq_entries q) h s
    (fq_lease_seq q) (fq_next_offset q) (fq_current q) (fq_disk q).

Definition with_segment (q : FileWorkQueue) (s : _FileSegment) : FileWorkQueue :=
  mkFQ (fq_max q) (fq_v2 q) (fq_segments q) (<[sg_seq s := s]> (fq_by_seq q)) (fq_entries q)
    (fq_ready_heap q) (fq_ready_set q) (fq_lease_seq q) (fq_next_offset q) (fq_current q)
    (fq_disk q).

Definition with_disk (q : FileWorkQueue) (d : disk) : FileWorkQueue :=
  mkFQ (fq_max q) (fq_v2 q) (fq_segments q) (fq_by_seq q) (fq_entries q) (fq_ready_heap q)
    (fq_ready_set q) (fq_lease_seq q) (fq_next_offset q) (fq_current q) d.

(** ** Segments and counters *)

Definition _allocate_segment_seq (q : FileWorkQueue) : N * FileWorkQueue :=
  let d := fq_disk q in
  let current := (counter_value (dk_meta d) + 1)%N in
  (current, with_disk q (mkDisk (dk_logs d) (dk_indexes d) (N.to_uint current) (dk_offset d))).

Definition _allocate_offset (q : FileWorkQueue) : N * FileWorkQueue :=
  let d := fq_disk q in
  let current := counter_value (dk_offset d) in
  let d' := mkDisk (dk_logs d) (dk_indexes d) (dk_meta d) (N.to_uint (current + 1)) in
  (current,
   mkFQ (fq_max q) (fq_v2 q) (fq_segments q) (fq_by_seq q) (fq_entries q) (fq_ready_heap q)
     (fq_ready_set q) (fq_lease_seq q) (current + 1) (fq_current q) d').

(** Opening creates the log if it is missing, never truncates one that is
    there, and makes the segment the current one. *)
Definition _open_segment_file (q : FileWorkQueue) (s : _FileSegment) : FileWorkQueue :=
  let d := fq_disk q in
  let lg := default empty_log (dk_logs d !! sg_seq s) in
  let s' := mkSeg (sg_seq s) (sg_start_offset s) (sg_end_offset s) (log_size lg)
              (sg_record_count s) (sg_pending s) (sg_acked s) in
  mkFQ (fq_max q) (fq_v2 q) (fq_segments q) (<[sg_seq s := s']> (fq_by_seq q)) (fq_entries q)
    (fq_ready_heap q) (fq_ready_set q) (fq_lease_seq q) (fq_next_offset q) (Some (sg_seq s))
    (mkDisk (<[sg_seq s := lg]> (dk_logs d)) (dk_indexes d) (dk_meta d) (dk_offset d)).

(** The new segment becomes the current one; its number is returned for the
    callers that read [_current_segment] next. *)
Definition _rotate_segment_unlocked (q : FileWorkQueue) : N * FileWorkQueue :=
  let '(seq, q1) := _allocate_segment_seq q in
  let s := mkSeg seq (fq_next_offset q1) (Z.of_N (fq_next_offset q1) - 1) 0 0 0 ∅ in
  let q2 :=
    mkFQ (fq_max q1) (fq_v2 q1) (fq_segments q1 ++ [seq]) (<[seq := s]> (fq_by_seq q1))
      (fq_entries q1) (fq_ready_heap q1) (fq_ready_set q1) (fq_lease_seq q1) (fq_next_offset q1)
      (fq_current q1) (fq_disk q1) in
  (seq, _open_segment_file q2 s).

Definition _ensure_active_segment (q : FileWorkQueue) : N * FileWorkQueue :=
  match fq_current q with
  | None => _rotate_segment_unlocked q
  | Some seq => (seq, q)
  end.

(** The segment object behind a number; numbers held by the queue have one. *)
Definition segment_of (q : FileWorkQueue) (seq : N) : _FileSegment :=
  default (mkSeg seq 0 (-1) 0 0 0 ∅) (fq_by_seq q !! seq).

Definition _maybe_rotate_unlocked (q : FileWorkQueue) : FileWorkQueue :=
  match fq_current q with
  | None => q
  | Some seq =>
      if (fq_max q <=? sg_size_bytes (segment_of q seq))%N
      then (_rotate_segment_unlocked q).2 else q
  end.

Definition N_sort (s : gset N) : list N := merge_sort N.le (elements s).

Definition _persist_segment_state (q : FileWorkQueue) (s : _FileSegment) : FileWorkQueue :=
  let data :=
    JObj [("acked", JArr ((fun o => JInt (Z.of_N o)) <$> N_sort (sg_acked s)));
          ("start_offset", JInt (Z.of_N (sg_start_offset s)));
          ("end_offset", JInt (sg_end_offset s));
          ("record_count", JInt (Z.of_N (sg_record_count s)))] in
  let d := fq_disk q in
  with_disk q
    (mkDisk (dk_logs d) (<[sg_seq s := Index data]> (dk_indexes d)) (dk_meta d) (dk_offset d)).

(** The loop of [_maybe_compact_head] over the list of segments. *)
Fixpoint compact_loop (current : option N) (segs : list N) (by_seq : gmap N _FileSegment)
    (d : disk) : list N * gmap N _FileSegment * disk :=
  match segs with
  | [] => ([], by_seq, d)
  | seq :: rest =>
      match by_seq !! seq with
      | None => (segs, by_seq, d)
      | Some head =>
          if (0 <? sg_pending head)%N then (segs, by_seq, d)
          else if bool_decide (current = Some seq) then (segs, by_seq, d)
          else
            compact_loop current rest (delete seq by_seq)
              (mkDisk (delete seq (dk_logs d)) (delete seq (dk_indexes d)) (dk_meta d)
                 (dk_offset d))
      end
  end.

Definition _maybe_compact_head (q : FileWorkQueue) : FileWorkQueue :=
  let '(segs, by_seq, d) := compact_loop (fq_current q) (fq_segments q) (fq_by_seq q) (fq_disk q) in
  mkFQ (fq_max q) (fq_v2 q) segs by_seq (fq_entries q) (fq_ready_heap q) (fq_ready_set q)
    (fq_lease_seq q) (fq_next_offset q) (fq_current q) d.

(** ** The ready heap *)

Definition _push_ready (q : FileWorkQueue) (offset : N) (available_at : pyfloat) : FileWorkQueue :=
  if decide (offset ∈ fq_ready_set q) then q
  else
    with_ready q (heappush (fq_ready_heap q) (available_at, offset))
      ({[offset]} ∪ fq_ready_set q).

Fixpoint pop_loop (now : Z) (entries : gmap N _FileEntry) (heap : list (pyfloat * N))
    (rset : gset N) : option (N * pyfloat) * (list (pyfloat * N) * gset N) :=
  match heap with
  | [] => (None, ([], rset))
  | (available_at, offset) :: rest =>
      let rset1 := rset ∖ {[offset]} in
      if flt (Fin now) available_at then
        (None, (heappush rest (available_at, offset), {[offset]} ∪ rset1))
      else
        match entries !! offset with
        | None => pop_loop now entries rest rset1
        | Some e =>
            match fe_token e with
            | Some _ => pop_loop now entries rest rset1
            | None => (Some (offset, available_at), (rest, rset1))
            end
        end
  end.

Definition _pop_ready (q : FileWorkQueue) (now : Z) : option (N * pyfloat) * FileWorkQueue :=
  let '(item, (h, s)) := pop_loop now (fq_entries q) (fq_ready_heap q) (fq_ready_set q) in
  (item, with_ready q h s).

Definition file_release_one (now : Z) (q : FileWorkQueue) (oe : N * _FileEntry) : FileWorkQueue :=
  let '(offset, e) := oe in
  match fe_token e with
  | Some _ =>
      if negb (fe_acked e) && (fe_lease_deadline e <=? now)%Z then
        _push_ready
          (with_entries q
             (<[offset := mkFE (fe_task e) (fe_segment_seq e) (fe_available_at e) 0 None
                            (fe_acked e)]> (fq_entries q)))
          offset (fe_available_at e)
      else q
  | None => q
  end.

Definition file_release_expired (q : FileWorkQueue) (now : Z) : FileWorkQueue :=
  foldl (file_release_one now) q (map_to_list (fq_entries q)).

(** ** Operations *)

Class RecordLen := record_len : N → mapping → Z → N.

Section operations.
Context {PT : PyText}.

Definition file_available_at (task : mapping) (now : Now) : pyfloat :=
  _extract_available_at task now.

(** The length of the line [json.dumps] makes of a record, newline included. *)
Context {RL : RecordLen}.

(** [put] up to the write: the offset, the length of the record and the
    segment it goes to. *)
Definition put_segment (q : FileWorkQueue) (task : mapping) (now : Now)
  : N * N * N * FileWorkQueue :=
  let '(seq0, q1) := _ensure_active_segment q in
  let '(offset, q2) := _allocate_offset q1 in
  let size := record_len offset task (wall now) in
  let s0 := segment_of q2 seq0 in
  if (fq_max q2 <? sg_size_bytes s0 + size)%N && (0 <? sg_record_count s0)%N
  then let '(seq, q3) := _rotate_segment_unlocked q2 in (offset, size, seq, q3)
  else (offset, size, seq0, q2).

(** [with open(segment.path, "ab") as fp: fp.write(record)]. *)
Definition write_record (d : disk) (seq size : N) (body : line_body) : disk :=
  mkDisk (<[seq := log_write (default empty_log (dk_logs d !! seq)) size body]> (dk_logs d))
    (dk_indexes d) (dk_meta d) (dk_offset d).

Definition fq_put (q : FileWorkQueue) (task : mapping) (now : Now) : N * FileWorkQueue :=
  let '(offset, size, seq, q3) := put_segment q task now in
  let q4 := with_disk q3 (write_record (fq_disk q3) seq size
                            (Rec offset (JObj (items task)) (wall now))) in
  let available_at := file_available_at task now in
  let q5 := with_segment q4 (add_record (segment_of q4 seq) offset size) in
  let q6 := with_entries q5 (<[offset := mkFE task seq available_at 0 None false]> (fq_entries q5)) in
  (offset, _maybe_rotate_unlocked (_push_ready q6 offset available_at)).

(** Each turn of the loop removes at least one heap item or ends it: the
    length of the heap is enough fuel. *)
Fixpoint file_lease_loop (fuel room : nat) (now deadline : Z) (q : FileWorkQueue)
  : list LeasedTask * FileWorkQueue :=
  match fuel, room with
  | S fuel', S room' =>
      match _pop_ready q now with
      | (None, q1) => ([], q1)
      | (Some (offset, _), q1) =>
          match fq_entries q1 !! offset with
          | None => file_lease_loop fuel' room now deadline q1
          | Some e =>
              let token := token_of (fq_lease_seq q1 + 1) in
              let e' := mkFE (fe_task e) (fe_segment_seq e) (fe_available_at e) deadline
                          (Some token) (fe_acked e) in
              let q2 :=
                mkFQ (fq_max q1) (fq_v2 q1) (fq_segments q1) (fq_by_seq q1)
                  (<[offset := e']> (fq_entries q1)) (fq_ready_heap q1) (fq_ready_set q1)
                  (fq_lease_seq q1 + 1) (fq_next_offset q1) (fq_current q1) (fq_disk q1) in
              let '(leased, q3) := file_lease_loop fuel' room' now deadline q2 in
              (mkLeased offset (fe_task e) deadline token :: leased, q3)
          end
      end
  | _, _ => ([], q)
  end.

Definition fq_lease (q : FileWorkQueue) (count lease_ms : Z) (now : Now)
  : list LeasedTask * FileWorkQueue :=
  if (count <=? 0)%Z then ([], q)
  else
    let q1 := file_release_expired q (mono now) in
    file_lease_loop (S (length (fq_ready_heap q1))) (Z.to_nat count) (mono now)
      (mono now + Z.max lease_ms 0 * 1000) q1.

Definition fq_ack (q : FileWorkQueue) (offset : N) (token : string) : FileWorkQueue :=
  match fq_entries q !! offset with
  | None => q
  | Some e =>
      if bool_decide (fe_token e = Some token) then
        match fq_by_seq q !! fe_segment_seq e with
        | None => q
        | Some s =>
            let s' := segment_ack s offset in
            let q1 := with_entries (with_segment q s') (delete offset (fq_entries q)) in
            _maybe_compact_head (_persist_segment_state q1 s')
        end
      else q
  end.

Definition fq_nack (q : FileWorkQueue) (offset : N) (token : string) (requeue : bool) (now : Now)
  : FileWorkQueue :=
  match fq_entries q !! offset with
  | None => q
  | Some e =>
      if bool_decide (fe_token e = Some token) then
        if requeue then
          let available_at :=
            if flt (fe_available_at e) (Fin (mono now)) then Fin (mono now)
            else fe_available_at e in
          _push_ready
            (with_entries q
               (<[offset := mkFE (fe_task e) (fe_segment_seq e) available_at 0 None false]>
                  (fq_entries q)))
            offset available_at
        else
          let q0 :=
            with_entries q
              (<[offset := mkFE (fe_task e) (fe_segment_seq e) (fe_available_at e) 0 None true]>
                 (fq_entries q)) in
          match fq_by_seq q0 !! fe_segment_seq e with
          | None => q0
          | Some s =>
              let s' := segment_ack s offset in
              let q1 := with_entries (with_segment q0 s') (delete offset (fq_entries q0)) in
              _maybe_compact_head (_persist_segment_state q1 s')
          end
      else q
  end.

Definition fq_reschedule (q : FileWorkQueue) (offset : N) (available_at : pyfloat)
  : FileWorkQueue :=
  match fq_entries q !! offset with
  | None => q
  | Some e =>
      let q1 :=
        with_entries q
          (<[offset := mkFE (fe_task e) (fe_segment_seq e) available_at (fe_lease_deadline e)
                         (fe_token e) (fe_acked e)]> (fq_entries q)) in
      match fe_token e with
      | None => _push_ready q1 offset available_at
      | Some _ => q1
      end
  end.

Definition fq_pending_count (q : FileWorkQueue) : N := N.of_nat (size (fq_entries q)).

(** The availability of the entries without a lease. *)
Definition waiting_times (q : FileWorkQueue) : list pyfloat :=
  omap (fun oe : N * _FileEntry =>
          match fe_token oe.2 with None => Some (fe_available_at oe.2) | Some _ => None end)
    (map_to_list (fq_entries q)).

Definition fq_oldest_available_at (q : FileWorkQueue) : option pyfloat :=
  match waiting_times q with [] => None | x :: l => Some (fmin_list x l) end.

Record occupancy : Type := mkOccupancy {
  oc_backlog : N;
  oc_pending : N;
  oc_inflight : N;
  oc_oldest : option pyfloat
}.

Definition fq_describe (q : FileWorkQueue) : occupancy :=
  let total := N.of_nat (size (fq_entries q)) in
  let inflight :=
    N.of_nat (length (filter (fun oe : N * _FileEntry => fe_token oe.2 ≠ None)
                        (map_to_list (fq_entries q)))) in
  let pending := (total - inflight)%N in
  mkOccupancy total pending inflight
    (if (pending =? 0)%N then None
     else
       foldl (fun oldest t =>
                match oldest with
                | None => Some t
                | Some o => if flt t o then Some t else Some o
                end) None (waiting_times q)).

(** ** Opening a directory *)

Fixpoint load_acked (acked : gset N) (rewrite_ : bool) (values : list json)
  : res (gset N * bool) :=
  match values with
  | [] => Ok (acked, rewrite_)
  | v :: values =>
      match py_int v with
      | Ok z =>
          if (z <? 0)%Z then load_acked acked true values
          else load_acked ({[Z.to_N z]} ∪ acked) rewrite_ values
      | Raise (TypeError _) | Raise (ValueError _) => load_acked acked true values
      | Raise e => Raise e
      end
  end.

Definition _load_index_metadata (v2 : bool) (idx : option index_file) : res (gset N * bool) :=
  match idx with
  | None => Ok (∅, v2)
  | Some Unreadable => Ok (∅, v2)
  | Some (Index raw) =>
      match as_mapping raw with
      | None => Raise (AttributeError "object has no attribute 'get'")
      | Some m =>
          match default (JArr []) (alookup "acked" m) with
          | JArr l => load_acked ∅ false l
          | _ => Ok (∅, true)
          end
      end
  end.

(** The variables of the loop over the lines of a log. *)
Record scan : Type := mkScan {
  sc_q : FileWorkQueue;
  sc_start : N;
  sc_end : Z;
  sc_count : N;
  sc_pending : N;
  sc_size : N;
  sc_observed : gset N
}.

Definition scan_line (seq : N) (acked : gset N) (now : Now) (st : scan) (l : log_line) : scan :=
  let size := (sc_size st + ln_size l)%N in
  match ln_body l with
  | Blank | Garbage =>
      mkScan (sc_q st) (sc_start st) (sc_end st) (sc_count st) (sc_pending st) size
        (sc_observed st)
  | Rec offset raw_task _ =>
      let task := match as_mapping raw_task with Some m => Map m | None => empty_map end in
      let available_at := file_available_at task now in
      let keep := negb (bool_decide (offset ∈ acked)) in
      mkScan
        (if keep then
           _push_ready
             (with_entries (sc_q st)
                (<[offset := mkFE task seq available_at 0 None false]> (fq_entries (sc_q st))))
             offset available_at
         else sc_q st)
        (if (sc_count st =? 0)%N then offset else sc_start st)
        (Z.of_N offset) (sc_count st + 1)
        (if keep then sc_pending st + 1 else sc_pending st)%N size
        ({[offset]} ∪ sc_observed st)
  end.

Definition _build_segment_from_files (q : FileWorkQueue) (seq : N) (now : Now)
  : res (_FileSegment * FileWorkQueue) :=
  '(acked, needs_rewrite) ← _load_index_metadata (fq_v2 q) (dk_indexes (fq_disk q) !! seq);
  let lg := default empty_log (dk_logs (fq_disk q) !! seq) in
  let next := fq_next_offset q in
  let st := foldl (scan_line seq acked now) (mkScan q next (Z.of_N next - 1) 0 0 0 ∅) (log_iter lg) in
  let missing := acked ∖ sc_observed st in
  let '(acked, needs_rewrite) :=
    if decide (missing = ∅) then (acked, needs_rewrite) else (acked ∖ missing, true) in
  let s := mkSeg seq (if (sc_count st =? 0)%N then next else sc_start st) (sc_end st)
             (sc_size st) (sc_count st) (sc_pending st) acked in
  Ok (s, if fq_v2 q && needs_rewrite then _persist_segment_state (sc_q st) s else sc_q st).

(** [segment-(\d{6})\.log$]: the logs whose number has six digits, in the
    order of their names. *)
Definition listed_segments (d : disk) : list N :=
  merge_sort N.le (filter (fun seq => (seq < 1000000)%N) (map_to_list (dk_logs d)).*1).

Fixpoint load_segments (now : Now) (seqs : list N) (q : FileWorkQueue) (max_seq : N)
    (max_offset : Z) : res (N * Z * FileWorkQueue) :=
  match seqs with
  | [] => Ok (max_seq, max_offset, q)
  | seq :: rest =>
      '(s, q1) ← _build_segment_from_files q seq now;
      let q2 :=
        mkFQ (fq_max q1) (fq_v2 q1) (fq_segments q1 ++ [seq]) (<[seq := s]> (fq_by_seq q1))
          (fq_entries q1) (fq_ready_heap q1) (fq_ready_set q1) (fq_lease_seq q1)
          (fq_next_offset q1) (fq_current q1) (fq_disk q1) in
      load_segments now rest q2 (N.max max_seq seq)
        (if (max_offset <? sg_end_offset s)%Z then sg_end_offset s else max_offset)
  end.

Definition with_next_offset (q : FileWorkQueue) (next : N) : FileWorkQueue :=
  mkFQ (fq_max q) (fq_v2 q) (fq_segments q) (fq_by_seq q) (fq_entries q) (fq_ready_heap q)
    (fq_ready_set q) (fq_lease_seq q) next (fq_current q) (fq_disk q).

Definition _load_existing_segments (q : FileWorkQueue) (now : Now) : res (N * Z * FileWorkQueue) :=
  '(max_seq, max_offset, q1) ← load_segments now (listed_segments (fq_disk q)) q 0 (-1);
  let q2 := if (0 <=? max_offset)%Z then with_next_offset q1 (Z.to_N max_offset + 1) else q1 in
  let q3 := match last (fq_segments q2) with
            | Some seq => _open_segment_file q2 (segment_of q2 seq)
            | None => q2
            end in
  Ok (max_seq, max_offset, q3).

Definition _initialize_meta (q : FileWorkQueue) (max_seq : N) : FileWorkQueue :=
  let d := fq_disk q in
  with_disk q (mkDisk (dk_logs d) (dk_indexes d) (counter_raise (dk_meta d) max_seq) (dk_offset d)).

Definition _initialize_offset (q : FileWorkQueue) (initial : N) : FileWorkQueue :=
  let d := fq_disk q in
  let q1 := with_disk q (mkDisk (dk_logs d) (dk_indexes d) (dk_meta d)
                           (counter_raise (dk_offset d) initial)) in
  with_next_offset q1 (N.max initial (counter_value (dk_offset d))).

(** [FileWorkQueue(dir_path, segment_max_bytes=max_bytes)], with the flag
    [TM_FILE_QUEUE_V2]. *)
Definition fq_open (max_bytes : Z) (v2 : bool) (d : disk) (now : Now) : res FileWorkQueue :=
  let q0 := mkFQ (Z.to_N (Z.max max_bytes 1024)) v2 [] ∅ ∅ [] ∅ 0 0 None d in
  '(max_seq, max_offset, q1) ← _load_existing_segments q0 now;
  let q2 := _initialize_meta q1 max_seq in
  let q3 := _initialize_offset q2 (if (0 <=? max_offset)%Z then Z.to_N max_offset + 1 else 0) in
  Ok (match fq_current q3 with None => (_rotate_segment_unlocked q3).2 | Some _ => q3 end).

#[export] Instance FileWorkQueue_queue : WorkQueue FileWorkQueue := {
  wq_put := fq_put;
  wq_lease := fq_lease;
  wq_ack := fq_ack;
  wq_nack := fq_nack;
  wq_reschedule := fq_reschedule;
  wq_pending_count := fq_pending_count;
  wq_oldest_available_at := fq_oldest_available_at
}.
End operations.
