(* ===== verification/FileQueueSpec.v ===== *)
(** * The file queue against the in-memory queue

    [mem_of] forgets segments and directory; without [reschedule] every
    operation of the file queue does on its image what the in-memory queue
    does, with the same results. *)

From S2P Require Import Prelude PyVal PyConv Task MemQueue FileQueue.
From stdpp Require Import base gmap strings list pretty sorting fin_maps.
From Stdlib Require Import ZArith Lia Sorting ZifyBool ZifyN DecimalN.

(** ** The image of a file queue *)

Definition entry_of (e : _FileEntry) : Entry :=
  mkEntry (fe_task e) (fe_available_at e) (fe_lease_deadline e) (fe_token e) (fe_acked e).

Definition offset_counter (q : FileWorkQueue) : N := counter_value (dk_offset (fq_disk q)).

Definition mem_of (q : FileWorkQueue) : InMemoryWorkQueue :=
  mkMQ (offset_counter q) (entry_of <$> fq_entries q) (fq_ready_heap q) (fq_lease_seq q).

(** The image is exact, and the ready set holds the offsets of the heap. *)
Record core (q : FileWorkQueue) : Prop := {
  co_exact : mq_exact (mem_of q);
  co_set : fq_ready_set q = list_to_set (fq_ready_heap q).*2
}.

Lemma mem_lookup q off e :
  mq_entries (mem_of q) !! off = Some e ↔ ∃ fe, fq_entries q !! off = Some fe ∧ e = entry_of fe.
Proof. simpl. rewrite lookup_fmap, fmap_Some. done. Qed.

Lemma mem_lookup_2 q off fe :
  fq_entries q !! off = Some fe → mq_entries (mem_of q) !! off = Some (entry_of fe).
Proof. intros H. apply mem_lookup. eauto. Qed.

(** ** Sorted heaps are determined by their entries *)

Lemma item_le_antisymm x y :
  is_num x.1 → is_num y.1 → item_le x y → item_le y x → x = y.
Proof.
  intros Hx Hy. num_cases; intros; f_equal; try f_equal; lia.
Qed.

Lemma sorted_items_unique h h' : items_ok h → items_ok h' → h ≡ₚ h' → h = h'.
Proof.
  intros [Hs Hn]. revert h'. induction Hs as [|x h Hs IH Hx]; intros h' [Hs' Hn'] Hp.
  { by apply Permutation_nil_l in Hp. }
  destruct h' as [|y h']; [by apply Permutation_nil_r in Hp|].
  apply Forall_cons in Hn as [Hnx Hn]. apply Forall_cons in Hn' as [Hny Hn'].
  inversion Hs' as [|? ? Hs1 Hy]; subst. rewrite Forall_forall in Hx, Hy.
  assert (x = y) as <-.
  { assert (x ∈ y :: h') as H1 by (rewrite <- Hp; left).
    assert (y ∈ x :: h) as H2 by (rewrite Hp; left).
    apply elem_of_cons in H1 as [->|H1]; [done|]. apply elem_of_cons in H2 as [->|H2]; [done|].
    by apply item_le_antisymm; [| |apply Hx|apply Hy]. }
  f_equal. apply IH; [done|split; done|]. by apply (Permutation_cons_inv (a := x)).
Qed.

Lemma exact_in_ready m av off :
  mq_exact m → (av, off) ∈ mq_ready m ↔
  ∃ e, mq_entries m !! off = Some e ∧ e_token e = None ∧ e_available_at e = av.
Proof.
  intros Hx. split; [apply (mx_ready _ Hx)|]. intros (e & He & Ht & <-).
  by apply (mi_queued _ (mx_inv _ Hx)).
Qed.

Lemma exact_ready_unique m m' :
  mq_exact m → mq_exact m' → mq_entries m = mq_entries m' → mq_ready m = mq_ready m'.
Proof.
  intros Hx Hx' E. apply sorted_items_unique; [apply Hx|apply Hx'|].
  apply NoDup_Permutation.
  - apply (NoDup_fmap_1 snd), (mx_nodup _ Hx).
  - apply (NoDup_fmap_1 snd), (mx_nodup _ Hx').
  - intros [av off]. by rewrite !exact_in_ready, E.
Qed.

Lemma core_waiting q off :
  core q → off ∈ fq_ready_set q ↔ ∃ e, fq_entries q !! off = Some e ∧ fe_token e = None.
Proof.
  intros [Hx Hs]. rewrite Hs, elem_of_list_to_set, list_elem_of_fmap. split.
  - intros ([av o] & -> & Hin). apply (mx_ready _ Hx) in Hin as (e & He & Ht & _).
    apply mem_lookup in He as (fe & He & ->). eauto.
  - intros (fe & He & Ht). exists (fe_available_at fe, off). split; [done|].
    apply (exact_in_ready (mem_of q) _ _ Hx). exists (entry_of fe). eauto using mem_lookup_2.
Qed.

(** ** Pushing an entry *)

(** The entry of [off] is replaced by one without a lease, and queued. *)
Definition file_store (q : FileWorkQueue) (off : N) (e : _FileEntry) : FileWorkQueue :=
  _push_ready (with_entries q (<[off := e]> (fq_entries q))) off (fe_available_at e).

(** No entry of [off] waits in the heap. *)
Definition not_waiting (q : FileWorkQueue) (off : N) : Prop :=
  ∀ e, fq_entries q !! off = Some e → fe_token e ≠ None.

Lemma file_store_mem q off e :
  core q → not_waiting q off →
  mem_of (file_store q off e) = store (mem_of q) off (entry_of e) (offset_counter q).
Proof.
  intros Hc Hw. unfold file_store, _push_ready. simpl. rewrite decide_False.
  - unfold mem_of, store, offset_counter. simpl. by rewrite fmap_insert.
  - rewrite core_waiting by done. intros (e' & He' & Ht). by apply (Hw e').
Qed.

Lemma file_store_core q off e :
  core q → not_waiting q off → (off < offset_counter q)%N →
  fe_acked e = false → is_num (fe_available_at e) → fe_token e = None →
  core (file_store q off e).
Proof.
  intros Hc Hw Hlt Ha Hn Ht. split.
  - rewrite file_store_mem by done. apply store_exact; simpl; try done; [apply Hc|].
    intros e' He'. apply (mem_lookup q) in He' as (fe & He & ->). by apply (Hw fe).
  - unfold file_store, _push_ready. simpl. rewrite decide_False.
    + simpl. rewrite (co_set _ Hc), heappush_perm. done.
    + rewrite core_waiting by done. intros (e' & He' & Ht'). by apply (Hw e').
Qed.

(** ** What an operation on the heap and the leases leaves alone *)

Definition live (q : FileWorkQueue) : gmap N (mapping * N) :=
  (fun e => (fe_task e, fe_segment_seq e)) <$> fq_entries q.

Record frame (q q' : FileWorkQueue) : Prop := {
  fr_max : fq_max q' = fq_max q;
  fr_v2 : fq_v2 q' = fq_v2 q;
  fr_segments : fq_segments q' = fq_segments q;
  fr_by_seq : fq_by_seq q' = fq_by_seq q;
  fr_current : fq_current q' = fq_current q;
  fr_disk : fq_disk q' = fq_disk q;
  fr_live : live q' = live q
}.

#[export] Instance frame_preorder : PreOrder frame.
Proof.
  split; [by split|]. intros x y z [] []. split; congruence.
Qed.

Lemma live_insert q off e e' :
  fq_entries q !! off = Some e → fe_task e' = fe_task e → fe_segment_seq e' = fe_segment_seq e →
  (fun e => (fe_task e, fe_segment_seq e)) <$> <[off := e']> (fq_entries q) = live q.
Proof.
  intros He Ht Hs. rewrite fmap_insert, Ht, Hs. apply insert_id. unfold live. by rewrite lookup_fmap, He.
Qed.

Lemma push_frame q off av : frame q (_push_ready q off av).
Proof. unfold _push_ready. by case_decide; split. Qed.

Lemma store_frame q off e e' :
  fq_entries q !! off = Some e → fe_task e' = fe_task e → fe_segment_seq e' = fe_segment_seq e →
  frame q (file_store q off e').
Proof.
  intros He Ht Hs. etransitivity; [|apply push_frame]. split; try done. by eapply live_insert.
Qed.

Lemma frame_refl q : frame q q.
Proof. done. Qed.
#[local] Hint Resolve frame_refl : core.

(** ** Releasing expired leases *)

Definition expire_file (e : _FileEntry) : _FileEntry :=
  mkFE (fe_task e) (fe_segment_seq e) (fe_available_at e) 0 None (fe_acked e).

Lemma file_release_one_eq now q off e :
  fe_acked e = false →
  file_release_one now q (off, e) =
  if expired now (entry_of e) then file_store q off (expire_file e) else q.
Proof.
  intros Ha. unfold file_release_one, expired, file_store, expire_file. simpl. rewrite Ha.
  by destruct (fe_token e).
Qed.

Lemma core_acked q off e : core q → fq_entries q !! off = Some e → fe_acked e = false.
Proof. intros Hc He. by apply (mi_acked _ (mx_inv _ (co_exact _ Hc)) off _ (mem_lookup_2 _ _ _ He)). Qed.

Lemma core_num q off e : core q → fq_entries q !! off = Some e → is_num (fe_available_at e).
Proof. intros Hc He. by apply (mi_num _ (mx_inv _ (co_exact _ Hc)) off _ (mem_lookup_2 _ _ _ He)). Qed.

Lemma core_offset q off e : core q → fq_entries q !! off = Some e → (off < offset_counter q)%N.
Proof. intros Hc He. by apply (mi_offset _ (mx_inv _ (co_exact _ Hc)) off _ (mem_lookup_2 _ _ _ He)). Qed.

Lemma file_release_fold now l q :
  core q → NoDup l.*1 → (∀ off e, (off, e) ∈ l → fq_entries q !! off = Some e) →
  let q' := foldl (file_release_one now) q l in
  core q' ∧ frame q q' ∧
  mem_of q' = foldl (release_one now) (mem_of q) (prod_map id entry_of <$> l).
Proof.
  revert q. induction l as [|[off e] l IH]; intros q Hc Hnd Hl; [by split_and!|].
  apply NoDup_cons in Hnd as [Hno Hnd]. cbn [foldl].
  assert (fq_entries q !! off = Some e) as He by (apply Hl; left).
  pose proof (core_acked _ _ _ Hc He) as Ha.
  rewrite file_release_one_eq, fmap_cons by done. cbn [foldl].
  change (prod_map id entry_of (off, e)) with (off, entry_of e).
  rewrite release_one_eq by done.
  destruct (expired now (entry_of e)) eqn:Ex.
  - assert (not_waiting q off) as Hw.
    { intros e' He'. rewrite He in He'. injection He' as <-. unfold expired in Ex. simpl in Ex.
      by destruct (fe_token e). }
    destruct (IH (file_store q off (expire_file e))) as (H1 & H2 & H3); [| |intros o e' Hin|].
    + apply file_store_core; try done; [by eapply core_offset|exact (core_num _ _ _ Hc He)].
    + done.
    + unfold file_store, _push_ready. case_decide; simpl; (rewrite lookup_insert_ne; [apply Hl; by right|]);
        intros <-; apply Hno, list_elem_of_fmap; by exists (off, e').
    + split_and!; [done| |].
      * etransitivity; [by eapply (store_frame q off e (expire_file e))|done].
      * rewrite H3, file_store_mem by done. unfold expire. by rewrite Ex.
  - apply IH; [done|done|]. intros o e' Hin. apply Hl. by right.
Qed.

Lemma file_release_spec now q :
  core q →
  let q' := file_release_expired q now in
  core q' ∧ frame q q' ∧ mem_of q' = _release_expired (mem_of q) now.
Proof.
  intros Hc. pose proof (co_exact _ Hc) as Hx.
  destruct (file_release_fold now (map_to_list (fq_entries q)) q Hc) as (H1 & H2 & H3).
  { apply NoDup_fst_map_to_list. }
  { intros off e. apply elem_of_map_to_list. }
  split_and!; [exact H1|exact H2|].
  unfold file_release_expired in *. set (l := prod_map id entry_of <$> map_to_list (fq_entries q)) in *.
  assert (l ≡ₚ map_to_list (mq_entries (mem_of q))) as Hl.
  { unfold l. simpl. by rewrite map_to_list_fmap. }
  destruct (mq_release_inv now (mem_of q) (mx_inv _ Hx)) as (_ & E1 & E2 & E3).
  destruct (release_fold mq_inv now l (mem_of q)) as (_ & F1 & F2 & F3).
  { intros q1 off e Hi1 He Ex. split; [by eapply mi_acked|].
    apply store_inv; try done; [by eapply mi_offset| | |]; unfold expire; rewrite Ex; simpl.
    { by eapply mi_acked. } { by eapply mi_num. } { done. } }
  { apply Hx. }
  { rewrite Hl. apply NoDup_fst_map_to_list. }
  { intros off e. rewrite Hl. apply elem_of_map_to_list. }
  { apply Hx. }
  assert (mq_entries (mem_of (foldl (file_release_one now) q (map_to_list (fq_entries q)))) =
          mq_entries (_release_expired (mem_of q) now)) as Een.
  { rewrite H3, E3. apply map_eq. intros off. rewrite F3, lookup_fmap. case_decide as Hin; [done|].
    destruct (mq_entries (mem_of q) !! off) as [e|] eqn:E; [|done]. destruct Hin. rewrite Hl.
    apply list_elem_of_fmap. exists (off, e). split; [done|]. by apply elem_of_map_to_list. }
  pose proof (exact_ready_unique _ _ (co_exact _ H1) (release_exact now _ Hx) Een) as Erd.
  rewrite H3 in Een, Erd |- *. destruct (foldl _ (mem_of q) l), (_release_expired (mem_of q) now).
  simpl in *. congruence.
Qed.

(** ** Leasing *)

Lemma heappush_least x h : items_ok (x :: h) → NoDup (x :: h).*2 → heappush h x = x :: h.
Proof.
  intros [Hs Hn] Hnd. destruct h as [|y h]; [done|]. simpl.
  inversion Hs as [|? ? _ Hx]; subst. apply Forall_cons in Hx as [Hx _].
  apply Forall_cons in Hn as [Hnx Hn]. apply Forall_cons in Hn as [Hny _].
  rewrite item_lt_of_le; [done|done|done|done|].
  rewrite !fmap_cons in Hnd. intros E. apply NoDup_cons in Hnd as [Hni _]. apply Hni. rewrite E. left.
Qed.

(** The first item of the heap is a task without a lease. *)
Lemma core_head q av off rest :
  core q → fq_ready_heap q = (av, off) :: rest →
  ∃ e, fq_entries q !! off = Some e ∧ fe_token e = None ∧ fe_acked e = false ∧
       fe_available_at e = av ∧ off ∉ rest.*2.
Proof.
  intros Hc Hh. pose proof (co_exact _ Hc) as Hx.
  destruct (mx_ready _ Hx av off) as (e & He & Ht & Hav); [simpl; rewrite Hh; left|].
  apply (mem_lookup q) in He as (fe & He & ->). exists fe. split_and!; try done.
  - by eapply core_acked.
  - pose proof (mx_nodup _ Hx) as Hnd. simpl in Hnd. rewrite Hh in Hnd.
    by apply NoDup_cons in Hnd as [? _].
Qed.

Lemma pop_stop q now :
  core q →
  (∀ x, head (fq_ready_heap q) = Some x → flt (Fin now) x.1 = true) →
  ∃ s, _pop_ready q now = (None, with_ready q (fq_ready_heap q) s) ∧ s = fq_ready_set q.
Proof.
  intros Hc Hd. unfold _pop_ready. destruct (fq_ready_heap q) as [|[av off] rest] eqn:Eh; cbn [pop_loop].
  { eexists. split; done. }
  specialize (Hd _ eq_refl). cbn [fst] in Hd. rewrite Hd.
  pose proof (co_exact _ Hc) as Hx. pose proof (mx_nodup _ Hx) as Hnd.
  pose proof (mi_ready _ (mx_inv _ Hx)) as Hok. simpl in Hnd, Hok. rewrite Eh in Hnd, Hok.
  rewrite heappush_least by done. eexists. split; [done|].
  rewrite (co_set _ Hc), Eh. simpl. apply set_eq. intros x. destruct (decide (x = off)); set_solver.
Qed.

Lemma with_ready_id q : with_ready q (fq_ready_heap q) (fq_ready_set q) = q.
Proof. by destruct q. Qed.

Lemma pop_due q now av off rest e :
  core q → fq_ready_heap q = (av, off) :: rest → flt (Fin now) av = false →
  fq_entries q !! off = Some e → fe_token e = None →
  _pop_ready q now = (Some (off, av), with_ready q rest (fq_ready_set q ∖ {[off]})).
Proof. intros Hc Hh Hd He Ht. unfold _pop_ready. rewrite Hh. cbn [pop_loop]. by rewrite Hd, He, Ht. Qed.

(** The queue after the first item was leased. *)
Definition lease_first (q : FileWorkQueue) (off : N) (rest : list (pyfloat * N)) (e : _FileEntry)
    (deadline : Z) : FileWorkQueue :=
  mkFQ (fq_max q) (fq_v2 q) (fq_segments q) (fq_by_seq q)
    (<[off := mkFE (fe_task e) (fe_segment_seq e) (fe_available_at e) deadline
                (Some (token_of (fq_lease_seq q + 1))) (fe_acked e)]> (fq_entries q))
    rest (fq_ready_set q ∖ {[off]}) (fq_lease_seq q + 1) (fq_next_offset q) (fq_current q)
    (fq_disk q).

Lemma lease_first_core q now av off rest e deadline :
  core q → fq_ready_heap q = (av, off) :: rest → flt (Fin now) av = false →
  fq_entries q !! off = Some e → core (lease_first q off rest e deadline) ∧
  frame q (lease_first q off rest e deadline).
Proof.
  intros Hc Hh Hd He. destruct (core_head _ _ _ _ Hc Hh) as (e1 & He1 & Ht & Ha & Hav & Hni).
  rewrite He in He1. injection He1 as <-. pose proof (co_exact _ Hc) as Hx.
  split; [|split; try done; by eapply live_insert].
  split; [|simpl; rewrite (co_set _ Hc), Hh; simpl; set_solver].
  assert (lease_loop now deadline 1 (mq_ready (mem_of q)) (mq_entries (mem_of q))
            (mq_lease_seq (mem_of q)) =
          ([mkLeased off (fe_task e) deadline (token_of (fq_lease_seq q + 1))],
           (rest, mq_entries (mem_of (lease_first q off rest e deadline)), (fq_lease_seq q + 1)%N)))
    as El.
  { simpl mq_ready. rewrite Hh. cbn [lease_loop]. rewrite Hd, (mem_lookup_2 _ _ _ He).
    simpl. rewrite Ha. simpl. rewrite fmap_insert. by destruct rest; unfold entry_of; simpl; rewrite ?Ha. }
  destruct (lease_loop_spec _ _ _ _ _ _ _ _ _ _ El) as [popped Hrun].
  { apply Hx. }
  apply (after_exact _ _ _ _ _ _ _ _ _ Hrun Hx).
Qed.

Lemma file_lease_loop_spec fuel room now deadline q :
  core q → length (fq_ready_heap q) < fuel →
  let '(ls, (r, en, s)) :=
    lease_loop now deadline room (fq_ready_heap q) (entry_of <$> fq_entries q) (fq_lease_seq q) in
  let '(ls', q') := file_lease_loop fuel room now deadline q in
  ls' = ls ∧ mem_of q' = mkMQ (offset_counter q) en r s ∧ core q' ∧ frame q q'.
Proof.
  revert room q. induction fuel as [|fuel IH]; intros room q Hc Hf; [lia|].
  destruct room as [|room].
  { destruct (fq_ready_heap q) eqn:Hh; unfold mem_of; simpl; rewrite Hh; by split_and!. }
  destruct (fq_ready_heap q) as [|[av off] rest] eqn:Hh; cbn [file_lease_loop lease_loop].
  { destruct (pop_stop q now Hc) as (s & -> & ->); [by rewrite Hh|].
    rewrite with_ready_id. unfold mem_of. rewrite Hh. by split_and!. }
  destruct (flt (Fin now) av) eqn:Hd.
  { destruct (pop_stop q now Hc) as (s & -> & ->); [rewrite Hh; by intros x [= <-]|].
    rewrite with_ready_id. unfold mem_of. rewrite Hh. by split_and!. }
  destruct (core_head _ _ _ _ Hc Hh) as (e & He & Ht & Ha & Hav & Hni).
  rewrite (pop_due _ _ _ _ _ _ Hc Hh Hd He Ht). simpl fq_entries. rewrite He, lookup_fmap, He.
  simpl e_acked. rewrite Ha. simpl. rewrite ?Ha.
  destruct (lease_first_core q now av off rest e deadline Hc Hh Hd He) as [Hc1 Hf1].
  specialize (IH room (lease_first q off rest e deadline) Hc1). simpl in IH, Hf.
  specialize (IH ltac:(lia)). rewrite fmap_insert in IH. unfold entry_of in IH at 1. simpl in IH.
  unfold lease_first in IH at 1. rewrite Ha in IH.
  destruct (lease_loop _ _ _ _ _ _) as [ls [[r en] s]].
  match type of IH with let '(_, _) := ?t in _ => destruct t as [ls' q'] end.
  destruct IH as (-> & Hm & Hc' & Hf'). split_and!; [done|done|done|]. by etransitivity.
Qed.

Lemma file_lease_spec q count ms now :
  core q →
  let '(ls, m) := mq_lease (mem_of q) count ms now in
  let '(ls', q') := fq_lease q count ms now in
  ls' = ls ∧ mem_of q' = m ∧ core q' ∧ frame q q'.
Proof.
  intros Hc. unfold mq_lease, fq_lease. destruct (count <=? 0)%Z; [by split_and!|].
  destruct (file_release_spec (mono now) q Hc) as (Hc1 & Hf1 & Hm1). rewrite <- Hm1.
  pose proof (file_lease_loop_spec (S (length (fq_ready_heap (file_release_expired q (mono now)))))
    (Z.to_nat count) (mono now) (mono now + Z.max ms 0 * 1000) _ Hc1 ltac:(lia)) as H. simpl in H |- *.
  destruct (lease_loop _ _ _ _ _ _) as [ls [[r en] s]].
  match type of H with let '(_, _) := ?t in _ => destruct t as [ls' q'] end.
  destruct H as (-> & Hm & Hc' & Hf'). split_and!; [done|done|done|]. by etransitivity.
Qed.

(** ** Operations that write to the directory *)

Lemma counter_to n : counter_value (N.to_uint n) = n.
Proof. apply DecimalN.Unsigned.of_to. Qed.

(** What [core] and [mem_of] look at, the counter aside. *)
Record same_core (q q' : FileWorkQueue) : Prop := {
  sc_entries : fq_entries q' = fq_entries q;
  sc_heap : fq_ready_heap q' = fq_ready_heap q;
  sc_set : fq_ready_set q' = fq_ready_set q;
  sc_lease : fq_lease_seq q' = fq_lease_seq q
}.

#[export] Instance same_core_preorder : PreOrder same_core.
Proof. split; [by split|]. intros x y z [] []. split; congruence. Qed.

Lemma same_core_mem q q' :
  same_core q q' → offset_counter q' = offset_counter q → mem_of q' = mem_of q.
Proof. intros [E1 E2 _ E4] E. unfold mem_of. by rewrite E, E1, E2, E4. Qed.

(** The counter only grows. *)
Lemma same_core_core q q' :
  same_core q q' → (offset_counter q <= offset_counter q')%N → core q → core q'.
Proof.
  intros [E1 E2 E3 E4] Hle [[[Ho Ha Hn Ht Hu Hq Hr] Hx Hnd] Hs].
  assert (mem_of q' = mkMQ (offset_counter q') (mq_entries (mem_of q)) (mq_ready (mem_of q))
                        (mq_lease_seq (mem_of q))) as E.
  { unfold mem_of. simpl. by rewrite E1, E2, E4. }
  split; [|congruence]. rewrite E. split; [split|..]; try done.
  intros off e He. apply Ho in He. simpl in *. lia.
Qed.

Lemma rotate_same q :
  same_core q (_rotate_segment_unlocked q).2 ∧
  offset_counter (_rotate_segment_unlocked q).2 = offset_counter q.
Proof. done. Qed.

Lemma maybe_rotate_same q :
  same_core q (_maybe_rotate_unlocked q) ∧
  offset_counter (_maybe_rotate_unlocked q) = offset_counter q.
Proof.
  unfold _maybe_rotate_unlocked. destruct (fq_current q); [|done].
  destruct (_ <=? _)%N; [apply rotate_same|done].
Qed.

Lemma compact_loop_offset cur segs by_seq d :
  dk_offset (compact_loop cur segs by_seq d).2 = dk_offset d.
Proof.
  revert by_seq d. induction segs as [|seq segs IH]; intros by_seq d; [done|]. simpl.
  destruct (by_seq !! seq) as [s|]; [|done]. destruct (0 <? sg_pending s)%N; [done|].
  case_bool_decide; [done|]. by rewrite IH.
Qed.

Lemma compact_same q :
  same_core q (_maybe_compact_head q) ∧ offset_counter (_maybe_compact_head q) = offset_counter q.
Proof.
  unfold _maybe_compact_head.
  pose proof (compact_loop_offset (fq_current q) (fq_segments q) (fq_by_seq q) (fq_disk q)) as E.
  destruct (compact_loop _ _ _ _) as [[segs by_seq] d]. simpl in E.
  unfold offset_counter. simpl. by rewrite E.
Qed.

Section refinement.
Context {PT : PyText} {RL : RecordLen}.

Lemma put_segment_same q task now :
  let '(off, _, _, q3) := put_segment q task now in
  off = offset_counter q ∧ same_core q q3 ∧ offset_counter q3 = (offset_counter q + 1)%N.
Proof.
  unfold put_segment, _ensure_active_segment.
  destruct (fq_current q) as [seq0|]; simpl; destruct (_ && _); simpl;
    (split; [done|split; [done|]]); unfold offset_counter; simpl; by rewrite counter_to.
Qed.

Lemma file_put_spec q task now :
  core q →
  let '(off, m) := mq_put (mem_of q) task now in
  let '(off', q') := fq_put q task now in
  off' = off ∧ mem_of q' = m ∧ core q'.
Proof.
  intros Hc. unfold fq_put. pose proof (put_segment_same q task now) as Hs. simpl mq_put.
  destruct (put_segment q task now) as [[[off size] seq] q3]. destruct Hs as (-> & Hs & Eo).
  unfold mq_put.
  set (q4 := with_disk q3 _). set (q5 := with_segment q4 _).
  assert (same_core q q5) as Hs5 by (destruct Hs; by split).
  assert (offset_counter q5 = (offset_counter q + 1)%N) as Eo5 by exact Eo.
  assert (core q5) as Hc5 by (eapply same_core_core; [exact Hs5|lia|done]).
  set (e := mkFE task seq (file_available_at task now) 0 None false).
  change (_push_ready _ _ _) with (file_store q5 (offset_counter q) e).
  assert (not_waiting q5 (offset_counter q)) as Hw.
  { intros e' He'. rewrite (sc_entries _ _ Hs5) in He'. apply (core_offset _ _ _ Hc) in He'. lia. }
  assert (core (file_store q5 (offset_counter q) e)) as Hc6.
  { apply file_store_core; try done; [lia|]. apply extract_num. }
  destruct (maybe_rotate_same (file_store q5 (offset_counter q) e)) as [Hr Er].
  split; [done|]. split; [|eapply same_core_core; [exact Hr|lia|done]].
  rewrite (same_core_mem _ _ Hr Er), file_store_mem by done. unfold store, mem_of. simpl.
  by rewrite Eo5, (sc_entries _ _ Hs), (sc_heap _ _ Hs), (sc_lease _ _ Hs).
Qed.

Definition has_segment (q : FileWorkQueue) : Prop :=
  ∀ off e, fq_entries q !! off = Some e → is_Some (fq_by_seq q !! fe_segment_seq e).

Lemma held_by_file q off token :
  core q →
  held_by (mem_of q) off token =
  entry_of <$> (e ← fq_entries q !! off; if bool_decide (fe_token e = Some token) then Some e else None).
Proof.
  intros Hc. unfold held_by. simpl. rewrite lookup_fmap.
  destruct (fq_entries q !! off) as [e|] eqn:He; [|done]. simpl.
  rewrite (core_acked _ _ _ Hc He). destruct (fe_token e) as [t|]; simpl.
  - destruct (String.eqb_spec t token) as [->|Hne]; [by rewrite bool_decide_eq_true_2|].
    by rewrite bool_decide_eq_false_2 by congruence.
  - done.
Qed.

Definition file_remove (q : FileWorkQueue) (off : N) (s : _FileSegment) : FileWorkQueue :=
  let s' := segment_ack s off in
  _maybe_compact_head
    (_persist_segment_state (with_entries (with_segment q s') (delete off (fq_entries q))) s').

Lemma file_remove_mem q off s :
  core q → not_waiting q off →
  mem_of (file_remove q off s) = MemQueue.remove (mem_of q) off ∧ core (file_remove q off s).
Proof.
  intros Hc Hw. unfold file_remove. set (q1 := _persist_segment_state _ _).
  destruct (compact_same q1) as [Hs Eo].
  assert (mem_of q1 = MemQueue.remove (mem_of q) off) as Em.
  { unfold MemQueue.remove, mem_of. simpl. by rewrite fmap_delete. }
  assert (core q1) as Hc1.
  { split; [|apply (co_set _ Hc)]. rewrite Em. apply remove_exact; [apply Hc|].
    intros e' He'. apply mem_lookup in He' as (fe & He & ->). by apply (Hw fe). }
  split; [by rewrite (same_core_mem _ _ Hs Eo)|]. eapply same_core_core; [exact Hs|lia|done].
Qed.

Lemma file_ack_spec q off token :
  core q → has_segment q →
  mem_of (fq_ack q off token) = mq_ack (mem_of q) off token ∧ core (fq_ack q off token).
Proof.
  intros Hc Hseg. unfold mq_ack, fq_ack. rewrite held_by_file by done.
  destruct (fq_entries q !! off) as [e|] eqn:He; [|done]. simpl.
  case_bool_decide as Ht; [|done]. destruct (Hseg _ _ He) as [s ->].
  apply (file_remove_mem q off s Hc). intros e' He'. congruence.
Qed.

Lemma file_nack_spec q off token requeue now :
  core q → has_segment q →
  mem_of (fq_nack q off token requeue now) = mq_nack (mem_of q) off token requeue now ∧
  core (fq_nack q off token requeue now).
Proof.
  intros Hc Hseg. rewrite nack_eq. unfold fq_nack. rewrite held_by_file by done.
  destruct (fq_entries q !! off) as [e|] eqn:He; [|done]. simpl.
  case_bool_decide as Ht; [|done]. cbn [fmap option_fmap option_map].
  assert (not_waiting q off) as Hw by (intros e' He'; congruence).
  pose proof (core_acked _ _ _ Hc He) as Ha. destruct requeue.
  - set (e' := mkFE _ _ _ _ _ _).
    change (_push_ready _ _ _) with (file_store q off e'). rewrite file_store_mem by done.
    split.
    + unfold nack_entry, entry_of. simpl. by rewrite Ha.
    + apply file_store_core; try done; [by eapply core_offset|]. simpl.
      pose proof (core_num _ _ _ Hc He). by destruct (flt _ _).
  - destruct (Hseg _ _ He) as [s Hs]. simpl fq_by_seq. rewrite Hs.
    pose proof (file_remove_mem q off s Hc Hw) as H. unfold file_remove in H. simpl fq_entries in H |- *.
    rewrite delete_insert_eq. exact H.
Qed.
End refinement.
