(* ===== verification/FileRecovery.v ===== *)
(** * The file queue and its directory

    The invariant that ties the queue in memory to its files, its preservation
    by every operation, and what opening the directory again recovers. *)

From S2P Require Import Prelude PyVal PyConv Task MemQueue FileQueue.
From S2P Require Import FileQueueSpec.
From stdpp Require Import base gmap strings list pretty sorting fin_maps.
From Stdlib Require Import ZArith Lia Sorting ZifyBool ZifyN DecimalN.

(** ** The records of a log *)

Definition line_rec (l : log_line) : option (N * json) :=
  match ln_body l with Rec off t _ => Some (off, t) | _ => None end.

Definition recs (lg : segment_log) : list (N * json) := omap line_rec (log_iter lg).

Definition log_of (d : disk) (seq : N) : segment_log := default empty_log (dk_logs d !! seq).

Definition task_of (t : json) : mapping :=
  match as_mapping t with Some m => Map m | None => empty_map end.

Lemma recs_write lg size off t w :
  lg_tail lg = None → recs (log_write lg size (Rec off t w)) = recs lg ++ [(off, t)].
Proof.
  intros Ht. unfold log_write, recs, log_iter. rewrite Ht. simpl. by rewrite !app_nil_r, omap_app.
Qed.

Lemma log_write_tail lg size body : lg_tail (log_write lg size body) = None.
Proof. unfold log_write. by destruct (lg_tail lg). Qed.

(** ** The invariant *)

(** A segment object describes its log and its index file. *)
Record seg_ok (d : disk) (s : _FileSegment) : Prop := {
  so_log : is_Some (dk_logs d !! sg_seq s);
  so_nodup : NoDup (recs (log_of d (sg_seq s))).*1;
  so_acked o : o ∈ sg_acked s → o ∈ (recs (log_of d (sg_seq s))).*1;
  so_pending : sg_pending s =
    N.of_nat (length (filter (.∉ sg_acked s) (recs (log_of d (sg_seq s))).*1))
}.

(** The index file lists the acknowledged offsets. *)
Definition index_ok {PT : PyText} (d : disk) (s : _FileSegment) : Prop :=
  ∀ v2, ∃ b, _load_index_metadata v2 (dk_indexes d !! sg_seq s) = Ok (sg_acked s, b).

(** The records of two logs have different offsets, all below the counter. *)
Record logs_ok (d : disk) : Prop := {
  lo_offset seq off : off ∈ (recs (log_of d seq)).*1 → (off < counter_value (dk_offset d))%N;
  lo_disjoint s1 s2 off : off ∈ (recs (log_of d s1)).*1 → off ∈ (recs (log_of d s2)).*1 → s1 = s2
}.

(** The segments in memory, and the entries: the records that are not
    acknowledged. *)
Record loaded {PT : PyText} (q : FileWorkQueue) : Prop := {
  ld_segs seq : seq ∈ fq_segments q ↔ is_Some (fq_by_seq q !! seq);
  ld_seq seq s : fq_by_seq q !! seq = Some s → sg_seq s = seq;
  ld_seg seq s : fq_by_seq q !! seq = Some s → seg_ok (fq_disk q) s;
  ld_index seq s : fq_by_seq q !! seq = Some s → index_ok (fq_disk q) s;
  ld_logs : logs_ok (fq_disk q);
  ld_live off task seq : live q !! off = Some (task, seq) ↔
    ∃ s t, fq_by_seq q !! seq = Some s ∧ (off, t) ∈ recs (log_of (fq_disk q) seq) ∧
           (off ∉ sg_acked s) ∧ task = task_of t;
  ld_nodup : NoDup (fq_segments q)
}.

(** Nothing on disk is unknown to the queue, and numbers are below the counter. *)
Record synced {PT : PyText} (q : FileWorkQueue) : Prop := {
  sy_loaded : loaded q;
  sy_logs seq : is_Some (dk_logs (fq_disk q) !! seq) → seq ∈ fq_segments q;
  sy_meta seq : is_Some (dk_logs (fq_disk q) !! seq) ∨ is_Some (dk_indexes (fq_disk q) !! seq) →
    (seq <= counter_value (dk_meta (fq_disk q)))%N
}.

Definition disk_inv {PT : PyText} (q : FileWorkQueue) : Prop :=
  synced q ∧ ∃ cur, fq_current q = Some cur ∧ cur ∈ fq_segments q.

(** Every log ends with a newline. *)
Definition clean (d : disk) : Prop := ∀ seq, lg_tail (log_of d seq) = None.

Section invariant.
Context {PT : PyText} {RL : RecordLen}.

Lemma loaded_has_segment q : loaded q → has_segment q.
Proof.
  intros Hl off e He. assert (live q !! off = Some (fe_task e, fe_segment_seq e)) as Hv.
  { unfold live. by rewrite lookup_fmap, He. }
  apply (ld_live _ Hl) in Hv as (s & t & Hs & _). eauto.
Qed.

Lemma frame_disk_inv q q' : frame q q' → disk_inv q → disk_inv q'.
Proof.
  intros [E1 E2 E3 E4 E5 E6 E7] [[[] ] ?].
  split; [split; [split|..]|..]; rewrite ?E3, ?E4, ?E5, ?E6, ?E7; done.
Qed.

(** *** Index files *)

Lemma load_acked_ints acc b l :
  load_acked acc b ((fun o => JInt (Z.of_N o)) <$> l) = Ok (list_to_set (reverse l) ∪ acc, b).
Proof.
  revert acc. induction l as [|o l IH]; intros acc; [simpl; f_equal; f_equal; set_solver|].
  rewrite fmap_cons. cbn [load_acked py_int]. rewrite (proj2 (Z.ltb_ge _ _)) by lia.
  rewrite IH, N2Z.id. f_equal. f_equal. rewrite reverse_cons, list_to_set_app_L. set_solver.
Qed.

Lemma persist_index q s : index_ok (fq_disk (_persist_segment_state q s)) s.
Proof.
  intros v2. exists false. simpl. rewrite lookup_insert_eq. unfold _load_index_metadata.
    assert (list_to_set (reverse (N_sort (sg_acked s))) ∪ ∅ = sg_acked s) as E.
  { apply set_eq. intros o. unfold N_sort.
    rewrite elem_of_union, elem_of_list_to_set, elem_of_reverse, merge_sort_Permutation, elem_of_elements.
    set_solver. }
  pose proof (load_acked_ints ∅ false (N_sort (sg_acked s))) as H. rewrite E in H. exact H.
Qed.

(** *** A new segment *)

(** A segment list that grows by one with the table of its segments. *)
Lemma segs_snoc {A} (l : list N) (m : gmap N A) seq s :
  (∀ x, x ∈ l ↔ is_Some (m !! x)) → ∀ x, x ∈ l ++ [seq] ↔ is_Some (<[seq := s]> m !! x).
Proof.
  intros H x. rewrite elem_of_app, list_elem_of_singleton, lookup_insert_is_Some', H. naive_solver.
Qed.

Lemma NoDup_snoc {A} (l : list A) x : NoDup l → x ∉ l → NoDup (l ++ [x]).
Proof.
  intros Hl Hx. apply NoDup_app. split_and!; [done| |apply NoDup_singleton].
  by intros y Hy ->%list_elem_of_singleton.
Qed.

Lemma log_of_insert d seq lg idx meta off seq' :
  log_of (mkDisk (<[seq := lg]> (dk_logs d)) idx meta off) seq' =
  if decide (seq' = seq) then lg else log_of d seq'.
Proof.
  unfold log_of. simpl. case_decide as E; [subst; by rewrite lookup_insert_eq|].
  by rewrite lookup_insert_ne.
Qed.

Lemma log_of_missing d seq : dk_logs d !! seq = None → log_of d seq = empty_log.
Proof. unfold log_of. by intros ->. Qed.

Lemma rotate_eq q :
  _rotate_segment_unlocked q =
  let seq := (counter_value (dk_meta (fq_disk q)) + 1)%N in
  let lg := log_of (fq_disk q) seq in
  (seq,
   mkFQ (fq_max q) (fq_v2 q) (fq_segments q ++ [seq])
     (<[seq := mkSeg seq (fq_next_offset q) (Z.of_N (fq_next_offset q) - 1) (log_size lg) 0 0 ∅]>
        (fq_by_seq q))
     (fq_entries q) (fq_ready_heap q) (fq_ready_set q) (fq_lease_seq q) (fq_next_offset q)
     (Some seq)
     (mkDisk (<[seq := lg]> (dk_logs (fq_disk q))) (dk_indexes (fq_disk q)) (N.to_uint seq)
        (dk_offset (fq_disk q)))).
Proof. unfold _rotate_segment_unlocked, _open_segment_file. simpl. by rewrite insert_insert_eq. Qed.

Lemma fresh_segment q :
  synced q → let seq := (counter_value (dk_meta (fq_disk q)) + 1)%N in
  dk_logs (fq_disk q) !! seq = None ∧ dk_indexes (fq_disk q) !! seq = None ∧
  fq_by_seq q !! seq = None ∧ seq ∉ fq_segments q.
Proof.
  intros [Hl Hlogs Hmeta] seq.
  assert (dk_logs (fq_disk q) !! seq = None) as E1.
  { apply eq_None_not_Some. intros H. specialize (Hmeta seq (or_introl H)). lia. }
  assert (fq_by_seq q !! seq = None) as E2.
  { apply eq_None_not_Some. intros [s Hs]. destruct (so_log _ _ (ld_seg _ Hl _ _ Hs)) as [lg Hlg].
    rewrite (ld_seq _ Hl _ _ Hs) in Hlg. congruence. }
  split_and!; [done| |done|rewrite (ld_segs _ Hl), E2; by intros []].
  apply eq_None_not_Some. intros H. specialize (Hmeta seq (or_intror H)). lia.
Qed.

Lemma rotate_inv q :
  synced q → clean (fq_disk q) →
  let q' := (_rotate_segment_unlocked q).2 in
  disk_inv q' ∧ clean (fq_disk q') ∧ fq_current q' = Some (_rotate_segment_unlocked q).1.
Proof.
  intros Hi Hcl. destruct (fresh_segment q Hi) as (E1 & E2 & E3 & E4).
  rewrite rotate_eq. simpl. rewrite (log_of_missing _ _ E1).
  set (seq := (counter_value (dk_meta (fq_disk q)) + 1)%N) in *.
  destruct Hi as [[Hsegs Hseq Hseg Hidx [Ho Hd] Hlive Hnd] Hlogs Hmeta].
  assert (∀ seq', log_of (mkDisk (<[seq := empty_log]> (dk_logs (fq_disk q)))
            (dk_indexes (fq_disk q)) (N.to_uint seq) (dk_offset (fq_disk q))) seq' =
          log_of (fq_disk q) seq') as Elog.
  { intros seq'. rewrite log_of_insert. case_decide as E; [|done]. subst. by rewrite log_of_missing. }
  assert (∀ seq', is_Some (<[seq := empty_log]> (dk_logs (fq_disk q)) !! seq') ↔
                  seq' = seq ∨ is_Some (dk_logs (fq_disk q) !! seq')) as Hdom.
  { intros seq'. rewrite lookup_insert_is_Some'. naive_solver. }
  split_and!; [|intros seq'; by rewrite Elog|done].
  split; [|exists seq; split; [done|simpl; set_solver]].
  split; [split|..]; simpl.
  - by apply segs_snoc.
  - intros seq' s [[<- <-]|[_ Hs]]%lookup_insert_Some; [done|by apply Hseq].
  - intros seq' s [[<- <-]|[_ Hs]]%lookup_insert_Some.
    + split; simpl; rewrite ?Elog, ?(log_of_missing _ _ E1); simpl; try done.
      * apply Hdom. by left.
      * constructor.
    + pose proof (Hseq _ _ Hs) as <-. destruct (Hseg _ _ Hs) as [H1 H2 H3 H4].
      split; rewrite ?Elog; try done. simpl. apply Hdom. by right.
  - intros seq' s [[<- <-]|[_ Hs]]%lookup_insert_Some; [|by apply (Hidx _ _ Hs)].
    intros v2. exists v2. simpl. by rewrite E2.
  - split.
    + intros seq' off. rewrite Elog. apply Ho.
    + intros s1 s2 off. rewrite !Elog. apply Hd.
  - intros off task seq'. rewrite Hlive. rewrite Elog. split.
    + intros (s & t & Hs & Hrest). exists s, t. split; [|done]. rewrite lookup_insert_ne; [done|congruence].
    + intros (s & t & [[<- <-]|[_ Hs]]%lookup_insert_Some & Hin & Hrest).
      * rewrite log_of_missing in Hin by done. by apply elem_of_nil in Hin.
      * by exists s, t.
  - by apply NoDup_snoc.
  - intros seq'. rewrite Hdom. intros [->|H]; [set_solver|]. specialize (Hlogs _ H). set_solver.
  - intros seq'. rewrite Hdom, counter_to. intros [[->|H]|H]; [done| |].
    + specialize (Hmeta seq' (or_introl H)). lia.
    + specialize (Hmeta seq' (or_intror H)). lia.
Qed.

(** *** Appending a record *)

Lemma allocate_inv q :
  disk_inv q → clean (fq_disk q) →
  let '(off, q') := _allocate_offset q in
  disk_inv q' ∧ clean (fq_disk q') ∧ off = offset_counter q ∧ fq_current q' = fq_current q ∧
  offset_counter q' = (off + 1)%N ∧
  (∀ seq o, o ∈ (recs (log_of (fq_disk q') seq)).*1 → (o < off)%N).
Proof.
  intros [[[Hsegs Hseq Hseg Hidx [Ho Hd] Hlive Hnd] Hlogs Hmeta] Hcur] Hcl. simpl.
  split_and!; try done; [|unfold offset_counter; simpl; apply counter_to].
  split; [|done]. split; [split|..]; try done; simpl.
  - intros seq s Hs. by destruct (Hseg _ _ Hs).
  - split; [|done]. intros seq off Hin. simpl. rewrite counter_to.
    specialize (Ho seq off Hin). lia.
Qed.

Lemma put_segment_inv q task now :
  disk_inv q → clean (fq_disk q) →
  let '(off, _, seq, q3) := put_segment q task now in
  disk_inv q3 ∧ clean (fq_disk q3) ∧ fq_current q3 = Some seq ∧ (off < offset_counter q3)%N ∧
  (∀ seq' o, o ∈ (recs (log_of (fq_disk q3) seq')).*1 → (o < off)%N).
Proof.
  intros Hi Hcl. destruct Hi as [Hsy (cur & Hcur & Hin)]. unfold put_segment, _ensure_active_segment.
  rewrite Hcur. pose proof (allocate_inv q (conj Hsy (ex_intro _ cur (conj Hcur Hin))) Hcl) as H.
  destruct (_allocate_offset q) as [off q2]. destruct H as (Hi2 & Hcl2 & _ & Hc2 & Ho2 & Hr2).
  destruct (_ && _).
  - destruct (rotate_inv q2 (proj1 Hi2) Hcl2) as (H1 & H2 & H3).
    destruct (fresh_segment q2 (proj1 Hi2)) as (E1 & _).
    rewrite rotate_eq in *. simpl in *. split_and!; try done.
    + unfold offset_counter in *. simpl. lia.
    + intros seq' o. rewrite log_of_insert. case_decide as E; [|apply Hr2].
      rewrite log_of_missing by done. intros Hin'. by apply elem_of_nil in Hin'.
  - split_and!; try done; [congruence|lia].
Qed.

(** The queue after the record was written and entered. *)
Definition appended (q : FileWorkQueue) (off size seq : N) (task : mapping) (now : Now)
  : FileWorkQueue :=
  let q4 := with_disk q (write_record (fq_disk q) seq size
                           (Rec off (JObj (items task)) (wall now))) in
  let q5 := with_segment q4 (add_record (segment_of q4 seq) off size) in
  with_entries q5 (<[off := mkFE task seq (file_available_at task now) 0 None false]> (fq_entries q5)).

Lemma seg_ok_append d d' s off t size :
  seg_ok d s → is_Some (dk_logs d' !! sg_seq s) →
  recs (log_of d' (sg_seq s)) = recs (log_of d (sg_seq s)) ++ [(off, t)] →
  off ∉ (recs (log_of d (sg_seq s))).*1 →
  seg_ok d' (add_record s off size).
Proof.
  intros [H1 H2 H3 H4] Hlog E Hno. split; simpl; rewrite ?E, ?fmap_app; simpl.
  - done.
  - apply NoDup_app. split_and!; [done| |apply NoDup_singleton].
    by intros x Hx ->%list_elem_of_singleton.
  - intros o Ho. apply elem_of_app. left. by apply H3.
  - rewrite filter_app, length_app, filter_cons_True by (intros Ho; by apply Hno, H3).
    simpl. rewrite H4. lia.
Qed.

Lemma logs_ok_append d d' seq off t :
  logs_ok d → dk_offset d' = dk_offset d →
  (∀ seq', recs (log_of d' seq') =
     if decide (seq' = seq) then recs (log_of d seq) ++ [(off, t)] else recs (log_of d seq')) →
  (off < counter_value (dk_offset d))%N → (∀ seq', off ∉ (recs (log_of d seq')).*1) →
  logs_ok d'.
Proof.
  intros [Ho Hd] Ec Elog Hlt Hno.
  assert (∀ seq' o, o ∈ (recs (log_of d' seq')).*1 →
            o ∈ (recs (log_of d seq')).*1 ∨ seq' = seq ∧ o = off) as Hcase.
  { intros seq' o. rewrite Elog. case_decide as E; [|by left]. subst.
    rewrite fmap_app, elem_of_app. intros [Hin|Hin%list_elem_of_singleton]; [by left|by right]. }
  split.
  - intros seq' o [Hin|[_ ->]]%Hcase; rewrite Ec; [by eapply Ho|done].
  - intros s1 s2 o [H1|[-> ->]]%Hcase [H2|[-> E]]%Hcase; subst; try done; [by eapply Hd| |].
    + by destruct (Hno s1).
    + by destruct (Hno s2).
Qed.

(** The live records after an append: those before, and the new one. *)
Lemma live_append q s seq off size task av :
  let t := JObj (items task) in
  (∀ o task' seq', live q !! o = Some (task', seq') ↔
     ∃ s t, fq_by_seq q !! seq' = Some s ∧ (o, t) ∈ recs (log_of (fq_disk q) seq') ∧
            (o ∉ sg_acked s) ∧ task' = task_of t) →
  fq_by_seq q !! seq = Some s → sg_seq s = seq → seg_ok (fq_disk q) s →
  (∀ seq', off ∉ (recs (log_of (fq_disk q) seq')).*1) →
  ∀ o task' seq',
    ((fun e => (fe_task e, fe_segment_seq e)) <$> <[off := mkFE task seq av 0 None false]> (fq_entries q))
      !! o = Some (task', seq') ↔
    ∃ s' t', <[seq := add_record s off size]> (fq_by_seq q) !! seq' = Some s' ∧
             (o, t') ∈ (if decide (seq' = seq) then recs (log_of (fq_disk q) seq) ++ [(off, t)]
                        else recs (log_of (fq_disk q) seq')) ∧
             (o ∉ sg_acked s') ∧ task' = task_of t'.
Proof.
  intros t Hlive Hs Es Hok Hno o task' seq'. rewrite fmap_insert. simpl.
  destruct (decide (o = off)) as [->|Hno'].
  - rewrite lookup_insert_eq. split.
    + intros [= <- <-]. exists (add_record s off size), t. rewrite lookup_insert_eq, decide_True by done.
      split_and!; [done|apply elem_of_app; right; by left| |by destruct task].
      simpl. intros Ha. apply (so_acked _ _ Hok) in Ha. by apply Hno in Ha.
    + intros (s' & t' & Hs' & Hin & _ & ->). case_decide as E.
      * subst seq'. apply elem_of_app in Hin as [Hin|Hin%list_elem_of_singleton].
        -- destruct (Hno seq). by apply (list_elem_of_fmap_2 fst _ (off, t')).
        -- injection Hin as ->. by destruct task.
      * destruct (Hno seq'). by apply (list_elem_of_fmap_2 fst _ (off, t')).
  - rewrite lookup_insert_ne by done. change (_ <$> fq_entries q) with (live q). rewrite Hlive.
    split; intros (s' & t' & Hs' & Hin & Ha & ->).
    + case_decide as E; [subst seq'|exists s', t'; by rewrite lookup_insert_ne].
      exists (add_record s off size), t'. rewrite lookup_insert_eq.
      rewrite Hs in Hs'. injection Hs' as <-.
      split_and!; [done|apply elem_of_app; by left|done|done].
    + case_decide as E; [subst seq'|exists s', t'; by rewrite lookup_insert_ne in Hs'].
      rewrite lookup_insert_eq in Hs'. injection Hs' as <-. exists s, t'.
      apply elem_of_app in Hin as [Hin|Hin%list_elem_of_singleton]; [done|congruence].
Qed.

Lemma appended_inv q off size seq task now :
  disk_inv q → clean (fq_disk q) → fq_current q = Some seq → (off < offset_counter q)%N →
  (∀ seq' o, o ∈ (recs (log_of (fq_disk q) seq')).*1 → (o < off)%N) →
  disk_inv (appended q off size seq task now) ∧ clean (fq_disk (appended q off size seq task now)).
Proof.
  intros [[[Hsegs Hseq Hseg Hidx [Ho Hd] Hlive Hnd] Hlogs Hmeta] Hcur] Hcl Hc Hlt Hfresh.
  assert (seq ∈ fq_segments q) as Hin by (destruct Hcur as (c & Ec & ?); congruence).
  apply Hsegs in Hin as [s Hs]. pose proof (Hseq _ _ Hs) as Es.
  assert (segment_of q seq = s) as Eseg by (unfold segment_of; by rewrite Hs).
  set (t := JObj (items task)).
  assert (∀ seq', recs (log_of (write_record (fq_disk q) seq size (Rec off t (wall now))) seq') =
                  if decide (seq' = seq) then recs (log_of (fq_disk q) seq) ++ [(off, t)]
                  else recs (log_of (fq_disk q) seq')) as Elog.
  { intros seq'. unfold write_record. rewrite log_of_insert. case_decide; [|done].
    apply recs_write, Hcl. }
  assert (∀ seq', off ∉ (recs (log_of (fq_disk q) seq')).*1) as Hno.
  { intros seq' H. specialize (Hfresh _ _ H). lia. }
  assert (∀ seq', is_Some (dk_logs (write_record (fq_disk q) seq size (Rec off t (wall now))) !! seq') ↔
                  is_Some (dk_logs (fq_disk q) !! seq')) as Hdom.
  { intros seq'. simpl. destruct (decide (seq' = seq)) as [->|Hne].
    - rewrite lookup_insert_eq. split; [|eauto]. intros _. rewrite <- Es. apply (Hseg _ _ Hs).
    - by rewrite lookup_insert_ne. }
  unfold appended. fold t. set (d' := write_record _ _ _ _) in *.
  split; [split; [split; [split|..]|]|]; simpl;
    change (segment_of (with_disk q d') seq) with (segment_of q seq); rewrite ?Eseg; simpl; rewrite ?Es.
  - intros seq'. rewrite Hsegs. destruct (decide (seq' = seq)) as [->|Hne].
    + rewrite lookup_insert_eq. split; eauto.
    + by rewrite lookup_insert_ne.
  - intros seq' s' [[<- <-]|[_ Hs']]%lookup_insert_Some; [done|by apply Hseq].
  - intros seq' s' [[<- <-]|[Hne Hs']]%lookup_insert_Some.
    + rewrite <- Es in *. eapply (seg_ok_append (fq_disk q)); [by eapply Hseg| | |apply Hno].
      * apply Hdom, (Hseg _ _ Hs).
      * rewrite Elog. by rewrite decide_True.
    + pose proof (Hseq _ _ Hs') as E'. destruct (Hseg _ _ Hs') as [H1 H2 H3 H4].
      rewrite E' in *. split; rewrite ?E', ?Elog, ?decide_False by congruence; try done. by apply Hdom.
  - intros seq' s' [[<- <-]|[Hne Hs']]%lookup_insert_Some; [apply (Hidx _ _ Hs)|apply (Hidx _ _ Hs')].
  - by eapply (logs_ok_append (fq_disk q) d' seq off t).
  - intros o task' seq'. rewrite Elog. apply (live_append q); try done. by apply (Hseg seq).
  - done.
  - intros seq' H. apply Hlogs. by apply Hdom.
  - intros seq' [H|H]; apply Hmeta; [left; by apply Hdom|by right].
  - exists seq. split; [done|]. apply Hsegs. eauto.
  - intros seq'. unfold d', write_record. rewrite log_of_insert. case_decide; [|apply Hcl].
    apply log_write_tail.
Qed.

Lemma put_disk_inv q task now :
  disk_inv q → clean (fq_disk q) →
  disk_inv (fq_put q task now).2 ∧ clean (fq_disk (fq_put q task now).2).
Proof.
  intros Hi Hcl. unfold fq_put. pose proof (put_segment_inv q task now Hi Hcl) as H.
  destruct (put_segment q task now) as [[[off size] seq] q3]. destruct H as (Hi3 & Hcl3 & Hc3 & Ho3 & Hr3).
  destruct (appended_inv q3 off size seq task now Hi3 Hcl3 Hc3 Ho3 Hr3) as [Hi6 Hcl6].
  set (q7 := _push_ready _ _ _). simpl.
  assert (frame (appended q3 off size seq task now) q7) as Hf by apply push_frame.
  assert (disk_inv q7) as Hi7 by (by eapply frame_disk_inv).
  assert (clean (fq_disk q7)) as Hcl7 by (by rewrite (fr_disk _ _ Hf)).
  unfold _maybe_rotate_unlocked. destruct (fq_current q7); [|done].
  destruct (_ <=? _)%N; [|done]. destruct (rotate_inv q7 (proj1 Hi7) Hcl7) as (? & ? & _). done.
Qed.

(** *** Acknowledging *)

Lemma filter_ack_step (A : gset N) off x l :
  x ≠ off →
  filter (.∉ A) (x :: l) = (if decide (x ∈ A) then [] else [x]) ++ filter (.∉ A) l ∧
  filter (.∉ {[off]} ∪ A) (x :: l) =
    (if decide (x ∈ A) then [] else [x]) ++ filter (.∉ {[off]} ∪ A) l.
Proof.
  intros Hne. destruct (decide (x ∈ A)) as [Hx|Hx].
  - rewrite !filter_cons_False; [done| |]; rewrite ?elem_of_union; tauto.
  - rewrite !filter_cons_True; [done| |done]. rewrite elem_of_union, elem_of_singleton. tauto.
Qed.

Lemma filter_ack (A : gset N) off l :
  NoDup l → off ∈ l → off ∉ A →
  length (filter (.∉ A) l) = S (length (filter (.∉ {[off]} ∪ A) l)).
Proof.
  intros Hnd Hin Hno. assert (∀ k : list N, off ∉ k → filter (.∉ {[off]} ∪ A) k = filter (.∉ A) k) as Hk.
  { induction k as [|x k IH]; [done|]. intros [Hx Hk]%not_elem_of_cons.
    destruct (filter_ack_step A off x k ltac:(done)) as [-> ->]. by rewrite IH. }
  induction l as [|x l IH]; [by apply elem_of_nil in Hin|].
  apply NoDup_cons in Hnd as [Hx Hnd]. destruct (decide (x = off)) as [->|Hne].
  - rewrite filter_cons_True, filter_cons_False by set_solver. simpl. by rewrite Hk.
  - destruct (filter_ack_step A off x l Hne) as [-> ->]. rewrite !length_app, IH; [lia|done|].
    by apply elem_of_cons in Hin as [->|].
Qed.

Lemma segment_ack_ok d s off :
  seg_ok d s → off ∈ (recs (log_of d (sg_seq s))).*1 → off ∉ sg_acked s →
  seg_ok d (segment_ack s off).
Proof.
  intros [H1 H2 H3 H4] Hin Hno. unfold segment_ack. rewrite decide_False by done.
  split; simpl; try done.
  - intros o [->%elem_of_singleton|Ho]%elem_of_union; [done|by apply H3].
  - pose proof (filter_ack (sg_acked s) off _ H2 Hin Hno) as E. rewrite H4, E.
    destruct (N.ltb_spec 0 (N.of_nat (S (length (filter (.∉ {[off]} ∪ sg_acked s)
      (recs (log_of d (sg_seq s))).*1))))); lia.
Qed.

Definition acked_queue (q : FileWorkQueue) (off : N) (s : _FileSegment) : FileWorkQueue :=
  _persist_segment_state
    (with_entries (with_segment q (segment_ack s off)) (delete off (fq_entries q)))
    (segment_ack s off).

Lemma segment_ack_fields s off :
  off ∉ sg_acked s →
  sg_seq (segment_ack s off) = sg_seq s ∧ sg_acked (segment_ack s off) = {[off]} ∪ sg_acked s.
Proof. intros Hno. unfold segment_ack. by rewrite decide_False. Qed.

Lemma acked_inv q off e s :
  disk_inv q → fq_entries q !! off = Some e → fq_by_seq q !! fe_segment_seq e = Some s →
  disk_inv (acked_queue q off s).
Proof.
  intros [[[Hsegs Hseq Hseg Hidx Hlo Hlive Hnd] Hlogs Hmeta] Hcur] He Hs.
  set (seq := fe_segment_seq e) in *. pose proof (Hseq _ _ Hs) as Es.
  assert (live q !! off = Some (fe_task e, seq)) as Hv by (unfold live; by rewrite lookup_fmap, He).
  apply Hlive in Hv as (s1 & t & Hs1 & Hin & Hno & Et). rewrite Hs in Hs1. injection Hs1 as <-.
  assert (off ∈ (recs (log_of (fq_disk q) seq)).*1) as Hin' by (by apply (list_elem_of_fmap_2 fst _ (off, t))).
  destruct (segment_ack_fields s off Hno) as [Eseq Eack].
  assert (seg_ok (fq_disk q) (segment_ack s off)) as Hok.
  { apply segment_ack_ok; [by eapply Hseg|by rewrite Es|done]. }
  split; [split; [split|..]|]; simpl; rewrite ?Eseq, ?Es; try done.
  - intros seq'. rewrite Hsegs. destruct (decide (seq' = seq)) as [->|Hne].
    + rewrite lookup_insert_eq. split; eauto.
    + by rewrite lookup_insert_ne.
  - intros seq' s' [[<- <-]|[_ Hs']]%lookup_insert_Some; [congruence|by apply Hseq].
  - intros seq' s' [[<- <-]|[Hne Hs']]%lookup_insert_Some; [by destruct Hok|].
    by destruct (Hseg _ _ Hs').
  - intros seq' s' [[<- <-]|[Hne Hs']]%lookup_insert_Some.
    + pose proof (persist_index q (segment_ack s off)) as H. simpl in H. rewrite Eseq, Es in H. exact H.
    + intros v2. simpl. rewrite (Hseq _ _ Hs'), lookup_insert_ne by done.
      specialize (Hidx _ _ Hs' v2). by rewrite (Hseq _ _ Hs') in Hidx.
  - by destruct Hlo.
  - intros o task seq'. unfold live. simpl. rewrite fmap_delete.
    change (_ <$> fq_entries q) with (live q). rewrite lookup_delete_Some, Hlive. split.
    + intros (Hne & s' & t' & Hs' & Hin1 & Ha & ->). destruct (decide (seq' = seq)) as [->|Hne'].
      * exists (segment_ack s off), t'. rewrite lookup_insert_eq, Eack.
        rewrite Hs in Hs'. injection Hs' as <-. split_and!; [done|done|set_solver|done].
      * exists s', t'. by rewrite lookup_insert_ne.
    + intros (s' & t' & Hs' & Hin1 & Ha & ->). apply lookup_insert_Some in Hs' as [[<- <-]|[Hne Hs']].
      * rewrite Eack in Ha. split; [set_solver|]. exists s, t'. split_and!; [done|done|set_solver|done].
      * split; [|by exists s', t']. intros <-. apply Hne.
        eapply (lo_disjoint _ Hlo); [exact Hin'|]. by apply (list_elem_of_fmap_2 fst _ (off, t')).
  - intros seq' [H|H]; [apply Hmeta; by left|]. apply Hmeta. destruct (decide (seq' = seq)) as [->|Hne].
    + left. rewrite <- Es. apply (so_log _ _ (Hseg _ _ Hs)).
    + right. by rewrite lookup_insert_ne in H.
Qed.

(** *** Removing finished segments *)

Definition drop_segment (q : FileWorkQueue) (seq : N) (rest : list N) : FileWorkQueue :=
  let d := fq_disk q in
  mkFQ (fq_max q) (fq_v2 q) rest (delete seq (fq_by_seq q)) (fq_entries q) (fq_ready_heap q)
    (fq_ready_set q) (fq_lease_seq q) (fq_next_offset q) (fq_current q)
    (mkDisk (delete seq (dk_logs d)) (delete seq (dk_indexes d)) (dk_meta d) (dk_offset d)).

Lemma log_of_delete d seq idx meta off seq' :
  log_of (mkDisk (delete seq (dk_logs d)) idx meta off) seq' =
  if decide (seq' = seq) then empty_log else log_of d seq'.
Proof.
  unfold log_of. simpl. case_decide as E; [subst; by rewrite lookup_delete_eq|].
  by rewrite lookup_delete_ne.
Qed.

Lemma drop_inv q seq rest s :
  disk_inv q → fq_segments q = seq :: rest → fq_by_seq q !! seq = Some s → sg_pending s = 0%N →
  fq_current q ≠ Some seq → disk_inv (drop_segment q seq rest).
Proof.
  intros [[[Hsegs Hseq Hseg Hidx Hlo Hlive Hnd] Hlogs Hmeta] Hcur] Eseg Hs Hp Hc.
  pose proof (Hseq _ _ Hs) as Es. rewrite Eseg in *. apply NoDup_cons in Hnd as [Hni Hnd].
  assert (∀ seq', seq' ≠ seq → log_of (fq_disk (drop_segment q seq rest)) seq' = log_of (fq_disk q) seq') as Elog.
  { intros seq' Hne. simpl. rewrite log_of_delete. by rewrite decide_False. }
  assert (∀ seq' o, o ∈ (recs (log_of (fq_disk (drop_segment q seq rest)) seq')).*1 →
            o ∈ (recs (log_of (fq_disk q) seq')).*1) as Hsub.
  { intros seq' o. simpl. rewrite log_of_delete. case_decide; [by intros ?%elem_of_nil|done]. }
  split; [split; [split|..]|].
  - intros seq'. simpl. destruct (decide (seq' = seq)) as [->|Hne].
    + rewrite lookup_delete_eq. split; [done|by intros []].
    + rewrite lookup_delete_ne by done. rewrite <- Hsegs. set_solver.
  - simpl. intros seq' s' [_ Hs']%lookup_delete_Some. by apply Hseq.
  - intros seq' s' Hs'. simpl in Hs'. apply lookup_delete_Some in Hs' as [Hne Hs']. pose proof (Hseq _ _ Hs') as E'.
    destruct (Hseg _ _ Hs') as [H1 H2 H3 H4]. rewrite E' in *.
    split; rewrite ?E', ?Elog by congruence; try done. simpl. by rewrite lookup_delete_ne.
  - intros seq' s' Hs' v2. simpl in Hs'. apply lookup_delete_Some in Hs' as [Hne Hs']. specialize (Hidx _ _ Hs' v2).
    rewrite (Hseq _ _ Hs') in *. simpl. by rewrite lookup_delete_ne.
  - split; simpl.
    + intros seq' o Hin. by eapply (lo_offset _ Hlo), (Hsub seq').
    + intros s1 s2 o H1 H2. by eapply (lo_disjoint _ Hlo); apply Hsub.
  - intros off task seq'. change (live (drop_segment q seq rest)) with (live q). rewrite Hlive.
    assert (∀ s' t, fq_by_seq q !! seq' = Some s' → (off, t) ∈ recs (log_of (fq_disk q) seq') →
              off ∉ sg_acked s' → seq' ≠ seq) as Hne.
    { intros s' t Hs' Hin Ha ->. rewrite Hs in Hs'. injection Hs' as <-.
      pose proof (so_pending _ _ (Hseg _ _ Hs)) as Epend. rewrite Hp, Es in Epend.
      assert (off ∈ filter (.∉ sg_acked s) (recs (log_of (fq_disk q) seq)).*1) as Hf.
      { apply list_elem_of_filter. split; [done|]. by apply (list_elem_of_fmap_2 fst _ (off, t)). }
      destruct (filter (.∉ sg_acked s) _); [by apply elem_of_nil in Hf|]. simpl in Epend. lia. }
    split; intros (s' & t & Hs' & Hin & Ha & ->).
    + pose proof (Hne _ _ Hs' Hin Ha). exists s', t. simpl. rewrite lookup_delete_ne by done.
      change (mkDisk _ _ _ _) with (fq_disk (drop_segment q seq rest)). by rewrite Elog.
    + simpl in Hs'. apply lookup_delete_Some in Hs' as [Hn Hs']. exists s', t.
      rewrite Elog in Hin by done. done.
  - done.
  - simpl. intros seq' [lg [Hne Hlg]%lookup_delete_Some].
    assert (seq' ∈ seq :: rest) as Hin by (apply Hlogs; eauto). set_solver.
  - simpl. intros seq' [[? [_ ?]%lookup_delete_Some]|[? [_ ?]%lookup_delete_Some]]; apply Hmeta; eauto.
  - destruct Hcur as (cur & Ec & Hin). exists cur. split; [done|]. simpl. rewrite Ec in Hc. set_solver.
Qed.

Lemma compact_inv q : disk_inv q → disk_inv (_maybe_compact_head q).
Proof.
  remember (fq_segments q) as segs eqn:E. revert q E.
  induction segs as [|seq rest IH]; intros q E Hi; unfold _maybe_compact_head; rewrite <- E; simpl;
    [rewrite E; by destruct q|].
  assert (disk_inv (mkFQ (fq_max q) (fq_v2 q) (seq :: rest) (fq_by_seq q) (fq_entries q)
    (fq_ready_heap q) (fq_ready_set q) (fq_lease_seq q) (fq_next_offset q) (fq_current q) (fq_disk q)))
    as Hsame by (rewrite E; by destruct q).
  destruct (fq_by_seq q !! seq) as [s|] eqn:Hs; [|done].
  destruct (N.ltb_spec 0 (sg_pending s)) as [|Hp]; [done|].
  case_bool_decide as Hc; [done|].
  specialize (IH (drop_segment q seq rest) eq_refl). apply IH. eapply drop_inv; [done|done|done|lia|done].
Qed.

Lemma persist_clean q s : clean (fq_disk q) → clean (fq_disk (_persist_segment_state q s)).
Proof. done. Qed.

Lemma compact_clean q : clean (fq_disk q) → clean (fq_disk (_maybe_compact_head q)).
Proof.
  intros Hcl. unfold _maybe_compact_head. generalize (fq_by_seq q) (fq_disk q) Hcl. clear Hcl.
  induction (fq_segments q) as [|seq rest IH]; intros by_seq d Hcl; simpl; [done|].
  destruct (by_seq !! seq) as [s|]; [|done]. destruct (0 <? sg_pending s)%N; [done|].
  case_bool_decide; [done|]. apply IH. intros seq'. rewrite log_of_delete. by case_decide.
Qed.
End invariant.
