(* ===== verification/FileReopen.v ===== *)
(** * Opening the directory of a file queue

    Opening a directory that a queue left behind, at any point between two
    operations or inside a [put], recovers exactly the tasks that were not
    acknowledged. *)

From S2P Require Import Prelude PyVal PyConv Task MemQueue FileQueue.
From S2P Require Import FileQueueSpec FileRecovery.
From stdpp Require Import base gmap strings list pretty sorting fin_maps.
From Stdlib Require Import ZArith Lia Sorting ZifyBool ZifyN DecimalN.

(** Everything but the entries and the heap. *)
Definition shell (q : FileWorkQueue) :=
  (fq_max q, fq_v2 q, fq_segments q, fq_by_seq q, fq_lease_seq q, fq_next_offset q, fq_current q,
   fq_disk q).

Definition no_tokens (q : FileWorkQueue) : Prop :=
  ∀ off e, fq_entries q !! off = Some e → fe_token e = None.

Section reopen.
Context {PT : PyText} {RL : RecordLen}.

(** ** Scanning a log *)

Definition kept (acked : gset N) (rs : list (N * json)) : list N :=
  filter (.∉ acked) rs.*1.

(** What scanning the records [rs] of segment [seq] adds. *)
Record scanned (seq : N) (acked : gset N) (rs : list (N * json)) (st st' : scan) : Prop := {
  sd_core : core (sc_q st');
  sd_shell : shell (sc_q st') = shell (sc_q st);
  sd_tokens : no_tokens (sc_q st) → no_tokens (sc_q st');
  sd_live off task s : live (sc_q st') !! off = Some (task, s) ↔
    live (sc_q st) !! off = Some (task, s) ∨
    s = seq ∧ ∃ t, (off, t) ∈ rs ∧ (off ∉ acked) ∧ task = task_of t;
  sd_observed : sc_observed st' = list_to_set rs.*1 ∪ sc_observed st;
  sd_pending : sc_pending st' = (sc_pending st + N.of_nat (length (kept acked rs)))%N;
  sd_end : sc_end st' = sc_end st ∨ ∃ off, off ∈ rs.*1 ∧ sc_end st' = Z.of_N off
}.

Lemma live_None q off : live q !! off = None ↔ fq_entries q !! off = None.
Proof. unfold live. by rewrite lookup_fmap, fmap_None. Qed.

Lemma shell_counter q q' : shell q' = shell q → offset_counter q' = offset_counter q.
Proof. unfold shell, offset_counter. congruence. Qed.

(** One record. *)
Lemma scan_rec_spec seq acked now st size off t w :
  core (sc_q st) → (off < offset_counter (sc_q st))%N → fq_entries (sc_q st) !! off = None →
  scanned seq acked [(off, t)] st (scan_line seq acked now st (mkLine size (Rec off t w))).
Proof.
  intros Hc Hlt Hno. unfold scan_line. simpl ln_body. cbn [ln_size].
  fold (task_of t). set (e := mkFE (task_of t) seq (file_available_at (task_of t) now) 0 None false).
  change (_push_ready _ _ _) with (file_store (sc_q st) off e).
  assert (not_waiting (sc_q st) off) as Hw by (intros e'; congruence).
  assert (fq_entries (file_store (sc_q st) off e) = <[off := e]> (fq_entries (sc_q st))) as Een.
  { unfold file_store, _push_ready. by case_decide. }
  case_bool_decide as Ha; simpl.
  - split; simpl; try done.
    + intros o task s. split; [by left|]. intros [H|(_ & t' & Hin & Hna & _)]; [done|].
      apply list_elem_of_singleton in Hin. congruence.
    + set_solver.
    + unfold kept. rewrite fmap_cons, filter_cons_False by (by intros H). simpl. lia.
    + right. exists off. split; [left|done].
  - split; simpl; try done.
    + apply file_store_core; try done. apply extract_num.
    + unfold file_store, _push_ready. by case_decide.
    + intros Ht o e'. rewrite Een. intros [[<- <-]|[_ H]]%lookup_insert_Some; [done|by eapply Ht].
    + intros o task s. unfold live at 1. rewrite Een, fmap_insert, lookup_insert_Some. simpl. split.
      * intros [[<- [= <- <-]]|[_ H]]; [|by left]. right. split; [done|]. exists t. split_and!; [left|done|done].
      * intros [H|(-> & t' & Hin & Hna & ->)].
        -- right. split; [|done]. intros <-. apply live_None in Hno. congruence.
        -- apply list_elem_of_singleton in Hin. injection Hin as -> ->. by left.
    + set_solver.
    + unfold kept. rewrite fmap_cons, filter_cons_True by done. simpl. lia.
    + right. exists off. split; [left|done].
Qed.

Lemma scanned_trans seq acked rs rs' st st' st'' :
  scanned seq acked rs st st' → scanned seq acked rs' st' st'' →
  scanned seq acked (rs ++ rs') st st''.
Proof.
  intros [A1 A2 A3 A4 A5 A6 A7] [B1 B2 B3 B4 B5 B6 B7]. split.
  - done.
  - congruence.
  - auto.
  - intros off task s. rewrite B4, A4. setoid_rewrite elem_of_app. split.
    + intros [[H|(-> & t & H)]|(-> & t & H)]; [by left| |]; right; split; try done; exists t; naive_solver.
    + intros [H|(-> & t & [H|H] & ?)]; [by left; left|left; right|right]; split; try done; by exists t.
  - rewrite B5, A5, fmap_app, list_to_set_app_L. set_solver.
  - rewrite B6, A6. unfold kept. rewrite fmap_app, filter_app, length_app. lia.
  - rewrite fmap_app. setoid_rewrite elem_of_app.
    destruct B7 as [->|(o & Ho & ->)]; [destruct A7 as [->|(o & Ho & ->)]|]; [by left| |]; right; exists o; auto.
Qed.

Lemma scan_spec seq acked now lines st :
  core (sc_q st) → NoDup (omap line_rec lines).*1 →
  (∀ off, off ∈ (omap line_rec lines).*1 →
     (off < offset_counter (sc_q st))%N ∧ fq_entries (sc_q st) !! off = None) →
  scanned seq acked (omap line_rec lines) st (foldl (scan_line seq acked now) st lines).
Proof.
  revert st. induction lines as [|[size body] lines IH]; intros st Hc Hnd Hoff.
  { simpl. split; simpl; try done; [|set_solver|lia|by left].
    intros off task s. split; [by left|]. intros [H|(_ & t & H & _)]; [done|]. by apply elem_of_nil in H. }
  destruct body as [| |off t w]; simpl in *.
  1-2: match goal with |- scanned _ _ _ _ (foldl _ ?s0 _) => destruct (IH s0 Hc Hnd Hoff) end; by split.
  apply NoDup_cons in Hnd as [Hni Hnd].
  destruct (Hoff off) as [Hlt Hno]; [left|].
  pose proof (scan_rec_spec seq acked now st size off t w Hc Hlt Hno) as H1.
  apply (scanned_trans seq acked [(off, t)] _ st _ _ H1). apply IH; [apply (sd_core _ _ _ _ _ H1)|done|].
  intros o Ho. rewrite (shell_counter _ _ (sd_shell _ _ _ _ _ H1)).
  destruct (Hoff o) as [Hlt' Hno']; [by right|]. split; [done|].
  apply live_None. apply live_None in Hno'. apply eq_None_not_Some. intros [[task s] Hs].
  apply (sd_live _ _ _ _ _ H1) in Hs as [Hs|(_ & t' & Hin & _)]; [congruence|].
  apply list_elem_of_singleton in Hin. injection Hin as -> ->. done.
Qed.

(** ** Loading the segments *)

Definition index_acked (d : disk) (seq : N) (acked : gset N) : Prop :=
  ∀ v2, ∃ b, _load_index_metadata v2 (dk_indexes d !! seq) = Ok (acked, b).

(** What a directory needs to be opened without loss; segment numbers have at
    most six digits. *)
Record openable (d : disk) : Prop := {
  op_logs : logs_ok d;
  op_nodup seq : NoDup (recs (log_of d seq)).*1;
  op_index seq : is_Some (dk_logs d !! seq) →
    ∃ acked, index_acked d seq acked ∧ ∀ o, o ∈ acked → o ∈ (recs (log_of d seq)).*1;
  op_meta seq : is_Some (dk_logs d !! seq) ∨ is_Some (dk_indexes d !! seq) →
    (seq <= counter_value (dk_meta d))%N;
  op_six : (counter_value (dk_meta d) < 1000000)%N
}.

(** The queue once the segments [done] of [d] are loaded. *)
Record loading (d : disk) (done : list N) (q : FileWorkQueue) : Prop := {
  lg_core : core q;
  lg_tokens : no_tokens q;
  lg_logs : dk_logs (fq_disk q) = dk_logs d;
  lg_meta : dk_meta (fq_disk q) = dk_meta d;
  lg_offset : dk_offset (fq_disk q) = dk_offset d;
  lg_rest seq : seq ∉ done → dk_indexes (fq_disk q) !! seq = dk_indexes d !! seq;
  lg_done seq : seq ∈ done → is_Some (dk_logs d !! seq);
  lg_segments : fq_segments q = done;
  lg_loaded : loaded q;
  lg_acked seq s : fq_by_seq q !! seq = Some s → index_acked d seq (sg_acked s);
  lg_current : fq_current q = None
}.

Definition add_segment (q : FileWorkQueue) (seq : N) (s : _FileSegment) : FileWorkQueue :=
  mkFQ (fq_max q) (fq_v2 q) (fq_segments q ++ [seq]) (<[seq := s]> (fq_by_seq q))
    (fq_entries q) (fq_ready_heap q) (fq_ready_set q) (fq_lease_seq q)
    (fq_next_offset q) (fq_current q) (fq_disk q).

Lemma log_of_same d d' seq : dk_logs d' = dk_logs d → log_of d' seq = log_of d seq.
Proof. unfold log_of. by intros ->. Qed.

(** The directory after the index of [seq] may have been rewritten. *)
Definition index_rewritten (q q' : FileWorkQueue) (seq : N) : Prop :=
  same_core q q' ∧ fq_max q' = fq_max q ∧ fq_v2 q' = fq_v2 q ∧ fq_segments q' = fq_segments q ∧
  fq_by_seq q' = fq_by_seq q ∧ fq_next_offset q' = fq_next_offset q ∧
  fq_current q' = fq_current q ∧ dk_logs (fq_disk q') = dk_logs (fq_disk q) ∧
  dk_meta (fq_disk q') = dk_meta (fq_disk q) ∧ dk_offset (fq_disk q') = dk_offset (fq_disk q) ∧
  ∀ seq', seq' ≠ seq → dk_indexes (fq_disk q') !! seq' = dk_indexes (fq_disk q) !! seq'.

Lemma build_eq d done q seq now acked :
  openable d → loading d done q → is_Some (dk_logs d !! seq) → seq ∉ done →
  index_acked d seq acked → (∀ o, o ∈ acked → o ∈ (recs (log_of d seq)).*1) →
  ∃ s st q1,
    _build_segment_from_files q seq now = Ok (s, q1) ∧
    scanned seq acked (recs (log_of d seq))
      (mkScan q (fq_next_offset q) (Z.of_N (fq_next_offset q) - 1) 0 0 0 ∅) st ∧
    index_rewritten (sc_q st) q1 seq ∧ index_ok (fq_disk q1) s ∧
    sg_seq s = seq ∧ sg_acked s = acked ∧ sg_pending s = sc_pending st ∧
    sg_end_offset s = sc_end st.
Proof.
  intros Hop Hl Hlog Hni Hacked Hsub. unfold _build_segment_from_files.
  rewrite (lg_rest _ _ _ Hl seq Hni). destruct (Hacked (fq_v2 q)) as [b Hb]. rewrite Hb. cbn [mbind res_bind].
  change (default empty_log (dk_logs (fq_disk q) !! seq)) with (log_of (fq_disk q) seq).
  rewrite (log_of_same d) by apply (lg_logs _ _ _ Hl).
  set (st0 := mkScan q _ _ _ _ _ _).
  pose proof (scan_spec seq acked now (log_iter (log_of d seq)) st0 (lg_core _ _ _ Hl)
                (op_nodup _ Hop seq)) as Hsc.
  set (st := foldl _ st0 _) in *. fold (recs (log_of d seq)) in Hsc.
  assert (scanned seq acked (recs (log_of d seq)) st0 st) as Hs.
  { apply Hsc. intros off Hoff. split.
    - unfold offset_counter. simpl. rewrite (lg_offset _ _ _ Hl). by eapply (lo_offset _ (op_logs _ Hop)).
    - apply live_None, eq_None_not_Some. intros [[task s] Hs].
      apply (ld_live _ (lg_loaded _ _ _ Hl)) in Hs as (s' & t & Hs' & Hin & _).
      rewrite (log_of_same d) in Hin by apply (lg_logs _ _ _ Hl).
      assert (s = seq) as ->.
      { eapply (lo_disjoint _ (op_logs _ Hop)); [|exact Hoff]. by apply (list_elem_of_fmap_2 fst _ (off, t)). }
      apply Hni. rewrite <- (lg_segments _ _ _ Hl). apply (ld_segs _ (lg_loaded _ _ _ Hl)). eauto. }
  assert (acked ∖ sc_observed st = ∅) as Emiss.
  { rewrite (sd_observed _ _ _ _ _ Hs). apply set_eq. intros o. specialize (Hsub o).
    rewrite elem_of_difference, elem_of_union, elem_of_list_to_set. set_solver. }
  rewrite decide_True by done.
  eexists _, st, _. split; [done|]. split; [exact Hs|].
  assert (index_ok (fq_disk (sc_q st)) (mkSeg seq (if (sc_count st =? 0)%N then fq_next_offset q else sc_start st)
            (sc_end st) (sc_size st) (sc_count st) (sc_pending st) acked)) as Hidx.
  { intros v2. simpl. destruct (Hacked v2) as [b' Hb'].
    pose proof (sd_shell _ _ _ _ _ Hs) as Esh. unfold shell in Esh. injection Esh as _ _ _ _ _ _ _ ->.
    simpl. rewrite (lg_rest _ _ _ Hl seq Hni). eauto. }
  destruct (fq_v2 q && b); split_and!; try done; [|apply persist_index].
  unfold index_rewritten. simpl. split_and!; try done. intros seq' Hne. by rewrite lookup_insert_ne.
Qed.

(** The live records once a segment is scanned: those of the segments before
    it, and its own records that are not acknowledged. *)
Lemma live_scanned (m : gmap N _FileSegment) s seq seq' off task (rs rs' : list (N * json)) :
  m !! seq = None → (seq' = seq → rs' = rs) →
  (∃ s' t, m !! seq' = Some s' ∧ (off, t) ∈ rs' ∧ (off ∉ sg_acked s') ∧ task = task_of t) ∨
  (seq' = seq ∧ ∃ t, (off, t) ∈ rs ∧ (off ∉ sg_acked s) ∧ task = task_of t) ↔
  ∃ s' t, <[seq := s]> m !! seq' = Some s' ∧ (off, t) ∈ rs' ∧ (off ∉ sg_acked s') ∧ task = task_of t.
Proof.
  intros Hm Hrs. split.
  - intros [(s' & t & Hs' & H)|(-> & t & H)].
    + exists s', t. rewrite lookup_insert_ne; [done|congruence].
    + exists s, t. by rewrite lookup_insert_eq, Hrs.
  - intros (s' & t & [[<- <-]|[Hn Hs']]%lookup_insert_Some & H).
    + right. split; [done|]. exists t. by rewrite <- Hrs.
    + left. by exists s', t.
Qed.

(** A scanned segment joins the segments loaded before it. *)
Lemma add_segment_loaded q q1 s seq :
  loaded q → seq ∉ fq_segments q → fq_segments q1 = fq_segments q → fq_by_seq q1 = fq_by_seq q →
  dk_logs (fq_disk q1) = dk_logs (fq_disk q) → dk_offset (fq_disk q1) = dk_offset (fq_disk q) →
  (∀ seq', seq' ≠ seq → dk_indexes (fq_disk q1) !! seq' = dk_indexes (fq_disk q) !! seq') →
  sg_seq s = seq → seg_ok (fq_disk q1) s → index_ok (fq_disk q1) s →
  (∀ off task seq', live q1 !! off = Some (task, seq') ↔
     live q !! off = Some (task, seq') ∨
     seq' = seq ∧ ∃ t, (off, t) ∈ recs (log_of (fq_disk q) seq) ∧ (off ∉ sg_acked s) ∧ task = task_of t) →
  loaded (add_segment q1 seq s).
Proof.
  intros [Hsegs Hseq Hseg Hix [Ho Hd] Hlive Hnd] Hni Esegs Eby Elogs Eoff Erest Es Hok Hidx Hl1.
  assert (∀ seq', log_of (fq_disk q1) seq' = log_of (fq_disk q) seq') as Elog
    by (intros; by apply log_of_same).
  split; simpl; rewrite ?Esegs, ?Eby.
  - by apply segs_snoc.
  - intros seq' s' [[<- <-]|[_ Hs']]%lookup_insert_Some; [done|by apply Hseq].
  - intros seq' s' [[<- <-]|[_ Hs']]%lookup_insert_Some; [done|].
    destruct (Hseg _ _ Hs') as [H1 H2 H3 H4]. split; rewrite ?Elog, ?Elogs; done.
  - intros seq' s' [[<- <-]|[Hn Hs']]%lookup_insert_Some; [done|].
    intros v2. specialize (Hix _ _ Hs' v2). rewrite (Hseq _ _ Hs') in *. by rewrite Erest.
  - split; [intros seq' off; rewrite Elog, Eoff; apply Ho|intros s1 s2 off; rewrite !Elog; apply Hd].
  - intros off task seq'. change (live (add_segment q1 seq s)) with (live q1).
    rewrite Elog, Hl1, Hlive. apply live_scanned; [|by intros ->].
    apply eq_None_not_Some. intros H. by apply Hni, Hsegs.
  - by apply NoDup_snoc.
Qed.

Lemma build_spec d done q seq now :
  openable d → loading d done q → is_Some (dk_logs d !! seq) → seq ∉ done → fq_next_offset q = 0%N →
  ∃ s q1, _build_segment_from_files q seq now = Ok (s, q1) ∧
          loading d (done ++ [seq]) (add_segment q1 seq s) ∧ fq_next_offset q1 = 0%N ∧
          (sg_end_offset s < Z.of_N (counter_value (dk_offset d)))%Z.
Proof.
  intros Hop Hl Hlog Hni Hz. destruct (op_index _ Hop seq Hlog) as (acked & Hacked & Hsub).
  destruct (build_eq d done q seq now acked Hop Hl Hlog Hni Hacked Hsub)
    as (s & st & q1 & Hb & Hs & Hre & Hidx & Es & Ea & Ep & Ee).
  exists s, q1. split; [done|].
  destruct Hre as (Hsame & Emax & Ev2 & Esegs & Eby & Enext & Ecur & Elogs & Emeta & Eoff & Erest).
  pose proof (sd_shell _ _ _ _ _ Hs) as Esh. unfold shell in Esh.
  injection Esh as Emax' Ev2' Esegs' Eby' Els' Enext' Ecur' Edisk. simpl in *.
  rewrite Edisk in *. rewrite (lg_logs _ _ _ Hl) in Elogs. rewrite (lg_meta _ _ _ Hl) in Emeta.
  rewrite (lg_offset _ _ _ Hl) in Eoff. rewrite Esegs' in Esegs. rewrite Eby' in Eby.
  assert (∀ seq', log_of (fq_disk q1) seq' = log_of d seq') as Elog by (intros; by apply log_of_same).
  assert (∀ seq', log_of (fq_disk q) seq' = log_of d seq') as Elog0
    by (intros; apply log_of_same, (lg_logs _ _ _ Hl)).
  pose proof (lg_loaded _ _ _ Hl) as [Hsegs Hseq Hseg Hix _ Hlive Hnd].
  rewrite (lg_segments _ _ _ Hl) in *.
  split_and!; [|congruence|].
  2:{ rewrite Ee. destruct (sd_end _ _ _ _ _ Hs) as [->|(o & Ho & ->)]; simpl; [lia|].
      apply (lo_offset _ (op_logs _ Hop)) in Ho. lia. }
  split; simpl; try done.
  - assert (core q1) as Hc1.
    { eapply same_core_core; [exact Hsame| |apply (sd_core _ _ _ _ _ Hs)].
      unfold offset_counter. by rewrite Edisk, Eoff, (lg_offset _ _ _ Hl). }
    destruct Hc1. by split.
  - intros off e He. simpl in He. rewrite (sc_entries _ _ Hsame) in He.
    exact (sd_tokens _ _ _ _ _ Hs (lg_tokens _ _ _ Hl) off e He).
  - intros seq' Hn. apply not_elem_of_app in Hn as [Hn Hn']. rewrite Erest by set_solver.
    by apply (lg_rest _ _ _ Hl).
  - intros seq' [Hin| ->%list_elem_of_singleton]%elem_of_app; [by apply (lg_done _ _ _ Hl)|done].
  - by rewrite Esegs.
  - eapply (add_segment_loaded q); rewrite ?(lg_segments _ _ _ Hl), ?(lg_logs _ _ _ Hl), ?(lg_offset _ _ _ Hl); try done.
    + apply (lg_loaded _ _ _ Hl).
    + split; rewrite ?Es, ?Elog, ?Ea, ?Ep; [by rewrite Elogs|apply (op_nodup _ Hop)|done|].
      rewrite (sd_pending _ _ _ _ _ Hs). done.
    + intros off task seq'. unfold live at 1. rewrite (sc_entries _ _ Hsame), Elog0, Ea.
      apply (sd_live _ _ _ _ _ Hs).
  - rewrite Eby. intros seq' s' [[<- <-]|[Hn Hs']]%lookup_insert_Some; [by rewrite Ea|].
    by apply (lg_acked _ _ _ Hl).
  - rewrite Ecur, Ecur'. apply (lg_current _ _ _ Hl).
Qed.

Lemma load_segments_spec d now seqs done q max_seq max_offset :
  openable d → loading d done q → fq_next_offset q = 0%N →
  NoDup (done ++ seqs) → (∀ seq, seq ∈ seqs → is_Some (dk_logs d !! seq)) →
  (max_seq <= counter_value (dk_meta d))%N →
  (max_offset < Z.of_N (counter_value (dk_offset d)))%Z →
  ∃ ms mo q', load_segments now seqs q max_seq max_offset = Ok (ms, mo, q') ∧
    loading d (done ++ seqs) q' ∧ (ms <= counter_value (dk_meta d))%N ∧
    (mo < Z.of_N (counter_value (dk_offset d)))%Z.
Proof.
  intros Hop. revert done q max_seq max_offset. induction seqs as [|seq seqs IH];
    intros done q max_seq max_offset Hl Hz Hnd Hin Hms Hmo.
  { exists max_seq, max_offset, q. by rewrite app_nil_r. }
  destruct (build_spec d done q seq now Hop Hl) as (s & q1 & Hb & Hl1 & Hz1 & He).
  { apply Hin. left. }
  { apply NoDup_app in Hnd as (_ & Hnd & _). intros H. apply (Hnd _ H). left. }
  { done. }
  cbn [load_segments]. rewrite Hb. cbn [mbind res_bind].
  change (mkFQ _ _ _ _ _ _ _ _ _ _ _) with (add_segment q1 seq s).
  rewrite (assoc_L (++) done [seq] seqs : done ++ seq :: seqs = _) in *.
  destruct (IH (done ++ [seq]) (add_segment q1 seq s) (N.max max_seq seq)
              (if (max_offset <? sg_end_offset s)%Z then sg_end_offset s else max_offset)) as (ms & mo & q' & H); try done.
  - intros seq' H. apply Hin. by right.
  - pose proof (op_meta _ Hop seq (or_introl (Hin seq ltac:(left)))). lia.
  - by destruct (max_offset <? sg_end_offset s)%Z.
  - by exists ms, mo, q'.
Qed.

Lemma elem_of_listed d seq :
  openable d → seq ∈ listed_segments d ↔ is_Some (dk_logs d !! seq).
Proof.
  intros Hop. unfold listed_segments.
  rewrite merge_sort_Permutation, list_elem_of_filter, list_elem_of_fmap. split.
  - intros (_ & [k lg] & -> & Hin%elem_of_map_to_list). simpl. eauto.
  - intros [lg Hlg]. split.
    + pose proof (op_meta _ Hop seq (or_introl (mk_is_Some _ _ Hlg))). pose proof (op_six _ Hop). lia.
    + exists (seq, lg). split; [done|]. by apply elem_of_map_to_list.
Qed.

Lemma listed_NoDup d : NoDup (listed_segments d).
Proof.
  unfold listed_segments. rewrite merge_sort_Permutation. apply NoDup_filter, NoDup_fst_map_to_list.
Qed.

(** ** Opening *)

(** Opening the last segment only refreshes its size. *)
Lemma open_segment_eq q s :
  fq_by_seq q !! sg_seq s = Some s → is_Some (dk_logs (fq_disk q) !! sg_seq s) →
  fq_disk (_open_segment_file q s) = fq_disk q.
Proof.
  intros Hs [lg Hlg]. unfold _open_segment_file. simpl. rewrite Hlg. simpl.
  rewrite insert_id by done. by destruct (fq_disk q).
Qed.

Lemma open_segment_loaded q s :
  loaded q → fq_by_seq q !! sg_seq s = Some s → loaded (_open_segment_file q s).
Proof.
  intros Hl Hs. pose proof (open_segment_eq q s Hs (so_log _ _ (ld_seg _ Hl _ _ Hs))) as Ed.
  destruct Hl as [Hsegs Hseq Hseg Hidx Hlo Hlive Hnd].
  assert (∀ seq s', fq_by_seq (_open_segment_file q s) !! seq = Some s' →
            ∃ s0, fq_by_seq q !! seq = Some s0 ∧ sg_seq s' = sg_seq s0 ∧ sg_acked s' = sg_acked s0 ∧
                  sg_pending s' = sg_pending s0) as Hback.
  { intros seq s'. simpl. intros [[<- <-]|[_ Hs']]%lookup_insert_Some; [by exists s|by exists s']. }
  assert (∀ seq s0, fq_by_seq q !! seq = Some s0 →
            ∃ s', fq_by_seq (_open_segment_file q s) !! seq = Some s' ∧ sg_acked s' = sg_acked s0) as Hforth.
  { intros seq s0 Hs0. simpl. destruct (decide (seq = sg_seq s)) as [->|Hne].
    - rewrite lookup_insert_eq. eexists. split; [done|]. simpl. congruence.
    - rewrite lookup_insert_ne by done. eauto. }
  split; rewrite ?Ed; try done.
  - intros seq. rewrite Hsegs. split.
    + intros [s0 Hs0]. destruct (Hforth _ _ Hs0) as (s' & ? & _). eauto.
    + intros [s' Hs']. destruct (Hback _ _ Hs') as (s0 & ? & _). eauto.
  - intros seq s' Hs'. destruct (Hback _ _ Hs') as (s0 & Hs0 & -> & _). by apply Hseq.
  - intros seq s' Hs'. destruct (Hback _ _ Hs') as (s0 & Hs0 & E1 & E2 & E3).
    destruct (Hseg _ _ Hs0). split; rewrite ?E1, ?E2, ?E3; done.
  - intros seq s' Hs' v2. destruct (Hback _ _ Hs') as (s0 & Hs0 & E1 & E2 & E3).
    rewrite E1, E2. by apply (Hidx _ _ Hs0).
  - intros off task seq. change (live (_open_segment_file q s)) with (live q). rewrite Hlive. split.
    + intros (s0 & t & Hs0 & H1 & H2 & H3). destruct (Hforth _ _ Hs0) as (s' & Hs' & E).
      exists s', t. by rewrite E.
    + intros (s' & t & Hs' & H1 & H2 & H3). destruct (Hback _ _ Hs') as (s0 & Hs0 & _ & E & _).
      exists s0, t. by rewrite <- E.
Qed.

(** The tasks a directory holds: the records that are not acknowledged. *)
Definition disk_task (d : disk) (off : N) (task : mapping) (seq : N) : Prop :=
  is_Some (dk_logs d !! seq) ∧
  ∃ acked t, index_acked d seq acked ∧ (off, t) ∈ recs (log_of d seq) ∧ (off ∉ acked) ∧
             task = task_of t.

Lemma index_acked_unique d seq a a' : index_acked d seq a → index_acked d seq a' → a = a'.
Proof. intros H H'. destruct (H true) as [b E], (H' true) as [b' E']. congruence. Qed.

Lemma loading_tasks d q off task seq :
  loading d (fq_segments q) q → (∀ seq, is_Some (dk_logs d !! seq) → seq ∈ fq_segments q) →
  live q !! off = Some (task, seq) ↔ disk_task d off task seq.
Proof.
  intros Hl Hall. rewrite (ld_live _ (lg_loaded _ _ _ Hl)). rewrite (log_of_same d) by apply (lg_logs _ _ _ Hl).
  unfold disk_task. split.
  - intros (s & t & Hs & Hin & Ha & ->). split.
    + apply (lg_done _ _ _ Hl). apply (ld_segs _ (lg_loaded _ _ _ Hl)). eauto.
    + exists (sg_acked s), t. split_and!; try done. by apply (lg_acked _ _ _ Hl).
  - intros (Hlog & acked & t & Hacked & Hin & Ha & ->).
    apply Hall in Hlog. apply (ld_segs _ (lg_loaded _ _ _ Hl)) in Hlog as [s Hs].
    exists s, t. rewrite (index_acked_unique d seq (sg_acked s) acked); [done| |done].
    by apply (lg_acked _ _ _ Hl).
Qed.

Definition fresh_queue (max_bytes : Z) (v2 : bool) (d : disk) : FileWorkQueue :=
  mkFQ (Z.to_N (Z.max max_bytes 1024)) v2 [] ∅ ∅ [] ∅ 0 0 None d.

Lemma fresh_loading mb v2 d : openable d → loading d [] (fresh_queue mb v2 d).
Proof.
  intros Hop. split; simpl; try done.
  - split; [|done]. unfold mem_of. simpl. rewrite fmap_empty.
    split; [split| |]; simpl; unfold none_acked; try (intros *; rewrite lookup_empty; discriminate);
      [split; constructor| |constructor].
    intros av off Hin. by apply elem_of_nil in Hin.
  - intros seq Hin. by apply elem_of_nil in Hin.
  - split; simpl; try (intros *; rewrite lookup_empty; discriminate);
      [|apply (op_logs _ Hop)| |constructor].
    + intros seq. rewrite lookup_empty. split; [by intros ?%elem_of_nil|by intros []].
    + intros off task seq. unfold live. simpl. rewrite fmap_empty, lookup_empty. split; [done|].
      intros (s & t & Hs & _). by rewrite lookup_empty in Hs.
Qed.

Lemma counter_raise_le data v : (v <= counter_value data)%N → counter_raise data v = data.
Proof. intros H. unfold counter_raise. by rewrite (proj2 (N.ltb_ge _ _)). Qed.

Lemma initialize_meta_id q ms :
  (ms <= counter_value (dk_meta (fq_disk q)))%N → _initialize_meta q ms = q.
Proof.
  intros H. unfold _initialize_meta. rewrite counter_raise_le by done. destruct q as [? ? ? ? ? ? ? ? ? ? []]. done.
Qed.

Lemma initialize_offset_id q i :
  (i <= offset_counter q)%N → _initialize_offset q i = with_next_offset q (offset_counter q).
Proof.
  intros H. unfold _initialize_offset. fold (offset_counter q). rewrite counter_raise_le by done.
  rewrite N.max_r by done. destruct q as [? ? ? ? ? ? ? ? ? ? []]. done.
Qed.

(** A queue opened on [d]. *)
Record reopened (d : disk) (q : FileWorkQueue) : Prop := {
  re_core : core q;
  re_inv : disk_inv q;
  re_tokens : no_tokens q;
  re_tasks off task seq : live q !! off = Some (task, seq) ↔ disk_task d off task seq;
  re_counter : offset_counter q = counter_value (dk_offset d);
  re_clean : clean d → clean (fq_disk q)
}.

Lemma loading_next d done q n : loading d done q → loading d done (with_next_offset q n).
Proof. intros [[H1 H2] ? ? ? ? ? ? ? [] ? ?]. split; try done; by split. Qed.

Lemma loading_synced d q :
  openable d → loading d (fq_segments q) q →
  (∀ seq, is_Some (dk_logs d !! seq) → seq ∈ fq_segments q) → synced q.
Proof.
  intros Hop Hl Hall. split; [apply Hl| |]; rewrite (lg_logs _ _ _ Hl); [done|].
  intros seq H. rewrite (lg_meta _ _ _ Hl). destruct (decide (seq ∈ fq_segments q)) as [Hin|Hni].
  - apply (op_meta _ Hop). left. by apply (lg_done _ _ _ Hl).
  - rewrite (lg_rest _ _ _ Hl) in H by done. by apply (op_meta _ Hop).
Qed.

(** The last segment of a non-empty directory is opened. *)
Lemma reopened_last d q cur s n :
  openable d → loading d (fq_segments q) q →
  (∀ seq, is_Some (dk_logs d !! seq) → seq ∈ fq_segments q) →
  cur ∈ fq_segments q → fq_by_seq q !! cur = Some s →
  reopened d (with_next_offset (_open_segment_file q s) n).
Proof.
  intros Hop Hl Hall Hin Hs. pose proof (ld_seq _ (lg_loaded _ _ _ Hl) _ _ Hs) as Es.
  rewrite <- Es in Hs. pose proof (open_segment_loaded q s (lg_loaded _ _ _ Hl) Hs) as Hl'.
  pose proof (open_segment_eq q s Hs (so_log _ _ (ld_seg _ (lg_loaded _ _ _ Hl) _ _ Hs))) as Ed.
  destruct (loading_synced d q Hop Hl Hall) as [_ Hlogs Hmeta].
  assert (fq_disk (with_next_offset (_open_segment_file q s) n) = fq_disk q) as Ed' by exact Ed.
  split.
  - eapply (same_core_core q); [done|unfold offset_counter; by rewrite Ed'|apply (lg_core _ _ _ Hl)].
  - split; [|exists cur; split; [simpl; congruence|done]].
    split; [by destruct Hl'; split|..]; rewrite Ed'; done.
  - exact (lg_tokens _ _ _ Hl).
  - intros off task seq. by apply (loading_tasks d q).
  - unfold offset_counter. by rewrite Ed', (lg_offset _ _ _ Hl).
  - intros Hcl seq. rewrite Ed', (log_of_same d) by apply (lg_logs _ _ _ Hl). apply Hcl.
Qed.

(** An empty directory gets a first segment. *)
Lemma reopened_first d q n :
  openable d → loading d (fq_segments q) q → fq_segments q = [] →
  (∀ seq, is_Some (dk_logs d !! seq) → seq ∈ fq_segments q) →
  reopened d (_rotate_segment_unlocked (with_next_offset q n)).2.
Proof.
  intros Hop Hl Enil Hall. apply (loading_next _ _ _ n) in Hl.
  assert (∀ seq, log_of d seq = empty_log) as Hempty.
  { intros seq. apply log_of_missing, eq_None_not_Some. intros H. apply Hall in H. rewrite Enil in H.
    by apply elem_of_nil in H. }
  assert (clean (fq_disk (with_next_offset q n))) as Hcl.
  { intros seq. by rewrite (log_of_same d), Hempty by apply (lg_logs _ _ _ Hl). }
  destruct (rotate_inv (with_next_offset q n)) as (H1 & H2 & _); [by eapply loading_synced|done|].
  destruct (rotate_same (with_next_offset q n)) as [Hs Ec].
  split; try done.
  - eapply same_core_core; [exact Hs|by rewrite Ec|apply (lg_core _ _ _ Hl)].
  - intros off e. rewrite (sc_entries _ _ Hs). apply (lg_tokens _ _ _ Hl).
  - intros off task seq. transitivity (live (with_next_offset q n) !! off = Some (task, seq)).
    + unfold live. by rewrite (sc_entries _ _ Hs).
    + by apply (loading_tasks d (with_next_offset q n)).
  - rewrite Ec. unfold offset_counter. by rewrite (lg_offset _ _ _ Hl).
Qed.

Lemma open_spec mb v2 d now : openable d → ∃ q, fq_open mb v2 d now = Ok q ∧ reopened d q.
Proof.
  intros Hop. destruct (load_segments_spec d now (listed_segments d) [] (fresh_queue mb v2 d) 0 (-1) Hop)
    as (ms & mo & q1 & Hload & Hl & Hms & Hmo); try done; try lia.
  { by apply fresh_loading. }
  { apply listed_NoDup. }
  { intros seq. by apply elem_of_listed. }
  simpl in Hl. pose proof (lg_segments _ _ _ Hl) as Esegs.
  unfold fq_open, _load_existing_segments. fold (fresh_queue mb v2 d).
  change (fq_disk (fresh_queue mb v2 d)) with d. rewrite Hload. cbn [mbind res_bind].
  set (q2 := if (0 <=? mo)%Z then _ else q1).
  assert (loading d (fq_segments q2) q2 ∧ fq_segments q2 = listed_segments d) as [Hl2 Esegs2].
  { unfold q2. destruct (0 <=? mo)%Z; simpl; rewrite Esegs; split; try done. by apply loading_next. }
  assert (∀ seq, is_Some (dk_logs d !! seq) → seq ∈ fq_segments q2) as Hall.
  { intros seq. rewrite Esegs2. by apply elem_of_listed. }
  clearbody q2. clear Hl Hload Esegs q1. set (i := if (0 <=? mo)%Z then _ else _).
  assert (i <= counter_value (dk_offset d))%N as Hi by (unfold i; destruct (Z.leb_spec 0 mo); lia).
  clearbody i. destruct (last (fq_segments q2)) as [cur|] eqn:Ecur.
  - apply last_Some in Ecur as [l El]. assert (cur ∈ fq_segments q2) as Hin by (rewrite El; set_solver).
    pose proof Hin as [s Hs]%(ld_segs _ (lg_loaded _ _ _ Hl2)).
    unfold segment_of. rewrite Hs. cbn [default from_option id].
    pose proof (reopened_last d q2 cur s (offset_counter (_open_segment_file q2 s)) Hop Hl2 Hall Hin Hs) as Hre.
    assert (offset_counter (_open_segment_file q2 s) = counter_value (dk_offset d)) as Eo
      by apply (re_counter _ _ Hre).
    rewrite initialize_meta_id by (simpl; by rewrite (lg_meta _ _ _ Hl2)).
    rewrite initialize_offset_id by (by rewrite Eo). by eexists.
  - apply last_None in Ecur.
    rewrite initialize_meta_id by (by rewrite (lg_meta _ _ _ Hl2)).
    rewrite initialize_offset_id by (unfold offset_counter; by rewrite (lg_offset _ _ _ Hl2)).
    cbn [fq_current with_next_offset]. rewrite (lg_current _ _ _ Hl2).
    eexists. split; [done|]. by apply reopened_first.
Qed.
End reopen.
