(* ===== verification/FileRefine.v ===== *)
(** * The file queue: refinement and recovery theorems

    Without [reschedule] the file queue is observationally the in-memory
    queue; it satisfies the laws of the interface; and opening its directory
    after a crash recovers its tasks. *)

From S2P Require Import Prelude PyVal PyConv Task MemQueue FileQueue.
From S2P Require Import FileQueueSpec FileRecovery FileReopen.
From stdpp Require Import base gmap strings list pretty sorting fin_maps.
From Stdlib Require Import ZArith Lia Sorting ZifyBool ZifyN DecimalN.

(** ** Calls and their results *)

Inductive qop : Type :=
| OPut (task : mapping) (now : Now)
| OLease (count ms : Z) (now : Now)
| OAck (off : N) (token : string)
| ONack (off : N) (token : string) (requeue : bool) (now : Now)
| OCount
| OOldest.

Inductive qout : Type :=
| ROffset (off : N)
| RLeased (ls : list LeasedTask)
| RNone
| RCount (n : N)
| ROldest (t : option pyfloat).

Definition run_op {Q} `{WorkQueue Q} (q : Q) (op : qop) : qout * Q :=
  match op with
  | OPut task now => let '(off, q') := wq_put q task now in (ROffset off, q')
  | OLease count ms now => let '(ls, q') := wq_lease q count ms now in (RLeased ls, q')
  | OAck off token => (RNone, wq_ack q off token)
  | ONack off token requeue now => (RNone, wq_nack q off token requeue now)
  | OCount => (RCount (wq_pending_count q), q)
  | OOldest => (ROldest (wq_oldest_available_at q), q)
  end.

Fixpoint run_ops {Q} `{WorkQueue Q} (q : Q) (ops : list qop) : list qout * Q :=
  match ops with
  | [] => ([], q)
  | op :: ops =>
      let '(out, q1) := run_op q op in
      let '(outs, q2) := run_ops q1 ops in (out :: outs, q2)
  end.

(** ** The earliest availability *)

Definition fle (x y : pyfloat) : Prop := flt y x = false.

Lemma fmin_list_spec x l :
  Forall is_num (x :: l) →
  fmin_list x l ∈ x :: l ∧ Forall (fle (fmin_list x l)) (x :: l).
Proof.
  unfold fmin_list. revert x. induction l as [|y l IH]; intros x Hn.
  { simpl. split; [left|]. constructor; [|constructor]. unfold fle, flt. destruct x; try done; lia. }
  apply Forall_cons in Hn as [Hx Hn]. apply Forall_cons in Hn as [Hy Hn]. simpl.
  set (z := if flt y x then y else x).
  assert (fle z x ∧ fle z y ∧ (z = x ∨ z = y)) as (Hzx & Hzy & Hz).
  { unfold z, fle, is_num in *. clear IH Hn. destruct x as [a| | |], y as [b| | |]; simpl; try done;
      try (destruct (b <? a)%Z eqn:E); simpl; split_and!; auto; lia. }
  assert (is_num z) as Hnz by (destruct Hz as [->| ->]; done).
  destruct (IH z) as [Hin Hall]; [by constructor|]. apply Forall_cons in Hall as [Hmz Hall].
  set (m := foldl _ z l) in *.
  assert (is_num m) as Hm.
  { apply elem_of_cons in Hin as [->|Hin]; [done|]. by eapply (proj1 (Forall_forall _ _) Hn). }
  assert (∀ w, is_num w → fle z w → fle m w) as Htr.
  { intros w Hw Hzw. unfold fle, is_num in *. destruct m, z, w; simpl in *; try done; lia. }
  split.
  - apply elem_of_cons in Hin as [->|Hin]; [destruct Hz as [->| ->]; set_solver|set_solver].
  - constructor; [by apply Htr|]. constructor; [by apply Htr|done].
Qed.

Lemma fmin_list_perm x l y k :
  Forall is_num (x :: l) → x :: l ≡ₚ y :: k → fmin_list x l = fmin_list y k.
Proof.
  intros Hn Hp. assert (Forall is_num (y :: k)) as Hn' by (by rewrite <- Hp).
  destruct (fmin_list_spec x l Hn) as [Hin Hall]. destruct (fmin_list_spec y k Hn') as [Hin' Hall'].
  rewrite Forall_forall in Hall, Hall', Hn. rewrite <- Hp in Hin'.
  pose proof (Hall _ Hin') as H1. rewrite Hp in Hin. pose proof (Hall' _ Hin) as H2. rewrite <- Hp in Hin.
  pose proof (Hn _ Hin) as N1. pose proof (Hn _ Hin') as N2. revert H1 H2 N1 N2.
  generalize (fmin_list x l) (fmin_list y k). intros a b.
  unfold fle, is_num. destruct a, b; simpl; try done. intros. f_equal. lia.
Qed.

Section theorems.
Context {PT : PyText} {RL : RecordLen}.

Lemma oldest_mem q : core q → fq_oldest_available_at q = mq_oldest_available_at (mem_of q).
Proof.
  intros Hc. unfold fq_oldest_available_at, mq_oldest_available_at, waiting_times.
  set (f := fun oe : N * Entry => match e_token oe.2 with None => _ | Some _ => _ end).
  set (g := fun oe : N * _FileEntry => match fe_token oe.2 with None => _ | Some _ => _ end).
  assert (omap g (map_to_list (fq_entries q)) ≡ₚ omap f (map_to_list (mq_entries (mem_of q)))) as Hp.
  { simpl. rewrite map_to_list_fmap. generalize (map_to_list (fq_entries q)). intros l.
    induction l as [|[off e] l IH]; [done|]. rewrite fmap_cons. cbn [omap list_omap].
    unfold g at 1, f at 1. simpl. destruct (fe_token e); [exact IH|]. by constructor. }
  assert (Forall is_num (omap g (map_to_list (fq_entries q)))) as Hn.
  { apply Forall_forall. intros t ([off e] & Hin & Ht)%list_elem_of_omap.
    apply elem_of_map_to_list in Hin. unfold g in Ht. simpl in Ht.
    destruct (fe_token e); [done|]. injection Ht as <-. by eapply core_num. }
  destruct (omap g _) as [|x l]; [by apply Permutation_nil_l in Hp as <-|].
  destruct (omap f _) as [|y k]; [by apply Permutation_nil_r in Hp|].
  f_equal. by apply fmin_list_perm.
Qed.

(** ** The disk invariant is kept by all operations *)

Lemma release_frame now q : frame q (file_release_expired q now).
Proof.
  unfold file_release_expired.
  assert (∀ l q', frame q q' →
    (∀ off e, (off, e) ∈ l → live q !! off = Some (fe_task e, fe_segment_seq e)) →
    frame q (foldl (file_release_one now) q' l)) as H.
  { induction l as [|[off e] l IH]; intros q' Hf Hl; [done|]. simpl. apply IH.
    - unfold file_release_one. destruct (fe_token e); [|done]. destruct (_ && _); [|done].
      etransitivity; [exact Hf|]. specialize (Hl off e ltac:(left)).
      rewrite <- (fr_live _ _ Hf) in Hl. unfold live in Hl. rewrite lookup_fmap in Hl.
      apply fmap_Some in Hl as (e' & He' & [= E1 E2]).
      apply (store_frame q' off e' (mkFE (fe_task e) (fe_segment_seq e) (fe_available_at e) 0 None (fe_acked e)));
        simpl; congruence.
    - intros o e' Hin. apply Hl. by right. }
  apply H; [done|]. intros off e Hin%elem_of_map_to_list. unfold live. by rewrite lookup_fmap, Hin.
Qed.

Lemma lease_loop_frame fuel room now deadline q :
  frame q (file_lease_loop fuel room now deadline q).2.
Proof.
  revert room q. induction fuel as [|fuel IH]; intros [|room] q; try done. cbn [file_lease_loop].
  unfold _pop_ready. destruct (pop_loop _ _ _ _) as [[[off av]|] [h s]]; [|done].
  cbn [fq_entries with_ready]. destruct (fq_entries q !! off) as [e|] eqn:He.
  - match goal with |- frame q (let '(_, _) := file_lease_loop _ _ _ _ ?q2 in _).2 =>
      assert (frame q q2) as Hf; [|pose proof (IH room q2) as H; destruct (file_lease_loop fuel room now deadline q2)]
    end.
    + split; try done. by eapply live_insert.
    + simpl in *. by etransitivity.
  - etransitivity; [|apply IH]. done.
Qed.

Lemma lease_frame q count ms now : frame q (fq_lease q count ms now).2.
Proof.
  unfold fq_lease. destruct (count <=? 0)%Z; [done|].
  etransitivity; [apply (release_frame (mono now))|apply lease_loop_frame].
Qed.

Lemma remove_disk_inv q off e s :
  disk_inv q → clean (fq_disk q) → fq_entries q !! off = Some e →
  fq_by_seq q !! fe_segment_seq e = Some s →
  disk_inv (file_remove q off s) ∧ clean (fq_disk (file_remove q off s)).
Proof.
  intros Hi Hcl He Hs. split; [by eapply compact_inv, acked_inv|].
  by apply compact_clean, persist_clean.
Qed.

Lemma ack_disk_inv q off token :
  disk_inv q → clean (fq_disk q) →
  disk_inv (fq_ack q off token) ∧ clean (fq_disk (fq_ack q off token)).
Proof.
  intros Hi Hcl. unfold fq_ack. destruct (fq_entries q !! off) as [e|] eqn:He; [|done].
  case_bool_decide; [|done]. destruct (fq_by_seq q !! fe_segment_seq e) as [s|] eqn:Hs; [|done].
  by eapply remove_disk_inv.
Qed.

Lemma frame_keeps q q' :
  frame q q' → disk_inv q → clean (fq_disk q) → disk_inv q' ∧ clean (fq_disk q').
Proof. intros Hf Hi Hcl. split; [by eapply frame_disk_inv|by rewrite (fr_disk _ _ Hf)]. Qed.

Lemma nack_disk_inv q off token requeue now :
  disk_inv q → clean (fq_disk q) →
  disk_inv (fq_nack q off token requeue now) ∧ clean (fq_disk (fq_nack q off token requeue now)).
Proof.
  intros Hi Hcl. unfold fq_nack. destruct (fq_entries q !! off) as [e|] eqn:He; [|done].
  case_bool_decide as Htok; [|done]. destruct requeue.
  - apply (frame_keeps q); [|done|done]. by eapply (store_frame q off e (mkFE _ _ _ _ _ _)).
  - cbn [fq_by_seq with_entries]. destruct (fq_by_seq q !! fe_segment_seq e) as [s|] eqn:Hs.
    + pose proof (remove_disk_inv q off e s Hi Hcl He Hs) as H. unfold file_remove in H.
      simpl fq_entries in H |- *. rewrite delete_insert_eq. exact H.
    + exfalso. destruct (loaded_has_segment q (sy_loaded _ (proj1 Hi)) off e He). congruence.
Qed.

Lemma reschedule_disk_inv q off av :
  disk_inv q → clean (fq_disk q) →
  disk_inv (fq_reschedule q off av) ∧ clean (fq_disk (fq_reschedule q off av)).
Proof.
  apply frame_keeps. unfold fq_reschedule. destruct (fq_entries q !! off) as [e|] eqn:He; [|done].
  destruct (fe_token e) eqn:Et; [split; try done; by eapply live_insert|].
  by eapply (store_frame q off e (mkFE _ _ _ _ _ _)).
Qed.

(** ** Equivalence with the in-memory queue *)

(** The two queues in step. *)
Definition in_step (q : FileWorkQueue) (m : InMemoryWorkQueue) : Prop :=
  mem_of q = m ∧ core q ∧ disk_inv q ∧ clean (fq_disk q).

Lemma in_step_op q m op :
  in_step q m →
  (run_op q op).1 = (run_op m op).1 ∧ in_step (run_op q op).2 (run_op m op).2.
Proof.
  intros (<- & Hc & Hi & Hcl). pose proof (loaded_has_segment q (sy_loaded _ (proj1 Hi))) as Hseg.
  unfold in_step. destruct op as [task now|count ms now|off token|off token requeue now| |];
    cbn [run_op wq_put wq_lease wq_ack wq_nack wq_pending_count wq_oldest_available_at
         FileWorkQueue_queue InMemoryWorkQueue_queue].
  - pose proof (file_put_spec q task now Hc) as H. destruct (put_disk_inv q task now Hi Hcl) as [Hi' Hcl'].
    destruct (mq_put (mem_of q) task now), (fq_put q task now). destruct H as (-> & Hm & Hc').
    split; [done|]. by repeat (split; [done|]).
  - pose proof (file_lease_spec q count ms now Hc) as H.
    destruct (frame_keeps _ _ (lease_frame q count ms now) Hi Hcl) as [Hi' Hcl'].
    destruct (mq_lease (mem_of q) count ms now), (fq_lease q count ms now).
    destruct H as (-> & Hm & Hc' & _). split; [done|]. by repeat (split; [done|]).
  - destruct (file_ack_spec q off token Hc Hseg). destruct (ack_disk_inv q off token Hi Hcl).
    split; [done|]. by repeat (split; [done|]).
  - destruct (file_nack_spec q off token requeue now Hc Hseg).
    destruct (nack_disk_inv q off token requeue now Hi Hcl). split; [done|]. by repeat (split; [done|]).
  - unfold fq_pending_count, mq_pending_count. simpl. rewrite map_size_fmap.
    split; [done|]. by repeat (split; [done|]).
  - rewrite oldest_mem by done. split; [done|]. by repeat (split; [done|]).
Qed.

Lemma in_step_run q m ops : in_step q m → (run_ops q ops).1 = (run_ops m ops).1.
Proof.
  revert q m. induction ops as [|op ops IH]; intros q m Hs; [done|]. simpl.
  destruct (in_step_op q m op Hs) as [Eo Hs'].
  destruct (run_op q op) as [o q1], (run_op m op) as [o' m1]. simpl in *.
  specialize (IH q1 m1 Hs'). destruct (run_ops q1 ops), (run_ops m1 ops). simpl in *. congruence.
Qed.

Lemma empty_openable : openable empty_disk.
Proof.
  assert (∀ seq, recs (log_of empty_disk seq) = []) as E.
  { intros seq. rewrite log_of_missing; [done|]. apply lookup_empty. }
  split; simpl.
  - split; intros *; rewrite E; simpl; by intros ?%elem_of_nil.
  - intros seq. rewrite E. constructor.
  - intros seq [? H]. by rewrite lookup_empty in H.
  - intros seq [[? H]|[? H]]; by rewrite lookup_empty in H.
  - done.
Qed.

Lemma empty_clean : clean empty_disk.
Proof. intros seq. rewrite log_of_missing; [done|]. apply lookup_empty. Qed.

Lemma open_empty_eq mb v2 now :
  fq_open mb v2 empty_disk now =
  Ok (_rotate_segment_unlocked (with_next_offset (fresh_queue mb v2 empty_disk) 0)).2.
Proof. done. Qed.

Lemma open_empty mb v2 now :
  ∃ q, fq_open mb v2 empty_disk now = Ok q ∧ in_step q mq_new.
Proof.
  destruct (open_spec mb v2 empty_disk now empty_openable) as (q & Hq & Hre).
  rewrite open_empty_eq in *. injection Hq as <-. eexists. split; [done|].
  destruct Hre as [Hc Hi _ _ _ Hcl]. split; [|by repeat (split; [done|]); apply Hcl, empty_clean].
  unfold mem_of. simpl. by rewrite fmap_empty.
Qed.

(** A file queue opened on an empty directory answers every sequence of
    calls of [put], [lease], [ack], [nack], [pending_count] and
    [oldest_available_at] exactly as the in-memory queue does: the same
    offsets, the same leases with the same tokens and deadlines, the same
    counts, whatever the size of the segments. *)
Lemma file_queue_answers mb v2 now :
  ∃ q, fq_open mb v2 empty_disk now = Ok q ∧
       ∀ ops, (run_ops q ops).1 = (run_ops mq_new ops).1.
Proof.
  destruct (open_empty mb v2 now) as (q & Hq & Hs). exists q. split; [done|].
  intros ops. by apply in_step_run.
Qed.

(** ** Recovery *)

(** The queues reached by any operations, [reschedule] included, and by
    opening the directory again. *)
Inductive reachable : FileWorkQueue → Prop :=
| reach_open mb v2 now q : fq_open mb v2 empty_disk now = Ok q → reachable q
| reach_put q task now : reachable q → reachable (fq_put q task now).2
| reach_lease q count ms now : reachable q → reachable (fq_lease q count ms now).2
| reach_ack q off token : reachable q → reachable (fq_ack q off token)
| reach_nack q off token requeue now : reachable q → reachable (fq_nack q off token requeue now)
| reach_reschedule q off av : reachable q → reachable (fq_reschedule q off av)
| reach_reopen q mb v2 now q' :
    reachable q → (counter_value (dk_meta (fq_disk q)) < 1000000)%N →
    fq_open mb v2 (fq_disk q) now = Ok q' → reachable q'.

(** The directory if the process dies between two operations, in [put] before
    the record is written, or in the middle of the write: then only [n] bytes
    of the line are there. *)
Inductive crash_point (q : FileWorkQueue) : disk → Prop :=
| crash_between : crash_point q (fq_disk q)
| crash_unwritten task now off size seq q3 :
    put_segment q task now = (off, size, seq, q3) → crash_point q (fq_disk q3)
| crash_torn task now off size seq q3 n :
    put_segment q task now = (off, size, seq, q3) → (0 < n < size)%N →
    crash_point q
      (mkDisk (<[seq := mkLog (lg_lines (log_of (fq_disk q3) seq)) (Some (mkLine n Garbage))]>
                 (dk_logs (fq_disk q3)))
         (dk_indexes (fq_disk q3)) (dk_meta (fq_disk q3)) (dk_offset (fq_disk q3))).

Lemma synced_openable q :
  synced q → (counter_value (dk_meta (fq_disk q)) < 1000000)%N → openable (fq_disk q).
Proof.
  intros [Hl Hlogs Hmeta] Hsix. split; try done; [apply Hl| |].
  - intros seq. destruct (dk_logs (fq_disk q) !! seq) as [lg|] eqn:E.
    + destruct (proj1 (ld_segs _ Hl seq)) as [s Hs]; [eauto|].
      rewrite <- (ld_seq _ Hl _ _ Hs). apply (so_nodup _ _ (ld_seg _ Hl _ _ Hs)).
    + rewrite log_of_missing by done. constructor.
  - intros seq Hlog. destruct (proj1 (ld_segs _ Hl seq)) as [s Hs]; [eauto|].
    pose proof (ld_seq _ Hl _ _ Hs) as <-. exists (sg_acked s). split.
    + apply (ld_index _ Hl _ _ Hs).
    + apply (so_acked _ _ (ld_seg _ Hl _ _ Hs)).
Qed.

Lemma synced_tasks q off task seq :
  synced q → live q !! off = Some (task, seq) ↔ disk_task (fq_disk q) off task seq.
Proof.
  intros [Hl Hlogs _]. rewrite (ld_live _ Hl). unfold disk_task. split.
  - intros (s & t & Hs & H1 & H2 & H3). pose proof (ld_seq _ Hl _ _ Hs) as Es. split.
    + rewrite <- Es. apply (so_log _ _ (ld_seg _ Hl _ _ Hs)).
    + exists (sg_acked s), t. split_and!; try done. rewrite <- Es. apply (ld_index _ Hl _ _ Hs).
  - intros (Hlog & acked & t & Hacked & H). destruct (proj1 (ld_segs _ Hl seq)) as [s Hs]; [eauto|].
    exists s, t. split; [done|]. rewrite (index_acked_unique (fq_disk q) seq (sg_acked s) acked); [done| |done].
    pose proof (ld_seq _ Hl _ _ Hs) as <-. apply (ld_index _ Hl _ _ Hs).
Qed.

Lemma file_reachable_inv q : reachable q → disk_inv q ∧ clean (fq_disk q).
Proof.
  induction 1 as [mb v2 now q Hq|q task now _ [Hi Hcl]|q count ms now _ [Hi Hcl]|q off token _ [Hi Hcl]
    |q off token requeue now _ [Hi Hcl]|q off av _ [Hi Hcl]|q mb v2 now q' _ [Hi Hcl] Hsix Hq].
  - destruct (open_empty mb v2 now) as (q' & Hq' & _ & _ & H). congruence.
  - by apply put_disk_inv.
  - apply (frame_keeps q); [apply lease_frame|done|done].
  - by apply ack_disk_inv.
  - by apply nack_disk_inv.
  - by apply reschedule_disk_inv.
  - destruct (open_spec mb v2 (fq_disk q) now) as (q0 & Hq0 & Hre).
    { apply synced_openable; [apply Hi|done]. }
    rewrite Hq in Hq0. injection Hq0 as <-. split; [apply Hre|by apply (re_clean _ _ Hre)].
Qed.

(** A crash leaves an openable directory with the tasks of the queue. *)
Lemma torn_recs lg n : lg_tail lg = None → recs (mkLog (lg_lines lg) (Some (mkLine n Garbage))) = recs lg.
Proof. intros Ht. unfold recs, log_iter. rewrite Ht, app_nil_r, omap_app. simpl. by rewrite app_nil_r. Qed.

(** Two directories that hold the same records and indexes. *)
Lemma openable_same d d' :
  openable d → (∀ seq, recs (log_of d' seq) = recs (log_of d seq)) →
  (∀ seq, is_Some (dk_logs d' !! seq) ↔ is_Some (dk_logs d !! seq)) →
  dk_indexes d' = dk_indexes d → dk_meta d' = dk_meta d → dk_offset d' = dk_offset d →
  openable d' ∧ (∀ off task seq, disk_task d' off task seq ↔ disk_task d off task seq).
Proof.
  intros [[H1 H1'] H2 H3 H4 H5] Er Hdom Ei Em Eo. split; [split; [split|..]|].
  - intros seq off. rewrite Er, Eo. apply H1.
  - intros s1 s2 off. rewrite !Er. apply H1'.
  - intros seq. by rewrite Er.
  - intros seq H. apply Hdom in H. destruct (H3 seq H) as (acked & Ha & Hs). exists acked.
    split; [intros v2; rewrite Ei; apply Ha|by rewrite Er].
  - intros seq. rewrite Hdom, Ei, Em. apply H4.
  - by rewrite Em.
  - intros off task seq. unfold disk_task, index_acked. by rewrite Hdom, Er, Ei.
Qed.

Lemma crash_tasks q d :
  disk_inv q → clean (fq_disk q) → crash_point q d →
  (counter_value (dk_meta d) < 1000000)%N →
  openable d ∧ (∀ off task seq, live q !! off = Some (task, seq) ↔ disk_task d off task seq) ∧
  (offset_counter q <= counter_value (dk_offset d))%N.
Proof.
  intros Hi Hcl Hcp.
  assert (∀ task now off size seq q3, put_segment q task now = (off, size, seq, q3) →
    disk_inv q3 ∧ clean (fq_disk q3) ∧ fq_current q3 = Some seq ∧ live q3 = live q ∧
    offset_counter q3 = (offset_counter q + 1)%N) as Hput.
  { intros task now off size seq q3 E. pose proof (put_segment_inv q task now Hi Hcl) as H.
    pose proof (put_segment_same q task now) as H'. rewrite E in H, H'.
    destruct H as (H1 & H2 & H3 & _). destruct H' as (_ & Hs & Ho). split_and!; try done; try apply H1.
    unfold live. by rewrite (sc_entries _ _ Hs). }
  destruct Hcp as [|task now off size seq q3 E|task now off size seq q3 n E Hn]; simpl; intros Hsix.
  - split_and!; [apply synced_openable; [apply Hi|done]| |done].
    intros off task seq. apply synced_tasks, Hi.
  - destruct (Hput _ _ _ _ _ _ E) as (Hi3 & Hcl3 & Hc3 & El & Eo).
    split_and!; [apply synced_openable; [apply Hi3|done]| |unfold offset_counter in *; lia].
    intros o t s. rewrite <- El. apply synced_tasks, Hi3.
  - destruct (Hput _ _ _ _ _ _ E) as (Hi3 & Hcl3 & Hc3 & El & Eo).
    destruct Hi3 as [Hsy (cur & Ec & Hin)]. rewrite Hc3 in Ec. injection Ec as <-.
    assert (is_Some (dk_logs (fq_disk q3) !! seq)) as Hlog.
    { pose proof (sy_loaded _ Hsy) as Hl. apply (ld_segs _ Hl) in Hin as [s Hs].
      rewrite <- (ld_seq _ Hl _ _ Hs). apply (so_log _ _ (ld_seg _ Hl _ _ Hs)). }
    set (d := mkDisk _ _ _ _).
    destruct (openable_same (fq_disk q3) d) as [Hop Ht]; try done.
    { by apply synced_openable. }
    { intros s. unfold d. rewrite log_of_insert. case_decide as Es; [subst; by apply torn_recs|done]. }
    { intros s. simpl. destruct (decide (s = seq)) as [->|Hne]; [rewrite lookup_insert_eq|by rewrite lookup_insert_ne].
      split; eauto. }
    split_and!; [done| |simpl; unfold offset_counter in *; lia].
    intros o t s. rewrite Ht, <- El. by apply synced_tasks.
Qed.

Lemma put_offset q task now : (fq_put q task now).1 = offset_counter q.
Proof.
  unfold fq_put. pose proof (put_segment_same q task now) as H.
  destruct (put_segment q task now) as [[[off size] seq] q3]. apply H.
Qed.

Lemma task_live q off task :
  (fe_task <$> fq_entries q) !! off = Some task ↔ ∃ seq, live q !! off = Some (task, seq).
Proof.
  unfold live. setoid_rewrite lookup_fmap. destruct (fq_entries q !! off) as [e|]; simpl; [|naive_solver].
  split; [intros [= <-]; eauto|intros [seq [= -> _]]; done].
Qed.

(** Crash recovery.  From any state reached by any operations and earlier
    restarts, if the process dies between two operations or anywhere inside a
    [put] before its record is complete, opening the directory (with whatever
    settings) succeeds while segment numbers have six digits, and recovers
    exactly the tasks that were not acknowledged, under their offsets and
    without leases; offsets given out later are new. *)
Lemma file_queue_reopens q d mb v2 now :
  reachable q → crash_point q d → (counter_value (dk_meta d) < 1000000)%N →
  ∃ q', fq_open mb v2 d now = Ok q' ∧
        fe_task <$> fq_entries q' = fe_task <$> fq_entries q ∧
        (∀ off e, fq_entries q' !! off = Some e → fe_token e = None) ∧
        (∀ task now' off, is_Some (fq_entries q !! off) → (off < (fq_put q' task now').1)%N).
Proof.
  intros Hr Hcp Hsix. destruct (file_reachable_inv q Hr) as [Hi Hcl].
  destruct (crash_tasks q d Hi Hcl Hcp Hsix) as (Hop & Ht & Ho).
  destruct (open_spec mb v2 d now Hop) as (q' & Hq' & Hre). exists q'. split_and!; [done| |apply Hre|].
  - apply map_eq. intros off. apply option_eq. intros task. rewrite !task_live.
    by setoid_rewrite (re_tasks _ _ Hre); setoid_rewrite Ht.
  - intros task now' off [e He]. rewrite put_offset, (re_counter _ _ Hre).
    assert (live q !! off = Some (fe_task e, fe_segment_seq e)) as Hv by (unfold live; by rewrite lookup_fmap, He).
    apply (ld_live _ (sy_loaded _ (proj1 Hi))) in Hv as (s & t & Hs & Hin & _).
    pose proof (lo_offset _ (ld_logs _ (sy_loaded _ (proj1 Hi))) (fe_segment_seq e) off) as H.
    unfold offset_counter in Ho. specialize (H ltac:(by apply (list_elem_of_fmap_2 fst _ (off, t)))). lia.
Qed.


(** ** The laws of the interface *)

Definition file_ok (q : FileWorkQueue) : Prop := in_step q (mem_of q).

Definition file_view (q : FileWorkQueue) : gmap N slot := mq_view (mem_of q).

Lemma file_count_law q : file_ok q → fq_pending_count q = N.of_nat (size (file_view q)).
Proof.
  intros _. unfold fq_pending_count, file_view, mq_view. simpl. by rewrite !map_size_fmap.
Qed.

Lemma file_op_ok q op : file_ok q → file_ok (run_op q op).2 ∧
  (run_op q op).1 = (run_op (mem_of q) op).1 ∧ mem_of (run_op q op).2 = (run_op (mem_of q) op).2.
Proof.
  intros H. destruct (in_step_op q _ op H) as [E H']. pose proof H' as (Em & _).
  split; [|done]. by unfold file_ok; rewrite Em.
Qed.

Lemma file_put_law q task now :
  file_ok q →
  let '(off, q') := fq_put q task now in
  file_ok q' ∧ file_view q !! off = None ∧ file_view q' = <[off := mkSlot task None]> (file_view q).
Proof.
  intros H. destruct (file_op_ok q (OPut task now) H) as (H1 & H2 & H3).
  cbn [run_op wq_put FileWorkQueue_queue InMemoryWorkQueue_queue] in H1, H2, H3.
  pose proof (mem_put_law (mem_of q) task now (co_exact _ (proj1 (proj2 H)))) as L.
  destruct (fq_put q task now) as [off q'], (mq_put (mem_of q) task now) as [off' m'].
  cbn [fst snd] in *. injection H2 as ->. destruct L as (_ & L1 & L2). split; [done|].
  unfold file_view. by rewrite H3.
Qed.

Lemma file_lease_law q count ms now :
  file_ok q →
  let '(ls, q') := fq_lease q count ms now in
  file_ok q' ∧ sl_task <$> file_view q' = sl_task <$> file_view q ∧
  NoDup (lt_offset <$> ls) ∧
  (∀ l, l ∈ ls → file_view q' !! lt_offset l = Some (mkSlot (lt_task l) (Some (lt_token l)))) ∧
  (∀ off t tok, file_view q' !! off = Some (mkSlot t (Some tok)) →
     file_view q !! off = Some (mkSlot t (Some tok)) ∨
     ∃ l, l ∈ ls ∧ lt_offset l = off ∧ lt_task l = t ∧ lt_token l = tok).
Proof.
  intros H. destruct (file_op_ok q (OLease count ms now) H) as (H1 & H2 & H3).
  cbn [run_op wq_lease FileWorkQueue_queue InMemoryWorkQueue_queue] in H1, H2, H3.
  pose proof (mem_lease_law (mem_of q) count ms now (co_exact _ (proj1 (proj2 H)))) as L.
  destruct (fq_lease q count ms now) as [ls q'], (mq_lease (mem_of q) count ms now) as [ls' m'].
  cbn [fst snd] in *. injection H2 as ->. destruct L as (_ & L). split; [done|].
  unfold file_view. by rewrite H3.
Qed.

Lemma file_ack_law q off tok :
  file_ok q →
  file_ok (fq_ack q off tok) ∧
  file_view (fq_ack q off tok) =
    match file_view q !! off with
    | Some (mkSlot _ (Some tok')) =>
        if String.eqb tok tok' then delete off (file_view q) else file_view q
    | _ => file_view q
    end.
Proof.
  intros H. destruct (file_op_ok q (OAck off tok) H) as (H1 & _ & H3).
  cbn [run_op wq_ack FileWorkQueue_queue InMemoryWorkQueue_queue snd] in H1, H3.
  destruct (mem_ack_law (mem_of q) off tok (co_exact _ (proj1 (proj2 H)))) as [_ L].
  split; [done|]. unfold file_view. by rewrite H3.
Qed.

Lemma file_nack_law q off tok requeue now :
  file_ok q →
  file_ok (fq_nack q off tok requeue now) ∧
  file_view (fq_nack q off tok requeue now) =
    match file_view q !! off with
    | Some (mkSlot t (Some tok')) =>
        if String.eqb tok tok' then
          if requeue then <[off := mkSlot t None]> (file_view q) else delete off (file_view q)
        else file_view q
    | _ => file_view q
    end.
Proof.
  intros H. destruct (file_op_ok q (ONack off tok requeue now) H) as (H1 & _ & H3).
  cbn [run_op wq_nack FileWorkQueue_queue InMemoryWorkQueue_queue snd] in H1, H3.
  destruct (mem_nack_law (mem_of q) off tok requeue now (co_exact _ (proj1 (proj2 H)))) as [_ L].
  split; [done|]. unfold file_view. by rewrite H3.
Qed.

#[export] Instance file_lawful : LawfulWorkQueue FileWorkQueue := {
  wq_ok := file_ok;
  wq_view := file_view;
  wq_count := file_count_law;
  wq_put_law := file_put_law;
  wq_lease_law := file_lease_law;
  wq_ack_law := file_ack_law;
  wq_nack_law := file_nack_law
}.
End theorems.

(** ** Lock order *)

(** The two thread locks, and what an operation still has to do with them. *)
Inductive lock : Type := IoLock | StateLock.

#[export] Instance lock_eq_dec : EqDecision lock.
Proof. solve_decision. Defined.

Inductive lock_action : Type := Acquire (l : lock) | Release (l : lock).

Definition put_locks : list lock_action :=
  [Acquire IoLock; Acquire StateLock; Release StateLock; Release IoLock].

(** [ack], and [nack] without requeueing. *)
Definition ack_locks : list lock_action :=
  [Acquire StateLock; Acquire IoLock; Release IoLock; Release StateLock].

(** Two threads; a lock is held by at most one of them. *)
Record lock_state : Type := mkLocks {
  lk_holder : lock → option bool;
  lk_todo : bool → list lock_action
}.

Definition lock_set {A B} `{EqDecision A} (f : A → B) (a : A) (b : B) : A → B :=
  fun x => if decide (x = a) then b else f x.

Inductive lock_step : lock_state → lock_state → Prop :=
| step_acquire st t l rest :
    lk_todo st t = Acquire l :: rest → lk_holder st l = None →
    lock_step st (mkLocks (lock_set (lk_holder st) l (Some t)) (lock_set (lk_todo st) t rest))
| step_release st t l rest :
    lk_todo st t = Release l :: rest → lk_holder st l = Some t →
    lock_step st (mkLocks (lock_set (lk_holder st) l None) (lock_set (lk_todo st) t rest)).

Definition locks_init : lock_state :=
  mkLocks (fun _ => None) (fun t : bool => if t then put_locks else ack_locks).

Definition deadlocked (st : lock_state) : Prop :=
  (∃ t, lk_todo st t ≠ []) ∧ ∀ st', ¬ lock_step st st'.

(** A thread in [put] and a thread in [ack] can block each other for ever. *)
Lemma put_ack_deadlock : ∃ st, rtc lock_step locks_init st ∧ deadlocked st.
Proof.
  eexists. split.
  - eapply rtc_l; [by apply (step_acquire _ true IoLock)|].
    eapply rtc_l; [by apply (step_acquire _ false StateLock)|]. apply rtc_refl.
  - split; [by exists true|]. intros st' Hs.
    inversion Hs as [st t l rest Ht Hh|st t l rest Ht Hh]; subst; destruct t; simpl in Ht;
      unfold lock_set in Ht; simpl in Ht; try discriminate; injection Ht as <- <-; done.
Qed.

(** ** Examples *)

Section examples.
#[local] Existing Instance plain_text.
(** Records of 600 bytes: a segment of the least size, 1024 bytes, holds one. *)
#[local] Instance demo_len : RecordLen := fun _ _ _ => 600%N.

Definition demo_now : Now := mkNow 1000 5000.

Definition run_file (d : disk) (ops : list qop) : list qout * disk :=
  match fq_open 0 false d demo_now with
  | Ok q => let '(outs, q') := run_ops q ops in (outs, fq_disk q')
  | Raise _ => ([], d)
  end.

Definition demo_file : FileWorkQueue :=
  (_rotate_segment_unlocked (with_next_offset (fresh_queue 0 false empty_disk) 0)).2.
Definition demo_file1 : FileWorkQueue := (fq_put demo_file (demo_task "a" 0) demo_now).2.
Definition demo_file2 : FileWorkQueue := (fq_put demo_file1 (demo_task "b" 0) demo_now).2.
Definition demo_file3 : FileWorkQueue := (fq_lease demo_file2 1 30 demo_now).2.
Definition demo_file4 : FileWorkQueue := fq_ack demo_file3 0 "lease-1".

Lemma demo_file4_reachable : reachable demo_file4.
Proof.
  apply reach_ack, reach_lease, reach_put, reach_put. by eapply (reach_open 0 false demo_now).
Qed.

(** The process dies 17 bytes into the record of a third task. *)
Definition demo_torn : disk :=
  let '(_, _, seq, q3) := put_segment demo_file4 (demo_task "c" 0) demo_now in
  mkDisk (<[seq := mkLog (lg_lines (log_of (fq_disk q3) seq)) (Some (mkLine 17 Garbage))]>
            (dk_logs (fq_disk q3)))
    (dk_indexes (fq_disk q3)) (dk_meta (fq_disk q3)) (dk_offset (fq_disk q3)).

Lemma demo_torn_crash : crash_point demo_file4 demo_torn.
Proof.
  unfold demo_torn. destruct (put_segment demo_file4 (demo_task "c" 0) demo_now) as [[[off size] seq] q3] eqn:E.
  assert ((off, size, seq, q3).1.1.2 = 600%N) as Hs by (rewrite <- E; by vm_compute).
  simpl in Hs. eapply crash_torn; [exact E|lia].
Qed.


Definition queued (d : disk) : list (N * mapping) :=
  match fq_open 0 false d demo_now with
  | Ok q => map_to_list (fe_task <$> fq_entries q)
  | Raise _ => []
  end.

(** After such a crash the rest of the line is still in the log: the next
    record is appended to it, and the next restart loses the task although
    [put] returned its offset. *)
Example torn_line_loses_next_put :
  queued demo_torn = [(1%N, demo_task "b" 0)] ∧
  (run_file demo_torn [OPut (demo_task "d" 0) demo_now; OCount]).1 = [ROffset 3; RCount 2] ∧
  queued (run_file demo_torn [OPut (demo_task "d" 0) demo_now]).2 = [(1%N, demo_task "b" 0)].
Proof. by vm_compute. Qed.

(** The millionth segment has a name the loader does not match: its tasks are
    gone after a restart. *)
Example seven_digit_segment_ignored :
  let d := mkDisk ∅ ∅ (N.to_uint 999999) (N.to_uint 7) in
  let '(outs, d') := run_file d [OPut (demo_task "a" 0) demo_now; OCount] in
  outs = [ROffset 7; RCount 1] ∧ queued d' = [].
Proof. by vm_compute. Qed.

(** A counter that lags behind the segments is extended, not replaced: 3 and
    12 make 312. *)
Example counter_is_appended :
  counter_value (counter_raise (N.to_uint 3) 12) = 312%N.
Proof. by vm_compute. Qed.

(** Rescheduling a waiting task changes what [oldest_available_at] reports but
    not when the task is leased. *)
Example reschedule_waiting_ignored :
  let q := fq_reschedule demo_file1 0 (Fin 9000000) in
  fq_oldest_available_at q = Some (Fin 9000000) ∧
  (lt_offset <$> (fq_lease q 1 30 (mkNow 2000 6000)).1) = [0%N].
Proof. by vm_compute. Qed.
End examples.
