(* ===== verification/FlowDef.v ===== *)
(** * Flow definitions ([tm/flow/spec.py], [operations.py], [policies.py],
      [correlate.py])

    Steps with their lifecycle hooks, flow specifications with their step ids
    and revision, the runtime policies and the registry of deferred runs.

    A hook is user code.  It receives the step's context and may change it in
    place, so a hook returns the context it leaves; [run] and [after] may also
    change the state they are given. *)

From S2P Require Import Prelude PyVal PyConv Task Report Guard Hitl.
From stdpp Require Import base gmap strings list pretty sorting.
From Stdlib Require Import ZArith Lia.

Abbreviation table := (list (string * json)) (only parsing).

(** ** Exceptions of hooks

    The two exceptions the runtime treats by name, and every other one by its
    class and text. *)
Inductive flow_exn : Type :=
| PendingApproval (record : ApprovalRecord)
| GuardBlockedError (violation : GuardViolation)
| OtherException (class message : string).

(** [exc.__class__.__name__] and [str(exc)]. *)
Definition exn_class (e : flow_exn) : string :=
  match e with
  | PendingApproval _ => "PendingApproval"
  | GuardBlockedError _ => "GuardBlockedError"
  | OtherException c _ => c
  end.

Definition exn_text (e : flow_exn) : string :=
  match e with
  | PendingApproval r => ap_reason r
  | GuardBlockedError v => gv_reason v
  | OtherException _ m => m
  end.

(** An exception of the modelled code, as a handler sees it. *)
Definition raised (e : exn) : flow_exn :=
  OtherException
    (match e with
     | ValueError _ => "ValueError" | TypeError _ => "TypeError" | KeyError _ => "KeyError"
     | IndexError _ => "IndexError" | RuntimeError _ => "RuntimeError"
     | TimeoutError _ => "TimeoutError" | OverflowError _ => "OverflowError"
     | AttributeError _ => "AttributeError" | RegexError _ => "error"
     | TransportError _ _ => "TransportError"
     end) (exn_str e).

(** ** Operations and steps *)

Inductive Operation : Type := TASK | SWITCH | PARALLEL | FINISH.

#[export] Instance Operation_eq_dec : EqDecision Operation.
Proof. solve_decision. Defined.

(** [Operation.name]. *)
Definition operation_name (o : Operation) : string :=
  match o with TASK => "TASK" | SWITCH => "SWITCH" | PARALLEL => "PARALLEL" | FINISH => "FINISH" end.

Inductive ResponseMode : Type := IMMEDIATE | DEFERRED.

#[export] Instance ResponseMode_eq_dec : EqDecision ResponseMode.
Proof. solve_decision. Defined.

Definition before_hook : Type := table → table * option flow_exn.
Definition run_hook : Type := table → json → table * json * (json + flow_exn).
Definition after_hook : Type := table → json → table * json * option flow_exn.
Definition error_hook : Type := table → flow_exn → table * option flow_exn.

Record StepDef : Type := mkStepDef {
  sd_name : string;
  sd_operation : Operation;
  sd_next_steps : list string;
  sd_config : table;
  sd_before : option before_hook;
  sd_run : option run_hook;
  sd_after : option after_hook;
  sd_on_error : option error_hook
}.

(** A step without hooks. *)
Definition plain_step (name : string) (op : Operation) (next : list string) (config : table)
  : StepDef := mkStepDef name op next config None None None None.

(** ** Flow specifications *)

Record FlowSpec : Type := mkFlowSpec {
  fs_name : string;
  fs_flow_id : string;
  fs_steps : list (string * StepDef);
  fs_entrypoint : option string;
  fs_step_ids : list (string * string);
  fs_rev_cache : option string;
  fs_rev_salt : Z
}.

(** BLAKE2s: of the text of a step id, and of the JSON text of a revision. *)
Class FlowHash := { hash_text : string → string; hash_json : json → string }.

(** [_canonicalize_config]: mappings sorted by key, recursively. *)
Fixpoint _canonicalize_config (v : json) : json :=
  match v with
  | JObj l => JObj (sort_items ((fix go (l : table) : table :=
                match l with [] => [] | (k, v) :: l' => (k, _canonicalize_config v) :: go l' end) l))
  | JArr l => JArr (_canonicalize_config <$> l)
  | _ => v
  end.

Section spec.
Context {FH : FlowHash}.

Definition _compute_step_id (flow_id name : string) : string :=
  "step-" +:+ hash_text (flow_id +:+ ":" +:+ name).

(** [FlowSpec(...)] with [__post_init__]. *)
Definition flow_spec (name : string) (flow_id : option string) (steps : list (string * StepDef))
    (entrypoint : option string) : FlowSpec :=
  let fid := default name flow_id in
  mkFlowSpec name fid steps entrypoint
    ((fun kv => (kv.1, _compute_step_id fid kv.1)) <$> steps) None 0.

Definition add_step (s : FlowSpec) (step : StepDef) : FlowSpec :=
  mkFlowSpec (fs_name s) (fs_flow_id s) (dict_set (sd_name step) step (fs_steps s))
    (match fs_entrypoint s with None => Some (sd_name step) | e => e end)
    (dict_set (sd_name step) (_compute_step_id (fs_flow_id s) (sd_name step)) (fs_step_ids s))
    None (fs_rev_salt s).

(** [spec.step(name)]. *)
Definition spec_step (s : FlowSpec) (name : string) : res StepDef :=
  match alookup name (fs_steps s) with Some d => Ok d | None => Raise (KeyError name) end.

Definition adjacency (s : FlowSpec) : list (string * list string) :=
  (fun kv => (kv.1, sd_next_steps kv.2)) <$> fs_steps s.

(** [spec.step_id(name)]; an id that is missing is computed and kept. *)
Definition step_id (s : FlowSpec) (name : string) : res (string * FlowSpec) :=
  match alookup name (fs_step_ids s) with
  | Some i => Ok (i, s)
  | None =>
      match alookup name (fs_steps s) with
      | None => Raise (KeyError name)
      | Some _ =>
          let i := _compute_step_id (fs_flow_id s) name in
          Ok (i, mkFlowSpec (fs_name s) (fs_flow_id s) (fs_steps s) (fs_entrypoint s)
                   (dict_set name i (fs_step_ids s)) (fs_rev_cache s) (fs_rev_salt s))
      end
  end.

(** The entries of the revision's step list, in the order of the names. *)
Fixpoint revision_steps (s : FlowSpec) (steps : list (string * StepDef)) : res (list json * FlowSpec) :=
  match steps with
  | [] => Ok ([], s)
  | (_, d) :: rest =>
      '(i, s1) ← step_id s (sd_name d);
      '(js, s2) ← revision_steps s1 rest;
      Ok (JObj [("name", JStr (sd_name d)); ("step_id", JStr i);
                ("operation", JStr (operation_name (sd_operation d)));
                ("next", JArr (JStr <$> sd_next_steps d));
                ("config", _canonicalize_config (JObj (sd_config d)))] :: js, s2)
  end.

Definition by_step_name (steps : list (string * StepDef)) : list (string * StepDef) :=
  sort_items ((fun kv => (sd_name kv.2, kv.2)) <$> steps).

Definition revision_payload (s : FlowSpec) (steps : list json) : json :=
  JObj [("flow", JStr (fs_name s)); ("flow_id", JStr (fs_flow_id s));
        ("entry", match fs_entrypoint s with Some e => JStr e | None => JNull end);
        ("salt", JInt (fs_rev_salt s)); ("steps", JArr steps)].

Definition flow_revision (s : FlowSpec) : res (string * FlowSpec) :=
  match fs_rev_cache s with
  | Some r => Ok (r, s)
  | None =>
      '(steps, s1) ← revision_steps s (by_step_name (fs_steps s));
      let rev := "rev-" +:+ hash_json (revision_payload s steps) in
      Ok (rev, mkFlowSpec (fs_name s1) (fs_flow_id s1) (fs_steps s1) (fs_entrypoint s1)
                 (fs_step_ids s1) (Some rev) (fs_rev_salt s1))
  end.

Definition bump_revision (s : FlowSpec) : FlowSpec :=
  mkFlowSpec (fs_name s) (fs_flow_id s) (fs_steps s) (fs_entrypoint s) (fs_step_ids s) None
    (fs_rev_salt s + 1).
End spec.

(** ** Policies *)

Record FlowPolicies : Type := mkFlowPolicies {
  fp_response_mode : ResponseMode;
  fp_max_concurrency : option Z;
  fp_allow_deferred : bool;
  fp_short_wait_s : pyfloat
}.

Definition default_policies : FlowPolicies := mkFlowPolicies IMMEDIATE None true fzero.

(** ** The correlation hub *)

Record CorrelationHub : Type := mkHub {
  ch_pending : gmap string (string * table);
  ch_signals : gmap string table
}.

Definition hub_new : CorrelationHub := mkHub ∅ ∅.

(** [token] is the fresh identifier the call draws. *)
Definition reserve (h : CorrelationHub) (token flow_name : string) (payload : table)
  : CorrelationHub := mkHub (<[token := (flow_name, payload)]> (ch_pending h)) (ch_signals h).

Definition signal (h : CorrelationHub) (req_id : string) (payload : table) : CorrelationHub :=
  mkHub (ch_pending h) (<[req_id := payload]> (ch_signals h)).

Definition poll (h : CorrelationHub) (req_id : string) : option table := ch_signals h !! req_id.

Definition consume_signal (h : CorrelationHub) (req_id : string) : option table * CorrelationHub :=
  (ch_signals h !! req_id, mkHub (ch_pending h) (delete req_id (ch_signals h))).

Definition resolve (h : CorrelationHub) (token : string) : option (string * table) :=
  ch_pending h !! token.

Definition consume (h : CorrelationHub) (token : string)
  : option (string * table) * CorrelationHub :=
  (ch_pending h !! token, mkHub (delete token (ch_pending h)) (ch_signals h)).

(** ** Step ids and revisions *)

Section facts.
Context {FH : FlowHash}.

(** Every recorded id is the one of its name, and a step is filed under its
    own name. *)
Record spec_ok (s : FlowSpec) : Prop := {
  so_ids name i : alookup name (fs_step_ids s) = Some i → i = _compute_step_id (fs_flow_id s) name;
  so_names name d : alookup name (fs_steps s) = Some d → sd_name d = name;
  so_keys : NoDup (fs_steps s).*1
}.

Lemma alookup_fmap {V W} (f : string → V → W) key (l : list (string * V)) :
  alookup key ((fun kv => (kv.1, f kv.1 kv.2)) <$> l) = f key <$> alookup key l.
Proof.
  induction l as [|[k v] l IH]; simpl; [done|]. case_decide; [by subst|done].
Qed.

Lemma flow_spec_ok name fid steps entry :
  NoDup steps.*1 → (∀ k d, (k, d) ∈ steps → sd_name d = k) →
  spec_ok (flow_spec name fid steps entry).
Proof.
  intros Hnd Hn. constructor; simpl; [| |done].
  - intros k i. rewrite (alookup_fmap (fun k _ => _compute_step_id (default name fid) k)).
    destruct (alookup k steps); simpl; congruence.
  - intros k d Hd%alookup_elem_of. by apply Hn.
Qed.

Lemma add_step_ok s d : spec_ok s → spec_ok (add_step s d).
Proof.
  intros [Hi Hn Hk]. constructor; simpl.
  - intros k i. rewrite alookup_dict_set. case_decide as E; [by intros [= <-]; subst|apply Hi].
  - intros k d'. rewrite alookup_dict_set. case_decide as E; [by intros [= <-]|apply Hn].
  - by apply NoDup_dict_set.
Qed.

(** The id of a step does not depend on when it is asked for. *)
Lemma step_id_spec s name d :
  spec_ok s → alookup name (fs_steps s) = Some d →
  ∃ s', step_id s name = Ok (_compute_step_id (fs_flow_id s) name, s') ∧ spec_ok s' ∧
    fs_steps s' = fs_steps s ∧ fs_flow_id s' = fs_flow_id s.
Proof.
  intros Hs Hd. unfold step_id. destruct (alookup name (fs_step_ids s)) as [i|] eqn:E.
  - rewrite (so_ids _ Hs _ _ E). by exists s.
  - rewrite Hd. eexists. split; [done|]. split; [|done]. destruct Hs as [Hi Hn Hk].
    constructor; simpl; [|done|done]. intros k i. rewrite alookup_dict_set.
    case_decide as Ek; [by intros [= <-]; subst|apply Hi].
Qed.
End facts.
