(* ===== verification/FlowExec.v ===== *)
(** * Running the steps of a flow ([tm/flow/runtime.py])

    The request the runtime queues, and [_execute_immediately]: from the
    entry along [next_steps], each step once, through the hooks of every step.
    A step of the flow that was already run ends the run, so the loop needs at
    most one round per step. *)

From S2P Require Import Prelude PyVal PyConv Task Report Guard Hitl GovManager FlowDef.
From stdpp Require Import base gmap strings list pretty.
From Stdlib Require Import ZArith Lia.

(** [_Request]; the future is the number of the call that waits for it. *)
Record Request : Type := mkRequest {
  fr_run_id : string;
  fr_flow_name : string;
  fr_flow_id : string;
  fr_flow_rev : string;
  fr_spec : FlowSpec;
  fr_inputs : table;
  fr_response_mode : ResponseMode;
  fr_ctx : table;
  fr_model_name : option string;
  fr_future : nat;
  fr_enqueue_ts : Z;
  fr_decision : option GovernanceDecision;
  fr_descriptor : option RequestDescriptor
}.

(** [TraceSpanLike] without its two timestamps. *)
Record TraceSpan : Type := mkSpan {
  sp_flow : string;
  sp_flow_id : string;
  sp_flow_rev : string;
  sp_run_id : string;
  sp_step : string;
  sp_step_id : json;
  sp_seq : json;
  sp_status : string;
  sp_error_code : option string;
  sp_error_message : option string;
  sp_rule : string
}.

(** ** One step *)

Definition _next_step (step : StepDef) : option string :=
  match sd_next_steps step with
  | [] => None
  | first :: _ =>
      if bool_decide (sd_operation step = SWITCH) then
        match jget "key" (sd_config step), jget "default" (sd_config step) with
        | JStr key, d =>
            if key ∈? sd_next_steps step then Some key
            else
              match d with
              | JStr dflt => if dflt ∈? sd_next_steps step then Some dflt else Some first
              | _ => Some first
              end
        | _, JStr dflt => if dflt ∈? sd_next_steps step then Some dflt else Some first
        | _, _ => Some first
        end
      else Some first
  end.

Definition _run_step (step : StepDef) (ctx : table) (state : json) : table * (json + flow_exn) :=
  if bool_decide (sd_operation step = TASK) then
    match sd_run step with
    | Some run =>
        let '(ctx1, state1, result) := run ctx state in
        (ctx1, match result with inl JNull => inl state1 | r => r end)
    | None => (ctx, inl state)
    end
  else (ctx, inl state).

Definition _invoke_hook (hook : option before_hook) (ctx : table) : table * option flow_exn :=
  match hook with None => (ctx, None) | Some h => h ctx end.

Definition _invoke_after (hook : option after_hook) (ctx : table) (output : json)
  : table * json * option flow_exn :=
  match hook with None => (ctx, output, None) | Some h => h ctx output end.

Definition _invoke_error (hook : option error_hook) (ctx : table) (e : flow_exn)
  : table * option flow_exn :=
  match hook with None => (ctx, None) | Some h => h ctx e end.

(** How a round of the loop ends: on to the next step, with an exception that
    is recorded and raised again, or with one that leaves the handler. *)
Inductive step_outcome : Type :=
| Continue (next : option string) (state : json)
| Failed (e : flow_exn)
| Escaped (e : flow_exn).

Section exec.
Context {FH : FlowHash}.

(** The [except] branch. *)
Definition handle_error (step : StepDef) (ctx : table) (e : flow_exn) : table * step_outcome :=
  let '(ctx1, again) := _invoke_error (sd_on_error step) ctx e in
  (ctx1, match again with Some e1 => Escaped e1 | None => Failed e end).

(** The context of a step before its hooks; the runtime's governance object
    is not part of the model's context. *)
Definition step_ctx (r : Request) (step : StepDef) (current : string) (executed : list json) : table :=
  [("flow", JStr (fs_name (fr_spec r))); ("flow_id", JStr (fr_flow_id r));
   ("flow_rev", JStr (fr_flow_rev r)); ("step", JStr current);
   ("index", JInt (Z.of_nat (length executed))); ("executed", JArr executed);
   ("run_id", JStr (fr_run_id r)); ("config", JObj (sd_config step))].

(** The [try] block of a round. *)
Definition exec_step (r : Request) (step : StepDef) (current : string) (executed : list json)
    (state : json) : table * step_outcome :=
  let seq := Z.of_nat (length executed) in
  let ctx := dict_set "seq" (JInt seq) (step_ctx r step current executed) in
  match step_id (fr_spec r) current with
  | Raise e => handle_error step ctx (raised e)
  | Ok (sid, _) =>
      let ctx := dict_set "step_id" (JStr sid) ctx in
      let ctx := dict_set "event_id" (JStr (fr_run_id r +:+ ":" +:+ pretty seq)) ctx in
      let '(ctx, raised1) := _invoke_hook (sd_before step) ctx in
      match raised1 with
      | Some e => handle_error step ctx e
      | None =>
          let '(ctx, result) := _run_step step ctx state in
          match result with
          | inr e => handle_error step ctx e
          | inl state =>
              let '(ctx, state, raised2) := _invoke_after (sd_after step) ctx state in
              match raised2 with
              | Some e => handle_error step ctx e
              | None => (ctx, Continue (_next_step step) state)
              end
          end
      end
  end.

Definition span_of (r : Request) (current : string) (ctx : table) (o : step_outcome) : TraceSpan :=
  let failed := match o with Failed e => Some e | _ => None end in
  mkSpan (fs_name (fr_spec r)) (fr_flow_id r) (fr_flow_rev r) (fr_run_id r) current
    (default (JStr current) (alookup "step_id" ctx)) (default (JInt 0) (alookup "seq" ctx))
    (match failed with Some _ => "error" | None => "ok" end)
    (exn_class <$> failed) (exn_text <$> failed) (fs_name (fr_spec r)).

(** ** The loop *)

Definition flow_output (executed : list json) (state : json) : table :=
  [("steps", JArr executed); ("state", state)].

Fixpoint exec_loop (fuel : nat) (r : Request) (current : string) (visited : list string)
    (executed : list json) (state : json) (spans : list TraceSpan)
  : option (list TraceSpan * (table + flow_exn)) :=
  match fuel with
  | O => None
  | S fuel =>
      if String.eqb current "" then Some (spans, inl (flow_output executed state))
      else
        match spec_step (fr_spec r) current with
        | Raise e => Some (spans, inr (raised e))
        | Ok step =>
            match exec_step r step current executed state with
            | (_, Escaped e) => Some (spans, inr e)
            | (ctx, outcome) =>
                match alookup "step_id" ctx, alookup "seq" ctx with
                | None, _ => Some (spans, inr (raised (KeyError "step_id")))
                | _, None => Some (spans, inr (raised (KeyError "seq")))
                | Some sid, Some seq =>
                    let executed := executed ++ [JObj [("name", JStr current); ("step_id", sid); ("seq", seq)]] in
                    let visited := current :: visited in
                    let spans := spans ++ [span_of r current ctx outcome] in
                    match outcome with
                    | Continue next state =>
                        match given next with
                        | None => Some (spans, inl (flow_output executed state))
                        | Some n =>
                            if n ∈? visited then Some (spans, inl (flow_output executed state))
                            else exec_loop fuel r n visited executed state spans
                        end
                    | Failed e | Escaped e => Some (spans, inr e)
                    end
                end
            end
        end
  end.

(** [spec.entrypoint or next(iter(spec.steps))]. *)
Definition entry_step (s : FlowSpec) : string :=
  match given (fs_entrypoint s) with
  | Some e => e
  | None => match fs_steps s with [] => EmptyString | (name, _) :: _ => name end
  end.

Definition _execute_immediately (r : Request) : option (list TraceSpan * (table + flow_exn)) :=
  exec_loop (S (length (fs_steps (fr_spec r)))) r (entry_step (fr_spec r)) [] []
    (JObj (fr_inputs r)) [].

(** The immediate branch of [_run_flow]. *)
Definition immediate_output (out : table) : table :=
  [("mode", JStr "immediate"); ("steps", jget "steps" out); ("state", jget "state" out)].
End exec.

(** ** What a run of a flow does

    The run always ends; the steps it passes are a path of the flow without
    repetition, and each has its span.  It succeeds unless a hook raises, the
    path leads to a step the flow does not have, or a hook removes the
    runtime's own keys from its context. *)

From S2P Require Import Prelude PyVal PyConv Task Report Guard Hitl GovManager FlowDef.
From stdpp Require Import base gmap strings list pretty.
From Stdlib Require Import ZArith Lia.

Section spec.
Context {FH : FlowHash}.

(** [names] is the path that starts in [n]: each step is in the flow and leads
    to the one after it. *)
Fixpoint linked (s : FlowSpec) (n : string) (names : list string) : Prop :=
  match names with
  | [] => True
  | x :: rest =>
      x = n ∧ ∃ d, alookup n (fs_steps s) = Some d ∧
        match rest, given (_next_step d) with
        | [], _ => True
        | _, Some m => linked s m rest
        | _, None => False
        end
  end.

(** The path ends here: the last step leads nowhere or back. *)
Definition stops (s : FlowSpec) (n : string) (names : list string) : Prop :=
  match last names with
  | None => n = EmptyString
  | Some x => ∃ d, alookup x (fs_steps s) = Some d ∧
      match given (_next_step d) with None => True | Some m => m ∈ names end
  end.

Definition span_ok (sp : TraceSpan) : Prop := sp_status sp = "ok" ∧ sp_error_code sp = None.

Definition span_failed (e : flow_exn) (sp : TraceSpan) : Prop :=
  sp_status sp = "error" ∧ sp_error_code sp = Some (exn_class e) ∧
  sp_error_message sp = Some (exn_text e).

Definition entry_name (j : json) : json :=
  match j with JObj m => jget "name" m | _ => JNull end.

Lemma alookup_key {V} n (d : V) (l : list (string * V)) : alookup n l = Some d → n ∈ l.*1.
Proof. intros H. destruct (decide (n ∈ l.*1)) as [|Hn%alookup_None]; [done|congruence]. Qed.

(** What a round can end with. *)
Lemma exec_step_next r step current executed state ctx next state' :
  exec_step r step current executed state = (ctx, Continue next state') → next = _next_step step.
Proof.
  unfold exec_step, handle_error. intros H.
  repeat (case_match; simplify_eq/=); done.
Qed.

(** The part of the run that is still to come. *)
Record run_from (r : Request) (current : string) (visited : list string) (executed : list json)
    (spans new : list TraceSpan) (out : table + flow_exn) : Prop := {
  rf_linked : linked (fr_spec r) current (sp_step <$> new);
  rf_nodup : NoDup (sp_step <$> new);
  rf_fresh x : x ∈ sp_step <$> new → x ∉ visited;
  rf_in x : x ∈ sp_step <$> new → x ∈ (fs_steps (fr_spec r)).*1;
  rf_out :
    match out with
    | inl o =>
        Forall span_ok new ∧
        (∃ entries state, o = flow_output (executed ++ entries) state ∧
           entry_name <$> entries = JStr ∘ sp_step <$> new) ∧
        match last (sp_step <$> new) with
        | None => current = EmptyString
        | Some x => ∃ d, alookup x (fs_steps (fr_spec r)) = Some d ∧
            match given (_next_step d) with
            | None => True
            | Some m => m ∈ visited ∨ m ∈ sp_step <$> new
            end
        end
    | inr e =>
        Forall span_ok new ∨ ∃ pre sp, new = pre ++ [sp] ∧ Forall span_ok pre ∧ span_failed e sp
    end
}.

(** A run that ends before the round is recorded. *)
Lemma run_from_raise r current visited executed spans e :
  run_from r current visited executed spans [] (inr e).
Proof. constructor; simpl; [done|constructor|set_solver|set_solver|by left]. Qed.

(** A recorded round in front of the rest. *)
Lemma run_from_cons r current d n visited executed entry spans sp new out :
  alookup current (fs_steps (fr_spec r)) = Some d → given (_next_step d) = Some n →
  current ∉ visited → sp_step sp = current → span_ok sp → entry_name entry = JStr current →
  n ∉ current :: visited → n ≠ EmptyString →
  run_from r n (current :: visited) (executed ++ [entry]) (spans ++ [sp]) new out →
  run_from r current visited executed spans (sp :: new) out.
Proof.
  intros Hd Hn Hv Hs Hok He Hnv Hne [Hl Hnd Hf Hi Ho].
  constructor; simpl; rewrite ?Hs.
  - split; [done|]. exists d. split; [done|]. rewrite Hn. destruct new; [done|exact Hl].
  - constructor; [|done]. intros Hin%Hf. set_solver.
  - intros x [->|Hx]%elem_of_cons; [done|]. apply Hf in Hx. set_solver.
  - intros x [->|Hx]%elem_of_cons; [|by apply Hi].
    by eapply alookup_key.
  - destruct out as [o|e].
    + destruct Ho as (Hall & (entries & st & -> & En) & Hlast). split_and!; [by constructor| |].
      * exists (entry :: entries), st. rewrite <- (assoc_L (++)).
        split; [done|]. simpl. rewrite He. f_equal. exact En.
      * rewrite last_cons. change (list_fmap _ _ sp_step new) with (sp_step <$> new).
        destruct (last (sp_step <$> new)) as [x|]; [|done].
        destruct Hlast as (d' & Hd' & Hm). exists d'. split; [done|].
        destruct (given (_next_step d')); [|done]. set_solver.
    + destruct Ho as [Hall|(pre & sp' & -> & Hpre & Hf')]; [left; by constructor|].
      right. exists (sp :: pre), sp'. split_and!; [done|by constructor|done].
Qed.

(** The last recorded round. *)
Lemma run_from_end r current d visited executed entry spans sp state :
  alookup current (fs_steps (fr_spec r)) = Some d → current ∉ visited →
  sp_step sp = current → span_ok sp → entry_name entry = JStr current →
  (∀ m, given (_next_step d) = Some m → m ∈ current :: visited) →
  run_from r current visited executed spans [sp] (inl (flow_output (executed ++ [entry]) state)).
Proof.
  intros Hd Hv Hs Hok He Hn. constructor; simpl; rewrite ?Hs.
  - split; [done|]. by exists d.
  - apply NoDup_singleton.
  - set_solver.
  - intros x ->%list_elem_of_singleton. by eapply alookup_key.
  - split_and!; [by rewrite Forall_singleton| |].
    + exists [entry], state. split; [done|]. simpl. by rewrite He.
    + exists d. split; [done|]. destruct (given (_next_step d)) as [m|] eqn:Em; [|done].
      specialize (Hn m eq_refl). set_solver.
Qed.

Lemma run_from_failed r current d visited executed spans sp e :
  alookup current (fs_steps (fr_spec r)) = Some d → current ∉ visited →
  sp_step sp = current → span_failed e sp →
  run_from r current visited executed spans [sp] (inr e).
Proof.
  intros Hd Hv Hs Hf. constructor; simpl; rewrite ?Hs.
  - split; [done|]. by exists d.
  - apply NoDup_singleton.
  - set_solver.
  - intros x ->%list_elem_of_singleton. by eapply alookup_key.
  - right. by exists [], sp.
Qed.

Lemma given_Some s n : given s = Some n → s = Some n ∧ n ≠ EmptyString.
Proof. unfold given. destruct s as [[|c s]|]; naive_solver. Qed.

Lemma exec_loop_spec fuel r current visited executed state spans :
  NoDup visited → (∀ x, x ∈ visited → x ∈ (fs_steps (fr_spec r)).*1) → current ∉ visited →
  length (fs_steps (fr_spec r)) < fuel + length visited →
  ∃ new out, exec_loop fuel r current visited executed state spans = Some (spans ++ new, out) ∧
    run_from r current visited executed spans new out.
Proof.
  revert current visited executed state spans.
  induction fuel as [|fuel IH]; intros current visited executed state spans Hnd Hin Hcur Hlen.
  { exfalso. pose proof (submseteq_length visited (fs_steps (fr_spec r)).*1) as Hsub.
    rewrite length_fmap in Hsub. specialize (Hsub (NoDup_submseteq _ _ Hnd Hin)). lia. }
  simpl. destruct (String.eqb_spec current "") as [->|Hne].
  { exists [], (inl (flow_output executed state)). rewrite app_nil_r. split; [done|].
    constructor; simpl; [done|constructor|set_solver|set_solver|].
    split_and!; [constructor| |done]. exists [], state. by rewrite app_nil_r. }
  unfold spec_step. destruct (alookup current (fs_steps (fr_spec r))) as [d|] eqn:Hd.
  2: { exists [], (inr (raised (KeyError current))). rewrite app_nil_r.
       split; [done|]. apply run_from_raise. }
  destruct (exec_step r d current executed state) as [ctx outcome] eqn:He.
  destruct outcome as [next st|e|e].
  3: { exists [], (inr e). rewrite app_nil_r. split; [done|]. apply run_from_raise. }
  - destruct (alookup "step_id" ctx) as [sid|].
    2: { eexists [], _. rewrite app_nil_r. split; [done|]. apply run_from_raise. }
    destruct (alookup "seq" ctx) as [seq|].
    2: { eexists [], _. rewrite app_nil_r. split; [done|]. apply run_from_raise. }
    apply exec_step_next in He as ->.
    destruct (given (_next_step d)) as [n|] eqn:Hn.
    + destruct (n ∈? (current :: visited)) eqn:Hv.
      * eexists [_], _. split; [done|]. eapply run_from_end; [done..|].
        intros m Hm. assert (m = n) as -> by congruence. by apply inb_true.
      * apply inb_false in Hv. pose proof Hn as [_ Hn0]%given_Some.
        edestruct (IH n (current :: visited)) as (new & out & E & Hrun);
          [by constructor| |done| |].
        -- intros x [->|Hx]%elem_of_cons; [|by apply Hin].
           by eapply alookup_key.
        -- simpl. lia.
        -- eexists (_ :: new), out. split; [rewrite E, <- (assoc_L (++)); done|].
           eapply run_from_cons; [exact Hd|exact Hn|exact Hcur|done|done| |exact Hv|exact Hn0|exact Hrun]; done.
    + eexists [_], _. split; [done|]. eapply run_from_end; [done..|]. congruence.
  - destruct (alookup "step_id" ctx) as [sid|].
    2: { eexists [], _. rewrite app_nil_r. split; [done|]. apply run_from_raise. }
    destruct (alookup "seq" ctx) as [seq|].
    2: { eexists [], _. rewrite app_nil_r. split; [done|]. apply run_from_raise. }
    eexists [_], _. split; [done|]. by eapply run_from_failed.
Qed.

(** ** Runs that cannot fail *)

(** The keys the loop reads back from the context after the hooks. *)
Definition keeps (a b : table) : Prop :=
  ∀ key, key = "step_id" ∨ key = "seq" → is_Some (alookup key a) → is_Some (alookup key b).

(** No hook of the step raises or removes those keys. *)
Record quiet_step (d : StepDef) : Prop := {
  qs_before ctx : (_invoke_hook (sd_before d) ctx).2 = None ∧ keeps ctx (_invoke_hook (sd_before d) ctx).1;
  qs_run ctx st : (∃ v, (_run_step d ctx st).2 = inl v) ∧ keeps ctx (_run_step d ctx st).1;
  qs_after ctx st : (_invoke_after (sd_after d) ctx st).2 = None ∧
    keeps ctx (_invoke_after (sd_after d) ctx st).1.1
}.

Definition quiet (s : FlowSpec) : Prop := ∀ k d, alookup k (fs_steps s) = Some d → quiet_step d.

(** The entry and every target of a step are steps of the flow. *)
Definition closed (s : FlowSpec) : Prop :=
  (entry_step s ≠ EmptyString → entry_step s ∈ (fs_steps s).*1) ∧
  ∀ k d m, alookup k (fs_steps s) = Some d → m ∈ sd_next_steps d → m ∈ (fs_steps s).*1.

Lemma next_step_in d m : _next_step d = Some m → m ∈ sd_next_steps d.
Proof.
  unfold _next_step. destruct (sd_next_steps d) as [|x l]; [done|]. intros H.
  repeat case_match; simplify_eq/=; rewrite ?inb_true in *; try set_solver.
Qed.

Lemma quiet_round r d current executed state :
  alookup current (fs_steps (fr_spec r)) = Some d → quiet_step d →
  ∃ ctx st, exec_step r d current executed state = (ctx, Continue (_next_step d) st) ∧
    is_Some (alookup "step_id" ctx) ∧ is_Some (alookup "seq" ctx).
Proof.
  intros Hd [Hb Hr Ha]. unfold exec_step.
  assert (∃ sid s', step_id (fr_spec r) current = Ok (sid, s')) as (sid & s' & ->).
  { unfold step_id. rewrite Hd. destruct (alookup current (fs_step_ids (fr_spec r))); eauto. }
  set (c0 := dict_set "event_id" _ _).
  assert (is_Some (alookup "step_id" c0) ∧ is_Some (alookup "seq" c0)) as [K1 K2].
  { unfold c0. rewrite !alookup_dict_set. simpl. eauto. }
  clearbody c0. destruct (Hb c0) as [Eb Kb].
  destruct (_invoke_hook (sd_before d) c0) as [c1 e1]. simpl in *. subst e1.
  destruct (Hr c1 state) as [[v Ev] Kr].
  destruct (_run_step d c1 state) as [c2 res]. simpl in *. subst res.
  destruct (Ha c2 v) as [Ea Ka].
  destruct (_invoke_after (sd_after d) c2 v) as [[c3 st] e3]. simpl in *. subst e3.
  exists c3, st. split_and!; [done|apply Ka, Kr, Kb; auto|apply Ka, Kr, Kb; auto].
Qed.

Lemma exec_loop_quiet fuel r current visited executed state spans spans' out :
  closed (fr_spec r) → quiet (fr_spec r) →
  (current ≠ EmptyString → current ∈ (fs_steps (fr_spec r)).*1) →
  exec_loop fuel r current visited executed state spans = Some (spans', out) → ∃ o, out = inl o.
Proof.
  intros [_ Hc] Hq. revert current visited executed state spans.
  induction fuel as [|fuel IH]; intros current visited executed state spans Hin; simpl; [done|].
  destruct (String.eqb_spec current "") as [->|Hne]; [intros [= <- <-]; eauto|].
  unfold spec_step. destruct (alookup current (fs_steps (fr_spec r))) as [d|] eqn:Hd.
  2: { apply alookup_None in Hd. by apply Hin in Hne. }
  destruct (quiet_round r d current executed state Hd (Hq _ _ Hd)) as (ctx & st & -> & [sid ->] & [seq ->]).
  destruct (given (_next_step d)) as [n|] eqn:Hn; [|intros [= <- <-]; eauto].
  destruct (n ∈? current :: visited); [intros [= <- <-]; eauto|].
  apply IH. intros _. apply given_Some in Hn as [Hn _]. by eapply Hc, next_step_in.
Qed.

End spec.

(** ** A flow with a loop back to its entry

    [start] counts, [route] goes by its configuration to [again] and that leads
    back to [start]; the run passes every step once. *)
Definition demo_hash : FlowHash := {| hash_text := fun s => s; hash_json := fun _ => EmptyString |}.

Definition count_run : run_hook := fun ctx st =>
  match st with
  | JObj m => (ctx, st, inl (JObj (dict_set "n" (JInt (Z.of_nat (length m))) m)))
  | _ => (ctx, st, inr (OtherException "TypeError" "no mapping"))
  end.

Definition demo_flow : FlowSpec :=
  foldl (@add_step demo_hash) (@flow_spec demo_hash "demo" None [] None)
    [mkStepDef "start" TASK ["route"] [] None (Some count_run) None None;
     plain_step "route" SWITCH ["done"; "again"] [("key", JStr "again")];
     plain_step "done" FINISH [] [];
     plain_step "again" TASK ["start"] []].

Definition demo_request (s : FlowSpec) (inputs : table) : Request :=
  mkRequest "r1" "demo" "demo" "rev-0" s inputs IMMEDIATE [] None 0 0 None None.

(** The steps of a run with their status, and its final state or exception. *)
Definition run_summary (p : list TraceSpan * (table + flow_exn))
  : list (string * string) * (json + string * string) :=
  ((fun sp => (sp_step sp, sp_status sp)) <$> p.1,
   match p.2 with inl o => inl (jget "state" o) | inr e => inr (exn_class e, exn_text e) end).

Example demo_flow_runs :
  run_summary <$> @_execute_immediately demo_hash (demo_request demo_flow [("a", JBool true)]) =
  Some ([("start", "ok"); ("route", "ok"); ("again", "ok")],
        inl (JObj [("a", JBool true); ("n", JInt 1)])).
Proof. by vm_compute. Qed.

(** A step that leads to a name the flow does not have: the exception leaves
    the loop without a span. *)
Example missing_step_escapes :
  run_summary <$> @_execute_immediately demo_hash
    (demo_request (@flow_spec demo_hash "f" None [("a", plain_step "a" TASK ["b"] [])] None) []) =
  Some ([("a", "ok")], inr ("KeyError", "'b'")).
Proof. by vm_compute. Qed.
