(* ===== verification/FlowGov.v ===== *)
(** * What the flow runtime relies on in governance

    [Governance]: the calls [FlowRuntime] makes on its [GovernanceManager].
    [LawfulGovernance]: the discipline of reservations.  [holds g t W R] says
    that at time [t] the decisions [W] are admitted and not started and [R]
    are started and not finished; every call moves a decision from one list to
    the other, and no limit is ever exceeded by what is held.  The manager of
    [GovManager] and [GovConfig] is an instance. *)

From S2P Require Import Prelude PyVal PyConv Task Rolling Breaker RateLimit GovManager GovSpec.
From S2P Require Import AuditLog Guard GovConfig.
From stdpp Require Import base gmap strings list fin_maps.
From Stdlib Require Import ZArith Lia.

Class Governance (G : Type) := {
  g_config : G → GovernanceConfig;
  g_guard : G → json → RequestDescriptor → Z → res (GuardDecision * G);
  g_check : G → RequestDescriptor → Z → GovernanceDecision * G;
  g_activate : G → GovernanceDecision → Z → G;
  g_finalize : G → GovernanceDecision → string → option string → option pyfloat → option pyfloat →
               Z → G;
  g_cancel : G → GovernanceDecision → G;
  g_audit_enabled : G → bool;
  g_audit_record : G → string → mapping → Z → G
}.

(** ** Scopes and limits of a configuration *)

(** The settings a limit key stands for. *)
Definition key_settings (c : GovernanceConfig) (k : LimitKey) : option LimitSettings :=
  match k with
  | (level, Some name, Some arm) =>
      if String.eqb level "policy" then lc_per_policy_arm (gc_limits c) !! (name, arm) else None
  | (level, Some name, None) =>
      if String.eqb level "flow" then lc_per_flow (gc_limits c) !! name else None
  | (level, None, None) =>
      if String.eqb level "global" then Some (lc_global (gc_limits c)) else None
  | _ => None
  end.

(** The concurrency limit in force for a key. *)
Definition key_concurrency (c : GovernanceConfig) (k : LimitKey) : option Z :=
  s ← key_settings c k; if ls_enabled s then ls_concurrency s else None.

(** The limit keys of a request. *)
Definition scope_keys (c : GovernanceConfig) (r : RequestDescriptor) : list LimitKey :=
  if limits_enabled c then (_limit_scopes (gov_new c) r).*1 else [].

(** How many of the decisions hold a key. *)
Definition holders (k : LimitKey) (ds : list GovernanceDecision) : nat :=
  length (filter (fun d => k ∈ gd_limits d) ds).

Lemma holders_cons k d ds :
  holders k (d :: ds) = (if k ∈? gd_limits d then 1 else 0) + holders k ds.
Proof.
  unfold holders, inb. rewrite filter_cons. case_decide; case_bool_decide; done.
Qed.

#[export] Instance holders_perm k : Proper ((≡ₚ) ==> (=)) (holders k).
Proof. intros a b H. unfold holders. by rewrite H. Qed.

Class LawfulGovernance (G : Type) `{Governance G} := {
  holds : G → Z → list GovernanceDecision → list GovernanceDecision → Prop;
  holds_proper g t :: Proper ((≡ₚ) ==> (≡ₚ) ==> iff) (holds g t);
  holds_check g t now W R r d g' :
    holds g t W R → (t <= now)%Z → g_check g r now = (d, g') →
    holds g' now (if gd_allowed d then d :: W else W) R ∧
    (gd_allowed d = true → gd_limits d = scope_keys (g_config g) r);
  holds_activate g t now W R d :
    holds g t (d :: W) R → (t <= now)%Z → holds (g_activate g d now) now W (d :: R);
  holds_finalize g t now W R d status code tokens cost :
    holds g t W (d :: R) → (t <= now)%Z →
    holds (g_finalize g d status code tokens cost now) now W R;
  holds_cancel g t W R d : holds g t (d :: W) R → holds (g_cancel g d) t W R;
  holds_guard g t now W R payload r d g' :
    holds g t W R → g_guard g payload r now = Ok (d, g') → holds g' t W R;
  holds_audit g t now W R event payload :
    holds g t W R → holds (g_audit_record g event payload now) t W R;
  holds_later g t now W R : holds g t W R → (t <= now)%Z → holds g now W R;
  holds_limit g t W R k c :
    holds g t W R → key_concurrency (g_config g) k = Some c →
    (Z.of_nat (holders k W + holders k R) <= Z.max 0 c)%Z;
  config_check g r now : g_config (g_check g r now).2 = g_config g;
  config_activate g d now : g_config (g_activate g d now) = g_config g;
  config_finalize g d status code tokens cost now :
    g_config (g_finalize g d status code tokens cost now) = g_config g;
  config_cancel g d : g_config (g_cancel g d) = g_config g;
  config_guard g payload r now d g' :
    g_guard g payload r now = Ok (d, g') → g_config g' = g_config g;
  config_audit g event payload now : g_config (g_audit_record g event payload now) = g_config g
}.

(** ** The manager *)

Record Manager : Type := mkManager {
  mg_state : GovernanceManager;
  mg_doc : GovernanceDoc;
  mg_audit : AuditTrail
}.

Definition with_state (m : Manager) (gm : GovernanceManager) : Manager :=
  mkManager gm (mg_doc m) (mg_audit m).

Section manager.
Context {PT : PyText} {RX : PyRegex} (custom : string → option GuardHandler).

#[local] Instance manager_governance : Governance Manager := {|
  g_config m := gm_config (mg_state m);
  g_guard m payload r now :=
    '(d, a) ← evaluate_guard custom (mg_doc m) (mg_audit m) payload r now;
    Ok (d, mkManager (mg_state m) (mg_doc m) a);
  g_check m r now := let '(d, gm) := check (mg_state m) r now in (d, with_state m gm);
  g_activate m d now := with_state m (gov_activate (mg_state m) d now);
  g_finalize m d status code tokens cost now :=
    with_state m (finalize (mg_state m) d status code tokens cost now);
  g_cancel m d := with_state m (gov_cancel (mg_state m) d);
  g_audit_enabled m := at_enabled (mg_audit m);
  g_audit_record m event payload now :=
    mkManager (mg_state m) (mg_doc m) (audit_record (mg_audit m) event payload now)
|}.

(** ** One tracker *)

(** The tracker of a key with [w] reservations and [n] running requests. *)
Definition key_holds (c : GovernanceConfig) (k : LimitKey) (o : option _LimitState) (t : Z) (w n : nat)
  : Prop :=
  match o with
  | Some st => ∃ s log t', key_settings c k = Some s ∧ (t' <= t)%Z ∧
                 rate_run s (lst_rate st) t' w n log
  | None => w = 0 ∧ n = 0
  end.

Lemma key_holds_later c k o t now w n :
  key_holds c k o t w n → (t <= now)%Z → key_holds c k o now w n.
Proof.
  destruct o as [st|]; [|done]. intros (s & log & t' & Hs & Ht & Hr) Hle.
  exists s, log, t'. split_and!; [done|lia|done].
Qed.

Lemma key_holds_limit c k o t w n l :
  key_holds c k o t w n → key_concurrency c k = Some l → (Z.of_nat (w + n) <= Z.max 0 l)%Z.
Proof.
  unfold key_concurrency. destruct o as [st|]; simpl; [|intros [-> ->] _; lia].
  intros (s & log & t' & Hs & _ & Hr). rewrite Hs. simpl. destruct (ls_enabled s) eqn:He; [|done].
  apply (ri_conc _ _ _ _ _ _ (rate_run_inv _ _ _ _ _ _ He Hr)).
Qed.

Definition state_holds (gm : GovernanceManager) (t : Z) (W R : list GovernanceDecision) : Prop :=
  (∀ k, key_holds (gm_config gm) k (gm_limits gm !! k) t (holders k W) (holders k R)) ∧
  Forall (fun d => gd_allowed d = true ∧ NoDup (gd_limits d)) (W ++ R).

#[local] Instance state_holds_proper gm t : Proper ((≡ₚ) ==> (≡ₚ) ==> iff) (state_holds gm t).
Proof.
  intros W W' HW R R' HR. unfold state_holds. rewrite HW, HR.
  apply and_iff_compat_r, forall_proper. intros k. by rewrite HW, HR.
Qed.

(** ** Loops over the keys of a decision *)

(** An operation that changes the tracker of one key only. *)
Definition updates (f : GovernanceManager → LimitKey → GovernanceManager)
    (upd : _LimitState → _LimitState) : Prop :=
  ∀ gm k k', gm_limits (f gm k) !! k' = (if decide (k' = k) then upd <$> gm_limits gm !! k'
                                          else gm_limits gm !! k') ∧
             gm_config (f gm k) = gm_config gm.

Lemma updates_fold f upd gm keys k :
  updates f upd → NoDup keys →
  gm_limits (foldl f gm keys) !! k =
    (if k ∈? keys then upd <$> gm_limits gm !! k else gm_limits gm !! k) ∧
  gm_config (foldl f gm keys) = gm_config gm.
Proof.
  intros Hu Hnd. revert gm. induction Hnd as [|k0 keys Hk0 Hnd IH]; intros gm; simpl; [done|].
  destruct (IH (f gm k0)) as [E Ec]. destruct (Hu gm k0 k) as [E0 Ec0].
  rewrite E, Ec, Ec0, E0. split; [|done]. unfold inb.
  destruct (decide (k = k0)) as [->|Hne].
  - rewrite bool_decide_false by done. by rewrite bool_decide_true by set_solver.
  - by rewrite (bool_decide_ext (k ∈ k0 :: keys) (k ∈ keys)) by set_solver.
Qed.

Lemma updates_set f upd :
  (∀ gm k, ∃ ms, f gm k = match gm_limits gm !! k with
                          | Some st => emit (set_limit gm k (upd st)) ms
                          | None => gm
                          end) → updates f upd.
Proof.
  intros Hf gm k k'. destruct (Hf gm k) as [ms ->].
  destruct (gm_limits gm !! k) as [st|] eqn:E; simpl.
  - split; [|done]. case_decide as Hk; [subst; by rewrite lookup_insert_eq, E|].
    by rewrite lookup_insert_ne.
  - split; [|done]. case_decide; subst; by rewrite ?E.
Qed.

Definition cancel_state (st : _LimitState) : _LimitState :=
  mkLS (cancel_pending (lst_rate st)) (lst_budget st).

Lemma emit_nil gm : emit gm [] = gm.
Proof. unfold emit. rewrite app_nil_r. by destruct gm. Qed.

Lemma cancel_updates : updates cancel_limit cancel_state.
Proof.
  apply updates_set. intros gm k. exists []. unfold cancel_limit.
  destruct (gm_limits gm !! k); [|done]. by rewrite emit_nil.
Qed.

Lemma activate_updates now :
  updates (activate_limit now) (fun st => mkLS (rate_activate (lst_rate st) now) (lst_budget st)).
Proof.
  apply updates_set. intros gm k. unfold activate_limit. destruct (gm_limits gm !! k); [by eexists|].
  by exists [].
Qed.

Lemma finalize_updates tokens cost now :
  updates (finalize_limit tokens cost now)
    (fun st => mkLS (rate_release (lst_rate st))
                 (budget_snapshot (budget_record (lst_budget st) tokens cost now) now).2).
Proof.
  apply updates_set. intros gm k. unfold finalize_limit. destruct (gm_limits gm !! k) as [st|]; [|by exists []].
  destruct (budget_snapshot _ now). by eexists.
Qed.

Lemma finalize_breakers_limits success timeout now gm keys :
  gm_limits (foldl (finalize_breaker success timeout now) gm keys) = gm_limits gm ∧
  gm_config (foldl (finalize_breaker success timeout now) gm keys) = gm_config gm.
Proof.
  revert gm. induction keys as [|k keys IH]; intros gm; simpl; [done|].
  destruct (IH (finalize_breaker success timeout now gm k)) as [-> ->].
  unfold finalize_breaker. by destruct (gm_breakers gm !! k).
Qed.

(** Moving the tracker of every key of a decision. *)
Lemma state_holds_fold f upd gm t t' d W R W' R' :
  updates f upd → NoDup (gd_limits d) → (t <= t')%Z →
  (∀ k, k ∉ gd_limits d → holders k W' = holders k W ∧ holders k R' = holders k R) →
  (∀ k st, k ∈ gd_limits d →
     key_holds (gm_config gm) k (Some st) t (holders k W) (holders k R) →
     key_holds (gm_config gm) k (Some (upd st)) t' (holders k W') (holders k R')) →
  (∀ k, k ∈ gd_limits d → 0 < holders k W + holders k R) →
  (∀ k, key_holds (gm_config gm) k (gm_limits gm !! k) t (holders k W) (holders k R)) →
  ∀ k, key_holds (gm_config (foldl f gm (gd_limits d))) k (gm_limits (foldl f gm (gd_limits d)) !! k)
         t' (holders k W') (holders k R').
Proof.
  intros Hu Hnd Hle Hout Hin Hpos Hh k.
  destruct (updates_fold f upd gm (gd_limits d) k Hu Hnd) as [-> ->]. specialize (Hh k).
  destruct (k ∈? gd_limits d) eqn:Hk; [apply inb_true in Hk|apply inb_false in Hk].
  - destruct (gm_limits gm !! k) as [st|]; simpl; [by apply Hin|].
    specialize (Hpos k Hk). destruct Hh as [E1 E2]. lia.
  - destruct (Hout k Hk) as [-> ->]. by apply key_holds_later with t.
Qed.

Lemma holders_cons_in k d ds : k ∈ gd_limits d → holders k (d :: ds) = S (holders k ds).
Proof. intros H%inb_true. by rewrite holders_cons, H. Qed.
Lemma holders_cons_out k d ds : k ∉ gd_limits d → holders k (d :: ds) = holders k ds.
Proof. intros H%inb_false. by rewrite holders_cons, H. Qed.

Lemma state_holds_activate gm t now W R d :
  state_holds gm t (d :: W) R → (t <= now)%Z → state_holds (gov_activate gm d now) now W (d :: R).
Proof.
  intros [Hk Hall] Hle. pose proof Hall as [[Hd Hnd] Hrest]%Forall_cons_1.
  unfold gov_activate. rewrite Hd. simpl. split.
  - eapply (state_holds_fold _ _ gm t now d (d :: W) R W (d :: R) (activate_updates now)); try done.
    + intros k Hk'. by rewrite !holders_cons_out.
    + intros k st Hin. rewrite !holders_cons_in by done. intros (s & log & t' & Hs & Ht & Hr).
      exists s, (log ++ [(now, fone)]), now. split_and!; [done|done|].
      apply run_activate with t'; [done|lia].
    + intros k Hin. rewrite holders_cons_in by done. lia.
  - apply Forall_app in Hrest as [HW HR]. apply Forall_app. split; [done|]. by constructor.
Qed.

Lemma state_holds_finalize gm t now W R d status code tokens cost :
  state_holds gm t W (d :: R) → (t <= now)%Z →
  state_holds (finalize gm d status code tokens cost now) now W R.
Proof.
  intros [Hk Hall] Hle. pose proof Hall as [HW [[Hd Hnd] HR]%Forall_cons_1]%Forall_app.
  unfold finalize. rewrite Hd. simpl. split; [|by apply Forall_app].
  intros k. edestruct finalize_breakers_limits as [-> ->]. revert k.
  eapply (state_holds_fold _ _ gm t now d W (d :: R) W R (finalize_updates tokens cost now)); try done.
  - intros k Hk'. by rewrite !holders_cons_out.
  - intros k st Hin. rewrite !holders_cons_in by done. intros (s & log & t' & Hs & Ht & Hr).
    exists s, log, t'. split_and!; [done|lia|]. by apply run_release.
  - intros k Hin. rewrite holders_cons_in by done. lia.
Qed.

Lemma cancel_fold gm t W R d :
  (∀ k, key_holds (gm_config gm) k (gm_limits gm !! k) t (holders k (d :: W)) (holders k R)) →
  NoDup (gd_limits d) →
  ∀ k, key_holds (gm_config (foldl cancel_limit gm (gd_limits d))) k
         (gm_limits (foldl cancel_limit gm (gd_limits d)) !! k) t (holders k W) (holders k R).
Proof.
  intros Hk Hnd.
  eapply (state_holds_fold _ _ gm t t d (d :: W) R W R cancel_updates); try done.
  - intros k Hk'. by rewrite !holders_cons_out.
  - intros k st Hin. rewrite !holders_cons_in by done. intros (s & log & t' & Hs & Ht & Hr).
    exists s, log, t'. split_and!; [done|lia|]. by apply run_cancel.
  - intros k Hin. rewrite holders_cons_in by done. lia.
Qed.

Lemma state_holds_cancel gm t W R d :
  state_holds gm t (d :: W) R → state_holds (gov_cancel gm d) t W R.
Proof.
  intros [Hk Hall]. pose proof Hall as [[Hd Hnd] Hrest]%Forall_cons_1.
  unfold gov_cancel. rewrite Hd. simpl. split; [|done].
  intros k. rewrite release_limits, release_config. by apply cancel_fold.
Qed.

(** ** The reservation loop *)

(** The decision a loop has built so far. *)
Definition so_far (keys : list LimitKey) : GovernanceDecision := mkGD true None None [] keys [].

Lemma key_holds_set gm k st t' W R keys keys' :
  (∀ k', k' ≠ k → (k' ∈ keys' ↔ k' ∈ keys)) →
  key_holds (gm_config gm) k (Some st) t' (holders k (so_far keys' :: W)) (holders k R) →
  (∀ k', key_holds (gm_config gm) k' (gm_limits gm !! k') t' (holders k' (so_far keys :: W)) (holders k' R)) →
  ∀ k', key_holds (gm_config gm) k' (gm_limits (set_limit gm k st) !! k') t'
          (holders k' (so_far keys' :: W)) (holders k' R).
Proof.
  intros Hkeys Hk Hall k'. simpl. destruct (decide (k' = k)) as [->|Hne].
  - by rewrite lookup_insert_eq.
  - rewrite lookup_insert_ne by done. specialize (Hall k'). rewrite holders_cons in *. simpl in *.
    unfold inb in *. by rewrite (bool_decide_ext (k' ∈ keys') (k' ∈ keys)) by (by apply Hkeys).
Qed.

(** What asking a tracker for a reservation gives. *)
Lemma key_holds_reserve c gm k s t w n now ok rate b :
  key_settings c k = Some s → (t <= now)%Z →
  key_holds c k (gm_limits gm !! k) t w n →
  check_and_reserve (lst_rate (_ensure_limit_state gm k s)) now = (ok, rate) →
  key_holds c k (Some (mkLS rate b)) now (if ok then S w else w) n ∧
  (ok = true → key_holds c k (Some (mkLS (cancel_pending rate) b)) now w n).
Proof.
  intros Hs Hle Hk Hc. unfold _ensure_limit_state in Hc.
  assert (∃ s0 log t', key_settings c k = Some s0 ∧ (t' <= now)%Z ∧
    rate_run s0 rate t' (if ok then S w else w) n log) as (s0 & log & t' & Hs0 & Ht & Hr).
  { destruct (gm_limits gm !! k) as [st|] eqn:E; simpl in Hc.
    - destruct Hk as (s0 & log & t' & Hs0 & Ht & Hr). exists s0, log, now. split_and!; [done|lia|].
      destruct ok; [eapply run_reserve|eapply run_refuse]; [exact Hr|lia|exact Hc|exact Hr|lia|exact Hc].
    - destruct Hk as [-> ->]. exists s, [], now. split_and!; [done|lia|].
      destruct ok; [eapply run_reserve|eapply run_refuse]; [apply (run_new s now)|lia|exact Hc|apply (run_new s now)|lia|exact Hc]. }
  split; [by exists s0, log, t'|]. intros ->. exists s0, log, t'. split_and!; [done|done|].
  by apply run_cancel.
Qed.

Lemma reserve_limits_holds gm now handles scopes keys W R res gm' :
  NoDup (keys ++ scopes.*1) →
  Forall (fun ks => key_settings (gm_config gm) ks.1 = Some ks.2) scopes →
  (∀ k, key_holds (gm_config gm) k (gm_limits gm !! k) now (holders k (so_far keys :: W)) (holders k R)) →
  reserve_limits gm now handles scopes keys = (res, gm') →
  gm_config gm' = gm_config gm ∧
  match res with
  | inl d => gd_allowed d = false ∧
      ∀ k, key_holds (gm_config gm) k (gm_limits gm' !! k) now (holders k W) (holders k R)
  | inr keys' => keys' = keys ++ scopes.*1 ∧
      ∀ k, key_holds (gm_config gm) k (gm_limits gm' !! k) now (holders k (so_far keys' :: W)) (holders k R)
  end.
Proof.
  revert gm keys. induction scopes as [|[k s] scopes IH]; intros gm keys Hnd Hsc Hk; simpl.
  { intros [= <- <-]. by rewrite app_nil_r. }
  apply Forall_cons_1 in Hsc as [Hs Hsc]. simpl in Hs, Hnd.
  assert ((k ∉ keys) ∧ NoDup keys) as [Hnk Hndk].
  { apply NoDup_app in Hnd as (Hndk & Hdis & _). split; [|done].
    intros Hin. apply (Hdis k Hin). left. }
  destruct (check_and_reserve _ now) as [ok rate] eqn:Hc.
  assert (holders k (so_far keys :: W) = holders k W) as Eh by by rewrite holders_cons_out.
  pose proof (Hk k) as Hk0. rewrite Eh in Hk0.
  (* giving back what the loop has reserved so far *)
  assert (∀ gm1, gm_config gm1 = gm_config gm →
    (∀ k', key_holds (gm_config gm) k' (gm_limits gm1 !! k') now (holders k' (so_far keys :: W)) (holders k' R)) →
    gm_config (_release_breakers (_rollback_limits gm1 keys) handles) = gm_config gm ∧
    ∀ k', key_holds (gm_config gm) k' (gm_limits (_release_breakers (_rollback_limits gm1 keys) handles) !! k')
            now (holders k' W) (holders k' R)) as Hundo.
  { intros gm1 Ec1 H1. rewrite release_config, release_limits. unfold _rollback_limits.
    assert (gm_config (foldl cancel_limit gm1 keys) = gm_config gm) as Ec2.
    { by destruct (updates_fold _ _ gm1 keys k cancel_updates Hndk) as [_ ->]. }
    split; [done|]. intros k'. rewrite <- Ec2. apply (cancel_fold gm1 now W R (so_far keys)); [|done].
    by rewrite Ec1. }
  destruct ok; simpl.
  - destruct (budget_can_accept _ now) as [[|kind] budget].
    + destruct (key_holds_reserve _ gm k s now _ _ now true rate budget Hs ltac:(lia) Hk0 Hc) as [Hres _].
      intros Hrec. apply (IH (set_limit gm k (mkLS rate budget)) (keys ++ [k])) in Hrec.
      * simpl in Hrec. rewrite <- (assoc_L (++)) in Hrec. exact Hrec.
      * rewrite <- (assoc_L (++)). exact Hnd.
      * exact Hsc.
      * apply (key_holds_set gm k _ now W R keys); [set_solver| |done].
        by rewrite holders_cons_in by (simpl; set_solver).
    + destruct (key_holds_reserve _ gm k s now _ _ now true rate budget Hs ltac:(lia) Hk0 Hc) as [_ Hcan].
      intros [= <- <-]. simpl.
      destruct (Hundo (set_limit gm k (mkLS (cancel_pending rate) budget))) as [Ec Hh]; [done| |done].
      apply (key_holds_set gm k _ now W R keys); [done| |done]. rewrite Eh. by apply Hcan.
  - destruct (key_holds_reserve _ gm k s now _ _ now false rate
                (lst_budget (_ensure_limit_state gm k s)) Hs ltac:(lia) Hk0 Hc) as [Hres _].
    intros [= <- <-]. split; [|split; [done|]]; apply Hundo; try done.
    + apply (key_holds_set gm k _ now W R keys); [done| |done]. by rewrite Eh.
    + apply (key_holds_set gm k _ now W R keys); [done| |done]. by rewrite Eh.
Qed.

(** The breakers are another part of the state. *)
Lemma admit_breakers_frame gm now scopes handles res gm' :
  admit_breakers gm now scopes handles = (res, gm') →
  gm_limits gm' = gm_limits gm ∧ gm_config gm' = gm_config gm ∧
  match res with inl d => gd_allowed d = false | inr _ => True end.
Proof.
  revert gm handles. induction scopes as [|[k s] scopes IH]; intros gm handles; simpl.
  { by intros [= <- <-]. }
  destruct (can_execute _ now) as [d b]. destruct (bd_allowed d).
  - intros H. by apply IH in H.
  - intros [= <- <-]. rewrite release_limits, release_config. done.
Qed.

Lemma limit_scopes_settings gm r :
  Forall (fun ks => key_settings (gm_config gm) ks.1 = Some ks.2) (_limit_scopes gm r).
Proof.
  unfold _limit_scopes, scope_of. destruct (negb _); [constructor|].
  apply Forall_app. split; [|apply Forall_app; split].
  - destruct (given (rq_binding r)) as [b|], (given (rq_policy_arm r)) as [a|]; try constructor.
    destruct (lc_per_policy_arm _ !! (b, a)) eqn:E; repeat constructor. exact E.
  - destruct (given (Some (rq_flow r))) as [f|]; [|constructor].
    destruct (lc_per_flow _ !! f) eqn:E; repeat constructor. exact E.
  - destruct (limit_is_active _); repeat constructor.
Qed.

Lemma limit_scopes_config gm gm' r :
  gm_config gm = gm_config gm' → _limit_scopes gm r = _limit_scopes gm' r.
Proof. intros E. unfold _limit_scopes. by rewrite E. Qed.

Lemma state_holds_check gm t now W R r d gm' :
  state_holds gm t W R → (t <= now)%Z → check gm r now = (d, gm') →
  gm_config gm' = gm_config gm ∧
  state_holds gm' now (if gd_allowed d then d :: W else W) R ∧
  (gd_allowed d = true → gd_limits d = scope_keys (gm_config gm) r).
Proof.
  intros [Hk Hall] Hle.
  assert (∀ gm1 k, gm_limits gm1 = gm_limits gm → gm_config gm1 = gm_config gm →
    key_holds (gm_config gm1) k (gm_limits gm1 !! k) now (holders k W) (holders k R)) as Hlater.
  { intros gm1 k E Ec. rewrite E, Ec. by apply key_holds_later with t. }
  unfold check, scope_keys. destruct (limits_enabled (gm_config gm) || breaker_enabled (gm_config gm)) eqn:He; simpl.
  2: { intros [= <- <-]. apply orb_false_iff in He as [-> _]. simpl. split_and!; [done| |done].
       split; [|constructor; [split; [done|constructor]|done]].
       intros k. rewrite holders_cons_out by (simpl; set_solver). by apply Hlater. }
  destruct (if breaker_enabled (gm_config gm) then _ else _) as [res1 gm1] eqn:E1.
  assert (gm_limits gm1 = gm_limits gm ∧ gm_config gm1 = gm_config gm ∧
          match res1 with inl d => gd_allowed d = false | inr _ => True end) as (El & Ec & Hd1).
  { destruct (breaker_enabled _); [by eapply admit_breakers_frame|]. by simplify_eq. }
  destruct res1 as [d1|handles].
  { intros [= <- <-]. rewrite Hd1. split_and!; [done| |done]. split; [|done].
    intros k. by apply Hlater. }
  destruct (limits_enabled (gm_config gm)).
  - destruct (reserve_limits _ _ _ _ _) as [res2 gm2] eqn:E2. intros Hres.
    eapply (reserve_limits_holds gm1 now handles _ [] W R) in E2 as [Ec2 H2].
    + destruct res2 as [d2|keys]; simplify_eq/=.
      * destruct H2 as [Hd2 Hh]. rewrite Hd2. split_and!; [congruence| |done]. split; [|done].
        by rewrite Ec2.
      * destruct H2 as [-> Hh]. rewrite (limit_scopes_config gm1 (gov_new (gm_config gm)) r Ec) in *.
        split_and!; [congruence| |done]. split; [|constructor; [split; [done|]|done]].
        -- rewrite Ec2. intros k. specialize (Hh k). rewrite holders_cons in *. exact Hh.
        -- apply limit_scopes_nodup.
    + apply limit_scopes_nodup.
    + apply limit_scopes_settings.
    + intros k. rewrite holders_cons_out by (simpl; set_solver). by apply Hlater.
  - intros [= <- <-]. simpl. split_and!; [done| |done]. split.
    + intros k. rewrite holders_cons_out by (simpl; set_solver). by apply Hlater.
    + constructor; [split; [done|constructor]|done].
Qed.

Lemma state_holds_later gm t now W R :
  state_holds gm t W R → (t <= now)%Z → state_holds gm now W R.
Proof. intros [Hk Hall] Hle. split; [|done]. intros k. by apply key_holds_later with t. Qed.

Lemma state_holds_new c t : state_holds (gov_new c) t [] [].
Proof. split; [|constructor]. intros k. done. Qed.

Lemma fold_config {X} (f : GovernanceManager → X → GovernanceManager) gm l :
  (∀ g x, gm_config (f g x) = gm_config g) → gm_config (foldl f gm l) = gm_config gm.
Proof. intros Hf. revert gm. induction l as [|x l IH]; intros gm; simpl; [done|]. by rewrite IH, Hf. Qed.

Lemma reserve_limits_config gm now handles scopes keys :
  gm_config (reserve_limits gm now handles scopes keys).2 = gm_config gm.
Proof.
  revert gm keys. induction scopes as [|[k s] scopes IH]; intros gm keys; simpl; [done|].
  assert (∀ g ks, gm_config (_rollback_limits g ks) = gm_config g) as Hrb.
  { intros g ks. unfold _rollback_limits. apply fold_config. intros g' x. apply (cancel_updates g' x x). }
  destruct (check_and_reserve _ now) as [[] rate]; simpl.
  - destruct (budget_can_accept _ now) as [[|kind] budget]; [by rewrite IH|]. simpl.
    by rewrite release_config, Hrb.
  - by rewrite release_config, Hrb.
Qed.

Lemma check_config gm r now : gm_config (check gm r now).2 = gm_config gm.
Proof.
  unfold check. destruct (negb _); [done|].
  destruct (if breaker_enabled (gm_config gm) then _ else _) as [res1 gm1] eqn:E1.
  assert (gm_config gm1 = gm_config gm) as Ec.
  { destruct (breaker_enabled _); [by apply admit_breakers_frame in E1 as (_ & E & _)|]. by simplify_eq. }
  destruct res1 as [d|handles]; [done|]. destruct (limits_enabled _); [|done].
  pose proof (reserve_limits_config gm1 now handles (_limit_scopes gm1 r) []) as E2.
  destruct (reserve_limits _ _ _ _ _) as [[] gm2]; simpl in *; congruence.
Qed.

(** The manager keeps the discipline. *)
#[local] Program Instance manager_lawful : LawfulGovernance Manager := {|
  holds m := state_holds (mg_state m)
|}.
Next Obligation.
  intros m t now W R r d m' Hh Hle. simpl. destruct (check (mg_state m) r now) as [d0 gm0] eqn:E.
  intros [= <- <-]. by destruct (state_holds_check _ _ _ _ _ _ _ _ Hh Hle E) as (_ & ? & ?).
Qed.
Next Obligation. intros. by apply (state_holds_activate _ t). Qed.
Next Obligation. intros. by apply (state_holds_finalize _ t). Qed.
Next Obligation. intros. by apply state_holds_cancel. Qed.
Next Obligation.
  intros m t now W R payload r d m' Hh. simpl. destruct (evaluate_guard _ _ _ _ _ _) as [[]|]; [|done].
  by intros [= <- <-].
Qed.
Next Obligation. done. Qed.
Next Obligation. intros. by apply (state_holds_later _ t). Qed.
Next Obligation. intros m t W R k c [Hh _]. by apply key_holds_limit with (gm_limits (mg_state m) !! k) t. Qed.
Next Obligation.
  intros m r now. simpl. pose proof (check_config (mg_state m) r now) as E.
  by destruct (check (mg_state m) r now).
Qed.
Next Obligation.
  intros m d now. simpl. unfold gov_activate. destruct (negb _); [done|].
  apply fold_config. intros g x. apply (activate_updates now g x x).
Qed.
Next Obligation.
  intros m d status code tokens cost now. simpl. unfold finalize. destruct (negb _); [done|].
  edestruct finalize_breakers_limits as [_ ->].
  apply fold_config. intros g x. apply (finalize_updates tokens cost now g x x).
Qed.
Next Obligation.
  intros m d. simpl. unfold gov_cancel. destruct (negb _); [done|]. rewrite release_config.
  apply fold_config. intros g x. apply (cancel_updates g x x).
Qed.
Next Obligation.
  intros m payload r now d m'. simpl. destruct (evaluate_guard _ _ _ _ _ _) as [[]|]; [|done].
  by intros [= <- <-].
Qed.
Next Obligation. done. Qed.
End manager.
