(* ===== verification/FlowRuntime.v ===== *)
(** * The flow runtime ([tm/flow/runtime.py])

    [FlowRuntime] admits calls through governance, queues them, runs them on a
    fixed number of worker tasks and answers repeated calls with one
    idempotency key from one run.

    The runtime lives on one event loop: what a coroutine does between two
    suspensions is atomic.  Each such stretch is a function on [world], the
    runtime together with the suspended tasks: calls blocked on a full queue,
    workers inside a run, calls that wait for another call's result.  A call
    is named by a number and its future by the same number.  Clock readings
    and fresh identifiers are arguments. *)

From S2P Require Import Prelude PyVal PyConv Task Guard Hitl GovManager Idempotency FlowDef FlowExec.
From S2P Require Import FlowGov.
From stdpp Require Import base gmap strings list pretty sorting.
From Stdlib Require Import ZArith Lia.

(** ** Results *)

(** The envelope of a call. *)
Record Envelope : Type := mkEnvelope {
  en_status : string;
  en_run_id : string;
  en_queued_ms : pyfloat;
  en_exec_ms : pyfloat;
  en_output : table;
  en_error_code : option string;
  en_error_message : option string;
  en_flow : string;
  en_flow_name : string;
  en_flow_id : string;
  en_flow_rev : string
}.

(** A new dictionary with the same fields and a copy of the output. *)
Definition _clone_result (e : Envelope) : Envelope :=
  mkEnvelope (en_status e) (en_run_id e) (en_queued_ms e) (en_exec_ms e) (en_output e)
    (en_error_code e) (en_error_message e) (en_flow e) (en_flow_name e) (en_flow_id e) (en_flow_rev e).

Record FlowRunRecord : Type := mkRunRecord {
  rr_flow : string;
  rr_flow_id : string;
  rr_flow_rev : string;
  rr_run_id : string;
  rr_selected_flow : string;
  rr_binding : option string;
  rr_status : string;
  rr_outcome : option string;
  rr_queued_ms : pyfloat;
  rr_exec_ms : pyfloat;
  rr_duration_ms : pyfloat;
  rr_start_ts : Z;
  rr_end_ts : Z;
  rr_cost_usd : option pyfloat;
  rr_user_rating : option pyfloat;
  rr_meta : table
}.

(** The calls on the metrics recorder. *)
Inductive RecorderEvent : Type :=
| FlowStarted (flow : string) (model : option string)
| FlowFinished (flow : string) (model : option string) (status : string)
| GuardBlock (rule flow : string).

(** ** Reading values out of outputs *)

Definition _extract_str (source : json) (key : string) : option string :=
  match source with
  | JObj m => match jget key m with JStr s => Some s | _ => None end
  | _ => None
  end.

Definition _extract_binding (ctx : table) : option string := _extract_str (JObj ctx) "binding".

Definition _extract_selected_flow (r : Request) : string :=
  default (fr_flow_name r) (_extract_str (JObj (fr_ctx r)) "selected_flow").

Definition _extract_operation (ctx : table) : option string :=
  match jor (jget "operation" ctx) (jget "op" ctx) with JStr s => Some s | _ => None end.

Definition _build_request_descriptor (r : Request) : RequestDescriptor :=
  let binding := _extract_binding (fr_ctx r) in
  mkReq (fr_flow_name r) binding
    (match given binding with Some _ => Some (_extract_selected_flow r) | None => None end).

Section values.
Context {PT : PyText}.

Definition _extract_float (source : json) (key : string) : res (option pyfloat) :=
  match source with
  | JObj m =>
      match jget key m with
      | JInt _ | JFloat _ | JBool _ => Some <$> py_float (jget key m)
      | _ => Ok None
      end
  | _ => Ok None
  end.

(** Only [TypeError] and [ValueError] are caught. *)
Definition _coerce_float (v : json) : res (option pyfloat) :=
  match v with
  | JNull => Ok None
  | _ =>
      match py_float v with
      | Ok f => Ok (Some f)
      | Raise (TypeError _) | Raise (ValueError _) => Ok None
      | Raise e => Raise e
      end
  end.

Definition _extract_usage_from_mapping (m : table) : res (option pyfloat * option pyfloat) :=
  tokens ← _coerce_float (jor (jget "total_tokens" m) (jget "tokens" m));
  cost ← _coerce_float (jor (jget "cost_usd" m) (jget "usd_cost" m));
  match jget "usage" m with
  | JObj usage =>
      total ← _coerce_float (jget "total_tokens" usage);
      total ← (match total with
               | Some _ => Ok total
               | None =>
                   prompt ← _coerce_float (jget "prompt_tokens" usage);
                   completion ← _coerce_float (jget "completion_tokens" usage);
                   match prompt, completion with
                   | None, None => Ok None
                   | _, _ => Ok (Some (fadd (default fzero prompt) (default fzero completion)))
                   end
               end);
      cost_value ← _coerce_float (jor (jget "cost_usd" usage) (jget "usd" usage));
      Ok (match tokens with Some _ => tokens | None => total end,
          match cost with Some _ => cost | None => cost_value end)
  | _ => Ok (tokens, cost)
  end.

Definition _extract_usage (output : table) : res (option pyfloat * option pyfloat) :=
  '(tokens, cost) ← _extract_usage_from_mapping output;
  match tokens, cost, jget "state" output with
  | Some _, Some _, _ => Ok (tokens, cost)
  | _, _, JObj state =>
      '(state_tokens, state_cost) ← _extract_usage_from_mapping state;
      Ok (match tokens with Some _ => tokens | None => state_tokens end,
          match cost with Some _ => cost | None => state_cost end)
  | _, _, _ => Ok (tokens, cost)
  end.

(** [{k: v for k, v in meta.items() if v is not None}]. *)
Definition present (kvs : list (string * option json)) : table :=
  omap (fun kv => (fun v => (kv.1, v)) <$> kv.2) kvs.

Definition _build_run_record (r : Request) (status : string) (output : table)
    (queued_ms exec_ms : pyfloat) (run_start_ts run_end_ts : Z)
    (error_code error_message : option string) : res FlowRunRecord :=
  let state := jget "state" output in
  let outcome :=
    match _extract_str (JObj output) "status" with
    | Some s => Some s
    | None =>
        match given (_extract_str state "outcome") with
        | Some s => Some s
        | None => _extract_str state "status"
        end
    end in
  cost ← _extract_float (JObj output) "cost_usd";
  rating ← _extract_float (JObj output) "user_rating";
  cost ← (match cost with Some _ => Ok cost | None => _extract_float state "cost_usd" end);
  rating ← (match rating with Some _ => Ok rating | None => _extract_float state "user_rating" end);
  Ok (mkRunRecord (fr_flow_name r) (fr_flow_id r) (fr_flow_rev r) (fr_run_id r)
        (_extract_selected_flow r) (_extract_binding (fr_ctx r)) status outcome queued_ms exec_ms
        (fmax fzero (Fin ((run_end_ts - run_start_ts) * 1000))) run_start_ts run_end_ts cost rating
        (present [("model", JStr <$> _extract_str (JObj (fr_ctx r)) "model");
                  ("operation", JStr <$> _extract_operation (fr_ctx r));
                  ("error_code", JStr <$> error_code); ("error_message", JStr <$> error_message);
                  ("policy_arm", Some (JStr (_extract_selected_flow r)));
                  ("inputs_size", Some (JInt (Z.of_nat (length (fr_inputs r)))))])).
End values.

(** ** Statistics *)

Record Stats : Type := mkStats {
  st_queue_depth_peak : nat;
  st_queue_depth_current : nat;
  st_active_peak : Z;
  st_rejected : nat;
  st_rejected_reason : gmap string nat;
  st_queued_ms : list pyfloat;
  st_exec_ms : list pyfloat;
  st_success : nat;
  st_error : nat
}.

Definition stats_new : Stats :=
  mkStats 0 0 0 0 (<["QUEUE_FULL" := 0]> (<["QUEUE_TIMEOUT" := 0]> ∅)) [] [] 0 0.

Definition count_rejected (reason : string) (s : Stats) : Stats :=
  mkStats (st_queue_depth_peak s) (st_queue_depth_current s) (st_active_peak s)
    (S (st_rejected s))
    (<[reason := S (default 0 (st_rejected_reason s !! reason))]> (st_rejected_reason s))
    (st_queued_ms s) (st_exec_ms s) (st_success s) (st_error s).

Definition count_depth (depth : nat) (s : Stats) : Stats :=
  mkStats (Nat.max (st_queue_depth_peak s) depth) depth (st_active_peak s) (st_rejected s)
    (st_rejected_reason s) (st_queued_ms s) (st_exec_ms s) (st_success s) (st_error s).

Definition count_taken (queued_ms : pyfloat) (active : Z) (s : Stats) : Stats :=
  mkStats (st_queue_depth_peak s) (st_queue_depth_current s) (Z.max (st_active_peak s) active)
    (st_rejected s) (st_rejected_reason s) (st_queued_ms s ++ [queued_ms]) (st_exec_ms s)
    (st_success s) (st_error s).

(** The counters of a finished run; approvals and guard blocks inside a run
    count neither as success nor as error. *)
Definition count_finished (exec_ms : pyfloat) (success error : nat) (s : Stats) : Stats :=
  mkStats (st_queue_depth_peak s) (st_queue_depth_current s) (st_active_peak s) (st_rejected s)
    (st_rejected_reason s) (st_queued_ms s) (st_exec_ms s ++ [exec_ms])
    (st_success s + success) (st_error s + error).

(** [int(round(n / d))] for a non-negative quotient: ties go to the even
    number. *)
Definition round_half_even (n d : nat) : nat :=
  let q := n / d in
  let twice := 2 * (n mod d) in
  if twice <? d then q else if d <? twice then S q else if Nat.even q then q else S q.

Definition float_le (a b : pyfloat) : Prop := fge b a = true.
#[export] Instance float_le_dec : RelDecision float_le.
Proof. intros a b. unfold float_le. apply _. Defined.

(** [percentile] of [get_stats]: nearest rank on the sorted data. *)
Definition percentile (data : list pyfloat) (pct : nat) : pyfloat :=
  match data with
  | [] => fzero
  | _ => default fzero (merge_sort float_le data !! round_half_even (pct * (length data - 1)) 100)
  end.

(** The dictionary [get_stats] returns. *)
Record StatsView : Type := mkStatsView {
  sv_queue_depth_peak : nat;
  sv_queue_depth_current : nat;
  sv_active_peak : Z;
  sv_rejected : nat;
  sv_rejected_reason : gmap string nat;
  sv_success : nat;
  sv_error : nat;
  sv_queued_ms : pyfloat * pyfloat * pyfloat;
  sv_exec_ms : pyfloat * pyfloat * pyfloat
}.

Definition get_stats (s : Stats) : StatsView :=
  let p data := (percentile data 50, percentile data 95, percentile data 99) in
  mkStatsView (st_queue_depth_peak s) (st_queue_depth_current s) (st_active_peak s) (st_rejected s)
    (st_rejected_reason s) (st_success s) (st_error s) (p (st_queued_ms s)) (p (st_exec_ms s)).

(** ** The runtime object *)

Record RuntimeConfig : Type := mkRuntimeConfig {
  rc_policies : FlowPolicies;
  rc_max_concurrency : nat;
  rc_queue_capacity : nat;
  rc_queue_wait_timeout : pyfloat;
  rc_idempotency_ttl : pyfloat;
  rc_idempotency_cache_size : nat
}.

(** The bounds of [__init__] on its arguments. *)
Definition runtime_config (policies : FlowPolicies) (max_concurrency queue_capacity : Z)
    (queue_wait_timeout_ms : Z) (idempotency_ttl_sec : pyfloat) (idempotency_cache_size : Z)
  : RuntimeConfig :=
  mkRuntimeConfig policies (Z.to_nat (Z.max 1 max_concurrency)) (Z.to_nat (Z.max 0 queue_capacity))
    (fmax fzero (Fin (queue_wait_timeout_ms * 1000))) (fmax fzero idempotency_ttl_sec)
    (Z.to_nat (Z.max 0 idempotency_cache_size)).

(** The cached results, oldest first. *)
Abbreviation result_cache := (list (string * (pyfloat * Envelope))) (only parsing).

(** A worker inside [_run_flow]: not yet in its deferred wait, or polling for
    a signal until the deadline. *)
Inductive phase : Type :=
| Starting
| Polling (token req_id : string) (deadline : pyfloat).

Record Run : Type := mkRun {
  ru_request : Request;
  ru_queued_ms : pyfloat;
  ru_exec_start : Z;
  ru_run_start : Z;
  ru_phase : phase
}.

Section runtime.
Context {G : Type} `{Governance G} {FH : FlowHash} {PT : PyText}.

(** The object's fields, then the tasks of the event loop:
    - [w_workers]: how many worker tasks the object has started, [w_gone]: how
      many of them have ended;
    - [w_putting]: calls suspended in [queue.put]; [w_running]: workers
      suspended in a run; [w_followers]: calls that wait for the future of
      another call;
    - [w_lost]: requests whose worker died before it released them;
      [w_abandoned]: futures that no task will complete;
    - [w_answers]: how calls returned; [w_next]: the number of the next call;
    - [w_closing]: the sentinels [aclose] has yet to queue;
    - [w_clock]: the last reading of the governance clock. *)
Record world : Type := mkWorld {
  w_flows : gmap string FlowSpec;
  w_hub : CorrelationHub;
  w_sink : option (list TraceSpan);
  w_sink_closed : bool;
  w_gov : G;
  w_recorder : list RecorderEvent;
  w_listeners : nat;
  w_notified : list FlowRunRecord;
  w_queue : list (option Request);
  w_started : bool;
  w_active : Z;
  w_stats : Stats;
  w_inflight : gmap string nat;
  w_cache : result_cache;
  w_workers : nat;
  w_gone : nat;
  w_putting : list Request;
  w_running : list Run;
  w_followers : list (nat * nat);
  w_lost : list Request;
  w_abandoned : list nat;
  w_answers : list (nat * (Envelope + exn));
  w_next : nat;
  w_closing : option nat;
  w_clock : Z
}.

Definition runtime_new (gov : G) (sink : bool) (listeners : nat) (clock : Z) : world :=
  mkWorld ∅ hub_new (if sink then Some [] else None) false gov [] listeners [] [] false 0 stats_new
    ∅ [] 0 0 [] [] [] [] [] [] 0 None clock.

(** Assignments to one field. *)
Definition set_flows (v : gmap string FlowSpec) (w : world) : world :=
    mkWorld v (w_hub w) (w_sink w) (w_sink_closed w) (w_gov w) (w_recorder w) (w_listeners w)
    (w_notified w) (w_queue w) (w_started w) (w_active w) (w_stats w) (w_inflight w) (w_cache w)
    (w_workers w) (w_gone w) (w_putting w) (w_running w) (w_followers w) (w_lost w) (w_abandoned
    w) (w_answers w) (w_next w) (w_closing w) (w_clock w).
Definition set_hub (v : CorrelationHub) (w : world) : world :=
    mkWorld (w_flows w) v (w_sink w) (w_sink_closed w) (w_gov w) (w_recorder w) (w_listeners w)
    (w_notified w) (w_queue w) (w_started w) (w_active w) (w_stats w) (w_inflight w) (w_cache w)
    (w_workers w) (w_gone w) (w_putting w) (w_running w) (w_followers w) (w_lost w) (w_abandoned
    w) (w_answers w) (w_next w) (w_closing w) (w_clock w).
Definition set_sink (v : option (list TraceSpan)) (w : world) : world :=
    mkWorld (w_flows w) (w_hub w) v (w_sink_closed w) (w_gov w) (w_recorder w) (w_listeners w)
    (w_notified w) (w_queue w) (w_started w) (w_active w) (w_stats w) (w_inflight w) (w_cache w)
    (w_workers w) (w_gone w) (w_putting w) (w_running w) (w_followers w) (w_lost w) (w_abandoned
    w) (w_answers w) (w_next w) (w_closing w) (w_clock w).
Definition set_sink_closed (v : bool) (w : world) : world :=
    mkWorld (w_flows w) (w_hub w) (w_sink w) v (w_gov w) (w_recorder w) (w_listeners w)
    (w_notified w) (w_queue w) (w_started w) (w_active w) (w_stats w) (w_inflight w) (w_cache w)
    (w_workers w) (w_gone w) (w_putting w) (w_running w) (w_followers w) (w_lost w) (w_abandoned
    w) (w_answers w) (w_next w) (w_closing w) (w_clock w).
Definition set_gov (v : G) (w : world) : world :=
    mkWorld (w_flows w) (w_hub w) (w_sink w) (w_sink_closed w) v (w_recorder w) (w_listeners w)
    (w_notified w) (w_queue w) (w_started w) (w_active w) (w_stats w) (w_inflight w) (w_cache w)
    (w_workers w) (w_gone w) (w_putting w) (w_running w) (w_followers w) (w_lost w) (w_abandoned
    w) (w_answers w) (w_next w) (w_closing w) (w_clock w).
Definition set_recorder (v : list RecorderEvent) (w : world) : world :=
    mkWorld (w_flows w) (w_hub w) (w_sink w) (w_sink_closed w) (w_gov w) v (w_listeners w)
    (w_notified w) (w_queue w) (w_started w) (w_active w) (w_stats w) (w_inflight w) (w_cache w)
    (w_workers w) (w_gone w) (w_putting w) (w_running w) (w_followers w) (w_lost w) (w_abandoned
    w) (w_answers w) (w_next w) (w_closing w) (w_clock w).
Definition set_listeners (v : nat) (w : world) : world :=
    mkWorld (w_flows w) (w_hub w) (w_sink w) (w_sink_closed w) (w_gov w) (w_recorder w) v
    (w_notified w) (w_queue w) (w_started w) (w_active w) (w_stats w) (w_inflight w) (w_cache w)
    (w_workers w) (w_gone w) (w_putting w) (w_running w) (w_followers w) (w_lost w) (w_abandoned
    w) (w_answers w) (w_next w) (w_closing w) (w_clock w).
Definition set_notified (v : list FlowRunRecord) (w : world) : world :=
    mkWorld (w_flows w) (w_hub w) (w_sink w) (w_sink_closed w) (w_gov w) (w_recorder w)
    (w_listeners w) v (w_queue w) (w_started w) (w_active w) (w_stats w) (w_inflight w) (w_cache
    w) (w_workers w) (w_gone w) (w_putting w) (w_running w) (w_followers w) (w_lost w)
    (w_abandoned w) (w_answers w) (w_next w) (w_closing w) (w_clock w).
Definition set_queue (v : list (option Request)) (w : world) : world :=
    mkWorld (w_flows w) (w_hub w) (w_sink w) (w_sink_closed w) (w_gov w) (w_recorder w)
    (w_listeners w) (w_notified w) v (w_started w) (w_active w) (w_stats w) (w_inflight w)
    (w_cache w) (w_workers w) (w_gone w) (w_putting w) (w_running w) (w_followers w) (w_lost w)
    (w_abandoned w) (w_answers w) (w_next w) (w_closing w) (w_clock w).
Definition set_started (v : bool) (w : world) : world :=
    mkWorld (w_flows w) (w_hub w) (w_sink w) (w_sink_closed w) (w_gov w) (w_recorder w)
    (w_listeners w) (w_notified w) (w_queue w) v (w_active w) (w_stats w) (w_inflight w)
    (w_cache w) (w_workers w) (w_gone w) (w_putting w) (w_running w) (w_followers w) (w_lost w)
    (w_abandoned w) (w_answers w) (w_next w) (w_closing w) (w_clock w).
Definition set_active (v : Z) (w : world) : world :=
    mkWorld (w_flows w) (w_hub w) (w_sink w) (w_sink_closed w) (w_gov w) (w_recorder w)
    (w_listeners w) (w_notified w) (w_queue w) (w_started w) v (w_stats w) (w_inflight w)
    (w_cache w) (w_workers w) (w_gone w) (w_putting w) (w_running w) (w_followers w) (w_lost w)
    (w_abandoned w) (w_answers w) (w_next w) (w_closing w) (w_clock w).
Definition set_stats (v : Stats) (w : world) : world :=
    mkWorld (w_flows w) (w_hub w) (w_sink w) (w_sink_closed w) (w_gov w) (w_recorder w)
    (w_listeners w) (w_notified w) (w_queue w) (w_started w) (w_active w) v (w_inflight w)
    (w_cache w) (w_workers w) (w_gone w) (w_putting w) (w_running w) (w_followers w) (w_lost w)
    (w_abandoned w) (w_answers w) (w_next w) (w_closing w) (w_clock w).
Definition set_inflight (v : gmap string nat) (w : world) : world :=
    mkWorld (w_flows w) (w_hub w) (w_sink w) (w_sink_closed w) (w_gov w) (w_recorder w)
    (w_listeners w) (w_notified w) (w_queue w) (w_started w) (w_active w) (w_stats w) v (w_cache
    w) (w_workers w) (w_gone w) (w_putting w) (w_running w) (w_followers w) (w_lost w)
    (w_abandoned w) (w_answers w) (w_next w) (w_closing w) (w_clock w).
Definition set_cache (v : result_cache) (w : world) : world :=
    mkWorld (w_flows w) (w_hub w) (w_sink w) (w_sink_closed w) (w_gov w) (w_recorder w)
    (w_listeners w) (w_notified w) (w_queue w) (w_started w) (w_active w) (w_stats w)
    (w_inflight w) v (w_workers w) (w_gone w) (w_putting w) (w_running w) (w_followers w)
    (w_lost w) (w_abandoned w) (w_answers w) (w_next w) (w_closing w) (w_clock w).
Definition set_workers (v : nat) (w : world) : world :=
    mkWorld (w_flows w) (w_hub w) (w_sink w) (w_sink_closed w) (w_gov w) (w_recorder w)
    (w_listeners w) (w_notified w) (w_queue w) (w_started w) (w_active w) (w_stats w)
    (w_inflight w) (w_cache w) v (w_gone w) (w_putting w) (w_running w) (w_followers w) (w_lost
    w) (w_abandoned w) (w_answers w) (w_next w) (w_closing w) (w_clock w).
Definition set_gone (v : nat) (w : world) : world :=
    mkWorld (w_flows w) (w_hub w) (w_sink w) (w_sink_closed w) (w_gov w) (w_recorder w)
    (w_listeners w) (w_notified w) (w_queue w) (w_started w) (w_active w) (w_stats w)
    (w_inflight w) (w_cache w) (w_workers w) v (w_putting w) (w_running w) (w_followers w)
    (w_lost w) (w_abandoned w) (w_answers w) (w_next w) (w_closing w) (w_clock w).
Definition set_putting (v : list Request) (w : world) : world :=
    mkWorld (w_flows w) (w_hub w) (w_sink w) (w_sink_closed w) (w_gov w) (w_recorder w)
    (w_listeners w) (w_notified w) (w_queue w) (w_started w) (w_active w) (w_stats w)
    (w_inflight w) (w_cache w) (w_workers w) (w_gone w) v (w_running w) (w_followers w) (w_lost
    w) (w_abandoned w) (w_answers w) (w_next w) (w_closing w) (w_clock w).
Definition set_running (v : list Run) (w : world) : world :=
    mkWorld (w_flows w) (w_hub w) (w_sink w) (w_sink_closed w) (w_gov w) (w_recorder w)
    (w_listeners w) (w_notified w) (w_queue w) (w_started w) (w_active w) (w_stats w)
    (w_inflight w) (w_cache w) (w_workers w) (w_gone w) (w_putting w) v (w_followers w) (w_lost
    w) (w_abandoned w) (w_answers w) (w_next w) (w_closing w) (w_clock w).
Definition set_followers (v : list (nat * nat)) (w : world) : world :=
    mkWorld (w_flows w) (w_hub w) (w_sink w) (w_sink_closed w) (w_gov w) (w_recorder w)
    (w_listeners w) (w_notified w) (w_queue w) (w_started w) (w_active w) (w_stats w)
    (w_inflight w) (w_cache w) (w_workers w) (w_gone w) (w_putting w) (w_running w) v (w_lost w)
    (w_abandoned w) (w_answers w) (w_next w) (w_closing w) (w_clock w).
Definition set_lost (v : list Request) (w : world) : world :=
    mkWorld (w_flows w) (w_hub w) (w_sink w) (w_sink_closed w) (w_gov w) (w_recorder w)
    (w_listeners w) (w_notified w) (w_queue w) (w_started w) (w_active w) (w_stats w)
    (w_inflight w) (w_cache w) (w_workers w) (w_gone w) (w_putting w) (w_running w) (w_followers
    w) v (w_abandoned w) (w_answers w) (w_next w) (w_closing w) (w_clock w).
Definition set_abandoned (v : list nat) (w : world) : world :=
    mkWorld (w_flows w) (w_hub w) (w_sink w) (w_sink_closed w) (w_gov w) (w_recorder w)
    (w_listeners w) (w_notified w) (w_queue w) (w_started w) (w_active w) (w_stats w)
    (w_inflight w) (w_cache w) (w_workers w) (w_gone w) (w_putting w) (w_running w) (w_followers
    w) (w_lost w) v (w_answers w) (w_next w) (w_closing w) (w_clock w).
Definition set_answers (v : list (nat * (Envelope + exn))) (w : world) : world :=
    mkWorld (w_flows w) (w_hub w) (w_sink w) (w_sink_closed w) (w_gov w) (w_recorder w)
    (w_listeners w) (w_notified w) (w_queue w) (w_started w) (w_active w) (w_stats w)
    (w_inflight w) (w_cache w) (w_workers w) (w_gone w) (w_putting w) (w_running w) (w_followers
    w) (w_lost w) (w_abandoned w) v (w_next w) (w_closing w) (w_clock w).
Definition set_next (v : nat) (w : world) : world :=
    mkWorld (w_flows w) (w_hub w) (w_sink w) (w_sink_closed w) (w_gov w) (w_recorder w)
    (w_listeners w) (w_notified w) (w_queue w) (w_started w) (w_active w) (w_stats w)
    (w_inflight w) (w_cache w) (w_workers w) (w_gone w) (w_putting w) (w_running w) (w_followers
    w) (w_lost w) (w_abandoned w) (w_answers w) v (w_closing w) (w_clock w).
Definition set_closing (v : option nat) (w : world) : world :=
    mkWorld (w_flows w) (w_hub w) (w_sink w) (w_sink_closed w) (w_gov w) (w_recorder w)
    (w_listeners w) (w_notified w) (w_queue w) (w_started w) (w_active w) (w_stats w)
    (w_inflight w) (w_cache w) (w_workers w) (w_gone w) (w_putting w) (w_running w) (w_followers
    w) (w_lost w) (w_abandoned w) (w_answers w) (w_next w) v (w_clock w).
Definition set_clock (v : Z) (w : world) : world :=
    mkWorld (w_flows w) (w_hub w) (w_sink w) (w_sink_closed w) (w_gov w) (w_recorder w)
    (w_listeners w) (w_notified w) (w_queue w) (w_started w) (w_active w) (w_stats w)
    (w_inflight w) (w_cache w) (w_workers w) (w_gone w) (w_putting w) (w_running w) (w_followers
    w) (w_lost w) (w_abandoned w) (w_answers w) (w_next w) (w_closing w) v.
End runtime.
