(* ===== verification/FlowTasks.v ===== *)
(** * Calls, workers and shutdown of the flow runtime ([tm/flow/runtime.py])

    The atomic stretches of [execute], [_enqueue], [_worker], [_run_flow] and
    [aclose], and the relation [rstep] that interleaves them. *)

From S2P Require Import Prelude PyVal PyConv Task Guard Hitl GovManager Idempotency GovConfig FlowDef.
From S2P Require Import FlowExec FlowGov FlowRuntime.
From stdpp Require Import base gmap strings list pretty.
From Stdlib Require Import ZArith Lia.

(** The readings and identifiers a stretch may draw: a fresh run id, the
    performance counter at two points, the monotonic clock of the result
    cache, the clock of the governance manager and the wall clock. *)
Record Readings : Type := mkReadings {
  rd_uuid : string;
  rd_perf : Z;
  rd_perf2 : Z;
  rd_mono : Z;
  rd_gov : Z;
  rd_wall : Z
}.

(** The key a call is deduplicated by: a non-empty string. *)
Definition idem_key (ctx : table) : option string := given (_extract_str (JObj ctx) "idempotency_key").

Section tasks.
Context {G : Type} `{Governance G} {FH : FlowHash} {PT : PyText}.
Context (cfg : RuntimeConfig).
Abbreviation world := (world (G := G)) (only parsing).

(** ** The result cache *)

Definition cache_off : bool :=
  fge fzero (rc_idempotency_ttl cfg) || (rc_idempotency_cache_size cfg =? 0).

Definition _maybe_cache_result (key : string) (result : Envelope) (mono : Z) (c : result_cache)
  : result_cache :=
  if cache_off || negb (String.eqb (en_status result) "ok") then c
  else
    let c1 := move_to_end key (fadd (Fin mono) (rc_idempotency_ttl cfg), _clone_result result) c in
    drop (length c1 - rc_idempotency_cache_size cfg) c1.

Definition _get_cached_result (key : string) (mono : Z) (c : result_cache)
  : option Envelope * result_cache :=
  if cache_off then (None, c)
  else
    match alookup key c with
    | None => (None, c)
    | Some (expires, value) =>
        if flt expires (Fin mono) then (None, dict_pop key c)
        else (Some (_clone_result value), move_to_end key (expires, value) c)
    end.

(** ** Small pieces of the object's state *)

Definition _record_queue_depth (w : world) : world :=
  set_stats (count_depth (length (w_queue w)) (w_stats w)) w.

Definition record_events (es : list RecorderEvent) (w : world) : world :=
  set_recorder (w_recorder w ++ es) w.

(** [self._inflight.pop(idem_key, None)]. *)
Definition pop_inflight (key : option string) (w : world) : world :=
  match key with Some k => set_inflight (delete k (w_inflight w)) w | None => w end.

(** The call returns or raises. *)
Definition answer (call : nat) (a : Envelope + exn) (w : world) : world :=
  set_answers (w_answers w ++ [(call, a)]) w.

(** A future others may wait for and no task will complete. *)
Definition abandon (future : nat) (w : world) : world :=
  set_abandoned (w_abandoned w ++ [future]) w.

Definition with_decision (r : Request) (d : GovernanceDecision) (desc : RequestDescriptor) : Request :=
  mkRequest (fr_run_id r) (fr_flow_name r) (fr_flow_id r) (fr_flow_rev r) (fr_spec r) (fr_inputs r)
    (fr_response_mode r) (fr_ctx r) (fr_model_name r) (fr_future r) (fr_enqueue_ts r)
    (Some d) (Some desc).

Definition with_enqueue_ts (r : Request) (ts : Z) : Request :=
  mkRequest (fr_run_id r) (fr_flow_name r) (fr_flow_id r) (fr_flow_rev r) (fr_spec r) (fr_inputs r)
    (fr_response_mode r) (fr_ctx r) (fr_model_name r) (fr_future r) ts (fr_decision r) (fr_descriptor r).

(** The envelope of a call that was not run. *)
Definition refusal (r : Request) (status : string) (output : table) (code : option string)
    (message : string) : Envelope :=
  mkEnvelope status (fr_run_id r) fzero fzero output code (Some message)
    (fs_name (fr_spec r)) (fs_name (fr_spec r)) (fs_flow_id (fr_spec r)) (fr_flow_rev r).

(** ** The queue *)

(** [_ensure_workers]. *)
Definition _ensure_workers (w : world) : world :=
  if w_started w then w
  else set_started true (set_workers (w_workers w + rc_max_concurrency cfg) w).

(** [asyncio.Queue(maxsize=capacity)]: a queue of capacity 0 is unbounded. *)
Definition queue_full (w : world) : bool :=
  negb (rc_queue_capacity cfg =? 0) && (rc_queue_capacity cfg <=? length (w_queue w)).

Definition put_request (r : Request) (w : world) : world :=
  _record_queue_depth (set_queue (w_queue w ++ [Some r]) w).

(** The branch of [execute] for a request [_enqueue] did not take. *)
Definition not_accepted (r : Request) (code : string) (w : world) : world :=
  let w := set_stats (count_rejected code (w_stats w)) w in
  let w := record_events [FlowFinished (fs_name (fr_spec r)) (fr_model_name r) "rejected"] w in
  let w := match fr_decision r with Some d => set_gov (g_cancel (w_gov w) d) w | None => w end in
  let w := pop_inflight (idem_key (fr_ctx r)) w in
  answer (fr_future r) (inl (refusal r "rejected" [] (Some code) "request rejected")) w.

(** [_enqueue], up to its suspension when it waits for room. *)
Definition _enqueue (r : Request) (put_started : Z) (w : world) : world :=
  let w := _ensure_workers w in
  let r := with_enqueue_ts r put_started in
  if (rc_queue_capacity cfg =? 0)%nat then put_request r w
  else if negb (flt fzero (rc_queue_wait_timeout cfg)) then
    if queue_full w then not_accepted r "QUEUE_FULL" w else put_request r w
  else set_putting (w_putting w ++ [r]) w.

(** ** [execute] *)

Definition guard_meta (d : GuardDecision) (desc : RequestDescriptor) : table :=
  dict_setdefault "scope" (JStr (rq_flow desc))
    (match gu_first d with Some v => violation_dict v | None => [("reason", JStr "blocked")] end).

Definition reject_meta (d : GovernanceDecision) : table :=
  let meta := (fun kv => (kv.1, JStr kv.2)) <$> gd_meta d in
  match given (gd_scope d) with Some s => dict_setdefault "scope" (JStr s) meta | None => meta end.

(** The two governance gates, then the queue. *)
Definition pass_gates (r : Request) (rd : Readings) (w : world) : world :=
  let key := idem_key (fr_ctx r) in
  let name := fs_name (fr_spec r) in
  let desc := _build_request_descriptor r in
  match g_guard (w_gov w) (JObj (fr_inputs r)) desc (rd_wall rd) with
  | Raise e => answer (fr_future r) (inr e) (abandon (fr_future r) w)
  | Ok (gd, g1) =>
      let w := set_gov g1 w in
      if negb (gu_allowed gd) then
        let w := set_stats (count_rejected "GUARD_BLOCKED" (w_stats w)) w in
        let w := record_events
                   ((match gu_first gd with Some v => [GuardBlock (gv_rule v) name] | None => [] end) ++
                    [FlowFinished name (fr_model_name r) "rejected"]) w in
        answer (fr_future r)
          (inl (refusal r "error" [("meta", JObj (guard_meta gd desc))] (Some "GUARD_BLOCKED")
                  "request blocked by guard"))
          (pop_inflight key w)
      else
        let '(d, g2) := g_check (w_gov w) desc (rd_gov rd) in
        let w := set_clock (rd_gov rd) (set_gov g2 w) in
        if negb (gd_allowed d) then
          let w := set_stats (count_rejected (default "GOVERNANCE_REJECTED" (given (gd_error_code d)))
                                (w_stats w)) w in
          let w := record_events [FlowFinished name (fr_model_name r) "rejected"] w in
          answer (fr_future r)
            (inl (refusal r "rejected" [("meta", JObj (reject_meta d))] (gd_error_code d)
                    "request rejected by governance"))
            (pop_inflight key w)
        else _enqueue (with_decision r d desc) (rd_perf2 rd) w
  end.

Definition build_request (call : nat) (name : string) (s : FlowSpec) (rev : string)
    (inputs ctx : table) (mode : option ResponseMode) (rd : Readings) : Request :=
  mkRequest (match jget "run_id" ctx with JStr i => i | _ => rd_uuid rd end) name
    (default (fs_name s) (given (Some (fs_flow_id s)))) rev s inputs
    (default (fp_response_mode (rc_policies cfg)) mode) ctx
    (match jor (jget "model" inputs) (jget "model" ctx) with JStr m => Some m | _ => None end)
    call (rd_perf rd) None None.

(** A call of [execute] (or [run]) until it returns, raises or suspends. *)
Definition execute (name : string) (inputs ctx : table) (mode : option ResponseMode) (rd : Readings)
    (w : world) : world :=
  let call := w_next w in
  let w := set_next (S call) w in
  match w_flows w !! name with
  | None => answer call (inr (KeyError ("Unknown flow: " +:+ name))) w
  | Some s =>
      match flow_revision s with
      | Raise e => answer call (inr e) w
      | Ok (rev, s1) =>
          let w := set_flows (<[name := s1]> (w_flows w)) w in
          let r := build_request call name s1 rev inputs ctx mode rd in
          match idem_key ctx with
          | None => pass_gates r rd w
          | Some key =>
              let '(cached, c) := _get_cached_result key (rd_mono rd) (w_cache w) in
              let w := set_cache c w in
              match cached with
              | Some result => answer call (inl (_clone_result result)) w
              | None =>
                  match w_inflight w !! key with
                  | Some future => set_followers (w_followers w ++ [(call, future)]) w
                  | None => pass_gates r rd (set_inflight (<[key := call]> (w_inflight w)) w)
                  end
              end
          end
      end
  end.

(** ** A worker *)

(** What [queue.get()] returned: the sentinel ends the worker, a request
    starts a run. *)
Definition take_sentinel (w : world) : world :=
  _record_queue_depth (set_gone (S (w_gone w)) w).

Definition take_request (r : Request) (rd : Readings) (w : world) : world :=
  let queued_ms := Fin ((rd_perf rd - fr_enqueue_ts r) * 1000) in
  let w := set_active (w_active w + 1) w in
  let w := set_stats (count_taken queued_ms (w_active w) (w_stats w)) w in
  let w := record_events [FlowStarted (fs_name (fr_spec r)) (fr_model_name r)] w in
  let w := match fr_decision r with
           | Some d => set_clock (rd_gov rd) (set_gov (g_activate (w_gov w) d (rd_gov rd)) w)
           | None => w
           end in
  set_running (w_running w ++ [mkRun r queued_ms (rd_perf2 rd) (rd_wall rd) Starting]) w.

(** [pending.payload()]. *)
Definition pending_payload (r : ApprovalRecord) : table :=
  [("status", JStr "pending"); ("error_code", JStr "APPROVAL_REQUIRED"); ("approval_id", JStr (ap_id r));
   ("reason", JStr (ap_reason r)); ("ttl_ms", JInt (ap_ttl_ms r));
   ("default", JStr (decision_value (ap_default r))); ("actors", JArr (JStr <$> ap_actors r))].

(** How a run ended: status, error code, message and output. *)
Record ending : Type := mkEnding {
  ed_status : string;
  ed_error_code : option string;
  ed_error_message : option string;
  ed_output : table;
  ed_success : nat;
  ed_error : nat
}.

Definition ending_of (out : table + flow_exn) : ending :=
  match out with
  | inl output => mkEnding "ok" None None output 1 0
  | inr (PendingApproval p) =>
      mkEnding "pending" (Some "APPROVAL_REQUIRED") (Some (ap_reason p)) (pending_payload p) 0 0
  | inr (GuardBlockedError v) =>
      mkEnding "error" (Some "GUARD_BLOCKED") (Some (gv_reason v))
        [("status", JStr "error"); ("violation", JObj (violation_dict v))] 0 0
  | inr e => mkEnding "error" (Some (exn_class e)) (Some (exn_text e)) [] 0 1
  end.

Definition ending_events (r : Request) (out : table + flow_exn) : list RecorderEvent :=
  let finished status := FlowFinished (fs_name (fr_spec r)) (fr_model_name r) status in
  match out with
  | inl _ => [finished "ok"]
  | inr (PendingApproval _) => [finished "pending"]
  | inr (GuardBlockedError v) => [GuardBlock (gv_rule v) (fr_flow_name r); finished "error"]
  | inr _ => [finished "error"]
  end.

(** The audit entries of the two handlers that write one. *)
Definition ending_audit (r : Request) (out : table + flow_exn) (now : Z) (g : G) : G :=
  if negb (g_audit_enabled g) then g
  else
    match out with
    | inr (PendingApproval p) =>
        g_audit_record g "hitl_pending"
          (Map [("flow", JStr (fr_flow_name r)); ("approval_id", JStr (ap_id p)); ("reason", JStr (ap_reason p))]) now
    | inr (GuardBlockedError v) =>
        g_audit_record g "guard_block"
          (Map [("flow", JStr (fr_flow_name r)); ("rule", JStr (gv_rule v)); ("reason", JStr (gv_reason v))]) now
    | _ => g
    end.

(** [future.set_result(result)]: the caller and every call that joined it
    resume; a follower returns a clone. *)
Definition set_result (future : nat) (result : Envelope) (w : world) : world :=
  set_followers (filter (fun cf => cf.2 ≠ future) (w_followers w))
    (set_answers (w_answers w ++ (future, inl result) ::
                    ((fun cf => (cf.1, inl (_clone_result result))) <$>
                       filter (fun cf => cf.2 = future) (w_followers w))) w).

Definition _schedule_run_end (rec : FlowRunRecord) (w : world) : world :=
  set_notified (w_notified w ++ replicate (w_listeners w) rec) w.

(** An exception outside the handlers ends the worker's task. *)
Definition worker_dies (w : world) : world := set_gone (S (w_gone w)) w.

(** The governance reservation, the idempotency key and the waiting calls. *)
Definition release_request (r : Request) (result : Envelope) (tokens cost : option pyfloat)
    (rd : Readings) (w : world) : world :=
  let w :=
    match fr_decision r, fr_descriptor r with
    | Some d, Some _ =>
        set_clock (rd_gov rd)
          (set_gov (g_finalize (w_gov w) d (en_status result) (en_error_code result) tokens cost
                      (rd_gov rd)) w)
    | _, _ => w
    end in
  let w :=
    match _extract_str (JObj (fr_ctx r)) "idempotency_key" with
    | Some k =>
        set_cache (_maybe_cache_result k result (rd_mono rd) (w_cache w))
          (set_inflight (delete k (w_inflight w)) w)
    | None => w
    end in
  set_result (fr_future r) result w.

(** The handlers of the run's outcome, its [finally], and the timing. *)
Definition end_run (u : Run) (out : table + flow_exn) (exec_ms : pyfloat) (rd : Readings) (w : world)
  : world :=
  let r := ru_request u in
  let e := ending_of out in
  let w := record_events (ending_events r out) w in
  let w := set_gov (ending_audit r out (rd_wall rd) (w_gov w)) w in
  let w := set_active (w_active w - 1) w in
  set_stats (count_finished exec_ms (ed_success e) (ed_error e) (w_stats w)) w.

(** The worker's code after the run; [w] no longer lists the run. *)
Definition finish (u : Run) (out : table + flow_exn) (rd : Readings) (w : world) : world :=
  let r := ru_request u in
  let e := ending_of out in
  let exec_ms := Fin ((rd_perf rd - ru_exec_start u) * 1000) in
  let w := end_run u out exec_ms rd w in
  let result := mkEnvelope (ed_status e) (fr_run_id r) (ru_queued_ms u) exec_ms (ed_output e)
                  (ed_error_code e) (ed_error_message e) (fr_flow_name r) (fr_flow_name r)
                  (fr_flow_id r) (fr_flow_rev r) in
  match _extract_usage (ed_output e) with
  | Raise _ => worker_dies (set_lost (w_lost w ++ [r]) (abandon (fr_future r) w))
  | Ok (tokens, cost) =>
      let w := release_request r result tokens cost rd w in
      match _build_run_record r (ed_status e) (ed_output e) (ru_queued_ms u) exec_ms
              (ru_run_start u) (rd_wall rd) (ed_error_code e) (ed_error_message e) with
      | Raise _ => worker_dies w
      | Ok rec => _record_queue_depth (_schedule_run_end rec w)
      end
  end.

(** ** [_run_flow] *)

(** The immediate branch: the steps, their spans, the end of the run. *)
Definition run_immediate (u : Run) (rd : Readings) (w : world) : option world :=
  '(spans, out) ← _execute_immediately (ru_request u);
  Some (finish u (match out with inl o => inl (immediate_output o) | inr e => inr e end) rd
          (set_sink ((fun l => l ++ spans) <$> w_sink w) w)).

Definition deferred_pending (token : string) : table :=
  [("mode", JStr "deferred"); ("status", JStr "pending"); ("token", JStr token)].

Definition deferred_ready (token : string) (payload : table) : table :=
  [("mode", JStr "deferred"); ("status", JStr "ready"); ("token", JStr token);
   ("result", JObj payload)].

(** A signal that is there ends the wait. *)
Definition deferred_done (u : Run) (token : string) (payload : table) (rd : Readings) (w : world)
  : world :=
  finish u (inl (deferred_ready token payload)) rd (set_hub (consume (w_hub w) token).2 w).

(** [_run_deferred] until it ends or sleeps. *)
Definition run_deferred (u : Run) (token : string) (rd : Readings) (w : world) : world :=
  let r := ru_request u in
  if negb (fp_allow_deferred (rc_policies cfg)) then
    finish u (inr (raised (RuntimeError "Deferred execution is disabled by policy"))) rd w
  else
    let w := set_hub (reserve (w_hub w) token (fs_name (fr_spec r)) (fr_inputs r)) w in
    match jget "req_id" (fr_inputs r) with
    | JStr req_id =>
        let '(ready, hub) := consume_signal (w_hub w) req_id in
        let w := set_hub hub w in
        let wait_s := fmax (fp_short_wait_s (rc_policies cfg)) fzero in
        match ready with
        | Some payload => deferred_done u token payload rd w
        | None =>
            if flt fzero wait_s then
              set_running (w_running w ++
                [mkRun r (ru_queued_ms u) (ru_exec_start u) (ru_run_start u)
                   (Polling token req_id (fadd (Fin (rd_wall rd)) wait_s))]) w
            else finish u (inl (deferred_pending token)) rd w
        end
    | _ => finish u (inl (deferred_pending token)) rd w
    end.

(** One round of the polling loop. *)
Definition poll_round (u : Run) (token req_id : string) (deadline : pyfloat) (rd : Readings) (w : world)
  : world :=
  if flt (Fin (rd_wall rd)) deadline then
    let '(ready, hub) := consume_signal (w_hub w) req_id in
    let w := set_hub hub w in
    match ready with
    | Some payload => deferred_done u token payload rd w
    | None => set_running (w_running w ++ [u]) w
    end
  else finish u (inl (deferred_pending token)) rd w.

(** ** [aclose] *)

Definition close_sink (w : world) : world :=
  match w_sink w with Some _ => set_sink_closed true w | None => w end.

Definition aclose (w : world) : world :=
  if w_started w then set_closing (Some (w_workers w)) w else close_sink w.

Definition put_sentinel (n : nat) (w : world) : world :=
  set_closing (Some n) (set_queue (w_queue w ++ [None]) w).

(** After [gather]: every worker task has ended. *)
Definition closed_down (w : world) : world :=
  close_sink (set_closing None (set_gone 0 (set_workers 0 (set_started false w)))).

(** ** The event loop *)

(** A worker is waiting in [queue.get()]. *)
Definition idle_worker (w : world) : Prop := w_gone w + length (w_running w) < w_workers w.

Inductive rstep : world → world → Prop :=
| s_register w name spec : rstep w (set_flows (<[name := spec]> (w_flows w)) w)
| s_listen w : rstep w (set_listeners (S (w_listeners w)) w)
| s_signal w req_id payload : rstep w (set_hub (signal (w_hub w) req_id payload) w)
| s_execute w name inputs ctx mode rd :
    (w_clock w <= rd_gov rd)%Z → rstep w (execute name inputs ctx mode rd w)
| s_put w r l1 l2 :
    w_putting w = l1 ++ r :: l2 → queue_full w = false →
    rstep w (put_request r (set_putting (l1 ++ l2) w))
| s_put_timeout w r l1 l2 :
    w_putting w = l1 ++ r :: l2 →
    rstep w (not_accepted r "QUEUE_TIMEOUT" (abandon (fr_future r) (set_putting (l1 ++ l2) w)))
| s_take w r q rd :
    idle_worker w → w_queue w = Some r :: q → (w_clock w <= rd_gov rd)%Z →
    rstep w (take_request r rd (set_queue q w))
| s_take_sentinel w q :
    idle_worker w → w_queue w = None :: q → rstep w (take_sentinel (set_queue q w))
| s_run_immediate w u l1 l2 rd w' :
    w_running w = l1 ++ u :: l2 → fr_response_mode (ru_request u) = IMMEDIATE →
    (w_clock w <= rd_gov rd)%Z →
    run_immediate u rd (set_running (l1 ++ l2) w) = Some w' → rstep w w'
| s_run_deferred w u l1 l2 token rd :
    w_running w = l1 ++ u :: l2 → fr_response_mode (ru_request u) = DEFERRED →
    ru_phase u = Starting → (w_clock w <= rd_gov rd)%Z →
    rstep w (run_deferred u token rd (set_running (l1 ++ l2) w))
| s_poll w u l1 l2 token req_id deadline rd :
    w_running w = l1 ++ u :: l2 → ru_phase u = Polling token req_id deadline →
    (w_clock w <= rd_gov rd)%Z →
    rstep w (poll_round u token req_id deadline rd (set_running (l1 ++ l2) w))
| s_close w : w_closing w = None → rstep w (aclose w)
| s_close_put w n :
    w_closing w = Some (S n) → queue_full w = false → rstep w (put_sentinel n w)
| s_close_end w :
    w_closing w = Some 0 → w_gone w = w_workers w → rstep w (closed_down w).

Inductive rreachable (w0 : world) : world → Prop :=
| rr_start : rreachable w0 w0
| rr_step w w' : rreachable w0 w → rstep w w' → rreachable w0 w'.
End tasks.
