(* ===== verification/FlowTasksSpec.v ===== *)
(** * Invariants of the flow runtime

    Whatever the interleaving: every call is answered, waiting or running
    exactly once; two requests with one idempotency key are never in the
    runtime together; the governance manager holds exactly the reservations of
    the requests that wait and run.  Proved for every lawful governance. *)

From S2P Require Import Prelude PyVal PyConv Task Guard Hitl GovManager Idempotency GovConfig FlowDef.
From S2P Require Import FlowExec FlowGov FlowRuntime FlowTasks.
From stdpp Require Import base gmap strings list list_tactics pretty.
From Stdlib Require Import ZArith Lia.

(** ** Requests and keys *)

Definition req_key (r : Request) : option string := idem_key (fr_ctx r).

Abbreviation decisions := (omap fr_decision) (only parsing).

Section spec.
Context {G : Type} `{LawfulGovernance G} {FH : FlowHash} {PT : PyText}.
Context (cfg : RuntimeConfig) (gc : GovernanceConfig).
Abbreviation world := (world (G := G)) (only parsing).

(** The reservation of a request is the one of its scopes. *)
Definition reserved_as (r : Request) : Prop :=
  match fr_decision r with
  | Some d => gd_limits d = scope_keys gc (_build_request_descriptor r) ∧ is_Some (fr_descriptor r)
  | None => True
  end.

(** The invariant on the requests that wait ([W]), run ([R]) or are lost
    ([L]) and on the calls [c] that are just being served. *)
Record gparts (c : list nat) (W R L : list Request) (gov : G) (clock : Z)
    (answers : list (nat * (Envelope + exn))) (followers : list (nat * nat)) (next : nat)
    (inflight : gmap string nat) (abandoned : list nat) : Prop := {
  gp_config : g_config gov = gc;
  gp_holds : holds gov clock (decisions W) (decisions (R ++ L));
  gp_calls : c ++ answers.*1 ++ (fr_future <$> W ++ R ++ L) ++ followers.*1 ≡ₚ seq 0 next;
  gp_flight r k : r ∈ W ++ R ++ L → req_key r = Some k → inflight !! k = Some (fr_future r);
  gp_inflight k f : inflight !! k = Some f →
    (∃ r, r ∈ W ++ R ∧ fr_future r = f ∧ req_key r = Some k) ∨ f ∈ abandoned;
  gp_followers x f : (x, f) ∈ followers → f ∈ fr_future <$> W ++ R ∨ f ∈ abandoned;
  gp_abandoned f : f ∈ abandoned → f < next;
  gp_reserved r : r ∈ W ++ R ++ L → reserved_as r
}.

Definition ginv (c : list nat) (W R : list Request) (w : world) : Prop :=
  gparts c W R (w_lost w) (w_gov w) (w_clock w) (w_answers w) (w_followers w) (w_next w)
    (w_inflight w) (w_abandoned w).

(** Only these fields matter. *)
Lemma ginv_frame c W R w w' :
  ginv c W R w → w_lost w' = w_lost w → w_gov w' = w_gov w → w_clock w' = w_clock w →
  w_answers w' = w_answers w → w_followers w' = w_followers w → w_next w' = w_next w →
  w_inflight w' = w_inflight w → w_abandoned w' = w_abandoned w → ginv c W R w'.
Proof. unfold ginv. intros Hg -> -> -> -> -> -> -> ->. exact Hg. Qed.

#[local] Instance ginv_proper c : Proper ((≡ₚ) ==> (≡ₚ) ==> eq ==> iff) (ginv c).
Proof.
  assert (∀ W W' R R' w, W ≡ₚ W' → R ≡ₚ R' → ginv c W R w → ginv c W' R' w) as Himp.
  { intros W W' R R' w HW HR [Hc Hh Hp Hf Hi Hw Ha Hr]. constructor; try done.
    - by rewrite <- HW, <- HR.
    - by rewrite <- HW, <- HR.
    - intros r k. rewrite <- HW, <- HR. apply Hf.
    - intros k f Hk. destruct (Hi k f Hk) as [(r & Hin & Hr')|]; [left|by right].
      exists r. rewrite <- HW, <- HR. done.
    - intros x f Hx. rewrite <- HW, <- HR. by eapply Hw.
    - intros r. rewrite <- HW, <- HR. apply Hr. }
  intros W W' HW R R' HR w ? <-. split; apply Himp; [done|done|by symmetry|by symmetry].
Qed.

(** ** Calls are numbered once *)

Lemma ginv_nodup c W R w :
  ginv c W R w →
  NoDup (c ++ (w_answers w).*1 ++ (fr_future <$> W ++ R ++ w_lost w) ++ (w_followers w).*1).
Proof. intros Hg. rewrite (gp_calls _ _ _ _ _ _ _ _ _ _ _ Hg). apply NoDup_seq. Qed.

Lemma ginv_live_nodup c W R w : ginv c W R w → NoDup (fr_future <$> W ++ R ++ w_lost w).
Proof. intros Hg%ginv_nodup. by apply NoDup_app in Hg as (_ & _ & (_ & _ & (? & _)%NoDup_app)%NoDup_app). Qed.

Lemma ginv_live_lt c W R w f : ginv c W R w → f ∈ fr_future <$> W ++ R ++ w_lost w → f < w_next w.
Proof.
  intros Hg Hf. assert (f ∈ seq 0 (w_next w)) as Hs.
  { rewrite <- (gp_calls _ _ _ _ _ _ _ _ _ _ _ Hg). rewrite !elem_of_app. auto. }
  apply elem_of_seq in Hs. lia.
Qed.

(** The request in front shares its future with no other. *)
Lemma ginv_fresh_W c r W R w r' :
  ginv c (r :: W) R w → r' ∈ W ++ R ++ w_lost w → fr_future r' ≠ fr_future r.
Proof.
  intros Hg%ginv_live_nodup Hin Heq. simpl in Hg. apply NoDup_cons in Hg as [Hn _].
  apply Hn. rewrite <- Heq. by apply list_elem_of_fmap_2.
Qed.

Lemma ginv_fresh_R c r W R w r' :
  ginv c W (r :: R) w → r' ∈ W ++ R ++ w_lost w → fr_future r' ≠ fr_future r.
Proof.
  intros Hg%ginv_live_nodup Hin Heq.
  assert (NoDup (fr_future <$> r :: W ++ R ++ w_lost w)) as Hn.
  { rewrite Permutation_middle. exact Hg. }
  simpl in Hn. apply NoDup_cons in Hn as [Hn _]. apply Hn. rewrite <- Heq. by apply list_elem_of_fmap_2.
Qed.

(** No call waits for this future. *)
Definition unfollowed (f : nat) (w : world) : Prop := ∀ x, (x, f) ∉ w_followers w.

(** ** A call *)

Lemma ginv_enter c W R w : ginv c W R w → ginv (w_next w :: c) W R (set_next (S (w_next w)) w).
Proof.
  intros [Hc Hh Hp Hf Hi Hw Ha Hr]. constructor; simpl; try done.
  - rewrite Hp. change (0 :: seq 1 (w_next w)) with (seq 0 (S (w_next w))).
    rewrite seq_S. simpl. solve_Permutation.
  - intros f Hf'%Ha. lia.
Qed.

Lemma ginv_answer x c W R w a : ginv (x :: c) W R w → ginv c W R (answer x a w).
Proof.
  intros [Hc Hh Hp Hf Hi Hw Ha Hr]. constructor; simpl; try done.
  rewrite <- Hp, !fmap_app. simpl. solve_Permutation.
Qed.

Lemma ginv_follow x f k c W R w :
  ginv (x :: c) W R w → w_inflight w !! k = Some f →
  ginv c W R (set_followers (w_followers w ++ [(x, f)]) w).
Proof.
  intros [Hc Hh Hp Hf Hi Hw Ha Hr] Hk. constructor; simpl; try done.
  - rewrite <- Hp, !fmap_app. simpl. solve_Permutation.
  - intros y f' [Hy|[= -> ->]%list_elem_of_singleton]%elem_of_app; [by eapply Hw|].
    destruct (Hi k f Hk) as [(r & Hin & <- & _)|]; [left|by right]. by apply list_elem_of_fmap_2.
Qed.

(** The request of a new call, registered under its key. *)
Definition register_key (r : Request) (w : world) : world :=
  match req_key r with Some k => set_inflight (<[k := fr_future r]> (w_inflight w)) w | None => w end.

Lemma ginv_begin c W R w r :
  ginv (fr_future r :: c) W R w → fr_decision r = None →
  (∀ k, req_key r = Some k → w_inflight w !! k = None) →
  ginv c (r :: W) R (register_key r w).
Proof.
  intros [Hc Hh Hp Hf Hi Hw Ha Hr] Hd Hk.
  assert (∀ k f, w_inflight w !! k = Some f → w_inflight (register_key r w) !! k = Some f) as Hkeep.
  { intros k f Hkf. unfold register_key. destruct (req_key r) as [k0|] eqn:E; [|done]. simpl.
    rewrite lookup_insert_ne; [done|]. intros ->. by rewrite Hk in Hkf. }
  replace (ginv c (r :: W) R (register_key r w)) with
    (gparts c (r :: W) R (w_lost w) (w_gov w) (w_clock w) (w_answers w) (w_followers w) (w_next w)
       (w_inflight (register_key r w)) (w_abandoned w))
    by (unfold ginv, register_key; by destruct (req_key r)).
  constructor; simpl; try done.
  - by rewrite Hd.
  - rewrite <- Hp. solve_Permutation.
  - intros r' k [->|Hin]%elem_of_cons Ek; [|by apply Hkeep, Hf].
    unfold register_key. rewrite Ek. simpl. by rewrite lookup_insert_eq.
  - intros k f. unfold register_key. destruct (req_key r) as [k0|] eqn:E; simpl.
    + destruct (decide (k = k0)) as [->|Hne].
      * rewrite lookup_insert_eq. intros [= <-]. left. exists r. split_and!; [left|done|done].
      * rewrite lookup_insert_ne by done. intros [(r' & ? & ? & ?)|?]%Hi; [left|by right].
        exists r'. split_and!; [by right|done|done].
    + intros [(r' & ? & ? & ?)|?]%Hi; [left|by right]. exists r'. split_and!; [by right|done|done].
  - intros x f [Hx|Hx]%Hw; [left|by right]. by right.
  - intros r' [->|Hin]%elem_of_cons; [|by apply Hr]. unfold reserved_as. by rewrite Hd.
Qed.
(** ** The governance gates *)

Lemma ginv_guard c W R w payload desc now d g :
  ginv c W R w → g_guard (w_gov w) payload desc now = Ok (d, g) → ginv c W R (set_gov g w).
Proof.
  intros [Hc Hh Hp Hf Hi Hw Ha Hr] Hg. constructor; simpl; try done.
  - rewrite <- Hc. by eapply config_guard.
  - by eapply holds_guard.
Qed.

Lemma ginv_audit c W R w event payload now :
  ginv c W R w → ginv c W R (set_gov (g_audit_record (w_gov w) event payload now) w).
Proof.
  intros [Hc Hh Hp Hf Hi Hw Ha Hr]. constructor; simpl; try done.
  - by rewrite config_audit.
  - by apply holds_audit.
Qed.

(** A request that got its decision has the same future, key and scopes. *)
Lemma ginv_check c r W R w now d g :
  ginv c (r :: W) R w → fr_decision r = None → (w_clock w <= now)%Z →
  g_check (w_gov w) (_build_request_descriptor r) now = (d, g) →
  let w' := set_clock now (set_gov g w) in
  if gd_allowed d then ginv c (with_decision r d (_build_request_descriptor r) :: W) R w'
  else ginv c (r :: W) R w'.
Proof.
  intros [Hc Hh Hp Hf Hi Hw Ha Hr] Hd Hle Hg w'. simpl in Hh. rewrite Hd in Hh. simpl in Hh.
  destruct (holds_check _ _ _ _ _ _ _ _ Hh Hle Hg) as [Hh' Hs].
  pose proof (config_check (w_gov w) (_build_request_descriptor r) now) as Hc'. rewrite Hg in Hc'.
  simpl in Hc'. destruct (gd_allowed d).
  - constructor; simpl; try done; [congruence| | |].
    + intros r' k [->|Hin]%elem_of_cons Ek; [|apply Hf; [by right|done]].
      apply (Hf r k); [left|exact Ek].
    + intros k f [(r' & [->|Hin]%elem_of_cons & E1 & E2)|?]%Hi; [left|left|by right].
      * eexists. split_and!; [left|exact E1|exact E2].
      * exists r'. split_and!; [by right|done|done].
    + intros r' [->|Hin]%elem_of_cons; [|apply Hr; by right]. split; [|by eexists].
      simpl. rewrite Hs by done. by rewrite Hc.
  - constructor; simpl; try done; [congruence|]. by rewrite Hd.
Qed.

(** ** A request leaves without a run *)

Lemma pop_inflight_eq key (w : world) :
  pop_inflight key w =
  set_inflight (match key with Some k => delete k (w_inflight w) | None => w_inflight w end) w.
Proof. destruct key; [done|]. by destruct w. Qed.

(** What stays true of the others when a key is given up. *)
Lemma popped_flight c r W R w r' k :
  ginv c (r :: W) R w → r' ∈ W ++ R ++ w_lost w → req_key r' = Some k →
  (match req_key r with Some k0 => delete k0 (w_inflight w) | None => w_inflight w end) !! k =
  Some (fr_future r').
Proof.
  intros Hg Hin Ek. pose proof (ginv_fresh_W _ _ _ _ _ _ Hg Hin) as Hne.
  destruct Hg as [Hc Hh Hp Hf Hi Hw Ha Hr].
  assert (w_inflight w !! k = Some (fr_future r')) as E by (apply Hf; [by right|done]).
  destruct (req_key r) as [k0|] eqn:E0; [|done]. rewrite lookup_delete_ne; [done|]. intros ->.
  rewrite (Hf r k) in E; [congruence|left|done].
Qed.

Lemma ginv_drop c r W R w (gov : G) a :
  ginv c (r :: W) R w → (unfollowed (fr_future r) w ∨ fr_future r ∈ w_abandoned w) →
  g_config gov = gc → holds gov (w_clock w) (decisions W) (decisions (R ++ w_lost w)) →
  ginv c W R (answer (fr_future r) a (pop_inflight (req_key r) (set_gov gov w))).
Proof.
  intros Hg Hu Hcg Hhg. pose proof (popped_flight c r W R w) as Hpop.
  pose proof (ginv_fresh_W c r W R w) as Hfresh.
  rewrite pop_inflight_eq. pose proof Hg as [Hc Hh Hp Hf Hi Hw Ha Hr]. constructor; simpl; try done.
  - rewrite <- Hp, !fmap_app. simpl. solve_Permutation.
  - intros r' k Hin Ek. by apply Hpop.
  - intros k f. destruct (req_key r) as [k0|] eqn:E0.
    + destruct (decide (k = k0)) as [->|Hne]; [by rewrite lookup_delete_eq|].
      rewrite lookup_delete_ne by done.
      intros [(r' & [->|Hin]%elem_of_cons & E1 & E2)|?]%Hi; [congruence|left; by exists r'|by right].
    + intros [(r' & [->|Hin]%elem_of_cons & E1 & E2)|?]%Hi; [congruence|left; by exists r'|by right].
  - intros x f Hx. destruct (Hw x f Hx) as [Hin|]; [|by right].
    simpl in Hin. apply elem_of_cons in Hin as [->|Hin]; [|by left].
    destruct Hu as [Hu|]; [by apply Hu in Hx|by right].
  - intros r' Hin. apply Hr. by right.
Qed.

(** A refused request had no reservation. *)
Lemma ginv_refuse c r W R w a :
  ginv c (r :: W) R w → fr_decision r = None → unfollowed (fr_future r) w →
  ginv c W R (answer (fr_future r) a (pop_inflight (req_key r) w)).
Proof.
  intros Hg Hd Hu. replace w with (set_gov (w_gov w) w) at 1 by (by destruct w).
  pose proof Hg as [Hc Hh _ _ _ _ _ _]. simpl in Hh. rewrite Hd in Hh.
  apply ginv_drop; [done|by left|done|done].
Qed.

(** An exception leaves the key behind. *)
Lemma ginv_raise c r W R w a :
  ginv c (r :: W) R w → fr_decision r = None →
  ginv c W R (answer (fr_future r) a (abandon (fr_future r) w)).
Proof.
  intros Hg Hd. pose proof (ginv_live_lt _ _ _ _ (fr_future r) Hg) as Hlt.
  destruct Hg as [Hc Hh Hp Hf Hi Hw Ha Hr]. simpl in Hh. rewrite Hd in Hh.
  constructor; simpl; try done.
  - rewrite <- Hp, !fmap_app. simpl. solve_Permutation.
  - intros r' k Hin. apply Hf. by right.
  - intros k f [(r' & [->|Hin]%elem_of_cons & E1 & E2)|?]%Hi; [right; set_solver|left; by exists r'|right; set_solver].
  - intros x f [Hin|Hin]%Hw; [|right; set_solver].
    simpl in Hin. apply elem_of_cons in Hin as [->|Hin]; [right; set_solver|by left].
  - intros f [Hf'|Hf']%elem_of_app; [by apply Ha|]. apply list_elem_of_singleton in Hf' as ->. apply Hlt. left.
  - intros r' Hin. apply Hr. by right.
Qed.

(** A request that was admitted and not queued gives its reservation back. *)
Lemma ginv_not_accepted c r d W R w code :
  ginv c (r :: W) R w → fr_decision r = Some d →
  (unfollowed (fr_future r) w ∨ fr_future r ∈ w_abandoned w) →
  ginv c W R (not_accepted r code w).
Proof.
  intros Hg Hd Hu. pose proof Hg as [Hc Hh _ _ _ _ _ _]. simpl in Hh. rewrite Hd in Hh.
  pose proof (ginv_drop c r W R w (g_cancel (w_gov w) d)
    (inl (refusal r "rejected" [] (Some code) "request rejected")) Hg Hu) as Hdrop.
  rewrite config_cancel in Hdrop. specialize (Hdrop Hc (holds_cancel _ _ _ _ _ Hh)).
  unfold not_accepted. rewrite Hd. unfold req_key in Hdrop. rewrite pop_inflight_eq in *. exact Hdrop.
Qed.

(** ** A worker *)

Lemma ginv_activate c r d W R w now :
  ginv c (r :: W) R w → fr_decision r = Some d → (w_clock w <= now)%Z →
  ginv c W (r :: R) (set_clock now (set_gov (g_activate (w_gov w) d now) w)).
Proof.
  intros [Hc Hh Hp Hf Hi Hw Ha Hr] Hd Hle. simpl in Hh. rewrite Hd in Hh.
  assert (r :: W ++ R ++ w_lost w ≡ₚ W ++ r :: R ++ w_lost w) as Hperm by solve_Permutation.
  assert (r :: W ++ R ≡ₚ W ++ r :: R) as Hperm' by solve_Permutation.
  constructor; simpl; try done.
  - by rewrite config_activate.
  - rewrite Hd. by apply (holds_activate _ (w_clock w)).
  - rewrite <- Hp. simpl. by rewrite <- Hperm.
  - intros r' k. rewrite <- Hperm. apply Hf.
  - intros k f Hk. destruct (Hi k f Hk) as [(r' & Hin & ?)|]; [left|by right].
    exists r'. by rewrite <- Hperm'.
  - intros x f Hx. rewrite <- Hperm'. by eapply Hw.
  - intros r'. rewrite <- Hperm. apply Hr.
Qed.

(** The worker dies before it has released the request. *)
Lemma ginv_lost c r W R w :
  ginv c W (r :: R) w →
  ginv c W R (worker_dies (set_lost (w_lost w ++ [r]) (abandon (fr_future r) w))).
Proof.
  intros Hg. pose proof (ginv_live_lt _ _ _ _ (fr_future r) Hg) as Hlt.
  destruct Hg as [Hc Hh Hp Hf Hi Hw Ha Hr].
  assert (R ++ w_lost w ++ [r] ≡ₚ (r :: R) ++ w_lost w) as Hperm by solve_Permutation.
  constructor; simpl; try done.
  - by rewrite Hperm.
  - by rewrite Hperm.
  - intros r' k. rewrite Hperm. apply Hf.
  - intros k f Hk. destruct (Hi k f Hk) as [(r' & Hin & E1 & E2)|]; [|right; set_solver].
    assert (r' = r ∨ r' ∈ W ++ R) as [->|Hin'] by set_solver; [right; set_solver|left; by exists r'].
  - intros x f Hx. destruct (Hw x f Hx) as [Hin|]; [|right; set_solver].
    rewrite list_elem_of_fmap in Hin. destruct Hin as (r' & -> & Hin).
    assert (r' = r ∨ r' ∈ W ++ R) as [->|Hin'] by set_solver; [right; set_solver|left].
    by apply list_elem_of_fmap_2.
  - intros f [Hf'|Hf']%elem_of_app; [by apply Ha|]. apply list_elem_of_singleton in Hf' as ->.
    apply Hlt. apply list_elem_of_fmap_2. set_solver.
  - intros r'. rewrite Hperm. apply Hr.
Qed.

(** What [finish] does to the key of its request. *)
Definition finished_inflight (r : Request) (m : gmap string nat) : gmap string nat :=
  match _extract_str (JObj (fr_ctx r)) "idempotency_key" with Some k => delete k m | None => m end.

Lemma finished_inflight_lookup r m k f :
  finished_inflight r m !! k = Some f → m !! k = Some f ∧ req_key r ≠ Some k.
Proof.
  unfold finished_inflight, req_key, idem_key.
  destruct (_extract_str _ _) as [k0|]; [|done].
  intros [Hne Hk]%lookup_delete_Some. split; [done|]. unfold given. by destruct k0; [|congruence].
Qed.

Lemma finished_inflight_ne r m k f :
  m !! k = Some f → k ≠ EmptyString → req_key r ≠ Some k → finished_inflight r m !! k = Some f.
Proof.
  unfold finished_inflight, req_key, idem_key. intros Hm Hk Hne.
  destruct (_extract_str _ _) as [k0|]; [|done]. rewrite lookup_delete_ne; [done|].
  intros ->. apply Hne. unfold given. by destruct k.
Qed.

Lemma req_key_ne r k : req_key r = Some k → k ≠ EmptyString.
Proof. unfold req_key, idem_key, given. destruct (_extract_str _ _) as [[|]|]; naive_solver. Qed.

(** The request is released, its future set. *)
Lemma ginv_released c r W R w (gov : G) clock cache result :
  ginv c W (r :: R) w → g_config gov = gc → holds gov clock (decisions W) (decisions (R ++ w_lost w)) →
  ginv c W R
    (set_result (fr_future r) result
       (set_cache cache (set_inflight (finished_inflight r (w_inflight w))
          (set_clock clock (set_gov gov w))))).
Proof.
  intros Hg Hcg Hhg. pose proof (ginv_fresh_R c r W R w) as Hfresh.
  pose proof Hg as [Hc Hh Hp Hf Hi Hw Ha Hr]. constructor; simpl; try done.
  - rewrite <- Hp, !fmap_app. simpl.
    assert ((w_followers w).*1 ≡ₚ
      (filter (fun cf => cf.2 = fr_future r) (w_followers w)).*1 ++
      (filter (fun cf => cf.2 ≠ fr_future r) (w_followers w)).*1) as ->.
    { rewrite <- fmap_app. apply fmap_Permutation. symmetry. apply filter_app_complement. }
    rewrite <- !list_fmap_compose. simpl. solve_Permutation.
  - intros r' k Hin Ek. assert (w_inflight w !! k = Some (fr_future r')) as Hk by (apply Hf; [set_solver|done]).
    apply finished_inflight_ne; [done|by eapply req_key_ne|]. intros Er.
    rewrite (Hf r k) in Hk; [|set_solver|done]. injection Hk as Hk. by eapply Hfresh.
  - intros k f [Hk Hne]%finished_inflight_lookup.
    destruct (Hi k f Hk) as [(r' & Hin & E1 & E2)|]; [left|by right].
    exists r'. split_and!; [|done|done].
    assert (r' = r ∨ r' ∈ W ++ R) as [->|?] by set_solver; done.
  - intros x f [Hne Hx]%list_elem_of_filter. simpl in Hne. destruct (Hw x f Hx) as [Hin|]; [left|by right].
    rewrite list_elem_of_fmap in *. destruct Hin as (r' & -> & Hin). exists r'. split; [done|].
    assert (r' = r ∨ r' ∈ W ++ R) as [->|?] by set_solver; done.
  - intros r' Hin. apply Hr. set_solver.
Qed.

Lemma ginv_release c r d W R w result tokens cost rd :
  ginv c W (r :: R) w → fr_decision r = Some d → (w_clock w <= rd_gov rd)%Z →
  ginv c W R (release_request cfg r result tokens cost rd w).
Proof.
  intros Hg Hd Hle. pose proof (gp_reserved _ _ _ _ _ _ _ _ _ _ _ Hg r) as Hres. unfold reserved_as in Hres.
  rewrite Hd in Hres. destruct Hres as [_ [desc Hdesc]]; [set_solver|].
  pose proof Hg as [Hc Hh _ _ _ _ _ _]. simpl in Hh. rewrite Hd in Hh.
  set (g := g_finalize (w_gov w) d (en_status result) (en_error_code result) tokens cost (rd_gov rd)).
  assert (g_config g = gc) as Hcg by (unfold g; by rewrite config_finalize).
  pose proof (holds_finalize _ _ (rd_gov rd) _ _ _ (en_status result) (en_error_code result) tokens cost Hh Hle) as Hhg.
  set (cache := match _extract_str (JObj (fr_ctx r)) "idempotency_key" with
                | Some k => _maybe_cache_result cfg k result (rd_mono rd) (w_cache w)
                | None => w_cache w end).
  pose proof (ginv_released c r W R w g (rd_gov rd) cache result Hg Hcg Hhg) as Hfin.
  unfold finished_inflight, cache in Hfin. unfold release_request. rewrite Hd, Hdesc.
  destruct (_extract_str (JObj (fr_ctx r)) "idempotency_key");
    (eapply ginv_frame; [exact Hfin|simpl; reflexivity..]).
Qed.

Lemma ginv_ending c W R w r out now :
  ginv c W R w → ginv c W R (set_gov (ending_audit r out now (w_gov w)) w).
Proof.
  intros Hg. unfold ending_audit.
  assert (ginv c W R (set_gov (w_gov w) w)) as Hsame by (by destruct w).
  destruct (negb _); [done|].
  destruct out as [|[]]; try done; by apply ginv_audit.
Qed.

Lemma ginv_finish c u d W R w out rd :
  ginv c W (ru_request u :: R) w → fr_decision (ru_request u) = Some d → (w_clock w <= rd_gov rd)%Z →
  ginv c W R (finish cfg u out rd w).
Proof.
  intros Hg Hd Hle. unfold finish. cbv zeta.
  set (w1 := end_run _ _ _ _ _). set (e := ending_of out). set (r := ru_request u) in *.
  assert (ginv c W (r :: R) w1) as Hg1.
  { eapply ginv_frame; [exact (ginv_ending _ _ _ _ r out (rd_wall rd) Hg)|reflexivity..]. }
  assert (w_clock w1 = w_clock w) as Hcl by done. clearbody w1.
  destruct (_extract_usage (ed_output e)) as [[tokens cost]|]; [|by apply ginv_lost].
  set (result := mkEnvelope _ _ _ _ _ _ _ _ _ _ _).
  pose proof (ginv_release c r d W R w1 result tokens cost rd Hg1 Hd) as Hfin. rewrite Hcl in Hfin.
  specialize (Hfin Hle).
  destruct (_build_run_record _ _ _ _ _ _ _ _ _); (eapply ginv_frame; [exact Hfin|simpl; reflexivity..]).
Qed.

(** A copy of the request with another timestamp. *)
Lemma ginv_stamp c r W R w ts :
  ginv c (r :: W) R w → ginv c (with_enqueue_ts r ts :: W) R w.
Proof.
  intros [Hc Hh Hp Hf Hi Hw Ha Hr]. constructor; simpl; try done.
  - intros r' k [->|Hin]%elem_of_cons Ek; [apply (Hf r k); [left|exact Ek]|apply Hf; [by right|done]].
  - intros k f [(r' & [->|Hin]%elem_of_cons & E1 & E2)|?]%Hi; [left|left|by right].
    + eexists. split_and!; [left|exact E1|exact E2].
    + exists r'. split_and!; [by right|done|done].
  - intros r' [->|Hin]%elem_of_cons; [apply (Hr r); left|apply Hr; by right].
Qed.

(** ** The whole runtime *)

Definition queued (w : world) : list Request := omap id (w_queue w).
Definition running (w : world) : list Request := ru_request <$> w_running w.

Definition decided (r : Request) : Prop := is_Some (fr_decision r).

(** Workers, the counter of active runs and the queue; [n] runs are being
    moved. *)
Record binv (n : nat) (w : world) : Prop := {
  bi_workers : w_gone w + n + length (w_running w) ≤ w_workers w;
  bi_started : w_workers w = if w_started w then rc_max_concurrency cfg else 0;
  bi_active : w_active w = Z.of_nat (n + length (w_running w));
  bi_capacity : rc_queue_capacity cfg ≠ 0 → length (w_queue w) ≤ rc_queue_capacity cfg;
  bi_decided : Forall decided (w_putting w ++ queued w ++ running w)
}.

Lemma binv_frame n w w' :
  binv n w → w_gone w' = w_gone w → w_running w' = w_running w → w_workers w' = w_workers w →
  w_started w' = w_started w → w_active w' = w_active w → w_queue w' = w_queue w →
  w_putting w' = w_putting w → binv n w'.
Proof.
  intros [H1 H2 H3 H4 H5] E1 E2 E3 E4 E5 E6 E7.
  constructor; unfold queued, running in *; rewrite ?E1, ?E2, ?E3, ?E4, ?E5, ?E6, ?E7; done.
Qed.

Definition winv (w : world) : Prop :=
  ginv [] (w_putting w ++ queued w) (running w) w ∧ binv 0 w.

Lemma queued_snoc_req (q : list (option Request)) r : omap id (q ++ [Some r]) = omap id q ++ [r].
Proof. by rewrite omap_app. Qed.

(** *** The queue *)

Lemma put_request_inv W R w r :
  ginv [] (r :: W) R w → W ≡ₚ w_putting w ++ queued w → R = running w → binv 0 w → decided r →
  queue_full cfg w = false → winv (put_request r w).
Proof.
  intros Hg HW -> [H1 H2 H3 H4 H5] Hd Hfull. split.
  - eapply ginv_frame; [|simpl; reflexivity..]. unfold queued. simpl. rewrite queued_snoc_req.
    rewrite HW in Hg. unfold queued in Hg.
    assert (w_putting w ++ omap id (w_queue w) ++ [r] ≡ₚ r :: w_putting w ++ omap id (w_queue w)) as ->
      by solve_Permutation. exact Hg.
  - constructor; simpl; try done.
    + intros Hc. rewrite length_app. simpl. unfold queue_full in Hfull.
      apply Nat.eqb_neq in Hc as Hc'. rewrite Hc' in Hfull. simpl in Hfull.
      apply Nat.leb_gt in Hfull. lia.
    + unfold queued, running in *. simpl. rewrite queued_snoc_req.
      rewrite !Forall_app in *. rewrite Forall_singleton. tauto.
Qed.

Lemma ensure_workers_binv w : binv 0 w → binv 0 (_ensure_workers cfg w).
Proof.
  intros [H1 H2 H3 H4 H5]. unfold _ensure_workers. destruct (w_started w) eqn:E; [by constructor; rewrite ?E|].
  constructor; simpl; try done; lia.
Qed.

Lemma ensure_workers_fields (w : world) :
  w_putting (_ensure_workers cfg w) = w_putting w ∧ w_queue (_ensure_workers cfg w) = w_queue w ∧
  w_running (_ensure_workers cfg w) = w_running w ∧
  w_followers (_ensure_workers cfg w) = w_followers w.
Proof. unfold _ensure_workers. by destruct (w_started w). Qed.

Lemma ensure_workers_ginv c W R w : ginv c W R w → ginv c W R (_ensure_workers cfg w).
Proof.
  intros Hg. unfold _ensure_workers. destruct (w_started w); [done|].
  eapply ginv_frame; [exact Hg|simpl; reflexivity..].
Qed.

Lemma not_accepted_inv c W R w r code :
  ginv c (r :: W) R w → W ≡ₚ w_putting w ++ queued w → R = running w → c = [] → binv 0 w → decided r →
  (unfollowed (fr_future r) w ∨ fr_future r ∈ w_abandoned w) → winv (not_accepted r code w).
Proof.
  intros Hg HW -> -> Hb [d Hd] Hu. split.
  - pose proof (ginv_not_accepted [] r d W (running w) w code Hg Hd Hu) as Hn. rewrite HW in Hn.
    unfold not_accepted, running, queued in *. rewrite Hd, pop_inflight_eq in *. simpl in *. exact Hn.
  - unfold not_accepted. rewrite pop_inflight_eq. rewrite Hd.
    eapply binv_frame; [exact Hb|simpl; reflexivity..].
Qed.

Lemma enqueue_inv W R w r ts :
  ginv [] (r :: W) R w → W ≡ₚ w_putting w ++ queued w → R = running w → binv 0 w → decided r →
  unfollowed (fr_future r) w → winv (_enqueue cfg r ts w).
Proof.
  intros Hg HW HR Hb Hd Hu. unfold _enqueue.
  destruct (ensure_workers_fields w) as (Ep & Eq & Er & Ef).
  apply ensure_workers_ginv, ginv_stamp with (ts := ts) in Hg. apply ensure_workers_binv in Hb.
  unfold queued, running, unfollowed in *. rewrite <- Ep, <- Eq in HW. rewrite <- Er in HR.
  rewrite <- Ef in Hu. set (w1 := _ensure_workers cfg w) in *. clearbody w1.
  destruct (rc_queue_capacity cfg =? 0) eqn:Ec.
  { eapply put_request_inv; eauto. unfold queue_full. by rewrite Ec. }
  destruct (negb _).
  - destruct (queue_full cfg w1) eqn:Efull; [|by eapply put_request_inv].
    eapply not_accepted_inv; eauto.
  - split.
    + eapply ginv_frame; [|simpl; reflexivity..]. unfold queued. simpl. subst R.
      rewrite HW in Hg. unfold running. simpl.
      assert ((w_putting w1 ++ [with_enqueue_ts r ts]) ++ omap id (w_queue w1) ≡ₚ
              with_enqueue_ts r ts :: w_putting w1 ++ omap id (w_queue w1)) as -> by solve_Permutation.
      exact Hg.
    + destruct Hb as [H1 H2 H3 H4 H5]. constructor; simpl; try done.
      unfold queued, running in *. simpl. rewrite !Forall_app in *. rewrite Forall_singleton. tauto.
Qed.

(** *** Calls *)

Lemma admit_inv W R w r rd :
  ginv [] (r :: W) R w → W ≡ₚ w_putting w ++ queued w → R = running w → binv 0 w →
  fr_decision r = None → unfollowed (fr_future r) w → (w_clock w <= rd_gov rd)%Z →
  winv (pass_gates cfg r rd w).
Proof.
  intros Hg HW HR Hb Hd Hu Hle. unfold pass_gates.
  destruct (g_guard _ _ _ _) as [[gd g1]|e] eqn:Egu.
  2: { split; [|eapply binv_frame; [exact Hb|simpl; reflexivity..]].
       apply (ginv_raise _ _ _ _ _ (inr e)) in Hg; [|done]. rewrite HW, HR in Hg. exact Hg. }
  apply (ginv_guard _ _ _ _ _ _ _ _ _ Hg) in Egu as Hg1. cbv zeta.
  destruct (negb (gu_allowed gd)).
  { rewrite pop_inflight_eq. split; [|eapply binv_frame; [exact Hb|simpl; reflexivity..]].
    set (env := refusal r _ _ _ _).
    apply (ginv_refuse _ _ _ _ _ (inl env)) in Hg1; [|done|done]. rewrite HW, HR in Hg1.
    rewrite pop_inflight_eq in Hg1. eapply ginv_frame; [exact Hg1|simpl; reflexivity..]. }
  destruct (g_check _ _ _) as [d g2] eqn:Ech.
  pose proof (ginv_check _ _ _ _ (set_gov g1 w) (rd_gov rd) d g2 Hg1 Hd Hle Ech) as Hg2. cbv zeta in Hg2.
  destruct (gd_allowed d); simpl.
  - eapply enqueue_inv; [exact Hg2|exact HW|exact HR| |by eexists|exact Hu].
    eapply binv_frame; [exact Hb|simpl; reflexivity..].
  - rewrite pop_inflight_eq. split; [|eapply binv_frame; [exact Hb|simpl; reflexivity..]].
    set (env := refusal r _ _ _ _).
    apply (ginv_refuse _ _ _ _ _ (inl env)) in Hg2; [|done|done]. rewrite HW, HR in Hg2.
    rewrite pop_inflight_eq in Hg2. eapply ginv_frame; [exact Hg2|simpl; reflexivity..].
Qed.

(** Nobody waits for the future of a call that has just begun. *)
Lemma unfollowed_new c W R w : ginv c W R w → unfollowed (w_next w) w.
Proof.
  intros Hg x Hx. pose proof Hg as [_ _ _ _ _ Hw Ha _].
  destruct (Hw x (w_next w) Hx) as [Hin|Hin%Ha]; [|lia].
  assert (w_next w < w_next w); [|lia]. eapply ginv_live_lt; [exact Hg|].
  rewrite (assoc_L (++)), fmap_app. set_solver.
Qed.

Lemma execute_inv w name inputs ctx mode rd :
  winv w → (w_clock w <= rd_gov rd)%Z → winv (execute cfg name inputs ctx mode rd w).
Proof.
  intros [Hg Hb] Hle. unfold execute. pose proof (unfollowed_new _ _ _ _ Hg) as Hu.
  pose proof (ginv_enter _ _ _ _ Hg) as He. cbv zeta.
  assert (∀ a w1, w1 = set_next (S (w_next w)) w → winv (answer (w_next w) a w1)) as Hans.
  { intros a w1 ->. split; [exact (ginv_answer _ _ _ _ _ a He)|].
    eapply binv_frame; [exact Hb|simpl; reflexivity..]. }
  destruct (w_flows _ !! name) as [s|]; [|by apply Hans].
  destruct (flow_revision s) as [[rev s1]|e]; [|by apply Hans].
  set (r := build_request _ _ _ _ _ _ _ _ _).
  assert (∀ key, req_key r = key → ∀ w1, ginv [w_next w] (w_putting w ++ queued w) (running w) w1 →
    binv 0 w1 → w_putting w1 = w_putting w → w_queue w1 = w_queue w → w_running w1 = w_running w →
    w_followers w1 = w_followers w → w_clock w1 = w_clock w →
    (∀ k, key = Some k → w_inflight w1 !! k = None) →
    winv (pass_gates cfg r rd (match key with
                          | Some k => set_inflight (<[k := w_next w]> (w_inflight w1)) w1
                          | None => w1 end))) as Hadmit.
  { intros key Ekey w1 Hg1 Hb1 E1 E2 E3 E4 E5 Hk.
    assert (ginv [] (r :: w_putting w ++ queued w) (running w) (register_key r w1)) as Hreg.
    { apply ginv_begin; [exact Hg1|done|]. intros k Ek. apply Hk. congruence. }
    unfold register_key in Hreg. rewrite Ekey in Hreg. unfold queued, running, unfollowed in *.
    eapply admit_inv; [exact Hreg| | | |done| |]; unfold queued, running, unfollowed;
      destruct key; simpl; rewrite ?E1, ?E2, ?E3, ?E4, ?E5; try done.
    eapply binv_frame; [exact Hb1|simpl; reflexivity..]. }
  destruct (idem_key ctx) as [key|] eqn:Ekey.
  2: { apply (Hadmit None); try done. eapply binv_frame; [exact Hb|simpl; reflexivity..]. }
  destruct (_get_cached_result _ _ _ _) as [cached cache].
  destruct cached as [env|].
  { split; [|eapply binv_frame; [exact Hb|simpl; reflexivity..]].
    apply (ginv_answer _ _ _ _ _ (inl (_clone_result env))) in He.
    eapply ginv_frame; [exact He|simpl; reflexivity..]. }
  destruct (w_inflight _ !! key) as [f|] eqn:Ef.
  { split; [|eapply binv_frame; [exact Hb|simpl; reflexivity..]].
    apply (ginv_follow _ f key) in He; [|exact Ef].
    eapply ginv_frame; [exact He|simpl; reflexivity..]. }
  match goal with |- winv (pass_gates _ _ _ (set_inflight _ ?w2)) => apply (Hadmit (Some key) Ekey w2) end;
    try done; [|by intros k [= <-]].
  eapply binv_frame; [exact Hb|simpl; reflexivity..].
Qed.

(** *** Workers *)

Lemma take_request_inv w r q rd :
  winv w → idle_worker w → w_queue w = Some r :: q → (w_clock w <= rd_gov rd)%Z →
  winv (take_request r rd (set_queue q w)).
Proof.
  intros [Hg [H1 H2 H3 H4 H5]] Hidle Eq Hle. unfold idle_worker in Hidle.
  unfold queued, running in *. rewrite Eq in *. csimpl in *.
  assert (w_putting w ++ r :: omap id q ≡ₚ r :: w_putting w ++ omap id q) as Hperm by solve_Permutation.
  rewrite Hperm in Hg. assert (decided r) as [d Hd].
  { rewrite Forall_app, Forall_cons in H5. tauto. }
  pose proof (ginv_activate _ _ _ _ _ _ _ Hg Hd Hle) as Ha.
  unfold take_request. rewrite Hd. split.
  - unfold queued, running. simpl. rewrite fmap_app. simpl.
    assert ((ru_request <$> w_running w) ++ [r] ≡ₚ r :: (ru_request <$> w_running w)) as Hperm'
      by solve_Permutation.
    rewrite <- Hperm' in Ha. eapply ginv_frame; [exact Ha|simpl; reflexivity..].
  - constructor; simpl; rewrite ?length_app; simpl; try done; try lia.
    unfold queued, running. simpl. rewrite fmap_app. csimpl.
    rewrite Forall_app, Forall_cons, Forall_app in H5. rewrite !Forall_app, Forall_singleton. tauto.
Qed.

Lemma release_lists r result tokens cost rd w :
  w_putting (release_request cfg r result tokens cost rd w) = w_putting w ∧
  w_queue (release_request cfg r result tokens cost rd w) = w_queue w ∧
  w_running (release_request cfg r result tokens cost rd w) = w_running w.
Proof.
  unfold release_request. by destruct (fr_decision r), (fr_descriptor r),
    (_extract_str (JObj (fr_ctx r)) "idempotency_key").
Qed.

Lemma release_counts r result tokens cost rd w :
  w_gone (release_request cfg r result tokens cost rd w) = w_gone w ∧
  w_workers (release_request cfg r result tokens cost rd w) = w_workers w ∧
  w_started (release_request cfg r result tokens cost rd w) = w_started w ∧
  w_active (release_request cfg r result tokens cost rd w) = w_active w.
Proof.
  unfold release_request. by destruct (fr_decision r), (fr_descriptor r),
    (_extract_str (JObj (fr_ctx r)) "idempotency_key").
Qed.

Lemma finish_binv u out rd w : binv 1 w → binv 0 (finish cfg u out rd w).
Proof.
  intros [H1 H2 H3 H4 H5]. unfold finish. cbv zeta.
  set (w0 := end_run _ _ _ _ _).
  assert (w_active w0 = (w_active w - 1)%Z) as E0 by done.
  assert (binv 1 (set_active (w_active w) w0)) as Hb0
    by (eapply binv_frame; [by constructor|simpl; reflexivity..]).
  clearbody w0. destruct Hb0 as [B1 B2 B3 B4 B5]. unfold queued, running in *. simpl in B1, B2, B3, B4, B5.
  destruct (_extract_usage _) as [[tokens cost]|];
    [|constructor; unfold queued, running; simpl; try done; lia].
  set (result := mkEnvelope _ _ _ _ _ _ _ _ _ _ _).
  destruct (release_lists (ru_request u) result tokens cost rd w0) as (E1 & E2 & E3).
  destruct (release_counts (ru_request u) result tokens cost rd w0) as (E4 & E5 & E6 & E7).
  set (w1 := release_request _ _ _ _ _ _ _) in *. clearbody w1.
  destruct (_build_run_record _ _ _ _ _ _ _ _ _); constructor; unfold queued, running; simpl;
    rewrite ?E1, ?E2, ?E3, ?E4, ?E5, ?E6, ?E7; try done; lia.
Qed.

Lemma finish_lists u out rd w :
  w_putting (finish cfg u out rd w) = w_putting w ∧ w_queue (finish cfg u out rd w) = w_queue w ∧
  w_running (finish cfg u out rd w) = w_running w.
Proof.
  unfold finish. cbv zeta. set (result := mkEnvelope _ _ _ _ _ _ _ _ _ _ _). set (w0 := end_run _ _ _ _ _).
  assert (w_putting w0 = w_putting w ∧ w_queue w0 = w_queue w ∧ w_running w0 = w_running w) as (<- & <- & <-)
    by done. clearbody w0 result.
  destruct (_extract_usage _) as [[tokens cost]|]; [|done].
  pose proof (release_lists (ru_request u) result tokens cost rd w0) as Hr.
  by destruct (_build_run_record _ _ _ _ _ _ _ _ _).
Qed.

(** A run taken out of the list, with the rest of the invariant. *)
Record held_run (u : Run) (w : world) : Prop := {
  hr_ginv : ginv [] (w_putting w ++ queued w) (ru_request u :: running w) w;
  hr_binv : binv 1 w;
  hr_decided : decided (ru_request u)
}.

Lemma hold_run w u l1 l2 : winv w → w_running w = l1 ++ u :: l2 → held_run u (set_running (l1 ++ l2) w).
Proof.
  intros [Hg [H1 H2 H3 H4 H5]] E. unfold queued, running in *. rewrite E in *.
  rewrite length_app in *. simpl in *.
  assert (ru_request <$> l1 ++ u :: l2 ≡ₚ ru_request u :: (ru_request <$> l1 ++ l2)) as Hperm.
  { rewrite !fmap_app. simpl. solve_Permutation. }
  rewrite Hperm in Hg, H5. constructor.
  - exact Hg.
  - constructor; simpl; rewrite ?length_app; try done; try lia.
    unfold queued, running. simpl. rewrite !Forall_app, Forall_cons in *. tauto.
  - rewrite !Forall_app, Forall_cons in H5. tauto.
Qed.

Lemma held_finish u out rd w : held_run u w → (w_clock w <= rd_gov rd)%Z → winv (finish cfg u out rd w).
Proof.
  intros [Hg Hb [d Hd]] Hle. split; [|by apply finish_binv].
  destruct (finish_lists u out rd w) as (E1 & E2 & E3). unfold queued, running in *.
  rewrite E1, E2, E3. by eapply ginv_finish.
Qed.

(** Going on with the run, in whatever phase. *)
Lemma held_continue u u' w :
  held_run u w → ru_request u' = ru_request u → winv (set_running (w_running w ++ [u']) w).
Proof.
  intros [Hg [H1 H2 H3 H4 H5] Hd] Er. unfold queued, running in *. split.
  - eapply ginv_frame; [|simpl; reflexivity..]. unfold queued, running. simpl. rewrite fmap_app. simpl.
    rewrite Er.
    assert ((ru_request <$> w_running w) ++ [ru_request u] ≡ₚ ru_request u :: (ru_request <$> w_running w))
      as -> by solve_Permutation. exact Hg.
  - constructor; simpl; rewrite ?length_app; simpl; try done; try lia.
    unfold queued, running. simpl. rewrite fmap_app. simpl. rewrite Er.
    rewrite !Forall_app in *. rewrite Forall_singleton. tauto.
Qed.

(** Parts of the world a run changes without touching the invariant. *)
Lemma held_frame u w w' :
  held_run u w → (∀ c W R, ginv c W R w → ginv c W R w') → (binv 1 w → binv 1 w') →
  w_putting w' = w_putting w → w_queue w' = w_queue w → w_running w' = w_running w → held_run u w'.
Proof.
  intros [Hg Hb Hd] HG HB E1 E2 E3. constructor; [|by apply HB|done].
  unfold queued, running in *. rewrite E1, E2, E3. by apply HG.
Qed.

Lemma held_hub u h w : held_run u w → held_run u (set_hub h w).
Proof.
  intros Hh. apply (held_frame u w); [done| | |done|done|done].
  - intros c W R Hg. eapply ginv_frame; [exact Hg|simpl; reflexivity..].
  - intros Hb. eapply binv_frame; [exact Hb|simpl; reflexivity..].
Qed.

Lemma held_sink u s w : held_run u w → held_run u (set_sink s w).
Proof.
  intros Hh. apply (held_frame u w); [done| | |done|done|done].
  - intros c W R Hg. eapply ginv_frame; [exact Hg|simpl; reflexivity..].
  - intros Hb. eapply binv_frame; [exact Hb|simpl; reflexivity..].
Qed.

Lemma run_deferred_inv u token rd w :
  held_run u w → (w_clock w <= rd_gov rd)%Z → winv (run_deferred cfg u token rd w).
Proof.
  intros Hh Hle. unfold run_deferred, deferred_done. destruct (negb _); [by apply held_finish|].
  destruct (jget "req_id" (fr_inputs (ru_request u))); try (apply held_finish; [by apply held_hub|done]).
  destruct (consume_signal _ _) as [[payload|] hub]; cbv zeta.
  - apply held_finish; [by do 3 apply held_hub|done].
  - destruct (flt _ _); [|apply held_finish; [by do 2 apply held_hub|done]].
    apply (held_continue u); [by do 2 apply held_hub|done].
Qed.

Lemma poll_round_inv u token req_id deadline rd w :
  held_run u w → (w_clock w <= rd_gov rd)%Z → winv (poll_round cfg u token req_id deadline rd w).
Proof.
  intros Hh Hle. unfold poll_round, deferred_done. destruct (flt _ _); [|by apply held_finish].
  destruct (consume_signal _ _) as [[payload|] hub]; cbv zeta.
  - apply held_finish; [by do 2 apply held_hub|done].
  - apply (held_continue u); [by apply held_hub|done].
Qed.

(** *** Every step *)

(** Fields outside the invariant. *)
Lemma winv_frame w w' :
  winv w → (∀ c W R, ginv c W R w → ginv c W R w') → (binv 0 w → binv 0 w') →
  w_putting w' = w_putting w → queued w' = queued w → w_running w' = w_running w → winv w'.
Proof.
  intros [Hg Hb] HG HB E1 E2 E3. split; [|by apply HB].
  unfold running in *. rewrite E1, E2, E3. by apply HG.
Qed.

Ltac same_fields :=
  match goal with
  | Hw : winv ?w |- winv _ =>
      apply (winv_frame w);
      [exact Hw|intros ? ? ? Hg; eapply ginv_frame; [exact Hg|simpl; reflexivity..]
      |intros Hb; eapply binv_frame; [exact Hb|simpl; reflexivity..]|reflexivity..]
  end.

Lemma close_sink_inv w : winv w → winv (close_sink w).
Proof. intros Hw. unfold close_sink. destruct (w_sink w); [same_fields|done]. Qed.

Lemma put_sentinel_inv n w : winv w → queue_full cfg w = false → winv (put_sentinel n w).
Proof.
  intros [Hg [H1 H2 H3 H4 H5]] Hf.
  assert (omap id (w_queue w ++ [None]) = omap id (w_queue w)) as Eq
    by (rewrite omap_app; simpl; apply app_nil_r).
  split.
  - unfold queued, running. simpl. rewrite Eq. eapply ginv_frame; [exact Hg|simpl; reflexivity..].
  - constructor; simpl; try done; [|unfold queued, running; simpl; by rewrite Eq].
    intros Hc. rewrite length_app. simpl. unfold queue_full in Hf.
    apply Nat.eqb_neq in Hc. rewrite Hc in Hf. apply Nat.leb_gt in Hf. lia.
Qed.

Lemma take_sentinel_inv w q :
  winv w → idle_worker w → w_queue w = None :: q → winv (take_sentinel (set_queue q w)).
Proof.
  intros [Hg [H1 H2 H3 H4 H5]] Hi Eq. unfold idle_worker in Hi. unfold queued, running in *.
  rewrite Eq in *. split.
  - unfold queued, running. simpl. eapply ginv_frame; [exact Hg|simpl; reflexivity..].
  - constructor; simpl; try done; [lia|]. intros Hc. specialize (H4 Hc). simpl in H4. lia.
Qed.

Lemma closed_down_inv w : winv w → w_gone w = w_workers w → winv (closed_down w).
Proof.
  intros [Hg [H1 H2 H3 H4 H5]] E. apply close_sink_inv.
  assert (w_running w = []) as Er. { apply nil_length_inv. lia. }
  split; [eapply ginv_frame; [exact Hg|simpl; reflexivity..]|].
  constructor; simpl; rewrite ?Er; try done. by rewrite H3, Er.
Qed.

Lemma put_inv w r l1 l2 :
  winv w → w_putting w = l1 ++ r :: l2 →
  ginv [] (r :: (l1 ++ l2) ++ queued w) (running w) (set_putting (l1 ++ l2) w) ∧
  binv 0 (set_putting (l1 ++ l2) w) ∧ decided r.
Proof.
  intros [Hg [H1 H2 H3 H4 H5]] E. rewrite E in *.
  assert ((l1 ++ r :: l2) ++ queued w ≡ₚ r :: (l1 ++ l2) ++ queued w) as Hperm by solve_Permutation.
  assert (Forall decided (l1 ++ l2 ++ queued w ++ running w) ∧ decided r) as [Hd Hr].
  { rewrite !Forall_app, Forall_cons in *. tauto. }
  split_and!; [| |done].
  - rewrite Hperm in Hg. eapply ginv_frame; [exact Hg|simpl; reflexivity..].
  - constructor; simpl; try done. unfold queued, running in *. simpl. by rewrite <- (assoc_L (++)).
Qed.

Lemma ginv_abandon c r W R w :
  ginv c (r :: W) R w → ginv c (r :: W) R (abandon (fr_future r) w).
Proof.
  intros Hg. pose proof (ginv_live_lt _ _ _ _ (fr_future r) Hg) as Hlt.
  destruct Hg as [Hc Hh Hp Hf Hi Hw Ha Hr]. constructor; simpl; try done.
  - intros k f [?|?]%Hi; [by left|right; set_solver].
  - intros x f [?|?]%Hw; [by left|right; set_solver].
  - intros f [Hf'|Hf']%elem_of_app; [by apply Ha|]. apply list_elem_of_singleton in Hf' as ->.
    apply Hlt. left.
Qed.

Lemma rstep_inv w w' : winv w → rstep cfg w w' → winv w'.
Proof.
  intros Hw. destruct 1 as [w name s|w|w req_id payload|w name inputs ctx mode rd Hle|w r l1 l2 E Hf
    |w r l1 l2 E|w r q rd Hi E Hle|w q Hi E|w u l1 l2 rd w' E Em Hle Hrun|w u l1 l2 token rd E Em Ep Hle
    |w u l1 l2 token req_id deadline rd E Ep Hle|w E|w n E Hf|w E Eg].
  - same_fields.
  - same_fields.
  - same_fields.
  - by apply execute_inv.
  - destruct (put_inv w r l1 l2 Hw E) as (Hg & Hb & Hd). by eapply put_request_inv.
  - destruct (put_inv w r l1 l2 Hw E) as (Hg & Hb & Hd).
    eapply not_accepted_inv; [by apply ginv_abandon|done|done|done| |done|right; simpl; set_solver].
    eapply binv_frame; [exact Hb|simpl; reflexivity..].
  - by apply take_request_inv.
  - by apply take_sentinel_inv.
  - unfold run_immediate in Hrun. destruct (_execute_immediately _) as [[spans out]|]; [|done].
    simplify_eq/=. apply held_finish; [|done]. apply held_sink. by eapply hold_run.
  - apply run_deferred_inv; [|done]. by eapply hold_run.
  - apply poll_round_inv; [|done]. by eapply hold_run.
  - unfold aclose. destruct (w_started w); [same_fields|by apply close_sink_inv].
  - by apply put_sentinel_inv.
  - by apply closed_down_inv.
Qed.

Lemma rreachable_inv w0 w : winv w0 → rreachable cfg w0 w → winv w.
Proof. intros Hw. induction 1 as [|w w' _ IH Hs]; [done|]. by eapply rstep_inv. Qed.
End spec.
