(* ===== verification/FlowRuntimeSpec.v ===== *)
(** * What the flow runtime promises

    Bounds, one run per idempotency key, the limits of the governance
    configuration and one answer per call in every reachable state; and from
    every reachable state a continuation that answers the calls.  The results
    are proved for every lawful governance and instantiated with the
    manager.  The file ends with concrete calls. *)

From S2P Require Import Prelude PyVal PyConv Task Rolling RateLimit Guard Hitl GovManager GovSpec.
From S2P Require Import AuditLog Idempotency GovConfig FlowDef FlowExec FlowGov FlowRuntime.
From S2P Require Import FlowTasks FlowTasksSpec.
From stdpp Require Import base gmap strings list list_tactics pretty relations.
From Stdlib Require Import ZArith Lia.

Section results.
Context {G : Type} `{LawfulGovernance G} {FH : FlowHash} {PT : PyText}.
Context (cfg : RuntimeConfig).
Abbreviation world := (world (G := G)) (only parsing).

(** Requests that wait for a place, wait in the queue or run. *)
Definition in_runtime (w : world) : list Request := w_putting w ++ queued w ++ running w.

Lemma runtime_new_inv gov sink listeners clock :
  holds gov clock [] [] → winv cfg (g_config gov) (runtime_new gov sink listeners clock).
Proof. intros Hh. split; [|constructor; simpl; try done; lia]. constructor; simpl; try done; set_solver. Qed.

(** ** One request per key *)

Lemma nodup_keys (inflight : gmap string nat) (rs : list Request) :
  NoDup (fr_future <$> rs) →
  (∀ r k, r ∈ rs → req_key r = Some k → inflight !! k = Some (fr_future r)) →
  NoDup (omap req_key rs).
Proof.
  induction rs as [|r rs IH]; csimpl; [constructor|]. intros [Hn Hnd]%NoDup_cons Hk.
  assert (NoDup (omap req_key rs)) as Hrest by (apply IH; [done|]; intros; apply Hk; [by right|done]).
  destruct (req_key r) as [k|] eqn:E; [|done]. apply NoDup_cons. split; [|done].
  intros (r' & Hin & E')%list_elem_of_omap. apply Hn.
  assert (Some (fr_future r) = Some (fr_future r')) as [= ->].
  { rewrite <- (Hk r k); [|left|done]. apply Hk; [by right|done]. }
  by apply list_elem_of_fmap_2.
Qed.

(** ** The limit of a flow *)

Lemma flow_key_scope (gc : GovernanceConfig) r s :
  limits_enabled gc = true → lc_per_flow (gc_limits gc) !! fr_flow_name r = Some s →
  fr_flow_name r ≠ EmptyString →
  ("flow", Some (fr_flow_name r), None) ∈ scope_keys gc (_build_request_descriptor r).
Proof.
  intros Hl Hs Hne. unfold scope_keys. rewrite Hl. unfold _limit_scopes. simpl.
  unfold limits_enabled, any_limits in Hl. apply andb_true_iff in Hl as [_ [-> _]%andb_true_iff]. simpl.
  rewrite !fmap_app, !elem_of_app. right. left.
  destruct (fr_flow_name r) as [|a n]; [done|]. simpl. unfold scope_of. rewrite Hs. simpl. set_solver.
Qed.

Lemma holders_count gc k (rs : list Request) (P : Request → Prop) `{∀ r, Decision (P r)} :
  Forall decided rs → (∀ r, r ∈ rs → reserved_as gc r) →
  (∀ r, r ∈ rs → P r → k ∈ scope_keys gc (_build_request_descriptor r)) →
  length (filter P rs) ≤ holders k (omap fr_decision rs).
Proof.
  intros Hd Hr HP. induction Hd as [|r rs [d Hd] Hds IH]; csimpl; [lia|].
  rewrite Hd. rewrite holders_cons, filter_cons.
  assert (length (filter P rs) ≤ holders k (omap fr_decision rs)) as Hle.
  { apply IH; intros; [apply Hr|apply HP]; try done; by right. }
  destruct (decide (P r)) as [Hp|]; simpl; [|destruct (k ∈? gd_limits d); lia].
  assert (k ∈ gd_limits d) as Hk.
  { specialize (Hr r ltac:(left)). unfold reserved_as in Hr. rewrite Hd in Hr. destruct Hr as [-> _].
    apply HP; [left|done]. }
  apply inb_true in Hk. rewrite Hk. lia.
Qed.

Lemma flow_limit gc w f s n :
  winv cfg gc w → f ≠ EmptyString → limits_enabled gc = true →
  lc_per_flow (gc_limits gc) !! f = Some s → ls_enabled s = true → ls_concurrency s = Some n →
  (Z.of_nat (length (filter (fun r => fr_flow_name r = f) (in_runtime w))) <= Z.max 0 n)%Z.
Proof.
  intros [Hg [_ _ _ _ Hd]] Hf Hl Hs He Hn. pose proof Hg as [Hc Hh _ _ _ _ _ Hr].
  set (k := ("flow", Some f, None) : LimitKey).
  assert (key_concurrency (g_config (w_gov w)) k = Some n) as Hk.
  { rewrite Hc. unfold key_concurrency. simpl. rewrite Hs. simpl. by rewrite He. }
  pose proof (holds_limit _ _ _ _ _ _ Hh Hk) as Hlim.
  assert (length (filter (fun r => fr_flow_name r = f) (in_runtime w)) ≤
          holders k (omap fr_decision (in_runtime w))) as Hcount.
  { apply (holders_count gc); [exact Hd| |].
    - intros r Hin. apply Hr. unfold in_runtime in Hin. set_solver.
    - intros r _ <-. by eapply flow_key_scope. }
  assert (holders k (omap fr_decision (in_runtime w)) ≤
    holders k (omap fr_decision (w_putting w ++ queued w)) +
    holders k (omap fr_decision (running w ++ w_lost w))) as Hle; [|lia].
  unfold in_runtime. rewrite (assoc_L (++)), !omap_app. unfold holders.
  rewrite !filter_app, !length_app. lia.
Qed.

(** ** Followers *)

Lemma not_accepted_followers r code (w : world) : w_followers (not_accepted r code w) = w_followers w.
Proof. unfold not_accepted. rewrite pop_inflight_eq. by destruct (fr_decision r). Qed.

Lemma admit_followers r rd (w : world) : w_followers (pass_gates cfg r rd w) = w_followers w.
Proof.
  unfold pass_gates. destruct (g_guard _ _ _ _) as [[gd g1]|]; [|done]. cbv zeta.
  destruct (negb (gu_allowed gd)); [by rewrite pop_inflight_eq|].
  destruct (g_check _ _ _) as [d g2]. destruct (negb (gd_allowed d)); [by rewrite pop_inflight_eq|].
  unfold _enqueue. set (w1 := set_clock _ _). change (w_followers w) with (w_followers w1). clearbody w1.
  destruct (ensure_workers_fields cfg w1) as (_ & _ & _ & <-).
  destruct (rc_queue_capacity cfg =? 0); [done|]. destruct (negb _); [|done].
  destruct (queue_full cfg _); [|done]. apply not_accepted_followers.
Qed.

Lemma execute_followers name inputs ctx mode rd (w : world) :
  w_followers w ⊆ w_followers (execute cfg name inputs ctx mode rd w).
Proof.
  unfold execute. cbv zeta. destruct (w_flows _ !! name); [|done].
  destruct (flow_revision _) as [[rev s1]|]; [|done].
  destruct (idem_key ctx) as [key|]; [|by rewrite admit_followers].
  destruct (_get_cached_result _ _ _ _) as [[env|] cache]; [done|].
  destruct (w_inflight _ !! key); [simpl; set_solver|by rewrite admit_followers].
Qed.

(** A call that waits for [f] still waits, or returned what [f] returned. *)
Definition delivered (x f : nat) (w : world) : Prop :=
  (x, f) ∈ w_followers w ∨
  ∃ env, (f, inl env) ∈ w_answers w ∧ (x, inl (_clone_result env)) ∈ w_answers w.

Lemma finish_delivers u out rd (w : world) x f :
  (x, f) ∈ w_followers w → delivered x f (finish cfg u out rd w).
Proof.
  intros Hx. unfold finish. cbv zeta. destruct (_extract_usage _) as [[tokens cost]|]; [|by left].
  match goal with |- context [release_request _ _ ?res _ _ _ ?v] => set (result := res); set (w0 := v) end.
  assert (w_followers w0 = w_followers w) as E0 by done. clearbody w0 result.
  assert (∃ w1, release_request cfg (ru_request u) result tokens cost rd w0 =
                set_result (fr_future (ru_request u)) result w1 ∧ w_followers w1 = w_followers w)
    as (w1 & Ew & E1).
  { eexists. split; [reflexivity|]. rewrite <- E0.
    by destruct (_extract_str (JObj (fr_ctx (ru_request u))) "idempotency_key"),
      (fr_decision (ru_request u)), (fr_descriptor (ru_request u)). }
  rewrite Ew. assert (delivered x f (set_result (fr_future (ru_request u)) result w1)) as Hd.
  { destruct (decide (f = fr_future (ru_request u))) as [->|Hne].
    - right. exists result. simpl. split; [set_solver|]. rewrite elem_of_app, elem_of_cons. do 2 right.
      apply list_elem_of_fmap. exists (x, fr_future (ru_request u)). split; [done|].
      apply list_elem_of_filter. by rewrite E1.
    - left. simpl. apply list_elem_of_filter. by rewrite E1. }
  destruct (_build_run_record _ _ _ _ _ _ _ _ _); unfold delivered in *; simpl in *; exact Hd.
Qed.

Lemma delivered_followers x f (w w' : world) :
  (x, f) ∈ w_followers w → w_followers w ⊆ w_followers w' → delivered x f w'.
Proof. intros Hx Hs. left. by apply Hs. Qed.

Lemma rstep_delivers (w w' : world) x f :
  rstep cfg w w' → (x, f) ∈ w_followers w → delivered x f w'.
Proof.
  destruct 1 as [w name s|w|w req_id payload|w name inputs ctx mode rd Hle|w r l1 l2 E Hf
    |w r l1 l2 E|w r q rd Hi E Hle|w q Hi E|w u l1 l2 rd w' E Em Hle Hrun|w u l1 l2 token rd E Em Ep Hle
    |w u l1 l2 token req_id deadline rd E Ep Hle|w E|w n E Hf|w E Eg]; intros Hx; try by left.
  - eapply delivered_followers; [done|]. apply execute_followers.
  - left. by rewrite not_accepted_followers.
  - left. unfold take_request. by destruct (fr_decision r).
  - unfold run_immediate in Hrun. destruct (_execute_immediately _) as [[spans out]|]; [|done].
    simplify_eq/=. by apply finish_delivers.
  - unfold run_deferred, deferred_done. destruct (negb _); [by apply finish_delivers|].
    destruct (jget "req_id" (fr_inputs (ru_request u))); try by apply finish_delivers.
    destruct (consume_signal _ _) as [[payload|] hub]; cbv zeta; [by apply finish_delivers|].
    destruct (flt _ _); [by left|by apply finish_delivers].
  - unfold poll_round, deferred_done. destruct (flt _ _); [|by apply finish_delivers].
    destruct (consume_signal _ _) as [[payload|] hub]; cbv zeta; [by apply finish_delivers|by left].
  - left. unfold aclose, close_sink. by destruct (w_started w), (w_sink w).
  - left. unfold closed_down, close_sink. by destruct (w_sink _).
Qed.

(** C19: in every state the runtime reaches from its start, whatever the
    interleaving of calls, workers, timeouts and shutdown:
    - no more runs than workers, no more queued requests than the capacity,
      and the active counter is the number of runs;
    - every call is exactly one of: answered once, the owner of one request
      that waits, runs or was lost, a follower of another call;
    - no two requests with one idempotency key are in the runtime;
    - the requests of a flow in the runtime never exceed the flow's
      concurrency limit;
    - a follower keeps waiting until the call it follows returns, and then
      returns a clone of the same result. *)
Theorem flow_runtime_safe gov sink listeners clock w :
  holds gov clock [] [] → rreachable cfg (runtime_new gov sink listeners clock) w →
  (length (w_running w) ≤ rc_max_concurrency cfg ∧
   (rc_queue_capacity cfg ≠ 0 → length (w_queue w) ≤ rc_queue_capacity cfg) ∧
   w_active w = Z.of_nat (length (w_running w))) ∧
  (w_answers w).*1 ++ (fr_future <$> in_runtime w ++ w_lost w) ++ (w_followers w).*1
    ≡ₚ seq 0 (w_next w) ∧
  NoDup (omap req_key (in_runtime w ++ w_lost w)) ∧
  (∀ f s n, f ≠ EmptyString → limits_enabled (g_config gov) = true →
     lc_per_flow (gc_limits (g_config gov)) !! f = Some s → ls_enabled s = true →
     ls_concurrency s = Some n →
     (Z.of_nat (length (filter (fun r => fr_flow_name r = f) (in_runtime w))) <= Z.max 0 n)%Z) ∧
  (∀ w' x f, rstep cfg w w' → (x, f) ∈ w_followers w → delivered x f w').
Proof.
  intros Hh Hr. pose proof (rreachable_inv _ _ _ _ (runtime_new_inv gov sink listeners clock Hh) Hr) as Hw.
  pose proof Hw as [Hg [H1 H2 H3 H4 H5]].
  assert (in_runtime w ++ w_lost w = (w_putting w ++ queued w) ++ running w ++ w_lost w) as Ein.
  { unfold in_runtime. by rewrite <- !(assoc_L (++)). }
  split_and!; [destruct (w_started w); lia|done|done| | | |].
  - rewrite Ein. exact (gp_calls _ _ _ _ _ _ _ _ _ _ _ _ Hg).
  - rewrite Ein. eapply nodup_keys; [by eapply ginv_live_nodup|]. apply (gp_flight _ _ _ _ _ _ _ _ _ _ _ _ Hg).
  - intros f s n. by apply flow_limit.
  - intros w' x f Hs Hx. by eapply rstep_delivers.
Qed.

(** ** Draining *)

(** The readings of a step at time [gov], with the wall clock at [wall]. *)
Definition at_time (gov wall : Z) : Readings := mkReadings EmptyString 0 0 0 gov wall.

(** What finishing runs leaves alone. *)
Definition keeps_queue (w w' : world) : Prop :=
  w_putting w' = w_putting w ∧ w_queue w' = w_queue w ∧ w_workers w' = w_workers w ∧ w_next w' = w_next w.

Lemma finish_keeps u out rd (w : world) : keeps_queue w (finish cfg u out rd w).
Proof.
  destruct (finish_lists cfg u out rd w) as (E1 & E2 & _). split_and!; [done|done| |].
  - unfold finish. cbv zeta. set (w0 := end_run _ _ _ _ _).
    change (w_workers w) with (w_workers w0). clearbody w0.
    destruct (_extract_usage _) as [[tokens cost]|]; [|done].
    match goal with |- context [release_request _ _ ?res _ _ _ _] =>
      destruct (release_counts cfg (ru_request u) res tokens cost rd w0) as (_ & E & _) end.
    by destruct (_build_run_record _ _ _ _ _ _ _ _ _).
  - unfold finish. cbv zeta. set (w0 := end_run _ _ _ _ _).
    change (w_next w) with (w_next w0). clearbody w0.
    destruct (_extract_usage _) as [[tokens cost]|]; [|done]. unfold release_request.
    by destruct (_build_run_record _ _ _ _ _ _ _ _ _), (fr_decision (ru_request u)),
      (fr_descriptor (ru_request u)), (_extract_str (JObj (fr_ctx (ru_request u))) "idempotency_key").
Qed.

Lemma finish_ends u out rd (w v : world) l :
  w_running v = l → keeps_queue w v →
  w_running (finish cfg u out rd v) = l ∧ keeps_queue w (finish cfg u out rd v).
Proof.
  intros Hl (E1 & E2 & E3 & E4). destruct (finish_lists cfg u out rd v) as (_ & _ & ->).
  destruct (finish_keeps u out rd v) as (F1 & F2 & F3 & F4).
  split; [done|]. split_and!; congruence.
Qed.

(** A polling run ends when its deadline passes, or, when it has none, when
    its signal comes. *)
Lemma poll_ends (w : world) u l1 l2 token req_id deadline :
  w_running w = l1 ++ u :: l2 → ru_phase u = Polling token req_id deadline →
  ∃ w', rtc (rstep cfg) w w' ∧ w_running w' = l1 ++ l2 ∧ keeps_queue w w'.
Proof.
  intros E Ep.
  assert (∀ wall, flt (Fin wall) deadline = false → ∃ w', rtc (rstep cfg) w w' ∧
    w_running w' = l1 ++ l2 ∧ keeps_queue w w') as Hpast.
  { intros wall Hf. eexists. split.
    - apply rtc_once. apply (s_poll cfg w u l1 l2 token req_id deadline (at_time (w_clock w) wall)); [done|done|].
      simpl. lia.
    - unfold poll_round, at_time. cbn [rd_wall]. rewrite Hf. by apply finish_ends. }
  destruct deadline as [z| | |].
  - apply (Hpast z). simpl. lia.
  - set (w1 := set_hub (signal (w_hub w) req_id []) w).
    eexists. split.
    + eapply rtc_l; [apply (s_signal cfg w req_id [])|]. apply rtc_once.
      apply (s_poll cfg w1 u l1 l2 token req_id PInf (at_time (w_clock w) 0)); [done|done|]. simpl. lia.
    + unfold poll_round, consume_signal, deferred_done. cbn. rewrite lookup_insert_eq. by apply finish_ends.
  - by apply (Hpast 0%Z).
  - by apply (Hpast 0%Z).
Qed.

(** The first stretch of a deferred run ends it or starts to poll. *)
Lemma deferred_starts (w v : world) u rd l :
  w_running v = l → keeps_queue w v →
  let v' := run_deferred cfg u EmptyString rd v in
  keeps_queue w v' ∧
  (w_running v' = l ∨
   ∃ req_id deadline u', w_running v' = l ++ [u'] ∧ ru_phase u' = Polling EmptyString req_id deadline).
Proof.
  intros Hl Hk. cbv zeta.
  assert (∀ out v, w_running v = l → keeps_queue w v →
    keeps_queue w (finish cfg u out rd v) ∧
    (w_running (finish cfg u out rd v) = l ∨ ∃ req_id deadline u',
       w_running (finish cfg u out rd v) = l ++ [u'] ∧ ru_phase u' = Polling EmptyString req_id deadline)) as Hfin.
  { intros out v' Hv Hkv. destruct (finish_ends u out rd w v' _ Hv Hkv). auto. }
  unfold run_deferred, deferred_done. destruct (negb _); [by apply Hfin|].
  destruct (jget "req_id" (fr_inputs (ru_request u))) as [| | | |req_id| |]; try by apply Hfin.
  destruct (consume_signal _ _) as [[payload|] hub]; cbv zeta; [by apply Hfin|].
  destruct (flt _ _); [|by apply Hfin]. split; [done|]. right. simpl. rewrite Hl. eauto 6.
Qed.

Lemma run_ends (w : world) u l1 l2 :
  w_running w = l1 ++ u :: l2 →
  ∃ w', rtc (rstep cfg) w w' ∧ w_running w' = l1 ++ l2 ∧ keeps_queue w w'.
Proof.
  intros E. destruct (ru_phase u) as [|token req_id deadline] eqn:Ep; [|by eapply poll_ends].
  set (rd := at_time (w_clock w) 0).
  assert (w_clock w <= rd_gov rd)%Z as Hle by (simpl; lia).
  destruct (fr_response_mode (ru_request u)) eqn:Em.
  - destruct (exec_loop_spec (S (length (fs_steps (fr_spec (ru_request u))))) (ru_request u)
      (entry_step (fr_spec (ru_request u))) [] [] (JObj (fr_inputs (ru_request u))) [])
      as (spans & out & Er & _); [constructor|set_solver|set_solver|simpl; lia|].
    eexists. split.
    + apply rtc_once, (s_run_immediate cfg w u l1 l2 rd); [done|done|done|].
      unfold run_immediate, _execute_immediately. rewrite Er. reflexivity.
    + by apply finish_ends.
  - pose proof (s_run_deferred cfg w u l1 l2 EmptyString rd E Em Ep Hle) as Hstep.
    destruct (deferred_starts w (set_running (l1 ++ l2) w) u rd (l1 ++ l2)) as [Hk Hcase]; [done|done|].
    set (w1 := run_deferred _ _ _ _ _) in *. clearbody w1.
    destruct Hcase as [E1|(req_id & deadline & u' & E1 & Ep')].
    + exists w1. split; [by apply rtc_once|done].
    + destruct (poll_ends w1 u' (l1 ++ l2) [] EmptyString req_id deadline E1 Ep') as (w2 & Hs & E2 & Hk2).
      exists w2. split; [by eapply rtc_l|]. rewrite app_nil_r in E2. split; [done|].
      destruct Hk as (? & ? & ? & ?), Hk2 as (? & ? & ? & ?). split_and!; congruence.
Qed.

Lemma rtc_inv gc (w w' : world) : winv cfg gc w → rtc (rstep cfg) w w' → winv cfg gc w'.
Proof. intros Hw. induction 1 as [|x y z Hs _ IH]; [done|]. by apply IH, (rstep_inv cfg gc x). Qed.

(** No worker task is left, or nothing is left to do. *)
Definition at_rest (w : world) : Prop :=
  w_running w = [] ∧ (w_gone w = w_workers w ∨ (w_putting w = [] ∧ w_queue w = [])).

Lemma drains gc (w : world) :
  winv cfg gc w → ∃ w', rtc (rstep cfg) w w' ∧ w_next w' = w_next w ∧ at_rest w'.
Proof.
  remember (3 * length (w_putting w) + 2 * length (w_queue w) + length (w_running w)) as m eqn:Hm.
  revert w Hm. induction (lt_wf m) as [m _ IH]. intros w Hm Hw.
  assert (∀ w1, rtc (rstep cfg) w w1 → w_next w1 = w_next w →
    3 * length (w_putting w1) + 2 * length (w_queue w1) + length (w_running w1) < m →
    ∃ w', rtc (rstep cfg) w w' ∧ w_next w' = w_next w ∧ at_rest w') as Hgo.
  { intros w1 Hs Hn Hlt. destruct (IH _ Hlt w1 eq_refl (rtc_inv gc w w1 Hw Hs)) as (w' & Hs' & Hn' & Hr).
    exists w'. split_and!; [by etrans|congruence|done]. }
  destruct (w_running w) as [|u l] eqn:Er.
  2: { destruct (run_ends w u [] l Er) as (w1 & Hs & E1 & (F1 & F2 & F3 & F4)).
       apply (Hgo w1 Hs F4). rewrite F1, F2, E1. simpl in *. lia. }
  destruct (w_queue w) as [|x q] eqn:Eq.
  - destruct (w_putting w) as [|r l] eqn:Ep.
    { exists w. split_and!; [done|done|]. split; [done|]. by right. }
    eapply Hgo; [apply rtc_once, (s_put cfg w r [] l Ep)|done|simpl in *; rewrite Er, Eq; simpl; lia].
    unfold queue_full. rewrite Eq. simpl. by destruct (rc_queue_capacity cfg).
  - destruct Hw as [_ [Hwk _ _ _ _]]. rewrite Er in Hwk. simpl in Hwk.
    destruct (decide (w_gone w = w_workers w)) as [Eg|Hg].
    { exists w. split_and!; [done|done|]. split; [done|]. by left. }
    assert (idle_worker w) as Hidle by (unfold idle_worker; rewrite Er; simpl; lia).
    destruct x as [r|].
    + eapply Hgo; [apply rtc_once, (s_take cfg w r q (at_time (w_clock w) 0) Hidle Eq); simpl; lia| |].
      * unfold take_request. by destruct (fr_decision r).
      * unfold take_request. destruct (fr_decision r); simpl; rewrite Er; simpl in *; lia.
    + eapply Hgo; [apply rtc_once, (s_take_sentinel cfg w q Hidle Eq)|done|].
      simpl in *. rewrite Er. simpl. lia.
Qed.

(** C30: from every reachable state, without any further call, the runtime can
    bring every run to its end; unless by then no worker task is alive, it has
    emptied its queue and every call was answered, except the calls whose
    request was lost with its worker or that follow a future nobody will
    complete. *)
Theorem flow_runtime_drains gov sink listeners clock w :
  holds gov clock [] [] → rreachable cfg (runtime_new gov sink listeners clock) w →
  ∃ w', rtc (rstep cfg) w w' ∧ w_next w' = w_next w ∧ w_running w' = [] ∧
    (w_gone w' = w_workers w' ∨
     (w_putting w' = [] ∧ w_queue w' = [] ∧
      ∀ x, x < w_next w →
        x ∈ (w_answers w').*1 ∨ x ∈ fr_future <$> w_lost w' ∨
        ∃ f, (x, f) ∈ w_followers w' ∧ f ∈ w_abandoned w')).
Proof.
  intros Hh Hr. pose proof (rreachable_inv _ _ _ _ (runtime_new_inv gov sink listeners clock Hh) Hr) as Hw.
  destruct (drains _ w Hw) as (w' & Hs & Hn & Er & Hcase). exists w'. split_and!; [done|done|done|].
  destruct Hcase as [?|[Ep Eq]]; [by left|right]. split_and!; [done|done|]. intros x Hx.
  pose proof (rtc_inv _ _ _ Hw Hs) as [Hg _]. unfold queued, running in Hg. rewrite Ep, Eq, Er in Hg.
  destruct Hg as [_ _ Hp _ _ Hfol _ _]. simpl in Hp, Hfol.
  assert (x ∈ seq 0 (w_next w')) as Hin by (apply elem_of_seq; lia). rewrite <- Hp in Hin.
  rewrite !elem_of_app in Hin. destruct Hin as [Hin|[Hin|Hin]]; [by left|by right; left|].
  do 2 right. rewrite list_elem_of_fmap in Hin. destruct Hin as ([x' f] & -> & Hin). exists f. split; [done|].
  destruct (Hfol x' f Hin) as [Hf|]; [|done]. set_solver.
Qed.
End results.

(** ** The flow runtime on concrete calls

    The theorems of [FlowRuntimeSpec] applied with the governance manager, and
    the three ways in which a call can wait for ever. *)

From S2P Require Import Prelude PyVal PyConv Task Rolling Breaker RateLimit Guard Hitl GovManager GovSpec.
From S2P Require Import AuditLog GovConfig FlowDef FlowExec FlowGov FlowRuntime.
From S2P Require Import FlowTasks FlowTasksSpec.
From stdpp Require Import base gmap strings list pretty relations.
From Stdlib Require Import ZArith Lia.

Section examples.
#[local] Existing Instance plain_text.
#[local] Instance no_regex : PyRegex := fun _ _ => None.
#[local] Existing Instance demo_hash.
#[local] Instance demo_gov : Governance Manager := manager_governance (fun _ => None).
#[local] Instance demo_gov_lawful : LawfulGovernance Manager := manager_lawful (fun _ => None).

(** One request of [demo] at a time. *)
Definition one_at_a_time : GovernanceConfig :=
  mkGC true (mkLC true no_limit {["demo" := mkLimit true None (Some 1%Z) None None]} ∅)
    (mkBC false (mkBS false 0 0 0 0 0) ∅ ∅).

Definition manager_of (c : GovernanceConfig) (doc : GovernanceDoc) : Manager :=
  mkManager (gov_new c) doc (mkAudit false [] []).

Lemma manager_of_holds c doc t : holds (manager_of c doc) t [] [].
Proof. apply (state_holds_new c t). Qed.

Definition demo_runtime_cfg : RuntimeConfig := runtime_config default_policies 1 2 0 (of_int 30) 8.

Definition keyed (k : string) : table := [("idempotency_key", JStr k)].

(** The worker takes the next request, and runs the first one in its list. *)
Definition take_next (rd : Readings) (w : world (G := Manager)) : world :=
  match w_queue w with Some r :: q => take_request r rd (set_queue q w) | _ => w end.

Definition run_next (cfg : RuntimeConfig) (rd : Readings) (w : world (G := Manager)) : world :=
  match w_running w with
  | u :: l => default w (run_immediate cfg u rd (set_running l w))
  | [] => w
  end.

Definition clock_at (t : Z) : Readings := mkReadings "u" t t t t t.

(** A call with a key, a second one that joins it, a third one the limit
    refuses; then the run, and a fourth call answered from the cache. *)
Definition demo_start : world :=
  runtime_new (manager_of one_at_a_time default_doc) true 0 0.
Definition demo_registered : world :=
  set_flows (<["demo" := demo_flow]> (w_flows demo_start)) demo_start.
Definition demo_called : world :=
  execute demo_runtime_cfg "demo" [] (keyed "b") None (clock_at 3)
    (execute demo_runtime_cfg "demo" [] (keyed "a") None (clock_at 2)
      (execute demo_runtime_cfg "demo" [] (keyed "a") None (clock_at 1) demo_registered)).
Definition demo_finished : world :=
  execute demo_runtime_cfg "demo" [] (keyed "a") None (clock_at 6)
    (run_next demo_runtime_cfg (clock_at 5) (take_next (clock_at 4) demo_called)).

(** The numbers, states and codes of the answers. *)
Definition answer_codes (w : world (G := Manager)) : list (nat * (string * option string)) :=
  (fun ca => (ca.1, match ca.2 with
                    | inl e => (en_status e, en_error_code e)
                    | inr e => ("raised", Some (exn_class (raised e)))
                    end)) <$> w_answers w.

Example demo_answers :
  answer_codes demo_finished =
  [(2, ("rejected", Some "RATE_LIMITED")); (0, ("ok", None)); (1, ("ok", None)); (3, ("ok", None))].
Proof. by vm_compute. Qed.

Lemma demo_called_reachable : rreachable demo_runtime_cfg demo_start demo_called.
Proof.
  unfold demo_called, demo_registered.
  repeat (eapply rr_step; [|apply s_execute; vm_compute; discriminate]).
  eapply rr_step; [apply rr_start|]. apply s_register.
Qed.

Lemma demo_finished_reachable : rreachable demo_runtime_cfg demo_start demo_finished.
Proof.
  unfold demo_finished. eapply rr_step; [|apply s_execute; vm_compute; discriminate].
  set (w1 := take_next (clock_at 4) demo_called).
  assert (rreachable demo_runtime_cfg demo_start w1) as H1.
  { eapply rr_step; [apply demo_called_reachable|]. unfold w1, take_next.
    destruct (w_queue demo_called) as [|[r|] q] eqn:E; [by vm_compute in E| |by vm_compute in E].
    apply s_take; [unfold idle_worker; vm_compute; lia|done|vm_compute; discriminate]. }
  eapply rr_step; [exact H1|]. unfold run_next.
  destruct (w_running w1) as [|u l] eqn:E; [by vm_compute in E|].
  eapply (s_run_immediate _ w1 u [] l (clock_at 5)); [done| |vm_compute; discriminate|].
  - vm_compute in E. injection E as <- _. done.
  - destruct (run_immediate _ _ _ _) as [w2|] eqn:E2; [done|].
    exfalso. vm_compute in E. injection E as <- <-. by vm_compute in E2.
Qed.

Lemma flow_runtime_safe_witness :
  length (w_running demo_called) ≤ 1 ∧
  (w_answers demo_called).*1 = [2] ∧ w_followers demo_called = [(1, 0)] ∧
  (w_answers demo_called).*1 ++ (fr_future <$> in_runtime demo_called ++ w_lost demo_called) ++
    (w_followers demo_called).*1 ≡ₚ seq 0 3 ∧
  (Z.of_nat (length (filter (fun r => fr_flow_name r = "demo") (in_runtime demo_called))) <= 1)%Z.
Proof.
  destruct (flow_runtime_safe demo_runtime_cfg (manager_of one_at_a_time default_doc) true 0 0 demo_called)
    as ((Hb & _) & Hp & _ & Hl & _).
  - apply manager_of_holds.
  - apply demo_called_reachable.
  - split_and!; [exact Hb|by vm_compute|by vm_compute|exact Hp|].
    apply (Hl "demo" (mkLimit true None (Some 1%Z) None None) 1%Z); [done|by vm_compute|by vm_compute|done|done].
Defined.

Lemma flow_runtime_drains_witness :
  ∃ w', rtc (rstep demo_runtime_cfg) demo_called w' ∧ w_running w' = [] ∧ w_next w' = 3.
Proof.
  destruct (flow_runtime_drains demo_runtime_cfg (manager_of one_at_a_time default_doc) true 0 0 demo_called)
    as (w' & Hs & Hn & Hr & _).
  - apply manager_of_holds.
  - apply demo_called_reachable.
  - exists w'. split_and!; [exact Hs|exact Hr|]. rewrite Hn. by vm_compute.
Defined.

(** ** Calls that wait for ever *)

(** A full queue with a waiting time: call 1 waits for a place, call 2 joins
    it by its key, and when call 1 times out its future is dropped. *)
Definition tight_cfg : RuntimeConfig := runtime_config default_policies 1 1 500 (of_int 30) 8.

Definition put_first (w : world (G := Manager)) : world :=
  match w_putting w with r :: l => put_request r (set_putting l w) | [] => w end.
Definition time_out_first (w : world (G := Manager)) : world :=
  match w_putting w with
  | r :: l => not_accepted r "QUEUE_TIMEOUT" (abandon (fr_future r) (set_putting l w))
  | [] => w
  end.

Definition open_manager : Manager :=
  manager_of (mkGC false (mkLC false no_limit ∅ ∅) (mkBC false (mkBS false 0 0 0 0 0) ∅ ∅)) default_doc.

Definition timed_out : world :=
  let w0 := runtime_new open_manager true 0 0 in
  let w1 := set_flows (<["demo" := demo_flow]> (w_flows w0)) w0 in
  let w2 := put_first (execute tight_cfg "demo" [] [] None (clock_at 1) w1) in
  let w3 := execute tight_cfg "demo" [] (keyed "a") None (clock_at 2) w2 in
  let w4 := execute tight_cfg "demo" [] (keyed "a") None (clock_at 3) w3 in
  run_next tight_cfg (clock_at 5) (take_next (clock_at 4) (time_out_first w4)).

Example timeout_strands_follower :
  answer_codes timed_out = [(1, ("rejected", Some "QUEUE_TIMEOUT")); (0, ("ok", None))] ∧
  w_followers timed_out = [(2, 1)] ∧ w_abandoned timed_out = [1] ∧
  in_runtime timed_out = [] ∧ w_inflight timed_out = ∅.
Proof. by vm_compute. Qed.

(** A guard rule that raises: the call fails, its key stays taken, and every
    later call with the key waits. *)
Definition bad_guard_doc : GovernanceDoc :=
  mkGovDoc true (gv_limits default_doc) (gv_breaker default_doc)
    (mkGuardConfig true [JObj [("type", JStr "length_max"); ("value", JFloat PInf)]] [] [])
    hitl_off audit_off.

Definition guard_raised : world :=
  let w0 := runtime_new (manager_of one_at_a_time bad_guard_doc) true 0 0 in
  let w1 := set_flows (<["demo" := demo_flow]> (w_flows w0)) w0 in
  execute demo_runtime_cfg "demo" [] (keyed "a") None (clock_at 2)
    (execute demo_runtime_cfg "demo" [] (keyed "a") None (clock_at 1) w1).

Example guard_error_keeps_key :
  answer_codes guard_raised = [(0, ("raised", Some "OverflowError"))] ∧
  w_followers guard_raised = [(1, 0)] ∧ w_inflight guard_raised = {["a" := 0]} ∧
  in_runtime guard_raised = [].
Proof. by vm_compute. Qed.

(** A result with a number too large for a float: the worker's task ends, the
    call is not answered and its reservation is not released. *)
Definition huge_flow : FlowSpec :=
  flow_spec "demo" None
    [("go", mkStepDef "go" TASK [] [] None
              (Some (fun ctx st => (ctx, st, inl (JObj [("total_tokens", JInt (10 ^ 400))])))) None None)] None.

Definition worker_died : world :=
  let w0 := runtime_new (manager_of one_at_a_time default_doc) true 0 0 in
  let w1 := set_flows (<["demo" := huge_flow]> (w_flows w0)) w0 in
  run_next demo_runtime_cfg (clock_at 3) (take_next (clock_at 2)
    (execute demo_runtime_cfg "demo" [] (keyed "a") None (clock_at 1) w1)).

Example huge_usage_kills_worker :
  w_answers worker_died = [] ∧ w_gone worker_died = w_workers worker_died ∧
  fr_future <$> w_lost worker_died = [0] ∧ w_inflight worker_died = {["a" := 0]} ∧
  active_of (mg_state (w_gov worker_died)) ("flow", Some "demo", None) = 1%Z.
Proof. by vm_compute. Qed.
End examples.
