(* ===== verification/FlowGraph.v ===== *)
(** * Flow graphs and their static analysis ([tm/flow/core.py])

    Steps, the operator and check registries, the graph of a flow with its
    builders, the repository of flows and the static analyzer.  The graph
    library networkx is not part of the program: what the code uses of
    [DiGraph] is the class [DiGraph], its documented behaviour the class
    [LawfulDiGraph]; a concrete graph of pairs is an instance. *)

From S2P Require Import Prelude PyVal PyConv.
From stdpp Require Import base gmap strings list relations.
From Stdlib Require Import ZArith Lia.

Abbreviation table := (list (string * json)) (only parsing).

(** ** Steps and registries *)

Inductive NodeKind : Type := TASK | FINISH | SWITCH | PARALLEL.

#[export] Instance NodeKind_eq_dec : EqDecision NodeKind.
Proof. solve_decision. Defined.

Record Step : Type := mkStep {
  st_id : string;
  st_kind : NodeKind;
  st_uses : option string;
  st_cfg : table
}.

Record ExecContext : Type := mkCtx {
  cx_flow_name : string;
  cx_trace_id : string;
  cx_vars : table
}.

(** An exception of an operator or a check: one of the known classes, or any
    other by its name and text. *)
Inductive op_exn : Type :=
| Known (e : exn)
| Other (class message : string).

#[export] Instance op_exn_eq_dec : EqDecision op_exn.
Proof. solve_decision. Defined.

(** One call of an operator: how long it takes (milliseconds) and how it
    ends.  An operator reads its arguments and does not change them; what it
    reads of the outside world may differ from call to call, so it also takes
    the position among the operators of its step and the attempt. *)
Record op_call : Type := mkCall {
  oc_elapsed : N;
  oc_result : json + op_exn
}.

Definition OperatorFn : Type := ExecContext → table → nat → nat → op_call.

(** [None]: the check returns. *)
Definition CheckFn : Type := ExecContext → table → option op_exn.

Record OpMeta : Type := mkMeta {
  om_reads : gset string;
  om_writes : gset string;
  om_externals : gset string;
  om_pure : bool
}.

Record OperatorRegistry : Type := mkOps {
  or_ops : gmap string OperatorFn;
  or_meta : gmap string OpMeta
}.

Definition empty_registry : OperatorRegistry := mkOps ∅ ∅.

(** The decorator [operator(name)] applied to [fn]. *)
Definition operator (r : OperatorRegistry) (name : string) (fn : OperatorFn) : res OperatorRegistry :=
  match or_ops r !! name with
  | Some _ => Raise (ValueError ("Operator already registered: " +:+ name))
  | None => Ok (mkOps (<[name := fn]> (or_ops r)) (or_meta r))
  end.

Definition set_meta (r : OperatorRegistry) (name : string) (reads writes externals : list string)
    (pure : bool) : res OperatorRegistry :=
  match or_ops r !! name with
  | None => Raise (KeyError ("set_meta for unknown operator: " +:+ name))
  | Some _ =>
      Ok (mkOps (or_ops r)
            (<[name := mkMeta (list_to_set reads) (list_to_set writes) (list_to_set externals) pure]>
               (or_meta r)))
  end.

Definition meta (r : OperatorRegistry) (name : string) : OpMeta :=
  default (mkMeta ∅ ∅ ∅ false) (or_meta r !! name).

Definition get_operator (r : OperatorRegistry) (name : string) : res OperatorFn :=
  match or_ops r !! name with
  | None => Raise (KeyError ("Unknown operator: " +:+ name))
  | Some fn => Ok fn
  end.

Definition CheckRegistry : Type := gmap string CheckFn.

(** The decorator [check(name)] applied to [fn]. *)
Definition register_check (r : CheckRegistry) (name : string) (fn : CheckFn) : res CheckRegistry :=
  match r !! name with
  | Some _ => Raise (ValueError ("Check already registered: " +:+ name))
  | None => Ok (<[name := fn]> r)
  end.

(** [checks.get(name)]; a list or a mapping is not hashable. *)
Definition get_check (r : CheckRegistry) (name : json) : res CheckFn :=
  match name with
  | JStr s =>
      match r !! s with
      | None => Raise (KeyError ("Unknown check: " +:+ s))
      | Some fn => Ok fn
      end
  | JArr _ | JObj _ => Raise (TypeError "unhashable type")
  | _ => Raise (KeyError "Unknown check")
  end.

(** ** networkx *)

(** The operations of [networkx.DiGraph] the code calls: the nodes in order,
    the [step] attribute of a node, the successors in order, the [case]
    attribute of an edge, adding nodes and edges (an edge with or without
    [case]), [edges()], [is_directed_acyclic_graph] and [descendants]. *)
Class DiGraph (G : Type) := {
  nx_empty : G;
  nx_nodes : G → list string;
  nx_step : G → string → option Step;
  nx_succ : G → string → list string;
  nx_case : G → string → string → option json;
  nx_add_node : G → string → Step → G;
  nx_add_edge : G → string → string → option json → G;
  nx_edges : G → list (string * string);
  nx_is_dag : G → bool;
  nx_descendants : G → string → list string
}.

Definition edge `{DiGraph G} (g : G) (u v : string) : Prop := v ∈ nx_succ g u.

Definition add_new {A} `{EqDecision A} (x : A) (l : list A) : list A :=
  if decide (x ∈ l) then l else l ++ [x].

Lemma elem_of_add_new {A} `{EqDecision A} (x y : A) l : y ∈ add_new x l ↔ y = x ∨ y ∈ l.
Proof. unfold add_new. case_decide; set_solver. Qed.

(** What networkx documents of them. *)
Class LawfulDiGraph (G : Type) `{DiGraph G} := {
  nx_nodes_empty : nx_nodes nx_empty = [];
  nx_step_empty n : nx_step nx_empty n = None;
  nx_succ_empty n : nx_succ nx_empty n = [];
  nx_nodes_nodup g : NoDup (nx_nodes g);
  nx_succ_nodes g u v : v ∈ nx_succ g u → u ∈ nx_nodes g ∧ v ∈ nx_nodes g;
  nx_step_nodes g n s : nx_step g n = Some s → n ∈ nx_nodes g;
  nx_nodes_add_node g n s : nx_nodes (nx_add_node g n s) = add_new n (nx_nodes g);
  nx_step_add_node g n s m :
    nx_step (nx_add_node g n s) m = if decide (m = n) then Some s else nx_step g m;
  nx_succ_add_node g n s u : nx_succ (nx_add_node g n s) u = nx_succ g u;
  nx_case_add_node g n s u v : nx_case (nx_add_node g n s) u v = nx_case g u v;
  nx_nodes_add_edge g u v c : nx_nodes (nx_add_edge g u v c) = add_new v (add_new u (nx_nodes g));
  nx_step_add_edge g u v c m : nx_step (nx_add_edge g u v c) m = nx_step g m;
  nx_succ_add_edge g u v c n :
    nx_succ (nx_add_edge g u v c) n = if decide (n = u) then add_new v (nx_succ g u) else nx_succ g n;
  nx_case_add_edge g u v c n m :
    nx_case (nx_add_edge g u v c) n m =
    if decide (n = u ∧ m = v) then match c with Some x => Some x | None => nx_case g u v end
    else nx_case g n m;
  nx_edges_spec g : nx_edges g = n ← nx_nodes g; (n,.) <$> nx_succ g n;
  nx_is_dag_spec g : nx_is_dag g = true ↔ ∀ n, ¬ tc (edge g) n n;
  nx_descendants_spec g n m : n ∈ nx_nodes g →
    m ∈ nx_descendants g n ↔ m ≠ n ∧ tc (edge g) n m
}.

(** ** The graph of a flow *)

Record FlowGraph (G : Type) : Type := mkFlow {
  fg_name : string;
  fg_g : G;
  fg_entry : option string
}.
Arguments mkFlow {G} _ _ _.
Arguments fg_name {G} _.
Arguments fg_g {G} _.
Arguments fg_entry {G} _.

Section flow.
Context {G : Type} `{NX : DiGraph G}.

Definition new_flow (name : string) : FlowGraph G := mkFlow name nx_empty None.

Definition _add_node (f : FlowGraph G) (step : Step) : res (FlowGraph G) :=
  if decide (st_id step ∈ nx_nodes (fg_g f))
  then Raise (ValueError ("Duplicate node id: " +:+ st_id step))
  else Ok (mkFlow (fg_name f) (nx_add_node (fg_g f) (st_id step) step)
             (match fg_entry f with None => Some (st_id step) | e => e end)).

Definition task (f : FlowGraph G) (node_id uses : string) (cfg : table) : res (FlowGraph G) :=
  _add_node f (mkStep node_id TASK (Some uses) cfg).

Definition finish (f : FlowGraph G) (node_id : string) : res (FlowGraph G) :=
  _add_node f (mkStep node_id FINISH None []).

Definition switch (f : FlowGraph G) (node_id key_from : string) (dflt : json) : res (FlowGraph G) :=
  _add_node f (mkStep node_id SWITCH None [("key_from", JStr key_from); ("default", dflt)]).

Definition parallel (f : FlowGraph G) (node_id : string) (uses : list json) (max_workers : Z)
    (cfg : table) : res (FlowGraph G) :=
  _add_node f (mkStep node_id PARALLEL None
                 (dict_set "max_workers" (JInt max_workers) (dict_set "uses" (JArr uses) cfg))).

Definition link (f : FlowGraph G) (src dst : string) : FlowGraph G :=
  mkFlow (fg_name f) (nx_add_edge (fg_g f) src dst None) (fg_entry f).

Definition link_case (f : FlowGraph G) (src dst : string) (case : json) : FlowGraph G :=
  mkFlow (fg_name f) (nx_add_edge (fg_g f) src dst (Some case)) (fg_entry f).

Definition set_entry (f : FlowGraph G) (node_id : string) : res (FlowGraph G) :=
  if decide (node_id ∈ nx_nodes (fg_g f)) then Ok (mkFlow (fg_name f) (fg_g f) (Some node_id))
  else Raise (KeyError ("Unknown node: " +:+ node_id)).

(** An empty id counts as no entry. *)
Definition entry (f : FlowGraph G) : res string :=
  match fg_entry f with
  | None => Raise (RuntimeError "Entry node not set")
  | Some n => if String.eqb n "" then Raise (RuntimeError "Entry node not set") else Ok n
  end.

(** networkx raises its own error class on a node it does not have. *)
Definition successors (f : FlowGraph G) (node_id : string) : res (list string) :=
  if decide (node_id ∈ nx_nodes (fg_g f)) then Ok (nx_succ (fg_g f) node_id)
  else Raise (RuntimeError ("The node " +:+ node_id +:+ " is not in the digraph.")).

(** A node that only occurs in an edge has no step. *)
Definition node (f : FlowGraph G) (node_id : string) : res Step :=
  match nx_step (fg_g f) node_id with
  | Some s => Ok s
  | None => Raise (KeyError (if decide (node_id ∈ nx_nodes (fg_g f)) then "step" else node_id))
  end.

(** [edge_attr(src, dst, "case", None)]. *)
Definition edge_case (f : FlowGraph G) (src dst : string) : json :=
  default JNull (nx_case (fg_g f) src dst).

Fixpoint chain_links (f : FlowGraph G) (ids : list string) : FlowGraph G :=
  match ids with
  | a :: (b :: _) as rest => chain_links (link f a b) rest
  | _ => f
  end.

Definition chain (f : FlowGraph G) (ids : list string) : res (string * FlowGraph G) :=
  match last ids with
  | Some i => Ok (i, chain_links f ids)
  | None => Raise (IndexError "tuple index out of range")
  end.

(** ** The repository of flows

    A class is its name, if it has one, and its [build]. *)

Definition FlowClass : Type := option string * (table → res (FlowGraph G)).
Definition FlowRepo : Type := list (string * FlowClass).

Definition register (r : FlowRepo) (cls : FlowClass) : res FlowRepo :=
  match cls.1 with
  | None | Some "" => Raise (ValueError "Flow class must define a non-empty `name`")
  | Some name =>
      match alookup name r with
      | Some _ => Raise (ValueError ("Flow already registered: " +:+ name))
      | None => Ok (dict_set name cls r)
      end
  end.

Definition instantiate (r : FlowRepo) (name : string) (params : table) : res (FlowGraph G) :=
  match alookup name r with
  | None => Raise (KeyError ("Unknown flow: " +:+ name))
  | Some cls => cls.2 params
  end.

Definition list_flows (r : FlowRepo) : list string := sort_strings r.*1.

(** ** The static analyzer *)

(** The issues by their [kind]. *)
Inductive issue : Type :=
| IssueCycle
| IssueEntry
| IssueUnreachable (n : string)
| IssueOperatorMissing (n op : string)
| IssueSwitchNoBranch (n : string)
| IssueSwitchNoDefault (n : string)
| IssueParallelEmpty (n : string)
| IssueRaceExternal (n ui uj : string) (keys : list string)
| IssueRaceWriteWrite (n ui uj : string) (keys : list string)
| IssueRaceReadWrite (n ui uj : string) (keys : list string).

Definition check_entry (f : FlowGraph G) : list issue :=
  match entry f with
  | Raise _ => [IssueEntry]
  | Ok e =>
      n ← nx_nodes (fg_g f);
      if decide (n ∈ nx_descendants (fg_g f) e ++ [e]) then [] else [IssueUnreachable n]
  end.

(** [cfg.get("default", "_DEFAULT")]. *)
Definition default_case (cfg : table) : json := default (JStr "_DEFAULT") (alookup "default" cfg).

Definition check_node (r : OperatorRegistry) (f : FlowGraph G) (n : string) : list issue :=
  match nx_step (fg_g f) n with
  | None => []
  | Some step =>
      match st_kind step with
      | TASK =>
          match st_uses step with
          | Some uses =>
              match get_operator r uses with Ok _ => [] | Raise _ => [IssueOperatorMissing n uses] end
          | None => []
          end
      | SWITCH =>
          let succ := nx_succ (fg_g f) n in
          (match succ with [] => [IssueSwitchNoBranch n] | _ => [] end) ++
          (if existsb (fun s => py_eq (edge_case f n s) (default_case (st_cfg step))) succ
           then [] else [IssueSwitchNoDefault n])
      | PARALLEL =>
          if truthy (default (JArr []) (alookup "uses" (st_cfg step))) then [] else [IssueParallelEmpty n]
      | FINISH => []
      end
  end.

(** [sorted(keys)]. *)
Definition sorted_keys (keys : gset string) : list string := sort_strings (elements keys).

Definition issue_if (keys : gset string) (mk : list string → issue) : list issue :=
  if decide (keys = ∅) then [] else [mk (sorted_keys keys)].

Definition check_pair (r : OperatorRegistry) (n ui uj : string) : list issue :=
  let mi := meta r ui in
  let mj := meta r uj in
  issue_if (om_externals mi ∩ om_externals mj) (IssueRaceExternal n ui uj) ++
  issue_if (om_writes mi ∩ om_writes mj) (IssueRaceWriteWrite n ui uj) ++
  issue_if (om_reads mi ∩ om_writes mj ∪ om_reads mj ∩ om_writes mi) (IssueRaceReadWrite n ui uj).

(** The pairs [i < j]. *)
Fixpoint check_pairs (r : OperatorRegistry) (n : string) (uses : list string) : list issue :=
  match uses with
  | [] => []
  | ui :: rest => (uj ← rest; check_pair r n ui uj) ++ check_pairs r n rest
  end.

(** [[u for u in list(cfg.get("uses", [])) if isinstance(u, str)]]. *)
Definition uses_of (cfg : table) : res (list string) :=
  match py_iter (default (JArr []) (alookup "uses" cfg)) with
  | Ok l => Ok (omap (fun u => match u with JStr s => Some s | _ => None end) l)
  | Raise e => Raise e
  end.

Definition check_races (r : OperatorRegistry) (f : FlowGraph G) (n : string) : res (list issue) :=
  match nx_step (fg_g f) n with
  | Some step =>
      if decide (st_kind step = PARALLEL) then
        check_pairs r n <$> uses_of (st_cfg step)
      else Ok []
  | None => Ok []
  end.

Definition check (r : OperatorRegistry) (f : FlowGraph G) : res (list issue) :=
  let nodes := nx_nodes (fg_g f) in
  mapM (check_races r f) nodes ≫= fun races =>
  Ok ((if nx_is_dag (fg_g f) then [] else [IssueCycle]) ++
      check_entry f ++ (n ← nodes; check_node r f n) ++ concat races).

End flow.
Arguments FlowClass : clear implicits.
Arguments FlowRepo : clear implicits.

(** ** A directed graph for the flow engine

    A graph as the list of the calls that built it, the newest first: an
    instance of [DiGraph] and of its laws, so that flows can be evaluated.
    Acyclicity and descendants are computed by a search that never enters a
    node twice. *)

From S2P Require Import Prelude PyVal PyConv.
From stdpp Require Import base gmap strings list relations.
From Stdlib Require Import ZArith Lia.

Inductive nx_call : Type :=
| AddNode (n : string) (s : Step)
| AddEdge (u v : string) (c : option json).

Definition nx_log : Type := list nx_call.

Fixpoint log_nodes (g : nx_log) : list string :=
  match g with
  | [] => []
  | AddNode n _ :: g => add_new n (log_nodes g)
  | AddEdge u v _ :: g => add_new v (add_new u (log_nodes g))
  end.

Fixpoint log_step (g : nx_log) (n : string) : option Step :=
  match g with
  | [] => None
  | AddNode m s :: g => if decide (n = m) then Some s else log_step g n
  | AddEdge _ _ _ :: g => log_step g n
  end.

Fixpoint log_succ (g : nx_log) (n : string) : list string :=
  match g with
  | [] => []
  | AddNode _ _ :: g => log_succ g n
  | AddEdge u v _ :: g => if decide (n = u) then add_new v (log_succ g u) else log_succ g n
  end.

Fixpoint log_case (g : nx_log) (n m : string) : option json :=
  match g with
  | [] => None
  | AddNode _ _ :: g => log_case g n m
  | AddEdge u v c :: g =>
      if decide (n = u ∧ m = v) then match c with Some x => Some x | None => log_case g u v end
      else log_case g n m
  end.

(** Nodes reached from [n] inside [avail]. *)
Fixpoint dfs (k : nat) (succ : string → list string) (avail : list string) (n : string) : list string :=
  match k with
  | O => []
  | S k =>
      if decide (n ∈ avail) then n :: (s ← succ n; dfs k succ (filter (.≠ n) avail) s) else []
  end.

Definition log_reach (g : nx_log) (n : string) : list string :=
  s ← log_succ g n; dfs (length (log_nodes g)) (log_succ g) (log_nodes g) s.

#[export] Instance nx_log_ops : DiGraph nx_log := {
  nx_empty := [];
  nx_nodes := log_nodes;
  nx_step := log_step;
  nx_succ := log_succ;
  nx_case := log_case;
  nx_add_node g n s := AddNode n s :: g;
  nx_add_edge g u v c := AddEdge u v c :: g;
  nx_edges g := n ← log_nodes g; (n,.) <$> log_succ g n;
  nx_is_dag g := bool_decide (Forall (fun n => n ∉ log_reach g n) (log_nodes g));
  nx_descendants g n := filter (.≠ n) (log_reach g n)
}.

(** ** The laws *)

Lemma NoDup_add_new {A} `{EqDecision A} (x : A) l : NoDup l → NoDup (add_new x l).
Proof.
  intros Hl. unfold add_new. case_decide; [done|]. apply NoDup_app.
  split_and!; [done| |apply NoDup_singleton]. by intros y Hy ->%list_elem_of_singleton.
Qed.

Lemma log_nodup g : NoDup (log_nodes g).
Proof. induction g as [|[n s|u v c] g IH]; simpl; [constructor|..]; by repeat apply NoDup_add_new. Qed.

Lemma log_succ_nodes g u v : v ∈ log_succ g u → u ∈ log_nodes g ∧ v ∈ log_nodes g.
Proof.
  induction g as [|[n s|a b c] g IH]; simpl; [by intros ?%elem_of_nil|..]; rewrite !elem_of_add_new.
  - naive_solver.
  - case_decide as E; [subst; rewrite elem_of_add_new|]; naive_solver.
Qed.

Lemma log_step_nodes g n s : log_step g n = Some s → n ∈ log_nodes g.
Proof.
  induction g as [|[m t|a b c] g IH]; simpl; [done|..]; rewrite !elem_of_add_new; [|naive_solver].
  case_decide; naive_solver.
Qed.

(** A path that leaves [n] leaves it for good at some point. *)
Lemma rtc_leave {A} `{EqDecision A} (R : relation A) n m :
  rtc R n m → m = n ∨ ∃ s, R n s ∧ s ≠ n ∧ rtc (fun x y => R x y ∧ y ≠ n) s m.
Proof.
  revert m. apply rtc_ind_r; [by left|]. intros m p Hm Hp IH.
  destruct (decide (p = n)) as [->|Hne]; [by left|right].
  destruct IH as [->|(s & Hs & Hns & Hr)].
  - exists p. split_and!; [done|done|constructor].
  - exists s. split_and!; [done|done|]. eapply rtc_r; [exact Hr|done].
Qed.

Lemma tc_first {A} (R : relation A) x z : tc R x z → ∃ y, R x y ∧ rtc R y z.
Proof. inversion 1; subst; eauto using rtc_refl, tc_rtc. Qed.

Lemma dfs_sound k succ avail n m : m ∈ dfs k succ avail n → rtc (fun u v => v ∈ succ u) n m.
Proof.
  revert avail n. induction k as [|k IH]; intros avail n; simpl; [by intros ?%elem_of_nil|].
  case_decide; [|by intros ?%elem_of_nil].
  intros [->|(s & Hin & Hs)%list_elem_of_bind]%elem_of_cons; [constructor|].
  eapply rtc_l; [exact Hs|]. by eapply IH.
Qed.

Lemma dfs_complete k (succ : string → list string) avail n m :
  length avail ≤ k → n ∈ avail → rtc (fun u v => v ∈ succ u ∧ v ∈ avail) n m → m ∈ dfs k succ avail n.
Proof.
  revert avail n. induction k as [|k IH]; intros avail n Hk Hn Hr; simpl.
  { destruct avail; [by apply elem_of_nil in Hn|simpl in Hk; lia]. }
  rewrite decide_True by done. apply rtc_leave in Hr as [->|(s & [Hs Ha] & Hns & Hr)]; [by left|right].
  apply list_elem_of_bind. exists s. split; [|done]. apply IH.
  - assert (length (filter (.≠ n) avail) < length avail); [|lia].
    apply (length_filter_lt _ _ n); [done|naive_solver].
  - by apply list_elem_of_filter.
  - eapply rtc_subrel; [|exact Hr]. intros x y [[Hxy Hy] Hyn]. split; [done|]. by apply list_elem_of_filter.
Qed.

Lemma log_reach_spec g n m : m ∈ log_reach g n ↔ tc (edge g) n m.
Proof.
  unfold log_reach. rewrite list_elem_of_bind. split.
  - intros (s & Hm%dfs_sound & Hs). eapply tc_rtc_r; [by apply tc_once|]. exact Hm.
  - intros (s & Hs & Hr)%tc_first. exists s. split; [|done].
    apply dfs_complete; [done|by apply (log_succ_nodes g n)|].
    eapply rtc_subrel; [|exact Hr]. intros x y Hxy. split; [done|]. by apply (log_succ_nodes g x).
Qed.

#[export] Instance nx_log_lawful : LawfulDiGraph nx_log.
Proof.
  split; try done; simpl.
  - apply log_nodup.
  - apply log_succ_nodes.
  - apply log_step_nodes.
  - intros g. rewrite bool_decide_eq_true, Forall_forall. split.
    + intros H n Hn. destruct (tc_first _ _ _ Hn) as (s & Hs & _).
      eapply (H n); [by apply (log_succ_nodes g n s)|]. by apply log_reach_spec.
    + intros H n _ Hn. apply (H n). by apply log_reach_spec.
  - intros g n m _. by rewrite list_elem_of_filter, log_reach_spec.
Qed.
