(* ===== verification/FlowEngine.v ===== *)
(** * The synchronous flow engine ([tm/flow/core.py])

    The tracer, the policies of a step, and [Engine.run], which walks the
    graph of a flow from its entry.  Dates and durations of the tracer are not
    modelled.  The walk has no bound of its own: [run] takes fuel, and returns
    [None] when it runs out. *)

From S2P Require Import Prelude PyVal PyConv FlowGraph.
From stdpp Require Import base gmap strings list.
From Stdlib Require Import ZArith Lia Ascii.

(** ** The tracer *)

(** [StepResult]; the error is the exception whose text the code keeps. *)
Record StepResult : Type := mkResult {
  sr_ok : bool;
  sr_output : option json;
  sr_error : option op_exn
}.

(** What [on_step] is given as inputs.  The dictionary of a task holds the
    inputs, the configuration and the variables of the context themselves, not
    copies: [CallIn] keeps the first two, the variables are read when the
    record is. *)
Inductive step_in : Type :=
| CallIn (inputs cfg : table)
| KeyFrom (key_from : json)
| NoInputs.

(** The [in] of a record, read when the context has the variables [vars]. *)
Definition read_in (vars : table) (i : step_in) : table :=
  match i with
  | CallIn inputs cfg => [("inputs", JObj inputs); ("cfg", JObj cfg); ("vars", JObj vars)]
  | KeyFrom k => [("key_from", k)]
  | NoInputs => []
  end.

Record TaskInstance : Type := mkTI {
  ti_dag_id : string;
  ti_run_id : string;
  ti_task_id : string;
  ti_state : string;
  ti_operator : option string;
  ti_kind : NodeKind;
  ti_in : step_in;
  ti_out : option json
}.

Record DagRun : Type := mkRun {
  dr_dag_id : string;
  dr_run_id : string;
  dr_state : string
}.

Record Tracer : Type := mkTracer {
  tr_dag_id_prefix : string;
  tr_capture_outputs : bool;
  tr_xcom_bytes_limit : Z;
  tr_runs : list (string * DagRun);
  tr_tis : list (string * list (string * TaskInstance));
  tr_edges : list (string * list (string * string))
}.

(** [len(json.dumps(output))], left to the interpreter. *)
Class JsonLen := json_len : json → Z.

Definition begin (t : Tracer) (run_id flow_name : string) : Tracer :=
  mkTracer (tr_dag_id_prefix t) (tr_capture_outputs t) (tr_xcom_bytes_limit t)
    (dict_set run_id (mkRun (tr_dag_id_prefix t +:+ "." +:+ flow_name) run_id "running") (tr_runs t))
    (dict_set run_id [] (tr_tis t))
    (match alookup run_id (tr_edges t) with
     | Some _ => tr_edges t
     | None => dict_set run_id [] (tr_edges t)
     end).

Definition task_instance `{JsonLen} (t : Tracer) (run : DagRun) (run_id : string) (step : Step)
    (r : StepResult) (inputs : step_in) : TaskInstance :=
  mkTI (dr_dag_id run) run_id (st_id step) (if sr_ok r then "success" else "failed")
    (st_uses step) (st_kind step) inputs
    (match sr_output r with
     | Some out =>
         if tr_capture_outputs t then
           if (tr_xcom_bytes_limit t <? json_len out)%Z
           then Some (JObj [("truncated", JBool true); ("size", JInt (json_len out))])
           else Some out
         else None
     | None => None
     end).

(** An unknown run raises [KeyError]; the engine only names a run it began. *)
Definition on_step `{JsonLen} (t : Tracer) (run_id : string) (step : Step) (r : StepResult)
    (inputs : step_in) : res Tracer :=
  match alookup run_id (tr_runs t), alookup run_id (tr_tis t) with
  | Some run, Some tis =>
      Ok (mkTracer (tr_dag_id_prefix t) (tr_capture_outputs t) (tr_xcom_bytes_limit t) (tr_runs t)
            (dict_set run_id (dict_set (st_id step) (task_instance t run run_id step r inputs) tis)
               (tr_tis t))
            (tr_edges t))
  | _, _ => Raise (KeyError run_id)
  end.

Definition end_state (status : string) : string :=
  if String.eqb status "ok" then "success" else if String.eqb status "error" then "failed" else status.

Definition end_run (t : Tracer) (run_id status : string) : res Tracer :=
  match alookup run_id (tr_runs t) with
  | Some run =>
      Ok (mkTracer (tr_dag_id_prefix t) (tr_capture_outputs t) (tr_xcom_bytes_limit t)
            (dict_set run_id (mkRun (dr_dag_id run) (dr_run_id run) (end_state status)) (tr_runs t))
            (tr_tis t) (tr_edges t))
  | None => Raise (KeyError run_id)
  end.

Definition record_edges (t : Tracer) (run_id : string) (edges : list (string * string)) : Tracer :=
  mkTracer (tr_dag_id_prefix t) (tr_capture_outputs t) (tr_xcom_bytes_limit t) (tr_runs t) (tr_tis t)
    (dict_set run_id edges (tr_edges t)).

Definition get_run (t : Tracer) (run_id : string)
  : option DagRun * list TaskInstance * list (string * string) :=
  (alookup run_id (tr_runs t), (default [] (alookup run_id (tr_tis t))).*2,
   default [] (alookup run_id (tr_edges t))).

(** ** Policies *)

Record StepPolicies : Type := mkPolicies {
  po_max_attempts : Z;
  po_backoff_ms : Z;
  po_timeout_ms : option Z
}.

Section policies.
Context {PT : PyText}.

(** An infinite float is not among the errors [_as_int] catches. *)
Definition _as_int (value : json) (dflt : Z) : res Z :=
  match value with
  | JNull | JArr _ | JObj _ => Ok dflt
  | JBool b => Ok (if b then 1 else 0)%Z
  | JInt _ | JFloat _ | JStr _ =>
      match py_int value with
      | Raise (TypeError _) | Raise (ValueError _) => Ok dflt
      | r => r
      end
  end.

(** [t in (None, "", 0)]. *)
Definition no_timeout (t : json) : bool :=
  py_eq t JNull || py_eq t (JStr "") || py_eq t (JInt 0).

Definition timeout_cfg (cfg : table) : json :=
  let t := jget "timeout_ms" cfg in
  match jget "timeout" cfg with
  | JObj m => default t (alookup "timeout_ms" m)
  | _ => t
  end.

Definition _parse_policies_from_cfg (cfg : table) : res StepPolicies :=
  let r := match jget "retry" cfg with JObj m => m | _ => [] end in
  let t := timeout_cfg cfg in
  match _as_int (jget "max_attempts" r) 1, _as_int (jget "backoff_ms" r) 0,
        (if no_timeout t then Ok None else Some <$> _as_int t 0) with
  | Ok m, Ok b, Ok t => Ok (mkPolicies m b t)
  | Raise e, _, _ | _, Raise e, _ | _, _, Raise e => Raise e
  end.
End policies.

(** ** Calling an operator *)

(** [threading.TIMEOUT_MAX], in milliseconds: a longer wait or sleep raises. *)
Definition timeout_max : Z := 9223372036000.

(** [fut.result(timeout=ms / 1000.0)] on a call that takes [oc_elapsed]
    milliseconds; one that takes none is done before the wait. *)
Definition wait_result (c : op_call) (ms : Z) : json + op_exn :=
  if (float_max <=? Z.abs ms)%Z then inr (Known (OverflowError "int too large to convert to float"))
  else if (oc_elapsed c =? 0)%N then oc_result c
  else if (timeout_max <? ms)%Z then inr (Known (OverflowError "timeout value is too large"))
  else if (Z.of_N (oc_elapsed c) <=? ms)%Z then oc_result c
  else inr (Known (TimeoutError EmptyString)).

(** One attempt.  The pool of a call with a timeout waits for its thread
    before the exception leaves, so the attempt lasts as long as the operator
    in every case. *)
Definition attempt_operator (reg : OperatorRegistry) (op_name : string) (ctx : ExecContext)
    (call_in : table) (pol : StepPolicies) (slot attempt : nat) : N * (json + op_exn) :=
  match get_operator reg op_name with
  | Raise e => (0%N, inr (Known e))
  | Ok fn =>
      let c := fn ctx call_in slot attempt in
      match po_timeout_ms pol with
      | Some ms => if (ms =? 0)%Z then (oc_elapsed c, oc_result c) else (oc_elapsed c, wait_result c ms)
      | None => (oc_elapsed c, oc_result c)
      end
  end.

(** [time.sleep(backoff_ms / 1000.0)], an error when it is too long. *)
Definition backoff (ms : Z) : option op_exn :=
  if (float_max <=? ms)%Z then Some (Known (OverflowError "int too large to convert to float"))
  else if (timeout_max <? ms)%Z then Some (Known (OverflowError "timestamp too large to convert to C PyTime_t"))
  else None.

(** The loop with [todo] attempts to go: the number of calls, the time they
    and the pauses take, and the result. *)
Fixpoint attempts_from (reg : OperatorRegistry) (op_name : string) (ctx : ExecContext)
    (call_in : table) (pol : StepPolicies) (slot : nat) (todo done : nat) (last_exc : op_exn)
  : nat * N * (json + op_exn) :=
  match todo with
  | O => (done, 0%N, inr last_exc)
  | S todo =>
      let '(ms, r) := attempt_operator reg op_name ctx call_in pol slot done in
      match r with
      | inl out => (S done, ms, inl out)
      | inr e =>
          if (0 <? todo)%nat && (0 <? po_backoff_ms pol)%Z then
            match backoff (po_backoff_ms pol) with
            | Some e1 => (S done, ms, inr e1)
            | None =>
                let '(n, t, r) := attempts_from reg op_name ctx call_in pol slot todo (S done) e in
                (n, (ms + Z.to_N (po_backoff_ms pol) + t)%N, r)
            end
          else
            let '(n, t, r) := attempts_from reg op_name ctx call_in pol slot todo (S done) e in
            (n, (ms + t)%N, r)
      end
  end.

Definition _run_operator (reg : OperatorRegistry) (op_name : string) (ctx : ExecContext)
    (call_in : table) (pol : StepPolicies) (slot : nat) : nat * N * (json + op_exn) :=
  attempts_from reg op_name ctx call_in pol slot (Z.to_nat (po_max_attempts pol)) 0
    (Known (RuntimeError "operator failed without exception?")).

(** ** Paths into the context *)

Fixpoint lstrip_char (c : ascii) (s : string) : string :=
  match s with
  | String a s' => if decide (a = c) then lstrip_char c s' else s
  | EmptyString => s
  end.

Fixpoint walk_path (cur : json) (parts : list string) : json :=
  match parts with
  | [] => cur
  | p :: rest => match cur with JObj m => walk_path (jget p m) rest | _ => JNull end
  end.

(** A value that is not a path stands for itself. *)
Definition _get_path (vars inputs cfg : table) (dotted : json) : json :=
  match dotted with
  | JStr (String "$" _ as s) =>
      let '(first, rest) := split_char "." (lstrip_char "." (lstrip_char "$" s)) in
      let root := [("vars", JObj vars); ("inputs", JObj inputs); ("cfg", JObj cfg)] in
      walk_path (default (JObj []) (alookup first root)) rest
  | v => v
  end.

(** ** Steps *)

Section engine.
Context {G : Type} `{NX : DiGraph G} {JL : JsonLen} {PT : PyText}.
Context (reg : OperatorRegistry) (checks : CheckRegistry).

(** The order in which the operators of a parallel step complete. *)
Context (completion : Step → list nat).

Fixpoint run_check_names (names : list json) (ctx : ExecContext) (call_in : table) : option op_exn :=
  match names with
  | [] => None
  | name :: rest =>
      match get_check checks name with
      | Raise e => Some (Known e)
      | Ok fn =>
          match fn ctx call_in with
          | Some e => Some e
          | None => run_check_names rest ctx call_in
          end
      end
  end.

Definition _run_checks (names : json) (ctx : ExecContext) (call_in : table) : option op_exn :=
  if truthy names then
    match py_iter names with
    | Raise e => Some (Known e)
    | Ok l => run_check_names l ctx call_in
    end
  else None.

Definition call_input (ctx : ExecContext) (inputs cfg : table) : table :=
  [("inputs", JObj inputs); ("cfg", JObj cfg); ("vars", JObj (cx_vars ctx))].

(** Checks, operator, checks: the [try] block of a task, and [_one] of a
    parallel step. *)
Definition checked_call (op_name : string) (ctx : ExecContext) (inputs cfg : table)
    (pol : StepPolicies) (slot : nat) : json + op_exn :=
  let call_in := call_input ctx inputs cfg in
  match (_run_operator reg op_name ctx call_in pol slot).2 with
  | inr e => inr e
  | inl out =>
      match _run_checks (jget "after" cfg) ctx (("**out", out) :: call_in) with
      | Some e => inr e
      | None => inl out
      end
  end.

Definition run_task (step : Step) (ctx : ExecContext) (inputs : table) (pol : StepPolicies)
  : json + op_exn :=
  match _run_checks (jget "before" (st_cfg step)) ctx (call_input ctx inputs (st_cfg step)) with
  | Some e => inr e
  | None =>
      match st_uses step with
      | None => inr (Known (ValueError "Task step is missing operator 'uses'"))
      | Some uses => checked_call uses ctx inputs (st_cfg step) pol 0
      end
  end.

Definition run_one (step : Step) (ctx : ExecContext) (inputs : table) (pol : StepPolicies)
    (slot : nat) (op_name : string) : json + op_exn :=
  match _run_checks (jget "before" (st_cfg step)) ctx (call_input ctx inputs (st_cfg step)) with
  | Some e => inr e
  | None => checked_call op_name ctx inputs (st_cfg step) pol slot
  end.

(** The loop over [as_completed]: it stops at the first failure. *)
Fixpoint collect (step : Step) (ctx : ExecContext) (inputs : table) (pol : StepPolicies)
    (uses : list string) (order : list nat) (outputs : table) : table + op_exn :=
  match order with
  | [] => inl outputs
  | i :: rest =>
      match uses !! i with
      | None => collect step ctx inputs pol uses rest outputs
      | Some op_name =>
          match run_one step ctx inputs pol i op_name with
          | inr e => inr e
          | inl out => collect step ctx inputs pol uses rest (dict_set op_name out outputs)
          end
      end
  end.

Definition run_parallel (step : Step) (ctx : ExecContext) (inputs : table) (pol : StepPolicies)
    (uses : list string) (max_workers : Z) : table + op_exn :=
  if (max_workers <=? 0)%Z then inr (Known (ValueError "max_workers must be greater than 0"))
  else collect step ctx inputs pol uses (completion step) [].

(** The branch of a switch. *)
Definition find_case (f : FlowGraph G) (current : string) (succ : list string) (v : json)
  : option string :=
  List.find (fun s => py_eq (edge_case f current s) v) succ.

Definition choose_branch (f : FlowGraph G) (current : string) (succ : list string) (cfg : table) (key : json)
  : option string :=
  match find_case f current succ key with
  | Some s => Some s
  | None => find_case f current succ (default_case cfg)
  end.

Definition switch_output (cfg : table) (key : json) (chosen : option string) : json :=
  JObj [("key", key);
        ("chosen_case",
          match chosen with
          | Some c => if String.eqb c "" then jget "default" cfg else key
          | None => jget "default" cfg
          end)].

(** ** The walk *)

(** How a round ends: on to a node, with the run closed, or with an exception
    that leaves [run]. *)
Inductive round : Type :=
| Goto (n : string) (t : Tracer) (vars : table)
| Closed (t : Tracer) (vars : table)
| Escape (t : Tracer) (e : exn).

Definition set_vars (ctx : ExecContext) (vars : table) : ExecContext :=
  mkCtx (cx_flow_name ctx) (cx_trace_id ctx) vars.

(** [tracer.end] and [break]. *)
Definition close (t : Tracer) (run_id status : string) (vars : table) : round :=
  match end_run t run_id status with
  | Ok t' => Closed t' vars
  | Raise e => Escape t e
  end.

(** The end of a round of a step that is not a switch. *)
Definition advance (f : FlowGraph G) (current : string) (t : Tracer) (run_id : string) (vars : table)
  : round :=
  match successors f current with
  | Raise e => Escape t e
  | Ok [] => close t run_id "ok" vars
  | Ok (n :: _) => Goto n t vars
  end.

(** A task or a parallel step once its outcome is known. *)
Definition finish_step (f : FlowGraph G) (current : string) (t : Tracer) (ctx : ExecContext)
    (step : Step) (inputs : table) (value : json) (output : json) (failure : option op_exn) : round :=
  let run_id := cx_trace_id ctx in
  let result := match failure with
                | None => mkResult true (Some output) None
                | Some e => mkResult false None (Some e)
                end in
  match on_step t run_id step result (CallIn inputs (st_cfg step)) with
  | Raise e => Escape t e
  | Ok t1 =>
      match failure with
      | Some _ => close t1 run_id "error" (cx_vars ctx)
      | None => advance f current t1 run_id (dict_set (st_id step) value (cx_vars ctx))
      end
  end.

Definition task_round (f : FlowGraph G) (current : string) (t : Tracer) (ctx : ExecContext)
    (step : Step) (inputs : table) : round :=
  match _parse_policies_from_cfg (st_cfg step) with
  | Raise e => Escape t e
  | Ok pol =>
      match run_task step ctx inputs pol with
      | inl out => finish_step f current t ctx step inputs out out None
      | inr e => finish_step f current t ctx step inputs JNull JNull (Some e)
      end
  end.

Definition switch_round (f : FlowGraph G) (current : string) (t : Tracer) (ctx : ExecContext)
    (step : Step) (inputs : table) : round :=
  let run_id := cx_trace_id ctx in
  let key_from := jget "key_from" (st_cfg step) in
  let key := _get_path (cx_vars ctx) inputs (st_cfg step) key_from in
  match successors f current with
  | Raise e => Escape t e
  | Ok succ =>
      let chosen := choose_branch f current succ (st_cfg step) key in
      match on_step t run_id step (mkResult true (Some (switch_output (st_cfg step) key chosen)) None)
              (KeyFrom key_from) with
      | Raise e => Escape t e
      | Ok t1 =>
          match chosen with
          | None => close t1 run_id "error" (cx_vars ctx)
          | Some n => Goto n t1 (cx_vars ctx)
          end
      end
  end.

Definition parallel_round (f : FlowGraph G) (current : string) (t : Tracer) (ctx : ExecContext)
    (step : Step) (inputs : table) : round :=
  match uses_of (st_cfg step) with
  | Raise e => Escape t e
  | Ok uses =>
      match _as_int (jget "max_workers" (st_cfg step)) 4 with
      | Raise e => Escape t e
      | Ok max_workers =>
          match _parse_policies_from_cfg (st_cfg step) with
          | Raise e => Escape t e
          | Ok pol =>
              match run_parallel step ctx inputs pol uses max_workers with
              | inl outputs =>
                  finish_step f current t ctx step inputs (JObj outputs)
                    (JObj [("parallel", JObj outputs)]) None
              | inr e => finish_step f current t ctx step inputs JNull JNull (Some e)
              end
          end
      end
  end.

Definition finish_round (t : Tracer) (ctx : ExecContext) (step : Step) : round :=
  match on_step t (cx_trace_id ctx) step (mkResult true None None) NoInputs with
  | Raise e => Escape t e
  | Ok t1 => close t1 (cx_trace_id ctx) "ok" (cx_vars ctx)
  end.

Definition do_round (f : FlowGraph G) (current : string) (t : Tracer) (ctx : ExecContext)
    (inputs : table) : round :=
  match node f current with
  | Raise e => Escape t e
  | Ok step =>
      match st_kind step with
      | TASK => task_round f current t ctx step inputs
      | SWITCH => switch_round f current t ctx step inputs
      | PARALLEL => parallel_round f current t ctx step inputs
      | FINISH => finish_round t ctx step
      end
  end.

(** The [while True] loop. *)
Fixpoint walk (fuel : nat) (f : FlowGraph G) (current : string) (t : Tracer) (ctx : ExecContext)
    (inputs : table) : option (Tracer * res table) :=
  match fuel with
  | O => None
  | S fuel =>
      match do_round f current t ctx inputs with
      | Goto n t1 vars => walk fuel f n t1 (set_vars ctx vars) inputs
      | Closed t1 vars => Some (t1, Ok vars)
      | Escape t1 e => Some (t1, Raise e)
      end
  end.

(** [Engine.run] with the run id drawn by the tracer; it returns the run id
    and the variables. *)
Definition run (fuel : nat) (t : Tracer) (run_id : string) (f : FlowGraph G) (inputs : table)
  : option (Tracer * res table) :=
  let t1 := record_edges (begin t run_id (fg_name f)) run_id (nx_edges (fg_g f)) in
  let ctx := mkCtx (fg_name f) run_id [] in
  match entry f with
  | Raise e => Some (t1, Raise e)
  | Ok n => walk fuel f n t1 ctx inputs
  end.

End engine.
