(* ===== verification/FlowEngineSpec.v ===== *)
(** * What a run of the flow engine does

    A declarative account of runs: the histories a flow can have, how they
    end, and what the tracer and the caller see of them.  [Engine.run] gives
    exactly that, it ends on every acyclic graph, and a flow without issues of
    the static analyzer only fails where an operator or a check fails. *)

From S2P Require Import Prelude PyVal PyConv FlowGraph FlowEngine.
From stdpp Require Import base gmap strings list relations.
From Stdlib Require Import ZArith Lia.

(** ** Well-formed flows *)

(** The flows the builders make. *)
Inductive built {G} `{NX : DiGraph G} : FlowGraph G → Prop :=
| built_new name : built (new_flow name)
| built_task f n uses cfg f' : built f → task f n uses cfg = Ok f' → built f'
| built_finish f n f' : built f → finish f n = Ok f' → built f'
| built_switch f n key dflt f' : built f → switch f n key dflt = Ok f' → built f'
| built_parallel f n uses w cfg f' : built f → parallel f n uses w cfg = Ok f' → built f'
| built_link f u v : built f → built (link f u v)
| built_case f u v c : built f → built (link_case f u v c)
| built_entry f n f' : built f → set_entry f n = Ok f' → built f'.

Section spec.
Context {G : Type} `{NX : DiGraph G} {LG : LawfulDiGraph G} {JL : JsonLen} {PT : PyText}.

(** What the builders write in a step. *)
Definition step_wf (s : Step) : Prop :=
  match st_kind s with
  | TASK => is_Some (st_uses s)
  | PARALLEL => (∃ uses, uses_of (st_cfg s) = Ok uses) ∧
                ∃ w, _as_int (jget "max_workers" (st_cfg s)) 4 = Ok w
  | SWITCH | FINISH => True
  end.

Record wf (f : FlowGraph G) : Prop := {
  wf_id n s : nx_step (fg_g f) n = Some s → st_id s = n;
  wf_step n s : nx_step (fg_g f) n = Some s → step_wf s;
  wf_entry n : fg_entry f = Some n → n ∈ nx_nodes (fg_g f)
}.

Lemma add_node_wf f s f' : wf f → step_wf s → _add_node f s = Ok f' → wf f'.
Proof.
  intros [Hid Hst He] Hs. unfold _add_node. case_decide; [done|]. intros [= <-]. split; simpl; intros n.
  - intros s'. rewrite nx_step_add_node. case_decide; [congruence|]. apply Hid.
  - intros s'. rewrite nx_step_add_node. case_decide; [congruence|]. apply Hst.
  - rewrite nx_nodes_add_node, elem_of_add_new. destruct (fg_entry f); naive_solver.
Qed.

Lemma add_edge_wf f u v c : wf f → wf (mkFlow (fg_name f) (nx_add_edge (fg_g f) u v c) (fg_entry f)).
Proof.
  intros [Hid Hst He]. split; simpl; intros n.
  - intros s. rewrite nx_step_add_edge. apply Hid.
  - intros s. rewrite nx_step_add_edge. apply Hst.
  - rewrite nx_nodes_add_edge, !elem_of_add_new. naive_solver.
Qed.

Lemma built_wf f : built f → wf f.
Proof.
  induction 1 as [name|f n uses cfg f' _ IH Hf|f n f' _ IH Hf|f n key dflt f' _ IH Hf
                 |f n uses w cfg f' _ IH Hf|f u v _ IH|f u v c _ IH|f n f' _ [Hid Hst He] Hf].
  - split; simpl; try done; intros n s; by rewrite nx_step_empty.
  - eapply add_node_wf; [done| |exact Hf]. by eexists.
  - eapply add_node_wf; [done| |exact Hf]. done.
  - eapply add_node_wf; [done| |exact Hf]. done.
  - eapply add_node_wf; [done| |exact Hf]. unfold step_wf, uses_of, jget. simpl.
    rewrite !alookup_dict_set. simpl. eauto.
  - by apply add_edge_wf.
  - by apply add_edge_wf.
  - unfold set_entry in Hf. case_decide; [injection Hf as <-|done]. split; simpl; [done|done|].
    by intros n' [= <-].
Qed.

(** ** Histories *)

Record event : Type := mkEvent {
  ev_step : Step;
  ev_result : StepResult;
  ev_in : step_in;
  ev_value : option json
}.

Definition vars_of (h : list event) : table :=
  foldl (fun vars ev => match ev_value ev with
                        | Some v => dict_set (st_id (ev_step ev)) v vars
                        | None => vars
                        end) [] h.

Context (reg : OperatorRegistry) (checks : CheckRegistry) (completion : Step → list nat).
Context (f : FlowGraph G) (inputs : table) (run_id : string).

Definition ctx_of (h : list event) : ExecContext := mkCtx (fg_name f) run_id (vars_of h).

(** What a parallel step reads of its configuration, in this order. *)
Definition parallel_setup (cfg : table) : res (list string * Z * StepPolicies) :=
  match uses_of cfg, _as_int (jget "max_workers" cfg) 4, _parse_policies_from_cfg cfg with
  | Raise e, _, _ => Raise e
  | _, Raise e, _ => Raise e
  | _, _, Raise e => Raise e
  | Ok uses, Ok workers, Ok pol => Ok (uses, workers, pol)
  end.

(** The call of a task or a parallel step: its value and its output. *)
Inductive called (step : Step) (ctx : ExecContext) : (json * json) + op_exn → Prop :=
| called_task pol out :
    st_kind step = TASK → _parse_policies_from_cfg (st_cfg step) = Ok pol →
    run_task reg checks step ctx inputs pol = inl out → called step ctx (inl (out, out))
| called_task_fails pol e :
    st_kind step = TASK → _parse_policies_from_cfg (st_cfg step) = Ok pol →
    run_task reg checks step ctx inputs pol = inr e → called step ctx (inr e)
| called_parallel pol uses workers outs :
    st_kind step = PARALLEL → parallel_setup (st_cfg step) = Ok (uses, workers, pol) →
    run_parallel reg checks completion step ctx inputs pol uses workers = inl outs →
    called step ctx (inl (JObj outs, JObj [("parallel", JObj outs)]))
| called_parallel_fails pol uses workers e :
    st_kind step = PARALLEL → parallel_setup (st_cfg step) = Ok (uses, workers, pol) →
    run_parallel reg checks completion step ctx inputs pol uses workers = inr e →
    called step ctx (inr e).

Definition call_event (step : Step) (v out : json) : event :=
  mkEvent step (mkResult true (Some out) None) (CallIn inputs (st_cfg step)) (Some v).

Definition fail_event (step : Step) (e : op_exn) : event :=
  mkEvent step (mkResult false None (Some e)) (CallIn inputs (st_cfg step)) None.

Definition switch_key (step : Step) (vars : table) : json :=
  _get_path vars inputs (st_cfg step) (jget "key_from" (st_cfg step)).

Definition switch_event (step : Step) (vars : table) (chosen : option string) : event :=
  mkEvent step (mkResult true (Some (switch_output (st_cfg step) (switch_key step vars) chosen)) None)
    (KeyFrom (jget "key_from" (st_cfg step))) None.

Definition finish_event (step : Step) : event := mkEvent step (mkResult true None None) NoInputs None.

Definition chosen_by (n : string) (step : Step) (vars : table) : option string :=
  choose_branch f n (nx_succ (fg_g f) n) (st_cfg step) (switch_key step vars).

(** The histories from the entry [e] to a node that is next. *)
Inductive walked (e : string) : list event → string → Prop :=
| walked_start : walked e [] e
| walked_call h n m rest step v out :
    walked e h n → nx_step (fg_g f) n = Some step → called step (ctx_of h) (inl (v, out)) →
    nx_succ (fg_g f) n = m :: rest → walked e (h ++ [call_event step v out]) m
| walked_switch h n m step :
    walked e h n → nx_step (fg_g f) n = Some step → st_kind step = SWITCH →
    chosen_by n step (vars_of h) = Some m →
    walked e (h ++ [switch_event step (vars_of h) (Some m)]) m.

(** Why [run] raises at a node. *)
Definition raises_at (n : string) (e : exn) : Prop :=
  node f n = Raise e ∨
  ∃ step, nx_step (fg_g f) n = Some step ∧
    (st_kind step = TASK ∧ _parse_policies_from_cfg (st_cfg step) = Raise e ∨
     st_kind step = PARALLEL ∧ parallel_setup (st_cfg step) = Raise e).

Inductive outcome : Type :=
| Success
| Failure
| Broken (e : exn).

(** How the history [h] ends at the node [n]. *)
Inductive stops (h : list event) (n : string) : list event → outcome → Prop :=
| stops_finish step :
    nx_step (fg_g f) n = Some step → st_kind step = FINISH →
    stops h n (h ++ [finish_event step]) Success
| stops_last step v out :
    nx_step (fg_g f) n = Some step → called step (ctx_of h) (inl (v, out)) →
    nx_succ (fg_g f) n = [] → stops h n (h ++ [call_event step v out]) Success
| stops_failed step ex :
    nx_step (fg_g f) n = Some step → called step (ctx_of h) (inr ex) →
    stops h n (h ++ [fail_event step ex]) Failure
| stops_stuck step :
    nx_step (fg_g f) n = Some step → st_kind step = SWITCH → chosen_by n step (vars_of h) = None →
    stops h n (h ++ [switch_event step (vars_of h) None]) Failure
| stops_broken ex : raises_at n ex → stops h n h (Broken ex).

(** The complete histories. *)
Definition ended (e : string) (h' : list event) (o : outcome) : Prop :=
  ∃ h n, walked e h n ∧ stops h n h' o.

(** ** What the tracer keeps *)

Context (t0 : Tracer).

Definition dag_run (state : string) : DagRun :=
  mkRun (tr_dag_id_prefix t0 +:+ "." +:+ fg_name f) run_id state.

Definition event_ti (ev : event) : TaskInstance :=
  task_instance t0 (dag_run "running") run_id (ev_step ev) (ev_result ev) (ev_in ev).

Definition tis_of (h : list event) : list (string * TaskInstance) :=
  foldl (fun tis ev => dict_set (st_id (ev_step ev)) (event_ti ev) tis) [] h.

(** The tracer with this run in state [state] after [h], all other runs as
    before. *)
Record traced (t : Tracer) (h : list event) (state : string) : Prop := {
  td_prefix : tr_dag_id_prefix t = tr_dag_id_prefix t0;
  td_capture : tr_capture_outputs t = tr_capture_outputs t0;
  td_limit : tr_xcom_bytes_limit t = tr_xcom_bytes_limit t0;
  td_run : alookup run_id (tr_runs t) = Some (dag_run state);
  td_tis : alookup run_id (tr_tis t) = Some (tis_of h);
  td_edges : alookup run_id (tr_edges t) = Some (nx_edges (fg_g f));
  td_others id : id ≠ run_id →
    alookup id (tr_runs t) = alookup id (tr_runs t0) ∧
    alookup id (tr_tis t) = alookup id (tr_tis t0) ∧
    alookup id (tr_edges t) = alookup id (tr_edges t0)
}.

Definition outcome_state (o : outcome) : string :=
  match o with Success => "success" | Failure => "failed" | Broken _ => "running" end.

(** The answer of [run] to its caller. *)
Definition answer (h : list event) (o : outcome) : res table :=
  match o with Broken e => Raise e | _ => Ok (vars_of h) end.

Lemma task_instance_traced t h state step r i :
  traced t h state → task_instance t (dag_run "running") run_id step r i =
                     task_instance t0 (dag_run "running") run_id step r i.
Proof. intros Ht. unfold task_instance. by rewrite (td_capture _ _ _ Ht), (td_limit _ _ _ Ht). Qed.

Lemma begin_traced :
  traced (record_edges (begin t0 run_id (fg_name f)) run_id (nx_edges (fg_g f))) [] "running".
Proof.
  split; simpl; try done; try (rewrite alookup_dict_set; by rewrite decide_True).
  intros id Hid. rewrite !alookup_dict_set, !decide_False by done. split_and!; [done|done|].
  destruct (alookup run_id (tr_edges t0)); [done|]. by rewrite alookup_dict_set, decide_False.
Qed.

Lemma on_step_traced t h ev :
  traced t h "running" →
  ∃ t', on_step t run_id (ev_step ev) (ev_result ev) (ev_in ev) = Ok t' ∧ traced t' (h ++ [ev]) "running".
Proof.
  intros Ht. unfold on_step. rewrite (td_run _ _ _ Ht), (td_tis _ _ _ Ht).
  eexists. split; [done|]. rewrite (task_instance_traced _ _ _ _ _ _ Ht).
  destruct Ht as [H1 H2 H3 H4 H5 H6 H7]. split; simpl; try done.
  - rewrite alookup_dict_set, decide_True by done. unfold tis_of. by rewrite foldl_app.
  - intros id Hid. rewrite alookup_dict_set, decide_False by done. by apply H7.
Qed.

Lemma end_traced t h status :
  traced t h "running" →
  ∃ t', end_run t run_id status = Ok t' ∧ traced t' h (end_state status).
Proof.
  intros Ht. unfold end_run. rewrite (td_run _ _ _ Ht). eexists. split; [done|].
  destruct Ht as [H1 H2 H3 H4 H5 H6 H7]. split; simpl; try done.
  - by rewrite alookup_dict_set, decide_True by done.
  - intros id Hid. rewrite alookup_dict_set, decide_False by done. by apply H7.
Qed.

(** ** One round *)

Lemma vars_of_snoc h ev :
  vars_of (h ++ [ev]) =
  match ev_value ev with Some v => dict_set (st_id (ev_step ev)) v (vars_of h) | None => vars_of h end.
Proof. unfold vars_of. by rewrite foldl_app. Qed.

(** What a round may do after the history [h] at the node [n]. *)
Definition round_spec (e : string) (t : Tracer) (h : list event) (n : string) (r : round) : Prop :=
  match r with
  | Goto m t1 vars =>
      ∃ ev, walked e (h ++ [ev]) m ∧ traced t1 (h ++ [ev]) "running" ∧ vars = vars_of (h ++ [ev])
  | Closed t1 vars =>
      ∃ h1 o, ended e h1 o ∧ traced t1 h1 (outcome_state o) ∧ answer h1 o = Ok vars
  | Escape t1 ex => t1 = t ∧ raises_at n ex
  end.

Lemma successors_ok n step : nx_step (fg_g f) n = Some step → successors f n = Ok (nx_succ (fg_g f) n).
Proof. intros Hs. unfold successors. rewrite decide_True; [done|]. by eapply nx_step_nodes. Qed.

Lemma close_closed t h status vars :
  traced t h "running" →
  ∃ t', close t run_id status vars = Closed t' vars ∧ traced t' h (end_state status).
Proof.
  intros Ht. destruct (end_traced t h status Ht) as (t' & E & Ht'). exists t'.
  unfold close. by rewrite E.
Qed.

Lemma called_round e t h n step r :
  walked e h n → traced t h "running" → nx_step (fg_g f) n = Some step → called step (ctx_of h) r →
  round_spec e t h n
    (match r with
     | inl (v, out) => finish_step f n t (ctx_of h) step inputs v out None
     | inr ex => finish_step f n t (ctx_of h) step inputs JNull JNull (Some ex)
     end).
Proof.
  intros Hw Ht Hs Hc. destruct r as [[v out]|ex]; unfold finish_step; simpl.
  - destruct (on_step_traced t h (call_event step v out) Ht) as (t1 & E1 & Ht1). simpl in E1.
    rewrite E1. unfold advance. rewrite (successors_ok n step Hs).
    assert (dict_set (st_id step) v (vars_of h) = vars_of (h ++ [call_event step v out])) as Ev
      by (by rewrite vars_of_snoc). rewrite Ev.
    destruct (nx_succ (fg_g f) n) as [|m rest] eqn:Esucc.
    + destruct (close_closed t1 _ "ok" (vars_of (h ++ [call_event step v out])) Ht1) as (t2 & -> & Ht2).
      exists (h ++ [call_event step v out]), Success. split_and!; [exists h, n; split; [done|by eapply stops_last]|done|done].
    + exists (call_event step v out). split_and!; [by eapply walked_call|done|done].
  - destruct (on_step_traced t h (fail_event step ex) Ht) as (t1 & E1 & Ht1). simpl in E1. rewrite E1.
    destruct (close_closed t1 _ "error" (vars_of h) Ht1) as (t2 & -> & Ht2).
    exists (h ++ [fail_event step ex]), Failure. split_and!; [exists h, n; split; [done|by eapply stops_failed]|done|].
    simpl. by rewrite vars_of_snoc.
Qed.

Lemma find_case_edge n v m :
  find_case f n (nx_succ (fg_g f) n) v = Some m → edge (fg_g f) n m.
Proof. intros H. apply List.find_some in H as [H _]. by apply list_elem_of_In. Qed.

Lemma chosen_edge n step vars m : chosen_by n step vars = Some m → edge (fg_g f) n m.
Proof.
  unfold chosen_by, choose_branch. destruct (find_case f n _ _) eqn:E.
  - intros [= <-]. by eapply find_case_edge.
  - apply find_case_edge.
Qed.

Lemma switch_round_spec e t h n step :
  walked e h n → traced t h "running" → nx_step (fg_g f) n = Some step → st_kind step = SWITCH →
  round_spec e t h n (switch_round f n t (ctx_of h) step inputs).
Proof.
  intros Hw Ht Hs Hk. unfold switch_round. rewrite (successors_ok n step Hs). simpl.
  change (choose_branch f n _ _ _) with (chosen_by n step (vars_of h)).
  destruct (on_step_traced t h (switch_event step (vars_of h) (chosen_by n step (vars_of h))) Ht)
    as (t1 & E1 & Ht1). simpl in E1. unfold switch_key in E1. rewrite E1.
  destruct (chosen_by n step (vars_of h)) as [m|] eqn:Ec.
  - exists (switch_event step (vars_of h) (Some m)).
    split_and!; [by eapply walked_switch|done|by rewrite vars_of_snoc].
  - destruct (close_closed t1 _ "error" (vars_of h) Ht1) as (t2 & -> & Ht2).
    exists (h ++ [switch_event step (vars_of h) None]), Failure.
    split_and!; [exists h, n; split; [done|by eapply stops_stuck]|done|]. simpl. by rewrite vars_of_snoc.
Qed.

Lemma finish_round_spec e t h n step :
  walked e h n → traced t h "running" → nx_step (fg_g f) n = Some step → st_kind step = FINISH →
  round_spec e t h n (finish_round t (ctx_of h) step).
Proof.
  intros Hw Ht Hs Hk. unfold finish_round. simpl.
  destruct (on_step_traced t h (finish_event step) Ht) as (t1 & E1 & Ht1). simpl in E1. rewrite E1.
  destruct (close_closed t1 _ "ok" (vars_of h) Ht1) as (t2 & -> & Ht2).
  exists (h ++ [finish_event step]), Success. split_and!; [exists h, n; split; [done|by eapply stops_finish]|done|].
  simpl. by rewrite vars_of_snoc.
Qed.

Lemma parallel_round_eq n t ctx step :
  parallel_round reg checks completion f n t ctx step inputs =
  match parallel_setup (st_cfg step) with
  | Raise e => Escape t e
  | Ok (uses, workers, pol) =>
      match run_parallel reg checks completion step ctx inputs pol uses workers with
      | inl outs => finish_step f n t ctx step inputs (JObj outs) (JObj [("parallel", JObj outs)]) None
      | inr e => finish_step f n t ctx step inputs JNull JNull (Some e)
      end
  end.
Proof.
  unfold parallel_round, parallel_setup. destruct (uses_of _); [|done].
  destruct (_as_int _ _); [|done]. by destruct (_parse_policies_from_cfg _).
Qed.

Lemma do_round_spec e t h n :
  walked e h n → traced t h "running" →
  round_spec e t h n (do_round reg checks completion f n t (ctx_of h) inputs).
Proof.
  intros Hw Ht. unfold do_round. destruct (node f n) as [step|ex] eqn:En; [|by split; [|left]].
  assert (nx_step (fg_g f) n = Some step) as Hs.
  { unfold node in En. destruct (nx_step (fg_g f) n); [by injection En as ->|done]. }
  destruct (st_kind step) eqn:Hk; [|by eapply finish_round_spec|by eapply switch_round_spec|].
  - unfold task_round. destruct (_parse_policies_from_cfg (st_cfg step)) as [pol|ex] eqn:Ep;
      [|split; [done|right; eauto 8]].
    destruct (run_task reg checks step (ctx_of h) inputs pol) as [out|ex] eqn:Er.
    + apply (called_round e t h n step (inl (out, out))); eauto using called_task.
    + apply (called_round e t h n step (inr ex)); eauto using called_task_fails.
  - rewrite parallel_round_eq.
    destruct (parallel_setup (st_cfg step)) as [[[uses w] pol]|ex] eqn:Ep; [|split; [done|right; eauto 8]].
    destruct (run_parallel reg checks completion step (ctx_of h) inputs pol uses w) as [outs|ex] eqn:Er.
    + apply (called_round e t h n step (inl (JObj outs, JObj [("parallel", JObj outs)])));
        eauto using called_parallel.
    + apply (called_round e t h n step (inr ex)); eauto using called_parallel_fails.
Qed.

(** ** The walk *)

Lemma walk_sound fuel e t h n t' r :
  walked e h n → traced t h "running" →
  walk reg checks completion fuel f n t (ctx_of h) inputs = Some (t', r) →
  ∃ h' o, ended e h' o ∧ traced t' h' (outcome_state o) ∧ r = answer h' o.
Proof.
  revert t h n. induction fuel as [|fuel IH]; intros t h n Hw Ht Hr; simpl in Hr; [done|].
  pose proof (do_round_spec e t h n Hw Ht) as H.
  destruct (do_round reg checks completion f n t (ctx_of h) inputs) as [m t1 vars|t1 vars|t1 ex].
  - destruct H as (ev & Hw1 & Ht1 & ->). by apply (IH t1 (h ++ [ev]) m).
  - injection Hr as <- <-. destruct H as (h1 & o & He & Ht1 & Ea). by exists h1, o.
  - injection Hr as <- <-. destruct H as [-> Hex]. exists h, (Broken ex).
    split_and!; [exists h, n; split; [done|by eapply stops_broken]|done|done].
Qed.

Definition path_of (h : list event) : list string := st_id ∘ ev_step <$> h.

Lemma walked_path e h n :
  wf f → nx_is_dag (fg_g f) = true → walked e h n →
  NoDup (path_of h) ∧ ∀ x, x ∈ path_of h → x ∈ nx_nodes (fg_g f) ∧ tc (edge (fg_g f)) x n.
Proof.
  intros Hwf Hdag. rewrite nx_is_dag_spec in Hdag.
  assert (∀ h n m ev,
    NoDup (path_of h) ∧ (∀ x, x ∈ path_of h → x ∈ nx_nodes (fg_g f) ∧ tc (edge (fg_g f)) x n) →
    st_id (ev_step ev) = n → edge (fg_g f) n m →
    NoDup (path_of (h ++ [ev])) ∧
    ∀ x, x ∈ path_of (h ++ [ev]) → x ∈ nx_nodes (fg_g f) ∧ tc (edge (fg_g f)) x m) as Hstep.
  { intros h0 n0 m ev [Hnd Hin] Hid Hedge. unfold path_of in *. rewrite fmap_app. simpl. rewrite Hid. split.
    - apply NoDup_app. split_and!; [done| |apply NoDup_singleton].
      intros x Hx ->%list_elem_of_singleton. by apply (Hdag n0), Hin.
    - intros x [Hx| ->%list_elem_of_singleton]%elem_of_app.
      + destruct (Hin x Hx) as [? Ht]. split; [done|]. by eapply tc_r.
      + split; [by apply (nx_succ_nodes _ _ m)|by apply tc_once]. }
  induction 1 as [|h n m rest step v out Hw IH Hs Hc Esucc|h n m step Hw IH Hs Hk Hch].
  - split; [constructor|by intros x ?%elem_of_nil].
  - apply (Hstep h n); [done|by apply (wf_id _ Hwf)|]. unfold edge. rewrite Esucc. by left.
  - apply (Hstep h n); [done|by apply (wf_id _ Hwf)|by eapply chosen_edge].
Qed.

Lemma walk_total fuel e t h n :
  wf f → nx_is_dag (fg_g f) = true → walked e h n → traced t h "running" →
  length (nx_nodes (fg_g f)) < fuel + length h →
  ∃ out, ∀ more, walk reg checks completion (fuel + more) f n t (ctx_of h) inputs = Some out.
Proof.
  intros Hwf Hdag. revert t h n. induction fuel as [|fuel IH]; intros t h n Hw Ht Hlen.
  { destruct (walked_path e h n Hwf Hdag Hw) as [Hnd Hin].
    assert (path_of h ⊆+ nx_nodes (fg_g f)) as Hsub%submseteq_length.
    { apply NoDup_submseteq; [done|]. intros x Hx. by apply Hin. }
    unfold path_of in Hsub. rewrite length_fmap in Hsub. lia. }
  simpl. pose proof (do_round_spec e t h n Hw Ht) as H.
  destruct (do_round reg checks completion f n t (ctx_of h) inputs) as [m t1 vars|t1 vars|t1 ex].
  - destruct H as (ev & Hw1 & Ht1 & ->). apply (IH t1 (h ++ [ev]) m); [done|done|].
    rewrite length_app. simpl. lia.
  - by eexists.
  - by eexists.
Qed.

(** *** A history is determined by its flow *)

Lemma called_det step ctx r1 r2 : called step ctx r1 → called step ctx r2 → r1 = r2.
Proof. destruct 1; destruct 1; simplify_eq; congruence. Qed.

Lemma called_kind step ctx r : called step ctx r → st_kind step = TASK ∨ st_kind step = PARALLEL.
Proof. destruct 1; auto. Qed.

Lemma walked_det e h1 n1 h2 n2 :
  walked e h1 n1 → walked e h2 n2 → length h1 = length h2 → h1 = h2 ∧ n1 = n2.
Proof.
  intros H1. revert h2 n2.
  induction H1 as [|h n m rest step v out Hw IH Hs Hc Esucc|h n m step Hw IH Hs Hk Hch];
    intros h2 n2 H2 Hlen; destruct H2 as [|h' n' m' rest' step' v' out' Hw' Hs' Hc' Esucc'|h' n' m' step' Hw' Hs' Hk' Hch'];
    rewrite ?length_app in Hlen; simpl in Hlen; try lia; [done|..];
    destruct (IH h' n' Hw') as [<- <-]; try lia; assert (step' = step) as -> by congruence.
  - pose proof (called_det _ _ _ _ Hc Hc') as [= <- <-]. split; congruence.
  - apply called_kind in Hc. destruct Hc; congruence.
  - apply called_kind in Hc'. destruct Hc'; congruence.
  - split; congruence.
Qed.

(** A step has one kind, and one result. *)
Ltac clash :=
  repeat match goal with
  | H1 : nx_step ?g ?n = Some ?a, H2 : nx_step ?g ?n = Some ?b |- _ =>
      assert (b = a) as -> by congruence; clear H2
  | H1 : called ?s ?c ?a, H2 : called ?s ?c ?b |- _ =>
      pose proof (called_det _ _ _ _ H1 H2); clear H2; simplify_eq
  | H : called _ _ _, K : st_kind _ = _ |- _ =>
      apply called_kind in H; rewrite K in H; destruct H; done
  end.

Lemma raises_not_called n step ctx r ex :
  raises_at n ex → nx_step (fg_g f) n = Some step → called step ctx r → False.
Proof.
  intros [Hn|(step' & Hs' & Hr)] Hs Hc.
  - unfold node in Hn. by rewrite Hs in Hn.
  - assert (step' = step) as -> by congruence. destruct Hc; destruct Hr as [[??]|[??]]; congruence.
Qed.

Lemma raises_kind n step ex :
  raises_at n ex → nx_step (fg_g f) n = Some step → st_kind step = TASK ∨ st_kind step = PARALLEL.
Proof.
  intros [Hn|(step' & Hs' & Hr)] Hs; [unfold node in Hn; by rewrite Hs in Hn|].
  assert (step' = step) as -> by congruence. naive_solver.
Qed.

Lemma raises_det n ex1 ex2 : raises_at n ex1 → raises_at n ex2 → ex1 = ex2.
Proof.
  unfold raises_at, node. intros [H1|(s1 & Hs1 & H1)] [H2|(s2 & Hs2 & H2)];
    rewrite ?Hs1, ?Hs2 in *; try congruence. clash. naive_solver congruence.
Qed.

(** A history that stops at a node does not go on from it. *)
Lemma stops_final e h n h' o ev m :
  walked e h n → stops h n h' o → walked e (h ++ [ev]) m → False.
Proof.
  intros Hw Hst Hw2. inversion Hw2 as [E|h1 n1 m1 rest step v out Hw1 Hs Hc Esucc E E2|h1 n1 m1 step Hw1 Hs Hk Hch E E2];
    [by destruct h|..];
    apply app_inj_tail in E as [-> _]; destruct (walked_det _ _ _ _ _ Hw Hw1 eq_refl) as [_ <-];
    destruct Hst as [step' Hs' Hf|step' v' out' Hs' Hc'|step' ex Hs' Hc'|step' Hs' Hk' Hn|ex Hr];
    clash; try congruence.
  - by eapply raises_not_called.
  - destruct (raises_kind _ _ _ Hr Hs); congruence.
Qed.

Lemma stops_det h n h1 o1 h2 o2 : stops h n h1 o1 → stops h n h2 o2 → h1 = h2 ∧ o1 = o2.
Proof.
  intros H1 H2.
  destruct H1 as [s1 Hs1 Hk1|s1 v1 out1 Hs1 Hc1 _|s1 e1 Hs1 Hc1|s1 Hs1 Hk1 _|e1 Hr1];
    destruct H2 as [s2 Hs2 Hk2|s2 v2 out2 Hs2 Hc2 _|s2 e2 Hs2 Hc2|s2 Hs2 Hk2 _|e2 Hr2];
    clash; try done; try congruence;
    try (by exfalso; eauto using raises_not_called);
    try (exfalso; edestruct raises_kind; [done|done|congruence|congruence]).
  split; [done|]. f_equal. by eapply raises_det.
Qed.

Lemma walked_prefix e h n k :
  walked e h n → k < length h →
  ∃ h0 n0 ev m, walked e h0 n0 ∧ walked e (h0 ++ [ev]) m ∧ length h0 = k.
Proof.
  induction 1 as [|h n m rest step v out Hw IH Hs Hc Esucc|h n m step Hw IH Hs Hk Hch];
    rewrite ?length_app; simpl; intros Hlt; [lia|..];
    (destruct (decide (k = length h)) as [->|Hne]; [|apply IH; lia]);
    exists h, n; eauto 8 using walked_call, walked_switch.
Qed.

(** There is one complete history. *)
Lemma ended_det e h1 o1 h2 o2 : ended e h1 o1 → ended e h2 o2 → h1 = h2 ∧ o1 = o2.
Proof.
  assert (∀ a na ha oa b nb hb ob, walked e a na → stops a na ha oa → walked e b nb → stops b nb hb ob →
    length a < length b → False) as Hlt.
  { intros a na ha oa b nb hb ob Hwa Hsa Hwb Hsb Hl.
    destruct (walked_prefix e b nb _ Hwb Hl) as (h0 & n0 & ev & m & Hw0 & Hw1 & El).
    destruct (walked_det _ _ _ _ _ Hwa Hw0) as [-> ->]; [done|]. exact (stops_final _ _ _ _ _ _ _ Hw0 Hsa Hw1). }
  intros (a & na & Hwa & Hsa) (b & nb & Hwb & Hsb).
  destruct (lt_eq_lt_dec (length a) (length b)) as [[Hl|El]|Hl]; [exfalso; eauto| |exfalso; eauto].
  destruct (walked_det _ _ _ _ _ Hwa Hwb El) as [<- <-]. by eapply stops_det.
Qed.

(** *** The run *)

Lemma dict_sets_fresh {V} (key : event → string) (val : event → V) h :
  NoDup (key <$> h) →
  foldl (fun acc ev => dict_set (key ev) (val ev) acc) [] h = (fun ev => (key ev, val ev)) <$> h.
Proof.
  induction h as [|ev h IH] using rev_ind; [done|]. rewrite !fmap_app, foldl_app. simpl.
  intros (Hnd & Hni & _)%NoDup_app. rewrite IH by done. apply dict_set_fresh.
  rewrite <- list_fmap_compose. intros Hin. apply (Hni (key ev)); [exact Hin|by left].
Qed.

Lemma stops_path e h n h' o :
  wf f → nx_is_dag (fg_g f) = true → walked e h n → stops h n h' o →
  NoDup (path_of h') ∧ ∀ x, x ∈ path_of h' → x ∈ nx_nodes (fg_g f).
Proof.
  intros Hwf Hdag Hw Hst. destruct (walked_path e h n Hwf Hdag Hw) as [Hnd Hin].
  rewrite nx_is_dag_spec in Hdag.
  assert (∀ ev, st_id (ev_step ev) = n → n ∈ nx_nodes (fg_g f) →
    NoDup (path_of (h ++ [ev])) ∧ ∀ x, x ∈ path_of (h ++ [ev]) → x ∈ nx_nodes (fg_g f)) as Hsnoc.
  { intros ev Hid Hn. unfold path_of in *. rewrite fmap_app. simpl. rewrite Hid. split.
    - apply NoDup_app. split_and!; [done| |apply NoDup_singleton].
      intros x Hx ->%list_elem_of_singleton. by apply (Hdag n), Hin.
    - intros x [Hx| ->%list_elem_of_singleton]%elem_of_app; [by apply Hin|done]. }
  destruct Hst as [s Hs|s v out Hs|s ex Hs|s Hs|ex _];
    try (apply Hsnoc; [by apply (wf_id _ Hwf)|by eapply nx_step_nodes]).
  split; [done|]. intros x Hx. by apply Hin.
Qed.

Lemma run_spec e :
  wf f → nx_is_dag (fg_g f) = true → entry f = Ok e →
  ∃ h o t', ended e h o ∧ traced t' h (outcome_state o) ∧
    ∀ fuel, length (nx_nodes (fg_g f)) < fuel →
      run reg checks completion fuel t0 run_id f inputs = Some (t', answer h o).
Proof.
  intros Hwf Hdag He.
  destruct (walk_total (S (length (nx_nodes (fg_g f)))) e _ [] e Hwf Hdag (walked_start e) begin_traced)
    as [[t' r] Hrun]; [simpl; lia|].
  destruct (walk_sound _ e _ [] e t' r (walked_start e) begin_traced (Hrun 0)) as (h & o & Hend & Ht & ->).
  exists h, o, t'. split_and!; [done|done|]. intros fuel Hfuel. unfold run. rewrite He.
  specialize (Hrun (fuel - S (length (nx_nodes (fg_g f))))).
  by replace (S (length (nx_nodes (fg_g f))) + (fuel - S (length (nx_nodes (fg_g f))))) with fuel in Hrun by lia.
Qed.
End spec.
