(* ===== verification/FlowAnalysis.v ===== *)
(** * The static analyzer and the engine

    Retries of an operator, the causes of a failed step, and what the absence
    of issues says of a run. *)

From S2P Require Import Prelude PyVal PyConv FlowGraph FlowEngine FlowEngineSpec.
From stdpp Require Import base gmap strings list relations.
From Stdlib Require Import ZArith Lia.

Section analysis.
Context {G : Type} `{NX : DiGraph G} {LG : LawfulDiGraph G} {JL : JsonLen} {PT : PyText}.
Context (reg : OperatorRegistry) (checks : CheckRegistry) (completion : Step → list nat).

(** ** Retries *)

Definition attempt_fails (op : string) (ctx : ExecContext) (call_in : table) (pol : StepPolicies)
    (slot j : nat) : Prop :=
  ∃ e, (attempt_operator reg op ctx call_in pol slot j).2 = inr e.

(** An operator fails when every attempt it is allowed fails; a pause that is
    too long to sleep takes the place of the attempts after the first. *)
Definition operator_failed (op : string) (ctx : ExecContext) (call_in : table) (pol : StepPolicies)
    (slot : nat) : Prop :=
  (∀ j, j < Z.to_nat (po_max_attempts pol) → attempt_fails op ctx call_in pol slot j) ∨
  (attempt_fails op ctx call_in pol slot 0 ∧ is_Some (backoff (po_backoff_ms pol))).

Lemma backoff_pos ms e : backoff ms = Some e → (0 < ms)%Z.
Proof.
  unfold backoff. destruct (float_max <=? ms)%Z eqn:E1; [intros _|].
  - assert (0 < float_max)%Z by done. lia.
  - destruct (timeout_max <? ms)%Z eqn:E2; [|done]. intros _. unfold timeout_max in *. lia.
Qed.

(** The attempts from [done] on: all before the last fail, and without a
    result all of them do. *)
Definition attempts_result (op : string) (ctx : ExecContext) (call_in : table) (pol : StepPolicies)
    (slot done todo n : nat) (r : json + op_exn) : Prop :=
  match r with
  | inl out =>
      done < n ≤ done + todo ∧ (attempt_operator reg op ctx call_in pol slot (n - 1)).2 = inl out ∧
      ∀ j, done ≤ j < n - 1 → attempt_fails op ctx call_in pol slot j
  | inr e =>
      n ≤ done + todo ∧ (∀ j, done ≤ j < n → attempt_fails op ctx call_in pol slot j) ∧
      (n = done + todo ∨ n = S done ∧ backoff (po_backoff_ms pol) = Some e)
  end.

Lemma attempts_result_step op ctx call_in pol slot done todo n r :
  attempt_fails op ctx call_in pol slot done →
  (todo = 0 ∨ backoff (po_backoff_ms pol) = None) →
  attempts_result op ctx call_in pol slot (S done) todo n r →
  attempts_result op ctx call_in pol slot done (S todo) n r.
Proof.
  intros Hd Hb. destruct r as [out|e]; simpl.
  - intros (? & ? & Hj). split_and!; [lia|lia|done|]. intros j Hj'.
    destruct (decide (j = done)) as [->|]; [done|]. apply Hj. lia.
  - intros (? & Hj & Hn). split_and!; [lia| |].
    + intros j Hj'. destruct (decide (j = done)) as [->|]; [done|]. apply Hj. lia.
    + destruct Hn as [->|[-> Hs]]; [lia|]. destruct Hb; [lia|congruence].
Qed.

Lemma attempts_spec op ctx call_in pol slot todo done last :
  let '(n, t, r) := attempts_from reg op ctx call_in pol slot todo done last in
  attempts_result op ctx call_in pol slot done todo n r.
Proof.
  revert done last. induction todo as [|todo IH]; intros done last; simpl.
  { split_and!; lia. }
  destruct (attempt_operator reg op ctx call_in pol slot done) as [ms [out|e]] eqn:Ea.
  { simpl. rewrite Nat.sub_0_r, Ea. split_and!; [lia|lia|done|lia]. }
  assert (attempt_fails op ctx call_in pol slot done) as Hd by (exists e; by rewrite Ea).
  specialize (IH (S done) e).
  destruct (attempts_from reg op ctx call_in pol slot todo (S done) e) as [[n t] r].
  destruct ((0 <? todo)%nat && (0 <? po_backoff_ms pol)%Z) eqn:Eb.
  - destruct (backoff (po_backoff_ms pol)) as [e1|] eqn:Eo.
    + simpl. split_and!; [lia| |by right]. intros j Hj. by replace j with done by lia.
    + apply attempts_result_step; auto.
  - apply attempts_result_step; [done| |done].
    destruct (backoff (po_backoff_ms pol)) as [e1|] eqn:Eo; [|by right]. apply backoff_pos in Eo.
    destruct todo; [by left|]. simpl in Eb. lia.
Qed.

Lemma run_operator_failed op ctx call_in pol slot e :
  (_run_operator reg op ctx call_in pol slot).2 = inr e → operator_failed op ctx call_in pol slot.
Proof.
  unfold _run_operator, operator_failed. intros E.
  pose proof (attempts_spec op ctx call_in pol slot (Z.to_nat (po_max_attempts pol)) 0
                (Known (RuntimeError "operator failed without exception?"))) as H.
  destruct (attempts_from _ _ _ _ _ _ _ _ _) as [[n t] r]. simpl in E. subst r.
  destruct H as (_ & Hj & [->|[-> Hb]]); [left|right]; intros; eauto with lia.
Qed.

(** ** Why a step fails *)

Context (inputs : table).

Inductive call_fault (step : Step) (ctx : ExecContext) (pol : StepPolicies) (slot : nat) (op : string)
  : op_exn → Prop :=
| fault_before e :
    _run_checks checks (jget "before" (st_cfg step)) ctx (call_input ctx inputs (st_cfg step)) = Some e →
    call_fault step ctx pol slot op e
| fault_operator e :
    operator_failed op ctx (call_input ctx inputs (st_cfg step)) pol slot →
    call_fault step ctx pol slot op e
| fault_after e out :
    _run_checks checks (jget "after" (st_cfg step)) ctx
      (("**out", out) :: call_input ctx inputs (st_cfg step)) = Some e →
    call_fault step ctx pol slot op e.

Lemma run_one_fault step ctx pol slot op e :
  run_one reg checks step ctx inputs pol slot op = inr e → call_fault step ctx pol slot op e.
Proof.
  unfold run_one, checked_call. destruct (_run_checks _ (jget "before" _) _ _) as [e1|] eqn:E1.
  { intros [= <-]. by apply fault_before. }
  destruct ((_run_operator reg op ctx _ pol slot).2) as [out|e2] eqn:E2.
  - destruct (_run_checks _ (jget "after" _) _ _) as [e3|] eqn:E3; [|done].
    intros [= <-]. by eapply fault_after.
  - intros [= <-]. by eapply fault_operator, run_operator_failed.
Qed.

Lemma run_task_fault step ctx pol op e :
  st_uses step = Some op → run_task reg checks step ctx inputs pol = inr e →
  call_fault step ctx pol 0 op e.
Proof. intros Hu. unfold run_task. rewrite Hu. apply run_one_fault. Qed.

Lemma collect_fault step ctx pol uses order outs e :
  collect reg checks step ctx inputs pol uses order outs = inr e →
  ∃ slot op, uses !! slot = Some op ∧ call_fault step ctx pol slot op e.
Proof.
  revert outs. induction order as [|i order IH]; intros outs; simpl; [done|].
  destruct (uses !! i) as [op|] eqn:Ei; [|apply IH].
  destruct (run_one reg checks step ctx inputs pol i op) as [out|e1] eqn:E1; [apply IH|].
  intros [= <-]. exists i, op. split; [done|]. by apply run_one_fault.
Qed.

(** The causes of the failure of a step. *)
Definition step_fault (step : Step) (ctx : ExecContext) (e : op_exn) : Prop :=
  (∃ op pol, st_kind step = TASK ∧ st_uses step = Some op ∧ is_Some (or_ops reg !! op) ∧
     _parse_policies_from_cfg (st_cfg step) = Ok pol ∧ call_fault step ctx pol 0 op e) ∨
  (∃ uses workers pol, st_kind step = PARALLEL ∧ parallel_setup (st_cfg step) = Ok (uses, workers, pol) ∧
     ((workers <= 0)%Z ∨ ∃ slot op, uses !! slot = Some op ∧ call_fault step ctx pol slot op e)).

(** The outputs of a parallel step that does not fail: one per operator. *)
Lemma collect_outputs step ctx pol uses order outs outs' :
  collect reg checks step ctx inputs pol uses order outs = inl outs' →
  ∀ op, (∃ i, i ∈ order ∧ uses !! i = Some op) →
  ∃ i v, uses !! i = Some op ∧ run_one reg checks step ctx inputs pol i op = inl v ∧
         alookup op outs' = Some v.
Proof.
  intros Hc.
  assert (∀ op, (∃ i v, uses !! i = Some op ∧ run_one reg checks step ctx inputs pol i op = inl v ∧
                        alookup op outs = Some v) ∨ (∃ i, i ∈ order ∧ uses !! i = Some op) →
    ∃ i v, uses !! i = Some op ∧ run_one reg checks step ctx inputs pol i op = inl v ∧
           alookup op outs' = Some v) as Hall; [|naive_solver].
  revert outs Hc. induction order as [|i order IH]; intros outs Hc op Hop; simpl in Hc.
  - injection Hc as <-. destruct Hop as [?|(i & ?%elem_of_nil & _)]; done.
  - destruct (uses !! i) as [op'|] eqn:Ei.
    + destruct (run_one reg checks step ctx inputs pol i op') as [out|] eqn:Er; [|done].
      apply (IH _ Hc). destruct (decide (op = op')) as [->|Hne].
      * left. exists i, out. by rewrite alookup_dict_set, decide_True.
      * destruct Hop as [(j & v & ? & ? & ?)|(j & [->|Hj]%elem_of_cons & Hu)]; [|congruence|by right; eauto].
        left. exists j, v. by rewrite alookup_dict_set, decide_False.
    + apply (IH _ Hc). destruct Hop as [?|(j & [->|Hj]%elem_of_cons & Hu)]; [by left|congruence|by right; eauto].
Qed.

(** ** A flow without issues *)

Context (f : FlowGraph G).

(** The operators at two positions of a parallel step do not touch the same
    resource. *)
Definition compatible (ui uj : string) : Prop :=
  om_externals (meta reg ui) ## om_externals (meta reg uj) ∧
  om_writes (meta reg ui) ## om_writes (meta reg uj) ∧
  om_reads (meta reg ui) ## om_writes (meta reg uj) ∧
  om_reads (meta reg uj) ## om_writes (meta reg ui).

Lemma issue_if_nil keys mk : issue_if keys mk = [] ↔ keys = ∅.
Proof. unfold issue_if. by case_decide. Qed.

Lemma check_pair_nil n ui uj : check_pair reg n ui uj = [] ↔ compatible ui uj.
Proof.
  unfold check_pair, compatible. rewrite !app_nil, !issue_if_nil. set_solver.
Qed.

Lemma bind_nil {A B} (g : A → list B) l : (x ← l; g x) = [] ↔ ∀ x, x ∈ l → g x = [].
Proof.
  induction l as [|a l IH]; simpl; [set_solver|]. change (mbind g l) with (x ← l; g x).
  rewrite app_nil, IH. set_solver.
Qed.

Lemma check_pairs_nil n uses :
  check_pairs reg n uses = [] ↔
  ∀ i j ui uj, i < j → uses !! i = Some ui → uses !! j = Some uj → compatible ui uj.
Proof.
  induction uses as [|u uses IH]; simpl; [done|]. rewrite app_nil, bind_nil, IH. split.
  - intros [Hu Hp] [|i] [|j] ui uj Hij Hi Hj; simpl in *; try lia.
    + injection Hi as <-. apply (check_pair_nil n), Hu. by eapply list_elem_of_lookup_2.
    + apply (Hp i j); [lia|done|done].
  - intros H. split.
    + intros uj [j Hj]%list_elem_of_lookup. apply check_pair_nil. apply (H 0 (S j)); [lia|done|done].
    + intros i j ui uj Hij Hi Hj. apply (H (S i) (S j)); [lia|done|done].
Qed.

(** What the analyzer has checked when it reports nothing. *)
Record clean : Prop := {
  cl_dag : nx_is_dag (fg_g f) = true;
  cl_entry : ∃ e, entry f = Ok e ∧
    ∀ n, n ∈ nx_nodes (fg_g f) → n = e ∨ n ∈ nx_descendants (fg_g f) e;
  cl_node n : n ∈ nx_nodes (fg_g f) → check_node reg f n = [];
  cl_races n step uses : nx_step (fg_g f) n = Some step → st_kind step = PARALLEL →
    uses_of (st_cfg step) = Ok uses → check_pairs reg n uses = []
}.

Lemma check_clean : check reg f = Ok [] → clean.
Proof.
  unfold check. intros (races & Hr & Hc)%res_bind_ok. injection Hc as Hc.
  apply app_nil in Hc as [Hdag Hc]. apply app_nil in Hc as [He Hc]. apply app_nil in Hc as [Hn Hraces].
  split.
  - by destruct (nx_is_dag (fg_g f)).
  - unfold check_entry in He. destruct (entry f) as [e|]; [|done]. exists e. split; [done|].
    intros n Hin. rewrite bind_nil in He. specialize (He n Hin). case_decide as Hd; [|done]. set_solver.
  - intros n Hin. rewrite bind_nil in Hn. by apply Hn.
  - intros n step uses Hs Hk Hu. apply mapM_res_ok in Hr.
    assert (n ∈ nx_nodes (fg_g f)) as [i Hi]%list_elem_of_lookup by (by eapply nx_step_nodes).
    destruct (Forall2_lookup_l _ _ _ _ _ Hr Hi) as (r & Hri & E).
    unfold check_races in E. rewrite Hs, decide_True, Hu in E by done. injection E as E.
    change (check_pairs reg n uses = r) in E. rewrite E. apply list_elem_of_lookup_2 in Hri.
    clear -Hraces Hri. induction races as [|r' races IH]; [by apply elem_of_nil in Hri|].
    simpl in Hraces. apply app_nil in Hraces as [-> Hraces]. apply elem_of_cons in Hri as [->|]; auto.
Qed.

Lemma clean_switch n step vars :
  clean → nx_step (fg_g f) n = Some step → st_kind step = SWITCH →
  is_Some (chosen_by f inputs n step vars).
Proof.
  intros Hcl Hs Hk. pose proof (cl_node Hcl n) as Hn. unfold check_node in Hn. rewrite Hs, Hk in Hn.
  specialize (Hn (nx_step_nodes _ _ _ Hs)). apply app_nil in Hn as [_ Hn].
  destruct (existsb _ _) eqn:E in Hn; [|done]. apply existsb_exists in E as (m & Hin & Heq).
  unfold chosen_by, choose_branch. destruct (find_case f n _ (switch_key inputs step vars)); [by eexists|].
  destruct (find_case f n (nx_succ (fg_g f) n) (default_case (st_cfg step))) as [m'|] eqn:Ef; [by eexists|].
  unfold find_case in Ef. apply (List.find_none _ _) with (x := m) in Ef; [congruence|done].
Qed.

Lemma clean_fault n step ctx e :
  clean → nx_step (fg_g f) n = Some step → step_wf step →
  called reg checks completion inputs step ctx (inr e) → step_fault step ctx e.
Proof.
  intros Hcl Hs Hu Hc. inversion Hc as [|pol ex Hk Hp Hr|a b c d|pol uses w ex Hk Hp Hr]; subst; [left|right].
  - unfold step_wf in Hu. rewrite Hk in Hu. destruct Hu as [op Hop]. exists op, pol. split_and!; [done|done| |done|by apply run_task_fault].
    pose proof (cl_node Hcl n (nx_step_nodes _ _ _ Hs)) as Hn. unfold check_node in Hn.
    rewrite Hs, Hk, Hop in Hn. unfold get_operator in Hn. destruct (or_ops reg !! op); [eauto|done].
  - exists uses, w, pol. split_and!; [done|done|]. unfold run_parallel in Hr.
    destruct (w <=? 0)%Z eqn:Ew; [left; lia|right]. by eapply collect_fault.
Qed.

(** Every node is declared, and the policies of a step are readable: no
    infinite float among them. *)
Record runnable : Prop := {
  rn_declared n : n ∈ nx_nodes (fg_g f) → is_Some (nx_step (fg_g f) n);
  rn_policies n step : nx_step (fg_g f) n = Some step →
    is_ok (_parse_policies_from_cfg (st_cfg step)) = true
}.

(** [runnable] as a test. *)
Definition runnable_test : bool :=
  forallb (fun n => match nx_step (fg_g f) n with
                    | Some step => is_ok (_parse_policies_from_cfg (st_cfg step))
                    | None => false
                    end) (nx_nodes (fg_g f)).

Lemma runnable_test_true : runnable_test = true → runnable.
Proof.
  unfold runnable_test. rewrite forallb_forall. intros H.
  assert (∀ n, n ∈ nx_nodes (fg_g f) → ∃ step, nx_step (fg_g f) n = Some step ∧
            is_ok (_parse_policies_from_cfg (st_cfg step)) = true) as Hn.
  { intros n Hin. apply list_elem_of_In, H in Hin.
    destruct (nx_step (fg_g f) n) as [step|]; [by exists step|done]. }
  split.
  { intros n Hin. destruct (Hn n Hin) as (step & Hs & _). by exists step. }
  intros n step Hs. destruct (Hn n) as (s & Hs' & Hok); [by eapply nx_step_nodes|].
  congruence.
Qed.

Lemma runnable_node n ex : wf f → runnable → n ∈ nx_nodes (fg_g f) → raises_at f n ex → False.
Proof.
  intros Hwf [Hd Hp] Hn. destruct (Hd n Hn) as [step Hs]. specialize (Hp n step Hs).
  intros [Hr|(step' & Hs' & Hr)]; [unfold node in Hr; by rewrite Hs in Hr|].
  assert (step' = step) as -> by congruence. destruct Hr as [[Hk Hr]|[Hk Hr]]; [by rewrite Hr in Hp|].
  pose proof (wf_step _ Hwf n step Hs) as Hw. unfold step_wf in Hw. rewrite Hk in Hw.
  destruct Hw as [[uses Hu] [w Hw]]. unfold parallel_setup in Hr. rewrite Hu, Hw in Hr.
  by destruct (_parse_policies_from_cfg (st_cfg step)).
Qed.

Lemma walked_in run_id e h n :
  e ∈ nx_nodes (fg_g f) → walked reg checks completion f inputs run_id e h n → n ∈ nx_nodes (fg_g f).
Proof.
  intros He. destruct 1 as [|h n m rest step v out _ _ _ Esucc|h n m step _ _ _ Hch]; [done|..].
  - apply (nx_succ_nodes _ n m). rewrite Esucc. by left.
  - apply chosen_edge in Hch. by apply (nx_succ_nodes _ n m).
Qed.

Lemma entry_in e : wf f → entry f = Ok e → e ∈ nx_nodes (fg_g f).
Proof.
  intros Hwf. unfold entry. destruct (fg_entry f) as [n|] eqn:E; [|done].
  destruct (String.eqb n ""); [done|]. intros [= <-]. by apply (wf_entry _ Hwf).
Qed.

Lemma clean_ended run_id e h o :
  wf f → clean → runnable → entry f = Ok e →
  ended reg checks completion f inputs run_id e h o →
  o = Success ∨ o = Failure ∧ ∃ h0 step ex,
    h = h0 ++ [fail_event inputs step ex] ∧ step_fault step (ctx_of f run_id h0) ex.
Proof.
  intros Hwf Hcl Hrun He (h0 & n & Hw & Hst).
  assert (n ∈ nx_nodes (fg_g f)) as Hn by (eapply walked_in; [by apply entry_in|done]).
  destruct Hst as [step|step v out|step ex Hs Hc|step Hs Hk Hno|ex Hr]; [by left|by left| | |].
  - right. split; [done|]. exists h0, step, ex. split; [done|].
    eapply clean_fault; [done|done|by apply (wf_step _ Hwf n)|done].
  - destruct (clean_switch n step (vars_of h0) Hcl Hs Hk); congruence.
  - exfalso. by eapply runnable_node.
Qed.
End analysis.

(** C15: on an acyclic flow [Engine.run] ends, whatever the operators and
    checks do and in whatever order parallel operators complete.  A flow has
    one complete history; each step occurs in it at most once.  The tracer has
    one record per step of the history, in its order, the run is closed unless
    an exception leaves the engine, other runs are untouched, and the caller
    gets the variables of the history or that exception.  One round per node
    is enough. *)
Theorem engine_run_spec {G} `{LG : LawfulDiGraph G} {JL : JsonLen} {PT : PyText}
    reg checks completion (f : FlowGraph G) inputs run_id t0 e :
  built f → nx_is_dag (fg_g f) = true → entry f = Ok e →
  ∃ h o t',
    ended reg checks completion f inputs run_id e h o ∧
    (∀ h' o', ended reg checks completion f inputs run_id e h' o' → h' = h ∧ o' = o) ∧
    NoDup (path_of h) ∧ (∀ n, n ∈ path_of h → n ∈ nx_nodes (fg_g f)) ∧
    traced f run_id t0 t' h (outcome_state o) ∧
    tis_of f run_id t0 h = (fun ev => (st_id (ev_step ev), event_ti f run_id t0 ev)) <$> h ∧
    ∀ fuel, length (nx_nodes (fg_g f)) < fuel →
      run reg checks completion fuel t0 run_id f inputs = Some (t', answer h o).
Proof.
  intros Hwf%built_wf Hdag He.
  destruct (run_spec reg checks completion f inputs run_id t0 e Hwf Hdag He) as (h & o & t' & Hend & Ht & Hrun).
  pose proof Hend as (h0 & n & Hw & Hst).
  destruct (stops_path _ _ _ _ _ _ _ _ _ _ _ Hwf Hdag Hw Hst) as [Hnd Hin].
  exists h, o, t'. split_and!; try done.
  - intros h' o' H'. eapply ended_det; [exact H'|exact Hend].
  - by apply dict_sets_fresh.
Qed.

(** C28: a flow in which the analyzer finds no issue, whose nodes are declared
    and whose policies are readable, runs to its end and closes its run.  It
    succeeds, or fails at a step where a check raised, the operator failed in
    every attempt it was allowed, or the pool of a parallel step has no
    worker; the operators of a parallel step are pairwise compatible, and
    every node is the entry or reachable from it. *)
Theorem static_analysis_sound {G} `{LG : LawfulDiGraph G} {JL : JsonLen} {PT : PyText}
    reg checks completion (f : FlowGraph G) inputs run_id t0 :
  built f → check reg f = Ok [] → runnable f →
  (∀ n step uses i j ui uj, nx_step (fg_g f) n = Some step → st_kind step = PARALLEL →
     uses_of (st_cfg step) = Ok uses → i < j → uses !! i = Some ui → uses !! j = Some uj →
     compatible reg ui uj) ∧
  ∃ e, entry f = Ok e ∧ (∀ n, n ∈ nx_nodes (fg_g f) → n = e ∨ tc (edge (fg_g f)) e n) ∧
  ∃ h o t',
    ended reg checks completion f inputs run_id e h o ∧
    traced f run_id t0 t' h (outcome_state o) ∧
    (∀ fuel, length (nx_nodes (fg_g f)) < fuel →
       run reg checks completion fuel t0 run_id f inputs = Some (t', Ok (vars_of h))) ∧
    (o = Success ∨ o = Failure ∧ ∃ h0 step ex,
       h = h0 ++ [fail_event inputs step ex] ∧
       step_fault reg checks inputs step (ctx_of f run_id h0) ex).
Proof.
  intros Hwf%built_wf Hcl%check_clean Hrun. split.
  { intros n step uses i j ui uj Hs Hk Hu. by apply (check_pairs_nil reg n uses), (cl_races _ _ Hcl n step). }
  destruct (cl_entry _ _ Hcl) as (e & He & Hreach). exists e. split_and!; [done| |].
  { intros n Hn. destruct (Hreach n Hn) as [->|Hd]; [by left|right].
    by apply nx_descendants_spec in Hd as [_ ?]; [|by apply entry_in]. }
  destruct (run_spec reg checks completion f inputs run_id t0 e Hwf (cl_dag _ _ Hcl) He)
    as (h & o & t' & Hend & Ht & Hr).
  pose proof (clean_ended _ _ _ _ _ _ _ _ _ Hwf Hcl Hrun He Hend) as Ho.
  exists h, o, t'. split_and!; try done. intros fuel Hf. rewrite Hr by done.
  by destruct Ho as [->|[-> _]].
Qed.
