(* ===== verification/FlowDemo.v ===== *)
(** * The demo flow of [tm/flow/core.py], and flows at the edge

    The demo operators, checks and flow; the theorems of [FlowAnalysis]
    applied to them; and small flows that show what the analyzer, the tracer
    and the timeouts do not do. *)

From S2P Require Import Prelude PyVal PyConv FlowGraph FlowEngine FlowEngineSpec FlowAnalysis.
From stdpp Require Import base gmap strings list relations.
From Stdlib Require Import ZArith Lia.

(** ** Operators and checks *)

(** A call that takes no time. *)
Definition instant (r : json + op_exn) : op_call := mkCall 0 r.

(** [call_in[section].get(key, default)]. *)
Definition call_get (section key : string) (dflt : json) (call_in : table) : json :=
  match jget section call_in with
  | JObj m => default dflt (alookup key m)
  | _ => dflt
  end.

Definition op_validate_payload : OperatorFn := fun ctx call_in _ _ =>
  instant
    (match call_get "inputs" "payload" (JObj []) call_in with
     | JObj m => inl (JObj [("ok", JBool (truthy (JObj m))); ("fields", JArr (JStr <$> m.*1))])
     | _ => inr (Known (ValueError "payload must be a dict"))
     end).

Definition op_echo_annotate : OperatorFn := fun ctx call_in _ _ =>
  instant (inl (JObj [("payload", call_get "inputs" "payload" (JObj []) call_in);
                      ("validated", call_get "vars" "validate" (JObj []) call_in);
                      ("trace", JStr (cx_trace_id ctx))])).

Definition op_add_one : OperatorFn := fun ctx call_in _ _ =>
  let ret v := inl (JObj [("x_plus_one", v)]) in
  instant
    (match call_get "inputs" "x" (JInt 0) call_in with
     | JInt z => ret (JInt (z + 1))
     | JBool b => ret (JInt ((if b then 1 else 0) + 1))
     | JFloat v => ret (JFloat (fadd v fone))
     | _ => inr (Known (TypeError "unsupported operand type(s) for +"))
     end).

(** The product of two floats is left to the interpreter. *)
Definition op_square (float_mul : pyfloat → pyfloat → pyfloat) : OperatorFn := fun ctx call_in _ _ =>
  let ret v := inl (JObj [("x_square", v)]) in
  instant
    (match call_get "inputs" "x" (JInt 0) call_in with
     | JInt z => ret (JInt (z * z))
     | JBool b => ret (JInt (if b then 1 else 0))
     | JFloat v => ret (JFloat (float_mul v v))
     | _ => inr (Known (TypeError "can't multiply sequence by non-int"))
     end).

Definition chk_require_payload : CheckFn := fun ctx call_in =>
  if truthy (call_get "inputs" "payload" JNull call_in) then None
  else Some (Known (ValueError "missing payload")).

Definition chk_emit_metric : CheckFn := fun ctx call_in => None.

(** The registrations of the module, in its order. *)
Definition demo_registry (float_mul : pyfloat → pyfloat → pyfloat) : res OperatorRegistry :=
  operator empty_registry "core.validate_payload" op_validate_payload ≫= fun r =>
  set_meta r "core.validate_payload" ["inputs.payload"] ["vars.validate"] [] true ≫= fun r =>
  operator r "adapters.echo.annotate" op_echo_annotate ≫= fun r =>
  set_meta r "adapters.echo.annotate" ["inputs.payload"; "vars.validate"] ["vars.annotate"] [] true ≫= fun r =>
  operator r "parallel.add_one" op_add_one ≫= fun r =>
  set_meta r "parallel.add_one" ["inputs.x"] ["vars.fanout.add_one"] [] true ≫= fun r =>
  operator r "parallel.square" (op_square float_mul) ≫= fun r =>
  set_meta r "parallel.square" ["inputs.x"] ["vars.fanout.square"] [] true.

Definition demo_checks : res CheckRegistry :=
  register_check ∅ "chk.require_payload" chk_require_payload ≫= fun r =>
  register_check r "chk.emit_metric" chk_emit_metric.

(** ** The flow *)

Definition DemoSwitchParallel_build {G} `{DiGraph G} : res (FlowGraph G) :=
  task (new_flow "demo_switch_parallel") "validate" "core.validate_payload"
    [("before", JArr [JStr "chk.require_payload"])] ≫= fun f =>
  switch f "route" "$.vars.validate.ok" (JStr "_DEFAULT") ≫= fun f =>
  parallel f "fanout" [JStr "parallel.add_one"; JStr "parallel.square"] 4 [("timeout_ms", JInt 800)] ≫= fun f =>
  task f "annotate" "adapters.echo.annotate" [("after", JArr [JStr "chk.emit_metric"])] ≫= fun f =>
  finish f "done" ≫= fun f =>
  chain f ["validate"; "route"] ≫= fun '(_, f) =>
  let f := link_case f "route" "fanout" (JBool true) in
  let f := link_case f "route" "annotate" (JBool false) in
  let f := link_case f "route" "annotate" (JStr "_DEFAULT") in
  chain f ["fanout"; "annotate"; "done"] ≫= fun '(_, f) =>
  set_entry f "validate".

(** Whatever graph library builds it. *)
Lemma demo_build_built {G} `{DiGraph G} (f : FlowGraph G) : DemoSwitchParallel_build = Ok f → built f.
Proof.
  unfold DemoSwitchParallel_build.
  intros (f1 & H1%built_task & (f2 & H2%built_switch & (f3 & H3%built_parallel & (f4 & H4%built_task &
    (f5 & H5%built_finish & Hf)%res_bind_ok)%res_bind_ok)%res_bind_ok)%res_bind_ok)%res_bind_ok;
    [|done..|apply built_new].
  eapply built_entry; [|exact Hf]. do 2 apply built_link. do 3 apply built_case. by apply built_link.
Qed.

(** ** The demo run *)

(** The value of a computation that does not raise. *)
Definition value_of {A} (d : A) (r : res A) : A := match r with Ok a => a | Raise _ => d end.

#[local] Instance short_json : JsonLen := fun _ => 1%Z.
#[local] Existing Instance plain_text.

Definition demo_reg : OperatorRegistry := value_of empty_registry (demo_registry (fun a _ => a)).
Definition demo_chk : CheckRegistry := value_of ∅ demo_checks.
Definition demo : FlowGraph nx_log := value_of (new_flow EmptyString) DemoSwitchParallel_build.
Definition new_tracer : Tracer := mkTracer "tm_flow" true 16000 [] [] [].
Definition square_first (s : Step) : list nat := [1; 0].
Definition demo_inputs : table := [("payload", JObj [("name", JStr "Ada")]); ("x", JInt 2)].

Lemma demo_built : built demo.
Proof. apply demo_build_built. by vm_compute. Qed.

Lemma demo_clean : check demo_reg demo = Ok [].
Proof. by vm_compute. Qed.

Lemma demo_runnable : runnable demo.
Proof. apply runnable_test_true. by vm_compute. Qed.

Definition demo_vars : table :=
  [("validate", JObj [("ok", JBool true); ("fields", JArr [JStr "name"])]);
   ("fanout", JObj [("parallel.square", JObj [("x_square", JInt 4)]);
                    ("parallel.add_one", JObj [("x_plus_one", JInt 3)])]);
   ("annotate", JObj [("payload", JObj [("name", JStr "Ada")]);
                      ("validated", JObj [("ok", JBool true); ("fields", JArr [JStr "name"])]);
                      ("trace", JStr "af_1")])].

Definition demo_run (inputs : table) : option (Tracer * res table) :=
  run demo_reg demo_chk square_first 6 new_tracer "af_1" demo inputs.

(** The state of the run and of its steps. *)
Definition seen (run_id : string) (out : option (Tracer * res table))
  : option (option string * list (string * string) * res table) :=
  match out with
  | Some (t, r) =>
      let '(dag_run, tis, _) := get_run t run_id in
      Some (dr_state <$> dag_run, (fun ti => (ti_task_id ti, ti_state ti)) <$> tis, r)
  | None => None
  end.

Example demo_succeeds :
  seen "af_1" (demo_run demo_inputs) =
  Some (Some "success",
        [("validate", "success"); ("route", "success"); ("fanout", "success"); ("annotate", "success");
         ("done", "success")], Ok demo_vars).
Proof. by vm_compute. Qed.

(** A failed check of the first step: the run is closed as failed. *)
Example demo_fails_without_payload :
  seen "af_1" (demo_run [("x", JInt 2)]) = Some (Some "failed", [("validate", "failed")], Ok []).
Proof. by vm_compute. Qed.

Lemma engine_run_spec_witness :
  nx_is_dag (fg_g demo) = true ∧ entry demo = Ok "validate" ∧
  ∃ h o t', ended demo_reg demo_chk square_first demo demo_inputs "af_1" "validate" h o ∧
            NoDup (path_of h) ∧ demo_run demo_inputs = Some (t', answer h o).
Proof.
  split; [by vm_compute|]. split; [by vm_compute|].
  destruct (engine_run_spec demo_reg demo_chk square_first demo demo_inputs "af_1" new_tracer "validate")
    as (h & o & t' & Hend & _ & Hnd & _ & _ & _ & Hrun); [apply demo_built|by vm_compute|by vm_compute|].
  exists h, o, t'. split; [exact Hend|]. split; [exact Hnd|]. apply Hrun. vm_compute. lia.
Defined.

Lemma static_analysis_sound_witness :
  check demo_reg demo = Ok [] ∧
  ∃ e h o t', entry demo = Ok e ∧ ended demo_reg demo_chk square_first demo demo_inputs "af_1" e h o ∧
              demo_run demo_inputs = Some (t', Ok (vars_of h)).
Proof.
  split; [by vm_compute|].
  destruct (static_analysis_sound demo_reg demo_chk square_first demo demo_inputs "af_1" new_tracer)
    as (_ & e & He & _ & h & o & t' & Hend & _ & Hrun & _);
    [apply demo_built|apply demo_clean|apply demo_runnable|].
  exists e, h, o, t'. split; [exact He|]. split; [exact Hend|]. apply Hrun. vm_compute. lia.
Defined.

(** ** Flows at the edge *)

(** An edge to a node that is never declared: the analyzer has no issue, the
    run raises and is recorded as running for good. *)
Definition dangling : FlowGraph nx_log :=
  link (value_of (new_flow "d") (task (new_flow "d") "a" "core.validate_payload" [])) "a" "b".

Example dangling_edge_accepted :
  check demo_reg dangling = Ok [] ∧
  seen "r" (run demo_reg demo_chk square_first 3 new_tracer "r" dangling []) =
  Some (Some "running", [("a", "success")], Raise (KeyError "step")).
Proof. by vm_compute. Qed.

(** A node that was linked before it is declared is a duplicate. *)
Example declare_after_link :
  finish dangling "b" = Raise (ValueError "Duplicate node id: b").
Proof. by vm_compute. Qed.

(** The operators of a parallel step are not looked up by the analyzer. *)
Definition unknown_parallel : FlowGraph nx_log :=
  value_of (new_flow "p") (parallel (new_flow "p") "fan" [JStr "no.such"] 4 []).

Example unknown_parallel_accepted :
  check demo_reg unknown_parallel = Ok [] ∧
  seen "r" (run demo_reg demo_chk (fun _ => [0]) 2 new_tracer "r" unknown_parallel []) =
  Some (Some "failed", [("fan", "failed")], Ok []).
Proof. by vm_compute. Qed.

(** An infinite retry limit leaves the engine as an exception. *)
Definition endless_retry : FlowGraph nx_log :=
  value_of (new_flow "e") (task (new_flow "e") "a" "core.validate_payload"
    [("retry", JObj [("max_attempts", JFloat PInf)])]).

Example infinite_retry_escapes :
  seen "r" (run demo_reg demo_chk square_first 2 new_tracer "r" endless_retry []) =
  Some (Some "running", [], Raise (OverflowError "cannot convert float infinity to integer")).
Proof. by vm_compute. Qed.

(** A switch that takes its default branch records the key as the case. *)
Definition defaulting : FlowGraph nx_log :=
  link_case (value_of (new_flow "s") (switch (new_flow "s") "s" "blue" (JStr "_DEFAULT") ≫= fun f =>
                                      finish f "end")) "s" "end" (JStr "_DEFAULT").

Example default_case_hidden :
  match run demo_reg demo_chk square_first 3 new_tracer "r" defaulting [] with
  | Some (t, _) => ti_out <$> head (get_run t "r").1.2
  | None => None
  end = Some (Some (JObj [("key", JStr "blue"); ("chosen_case", JStr "blue")])).
Proof. by vm_compute. Qed.

(** The recorded inputs of a step, read after the run, hold its own output. *)
Example recorded_inputs_change :
  match demo_run demo_inputs with
  | Some (t, Ok vars) =>
      match (get_run t "af_1").1.2 with
      | ti :: _ => ti_task_id ti = "validate" ∧ jget "vars" (read_in vars (ti_in ti)) = JObj demo_vars
      | [] => False
      end
  | _ => False
  end.
Proof. by vm_compute. Qed.

(** A timeout does not shorten an attempt: the pool waits for its thread. *)
Definition slow_reg : OperatorRegistry :=
  mkOps {["slow" := fun _ _ _ _ => mkCall 1000 (inl JNull)]} ∅.

Example timeout_waits :
  _run_operator slow_reg "slow" (mkCtx "f" "r" []) [] (mkPolicies 3 0 (Some 1%Z)) 0 =
  (3, 3000%N, inr (Known (TimeoutError EmptyString))).
Proof. by vm_compute. Qed.

(** A cyclic flow runs for ever. *)
Definition looping : FlowGraph nx_log :=
  link (value_of (new_flow "l") (task (new_flow "l") "a" "core.validate_payload" [])) "a" "a".

Lemma looping_round t vars :
  do_round demo_reg demo_chk square_first looping "a" t (mkCtx "l" "r" vars) [] =
  let out := JObj [("ok", JBool false); ("fields", JArr [])] in
  match on_step t "r" (mkStep "a" TASK (Some "core.validate_payload") [])
          (mkResult true (Some out) None) (CallIn [] []) with
  | Ok t1 => Goto "a" t1 (dict_set "a" out vars)
  | Raise e => Escape t e
  end.
Proof. reflexivity. Qed.

Lemma cycle_never_ends fuel :
  run demo_reg demo_chk square_first fuel new_tracer "r" looping [] = None.
Proof.
  assert (∀ t vars, is_Some (alookup "r" (tr_runs t)) → is_Some (alookup "r" (tr_tis t)) →
    walk demo_reg demo_chk square_first fuel looping "a" t (mkCtx "l" "r" vars) [] = None) as H.
  { induction fuel as [|fuel IH]; intros t vars Hrun Htis; [done|].
    cbn [walk]. rewrite looping_round. cbv zeta. unfold on_step.
    destruct Hrun as [dr Hrun], Htis as [tis Htis]. rewrite Hrun, Htis.
    apply IH; simpl; [by eexists|]. rewrite alookup_dict_set, decide_True by done. by eexists. }
  apply H; by eexists.
Qed.
