(* ===== verification/Policy.v ===== *)
(** * The policy evaluator ([tm/policy/engine.py])

    Invariants and guards of a policy specification, checked on a state or a
    trace.  A condition is a Boolean text over state keys; the code evaluates
    it while it parses. *)

From S2P Require Import Prelude PyVal PyConv.
From stdpp Require Import base gmap strings list pretty.
From Stdlib Require Import ZArith Lia Ascii.

Abbreviation table := (list (string * json)) (only parsing).

(** ** Conditions *)

(** The regular expression [[A-Za-z0-9_.]]. *)
Definition word_char (c : ascii) : bool :=
  is_alpha c || is_digit c || Ascii.eqb c "_" || Ascii.eqb c ".".

Definition flush (word : string) (rest : res (list string)) : res (list string) :=
  match rest with
  | Ok ts => Ok (if String.eqb word "" then ts else word :: ts)
  | Raise e => Raise e
  end.

(** [word] is the name read so far. *)
Fixpoint tokenize_from (word s : string) : res (list string) :=
  match s with
  | EmptyString => flush word (Ok [])
  | String c s' =>
      if word_char c then tokenize_from (word +:+ String c EmptyString) s'
      else if is_space c then flush word (tokenize_from EmptyString s')
      else if Ascii.eqb c "!" then flush word (cons "NOT" <$> tokenize_from EmptyString s')
      else if Ascii.eqb c "(" || Ascii.eqb c ")"
      then flush word (cons (String c EmptyString) <$> tokenize_from EmptyString s')
      else
        match s' with
        | String c' s'' =>
            if Ascii.eqb c "&" && Ascii.eqb c' "&"
            then flush word (cons "AND" <$> tokenize_from EmptyString s'')
            else if Ascii.eqb c "|" && Ascii.eqb c' "|"
            then flush word (cons "OR" <$> tokenize_from EmptyString s'')
            else Raise (ValueError ("invalid character in condition: '" +:+ String c "'"))
        | EmptyString => Raise (ValueError ("invalid character in condition: '" +:+ String c "'"))
        end
  end.

Definition _tokenize_condition (condition : string) : res (list string) :=
  tokenize_from EmptyString condition.

(** [token.endswith(".unvalidated")], with what comes before. *)
Fixpoint strip_suffix (suffix s : string) : option string :=
  if String.eqb s suffix then Some EmptyString
  else match s with
       | EmptyString => None
       | String c s' => String c <$> strip_suffix suffix s'
       end.

(** The value of a name. *)
Definition name_value (state : table) (token : string) : bool :=
  let lower := str_lower token in
  if String.eqb lower "true" then true
  else if String.eqb lower "false" then false
  else
    match jget token state, strip_suffix ".unvalidated" token with
    | JNull, Some prefix => negb (truthy (jget (prefix +:+ ".validated") state))
    | v, _ => truthy v
    end.

(** Where the parser stands: at the start of an expression, a term or a
    factor, or in one of their loops with the value so far. *)
Inductive position : Type :=
| InExpression
| InOrLoop (value : bool)
| InTerm
| InAndLoop (value : bool)
| InFactor.

(** The closing parenthesis of a factor. *)
Definition closing (r : bool * list string) : fueled (bool * list string) :=
  match r.2 with
  | t :: ts => if String.eqb t ")" then Some (Ok (r.1, ts))
               else Some (Raise (ValueError "missing closing parenthesis"))
  | [] => Some (Raise (ValueError "missing closing parenthesis"))
  end.

(** One call of the parser, given its recursive calls.  [value or
    self._parse_term()] and [value and self._parse_factor()] leave the right
    operand unread when the left one decides. *)
Definition parse_step (parse : position → list string → fueled (bool * list string)) (state : table)
    (p : position) (ts : list string) : fueled (bool * list string) :=
  match p with
  | InExpression => let! r := parse InTerm ts in parse (InOrLoop r.1) r.2
  | InOrLoop value =>
      match ts with
      | t :: ts' =>
          if String.eqb t "OR" then
            if value then parse (InOrLoop true) ts'
            else let! r := parse InTerm ts' in parse (InOrLoop r.1) r.2
          else Some (Ok (value, ts))
      | [] => Some (Ok (value, ts))
      end
  | InTerm => let! r := parse InFactor ts in parse (InAndLoop r.1) r.2
  | InAndLoop value =>
      match ts with
      | t :: ts' =>
          if String.eqb t "AND" then
            if value then let! r := parse InFactor ts' in parse (InAndLoop r.1) r.2
            else parse (InAndLoop false) ts'
          else Some (Ok (value, ts))
      | [] => Some (Ok (value, ts))
      end
  | InFactor =>
      match ts with
      | [] => Some (Raise (ValueError "unexpected end of condition"))
      | t :: ts' =>
          if String.eqb t "NOT" then
            let! r := parse InFactor ts' in Some (Ok (negb r.1, r.2))
          else if String.eqb t "(" then let! r := parse InExpression ts' in closing r
          else Some (Ok (name_value state t, ts'))
      end
  end.

Fixpoint parse_at (fuel : nat) (state : table) (p : position) (ts : list string)
  : fueled (bool * list string) :=
  match fuel with
  | O => None
  | S fuel => parse_step (parse_at fuel state) state p ts
  end.

(** Enough for every token list. *)
Definition parse_fuel (ts : list string) : nat := 5 * length ts + 5.

Definition parse_expression (state : table) (ts : list string) : fueled (bool * list string) :=
  parse_at (parse_fuel ts) state InExpression ts.

(** [PolicySpec] shows that the fuel never runs out. *)
Definition _matches_condition (condition : string) (state : table) : bool :=
  let normalized := strip condition in
  if String.eqb normalized "" then false
  else
    match _tokenize_condition normalized with
    | Raise _ => false
    | Ok ts =>
        match parse_expression state ts with
        | Some (Ok (value, [])) => value
        | _ => false
        end
    end.

(** ** Violations *)

Record PolicyViolation : Type := mkViolation {
  pv_rule_id : string;
  pv_kind : string;
  pv_detail : string;
  pv_evidence : option table
}.

Definition violation_to_dict (v : PolicyViolation) : table :=
  [("rule_id", JStr (pv_rule_id v)); ("kind", JStr (pv_kind v)); ("detail", JStr (pv_detail v))] ++
  match pv_evidence v with Some e => [("evidence", JObj e)] | None => [] end.

(** [PolicyEvaluationResult]: its violations. *)
Definition succeeded (violations : list PolicyViolation) : bool :=
  match violations with [] => true | _ => false end.

Record PolicyEvaluator : Type := mkEvaluator {
  pe_state_schema : json;
  pe_invariants : list json;
  pe_guards : list json
}.

(** [tuple(spec.get(key) or [])]. *)
Definition spec_list (spec : table) (key : string) : res (list json) :=
  py_iter (jor (jget key spec) (JArr [])).

Definition evaluator (spec : table) : res PolicyEvaluator :=
  match spec_list spec "invariants", spec_list spec "guards" with
  | Ok invariants, Ok guards =>
      Ok (mkEvaluator (jor (default (JObj []) (alookup "state_schema" spec)) (JObj [])) invariants guards)
  | Raise e, _ => Raise e
  | _, Raise e => Raise e
  end.

Section evaluation.
Context {PT : PyText}.

Definition str (v : json) : string := py_str other_str v.

(** [item.get(...)] on an item that is not a mapping. *)
Definition items_of (v : json) : res table :=
  match v with
  | JObj m => Ok m
  | _ => Raise (AttributeError "object has no attribute 'get'")
  end.

Definition invariant_condition (m : table) : string := strip (str (jor (jget "condition" m) (JStr ""))).

Definition check_invariant (state : table) (invariant : json) : res (list PolicyViolation) :=
  match items_of invariant with
  | Raise e => Raise e
  | Ok m =>
      if negb (json_eqb (jget "type" m) (JStr "never")) then Ok []
      else
        let rule_id := str (jor (jget "id" m) (jor (jget "rule_id" m) (jor (jget "name" m) (JStr "unknown")))) in
        let condition := invariant_condition m in
        if String.eqb condition "" then Ok []
        else if _matches_condition condition state then
          Ok [mkViolation rule_id "invariant"
                (str (jor (jget "description" m) (JStr ("never " +:+ condition))))
                (Some [("state_key", JStr condition); ("value", jget condition state)])]
        else Ok []
  end.

Definition check_state (ev : PolicyEvaluator) (state : table) : res (list PolicyViolation) :=
  List.concat (A:=PolicyViolation) <$> mapM (check_invariant state) (pe_invariants ev).

Definition _guard_applies (required_for : json) (capability_id : string) : bool :=
  match required_for with
  | JStr s => String.eqb s capability_id
  | JArr l => existsb (fun entry => String.eqb (str entry) capability_id) l
  | _ => false
  end.

(** [guard.get("name") or guard.get("id") or "guard"]. *)
Definition guard_id (m : table) : string :=
  str (jor (jget "name" m) (jor (jget "id" m) (JStr "guard"))).

Definition check_guard (capability_id : string) (decisions : table) (guard : json)
  : res (list PolicyViolation) :=
  match items_of guard with
  | Raise e => Raise e
  | Ok m =>
      if negb (_guard_applies (jget "required_for" m) capability_id) then Ok []
      else
        let rule_id := guard_id m in
        if truthy (jget rule_id decisions) then Ok []
        else Ok [mkViolation rule_id "guard"
                   ("guard '" +:+ rule_id +:+ "' unsatisfied for " +:+ capability_id)
                   (Some [("guard", guard); ("capability_id", JStr capability_id)])]
  end.

Definition evaluate_guard (ev : PolicyEvaluator) (capability_id : string) (decisions : table)
  : res (list PolicyViolation) :=
  List.concat (A:=PolicyViolation) <$> mapM (check_guard capability_id decisions) (pe_guards ev).

(** The capability of a trace, else of its event. *)
Definition trace_capability (trace : table) (event : option table) : json :=
  let own := jget "capability_id" trace in
  match event with
  | Some ((_ :: _) as m) =>
      if truthy own then own
      else JStr (str (jor (jget "capability_id" m) (jor (jget "capability" m) (JStr ""))))
  | _ => own
  end.

(** A state that is not a mapping breaks the declared type and has no [get].
    A capability that is not a string only fails in the comparisons of the
    guards: it applies to none. *)
Definition check_trace (ev : PolicyEvaluator) (trace decisions : table) (event : option table)
  : res (list PolicyViolation) :=
  match jor (jget "state_snapshot" trace) (jor (jget "state" trace) (JObj [])) with
  | JObj state =>
      match check_state ev state with
      | Raise e => Raise e
      | Ok vs =>
          match trace_capability trace event with
          | JStr cap =>
              if String.eqb cap "" then Ok vs
              else match evaluate_guard ev cap decisions with Ok gs => Ok (vs ++ gs) | Raise e => Raise e end
          | cap =>
              if truthy cap
              then match mapM items_of (pe_guards ev) with Ok _ => Ok vs | Raise e => Raise e end
              else Ok vs
          end
      end
  | _ => Raise (AttributeError "object has no attribute 'get'")
  end.
End evaluation.

(** ** What a policy condition means

    Formulas, how they are written, and what the evaluator makes of them: the
    value of the formula when the decisive operand of every [&&] and [||] is
    its last one, and no match otherwise. *)

From S2P Require Import Prelude PyVal PyConv.
From stdpp Require Import base gmap strings list.
From Stdlib Require Import ZArith Lia Ascii.

(** ** The parser returns *)

Definition rank (p : position) : nat :=
  match p with InExpression => 3 | InTerm => 2 | _ => 1 end.

(** A factor, a term or an expression takes at least one token. *)
Definition shrinks (p : position) (ts ts' : list string) : Prop :=
  match p with
  | InOrLoop _ | InAndLoop _ => length ts' ≤ length ts
  | _ => length ts' < length ts
  end.

Lemma shrinks_le p ts ts' : shrinks p ts ts' → length ts' ≤ length ts.
Proof. destruct p; simpl; lia. Qed.

Definition parsed (p : position) (ts : list string) (r : fueled (bool * list string)) : Prop :=
  match r with
  | None => False
  | Some (Raise _) => True
  | Some (Ok (_, ts')) => shrinks p ts ts'
  end.

Lemma parsed_bind p q1 q2 ts ts1 (m : fueled (bool * list string)) k :
  parsed q1 ts1 m →
  (∀ v ts', shrinks q1 ts1 ts' → parsed (q2 v) ts' (k (v, ts'))) →
  (∀ v ts' ts'', shrinks q1 ts1 ts' → shrinks (q2 v) ts' ts'' → shrinks p ts ts'') →
  parsed p ts (fbind m k).
Proof.
  intros Hm Hk Hsh. destruct m as [[[v ts']|e]|]; simpl in *; [|done|done].
  specialize (Hk v ts' Hm). destruct (k (v, ts')) as [[[v2 ts'']|e]|]; simpl in *; [|done|done].
  by eapply Hsh.
Qed.

Lemma parsed_weaken p q ts ts1 r :
  parsed q ts1 r → (∀ ts', shrinks q ts1 ts' → shrinks p ts ts') → parsed p ts r.
Proof. destruct r as [[[v ts']|e]|]; simpl; auto. Qed.

Lemma parse_at_total fuel p state ts :
  5 * length ts + rank p < fuel → parsed p ts (parse_at fuel state p ts).
Proof.
  revert p ts. induction fuel as [|fuel IH]; intros p ts Hf; [lia|].
  assert (∀ q1 q2 p ts ts1, 5 * length ts1 + rank q1 < fuel →
    (∀ v ts', shrinks q1 ts1 ts' → 5 * length ts' + rank (q2 v) < fuel) →
    (∀ v ts' ts'', shrinks q1 ts1 ts' → shrinks (q2 v) ts' ts'' → shrinks p ts ts'') →
    parsed p ts (let! r := parse_at fuel state q1 ts1 in parse_at fuel state (q2 r.1) r.2)) as Hseq.
  { intros q1 q2 p' ts' ts1 H1 H2 H3. eapply parsed_bind; [by apply IH| |exact H3].
    intros v ts2 Hs. apply IH. by apply (H2 v). }
  cbn [parse_at parse_step]. destruct p as [|value| |value|]; simpl in Hf.
  - apply (Hseq InTerm InOrLoop); simpl; intros; lia.
  - destruct ts as [|t ts']; [simpl; lia|]. simpl in Hf |- *. destruct (String.eqb t "OR"); [|simpl; lia].
    destruct value; [|apply (Hseq InTerm InOrLoop); simpl; intros; lia].
    eapply parsed_weaken; [apply IH; simpl; lia|simpl; intros; lia].
  - apply (Hseq InFactor InAndLoop); simpl; intros; lia.
  - destruct ts as [|t ts']; [simpl; lia|]. simpl in Hf |- *. destruct (String.eqb t "AND"); [|simpl; lia].
    destruct value; [apply (Hseq InFactor InAndLoop); simpl; intros; lia|].
    eapply parsed_weaken; [apply IH; simpl; lia|simpl; intros; lia].
  - destruct ts as [|t ts']; [done|]. simpl in Hf |- *. destruct (String.eqb t "NOT"); [|destruct (String.eqb t "(")].
    + eapply (parsed_bind _ InFactor (fun _ => InOrLoop true)); [apply IH; simpl; lia|simpl; intros; lia|simpl; intros; lia].
    + eapply (parsed_bind _ InExpression (fun _ => InOrLoop true)); [apply IH; simpl; lia| |simpl; intros; lia].
      intros v [|t2 ts2] _; [done|]. unfold closing. simpl. destruct (String.eqb t2 ")"); simpl; [lia|done].
    + simpl. lia.
Qed.

Lemma parse_expression_total state ts : is_Some (parse_expression state ts).
Proof.
  pose proof (parse_at_total (parse_fuel ts) InExpression state ts) as H.
  unfold parse_expression. unfold parse_fuel in *. simpl in H.
  destruct (parse_at _ state InExpression ts); [by eexists|]. destruct H. lia.
Qed.

(** More fuel does not change a result. *)
Definition extends (f g : position → list string → fueled (bool * list string)) : Prop :=
  ∀ p ts r, f p ts = Some r → g p ts = Some r.

Lemma fbind_extends {A B} (m m' : fueled A) (k k' : A → fueled B) r :
  (∀ x, m = Some x → m' = Some x) → (∀ x y, k x = Some y → k' x = Some y) →
  fbind m k = Some r → fbind m' k' = Some r.
Proof.
  intros Hm Hk. destruct m as [[x|e]|]; simpl; [| |done]; rewrite (Hm _ eq_refl); simpl; auto.
Qed.

Lemma parse_step_extends f g state : extends f g → extends (parse_step f state) (parse_step g state).
Proof.
  intros Hfg p ts r. destruct p as [|value| |value|]; cbn [parse_step].
  1,3: apply fbind_extends; eauto.
  - destruct ts as [|t ts']; [done|]. destruct (String.eqb t "OR"); [|done].
    destruct value; [apply Hfg|apply fbind_extends; eauto].
  - destruct ts as [|t ts']; [done|]. destruct (String.eqb t "AND"); [|done].
    destruct value; [apply fbind_extends; eauto|apply Hfg].
  - destruct ts as [|t ts']; [done|].
    destruct (String.eqb t "NOT"); [|destruct (String.eqb t "("); [|done]]; apply fbind_extends; eauto.
Qed.

Lemma parse_at_mono n m state : n ≤ m → extends (parse_at n state) (parse_at m state).
Proof.
  revert m. induction n as [|n IH]; intros m Hle; [done|]. destruct m as [|m]; [lia|].
  simpl. apply parse_step_extends, IH. lia.
Qed.

(** ** The parser as a relation *)

Definition parses (state : table) (p : position) (ts : list string) (r : res (bool * list string)) : Prop :=
  ∃ n, parse_at n state p ts = Some r.

Lemma parses_det state p ts r1 r2 : parses state p ts r1 → parses state p ts r2 → r1 = r2.
Proof.
  intros [n Hn] [m Hm]. apply (parse_at_mono n (n `max` m)) in Hn; [|lia].
  apply (parse_at_mono m (n `max` m)) in Hm; [|lia]. congruence.
Qed.

Lemma parses_expression state ts r :
  parses state InExpression ts r → parse_expression state ts = Some r.
Proof.
  intros H. destruct (parse_expression_total state ts) as [r' Hr']. rewrite Hr'. f_equal.
  eapply parses_det; [|exact H]. by exists (parse_fuel ts).
Qed.

(** [m ≫= k], one call after another. *)
Lemma parses_step state p ts r n :
  parse_step (parse_at n state) state p ts = Some r → parses state p ts r.
Proof. intros H. by exists (S n). Qed.

Lemma parses_seq state p q k ts ts1 v ts2 r :
  (∀ f, parse_step f state p ts = (let! x := f q ts1 in f (k x.1) x.2)) →
  parses state q ts1 (Ok (v, ts2)) → parses state (k v) ts2 r → parses state p ts r.
Proof.
  intros Hp [n Hn] [m Hm]. exists (S (n `max` m)). simpl. rewrite Hp.
  rewrite (parse_at_mono n (n `max` m) state ltac:(lia) _ _ _ Hn). simpl.
  by rewrite (parse_at_mono m (n `max` m) state ltac:(lia) _ _ _ Hm).
Qed.

Lemma parses_seq_raise state p q k ts ts1 e :
  (∀ f, parse_step f state p ts = (let! x := f q ts1 in k f x)) →
  parses state q ts1 (Raise e) → parses state p ts (Raise e).
Proof. intros Hp [n Hn]. exists (S n). simpl. by rewrite Hp, Hn. Qed.

(** ** Formulas and how they are written *)

Inductive condition : Type :=
| CName (name : string)
| CNot (c : condition)
| CAnd (a b : condition)
| COr (a b : condition).

Inductive level : Type := LExpression | LTerm | LFactor.

Definition position_of (l : level) : position :=
  match l with LExpression => InExpression | LTerm => InTerm | LFactor => InFactor end.

Definition parens (ts : list string) : list string := "(" :: ts ++ [")"].

(** The tokens of a formula, with the parentheses its level needs. *)
Fixpoint show (l : level) (c : condition) : list string :=
  match c with
  | CName n => [n]
  | CNot c => "NOT" :: show LFactor c
  | CAnd a b =>
      let ts := show LTerm a ++ "AND" :: show LFactor b in
      match l with LFactor => parens ts | _ => ts end
  | COr a b =>
      let ts := show LExpression a ++ "OR" :: show LTerm b in
      match l with LExpression => ts | _ => parens ts end
  end.

(** A name in the sense of the tokenizer that is no operator. *)
Definition name_ok (n : string) : bool :=
  negb (String.eqb n "") && str_forall word_char n &&
  negb (String.eqb n "OR") && negb (String.eqb n "AND") && negb (String.eqb n "NOT").

Fixpoint condition_ok (c : condition) : bool :=
  match c with
  | CName n => name_ok n
  | CNot c => condition_ok c
  | CAnd a b | COr a b => condition_ok a && condition_ok b
  end.

(** The value of a formula. *)
Fixpoint holds (state : table) (c : condition) : bool :=
  match c with
  | CName n => name_value state n
  | CNot c => negb (holds state c)
  | CAnd a b => holds state a && holds state b
  | COr a b => holds state a || holds state b
  end.

(** The value when no operand is skipped: none when the left operand of a
    connective decides it. *)
Fixpoint strict (state : table) (c : condition) : option bool :=
  match c with
  | CName n => Some (name_value state n)
  | CNot c => negb <$> strict state c
  | CAnd a b => match strict state a with Some true => strict state b | _ => None end
  | COr a b => match strict state a with Some false => strict state b | _ => None end
  end.

Lemma strict_holds state c v : strict state c = Some v → holds state c = v.
Proof.
  revert v. induction c as [n|c IH|a IHa b IHb|a IHa b IHb]; simpl; intros v Hv.
  - congruence.
  - destruct (strict state c) as [w|]; [|done]. injection Hv as <-. by rewrite (IH w).
  - destruct (strict state a) as [[|]|]; try done. by rewrite (IHa true), (IHb v).
  - destruct (strict state a) as [[|]|]; try done. by rewrite (IHa false), (IHb v).
Qed.

(** ** What the parser makes of a formula *)

(** Not an operator, nor a closing parenthesis. *)
Definition starts (t : string) : bool :=
  negb (String.eqb t "OR") && negb (String.eqb t "AND") && negb (String.eqb t ")").

(** The parser gave up, or stopped before an operand. *)
Definition stuck (r : res (bool * list string)) : Prop :=
  match r with
  | Raise _ => True
  | Ok (_, t :: _) => starts t = true
  | Ok (_, []) => False
  end.

Definition head_is (t : string) (ts : list string) : bool :=
  match ts with t' :: _ => String.eqb t' t | [] => false end.

(** What follows a formula of value [v] at a level. *)
Definition goes_on (state : table) (l : level) (v : bool) (rest : list string)
    (r : res (bool * list string)) : Prop :=
  match l with
  | LFactor => r = Ok (v, rest)
  | LTerm => parses state (InAndLoop v) rest r
  | LExpression => parses state (InOrLoop v) rest r
  end.

Definition follows (l : level) (rest : list string) : bool :=
  match l with LExpression => negb (head_is "AND" rest) | _ => true end.

Definition reads (state : table) (l : level) (ts : list string) (o : option bool) : Prop :=
  ∀ rest, follows l rest = true →
  match o with
  | Some v => ∀ r, goes_on state l v rest r → parses state (position_of l) (ts ++ rest) r
  | None => ∃ r, parses state (position_of l) (ts ++ rest) r ∧ stuck r
  end.

Lemma cond_and_stops state v ts : head_is "AND" ts = false → parses state (InAndLoop v) ts (Ok (v, ts)).
Proof. intros H. apply (parses_step _ _ _ _ 0). destruct ts as [|t ts]; simpl in *; [done|by rewrite H]. Qed.

Lemma cond_or_stops state v ts : head_is "OR" ts = false → parses state (InOrLoop v) ts (Ok (v, ts)).
Proof. intros H. apply (parses_step _ _ _ _ 0). destruct ts as [|t ts]; simpl in *; [done|by rewrite H]. Qed.

Lemma starts_not t ts : starts t = true → head_is "AND" (t :: ts) = false ∧ head_is "OR" (t :: ts) = false.
Proof. unfold starts. simpl. destruct (String.eqb t "AND"), (String.eqb t "OR"); done. Qed.

(** A call that gets stuck leaves its caller stuck: the loops stop, the
    closing parenthesis is missing. *)
Lemma stuck_then state p q k ts ts1 r :
  (∀ f, parse_step f state p ts = (let! x := f q ts1 in f (k x.1) x.2)) →
  (∀ v t ts', starts t = true → parses state (k v) (t :: ts') (Ok (v, t :: ts'))) →
  parses state q ts1 r → stuck r → ∃ r', parses state p ts r' ∧ stuck r'.
Proof.
  intros Hp Hk Hq Hr. exists r. split; [|done]. destruct r as [[v [|t ts']]|e].
  - done.
  - eapply (parses_seq _ _ q k); [exact Hp|exact Hq|by apply Hk].
  - eapply (parses_seq_raise _ _ q (fun f x => f (k x.1) x.2)); [exact Hp|exact Hq].
Qed.

Lemma stuck_in_or state p ts ts1 r :
  (∀ f, parse_step f state p ts = (let! x := f InTerm ts1 in f (InOrLoop x.1) x.2)) →
  parses state InTerm ts1 r → stuck r → ∃ r', parses state p ts r' ∧ stuck r'.
Proof.
  intros Hp. apply (stuck_then _ _ _ InOrLoop); [exact Hp|]. intros v t ts' Ht.
  by apply cond_or_stops, starts_not.
Qed.

Lemma stuck_in_and state p ts ts1 r :
  (∀ f, parse_step f state p ts = (let! x := f InFactor ts1 in f (InAndLoop x.1) x.2)) →
  parses state InFactor ts1 r → stuck r → ∃ r', parses state p ts r' ∧ stuck r'.
Proof.
  intros Hp. apply (stuck_then _ _ _ InAndLoop); [exact Hp|]. intros v t ts' Ht.
  by apply cond_and_stops, starts_not.
Qed.

Lemma reads_term state ts o : reads state LFactor ts o → reads state LTerm ts o.
Proof.
  intros H rest _. specialize (H rest eq_refl). destruct o as [v|]; simpl in *.
  - intros r Hr. by eapply (parses_seq _ _ InFactor InAndLoop); [|by apply H|].
  - destruct H as (r & Hp & Hs). by eapply stuck_in_and.
Qed.

Lemma reads_expression state ts o : reads state LTerm ts o → reads state LExpression ts o.
Proof.
  intros H rest Hrest. specialize (H rest eq_refl). simpl in Hrest. apply negb_true_iff in Hrest.
  destruct o as [v|]; simpl in *.
  - intros r Hr. eapply (parses_seq _ _ InTerm InOrLoop); [done|by apply H, cond_and_stops|done].
  - destruct H as (r & Hp & Hs). by eapply stuck_in_or.
Qed.

Lemma parses_closing state ts v rest :
  parses state InExpression ts (Ok (v, ")" :: rest)) → parses state InFactor ("(" :: ts) (Ok (v, rest)).
Proof. intros [n Hn]. exists (S n). simpl. by rewrite Hn. Qed.

Lemma parses_unclosed state ts r :
  parses state InExpression ts r → stuck r → ∃ r', parses state InFactor ("(" :: ts) r' ∧ stuck r'.
Proof.
  intros [n Hn] Hs. destruct r as [[v [|t ts']]|e]; [done| |].
  - exists (Raise (ValueError "missing closing parenthesis")). split; [|done]. exists (S n). simpl.
    rewrite Hn. unfold closing. simpl. simpl in Hs. unfold starts in Hs.
    destruct (String.eqb t ")"); [|done]. by rewrite !andb_false_r in Hs.
  - exists (Raise e). split; [|done]. exists (S n). simpl. by rewrite Hn.
Qed.

Lemma reads_parens state ts o : reads state LExpression ts o → reads state LFactor (parens ts) o.
Proof.
  intros H rest _. specialize (H (")" :: rest) eq_refl). unfold parens. simpl. rewrite <- app_assoc. simpl.
  destruct o as [v|]; simpl in *.
  - intros r ->. by apply parses_closing, H, cond_or_stops.
  - destruct H as (r & Hp & Hs). by eapply parses_unclosed.
Qed.

Lemma parses_not state ts v rest :
  parses state InFactor ts (Ok (v, rest)) → parses state InFactor ("NOT" :: ts) (Ok (negb v, rest)).
Proof. intros [n Hn]. exists (S n). simpl. by rewrite Hn. Qed.

Lemma reads_not state ts o : reads state LFactor ts o → reads state LFactor ("NOT" :: ts) (negb <$> o).
Proof.
  intros H rest _. specialize (H rest eq_refl). destruct o as [v|]; simpl in *.
  - intros r ->. by apply parses_not, H.
  - destruct H as ([[v ts']|e] & Hp & Hs).
    + exists (Ok (negb v, ts')). split; [by apply parses_not|done].
    + exists (Raise e). split; [|done]. destruct Hp as [n Hn]. exists (S n). simpl. by rewrite Hn.
Qed.

Definition operand (ts : list string) : Prop := ∃ t ts', ts = t :: ts' ∧ starts t = true.

(** [a && b]: the right operand is read when the left one is true. *)
Lemma reads_and state ta tb oa ob :
  reads state LTerm ta oa → reads state LFactor tb ob → operand tb →
  reads state LTerm (ta ++ "AND" :: tb) (match oa with Some true => ob | _ => None end).
Proof.
  intros Ha Hb (t & tb' & -> & Ht) rest _. rewrite <- app_assoc.
  specialize (Ha (("AND" :: t :: tb') ++ rest) eq_refl).
  specialize (Hb rest eq_refl). simpl in *. destruct oa as [[|]|]; simpl in *; [| |done].
  - destruct ob as [v|]; simpl in *.
    + intros r Hr. apply Ha. eapply (parses_seq _ _ InFactor InAndLoop); [done|by apply Hb|done].
    + destruct Hb as (r & Hp & Hs).
      destruct (stuck_in_and state (InAndLoop true) ("AND" :: t :: tb' ++ rest) (t :: tb' ++ rest) r) as (r' & Hr' & Hs');
        [done..|]. eauto.
  - exists (Ok (false, t :: tb' ++ rest)). split; [|done]. apply Ha.
    destruct (cond_and_stops state false (t :: tb' ++ rest)) as [n Hn]; [by apply starts_not|].
    by exists (S n).
Qed.

(** [a || b]: the right operand is read when the left one is false. *)
Lemma reads_or state ta tb oa ob :
  reads state LExpression ta oa → reads state LTerm tb ob → operand tb →
  reads state LExpression (ta ++ "OR" :: tb) (match oa with Some false => ob | _ => None end).
Proof.
  intros Ha Hb (t & tb' & -> & Ht) rest Hrest. apply negb_true_iff in Hrest. rewrite <- app_assoc.
  specialize (Ha (("OR" :: t :: tb') ++ rest) eq_refl).
  specialize (Hb rest eq_refl). simpl in *. destruct oa as [[|]|]; simpl in *; [| |done].
  - exists (Ok (true, t :: tb' ++ rest)). split; [|done]. apply Ha.
    destruct (cond_or_stops state true (t :: tb' ++ rest)) as [n Hn]; [by apply starts_not|].
    by exists (S n).
  - destruct ob as [v|]; simpl in *.
    + intros r Hr. apply Ha. eapply (parses_seq _ _ InTerm InOrLoop); [done| |done].
      by apply Hb, cond_and_stops.
    + destruct Hb as (r & Hp & Hs).
      destruct (stuck_in_or state (InOrLoop false) ("OR" :: t :: tb' ++ rest) (t :: tb' ++ rest) r) as (r' & Hr' & Hs');
        [done..|]. eauto.
Qed.

Lemma name_ok_spec n : name_ok n = true →
  n ≠ "" ∧ str_forall word_char n = true ∧ n ≠ "OR" ∧ n ≠ "AND" ∧ n ≠ "NOT" ∧ n ≠ "(" ∧ n ≠ ")".
Proof.
  unfold name_ok. rewrite !andb_true_iff, !negb_true_iff, !String.eqb_neq.
  intros ((((? & Hw) & ?) & ?) & ?). repeat split; try done; intros ->; done.
Qed.

Lemma eqb_false a b : a ≠ b → String.eqb a b = false.
Proof. by rewrite String.eqb_neq. Qed.

Lemma show_operand l c : condition_ok c = true → l ≠ LExpression ∨ (∀ a b, c ≠ COr a b) → operand (show l c).
Proof.
  revert l. induction c as [n|c IH|a IHa b IHb|a IHa b IHb]; intros l Hok Hl; simpl in *.
  - exists n, []. split; [done|]. apply name_ok_spec in Hok as (_ & _ & ? & ? & _ & _ & ?).
    unfold starts. by rewrite !eqb_false.
  - by eexists _, _.
  - apply andb_true_iff in Hok as [Hoa _].
    destruct (IHa LTerm Hoa) as (t & ts & -> & Ht); [by left|].
    destruct l; simpl; [eauto| |]; by eexists _, _.
  - destruct l; [|by eexists _, _..]. destruct Hl as [?|Hl]; [done|by destruct (Hl a b)].
Qed.

Lemma reads_name state n : name_ok n = true → reads state LFactor [n] (Some (name_value state n)).
Proof.
  intros (_ & _ & _ & _ & ? & ? & _)%name_ok_spec rest _. simpl. intros r ->.
  apply (parses_step _ _ _ _ 0). simpl. by rewrite !eqb_false.
Qed.

Lemma reads_show state c : condition_ok c = true → ∀ l, reads state l (show l c) (strict state c).
Proof.
  assert (∀ ts o, reads state LFactor ts o → ∀ l, reads state l ts o) as Hlift.
  { intros ts o H [| |]; auto using reads_term, reads_expression. }
  induction c as [n|c IH|a IHa b IHb|a IHa b IHb]; simpl; intros Hok.
  - by apply Hlift, reads_name.
  - by apply Hlift, reads_not, IH.
  - apply andb_true_iff in Hok as [Hoa Hob].
    assert (reads state LTerm (show LTerm a ++ "AND" :: show LFactor b)
              (match strict state a with Some true => strict state b | _ => None end)) as Ht.
    { apply reads_and; auto. apply show_operand; [done|by left]. }
    intros [| |]; auto using reads_expression, reads_parens.
  - apply andb_true_iff in Hok as [Hoa Hob].
    assert (reads state LExpression (show LExpression a ++ "OR" :: show LTerm b)
              (match strict state a with Some false => strict state b | _ => None end)) as Ht.
    { apply reads_or; auto. apply show_operand; [done|by left]. }
    intros [| |]; auto using reads_term, reads_parens.
Qed.

(** ** The text of a formula *)

Definition symbol (t : string) : string :=
  if String.eqb t "AND" then "&&" else if String.eqb t "OR" then "||"
  else if String.eqb t "NOT" then "!" else t.

(** Tokens as they are written, separated by blanks. *)
Fixpoint written (ts : list string) : string :=
  match ts with
  | [] => EmptyString
  | [t] => symbol t
  | t :: ts => symbol t +:+ " " +:+ written ts
  end.

Definition condition_text (c : condition) : string := written (show LExpression c).

Definition token_ok (t : string) : bool :=
  name_ok t || String.eqb t "AND" || String.eqb t "OR" || String.eqb t "NOT" ||
  String.eqb t "(" || String.eqb t ")".

Lemma show_tokens l c : condition_ok c = true → Forall (fun t => token_ok t = true) (show l c).
Proof.
  revert l. induction c as [n|c IH|a IHa b IHb|a IHa b IHb]; intros l Hok; simpl in *.
  - constructor; [|constructor]. unfold token_ok. by rewrite Hok.
  - by constructor; [|apply IH].
  - apply andb_true_iff in Hok as [Hoa Hob]. destruct l; unfold parens;
      repeat first [apply Forall_cons; split; [done|]|apply Forall_app; split]; auto.
  - apply andb_true_iff in Hok as [Hoa Hob]. destruct l; unfold parens;
      repeat first [apply Forall_cons; split; [done|]|apply Forall_app; split]; auto.
Qed.

(** What follows a token: nothing or a blank. *)
Definition blank_first (s : string) : Prop := s = EmptyString ∨ ∃ s', s = String " " s'.

Lemma tokenize_word w n s :
  str_forall word_char n = true → blank_first s →
  tokenize_from w (n +:+ s) = flush (w +:+ n) (tokenize_from EmptyString s).
Proof.
  revert w. induction n as [|c n IH]; intros w Hn Hs; simpl in *.
  - rewrite str_app_nil_r. destruct Hs as [->|[s' ->]]; simpl; [done|].
    by destruct (tokenize_from "" s').
  - apply andb_true_iff in Hn as [Hc Hn]. rewrite Hc, IH by done. by rewrite str_app_assoc.
Qed.

Lemma tokenize_token t s :
  token_ok t = true → blank_first s →
  tokenize_from EmptyString (symbol t +:+ s) = cons t <$> tokenize_from EmptyString s.
Proof.
  unfold token_ok. rewrite !orb_true_iff, !String.eqb_eq.
  intros [[[[[Hn| ->]| ->]| ->]| ->]| ->] Hs; [|by simpl; destruct (tokenize_from "" s)..].
  apply name_ok_spec in Hn as (? & Hw & ? & ? & ? & ? & ?).
  unfold symbol. rewrite !eqb_false by done. rewrite tokenize_word by done. simpl.
  destruct (tokenize_from "" s); simpl; [by rewrite eqb_false|done].
Qed.

Lemma tokenize_written ts :
  Forall (fun t => token_ok t = true) ts → _tokenize_condition (written ts) = Ok ts.
Proof.
  unfold _tokenize_condition. induction 1 as [|t ts Ht Hts IH]; [done|]. destruct ts as [|t' ts].
  - simpl. rewrite <- (str_app_nil_r (symbol t)), tokenize_token; [done|done|by left].
  - change (written (t :: t' :: ts)) with (symbol t +:+ String " " (written (t' :: ts))).
    rewrite tokenize_token; [|done|right; by eexists].
    change (tokenize_from "" (String " " (written (t' :: ts))))
      with (flush "" (tokenize_from "" (written (t' :: ts)))). by rewrite IH.
Qed.

Lemma symbol_head t : token_ok t = true → ∃ c s, symbol t = String c s ∧ is_space c = false.
Proof.
  unfold token_ok. rewrite !orb_true_iff, !String.eqb_eq.
  intros [[[[[Hn| ->]| ->]| ->]| ->]| ->]; [|by eexists _, _..].
  apply name_ok_spec in Hn as (? & Hw & ? & ? & ? & ? & ?).
  unfold symbol. rewrite !eqb_false by done. destruct t as [|c s]; [done|]. exists c, s. split; [done|].
  simpl in Hw. apply andb_true_iff in Hw as [Hc _].
  by destruct c as [[] [] [] [] [] [] [] []].
Qed.

Lemma symbol_rstrip t : token_ok t = true → rstrip (symbol t) = symbol t.
Proof.
  unfold token_ok. rewrite !orb_true_iff, !String.eqb_eq.
  intros [[[[[Hn| ->]| ->]| ->]| ->]| ->]; [|done..].
  apply name_ok_spec in Hn as (? & Hw & ? & ? & ? & ? & ?).
  unfold symbol. rewrite !eqb_false by done. apply rstrip_nospace. clear -Hw.
  induction t as [|c s IH]; simpl in *; [done|]. apply andb_true_iff in Hw as [Hc Hs]. rewrite IH by done.
  by destruct c as [[] [] [] [] [] [] [] []].
Qed.

Lemma rstrip_app_keep a b : b ≠ EmptyString → rstrip b = b → rstrip (a +:+ b) = a +:+ b.
Proof.
  intros Hb Hr. induction a as [|c a IH]; simpl; [done|]. rewrite IH.
  destruct a as [|c' a]; simpl; [by destruct b|done].
Qed.

Lemma strip_written ts :
  Forall (fun t => token_ok t = true) ts → strip (written ts) = written ts.
Proof.
  intros Hts. assert (rstrip (written ts) = written ts ∧ (ts = [] ∨ ∃ c s, written ts = String c s ∧ is_space c = false)) as [Hr Hh].
  { induction Hts as [|t ts Ht Hts [IH1 IH2]]; [by split; [|left]|].
    destruct (symbol_head t Ht) as (c & s & Hs & Hc). destruct ts as [|t' ts].
    - split; [by apply symbol_rstrip|right; eauto].
    - split; [|right; simpl; rewrite Hs; simpl; eauto].
      destruct IH2 as [?|(c' & s' & Hw & _)]; [done|].
      change (written (t :: t' :: ts)) with (symbol t +:+ (" " +:+ written (t' :: ts))).
      apply rstrip_app_keep; [done|]. apply rstrip_app_keep; [by rewrite Hw|done]. }
  unfold strip. destruct Hh as [->|(c & s & Hw & Hc)]; [done|].
  replace (lstrip (written ts)) with (written ts); [done|]. rewrite Hw. simpl. by rewrite Hc.
Qed.

Lemma show_not_nil l c : show l c ≠ [].
Proof. destruct c, l; simpl; try done; unfold parens; intros H; by destruct (show _ _). Qed.

Lemma matches_condition_strict state c :
  condition_ok c = true →
  _matches_condition (condition_text c) state = default false (strict state c).
Proof.
  intros Hok. pose proof (show_tokens LExpression c Hok) as Hts.
  unfold _matches_condition, condition_text. rewrite strip_written, tokenize_written by done.
  replace (String.eqb (written (show LExpression c)) "") with false.
  2:{ symmetry. apply eqb_false. intros E. pose proof (tokenize_written _ Hts) as Ht. rewrite E in Ht.
      injection Ht as Ht. by destruct (show_not_nil LExpression c). }
  pose proof (reads_show state c Hok LExpression [] eq_refl) as Hr. rewrite app_nil_r in Hr.
  destruct (strict state c) as [v|]; simpl in *.
  - by rewrite (parses_expression state _ (Ok (v, []))) by by apply Hr, cond_or_stops.
  - destruct Hr as ([[v [|t ts]]|e] & Hp & Hs); [done| |]; by rewrite (parses_expression _ _ _ Hp).
Qed.

(** C4: a written condition matches a state when its formula is true there and
    no connective is decided by its left operand (the parser then leaves the
    right operand unread and the text is rejected); so a match is never a
    false alarm, and a violated formula without decided connectives is
    reported. *)
Theorem matches_condition_spec state c :
  condition_ok c = true →
  _matches_condition (condition_text c) state = default false (strict state c) ∧
  (_matches_condition (condition_text c) state = true → holds state c = true) ∧
  (is_Some (strict state c) → _matches_condition (condition_text c) state = holds state c).
Proof.
  intros Hok. rewrite matches_condition_strict by done.
  destruct (strict state c) as [v|] eqn:E; simpl; [rewrite (strict_holds _ _ _ E); naive_solver|].
  split; [done|]. split; [done|]. by intros [? ?].
Qed.

Definition unsafe_write : condition := COr (CName "db.unvalidated") (CAnd (CNot (CName "ok")) (CName "write")).

Lemma matches_condition_spec_witness :
  condition_text unsafe_write = "db.unvalidated || ! ok && write" ∧
  let state := [("db.validated", JBool true); ("write", JInt 1)] in
  _matches_condition (condition_text unsafe_write) state = holds state unsafe_write.
Proof.
  split; [reflexivity|]. apply (matches_condition_spec _ unsafe_write); [reflexivity|].
  vm_compute. by eexists.
Defined.

(** A violation the evaluator misses: the left operand alone is true. *)
Lemma decided_or_missed :
  let state := [("a", JBool true); ("b", JBool false)] in
  holds state (COr (CName "a") (CName "b")) = true ∧
  _matches_condition "a || b" state = false ∧ _matches_condition "b || a" state = true.
Proof. by vm_compute. Qed.

(** ** Guards *)

Section guards.
Context {PT : PyText}.

Definition guard_met (capability_id : string) (decisions : table) (guard : json) : Prop :=
  ∃ m, guard = JObj m ∧
       (_guard_applies (jget "required_for" m) capability_id = true →
        truthy (jget (guard_id m) decisions) = true).

Lemma check_guard_met cap ds g : check_guard cap ds g = Ok [] ↔ guard_met cap ds g.
Proof.
  unfold check_guard, guard_met. destruct g; simpl; try (split; [done|by intros (? & ? & _)]).
  destruct (_guard_applies _ _) eqn:Ha; simpl; [|split; [|done]; intros _; eexists; split; [done|congruence]].
  destruct (truthy _) eqn:Ht; simpl; split; try done.
  - intros _. by eexists.
  - intros (m' & [= <-] & H). rewrite Ha, Ht in H. by specialize (H eq_refl).
Qed.

(** The call succeeds exactly when every guard that is required for the
    capability was decided in favour. *)
Lemma evaluate_guard_succeeds ev cap ds :
  evaluate_guard ev cap ds = Ok [] ↔ Forall (guard_met cap ds) (pe_guards ev).
Proof.
  unfold evaluate_guard. induction (pe_guards ev) as [|g gs IH]; simpl; [done|].
  rewrite Forall_cons, <- check_guard_met, <- IH. clear IH.
  destruct (check_guard cap ds g) as [vs|e]; simpl; [|naive_solver].
  destruct (mapM _ gs) as [vss|e]; simpl; [|naive_solver].
  split; [intros [= E]|intros [[= ->] [= E]]; by simpl; rewrite E].
  apply app_eq_nil in E as [-> ->]. done.
Qed.
End guards.
