(* ===== verification/Deterministic.v ===== *)
(** * Deterministic rules ([tm/policy/deterministic.py], [test_runner.py],
    [replay.py])

    A rule fires on observations and a state; its actions set actuators or
    emit events.  Rules run by priority, and the first one that sets an
    actuator wins.  The test runner and the replay diff compare action logs. *)

From S2P Require Import Prelude PyVal PyConv State.
From stdpp Require Import base gmap strings list pretty.
From Stdlib Require Import ZArith Lia Ascii.

Abbreviation table := (list (string * json)) (only parsing).

(** Equality of the canonical JSON texts of two values: mappings without
    order, numbers by their type and value. *)
Definition canonical_eqb (a b : json) : bool := json_eqb (_normalize a) (_normalize b).

(** ** Conditions *)

Definition split_dots (path : string) : list string :=
  let '(first, rest) := split_char "." path in first :: rest.

Fixpoint get_parts (current : json) (parts : list string) : json :=
  match parts with
  | [] => current
  | part :: rest =>
      match current with
      | JObj m => match alookup part m with Some v => get_parts v rest | None => JNull end
      | _ => JNull
      end
  end.

Definition _get_path (env : table) (path : string) : json := get_parts (JObj env) (split_dots path).

Definition _resolve_value (value : json) (env : table) : json :=
  match value with
  | JObj [(key, JStr path)] => if String.eqb key "var" then _get_path env path else value
  | _ => value
  end.

(** The number a value compares as: [True] is 1. *)
Definition number_of (v : json) : option pyfloat :=
  match v with
  | JBool b => Some (of_int (if b then 1 else 0))
  | JInt z => Some (of_int z)
  | JFloat f => Some f
  | _ => None
  end.

Definition _types_compatible (left right : json) : bool :=
  match left, right with
  | JNull, _ | _, JNull => false
  | JInt _, JInt _ | JInt _, JFloat _ | JFloat _, JInt _ | JFloat _, JFloat _ => true
  | JBool _, JBool _ | JStr _, JStr _ | JArr _, JArr _ | JObj _, JObj _ => true
  | _, _ => false
  end.

Inductive order : Type := GtO | GeO | LtO | LeO.

Definition order_numbers (o : order) (x y : pyfloat) : bool :=
  match o with
  | GtO => flt y x
  | GeO => flt y x || feq x y
  | LtO => flt x y
  | LeO => flt x y || feq x y
  end.

Definition order_cmp (o : order) (c : comparison) : bool :=
  match o, c with
  | GtO, Gt | GeO, (Gt | Eq) | LtO, Lt | LeO, (Lt | Eq) => true
  | _, _ => false
  end.

(** Python's [<], [<=], [>] and [>=]: lists compare at the first position
    where they differ, else by length; mappings and mixed types do not
    compare. *)
Fixpoint py_order (o : order) (a b : json) {struct a} : res bool :=
  match a, b with
  | JStr x, JStr y => Ok (order_cmp o (String.compare x y))
  | JArr x, JArr y =>
      (fix go (x y : list json) {struct x} : res bool :=
         match x, y with
         | [], [] => Ok (order_cmp o Eq)
         | [], _ :: _ => Ok (order_cmp o Lt)
         | _ :: _, [] => Ok (order_cmp o Gt)
         | a :: x, b :: y => if py_eq a b then go x y else py_order o a b
         end) x y
  | _, _ =>
      match number_of a, number_of b with
      | Some x, Some y => Ok (order_numbers o x y)
      | _, _ => Raise (TypeError "not supported between these instances")
      end
  end.

Definition compare_values (op : string) (left right : json) : res bool :=
  if String.eqb op "==" then Ok (py_eq left right)
  else if String.eqb op "!=" then Ok (negb (py_eq left right))
  else if String.eqb op ">" then py_order GtO left right
  else if String.eqb op ">=" then py_order GeO left right
  else if String.eqb op "<" then py_order LtO left right
  else if String.eqb op "<=" then py_order LeO left right
  else Ok false.

Definition _compare (op : string) (left right : json) : res bool :=
  if negb (_types_compatible left right) then Ok false else compare_values op left right.

Definition _COMPARE_OPS : list string := ["=="; "!="; ">"; ">="; "<"; "<="].

(** [all] and [any] stop at the first item that decides. *)
Fixpoint evaluate_condition (condition : json) (env : table) {struct condition} : res bool :=
  match condition with
  | JObj [(op, value)] =>
      if String.eqb op "all" then
        match value with
        | JArr l =>
            (fix all (l : list json) : res bool :=
               match l with
               | [] => Ok true
               | c :: l =>
                   match evaluate_condition c env with
                   | Ok true => all l
                   | r => r
                   end
               end) l
        | _ => Ok false
        end
      else if String.eqb op "any" then
        match value with
        | JArr l =>
            (fix any (l : list json) : res bool :=
               match l with
               | [] => Ok false
               | c :: l =>
                   match evaluate_condition c env with
                   | Ok false => any l
                   | r => r
                   end
               end) l
        | _ => Ok false
        end
      else if String.eqb op "not" then
        match evaluate_condition value env with Ok b => Ok (negb b) | Raise e => Raise e end
      else if bool_decide (op ∈ _COMPARE_OPS) then
        match value with
        | JArr [a; b] => _compare op (_resolve_value a env) (_resolve_value b env)
        | _ => Ok false
        end
      else Ok false
  | _ => Ok false
  end.

(** ** Rules *)

Record Rule : Type := mkRule {
  r_id : string;
  r_priority : Z;
  r_when : json;
  r_actions : list table
}.

Definition mappings (l : list json) : list table := omap as_mapping l.

(** A string of actions is a sequence too: none of its characters is a
    mapping. *)
Definition _normalize_actions (then_ : json) : list table :=
  match then_ with
  | JObj m =>
      match jget "actions" m with
      | JArr l => mappings l
      | JStr _ => []
      | _ => [m]
      end
  | JArr l => mappings l
  | _ => []
  end.

Section engine.
Context {PT : PyText}.

#[local] Abbreviation str := (py_str other_str).

(** [int(priority)]; only the errors of a value that is no number count as 0. *)
Definition rule_priority (v : json) : res Z :=
  match py_int v with
  | Ok z => Ok z
  | Raise (TypeError _) | Raise (ValueError _) => Ok 0%Z
  | Raise e => Raise e
  end.

Definition normalize_rule (raw : json) : res (option Rule) :=
  match raw with
  | JObj m =>
      let rule_id := str (default (JStr "") (alookup "id" m)) in
      if String.eqb rule_id "" then Ok None
      else
        match rule_priority (default (JInt 0) (alookup "priority" m)) with
        | Raise e => Raise e
        | Ok priority =>
            match jget "when" m with
            | JObj w => Ok (Some (mkRule rule_id priority (JObj w) (_normalize_actions (jget "then" m))))
            | _ => Ok None
            end
        end
  | _ => Ok None
  end.

(** The sort key [(-priority, rule_id)]. *)
Definition rule_le (a b : Rule) : bool :=
  if (r_priority a =? r_priority b)%Z then String.leb (r_id a) (r_id b)
  else (r_priority b <? r_priority a)%Z.

(** A stable sort. *)
Fixpoint insert_rule (r : Rule) (l : list Rule) : list Rule :=
  match l with
  | [] => [r]
  | x :: l' => if rule_le r x then r :: l else x :: insert_rule r l'
  end.

Definition sort_rules (l : list Rule) : list Rule := foldr insert_rule [] l.

Definition _normalize_rules (rules : json) : res (list Rule) :=
  match rules with
  | JArr l =>
      match mapM normalize_rule l with
      | Ok rs => Ok (sort_rules (omap id rs))
      | Raise e => Raise e
      end
  | _ => Ok []
  end.

Definition policy_engine (policy : table) : res (list Rule) := _normalize_rules (jget "rules" policy).

(** ** Evaluation *)

Definition _normalize_action (action : table) : table :=
  let action_type := str (default (JStr "") (alookup "type" action)) in
  if String.eqb action_type "set"
  then [("type", JStr "set"); ("actuator", jget "actuator" action); ("value", jget "value" action)]
  else if String.eqb action_type "emit_event"
  then [("type", JStr "emit_event"); ("event", jget "event" action); ("payload", jget "payload" action)]
  else [("type", JStr action_type)].

Record action_entry : Type := mkEntry {
  ae_rule : string;
  ae_action : table;
  ae_applied : bool
}.

(** The actuator and the value an action sets. *)
Definition sets (action : table) : option (json * json) :=
  if json_eqb (jget "type" action) (JStr "set")
  then Some (jget "actuator" action, jget "value" action) else None.

(** One action: whether it is applied, and the patch. *)
Definition apply_action (patch : table) (action : table) : bool * table :=
  match sets action with
  | None => (true, patch)
  | Some (JStr actuator, v) =>
      match alookup actuator patch with
      | Some _ => (false, patch)
      | None => (true, dict_set actuator v patch)
      end
  | Some _ => (false, patch)
  end.

Fixpoint run_actions (rule_id : string) (raw : list table) (patch : table) : list action_entry * table :=
  match raw with
  | [] => ([], patch)
  | a :: raw =>
      let action := _normalize_action a in
      let '(applied, patch) := apply_action patch action in
      let '(log, patch) := run_actions rule_id raw patch in
      (mkEntry rule_id action applied :: log, patch)
  end.

Fixpoint run_rules (rules : list Rule) (env : table) (patch : table) : res (list action_entry * table) :=
  match rules with
  | [] => Ok ([], patch)
  | r :: rules =>
      match evaluate_condition (r_when r) env with
      | Raise e => Raise e
      | Ok false => run_rules rules env patch
      | Ok true =>
          let '(log, patch) := run_actions (r_id r) (r_actions r) patch in
          match run_rules rules env patch with
          | Ok (log', patch) => Ok (log ++ log', patch)
          | Raise e => Raise e
          end
      end
  end.

Definition evaluate (rules : list Rule) (obs state : table) : res (list action_entry * table) :=
  run_rules rules [("obs", JObj obs); ("state", JObj state)] [].

Definition entry_json (e : action_entry) : json :=
  JObj [("rule_id", JStr (ae_rule e)); ("action", JObj (ae_action e)); ("applied", JBool (ae_applied e))].

(** The value [evaluate] returns. *)
Definition action_log (r : list action_entry * table) : json :=
  JObj [("actions", JArr (entry_json <$> r.1)); ("final_patch", JObj r.2)].
End engine.

(** ** The deterministic rules keep their promises

    The order of the rules in the document does not matter, the rule with the
    highest priority decides an actuator, and the action log says which
    actions took effect. *)

From S2P Require Import Prelude PyVal PyConv State.
From stdpp Require Import base gmap strings list sorting.
From Stdlib Require Import ZArith Lia.

(** ** The order of rules *)

Definition rule_before (a b : Rule) : Prop := rule_le a b = true.

#[export] Instance rule_before_dec : RelDecision rule_before.
Proof. intros a b. unfold rule_before. apply _. Defined.

Lemma rule_before_iff a b :
  rule_before a b ↔
  (r_priority b < r_priority a)%Z ∨ (r_priority a = r_priority b ∧ str_le (r_id a) (r_id b)).
Proof.
  unfold rule_before, rule_le, str_le. destruct (r_priority a =? r_priority b)%Z eqn:E.
  - apply Z.eqb_eq in E. split; [by right|intros [?|[_ ?]]; [lia|done]].
  - apply Z.eqb_neq in E. rewrite Z.ltb_lt. split; [by left|intros [?|[? _]]; [done|lia]].
Qed.

#[export] Instance rule_before_total : Total rule_before.
Proof.
  intros a b. rewrite !rule_before_iff.
  destruct (Z.lt_trichotomy (r_priority a) (r_priority b)) as [?|[?|?]]; [right; by left| |left; by left].
  destruct (total str_le (r_id a) (r_id b)); [left|right]; right; auto.
Qed.

#[export] Instance rule_before_trans : Transitive rule_before.
Proof.
  intros a b c. rewrite !rule_before_iff. intros [?|[? ?]] [?|[? ?]]; [left; lia..|].
  right. split; [lia|]. by etrans.
Qed.

Lemma insert_rule_perm r l : insert_rule r l ≡ₚ r :: l.
Proof. induction l as [|x l IH]; simpl; [done|]. destruct (rule_le r x); [done|]. rewrite IH. constructor. Qed.

Lemma sort_rules_perm l : sort_rules l ≡ₚ l.
Proof. induction l as [|r l IH]; simpl; [done|]. rewrite insert_rule_perm. by rewrite IH. Qed.

Lemma insert_rule_sorted r l :
  StronglySorted rule_before l → StronglySorted rule_before (insert_rule r l).
Proof.
  induction 1 as [|x l Hl IH Hx]; simpl; [by repeat constructor|].
  destruct (rule_le r x) eqn:E.
  - constructor; [by constructor|]. constructor; [done|].
    eapply Forall_impl; [exact Hx|]. intros y Hy. by trans x.
  - constructor; [done|]. rewrite insert_rule_perm. constructor; [|done].
    destruct (total rule_before r x) as [H|H]; [|done]. unfold rule_before in H. congruence.
Qed.

Lemma sort_rules_sorted l : StronglySorted rule_before (sort_rules l).
Proof. induction l as [|r l IH]; simpl; [constructor|]. by apply insert_rule_sorted. Qed.

(** Equal keys keep the order of the document. *)
Lemma sort_rules_stable k l :
  filter (fun r => (r_priority r, r_id r) = k) (sort_rules l) =
  filter (fun r => (r_priority r, r_id r) = k) l.
Proof.
  assert (∀ r l, filter (fun r => (r_priority r, r_id r) = k) (insert_rule r l) =
                 filter (fun r => (r_priority r, r_id r) = k) (r :: l)) as Hins.
  { intros r l'. induction l' as [|x l' IH]; simpl; [done|]. destruct (rule_le r x) eqn:E; [done|].
    rewrite !filter_cons, IH. rewrite filter_cons. repeat case_decide; try done.
    exfalso. subst k. unfold rule_le in E.
    replace (r_priority r =? r_priority x)%Z with true in E by (symmetry; apply Z.eqb_eq; congruence).
    replace (r_id x) with (r_id r) in E by congruence.
    destruct (total str_le (r_id r) (r_id r)); unfold str_le in *; congruence. }
  induction l as [|r l IH]; simpl; [done|]. rewrite Hins, !filter_cons. by rewrite IH.
Qed.

Definition rule_key (r : Rule) : Z * string := (r_priority r, r_id r).

Lemma sort_rules_unique l1 l2 :
  l1 ≡ₚ l2 → NoDup (rule_key <$> l1) → sort_rules l1 = sort_rules l2.
Proof.
  intros Hp Hnd. apply (StronglySorted_unique_strong rule_before).
  - intros x y Hx Hy Hxy Hyx. rewrite sort_rules_perm in Hx, Hy. rewrite <- Hp in Hy.
    apply rule_before_iff in Hxy, Hyx.
    assert (rule_key x = rule_key y) as Hk.
    { unfold rule_key. destruct Hxy as [?|[? ?]], Hyx as [?|[? ?]]; try lia. f_equal; [lia|]. by apply (anti_symm str_le). }
    apply list_elem_of_lookup in Hx as [i Hi], Hy as [j Hj].
    assert (i = j) as ->; [|congruence].
    eapply NoDup_lookup; [exact Hnd| |]; rewrite list_lookup_fmap; [by rewrite Hi|by rewrite Hj, Hk].
  - apply sort_rules_sorted.
  - apply sort_rules_sorted.
  - by rewrite !sort_rules_perm.
Qed.

Lemma Forall2_perm {A B} (R : A → B → Prop) l1 l2 k1 :
  l1 ≡ₚ l2 → Forall2 R l1 k1 → ∃ k2, Forall2 R l2 k2 ∧ k1 ≡ₚ k2.
Proof.
  intros Hp. revert k1. induction Hp as [|x l1 l2 Hp IH|x y l|l1 l2 l3 Hp1 IH1 Hp2 IH2]; intros k1 H.
  - apply Forall2_nil_inv_l in H as ->. by exists [].
  - apply Forall2_cons_inv_l in H as (b & k & Hb & Hk & ->). destruct (IH k Hk) as (k2 & ? & ?).
    exists (b :: k2). split; [by constructor|by constructor].
  - apply Forall2_cons_inv_l in H as (b & k & Hb & Hk & ->).
    apply Forall2_cons_inv_l in Hk as (c & k' & Hc & Hk & ->).
    exists (c :: b :: k'). split; [by repeat constructor|constructor].
  - destruct (IH1 _ H) as (k2 & H2 & ?). destruct (IH2 _ H2) as (k3 & ? & ?).
    exists k3. split; [done|by etrans].
Qed.

Lemma mapM_res_perm {A B} (f : A → res B) l1 l2 k1 :
  l1 ≡ₚ l2 → mapM f l1 = Ok k1 → ∃ k2, mapM f l2 = Ok k2 ∧ k1 ≡ₚ k2.
Proof.
  intros Hp H1. apply mapM_res_ok in H1. destruct (Forall2_perm _ _ _ _ Hp H1) as (k2 & Hf & Hk).
  exists k2. split; [by apply mapM_res_ok|done].
Qed.

Section spec.
Context {PT : PyText}.

Lemma normalize_rules_ok raws rules :
  _normalize_rules (JArr raws) = Ok rules →
  ∃ rs, mapM normalize_rule raws = Ok rs ∧ rules = sort_rules (omap id rs).
Proof. unfold _normalize_rules. destruct (mapM normalize_rule raws); naive_solver. Qed.

Lemma normalize_rules_order raws1 raws2 rules :
  raws1 ≡ₚ raws2 → _normalize_rules (JArr raws1) = Ok rules → NoDup (rule_key <$> rules) →
  _normalize_rules (JArr raws2) = Ok rules.
Proof.
  intros Hp H1 Hnd. apply normalize_rules_ok in H1 as (rs & Hm & ->).
  destruct (mapM_res_perm _ _ _ _ Hp Hm) as (rs2 & Hm2 & Hp2). unfold _normalize_rules. rewrite Hm2.
  f_equal. symmetry. apply sort_rules_unique; [by rewrite Hp2|].
  by rewrite sort_rules_perm in Hnd.
Qed.

(** ** Who decides an actuator *)

Definition fires (env : table) (r : Rule) : bool :=
  match evaluate_condition (r_when r) env with Ok b => b | Raise _ => false end.

(** The value the first action that sets [act] gives it. *)
Fixpoint first_set (act : string) (actions : list table) : option json :=
  match actions with
  | [] => None
  | a :: actions =>
      match sets a with
      | Some (JStr act', v) => if decide (act' = act) then Some v else first_set act actions
      | _ => first_set act actions
      end
  end.

Lemma first_set_app act l1 l2 :
  first_set act (l1 ++ l2) = match first_set act l1 with Some v => Some v | None => first_set act l2 end.
Proof.
  induction l1 as [|a l1 IH]; simpl; [done|]. destruct (sets a) as [[[| | | |s| |] v]|]; auto.
  by case_decide.
Qed.

Lemma run_actions_patch id raws patch act :
  alookup act (run_actions id raws patch).2 =
  match alookup act patch with Some v => Some v | None => first_set act (_normalize_action <$> raws) end.
Proof.
  revert patch. induction raws as [|a raws IH]; intros patch; simpl; [by destruct (alookup act patch)|].
  assert (∀ b p, (let '(log, patch) := run_actions id raws p in
                  (mkEntry id (_normalize_action a) b :: log, patch)).2 = (run_actions id raws p).2) as Hsnd.
  { intros b p. by destruct (run_actions id raws p). }
  destruct (apply_action patch (_normalize_action a)) as [b p] eqn:E. rewrite Hsnd, IH. clear Hsnd.
  unfold apply_action in E. destruct (sets (_normalize_action a)) as [[[| | | |s| |] v]|]; try (by simplify_eq).
  destruct (alookup s patch) as [w|] eqn:Es; simplify_eq.
  - case_decide; [subst|done]. by rewrite Es.
  - rewrite alookup_dict_set. repeat case_decide; subst; try done. by rewrite Es.
Qed.

(** The actions of the rules that fire, in order. *)
Definition fired (env : table) (rules : list Rule) : list table :=
  mjoin ((fun r => _normalize_action <$> r_actions r) <$> filter (fun r => fires env r = true) rules).

Lemma run_rules_patch rules env patch log patch' act :
  run_rules rules env patch = Ok (log, patch') →
  alookup act patch' =
  match alookup act patch with Some v => Some v | None => first_set act (fired env rules) end.
Proof.
  revert patch log. induction rules as [|r rules IH]; intros patch log H; simpl in H.
  { simplify_eq. by destruct (alookup act patch'). }
  unfold fired. rewrite filter_cons.
  destruct (evaluate_condition (r_when r) env) as [[|]|e] eqn:Ec; [| |done].
  - rewrite decide_True by (unfold fires; by rewrite Ec). csimpl. rewrite first_set_app.
    pose proof (run_actions_patch (r_id r) (r_actions r) patch act) as Hr.
    destruct (run_actions (r_id r) (r_actions r) patch) as [l1 p1]. simpl in Hr.
    destruct (run_rules rules env p1) as [[l2 p2]|e] eqn:E2; simplify_eq. rewrite (IH _ _ E2), Hr.
    unfold fired. by destruct (alookup act patch).
  - rewrite decide_False by (unfold fires; by rewrite Ec). by apply (IH _ _ H).
Qed.

(** A rule has an action that sets the actuator to the value. *)
Definition rule_sets (act : string) (v : json) (r : Rule) : Prop :=
  ∃ a, a ∈ r_actions r ∧ sets (_normalize_action a) = Some (JStr act, v).

Lemma first_set_some act l v :
  first_set act l = Some v → ∃ a, a ∈ l ∧ sets a = Some (JStr act, v).
Proof.
  induction l as [|a l IH]; simpl; [done|]. intros H.
  destruct (sets a) as [[[| | | |s| |] w]|] eqn:E;
    try (destruct (IH H) as (a' & ? & ?); exists a'; split; [by right|done]).
  case_decide; [|destruct (IH H) as (a' & ? & ?); exists a'; split; [by right|done]].
  simplify_eq. exists a. split; [by left|done].
Qed.

Lemma first_set_none act l : first_set act l = None → ∀ a v, a ∈ l → sets a ≠ Some (JStr act, v).
Proof.
  induction l as [|a l IH]; simpl; intros H a' v Hin Hs; [by apply elem_of_nil in Hin|].
  apply elem_of_cons in Hin as [->|Hin].
  - rewrite Hs in H. by case_decide.
  - destruct (sets a) as [[[| | | |s| |] w]|]; try (by eapply IH). case_decide; [done|by eapply IH].
Qed.

Lemma rule_sets_fmap act v r :
  rule_sets act v r ↔ ∃ a, a ∈ _normalize_action <$> r_actions r ∧ sets a = Some (JStr act, v).
Proof.
  unfold rule_sets. setoid_rewrite list_elem_of_fmap. naive_solver.
Qed.

Lemma fired_first env rules act v :
  StronglySorted rule_before rules → first_set act (fired env rules) = Some v →
  ∃ r, r ∈ rules ∧ fires env r = true ∧ rule_sets act v r ∧
       ∀ r' v', r' ∈ rules → fires env r' = true → rule_sets act v' r' → rule_before r r'.
Proof.
  induction 1 as [|r rules Hs IH Hr]; [done|]. unfold fired. rewrite filter_cons.
  destruct (decide (fires env r = true)) as [Hf|Hf]; csimpl.
  - rewrite first_set_app. destruct (first_set act (_normalize_action <$> r_actions r)) as [w|] eqn:E.
    + intros [= ->]. exists r. split; [by left|]. split; [done|].
      split; [by apply rule_sets_fmap, first_set_some|].
      intros r' v' [->|Hin]%elem_of_cons _ _; [|by rewrite Forall_forall in Hr; apply Hr].
      destruct (total rule_before r r); done.
    + intros H. destruct (IH H) as (r0 & Hin & Hf0 & Hs0 & Hmin). exists r0.
      split; [by right|]. split; [done|]. split; [done|].
      intros r' v' [->|Hin']%elem_of_cons Hf' Hs'; [|by eapply Hmin].
      apply rule_sets_fmap in Hs' as (a & Ha & Hsa). exfalso. by eapply (first_set_none act).
  - intros H. destruct (IH H) as (r0 & Hin & Hf0 & Hs0 & Hmin). exists r0.
    split; [by right|]. split; [done|]. split; [done|].
    intros r' v' [->|Hin']%elem_of_cons Hf' Hs'; [done|by eapply Hmin].
Qed.

Lemma normalize_rules_sorted v rules :
  _normalize_rules v = Ok rules → StronglySorted rule_before rules.
Proof.
  destruct v; simpl; intros H; try (injection H as <-; constructor).
  apply normalize_rules_ok in H as (rs & _ & ->). apply sort_rules_sorted.
Qed.

Lemma fired_none env rules act :
  first_set act (fired env rules) = None →
  ∀ r v, r ∈ rules → fires env r = true → rule_sets act v r → False.
Proof.
  intros H r v Hin Hf (a & Ha & Hs). eapply (first_set_none act _ H (_normalize_action a) v); [|done].
  unfold fired. apply list_elem_of_join. exists (_normalize_action <$> r_actions r).
  split; apply list_elem_of_fmap; [eauto|]. exists r. split; [done|]. by apply list_elem_of_filter.
Qed.

(** C17: for an engine built from a policy, an actuator is in the final patch
    exactly when a rule that fires sets it, with the value of a rule of the
    highest priority among those; and a permutation of the rules of the
    document gives the same engine when no two rules share priority and id. *)
Theorem highest_priority_wins raws raws' rules obs state log patch act :
  _normalize_rules (JArr raws) = Ok rules →
  evaluate rules obs state = Ok (log, patch) →
  raws ≡ₚ raws' → NoDup (rule_key <$> rules) →
  let env := [("obs", JObj obs); ("state", JObj state)] in
  match alookup act patch with
  | Some v =>
      ∃ r, r ∈ rules ∧ fires env r = true ∧ rule_sets act v r ∧
           ∀ r' v', r' ∈ rules → fires env r' = true → rule_sets act v' r' →
                    (r_priority r' <= r_priority r)%Z
  | None => ∀ r v, r ∈ rules → fires env r = true → ¬ rule_sets act v r
  end ∧
  _normalize_rules (JArr raws') = Ok rules.
Proof.
  intros Hn He Hp Hnd env. split; [|by eapply normalize_rules_order].
  unfold evaluate in He. apply run_rules_patch with (act := act) in He. rewrite He. simpl.
  destruct (first_set act _) as [v|] eqn:E; [|intros r v ? ? ?; by eapply fired_none].
  destruct (fired_first env rules act v) as (r & Hin & Hf & Hs & Hmin); [|done|].
  { by eapply normalize_rules_sorted. }
  exists r. split; [done|]. split; [done|]. split; [done|]. intros r' v' Hin' Hf' Hs'.
  apply (Hmin r' v') in Hs' as [?|[? ?]]%rule_before_iff; [lia|lia|done|done].
Qed.
End spec.

(** Two rules on one actuator; the lower one comes first in the document. *)
Definition set_rule (id : string) (priority : Z) (load_above v : Z) : json :=
  JObj [("id", JStr id); ("priority", JInt priority);
        ("when", JObj [(">", JArr [JObj [("var", JStr "obs.load")]; JInt load_above])]);
        ("then", JObj [("type", JStr "set"); ("actuator", JStr "limit"); ("value", JInt v)])].

Definition rules_example : list json := [set_rule "low" 1 10 100; set_rule "high" 5 50 7].

Definition rules_sorted : list Rule :=
  match @_normalize_rules plain_text (JArr rules_example) with Ok l => l | Raise _ => [] end.

Lemma highest_priority_wins_witness :
  ∃ r, r ∈ rules_sorted ∧
       fires [("obs", JObj [("load", JInt 60)]); ("state", JObj [])] r = true ∧
       @rule_sets plain_text "limit" (JInt 7) r ∧
       ∀ r' v', r' ∈ rules_sorted →
         fires [("obs", JObj [("load", JInt 60)]); ("state", JObj [])] r' = true →
         @rule_sets plain_text "limit" v' r' → (r_priority r' <= r_priority r)%Z.
Proof.
  refine (proj1 (@highest_priority_wins plain_text rules_example (reverse rules_example) rules_sorted
    [("load", JInt 60)] [] _ [("limit", JInt 7)] "limit" _ _ _ _)).
  - vm_compute. reflexivity.
  - vm_compute. reflexivity.
  - symmetry. apply reverse_Permutation.
  - apply (bool_decide_unpack _). vm_compute. exact I.
Defined.
