(* ===== verification/PolicyReplay.v ===== *)
(** * Policy tests and replay diffs ([tm/policy/test_runner.py],
    [tm/policy/replay.py])

    A suite runs the rules on its inputs and compares action logs; a replay
    runs them on a trace, and the diff of two replays counts what changed,
    row by row and rule by rule. *)

From S2P Require Import Prelude PyVal PyConv State Deterministic.
From stdpp Require Import base gmap strings list pretty sorting.
From Stdlib Require Import ZArith Lia.

(** ** The test runner *)

(** Mappings by inclusion, sequences as subsequences, else [==]. *)
Fixpoint _match_contains (expected actual : json) {struct expected} : bool :=
  match expected with
  | JObj e =>
      match actual with
      | JObj a =>
          (fix go (e : list (string * json)) : bool :=
             match e with
             | [] => true
             | (key, exp_value) :: e =>
                 match alookup key a with
                 | Some v => _match_contains exp_value v && go e
                 | None => false
                 end
             end) e
      | _ => false
      end
  | JArr e =>
      match actual with
      | JArr a =>
          (fix go (e : list json) (a : list json) {struct e} : bool :=
             match e with
             | [] => true
             | exp_item :: e =>
                 (fix scan (a : list json) : bool :=
                    match a with
                    | [] => false
                    | x :: a => if _match_contains exp_item x then go e a else scan a
                    end) a
             end) e a
      | _ => false
      end
  | _ => py_eq expected actual
  end.

Definition as_table (v : json) : table := default [] (as_mapping v).

Definition _normalize_inputs (test_case : table) : table * table :=
  let inputs :=
    match jget "inputs" test_case with
    | JObj m => Some m
    | _ => as_mapping (jget "input" test_case)
    end in
  match inputs with
  | None => ([], [])
  | Some m => (as_table (jget "obs" m), as_table (jget "state" m))
  end.

Definition _normalize_expected (test_case : table) : option table :=
  match jget "expected" test_case with
  | JObj m => Some m
  | _ => as_mapping (jget "expect" test_case)
  end.

Inductive verdict : Type := Pass | Warn | FailV.

Definition verdict_text (v : verdict) : string :=
  match v with Pass => "pass" | Warn => "warn" | FailV => "fail" end.

Record test_result : Type := mkTest {
  tr_id : string;
  tr_stability : string;
  tr_intent_refs : list string;
  tr_status : verdict;
  tr_reason : string;
  tr_diff : option table
}.

Record outcome : Type := mkOutcome {
  oc_exit_code : Z;
  oc_results : list test_result;
  oc_passed : nat;
  oc_failed : nat;
  oc_warnings : nat
}.

Section runner.
Context {PT : PyText}.

#[local] Abbreviation str := (py_str other_str).

(** What is wrong with a log, with the diff to report. *)
Definition judge (expected : option table) (actual : json) : option (string * table) :=
  match expected with
  | None => Some ("missing expected/expect block", [("actual", actual)])
  | Some e =>
      let mode := str (default (JStr "exact") (alookup "mode" e)) in
      let log := jget "action_log" e in
      let diff := [("expected", log); ("actual", actual)] in
      if String.eqb mode "exact"
      then if canonical_eqb actual log then None else Some ("exact mismatch", diff)
      else if String.eqb mode "contains"
      then if _match_contains log actual then None else Some ("contains mismatch", diff)
      else Some ("unsupported expect mode '" +:+ mode +:+ "'", diff)
  end.

Definition intent_refs_of (v : json) : list string :=
  match v with JArr l => str <$> l | _ => [] end.

Definition run_case (rules : list Rule) (test_case : table) : res test_result :=
  let '(obs, state) := _normalize_inputs test_case in
  match evaluate rules obs state with
  | Raise e => Raise e
  | Ok r =>
      let stability := str (default (JStr "") (alookup "stability" test_case)) in
      let verdict := judge (_normalize_expected test_case) (action_log r) in
      Ok (mkTest (str (default (JStr "") (alookup "id" test_case))) stability
            (intent_refs_of (jget "intent_refs" test_case))
            (match verdict with
             | None => Pass
             | Some _ => if String.eqb stability "evolving" then Warn else FailV
             end)
            (match verdict with None => "ok" | Some (reason, _) => reason end)
            (snd <$> verdict))
  end.

Definition blocking (t : test_result) : bool :=
  match tr_status t with
  | FailV => String.eqb (tr_stability t) "hard" || String.eqb (tr_stability t) "compat"
  | _ => false
  end.

(** The counters of the loop. *)
Fixpoint run_cases (rules : list Rule) (tests : list json) (out : outcome) : res outcome :=
  match tests with
  | [] => Ok out
  | JObj m :: tests =>
      match run_case rules m with
      | Raise e => Raise e
      | Ok t =>
          run_cases rules tests
            (mkOutcome (if blocking t then 1 else oc_exit_code out)
               (oc_results out ++ [t])
               (match tr_status t with Pass => S (oc_passed out) | _ => oc_passed out end)
               (match tr_status t with FailV => S (oc_failed out) | _ => oc_failed out end)
               (match tr_status t with Warn => S (oc_warnings out) | _ => oc_warnings out end))
      end
  | _ :: tests => run_cases rules tests out
  end.

Definition run_test_suite (suite policy : table) : res outcome :=
  match jget "spec" suite with
  | JObj spec =>
      match jget "tests" spec with
      | JArr tests =>
          match policy_engine policy with
          | Raise e => Raise e
          | Ok rules => run_cases rules tests (mkOutcome 0 [] 0 0 0)
          end
      | _ => Raise (ValueError "suite.spec.tests must be an array")
      end
  | _ => Raise (ValueError "suite.spec must be an object")
  end.
End runner.

(** ** Replays *)

Record replay_row : Type := mkRow {
  rr_index : Z;
  rr_input : json;
  rr_log : json
}.

(** A trace file: a blank line, or the value it holds. *)
Abbreviation trace := (list (option json)) (only parsing).

Section replay.
Context {PT : PyText}.

Fixpoint replay_rows (rules : list Rule) (index : Z) (lines : list (option json)) : res (list replay_row) :=
  match lines with
  | [] => Ok []
  | None :: lines => replay_rows rules (index + 1) lines
  | Some (JObj event) :: lines =>
      let obs := as_table (jget "obs" event) in
      let state := as_table (jget "state" event) in
      match evaluate rules obs state with
      | Raise e => Raise e
      | Ok r =>
          match replay_rows rules (index + 1) lines with
          | Raise e => Raise e
          | Ok rows =>
              Ok (mkRow index (JObj [("obs", JObj obs); ("state", JObj state)]) (action_log r) :: rows)
          end
      end
  | Some _ :: _ => Raise (ValueError "line must be a JSON object")
  end.

(** [rr_input] is the payload whose SHA-256 the row holds. *)
Definition replay_trace_rows (policy : table) (lines : list (option json)) : res (list replay_row) :=
  match policy_engine policy with
  | Raise e => Raise e
  | Ok rules => replay_rows rules 0 lines
  end.

(** ** Diffs *)

Record actions_diff : Type := mkDiff {
  ad_added : list (nat * json);
  ad_removed : list (nat * json);
  ad_modified : list (nat * (json * json))
}.

Definition changed_pairs (old_actions new_actions : list json) : list (nat * (json * json)) :=
  filter (fun p => canonical_eqb p.2.1 p.2.2 = false) (imap pair (zip old_actions new_actions)).

(** The entries from position [common] on, with their positions. *)
Definition beyond (common : nat) (l : list json) : list (nat * json) :=
  imap (fun i a => (common + i, a)) (drop common l).

Definition _action_diff (old_actions new_actions : list json) : actions_diff :=
  let common := length old_actions `min` length new_actions in
  mkDiff (beyond common new_actions) (beyond common old_actions) (changed_pairs old_actions new_actions).

Record rule_stats : Type := mkStats {
  rs_changed_rows : nat;
  rs_action_added : nat;
  rs_action_removed : nat;
  rs_action_modified : nat
}.

Definition no_stats : rule_stats := mkStats 0 0 0 0.

Definition bump_rule (f : rule_stats → rule_stats) (rule_id : string) (m : gmap string rule_stats)
  : gmap string rule_stats := <[rule_id := f (default no_stats (m !! rule_id))]> m.

Definition inc_changed (s : rule_stats) : rule_stats :=
  mkStats (S (rs_changed_rows s)) (rs_action_added s) (rs_action_removed s) (rs_action_modified s).
Definition inc_added (s : rule_stats) : rule_stats :=
  mkStats (rs_changed_rows s) (S (rs_action_added s)) (rs_action_removed s) (rs_action_modified s).
Definition inc_removed (s : rule_stats) : rule_stats :=
  mkStats (rs_changed_rows s) (rs_action_added s) (S (rs_action_removed s)) (rs_action_modified s).
Definition inc_modified (s : rule_stats) : rule_stats :=
  mkStats (rs_changed_rows s) (rs_action_added s) (rs_action_removed s) (S (rs_action_modified s)).

(** The rule of a logged action, when it has one. *)
Definition rule_of (action : json) : option string :=
  match action with
  | JObj m =>
      let rule_id := py_str other_str (default (JStr "") (alookup "rule_id" m)) in
      if String.eqb rule_id "" then None else Some rule_id
  | _ => None
  end.

(** The rule of the old action, else of the new one. *)
Definition rule_of_pair (p : json * json) : option string :=
  match rule_of p.1 with Some r => Some r | None => rule_of p.2 end.

Definition bump_all (f : rule_stats → rule_stats) (ids : list string) (m : gmap string rule_stats)
  : gmap string rule_stats := foldl (fun m r => bump_rule f r m) m ids.

Definition count_rules (d : actions_diff) (m : gmap string rule_stats) : gmap string rule_stats :=
  let added := omap (fun e => rule_of e.2) (ad_added d) in
  let removed := omap (fun e => rule_of e.2) (ad_removed d) in
  let modified := omap (fun e => rule_of_pair e.2) (ad_modified d) in
  let touched := remove_dups (added ++ removed ++ modified) in
  bump_all inc_changed touched
    (bump_all inc_modified modified (bump_all inc_removed removed (bump_all inc_added added m))).

Inductive row_diff : Type :=
| RowAdded (new : table)
| RowRemoved (old : table)
| RowSame
| RowChanged (d : actions_diff) (old_log new_log : json).

Definition actions_of (log : json) : list json :=
  match log with
  | JObj m => match jget "actions" m with JArr l => l | _ => [] end
  | _ => []
  end.

(** [{int(row.get("index", idx)): row ...}]: the last row of an index counts. *)
Fixpoint rows_by_index (idx : Z) (rows : list table) (m : gmap Z table) : res (gmap Z table) :=
  match rows with
  | [] => Ok m
  | row :: rows =>
      match py_int (default (JInt idx) (alookup "index" row)) with
      | Raise e => Raise e
      | Ok i => rows_by_index (idx + 1) rows (<[i := row]> m)
      end
  end.

Definition diff_row (old new : option table) : option row_diff :=
  match old, new with
  | None, None => None
  | None, Some n => Some (RowAdded n)
  | Some o, None => Some (RowRemoved o)
  | Some o, Some n =>
      let old_log := jget "action_log" o in
      let new_log := jget "action_log" n in
      Some (if canonical_eqb old_log new_log then RowSame
            else RowChanged (_action_diff (actions_of old_log) (actions_of new_log)) old_log new_log)
  end.

Record diff_report : Type := mkReport {
  dr_total_old : nat;
  dr_total_new : nat;
  dr_changed : nat;
  dr_added : nat;
  dr_removed : nat;
  dr_by_rule : gmap string rule_stats;
  dr_rows : list (Z * row_diff)
}.

Definition add_row (rep : diff_report) (index : Z) (d : row_diff) : diff_report :=
  let rows := dr_rows rep ++ [(index, d)] in
  match d with
  | RowAdded _ => mkReport (dr_total_old rep) (dr_total_new rep) (S (dr_changed rep)) (S (dr_added rep))
                    (dr_removed rep) (dr_by_rule rep) rows
  | RowRemoved _ => mkReport (dr_total_old rep) (dr_total_new rep) (S (dr_changed rep)) (dr_added rep)
                      (S (dr_removed rep)) (dr_by_rule rep) rows
  | RowSame => mkReport (dr_total_old rep) (dr_total_new rep) (dr_changed rep) (dr_added rep)
                 (dr_removed rep) (dr_by_rule rep) rows
  | RowChanged ad _ _ =>
      mkReport (dr_total_old rep) (dr_total_new rep) (S (dr_changed rep)) (dr_added rep)
        (dr_removed rep) (count_rules ad (dr_by_rule rep)) rows
  end.

(** [sorted(set(old) | set(new))]. *)
Definition all_indices (old new : gmap Z table) : list Z :=
  merge_sort Z.le (elements (dom old ∪ dom new)).

Definition diff_replay_rows (old_rows new_rows : list table) : res diff_report :=
  match rows_by_index 0 old_rows ∅ with
  | Raise e => Raise e
  | Ok old =>
      match rows_by_index 0 new_rows ∅ with
      | Raise e => Raise e
      | Ok new =>
          Ok (foldl (fun rep i => match diff_row (old !! i) (new !! i) with
                                  | Some d => add_row rep i d
                                  | None => rep
                                  end)
                (mkReport (length old_rows) (length new_rows) 0 0 0 ∅ []) (all_indices old new))
      end
  end.
End replay.

(** ** What the policy tests and replay diffs report *)

From S2P Require Import Prelude PyVal PyConv State Deterministic.
From stdpp Require Import base gmap strings list sorting.
From Stdlib Require Import ZArith Lia.

(** ** Containment *)

(** The greedy scan of the test runner. *)
Fixpoint embeds (m : json → json → bool) (e a : list json) {struct e} : bool :=
  match e with
  | [] => true
  | exp_item :: e =>
      (fix scan (a : list json) : bool :=
         match a with
         | [] => false
         | x :: a => if m exp_item x then embeds m e a else scan a
         end) a
  end.

Lemma embeds_scan m x e y a :
  embeds m (x :: e) (y :: a) = if m x y then embeds m e a else embeds m (x :: e) a.
Proof. done. Qed.

Lemma match_contains_array e a : _match_contains (JArr e) (JArr a) = embeds _match_contains e a.
Proof.
  simpl. revert a. induction e as [|x e IH]; intros a; [done|]. simpl.
  induction a as [|y a IHa]; [done|]. by rewrite IH, IHa.
Qed.

Lemma embeds_drop m e y a : embeds m e a = true → embeds m e (y :: a) = true.
Proof.
  revert y a. induction e as [|x e IH]; intros y a; [done|]. revert y.
  induction a as [|z a IHa]; intros y H; [done|]. rewrite embeds_scan in H |- *.
  destruct (m x y); [|by destruct (m x z) eqn:E; [rewrite embeds_scan, E|apply IHa]].
  destruct (m x z) eqn:E; [by apply IH|]. apply IHa with (y := z) in H. rewrite embeds_scan, E in H.
  apply IH. clear -H IH. induction a as [|w a IHa]; [done|]. rewrite embeds_scan in H.
  destruct (m x w); [by apply IH|]. by apply IH, IHa.
Qed.

(** The greedy scan finds a subsequence of matching items when there is one. *)
Lemma embeds_sublist m e a :
  embeds m e a = true ↔ ∃ l, l `sublist_of` a ∧ Forall2 (fun x y => m x y = true) e l.
Proof.
  split.
  - revert e. induction a as [|y a IH]; intros [|x e] H; try done.
    + exists []. split; [constructor|constructor].
    + exists []. split; [apply sublist_nil_l|constructor].
    + rewrite embeds_scan in H. destruct (m x y) eqn:E.
      * destruct (IH e H) as (l & ? & ?). exists (y :: l). split; [by constructor|by constructor].
      * destruct (IH _ H) as (l & ? & ?). exists l. split; [by constructor|done].
  - intros (l & Hl & Hf). revert e Hf. induction Hl as [|y l a Hl IH|y l a Hl IH]; intros e Hf.
    + by apply Forall2_nil_inv_r in Hf as ->.
    + apply Forall2_cons_inv_r in Hf as (x & e' & Hx & Hf & ->). rewrite embeds_scan, Hx. by apply IH.
    + by apply embeds_drop, IH.
Qed.

Lemma match_contains_sublist e a :
  _match_contains (JArr e) (JArr a) = true ↔
  ∃ l, l `sublist_of` a ∧ Forall2 (fun x y => _match_contains x y = true) e l.
Proof. rewrite match_contains_array. apply embeds_sublist. Qed.

(** ** The counters of a test run *)

Definition count (p : test_result → bool) (l : list test_result) : nat :=
  length (filter (fun t => p t = true) l).

Definition is_pass (t : test_result) : bool := match tr_status t with Pass => true | _ => false end.
Definition is_warn (t : test_result) : bool := match tr_status t with Warn => true | _ => false end.
Definition is_fail (t : test_result) : bool := match tr_status t with FailV => true | _ => false end.

Lemma count_app p l1 l2 : count p (l1 ++ l2) = count p l1 + count p l2.
Proof. unfold count. by rewrite filter_app, length_app. Qed.

Lemma count_one p t : count p [t] = if p t then 1 else 0.
Proof. unfold count. rewrite filter_cons, filter_nil. by destruct (p t). Qed.

Definition counted (out : outcome) : Prop :=
  oc_passed out = count is_pass (oc_results out) ∧
  oc_failed out = count is_fail (oc_results out) ∧
  oc_warnings out = count is_warn (oc_results out) ∧
  oc_exit_code out = (if existsb blocking (oc_results out) then 1 else 0)%Z.

Section spec.
Context {PT : PyText}.

Lemma run_cases_counted rules tests out out' :
  counted out → run_cases rules tests out = Ok out' → counted out'.
Proof.
  revert out. induction tests as [|t tests IH]; intros out Hc H; simpl in H; [by simplify_eq|].
  destruct t as [| | | | | |m]; try (by eapply IH).
  destruct (run_case rules m) as [t|e]; [|done]. eapply IH; [|exact H]. clear H IH.
  destruct Hc as (H1 & H2 & H3 & H4). unfold counted. simpl.
  rewrite !count_app, !count_one, existsb_app, H1, H2, H3, H4. unfold is_pass, is_fail, is_warn, blocking. simpl.
  destruct (tr_status t); simpl; repeat split; try lia; rewrite ?orb_false_r; try done.
  by destruct (existsb _ _), (String.eqb (tr_stability t) "hard"), (String.eqb (tr_stability t) "compat").
Qed.

(** A run counts its verdicts, and its exit code is 1 exactly when a test that
    is [hard] or [compat] failed. *)
Lemma run_test_suite_counted suite policy out :
  run_test_suite suite policy = Ok out → counted out.
Proof.
  unfold run_test_suite. intros H.
  destruct (jget "spec" suite) as [| | | | | |spec]; try done.
  destruct (jget "tests" spec) as [| | | | |tests|]; try done.
  destruct (policy_engine policy) as [rules|e]; [|done].
  by eapply run_cases_counted; [|exact H].
Qed.

(** ** Diffs *)

Lemma canonical_eqb_refl v : canonical_eqb v v = true.
Proof. unfold canonical_eqb. by apply json_eqb_eq. Qed.

Lemma canonical_eqb_sym a b : canonical_eqb a b = canonical_eqb b a.
Proof.
  unfold canonical_eqb. destruct (json_eqb (_normalize a) (_normalize b)) eqn:E.
  - apply json_eqb_eq in E. rewrite E. symmetry. by apply json_eqb_eq.
  - destruct (json_eqb (_normalize b) (_normalize a)) eqn:E'; [|done].
    apply json_eqb_eq in E'. rewrite E' in E. by rewrite (proj2 (json_eqb_eq _ _) eq_refl) in E.
Qed.

Definition row_status (d : row_diff) : string :=
  match d with RowAdded _ => "added" | RowRemoved _ => "removed" | RowSame => "same" | RowChanged _ _ _ => "changed" end.

Definition rows_with (s : string) (rep : diff_report) : nat :=
  length (filter (fun r => row_status r.2 = s) (dr_rows rep)).

(** The summary counts the rows of the report. *)
Definition summed (rep : diff_report) : Prop :=
  dr_added rep = rows_with "added" rep ∧
  dr_removed rep = rows_with "removed" rep ∧
  dr_changed rep = rows_with "added" rep + rows_with "removed" rep + rows_with "changed" rep.

Lemma add_row_summed rep i d : summed rep → summed (add_row rep i d).
Proof.
  unfold summed, rows_with. intros (H1 & H2 & H3).
  destruct d; simpl; rewrite !filter_app, !length_app, H1, H2, H3; simpl; repeat split; lia.
Qed.

Definition fold_diff (old new : gmap Z table) (rep : diff_report) (ixs : list Z) : diff_report :=
  foldl (fun rep i => match diff_row (old !! i) (new !! i) with Some d => add_row rep i d | None => rep end) rep ixs.

Lemma fold_diff_summed old new rep ixs : summed rep → summed (fold_diff old new rep ixs).
Proof.
  revert rep. induction ixs as [|i ixs IH]; intros rep H; simpl; [done|]. apply IH.
  destruct (diff_row (old !! i) (new !! i)); [by apply add_row_summed|done].
Qed.

Lemma fold_diff_rows old new rep ixs :
  dr_rows (fold_diff old new rep ixs) =
  dr_rows rep ++ omap (fun i => pair i <$> diff_row (old !! i) (new !! i)) ixs.
Proof.
  revert rep. induction ixs as [|i ixs IH]; intros rep; simpl; [by rewrite app_nil_r|]. rewrite IH.
  destruct (diff_row (old !! i) (new !! i)) as [d|]; simpl; [|done].
  replace (dr_rows (add_row rep i d)) with (dr_rows rep ++ [(i, d)]) by (by destruct d).
  by rewrite <- app_assoc.
Qed.

Lemma diff_replay_rows_ok old_rows new_rows rep :
  diff_replay_rows old_rows new_rows = Ok rep →
  ∃ old new, rows_by_index 0 old_rows ∅ = Ok old ∧ rows_by_index 0 new_rows ∅ = Ok new ∧
             rep = fold_diff old new (mkReport (length old_rows) (length new_rows) 0 0 0 ∅ []) (all_indices old new).
Proof.
  unfold diff_replay_rows. destruct (rows_by_index 0 old_rows ∅) as [old|e]; [|done].
  destruct (rows_by_index 0 new_rows ∅) as [new|e]; [|done]. intros [= <-]. by exists old, new.
Qed.

Lemma elem_of_all_indices i (old new : gmap Z table) :
  i ∈ all_indices old new ↔ is_Some (old !! i) ∨ is_Some (new !! i).
Proof.
  unfold all_indices. rewrite merge_sort_Permutation, elem_of_elements, elem_of_union, !elem_of_dom. done.
Qed.

(** Every index of either replay has exactly one row, in increasing order. *)
Lemma diff_replay_rows_spec old_rows new_rows rep :
  diff_replay_rows old_rows new_rows = Ok rep →
  ∃ old new, rows_by_index 0 old_rows ∅ = Ok old ∧ rows_by_index 0 new_rows ∅ = Ok new ∧
    summed rep ∧
    (∀ i d, (i, d) ∈ dr_rows rep ↔ diff_row (old !! i) (new !! i) = Some d) ∧
    NoDup ((dr_rows rep).*1).
Proof.
  intros H. apply diff_replay_rows_ok in H as (old & new & Ho & Hn & ->).
  exists old, new. split; [done|]. split; [done|]. split; [by apply fold_diff_summed|].
  rewrite fold_diff_rows. simpl. split.
  - intros i d. rewrite list_elem_of_omap. setoid_rewrite elem_of_all_indices. split.
    + intros (j & Hj & Hd). destruct (diff_row (old !! j) (new !! j)) as [d'|] eqn:E; simplify_eq/=. congruence.
    + intros Hd. exists i. rewrite Hd. split; [|done].
      destruct (old !! i), (new !! i); simplify_eq/=; eauto.
  - assert (NoDup (all_indices old new)) as Hnd.
    { unfold all_indices. rewrite merge_sort_Permutation. apply NoDup_elements. }
    induction Hnd as [|i l Hi Hnd IH]; simpl; [constructor|].
    destruct (diff_row (old !! i) (new !! i)) as [d|]; simpl; [|done]. constructor; [|done].
    intros Hf. apply list_elem_of_fmap in Hf as ([j d0] & -> & Hin). simpl in *.
    apply list_elem_of_omap in Hin as (j' & Hj & He). destruct (diff_row _ _); simplify_eq/=. done.
Qed.

(** A replay differs from itself in nothing. *)
Lemma diff_replay_rows_self rows rep :
  diff_replay_rows rows rows = Ok rep →
  dr_changed rep = 0 ∧ dr_by_rule rep = ∅ ∧ Forall (fun r => r.2 = RowSame) (dr_rows rep).
Proof.
  intros H. apply diff_replay_rows_ok in H as (old & new & Ho & Hn & ->). rewrite Ho in Hn. injection Hn as <-.
  assert (∀ rep ixs, dr_changed rep = 0 ∧ dr_by_rule rep = ∅ ∧ Forall (fun r => r.2 = RowSame) (dr_rows rep) →
          let rep' := fold_diff old old rep ixs in
          dr_changed rep' = 0 ∧ dr_by_rule rep' = ∅ ∧ Forall (fun r => r.2 = RowSame) (dr_rows rep')) as Hfold.
  { intros rep ixs. revert rep. induction ixs as [|i ixs IH]; intros rep Hr; [done|]. apply IH.
    destruct (old !! i) as [row|]; simpl; [|done]. rewrite canonical_eqb_refl. simpl.
    destruct Hr as (? & ? & ?). split; [done|]. split; [done|]. apply Forall_app. auto. }
  apply Hfold. by repeat split.
Qed.
End spec.
