(* ===== verification/PolicyStore.v ===== *)
(** * Policy parameters, allowlists and conflicts ([tm/policy/local_store.py],
    [adapter.py], [policies_v0.py], [guard.py], [conflict.py])

    Parameters per arm in a local store, behind an adapter that prefers a
    remote service; the allowlist of effect targets; the classification of
    two decisions on one actuator. *)

From S2P Require Import Prelude PyVal PyConv.
From stdpp Require Import base gmap strings list pretty.
From Stdlib Require Import ZArith Lia Ascii.

Abbreviation table := (list (string * json)) (only parsing).

(** ** The local store *)

Record LocalPolicyStore : Type := mkStore {
  ls_arms : list (string * table);
  ls_version : string
}.

Definition local_get (s : LocalPolicyStore) (arm : string) : option table := alookup arm (ls_arms s).

(** [version.partition(":")]: what is before the colon, and after it. *)
Fixpoint partition_colon (s : string) : string * string :=
  match s with
  | EmptyString => (EmptyString, EmptyString)
  | String c s' =>
      if Ascii.eqb c ":" then (EmptyString, s')
      else let '(p, n) := partition_colon s' in (String c p, n)
  end.

Section store.
Context {PT : PyText}.

Definition bump_version (version : string) : string :=
  let '(prefix, n) := partition_colon version in
  match int_of_str (if String.eqb n "" then "0" else n) with
  | Some z => prefix +:+ ":" +:+ pretty (z + 1)%Z
  | None => "local:1"
  end.

Definition local_update (s : LocalPolicyStore) (arm : string) (params : table) : table * LocalPolicyStore :=
  let cur := dict_update (default [] (alookup arm (ls_arms s))) params in
  (cur, mkStore (dict_set arm cur (ls_arms s)) (bump_version (ls_version s))).

Definition local_list_arms (s : LocalPolicyStore) : list string := sort_strings ((ls_arms s).*1).

(** ** The adapter *)

Record PolicyAdapter : Type := mkAdapter {
  pa_mcp : bool;
  pa_local : LocalPolicyStore;
  pa_prefer_remote : bool
}.

Definition with_local (a : PolicyAdapter) (s : LocalPolicyStore) : PolicyAdapter :=
  mkAdapter (pa_mcp a) s (pa_prefer_remote a).

(** What a remote call came to: nothing when it failed, timed out or returned
    [None]. *)
Definition remote_result {R} (a : PolicyAdapter) (answer : option R) : option R :=
  if pa_prefer_remote a && pa_mcp a then answer else None.

Definition adapter_get (a : PolicyAdapter) (arm : string) (answer : option table) : option table :=
  match remote_result a answer with
  | Some r => Some r
  | None => local_get (pa_local a) arm
  end.

Definition adapter_update (a : PolicyAdapter) (arm : string) (params : table) (answer : option table)
  : table * PolicyAdapter :=
  match remote_result a answer with
  | Some r => (r, with_local a (local_update (pa_local a) arm r).2)
  | None => let '(cur, s) := local_update (pa_local a) arm params in (cur, with_local a s)
  end.

Definition adapter_list_arms (a : PolicyAdapter) (answer : option (list string)) : list string :=
  match remote_result a answer with
  | Some r => r
  | None => local_list_arms (pa_local a)
  end.

(** ** Allowlists *)

Definition policy_allowlist (meta : option table) : list string :=
  match meta with
  | None => []
  | Some m =>
      match jget "policy" m with
      | JObj p =>
          match jget "allow" p with
          | JArr l => py_str other_str <$> l
          | JStr s => py_str other_str <$> chars s
          | _ => []
          end
      | _ => []
      end
  end.

Record PolicyDecision : Type := mkDecision {
  pd_effect : string;
  pd_target : string;
  pd_allowed : bool;
  pd_reason : string
}.

(** What a context records: audits, and evidence by kind. *)
Record audit_trail : Type := mkTrail {
  at_audits : list json;
  at_evidence : list (string * json)
}.

Definition record_audit (t : audit_trail) (action : string) (metadata : table) : audit_trail :=
  let entry := JObj [("action", JStr action); ("metadata", JObj metadata)] in
  mkTrail (at_audits t ++ [entry]) (at_evidence t ++ [("audit", entry)]).

Definition record_evidence (t : audit_trail) (kind : string) (payload : json) : audit_trail :=
  mkTrail (at_audits t) (at_evidence t ++ [(kind, payload)]).

Definition guard_evaluate (allowlist : list string) (effect target : string) (t : audit_trail)
    (bundle_meta : option table) : PolicyDecision * audit_trail :=
  let allowed := bool_decide (target ∈ allowlist ++ policy_allowlist bundle_meta) in
  let reason := if allowed then "allowed by policy" else "target not allowlisted" in
  let entry := [("effect", JStr effect); ("target", JStr target); ("allowed", JBool allowed)] in
  (mkDecision effect target allowed reason,
   record_evidence (record_audit t "policy_guard" entry) "policy_guard"
     (JObj (entry ++ [("reason", JStr reason)]))).

(** ** Conflicts *)

Inductive ConflictKind : Type :=
| SAME_ACTUATOR_COMPATIBLE
| SAME_ACTUATOR_OPPOSITE
| SAFETY_VS_EFFICIENCY
| LIVENESS_VS_LIVENESS.

Definition kind_value (k : ConflictKind) : string :=
  match k with
  | SAME_ACTUATOR_COMPATIBLE => "same_actuator_compatible"
  | SAME_ACTUATOR_OPPOSITE => "same_actuator_opposite_direction"
  | SAFETY_VS_EFFICIENCY => "safety_vs_efficiency"
  | LIVENESS_VS_LIVENESS => "liveness_vs_liveness"
  end.

Definition PRIORITY_ORDER : list (string * Z) :=
  [("safety", 100); ("liveness", 50); ("efficiency", 10); ("fairness", 40)]%Z.

Definition priority_of (category : string) : Z := default 0%Z (alookup category PRIORITY_ORDER).

Record Conflict : Type := mkConflict {
  cf_actuator : string;
  cf_kind : ConflictKind;
  cf_decision_a : table;
  cf_decision_b : table;
  cf_intent_a : string;
  cf_intent_b : string;
  cf_description : string
}.

Definition _DEFAULT_NUMERIC_KEYS : list string :=
  ["reject_rate"; "qps"; "burst"; "queue_depth"; "latency_p95_ms"].

Record ConflictClassifier : Type := mkClassifier {
  cc_categories : list (string * string);
  cc_numeric_keys : list string
}.

Definition classifier (categories : list (string * string)) (numeric_keys : list string) : ConflictClassifier :=
  mkClassifier categories (match numeric_keys with [] => _DEFAULT_NUMERIC_KEYS | ks => ks end).

Definition get_category (c : ConflictClassifier) (intent_id : string) : string :=
  default EmptyString (alookup intent_id (cc_categories c)).

(** [abs(diff) > 1e-9]: the unit of the model is coarser. *)
Definition apart (diff : pyfloat) : bool :=
  match diff with Fin z => negb (z =? 0)%Z | PInf | NInf => true | NaN => false end.

Definition missing (v : json) : bool := match v with JNull => true | _ => false end.

(** Whether one key opposes; values that are no numbers do not. *)
Definition opposes (state_a state_b : table) (key : string) : res bool :=
  let va := jget key state_a in
  let vb := jget key state_b in
  if missing va || missing vb then Ok false
  else
    match py_float va with
    | Raise (ValueError _) | Raise (TypeError _) => Ok false
    | Raise e => Raise e
    | Ok fa =>
        match py_float vb with
        | Raise (ValueError _) | Raise (TypeError _) => Ok false
        | Raise e => Raise e
        | Ok fb => Ok (apart (fsub fa fb))
        end
    end.

Fixpoint any_opposes (keys : list string) (state_a state_b : table) : res bool :=
  match keys with
  | [] => Ok false
  | key :: keys =>
      match opposes state_a state_b key with
      | Ok false => any_opposes keys state_a state_b
      | r => r
      end
  end.

Definition target_state (decision : table) : json :=
  default (JObj []) (alookup "target_state" decision).

Definition _classify_direction (c : ConflictClassifier) (a b : table) : res ConflictKind :=
  match target_state a, target_state b with
  | JObj sa, JObj sb =>
      match any_opposes (cc_numeric_keys c) sa sb with
      | Ok true => Ok SAME_ACTUATOR_OPPOSITE
      | Ok false => Ok SAME_ACTUATOR_COMPATIBLE
      | Raise e => Raise e
      end
  | _, _ => Ok SAME_ACTUATOR_OPPOSITE
  end.

Definition at_least_safety (category : string) : bool := (priority_of "safety" <=? priority_of category)%Z.

Definition conflict_kind (c : ConflictClassifier) (a b : table) (cat_a cat_b : string) : res ConflictKind :=
  let both_live := String.eqb cat_a "liveness" && String.eqb cat_b "liveness" in
  if negb (String.eqb cat_a "") && negb (String.eqb cat_b "") && negb (String.eqb cat_a cat_b) then
    if xorb (at_least_safety cat_a) (at_least_safety cat_b) then Ok SAFETY_VS_EFFICIENCY
    else if both_live then Ok LIVENESS_VS_LIVENESS
    else _classify_direction c a b
  else if both_live then Ok LIVENESS_VS_LIVENESS
  else _classify_direction c a b.

Definition or_unknown (category : string) : string := if String.eqb category "" then "?" else category.

Definition classify (c : ConflictClassifier) (actuator : string) (a b : table) (intent_a intent_b : string)
  : res Conflict :=
  let cat_a := get_category c intent_a in
  let cat_b := get_category c intent_b in
  match conflict_kind c a b cat_a cat_b with
  | Raise e => Raise e
  | Ok kind =>
      Ok (mkConflict actuator kind a b intent_a intent_b
            (actuator +:+ ": " +:+ kind_value kind +:+ " between " +:+ intent_a +:+ "(" +:+ or_unknown cat_a
             +:+ ") and " +:+ intent_b +:+ "(" +:+ or_unknown cat_b +:+ ")"))
  end.

(** ** What they promise *)

Lemma local_update_get s arm params k :
  local_get (local_update s arm params).2 k =
  if decide (k = arm) then Some (dict_update (default [] (local_get s arm)) params) else local_get s k.
Proof. unfold local_update, local_get. simpl. apply alookup_dict_set. Qed.

(** After an update the local store answers for the arm, remote or not. *)
Lemma adapter_update_local a arm params answer k :
  let r := adapter_update a arm params answer in
  local_get (pa_local r.2) k =
  if decide (k = arm)
  then Some (dict_update (default [] (local_get (pa_local a) arm)) (default params (remote_result a answer)))
  else local_get (pa_local a) k.
Proof.
  unfold adapter_update. destruct (remote_result a answer) as [r|]; simpl; apply alookup_dict_set.
Qed.

(** A target is allowed exactly when a list names it, and the decision is
    recorded as an audit and as evidence. *)
Lemma guard_evaluate_spec allowlist effect target t meta :
  let r := guard_evaluate allowlist effect target t meta in
  (pd_allowed r.1 = true ↔ target ∈ allowlist ∨ target ∈ policy_allowlist meta) ∧
  length (at_audits r.2) = S (length (at_audits t)) ∧
  length (at_evidence r.2) = S (S (length (at_evidence t))).
Proof.
  simpl. split; [|rewrite !length_app; simpl; lia].
  rewrite <- elem_of_app. split; [by intros H%bool_decide_eq_true|by intros; apply bool_decide_eq_true].
Qed.

Lemma apart_sym fa fb : apart (fsub fa fb) = apart (fsub fb fa).
Proof.
  destruct fa, fb; simpl; try done. f_equal.
  destruct (z + - z0 =? 0)%Z eqn:E, (z0 + - z =? 0)%Z eqn:E'; try done; lia.
Qed.

(** No integer is too large for a float. *)
Definition floats (v : json) : Prop := ∀ e, py_float v = Raise e → ∃ m, e = ValueError m ∨ e = TypeError m.

Lemma opposes_sym sa sb key :
  floats (jget key sa) → floats (jget key sb) → opposes sa sb key = opposes sb sa key.
Proof.
  unfold opposes, floats. simpl. generalize (jget key sa) as va, (jget key sb) as vb. intros va vb Ha Hb.
  rewrite (orb_comm (missing vb)). destruct (missing va || missing vb); [done|].
  destruct (py_float va) as [fa|ea], (py_float vb) as [fb|eb].
  - by rewrite (apart_sym fa fb).
  - by destruct (Hb _ eq_refl) as [m [-> | ->]].
  - by destruct (Ha _ eq_refl) as [m [-> | ->]].
  - by destruct (Ha _ eq_refl) as [m [-> | ->]], (Hb _ eq_refl) as [m' [-> | ->]].
Qed.

Definition floats_in (keys : list string) (decision : table) : Prop :=
  ∀ s key, target_state decision = JObj s → key ∈ keys → floats (jget key s).

Lemma any_opposes_sym keys sa sb :
  (∀ key, key ∈ keys → floats (jget key sa) ∧ floats (jget key sb)) →
  any_opposes keys sa sb = any_opposes keys sb sa.
Proof.
  induction keys as [|key keys IH]; intros H; simpl; [done|].
  rewrite opposes_sym by (apply H; by left). rewrite IH; [done|]. intros k Hk. apply H. by right.
Qed.

(** The kind of a conflict does not depend on which decision comes first. *)
Lemma conflict_kind_sym c a b cat_a cat_b :
  floats_in (cc_numeric_keys c) a → floats_in (cc_numeric_keys c) b →
  conflict_kind c a b cat_a cat_b = conflict_kind c b a cat_b cat_a.
Proof.
  intros Ha Hb. assert (_classify_direction c a b = _classify_direction c b a) as Hd.
  { unfold _classify_direction, floats_in in *.
    destruct (target_state a) as [| | | | | |sa], (target_state b) as [| | | | | |sb]; try done.
    rewrite any_opposes_sym; [done|]. intros k Hk. split; [by apply (Ha sa)|by apply (Hb sb)]. }
  unfold conflict_kind. rewrite Hd, (String.eqb_sym cat_b cat_a), (xorb_comm (at_least_safety cat_b)),
    (andb_comm (String.eqb cat_b "liveness")), (andb_comm (negb (String.eqb cat_b ""))). done.
Qed.
End store.
