(* ===== verification/Artifact.v ===== *)
(** * Artifact bodies: their canonical form, their hash, and the decoding of
    fields ([tm/artifacts/normalize.py], [hash.py], the helpers of
    [models.py])

    The hash of a body is the SHA-256 of the JSON text of its canonical form;
    the digest of a canonical value is the only parameter. *)

From S2P Require Import Prelude PyVal PyConv.
From stdpp Require Import base gmap strings list pretty sorting countable.
From Stdlib Require Import ZArith Lia Ascii.

Abbreviation table := (list (string * json)) (only parsing).

(** ** The canonical form *)

Definition CR : ascii := "013".
Definition LF : ascii := "010".

(** Line ends become [LF]. *)
Fixpoint unify_newlines (s : string) : string :=
  match s with
  | EmptyString => EmptyString
  | String c s' =>
      if Ascii.eqb c CR then
        match s' with
        | String c' s'' => if Ascii.eqb c' LF then String LF (unify_newlines s'') else String LF (unify_newlines s')
        | EmptyString => String LF EmptyString
        end
      else String c (unify_newlines s')
  end.

Definition _normalize_string (value : string) : string := strip (unify_newlines value).

Fixpoint _normalize_value (v : json) : json :=
  match v with
  | JStr s => JStr (_normalize_string s)
  | JObj l => JObj (sort_items ((fix go (l : table) : table :=
                match l with [] => [] | (k, v) :: l' => (k, _normalize_value v) :: go l' end) l))
  | JArr l => JArr (_normalize_value <$> l)
  | _ => v
  end.

(** SHA-256 of the JSON text of a canonical value, in hexadecimal: no digest is
    empty or has whitespace. *)
Class BodyDigest := {
  body_digest : json → string;
  body_digest_text v : body_digest v ≠ EmptyString ∧ _normalize_string (body_digest v) = body_digest v
}.

(** Collision freedom. *)
Class InjBodyDigest `{BodyDigest} := body_digest_inj :: Inj (=) (=) body_digest.

Definition body_hash `{BodyDigest} (body : json) : string := body_digest (_normalize_value body).

(** ** Decoding fields *)

Definition _require_field (data : table) (key : string) : res json :=
  match jget key data with
  | JNull => Raise (ValueError ("missing required field: '" +:+ key +:+ "'"))
  | v => Ok v
  end.

Definition _ensure_dict (value : json) (name : string) : res table :=
  match value with JObj m => Ok m | _ => Raise (TypeError (name +:+ " must be a mapping")) end.

Definition _ensure_str (value : json) (name : string) : res string :=
  match value with JStr s => Ok s | _ => Raise (TypeError (name +:+ " must be a string")) end.

Definition _force_list `{PyText} (value : json) (name : string) : res (list string) :=
  match value with
  | JNull => Ok []
  | JArr l => Ok (py_str other_str <$> l)
  | _ => Raise (TypeError (name +:+ " must be a list of strings"))
  end.

Definition _ensure_sequence (value : json) (name : string) : res (list json) :=
  match value with JArr l => Ok l | _ => Raise (TypeError (name +:+ " must be a sequence")) end.

(** A field that may be absent. *)
Definition opt_str (raw : table) (key name : string) : res (option string) :=
  match jget key raw with JNull => Ok None | v => Some <$> _ensure_str v name end.

(** ** A digest without collisions, to evaluate with *)

#[export] Instance pyfloat_countable : Countable pyfloat.
Proof.
  refine (inj_countable'
    (fun f => match f with Fin z => inl z | PInf => inr (Some true) | NInf => inr (Some false) | NaN => inr None end)
    (fun x => match x with inl z => Fin z | inr (Some true) => PInf | inr (Some false) => NInf | inr None => NaN end) _).
  by intros [].
Qed.

Abbreviation leaf := (option bool + (Z + (pyfloat + string)))%type (only parsing).

Fixpoint json_tree (v : json) : gen_tree (option bool + (Z + (pyfloat + string))) :=
  match v with
  | JNull => GenLeaf (inl None)
  | JBool b => GenLeaf (inl (Some b))
  | JInt z => GenLeaf (inr (inl z))
  | JFloat f => GenLeaf (inr (inr (inl f)))
  | JStr s => GenLeaf (inr (inr (inr s)))
  | JArr l => GenNode 0 (json_tree <$> l)
  | JObj l => GenNode 1 ((fix go (l : table) :=
                match l with [] => [] | (k, v) :: l' => GenNode 2 [GenLeaf (inr (inr (inr k))); json_tree v] :: go l' end) l)
  end.

Fixpoint tree_json (t : gen_tree (option bool + (Z + (pyfloat + string)))) : json :=
  match t with
  | GenLeaf (inl None) => JNull
  | GenLeaf (inl (Some b)) => JBool b
  | GenLeaf (inr (inl z)) => JInt z
  | GenLeaf (inr (inr (inl f))) => JFloat f
  | GenLeaf (inr (inr (inr s))) => JStr s
  | GenNode 1 l =>
      JObj ((fix go (l : list (gen_tree (option bool + (Z + (pyfloat + string))))) : table :=
         match l with
         | GenNode _ [GenLeaf (inr (inr (inr k))); v] :: l' => (k, tree_json v) :: go l'
         | _ => []
         end) l)
  | GenNode _ l => JArr (tree_json <$> l)
  end.

Lemma tree_json_tree v : tree_json (json_tree v) = v.
Proof.
  induction v as [|b|z|f|s|l IH|l IH] using json_ind'; simpl; try done.
  - f_equal. induction IH as [|v l Hv _ IH]; [done|]. csimpl. by rewrite Hv, IH.
  - f_equal. induction IH as [|[k v] l Hv _ IH]; simpl; [done|]. simpl in Hv. by rewrite Hv, IH.
Qed.

#[export] Instance json_countable : Countable json := inj_countable' json_tree tree_json tree_json_tree.

(** The number of a value, in binary. *)
Fixpoint bits (p : positive) : string :=
  match p with
  | xH => "1"
  | xO p => String "0" (bits p)
  | xI p => String "1" (bits p)
  end.

Lemma bits_text p :
  bits p ≠ EmptyString ∧ unify_newlines (bits p) = bits p ∧
  str_forall (fun c => negb (is_space c)) (bits p) = true.
Proof.
  induction p as [p (IH0 & IH1 & IH2)|p (IH0 & IH1 & IH2)|]; simpl; rewrite ?IH1; by repeat split.
Qed.

Lemma bits_inj p q : bits p = bits q → p = q.
Proof.
  assert (∀ p, bits p ≠ EmptyString) as Hne by (intros; apply bits_text).
  revert q. induction p as [p IH|p IH|]; intros [q|q|] H; simpl in H; simplify_eq; try done.
  - by rewrite (IH q).
  - by destruct (Hne p).
  - by rewrite (IH q).
  - by destruct (Hne q).
Qed.

Definition number_digest : BodyDigest.
Proof.
  refine {| body_digest v := bits (encode v) |}. intros v.
  destruct (bits_text (encode v)) as (H0 & H1 & H2). split; [done|].
  unfold _normalize_string. by rewrite H1, strip_nospace.
Defined.

Lemma number_digest_inj : @InjBodyDigest number_digest.
Proof. intros v w H. simpl in H. by apply bits_inj, encode_inj in H. Qed.

(** ** The canonical form is canonical *)

Lemma unify_newlines_no_cr s : str_forall (fun c => negb (Ascii.eqb c CR)) (unify_newlines s) = true.
Proof.
  remember (String.length s) as n eqn:Hn. revert s Hn.
  induction (lt_wf n) as [n _ IH]. intros [|c s] ->; simpl; [done|].
  destruct (Ascii.eqb c CR) eqn:Ec; simpl; [|rewrite Ec; simpl; apply (IH (String.length s)); [simpl; lia|done]].
  destruct s as [|c' s']; [done|]. destruct (Ascii.eqb c' LF); simpl.
  - apply (IH (String.length s')); [simpl; lia|done].
  - apply (IH (String.length (String c' s')) ltac:(simpl; lia) (String c' s') eq_refl).
Qed.

Lemma unify_newlines_id s : str_forall (fun c => negb (Ascii.eqb c CR)) s = true → unify_newlines s = s.
Proof.
  induction s as [|c s IH]; simpl; [done|]. intros [Hc Hs]%andb_true_iff.
  apply negb_true_iff in Hc. by rewrite Hc, IH.
Qed.

Lemma str_forall_lstrip p s : str_forall p s = true → str_forall p (lstrip s) = true.
Proof.
  induction s as [|c s IH]; simpl; [done|]. intros [Hc Hs]%andb_true_iff.
  destruct (is_space c); [by apply IH|]. simpl. by rewrite Hc.
Qed.

Lemma str_forall_rstrip p s : str_forall p s = true → str_forall p (rstrip s) = true.
Proof.
  induction s as [|c s IH]; simpl; [done|]. intros [Hc Hs]%andb_true_iff. specialize (IH Hs).
  destruct (rstrip s) as [|c' r]; simpl in *; [|by rewrite Hc, IH].
  destruct (is_space c); simpl; [done|by rewrite Hc].
Qed.

Lemma _normalize_string_idem s : _normalize_string (_normalize_string s) = _normalize_string s.
Proof.
  unfold _normalize_string. rewrite unify_newlines_id, strip_idem; [done|].
  unfold strip. apply str_forall_rstrip, str_forall_lstrip, unify_newlines_no_cr.
Qed.
