(* ===== verification/Profile.v ===== *)
(** * Dimensions, profiles and dispositions ([tm/intent/completeness.py], lines
      29 to 335, [uncertainty.py])

    The six dimensions of a requirement and the profiles that say how
    strongly each is required.  A profile may extend another one; profile
    files are a parameter. *)

From S2P Require Import Prelude PyVal PyConv.
From stdpp Require Import base gmap strings list pretty.
From Stdlib Require Import ZArith Lia Ascii.

Abbreviation table := (list (string * json)) (only parsing).

Inductive Dimension : Type := WHO | WHY | WHAT | WHEN | WHERE | HOW.

#[export] Instance Dimension_eq_dec : EqDecision Dimension.
Proof. solve_decision. Defined.

Definition ALL_DIMENSIONS : list Dimension := [WHO; WHY; WHAT; WHEN; WHERE; HOW].

Definition dim_value (d : Dimension) : string :=
  match d with
  | WHO => "who" | WHY => "why" | WHAT => "what" | WHEN => "when" | WHERE => "where" | HOW => "how"
  end.

Inductive DimStatus : Type := SATISFIED | PARTIAL | MISSING | NOT_APPLICABLE.

#[export] Instance DimStatus_eq_dec : EqDecision DimStatus.
Proof. solve_decision. Defined.

Definition status_value (s : DimStatus) : string :=
  match s with
  | SATISFIED => "satisfied" | PARTIAL => "partial" | MISSING => "missing" | NOT_APPLICABLE => "not_applicable"
  end.

Inductive Severity : Type := ERROR | WARN | OFF.

#[export] Instance Severity_eq_dec : EqDecision Severity.
Proof. solve_decision. Defined.

Definition severity_value (s : Severity) : string :=
  match s with ERROR => "error" | WARN => "warn" | OFF => "off" end.

Inductive Mode : Type := DESIGN | SEAL.

#[export] Instance Mode_eq_dec : EqDecision Mode.
Proof. solve_decision. Defined.

Definition mode_value (m : Mode) : string := match m with DESIGN => "design" | SEAL => "seal" end.

Definition _HEURISTIC_LEXICON (d : Dimension) : list string :=
  match d with
  | WHO => ["user"; "actor"; "agent"; "operator"; "service"; "role"; "client";
            "用户"; "代理"; "操作员"; "角色"; "服务"; "客户"]
  | WHY => ["because"; "in order to"; "objective"; "purpose"; "motivation"; "rationale";
            "目标"; "为了"; "因为"; "目的"; "动机"; "理由"]
  | WHAT => ["input"; "output"; "produce"; "generate"; "compute"; "transform"; "result";
             "输入"; "输出"; "生成"; "产出"; "计算"; "转换"; "结果"]
  | WHEN => ["when"; "trigger"; "every"; "periodic"; "schedule"; "interval"; "liveness";
             "deadline"; "timeout"; "after "; "before "; "on event"; "eventually"; "real-time";
             "周期"; "触发"; "每"; "定时"; "超时"; "之后"; "之前"; "时序"; "实时"; "最终"]
  | WHERE => ["scope"; "namespace"; "cluster"; "region"; "topology"; "network"; "boundary";
              "node"; "tenant"; "partition"; "environment";
              "作用域"; "命名空间"; "集群"; "拓扑"; "节点"; "区域"; "租户"; "边界"; "环境"; "分区"]
  | HOW => ["via"; "using"; "by means"; "approach"; "mechanism"; "pattern"; "strategy";
            "通过"; "使用"; "方式"; "机制"; "手段"; "策略"]
  end.

Definition default_severity (d : Dimension) : Severity :=
  match d with WHO | WHY | WHAT | HOW => ERROR | WHEN | WHERE => WARN end.

Definition _DEFAULT_SEVERITIES : list (Dimension * Severity) :=
  (fun d => (d, default_severity d)) <$> ALL_DIMENSIONS.

(** ** Profiles *)

(** Dictionaries by dimension. *)
Fixpoint dlookup {V} (d : Dimension) (m : list (Dimension * V)) : option V :=
  match m with
  | [] => None
  | (d', v) :: m => if decide (d = d') then Some v else dlookup d m
  end.

Fixpoint dset {V} (d : Dimension) (v : V) (m : list (Dimension * V)) : list (Dimension * V) :=
  match m with
  | [] => [(d, v)]
  | (d', x) :: m => if decide (d = d') then (d, v) :: m else (d', x) :: dset d v m
  end.

Record Profile : Type := mkProfile {
  p_id : string;
  p_domain : option string;
  p_severities : list (Dimension * Severity);
  p_required_slots : list string;
  p_vocabulary_hints : list (Dimension * string);
  p_heuristic_keywords : list (Dimension * list string);
  p_required_slots_dimension : Dimension
}.

Definition severity (p : Profile) (d : Dimension) : Severity :=
  default (default_severity d) (dlookup d (p_severities p)).

Definition hint (p : Profile) (d : Dimension) : option string := dlookup d (p_vocabulary_hints p).

Definition keywords (p : Profile) (d : Dimension) : list string :=
  append_new [] (_HEURISTIC_LEXICON d ++ default [] (dlookup d (p_heuristic_keywords p))).

Section profiles.
Context {PT : PyText}.

#[local] Abbreviation str := (py_str other_str).

Definition parse_dimension (text : string) : option Dimension :=
  List.find (fun d => String.eqb (dim_value d) (str_lower (strip text))) ALL_DIMENSIONS.

Definition _coerce_dimension (raw : string) : res Dimension :=
  match parse_dimension raw with
  | Some d => Ok d
  | None => Raise (ValueError ("unknown 5W1H dimension '" +:+ raw +:+ "'"))
  end.

(** YAML reads a bare [off] as false. *)
Definition _coerce_severity (raw : json) : res Severity :=
  match raw with
  | JBool false => Ok OFF
  | JBool true => Raise (ValueError "severity 'on'/True is not valid; use error/warn/off")
  | _ =>
      match List.find (fun s => String.eqb (severity_value s) (str_lower (strip (str raw)))) [ERROR; WARN; OFF] with
      | Some s => Ok s
      | None => Raise (ValueError ("unknown severity '" +:+ str raw +:+ "'"))
      end
  end.

(** [raw.get(key) or {}], which must be a mapping. *)
Definition section_of (raw : table) (label key : string) : res table :=
  match jor (jget key raw) (JObj []) with
  | JObj m => Ok m
  | _ => Raise (ValueError (label +:+ ": " +:+ key +:+ " must be a mapping"))
  end.

Fixpoint read_severities (l : table) (m : list (Dimension * Severity)) : res (list (Dimension * Severity)) :=
  match l with
  | [] => Ok m
  | (k, v) :: l =>
      match _coerce_dimension k with
      | Raise e => Raise e
      | Ok d => match _coerce_severity v with Raise e => Raise e | Ok s => read_severities l (dset d s m) end
      end
  end.

Fixpoint read_hints (l : table) (m : list (Dimension * string)) : res (list (Dimension * string)) :=
  match l with
  | [] => Ok m
  | (k, v) :: l =>
      match _coerce_dimension k with Raise e => Raise e | Ok d => read_hints l (dset d (str v) m) end
  end.

(** A keyword, stripped and in lower case; an empty one is dropped. *)
Definition keyword (v : json) : option string :=
  let s := str_lower (strip (str v)) in if String.eqb s "" then None else Some s.

Fixpoint read_keywords (label : string) (l : table) (m : list (Dimension * list string))
  : res (list (Dimension * list string)) :=
  match l with
  | [] => Ok m
  | (k, JArr kws) :: l =>
      match _coerce_dimension k with
      | Raise e => Raise e
      | Ok d => read_keywords label l (dset d (append_new (default [] (dlookup d m)) (omap keyword kws)) m)
      end
  | (k, _) :: _ => Raise (ValueError (label +:+ ": heuristic_keywords." +:+ k +:+ " must be a list"))
  end.

Definition read_slots (label : string) (raw : table) (slots : list string) : res (list string) :=
  match jor (jget "required_slots" raw) (JArr []) with
  | JArr l => Ok (append_new slots (str <$> l))
  | _ => Raise (ValueError (label +:+ ": required_slots must be a list"))
  end.

Definition read_domain (v : json) : option string :=
  match v with
  | JNull => None
  | JStr s => if String.eqb s "" || String.eqb s "null" then None else Some s
  | _ => Some (str v)
  end.

(** What a profile without a parent starts from. *)
Definition root_profile : Profile := mkProfile "" None _DEFAULT_SEVERITIES [] [] [] WHAT.

(** The fields of [raw] on top of the parent's. *)
Definition layer (raw : table) (profile_id label : string) (parent : Profile) : res Profile :=
  match section_of raw label "severity_overrides" with
  | Raise e => Raise e
  | Ok overrides =>
  match read_severities overrides (p_severities parent) with
  | Raise e => Raise e
  | Ok severities =>
  match read_slots label raw (p_required_slots parent) with
  | Raise e => Raise e
  | Ok slots =>
  match section_of raw label "vocabulary_hints" with
  | Raise e => Raise e
  | Ok hints_raw =>
  match read_hints hints_raw (p_vocabulary_hints parent) with
  | Raise e => Raise e
  | Ok hints =>
  match section_of raw label "heuristic_keywords" with
  | Raise e => Raise e
  | Ok kw_raw =>
  match read_keywords label kw_raw (p_heuristic_keywords parent) with
  | Raise e => Raise e
  | Ok kws =>
  match (match jget "required_slots_dimension" raw with
         | JNull => Ok (p_required_slots_dimension parent)
         | v => _coerce_dimension (str v)
         end) with
  | Raise e => Raise e
  | Ok rsd => Ok (mkProfile profile_id (read_domain (jget "domain" raw)) severities slots hints kws rsd)
  end end end end end end end end.

(** ** Profile files *)

(** What a name resolves to from a directory: the file's stem, its directory,
    its label and its document. *)
Record profile_file : Type := mkFile {
  pf_stem : string;
  pf_dir : string;
  pf_label : string;
  pf_document : json
}.

Context (files : string → string → option profile_file).

Definition profile_id_of (f : profile_file) (raw : table) : string :=
  str (jor (jget "profile_id" raw) (JStr (pf_stem f))).

(** [load_profile], with the names seen on the way. *)
Fixpoint load_profile (fuel : nat) (name base_dir : string) (seen : list string) : fueled Profile :=
  match fuel with
  | O => None
  | S fuel =>
      match files base_dir name with
      | None => Some (Raise (ValueError ("5W1H profile not found: '" +:+ name +:+ "'")))
      | Some f =>
          match pf_document f with
          | JObj raw =>
              let profile_id := profile_id_of f raw in
              let extends := jget "extends" raw in
              if truthy extends then
                let ext_name := str extends in
                if String.eqb ext_name profile_id || bool_decide (ext_name ∈ seen)
                then Some (Raise (ValueError ("profile extends cycle detected involving '" +:+ ext_name +:+ "'")))
                else
                  let! parent := load_profile fuel ext_name (pf_dir f) (profile_id :: seen) in
                  Some (layer raw profile_id (pf_label f) parent)
              else Some (layer raw profile_id (pf_label f) root_profile)
          | _ => Some (Raise (ValueError (pf_label f +:+ ": profile must be a YAML mapping")))
          end
      end
  end.

(** [load_profile_from_mapping]. *)
Definition load_profile_from_mapping (fuel : nat) (raw : table) (base_dir : string) : fueled Profile :=
  let profile_id := str (jor (jget "profile_id" raw) (JStr "")) in
  if String.eqb profile_id "" then Some (Raise (ValueError "profile_id is required to resolve a profile mapping"))
  else
    let label := "profile '" +:+ profile_id +:+ "'" in
    let extends := jget "extends" raw in
    if truthy extends then
      let ext_name := str extends in
      if String.eqb ext_name profile_id
      then Some (Raise (ValueError ("profile extends cycle detected involving '" +:+ ext_name +:+ "'")))
      else
        let! parent := load_profile fuel ext_name base_dir [profile_id] in
        Some (layer raw profile_id label parent)
    else Some (layer raw profile_id label root_profile).

(** ** Loading returns *)

(** Every file is known by the id it declares, and there are finitely many. *)
Definition ids_match (names : list string) : Prop :=
  ∀ dir name f, files dir name = Some f →
    name ∈ names ∧ ∀ raw, pf_document f = JObj raw → profile_id_of f raw = name.

Lemma load_profile_total names fuel name dir seen :
  ids_match names → NoDup seen → name ∉ seen → seen ⊆ names →
  length names - length seen < fuel → is_Some (load_profile fuel name dir seen).
Proof.
  intros Hids. revert name dir seen. induction fuel as [|fuel IH]; intros name dir seen Hnd Hns Hsub Hf; [lia|].
  simpl. destruct (files dir name) as [f|] eqn:Ef; [|by eexists].
  destruct (Hids _ _ _ Ef) as [Hin Hid].
  destruct (pf_document f) as [| | | | | |raw]; try by eexists.
  specialize (Hid raw eq_refl). rewrite Hid.
  destruct (truthy (jget "extends" raw)); [|by eexists].
  destruct (String.eqb_spec (str (jget "extends" raw)) name) as [|Hne]; [by eexists|].
  destruct (decide (str (jget "extends" raw) ∈ seen)) as [Hs|Hs].
  { rewrite bool_decide_true by done. by eexists. }
  rewrite bool_decide_false by done. simpl.
  assert (length (name :: seen) ≤ length names) as Hle.
  { apply submseteq_length, NoDup_submseteq; [by constructor|]. intros x [->|Hx]%elem_of_cons; auto. }
  destruct (IH (str (jget "extends" raw)) (pf_dir f) (name :: seen)) as [r Hr].
  - by constructor.
  - intros [?|?]%elem_of_cons; done.
  - intros x [->|Hx]%elem_of_cons; auto.
  - simpl in *. lia.
  - rewrite Hr. destruct r; by eexists.
Qed.
End profiles.

(** With profile files known by the ids they declare, loading a profile
    always returns, whatever the files extend: a cycle is an error. *)
Theorem load_profile_returns `{PyText} files names name dir :
  ids_match files names → is_Some (load_profile files (S (length names)) name dir []).
Proof.
  intros Hids. apply (load_profile_total files names); try done; simpl; [constructor|set_solver|set_solver|lia].
Qed.

(** A library of two profiles that extend each other. *)
Definition library (id_a id_b : string) (dir name : string) : option profile_file :=
  if String.eqb name "a" then Some (mkFile "a" "" "a.yaml" (JObj [("profile_id", JStr id_a); ("extends", JStr "b")]))
  else if String.eqb name "b" then Some (mkFile "b" "" "b.yaml" (JObj [("profile_id", JStr id_b); ("extends", JStr "a")]))
  else None.

Lemma load_profile_returns_witness :
  is_Some (@load_profile plain_text (library "a" "b") 3 "a" "" []) ∧
  @load_profile plain_text (library "a" "b") 3 "a" "" [] =
    Some (Raise (ValueError "profile extends cycle detected involving 'a'")).
Proof.
  split; [|reflexivity]. apply (@load_profile_returns plain_text (library "a" "b") ["a"; "b"] "a" "").
  intros dir name f. unfold library.
  destruct (String.eqb_spec name "a") as [->|]; [|destruct (String.eqb_spec name "b") as [->|]; [|discriminate]];
    intros [= <-]; (split; [set_solver|]); by intros raw [= <-].
Defined.

(** The guard remembers profile ids and looks for file names: when they
    differ it never sees the cycle. *)
Lemma load_profile_unguarded fuel seen :
  "a" ∉ seen → "b" ∉ seen →
  @load_profile plain_text (library "x" "y") fuel "a" "" seen = None ∧
  @load_profile plain_text (library "x" "y") fuel "b" "" seen = None.
Proof.
  revert seen. induction fuel as [|fuel IH]; intros seen Ha Hb; [done|].
  destruct (IH ("x" :: seen)) as [_ Hx]; [set_solver..|].
  destruct (IH ("y" :: seen)) as [Hy _]; [set_solver..|].
  split; simpl; unfold profile_id_of; simpl; rewrite bool_decide_false by done; simpl in *.
  - by rewrite Hx.
  - by rewrite Hy.
Qed.

(** ** Dispositions of uncertainty ([tm/intent/uncertainty.py])

    How a dimension that is not satisfied is closed when a requirement is
    sealed, and the registry of resolvers a dynamic one may name. *)

From S2P Require Import Prelude PyVal PyConv.
From stdpp Require Import base gmap strings list pretty.
From Stdlib Require Import ZArith Lia.

Inductive DispositionKind : Type := RESOLVED | WAIVED | DYNAMIC.

#[export] Instance DispositionKind_eq_dec : EqDecision DispositionKind.
Proof. solve_decision. Defined.

Definition kind_text (k : DispositionKind) : string :=
  match k with RESOLVED => "resolved" | WAIVED => "waived" | DYNAMIC => "dynamic" end.

Record Disposition : Type := mkDisposition {
  d_kind : DispositionKind;
  d_rationale : option string;
  d_signer : option string;
  d_uncertainty_registry_ref : option string;
  d_resolver_ref : option string;
  d_schema : option table
}.

(** A field that is written when it is there. *)
Definition opt_field (key : string) (v : option json) : table :=
  match v with Some v => [(key, v)] | None => [] end.

Definition disposition_to_dict (d : Disposition) : table :=
  [("kind", JStr (kind_text (d_kind d)))] ++
  opt_field "rationale" (JStr <$> d_rationale d) ++
  opt_field "signer" (JStr <$> d_signer d) ++
  opt_field "uncertainty_registry_ref" (JStr <$> d_uncertainty_registry_ref d) ++
  opt_field "resolver_ref" (JStr <$> d_resolver_ref d) ++
  opt_field "schema" (JObj <$> d_schema d).

(** ** Resolvers *)

(** The names of the registry; their functions run elsewhere. *)
Abbreviation registry := (list string) (only parsing).

Definition register_resolver (reg : list string) (name : string) : res (list string) :=
  let key := strip name in
  if String.eqb key "" then Raise (ValueError "resolver name must be non-empty")
  else Ok (if decide (key ∈ reg) then reg else reg ++ [key]).

Definition is_registered_resolver (reg : list string) (ref : option string) : bool :=
  match ref with
  | Some r => negb (String.eqb r "") && bool_decide (r ∈ reg)
  | None => false
  end.

Definition registered_resolvers (reg : list string) : list string := sort_strings reg.

(** The registry the module starts with. *)
Definition initial_registry : list string := ["constant"].

Definition _constant_resolver (schema : table) : res json :=
  match alookup "value" schema with
  | Some v => Ok v
  | None => Raise (ValueError "constant resolver requires schema.value")
  end.

(** ** Parsing and validation *)

Section parsing.
Context {PT : PyText}.

#[local] Abbreviation str := (py_str other_str).

Definition _opt_str (v : json) : option string :=
  match v with
  | JNull => None
  | _ => let text := strip (str v) in if String.eqb text "" then None else Some text
  end.

Definition parse_kind (text : string) : option DispositionKind :=
  List.find (fun k => String.eqb (kind_text k) (str_lower (strip text))) [RESOLVED; WAIVED; DYNAMIC].

Definition parse_disposition (raw : json) : res Disposition :=
  match raw with
  | JObj m =>
      match parse_kind (str (jget "kind" m)) with
      | None => Raise (ValueError ("unknown disposition kind '" +:+ str (jget "kind" m) +:+ "'"))
      | Some kind =>
          match (match jget "schema" m with
                 | JNull => Ok None
                 | JObj s => Ok (Some s)
                 | _ => Raise (ValueError "disposition.schema must be a mapping")
                 end) with
          | Raise e => Raise e
          | Ok schema =>
              Ok (mkDisposition kind (_opt_str (jget "rationale" m)) (_opt_str (jget "signer" m))
                    (_opt_str (jget "uncertainty_registry_ref" m)) (_opt_str (jget "resolver_ref" m)) schema)
          end
      end
  | _ => Raise (ValueError "disposition must be a mapping")
  end.

Fixpoint parse_dispositions (payload : table) (out : list (Dimension * Disposition))
  : res (list (Dimension * Disposition)) :=
  match payload with
  | [] => Ok out
  | (k, raw) :: payload =>
      match parse_dimension k with
      | None => Raise (ValueError ("unknown 5W1H dimension '" +:+ k +:+ "' in dispositions"))
      | Some d =>
          match parse_disposition raw with
          | Raise e => Raise e
          | Ok disp => parse_dispositions payload (dset d disp out)
          end
      end
  end.

(** The Python text of the list of registered names, [str(list(...))]. *)
Definition names_text (reg : list string) : string := str (JArr (JStr <$> registered_resolvers reg)).

(** A text that is there and not empty. *)
Definition given (o : option string) : bool :=
  match o with Some s => negb (String.eqb s "") | None => false end.

Definition validate_disposition (reg : list string) (d : Disposition) : list string :=
  match d_kind d with
  | WAIVED =>
      (if given (d_rationale d) then [] else ["waived disposition requires a rationale"]) ++
      (if given (d_signer d) then [] else ["waived disposition requires a signer"])
  | DYNAMIC =>
      if negb (given (d_resolver_ref d)) then ["dynamic disposition requires resolver_ref"]
      else if is_registered_resolver reg (d_resolver_ref d) then []
      else ["resolver_ref '" +:+ default "" (d_resolver_ref d) +:+ "' is not a registered deterministic resolver (registered: "
            +:+ names_text reg +:+ ")"]
  | RESOLVED => []
  end.

(** What a disposition must carry to be accepted. *)
Definition accountable (reg : list string) (d : Disposition) : Prop :=
  match d_kind d with
  | WAIVED => given (d_rationale d) = true ∧ given (d_signer d) = true
  | DYNAMIC => ∃ r, d_resolver_ref d = Some r ∧ r ∈ reg
  | RESOLVED => True
  end.

Lemma validate_disposition_nil reg d : validate_disposition reg d = [] → accountable reg d.
Proof.
  unfold validate_disposition, accountable. destruct (d_kind d); [done| |].
  - destruct (given (d_rationale d)), (given (d_signer d)); done.
  - destruct (d_resolver_ref d) as [r|]; simpl; [|done]. intros H.
    destruct (String.eqb r ""); simpl in H; [done|]. destruct (bool_decide_reflect (r ∈ reg)); [eauto|done].
Qed.

(** Only names that were registered resolve. *)
Lemma register_resolver_spec reg name reg' r :
  register_resolver reg name = Ok reg' → r ∈ reg' ↔ r ∈ reg ∨ r = strip name.
Proof.
  unfold register_resolver. destruct (String.eqb (strip name) ""); [done|]. intros [= <-].
  case_decide; [naive_solver|]. rewrite elem_of_app, list_elem_of_singleton. naive_solver.
Qed.
End parsing.
