(* ===== verification/Completeness.v ===== *)
(** * 5W1H completeness of a requirement ([tm/intent/completeness.py], lines
    372 to 713)

    Each dimension is judged from the fields of the intent, its plan and its
    network; in design mode a word of the prose softens a missing one, in
    seal mode only a structured field or an accountable disposition closes
    it.  Documents come as values; the categories of the property patterns
    are an argument. *)

From S2P Require Import Prelude PyVal PyConv State Profile.
From stdpp Require Import base gmap strings list pretty.
From Stdlib Require Import ZArith Lia Ascii.

(** ** Evidence *)

(** [len(text)] of a text in UTF-8: bytes that do not continue a character. *)
Definition starts_char (c : ascii) : bool :=
  let n := nat_of_ascii c in ((n <? 128) || (192 <=? n))%nat.

Fixpoint text_length (s : string) : nat :=
  match s with
  | EmptyString => 0
  | String c s' => (if starts_char c then 1 else 0) + text_length s'
  end.

Definition py_len (v : json) : res nat :=
  match v with
  | JStr s => Ok (text_length s)
  | JArr l => Ok (length l)
  | JObj m => Ok (length m)
  | _ => Raise (TypeError "object has no len()")
  end.

Definition _nonempty (v : json) : bool :=
  match v with
  | JNull => false
  | JStr s => negb (String.eqb (strip s) "")
  | JArr l => match l with [] => false | _ => true end
  | JObj m => match m with [] => false | _ => true end
  | _ => true
  end.

(** Status, evidence and reason. *)
Abbreviation judgment := (DimStatus * list string * option string)%type (only parsing).

(** [f"{name}[{len(v)}]"]. *)
Definition counted (name : string) (v : json) : res string :=
  match py_len v with Ok n => Ok (name +:+ "[" +:+ pretty n +:+ "]") | Raise e => Raise e end.

Definition starts_with (p s : string) : bool := String.prefix p s.

(** [needle in text]. *)
Fixpoint contains (needle text : string) : bool :=
  String.prefix needle text ||
  match text with EmptyString => false | String _ text' => contains needle text' end.

Section completeness.
Context {PT : PyText}.

#[local] Abbreviation str := (py_str other_str).

Definition _slot_keys (slot_fills : json) : res (list string) :=
  match slot_fills with
  | JObj m => Ok (m ≫= fun kv => match kv.2 with JObj sm => sm.*1 | _ => [] end)
  | _ => Raise (AttributeError "object has no attribute 'values'")
  end.

Definition slot_keys_of (body : table) : res (list string) := _slot_keys (jor (jget "slot_fills" body) (JObj [])).

Definition _eval_who (body : table) : res (DimStatus * list string * option string) :=
  let actors := jor (jget "actors" body) (JArr []) in
  if _nonempty actors then
    match counted "actors" actors with Ok e => Ok (SATISFIED, [e], None) | Raise e => Raise e end
  else Ok (MISSING, [], Some "no actors declared (Who)").

Definition _eval_why (body : table) : DimStatus * list string * option string :=
  let context_ok := _nonempty (jget "context" body) in
  let goal_ok := _nonempty (jget "goal" body) in
  if context_ok && goal_ok then (SATISFIED, ["context"; "goal"], None)
  else if context_ok || goal_ok
  then (PARTIAL, [if context_ok then "context" else "goal"], Some "Why needs both context and goal")
  else (MISSING, [], Some "no context/goal (Why)").

(** The evidence of a field that is not empty. *)
Definition field_evidence (name : string) (v : json) : res (list string) :=
  if _nonempty v then match counted name v with Ok e => Ok [e] | Raise e => Raise e end else Ok [].

Definition _eval_what (body : table) : res (DimStatus * list string * option string) :=
  let inputs := jor (jget "inputs" body) (JArr []) in
  let outputs := jor (jget "outputs" body) (JArr []) in
  if negb (_nonempty (jget "goal" body)) then Ok (MISSING, [], Some "no goal (What)")
  else
    match field_evidence "inputs" inputs with
    | Raise e => Raise e
    | Ok ei =>
        match field_evidence "outputs" outputs with
        | Raise e => Raise e
        | Ok eo =>
            if _nonempty inputs || _nonempty outputs then Ok (SATISFIED, "goal" :: ei ++ eo, None)
            else Ok (PARTIAL, ["goal"], Some "What needs at least one of inputs/outputs")
        end
    end.

(** The first rule of a plan with triggers, by its name. *)
Definition triggered_rule (rules : list json) : option string :=
  head (omap (fun rule =>
    match rule with
    | JObj m => if _nonempty (jget "triggers" m) then Some (str (default (JStr "?") (alookup "name" m))) else None
    | _ => None
    end) rules).

Definition plan_evidence (plan : option table) : res (option string) :=
  match plan with
  | None => Ok None
  | Some p =>
      match py_iter (jor (jget "rules" p) (JArr [])) with
      | Raise e => Raise e
      | Ok rules => Ok ((fun n => "plan:rule." +:+ n +:+ ".triggers") <$> triggered_rule rules)
      end
  end.

Definition liveness_ref (categories : list (string * string)) (refs : list json) : option string :=
  List.find (fun r => match alookup r categories with Some c => String.eqb c "liveness" | None => false end) (str <$> refs).

Definition _eval_when (body : table) (plan : option table) (categories : list (string * string))
  : res (DimStatus * list string * option string) :=
  match plan_evidence plan with
  | Raise e => Raise e
  | Ok (Some e) => Ok (SATISFIED, [e], None)
  | Ok None =>
      match py_iter (jor (jget "property_pattern_refs" body) (JArr [])) with
      | Raise e => Raise e
      | Ok refs =>
          match liveness_ref categories refs with
          | Some r => Ok (SATISFIED, ["pattern:" +:+ r +:+ ":liveness"], None)
          | None =>
              match slot_keys_of body with
              | Raise e => Raise e
              | Ok keys =>
                  match List.find (starts_with "when_") keys with
                  | Some k => Ok (SATISFIED, ["slot_fills." +:+ k], None)
                  | None => Ok (MISSING, [], Some "no linked Plan with triggers, no liveness PropertyPattern, and no when_* slot (When)")
                  end
              end
          end
      end
  end.

Definition _eval_where (body : table) (network : option table) : res (DimStatus * list string * option string) :=
  let network_id := match network with Some n => jget "network_id" n | None => JNull end in
  if _nonempty network_id then Ok (SATISFIED, ["network:" +:+ str network_id], None)
  else
    match slot_keys_of body with
    | Raise e => Raise e
    | Ok keys =>
        match List.find (fun k => String.eqb k "domain" || starts_with "where_" k) keys with
        | Some k => Ok (SATISFIED, ["slot_fills." +:+ k], None)
        | None => Ok (MISSING, [], Some "no AgentNetwork and no domain/where_* slot (Where)")
        end
    end.

Definition _eval_how (body : table) : res (DimStatus * list string * option string) :=
  let refs := jor (jget "property_pattern_refs" body) (JArr []) in
  if _nonempty refs then
    match counted "property_pattern_refs" refs with Ok e => Ok (SATISFIED, [e], None) | Raise e => Raise e end
  else Ok (MISSING, [], Some "no property_pattern_refs (How)").

(** ** Prose *)

Fixpoint join_lines (parts : list string) : string :=
  match parts with
  | [] => EmptyString
  | [p] => p
  | p :: parts => p +:+ String "010" (join_lines parts)
  end.

Definition _prose_text (body : table) : string :=
  let text key := match jget key body with JStr s => [s] | _ => [] end in
  let items key := match jget key body with JArr l => str <$> l | _ => [] end in
  str_lower (join_lines
    (text "title" ++ text "context" ++ text "goal" ++
     items "assumptions" ++ items "constraints" ++ items "non_goals")).

Definition _scan_prose (body : table) (d : Dimension) (p : Profile) : option string :=
  List.find (fun kw => contains kw (_prose_text body)) (keywords p d).

Definition _missing_required_slots (body : table) (p : Profile) : res (list string) :=
  match p_required_slots p with
  | [] => Ok []
  | slots =>
      match slot_keys_of body with
      | Raise e => Raise e
      | Ok present => Ok (filter (fun s => s ∉ present) slots)
      end
  end.

(** ** Verdicts *)

Record DimensionVerdict : Type := mkVerdict {
  dv_dimension : Dimension;
  dv_status : DimStatus;
  dv_severity : Severity;
  dv_evidence : list string;
  dv_missing_reason : option string;
  dv_suggestion : option string
}.

Definition jopt (o : option string) : json := match o with Some s => JStr s | None => JNull end.

Definition verdict_to_dict (v : DimensionVerdict) : table :=
  [("status", JStr (status_value (dv_status v))); ("severity", JStr (severity_value (dv_severity v)));
   ("evidence", JArr (JStr <$> dv_evidence v)); ("missing_reason", jopt (dv_missing_reason v));
   ("suggestion", jopt (dv_suggestion v))].

Definition raw_status (body : table) (plan network : option table) (categories : list (string * string))
    (d : Dimension) : res (DimStatus * list string * option string) :=
  match d with
  | WHO => _eval_who body
  | WHY => Ok (_eval_why body)
  | WHAT => _eval_what body
  | WHEN => _eval_when body plan categories
  | WHERE => _eval_where body network
  | HOW => _eval_how body
  end.

(** [a or b] on texts that may be missing. *)
Definition or_text (a b : option string) : option string := if given a then a else b.

Definition judge_dimension (mode : Mode) (p : Profile) (body : table) (d : Dimension)
    (j : DimStatus * list string * option string) : DimensionVerdict :=
  let '(status, evidence, reason) := j in
  let sev := severity p d in
  if decide (sev = OFF) then mkVerdict d NOT_APPLICABLE sev [] None None
  else
    let found :=
      if decide (mode = DESIGN ∧ status = MISSING) then _scan_prose body d p else None in
    let status' := match found with Some _ => PARTIAL | None => status end in
    let evidence' := match found with Some kw => ["heuristic:" +:+ kw] | None => evidence end in
    mkVerdict d status' sev evidence'
      (if decide (status' = SATISFIED) then None else reason)
      (match found with
       | Some kw => Some ("prose hint '" +:+ kw +:+ "' found; formalize into a structured " +:+ dim_value d +:+ " field before seal")
       | None => if decide (status' = SATISFIED) then None else or_text (hint p d) reason
       end).

Fixpoint join_with (sep : string) (parts : list string) : string :=
  match parts with
  | [] => EmptyString
  | [p] => p
  | p :: parts => p +:+ sep +:+ join_with sep parts
  end.

(** A missing required slot degrades the dimension the profile designates. *)
Definition degrade (p : Profile) (missing : list string) (v : DimensionVerdict) : DimensionVerdict :=
  match missing with
  | [] => v
  | _ =>
      if decide (dv_dimension v = p_required_slots_dimension p ∧ dv_severity v ≠ OFF) then
        let names := join_with ", " missing in
        let note := "missing required slot(s): " +:+ names in
        mkVerdict (dv_dimension v)
          (if decide (dv_status v = SATISFIED) then PARTIAL else dv_status v)
          (dv_severity v) (dv_evidence v)
          (Some (if given (dv_missing_reason v) then default "" (dv_missing_reason v) +:+ "; " +:+ note else note))
          (or_text (dv_suggestion v) (Some ("fill required slot(s) under slot_fills: " +:+ names)))
      else v
  end.

Definition satisfied (v : DimensionVerdict) : bool :=
  match dv_status v with SATISFIED | NOT_APPLICABLE => true | _ => false end.

(** ** Closing *)

(** Whether a disposition closes a dimension that is not satisfied, and why not. *)
Definition closure (reg : list string) (disp : option Disposition) (v : DimensionVerdict) : bool * option string :=
  match disp with
  | Some d =>
      if satisfied v then (true, None)
      else
        match validate_disposition reg d with
        | _ :: _ as errors => (false, Some (join_with "; " errors))
        | [] =>
            if decide (d_kind d = RESOLVED)
            then (false, Some "marked resolved but dimension is not structurally satisfied")
            else (true, None)
        end
  | None => (satisfied v, None)
  end.

(** What one dimension adds to the errors and to the warnings. *)
Definition dim_errors (mode : Mode) (closed : bool) (v : DimensionVerdict) : nat :=
  if satisfied v then 0
  else
    match dv_severity v with
    | ERROR =>
        match mode with
        | DESIGN => if decide (dv_status v = MISSING) then 1 else 0
        | SEAL => if closed then 0 else 1
        end
    | _ => 0
    end.

Definition dim_warnings (mode : Mode) (v : DimensionVerdict) : nat :=
  if satisfied v then 0
  else
    match dv_severity v with
    | ERROR => match mode with DESIGN => if decide (dv_status v = MISSING) then 0 else 1 | SEAL => 0 end
    | WARN => 1
    | OFF => 0
    end.

Record CompletenessReport : Type := mkReport {
  cr_profile : string;
  cr_mode : Mode;
  cr_intent_id : string;
  cr_verdicts : list DimensionVerdict;
  cr_missing_slots : list string;
  cr_dispositions : list (Dimension * Disposition);
  cr_registry : list string
}.

Definition closed_of (r : CompletenessReport) (v : DimensionVerdict) : bool * option string :=
  closure (cr_registry r) (dlookup (dv_dimension v) (cr_dispositions r)) v.

Definition report_errors (r : CompletenessReport) : nat :=
  sum_list_with (fun v => dim_errors (cr_mode r) (closed_of r v).1 v) (cr_verdicts r).

Definition report_warnings (r : CompletenessReport) : nat :=
  sum_list_with (dim_warnings (cr_mode r)) (cr_verdicts r).

Definition count_status (s : DimStatus) (r : CompletenessReport) : nat :=
  length (filter (fun v => dv_status v = s) (cr_verdicts r)).

(** Dimensions that a valid disposition closes. *)
Definition closed_by_disposition (r : CompletenessReport) : nat :=
  length (filter (fun v => satisfied v = false ∧ (closed_of r v).1 = true) (cr_verdicts r)).

Definition exit_code (r : CompletenessReport) : Z := if decide (report_errors r = 0) then 0 else 1.

Definition sealed (r : CompletenessReport) : bool := bool_decide (report_errors r = 0).

(** [compute_5w1h_completeness], from the documents on. *)
Definition compute_5w1h_completeness (mode : Mode) (p : Profile) (body : table) (plan network : option table)
    (categories : list (string * string)) (reg : list string) (dispositions : list (Dimension * Disposition))
  : res CompletenessReport :=
  match mapM (fun d => pair d <$> raw_status body plan network categories d) ALL_DIMENSIONS with
  | Raise e => Raise e
  | Ok js =>
      match _missing_required_slots body p with
      | Raise e => Raise e
      | Ok missing =>
          Ok (mkReport (p_id p) mode (str (default (JStr "") (alookup "intent_id" body)))
                ((fun dj => degrade p missing (judge_dimension mode p body dj.1 dj.2)) <$> js)
                missing dispositions reg)
      end
  end.

(** ** The report as it is written *)

Definition dimension_entry (r : CompletenessReport) (v : DimensionVerdict) : string * json :=
  let extra :=
    match cr_mode r with
    | DESIGN => []
    | SEAL =>
        let '(closed, reason) := closed_of r v in
        [("disposition", match dlookup (dv_dimension v) (cr_dispositions r) with
                         | Some d => JObj (disposition_to_dict d) | None => JNull end);
         ("closed", JBool closed); ("closure_reason", jopt reason)]
    end in
  (dim_value (dv_dimension v), JObj (verdict_to_dict v ++ extra)).

Definition jnat (n : nat) : json := JInt (Z.of_nat n).

Definition summary_json (r : CompletenessReport) : table :=
  [("total", jnat (length ALL_DIMENSIONS));
   ("satisfied", jnat (count_status SATISFIED r)); ("partial", jnat (count_status PARTIAL r));
   ("missing", jnat (count_status MISSING r)); ("not_applicable", jnat (count_status NOT_APPLICABLE r));
   ("errors", jnat (report_errors r)); ("warnings", jnat (report_warnings r))] ++
  match cr_mode r with SEAL => [("closed_by_disposition", jnat (closed_by_disposition r))] | DESIGN => [] end.

Definition closure_json (r : CompletenessReport) : table :=
  omap (fun d => (fun x => (dim_value d, JStr (kind_text (d_kind x)))) <$> dlookup d (cr_dispositions r)) ALL_DIMENSIONS.

(** Keys sorted, by the detour over the canonical text. *)
Definition report_json (r : CompletenessReport) : json :=
  _normalize (JObj (
    [("profile", JStr (cr_profile r)); ("mode", JStr (mode_value (cr_mode r)));
     ("intent_id", JStr (cr_intent_id r));
     ("dimensions", JObj (dimension_entry r <$> cr_verdicts r));
     ("missing_dimensions",
       JArr (JStr <$> sort_strings (dim_value ∘ dv_dimension <$> filter (fun v => dv_status v = MISSING) (cr_verdicts r))));
     ("missing_required_slots", JArr (JStr <$> cr_missing_slots r));
     ("summary", JObj (summary_json r))] ++
    match cr_mode r with
    | SEAL => [("sealed", JBool (sealed r)); ("closure", JObj (closure_json r))]
    | DESIGN => []
    end)).
End completeness.

(** ** What a sealed requirement guarantees *)

From S2P Require Import Prelude PyVal PyConv State Profile.
From stdpp Require Import base gmap strings list.
From Stdlib Require Import ZArith Lia.

Section spec.
Context {PT : PyText}.

Lemma judge_dimension_dim mode p body d j : dv_dimension (judge_dimension mode p body d j) = d.
Proof. destruct j as [[s e] r]. unfold judge_dimension. by case_decide. Qed.

Lemma judge_dimension_severity mode p body d j : dv_severity (judge_dimension mode p body d j) = severity p d.
Proof. destruct j as [[s e] r]. unfold judge_dimension. by case_decide. Qed.

Lemma degrade_dim p missing v : dv_dimension (degrade p missing v) = dv_dimension v.
Proof. unfold degrade. destruct missing; [done|]. by case_decide. Qed.

Lemma degrade_severity p missing v : dv_severity (degrade p missing v) = dv_severity v.
Proof. unfold degrade. destruct missing; [done|]. by case_decide. Qed.

Lemma compute_ok mode p body plan network cats reg ds r :
  compute_5w1h_completeness mode p body plan network cats reg ds = Ok r →
  ∃ js missing,
    Forall2 (fun d (dj : Dimension * (DimStatus * list string * option string)) =>
               dj.1 = d ∧ raw_status body plan network cats d = Ok dj.2) ALL_DIMENSIONS js ∧
    _missing_required_slots body p = Ok missing ∧
    r = mkReport (p_id p) mode (py_str other_str (default (JStr "") (alookup "intent_id" body)))
          ((fun dj => degrade p missing (judge_dimension mode p body dj.1 dj.2)) <$> js) missing ds reg.
Proof.
  unfold compute_5w1h_completeness. destruct (mapM _ ALL_DIMENSIONS) as [js|e] eqn:E; [|done].
  destruct (_missing_required_slots body p) as [missing|e]; [|done]. intros [= <-].
  exists js, missing. split; [|done]. apply mapM_res_ok in E. eapply Forall2_impl; [exact E|].
  intros d [d' j]. simpl. destruct (raw_status body plan network cats d) as [j'|e] eqn:Er; simpl; [|done].
  by intros [= -> ->].
Qed.

(** The report has a verdict for every dimension, in order, with the severity
    of the profile. *)
Lemma report_dimensions mode p body plan network cats reg ds r :
  compute_5w1h_completeness mode p body plan network cats reg ds = Ok r →
  dv_dimension <$> cr_verdicts r = ALL_DIMENSIONS ∧
  Forall (fun v => dv_severity v = severity p (dv_dimension v)) (cr_verdicts r).
Proof.
  intros (js & missing & Hjs & _ & ->)%compute_ok. simpl. split.
  - rewrite <- list_fmap_compose. induction Hjs as [|d dj l js [Hd _] _ IH]; [done|]. csimpl.
    rewrite IH, degrade_dim, judge_dimension_dim. by rewrite Hd.
  - apply Forall_fmap, Forall_forall. intros dj _. simpl.
    by rewrite degrade_severity, degrade_dim, judge_dimension_severity, judge_dimension_dim.
Qed.

Lemma sum_list_with_zero {A} (f : A → nat) l : sum_list_with f l = 0 ↔ Forall (fun x => f x = 0) l.
Proof. induction l as [|x l IH]; simpl; [done|]. rewrite Forall_cons, <- IH. lia. Qed.

Lemma closure_true reg disp v :
  (closure reg disp v).1 = true → satisfied v = true ∨ ∃ d, disp = Some d ∧ d_kind d ≠ RESOLVED ∧ accountable reg d.
Proof.
  unfold closure. destruct disp as [d|]; [|by left]. destruct (satisfied v); [by left|].
  destruct (validate_disposition reg d) eqn:E; simpl; [|done]. case_decide; simpl; [done|].
  intros _. right. exists d. split; [done|]. split; [done|]. by apply validate_disposition_nil.
Qed.

(** In seal mode the status of a dimension is the structural one, degraded by
    a missing required slot: the prose plays no role. *)
Lemma seal_status p body d j missing :
  dv_status (degrade p missing (judge_dimension SEAL p body d j)) = SATISFIED →
  j.1.1 = SATISFIED ∧ severity p d ≠ OFF ∧ (missing = [] ∨ d ≠ p_required_slots_dimension p).
Proof.
  destruct j as [[s e] reason]. unfold judge_dimension. destruct (decide (severity p d = OFF)) as [Ho|Ho].
  - unfold degrade. destruct missing; [done|]. rewrite decide_False; [done|]. simpl. rewrite Ho. by intros [_ []].
  - rewrite decide_False by (intros [? _]; done). unfold degrade. destruct missing as [|m ms]; [by eauto|].
    case_decide as Hc; simpl in *; [|intros ->; split; [done|]; split; [done|]; right; tauto].
    by case_decide.
Qed.

Lemma not_applicable_off p body mode d j missing :
  dv_status (degrade p missing (judge_dimension mode p body d j)) = NOT_APPLICABLE →
  j.1.1 ≠ NOT_APPLICABLE → severity p d = OFF.
Proof.
  destruct j as [[s e] reason]. unfold judge_dimension. destruct (decide (severity p d = OFF)) as [|Ho]; [done|].
  simpl. intros H Hj. exfalso. unfold degrade in H.
  destruct (if decide _ then _ else _) as [kw|]; destruct missing; simpl in *;
    repeat case_decide; simpl in *; congruence.
Qed.

Lemma raw_status_applicable body plan network cats d j :
  raw_status body plan network cats d = Ok j → j.1.1 ≠ NOT_APPLICABLE.
Proof.
  destruct d; simpl; intros H.
  - unfold _eval_who in H. destruct (_nonempty _); [destruct (counted _ _)|]; by simplify_eq.
  - unfold _eval_why in H. destruct (_nonempty (jget "context" body)), (_nonempty (jget "goal" body)); by simplify_eq.
  - unfold _eval_what in H. destruct (_nonempty (jget "goal" body)); simpl in H; [|by simplify_eq].
    destruct (field_evidence _ _); [|done]. destruct (field_evidence _ _); [|done].
    destruct (_ || _); by simplify_eq.
  - unfold _eval_when in H. destruct (plan_evidence plan) as [[e|]|e]; [by simplify_eq| |done].
    destruct (py_iter _) as [refs|]; [|done]. destruct (liveness_ref cats refs); [by simplify_eq|].
    destruct (slot_keys_of body); [|done]. destruct (List.find _ _); by simplify_eq.
  - unfold _eval_where in H. destruct (_nonempty _); [by simplify_eq|].
    destruct (slot_keys_of body); [|done]. destruct (List.find _ _); by simplify_eq.
  - unfold _eval_how in H. destruct (_nonempty _); [destruct (counted _ _)|]; by simplify_eq.
Qed.

(** C21: a report computed in seal mode says sealed exactly when it has no
    errors, and then every dimension the profile requires with severity error
    is satisfied by structured fields, with no required slot missing where
    the profile looks for them, or closed by a waiver with rationale and
    signer or by a registered resolver; the prose of the intent and a bare
    claim of resolution close nothing. *)
Theorem sealed_report_closes p body plan network cats reg ds r d :
  compute_5w1h_completeness SEAL p body plan network cats reg ds = Ok r →
  sealed r = true → severity p d = ERROR →
  exit_code r = 0%Z ∧
  ((∃ j, raw_status body plan network cats d = Ok j ∧ j.1.1 = SATISFIED ∧
         (cr_missing_slots r = [] ∨ d ≠ p_required_slots_dimension p)) ∨
   ∃ disp, dlookup d ds = Some disp ∧ d_kind disp ≠ RESOLVED ∧ accountable reg disp).
Proof.
  intros Hc Hs Hsev. unfold sealed in Hs. apply bool_decide_eq_true in Hs. split.
  { unfold exit_code. by rewrite decide_True. }
  pose proof (compute_ok _ _ _ _ _ _ _ _ _ Hc) as (js & missing & Hjs & _ & ->). simpl.
  assert (d ∈ ALL_DIMENSIONS) as Hd by (destruct d; set_solver).
  apply list_elem_of_lookup in Hd as [i Hi].
  destruct (Forall2_lookup_l _ _ _ _ _ Hjs Hi) as ([d' j] & Hj & Hdd & Hraw). simpl in Hdd, Hraw. subst d'.
  set (v := degrade p missing (judge_dimension SEAL p body d j)).
  apply sum_list_with_zero in Hs. simpl in Hs. rewrite Forall_fmap, Forall_lookup in Hs.
  specialize (Hs i (d, j) Hj). simpl in Hs. fold v in Hs.
  assert (dv_severity v = ERROR) as Hv.
  { unfold v. by rewrite degrade_severity, judge_dimension_severity. }
  assert (dv_dimension v = d) as Hdim by (unfold v; by rewrite degrade_dim, judge_dimension_dim).
  assert (satisfied v = true ∨ (closure reg (dlookup d ds) v).1 = true) as Hcl.
  { unfold dim_errors, closed_of in Hs. rewrite Hv in Hs. simpl in Hs. rewrite Hdim in Hs.
    destruct (satisfied v); [by left|]. destruct (closure reg (dlookup d ds) v).1; [by right|done]. }
  assert (satisfied v = true →
          ∃ j, raw_status body plan network cats d = Ok j ∧ j.1.1 = SATISFIED ∧
               (missing = [] ∨ d ≠ p_required_slots_dimension p)) as Hsat.
  { unfold satisfied. destruct (dv_status v) eqn:E; try done; intros _.
    - apply seal_status in E as (? & _ & ?). eauto.
    - apply not_applicable_off in E; [congruence|by eapply raw_status_applicable]. }
  destruct Hcl as [Hs'|Hcl]; [by left; apply Hsat|].
  destruct (closure_true _ _ _ Hcl) as [Hs'|(disp & ? & ? & ?)]; [by left; apply Hsat|right; eauto].
Qed.

Lemma dim_errors_not_error mode closed v : dv_severity v ≠ ERROR → dim_errors mode closed v = 0.
Proof. unfold dim_errors. destruct (satisfied v); [done|]. by destruct (dv_severity v). Qed.

(** A design check tolerates more than a seal without dispositions. *)
Lemma design_tolerates p body plan network cats reg ds r1 r2 :
  compute_5w1h_completeness DESIGN p body plan network cats reg ds = Ok r1 →
  compute_5w1h_completeness SEAL p body plan network cats reg [] = Ok r2 →
  report_errors r1 ≤ report_errors r2.
Proof.
  intros (js & missing & Hjs & Hm & ->)%compute_ok (js' & missing' & Hjs' & Hm' & ->)%compute_ok.
  rewrite Hm in Hm'. injection Hm' as <-.
  assert (js' = js) as ->.
  { clear -Hjs Hjs'. revert js' Hjs'. induction Hjs as [|d dj l js [H1 H2] _ IH]; intros js' Hjs'.
    - by apply Forall2_nil_inv_l in Hjs'.
    - apply Forall2_cons_inv_l in Hjs' as (dj' & js'' & [H1' H2'] & Hr & ->). rewrite (IH _ Hr).
      f_equal. destruct dj, dj'. simpl in *. congruence. }
  unfold report_errors. simpl. clear Hjs Hjs'. induction js as [|[d j] js IH]; [done|].
  rewrite !fmap_cons. simpl. apply Nat.add_le_mono; [|done]. clear IH.
  destruct (decide (severity p d = ERROR)) as [Es|Es].
  2:{ rewrite dim_errors_not_error; [lia|]. by rewrite degrade_severity, judge_dimension_severity. }
  unfold closed_of, closure. simpl. destruct j as [[s e] reason].
  unfold dim_errors, judge_dimension, degrade, satisfied. rewrite Es.
  destruct s, missing; simpl; repeat case_decide; simpl in *; try lia; try tauto; try done;
    destruct (_scan_prose body d p); simpl; repeat case_decide; simpl in *; try lia; tauto.
Qed.
End spec.

#[local] Existing Instance plain_text.

(** An intent without patterns, sealed by a waiver of its How. *)
Definition intent_example : table :=
  [("intent_id", JStr "i1"); ("actors", JArr [JStr "ops"]); ("context", JStr "load");
   ("goal", JStr "keep latency low using backpressure"); ("inputs", JArr [JStr "qps"])].

Definition how_waived : list (Dimension * Disposition) :=
  [(HOW, mkDisposition WAIVED (Some "patterns follow") (Some "ada") None None None)].

Definition sealed_example : CompletenessReport :=
  match @compute_5w1h_completeness plain_text SEAL root_profile intent_example None None [] initial_registry how_waived with
  | Ok r => r
  | Raise _ => mkReport "" SEAL "" [] [] [] []
  end.

Lemma sealed_report_closes_witness :
  exit_code sealed_example = 0%Z ∧
  ((∃ j, @raw_status plain_text intent_example None None [] HOW = Ok j ∧ j.1.1 = SATISFIED ∧
         (cr_missing_slots sealed_example = [] ∨ HOW ≠ p_required_slots_dimension root_profile)) ∨
   ∃ disp, dlookup HOW how_waived = Some disp ∧ d_kind disp ≠ RESOLVED ∧ accountable initial_registry disp).
Proof.
  apply (@sealed_report_closes plain_text root_profile intent_example None None [] initial_registry how_waived).
  - vm_compute. reflexivity.
  - vm_compute. reflexivity.
  - reflexivity.
Defined.

(** Without the waiver it stays open; the design check passes on the prose. *)
Lemma sealed_report_needs_waiver :
  sealed <$> @compute_5w1h_completeness plain_text SEAL root_profile intent_example None None [] initial_registry [] = Ok false ∧
  exit_code <$> @compute_5w1h_completeness plain_text DESIGN root_profile intent_example None None [] [] [] = Ok 0%Z.
Proof. by vm_compute. Qed.
