(* ===== verification/IntentGate.v ===== *)
(** * The consistency gate and clarification questions
    ([tm/intent/consistency_gate.py], [tm/intent/clarify.py])

    Three hard checks decide whether a design may advance; soft warnings and
    partial dimensions become questions and block nothing. *)

From S2P Require Import Prelude PyVal PyConv Profile.
From stdpp Require Import base gmap strings list pretty.
From Stdlib Require Import ZArith Lia.

(** ** The gate *)

Definition CHECK_COMPLETENESS : string := "completeness".
Definition CHECK_NO_CONTRADICTION : string := "no_contradiction".
Definition CHECK_NO_EXACT_DUPLICATE : string := "no_exact_duplicate".

Record GateCheck : Type := mkCheck {
  gc_name : string;
  gc_passed : bool;
  gc_detail : string
}.

Definition check_to_dict (c : GateCheck) : table :=
  [("name", JStr (gc_name c)); ("passed", JBool (gc_passed c)); ("detail", JStr (gc_detail c))].

Record SoftWarning : Type := mkWarning {
  sw_kind : string;
  sw_message : string;
  sw_ref : option string
}.

Definition ref_json (o : option string) : json := match o with Some s => JStr s | None => JNull end.

Definition warning_to_dict (w : SoftWarning) : table :=
  [("kind", JStr (sw_kind w)); ("message", JStr (sw_message w)); ("ref", ref_json (sw_ref w))].

Record Boundary : Type := mkBoundary {
  b_completeness_profile : option string;
  b_contradiction_basis : string
}.

Definition boundary_to_dict (b : Boundary) : table :=
  [("completeness_relative_to_profile", ref_json (b_completeness_profile b));
   ("contradiction_relative_to", JStr (b_contradiction_basis b));
   ("note", JStr "Completeness is relative to the named profile and contradiction is relative to the declared properties; this is NOT a claim of absolute completeness or absolute consistency.")].

Record GateReport : Type := mkGate {
  gr_passed : bool;
  gr_hard_checks : list GateCheck;
  gr_soft_warnings : list SoftWarning;
  gr_boundary : Boundary;
  gr_blocking_reasons : list string
}.

Definition gate_to_dict (g : GateReport) : table :=
  [("passed", JBool (gr_passed g));
   ("hard_checks", JArr ((fun c => JObj (check_to_dict c)) <$> gr_hard_checks g));
   ("soft_warnings", JArr ((fun w => JObj (warning_to_dict w)) <$> gr_soft_warnings g));
   ("boundary", JObj (boundary_to_dict (gr_boundary g)));
   ("blocking_reasons", JArr (JStr <$> gr_blocking_reasons g))].

(** The first twelve characters of a hash. *)
Definition short (h : string) : string := String.substring 0 12 h +:+ "…".

Section gate.
Context {PT : PyText}.

#[local] Abbreviation str := (py_str other_str).

(** [profile or (str(report.get("profile")) if report else None)]. *)
Definition relative_profile (report : option table) (profile : option string) : option string :=
  let from_report := match report with Some ((_ :: _) as r) => Some (str (jget "profile" r)) | _ => None end in
  match profile with
  | Some p => if String.eqb p "" then from_report else Some p
  | None => from_report
  end.

(** [int(summary.get("errors", 0))], zero when there is no summary. *)
Definition summary_errors (report : table) : res Z :=
  match default (JObj []) (alookup "summary" report) with
  | JObj s => py_int (default (JInt 0) (alookup "errors" s))
  | _ => Ok 0%Z
  end.

Definition _completeness_check (report : option table) (profile : option string) : res GateCheck :=
  match report with
  | None => Ok (mkCheck CHECK_COMPLETENESS false "no 5W1H completeness report provided")
  | Some r =>
      match summary_errors r with
      | Raise e => Raise e
      | Ok errors =>
          let rel_txt :=
            match relative_profile report profile with
            | Some rel => if String.eqb rel "" then "" else " relative to profile '" +:+ rel +:+ "'"
            | None => ""
            end in
          if (errors =? 0)%Z
          then Ok (mkCheck CHECK_COMPLETENESS true ("5W1H complete (0 errors)" +:+ rel_txt))
          else Ok (mkCheck CHECK_COMPLETENESS false
                     ("5W1H incomplete: " +:+ pretty errors +:+ " error dimension(s)" +:+ rel_txt))
      end
  end.

Definition _no_contradiction_check (verify_passed : option bool) (require_verify : bool) : GateCheck :=
  match verify_passed with
  | Some true => mkCheck CHECK_NO_CONTRADICTION true
                   "CTL verification passed (no contradiction relative to declared properties)"
  | Some false => mkCheck CHECK_NO_CONTRADICTION false
                    "CTL verification failed: contradiction relative to declared properties"
  | None =>
      if require_verify then mkCheck CHECK_NO_CONTRADICTION false "CTL verification required but not run"
      else mkCheck CHECK_NO_CONTRADICTION true
             "CTL verification deferred; no contradiction asserted (not yet checked)"
  end.

Definition _no_exact_duplicate_check (body_hash : option string) (existing : list string) : GateCheck :=
  match body_hash with
  | None => mkCheck CHECK_NO_EXACT_DUPLICATE true "no body_hash provided; exact-duplicate check skipped"
  | Some h =>
      if String.eqb h "" then mkCheck CHECK_NO_EXACT_DUPLICATE true "no body_hash provided; exact-duplicate check skipped"
      else if bool_decide (h ∈ existing)
      then mkCheck CHECK_NO_EXACT_DUPLICATE false
             ("exact duplicate of an existing artifact (body_hash " +:+ short h +:+ ")")
      else mkCheck CHECK_NO_EXACT_DUPLICATE true ("no exact duplicate (body_hash " +:+ short h +:+ ")")
  end.

Definition evaluate_consistency (report : option table) (profile : option string)
    (verify_passed : option bool) (require_verify : bool) (body_hash : option string)
    (existing : list string) (warnings : list SoftWarning) : res GateReport :=
  match _completeness_check report profile with
  | Raise e => Raise e
  | Ok c =>
      let hard := [c; _no_contradiction_check verify_passed require_verify;
                   _no_exact_duplicate_check body_hash existing] in
      let blocking := gc_name <$> filter (fun c => gc_passed c = false) hard in
      Ok (mkGate (match blocking with [] => true | _ => false end) hard warnings
            (mkBoundary (relative_profile report profile) "declared CTL properties") blocking)
  end.

(** The gate passes exactly when the three guarantees hold, whatever the
    warnings. *)
Lemma gate_passes report profile vp rv h existing ws g :
  evaluate_consistency report profile vp rv h existing ws = Ok g →
  gr_passed g = true ↔
  (∃ r, report = Some r ∧ summary_errors r = Ok 0%Z) ∧
  (vp = Some true ∨ (vp = None ∧ rv = false)) ∧
  (∀ x, h = Some x → x ≠ "" → x ∉ existing).
Proof.
  unfold evaluate_consistency. destruct (_completeness_check report profile) as [c|e] eqn:Ec; [|done].
  intros [= <-]. simpl.
  assert (gc_passed c = true ↔ ∃ r, report = Some r ∧ summary_errors r = Ok 0%Z) as Hc.
  { unfold _completeness_check in Ec. destruct report as [r|]; [|simplify_eq/=; naive_solver].
    destruct (summary_errors r) as [z|] eqn:Es; [|done]. destruct (Z.eqb_spec z 0); simplify_eq/=.
    - split; [eauto|done].
    - split; [done|]. intros (r' & [= <-] & Hr). congruence. }
  assert (gc_passed (_no_contradiction_check vp rv) = true ↔ vp = Some true ∨ (vp = None ∧ rv = false)) as Hv.
  { destruct vp as [[|]|], rv; simpl; naive_solver. }
  assert (gc_passed (_no_exact_duplicate_check h existing) = true ↔ ∀ x, h = Some x → x ≠ "" → x ∉ existing) as Hh.
  { destruct h as [x|]; simpl; [|naive_solver]. destruct (String.eqb_spec x ""); [naive_solver|].
    destruct (bool_decide_reflect (x ∈ existing)); simpl; naive_solver. }
  rewrite <- Hc, <- Hv, <- Hh, !filter_cons, filter_nil.
  destruct (gc_passed c), (gc_passed (_no_contradiction_check vp rv)), (gc_passed (_no_exact_duplicate_check h existing));
    simpl; naive_solver.
Qed.

(** ** Questions *)

Definition CLARIFY_DISPOSITIONS : list string :=
  ["confirmed_distinct"; "merge"; "supplement"; "amend_constraint"].

Definition disposition_requires_reason (disposition : string) : bool :=
  String.eqb disposition "confirmed_distinct".

Record ClarificationQuestion : Type := mkQuestion {
  cq_id : string;
  cq_kind : string;
  cq_prompt : string;
  cq_refs : list string;
  cq_options : list string
}.

Definition question_to_dict (q : ClarificationQuestion) : table :=
  [("id", JStr (cq_id q)); ("kind", JStr (cq_kind q)); ("prompt", JStr (cq_prompt q));
   ("refs", JArr (JStr <$> cq_refs q)); ("options", JArr (JStr <$> cq_options q))].

Definition warning_refs (w : SoftWarning) : list string :=
  match sw_ref w with Some r => if String.eqb r "" then [] else [r] | None => [] end.

Definition _semantic_duplicate_q (qid : string) (w : SoftWarning) : ClarificationQuestion :=
  let ref := default "the related item" (head (warning_refs w)) in
  mkQuestion qid "semantic_duplicate"
    ("This looks semantically close to " +:+ ref +:+ ": " +:+ sw_message w
     +:+ ". Are they genuinely distinct, or should they be merged? （与 " +:+ ref
     +:+ " 语义相近：是确属不同，还是应合并去重？）")
    (warning_refs w) ["confirmed_distinct"; "merge"; "amend_constraint"].

Definition _ambiguity_q (qid : string) (w : SoftWarning) : ClarificationQuestion :=
  mkQuestion qid "ambiguity"
    ("This is ambiguous: " +:+ sw_message w
     +:+ ". Please disambiguate, or supplement the missing detail it exposes.（存在二义：请澄清，或补充其暴露的缺失需求。）")
    (warning_refs w) ["supplement"; "confirmed_distinct"; "amend_constraint"].

Definition _generic_q (qid : string) (w : SoftWarning) : ClarificationQuestion :=
  mkQuestion qid "generic"
    ("Please review this advisory: " +:+ sw_message w +:+ ".（请复核该软告警。）")
    (warning_refs w) (sort_strings CLARIFY_DISPOSITIONS).

Definition _partial_dimension_q (qid dim : string) (entry : table) : ClarificationQuestion :=
  let hint := str (jor (jget "suggestion" entry) (jor (jget "missing_reason" entry) (JStr "incomplete"))) in
  mkQuestion qid "partial_dimension"
    ("Dimension '" +:+ dim +:+ "' is only partially specified (" +:+ hint
     +:+ "). Supplement it, or confirm the partial is intentional.（维度 '" +:+ dim
     +:+ "' 仅部分完整：请补充，或确认有意为之。）")
    ["5w1h:" +:+ dim] ["supplement"; "confirmed_distinct"].

Definition warning_q (qid : string) (w : SoftWarning) : ClarificationQuestion :=
  if String.eqb (sw_kind w) "semantic_duplicate" then _semantic_duplicate_q qid w
  else if String.eqb (sw_kind w) "ambiguity" then _ambiguity_q qid w
  else _generic_q qid w.

Definition qid (n : nat) : string := "q." +:+ pretty n.

(** The partial dimensions of a report, in order. *)
Definition partial_dims (report : option table) : list (string * table) :=
  match jget "dimensions" (default [] report) with
  | JObj dims =>
      omap (fun d =>
        match jget (dim_value d) dims with
        | JObj entry => if json_eqb (jget "status" entry) (JStr "partial") then Some (dim_value d, entry) else None
        | _ => None
        end) ALL_DIMENSIONS
  | _ => []
  end.

Definition generate_questions (warnings : list SoftWarning) (report : option table) : list ClarificationQuestion :=
  imap (fun i w => warning_q (qid i) w) warnings ++
  imap (fun i (de : string * table) => _partial_dimension_q (qid (length warnings + i)) de.1 de.2) (partial_dims report).

(** Every warning and every partial dimension has one question, and the
    questions are numbered in order. *)
Lemma generate_questions_ids ws report :
  cq_id <$> generate_questions ws report = qid <$> seq 0 (length ws + length (partial_dims report)).
Proof.
  unfold generate_questions. rewrite fmap_app, seq_app, fmap_app. f_equal.
  - apply list_eq. intros i. rewrite list_lookup_fmap, list_lookup_imap, list_lookup_fmap.
    destruct (ws !! i) as [w|] eqn:E; simpl.
    + rewrite lookup_seq_lt by (by eapply lookup_lt_Some). simpl. f_equal.
      unfold warning_q. by repeat case_match.
    + rewrite lookup_seq_ge by (by apply lookup_ge_None). done.
  - apply list_eq. intros i. rewrite list_lookup_fmap, list_lookup_imap, list_lookup_fmap.
    destruct (partial_dims report !! i) as [w|] eqn:E; simpl.
    + rewrite lookup_seq_lt by (by eapply lookup_lt_Some). done.
    + rewrite lookup_seq_ge by (by apply lookup_ge_None). done.
Qed.

(** The answers a question offers are accepted dispositions. *)
Lemma generate_questions_options ws report q o :
  q ∈ generate_questions ws report → o ∈ cq_options q → o ∈ CLARIFY_DISPOSITIONS.
Proof.
  unfold generate_questions. rewrite elem_of_app, !elem_of_lookup_imap.
  intros [(i & w & -> & _)|(i & [d e] & -> & _)] Ho.
  - unfold warning_q in Ho.
    destruct (String.eqb _ "semantic_duplicate"); [|destruct (String.eqb _ "ambiguity")]; cbn in Ho;
      [set_solver|set_solver|]. by apply elem_of_sort_strings.
  - simpl in Ho. set_solver.
Qed.
End gate.
