(* ===== verification/Session.v ===== *)
(** * Design sessions ([tm/intent/design_loop.py], [tm/intent/session.py])

    A session walks through the design loop step by step: entry gates, steps
    only a human may enter, and a journal whose turns are chained by hashes.
    Sealing recomputes the completeness of the requirement and asks the
    consistency gate. *)

From S2P Require Import Prelude PyVal PyConv State Artifact Profile Completeness IntentGate.
From stdpp Require Import base gmap strings list pretty.
From Stdlib Require Import ZArith Lia.

(** ** The design loop *)

Inductive DesignStep : Type := DRAFT | CHECK_5W1H | PROPOSE | REFINE | VERIFY | ACCEPT | SEALED.

#[export] Instance DesignStep_eq_dec : EqDecision DesignStep.
Proof. solve_decision. Defined.

Definition DESIGN_STEP_ORDER : list DesignStep := [DRAFT; CHECK_5W1H; PROPOSE; REFINE; VERIFY; ACCEPT; SEALED].

Definition step_value (s : DesignStep) : string :=
  match s with
  | DRAFT => "draft" | CHECK_5W1H => "check_5w1h" | PROPOSE => "propose" | REFINE => "refine"
  | VERIFY => "verify" | ACCEPT => "accept" | SEALED => "sealed"
  end.

Inductive TurnAction : Type :=
| APropose | ARefine | ACheck_5w1h | AVerify | AAccept | AClarify | ANote.

#[export] Instance TurnAction_eq_dec : EqDecision TurnAction.
Proof. solve_decision. Defined.

Definition action_value (a : TurnAction) : string :=
  match a with
  | APropose => "propose" | ARefine => "refine" | ACheck_5w1h => "check_5w1h" | AVerify => "verify"
  | AAccept => "accept" | AClarify => "clarify" | ANote => "note"
  end.

Record StepGate : Type := mkStepGate {
  sg_step : DesignStep;
  sg_requirement : string;
  sg_rationale : string
}.

Definition ENTRY_GATES : list StepGate :=
  [mkStepGate VERIFY "completeness_no_error"
     "5W1H check (7-0) has no error-severity gaps before formal verification";
   mkStepGate ACCEPT "verify_passed"
     "formal verification verdict (7-V) holds before human accept";
   mkStepGate SEALED "human_signoff_and_all_dims_closed"
     "human sign_off + every required dim resolved/waived/dynamic (5w1h §3b)"].

Definition HUMAN_ONLY_STEPS : list DesignStep := [ACCEPT; SEALED].

Definition entry_gate_for (step : DesignStep) : option StepGate :=
  List.find (fun g => bool_decide (sg_step g = step)) ENTRY_GATES.

(** ** Sessions *)

Record Turn : Type := mkTurn {
  t_seq : Z;
  t_role : string;
  t_action : string;
  t_input_ref : option string;
  t_output_ref : option string;
  t_provider : option string;
  t_turn_hash : option string
}.

Record SignOff : Type := mkSignOff {
  so_signer : string;
  so_scope : list string;
  so_completeness_snapshot : table;
  so_dispositions : table;
  so_gate_report_hash : option string;
  so_signed_at : option string;
  so_sign_hash : option string
}.

Record IntentSession : Type := mkSession {
  s_session_id : string;
  s_root_intent_ref : string;
  s_status : string;
  s_current_step : string;
  s_turns : list Turn;
  s_completeness : option table;
  s_produced_refs : list string;
  s_sign_off : option SignOff;
  s_metadata : table
}.

(** A transition succeeds, is refused with the gate it failed, or fails with
    another exception. *)
Inductive attempt (A : Type) : Type :=
| Done (a : A)
| Refused (msg : string) (requirement : option string)
| Crashed (e : exn).
Arguments Done {A} _.
Arguments Refused {A} _ _.
Arguments Crashed {A} _.

#[export] Instance attempt_bind : MBind attempt := fun A B f m =>
  match m with Done a => f a | Refused msg r => Refused msg r | Crashed e => Crashed e end.

Definition lift {A} (r : res A) : attempt A := match r with Ok a => Done a | Raise e => Crashed e end.

Definition require (b : bool) (msg : string) (requirement : option string) : attempt unit :=
  if b then Done tt else Refused msg requirement.

Lemma bind_done {A B} (m : attempt A) (f : A → attempt B) b :
  m ≫= f = Done b ↔ ∃ a, m = Done a ∧ f a = Done b.
Proof. destruct m; simpl; naive_solver. Qed.

Lemma require_done b msg r u : require b msg r = Done u ↔ b = true.
Proof. unfold require. destruct b, u; naive_solver. Qed.

Record GateFacts : Type := mkFacts {
  gf_completeness_no_error : bool;
  gf_verify_passed : bool;
  gf_human_signoff_and_all_dims_closed : bool
}.

(** [getattr(self, gate.requirement, False)]. *)
Definition satisfies (f : GateFacts) (g : StepGate) : bool :=
  if String.eqb (sg_requirement g) "completeness_no_error" then gf_completeness_no_error f
  else if String.eqb (sg_requirement g) "verify_passed" then gf_verify_passed f
  else if String.eqb (sg_requirement g) "human_signoff_and_all_dims_closed"
  then gf_human_signoff_and_all_dims_closed f
  else false.

(** [_STEP_ENTRY_ACTION[target]]. *)
Definition entry_action (s : DesignStep) : res TurnAction :=
  match s with
  | CHECK_5W1H => Ok ACheck_5w1h | PROPOSE => Ok APropose | REFINE => Ok ARefine
  | VERIFY => Ok AVerify | ACCEPT => Ok AAccept | SEALED => Ok ANote
  | DRAFT => Raise (KeyError "draft")
  end.

Definition new_session (session_id root_intent_ref : string) : IntentSession :=
  mkSession session_id root_intent_ref "working" "draft" [] None [] None [].

(** [DesignStep(value)]. *)
Definition parse_step (v : string) : option DesignStep :=
  List.find (fun s => String.eqb (step_value s) v) DESIGN_STEP_ORDER.

Definition _current_step (body : IntentSession) : res DesignStep :=
  match parse_step (s_current_step body) with
  | Some s => Ok s
  | None => Raise (ValueError ("'" +:+ s_current_step body +:+ "' is not a valid DesignStep"))
  end.

(** [DESIGN_STEP_ORDER.index(step)]. *)
Definition step_index (s : DesignStep) : nat :=
  match s with
  | DRAFT => 0 | CHECK_5W1H => 1 | PROPOSE => 2 | REFINE => 3 | VERIFY => 4 | ACCEPT => 5 | SEALED => 6
  end.

Definition next_step (s : DesignStep) : option DesignStep := DESIGN_STEP_ORDER !! S (step_index s).

Definition _next_seq (body : IntentSession) : Z :=
  match t_seq <$> s_turns body with
  | [] => 0
  | s :: l => foldl Z.max s l + 1
  end.

(** ** The journal *)

Definition GENESIS_PREV_HASH : string := "".

Definition opt_json (o : option string) : json := match o with Some s => JStr s | None => JNull end.

Definition _turn_payload (t : Turn) (prev_hash : string) : json :=
  JObj [("seq", JInt (t_seq t)); ("role", JStr (t_role t)); ("action", JStr (t_action t));
        ("input_ref", opt_json (t_input_ref t)); ("output_ref", opt_json (t_output_ref t));
        ("provider", opt_json (t_provider t)); ("prev_hash", JStr prev_hash)].

Section session.
Context {BD : BodyDigest} {PT : PyText}.

Definition turn_content_hash (t : Turn) (prev_hash : string) : string := body_hash (_turn_payload t prev_hash).

(** [(turns[-1].turn_hash if turns else None) or GENESIS_PREV_HASH]. *)
Definition head_hash (turns : list Turn) : string := default GENESIS_PREV_HASH (last turns ≫= t_turn_hash).

Definition with_hash (t : Turn) (h : string) : Turn :=
  mkTurn (t_seq t) (t_role t) (t_action t) (t_input_ref t) (t_output_ref t) (t_provider t) (Some h).

Definition _append_turn (body : IntentSession) (role : string) (action : TurnAction)
    (input_ref output_ref provider : option string) : list Turn :=
  let t := mkTurn (_next_seq body) role (action_value action) input_ref output_ref provider None in
  s_turns body ++ [with_hash t (turn_content_hash t (head_hash (s_turns body)))].

(** The first twelve characters of a hash, cut. *)
Definition turn_label (idx : nat) (t : Turn) : string :=
  "turns[" +:+ pretty idx +:+ "] (seq=" +:+ pretty (t_seq t) +:+ ") ".

Fixpoint journal_issues (idx : nat) (prev_hash : string) (turns : list Turn) : list string :=
  match turns with
  | [] => []
  | t :: turns =>
      let expected := turn_content_hash t prev_hash in
      match t_turn_hash t with
      | None => (turn_label idx t +:+ "missing turn_hash") :: journal_issues (S idx) expected turns
      | Some h =>
          (if String.eqb h expected then []
           else [turn_label idx t +:+ "hash mismatch: expected " +:+ short expected +:+ ", got " +:+ short h]) ++
          journal_issues (S idx) h turns
      end
  end.

Definition verify_journal (body : IntentSession) : list string :=
  journal_issues 0 GENESIS_PREV_HASH (s_turns body).

(** ** Transitions *)

Definition _require_role (role : string) : attempt unit :=
  require (String.eqb role "human" || String.eqb role "agent")
    ("role must be one of ['agent', 'human'], got '" +:+ role +:+ "'") None.

Definition _require_working (body : IntentSession) : attempt unit :=
  require (String.eqb (s_status body) "working")
    "session is sealed and read-only; transitions are not allowed" None.

Definition moved (body : IntentSession) (step : DesignStep) (status : string) (so : option SignOff)
    (turns : list Turn) : IntentSession :=
  mkSession (s_session_id body) (s_root_intent_ref body) status (step_value step) turns
    (s_completeness body) (s_produced_refs body) so (s_metadata body).

(** The status and sign-off a step is entered with. *)
Definition sealing (body : IntentSession) (target : DesignStep) (so : option SignOff)
  : attempt (string * option SignOff) :=
  if decide (target = SEALED) then
    match so, s_sign_off body with
    | None, None =>
        Refused "sealing requires a human 'sign_off'; the tool does not seal on its own"
          (Some "human_signoff_and_all_dims_closed")
    | Some x, _ => Done ("sealed", Some x)
    | None, old => Done ("sealed", old)
    end
  else Done (s_status body, s_sign_off body).

Definition check_gate (target : DesignStep) (facts : GateFacts) : attempt unit :=
  match entry_gate_for target with
  | Some g =>
      require (satisfies facts g)
        ("cannot advance to '" +:+ step_value target +:+ "': entry gate '" +:+ sg_requirement g
         +:+ "' not satisfied (" +:+ sg_rationale g +:+ ")") (Some (sg_requirement g))
  | None => Done tt
  end.

Definition advance (body : IntentSession) (facts : GateFacts) (role : string) (so : option SignOff)
    (note : option string) : attempt IntentSession :=
  _ ← _require_role role;
  _ ← _require_working body;
  current ← lift (_current_step body);
  match next_step current with
  | None => Refused ("already at terminal step '" +:+ step_value current +:+ "'; cannot advance") None
  | Some target =>
      _ ← require (negb (bool_decide (target ∈ HUMAN_ONLY_STEPS)) || String.eqb role "human")
            ("step '" +:+ step_value target +:+ "' is human-only and must be triggered by a human (invariant 5), got role='"
             +:+ role +:+ "'") None;
      _ ← check_gate target facts;
      st ← sealing body target so;
      action ← lift (entry_action target);
      Done (moved body target st.1 st.2 (_append_turn body role action None note None))
  end.

Definition revert (body : IntentSession) (to_step : DesignStep) (role reason : string) : attempt IntentSession :=
  _ ← _require_role role;
  _ ← _require_working body;
  _ ← require (negb (String.eqb reason "") && negb (String.eqb (strip reason) ""))
        "revert requires a non-empty 'reason' (recorded in the journal)" None;
  current ← lift (_current_step body);
  _ ← require (bool_decide (step_index to_step < step_index current))
        ("revert target '" +:+ step_value to_step +:+ "' must be strictly earlier than current '"
         +:+ step_value current +:+ "'") None;
  Done (moved body to_step (s_status body) (s_sign_off body)
          (_append_turn body role ANote None (Some ("revert: " +:+ reason)) None)).

(** ** Clarifications *)

Definition _clarifications (body : IntentSession) : list json :=
  match jget "clarifications" (s_metadata body) with JArr l => l | _ => [] end.

(** [x or None]. *)
Definition or_none (s : string) : json := if String.eqb s "" then JNull else JStr s.

Definition clarify_record (body : IntentSession) (clar_id : string) (warning_ref : option string)
    (question : option table) (disposition reason resolution : string) : table :=
  [("clar_id", JStr clar_id); ("turn_seq", JInt (_next_seq body)); ("warning_ref", opt_json warning_ref);
   ("question", match question with Some q => JObj q | None => JNull end);
   ("disposition", JStr disposition); ("reason", or_none reason); ("resolution", or_none resolution)].

Definition clarify (body : IntentSession) (disposition role : string) (question : option table)
    (warning_ref : option string) (reason resolution : string) : attempt IntentSession :=
  _ ← _require_role role;
  _ ← _require_working body;
  _ ← require (bool_decide (disposition ∈ CLARIFY_DISPOSITIONS))
        ("unknown clarify disposition '" +:+ disposition
         +:+ "'; one of ['amend_constraint', 'confirmed_distinct', 'merge', 'supplement']") None;
  _ ← require (negb (disposition_requires_reason disposition) || negb (String.eqb (strip reason) ""))
        ("clarify disposition '" +:+ disposition +:+ "' requires a recorded reason (accountability)") None;
  let clars := _clarifications body in
  let clar_id := "clar." +:+ pretty (length clars) in
  let record := clarify_record body clar_id warning_ref question disposition reason resolution in
  let record := record ++ [("record_hash", JStr (body_hash (JObj record)))] in
  Done (mkSession (s_session_id body) (s_root_intent_ref body) (s_status body) (s_current_step body)
          (_append_turn body role AClarify warning_ref (Some clar_id) None)
          (s_completeness body) (s_produced_refs body) (s_sign_off body)
          (dict_set "clarifications" (JArr (clars ++ [JObj record])) (s_metadata body))).

(** The outputs of the clarify turns. *)
Definition clarify_refs (body : IntentSession) : list (option string) :=
  t_output_ref <$> filter (fun t => t_action t = "clarify") (s_turns body).

(** [clar_id in clar_turn_refs]; a list or a mapping does not hash. *)
Definition linked (body : IntentSession) (clar_id : json) : res bool :=
  match clar_id with
  | JStr s => Ok (bool_decide (Some s ∈ clarify_refs body))
  | JNull => Ok (bool_decide (None ∈ clarify_refs body))
  | JArr _ | JObj _ => Raise (TypeError "unhashable type")
  | _ => Ok false
  end.

Definition check_clarification (body : IntentSession) (idx : nat) (record : json) : res (list string) :=
  match record with
  | JObj m =>
      let clar_id := jget "clar_id" m in
      let label := "clarifications[" +:+ pretty idx +:+ "] (" +:+ py_str other_str clar_id +:+ ") " in
      let expected := body_hash (JObj (filter (fun kv => kv.1 ≠ "record_hash") m)) in
      match linked body clar_id with
      | Raise e => Raise e
      | Ok l =>
          Ok ((if json_eqb (jget "record_hash" m) (JStr expected) then [] else [label +:+ "record_hash mismatch"]) ++
              (if l then [] else [label +:+ "not linked to any clarify turn"]))
      end
  | _ => Raise (AttributeError "object has no attribute 'get'")
  end.

Definition verify_clarifications (body : IntentSession) : res (list string) :=
  List.concat (A:=string) <$> mapM (fun ir => check_clarification body ir.1 ir.2) (imap pair (_clarifications body)).

(** ** Completeness and sealing *)

(** The documents a check reads. *)
Record documents : Type := mkDocuments {
  doc_profile : Profile;
  doc_intent : table;
  doc_plan : option table;
  doc_network : option table;
  doc_categories : list (string * string);
  doc_registry : list string
}.

Definition check_documents (mode : Mode) (docs : documents) (ds : list (Dimension * Disposition))
  : res CompletenessReport :=
  compute_5w1h_completeness mode (doc_profile docs) (doc_intent docs) (doc_plan docs) (doc_network docs)
    (doc_categories docs) (doc_registry docs) ds.

Definition embed_completeness (body : IntentSession) (docs : documents) : attempt IntentSession :=
  _ ← _require_working body;
  r ← lift (check_documents DESIGN docs []);
  Done (mkSession (s_session_id body) (s_root_intent_ref body) (s_status body) (s_current_step body)
          (s_turns body) (as_mapping (report_json r)) (s_produced_refs body) (s_sign_off body) (s_metadata body)).

(** [isinstance(errors, int) and errors == 0]: [False] is 0. *)
Definition completeness_no_error (body : IntentSession) : bool :=
  match s_completeness body with
  | None => false
  | Some report =>
      match jget "summary" report with
      | JObj summary =>
          match jget "errors" summary with
          | JInt z => (z =? 0)%Z
          | JBool b => negb b
          | _ => false
          end
      | _ => false
      end
  end.

Definition gate_facts_for (body : IntentSession) (verify_passed closed : bool) : GateFacts :=
  mkFacts (completeness_no_error body) verify_passed closed.

Definition consistency_report_for (body : IntentSession) (verify_passed : option bool) (require_verify : bool)
    (candidate_hash : option string) (existing : list string) (warnings : list SoftWarning) : res GateReport :=
  evaluate_consistency (s_completeness body)
    (match s_completeness body with
     | Some ((_ :: _) as r) => Some (py_str other_str (jget "profile" r))
     | _ => None
     end) verify_passed require_verify candidate_hash existing warnings.

(** What a waiver or a resolver closes, as the sign-off records it. *)
Definition closure_dispositions (ds : list (Dimension * Disposition)) : table :=
  omap (fun dd => if decide (d_kind dd.2 = RESOLVED) then None
                  else Some (dim_value dd.1, JObj (disposition_to_dict dd.2))) ds.

Definition seal (body : IntentSession) (signer : string) (docs : documents)
    (ds : list (Dimension * Disposition)) (verify_passed : bool) (scope : option (list string))
    (candidate_hash : option string) (existing : list string) (signed_at : option string) : attempt IntentSession :=
  _ ← _require_working body;
  _ ← require (negb (String.eqb signer "") && negb (String.eqb (strip signer) ""))
        "seal requires a human 'signer'; the tool does not seal on its own" (Some "human_signoff_and_all_dims_closed");
  current ← lift (_current_step body);
  _ ← require (bool_decide (next_step current = Some SEALED))
        ("seal requires current step 'accept', got '" +:+ step_value current +:+ "'") None;
  r ← lift (check_documents SEAL docs ds);
  let seal_report := default [] (as_mapping (report_json r)) in
  let all_dims_closed := json_eqb (jget "sealed" seal_report) (JBool true) in
  gate ← lift (evaluate_consistency (Some seal_report) (Some (py_str other_str (jget "profile" seal_report)))
                 (Some verify_passed) true candidate_hash existing []);
  let reasons := gr_blocking_reasons gate ++
    (if negb all_dims_closed && negb (bool_decide ("completeness" ∈ gr_blocking_reasons gate))
     then ["uncertainty_closure"] else []) in
  _ ← require (all_dims_closed && gr_passed gate)
        ("cannot seal: closure invariant not met (" +:+ join_with ", " reasons +:+ ")")
        (Some "human_signoff_and_all_dims_closed");
  let closing := closure_dispositions ds in
  let resolved_scope := default (s_produced_refs body) scope in
  let gate_report_hash := body_hash (JObj (gate_to_dict gate)) in
  let core := [("signer", JStr signer); ("scope", JArr (JStr <$> resolved_scope));
               ("completeness_snapshot", JObj seal_report); ("dispositions", JObj closing);
               ("gate_report_hash", JStr gate_report_hash); ("signed_at", opt_json signed_at)] in
  advance body (mkFacts (completeness_no_error body) verify_passed true) "human"
    (Some (mkSignOff signer resolved_scope seal_report closing (Some gate_report_hash) signed_at
             (Some (body_hash (JObj core))))) None.
End session.
