(* ===== verification/SessionSpec.v ===== *)
(** * What a design session guarantees

    A session built by its transitions has an intact, consecutively numbered
    journal; it is sealed only with a sign-off, by a human, after a human
    accepted; a sealed session does not change; and the hash at the head of
    the journal commits to all of it. *)

From S2P Require Import Prelude PyVal PyConv State Artifact Profile Completeness IntentGate Session.
From stdpp Require Import base gmap strings list pretty sorting relations.
From Stdlib Require Import ZArith Lia.

(** ** Sorted mappings *)

Lemma alookup_perm {V} k (l1 l2 : list (string * V)) :
  l1 ≡ₚ l2 → NoDup (l1.*1) → alookup k l1 = alookup k l2.
Proof.
  intros Hp Hnd. destruct (alookup k l2) as [v|] eqn:E.
  - apply alookup_elem_of in E. rewrite <- Hp in E. by apply alookup_NoDup.
  - apply alookup_None in E. apply alookup_None. by rewrite Hp.
Qed.

Lemma jget_normalize k l :
  NoDup (l.*1) →
  ∃ l', _normalize (JObj l) = JObj l' ∧ jget k l' = _normalize (jget k l).
Proof.
  intros Hnd. simpl. eexists. split; [done|]. unfold jget.
  set (go := fix go (l : list (string * json)) := match l with [] => [] | (k, v) :: l' => (k, _normalize v) :: go l' end).
  assert (∀ l, (go l).*1 = l.*1) as Hk.
  { intros l0. induction l0 as [|[k0 v0] l0 IH]; [done|]. csimpl. by rewrite IH. }
  rewrite <- (alookup_perm k (go l) (sort_items (go l))); [|symmetry; apply sort_items_perm|by rewrite Hk].
  clear Hnd Hk. induction l as [|[k0 v0] l IH]; simpl; [done|]. by case_decide.
Qed.

Lemma jget_normalize_value k l l' :
  NoDup (l.*1) → _normalize_value (JObj l) = JObj l' → jget k l' = _normalize_value (jget k l).
Proof.
  intros Hnd H. simpl in H. injection H as <-. unfold jget.
  set (go := fix go (l : list (string * json)) := match l with [] => [] | (k, v) :: l' => (k, _normalize_value v) :: go l' end).
  assert (∀ l, (go l).*1 = l.*1) as Hk.
  { intros l0. induction l0 as [|[k0 v0] l0 IH]; [done|]. csimpl. by rewrite IH. }
  rewrite <- (alookup_perm k (go l) (sort_items (go l))); [|symmetry; apply sort_items_perm|by rewrite Hk].
  clear Hnd Hk. induction l as [|[k0 v0] l IH]; simpl; [done|]. by case_decide.
Qed.

Lemma compute_mode `{PyText} mode p body plan network cats reg ds r :
  compute_5w1h_completeness mode p body plan network cats reg ds = Ok r → cr_mode r = mode.
Proof.
  unfold compute_5w1h_completeness. destruct (mapM _ _); [|done]. destruct (_missing_required_slots _ _); [|done].
  by intros [= <-].
Qed.

Section spec.
Context {BD : BodyDigest} {PT : PyText}.

(** ** The journal *)

Fixpoint intact (prev : string) (turns : list Turn) : Prop :=
  match turns with
  | [] => True
  | t :: turns => t_turn_hash t = Some (turn_content_hash t prev) ∧ intact (turn_content_hash t prev) turns
  end.

Lemma journal_issues_nil idx prev turns : journal_issues idx prev turns = [] ↔ intact prev turns.
Proof.
  revert idx prev. induction turns as [|t turns IH]; intros idx prev; simpl; [done|].
  destruct (t_turn_hash t) as [h|]; [|naive_solver].
  destruct (String.eqb_spec h (turn_content_hash t prev)) as [->|Hne]; simpl.
  - rewrite IH. naive_solver.
  - split; [done|]. intros [[= ->] _]. done.
Qed.

(** The hash after the turns, recomputed. *)
Definition chain_head (prev : string) (turns : list Turn) : string :=
  foldl (fun p t => turn_content_hash t p) prev turns.

Lemma intact_snoc prev turns t :
  intact prev (turns ++ [t]) ↔
  intact prev turns ∧ t_turn_hash t = Some (turn_content_hash t (chain_head prev turns)).
Proof. revert prev. induction turns as [|t0 turns IH]; intros prev; simpl; [naive_solver|]. rewrite IH. naive_solver. Qed.

Lemma intact_head turns : intact GENESIS_PREV_HASH turns → head_hash turns = chain_head GENESIS_PREV_HASH turns.
Proof.
  unfold head_hash. destruct turns as [|t turns _] using rev_ind; [done|].
  intros [_ Ht]%intact_snoc. rewrite last_snoc. simpl. rewrite Ht. simpl.
  unfold chain_head. by rewrite foldl_app.
Qed.

(** Consecutive numbers from 0. *)
Definition numbered (turns : list Turn) : Prop := t_seq <$> turns = Z.of_nat <$> seq 0 (length turns).

Lemma foldl_max_seq n k : foldl Z.max (Z.of_nat k) (Z.of_nat <$> seq (S k) n) = Z.of_nat (k + n).
Proof.
  revert k. induction n as [|n IH]; intros k; csimpl; [f_equal; lia|].
  replace (Z.of_nat k `max` Z.of_nat (S k))%Z with (Z.of_nat (S k)) by lia. rewrite IH. f_equal. lia.
Qed.

Lemma next_seq_numbered body : numbered (s_turns body) → _next_seq body = Z.of_nat (length (s_turns body)).
Proof.
  unfold numbered, _next_seq. intros ->. destruct (length (s_turns body)) as [|n]; [done|]. csimpl.
  rewrite (foldl_max_seq n 0). lia.
Qed.

Lemma append_turn_journal body role action i o p :
  intact GENESIS_PREV_HASH (s_turns body) → numbered (s_turns body) →
  let turns := _append_turn body role action i o p in
  intact GENESIS_PREV_HASH turns ∧ numbered turns.
Proof.
  intros Hi Hn. unfold _append_turn. simpl. split.
  - apply intact_snoc. split; [done|]. simpl. by rewrite intact_head.
  - unfold numbered. rewrite fmap_app, length_app, Hn, seq_app, fmap_app. simpl. by rewrite next_seq_numbered.
Qed.

(** ** Clarifications *)

(** The record is linked to a clarify turn and its hash is right. *)
Definition clarified (body : IntentSession) (r : json) : Prop :=
  ∃ m s, r = JObj m ∧ jget "clar_id" m = JStr s ∧ Some s ∈ clarify_refs body ∧
         jget "record_hash" m = JStr (body_hash (JObj (filter (fun kv => kv.1 ≠ "record_hash") m))).

Lemma check_clarification_nil body idx r : clarified body r → check_clarification body idx r = Ok [].
Proof.
  intros (m & s & -> & Hid & Hin & Hh). unfold check_clarification. rewrite Hid. simpl.
  rewrite bool_decide_true by done. rewrite Hh. by rewrite (proj2 (json_eqb_eq _ _) eq_refl).
Qed.

Lemma verify_clarifications_nil body :
  Forall (clarified body) (_clarifications body) → verify_clarifications body = Ok [].
Proof.
  unfold verify_clarifications. intros H.
  rewrite (mapM_res_map _ (fun _ => [])).
  - simpl. f_equal. by induction (imap pair (_clarifications body)).
  - intros [i r] (j & r' & [= -> ->] & Hr)%elem_of_lookup_imap. apply check_clarification_nil.
    rewrite Forall_lookup in H. by eapply H.
Qed.

Lemma clarified_mono body body' r :
  clarify_refs body ⊆ clarify_refs body' → clarified body r → clarified body' r.
Proof. intros Hsub (m & s & ? & ? & ? & ?). exists m, s. auto. Qed.

Lemma append_turn_refs body role action i o p :
  t_output_ref <$> filter (fun t => t_action t = "clarify") (_append_turn body role action i o p) =
  clarify_refs body ++ (if decide (action = AClarify) then [o] else []).
Proof.
  unfold _append_turn, clarify_refs. rewrite filter_app, fmap_app. f_equal. by destruct action.
Qed.

Lemma clarify_record_good body clar_id w q d r1 r2 body' :
  Some clar_id ∈ clarify_refs body' →
  let rc := clarify_record body clar_id w q d r1 r2 in
  clarified body' (JObj (rc ++ [("record_hash", JStr (body_hash (JObj rc)))])).
Proof. intros Hin. eexists _, clar_id. by repeat split. Qed.

(** ** The invariant of a session *)

Definition by_human_accept (t : Turn) : Prop := t_role t = "human" ∧ t_action t = "accept".

(** The step, the status and the sign-off agree; a session at [accept] or
    later was accepted by a human. *)
Record session_ok (body : IntentSession) : Prop := {
  ok_intact : intact GENESIS_PREV_HASH (s_turns body);
  ok_numbered : numbered (s_turns body);
  ok_clarified : Forall (clarified body) (_clarifications body);
  ok_step : ∃ step,
    s_current_step body = step_value step ∧
    (5 ≤ step_index step → ∃ t, t ∈ s_turns body ∧ by_human_accept t) ∧
    ((s_status body = "working" ∧ step ≠ SEALED ∧ s_sign_off body = None) ∨
     (s_status body = "sealed" ∧ step = SEALED ∧ is_Some (s_sign_off body) ∧
      ∃ t, last (s_turns body) = Some t ∧ t_role t = "human"))
}.

Inductive evolves (body : IntentSession) : IntentSession → Prop :=
| ev_advance facts role so note body' :
    advance body facts role so note = Done body' → evolves body body'
| ev_revert to_step role reason body' :
    revert body to_step role reason = Done body' → evolves body body'
| ev_clarify disposition role question warning reason resolution body' :
    clarify body disposition role question warning reason resolution = Done body' → evolves body body'
| ev_embed docs body' :
    embed_completeness body docs = Done body' → evolves body body'
| ev_seal signer docs ds verify_passed scope hash existing signed_at body' :
    Session.seal body signer docs ds verify_passed scope hash existing signed_at = Done body' → evolves body body'.

Lemma parse_step_value s : parse_step (step_value s) = Some s.
Proof. by destruct s. Qed.

Lemma current_step_ok body current :
  _current_step body = Ok current → s_current_step body = step_value current.
Proof.
  unfold _current_step. destruct (parse_step (s_current_step body)) as [s|] eqn:E; [|done]. intros [= ->].
  unfold parse_step in E. apply List.find_some in E as [_ E]. by apply String.eqb_eq in E.
Qed.

Lemma next_step_spec s t : next_step s = Some t → step_index t = S (step_index s).
Proof. by destruct s; intros [= <-]. Qed.

(** What an advance that succeeds did. *)
Lemma advance_done body facts role so note body' :
  advance body facts role so note = Done body' →
  s_status body = "working" ∧
  ∃ current target action st so',
    s_current_step body = step_value current ∧ next_step current = Some target ∧
    (target ∈ HUMAN_ONLY_STEPS → role = "human") ∧
    check_gate target facts = Done tt ∧
    sealing body target so = Done (st, so') ∧
    entry_action target = Ok action ∧
    body' = moved body target st so' (_append_turn body role action None note None).
Proof.
  unfold advance. intros H. apply bind_done in H as ([] & _ & H).
  apply bind_done in H as ([] & Hw & H). apply require_done, String.eqb_eq in Hw. split; [done|].
  apply bind_done in H as (current & Hc & H).
  destruct (_current_step body) as [c|] eqn:Ec; simplify_eq/=. apply current_step_ok in Ec.
  destruct (next_step current) as [target|] eqn:En; [|done].
  apply bind_done in H as ([] & Hh & H). apply require_done in Hh.
  apply bind_done in H as ([] & Hg & H). apply bind_done in H as ([st so'] & Hs & H).
  apply bind_done in H as (action & Ha & H). destruct (entry_action target) as [a|] eqn:Ea; simplify_eq/=.
  exists current, target, action, st, so'. repeat split; try done.
  intros Hin. rewrite bool_decide_true in Hh by done. simpl in Hh. by apply String.eqb_eq in Hh.
Qed.

Lemma session_ok_working body : session_ok body → s_status body = "working" → s_sign_off body = None.
Proof.
  intros Hok Hw. destruct (ok_step body Hok) as (step & _ & _ & [(_ & _ & ?)|(Hs & _)]); [done|].
  rewrite Hw in Hs. done.
Qed.

Lemma clarified_append body body' role action i o p :
  session_ok body → s_metadata body' = s_metadata body →
  s_turns body' = _append_turn body role action i o p →
  Forall (clarified body') (_clarifications body').
Proof.
  intros Hok Hm Ht. replace (_clarifications body') with (_clarifications body)
    by (unfold _clarifications; by rewrite Hm).
  eapply Forall_impl; [apply (ok_clarified body Hok)|]. intros r. apply clarified_mono.
  unfold clarify_refs at 2. rewrite Ht, append_turn_refs. set_solver.
Qed.

Lemma sealing_inv body target so st so' :
  sealing body target so = Done (st, so') →
  (target ≠ SEALED ∧ st = s_status body ∧ so' = s_sign_off body) ∨
  (target = SEALED ∧ st = "sealed" ∧ is_Some so').
Proof.
  unfold sealing. case_decide; [|intros [= <- <-]; by left].
  destruct so, (s_sign_off body) eqn:E; intros H'; simplify_eq/=; right; by repeat split.
Qed.

Lemma advance_ok body facts role so note body' :
  session_ok body → advance body facts role so note = Done body' → session_ok body'.
Proof.
  intros Hok H. apply advance_done in H as (Hw & current & target & action & st & so' & Hcur & Hn & Hh & _ & Hs & Ha & ->).
  destruct (append_turn_journal body role action None note None (ok_intact _ Hok) (ok_numbered _ Hok)) as [Hi Hnum].
  pose proof (session_ok_working body Hok Hw) as Hno.
  assert (∃ t, last (_append_turn body role action None note None) = Some t ∧ t_role t = role ∧
               t_action t = action_value action) as (t & Hlast & Hrole & Hact).
  { unfold _append_turn. rewrite last_snoc. by eexists. }
  split; simpl; [done|done|by eapply clarified_append|].
  exists target. split; [done|]. split.
  - intros Hidx. destruct (decide (target = ACCEPT)) as [->|Hna].
    + exists t. split; [by eapply last_Some_elem_of|]. injection Ha as <-. split; [|done].
      rewrite Hrole. apply Hh. set_solver.
    + destruct (ok_step body Hok) as (step & Hstep & Hacc & _).
      assert (step = current) as ->. { rewrite Hcur in Hstep. by destruct step, current. }
      destruct Hacc as (t' & Hin & Ht'); [|exists t'; split; [unfold _append_turn; set_solver|done]].
      apply next_step_spec in Hn. destruct target; simpl in *; try lia; done.
  - apply sealing_inv in Hs as [(Hne & -> & ->)|(-> & -> & Hso)]; [left; by rewrite Hno|].
    right. repeat split; try done. exists t. split; [done|]. rewrite Hrole. apply Hh. set_solver.
Qed.

Lemma revert_ok body to_step role reason body' :
  session_ok body → revert body to_step role reason = Done body' → session_ok body'.
Proof.
  intros Hok. unfold revert. intros H. apply bind_done in H as ([] & _ & H).
  apply bind_done in H as ([] & Hw & H). apply require_done, String.eqb_eq in Hw.
  apply bind_done in H as ([] & _ & H). apply bind_done in H as (current & Hc & H).
  destruct (_current_step body) as [c|] eqn:Ec; simplify_eq/=. apply current_step_ok in Ec.
  apply bind_done in H as ([] & Hlt & H). apply require_done, bool_decide_eq_true in Hlt. injection H as <-.
  destruct (append_turn_journal body role ANote None (Some ("revert: " +:+ reason)) None (ok_intact _ Hok) (ok_numbered _ Hok)) as [Hi Hnum].
  pose proof (session_ok_working body Hok Hw) as Hno.
  assert (step_index to_step < 6) as Hlt6 by (destruct current; simpl in *; lia).
  split; simpl; [done|done|by eapply clarified_append|].
  exists to_step. split; [done|]. split.
  - intros Hidx. destruct (ok_step body Hok) as (step & Hstep & Hacc & _).
    assert (step = current) as -> by (rewrite Ec in Hstep; by destruct step, current).
    destruct Hacc as (t & Hin & Ht); [lia|]. exists t. split; [unfold _append_turn; set_solver|done].
  - left. rewrite Hw, Hno. by destruct to_step; simpl in Hlt6; try lia.
Qed.

Lemma clarifications_set body l m :
  s_metadata body = dict_set "clarifications" (JArr l) m → _clarifications body = l.
Proof. unfold _clarifications, jget. intros ->. by rewrite alookup_dict_set, decide_True by done. Qed.

Lemma clarify_ok body d role q w r1 r2 body' :
  session_ok body → clarify body d role q w r1 r2 = Done body' → session_ok body'.
Proof.
  intros Hok. unfold clarify. intros H. apply bind_done in H as ([] & _ & H).
  apply bind_done in H as ([] & Hw & H). apply require_done, String.eqb_eq in Hw.
  apply bind_done in H as ([] & _ & H). apply bind_done in H as ([] & _ & H). injection H as <-.
  set (cid := "clar." +:+ pretty (length (_clarifications body))).
  destruct (append_turn_journal body role AClarify w (Some cid) None (ok_intact _ Hok) (ok_numbered _ Hok)) as [Hi Hnum].
  split; simpl; [done|done| |].
  - match goal with |- Forall _ (_clarifications ?b) => rewrite (clarifications_set b _ (s_metadata body) eq_refl) end. apply Forall_app. split.
    + eapply Forall_impl; [apply (ok_clarified body Hok)|]. intros r. apply clarified_mono.
      unfold clarify_refs at 2. simpl. rewrite append_turn_refs. set_solver.
    + constructor; [|constructor]. apply clarify_record_good. unfold clarify_refs. simpl.
      rewrite append_turn_refs. set_solver.
  - destruct (ok_step body Hok) as (step & Hstep & Hacc & Hst). exists step. split; [done|]. split.
    + intros Hidx. destruct (Hacc Hidx) as (t & ? & ?). exists t. split; [unfold _append_turn; set_solver|done].
    + destruct Hst as [?|(Hs & _)]; [by left|]. rewrite Hw in Hs. done.
Qed.

Lemma embed_ok body docs body' :
  session_ok body → embed_completeness body docs = Done body' → session_ok body'.
Proof.
  intros Hok. unfold embed_completeness. intros H. apply bind_done in H as ([] & _ & H).
  apply bind_done in H as (r & _ & H). injection H as <-. by destruct Hok.
Qed.

Lemma seal_advances body signer docs ds vp scope h existing at_ body' :
  Session.seal body signer docs ds vp scope h existing at_ = Done body' →
  ∃ so, advance body (mkFacts (completeness_no_error body) vp true) "human" (Some so) None = Done body' ∧
        so_signer so = signer ∧
        ∃ r g, check_documents SEAL docs ds = Ok r ∧
          so_completeness_snapshot so = default [] (as_mapping (report_json r)) ∧
          jget "sealed" (default [] (as_mapping (report_json r))) = JBool true ∧
          gr_passed g = true ∧
          evaluate_consistency (Some (default [] (as_mapping (report_json r))))
            (Some (py_str other_str (jget "profile" (default [] (as_mapping (report_json r))))))
            (Some vp) true h existing [] = Ok g ∧
          s_current_step body = "accept".
Proof.
  unfold Session.seal. intros H. do 2 apply bind_done in H as ([] & _ & H).
  apply bind_done in H as (current & Hc & H). apply bind_done in H as ([] & Hn & H).
  apply require_done, bool_decide_eq_true in Hn.
  destruct (_current_step body) as [c|] eqn:Ec; simplify_eq/=. apply current_step_ok in Ec.
  apply bind_done in H as (r & Hr & H). destruct (check_documents SEAL docs ds) as [r'|] eqn:Er; simplify_eq/=.
  apply bind_done in H as (g & Hg & H). destruct (evaluate_consistency _ _ _ _ _ _ _) as [g'|] eqn:Eg; simplify_eq/=.
  apply bind_done in H as ([] & Hp & H). apply require_done, andb_true_iff in Hp as [Hs Hp].
  apply json_eqb_eq in Hs. eexists. split; [exact H|]. split; [done|]. exists r, g.
  repeat split; try done. rewrite Ec. by destruct current.
Qed.

Lemma evolves_ok body body' : session_ok body → evolves body body' → session_ok body'.
Proof.
  intros Hok [facts role so note b H|t role reason b H|d role q w r1 r2 b H|docs b H|signer docs ds vp sc h ex at_ b H].
  - by eapply advance_ok.
  - by eapply revert_ok.
  - by eapply clarify_ok.
  - by eapply embed_ok.
  - apply seal_advances in H as (so & H & _). by eapply advance_ok.
Qed.

Lemma new_session_ok id root : session_ok (new_session id root).
Proof. split; simpl; [done|done|constructor|]. exists DRAFT. split; [done|]. split; [simpl; lia|by left]. Qed.

Lemma reachable_ok id root body : rtc evolves (new_session id root) body → session_ok body.
Proof.
  intros H. assert (session_ok (new_session id root)) as Hok by apply new_session_ok.
  revert Hok. induction H; eauto using evolves_ok.
Qed.

(** A sealed session is read-only. *)
Lemma sealed_frozen body body' : s_status body = "sealed" → ¬ evolves body body'.
Proof.
  intros Hs H. assert (s_status body = "working") as Hw; [|by rewrite Hs in Hw].
  destruct H as [facts role so note b H|t role reason b H|d role q w r1 r2 b H|docs b H|signer docs ds vp sc h ex at_ b H].
  - by apply advance_done in H as [? _].
  - apply bind_done in H as ([] & _ & H). apply bind_done in H as ([] & Hw & _). by apply require_done, String.eqb_eq in Hw.
  - apply bind_done in H as ([] & _ & H). apply bind_done in H as ([] & Hw & _). by apply require_done, String.eqb_eq in Hw.
  - apply bind_done in H as ([] & Hw & _). by apply require_done, String.eqb_eq in Hw.
  - apply bind_done in H as ([] & Hw & _). by apply require_done, String.eqb_eq in Hw.
Qed.

(** ** Sealing *)

Lemma report_json_sealed r :
  cr_mode r = SEAL → jget "sealed" (default [] (as_mapping (report_json r))) = JBool (sealed r).
Proof.
  intros Hm. unfold report_json. rewrite Hm.
  match goal with |- context [_normalize (JObj ?l)] => destruct (jget_normalize "sealed" l) as (l' & -> & Hl') end.
  - apply (bool_decide_unpack _). by vm_compute.
  - simpl in *. rewrite Hl'. done.
Qed.

Lemma report_json_errors r :
  ∃ s, jget "summary" (default [] (as_mapping (report_json r))) = JObj s ∧
       jget "errors" s = JInt (Z.of_nat (report_errors r)).
Proof.
  unfold report_json.
  match goal with |- context [_normalize (JObj ?l)] => destruct (jget_normalize "summary" l) as (l' & -> & Hl') end.
  - destruct (cr_mode r); apply (bool_decide_unpack _); by vm_compute.
  - simpl in Hl' |- *. rewrite Hl'.
    assert (NoDup ((summary_json r).*1)) as Hnd.
    { unfold summary_json. destruct (cr_mode r); apply (bool_decide_unpack _); by vm_compute. }
    destruct (jget_normalize "errors" _ Hnd) as (s & Hs & He). exists s. split; [exact Hs|]. by rewrite He.
Qed.

(** Sealing succeeds only on a working session at [accept], with a
    signer, a passed verification, a requirement whose recomputed
    completeness report is sealed, and no exact duplicate; the result is
    sealed, signed by the signer over that report. *)
Theorem seal_closes body signer docs ds vp scope h existing at_ body' :
  Session.seal body signer docs ds vp scope h existing at_ = Done body' →
  s_status body = "working" ∧ s_current_step body = "accept" ∧
  s_status body' = "sealed" ∧ s_current_step body' = "sealed" ∧
  vp = true ∧ (∀ x, h = Some x → x ≠ "" → x ∉ existing) ∧
  ∃ r so, check_documents SEAL docs ds = Ok r ∧ sealed r = true ∧
          s_sign_off body' = Some so ∧ so_signer so = signer ∧
          so_completeness_snapshot so = default [] (as_mapping (report_json r)).
Proof.
  intros H. apply seal_advances in H as (so & Hadv & Hsig & r & g & Hr & Hsnap & Hsealed & Hg & Heval & Hcur).
  apply advance_done in Hadv as (Hw & c & target & action & st & so' & Hc & Hn & _ & _ & Hs & _ & ->).
  assert (c = ACCEPT) as ->. { rewrite Hcur in Hc. by destruct c. }
  injection Hn as <-. simpl in Hs. injection Hs as <- <-.
  destruct (proj1 (gate_passes _ _ _ _ _ _ _ _ Heval) Hg) as (_ & Hvp & Hdup).
  split; [done|]. split; [done|]. split; [done|]. split; [done|].
  split; [by destruct Hvp as [[= ->]|[? _]]|]. split; [done|].
  exists r, so. split; [done|]. split; [|done].
  pose proof (compute_mode _ _ _ _ _ _ _ _ _ Hr) as Hm.
  rewrite (report_json_sealed r Hm) in Hsealed. by injection Hsealed.
Qed.

(** ** The head of the journal commits to the journal *)

Definition same_text (a b : option string) : Prop := _normalize_string <$> a = _normalize_string <$> b.

(** Equal up to line ends and surrounding blanks. *)
Definition same_turn (a b : Turn) : Prop :=
  t_seq a = t_seq b ∧
  same_text (Some (t_role a)) (Some (t_role b)) ∧ same_text (Some (t_action a)) (Some (t_action b)) ∧
  same_text (t_input_ref a) (t_input_ref b) ∧ same_text (t_output_ref a) (t_output_ref b) ∧
  same_text (t_provider a) (t_provider b).

Lemma normalize_opt_json a b :
  _normalize_value (opt_json a) = _normalize_value (opt_json b) → same_text a b.
Proof. unfold same_text. destruct a, b; simpl; congruence. Qed.

Lemma payload_field k t p l :
  _normalize_value (_turn_payload t p) = JObj l →
  jget k l = _normalize_value (jget k (match _turn_payload t p with JObj m => m | _ => [] end)).
Proof.
  intros H. unfold _turn_payload in *. eapply jget_normalize_value; [|exact H].
  apply (bool_decide_unpack _). by vm_compute.
Qed.

Lemma payload_inj t1 t2 p1 p2 :
  _normalize_value (_turn_payload t1 p1) = _normalize_value (_turn_payload t2 p2) →
  same_turn t1 t2 ∧ _normalize_string p1 = _normalize_string p2.
Proof.
  intros H. destruct (_normalize_value (_turn_payload t2 p2)) as [| | | | | |l] eqn:E2; try done.
  assert (∀ k, _normalize_value (jget k (match _turn_payload t1 p1 with JObj m => m | _ => [] end)) =
               _normalize_value (jget k (match _turn_payload t2 p2 with JObj m => m | _ => [] end))) as Hk.
  { intros k. by rewrite <- (payload_field k t1 p1 l H), <- (payload_field k t2 p2 l E2). }
  pose proof (Hk "seq") as H1. pose proof (Hk "role") as H2. pose proof (Hk "action") as H3.
  pose proof (Hk "input_ref") as H4. pose proof (Hk "output_ref") as H5. pose proof (Hk "provider") as H6.
  pose proof (Hk "prev_hash") as H7. simpl in H1, H2, H3, H7. unfold jget in H4, H5, H6. simpl in H4, H5, H6.
  unfold same_turn. split; [|congruence]. split; [congruence|].
  unfold same_text at 1 2. simpl. split; [congruence|]. split; [congruence|].
  split; [by apply normalize_opt_json|]. split; by apply normalize_opt_json.
Qed.

Lemma chain_head_clean turns :
  _normalize_string (chain_head GENESIS_PREV_HASH turns) = chain_head GENESIS_PREV_HASH turns.
Proof.
  destruct turns as [|t turns _] using rev_ind; [done|]. unfold chain_head. rewrite foldl_app. simpl.
  apply body_digest_text.
Qed.

Lemma chain_head_snoc prev turns t :
  chain_head prev (turns ++ [t]) = turn_content_hash t (chain_head prev turns).
Proof. unfold chain_head. by rewrite foldl_app. Qed.

Lemma chain_head_inj `{!InjBodyDigest} ts1 ts2 :
  chain_head GENESIS_PREV_HASH ts1 = chain_head GENESIS_PREV_HASH ts2 → Forall2 same_turn ts1 ts2.
Proof.
  revert ts2. induction ts1 as [|t1 ts1 IH] using rev_ind; intros ts2 Heq;
    destruct ts2 as [|t2 ts2 _] using rev_ind.
  - constructor.
  - rewrite chain_head_snoc in Heq. by destruct (body_digest_text (_normalize_value (_turn_payload t2 (chain_head GENESIS_PREV_HASH ts2)))) as [[] _].
  - rewrite chain_head_snoc in Heq. by destruct (body_digest_text (_normalize_value (_turn_payload t1 (chain_head GENESIS_PREV_HASH ts1)))) as [[] _].
  - rewrite !chain_head_snoc in Heq. apply body_digest_inj, payload_inj in Heq as [Ht Hp].
    rewrite !chain_head_clean in Hp. apply Forall2_app; [by apply IH|by constructor].
Qed.

(** With a hash without collisions, the hash of the last turn of an intact
    journal commits to the whole journal: two intact journals with the
    same head have the same turns, up to line ends and surrounding blanks. *)
Lemma journal_head_commits `{!InjBodyDigest} body1 body2 :
  verify_journal body1 = [] → verify_journal body2 = [] →
  head_hash (s_turns body1) = head_hash (s_turns body2) →
  Forall2 same_turn (s_turns body1) (s_turns body2).
Proof.
  unfold verify_journal. rewrite !journal_issues_nil. intros H1 H2. rewrite !intact_head by done.
  apply chain_head_inj.
Qed.
(** C24: a session reached from a new one by any transitions has an intact
    journal numbered from 0 and sound clarifications; it is sealed exactly
    when it stands at the last step, and then it has a sign-off, a human made
    the last turn and a human accepted before; a sealed session changes no
    more.  With a hash without collisions its last turn commits to the whole
    journal: an intact journal with the same head has the same turns, up to
    line ends and surrounding blanks. *)
Theorem reachable_session id root body :
  rtc evolves (new_session id root) body →
  verify_journal body = [] ∧
  verify_clarifications body = Ok [] ∧
  t_seq <$> s_turns body = Z.of_nat <$> seq 0 (length (s_turns body)) ∧
  (s_status body = "sealed" ↔ s_current_step body = "sealed") ∧
  (s_status body = "sealed" →
   is_Some (s_sign_off body) ∧
   (∃ t, last (s_turns body) = Some t ∧ t_role t = "human") ∧
   (∃ t, t ∈ s_turns body ∧ t_role t = "human" ∧ t_action t = "accept") ∧
   ∀ body', ¬ evolves body body') ∧
  (InjBodyDigest → ∀ body2, verify_journal body2 = [] → head_hash (s_turns body) = head_hash (s_turns body2) →
   Forall2 same_turn (s_turns body) (s_turns body2)).
Proof.
  intros H. apply reachable_ok in H as Hok.
  assert (verify_journal body = []) as Hj by (by apply journal_issues_nil, ok_intact). split; [done|].
  split; [by apply verify_clarifications_nil, ok_clarified|]. split; [by apply ok_numbered|].
  rewrite (assoc (∧)). split; [|intros ? body2; by apply journal_head_commits].
  destruct (ok_step body Hok) as (step & Hstep & Hacc & [(Hw & Hne & _)|(Hs & -> & Hso & Hlast)]).
  - rewrite Hw, Hstep. split; [|done]. split; [done|]. by destruct step.
  - rewrite Hs, Hstep. split; [done|]. intros _. split; [done|]. split; [done|].
    destruct Hacc as (t & ? & ? & ?); [simpl; lia|]. split; [by exists t|]. intros body'. by apply sealed_frozen.
Qed.
End spec.

(** ** A design session from draft to seal *)

From S2P Require Import Prelude PyVal PyConv State Artifact Profile Completeness.
From S2P Require Import IntentGate Session.
From stdpp Require Import base gmap strings list relations.
From Stdlib Require Import ZArith Lia.

#[local] Existing Instance plain_text.

(** A digest that tells nothing apart: enough to run the transitions. *)
Definition flat_digest : BodyDigest.
Proof. refine {| body_digest _ := "h" |}. by intros _. Defined.

Definition done_or (d : IntentSession) (r : attempt IntentSession) : IntentSession :=
  match r with Done b => b | _ => d end.

Section example.
#[local] Existing Instance flat_digest.

Definition all_facts : GateFacts := mkFacts true true true.

Definition step_on (b : IntentSession) : IntentSession := done_or b (advance b all_facts "human" None None).

(** At [accept], with a clarification on the way. *)
Definition clarified_session : IntentSession :=
  done_or (new_session "" "") (clarify (step_on (new_session "s1" "i1")) "merge" "human" None (Some "w1") "" "merged").

Definition accepted : IntentSession := step_on (step_on (step_on (step_on clarified_session))).

Definition docs_example : documents := mkDocuments root_profile intent_example None None [] initial_registry.

Definition sealed_session : IntentSession :=
  done_or accepted (Session.seal accepted "ada" docs_example how_waived true None (Some "h1") ["h2"] None).

Lemma accepted_reachable : rtc evolves (new_session "s1" "i1") accepted.
Proof.
  eapply rtc_l; [eapply (ev_advance _ all_facts "human" None None); vm_compute; reflexivity|].
  eapply rtc_l; [eapply (ev_clarify _ "merge" "human" None (Some "w1") "" "merged"); vm_compute; reflexivity|].
  do 4 (eapply rtc_l; [eapply (ev_advance _ all_facts "human" None None); vm_compute; reflexivity|]).
  apply rtc_refl.
Qed.

Lemma sealed_example_done :
  Session.seal accepted "ada" docs_example how_waived true None (Some "h1") ["h2"] None = Done sealed_session.
Proof. by vm_compute. Qed.

Lemma sealed_reachable : rtc evolves (new_session "s1" "i1") sealed_session.
Proof. eapply rtc_r; [apply accepted_reachable|]. eapply ev_seal. apply sealed_example_done. Qed.

Lemma seal_closes_witness :
  s_current_step accepted = "accept" ∧ s_current_step sealed_session = "sealed" ∧
  ∃ r so, check_documents SEAL docs_example how_waived = Ok r ∧ sealed r = true ∧
          s_sign_off sealed_session = Some so ∧ so_signer so = "ada".
Proof.
  destruct (seal_closes accepted "ada" docs_example how_waived true None (Some "h1") ["h2"] None sealed_session)
    as (_ & H2 & _ & H4 & _ & _ & r & so & Hr & Hs & Hso & Hsig & _).
  - vm_compute. reflexivity.
  - split; [exact H2|]. split; [exact H4|]. exists r, so. repeat split; assumption.
Defined.
End example.

Section tamper.
#[local] Existing Instance number_digest.
#[local] Existing Instance number_digest_inj.

Definition noted (note : string) : IntentSession :=
  done_or (new_session "" "") (advance (new_session "s1" "i1") all_facts "agent" None (Some note)).

(** A sealed session, and two sessions whose turns differ in blanks around a
    reference: their hashes agree. *)
Lemma reachable_session_witness :
  (@verify_journal flat_digest sealed_session = [] ∧ s_status sealed_session = "sealed" ∧
   length (s_turns sealed_session) = 7 ∧ ∀ body', ¬ @evolves flat_digest plain_text sealed_session body') ∧
  t_output_ref <$> s_turns (noted "draft ready") ≠ t_output_ref <$> s_turns (noted " draft ready ") ∧
  Forall2 same_turn (s_turns (noted "draft ready")) (s_turns (noted " draft ready ")).
Proof.
  split; [|split; [intros H; discriminate H|]].
  - destruct (@reachable_session flat_digest plain_text "s1" "i1" sealed_session sealed_reachable)
      as (H1 & _ & _ & _ & H5 & _).
    split; [exact H1|]. split; [vm_compute; reflexivity|]. split; [vm_compute; reflexivity|].
    apply H5. vm_compute. reflexivity.
  - destruct (reachable_session "s1" "i1" (noted "draft ready")) as (_ & _ & _ & _ & _ & H6).
    + apply rtc_once, (ev_advance _ all_facts "agent" None (Some "draft ready")). reflexivity.
    + apply (H6 number_digest_inj); [|reflexivity]. apply journal_issues_nil. split; [reflexivity|exact I].
Defined.

(** Dropping the last turns leaves an intact journal. *)
Lemma truncation_unnoticed `{BodyDigest} n turns idx prev :
  journal_issues idx prev turns = [] → journal_issues idx prev (take n turns) = [].
Proof.
  rewrite !journal_issues_nil. revert n prev. induction turns as [|t turns IH]; intros [|n] prev; simpl; try done.
  intros [? ?]. auto.
Qed.
End tamper.
