(* ===== verification/SessionStore.v ===== *)
(** * Stored sessions ([tm/artifacts/models.py], lines 753 to 888,
    [tm/intent/session_store.py])

    Reading a session from its document, writing it, and the store with one
    document per session.  The JSON schema check is a parameter (it belongs
    to a library); a document is kept with its keys sorted, as the text has
    them. *)

From S2P Require Import Prelude PyVal PyConv State Artifact Profile Completeness IntentGate.
From S2P Require Import Session SessionSpec.
From stdpp Require Import base gmap strings list pretty.
From Stdlib Require Import ZArith Lia Ascii.

(** ** Reading *)

Definition _SESSION_STATUSES : list string := ["working"; "sealed"].
Definition _DESIGN_STEPS : list string := ["draft"; "check_5w1h"; "propose"; "refine"; "verify"; "accept"; "sealed"].
Definition _TURN_ROLES : list string := ["human"; "agent"].
Definition _TURN_ACTIONS : list string := ["propose"; "refine"; "check_5w1h"; "verify"; "accept"; "clarify"; "note"].

(** [repr(sorted(words))]. *)
Definition listing (words : list string) : string :=
  "[" +:+ join_with ", " ((fun w => "'" +:+ w +:+ "'") <$> sort_strings words) +:+ "]".

(** A required text of a vocabulary. *)
Definition word_of (raw : table) (key name : string) (vocabulary : list string) : res string :=
  v ← _require_field raw key;
  s ← _ensure_str v name;
  if decide (s ∈ vocabulary) then Ok s else Raise (ValueError (name +:+ " must be one of " +:+ listing vocabulary +:+ ", got '" +:+ s +:+ "'")).

Definition turn_from_mapping (data : json) : res Turn :=
  raw ← _ensure_dict data "turn";
  seq_value ← _require_field raw "seq";
  match seq_value with
  | JInt seq =>
      role ← word_of raw "role" "turn.role" _TURN_ROLES;
      action ← word_of raw "action" "turn.action" _TURN_ACTIONS;
      i ← opt_str raw "input_ref" "turn.input_ref";
      o ← opt_str raw "output_ref" "turn.output_ref";
      p ← opt_str raw "provider" "turn.provider";
      h ← opt_str raw "turn_hash" "turn.turn_hash";
      Ok (mkTurn seq role action i o p h)
  | _ => Raise (TypeError "turn.seq must be an integer")
  end.

Section reading.
Context {PT : PyText}.

(** [_ensure_dict(data.get(key) or {}, name)]. *)
Definition opt_dict (raw : table) (key name : string) : res table := _ensure_dict (jor (jget key raw) (JObj [])) name.

Definition sign_off_from_mapping (data : json) : res SignOff :=
  raw ← _ensure_dict data "sign_off";
  sv ← _require_field raw "signer";
  signer ← _ensure_str sv "sign_off.signer";
  scope ← _force_list (jget "scope" raw) "sign_off.scope";
  snapshot ← opt_dict raw "completeness_snapshot" "sign_off.completeness_snapshot";
  ds ← opt_dict raw "dispositions" "sign_off.dispositions";
  g ← opt_str raw "gate_report_hash" "sign_off.gate_report_hash";
  a ← opt_str raw "signed_at" "sign_off.signed_at";
  h ← opt_str raw "sign_hash" "sign_off.sign_hash";
  Ok (mkSignOff signer scope snapshot ds g a h).

Definition read_turns (v : json) : res (list Turn) :=
  match v with
  | JNull => Ok []
  | _ => l ← _ensure_sequence v "turns"; mapM turn_from_mapping l
  end.

(** A field that is read only when it is there. *)
Definition when_some {A} (v : json) (f : json → res A) : res (option A) :=
  match v with JNull => Ok None | _ => Some <$> f v end.

Definition session_from_mapping (data : table) : res IntentSession :=
  status ← word_of data "status" "status" _SESSION_STATUSES;
  current_step ← word_of data "current_step" "current_step" _DESIGN_STEPS;
  turns ← read_turns (jget "turns" data);
  iv ← _require_field data "session_id";
  session_id ← _ensure_str iv "session_id";
  rv ← _require_field data "root_intent_ref";
  root ← _ensure_str rv "root_intent_ref";
  completeness ← when_some (jget "completeness" data) (fun v => _ensure_dict v "completeness");
  refs ← _force_list (jget "produced_refs" data) "produced_refs";
  so ← when_some (jget "sign_off" data) sign_off_from_mapping;
  metadata ← opt_dict data "metadata" "metadata";
  Ok (mkSession session_id root status current_step turns completeness refs so metadata).

(** ** Writing *)

Definition _turn_to_raw (t : Turn) : table :=
  [("seq", JInt (t_seq t)); ("role", JStr (t_role t)); ("action", JStr (t_action t))] ++
  opt_field "input_ref" (JStr <$> t_input_ref t) ++ opt_field "output_ref" (JStr <$> t_output_ref t) ++
  opt_field "provider" (JStr <$> t_provider t) ++ opt_field "turn_hash" (JStr <$> t_turn_hash t).

(** A field that is written when it is not empty. *)
Definition full_field (key : string) (v : json) : table := if truthy v then [(key, v)] else [].

Definition _sign_off_to_raw (so : SignOff) : table :=
  [("signer", JStr (so_signer so))] ++
  full_field "scope" (JArr (JStr <$> so_scope so)) ++
  full_field "completeness_snapshot" (JObj (so_completeness_snapshot so)) ++
  full_field "dispositions" (JObj (so_dispositions so)) ++
  opt_field "gate_report_hash" (JStr <$> so_gate_report_hash so) ++
  opt_field "signed_at" (JStr <$> so_signed_at so) ++ opt_field "sign_hash" (JStr <$> so_sign_hash so).

Definition session_body_to_raw (b : IntentSession) : table :=
  [("session_id", JStr (s_session_id b)); ("root_intent_ref", JStr (s_root_intent_ref b));
   ("status", JStr (s_status b)); ("current_step", JStr (s_current_step b));
   ("turns", JArr ((fun t => JObj (_turn_to_raw t)) <$> s_turns b));
   ("produced_refs", JArr (JStr <$> s_produced_refs b))] ++
  opt_field "completeness" (JObj <$> s_completeness b) ++
  opt_field "sign_off" ((fun so => JObj (_sign_off_to_raw so)) <$> s_sign_off b) ++
  full_field "metadata" (JObj (s_metadata b)).

(** ** The store *)

Definition id_char (c : ascii) : bool :=
  let n := nat_of_ascii c in (((97 <=? n) && (n <=? 122)) || ((48 <=? n) && (n <=? 57)))%nat.

Definition id_separator (c : ascii) : bool := Ascii.eqb c "." || Ascii.eqb c "_" || Ascii.eqb c "-".

(** The regular expression [^[a-z0-9]+(?:[._-][a-z0-9]+)*$]; [$] also matches
    before a final line end. *)
Fixpoint id_from (in_word : bool) (s : string) : bool :=
  match s with
  | EmptyString => in_word
  | String c s' =>
      if id_char c then id_from true s'
      else if in_word && id_separator c then id_from false s'
      else in_word && Ascii.eqb c "010" && String.eqb s' ""
  end.

Definition valid_id (session_id : string) : bool := id_from false session_id.

Definition _validate_id (session_id : string) : res string :=
  if valid_id session_id then Ok session_id
  else Raise (ValueError ("invalid session_id '" +:+ session_id +:+ "'")).

(** The documents by file name, without [.json]. *)
Abbreviation store := (gmap string json) (only parsing).

Definition store_load (files : gmap string json) (session_id : string) : res IntentSession :=
  id ← _validate_id session_id;
  match files !! id with
  | None => Raise (KeyError session_id)
  | Some (JObj data) =>
      match jget "body" data with
      | JObj body_raw => session_from_mapping body_raw
      | _ => Raise (ValueError "session artifact missing 'body' section")
      end
  | Some _ => Raise (ValueError "session artifact is not a mapping")
  end.

Definition session_envelope {BD : BodyDigest} (b : IntentSession) (created_by now : string) : table :=
  [("artifact_id", JStr (s_session_id b));
   ("status", JStr (if String.eqb (s_status b) "sealed" then "accepted" else "candidate"));
   ("artifact_type", JStr "intent_session"); ("version", JStr "v0.4");
   ("created_by", JStr created_by); ("created_at", JStr now);
   ("body_hash", JStr (body_hash (JObj (session_body_to_raw b)))); ("envelope_hash", JStr ""); ("meta", JObj [])].

Definition store_save {BD : BodyDigest} (schema_errors : json → option string) (files : gmap string json)
    (b : IntentSession) (created_by now : string) : res (gmap string json) :=
  match schema_errors (JObj (session_body_to_raw b)) with
  | Some e => Raise (RuntimeError e)
  | None =>
      id ← _validate_id (s_session_id b);
      Ok (<[id := _normalize (JObj [("envelope", JObj (session_envelope b created_by now));
                                     ("body", JObj (session_body_to_raw b))])]> files)
  end.

(** ** A stored session is read back *)

Definition sorted_table (m : table) : table := default [] (as_mapping (_normalize (JObj m))).

Definition sorted_sign_off (so : SignOff) : SignOff :=
  mkSignOff (so_signer so) (so_scope so) (sorted_table (so_completeness_snapshot so))
    (sorted_table (so_dispositions so)) (so_gate_report_hash so) (so_signed_at so) (so_sign_hash so).

(** The session with the keys of its mappings sorted. *)
Definition sorted_session (b : IntentSession) : IntentSession :=
  mkSession (s_session_id b) (s_root_intent_ref b) (s_status b) (s_current_step b) (s_turns b)
    (sorted_table <$> s_completeness b) (s_produced_refs b) (sorted_sign_off <$> s_sign_off b)
    (sorted_table (s_metadata b)).

(** Words of the vocabularies. *)
Definition turn_words (t : Turn) : Prop := t_role t ∈ _TURN_ROLES ∧ t_action t ∈ _TURN_ACTIONS.

Definition session_words (b : IntentSession) : Prop :=
  s_status b ∈ _SESSION_STATUSES ∧ s_current_step b ∈ _DESIGN_STEPS ∧ Forall turn_words (s_turns b).

Lemma normalize_obj m : _normalize (JObj m) = JObj (sorted_table m).
Proof. done. Qed.

Lemma jget_sorted k m : NoDup (m.*1) → jget k (sorted_table m) = _normalize (jget k m).
Proof. intros Hnd. destruct (jget_normalize k m Hnd) as (l & Hl & <-). unfold sorted_table. by rewrite Hl. Qed.

Lemma word_of_ok raw key name voc s :
  jget key raw = JStr s → s ∈ voc → word_of raw key name voc = Ok s.
Proof. intros Hk Hin. unfold word_of, _require_field. rewrite Hk. simpl. by rewrite decide_True. Qed.

Lemma opt_str_ok raw key name (o : option string) :
  jget key raw = match o with Some s => JStr s | None => JNull end → opt_str raw key name = Ok o.
Proof. unfold opt_str. intros ->. by destruct o. Qed.

Lemma force_list_ok v name (l : list string) :
  v = JArr (JStr <$> l) ∨ (l = [] ∧ v = JNull) → _force_list v name = Ok l.
Proof.
  intros [->|[-> ->]]; [|done]. simpl. f_equal. induction l as [|s l IH]; [done|]. csimpl. by rewrite IH.
Qed.

Lemma normalize_strings l : _normalize (JArr (JStr <$> l)) = JArr (JStr <$> l).
Proof. simpl. f_equal. induction l as [|s l IH]; [done|]. csimpl. by rewrite IH. Qed.

Lemma turn_roundtrip t :
  turn_words t → turn_from_mapping (_normalize (JObj (_turn_to_raw t))) = Ok t.
Proof.
  intros [Hr Ha]. rewrite normalize_obj.
  assert (∀ k, jget k (sorted_table (_turn_to_raw t)) = _normalize (jget k (_turn_to_raw t))) as Hk.
  { intros k. apply jget_sorted. destruct t as [s r a [] [] [] []]; apply (bool_decide_unpack _); by vm_compute. }
  unfold turn_from_mapping. simpl. unfold _require_field. rewrite (Hk "seq"). simpl.
  rewrite (word_of_ok _ "role" _ _ (t_role t)), (word_of_ok _ "action" _ _ (t_action t)) by (rewrite ?Hk; done). simpl.
  rewrite (opt_str_ok _ "input_ref" _ (t_input_ref t)), (opt_str_ok _ "output_ref" _ (t_output_ref t)),
    (opt_str_ok _ "provider" _ (t_provider t)), (opt_str_ok _ "turn_hash" _ (t_turn_hash t));
    [by destruct t|rewrite Hk; by destruct t as [s r a [] [] [] []]..].
Qed.

Lemma sorted_truthy kv m : truthy (JObj (sorted_table (kv :: m))) = true.
Proof.
  unfold sorted_table. simpl. destruct kv as [k v].
  match goal with |- context [sort_items ?l] => pose proof (Permutation_length (sort_items_perm l)) as H end.
  destruct (sort_items _); simpl in *; done.
Qed.

Lemma opt_dict_ok raw key name m :
  jget key raw = (if truthy (JObj m) then _normalize (JObj m) else JNull) → opt_dict raw key name = Ok (sorted_table m).
Proof.
  unfold opt_dict, jor. intros ->. destruct m as [|kv m]; [done|].
  change (truthy (JObj (kv :: m))) with true. cbv iota. rewrite normalize_obj.
  by rewrite sorted_truthy.
Qed.

Lemma sign_off_roundtrip so :
  sign_off_from_mapping (_normalize (JObj (_sign_off_to_raw so))) = Ok (sorted_sign_off so).
Proof.
  rewrite normalize_obj.
  assert (∀ k, jget k (sorted_table (_sign_off_to_raw so)) = _normalize (jget k (_sign_off_to_raw so))) as Hk.
  { intros k. apply jget_sorted.
    destruct so as [s [|? ?] [|? ?] [|? ?] [] [] []]; apply (bool_decide_unpack _); by vm_compute. }
  unfold sign_off_from_mapping. simpl. unfold _require_field. rewrite (Hk "signer"). simpl.
  rewrite (force_list_ok _ _ (so_scope so)).
  2:{ rewrite Hk. destruct so as [s [|x l] [|? ?] [|? ?] [] [] []]; (by right) || (left; apply (normalize_strings (x :: l))). }
  simpl. rewrite (opt_dict_ok _ "completeness_snapshot" _ (so_completeness_snapshot so)),
    (opt_dict_ok _ "dispositions" _ (so_dispositions so)) by (rewrite Hk; by destruct so as [s [|? ?] [|? ?] [|? ?] [] [] []]).
  simpl. rewrite (opt_str_ok _ "gate_report_hash" _ (so_gate_report_hash so)), (opt_str_ok _ "signed_at" _ (so_signed_at so)),
    (opt_str_ok _ "sign_hash" _ (so_sign_hash so)); [done|rewrite Hk; by destruct so as [s [|? ?] [|? ?] [|? ?] [] [] []]..].
Qed.

Lemma session_roundtrip b :
  session_words b → session_from_mapping (sorted_table (session_body_to_raw b)) = Ok (sorted_session b).
Proof.
  intros (Hs & Hc & Ht).
  assert (∀ k, jget k (sorted_table (session_body_to_raw b)) = _normalize (jget k (session_body_to_raw b))) as Hk.
  { intros k. apply jget_sorted.
    destruct b as [? ? ? ? ? [] ? [] [|? ?]]; apply (bool_decide_unpack _); by vm_compute. }
  unfold session_from_mapping.
  rewrite (word_of_ok _ "status" _ _ (s_status b)), (word_of_ok _ "current_step" _ _ (s_current_step b)) by (rewrite ?Hk; done).
  simpl. rewrite (Hk "turns"). simpl.
  assert (mapM turn_from_mapping (_normalize <$> ((fun t => JObj (_turn_to_raw t)) <$> s_turns b)) = Ok (s_turns b)) as ->.
  { rewrite <- list_fmap_compose. apply mapM_res_ok, Forall2_fmap_l, Forall_Forall2_diag.
    eapply Forall_impl; [exact Ht|]. apply turn_roundtrip. }
  assert (when_some (_normalize (jget "completeness" (session_body_to_raw b))) (fun v => _ensure_dict v "completeness") =
          Ok (sorted_table <$> s_completeness b)) as Hcomp.
  { by destruct b as [? ? ? ? ? [] ? [] [|? ?]]. }
  assert (when_some (_normalize (jget "sign_off" (session_body_to_raw b))) sign_off_from_mapping =
          Ok (sorted_sign_off <$> s_sign_off b)) as Hso.
  { destruct (s_sign_off b) as [so|] eqn:E.
    - replace (jget "sign_off" (session_body_to_raw b)) with (JObj (_sign_off_to_raw so))
        by (destruct b as [? ? ? ? ? [] ? [] [|? ?]]; simpl in E; by simplify_eq).
      rewrite normalize_obj. unfold when_some. rewrite <- normalize_obj, sign_off_roundtrip. done.
    - by destruct b as [? ? ? ? ? [] ? [] [|? ?]]. }
  simpl mbind. unfold _require_field. rewrite (Hk "session_id"), (Hk "root_intent_ref"), (Hk "completeness"), (Hk "sign_off").
  rewrite Hcomp, Hso, (force_list_ok _ _ (s_produced_refs b)) by (left; rewrite Hk; apply normalize_strings).
  rewrite (opt_dict_ok _ "metadata" _ (s_metadata b)) by (rewrite Hk; by destruct b as [? ? ? ? ? [] ? [] [|? ?]]).
  done.
Qed.

Lemma store_load_document files id env raw :
  valid_id id = true → files !! id = Some (_normalize (JObj [("envelope", env); ("body", JObj raw)])) →
  store_load files id = session_from_mapping (sorted_table raw).
Proof.
  intros Hid Hf. unfold store_load, _validate_id. rewrite Hid. simpl mbind. rewrite Hf, normalize_obj.
  rewrite jget_sorted by (apply (bool_decide_unpack _); by vm_compute).
  by change (jget "body" [("envelope", env); ("body", JObj raw)]) with (JObj raw).
Qed.
End reading.

(** C7: what a store wrote it reads back: a session with words of the
    vocabularies under a valid id, saved, is the session loaded, up to the
    order of keys inside its mappings; other sessions are as they were. *)
Theorem store_roundtrip {BD : BodyDigest} {PT : PyText} schema_errors files b created_by now files' :
  store_save schema_errors files b created_by now = Ok files' → session_words b →
  store_load files' (s_session_id b) = Ok (sorted_session b) ∧
  ∀ id, id ≠ s_session_id b → store_load files' id = store_load files id.
Proof.
  unfold store_save. destruct (schema_errors _); [done|]. unfold _validate_id.
  destruct (valid_id (s_session_id b)) eqn:Hid; [|done]. intros [= <-] Hw. split.
  - rewrite <- session_roundtrip by done. apply (store_load_document _ _ (JObj (session_envelope b created_by now))); [done|].
    rewrite lookup_insert, decide_True by done. reflexivity.
  - intros id Hne. unfold store_load, _validate_id. destruct (valid_id id); simpl; [|done].
    by rewrite lookup_insert_ne by done.
Qed.

Definition stored_example : IntentSession :=
  mkSession "s1" "i1" "working" "draft" [mkTurn 0 "agent" "note" None (Some "x") None None] None [] None
    [("z", JInt 1); ("a", JInt 2)].

Definition files_example : gmap string json :=
  match @store_save number_digest (fun _ => None) ∅ stored_example "tm" "now" with Ok f => f | Raise _ => ∅ end.

Lemma store_roundtrip_witness :
  @store_load plain_text files_example "s1" = Ok (sorted_session stored_example) ∧
  s_metadata (sorted_session stored_example) = [("a", JInt 2); ("z", JInt 1)].
Proof.
  split; [|vm_compute; reflexivity].
  apply (@store_roundtrip number_digest plain_text (fun _ => None) ∅ stored_example "tm" "now" files_example);
    [reflexivity|].
  split; [left|]. split; [left|]. constructor; [|constructor]. split; [right; left|do 6 right; left].
Defined.
