(* ===== verification/Dsl.v ===== *)
(** * The parser of the workflow and policy languages ([tm/dsl/parser.py])

    Documents are mappings and lists by indentation.  A text becomes lines, the
    lines a tree with source locations, or an error with its place.  Columns
    count characters, as in the code. *)

From S2P Require Import Prelude PyVal PyConv Completeness.
From stdpp Require Import base gmap strings list.
From Stdlib Require Import ZArith Lia Ascii.

Record SourceLocation : Type := mkLoc { loc_line : nat; loc_column : nat }.

Record DslParseError : Type := mkDslError {
  de_message : string;
  de_location : option SourceLocation
}.

Inductive RawNode : Type :=
| RawScalar (value : string) (loc : SourceLocation)
| RawMapping (entries : list (option string * SourceLocation * RawNode)) (loc : SourceLocation)
| RawSequence (items : list RawNode) (loc : SourceLocation).

Inductive parsed (A : Type) : Type :=
| Parsed (a : A)
| Failed (e : DslParseError).
Arguments Parsed {A} _.
Arguments Failed {A} _.

Record Line : Type := mkLine {
  ln_number : nat;
  ln_indent : nat;
  ln_content : string
}.

Definition _error {A} (message : string) (line : Line) (column : nat) : parsed A :=
  Failed (mkDslError message (Some (mkLoc (ln_number line) (1 `max` column)))).

(** ** Lines *)

(** The line ends of [str.splitlines], ASCII part. *)
Definition line_end (c : ascii) : bool :=
  let n := nat_of_ascii c in (((10 <=? n) && (n <=? 13)) || ((28 <=? n) && (n <=? 30)))%nat.

(** The current line and the lines after it; a text that ends in a line end
    has no empty last line. *)
Fixpoint splitlines_from (s : string) : string * list string :=
  match s with
  | EmptyString => (EmptyString, [])
  | String c s' =>
      if Ascii.eqb c "013" then
        match s' with
        | String c' s'' =>
            if Ascii.eqb c' "010"
            then let '(l, ls) := splitlines_from s'' in
                 (EmptyString, if String.eqb s'' "" then [] else l :: ls)
            else let '(l, ls) := splitlines_from s' in (EmptyString, l :: ls)
        | EmptyString => (EmptyString, [])
        end
      else if line_end c then
        let '(l, ls) := splitlines_from s' in
        (EmptyString, if String.eqb s' "" then [] else l :: ls)
      else let '(l, ls) := splitlines_from s' in (String c l, ls)
  end.

Definition splitlines (s : string) : list string :=
  if String.eqb s "" then [] else let '(l, ls) := splitlines_from s in l :: ls.

Definition indent_char (c : ascii) : bool := Ascii.eqb c " " || Ascii.eqb c "009".

(** The blanks in front, and the rest. *)
Fixpoint span_blank (s : string) : string * string :=
  match s with
  | String c s' => if indent_char c then let '(a, b) := span_blank s' in (String c a, b) else (EmptyString, s)
  | EmptyString => (EmptyString, EmptyString)
  end.

(** [fragment.index("\t")]. *)
Fixpoint tab_index (s : string) : option nat :=
  match s with
  | EmptyString => None
  | String c s' => if Ascii.eqb c "009" then Some 0 else S <$> tab_index s'
  end.

Fixpoint prepare_from (line_no : nat) (raw : list string) : parsed (list Line) :=
  match raw with
  | [] => Parsed []
  | current :: raw =>
      if String.eqb (strip current) "" then prepare_from (S line_no) raw
      else
        let '(fragment, content) := span_blank current in
        match tab_index fragment with
        | Some i => Failed (mkDslError "Tabs are not allowed for indentation" (Some (mkLoc line_no (i + 1))))
        | None =>
            if String.prefix "#" (lstrip content) then prepare_from (S line_no) raw
            else
              match prepare_from (S line_no) raw with
              | Failed e => Failed e
              | Parsed lines => Parsed (mkLine line_no (String.length fragment) content :: lines)
              end
        end
  end.

Definition _prepare_lines (text : string) : parsed (list Line) := prepare_from 1 (splitlines text).

(** ** Entries *)

(** Inside which quotes the scan is, and whether the next character is
    escaped. *)
Record scan_state : Type := mkScan { in_single : bool; in_double : bool; escape_next : bool }.

(** The text before the separator and the text after it. *)
Fixpoint find_separator (st : scan_state) (s : string) : option (string * string) :=
  match s with
  | EmptyString => None
  | String c s' =>
      let go st := match find_separator st s' with Some (a, b) => Some (String c a, b) | None => None end in
      if escape_next st then go (mkScan (in_single st) (in_double st) false)
      else if Ascii.eqb c "\" then go (mkScan (in_single st) (in_double st) true)
      else if Ascii.eqb c "'" && negb (in_double st) then go (mkScan (negb (in_single st)) (in_double st) false)
      else if Ascii.eqb c "034" && negb (in_single st) then go (mkScan (in_single st) (negb (in_double st)) false)
      else if in_single st || in_double st then go st
      else if negb (Ascii.eqb c ":") then go st
      else if String.prefix "=" s' then go st
      else Some (EmptyString, s')
  end.

Definition _find_mapping_separator (content : string) : option (string * string) :=
  find_separator (mkScan false false false) content.

(** How many characters [lstrip] drops. *)
Definition dropped (s : string) : nat := text_length s - text_length (lstrip s).

(** [text.endswith(":")], with what comes before. *)
Fixpoint strip_colon (s : string) : option string :=
  match s with
  | EmptyString => None
  | String c EmptyString => if Ascii.eqb c ":" then Some EmptyString else None
  | String c s' => String c <$> strip_colon s'
  end.

Definition is_item (content : string) : bool := String.prefix "- " content.

(** ** Blocks *)

Inductive block : Type := BMapping | BSequence.

(** What the parser is at: the entries of a mapping or the items of a list,
    at an indentation. *)
Abbreviation entry := (option string * SourceLocation * RawNode)%type (only parsing).

Record pieces : Type := mkPieces {
  pc_entries : list (option string * SourceLocation * RawNode);
  pc_items : list RawNode
}.

Definition add_entry (e : option string * SourceLocation * RawNode) (p : pieces) : pieces :=
  mkPieces (e :: pc_entries p) (pc_items p).
Definition add_item (n : RawNode) (p : pieces) : pieces := mkPieces (pc_entries p) (n :: pc_items p).

(** The block that starts at a line. *)
Definition node_of (b : block) (first : Line) (p : pieces) : RawNode :=
  let loc := mkLoc (ln_number first) (ln_indent first + 1) in
  match b with BMapping => RawMapping (pc_entries p) loc | BSequence => RawSequence (pc_items p) loc end.

Definition block_of (line : Line) : block := if is_item (ln_content line) then BSequence else BMapping.

(** A result that may run out of fuel; [Some] otherwise. *)
Definition then_ {A B} (m : option (parsed A)) (f : A → option (parsed B)) : option (parsed B) :=
  match m with
  | None => None
  | Some (Failed e) => Some (Failed e)
  | Some (Parsed a) => f a
  end.

(** [_parse_mapping] and [_parse_sequence]: the pieces of a block at
    [expected], and the lines after it.  [cur] is the list of lines left. *)
Fixpoint parse_block (fuel : nat) (b : block) (expected : nat) (lines : list Line)
  : option (parsed (pieces * list Line)) :=
  match fuel with
  | O => None
  | S fuel =>
      (* the block nested at the next line *)
      let nested lines' (k : RawNode → list Line → option (parsed (pieces * list Line))) :=
        match lines' with
        | [] => None
        | next :: _ =>
            then_ (parse_block fuel (block_of next) (ln_indent next) lines')
              (fun r => k (node_of (block_of next) next r.1) r.2)
        end in
      let continue add lines' :=
        then_ (parse_block fuel b expected lines') (fun r => Some (Parsed (add r.1, r.2))) in
      match lines with
      | [] => Some (Parsed (mkPieces [] [], []))
      | line :: rest =>
          if ln_indent line <? expected then Some (Parsed (mkPieces [] [], lines))
          else if expected <? ln_indent line then
            Some (_error (match b with
                          | BMapping => "Unexpected indentation (expected begin of mapping entry)"
                          | BSequence => "Unexpected indentation within list item" end) line (ln_indent line + 1))
          else
            match b with
            | BMapping =>
                if is_item (ln_content line)
                then Some (_error "List item not allowed in mapping context" line (ln_indent line + 1))
                else
                  match _find_mapping_separator (ln_content line) with
                  | None =>
                      let loc := mkLoc (ln_number line) (ln_indent line + 1) in
                      continue (add_entry (None, loc, RawScalar (ln_content line) loc)) rest
                  | Some (key_text, raw_value) =>
                      let key := strip key_text in
                      if String.eqb key "" then Some (_error "Key cannot be empty" line (ln_indent line + 1))
                      else
                        let key_loc := mkLoc (ln_number line) (ln_indent line + dropped key_text + 1) in
                        let value_text := lstrip raw_value in
                        let value_loc := mkLoc (ln_number line)
                          (ln_indent line + text_length key_text + 2 + dropped raw_value) in
                        let entry v := add_entry (Some key, key_loc, v) in
                        if negb (String.eqb value_text "")
                        then continue (entry (RawScalar value_text value_loc)) rest
                        else
                          match rest with
                          | next :: _ =>
                              if ln_indent next <=? expected
                              then continue (entry (RawMapping [] value_loc)) rest
                              else nested rest (fun v lines' => continue (entry v) lines')
                          | [] => continue (entry (RawMapping [] value_loc)) rest
                          end
                  end
            | BSequence =>
                if negb (is_item (ln_content line))
                then Some (_error "Expected '-' to start list item" line (ln_indent line + 1))
                else
                  let raw_value := String.substring 2 (String.length (ln_content line) - 2) (ln_content line) in
                  let value_text := lstrip raw_value in
                  let value_loc := mkLoc (ln_number line) (ln_indent line + 3 + dropped raw_value) in
                  let deeper := match rest with next :: _ => expected <? ln_indent next | [] => false end in
                  if String.eqb value_text "" then
                    if deeper then nested rest (fun v lines' => continue (add_item v) lines')
                    else Some (_error "Expected indented block after list item" line (ln_indent line + 1))
                  else
                    match strip_colon value_text with
                    | Some before =>
                        let key := rstrip before in
                        if String.eqb key "" then Some (_error "Empty key in list item mapping" line (ln_indent line + 1))
                        else
                          let item v := RawMapping [(Some key, value_loc, v)] (mkLoc (ln_number line) (ln_indent line + 1)) in
                          if deeper then nested rest (fun v lines' => continue (add_item (item v)) lines')
                          else continue (add_item (item (RawMapping [] value_loc))) rest
                    | None => continue (add_item (RawScalar value_text value_loc)) rest
                    end
            end
      end
  end.

(** [_parse_document]; the root's entries and location. *)
Definition parse_lines (fuel : nat) (lines : list Line) : option (parsed RawNode) :=
  match lines with
  | [] => Some (Failed (mkDslError "Document is empty" None))
  | first :: _ =>
      if negb (ln_indent first =? 0)
      then Some (_error "Document must start at the top indentation level" first (ln_indent first + 1))
      else
        then_ (parse_block fuel BMapping 0 lines) (fun r =>
          match r.2 with
          | [] => Some (Parsed (node_of BMapping first r.1))
          | extra :: _ => Some (_error "Unexpected content after document body" extra (ln_indent extra + 1))
          end)
  end.

Definition parse_wdl (text : string) : option (parsed RawNode) :=
  match _prepare_lines text with
  | Failed e => Some (Failed e)
  | Parsed lines => parse_lines (S (length lines)) lines
  end.

(** The two languages share their parser. *)
Definition parse_pdl (text : string) : option (parsed RawNode) := parse_wdl text.

(** ** The parser returns, and reads back what is written *)

From S2P Require Import Prelude PyVal PyConv Completeness.
From stdpp Require Import base gmap strings list.
From Stdlib Require Import ZArith Lia Ascii.

(** ** It returns *)

(** A block leaves at most the lines it was given. *)
Definition returns (lines : list Line) (r : option (parsed (pieces * list Line))) : Prop :=
  match r with
  | None => False
  | Some (Failed _) => True
  | Some (Parsed (_, rest)) => length rest ≤ length lines
  end.

Lemma then_returns {A} lines (m : option (parsed A)) f :
  match m with None => False | Some (Failed _) => True | Some (Parsed a) => returns lines (f a) end →
  returns lines (then_ m f).
Proof. destruct m as [[a|e]|]; done. Qed.

Lemma parse_block_returns fuel b expected lines :
  length lines < fuel → returns lines (parse_block fuel b expected lines).
Proof.
  revert b expected lines. induction fuel as [|fuel IH]; intros b expected lines Hf; [lia|].
  destruct lines as [|line rest]; [simpl; lia|]. simpl in Hf.
  assert (∀ add lines', length lines' ≤ length rest →
    returns (line :: rest) (then_ (parse_block fuel b expected lines') (fun r => Some (Parsed (add r.1, r.2))))) as Hcont.
  { intros add lines' Hl. apply then_returns. specialize (IH b expected lines' ltac:(lia)).
    destruct (parse_block fuel b expected lines') as [[[p r]|e]|]; simpl in *; lia || done. }
  assert (∀ b' e' k, (∀ r, length r.2 ≤ length rest → returns (line :: rest) (k r)) →
    returns (line :: rest) (then_ (parse_block fuel b' e' rest) k)) as Hnest.
  { intros b' e' k Hk. apply then_returns. specialize (IH b' e' rest ltac:(lia)).
    destruct (parse_block fuel b' e' rest) as [[[p r]|e]|]; simpl in *; [by apply Hk|done|done]. }
  cbn [parse_block]. destruct (ln_indent line <? expected); [simpl; lia|].
  destruct (expected <? ln_indent line); [done|]. destruct b.
  - destruct (is_item (ln_content line)); [done|].
    destruct (_find_mapping_separator (ln_content line)) as [[kt rv]|]; [|by apply Hcont].
    destruct (String.eqb (strip kt) ""); [done|]. destruct (String.eqb (lstrip rv) ""); simpl; [|by apply Hcont].
    destruct rest as [|next rest']; [by apply Hcont|]. destruct (ln_indent next <=? expected); [by apply Hcont|].
    apply Hnest. intros r Hr. by apply Hcont.
  - destruct (is_item (ln_content line)); simpl; [|done].
    destruct (String.eqb (lstrip _) "").
    + destruct rest as [|next rest']; [done|]. destruct (expected <? ln_indent next); [|done].
      apply Hnest. intros r Hr. by apply Hcont.
    + destruct (strip_colon _) as [before|]; [|by apply Hcont].
      destruct (String.eqb (rstrip before) ""); [done|].
      destruct rest as [|next rest']; [by apply Hcont|]. destruct (expected <? ln_indent next); [|by apply Hcont].
      apply Hnest. intros r Hr. by apply Hcont.
Qed.

Lemma parse_lines_returns lines : is_Some (parse_lines (S (length lines)) lines).
Proof.
  destruct lines as [|first rest]; [by eexists|]. unfold parse_lines.
  destruct (negb _); [by eexists|].
  pose proof (parse_block_returns (S (length (first :: rest))) BMapping 0 (first :: rest) ltac:(lia)) as H.
  destruct (parse_block _ _ _ _) as [[[p r]|e]|]; simpl in *; [|by eexists|done].
  destruct r; by eexists.
Qed.

Lemma parse_wdl_returns text : is_Some (parse_wdl text).
Proof. unfold parse_wdl. destruct (_prepare_lines text); [apply parse_lines_returns|by eexists]. Qed.

(** An error about a line names a line of the text and a column from 1. *)
Definition placed (n : nat) (e : DslParseError) : Prop :=
  match de_location e with None => True | Some l => 1 ≤ loc_line l ≤ n ∧ 1 ≤ loc_column l end.

(** More fuel does not change a result. *)
Lemma then_mono {A B} (m m' : option (parsed A)) (f f' : A → option (parsed B)) r :
  (∀ x, m = Some x → m' = Some x) → (∀ a y, f a = Some y → f' a = Some y) →
  then_ m f = Some r → then_ m' f' = Some r.
Proof. intros Hm Hf. destruct m as [[a|e]|]; simpl; [| |done]; rewrite (Hm _ eq_refl); simpl; auto. Qed.

Lemma parse_block_mono n m b expected lines r :
  n ≤ m → parse_block n b expected lines = Some r → parse_block m b expected lines = Some r.
Proof.
  revert m b expected lines r. induction n as [|n IH]; intros m b expected lines r Hle H; [done|].
  destruct m as [|m]; [lia|]. assert (n ≤ m) as Hnm by lia. revert H. cbn [parse_block].
  destruct lines as [|line rest]; [done|].
  destruct (ln_indent line <? expected); [done|]. destruct (expected <? ln_indent line); [done|].
  assert (∀ (add : pieces → pieces) b lines' r,
    then_ (parse_block n b expected lines') (fun x => Some (Parsed (add x.1, x.2))) = Some r →
    then_ (parse_block m b expected lines') (fun x => Some (Parsed (add x.1, x.2))) = Some r) as Hcont.
  { intros add b' lines' r'. apply then_mono; [|done]. intros x. by apply IH. }
  destruct b.
  - destruct (is_item (ln_content line)); [done|].
    destruct (_find_mapping_separator (ln_content line)) as [[kt rv]|]; [|apply Hcont].
    destruct (String.eqb (strip kt) ""); [done|]. destruct (String.eqb (lstrip rv) ""); simpl; [|apply Hcont].
    destruct rest as [|next rest']; [apply Hcont|]. destruct (ln_indent next <=? expected); [apply Hcont|].
    apply then_mono; [intros x; by apply IH|]. intros a y. apply Hcont.
  - destruct (is_item (ln_content line)); simpl; [|done].
    destruct (String.eqb (lstrip _) "").
    + destruct rest as [|next rest']; [done|]. destruct (expected <? ln_indent next); [|done].
      apply then_mono; [intros x; by apply IH|]. intros a y. apply Hcont.
    + destruct (strip_colon _) as [before|]; [|apply Hcont].
      destruct (String.eqb (rstrip before) ""); [done|].
      destruct rest as [|next rest']; [apply Hcont|]. destruct (expected <? ln_indent next); [|apply Hcont].
      apply then_mono; [intros x; by apply IH|]. intros a y. apply Hcont.
Qed.

(** ** Trees and how they are written *)

Inductive tree : Type :=
| TScalar (value : string)
| TMap (entries : list (option string * tree))
| TSeq (items : list tree).

Section tree_ind.
Context (P : tree → Prop).
Context (Hs : ∀ v, P (TScalar v)) (Hm : ∀ es, Forall (fun e => P e.2) es → P (TMap es))
        (Hq : ∀ l, Forall P l → P (TSeq l)).

Fixpoint tree_ind' (t : tree) : P t :=
  match t with
  | TScalar v => Hs v
  | TMap es =>
      Hm es ((fix go es : Forall (fun e => P e.2) es :=
                match es with
                | [] => Forall_nil_2 _
                | e :: es => Forall_cons_2 _ _ _ (tree_ind' e.2) (go es)
                end) es)
  | TSeq l =>
      Hq l ((fix go l : Forall P l :=
               match l with [] => Forall_nil_2 _ | t :: l => Forall_cons_2 _ _ _ (tree_ind' t) (go l) end) l)
  end.
End tree_ind.

(** A parse tree without its locations. *)
Fixpoint erase (n : RawNode) : tree :=
  match n with
  | RawScalar v _ => TScalar v
  | RawMapping es _ =>
      TMap ((fix go (es : list (option string * SourceLocation * RawNode)) :=
               match es with [] => [] | (k, _, v) :: es => (k, erase v) :: go es end) es)
  | RawSequence l _ => TSeq (erase <$> l)
  end.

Definition erase_entry (e : option string * SourceLocation * RawNode) : option string * tree := (e.1.1, erase e.2).

Lemma erase_mapping es loc : erase (RawMapping es loc) = TMap (erase_entry <$> es).
Proof. simpl. f_equal. induction es as [|[[k l] v] es IH]; [done|]. csimpl. by rewrite IH. Qed.

(** A block as lines: indentation and content. *)
Fixpoint show (n : nat) (t : tree) : list (nat * string) :=
  match t with
  | TScalar _ => []
  | TMap es =>
      flat_map (fun e =>
        match e with
        | (Some k, TScalar v) => [(n, k +:+ ": " +:+ v)]
        | (Some k, t) => (n, k +:+ ":") :: show (n + 2) t
        | (None, TScalar v) => [(n, v)]
        | (None, _) => []
        end) es
  | TSeq l =>
      flat_map (fun t =>
        match t with
        | TScalar v => [(n, "- " +:+ v)]
        | t => (n, "- ") :: show (n + 2) t
        end) l
  end.

(** *** Which texts may stand where *)

(** A character that plays no role in the search for a separator. *)
Definition plain_char (c : ascii) : bool :=
  negb (Ascii.eqb c ":") && negb (Ascii.eqb c "\") && negb (Ascii.eqb c "'") && negb (Ascii.eqb c "034") &&
  negb (line_end c).

Definition starts_with_char (p : ascii → bool) (s : string) : bool :=
  match s with String c _ => p c | EmptyString => false end.

(** A text that can begin a line. *)
Definition opens (s : string) : bool :=
  starts_with_char (fun c => negb (is_space c) && negb (Ascii.eqb c "-") && negb (Ascii.eqb c "#")) s &&
  str_forall (fun c => negb (line_end c)) s.

Definition key_ok (k : string) : bool :=
  str_forall plain_char k && opens k && String.eqb (strip k) k.

Definition value_ok (v : string) : bool :=
  starts_with_char (fun c => negb (is_space c)) v && str_forall (fun c => negb (line_end c)) v.

Definition bare_ok (v : string) : bool :=
  opens v && match _find_mapping_separator v with None => true | Some _ => false end.

Definition item_ok (v : string) : bool :=
  value_ok v && match strip_colon v with None => true | Some _ => false end.

(** Keys and scalars that can be written; no empty list, and no empty mapping
    as an item. *)
Fixpoint writable (t : tree) : bool :=
  match t with
  | TScalar v => true
  | TMap es =>
      forallb (fun e =>
        match e with
        | (Some k, TScalar v) => key_ok k && value_ok v
        | (Some k, t) => key_ok k && writable t
        | (None, TScalar v) => bare_ok v
        | (None, _) => false
        end) es
  | TSeq l =>
      negb (match l with [] => true | _ => false end) &&
      forallb (fun t =>
        match t with
        | TScalar v => item_ok v
        | TMap [] => false
        | t => writable t
        end) l
  end.

(** ** Reading lines *)

Lemma opens_item s r : opens s = true → is_item (s +:+ r) = false.
Proof.
  unfold opens. rewrite andb_true_iff. intros [H _]. destruct s as [|c s]; [done|].
  simpl in H. rewrite !andb_true_iff, !negb_true_iff in H. destruct H as [[_ H] _].
  unfold is_item. cbn [String.append String.prefix]. destruct (ascii_dec "-" c) as [<-|]; done.
Qed.

Lemma separator_plain k r :
  str_forall plain_char k = true → String.prefix "=" r = false →
  _find_mapping_separator (k +:+ String ":" r) = Some (k, r).
Proof.
  intros Hk Hr. unfold _find_mapping_separator. induction k as [|c k IH]; simpl.
  - by rewrite Hr.
  - simpl in Hk. apply andb_true_iff in Hk as [Hc Hk]. unfold plain_char in Hc.
    rewrite !andb_true_iff, !negb_true_iff in Hc. destruct Hc as [[[[H1 H2] H3] H4] _].
    rewrite H1, H2, H3, H4. simpl. by rewrite IH.
Qed.

Lemma lstrip_open v : starts_with_char (fun c => negb (is_space c)) v = true → lstrip v = v.
Proof. destruct v as [|c v]; simpl; [done|]. rewrite negb_true_iff. by intros ->. Qed.

Definition shape (l : Line) : nat * string := (ln_indent l, ln_content l).

(** The lines after a block: none, or less indented. *)
Definition below (n : nat) (rest : list Line) : Prop :=
  match rest with [] => True | l :: _ => ln_indent l < n end.

(** The block is read as these pieces. *)
Definition reads_as (b : Dsl.block) (n : nat) (lines rest : list Line) (p : pieces → Prop) : Prop :=
  ∃ fuel q, parse_block fuel b n (lines ++ rest) = Some (Parsed (q, rest)) ∧ p q.

Definition matches_tree (t : tree) (q : pieces) : Prop :=
  match t with
  | TScalar _ => False
  | TMap es => erase_entry <$> pc_entries q = es ∧ pc_items q = []
  | TSeq l => erase <$> pc_items q = l ∧ pc_entries q = []
  end.

Definition tree_block (t : tree) : Dsl.block := match t with TSeq _ => BSequence | _ => BMapping end.

Definition block_reads (t : tree) : Prop :=
  writable t = true → (∀ v, t ≠ TScalar v) →
  ∀ n lines rest, shape <$> lines = show n t → below n rest → reads_as (tree_block t) n lines rest (matches_tree t).

(** The end of a block. *)
Lemma reads_nil b n rest : below n rest → parse_block 1 b n rest = Some (Parsed (mkPieces [] [], rest)).
Proof. destruct rest as [|l rest]; simpl; [done|]. intros H. by rewrite (proj2 (Nat.ltb_lt _ _) H). Qed.

(** One more piece in front. *)
Lemma continue_reads f b n lines rest (add : pieces → pieces) q :
  parse_block f b n (lines ++ rest) = Some (Parsed (q, rest)) →
  then_ (parse_block f b n (lines ++ rest)) (fun r => Some (Parsed (add r.1, r.2))) = Some (Parsed (add q, rest)).
Proof. by intros ->. Qed.

(** Where a line stands at its block's indentation. *)
Lemma at_indent line n : ln_indent line = n → (ln_indent line <? n) = false ∧ (n <? ln_indent line) = false.
Proof. intros ->. by rewrite Nat.ltb_irrefl. Qed.

(** A bare line. *)
Lemma read_bare f n line rest v q rest' :
  shape line = (n, v) → bare_ok v = true →
  parse_block f BMapping n rest = Some (Parsed (q, rest')) →
  ∃ q', parse_block (S f) BMapping n (line :: rest) = Some (Parsed (q', rest')) ∧
        erase_entry <$> pc_entries q' = (None, TScalar v) :: (erase_entry <$> pc_entries q) ∧ pc_items q' = pc_items q.
Proof.
  intros [= Hn Hc] Hok Hq. unfold bare_ok in Hok. apply andb_true_iff in Hok as [Ho Hs].
  cbn [parse_block]. destruct (at_indent line n Hn) as [-> ->]. rewrite Hc.
  rewrite <- (str_app_nil_r v), (opens_item v "" Ho), str_app_nil_r.
  destruct (_find_mapping_separator v); [done|]. rewrite Hq. simpl. by eexists.
Qed.

Lemma key_ok_spec k : key_ok k = true → str_forall plain_char k = true ∧ opens k = true ∧ strip k = k ∧ k ≠ "".
Proof.
  unfold key_ok. rewrite !andb_true_iff, String.eqb_eq. intros [[? Ho] ?]. repeat split; try done.
  intros ->. done.
Qed.

(** A key with a scalar. *)
Lemma read_scalar f n line rest k v q rest' :
  shape line = (n, k +:+ ": " +:+ v) → key_ok k = true → value_ok v = true →
  parse_block f BMapping n rest = Some (Parsed (q, rest')) →
  ∃ q', parse_block (S f) BMapping n (line :: rest) = Some (Parsed (q', rest')) ∧
        erase_entry <$> pc_entries q' = (Some k, TScalar v) :: (erase_entry <$> pc_entries q) ∧ pc_items q' = pc_items q.
Proof.
  intros [= Hn Hc] (Hp & Ho & Hs & Hne)%key_ok_spec Hv Hq.
  apply andb_true_iff in Hv as [Hv _]. assert (v ≠ "") as Hv0 by (by destruct v).
  cbn [parse_block]. destruct (at_indent line n Hn) as [-> ->]. rewrite Hc, (opens_item k _ Ho).
  change (": " +:+ v) with (String ":" (String " " v)). rewrite separator_plain by done. rewrite Hs.
  rewrite (proj2 (String.eqb_neq k "") Hne).
  change (lstrip (String " " v)) with (lstrip v). rewrite (lstrip_open v Hv).
  rewrite (proj2 (String.eqb_neq v "") Hv0). simpl negb. cbv iota. rewrite Hq. simpl. by eexists.
Qed.

Lemma key_line k : key_ok k = true → _find_mapping_separator (k +:+ ":") = Some (k, "").
Proof. intros (Hp & _)%key_ok_spec. by apply separator_plain. Qed.

(** A key whose value is empty: the next line is not deeper. *)
Lemma read_empty f n line rest k q rest' :
  shape line = (n, k +:+ ":") → key_ok k = true → below (S n) rest →
  parse_block f BMapping n rest = Some (Parsed (q, rest')) →
  ∃ q', parse_block (S f) BMapping n (line :: rest) = Some (Parsed (q', rest')) ∧
        erase_entry <$> pc_entries q' = (Some k, TMap []) :: (erase_entry <$> pc_entries q) ∧ pc_items q' = pc_items q.
Proof.
  intros [= Hn Hc] Hk Hb Hq. destruct (key_ok_spec k Hk) as (Hp & Ho & Hs & Hne).
  cbn [parse_block]. destruct (at_indent line n Hn) as [-> ->]. rewrite Hc, (opens_item k _ Ho), (key_line k Hk), Hs.
  rewrite (proj2 (String.eqb_neq k "") Hne). simpl lstrip. simpl negb. cbv iota.
  destruct rest as [|next rest0].
  - rewrite Hq. simpl. by eexists.
  - simpl in Hb. rewrite (proj2 (Nat.leb_le (ln_indent next) n)) by lia. rewrite Hq. simpl. by eexists.
Qed.

Lemma erase_node_of t line q :
  matches_tree t q → (∀ v, t ≠ TScalar v) → erase (node_of (tree_block t) line q) = t.
Proof.
  destruct t as [v|es|l]; intros Hm Ht; [by destruct (Ht v)| |]; destruct Hm as [Hm _]; unfold node_of; simpl tree_block; cbv iota.
  - by rewrite erase_mapping, Hm.
  - simpl. by rewrite Hm.
Qed.

(** A key with a nested block. *)
Lemma read_nested f n line next l1 rest k t q1 q rest' :
  shape line = (n, k +:+ ":") → key_ok k = true → n < ln_indent next →
  block_of next = tree_block t → (∀ v, t ≠ TScalar v) →
  parse_block f (tree_block t) (ln_indent next) ((next :: l1) ++ rest) = Some (Parsed (q1, rest)) → matches_tree t q1 →
  parse_block f BMapping n rest = Some (Parsed (q, rest')) →
  ∃ q', parse_block (S f) BMapping n (line :: (next :: l1) ++ rest) = Some (Parsed (q', rest')) ∧
        erase_entry <$> pc_entries q' = (Some k, t) :: (erase_entry <$> pc_entries q) ∧ pc_items q' = pc_items q.
Proof.
  intros [= Hn Hc] Hk Hlt Hb Ht Hq1 Hm Hq. destruct (key_ok_spec k Hk) as (Hp & Ho & Hs & Hne).
  cbn [parse_block]. destruct (at_indent line n Hn) as [-> ->]. rewrite Hc, (opens_item k _ Ho), (key_line k Hk), Hs.
  rewrite (proj2 (String.eqb_neq k "") Hne). simpl lstrip. simpl negb. cbv iota.
  change ((next :: l1) ++ rest) with (next :: (l1 ++ rest)) in *. cbv iota beta.
  rewrite (proj2 (Nat.leb_gt (ln_indent next) n)) by lia. rewrite Hb, Hq1. simpl then_. rewrite Hq. simpl.
  eexists. split; [done|]. split; [|done]. csimpl. f_equal. unfold erase_entry at 1. simpl. f_equal.
  by apply erase_node_of.
Qed.

Lemma item_rest v : String.substring 2 (String.length ("- " +:+ v) - 2) ("- " +:+ v) = v.
Proof. simpl. rewrite Nat.sub_0_r. apply substring_all. Qed.

(** An item that is a scalar. *)
Lemma read_item f n line rest v q rest' :
  shape line = (n, "- " +:+ v) → item_ok v = true →
  parse_block f BSequence n rest = Some (Parsed (q, rest')) →
  ∃ q', parse_block (S f) BSequence n (line :: rest) = Some (Parsed (q', rest')) ∧
        erase <$> pc_items q' = TScalar v :: (erase <$> pc_items q) ∧ pc_entries q' = pc_entries q.
Proof.
  intros [= Hn Hc] Hok Hq. apply andb_true_iff in Hok as [Hv Hcol]. apply andb_true_iff in Hv as [Hv _].
  cbn [parse_block]. destruct (at_indent line n Hn) as [-> ->].
  change (String "-" (String " " v)) with ("- " +:+ v) in Hc. rewrite Hc.
  replace (is_item ("- " +:+ v)) with true by (by destruct v). simpl negb. cbv iota. rewrite item_rest, (lstrip_open v Hv).
  replace (String.eqb v "") with false by (by destruct v). destruct (strip_colon v); [done|].
  rewrite Hq. simpl. by eexists.
Qed.

(** An item that is a nested block. *)
Lemma read_item_nested f n line next l1 rest t q1 q rest' :
  shape line = (n, "- ") → n < ln_indent next → block_of next = tree_block t → (∀ v, t ≠ TScalar v) →
  parse_block f (tree_block t) (ln_indent next) ((next :: l1) ++ rest) = Some (Parsed (q1, rest)) → matches_tree t q1 →
  parse_block f BSequence n rest = Some (Parsed (q, rest')) →
  ∃ q', parse_block (S f) BSequence n (line :: (next :: l1) ++ rest) = Some (Parsed (q', rest')) ∧
        erase <$> pc_items q' = t :: (erase <$> pc_items q) ∧ pc_entries q' = pc_entries q.
Proof.
  intros [= Hn Hc] Hlt Hb Ht Hq1 Hm Hq. cbn [parse_block]. destruct (at_indent line n Hn) as [-> ->]. rewrite Hc.
  change (is_item "- ") with true. simpl negb. cbv iota. simpl lstrip. cbv iota.
  change ((next :: l1) ++ rest) with (next :: (l1 ++ rest)) in *. cbv iota beta.
  change (String.eqb "" "") with true. cbv iota.
  rewrite (proj2 (Nat.ltb_lt n (ln_indent next)) Hlt), Hb, Hq1. simpl then_. rewrite Hq. simpl.
  eexists. split; [done|]. split; [|done]. csimpl. f_equal. by apply erase_node_of.
Qed.

(** The first line of a block that is not empty. *)
Lemma show_first n t :
  writable t = true → (∀ v, t ≠ TScalar v) → t ≠ TMap [] →
  ∃ c l, show n t = (n, c) :: l ∧ is_item c = match t with TSeq _ => true | _ => false end.
Proof.
  destruct t as [v|[|[[k|] [v|es'|l']] es]|[|[v|[|e es]|l'] l]]; intros Hw Ht Hne; try done.
  - by destruct (Ht v).
  - simpl in Hw. apply andb_true_iff in Hw as [Hw _]. apply andb_true_iff in Hw as [Hk _].
    destruct (key_ok_spec k Hk) as (_ & Ho & _). eexists _, _. split; [done|]. by apply opens_item.
  - simpl in Hw. apply andb_true_iff in Hw as [Hw _]. apply andb_true_iff in Hw as [Hk _].
    destruct (key_ok_spec k Hk) as (_ & Ho & _). eexists _, _. split; [done|]. by apply opens_item.
  - simpl in Hw. apply andb_true_iff in Hw as [Hw _]. apply andb_true_iff in Hw as [Hk _].
    destruct (key_ok_spec k Hk) as (_ & Ho & _). eexists _, _. split; [done|]. by apply opens_item.
  - simpl in Hw. apply andb_true_iff in Hw as [Hw _]. unfold bare_ok in Hw. apply andb_true_iff in Hw as [Ho _].
    eexists _, _. split; [done|]. rewrite <- (str_app_nil_r v). by apply opens_item.
  - eexists _, _. split; [done|]. by destruct v.
  - by eexists _, _.
  - by eexists _, _.
Qed.

(** Lines of a shape, split. *)
Lemma shape_app lines l1 l2 :
  shape <$> lines = l1 ++ l2 → ∃ k1 k2, lines = k1 ++ k2 ∧ shape <$> k1 = l1 ∧ shape <$> k2 = l2.
Proof. intros H. apply fmap_app_inv in H as (k1 & k2 & -> & -> & ->). by exists k1, k2. Qed.

Lemma shape_cons lines x l2 :
  shape <$> lines = x :: l2 → ∃ k1 k2, lines = k1 :: k2 ∧ shape k1 = x ∧ shape <$> k2 = l2.
Proof. destruct lines as [|k1 k2]; simpl; [done|]. intros [= <- <-]. by exists k1, k2. Qed.

(** What follows a piece is not deeper than its block. *)
Lemma below_next n lines rest t :
  (shape <$> lines = show n t) → writable t = true → below n rest → below (S n) (lines ++ rest).
Proof.
  intros Hs Hw Hb. destruct lines as [|l lines]; [destruct rest; simpl in *; [done|lia]|]. simpl.
  destruct t as [v|[|e es]|q]; [done|done| |].
  - destruct (show_first n (TMap (e :: es))) as (c & l0 & Hl & _); [done..|].
    rewrite Hl in Hs. injection Hs as Hs _ _. lia.
  - destruct (show_first n (TSeq q)) as (c & l0 & Hl & _); [done..|].
    rewrite Hl in Hs. injection Hs as Hs _ _. lia.
Qed.

(** Two results with enough fuel for both. *)
Lemma fuel_max f1 f2 b1 n1 l1 r1 b2 n2 l2 r2 :
  parse_block f1 b1 n1 l1 = Some r1 → parse_block f2 b2 n2 l2 = Some r2 →
  parse_block (f1 `max` f2) b1 n1 l1 = Some r1 ∧ parse_block (f1 `max` f2) b2 n2 l2 = Some r2.
Proof. intros H1 H2. split; eapply parse_block_mono; [|exact H1| |exact H2]; lia. Qed.

Lemma nested_first n t l1 :
  writable t = true → (∀ v, t ≠ TScalar v) → t ≠ TMap [] →
  shape <$> l1 = show (n + 2) t →
  ∃ next l2, l1 = next :: l2 ∧ ln_indent next = n + 2 ∧ block_of next = tree_block t.
Proof.
  intros Hw Ht Hne Hs. destruct (show_first (n + 2) t Hw Ht Hne) as (c & l & Hl & Hi). rewrite Hl in Hs.
  apply shape_cons in Hs as (next & l2 & -> & [= H1 H2] & _). exists next, l2. repeat split; try done.
  unfold block_of. rewrite H2, Hi. by destruct t.
Qed.

(** ** A written block is read back *)

Lemma read_entry n e es lines rest :
  block_reads e.2 → writable (TMap (e :: es)) = true →
  shape <$> lines = show n (TMap (e :: es)) → below n rest →
  (∀ lines' rest, shape <$> lines' = show n (TMap es) → below n rest →
     reads_as BMapping n lines' rest (matches_tree (TMap es))) →
  reads_as BMapping n lines rest (matches_tree (TMap (e :: es))).
Proof.
  intros Hnest Hw Hs Hb IH. cbn [show flat_map] in Hs. apply shape_app in Hs as (k1 & k2 & -> & H1 & H2).
  unfold reads_as. rewrite <- app_assoc. cbn [writable forallb] in Hw. apply andb_true_iff in Hw as [He Hw].
  destruct (IH k2 rest H2 Hb) as (f & q & Hq & Hm1 & Hm2).
  assert (below (S n) (k2 ++ rest)) as Hbelow by (by eapply (below_next n k2 rest (TMap es))).
  assert (∀ line k t, shape line = (n, k +:+ ":") → key_ok k = true → writable t = true → (∀ v, t ≠ TScalar v) →
          e = (Some k, t) → ∀ l1, shape <$> l1 = show (n + 2) t →
          reads_as BMapping n (line :: l1 ++ k2) rest (matches_tree (TMap (e :: es)))) as Hkey.
  { intros line k t Hline Hk Ht Hns -> l1 Hl1. unfold reads_as. simpl. rewrite <- app_assoc.
    assert (t = TMap [] ∨ t ≠ TMap []) as [->|Hne] by (destruct t as [|[|]|]; [right|left|right|right]; done).
    - apply fmap_nil_inv in Hl1 as ->. simpl.
      destruct (read_empty f n line (k2 ++ rest) k q rest Hline Hk Hbelow Hq) as (q' & Hq' & He' & Hi').
      exists (S f), q'. split; [done|]. split; [by rewrite He', Hm1|by rewrite Hi'].
    - destruct (nested_first n t l1 Ht Hns Hne Hl1) as (next & l2 & -> & Hnext & Hblock).
      destruct (Hnest Ht Hns (n + 2) (next :: l2) (k2 ++ rest) Hl1) as (f1 & q1 & Hq1 & Hm).
      { destruct (k2 ++ rest); simpl in *; [done|lia]. }
      destruct (fuel_max _ _ _ _ _ _ _ _ _ _ Hq1 Hq) as [Hq1' Hq']. rewrite <- Hnext in Hq1'.
      destruct (read_nested (f1 `max` f) n line next l2 (k2 ++ rest) k t q1 q rest) as (q' & Hr & He' & Hi'); try done; [lia|].
      exists (S (f1 `max` f)), q'. split; [done|]. split; [by rewrite He', Hm1|by rewrite Hi']. }
  destruct e as [[k|] t]; [destruct t as [v|es'|l']|destruct t as [v|es'|l']; try done]; simpl in He.
  - apply andb_true_iff in He as [Hk Hv]. apply shape_cons in H1 as (line & k1' & -> & Hline & ->%fmap_nil_inv).
    destruct (read_scalar f n line (k2 ++ rest) k v q rest Hline Hk Hv Hq) as (q' & Hq' & He' & Hi').
    exists (S f), q'. split; [done|]. split; [by rewrite He', Hm1|by rewrite Hi'].
  - apply andb_true_iff in He as [Hk Ht]. apply shape_cons in H1 as (line & k1' & -> & Hline & Hk1').
    unfold reads_as. simpl. rewrite app_assoc. by eapply (Hkey line k (TMap es')).
  - apply andb_true_iff in He as [Hk Ht]. apply shape_cons in H1 as (line & k1' & -> & Hline & Hk1').
    unfold reads_as. simpl. rewrite app_assoc. by eapply (Hkey line k (TSeq l')).
  - apply shape_cons in H1 as (line & k1' & -> & Hline & ->%fmap_nil_inv).
    destruct (read_bare f n line (k2 ++ rest) v q rest Hline He Hq) as (q' & Hq' & He' & Hi').
    exists (S f), q'. split; [done|]. split; [by rewrite He', Hm1|by rewrite Hi'].
Qed.

Lemma read_one_item n t l lines rest :
  block_reads t → forallb (fun t => match t with TScalar v => item_ok v | TMap [] => false | t => writable t end) (t :: l) = true →
  shape <$> lines = show n (TSeq (t :: l)) → below n rest →
  (∀ lines' rest, shape <$> lines' = show n (TSeq l) → below n rest →
     reads_as BSequence n lines' rest (matches_tree (TSeq l))) →
  reads_as BSequence n lines rest (matches_tree (TSeq (t :: l))).
Proof.
  intros Hnest Hw Hs Hb IH. cbn [show flat_map] in Hs. apply shape_app in Hs as (k1 & k2 & -> & H1 & H2).
  unfold reads_as. rewrite <- app_assoc. cbn [forallb] in Hw. apply andb_true_iff in Hw as [He Hw].
  destruct (IH k2 rest H2 Hb) as (f & q & Hq & Hm1 & Hm2).
  assert (below (S n) (k2 ++ rest)) as Hbelow.
  { destruct l as [|t' l'].
    - apply fmap_nil_inv in H2 as ->. destruct rest; simpl in *; [done|lia].
    - eapply (below_next n k2 rest (TSeq (t' :: l'))); [done| |done]. by simpl. }
  assert (∀ v, t = TScalar v → ∃ fuel q, parse_block fuel BSequence n (k1 ++ k2 ++ rest) = Some (Parsed (q, rest)) ∧
            matches_tree (TSeq (t :: l)) q) as Hscalar.
  { intros v ->. apply shape_cons in H1 as (line & k1' & -> & Hline & ->%fmap_nil_inv).
    destruct (read_item f n line (k2 ++ rest) v q rest Hline He Hq) as (q' & Hq' & He' & Hi').
    exists (S f), q'. split; [done|]. split; [by rewrite He', Hm1|by rewrite Hi']. }
  destruct t as [v|es|l']; [by eapply Hscalar|clear Hscalar..].
  all: apply shape_cons in H1 as (line & k1' & -> & Hline & Hk1').
  all: match goal with |- context [matches_tree (TSeq (?t0 :: _))] => set (t := t0) in * end.
  all: assert (writable t = true ∧ t ≠ TMap []) as [Ht Hne] by (unfold t; try (destruct es; [done|]); done).
  all: assert (∀ v, t ≠ TScalar v) as Hns by done.
  all: destruct (nested_first n t k1' Ht Hns Hne Hk1') as (next & l2 & -> & Hnext & Hblock).
  all: destruct (Hnest Ht Hns (n + 2) (next :: l2) (k2 ++ rest) Hk1') as (f1 & q1 & Hq1 & Hm);
    [destruct (k2 ++ rest); simpl in *; [done|lia]|].
  all: destruct (fuel_max _ _ _ _ _ _ _ _ _ _ Hq1 Hq) as [Hq1' Hq']; rewrite <- Hnext in Hq1'.
  all: destruct (read_item_nested (f1 `max` f) n line next l2 (k2 ++ rest) t q1 q rest) as (q' & Hr & He' & Hi'); try done; [lia|].
  all: exists (S (f1 `max` f)), q'; split; [done|]; split; [by rewrite He', Hm1|by rewrite Hi'].
Qed.

Lemma block_reads_all t : block_reads t.
Proof.
  induction t as [v|es IH|l IH] using tree_ind'; intros Hw Hns n lines rest Hs Hb.
  - by destruct (Hns v).
  - clear Hns. revert lines rest Hs Hb. induction IH as [|e es He _ IHes]; intros lines rest Hs Hb.
    + apply fmap_nil_inv in Hs as ->. exists 1, (mkPieces [] []). split; [by apply reads_nil|done].
    + eapply read_entry; [done|done|done|done|]. apply IHes. simpl in Hw. by apply andb_true_iff in Hw as [_ Hw].
  - clear Hns. simpl in Hw. apply andb_true_iff in Hw as [_ Hw].
    revert lines rest Hs Hb. induction IH as [|t l Ht _ IHl]; intros lines rest Hs Hb.
    + apply fmap_nil_inv in Hs as ->. exists 1, (mkPieces [] []). split; [by apply reads_nil|done].
    + eapply read_one_item; [done|done|done|done|]. apply IHl. simpl in Hw. by apply andb_true_iff in Hw as [_ Hw].
Qed.

(** ** The text of a document *)

Fixpoint spaces (n : nat) : string := match n with O => EmptyString | S n => String " " (spaces n) end.

Definition line_text (l : nat * string) : string := spaces l.1 +:+ l.2.

Fixpoint lines_text (lines : list (nat * string)) : string :=
  match lines with [] => EmptyString | l :: lines => line_text l +:+ String "010" (lines_text lines) end.

Definition document_text (t : tree) : string := lines_text (show 0 t).

(** A content that begins a line and stays on it. *)
Definition line_ok (c : string) : bool :=
  starts_with_char (fun c => negb (is_space c) && negb (Ascii.eqb c "#")) c &&
  str_forall (fun c => negb (line_end c)) c.

Lemma opens_line c : opens c = true → line_ok c = true.
Proof.
  unfold opens, line_ok. rewrite !andb_true_iff. intros [H ->]. split; [|done]. destruct c as [|a c]; [done|].
  simpl in *. rewrite !andb_true_iff in *. naive_solver.
Qed.

Lemma line_ok_app a b : line_ok a = true → str_forall (fun c => negb (line_end c)) b = true → line_ok (a +:+ b) = true.
Proof.
  unfold line_ok. rewrite !andb_true_iff, str_forall_app, andb_true_iff. intros [H1 H2] H3.
  split; [|done]. by destruct a.
Qed.

Lemma value_ok_line v : value_ok v = true → str_forall (fun c => negb (line_end c)) v = true.
Proof. unfold value_ok. rewrite andb_true_iff. by intros [_ ?]. Qed.

Lemma show_lines t : writable t = true → ∀ n, Forall (fun l => line_ok l.2 = true) (show n t).
Proof.
  induction t as [v|es IH|l IH] using tree_ind'; intros Hw n; [constructor| |].
  - cbn [writable show] in *. induction IH as [|[[k|] t] es Ht _ IHes]; cbn [flat_map forallb] in *; [constructor| |];
      apply andb_true_iff in Hw as [He Hw]; apply Forall_app; (split; [|by apply IHes]); simpl in Ht.
    + assert (∀ s, key_ok k = true → str_forall (fun c => negb (line_end c)) s = true → line_ok (k +:+ s) = true) as Hkey.
      { intros s (_ & Ho & _)%key_ok_spec Hs. by apply line_ok_app; [apply opens_line|]. }
      destruct t as [v|es'|l']; apply andb_true_iff in He as [Hk Hv].
      * constructor; [|constructor]. apply Hkey; [done|]. simpl. by apply value_ok_line.
      * constructor; [by apply Hkey|by apply Ht].
      * constructor; [by apply Hkey|by apply Ht].
    + destruct t as [v|es'|l']; [|done..]. constructor; [|constructor]. apply opens_line.
      unfold bare_ok in He. by apply andb_true_iff in He as [He _].
  - simpl in Hw. apply andb_true_iff in Hw as [_ Hw]. cbn [show].
    induction IH as [|t l Ht _ IHl]; cbn [flat_map forallb] in *; [constructor|].
    apply andb_true_iff in Hw as [He Hw]. apply Forall_app. split; [|by apply IHl].
    destruct t as [v|[|e es']|l'].
    + constructor; [|constructor]. unfold item_ok in He. apply andb_true_iff in He as [He _].
      apply value_ok_line in He. unfold line_ok. simpl. exact He.
    + done.
    + constructor; [done|by apply Ht].
    + constructor; [done|by apply Ht].
Qed.

Lemma splitlines_from_line l s :
  str_forall (fun c => negb (line_end c)) l = true →
  splitlines_from (l +:+ String "010" s) =
  (l, if String.eqb s "" then [] else let '(a, b) := splitlines_from s in a :: b).
Proof.
  induction l as [|c l IH]; simpl; intros Hl.
  - destruct (splitlines_from s). by destruct (String.eqb s "").
  - apply andb_true_iff in Hl as [Hc Hl]. apply negb_true_iff in Hc.
    assert (Ascii.eqb c "013" = false) as ->.
    { destruct (Ascii.eqb_spec c "013") as [->|]; [done|done]. }
    rewrite Hc, (IH Hl). done.
Qed.

Lemma splitlines_line l s :
  str_forall (fun c => negb (line_end c)) l = true → splitlines (l +:+ String "010" s) = l :: splitlines s.
Proof.
  intros Hl. unfold splitlines at 1.
  replace (String.eqb (l +:+ String "010" s) "") with false by (by destruct l).
  rewrite splitlines_from_line by done. done.
Qed.

Lemma spaces_line n : str_forall (fun c => negb (line_end c)) (spaces n) = true.
Proof. induction n; simpl; [done|]. by rewrite IHn. Qed.

Lemma span_spaces n c : starts_with_char (fun c => negb (is_space c) && negb (Ascii.eqb c "#")) c = true →
  span_blank (spaces n +:+ c) = (spaces n, c).
Proof.
  intros Hc. induction n as [|n IH]; simpl; [|by rewrite IH].
  destruct c as [|a c]; [done|]. simpl in *. apply andb_true_iff in Hc as [Ha _].
  assert (indent_char a = false) as ->; [|done]. unfold indent_char. apply orb_false_iff.
  split; apply Ascii.eqb_neq; intros ->; done.
Qed.

Lemma strip_spaces n c : starts_with_char (fun c => negb (is_space c) && negb (Ascii.eqb c "#")) c = true →
  strip (spaces n +:+ c) ≠ "".
Proof.
  intros Hc. assert (lstrip (spaces n +:+ c) = c) as Hl.
  { induction n as [|n IH]; simpl; [|done]. destruct c as [|a c]; [done|]. simpl in *.
    apply andb_true_iff in Hc as [Ha _]. apply negb_true_iff in Ha. by rewrite Ha. }
  unfold strip. rewrite Hl. destruct c as [|a c]; [done|]. simpl in Hc. apply andb_true_iff in Hc as [Ha _].
  apply negb_true_iff in Ha. by rewrite rstrip_nonspace.
Qed.

Lemma spaces_props n : tab_index (spaces n) = None ∧ String.length (spaces n) = n.
Proof. induction n as [|n [IH1 IH2]]; simpl; [done|]. by rewrite IH1, IH2. Qed.

Lemma prepare_text k ls :
  Forall (fun l => line_ok l.2 = true) ls →
  ∃ lines, prepare_from k (splitlines (lines_text ls)) = Parsed lines ∧ shape <$> lines = ls.
Proof.
  intros Hls. revert k. induction Hls as [|[n c] ls Hc _ IH]; intros k; [by exists []|]. simpl in Hc.
  unfold line_ok in Hc. apply andb_true_iff in Hc as [Ho He].
  simpl lines_text. rewrite splitlines_line by (unfold line_text; simpl; by rewrite str_forall_app, spaces_line).
  destruct (IH (S k)) as (lines & Hp & Hs). unfold line_text. simpl.
  rewrite (proj2 (String.eqb_neq _ _) (strip_spaces n c Ho)), (span_spaces n c Ho).
  destruct (spaces_props n) as [-> Hlen]. rewrite Hp, Hlen.
  assert (String.prefix "#" (lstrip c) = false) as ->.
  { destruct c as [|a c]; [done|]. simpl in Ho. rewrite andb_true_iff, !negb_true_iff in Ho. destruct Ho as [Ha Hh].
    cbn [lstrip]. rewrite Ha. cbn [String.prefix]. destruct (ascii_dec "#" a) as [<-|]; done. }
  eexists. split; [done|]. csimpl. by rewrite Hs.
Qed.


Definition document_example : list (option string * tree) :=
  [(Some "workflow", TScalar "restart: now");
   (Some "inputs", TSeq [TScalar "load"; TMap [(Some "limit", TScalar "10"); (None, TScalar "x := y")]]);
   (Some "notes", TMap [])].


(** The document of the example. *)
Lemma document_example_lines :
  show 0 (TMap document_example) =
    [(0, "workflow: restart: now"); (0, "inputs:"); (2, "- load"); (2, "- "); (4, "limit: 10"); (4, "x := y"); (0, "notes:")].
Proof. reflexivity. Qed.
