(* ===== verification/DslIr.v ===== *)
(** * Workflows and policies from parsed documents ([tm/dsl/ir.py],
      [_render.py], [compiler_policy.py])

    The tree of a parsed document becomes a workflow (inputs, steps, outputs,
    triggers) or a policy (arms, statements, emitted fields), or an error with
    its place; a policy is compiled to the mapping that the evaluator reads.
    [ast.literal_eval] is the parameter [PyLiteral]. *)

From S2P Require Import Prelude PyVal PyConv Policy Dsl.
From stdpp Require Import base gmap strings list.
From Stdlib Require Import ZArith Lia Ascii.

Abbreviation table := (list (string * json)) (only parsing).
Abbreviation raw_entry := (option string * SourceLocation * RawNode)%type (only parsing).

(** ** Results *)

(** A result, an error with its place, or another exception. *)
Inductive built (A : Type) : Type :=
| Built (a : A)
| NotBuilt (e : DslParseError)
| Crashed (e : exn).
Arguments Built {A} _.
Arguments NotBuilt {A} _.
Arguments Crashed {A} _.

#[export] Instance built_ret : MRet built := fun A a => Built a.
#[export] Instance built_bind : MBind built := fun A B f m =>
  match m with Built a => f a | NotBuilt e => NotBuilt e | Crashed e => Crashed e end.

(** The value Python reads in a text, if it is a literal. *)
Class PyLiteral := literal_eval : string → option json.

(** [text.partition(sep)] at the first place, if any. *)
Fixpoint partition_at (sep s : string) : option (string * string) :=
  if String.prefix sep s
  then Some (EmptyString, String.substring (String.length sep) (String.length s - String.length sep) s)
  else match s with
       | EmptyString => None
       | String c s' => match partition_at sep s' with Some (a, b) => Some (String c a, b) | None => None end
       end.

(** [text[len(prefix):]]. *)
Definition after (prefix s : string) : string :=
  String.substring (String.length prefix) (String.length s - String.length prefix) s.

(** ** Rendering *)

Fixpoint render_raw_node (node : RawNode) : built json :=
  match node with
  | RawScalar value _ => Built (JStr value)
  | RawSequence items _ =>
      l ← (fix go (l : list RawNode) : built (list json) :=
             match l with
             | [] => Built []
             | n :: l => v ← render_raw_node n; vs ← go l; Built (v :: vs)
             end) items;
      Built (JArr l)
  | RawMapping entries _ =>
      m ← (fix go (l : list raw_entry) (acc : table) : built table :=
             match l with
             | [] => Built acc
             | (None, _, _) :: _ => Crashed (ValueError "Mapping entry missing key in DSL structure")
             | (Some key, _, n) :: l => v ← render_raw_node n; go l (dict_set key v acc)
             end) entries [];
      Built (JObj m)
  end.

(** ** Workflows and policies *)

Record SourceSpan : Type := mkSpan { sp_line : nat; sp_column : nat }.

Definition span (loc : SourceLocation) : SourceSpan := mkSpan (loc_line loc) (loc_column loc).

Record WdlInput : Type := mkWInput { wi_name : string; wi_type_name : string; wi_location : SourceSpan }.

Record WdlArgument : Type := mkWArg { wa_name : string; wa_value : RawNode; wa_location : SourceSpan }.

Inductive WdlStep : Type :=
| WdlCallStep (step_id target : string) (args : list WdlArgument) (location : SourceSpan)
| WdlWhenStep (condition : string) (steps : list WdlStep) (location : SourceSpan).

Record WdlOutput : Type := mkWOutput { wo_name : string; wo_value : RawNode; wo_location : SourceSpan }.

Record WdlTrigger : Type := mkWTrigger { wt_trigger_type : string; wt_config : table; wt_location : SourceSpan }.

Record WdlWorkflow : Type := mkWorkflow {
  wf_version : string;
  wf_name : string;
  wf_inputs : list WdlInput;
  wf_steps : list WdlStep;
  wf_outputs : list WdlOutput;
  wf_triggers : list WdlTrigger;
  wf_location : SourceSpan
}.

Record PdlArmField : Type := mkArmField { af_name : string; af_value : RawNode; af_location : SourceSpan }.

Record PdlArm : Type := mkArm { arm_name : string; arm_fields : list PdlArmField; arm_location : SourceSpan }.

Record PdlChooseOption : Type := mkOption {
  co_name : string;
  co_expression : string;
  co_probability : option string;
  co_location : SourceSpan
}.

Inductive PdlStatement : Type :=
| PdlAssignment (target expression operator : string) (statement_id : option string) (location : SourceSpan)
| PdlChoose (options : list PdlChooseOption) (location : SourceSpan)
| PdlConditional (condition : string) (body : list PdlStatement) (else_body : option (list PdlStatement))
    (location : SourceSpan).

Record PdlEmitField : Type := mkEmit { ef_name : string; ef_value : RawNode; ef_location : SourceSpan }.

Record PdlPolicy : Type := mkPolicy {
  pp_version : string;
  pp_arms : list PdlArm;
  pp_epsilon : option string;
  pp_evaluate : list PdlStatement;
  pp_emit : list PdlEmitField;
  pp_location : SourceSpan
}.

(** ** Parts of a tree *)

Definition _ctx_error {A} (message : string) (loc : SourceLocation) : built A := NotBuilt (mkDslError message (Some loc)).

Definition _node_location (n : RawNode) : SourceLocation :=
  match n with RawScalar _ loc | RawMapping _ loc | RawSequence _ loc => loc end.

Definition _require_scalar_node (n : RawNode) (hint : string) : built (string * SourceLocation) :=
  match n with
  | RawScalar v loc => Built (v, loc)
  | _ => _ctx_error ("Expected scalar for " +:+ hint) (_node_location n)
  end.

Definition _require_mapping (n : RawNode) (label : string) : built (list raw_entry) :=
  match n with
  | RawMapping entries _ => Built entries
  | _ => _ctx_error ("Expected mapping for " +:+ label) (_node_location n)
  end.

Definition _require_sequence (n : RawNode) (label : string) : built (list RawNode) :=
  match n with
  | RawSequence items _ => Built items
  | _ => _ctx_error ("Expected list for " +:+ label) (_node_location n)
  end.

Fixpoint mapping_dict (entries : list raw_entry) (result : list (string * RawNode)) : built (list (string * RawNode)) :=
  match entries with
  | [] => Built result
  | (None, loc, _) :: _ => _ctx_error "Unexpected statement in mapping" loc
  | (Some key, loc, v) :: entries =>
      match alookup key result with
      | Some _ => _ctx_error ("Duplicate key '" +:+ key +:+ "'") loc
      | None => mapping_dict entries (result ++ [(key, v)])
      end
  end.

Definition _mapping_to_dict (entries : list raw_entry) : built (list (string * RawNode)) := mapping_dict entries [].

Definition _require_scalar (top : list (string * RawNode)) (key : string) (container : SourceLocation)
  : built (string * SourceLocation) :=
  match alookup key top with
  | None => _ctx_error ("Missing required key '" +:+ key +:+ "'") container
  | Some n => _require_scalar_node n key
  end.

(** The entries of a mapping, each with a name. *)
Fixpoint named {A} (message : string) (f : string → SourceLocation → RawNode → built A) (entries : list raw_entry)
  : built (list A) :=
  match entries with
  | [] => Built []
  | (None, loc, _) :: _ => _ctx_error message loc
  | (Some key, loc, v) :: entries => x ← f key loc v; xs ← named message f entries; Built (x :: xs)
  end.

(** ** Steps *)

Definition _parse_wdl_call_header (header : string) (loc : SourceLocation) : built (string * string) :=
  match partition_at "(" header, Policy.strip_suffix ")" header with
  | Some (name, target), Some _ =>
      let step_id := strip name in
      (* [target[:-1]]: the closing parenthesis is its last character *)
      let call_target := strip (default EmptyString (Policy.strip_suffix ")" target)) in
      if String.eqb step_id "" then _ctx_error "Step identifier cannot be empty" loc
      else if String.eqb call_target "" then _ctx_error "Call target cannot be empty" loc
      else Built (step_id, call_target)
  | _, _ => _ctx_error "Call step must follow 'name(target)' format" loc
  end.

Definition call_step (key : string) (loc : SourceLocation) (value : RawNode) : built WdlStep :=
  header ← _parse_wdl_call_header key loc;
  entries ← _require_mapping value ("step '" +:+ header.1 +:+ "' arguments");
  args ← named "Argument name cannot be omitted" (fun k l v => Built (mkWArg k v (span l))) entries;
  Built (WdlCallStep header.1 header.2 args (span loc)).

(** The step of an entry: [when condition] with its block, or a call. *)
Fixpoint step_of (key : string) (loc : SourceLocation) (value : RawNode) {struct value} : built WdlStep :=
  if String.prefix "when " key then
    let condition := strip (after "when " key) in
    if String.eqb condition "" then _ctx_error "When step requires a condition" loc
    else
      steps ←
        match value with
        | RawSequence items _ =>
            (fix go (items : list RawNode) : built (list WdlStep) :=
               match items with
               | [] => Built []
               | RawMapping entries iloc :: items =>
                   s ← match entries with
                       | [] => _ctx_error "Empty step declaration" iloc
                       | _ => (fix first (es : list raw_entry) : built WdlStep :=
                                 match es with
                                 | [] => _ctx_error "Step declaration missing identifier" iloc
                                 | (Some k, l, v) :: _ => step_of k l v
                                 | (None, _, _) :: es => first es
                                 end) entries
                       end;
                   ss ← go items; Built (s :: ss)
               | item :: _ => _ctx_error "Step must be a mapping entry" (_node_location item)
               end) items
        | RawMapping entries _ =>
            (fix go (es : list raw_entry) : built (list WdlStep) :=
               match es with
               | [] => Built []
               | (None, l, _) :: _ => _ctx_error "Step declarations require a name" l
               | (Some k, l, v) :: es => s ← step_of k l v; ss ← go es; Built (s :: ss)
               end) entries
        | RawScalar _ l => _ctx_error "When body must be a list or mapping" l
        end;
      Built (WdlWhenStep condition steps (span loc))
  else call_step key loc value.

(** [_parse_wdl_step]: the first entry with a key is the step. *)
Fixpoint first_step (loc : SourceLocation) (es : list raw_entry) : built WdlStep :=
  match es with
  | [] => _ctx_error "Step declaration missing identifier" loc
  | (Some k, l, v) :: _ => step_of k l v
  | (None, _, _) :: es => first_step loc es
  end.

Definition _parse_wdl_step (n : RawNode) : built WdlStep :=
  match n with
  | RawMapping [] loc => _ctx_error "Empty step declaration" loc
  | RawMapping entries loc => first_step loc entries
  | _ => _ctx_error "Step must be a mapping entry" (_node_location n)
  end.

(** ** Triggers *)

Section triggers.
Context `{PyLiteral}.

(** A quoted text is read as a literal; texts are stripped everywhere else. *)
Definition quoted (s : string) : bool :=
  (String.prefix (String "034" EmptyString) s && bool_decide (is_Some (Policy.strip_suffix (String "034" EmptyString) s))) ||
  (String.prefix "'" s && bool_decide (is_Some (Policy.strip_suffix "'" s))).

Fixpoint _normalize_config (v : json) : json :=
  match v with
  | JStr s =>
      let stripped := strip s in
      if quoted stripped then default (JStr stripped) (literal_eval stripped) else JStr stripped
  | JArr l => JArr ((fix go (l : list json) : list json := match l with [] => [] | x :: l => _normalize_config x :: go l end) l)
  | JObj m => JObj ((fix go (m : table) : table := match m with [] => [] | (k, x) :: m => (k, _normalize_config x) :: go m end) m)
  | _ => v
  end.

Definition _expect_scalar_text (n : RawNode) (label : string) : built string :=
  match n with
  | RawScalar v _ => Built (match _normalize_config (JStr (strip v)) with JStr s => s | _ => strip v end)
  | _ => _ctx_error ("Expected scalar text for " +:+ label) (_node_location n)
  end.

Definition is_type (e : raw_entry) : bool := match e.1.1 with Some k => String.eqb k "type" | None => false end.

(** The entries besides the first [type], rendered. *)
Fixpoint trigger_config (seen : bool) (entries : list raw_entry) (config : table) : built table :=
  match entries with
  | [] => Built config
  | (None, _, _) :: entries => trigger_config seen entries config
  | (Some key, loc, v) :: entries =>
      if negb seen && String.eqb key "type" then trigger_config true entries config
      else x ← render_raw_node v; trigger_config seen entries (dict_set key x config)
  end.

Fixpoint trigger_each (entries : list raw_entry) : built (list WdlTrigger) :=
  match entries with
  | [] => Built []
  | (None, _, _) :: entries => trigger_each entries
  | (Some key, loc, v) :: entries =>
      x ← render_raw_node v;
      let config := match _normalize_config x with JObj m => m | c => [("value", c)] end in
      ts ← trigger_each entries;
      Built (mkWTrigger key config (span loc) :: ts)
  end.

Definition _parse_trigger_mapping (entries : list raw_entry) : built (list WdlTrigger) :=
  match List.find is_type entries with
  | Some (_, loc, v) =>
      trigger_type ← _expect_scalar_text v "trigger type";
      config ← trigger_config false entries [];
      Built [mkWTrigger trigger_type config (span loc)]
  | None => trigger_each entries
  end.

Fixpoint trigger_items (items : list RawNode) : built (list WdlTrigger) :=
  match items with
  | [] => Built []
  | RawMapping entries _ :: items => ts ← _parse_trigger_mapping entries; ts' ← trigger_items items; Built (ts ++ ts')
  | n :: _ => _ctx_error "Trigger entries must be mappings" (_node_location n)
  end.

Definition _parse_wdl_triggers (n : RawNode) : built (list WdlTrigger) :=
  match n with
  | RawSequence items _ => trigger_items items
  | RawMapping entries _ => _parse_trigger_mapping entries
  | RawScalar _ loc => _ctx_error "Expected list or mapping for triggers" loc
  end.

(** ** The workflow *)

(** A part of the document that may be missing. *)
Definition optional {A} (n : option RawNode) (d : A) (f : RawNode → built A) : built A :=
  match n with Some n => f n | None => Built d end.

Definition build_wdl_ir (entries : list raw_entry) (root : SourceLocation) : built WdlWorkflow :=
  top ← _mapping_to_dict entries;
  version_node ← _require_scalar top "version" root;
  let version := strip version_node.1 in
  if String.eqb version "" then _ctx_error "Workflow version cannot be empty" version_node.2
  else
    name_node ← _require_scalar top "workflow" root;
    let name := strip name_node.1 in
    if String.eqb name "" then _ctx_error "Workflow name cannot be empty" name_node.2
    else
      inputs ← optional (alookup "inputs" top) [] (fun n =>
        es ← _require_mapping n "inputs";
        named "Input declarations must have a name" (fun k l v =>
          scalar ← _require_scalar_node v "input type";
          Built (mkWInput k (strip scalar.1) (span l))) es);
      outputs ← optional (alookup "outputs" top) [] (fun n =>
        es ← _require_mapping n "outputs";
        named "Output declarations must have a name" (fun k l v => Built (mkWOutput k v (span l))) es);
      match alookup "steps" top with
      | None => _ctx_error "Workflow must define 'steps'" root
      | Some steps_node =>
          items ← _require_sequence steps_node "steps";
          steps ← mapM _parse_wdl_step items;
          triggers ← optional (alookup "triggers" top) [] _parse_wdl_triggers;
          Built (mkWorkflow version name inputs steps outputs triggers (span root))
      end.
End triggers.

(** ** Statements *)

Definition _parse_pdl_assignment (value : string) (loc : SourceLocation) (statement_id : option string)
  : built PdlStatement :=
  let text := strip value in
  let operator := match partition_at ":=" text with Some _ => ":=" | None => "=" end in
  match partition_at operator text with
  | None => _ctx_error "Assignment must contain '=' or ':='" loc
  | Some (a, b) =>
      let target := strip a in
      let expression := strip b in
      if String.eqb target "" then _ctx_error "Assignment target cannot be empty" loc
      else if String.eqb expression "" then _ctx_error "Assignment expression cannot be empty" loc
      else Built (PdlAssignment target expression operator statement_id (span loc))
  end.

Definition _split_probability (expression : string) : string * option string :=
  match partition_at " with p=" expression with
  | None => (expression, None)
  | Some (base, remainder) =>
      let probability := strip remainder in
      (strip base, if String.eqb probability "" then None else Some probability)
  end.

Definition choose_option (key : string) (loc : SourceLocation) (v : RawNode) : built PdlChooseOption :=
  scalar ← _require_scalar_node v "choose option";
  let '(expression, probability) := _split_probability (strip scalar.1) in
  Built (mkOption key expression probability (span loc)).

(** What an entry that opens no block says. *)
Definition plain_statement (key : option string) (loc : SourceLocation) (v : RawNode) : built PdlStatement :=
  match key with
  | None => scalar ← _require_scalar_node v "statement"; _parse_pdl_assignment scalar.1 scalar.2 None
  | Some key =>
      if String.eqb key "else" then _ctx_error "Unexpected 'else' without matching 'if'" loc
      else if String.eqb key "choose" then
        entries ← _require_mapping v "choose";
        options ← named "Choose options must have a name" choose_option entries;
        Built (PdlChoose options (span loc))
      else
        scalar ← _require_scalar_node v ("statement '" +:+ key +:+ "'");
        _parse_pdl_assignment scalar.1 scalar.2 (Some key)
  end.

Definition is_if (key : option string) : option string :=
  match key with
  | Some k => if String.prefix "if " k then Some (strip (after "if " k)) else None
  | None => None
  end.

(** [_parse_pdl_block] with [_parse_pdl_statements] for its entries: an [if]
    takes the entry after it when that is [else]. *)
Fixpoint _parse_pdl_block (n : RawNode) : built (list PdlStatement) :=
  let statements :=
    fix statements (es : list raw_entry) : built (list PdlStatement) :=
      match es with
      | [] => Built []
      | (key, loc, v) :: es =>
          match is_if key with
          | Some condition =>
              if String.eqb condition "" then _ctx_error "If statement requires a condition" loc
              else
                body ← _parse_pdl_block v;
                match es with
                | (Some "else", _, ev) :: es' =>
                    else_body ← _parse_pdl_block ev;
                    ss ← statements es';
                    Built (PdlConditional condition body (Some else_body) (span loc) :: ss)
                | _ =>
                    ss ← statements es;
                    Built (PdlConditional condition body None (span loc) :: ss)
                end
          | None => s ← plain_statement key loc v; ss ← statements es; Built (s :: ss)
          end
      end in
  match n with
  | RawMapping entries _ => statements entries
  | RawSequence items _ =>
      (fix go (items : list RawNode) : built (list PdlStatement) :=
         match items with
         | [] => Built []
         | RawMapping entries _ :: items => ss ← statements entries; ss' ← go items; Built (ss ++ ss')
         | RawScalar v loc :: items => s ← _parse_pdl_assignment v loc None; ss ← go items; Built (s :: ss)
         | RawSequence _ loc :: _ => _ctx_error "Unsupported statement in block" loc
         end) items
  | RawScalar _ loc => _ctx_error "Expected block of statements" loc
  end.

(** ** The policy *)

Definition arm_of (key : string) (loc : SourceLocation) (v : RawNode) : built PdlArm :=
  fields ← _require_mapping v ("arm '" +:+ key +:+ "'");
  fs ← named "Arm fields must have a name" (fun k l x => Built (mkArmField k x (span l))) fields;
  Built (mkArm key fs (span loc)).

Definition required (top : list (string * RawNode)) (key : string) (root : SourceLocation) : built RawNode :=
  match alookup key top with
  | None => _ctx_error ("Policy must define '" +:+ key +:+ "'") root
  | Some n => Built n
  end.

Definition build_pdl_ir (entries : list raw_entry) (root : SourceLocation) : built PdlPolicy :=
  top ← _mapping_to_dict entries;
  version_node ← _require_scalar top "version" root;
  let version := strip version_node.1 in
  if String.eqb version "" then _ctx_error "Policy version cannot be empty" version_node.2
  else
    arms_node ← required top "arms" root;
    arm_entries ← _require_mapping arms_node "arms";
    arms ← named "Arm declarations must have a name" arm_of arm_entries;
    epsilon ← match alookup "epsilon" top with
              | None => Built None
              | Some n => scalar ← _require_scalar_node n "epsilon value"; Built (Some (strip scalar.1))
              end;
    evaluate_node ← required top "evaluate" root;
    _ ← _require_mapping evaluate_node "evaluate";
    evaluate ← _parse_pdl_block evaluate_node;
    emit_node ← required top "emit" root;
    emit_entries ← _require_mapping emit_node "emit";
    emit ← named "Emit entries must have a name" (fun k l v => Built (mkEmit k v (span l))) emit_entries;
    Built (mkPolicy version arms epsilon evaluate emit (span root)).

(** [parse_wdl_document] and [parse_pdl_document]: the parser, then the tree. *)
Definition document_of {A} (text : string) (f : list raw_entry → SourceLocation → built A) : option (built A) :=
  match parse_wdl text with
  | None => None
  | Some (Failed e) => Some (NotBuilt e)
  | Some (Parsed (RawMapping entries loc)) => Some (f entries loc)
  | Some (Parsed n) => Some (_ctx_error "Unsupported node type" (_node_location n))
  end.

Definition parse_wdl_document `{PyLiteral} (text : string) : option (built WdlWorkflow) := document_of text build_wdl_ir.

Definition parse_pdl_document (text : string) : option (built PdlPolicy) := document_of text build_pdl_ir.

(** ** Compiled policies *)

Section compile.
Context (filename source : option string).

Definition file_json (name : option string) : json :=
  match name with Some s => if String.eqb s "" then JNull else JStr s | None => JNull end.

Definition _span_metadata (s : SourceSpan) : table :=
  [("line", JInt (Z.of_nat (sp_line s))); ("column", JInt (Z.of_nat (sp_column s))); ("filename", file_json filename)].

Definition text_json (v : option string) : json := match v with Some s => JStr s | None => JNull end.

Definition option_dict (o : PdlChooseOption) : json :=
  JObj ([("name", JStr (co_name o)); ("expression", JStr (co_expression o)); ("probability", text_json (co_probability o))] ++
        _span_metadata (co_location o)).

Fixpoint _render_statement (s : PdlStatement) : json :=
  match s with
  | PdlAssignment target expression operator statement_id loc =>
      JObj ([("type", JStr "assignment"); ("target", JStr target); ("operator", JStr operator);
             ("expression", JStr expression)] ++
            match statement_id with Some i => if String.eqb i "" then [] else [("id", JStr i)] | None => [] end ++
            _span_metadata loc)
  | PdlChoose options loc =>
      JObj ([("type", JStr "choose"); ("options", JArr (option_dict <$> options))] ++ _span_metadata loc)
  | PdlConditional condition body else_body loc =>
      let render := fix render (l : list PdlStatement) : list json :=
        match l with [] => [] | s :: l => _render_statement s :: render l end in
      JObj ([("type", JStr "if"); ("condition", JStr condition); ("then", JArr (render body));
             ("else", match else_body with Some ((_ :: _) as l) => JArr (render l) | _ => JNull end)] ++
            _span_metadata loc)
  end.

(** [{field.name: render_raw_node(field.value) ...}]. *)
Fixpoint render_fields (fields : list (string * RawNode)) (acc : table) : built table :=
  match fields with
  | [] => Built acc
  | (name, v) :: fields => x ← render_raw_node v; render_fields fields (dict_set name x acc)
  end.

Fixpoint render_arms (arms : list PdlArm) (acc : table) : built table :=
  match arms with
  | [] => Built acc
  | a :: arms =>
      m ← render_fields ((fun f => (af_name f, af_value f)) <$> arm_fields a) [];
      render_arms arms (dict_set (arm_name a) (JObj m) acc)
  end.

Definition _render_arms (arms : list PdlArm) : built table := render_arms arms [].

Definition _render_emit (fields : list PdlEmitField) : built table :=
  render_fields ((fun f => (ef_name f, ef_value f)) <$> fields) [].

(** [compile_policy]; [derived_id] is the id the code derives from the file or
    from a hash, for a policy that is not given one. *)
Definition compile_policy (p : PdlPolicy) (policy_id : option string) (derived_id : string) : built (string * json) :=
  let id := match policy_id with Some s => if String.eqb s "" then derived_id else s | None => derived_id end in
  arms ← _render_arms (pp_arms p);
  emit ← _render_emit (pp_emit p);
  Built (id, JObj [("policy", JObj
    [("id", JStr id); ("strategy", JStr (pp_version p));
     ("params", JObj [("arms", JObj arms); ("epsilon", text_json (pp_epsilon p));
                      ("evaluate", JArr (_render_statement <$> pp_evaluate p)); ("emit", JObj emit)]);
     ("metadata", JObj [("dsl", JObj [("version", JStr (pp_version p)); ("source", text_json source)])])])]).
End compile.
