(* ===== verification/DslFlow.v ===== *)
(** * Workflows as flows ([tm/dsl/compiler_flow.py])

    A workflow is compiled to a flow: its calls and conditions become steps,
    their order becomes edges, and two steps follow that emit the outputs and
    finish.  Below: a compiled flow is well formed and acyclic, its entry leads
    to every step and every step leads to the end. *)

From S2P Require Import Prelude PyVal PyConv Policy Dsl DslIr.
From stdpp Require Import base gmap strings list pretty relations.
From Stdlib Require Import ZArith Lia Ascii.

Abbreviation table := (list (string * json)) (only parsing).

(** ** Conditions *)

Record Condition : Type := mkCondition { cn_key_from : string; cn_case_values : list string }.

Definition compile_error {A} (message : string) : res A := Raise (ValueError message).

(** Errors end with the line; the text of the interpreter's own error is left
    out. *)
Definition at_line (message : string) (loc : SourceSpan) : string := message +:+ " at line " +:+ pretty (sp_line loc).

Section conditions.
Context `{PyLiteral}.

Fixpoint case_texts (l : list json) : res (list string) :=
  match l with
  | [] => Ok []
  | JStr s :: l => ss ← case_texts l; Ok (s :: ss)
  | _ :: _ => compile_error "Conditional branch values must be strings"
  end.

Definition _parse_literal_list (text : string) (loc : SourceSpan) : res (list string) :=
  match literal_eval text with
  | None => compile_error (at_line "Invalid literal list in condition" loc)
  | Some (JArr l) =>
      values ← case_texts l;
      match values with [] => compile_error "Condition list must contain at least one value" | _ => Ok values end
  | Some _ => compile_error (at_line "Expected list literal in condition" loc)
  end.

Definition _parse_literal (text : string) (loc : SourceSpan) : res string :=
  match literal_eval text with
  | None => compile_error (at_line "Invalid literal in condition" loc)
  | Some (JStr s) => Ok s
  | Some _ => compile_error "Conditional value must be a string literal"
  end.

Definition _reference_to_path (ref : string) (loc : SourceSpan) : res string :=
  if String.prefix "$input." ref then Ok ("$.inputs." +:+ after "$input." ref)
  else if String.prefix "$step." ref then Ok ("$.vars." +:+ after "$step." ref)
  else compile_error (at_line ("Unsupported reference '" +:+ ref +:+ "' in condition") loc).

Definition _parse_condition (text : string) (loc : SourceSpan) : res Condition :=
  let stripped := strip text in
  match partition_at " in " stripped with
  | Some (ref, remainder) =>
      values ← _parse_literal_list (strip remainder) loc;
      key_from ← _reference_to_path (strip ref) loc;
      Ok (mkCondition key_from values)
  | None =>
      match partition_at "==" stripped with
      | Some (ref, value) =>
          key_from ← _reference_to_path (strip ref) loc;
          literal ← _parse_literal (strip value) loc;
          Ok (mkCondition key_from [literal])
      | None => compile_error (at_line ("Unsupported when condition '" +:+ text +:+ "'") loc)
      end
  end.
End conditions.

(** ** The builder *)

Definition DEFAULT_CASE : string := "_DEFAULT".

Inductive step_body : Type :=
| CallBody (target : string) (args : table)
| SwitchBody (key_from : string) (cases : list (string * string))
| EmitBody (outputs : table)
| FinishBody.

Record flow_edge : Type := mkEdge { fe_from : string; fe_to : string; fe_when : option string }.

Record ExitEdge : Type := mkExit { xe_src : string; xe_case : option string }.

Record SequenceGraph : Type := mkGraph { sg_entry : string; sg_exits : list ExitEdge }.

Record builder : Type := mkBuilder {
  bl_steps : list (string * step_body);
  bl_edges : list flow_edge;
  bl_sources : list (string * SourceSpan);
  bl_entry : option string;
  bl_counter : nat
}.

Definition empty_builder : builder := mkBuilder [] [] [] None 0.

(** The counter goes up until the id is free. *)
Fixpoint unique_from (fuel : nat) (prefix : string) (counter : nat) (ids : list string) : option (string * nat) :=
  match fuel with
  | O => None
  | S fuel =>
      let candidate := prefix +:+ "_" +:+ pretty counter in
      if candidate ∈? ids then unique_from fuel prefix (S counter) ids else Some (candidate, S counter)
  end.

Definition _unique_step_id (prefix : string) (b : builder) : res (string * builder) :=
  match unique_from (S (length (bl_steps b))) prefix (bl_counter b) (bl_steps b).*1 with
  | Some (id, counter) => Ok (id, mkBuilder (bl_steps b) (bl_edges b) (bl_sources b) (bl_entry b) counter)
  | None => Raise (RuntimeError "no free step id")
  end.

Definition _add_step (id : string) (body : step_body) (loc : SourceSpan) (b : builder) : res builder :=
  if id ∈? (bl_steps b).*1
  then compile_error ("Duplicate step id '" +:+ id +:+ "' generated during compilation")
  else Ok (mkBuilder (bl_steps b ++ [(id, body)]) (bl_edges b) (bl_sources b ++ [(id, loc)])
             (match bl_entry b with None => Some id | e => e end) (bl_counter b)).

(** [cases[case] = dst] on the switch [id]; [once] keeps a case that is there. *)
Definition set_case (once : bool) (id case dst : string) (steps : list (string * step_body))
  : list (string * step_body) :=
  (fun p : string * step_body =>
     match p with
     | (i, SwitchBody key cases) =>
         if String.eqb i id then
           (i, SwitchBody key
                 (if once && bool_decide (is_Some (alookup case cases)) then cases else dict_set case dst cases))
         else p
     | _ => p
     end) <$> steps.

Definition _add_edge (src dst : string) (case : option string) (b : builder) : builder :=
  mkBuilder (match case with Some c => set_case true src c dst (bl_steps b) | None => bl_steps b end)
    (bl_edges b ++ [mkEdge src dst case]) (bl_sources b) (bl_entry b) (bl_counter b).

Definition _link_segments (exits : list ExitEdge) (entry : string) (b : builder) : builder :=
  foldl (fun b x => _add_edge (xe_src x) entry (xe_case x) b) b exits.

(** Rendering raises nothing but [ValueError]. *)
Definition rendered {A} (m : built A) : res A :=
  match m with Built a => Ok a | NotBuilt e => compile_error (de_message e) | Crashed e => Raise e end.

Definition _compile_call (id target : string) (args : list WdlArgument) (loc : SourceSpan) (b : builder)
  : res (SequenceGraph * builder) :=
  if id ∈? (bl_steps b).*1 then compile_error ("Duplicate step id '" +:+ id +:+ "' in workflow")
  else
    rendered_args ← rendered (render_fields ((fun a => (wa_name a, wa_value a)) <$> args) []);
    b ← _add_step id (CallBody target rendered_args) loc b;
    Ok (mkGraph id [mkExit id None], b).

(** The branch of a switch for each value. *)
Definition add_cases (switch_id entry : string) (values : list string) (b : builder) : builder :=
  foldl (fun b v =>
    _add_edge switch_id entry (Some v)
      (mkBuilder (set_case false switch_id v entry (bl_steps b)) (bl_edges b) (bl_sources b) (bl_entry b) (bl_counter b)))
    b values.

Section compile.
Context `{PyLiteral}.

(** The steps one after the other; [compile] is the compilation of one step. *)
Fixpoint sequence_with (compile : WdlStep → builder → res (SequenceGraph * builder)) (steps : list WdlStep)
    (entry : option string) (exits : list ExitEdge) (b : builder) : res (SequenceGraph * builder) :=
  match steps with
  | [] =>
      match entry with
      | None => compile_error "Empty step sequence encountered during compilation"
      | Some e => Ok (mkGraph e exits, b)
      end
  | s :: steps =>
      segment ← compile s b;
      sequence_with compile steps (Some (default (sg_entry segment.1) entry)) (sg_exits segment.1)
        (_link_segments exits (sg_entry segment.1) segment.2)
  end.

Fixpoint _compile_step (s : WdlStep) (b : builder) {struct s} : res (SequenceGraph * builder) :=
  match s with
  | WdlCallStep id target args loc => _compile_call id target args loc b
  | WdlWhenStep text steps loc =>
      condition ← _parse_condition text loc;
      fresh ← _unique_step_id "when" b;
      let switch_id := fresh.1 in
      b ← _add_step switch_id (SwitchBody (cn_key_from condition) []) loc fresh.2;
      nested ← sequence_with _compile_step steps None [] b;
      let b := add_cases switch_id (sg_entry nested.1) (cn_case_values condition) nested.2 in
      Ok (mkGraph switch_id (sg_exits nested.1 ++ [mkExit switch_id (Some DEFAULT_CASE)]), b)
  end.

Definition _compile_sequence (steps : list WdlStep) (b : builder) : res (SequenceGraph * builder) :=
  sequence_with _compile_step steps None [] b.

Definition _add_outputs_step (w : WdlWorkflow) (b : builder) : res (SequenceGraph * builder) :=
  fresh ← _unique_step_id "emit" b;
  outputs ← rendered (render_fields ((fun o => (wo_name o, wo_value o)) <$> wf_outputs w) []);
  b ← _add_step fresh.1 (EmitBody outputs) (match wf_outputs w with o :: _ => wo_location o | [] => wf_location w end) fresh.2;
  Ok (mkGraph fresh.1 [mkExit fresh.1 None], b).

Definition _add_finish_step (w : WdlWorkflow) (b : builder) : res (SequenceGraph * builder) :=
  fresh ← _unique_step_id "finish" b;
  b ← _add_step fresh.1 FinishBody (wf_location w) fresh.2;
  Ok (mkGraph fresh.1 [], b).

(** The compiled flow: the builder at the end, its entry and its last step. *)
Record compiled : Type := mkCompiled { cf_builder : builder; cf_entry : string; cf_finish : string }.

Definition compile_workflow (w : WdlWorkflow) : res compiled :=
  match wf_steps w with
  | [] => compile_error "Workflow must contain at least one step"
  | _ =>
      main ← _compile_sequence (wf_steps w) empty_builder;
      outputs ← _add_outputs_step w main.2;
      let b := _link_segments (sg_exits main.1) (sg_entry outputs.1) outputs.2 in
      finish ← _add_finish_step w b;
      let b := _link_segments (sg_exits outputs.1) (sg_entry finish.1) finish.2 in
      Ok (mkCompiled b (default (sg_entry outputs.1) (bl_entry b)) (sg_entry finish.1))
  end.
End compile.

(** ** The flow as data *)

Definition step_json (p : string * step_body) : json :=
  JObj (match p.2 with
        | CallBody target args =>
            [("id", JStr p.1); ("kind", JStr "task");
             ("config", JObj [("call", JObj [("target", JStr target); ("args", JObj args)])]);
             ("hooks", JObj [("run", JStr "tm.dsl.runtime.call")])]
        | SwitchBody key cases =>
            [("id", JStr p.1); ("kind", JStr "switch");
             ("config", JObj [("key_from", JStr key); ("cases", JObj ((fun c => (c.1, JStr c.2)) <$> cases));
                              ("default", JStr DEFAULT_CASE)]);
             ("hooks", JObj [("run", JStr "tm.dsl.runtime.switch")])]
        | EmitBody outputs =>
            [("id", JStr p.1); ("kind", JStr "task"); ("config", JObj [("outputs", JObj outputs)]);
             ("hooks", JObj [("run", JStr "tm.dsl.runtime.emit_outputs")])]
        | FinishBody => [("id", JStr p.1); ("kind", JStr "finish")]
        end).

Definition edge_json (e : flow_edge) : json :=
  JObj ([("from", JStr (fe_from e)); ("to", JStr (fe_to e))] ++
        match fe_when e with Some c => [("when", JStr c)] | None => [] end).

Definition flow_json (filename source : option string) (w : WdlWorkflow) (c : compiled) : json :=
  JObj [("flow", JObj
    [("id", JStr (wf_name w)); ("version", JStr (wf_version w)); ("entry", JStr (cf_entry c));
     ("steps", JArr (step_json <$> bl_steps (cf_builder c))); ("edges", JArr (edge_json <$> bl_edges (cf_builder c)));
     ("metadata", JObj [("dsl", JObj
        [("version", JStr (wf_version w)); ("source", text_json source);
         ("steps", JObj ((fun p => (p.1, JObj (_span_metadata filename p.2))) <$> bl_sources (cf_builder c)))])])])].

(** ** Well-formed flows *)

Definition ids (b : builder) : list string := (bl_steps b).*1.

Definition before (N : list string) (s d : string) : Prop := ∃ i j, N !! i = Some s ∧ N !! j = Some d ∧ i < j.

Lemma before_app_l N M s d : before N s d → before (N ++ M) s d.
Proof. intros (i & j & Hi & Hj & Hlt). exists i, j.
  rewrite !lookup_app_l by (by eapply lookup_lt_Some). done.
Qed.

Lemma before_app_r N M s d : before M s d → before (N ++ M) s d.
Proof.
  intros (i & j & Hi & Hj & Hlt). exists (length N + i), (length N + j).
  rewrite !lookup_app_r by lia. replace (length N + i - length N) with i by lia.
  replace (length N + j - length N) with j by lia. split_and!; [done..|lia].
Qed.

Lemma before_cross N M s d : s ∈ N → d ∈ M → before (N ++ M) s d.
Proof.
  intros [i Hi]%list_elem_of_lookup [j Hj]%list_elem_of_lookup. exists i, (length N + j).
  pose proof (lookup_lt_Some _ _ _ Hi). rewrite lookup_app_l by lia. rewrite lookup_app_r by lia.
  replace (length N + j - length N) with j by lia. split_and!; [done..|lia].
Qed.

Lemma set_case_ids once id c d steps : (set_case once id c d steps).*1 = steps.*1.
Proof.
  unfold set_case. rewrite <-list_fmap_compose. apply list_fmap_ext. intros i [k []] _; simpl; try done.
  by destruct (String.eqb _ _).
Qed.

Lemma link_spec exits entry b :
  ids (_link_segments exits entry b) = ids b ∧
  bl_edges (_link_segments exits entry b) =
    bl_edges b ++ ((fun x => mkEdge (xe_src x) entry (xe_case x)) <$> exits) ∧
  bl_entry (_link_segments exits entry b) = bl_entry b.
Proof.
  unfold _link_segments. revert b. induction exits as [|x exits IH]; intros b; csimpl.
  { by rewrite app_nil_r. }
  destruct (IH (_add_edge (xe_src x) entry (xe_case x) b)) as (H1 & H2 & H3).
  rewrite H1, H2, H3. unfold _add_edge, ids. cbn [bl_steps bl_edges bl_entry].
  rewrite <-app_assoc. split_and!; [|done..]. destruct (xe_case x); [apply set_case_ids|done].
Qed.

Lemma cases_spec id entry values b :
  ids (add_cases id entry values b) = ids b ∧
  bl_edges (add_cases id entry values b) = bl_edges b ++ ((fun v => mkEdge id entry (Some v)) <$> values) ∧
  bl_entry (add_cases id entry values b) = bl_entry b.
Proof.
  unfold add_cases. revert b. induction values as [|v values IH]; intros b; csimpl.
  { by rewrite app_nil_r. }
  match goal with |- context [foldl _ ?b0 values] => destruct (IH b0) as (H1 & H2 & H3) end.
  rewrite H1, H2, H3. unfold _add_edge, ids. cbn [bl_steps bl_edges bl_entry].
  rewrite <-app_assoc, !set_case_ids. done.
Qed.

(** What compiling a part of a workflow adds to the builder. *)
Record segment (b : builder) (g : SequenceGraph) (b' : builder) (N : list string) (E : list flow_edge) : Prop := {
  sm_ids : ids b' = ids b ++ N;
  sm_edges : bl_edges b' = bl_edges b ++ E;
  sm_entry : sg_entry g ∈ N;
  sm_first : bl_entry b' = Some (default (sg_entry g) (bl_entry b));
  sm_some : sg_exits g ≠ [];
  sm_exits : ∀ x, x ∈ sg_exits g → xe_src x ∈ N;
  sm_forward : ∀ e, e ∈ E → before N (fe_from e) (fe_to e);
  sm_in : ∀ d, d ∈ N → d = sg_entry g ∨ ∃ e, e ∈ E ∧ fe_to e = d;
  sm_out : ∀ s, s ∈ N → (∃ x, x ∈ sg_exits g ∧ xe_src x = s) ∨ ∃ e, e ∈ E ∧ fe_from e = s;
  sm_nodup : NoDup (ids b) → NoDup (ids b')
}.

(** Two segments, the exits of the first linked to the entry of the second. *)
Lemma segment_link b0 g0 b1 N0 E0 g1 b2 N1 E1 :
  segment b0 g0 b1 N0 E0 → segment b1 g1 b2 N1 E1 →
  segment b0 (mkGraph (sg_entry g0) (sg_exits g1)) (_link_segments (sg_exits g0) (sg_entry g1) b2) (N0 ++ N1)
    (E0 ++ E1 ++ ((fun x => mkEdge (xe_src x) (sg_entry g1) (xe_case x)) <$> sg_exits g0)).
Proof.
  intros S0 S1. destruct (link_spec (sg_exits g0) (sg_entry g1) b2) as (H1 & H2 & H3).
  split; cbn [sg_entry sg_exits].
  - by rewrite H1, (sm_ids _ _ _ _ _ S1), (sm_ids _ _ _ _ _ S0), app_assoc.
  - by rewrite H2, (sm_edges _ _ _ _ _ S1), (sm_edges _ _ _ _ _ S0), <-!app_assoc.
  - apply elem_of_app. left. apply S0.
  - rewrite H3, (sm_first _ _ _ _ _ S1), (sm_first _ _ _ _ _ S0). done.
  - apply S1.
  - intros x Hx. apply elem_of_app. right. by apply S1.
  - intros e. rewrite !elem_of_app. intros [He|[He|(x & -> & Hx)%list_elem_of_fmap]].
    + by apply before_app_l, S0.
    + by apply before_app_r, S1.
    + apply before_cross; [by apply S0|apply S1].
  - intros d [Hd|Hd]%elem_of_app.
    + destruct (sm_in _ _ _ _ _ S0 d Hd) as [|(e & He & Hed)]; [by left|]. right. exists e. set_solver.
    + right. destruct (sm_in _ _ _ _ _ S1 d Hd) as [->|(e & He & Hed)]; [|exists e; set_solver].
      destruct (sg_exits g0) as [|x l] eqn:Hx; [by destruct (sm_some _ _ _ _ _ S0)|].
      eexists. split; [apply elem_of_app; right; apply elem_of_app; right; left|done].
  - intros s [Hs|Hs]%elem_of_app.
    + right. destruct (sm_out _ _ _ _ _ S0 s Hs) as [(x & Hx & <-)|(e & He & <-)]; [|exists e; set_solver].
      exists (mkEdge (xe_src x) (sg_entry g1) (xe_case x)). split; [|done].
      rewrite !elem_of_app. right. right. apply list_elem_of_fmap. by exists x.
    + destruct (sm_out _ _ _ _ _ S1 s Hs) as [|(e & He & <-)]; [by left|]. right. exists e. set_solver.
  - intros Hnd. rewrite H1. by apply S1, S0.
Qed.

(** ** Fresh ids *)

Lemma unique_from_fresh fuel prefix c l id c' : unique_from fuel prefix c l = Some (id, c') → id ∉ l.
Proof.
  revert c. induction fuel as [|fuel IH]; intros c; [done|]. cbn [unique_from].
  destruct (inb _ l) eqn:Hin; [apply IH|]. intros [= <- _]. by apply inb_false.
Qed.

Definition candidate (prefix : string) (n : nat) : string := prefix +:+ "_" +:+ pretty n.

Lemma candidate_inj prefix m n : candidate prefix m = candidate prefix n → m = n.
Proof. unfold candidate. intros Heq%str_app_inj_l%str_app_inj_l. by apply (inj pretty). Qed.

Lemma unique_from_taken fuel prefix c l :
  unique_from fuel prefix c l = None → ∀ n, c ≤ n < c + fuel → candidate prefix n ∈ l.
Proof.
  revert c. induction fuel as [|fuel IH]; intros c Hu n Hn; [lia|]. cbn [unique_from] in Hu. fold (candidate prefix c) in Hu.
  destruct (inb (candidate prefix c) l) eqn:Hin; [|done]. destruct (decide (n = c)) as [->|]; [by apply inb_true|].
  apply (IH (S c)); [done|lia].
Qed.

(** There is a free id among one more than there are steps. *)
Lemma unique_from_returns prefix c l : is_Some (unique_from (S (length l)) prefix c l).
Proof.
  destruct (unique_from (S (length l)) prefix c l) eqn:Hu; [by eexists|].
  assert (candidate prefix <$> seq c (S (length l)) ⊆+ l) as Hsub.
  { apply NoDup_submseteq; [apply NoDup_fmap_2; [intros ??; apply candidate_inj|apply NoDup_seq]|].
    intros x (n & -> & Hn%elem_of_seq)%list_elem_of_fmap. by eapply unique_from_taken. }
  apply submseteq_length in Hsub. rewrite length_fmap, length_seq in Hsub. lia.
Qed.

Lemma unique_id_returns prefix b : ∃ id b', _unique_step_id prefix b = Ok (id, b').
Proof.
  unfold _unique_step_id. destruct (unique_from_returns prefix (bl_counter b) (bl_steps b).*1) as [[id c] Hu].
  rewrite length_fmap in Hu. rewrite Hu. by eexists _, _.
Qed.

Lemma unique_id_spec prefix b id b' :
  _unique_step_id prefix b = Ok (id, b') →
  (id ∉ ids b) ∧ bl_steps b' = bl_steps b ∧ bl_edges b' = bl_edges b ∧ bl_entry b' = bl_entry b.
Proof.
  unfold _unique_step_id. destruct (unique_from _ _ _ _) as [[i c]|] eqn:Hu; [|done]. intros [= <- <-].
  apply unique_from_fresh in Hu. done.
Qed.

Lemma add_step_spec id body loc b b' :
  _add_step id body loc b = Ok b' →
  (id ∉ ids b) ∧ bl_steps b' = bl_steps b ++ [(id, body)] ∧ bl_edges b' = bl_edges b ∧
  bl_entry b' = Some (default id (bl_entry b)).
Proof.
  unfold _add_step. destruct (inb _ _) eqn:Hin; [done|]. intros [= <-]. apply inb_false in Hin.
  split_and!; try done. by destruct (bl_entry b).
Qed.

(** One step is a segment. *)
Lemma add_step_segment id body loc case b b' :
  _add_step id body loc b = Ok b' → segment b (mkGraph id [mkExit id case]) b' [id] [].
Proof.
  intros (Hid & Hs & He & Hf)%add_step_spec. split; cbn [sg_entry sg_exits].
  - unfold ids. by rewrite Hs, fmap_app.
  - by rewrite He, app_nil_r.
  - by apply list_elem_of_singleton.
  - done.
  - done.
  - intros x ->%list_elem_of_singleton. by apply list_elem_of_singleton.
  - set_solver.
  - intros d ->%list_elem_of_singleton. by left.
  - intros s ->%list_elem_of_singleton. left. exists (mkExit id case). split; [by apply list_elem_of_singleton|done].
  - intros Hnd. unfold ids in *. rewrite Hs, fmap_app. apply NoDup_app. split_and!; [done| |apply NoDup_singleton].
    intros x Hx ->%list_elem_of_singleton. done.
Qed.

(** A segment does not look at the counter. *)
Lemma segment_steps b1 b2 g b' N E :
  bl_steps b1 = bl_steps b2 → bl_edges b1 = bl_edges b2 → bl_entry b1 = bl_entry b2 →
  segment b1 g b' N E → segment b2 g b' N E.
Proof.
  intros Hs He Hf [H1 H2 H3 H4 H5 H6 H7 H8 H9 H10]. unfold ids in *. rewrite Hs in *. rewrite He in *. rewrite Hf in *.
  by split.
Qed.

Section segments.
Context `{PyLiteral}.

Lemma condition_values text loc c : _parse_condition text loc = Ok c → cn_case_values c ≠ [].
Proof.
  unfold _parse_condition. destruct (partition_at " in " _) as [[ref rem]|].
  - intros Hc. inv_ok. subst c. simpl. unfold _parse_literal_list in *. repeat case_match; try done. inv_ok.
    repeat case_match; simplify_eq/=; done.
  - destruct (partition_at "==" _) as [[ref v]|]; [|done]. intros Hc. inv_ok. by subst c.
Qed.

(** A switch in front of a segment, with its cases. *)
Lemma switch_segment b0 id body loc b1 g b2 N E values :
  _add_step id body loc b0 = Ok b1 → segment b1 g b2 N E → values ≠ [] →
  segment b0 (mkGraph id (sg_exits g ++ [mkExit id (Some DEFAULT_CASE)])) (add_cases id (sg_entry g) values b2) (id :: N)
    (E ++ ((fun v => mkEdge id (sg_entry g) (Some v)) <$> values)).
Proof.
  intros Ha Sg Hv. pose proof (add_step_segment id body loc None b0 b1 Ha) as S0.
  destruct (cases_spec id (sg_entry g) values b2) as (H1 & H2 & H3). split; cbn [sg_entry sg_exits].
  - by rewrite H1, (sm_ids _ _ _ _ _ Sg), (sm_ids _ _ _ _ _ S0), <-app_assoc.
  - rewrite H2, (sm_edges _ _ _ _ _ Sg), (sm_edges _ _ _ _ _ S0), app_nil_r. by rewrite <-app_assoc.
  - left.
  - rewrite H3, (sm_first _ _ _ _ _ Sg), (sm_first _ _ _ _ _ S0). done.
  - by destruct (sg_exits g).
  - intros x [Hx%Sg| ->%list_elem_of_singleton]%elem_of_app; [by right|left].
  - intros e [He%Sg|(v & -> & _)%list_elem_of_fmap]%elem_of_app; [by apply (before_app_r [id])|].
    apply (before_cross [id]); [by apply list_elem_of_singleton|apply Sg].
  - intros d [->|Hd]%elem_of_cons; [by left|]. right.
    destruct (sm_in _ _ _ _ _ Sg d Hd) as [->|(e & He & Hed)]; [|exists e; set_solver].
    destruct values as [|v values]; [done|]. exists (mkEdge id (sg_entry g) (Some v)). split; [|done].
    apply elem_of_app. right. left.
  - intros s [->|Hs]%elem_of_cons.
    + left. exists (mkExit id (Some DEFAULT_CASE)). split; [|done]. apply elem_of_app. right. by apply list_elem_of_singleton.
    + destruct (sm_out _ _ _ _ _ Sg s Hs) as [(x & Hx & <-)|(e & He & <-)]; [left; exists x; set_solver|].
      right. exists e. set_solver.
  - intros Hnd. rewrite H1. by apply Sg, S0.
Qed.

(** A sequence of segments is a segment. *)
Lemma sequence_segment (compile : WdlStep → builder → res (SequenceGraph * builder)) steps :
  Forall (fun s => ∀ b g b', compile s b = Ok (g, b') → ∃ N E, segment b g b' N E) steps →
  ∀ b0 g0 b N E g b', segment b0 g0 b N E →
    sequence_with compile steps (Some (sg_entry g0)) (sg_exits g0) b = Ok (g, b') →
    ∃ N' E', segment b0 g b' N' E'.
Proof.
  induction 1 as [|s steps Hs _ IH]; intros b0 g0 b N E g b' S Hseq; cbn [sequence_with] in Hseq.
  { injection Hseq as <- <-. exists N, E. by destruct g0. }
  destruct (compile s b) as [[g1 b1]|] eqn:Hc; [|done]. cbn [mbind res_bind fst snd default] in Hseq.
  destruct (Hs _ _ _ Hc) as (N1 & E1 & S1). pose proof (segment_link _ _ _ _ _ _ _ _ _ S S1) as SL.
  eapply IH; [exact SL|]. exact Hseq.
Qed.

Lemma sequence_start (compile : WdlStep → builder → res (SequenceGraph * builder)) steps b g b' :
  Forall (fun s => ∀ b g b', compile s b = Ok (g, b') → ∃ N E, segment b g b' N E) steps →
  sequence_with compile steps None [] b = Ok (g, b') → ∃ N E, segment b g b' N E.
Proof.
  intros Hall Hseq. destruct Hall as [|s steps Hs Hall]; [done|]. cbn [sequence_with] in Hseq.
  destruct (compile s b) as [[g1 b1]|] eqn:Hc; [|done]. cbn [mbind res_bind fst snd default] in Hseq.
  destruct (Hs _ _ _ Hc) as (N1 & E1 & S1). eapply (sequence_segment compile steps Hall); [exact S1|exact Hseq].
Qed.
End segments.

Section step_ind.
Context (P : WdlStep → Prop).
Hypothesis Hcall : ∀ id target args loc, P (WdlCallStep id target args loc).
Hypothesis Hwhen : ∀ c steps loc, Forall P steps → P (WdlWhenStep c steps loc).

Fixpoint step_ind' (s : WdlStep) : P s :=
  match s with
  | WdlCallStep id target args loc => Hcall id target args loc
  | WdlWhenStep c steps loc =>
      Hwhen c steps loc ((fix go (l : list WdlStep) : Forall P l :=
        match l with [] => Forall_nil_2 _ | s :: l => Forall_cons_2 _ _ _ (step_ind' s) (go l) end) steps)
  end.
End step_ind.

Section compiled_flows.
Context `{PyLiteral}.

Lemma step_segment s : ∀ b g b', _compile_step s b = Ok (g, b') → ∃ N E, segment b g b' N E.
Proof.
  induction s as [id target args loc|text steps loc IH] using step_ind'; intros b g b' Hc; cbn [_compile_step] in Hc.
  - unfold _compile_call in Hc. destruct (inb _ _); [done|]. inv_ok. simplify_eq. eexists _, _.
    by eapply add_step_segment.
  - destruct (_parse_condition text loc) as [cond|] eqn:Hcond; [|done]. cbn [mbind res_bind] in Hc.
    destruct (_unique_step_id "when" b) as [[id b1]|] eqn:Hu; [|done]. cbn [mbind res_bind fst snd] in Hc.
    destruct (_add_step id _ loc b1) as [b2|] eqn:Ha; [|done]. cbn [mbind res_bind] in Hc.
    destruct (sequence_with _compile_step steps None [] b2) as [[g1 b3]|] eqn:Hseq; [|done]. cbn [mbind res_bind fst snd] in Hc.
    injection Hc as <- <-. destruct (sequence_start _ _ _ _ _ IH Hseq) as (N & E & S).
    destruct (unique_id_spec _ _ _ _ Hu) as (_ & Hs & He & Hf). eexists _, _.
    eapply segment_steps; [exact Hs|exact He|exact Hf|].
    eapply switch_segment; [exact Ha|exact S|]. by eapply condition_values.
Qed.
End compiled_flows.

(** ** Cases of switches *)

(** A case of a switch is an edge, and the default is there or will be added
    with one of the exits [X]. *)
Definition cases_ok (b : builder) (X : list ExitEdge) : Prop :=
  ∀ i key cases, (i, SwitchBody key cases) ∈ bl_steps b →
    (∀ c d, alookup c cases = Some d → mkEdge i d (Some c) ∈ bl_edges b) ∧
    (is_Some (alookup DEFAULT_CASE cases) ∨ mkExit i (Some DEFAULT_CASE) ∈ X).

Lemma cases_ok_mono b X X' : (∀ x, x ∈ X → x ∈ X') → cases_ok b X → cases_ok b X'.
Proof. intros Hsub Hok i key cases Hin. destruct (Hok i key cases Hin) as [H1 [H2|H2]]; auto. Qed.

Lemma set_case_elem once id c d steps i key cases' :
  (i, SwitchBody key cases') ∈ set_case once id c d steps →
  ∃ cases, (i, SwitchBody key cases) ∈ steps ∧
    (∀ k x, alookup k cases' = Some x → alookup k cases = Some x ∨ (i = id ∧ k = c ∧ x = d)) ∧
    (∀ k, is_Some (alookup k cases) → is_Some (alookup k cases')) ∧
    (i = id → is_Some (alookup c cases')).
Proof.
  unfold set_case. intros ([i0 body] & Heq & Hin)%list_elem_of_fmap.
  destruct body as [| key0 cases| |]; try done. destruct (String.eqb_spec i0 id) as [->|Hne].
  2:{ injection Heq as <- <- <-. exists cases'. split_and!; [done|by left|done|done]. }
  injection Heq as -> -> ->. exists cases. split; [done|].
  assert (∀ k, alookup k (dict_set c d cases) = if decide (k = c) then Some d else alookup k cases) as Hset
    by (intros; apply alookup_dict_set).
  destruct (once && bool_decide (is_Some (alookup c cases))) eqn:Ho.
  - apply andb_true_iff in Ho as [_ Ho%bool_decide_eq_true]. split_and!; [by left|done|done].
  - setoid_rewrite Hset. split_and!.
    + intros k x. case_decide; [|by left]. intros [= <-]. by right.
    + intros k Hk. case_decide; [by eexists|done].
    + intros _. rewrite decide_True by done. by eexists.
Qed.

Lemma cases_ok_add_edge b src dst case X :
  cases_ok b (mkExit src case :: X) → cases_ok (_add_edge src dst case b) X.
Proof.
  intros Hok i key cases Hin. unfold _add_edge in *. cbn [bl_steps bl_edges] in *. destruct case as [c|].
  - apply set_case_elem in Hin as (cases0 & Hin & Hget & Hkeep & Hset). destruct (Hok _ _ _ Hin) as [He Hd]. split.
    + intros k x Hk. apply elem_of_app. destruct (Hget k x Hk) as [Hk0|(-> & -> & ->)]; [left; by apply He|].
      right. by apply list_elem_of_singleton.
    + destruct Hd as [Hd|[[= -> ->]|Hd]%elem_of_cons]; [left; by apply Hkeep|left; by apply Hset|by right].
  - destruct (Hok _ _ _ Hin) as [He Hd]. split; [intros k x Hk; apply elem_of_app; left; by apply He|].
    destruct Hd as [Hd|[[=]|Hd]%elem_of_cons]; by auto.
Qed.

Lemma cases_ok_link exits entry b X : cases_ok b (exits ++ X) → cases_ok (_link_segments exits entry b) X.
Proof.
  unfold _link_segments. revert b. induction exits as [|[src case] exits IH]; intros b Hok; [done|].
  apply IH, cases_ok_add_edge, Hok.
Qed.

Lemma cases_ok_cases id entry values b X : cases_ok b X → cases_ok (add_cases id entry values b) X.
Proof.
  unfold add_cases. revert b. induction values as [|v values IH]; intros b Hok; [done|]. apply IH.
  intros i key cases Hin. unfold _add_edge in *. cbn [bl_steps bl_edges] in *.
  apply set_case_elem in Hin as (cases1 & Hin & Hget1 & Hkeep1 & _).
  apply set_case_elem in Hin as (cases0 & Hin & Hget0 & Hkeep0 & _). destruct (Hok _ _ _ Hin) as [He Hd]. split.
  - intros k x Hk. apply elem_of_app. destruct (Hget1 k x Hk) as [Hk1|(-> & -> & ->)];
      [destruct (Hget0 k x Hk1) as [Hk0|(-> & -> & ->)]|]; [left; by apply He|right; by apply list_elem_of_singleton..].
  - destruct Hd as [Hd|Hd]; [left; by apply Hkeep1, Hkeep0|by right].
Qed.

Lemma cases_ok_add_step id body loc b b' X :
  _add_step id body loc b = Ok b' → cases_ok b X →
  match body with SwitchBody _ cases => cases = [] ∧ mkExit id (Some DEFAULT_CASE) ∈ X | _ => True end →
  cases_ok b' X.
Proof.
  intros (_ & Hs & He & _)%add_step_spec Hok Hbody i key cases Hin. rewrite Hs in Hin. rewrite He.
  apply elem_of_app in Hin as [Hin|Hin]; [by apply (Hok i key)|].
  apply list_elem_of_singleton in Hin as [= -> <-]. destruct Hbody as [-> Hx]. split; [done|by right].
Qed.

Lemma cases_ok_unique prefix b id b' X : _unique_step_id prefix b = Ok (id, b') → cases_ok b X → cases_ok b' X.
Proof. intros (_ & Hs & He & _)%unique_id_spec Hok. unfold cases_ok. by rewrite Hs, He. Qed.

Section compiled_cases.
Context `{PyLiteral}.

Definition keeps_cases (compile : WdlStep → builder → res (SequenceGraph * builder)) (s : WdlStep) : Prop :=
  ∀ b g b' X, compile s b = Ok (g, b') → cases_ok b X → cases_ok b' (sg_exits g ++ X).

Lemma sequence_cases compile steps : Forall (keeps_cases compile) steps →
  ∀ entry exits b g b' X, sequence_with compile steps entry exits b = Ok (g, b') →
    cases_ok b (exits ++ X) → cases_ok b' (sg_exits g ++ X).
Proof.
  induction 1 as [|s steps Hs _ IH]; intros entry exits b g b' X Hseq Hok; cbn [sequence_with] in Hseq.
  { destruct entry; [|done]. by injection Hseq as <- <-. }
  destruct (compile s b) as [[g1 b1]|] eqn:Hc; [|done]. cbn [mbind res_bind fst snd] in Hseq.
  eapply IH; [exact Hseq|]. apply cases_ok_link. eapply cases_ok_mono; [|exact (Hs _ _ _ _ Hc Hok)].
  intros x. rewrite !elem_of_app. tauto.
Qed.

Lemma step_cases s : keeps_cases _compile_step s.
Proof.
  induction s as [id target args loc|text steps loc IH] using step_ind'; intros b g b' X Hc Hok; cbn [_compile_step] in Hc.
  - unfold _compile_call in Hc. destruct (inb _ _); [done|]. inv_ok. simplify_eq.
    eapply cases_ok_add_step; [done| |done]. eapply cases_ok_mono; [|exact Hok]. intros x Hx. by right.
  - inv_ok. rename a0 into fresh, a1 into b2, a2 into nested. destruct fresh as [id b1], nested as [g1 b3]. simplify_eq/=.
    apply cases_ok_cases.
    match goal with H : sequence_with _ _ _ _ _ = _ |- _ => rename H into Hseq end.
    eapply cases_ok_mono; [|eapply (sequence_cases _ _ IH _ _ _ _ _ (mkExit id (Some DEFAULT_CASE) :: X) Hseq)].
    + intros x. rewrite !elem_of_app, !elem_of_cons. set_solver.
    + eapply cases_ok_add_step; [done| |split; [done|left]].
      eapply cases_ok_unique; [done|]. eapply cases_ok_mono; [|exact Hok]. intros x Hx. by right.
Qed.
End compiled_cases.

(** ** The compiled flow *)

Definition leads (b : builder) (s d : string) : Prop := ∃ e, e ∈ bl_edges b ∧ fe_from e = s ∧ fe_to e = d.

Record flow_ok (c : compiled) : Prop := {
  fo_nodup : NoDup (ids (cf_builder c));
  fo_ends : cf_entry c ∈ ids (cf_builder c) ∧ cf_finish c ∈ ids (cf_builder c);
  fo_forward : ∀ e, e ∈ bl_edges (cf_builder c) → before (ids (cf_builder c)) (fe_from e) (fe_to e);
  fo_reached : ∀ id, id ∈ ids (cf_builder c) →
    rtc (leads (cf_builder c)) (cf_entry c) id ∧ rtc (leads (cf_builder c)) id (cf_finish c);
  fo_cases : ∀ i key cases, (i, SwitchBody key cases) ∈ bl_steps (cf_builder c) →
    is_Some (alookup DEFAULT_CASE cases) ∧
    ∀ case d, alookup case cases = Some d → mkEdge i d (Some case) ∈ bl_edges (cf_builder c)
}.

(** A segment from nothing whose one exit is its last step. *)
Lemma segment_reached b g b' N E fin :
  segment b g b' N E → ids b = [] → bl_edges b = [] → NoDup N → (∀ x, x ∈ sg_exits g → xe_src x = fin) →
  ∀ id, id ∈ N → rtc (leads b') (sg_entry g) id ∧ rtc (leads b') id fin.
Proof.
  intros Sg Hids Hedges Hnd Hfin. assert (∀ e, e ∈ E → leads b' (fe_from e) (fe_to e)) as Hlead.
  { intros e He. exists e. rewrite (sm_edges _ _ _ _ _ Sg), Hedges. done. }
  assert (∀ n i id, N !! i = Some id → i < n → rtc (leads b') (sg_entry g) id) as Hto.
  { induction n as [|n IH]; intros i id Hi Hlt; [lia|].
    destruct (sm_in _ _ _ _ _ Sg id) as [->|(e & He & <-)]; [by eapply list_elem_of_lookup_2|done|].
    destruct (sm_forward _ _ _ _ _ Sg e He) as (i1 & j1 & Hi1 & Hj1 & Hlt1).
    assert (j1 = i) as -> by (by eapply NoDup_lookup).
    eapply rtc_r; [apply (IH i1); [done|lia]|by apply Hlead]. }
  assert (∀ n i id, N !! i = Some id → length N - i < n → rtc (leads b') id fin) as Hfrom.
  { induction n as [|n IH]; intros i id Hi Hlt; [lia|]. pose proof (lookup_lt_Some _ _ _ Hi).
    destruct (sm_out _ _ _ _ _ Sg id) as [(x & Hx & <-)|(e & He & <-)]; [by eapply list_elem_of_lookup_2|by rewrite (Hfin x Hx)|].
    destruct (sm_forward _ _ _ _ _ Sg e He) as (i1 & j1 & Hi1 & Hj1 & Hlt1).
    assert (i1 = i) as -> by (by eapply NoDup_lookup).
    eapply rtc_l; [by apply Hlead|]. apply (IH j1); [done|]. pose proof (lookup_lt_Some _ _ _ Hj1). lia. }
  intros id [i Hi]%list_elem_of_lookup. split; [by apply (Hto (S i) i); [|lia]|by apply (Hfrom (S (length N - i)) i); [|lia]].
Qed.

Section workflow.
Context `{PyLiteral}.

Lemma all_steps_segments steps : Forall (fun s => ∀ b g b', _compile_step s b = Ok (g, b') → ∃ N E, segment b g b' N E) steps.
Proof. apply Forall_true. intros s. apply step_segment. Qed.

(** A last step with a fresh id. *)
Lemma fresh_step prefix body loc b id b1 b' :
  _unique_step_id prefix b = Ok (id, b1) → _add_step id body loc b1 = Ok b' →
  (∀ key cases, body ≠ SwitchBody key cases) →
  segment b (mkGraph id [mkExit id None]) b' [id] [] ∧ ∀ X, cases_ok b X → cases_ok b' X.
Proof.
  intros Hu Ha Hbody. destruct (unique_id_spec _ _ _ _ Hu) as (_ & Hs & He & Hf). split.
  - apply (segment_steps b1 b); [done..|]. by eapply add_step_segment.
  - intros X Hok. eapply cases_ok_add_step; [exact Ha|by eapply cases_ok_unique|]. destruct body; [done| |done..].
    by destruct (Hbody key_from cases).
Qed.

Lemma outputs_step w b g b' : _add_outputs_step w b = Ok (g, b') →
  g = mkGraph (sg_entry g) [mkExit (sg_entry g) None] ∧ segment b g b' [sg_entry g] [] ∧
  ∀ X, cases_ok b X → cases_ok b' X.
Proof.
  unfold _add_outputs_step. intros Ho. inv_ok. destruct a as [id b1]. simplify_eq/=.
  split; [done|]. by eapply fresh_step.
Qed.

Lemma finish_added w b g b' : _add_finish_step w b = Ok (g, b') →
  segment b (mkGraph (sg_entry g) [mkExit (sg_entry g) None]) b' [sg_entry g] [] ∧ ∀ X, cases_ok b X → cases_ok b' X.
Proof.
  unfold _add_finish_step. intros Ho. inv_ok. destruct a as [id b1]. simplify_eq/=. by eapply fresh_step.
Qed.

(** A segment from nothing that ends in one step is a flow. *)
Lemma segment_flow g b N E fin :
  segment empty_builder g b N E → sg_exits g = [mkExit fin None] → cases_ok b [] →
  flow_ok (mkCompiled b (sg_entry g) fin).
Proof.
  intros Sg Hx Hok. assert (ids b = N) as Hids by (by rewrite (sm_ids _ _ _ _ _ Sg)).
  assert (NoDup N) as Hnd. { rewrite <-Hids. apply (sm_nodup _ _ _ _ _ Sg). constructor. }
  split; cbn [cf_builder cf_entry cf_finish]; rewrite ?Hids.
  - done.
  - split; [apply (sm_entry _ _ _ _ _ Sg)|]. apply (sm_exits _ _ _ _ _ Sg (mkExit fin None)). rewrite Hx.
    by apply list_elem_of_singleton.
  - intros e He. apply (sm_forward _ _ _ _ _ Sg). by rewrite (sm_edges _ _ _ _ _ Sg) in He.
  - apply (segment_reached _ _ _ _ _ fin Sg eq_refl eq_refl Hnd). rewrite Hx. by intros x ->%list_elem_of_singleton.
  - intros i key cases Hin. destruct (Hok i key cases Hin) as [He [Hd|Hd]]; [done|]. inversion Hd.
Qed.

(** C18: a compiled workflow is a well-formed flow.  Step ids are distinct, every
    edge goes to a later step, so the flow has no cycle, the entry leads to
    every step and every step leads to the finish; a switch has its default,
    and each of its cases is one of its edges. *)
Theorem compile_workflow_ok w c : compile_workflow w = Ok c → flow_ok c.
Proof.
  unfold compile_workflow. intros Hc. destruct (wf_steps w) as [|s0 steps0] eqn:Hw; [done|].
  rewrite <-Hw in Hc. clear s0 steps0 Hw.
  destruct (_compile_sequence (wf_steps w) empty_builder) as [[g1 b1]|] eqn:Hseq; [|done]. cbn [mbind res_bind fst snd] in Hc.
  destruct (_add_outputs_step w b1) as [[g2 b2]|] eqn:Ho; [|done]. cbn [mbind res_bind fst snd] in Hc.
  destruct (_add_finish_step w _) as [[g3 b3]|] eqn:Hf; [|done]. cbn [mbind res_bind fst snd] in Hc.
  destruct (sequence_start _ _ _ _ _ (all_steps_segments _) Hseq) as (N1 & E1 & S1).
  destruct (outputs_step _ _ _ _ Ho) as (Hg2 & S2 & Hok2). destruct (finish_added _ _ _ _ Hf) as (S3 & Hok3).
  pose proof (segment_link _ _ _ _ _ _ _ _ _ (segment_link _ _ _ _ _ _ _ _ _ S1 S2) S3) as Sg. cbn [sg_entry sg_exits] in Sg.
  rewrite (sm_first _ _ _ _ _ Sg) in Hc. injection Hc as <-. eapply (segment_flow _ _ _ _ _ Sg); [done|].
  assert (cases_ok b1 (sg_exits g1 ++ [])) as Hok1.
  { eapply (sequence_cases _ _ (Forall_true _ _ step_cases)); [exact Hseq|]. intros ??? Hnil. inversion Hnil. }
  apply cases_ok_link. eapply cases_ok_mono; [|apply Hok3, cases_ok_link, Hok2, Hok1]. intros x Hnil. inversion Hnil.
Qed.
End workflow.

(** ** Example *)

(** A reader of quoted words and lists of them. *)
Definition words_literal : PyLiteral := fun s =>
  if String.eqb s "'high'" then Some (JStr "high")
  else if String.eqb s "['high', 'low']" then Some (JArr [JStr "high"; JStr "low"]) else None.

Definition newline : string := String "010" EmptyString.

Definition example_text : string :=
  "version: wdl/0.1" +:+ newline +:+ "workflow: cool" +:+ newline +:+ "steps:" +:+ newline +:+
  "  - read(sensor.read):" +:+ newline +:+ "      node: a" +:+ newline +:+
  "  - when $step.read.level in ['high', 'low']:" +:+ newline +:+
  "      - fan(fan.set):" +:+ newline +:+ "          speed: 3" +:+ newline +:+
  "outputs:" +:+ newline +:+ "  done: $step.fan" +:+ newline.

Definition example_workflow : WdlWorkflow :=
  mkWorkflow "wdl/0.1" "cool" []
    [WdlCallStep "read" "sensor.read" [mkWArg "node" (RawScalar "a" (mkLoc 5 13)) (mkSpan 5 7)] (mkSpan 4 5);
     WdlWhenStep "$step.read.level in ['high', 'low']"
       [WdlCallStep "fan" "fan.set" [mkWArg "speed" (RawScalar "3" (mkLoc 8 18)) (mkSpan 8 11)] (mkSpan 7 9)] (mkSpan 6 5)]
    [mkWOutput "done" (RawScalar "$step.fan" (mkLoc 10 9)) (mkSpan 10 3)] [] (mkSpan 1 1).

Lemma example_parsed : parse_wdl_document (H := words_literal) example_text = Some (Built example_workflow).
Proof. vm_compute. reflexivity. Qed.

Definition example_flow : compiled :=
  mkCompiled
    (mkBuilder
       [("read", CallBody "sensor.read" [("node", JStr "a")]);
        ("when_0", SwitchBody "$.vars.read.level" [("high", "fan"); ("low", "fan"); ("_DEFAULT", "emit_1")]);
        ("fan", CallBody "fan.set" [("speed", JStr "3")]);
        ("emit_1", EmitBody [("done", JStr "$step.fan")]); ("finish_2", FinishBody)]
       [mkEdge "when_0" "fan" (Some "high"); mkEdge "when_0" "fan" (Some "low"); mkEdge "read" "when_0" None;
        mkEdge "fan" "emit_1" None; mkEdge "when_0" "emit_1" (Some "_DEFAULT"); mkEdge "emit_1" "finish_2" None]
       [("read", mkSpan 4 5); ("when_0", mkSpan 6 5); ("fan", mkSpan 7 9); ("emit_1", mkSpan 10 3); ("finish_2", mkSpan 1 1)]
       (Some "read") 3)
    "read" "finish_2".

Lemma compile_workflow_ok_witness :
  compile_workflow (H := words_literal) example_workflow = Ok example_flow ∧ flow_ok example_flow.
Proof.
  assert (compile_workflow (H := words_literal) example_workflow = Ok example_flow) as Hc by (vm_compute; reflexivity).
  split; [exact Hc|]. exact (compile_workflow_ok (H := words_literal) example_workflow example_flow Hc).
Defined.

(** A case called [_DEFAULT] takes the default of its switch: the branch is
    then run whatever the value is. *)
Lemma default_case_taken :
  let literal : PyLiteral := fun _ => Some (JStr "_DEFAULT") in
  (fun c => alookup "when_0" (bl_steps (cf_builder c))) <$>
    compile_workflow (H := literal)
      (mkWorkflow "1" "w" []
         [WdlWhenStep "$input.x == '_DEFAULT'" [WdlCallStep "fan" "fan.set" [] (mkSpan 2 1)] (mkSpan 1 1)] [] [] (mkSpan 1 1)) =
  Ok (Some (SwitchBody "$.inputs.x" [("_DEFAULT", "fan")])).
Proof. vm_compute. reflexivity. Qed.

(** A trigger whose configuration has a line without a key raises
    [ValueError], not an error with a place. *)
Lemma trigger_crashes :
  parse_wdl_document (H := words_literal)
    ("version: 1" +:+ newline +:+ "workflow: w" +:+ newline +:+ "steps:" +:+ newline +:+ "  - a(b):" +:+ newline +:+
     "triggers:" +:+ newline +:+ "  cron:" +:+ newline +:+ "    hourly" +:+ newline) =
  Some (Crashed (ValueError "Mapping entry missing key in DSL structure")).
Proof. vm_compute. reflexivity. Qed.
