(* ===== verification/ProofChain.v ===== *)
(** * Proof reports ([tm/control/meta/proof.py])

    The report of a control cycle, its verdict and hash, its encoding, the
    difference of two snapshots, the hash chain over a report, and the peer
    evidence that ties the reports of leaves to the report of the center.
    SHA-256 and the text of JSON values are parameters (class [ProofHash]);
    the clock gives the text of each time that is read. *)

From S2P Require Import Prelude PyVal PyConv Deterministic Artifact MetaControl.
From stdpp Require Import base gmap strings list pretty.
From Stdlib Require Import ZArith Lia Ascii.

Abbreviation table := (list (string * json)) (only parsing).

(** ** Hashes *)

(** The JSON text of a value with sorted keys, and SHA-256 in hexadecimal. *)
Class ProofHash := {
  json_text : json → string;
  sha256 : string → string;
  sha256_hex s : sha256 s ≠ EmptyString ∧ str_forall (fun c => negb (Ascii.eqb c ":")) (sha256 s) = true
}.

(** Distinct values have distinct texts, and hashes have no collisions. *)
Class InjProofHash `{ProofHash} := {
  json_text_inj :: Inj (=) (=) json_text;
  sha256_inj :: Inj (=) (=) sha256
}.

Definition json_dumps `{ProofHash} (v : json) : string := json_text (sort_keys v).

(** ** Reports *)

Inductive Verdict : Type := PASS | FAIL | INCONCLUSIVE.

#[export] Instance Verdict_eq_dec : EqDecision Verdict.
Proof. solve_decision. Defined.

Definition proof_verdict_value (v : Verdict) : string :=
  match v with PASS => "pass" | FAIL => "fail" | INCONCLUSIVE => "inconclusive" end.

Record KripkeVerdict : Type := mkKripke {
  kv_verified : bool;
  kv_properties_checked : Z;
  kv_properties_passed : Z;
  kv_failed_properties : list json;
  kv_counterexamples : list json
}.

Definition kripke_outcome (k : KripkeVerdict) : Verdict :=
  if (kv_properties_checked k =? 0)%Z then INCONCLUSIVE
  else if negb (kv_verified k) then FAIL else PASS.

Record EvidenceEntry : Type := mkEvidence {
  ev_source : string;
  ev_event_type : string;
  ev_data : table;
  ev_timestamp : string;
  ev_peer_node_id : option string;
  ev_peer_chain_ref : option string
}.

(** [d.setdefault(key, text)] for a text that may be absent. *)
Definition setdefault (key : string) (v : option string) (m : table) : table :=
  match v with
  | None => m
  | Some s => match alookup key m with Some _ => m | None => m ++ [(key, JStr s)] end
  end.

(** [EvidenceEntry(...)] with its [__post_init__]. *)
Definition evidence (now source event_type : string) (data : table) (timestamp : string)
    (peer_node_id peer_chain_ref : option string) : EvidenceEntry :=
  mkEvidence source event_type
    (setdefault "peer_chain_ref" peer_chain_ref (setdefault "peer_node_id" peer_node_id data))
    (if String.eqb timestamp "" then now else timestamp) peer_node_id peer_chain_ref.

Record ProofReport : Type := mkProof {
  pf_report_id : string;
  pf_intent_id : string;
  pf_cycle_id : string;
  pf_pre_snapshot : table;
  pf_post_snapshot : table;
  pf_execution_summary : table;
  pf_kripke_verdict : KripkeVerdict;
  pf_evidence_chain : list EvidenceEntry;
  pf_policy_decisions : list table;
  pf_overall_verdict : Verdict;
  pf_verdict_reason : string;
  pf_created_at : string;
  pf_report_hash : string;
  pf_peer_node_id : option string;
  pf_peer_chain_ref : option string
}.

Definition with_hash (r : ProofReport) (h : string) : ProofReport :=
  mkProof (pf_report_id r) (pf_intent_id r) (pf_cycle_id r) (pf_pre_snapshot r) (pf_post_snapshot r)
    (pf_execution_summary r) (pf_kripke_verdict r) (pf_evidence_chain r) (pf_policy_decisions r)
    (pf_overall_verdict r) (pf_verdict_reason r) (pf_created_at r) h (pf_peer_node_id r) (pf_peer_chain_ref r).

Definition with_evidence (r : ProofReport) (chain : list EvidenceEntry) : ProofReport :=
  mkProof (pf_report_id r) (pf_intent_id r) (pf_cycle_id r) (pf_pre_snapshot r) (pf_post_snapshot r)
    (pf_execution_summary r) (pf_kripke_verdict r) chain (pf_policy_decisions r)
    (pf_overall_verdict r) (pf_verdict_reason r) (pf_created_at r) (pf_report_hash r)
    (pf_peer_node_id r) (pf_peer_chain_ref r).

Definition with_peer (r : ProofReport) (peer : string) : ProofReport :=
  mkProof (pf_report_id r) (pf_intent_id r) (pf_cycle_id r) (pf_pre_snapshot r) (pf_post_snapshot r)
    (pf_execution_summary r) (pf_kripke_verdict r) (pf_evidence_chain r) (pf_policy_decisions r)
    (pf_overall_verdict r) (pf_verdict_reason r) (pf_created_at r) (pf_report_hash r)
    (Some peer) (pf_peer_chain_ref r).

(** [text or ...] on an optional text. *)
Definition nonempty (v : option string) : option string :=
  match v with Some s => if String.eqb s "" then None else Some s | None => None end.

Definition is_peer_entry (e : EvidenceEntry) : bool := String.eqb (ev_event_type e) "peer_proof_report".

(** [entry.peer_chain_ref or entry.data.get("peer_chain_ref")]. *)
Definition entry_ref (e : EvidenceEntry) : json :=
  match nonempty (ev_peer_chain_ref e) with
  | Some s => JStr s
  | None => jget "peer_chain_ref" (ev_data e)
  end.

(** [sorted] on values: an insertion sort, whose comparisons may raise. *)
Fixpoint insert_value (x : json) (l : list json) : res (list json) :=
  match l with
  | [] => Ok [x]
  | y :: l' =>
      before ← py_order LtO x y;
      if before : bool then Ok (x :: l) else (cons y) <$> insert_value x l'
  end.

Fixpoint sort_values_onto (acc l : list json) : res (list json) :=
  match l with
  | [] => Ok acc
  | x :: l => acc ← insert_value x acc; sort_values_onto acc l
  end.

Definition sorted_values (l : list json) : res (list json) := sort_values_onto [] l.

Definition peer_refs (chain : list EvidenceEntry) : res (list json) :=
  sorted_values (filter (fun v => truthy v = true) (entry_ref <$> filter (fun e => is_peer_entry e = true) chain)).

Section hashes.
Context `{ProofHash}.

Definition _compute_hash (r : ProofReport) : res string :=
  refs ← peer_refs (pf_evidence_chain r);
  Ok (sha256 (json_dumps (JObj
    [("report_id", JStr (pf_report_id r)); ("intent_id", JStr (pf_intent_id r));
     ("cycle_id", JStr (pf_cycle_id r)); ("overall_verdict", JStr (proof_verdict_value (pf_overall_verdict r)));
     ("kripke_verified", JBool (kv_verified (pf_kripke_verdict r)));
     ("evidence_count", JInt (Z.of_nat (length (pf_evidence_chain r))));
     ("peer_chain_refs", JArr refs)]))).

Definition recompute_hash (r : ProofReport) : res ProofReport := with_hash r <$> _compute_hash r.

(** [report.report_hash or report._compute_hash()]. *)
Definition report_hash_of (r : ProofReport) : res string :=
  if String.eqb (pf_report_hash r) "" then _compute_hash r else Ok (pf_report_hash r).

(** [ProofReport.__post_init__]. *)
Definition report_init (now : string) (r : ProofReport) : res ProofReport :=
  let r := if String.eqb (pf_created_at r) ""
           then mkProof (pf_report_id r) (pf_intent_id r) (pf_cycle_id r) (pf_pre_snapshot r) (pf_post_snapshot r)
                  (pf_execution_summary r) (pf_kripke_verdict r) (pf_evidence_chain r) (pf_policy_decisions r)
                  (pf_overall_verdict r) (pf_verdict_reason r) now (pf_report_hash r)
                  (pf_peer_node_id r) (pf_peer_chain_ref r)
           else r in
  h ← report_hash_of r; Ok (with_hash r h).

End hashes.

(** ** Encoding *)

Definition opt_text (v : option string) : json := match v with Some s => JStr s | None => JNull end.

(** [asdict(kripke_verdict)]. *)
Definition kripke_dict (k : KripkeVerdict) : table :=
  [("verified", JBool (kv_verified k)); ("properties_checked", JInt (kv_properties_checked k));
   ("properties_passed", JInt (kv_properties_passed k)); ("failed_properties", JArr (kv_failed_properties k));
   ("counterexamples", JArr (kv_counterexamples k))].

(** [asdict(entry)]. *)
Definition evidence_dict (e : EvidenceEntry) : json :=
  JObj [("source", JStr (ev_source e)); ("event_type", JStr (ev_event_type e)); ("data", JObj (ev_data e));
        ("timestamp", JStr (ev_timestamp e)); ("peer_node_id", opt_text (ev_peer_node_id e));
        ("peer_chain_ref", opt_text (ev_peer_chain_ref e))].

Definition proof_to_dict (r : ProofReport) : table :=
  [("report_id", JStr (pf_report_id r)); ("intent_id", JStr (pf_intent_id r)); ("cycle_id", JStr (pf_cycle_id r));
   ("pre_snapshot", JObj (pf_pre_snapshot r)); ("post_snapshot", JObj (pf_post_snapshot r));
   ("execution_summary", JObj (pf_execution_summary r));
   ("kripke_verdict", JObj (kripke_dict (pf_kripke_verdict r) ++
      [("verdict", JStr (proof_verdict_value (kripke_outcome (pf_kripke_verdict r))))]));
   ("evidence_chain", JArr (evidence_dict <$> pf_evidence_chain r));
   ("policy_decisions", JArr (JObj <$> pf_policy_decisions r));
   ("overall_verdict", JStr (proof_verdict_value (pf_overall_verdict r)));
   ("verdict_reason", JStr (pf_verdict_reason r)); ("created_at", JStr (pf_created_at r));
   ("report_hash", JStr (pf_report_hash r)); ("peer_node_id", opt_text (pf_peer_node_id r));
   ("peer_chain_ref", opt_text (pf_peer_chain_ref r))].

(** [Verdict(text)]; anything else is inconclusive. *)
Definition verdict_of_text (s : string) : Verdict :=
  default INCONCLUSIVE (enum_of [PASS; FAIL; INCONCLUSIVE] proof_verdict_value s).

Section decoding.
Context {PT : PyText} {PH : ProofHash} (clock : nat → string).

(** [str(d.get(key)) if d.get(key) is not None else None]. *)
Definition opt_text_of (key : string) (m : table) : option string :=
  match jget key m with JNull => None | v => Some (py_str other_str v) end.

Definition kripke_of (kv_raw : table) : res KripkeVerdict :=
  checked ← py_int (get_or "properties_checked" (JInt 0) kv_raw);
  passed ← py_int (get_or "properties_passed" (JInt 0) kv_raw);
  failed ← py_iter (get_or "failed_properties" (JArr []) kv_raw);
  counterexamples ← py_iter (get_or "counterexamples" (JArr []) kv_raw);
  Ok (mkKripke (truthy (get_or "verified" (JBool false) kv_raw)) checked passed failed counterexamples).

Definition evidence_of (now : string) (v : json) : res EvidenceEntry :=
  e ← mapping_of v;
  data ← dict_of (get_or "data" (JObj []) e);
  Ok (evidence now (text_of "source" (JStr "") e) (text_of "event_type" (JStr "") e) data
        (text_of "timestamp" (JStr "") e) (opt_text_of "peer_node_id" e) (opt_text_of "peer_chain_ref" e)).

(** The entries in order; the [i]-th reads the clock for the [i]-th time. *)
Fixpoint evidence_list (i : nat) (l : list json) : res (list EvidenceEntry) :=
  match l with
  | [] => Ok []
  | v :: l => e ← evidence_of (clock i) v; es ← evidence_list (S i) l; Ok (e :: es)
  end.

Definition proof_from_dict (data : table) : res ProofReport :=
  kv_raw ← mapping_of (get_or "kripke_verdict" (JObj []) data);
  kripke ← kripke_of kv_raw;
  raw_evidence ← py_iter (get_or "evidence_chain" (JArr []) data);
  chain ← evidence_list 0 raw_evidence;
  raw_pd ← py_iter (get_or "policy_decisions" (JArr []) data);
  pd ← mapM dict_of raw_pd;
  pre ← dict_of (get_or "pre_snapshot" (JObj []) data);
  post ← dict_of (get_or "post_snapshot" (JObj []) data);
  summary ← dict_of (get_or "execution_summary" (JObj []) data);
  report_init (clock (length chain))
    (mkProof (text_of "report_id" (JStr "") data) (text_of "intent_id" (JStr "") data)
       (text_of "cycle_id" (JStr "") data) pre post summary kripke chain pd
       (verdict_of_text (text_of "overall_verdict" (JStr "inconclusive") data))
       (text_of "verdict_reason" (JStr "") data) (text_of "created_at" (JStr "") data)
       (text_of "report_hash" (JStr "") data) (opt_text_of "peer_node_id" data)
       (opt_text_of "peer_chain_ref" data)).
End decoding.

(** ** Generation *)

(** What [getattr] finds on the body of a snapshot: nothing, a dataclass with
    its fields, or something [asdict] refuses. *)
Inductive snapshot_body : Type :=
| NoSnapshot
| DataclassBody (fields : table)
| OtherBody.

Record report_body : Type := mkReportBody {
  rb_report_id : string;
  rb_status : string;
  rb_artifact_refs : table;
  rb_errors : list json
}.

Inductive report_found : Type := NoReport | NoBody | HasBody (b : report_body).

Inductive policy_decision : Type :=
| DecisionMapping (m : table)
| DecisionObject (effect_ref : string) (allowed : bool) (reason : string)
| DecisionOther.

(** A cycle result as the generator sees it. *)
Record cycle_view : Type := mkView {
  vw_bundle_artifact_id : string;
  vw_snapshot : snapshot_body;
  vw_report : report_found;
  vw_policy_decisions : list policy_decision;
  vw_start_time : string;
  vw_end_time : string
}.

Definition _extract_snapshot (v : cycle_view) : table :=
  match vw_snapshot v with DataclassBody m => m | _ => [] end.

Definition _extract_execution_summary (v : cycle_view) : table :=
  match vw_report v with
  | NoReport => [("status", JStr "no_report")]
  | NoBody => [("status", JStr "no_body")]
  | HasBody b => [("report_id", JStr (rb_report_id b)); ("status", JStr (rb_status b));
                  ("artifact_refs", JObj (rb_artifact_refs b)); ("errors", JArr (rb_errors b))]
  end.

Definition _extract_policy_decisions (v : cycle_view) : list table :=
  omap (fun d => match d with
                 | DecisionMapping m => Some m
                 | DecisionObject r a w => Some [("effect_ref", JStr r); ("allowed", JBool a); ("reason", JStr w)]
                 | DecisionOther => None
                 end) (vw_policy_decisions v).

Definition _build_evidence_chain (clock : nat → string) (v : cycle_view) (extra : list EvidenceEntry)
  : list EvidenceEntry :=
  let status := jget "status" (_extract_execution_summary v) in
  evidence (clock 0) "controller_cycle" "cycle_completed"
    [("bundle", JStr (vw_bundle_artifact_id v)); ("start", JStr (vw_start_time v)); ("end", JStr (vw_end_time v))]
    "" None None
  :: (if truthy status
      then [evidence (clock 1) "execution_report" "execution_status" [("status", status)] "" None None]
      else []) ++ extra.

Section verdicts.
Context {PT : PyText}.

Definition _determine_verdict (exec_summary : table) (kripke : KripkeVerdict) (policy_decisions : list table)
  : res (Verdict * string) :=
  let status := get_or "status" (JStr "") exec_summary in
  let '(reason1, failed1) :=
    if py_eq status (JStr "succeeded") then ("execution succeeded", false)
    else if py_eq status (JStr "failed") then ("execution failed", true)
    else if py_eq status (JStr "partial") then ("execution partially succeeded", false)
    else ("execution status: " +:+ py_str other_str status, false) in
  r2 ← (if (0 <? kv_properties_checked kripke)%Z then
          if kv_verified kripke
          then Ok ("all " +:+ pretty (kv_properties_checked kripke) +:+ " properties verified", false)
          else
            names ← texts_of (kv_failed_properties kripke);
            let failed := join_with ", " names in
            Ok ("kripke failed: " +:+ (if String.eqb failed "" then "unknown" else failed), true)
        else Ok ("no kripke properties checked", false));
  let denied := filter (fun d => truthy (get_or "allowed" (JBool true) d) = false) policy_decisions in
  let '(reasons3, failed3) :=
    match denied, policy_decisions with
    | _ :: _, _ => ([pretty (length denied) +:+ " policy decisions denied"], true)
    | [], _ :: _ => (["all policy decisions allowed"], false)
    | [], [] => ([], false)
    end in
  let reason := join_with "; " (reason1 :: r2.1 :: reasons3) in
  Ok (if failed1 || r2.2 || failed3 then (FAIL, reason)
      else if (kv_properties_checked kripke =? 0)%Z && bool_decide (policy_decisions = [])
           then (INCONCLUSIVE, reason) else (PASS, reason)).

Definition no_kripke : KripkeVerdict := mkKripke false 0 0 [] [].

(** [ProofReportGenerator(intent_id).generate]. *)
Definition generate `{ProofHash} (clock : nat → string) (intent_id : string) (v : cycle_view)
    (pre_snapshot : option table) (kripke : option KripkeVerdict) (extra : list EvidenceEntry) : res ProofReport :=
  let bundle_id := vw_bundle_artifact_id v in
  let summary := _extract_execution_summary v in
  let decisions := _extract_policy_decisions v in
  let chain := _build_evidence_chain clock v extra in
  let kv := default no_kripke kripke in
  verdict ← _determine_verdict summary kv decisions;
  report_init (clock (length chain))
    (mkProof ("proof-" +:+ bundle_id) intent_id bundle_id (default [] pre_snapshot) (_extract_snapshot v)
       summary kv chain decisions verdict.1 verdict.2 "" "" None None).
End verdicts.

(** ** The difference of two snapshots *)

Record SnapshotDiffEntry : Type := mkDiffEntry {
  sd_key : string;
  sd_pre_value : json;
  sd_post_value : json;
  sd_delta : option pyfloat
}.

Record SnapshotDiff : Type := mkDiff {
  df_changed : list SnapshotDiffEntry;
  df_added : list string;
  df_removed : list string
}.

Definition diff_to_dict (d : SnapshotDiff) : table :=
  [("changed", JArr ((fun e => JObj [("key", JStr (sd_key e)); ("pre", sd_pre_value e); ("post", sd_post_value e);
                                    ("delta", match sd_delta e with Some f => JFloat f | None => JNull end)])
                       <$> df_changed d));
   ("added", JArr (JStr <$> df_added d)); ("removed", JArr (JStr <$> df_removed d))].

Definition _extract_metrics (snap : table) : table :=
  match get_or "environment" (JObj []) snap with
  | JObj env => match get_or "metrics" (JObj []) env with JObj m => m | _ => [] end
  | _ => []
  end.

Section diff.
Context {PT : PyText}.

(** [float(post) - float(pre)]: values that are no numbers have no delta; an
    integer too large for a float raises. *)
Definition delta_of (pre post : json) : res (option pyfloat) :=
  match (q ← py_float post; p ← py_float pre; Ok (fsub q p)) with
  | Ok f => Ok (Some f)
  | Raise (ValueError _) | Raise (TypeError _) => Ok None
  | Raise e => Raise e
  end.

(** What one key contributes. *)
Definition diff_key (pre post : table) (key : string) : res SnapshotDiff :=
  match alookup key pre, alookup key post with
  | None, _ => Ok (mkDiff [] [key] [])
  | Some _, None => Ok (mkDiff [] [] [key])
  | Some p, Some q =>
      if py_eq p q then Ok (mkDiff [] [] [])
      else delta ← delta_of p q; Ok (mkDiff [mkDiffEntry key p q delta] [] [])
  end.

Fixpoint diff_keys (pre post : table) (keys : list string) : res SnapshotDiff :=
  match keys with
  | [] => Ok (mkDiff [] [] [])
  | key :: keys =>
      here ← diff_key pre post key;
      d ← diff_keys pre post keys;
      Ok (mkDiff (df_changed here ++ df_changed d) (df_added here ++ df_added d) (df_removed here ++ df_removed d))
  end.

Definition diff_snapshots (pre post : table) : res SnapshotDiff :=
  let pre_metrics := _extract_metrics pre in
  let post_metrics := _extract_metrics post in
  diff_keys pre_metrics post_metrics
    (sort_strings (append_new (append_new [] pre_metrics.*1) post_metrics.*1)).
End diff.

(** ** Hash chain *)

Record chain_link : Type := mkLink { lk_artifact : string; lk_hash : string; lk_prev_hash : string }.

Section chain.
Context `{ProofHash}.

Definition chain_items (r : ProofReport) : list (string * string) :=
  [("pre_snapshot", json_dumps (JObj (pf_pre_snapshot r)));
   ("execution_summary", json_dumps (JObj (pf_execution_summary r)));
   ("post_snapshot", json_dumps (JObj (pf_post_snapshot r)));
   ("kripke_verdict", json_dumps (JObj (kripke_dict (pf_kripke_verdict r))));
   ("evidence_chain", json_dumps (JArr (evidence_dict <$> pf_evidence_chain r)));
   ("overall_verdict", proof_verdict_value (pf_overall_verdict r))].

Fixpoint link_items (prev_hash : string) (items : list (string * string)) : list chain_link :=
  match items with
  | [] => []
  | (name, payload) :: items =>
      let entry_hash := sha256 (prev_hash +:+ ":" +:+ payload) in
      mkLink name entry_hash prev_hash :: link_items entry_hash items
  end.

Definition build_hash_chain (r : ProofReport) : list chain_link := link_items "" (chain_items r).

Definition verify_hash_chain (chain : list chain_link) (r : ProofReport) : bool :=
  let expected := build_hash_chain r in
  Nat.eqb (length chain) (length expected) &&
  forallb (fun ce => String.eqb (lk_hash ce.1) (lk_hash ce.2)) (zip chain expected).

(** ** Peer evidence *)

(** The entry a leaf contributes. *)
Definition peer_entry (now peer_id : string) (peer : ProofReport) (peer_hash : string) : EvidenceEntry :=
  evidence now ("peer:" +:+ peer_id) "peer_proof_report"
    [("peer_report_id", JStr (pf_report_id peer)); ("peer_cycle_id", JStr (pf_cycle_id peer));
     ("peer_overall_verdict", JStr (proof_verdict_value (pf_overall_verdict peer)))]
    "" (Some peer_id) (Some peer_hash).

Fixpoint attach_entries (clock : nat → string) (i : nat) (peers : list (string * ProofReport))
  : res (list EvidenceEntry) :=
  match peers with
  | [] => Ok []
  | (peer_id, peer) :: peers =>
      h ← report_hash_of peer;
      es ← attach_entries clock (S i) peers;
      Ok (peer_entry (clock i) peer_id peer h :: es)
  end.

Definition attach_peer_proofs (clock : nat → string) (center : ProofReport)
    (peers : list (string * ProofReport)) : res ProofReport :=
  es ← attach_entries clock 0 peers;
  recompute_hash (with_evidence center (pf_evidence_chain center ++ es)).

Context {PT : PyText}.

(** The peer and the reference an entry names. *)
Definition entry_peer (e : EvidenceEntry) : string :=
  match nonempty (ev_peer_node_id e) with
  | Some s => s
  | None => py_str other_str (jor (jget "peer_node_id" (ev_data e)) (JStr ""))
  end.

Definition entry_chain_ref (e : EvidenceEntry) : string :=
  match nonempty (ev_peer_chain_ref e) with
  | Some s => s
  | None => py_str other_str (jor (jget "peer_chain_ref" (ev_data e)) (JStr ""))
  end.

(** The references by peer, with one error per entry without a peer. *)
Fixpoint collect_refs (entries : list EvidenceEntry) (refs : list (string * string)) (errors : list string)
  : list (string * string) * list string :=
  match entries with
  | [] => (refs, errors)
  | e :: entries =>
      if String.eqb (entry_peer e) "" then collect_refs entries refs (errors ++ ["peer evidence entry missing peer_node_id"])
      else collect_refs entries (dict_set (entry_peer e) (entry_chain_ref e) refs) errors
  end.

Fixpoint check_leaves (refs : list (string * string)) (leaves : list (string * ProofReport)) : res (list string) :=
  match leaves with
  | [] => Ok []
  | (peer_id, leaf) :: leaves =>
      expected_hash ← report_hash_of leaf;
      let here :=
        match alookup peer_id refs with
        | None => ["missing peer evidence for '" +:+ peer_id +:+ "'"]
        | Some attached =>
            if String.eqb attached expected_hash then []
            else ["peer chain ref mismatch for '" +:+ peer_id +:+ "': center has '" +:+ attached +:+
                  "', leaf hash is '" +:+ expected_hash +:+ "'"]
        end in
      errors ← check_leaves refs leaves;
      Ok (here ++ errors)
  end.

Definition verify_peer_chain (center : ProofReport) (leaf_proofs : list (string * ProofReport))
  : res (bool * list string) :=
  let entries := filter (fun e => is_peer_entry e = true) (pf_evidence_chain center) in
  let '(refs, missing) := collect_refs entries [] [] in
  let counted :=
    if Nat.eqb (length refs) (length leaf_proofs) then []
    else ["expected " +:+ pretty (length leaf_proofs) +:+ " peer evidence entries, got " +:+ pretty (length refs)] in
  wrong ← check_leaves refs (sort_items leaf_proofs);
  recomputed ← _compute_hash center;
  let center_errors :=
    if negb (String.eqb (pf_report_hash center) "") && negb (String.eqb (pf_report_hash center) recomputed)
    then ["center report_hash '" +:+ pf_report_hash center +:+ "' does not match recomputed '" +:+ recomputed +:+ "'"]
    else [] in
  let errors := missing ++ counted ++ wrong ++ center_errors in
  Ok (bool_decide (errors = []), errors).
End chain.
