(* ===== verification/Transport.v ===== *)
(** * Transport between agents ([tm/transport/base.py], [file_queue.py])

    The mailboxes and request handlers of one process, and the transport over
    files: every peer has a directory with an inbox, the messages it has taken,
    the replies to its requests and the keys it has seen.  A process keeps a
    transport; the directories are shared.  Random identifiers and times are
    arguments, and files hold the value their JSON text reads as. *)

From S2P Require Import Prelude PyVal PyConv.
From stdpp Require Import base gmap strings list pretty.
From Stdlib Require Import ZArith Lia Ascii.

Abbreviation table := (list (string * json)) (only parsing).
Abbreviation RequestHandler := (list (string * json) → res (list (string * json))) (only parsing).

(** ** In one process *)

Record InProcessTransport : Type := mkInProcess {
  ip_mailboxes : list (string * list (list (string * json)));
  ip_handlers : list (string * RequestHandler)
}.

(** [mailboxes[peer]] on a [defaultdict], then [append]. *)
Definition post (boxes : list (string * list (list (string * json)))) (peer : string)
    (messages : list (list (string * json))) : list (string * list (list (string * json))) :=
  dict_set peer (default [] (alookup peer boxes) ++ messages) boxes.

Definition inprocess_new (known_peers : list string) (handlers : list (string * RequestHandler)) : InProcessTransport :=
  mkInProcess (foldl (fun boxes p => post boxes p []) [] known_peers) handlers.

Definition inprocess_send (t : InProcessTransport) (peer : string) (message : table) : InProcessTransport :=
  mkInProcess (post (ip_mailboxes t) peer [message]) (ip_handlers t).

Definition inprocess_recv (t : InProcessTransport) (peer : string)
  : InProcessTransport * option (list (string * json)) :=
  match alookup peer (ip_mailboxes t) with
  | Some (message :: rest) => (mkInProcess (dict_set peer rest (ip_mailboxes t)) (ip_handlers t), Some message)
  | _ => (t, None)
  end.

Definition inprocess_peers (t : InProcessTransport) : list string := (ip_mailboxes t).*1.

Definition inprocess_broadcast (t : InProcessTransport) (message : table) : InProcessTransport :=
  mkInProcess (foldl (fun boxes p => post boxes p [message]) (ip_mailboxes t) (inprocess_peers t)) (ip_handlers t).

Definition inprocess_request (t : InProcessTransport) (peer : string) (message : table)
  : res (list (string * json)) :=
  match alookup peer (ip_handlers t) with
  | None => Raise (TransportError ("InProcessTransport has no request handler for peer '" +:+ peer +:+ "'") (Some peer))
  | Some handler => handler message
  end.

Definition inprocess_register (t : InProcessTransport) (peer : string) (handler : RequestHandler) : InProcessTransport :=
  mkInProcess (ip_mailboxes t) (dict_set peer handler (ip_handlers t)).

Definition inprocess_unregister (t : InProcessTransport) (peer : string) : InProcessTransport :=
  mkInProcess (ip_mailboxes t) (dict_pop peer (ip_handlers t)).

Definition inprocess_pending (t : InProcessTransport) (peer : string) : nat :=
  length (default [] (alookup peer (ip_mailboxes t))).

(** ** Files *)

Inductive file : Type := JsonFile (v : json) | BadFile.

Record PeerDir : Type := mkPeerDir {
  dir_inbox : list (string * file);
  dir_processed : list (string * file);
  dir_responses : list (string * file);
  dir_dedup : option file
}.

Definition empty_dir : PeerDir := mkPeerDir [] [] [] None.

(** The directories under [root/peers]. *)
Abbreviation tree := (list (string * PeerDir)) (only parsing).

Definition peer_dir (root : tree) (peer : string) : PeerDir := default empty_dir (alookup peer root).

Definition _ensure_peer_dirs (root : tree) (peer : string) : tree := dict_set peer (peer_dir root peer) root.

(** Writing a file makes the directories above it. *)
Definition put_inbox (root : tree) (peer name : string) (f : file) : tree :=
  let d := peer_dir root peer in
  dict_set peer (mkPeerDir (dict_set name f (dir_inbox d)) (dir_processed d) (dir_responses d) (dir_dedup d)) root.

Definition put_response (root : tree) (peer name : string) (f : file) : tree :=
  let d := peer_dir root peer in
  dict_set peer (mkPeerDir (dir_inbox d) (dir_processed d) (dict_set name f (dir_responses d)) (dir_dedup d)) root.

Definition drop_response (root : tree) (peer name : string) : tree :=
  let d := peer_dir root peer in
  dict_set peer (mkPeerDir (dir_inbox d) (dir_processed d) (dict_pop name (dir_responses d)) (dir_dedup d)) root.

Definition put_dedup (root : tree) (peer : string) (f : file) : tree :=
  let d := peer_dir root peer in
  dict_set peer (mkPeerDir (dir_inbox d) (dir_processed d) (dir_responses d) (Some f)) root.

(** [os.replace(inbox/name, processed/name)]; [None] when the file is gone. *)
Definition move_processed (root : tree) (peer name : string) : option tree :=
  let d := peer_dir root peer in
  match alookup name (dir_inbox d) with
  | None => None
  | Some f => Some (dict_set peer (mkPeerDir (dict_pop name (dir_inbox d)) (dict_set name f (dir_processed d))
                                     (dir_responses d) (dir_dedup d)) root)
  end.

(** ** Names of envelopes *)

Definition digit (n : nat) : ascii := ascii_of_nat (48 + n).

(** The last [k] digits of [n]. *)
Fixpoint digits (k n : nat) : string :=
  match k with
  | O => EmptyString
  | S k => digits k (n / 10) +:+ String (digit (n mod 10)) EmptyString
  end.

(** [f"{n:020d}"]: twenty digits, more when the number has more. *)
Definition pad20 (n : nat) : string :=
  if (Z.of_nat n <? 10 ^ 20)%Z then digits 20 n else pretty n.

Definition word_or_dot (c : ascii) : bool :=
  is_alpha c || is_digit c || Ascii.eqb c "_" || Ascii.eqb c "." || Ascii.eqb c "-".

(** [[\w.-]+\.json$] on ASCII names. *)
Definition uuid_part (s : string) : bool :=
  let n := String.length s in
  (6 <=? n)%nat && String.eqb (String.substring (n - 5) 5 s) ".json" && str_forall word_or_dot s.

(** [_ENVELOPE_FILENAME_RE.match(name)]. *)
Definition envelope_name (s : string) : bool :=
  str_forall is_digit (String.substring 0 20 s) &&
  String.eqb (String.substring 20 1 s) "-" &&
  uuid_part (String.substring 21 (String.length s - 21) s).

(** ** The transport over files *)

Record FileQueueTransport : Type := mkFqt {
  ft_my_id : string;
  ft_seq : nat;
  ft_handlers : list (string * RequestHandler);
  ft_dedup : list string;
  ft_window : nat
}.

Definition with_dedup (t : FileQueueTransport) (keys : list string) : FileQueueTransport :=
  mkFqt (ft_my_id t) (ft_seq t) (ft_handlers t) keys (ft_window t).

(** [deque(maxlen=window).append]. *)
Definition deque_append (window : nat) (keys : list string) (key : string) : list string :=
  let keys := keys ++ [key] in drop (length keys - window) keys.

(** [keys[-window:]]; [-0] is the start of the list. *)
Definition last_keys {A} (window : nat) (keys : list A) : list A :=
  match window with O => keys | _ => drop (length keys - window) keys end.

Definition _load_dedup_state (root : tree) (my_id : string) (window : nat) : list string :=
  match dir_dedup (peer_dir root my_id) with
  | Some (JsonFile (JObj payload)) =>
      match jget "keys" payload with
      | JArr keys => foldl (fun acc k => match k with JStr s => deque_append window acc s | _ => acc end) []
                       (last_keys window keys)
      | _ => []
      end
  | _ => []
  end.

Definition file_transport (root : tree) (my_id : string) (known_peers : list string) (window : nat)
  : res (FileQueueTransport * list (string * PeerDir)) :=
  if String.eqb my_id "" then Raise (ValueError "my_peer_id must be a non-empty string")
  else
    let root := _ensure_peer_dirs root my_id in
    Ok (mkFqt my_id 0 [] (_load_dedup_state root my_id window) window, foldl _ensure_peer_dirs root known_peers).

Definition opt_entry (key : string) (v : option string) : list (string * json) :=
  match v with Some s => [(key, JStr s)] | None => [] end.

Definition _make_envelope (t : FileQueueTransport) (kind peer : string) (message : table)
    (idempotency_key correlation_id : option string) (uuid now : string)
  : FileQueueTransport * list (string * json) :=
  let seq := S (ft_seq t) in
  (mkFqt (ft_my_id t) seq (ft_handlers t) (ft_dedup t) (ft_window t),
   [("from", JStr (ft_my_id t)); ("to", JStr peer); ("kind", JStr kind); ("body", JObj message);
    ("seq", JInt (Z.of_nat seq)); ("uuid", JStr uuid); ("timestamp", JStr now)] ++
   opt_entry "idempotency_key" idempotency_key ++ opt_entry "correlation_id" correlation_id).

Definition envelope_file (seq : nat) (uuid : string) : string := pad20 seq +:+ "-" +:+ uuid +:+ ".json".

(** [_enqueue], for the envelope with the transport's current number.  A write
    that fails is not modelled. *)
Definition _enqueue (t : FileQueueTransport) (root : tree) (peer uuid : string) (envelope : table) : tree :=
  put_inbox root peer (envelope_file (ft_seq t) uuid) (JsonFile (sort_keys (JObj envelope))).

Definition file_send (t : FileQueueTransport) (root : tree) (peer : string) (message : table) (uuid now : string)
  : FileQueueTransport * list (string * PeerDir) :=
  let '(t, envelope) := _make_envelope t "send" peer message None None uuid now in
  (t, _enqueue t root peer uuid envelope).

(** [sorted(child.name ...)]. *)
Definition file_peers (root : tree) : list string := sort_strings root.*1.

(** Every other peer, in order; [uuids] gives an identifier per message. *)
Fixpoint broadcast_to (t : FileQueueTransport) (root : tree) (message : table) (now : string) (uuids : nat → string)
    (peers : list string) : FileQueueTransport * list (string * PeerDir) :=
  match peers with
  | [] => (t, root)
  | p :: peers =>
      let '(t, root) :=
        if String.eqb p (ft_my_id t) then (t, root)
        else file_send t root p message (uuids (ft_seq t)) now in
      broadcast_to t root message now uuids peers
  end.

Definition file_broadcast (t : FileQueueTransport) (root : tree) (message : table) (now : string)
    (uuids : nat → string) : FileQueueTransport * list (string * PeerDir) :=
  broadcast_to t root message now uuids (file_peers root).

Definition register_handler (t : FileQueueTransport) (peer : string) (h : RequestHandler) : FileQueueTransport :=
  mkFqt (ft_my_id t) (ft_seq t) (dict_set peer h (ft_handlers t)) (ft_dedup t) (ft_window t).

Definition unregister_handler (t : FileQueueTransport) (peer : string) : FileQueueTransport :=
  mkFqt (ft_my_id t) (ft_seq t) (dict_pop peer (ft_handlers t)) (ft_dedup t) (ft_window t).

Definition file_pending (root : tree) (peer : string) : nat :=
  length (filter (fun nf => envelope_name nf.1 = true) (dir_inbox (peer_dir root peer))).

Definition reply (root : tree) (sender correlation_id : string) (payload : table) : tree :=
  put_response root sender (correlation_id +:+ ".json") (JsonFile (sort_keys (JObj payload))).

(** *** Keys seen *)

Section text.
Context {PT : PyText}.

Definition text_field (key : string) (envelope : table) : string :=
  py_str other_str (jor (jget key envelope) (JStr "")).

(** The key under which an envelope is remembered. *)
Definition composite (envelope : table) : option string :=
  match jget "idempotency_key" envelope with
  | JStr key => if String.eqb key "" then None else Some (text_field "from" envelope +:+ "|" +:+ key)
  | _ => None
  end.

Definition _is_duplicate (t : FileQueueTransport) (envelope : table) : bool :=
  match composite envelope with Some c => c ∈? ft_dedup t | None => false end.

(** [_record_seen], which writes the keys to the transport's own directory. *)
Definition _record_seen (t : FileQueueTransport) (root : tree) (envelope : table)
  : FileQueueTransport * list (string * PeerDir) :=
  match composite envelope with
  | None => (t, root)
  | Some c =>
      if c ∈? ft_dedup t then (t, root)
      else
        let keys := deque_append (ft_window t) (ft_dedup t) c in
        (with_dedup t keys, put_dedup root (ft_my_id t) (JsonFile (JObj [("keys", JArr (JStr <$> keys))])))
  end.

(** *** Receiving *)

(** The listing is taken first; each file is looked at again. *)
Fixpoint try_pop (t : FileQueueTransport) (root : tree) (peer : string) (names : list string)
  : FileQueueTransport * list (string * PeerDir) * res (option (list (string * json))) :=
  match names with
  | [] => (t, root, Ok None)
  | name :: names =>
      if negb (envelope_name name) then try_pop t root peer names
      else
        match alookup name (dir_inbox (peer_dir root peer)) with
        | None => try_pop t root peer names
        | Some BadFile =>
            (t, root, Raise (TransportError ("FileQueue inbox file " +:+ name +:+ " is not valid JSON") None))
        | Some (JsonFile v) =>
            match move_processed root peer name with
            | None => try_pop t root peer names
            | Some root =>
                match v with
                | JObj envelope =>
                    if _is_duplicate t envelope then try_pop t root peer names
                    else
                      let '(t, root) := _record_seen t root envelope in
                      (t, root, Ok (Some envelope))
                | _ => (t, root, Raise (AttributeError "object has no attribute 'get'"))
                end
            end
        end
  end.

Definition inbox_names (root : tree) (peer : string) : list string :=
  sort_strings (dir_inbox (peer_dir root peer)).*1.

Definition _try_pop_one (t : FileQueueTransport) (root : tree) (peer : string)
  : FileQueueTransport * list (string * PeerDir) * res (option (list (string * json))) :=
  try_pop t root peer (inbox_names root peer).

(** [recv]: one sweep, and one more after each of [others], what the other
    processes do while it sleeps; without a timeout there are none. *)
Fixpoint file_recv (t : FileQueueTransport) (root : tree) (peer : string) (others : list (tree → tree))
  : FileQueueTransport * list (string * PeerDir) * res (option (list (string * json))) :=
  match _try_pop_one t root peer with
  | (t, root, Ok None) =>
      match others with
      | [] => (t, root, Ok None)
      | step :: others => file_recv t (step root) peer others
      end
  | r => r
  end.

(** *** Requests *)

Fixpoint await_reply (my_id peer correlation_id : string) (root : tree) (others : list (tree → tree))
  : list (string * PeerDir) * res (list (string * json)) :=
  let name := correlation_id +:+ ".json" in
  match alookup name (dir_responses (peer_dir root my_id)) with
  | Some BadFile => (root, Raise (TransportError ("RPC reply file " +:+ name +:+ " is not valid JSON") None))
  | Some (JsonFile (JObj payload)) => (drop_response root my_id name, Ok payload)
  | Some (JsonFile _) =>
      (drop_response root my_id name,
       Raise (TransportError ("RPC reply file " +:+ name +:+ " must contain a JSON object") None))
  | None =>
      match others with
      | [] => (root, Raise (TransportError ("FileQueue RPC to '" +:+ peer +:+ "' (correlation_id=" +:+
                                           correlation_id +:+ ") timed out") None))
      | step :: others => await_reply my_id peer correlation_id (step root) others
      end
  end.

Definition file_request (t : FileQueueTransport) (root : tree) (peer : string) (message : table)
    (idempotency_key : option string) (correlation_id uuid now : string) (others : list (tree → tree))
  : FileQueueTransport * list (string * PeerDir) * res (list (string * json)) :=
  let '(t, envelope) := _make_envelope t "request" peer message idempotency_key (Some correlation_id) uuid now in
  let root := _enqueue t root peer uuid envelope in
  let '(root, r) := await_reply (ft_my_id t) peer correlation_id root others in
  (t, root, r).

Definition _handle_request (t : FileQueueTransport) (root : tree) (envelope : table) (name : string)
  : FileQueueTransport * list (string * PeerDir) * res unit :=
  let sender := text_field "from" envelope in
  let correlation_id := text_field "correlation_id" envelope in
  if String.eqb sender "" || String.eqb correlation_id ""
  then (t, root, Raise (TransportError ("FileQueue request envelope " +:+ name +:+
                                       " is missing 'from' or 'correlation_id'") None))
  else
    match move_processed root (ft_my_id t) name with
    | None => (t, root, Ok tt)
    | Some root =>
        let handler_key := py_str other_str (jor (jget "to" envelope) (JStr (ft_my_id t))) in
        if _is_duplicate t envelope then (t, root, Ok tt)
        else
          let '(t, root) := _record_seen t root envelope in
          match alookup handler_key (ft_handlers t) with
          | None =>
              (t, reply root sender correlation_id
                    [("error", JStr "no_handler"); ("handler_key", JStr handler_key);
                     ("correlation_id", JStr correlation_id)], Ok tt)
          | Some handler =>
              match jor (jget "body" envelope) (JObj []) with
              | JObj body =>
                  match handler body with
                  | Ok answer => (t, reply root sender correlation_id answer, Ok tt)
                  | Raise e => (t, root, Raise e)
                  end
              | _ => (t, root, Raise (TransportError ("FileQueue request envelope " +:+ name +:+
                                                     " body must be a mapping") None))
              end
          end
    end.

Fixpoint process_names (t : FileQueueTransport) (root : tree) (max_messages : option nat) (processed : nat)
    (names : list string) : FileQueueTransport * list (string * PeerDir) * res nat :=
  match names with
  | [] => (t, root, Ok processed)
  | name :: names =>
      if match max_messages with Some m => (m <=? processed)%nat | None => false end then (t, root, Ok processed)
      else if negb (envelope_name name) then process_names t root max_messages processed names
      else
        match alookup name (dir_inbox (peer_dir root (ft_my_id t))) with
        | None | Some BadFile => process_names t root max_messages processed names
        | Some (JsonFile (JObj envelope)) =>
            if py_eq (jget "kind" envelope) (JStr "request") then
              match _handle_request t root envelope name with
              | (t, root, Raise e) => (t, root, Raise e)
              | (t, root, Ok _) => process_names t root max_messages (S processed) names
              end
            else process_names t root max_messages processed names
        | Some (JsonFile _) => (t, root, Raise (AttributeError "object has no attribute 'get'"))
        end
  end.

Definition process_request_inbox (t : FileQueueTransport) (root : tree) (max_messages : option nat)
  : FileQueueTransport * list (string * PeerDir) * res nat :=
  process_names t root max_messages 0 (inbox_names root (ft_my_id t)).
End text.

(** ** Transport over files: order, requests and keys

    One sender's messages arrive in the order they were sent; a request that a
    server handles gets the handler's answer, and the key of a request is
    handled once: a request under a remembered key is taken without an
    answer. *)

From S2P Require Import Prelude PyVal PyConv.
From stdpp Require Import base gmap strings list pretty sorting.
From Stdlib Require Import ZArith Lia Ascii.

(** ** Names sort by number *)

Lemma compare_app p x y : String.compare (p +:+ x) (p +:+ y) = String.compare x y.
Proof.
  induction p as [|c p IH]; [done|]. simpl. assert (Ascii.compare c c = Eq) as -> by (by apply ascii_compare_refl_iff).
  done.
Qed.

Lemma digit_lt a b x y : a < b → b < 10 → String.compare (String (digit a) x) (String (digit b) y) = Lt.
Proof.
  intros Hab Hb. cbn [String.compare]. assert (Ascii.compare (digit a) (digit b) = Lt) as ->; [|done].
  assert (Forall (fun b => Forall (fun a => Ascii.compare (digit a) (digit b) = Lt) (seq 0 b)) (seq 0 10)) as Hall
    by (repeat constructor).
  rewrite Forall_forall in Hall. specialize (Hall b). rewrite Forall_forall in Hall.
  apply Hall; apply elem_of_seq; lia.
Qed.

Lemma digits_lt k a b x y : a < b → (Z.of_nat b < 10 ^ Z.of_nat k)%Z →
  String.compare (digits k a +:+ x) (digits k b +:+ y) = Lt.
Proof.
  revert a b x y. induction k as [|k IH]; intros a b x y Hab Hb.
  { simpl in Hb. lia. }
  cbn [digits]. rewrite !str_app_assoc. pose proof (Nat.div_mod_eq a 10) as Ha. pose proof (Nat.div_mod_eq b 10) as Hb'.
  pose proof (Nat.mod_upper_bound a 10). pose proof (Nat.mod_upper_bound b 10).
  destruct (decide (a / 10 = b / 10)) as [Heq|Hne].
  - rewrite Heq, compare_app. apply digit_lt; lia.
  - apply IH; [lia|]. rewrite Nat2Z.inj_succ, Z.pow_succ_r in Hb by lia. lia.
Qed.

Definition numbered (seq : nat) : Prop := (Z.of_nat seq < 10 ^ 20)%Z.

Lemma envelope_file_lt a b u v : a < b → numbered b →
  String.compare (envelope_file a u) (envelope_file b v) = Lt.
Proof.
  unfold numbered. intros Hab Hb. unfold envelope_file, pad20.
  rewrite !(proj2 (Z.ltb_lt _ _)) by lia. by apply digits_lt.
Qed.

(** ** Names are recognised *)

Lemma digits_length k n : String.length (digits k n) = k.
Proof. revert n. induction k as [|k IH]; intros n; [done|]. cbn [digits]. rewrite str_length_app, IH. simpl. lia. Qed.

Lemma digit_is_digit n : n < 10 → is_digit (digit n) = true.
Proof.
  intros Hn. assert (Forall (fun n => is_digit (digit n) = true) (seq 0 10)) as Hall by (repeat constructor).
  rewrite Forall_forall in Hall. apply Hall, elem_of_seq. lia.
Qed.

Lemma digits_digits k n : str_forall is_digit (digits k n) = true.
Proof.
  revert n. induction k as [|k IH]; intros n; [done|]. cbn [digits]. rewrite str_forall_app, IH. cbn [str_forall andb].
  rewrite digit_is_digit; [done|]. apply Nat.mod_upper_bound. lia.
Qed.

Lemma envelope_file_name seq uuid : numbered seq → uuid_part (uuid +:+ ".json") = true →
  envelope_name (envelope_file seq uuid) = true.
Proof.
  unfold numbered. intros Hs Hu. unfold envelope_name, envelope_file, pad20.
  rewrite (proj2 (Z.ltb_lt _ _)) by lia. pose proof (digits_length 20 seq) as Hl.
  assert (∀ k m s, String.substring (20 + k) m (digits 20 seq +:+ s) = String.substring k m s) as Hr.
  { intros k m s. rewrite <-Hl at 1. apply substring_app_r. }
  rewrite <-Hl at 1. rewrite substring_app_l, digits_digits. change 21 with (20 + 1). rewrite Hr.
  change 20 with (20 + 0) at 1. rewrite Hr, str_length_app, Hl.
  remember (uuid +:+ ".json") as s. simpl String.append. cbn [String.substring String.length].
  replace (20 + S (String.length s) - (20 + 1)) with (String.length s) by lia.
  rewrite substring_all. by destruct s.
Qed.

(** ** Order *)

(** The messages with their identifiers and times. *)
Abbreviation outgoing := (list (list (string * json) * string * string)) (only parsing).

Fixpoint send_all (t : FileQueueTransport) (root : list (string * PeerDir)) (peer : string) (msgs : outgoing)
  : FileQueueTransport * list (string * PeerDir) :=
  match msgs with
  | [] => (t, root)
  | (m, uuid, now) :: msgs => let '(t, root) := file_send t root peer m uuid now in send_all t root peer msgs
  end.

Fixpoint recv_all {PT : PyText} (n : nat) (t : FileQueueTransport) (root : list (string * PeerDir)) (peer : string)
  : list (res (option (list (string * json)))) :=
  match n with
  | O => []
  | S n => let '(t, root, r) := file_recv t root peer [] in r :: recv_all n t root peer
  end.

(** The envelope of a message as it is read back. *)
Definition sent (id peer : string) (seq : nat) (m : list (string * json)) (uuid now : string) : list (string * json) :=
  [("body", sort_keys (JObj m)); ("from", JStr id); ("kind", JStr "send"); ("seq", JInt (Z.of_nat seq));
   ("timestamp", JStr now); ("to", JStr peer); ("uuid", JStr uuid)].

Fixpoint mail (id peer : string) (seq : nat) (msgs : outgoing) : list (string * list (string * json)) :=
  match msgs with
  | [] => []
  | (m, uuid, now) :: msgs =>
      (envelope_file (S seq) uuid, sent id peer (S seq) m uuid now) :: mail id peer (S seq) msgs
  end.

Definition stored (m : list (string * list (string * json))) : list (string * file) :=
  (fun p => (p.1, JsonFile (JObj p.2))) <$> m.

Lemma stored_names m : (stored m).*1 = m.*1.
Proof. unfold stored. rewrite <-list_fmap_compose. done. Qed.

Lemma peer_dir_set root peer d : peer_dir (dict_set peer d root) peer = d.
Proof. unfold peer_dir. by rewrite alookup_dict_set, decide_True. Qed.

Lemma sort_keys_sent t peer m uuid now :
  sort_keys (JObj (_make_envelope t "send" peer m None None uuid now).2) =
    JObj (sent (ft_my_id t) peer (S (ft_seq t)) m uuid now).
Proof. reflexivity. Qed.

(** Names with numbers up to [n]. *)
Definition up_to (n : nat) (name : string) : Prop := ∃ k u, name = envelope_file k u ∧ k ≤ n.

Lemma up_to_fresh n name uuid : up_to n name → numbered (S n) → name ≠ envelope_file (S n) uuid.
Proof.
  intros (k & u & -> & Hk) Hn Heq. pose proof (envelope_file_lt k (S n) u uuid ltac:(lia) Hn) as Hlt.
  rewrite Heq, (proj2 (str_compare_eq _ _) eq_refl) in Hlt. done.
Qed.

Lemma send_all_inbox peer msgs t root l t' root' :
  dir_inbox (peer_dir root peer) = l → Forall (up_to (ft_seq t)) l.*1 → numbered (ft_seq t + length msgs) →
  send_all t root peer msgs = (t', root') →
  dir_inbox (peer_dir root' peer) = l ++ stored (mail (ft_my_id t) peer (ft_seq t) msgs).
Proof.
  revert t root l. induction msgs as [|[[m u] now] msgs IH]; intros t root l Hl Hu Hn Hs; cbn [send_all] in Hs.
  { injection Hs as <- <-. by rewrite app_nil_r. }
  simpl length in Hn. assert (numbered (S (ft_seq t))) as Hn1 by (unfold numbered in *; lia).
  destruct (file_send t root peer m u now) as [t1 root1] eqn:Hf.
  unfold file_send in Hf. destruct (_make_envelope t "send" peer m None None u now) as [t2 env] eqn:He.
  pose proof (sort_keys_sent t peer m u now) as Hk. rewrite He in Hk. simpl snd in Hk.
  injection Hf as <- <-. injection He as <- _. unfold _enqueue, put_inbox in Hs. rewrite Hk, Hl in Hs. cbn [ft_seq] in Hs.
  rewrite (dict_set_fresh (envelope_file _ _)) in Hs.
  2:{ intros Hin. rewrite Forall_forall in Hu. by apply (up_to_fresh (ft_seq t) _ u (Hu _ Hin) Hn1). }
  eapply IH in Hs; [|by rewrite peer_dir_set| |].
  - cbn [ft_my_id ft_seq dir_inbox] in Hs. rewrite Hs, <-app_assoc. done.
  - cbn [dir_inbox]. rewrite fmap_app. apply Forall_app. split; [|constructor; [|constructor]].
    + eapply Forall_impl; [exact Hu|]. intros name (k & v & -> & Hk'). exists k, v. split; [done|]. cbn [ft_seq]. lia.
    + by exists (S (ft_seq t)), u.
  - cbn [ft_seq]. by replace (S (ft_seq t) + length msgs) with (ft_seq t + S (length msgs)) by lia.
Qed.

(** Names with larger numbers. *)
Lemma mail_above id peer msgs n x : x ∈ (mail id peer n msgs).*1 → ∃ k u, x = envelope_file k u ∧ n < k ≤ n + length msgs.
Proof.
  revert n. induction msgs as [|[[m u] now] msgs IH]; intros n; csimpl; [set_solver|].
  intros [->|Hx]%elem_of_cons; [exists (S n), u; split; [done|lia]|].
  destruct (IH _ Hx) as (k & v & -> & Hk). exists k, v. split; [done|lia].
Qed.

Lemma mail_sorted id peer n msgs : numbered (n + length msgs) → StronglySorted str_le (mail id peer n msgs).*1 ∧
  NoDup (mail id peer n msgs).*1.
Proof.
  revert n. induction msgs as [|[[m u] now] msgs IH]; intros n Hn; csimpl; [split; constructor|].
  simpl length in Hn. destruct (IH (S n)) as [Hs Hd]; [by replace (S n + length msgs) with (n + S (length msgs)) by lia|].
  assert (∀ x, x ∈ (mail id peer (S n) msgs).*1 → String.compare (envelope_file (S n) u) x = Lt) as Hlt.
  { intros x (k & v & -> & Hk)%mail_above. apply envelope_file_lt; [lia|]. unfold numbered in *. lia. }
  split; constructor; try done.
  - apply Forall_forall. intros x Hx. apply str_le_alt. by rewrite Hlt.
  - intros Hx%Hlt. by rewrite (proj2 (str_compare_eq _ _) eq_refl) in Hx.
Qed.

Lemma sort_strings_id l : StronglySorted str_le l → sort_strings l = l.
Proof.
  intros Hs. apply (StronglySorted_unique str_le); [apply StronglySorted_merge_sort; apply _|done|].
  apply merge_sort_Permutation.
Qed.

Section receive.
Context {PT : PyText}.

(** The first message is taken; the others stay. *)
Lemma recv_first t root peer name env rest :
  dir_inbox (peer_dir root peer) = stored ((name, env) :: rest) → StronglySorted str_le (name :: rest.*1) →
  name ∉ rest.*1 → envelope_name name = true → composite env = None →
  ∃ root', file_recv t root peer [] = (t, root', Ok (Some env)) ∧ dir_inbox (peer_dir root' peer) = stored rest.
Proof.
  intros Hi Hs Hn Hname Hc. unfold file_recv, _try_pop_one, inbox_names.
  rewrite Hi, stored_names, sort_strings_id by done. cbn [fmap list_fmap fst try_pop]. rewrite Hname. cbn [negb].
  unfold move_processed. rewrite Hi. cbn [stored fmap list_fmap alookup fst snd]. rewrite decide_True by done.
  unfold _is_duplicate, _record_seen. rewrite Hc. eexists. split; [done|]. rewrite peer_dir_set. cbn [dir_inbox].
  rewrite dict_pop_cons. apply dict_pop_notin. by rewrite stored_names.
Qed.

Lemma recv_empty t root peer : dir_inbox (peer_dir root peer) = [] → file_recv t root peer [] = (t, root, Ok None).
Proof. intros Hi. unfold file_recv, _try_pop_one, inbox_names. by rewrite Hi. Qed.

Lemma recv_mail id peer n msgs t root :
  Forall (fun m => uuid_part (m.1.2 +:+ ".json") = true) msgs → numbered (n + length msgs) →
  dir_inbox (peer_dir root peer) = stored (mail id peer n msgs) →
  recv_all (S (length msgs)) t root peer = ((fun p => Ok (Some p.2)) <$> mail id peer n msgs) ++ [Ok None].
Proof.
  revert n root. induction msgs as [|[[m u] now] msgs IH]; intros n root Hu Hn Hi.
  { cbn [recv_all length]. by rewrite recv_empty. }
  apply Forall_cons in Hu as [Hu1 Hu]. destruct (mail_sorted id peer n ((m, u, now) :: msgs) Hn) as [Hs Hd].
  simpl length in *. destruct (recv_first t root peer (envelope_file (S n) u) (sent id peer (S n) m u now) (mail id peer (S n) msgs))
    as (root' & Hr & Hi'); [done|exact Hs|by apply NoDup_cons in Hd as [??]| |done|].
  { apply envelope_file_name; [|done]. unfold numbered in *. lia. }
  remember (S (length msgs)) as k. cbn [recv_all]. rewrite Hr. subst k.
  rewrite (IH (S n) root' Hu); [done| |done]. by replace (S n + length msgs) with (n + S (length msgs)) by lia.
Qed.
End receive.

(** ** Requests *)

Section rpc.
Context {PT : PyText}.

(** A mapping as it is read back from its file. *)
Definition canon (m : list (string * json)) : list (string * json) :=
  match sort_keys (JObj m) with JObj x => x | _ => [] end.

Lemma sort_keys_canon m : sort_keys (JObj m) = JObj (canon m).
Proof. reflexivity. Qed.

(** The envelope of a request as it is read back. *)
Definition requested (id peer : string) (seq : nat) (m : list (string * json)) (key : option string)
    (corr uuid now : string) : list (string * json) :=
  [("body", JObj (canon m)); ("correlation_id", JStr corr); ("from", JStr id)] ++
  opt_entry "idempotency_key" key ++
  [("kind", JStr "request"); ("seq", JInt (Z.of_nat seq)); ("timestamp", JStr now); ("to", JStr peer);
   ("uuid", JStr uuid)].

Lemma sort_keys_requested t peer m key corr uuid now :
  sort_keys (JObj (_make_envelope t "request" peer m key (Some corr) uuid now).2) =
    JObj (requested (ft_my_id t) peer (S (ft_seq t)) m key corr uuid now).
Proof. destruct key; reflexivity. Qed.

Lemma peer_dir_set_ne root p q d : p ≠ q → peer_dir (dict_set p d root) q = peer_dir root q.
Proof. intros Hne. unfold peer_dir. by rewrite alookup_dict_set, decide_False. Qed.

(** The work of a server between two polls. *)
Definition serve (s : FileQueueTransport) (root : list (string * PeerDir)) : list (string * PeerDir) :=
  (process_request_inbox s root None).1.2.

Definition responses (root : list (string * PeerDir)) (peer : string) : list (string * file) :=
  dir_responses (peer_dir root peer).

(** What a request under [key] from [id] is remembered as. *)
Definition remembered_as (id : string) (key : option string) : option string :=
  match key with Some k => if String.eqb k "" then None else Some (id +:+ "|" +:+ k) | None => None end.

Lemma composite_requested id peer seq m key corr uuid now : id ≠ "" →
  composite (requested id peer seq m key corr uuid now) = remembered_as id key.
Proof.
  intros Hid. unfold composite, remembered_as, text_field. destruct key as [k|]; [|done]. simpl.
  destruct (String.eqb k ""); [done|]. destruct id; [done|]. reflexivity.
Qed.

Lemma text_field_requested id peer seq m key corr uuid now : id ≠ "" → corr ≠ "" → 
  text_field "from" (requested id peer seq m key corr uuid now) = id ∧
  text_field "correlation_id" (requested id peer seq m key corr uuid now) = corr.
Proof. intros Hid Hc. unfold text_field. by destruct id, corr, key. Qed.

(** The one request in the inbox of a server. *)
Definition waiting (s : FileQueueTransport) (root : list (string * PeerDir)) (name : string)
    (env : list (string * json)) : Prop :=
  dir_inbox (peer_dir root (ft_my_id s)) = [(name, JsonFile (JObj env))] ∧ envelope_name name = true.

Lemma process_one s root name env :
  waiting s root name env → py_eq (jget "kind" env) (JStr "request") = true →
  process_request_inbox s root None =
    let '(s', root', r) := _handle_request s root env name in
    (s', root', match r with Ok _ => Ok 1 | Raise e => Raise e end).
Proof.
  intros [Hi Hn] Hk. unfold process_request_inbox, inbox_names. rewrite Hi.
  change (sort_strings [(name, JsonFile (JObj env))].*1) with [name]. cbn [process_names]. rewrite Hn. cbn [negb].
  rewrite Hi. cbn [alookup]. rewrite decide_True by done. rewrite Hk.
  by destruct (_handle_request s root env name) as [[s' root'] [[]|e]].
Qed.

Lemma kind_requested id peer seq m key corr uuid now :
  py_eq (jget "kind" (requested id peer seq m key corr uuid now)) (JStr "request") = true.
Proof. by destruct key. Qed.

Lemma handled_body id peer seq m key corr uuid now :
  jor (jget "body" (requested id peer seq m key corr uuid now)) (JObj []) = JObj (canon m).
Proof.
  change (jget "body" (requested id peer seq m key corr uuid now)) with (JObj (canon m)). unfold jor.
  by destruct (canon m).
Qed.

Lemma handled_key id peer seq m key corr uuid now d : peer ≠ "" →
  py_str other_str (jor (jget "to" (requested id peer seq m key corr uuid now)) d) = peer.
Proof. intros Hp. destruct key, peer; done. Qed.

Section one_request.
Context (s : FileQueueTransport) (root : list (string * PeerDir)) (id corr uuid now : string) (seq : nat)
        (m : list (string * json)) (key : option string) (name : string).
Let env := requested id (ft_my_id s) seq m key corr uuid now.
Context (Hw : waiting s root name env) (Hid : id ≠ "") (Hc : corr ≠ "") (Hs : ft_my_id s ≠ "").

Lemma handle_unseen handler answer :
  match remembered_as id key with Some c => c ∉ ft_dedup s | None => True end →
  alookup (ft_my_id s) (ft_handlers s) = Some handler → handler (canon m) = Ok answer → id ≠ ft_my_id s →
  ∃ s' root', _handle_request s root env name = (s', root', Ok tt) ∧
    responses root' id = dict_set (corr +:+ ".json") (JsonFile (JObj (canon answer))) (responses root id) ∧
    dir_inbox (peer_dir root' (ft_my_id s)) = [] ∧
    s' = match remembered_as id key with
         | Some c => with_dedup s (deque_append (ft_window s) (ft_dedup s) c) | None => s end.
Proof.
  intros Hnew Hh Ha Hne. destruct Hw as [Hi Hn].
  destruct (text_field_requested id (ft_my_id s) seq m key corr uuid now Hid Hc) as [Hf Hr].
  unfold _handle_request. fold env in Hf, Hr. rewrite Hf, Hr.
  rewrite (proj2 (String.eqb_neq _ _) Hid), (proj2 (String.eqb_neq _ _) Hc). cbn [orb].
  unfold move_processed. rewrite Hi. cbn [alookup]. rewrite decide_True by done.
  assert (_is_duplicate s env = false) as ->.
  { unfold _is_duplicate, env. rewrite composite_requested by done. destruct (remembered_as id key); [|done].
    by apply inb_false. }
  unfold env. rewrite handled_key, handled_body by done. unfold _record_seen. rewrite composite_requested by done.
  destruct (remembered_as id key) as [c|].
  - rewrite (proj2 (inb_false _ _) Hnew). cbn [ft_handlers with_dedup]. rewrite Hh, Ha.
    eexists _, _. split; [done|]. unfold reply, put_response, responses. rewrite sort_keys_canon.
    rewrite !peer_dir_set, !peer_dir_set_ne by done. unfold put_dedup.
    rewrite !peer_dir_set, !peer_dir_set_ne by done. cbn [dir_responses dir_inbox].
    rewrite dict_pop_cons. done.
  - rewrite Hh, Ha. eexists _, _. split; [done|]. unfold reply, put_response, responses. rewrite sort_keys_canon.
    rewrite !peer_dir_set, !peer_dir_set_ne by done. rewrite peer_dir_set. cbn [dir_responses dir_inbox].
    rewrite dict_pop_cons. done.
Qed.

Lemma handle_seen c :
  remembered_as id key = Some c → c ∈ ft_dedup s → id ≠ ft_my_id s →
  ∃ root', _handle_request s root env name = (s, root', Ok tt) ∧
    responses root' id = responses root id ∧ dir_inbox (peer_dir root' (ft_my_id s)) = [].
Proof.
  intros Hk Hin Hne. destruct Hw as [Hi Hn].
  destruct (text_field_requested id (ft_my_id s) seq m key corr uuid now Hid Hc) as [Hf Hr].
  unfold _handle_request. fold env in Hf, Hr. rewrite Hf, Hr.
  rewrite (proj2 (String.eqb_neq _ _) Hid), (proj2 (String.eqb_neq _ _) Hc). cbn [orb].
  unfold move_processed. rewrite Hi. cbn [alookup]. rewrite decide_True by done.
  assert (_is_duplicate s env = true) as ->.
  { unfold _is_duplicate, env. rewrite composite_requested, Hk by done. by apply inb_true. }
  eexists. split; [done|]. unfold responses. rewrite peer_dir_set, peer_dir_set_ne by done. split; [done|].
  cbn [dir_inbox]. by rewrite dict_pop_cons.
Qed.
End one_request.

(** A poll that finds the reply takes it. *)
Lemma await_found my_id peer corr root others payload :
  alookup (corr +:+ ".json") (responses root my_id) = Some (JsonFile (JObj payload)) →
  (await_reply my_id peer corr root others).2 = Ok payload.
Proof. unfold responses. intros Hr. destruct others; cbn [await_reply]; by rewrite Hr. Qed.

Lemma await_step my_id peer corr root step others :
  alookup (corr +:+ ".json") (responses root my_id) = None →
  await_reply my_id peer corr root (step :: others) = await_reply my_id peer corr (step root) others.
Proof. unfold responses. intros Hr. cbn [await_reply]. by rewrite Hr. Qed.

Lemma serve_idle s root : dir_inbox (peer_dir root (ft_my_id s)) = [] → serve s root = root.
Proof. intros Hi. unfold serve, process_request_inbox, inbox_names. by rewrite Hi. Qed.

Lemma await_idle s my_id peer corr root n :
  alookup (corr +:+ ".json") (responses root my_id) = None → dir_inbox (peer_dir root (ft_my_id s)) = [] →
  is_ok (await_reply my_id peer corr root (replicate n (serve s))).2 = false.
Proof.
  intros Hr Hi. induction n as [|n IH]; cbn [replicate].
  - unfold responses in Hr. cbn [await_reply]. by rewrite Hr.
  - by rewrite await_step, serve_idle by done.
Qed.
End rpc.

(** A client that asks a server whose inbox is empty. *)
Record rpc_ready (t s : FileQueueTransport) (root : list (string * PeerDir)) (corr uuid : string) : Prop := {
  rr_ids : ft_my_id t ≠ "" ∧ ft_my_id s ≠ "" ∧ ft_my_id t ≠ ft_my_id s;
  rr_corr : corr ≠ "" ∧ alookup (corr +:+ ".json") (responses root (ft_my_id t)) = None;
  rr_name : uuid_part (uuid +:+ ".json") = true ∧ numbered (S (ft_seq t));
  rr_idle : dir_inbox (peer_dir root (ft_my_id s)) = []
}.

Section rpc_theorems.
Context {PT : PyText}.

(** After the request is written, it is the one the server finds. *)
Lemma request_waits t s root m key corr uuid now others :
  rpc_ready t s root corr uuid →
  ∃ root1 name,
    (file_request t root (ft_my_id s) m key corr uuid now others).2 =
      (await_reply (ft_my_id t) (ft_my_id s) corr root1 others).2 ∧
    waiting s root1 name (requested (ft_my_id t) (ft_my_id s) (S (ft_seq t)) m key corr uuid now) ∧
    responses root1 (ft_my_id t) = responses root (ft_my_id t).
Proof.
  intros [(Hid & Hs & Hne) [Hc Hr] [Hu Hn] Hi]. unfold file_request.
  destruct (_make_envelope t "request" (ft_my_id s) m key (Some corr) uuid now) as [t1 env] eqn:He.
  pose proof (sort_keys_requested t (ft_my_id s) m key corr uuid now) as Hk. rewrite He in Hk. simpl snd in Hk.
  injection He as <- _. cbn [ft_my_id ft_seq]. unfold _enqueue, put_inbox. cbn [ft_seq]. rewrite Hk, Hi.
  cbn [dict_set]. match goal with |- context [await_reply _ _ _ ?r _] => exists r end.
  exists (envelope_file (S (ft_seq t)) uuid). split; [by destruct (await_reply _ _ _ _ _)|].
  split; [split; [by rewrite peer_dir_set|by apply envelope_file_name]|].
  unfold responses. by rewrite peer_dir_set_ne by done.
Qed.


(** The messages of one sender arrive in the order of sending, unchanged, each
    once. *)
Theorem file_fifo t q root peer msgs t' root' :
  dir_inbox (peer_dir root peer) = [] → numbered (ft_seq t + length msgs) →
  Forall (fun m => uuid_part (m.1.2 +:+ ".json") = true) msgs →
  send_all t root peer msgs = (t', root') →
  recv_all (S (length msgs)) q root' peer =
    ((fun p => Ok (Some p.2)) <$> mail (ft_my_id t) peer (ft_seq t) msgs) ++ [Ok None].
Proof.
  intros Hi Hn Hu Hs. apply recv_mail; [done|done|]. by apply (send_all_inbox peer msgs t root []) in Hs.
Qed.
End rpc_theorems.

(** ** Examples *)

Definition client : FileQueueTransport := mkFqt "center" 0 [] [] 256.

Definition echo (body : list (string * json)) : res (list (string * json)) := Ok [("echo", JObj body)].

Definition server : FileQueueTransport := mkFqt "leaf" 0 [("leaf", echo)] ["center|k0"] 256.


(** A sender that starts again numbers its messages from one: its new message
    overtakes the one that waits. *)
Lemma restart_overtakes :
  let '(t1, root1) := file_send client [] "leaf" [("n", JInt 1)] "a" "now" in
  let '(t2, root2) := file_send t1 root1 "leaf" [("n", JInt 2)] "b" "now" in
  let '(t3, root3, _) := file_recv (PT := plain_text) server root2 "leaf" [] in
  let '(_, root4) := file_send client root3 "leaf" [("n", JInt 3)] "c" "now" in
  (fun r => match r with Ok (Some env) => jget "body" env | _ => JNull end) <$> recv_all (PT := plain_text) 2 t3 root4 "leaf" =
    [JObj [("n", JInt 3)]; JObj [("n", JInt 2)]].
Proof. vm_compute. reflexivity. Qed.
