(* ===== verification/NetworkControl.v ===== *)
(** * Control of an agent network ([tm/control/meta/network.py],
      the network bodies of [tm/artifacts/models.py])

    The body of a star network and its topology, the handler of a leaf, and
    the controller of the center, which runs the cycle of every leaf over a
    transport, then its own, and ties the reports together.  The transport and
    the cycle runners are arguments. *)

From S2P Require Import Prelude PyVal PyConv Artifact Network MetaControl ProofChain.
From stdpp Require Import base gmap strings list pretty.
From Stdlib Require Import ZArith Lia Ascii.

Abbreviation table := (list (string * json)) (only parsing).

(** ** The body of a network *)

Definition edge_from_mapping (v : json) : res AgentNetworkEdge :=
  raw ← _ensure_dict v "agent_network_edge";
  kpi ← _require_field raw "kpi_keys";
  kpi_raw ← _ensure_sequence kpi "edge.kpi_keys";
  _ ← (if bool_decide (kpi_raw = []) then Raise (ValueError "edge.kpi_keys must contain at least one entry") else Ok ());
  allowed_raw ← match jor (jget "allowed_patches" raw) (JArr []) with
                | JArr l => Ok l
                | _ => Raise (TypeError "edge.allowed_patches must be a sequence")
                end;
  source ← (v ← _require_field raw "from"; _ensure_str v "edge.from");
  target ← (v ← _require_field raw "to"; _ensure_str v "edge.to");
  kpi_keys ← mapM (fun k => _ensure_str k "edge.kpi_keys") kpi_raw;
  _ ← mapM (fun p => _ensure_str p "edge.allowed_patches") allowed_raw;
  _ ← opt_str raw "transport" "edge.transport";
  _ ← opt_str raw "description" "edge.description";
  Ok (mkNEdge source target kpi_keys).

Definition _SUPPORTED_TOPOLOGIES : list string := ["star"; "tree"].
Definition _SUPPORTED_TRANSPORTS : list string := ["file_queue"; "http"; "inprocess"].

Definition one_of (words : list string) (name : string) (s : string) : res unit :=
  if s ∈? words then Ok ()
  else Raise (ValueError (name +:+ " must be one of [" +:+
                join_with ", " ((fun w => "'" +:+ w +:+ "'") <$> words) +:+ "], got '" +:+ s +:+ "'")).

Definition nonempty_list (l : list json) (name : string) : res unit :=
  if bool_decide (l = []) then Raise (ValueError (name +:+ " must contain at least one entry")) else Ok ().

Definition network_from_mapping (data : table) : res AgentNetworkBody :=
  topology ← (v ← _require_field data "topology"; _ensure_str v "topology");
  _ ← one_of _SUPPORTED_TOPOLOGIES "topology" topology;
  transport_default ← (v ← _require_field data "transport_default"; _ensure_str v "transport_default");
  _ ← one_of _SUPPORTED_TRANSPORTS "transport_default" transport_default;
  leaves_raw ← (v ← _require_field data "leaf_bundle_refs"; _ensure_sequence v "leaf_bundle_refs");
  _ ← nonempty_list leaves_raw "leaf_bundle_refs";
  edges_raw ← (v ← _require_field data "edges"; _ensure_sequence v "edges");
  _ ← nonempty_list edges_raw "edges";
  network_id ← (v ← _require_field data "network_id"; _ensure_str v "network_id");
  center ← (v ← _require_field data "center_bundle_ref"; _ensure_str v "center_bundle_ref");
  leaves ← mapM (fun r => _ensure_str r "leaf_bundle_refs") leaves_raw;
  edges ← mapM edge_from_mapping edges_raw;
  _ ← opt_str data "description" "description";
  metadata ← _ensure_dict (jor (jget "metadata" data) (JObj [])) "metadata";
  Ok (mkNetwork network_id topology center leaves edges transport_default metadata).

(** ** Topology *)

Definition CYCLE_RUN_OP : string := "controller.cycle.run".

Record LeafEdgeConfig : Type := mkLeafEdge { le_bundle_ref : string; le_kpi_keys : list string }.

Record AgentNetworkTopology : Type := mkTopology {
  tp_network_id : string;
  tp_center_peer_id : string;
  tp_center_bundle_ref : string;
  tp_transport_default : string;
  tp_leaves : list (string * LeafEdgeConfig)
}.

Definition _edge_for_leaf (edges : list AgentNetworkEdge) (leaf_ref center_ref : string) : res AgentNetworkEdge :=
  match List.find (fun e => String.eqb (ne_source e) leaf_ref && String.eqb (ne_target e) center_ref) edges with
  | Some e => Ok e
  | None => Raise (ValueError ("no leaf-to-center edge for '" +:+ leaf_ref +:+ "' in AgentNetwork"))
  end.

Fixpoint leaf_configs (edges : list AgentNetworkEdge) (center : string) (refs : list string)
    (leaves : list (string * LeafEdgeConfig)) : res (list (string * LeafEdgeConfig)) :=
  match refs with
  | [] => Ok leaves
  | leaf_ref :: refs =>
      edge ← _edge_for_leaf edges leaf_ref center;
      leaf_configs edges center refs (dict_set leaf_ref (mkLeafEdge leaf_ref (ne_kpi_keys edge)) leaves)
  end.

Definition from_agent_network (body : AgentNetworkBody) : res AgentNetworkTopology :=
  if negb (String.eqb (nw_topology body) "star")
  then Raise (ValueError ("AgentNetworkTopology only supports topology=star in v0.3, got '" +:+
                          nw_topology body +:+ "'"))
  else
    let center := nw_center_bundle_ref body in
    leaves ← leaf_configs (nw_edges body) center (nw_leaf_bundle_refs body) [];
    Ok (mkTopology (nw_network_id body) center center (nw_transport_default body) leaves).

(** ** The leaf's side *)

Section leaf.
Context {PT : PyText} {PH : ProofHash}.

(** [_ReportBody]. *)
Definition _ReportBody (report : json) : res report_body :=
  m ← mapping_of report;
  refs ← dict_of (get_or "artifact_refs" (JObj []) m);
  errors ← py_iter (get_or "errors" (JArr []) m);
  Ok (mkReportBody (text_of "report_id" (JStr "") m)
        (text_of "status" (get_or "act_status" (JStr "ok") m) m) refs errors).

(** [_L1ResultAdapter]: the body of the snapshot is the mapping itself, not a
    dataclass. *)
Definition l1_view (r : L1CycleResult) : res cycle_view :=
  body ← _ReportBody (l1_report r);
  Ok (mkView (l1_cycle_id r) OtherBody (HasBody body) [] "" "").

(** [dict(pre_snapshot) if pre_snapshot else {}]. *)
Definition pre_snapshot_of (snapshot : json) : res (option table) :=
  if truthy snapshot then Some <$> dict_of snapshot else Ok None.

(** [generate(cycle_result=_L1ResultAdapter(result), pre_snapshot=result.snapshot)]. *)
Definition l1_proof (clock : nat → string) (intent_id : string) (r : L1CycleResult) : res ProofReport :=
  view ← l1_view r;
  pre ← pre_snapshot_of (l1_snapshot r);
  generate clock intent_id view pre None [].

Definition dispatch_leaf_cycle_request (clock : nat → string) (l1_runner : Z → res L1CycleResult)
    (intent_id peer_node_id : string) (message : table) : res table :=
  if negb (py_eq (jget "op" message) (JStr CYCLE_RUN_OP))
  then Ok [("error", JStr ("unknown op '" +:+ py_str other_str (jget "op" message) +:+ "'"))]
  else
    cycle_number ← py_int (jor (jget "cycle_number" message) (JInt 1));
    l1 ← l1_runner cycle_number;
    proof ← l1_proof clock intent_id l1;
    snapshot ← dict_of (l1_snapshot l1);
    report ← dict_of (l1_report l1);
    Ok [("outputs", JObj
          [("cycle_id", JStr (l1_cycle_id l1)); ("snapshot", JObj snapshot); ("report", JObj report);
           ("proof_report", JObj (dict_set "peer_node_id" (JStr peer_node_id) (proof_to_dict proof)))])].

Definition make_leaf_cycle_handler (clock : nat → string) (l1_runner : Z → res L1CycleResult)
    (peer_node_id intent_id : string) : list (string * json) → res (list (string * json)) :=
  fun message => dispatch_leaf_cycle_request clock l1_runner intent_id peer_node_id message.

(** ** The center's side *)

Record LeafCycleResult : Type := mkLeafResult {
  lr_peer_id : string;
  lr_cycle_id : string;
  lr_snapshot : table;
  lr_report : table;
  lr_proof_report : ProofReport;
  lr_escalation : option EscalationReport
}.

Record NetworkCycleResult : Type := mkNetCycle {
  nc_cycle_number : Z;
  nc_leaf_results : list LeafCycleResult;
  nc_center_result : L1CycleResult;
  nc_center_proof : ProofReport;
  nc_peer_chain_valid : bool;
  nc_peer_chain_errors : list string;
  nc_aggregated_escalation : option CrossNodeEscalationReport
}.

(** [transport.request(peer, envelope, timeout_s, idempotency_key)] replies or
    raises. *)
Record NetworkController : Type := mkNetController {
  ct_topology : AgentNetworkTopology;
  ct_request : string → table → string → res table;
  ct_center_runner : Z → res L1CycleResult;
  ct_intent_id : string
}.

Definition _parse_leaf_reply (clock : nat → string) (peer_id : string) (reply : table) : res LeafCycleResult :=
  if truthy (jget "error" reply)
  then Raise (TransportError (py_str other_str (jget "error" reply)) (Some peer_id))
  else
    match jget "outputs" reply with
    | JObj outputs =>
        match jget "proof_report" outputs with
        | JObj proof_raw =>
            proof ← proof_from_dict clock proof_raw;
            escalation ← match jget "escalation" outputs with
                         | JObj m => Some <$> report_of m
                         | _ => Ok None
                         end;
            snapshot ← dict_of (jor (jget "snapshot" outputs) (JObj []));
            report ← dict_of (jor (jget "report" outputs) (JObj []));
            Ok (mkLeafResult peer_id (py_str other_str (jor (jget "cycle_id" outputs) (JStr (pf_cycle_id proof))))
                  snapshot report proof escalation)
        | _ => Raise (TransportError ("leaf '" +:+ peer_id +:+ "' reply missing proof_report") (Some peer_id))
        end
    | _ => Raise (TransportError ("leaf '" +:+ peer_id +:+ "' returned reply without outputs mapping") (Some peer_id))
    end.

Definition cycle_envelope (c : NetworkController) (leaf : LeafEdgeConfig) (cycle_number : Z) : table :=
  [("op", JStr CYCLE_RUN_OP); ("cycle_number", JInt cycle_number); ("bundle_ref", JStr (le_bundle_ref leaf));
   ("kpi_keys", JArr (JStr <$> le_kpi_keys leaf)); ("network_id", JStr (tp_network_id (ct_topology c)))].

Definition cycle_key (c : NetworkController) (peer_id : string) (cycle_number : Z) : string :=
  tp_network_id (ct_topology c) +:+ ":" +:+ peer_id +:+ ":cycle:" +:+ pretty cycle_number.

Definition run_leaf_cycle (clock : nat → string) (c : NetworkController) (peer_id : string) (cycle_number : Z)
  : res LeafCycleResult :=
  match alookup peer_id (tp_leaves (ct_topology c)) with
  | None => Raise (ValueError ("unknown leaf peer '" +:+ peer_id +:+ "'"))
  | Some leaf =>
      match ct_request c peer_id (cycle_envelope c leaf cycle_number) (cycle_key c peer_id cycle_number) with
      | Raise (TransportError msg _) =>
          Raise (TransportError ("leaf cycle failed for '" +:+ peer_id +:+ "': " +:+ msg) (Some peer_id))
      | Raise e => Raise e
      | Ok reply => _parse_leaf_reply clock peer_id reply
      end
  end.

Definition run_leaf_cycles (clock : nat → string) (c : NetworkController) (cycle_number : Z)
  : res (list LeafCycleResult) :=
  mapM (fun peer_id => run_leaf_cycle clock c peer_id cycle_number) (sort_strings (tp_leaves (ct_topology c)).*1).

Definition build_center_proof (clock : nat → string) (c : NetworkController) (center_result : L1CycleResult)
    (leaf_results : list LeafCycleResult) : res ProofReport :=
  center_proof ← l1_proof clock (ct_intent_id c) center_result;
  attach_peer_proofs clock (with_peer center_proof (tp_center_peer_id (ct_topology c)))
    ((fun lr => (lr_peer_id lr, lr_proof_report lr)) <$> leaf_results).

Definition run_network_cycle (clock : nat → string) (c : NetworkController) (cycle_number : Z)
  : res NetworkCycleResult :=
  leaf_results ← run_leaf_cycles clock c cycle_number;
  center_result ← ct_center_runner c cycle_number;
  center_proof ← build_center_proof clock c center_result leaf_results;
  checked ← verify_peer_chain center_proof
              (dict_update [] ((fun lr => (lr_peer_id lr, lr_proof_report lr)) <$> leaf_results));
  let escalations := omap (fun lr => e ← lr_escalation lr; Some (lr_peer_id lr, Some e)) leaf_results in
  Ok (mkNetCycle cycle_number leaf_results center_result center_proof checked.1 checked.2
        (aggregate (tp_network_id (ct_topology c)) None (dict_update [] escalations) checked.1 checked.2)).
End leaf.

(** ** Proof reports and network cycles: what they guarantee

    The hash chain commits to a report; a report read back is the report that
    was written; attached peer evidence verifies, and evidence that verifies
    names every leaf with its hash; a cycle over working leaves is valid. *)

From S2P Require Import Prelude PyVal PyConv Deterministic Artifact Network MetaControl ProofChain Transport.
From stdpp Require Import base gmap strings list pretty sorting.
From Stdlib Require Import ZArith Lia Ascii.

(** ** The hash chain *)

Definition no_colon (s : string) : Prop := str_forall (fun c => negb (Ascii.eqb c ":")) s = true.

(** A text without colons in front of a colon can be told apart. *)
Lemma colon_split a b x y : no_colon a → no_colon b → a +:+ ":" +:+ x = b +:+ ":" +:+ y → a = b ∧ x = y.
Proof.
  unfold no_colon. revert b. induction a as [|c a IH]; intros [|d b] Ha Hb Heq; simpl in *.
  - by injection Heq.
  - injection Heq as <- _. done.
  - injection Heq as -> _. done.
  - injection Heq as -> Heq. apply andb_true_iff in Ha as [_ Ha], Hb as [_ Hb].
    destruct (IH b Ha Hb Heq) as [-> ->]. done.
Qed.

Section chain.
Context `{InjProofHash}.

Lemma link_items_inj items items' prev prev' :
  no_colon prev → no_colon prev' → length items = length items' →
  Forall (fun ce => lk_hash ce.1 = lk_hash ce.2) (zip (link_items prev items) (link_items prev' items')) →
  items.*2 = items'.*2.
Proof.
  revert items' prev prev'. induction items as [|[n p] items IH]; intros [|[n' p'] items'] prev prev' Hp Hp' Hl Hz;
    simplify_eq/=; [done|].
  apply Forall_cons in Hz as [Hh Hz]. simpl in Hh. apply sha256_inj, colon_split in Hh as [-> ->]; [|done..].
  f_equal. eapply IH; [| |done|exact Hz]; apply sha256_hex.
Qed.

Lemma length_link_items items prev : length (link_items prev items) = length items.
Proof. revert prev. induction items as [|[n p] items IH]; intros prev; simpl; by rewrite ?IH. Qed.

Lemma proof_verdict_value_inj v w : proof_verdict_value v = proof_verdict_value w → v = w.
Proof. by destruct v, w. Qed.

(** What the chain covers, up to the order of keys. *)
Definition covered (r : ProofReport) : list json * Verdict :=
  (sort_keys <$> [JObj (pf_pre_snapshot r); JObj (pf_execution_summary r); JObj (pf_post_snapshot r);
                  JObj (kripke_dict (pf_kripke_verdict r)); JArr (evidence_dict <$> pf_evidence_chain r)],
   pf_overall_verdict r).

Lemma chain_items_covered r :
  chain_items r =
    zip ["pre_snapshot"; "execution_summary"; "post_snapshot"; "kripke_verdict"; "evidence_chain"; "overall_verdict"]
      ((json_text <$> (covered r).1) ++ [proof_verdict_value (covered r).2]).
Proof. reflexivity. Qed.

Lemma covered_payloads r r' : (chain_items r).*2 = (chain_items r').*2 → covered r = covered r'.
Proof.
  rewrite !chain_items_covered. rewrite !snd_zip by done. intros [Hl Hv]%app_inj_tail.
  apply (inj (fmap json_text)) in Hl. apply proof_verdict_value_inj in Hv.
  destruct (covered r), (covered r'). simpl in *. congruence.
Qed.

(** The hash chain commits to the snapshots, the execution, the properties, the
    evidence and the verdict, up to the order of keys. *)
Theorem verify_hash_chain_iff r r' : verify_hash_chain (build_hash_chain r) r' = true ↔ covered r = covered r'.
Proof.
  unfold verify_hash_chain. rewrite andb_true_iff, forallb_forall. split.
  - intros [_ Hall]. apply covered_payloads, (link_items_inj _ _ "" ""); [done..|]. apply Forall_forall. intros x Hx.
    apply String.eqb_eq, Hall. by apply list_elem_of_In.
  - intros Heq. assert (build_hash_chain r = build_hash_chain r') as ->.
    { unfold build_hash_chain. by rewrite !chain_items_covered, Heq. }
    split; [apply Nat.eqb_refl|]. intros [x y] Hx%list_elem_of_In. apply String.eqb_eq.
    apply elem_of_lookup_zip_with_1 in Hx as (i & a & b & [= -> ->] & Ha & Hb). simpl. congruence.
Qed.
End chain.

(** ** Reports read back *)

(** An entry as its constructor leaves it. *)
Definition settled (e : EvidenceEntry) : Prop :=
  ev_timestamp e ≠ "" ∧
  setdefault "peer_chain_ref" (ev_peer_chain_ref e) (setdefault "peer_node_id" (ev_peer_node_id e) (ev_data e)) = ev_data e.

Definition settled_report (r : ProofReport) : Prop :=
  pf_created_at r ≠ "" ∧ pf_report_hash r ≠ "" ∧ Forall settled (pf_evidence_chain r).

Lemma setdefault_has key v m k : is_Some (alookup k m) → is_Some (alookup k (setdefault key v m)).
Proof.
  intros [x Hx]. unfold setdefault. destruct v as [s|]; [|by eexists].
  destruct (alookup key m); [by eexists|]. exists x. clear -Hx. induction m as [|[k' y] m IH]; simpl in *; [done|].
  case_decide; [done|]. by apply IH.
Qed.

Lemma setdefault_set key s m : is_Some (alookup key (setdefault key (Some s) m)).
Proof.
  unfold setdefault. destruct (alookup key m) eqn:E; [by rewrite E|]. eexists.
  induction m as [|[k y] m IH]; simpl in *; [by rewrite decide_True|]. case_decide; [done|]. by apply IH.
Qed.

Lemma setdefault_stable key v m : (∀ s, v = Some s → is_Some (alookup key m)) → setdefault key v m = m.
Proof. intros Hs. unfold setdefault. destruct v as [s|]; [|done]. by destruct (Hs s eq_refl) as [x ->]. Qed.

Lemma evidence_settled now source kind data ts peer ref :
  now ≠ "" → settled (evidence now source kind data ts peer ref).
Proof.
  intros Hnow. split; simpl; [by destruct (String.eqb_spec ts "")|].
  rewrite (setdefault_stable "peer_node_id" peer).
  - apply setdefault_stable. intros s ->. apply setdefault_set.
  - intros s ->. apply setdefault_has, setdefault_set.
Qed.

Section roundtrip.
Context {PT : PyText} {PH : ProofHash}.

Lemma opt_text_back (v : option string) : match opt_text v with JNull => None | w => Some (py_str other_str w) end = v.
Proof. by destruct v. Qed.

Lemma evidence_back now e : settled e → evidence_of now (evidence_dict e) = Ok e.
Proof.
  destruct e as [src kind data ts peer ref]. intros [Hts Hd]. simpl in *.
  transitivity (Ok (evidence now src kind data ts peer ref)).
  - unfold evidence_of, evidence_dict, mapping_of. destruct peer, ref; reflexivity.
  - unfold evidence. rewrite Hd, (proj2 (String.eqb_neq ts "")); done.
Qed.

Lemma evidence_list_back clock i l : Forall settled l → evidence_list clock i (evidence_dict <$> l) = Ok l.
Proof.
  intros Hl. revert i. induction Hl as [|e l He _ IH]; intros i; [done|].
  rewrite fmap_cons. cbn [evidence_list]. rewrite evidence_back by done. cbn [mbind res_bind]. by rewrite IH.
Qed.

Lemma verdict_back v : verdict_of_text (proof_verdict_value v) = v.
Proof. by destruct v. Qed.

Lemma kripke_back k :
  kripke_of (kripke_dict k ++ [("verdict", JStr (proof_verdict_value (kripke_outcome k)))]) = Ok k.
Proof. destruct k as [[] c p f x]; reflexivity. Qed.

Lemma dicts_back (l : list (list (string * json))) : mapM dict_of (JObj <$> l) = Ok l.
Proof. apply mapM_res_ok, Forall2_fmap_l, Forall_Forall2_diag, Forall_true. done. Qed.

Lemma proof_back clock r : settled_report r → proof_from_dict clock (proof_to_dict r) = Ok r.
Proof.
  intros (Hc & Hh & He). unfold proof_from_dict.
  change (get_or "kripke_verdict" (JObj []) (proof_to_dict r)) with
    (JObj (kripke_dict (pf_kripke_verdict r) ++ [("verdict", JStr (proof_verdict_value (kripke_outcome (pf_kripke_verdict r))))])).
  change (get_or "evidence_chain" (JArr []) (proof_to_dict r)) with (JArr (evidence_dict <$> pf_evidence_chain r)).
  change (get_or "policy_decisions" (JArr []) (proof_to_dict r)) with (JArr (JObj <$> pf_policy_decisions r)).
  cbn [mapping_of mbind res_bind py_iter].
  rewrite kripke_back. cbn [mbind res_bind]. rewrite evidence_list_back by done. cbn [mbind res_bind].
  rewrite dicts_back.
  transitivity (report_init (clock (length (pf_evidence_chain r))) r).
  - destruct r as [rid iid cid pre post sum kv ev pd ov vr ca h pn pc]. simpl in ev |- *.
    by destruct ov, pn, pc.
  - unfold report_init. rewrite (proj2 (String.eqb_neq _ _) Hc). unfold report_hash_of.
    rewrite (proj2 (String.eqb_neq _ _) Hh). by destruct r.
Qed.
End roundtrip.

(** ** Peer evidence *)

(** Texts always sort. *)
Lemma insert_text x l : ∃ k, insert_value (JStr x) (JStr <$> l) = Ok (JStr <$> k).
Proof.
  induction l as [|y l [k IH]]; [by exists [x]|]. rewrite fmap_cons.
  cbn [insert_value py_order mbind res_bind]. destruct (order_cmp LtO (String.compare x y)); [by exists (x :: y :: l)|].
  rewrite IH. by exists (y :: k).
Qed.

Lemma sort_texts l : ∃ k, sorted_values (JStr <$> l) = Ok k.
Proof.
  unfold sorted_values. change (@nil json) with (JStr <$> @nil string). generalize (@nil string) as acc.
  induction l as [|x l IH]; intros acc; [by eexists|]. rewrite fmap_cons. cbn [sort_values_onto].
  destruct (insert_text x acc) as [k ->]. apply IH.
Qed.

(** An entry whose reference is a text. *)
Definition text_ref (e : EvidenceEntry) : Prop := is_peer_entry e = true → ∃ s, entry_ref e = JStr s.

Lemma text_values l :
  Forall (fun v => ∃ s, v = JStr s) l → ∃ k, filter (fun v => truthy v = true) l = JStr <$> k.
Proof.
  induction 1 as [|v l [s ->] _ [k IH]]; [by exists []|]. rewrite filter_cons, IH.
  case_decide; [by exists (s :: k)|by exists k].
Qed.

Lemma peer_refs_text chain : Forall text_ref chain → ∃ refs, peer_refs chain = Ok refs.
Proof.
  intros Hc. unfold peer_refs. destruct (text_values (entry_ref <$> filter (fun e => is_peer_entry e = true) chain)) as [k ->].
  - apply Forall_fmap, Forall_forall. intros e [He Hin]%list_elem_of_filter.
    rewrite Forall_forall in Hc. by apply Hc.
  - apply sort_texts.
Qed.

Section peers.
Context {PT : PyText} {PH : ProofHash}.

Lemma compute_hash_returns r : Forall text_ref (pf_evidence_chain r) → ∃ h, _compute_hash r = Ok h.
Proof. intros [refs Hr]%peer_refs_text. unfold _compute_hash. rewrite Hr. by eexists. Qed.

Lemma compute_hash_nonempty r h : _compute_hash r = Ok h → h ≠ "".
Proof. unfold _compute_hash. destruct (peer_refs _) as [refs|]; [|done]. intros [= <-]. apply sha256_hex. Qed.

Lemma report_hash_nonempty r h : report_hash_of r = Ok h → h ≠ "".
Proof.
  unfold report_hash_of. destruct (String.eqb_spec (pf_report_hash r) ""); [apply compute_hash_nonempty|].
  by intros [= <-].
Qed.

(** The entry that [peer] contributes. *)
Definition contributes (peer : string * ProofReport) (e : EvidenceEntry) : Prop :=
  ∃ now h, report_hash_of peer.2 = Ok h ∧ e = peer_entry now peer.1 peer.2 h.

Lemma attach_entries_spec clock i peers es :
  attach_entries clock i peers = Ok es → Forall2 contributes peers es.
Proof.
  revert i es. induction peers as [|[id p] peers IH]; intros i es; cbn [attach_entries]; [by intros [= <-]|].
  destruct (report_hash_of p) as [h|] eqn:Hh; [|done]. cbn [mbind res_bind].
  destruct (attach_entries clock (S i) peers) as [es'|] eqn:Hes; [|done]. intros [= <-].
  constructor; [by exists (clock i), h|by eapply IH].
Qed.

Lemma contributes_entry p e : contributes p e → p.1 ≠ "" →
  is_peer_entry e = true ∧ text_ref e ∧ entry_peer e = p.1 ∧ report_hash_of p.2 = Ok (entry_chain_ref e).
Proof.
  intros (now & h & Hh & ->) Hid. pose proof (report_hash_nonempty _ _ Hh) as Hne.
  unfold entry_peer, entry_chain_ref, text_ref, entry_ref. simpl.
  rewrite (proj2 (String.eqb_neq _ _) Hid), (proj2 (String.eqb_neq _ _) Hne). by eauto.
Qed.

(** What [collect_refs] makes of its entries. *)
Lemma collect_refs_spec entries refs errors refs' errors' :
  collect_refs entries refs errors = (refs', errors') →
  NoDup refs.*1 →
  NoDup refs'.*1 ∧ (errors' = [] → errors = [] ∧ Forall (fun e => entry_peer e ≠ "") entries) ∧
  (∀ id, id ∈ refs'.*1 ↔ id ∈ refs.*1 ∨ ∃ e, e ∈ entries ∧ entry_peer e = id ∧ id ≠ "") ∧
  (∀ id ref, alookup id refs' = Some ref → alookup id refs = Some ref ∨
     ∃ e, e ∈ entries ∧ entry_peer e = id ∧ entry_chain_ref e = ref).
Proof.
  revert refs errors. induction entries as [|e entries IH]; intros refs errors Hc Hnd; cbn [collect_refs] in Hc.
  { injection Hc as <- <-. set_solver. }
  destruct (String.eqb_spec (entry_peer e) "") as [He|He].
  - destruct (IH _ _ Hc Hnd) as (H1 & H2 & H3 & H4). split_and!; [done| | |].
    + intros Hn. destruct (H2 Hn) as [Hn' _]. by destruct errors.
    + intros id. rewrite H3. set_solver.
    + intros id ref Hid. destruct (H4 _ _ Hid) as [?|(x & ? & ?)]; [by left|]. right. exists x. set_solver.
  - destruct (IH _ _ Hc (NoDup_dict_set _ _ _ Hnd)) as (H1 & H2 & H3 & H4). split_and!; [done| | |].
    + intros Hn. destruct (H2 Hn) as [-> Hf]. split; [done|by constructor].
    + intros id. rewrite H3, dict_set_keys. set_solver.
    + intros id ref Hid. destruct (H4 _ _ Hid) as [Hl|(x & ? & ?)]; [|right; exists x; set_solver].
      rewrite alookup_dict_set in Hl. case_decide; [|by left]. injection Hl as <-. right. exists e. set_solver.
Qed.

Lemma collect_contributed peers es refs :
  Forall2 contributes peers es → Forall (fun p => p.1 ≠ "") peers → NoDup (refs.*1 ++ peers.*1) →
  ∃ new, collect_refs es refs [] = (refs ++ new, []) ∧
         Forall2 (fun p r => r.1 = p.1 ∧ report_hash_of p.2 = Ok r.2) peers new.
Proof.
  intros Hes. revert refs. induction Hes as [|p e peers es Hp _ IH]; intros refs Hids Hnd.
  { exists []. by rewrite app_nil_r. }
  apply Forall_cons in Hids as [Hid Hids]. destruct (contributes_entry p e Hp Hid) as (_ & _ & Hpeer & Hh).
  cbn [collect_refs]. rewrite Hpeer, (proj2 (String.eqb_neq _ _) Hid).
  rewrite fmap_cons in Hnd. rewrite dict_set_fresh by (apply NoDup_app in Hnd; set_solver).
  destruct (IH (refs ++ [(p.1, entry_chain_ref e)]) Hids) as (new & Hc & Hf).
  { by rewrite fmap_app, <-app_assoc. }
  exists ((p.1, entry_chain_ref e) :: new). rewrite Hc, <-app_assoc. split; [done|]. by constructor.
Qed.

Lemma check_leaves_ok refs leaves :
  (∀ id leaf, (id, leaf) ∈ leaves → ∃ h, report_hash_of leaf = Ok h ∧ alookup id refs = Some h) →
  check_leaves refs leaves = Ok [].
Proof.
  induction leaves as [|[id leaf] leaves IH]; intros Hl; cbn [check_leaves]; [done|].
  destruct (Hl id leaf) as (h & -> & Ha); [set_solver|]. cbn [mbind res_bind]. rewrite Ha, String.eqb_refl, IH; [done|].
  intros id' leaf' Hin. apply Hl. set_solver.
Qed.

Lemma check_leaves_nil refs leaves :
  check_leaves refs leaves = Ok [] →
  ∀ id leaf, (id, leaf) ∈ leaves → ∃ h, report_hash_of leaf = Ok h ∧ alookup id refs = Some h.
Proof.
  induction leaves as [|[id leaf] leaves IH]; cbn [check_leaves]; intros Hc id' leaf' Hin; [set_solver|].
  destruct (report_hash_of leaf) as [h|] eqn:Hh; [|done]. cbn [mbind res_bind] in Hc.
  destruct (check_leaves refs leaves) as [errs|]; [|done]. injection Hc as [Hhere ->]%app_nil.
  apply elem_of_cons in Hin as [[= -> ->]|Hin]; [|by apply IH].
  exists h. split; [done|]. destruct (alookup id refs) as [a|]; [|done]. destruct (String.eqb_spec a h); [by subst|done].
Qed.

(** Evidence that verifies names every leaf with its hash, and nothing else. *)
Lemma verified_peers center leaves errs :
  NoDup leaves.*1 → verify_peer_chain center leaves = Ok (true, errs) →
  (∀ id leaf, (id, leaf) ∈ leaves →
     ∃ e, e ∈ pf_evidence_chain center ∧ is_peer_entry e = true ∧ entry_peer e = id ∧
          report_hash_of leaf = Ok (entry_chain_ref e)) ∧
  (∀ e, e ∈ pf_evidence_chain center → is_peer_entry e = true → entry_peer e ∈ leaves.*1) ∧
  (pf_report_hash center ≠ "" → _compute_hash center = Ok (pf_report_hash center)).
Proof.
  intros Hnd. unfold verify_peer_chain.
  destruct (collect_refs _ [] []) as [refs missing] eqn:Hc.
  destruct (collect_refs_spec _ _ _ _ _ Hc) as (Hrnd & Hmiss & Hkeys & Hval); [constructor|].
  destruct (check_leaves refs (sort_items leaves)) as [wrong|] eqn:Hw; [|done]. cbn [mbind res_bind].
  destruct (_compute_hash center) as [rc|] eqn:Hrc; [|done]. cbn [mbind res_bind].
  intros [= Hok _]. apply bool_decide_eq_true, app_nil in Hok as [-> [Hcount [-> Hcenter]%app_nil]%app_nil].
  pose proof (check_leaves_nil _ _ Hw) as Hl. setoid_rewrite sort_items_perm in Hl. split_and!.
  - intros id leaf Hin. destruct (Hl id leaf Hin) as (h & Hh & Ha).
    destruct (Hval _ _ Ha) as [?|(e & He & Hid & Href)]; [done|].
    apply list_elem_of_filter in He as [??]. exists e. by rewrite Hh, Href.
  - intros e He Hpe. destruct (Nat.eqb_spec (length refs) (length leaves)) as [Hlen|]; [|done].
    destruct Hmiss as [_ Hne]; [done|]. rewrite Forall_forall in Hne.
    assert (e ∈ filter (fun e => is_peer_entry e = true) (pf_evidence_chain center)) as Hin by (by apply list_elem_of_filter).
    assert (leaves.*1 ≡ₚ refs.*1) as ->; [|apply Hkeys; right; exists e; by auto].
    apply submseteq_length_Permutation; [|by rewrite !length_fmap, Hlen].
    apply NoDup_submseteq; [done|]. intros id ([k leaf] & -> & Hk)%list_elem_of_fmap.
    destruct (Hl k leaf Hk) as (h & _ & Ha). apply alookup_elem_of in Ha. apply list_elem_of_fmap. by exists (k, h).
  - intros Hne. rewrite (proj2 (String.eqb_neq _ _) Hne) in Hcenter. simpl in Hcenter.
    destruct (String.eqb_spec (pf_report_hash center) rc); [by subst|done].
Qed.

(** Attached evidence verifies. *)
Lemma attached_verifies clock center peers center' :
  Forall (fun e => is_peer_entry e = false) (pf_evidence_chain center) →
  NoDup peers.*1 → Forall (fun p => p.1 ≠ "") peers →
  attach_peer_proofs clock center peers = Ok center' → verify_peer_chain center' peers = Ok (true, []).
Proof.
  intros Hnone Hnd Hids Ha. unfold attach_peer_proofs in Ha.
  destruct (attach_entries clock 0 peers) as [es|] eqn:Hes; [|done]. cbn [mbind res_bind] in Ha.
  apply attach_entries_spec in Hes. unfold recompute_hash in Ha.
  apply res_fmap_ok in Ha as (h & Hh & <-).
  assert (_compute_hash (with_hash (with_evidence center (pf_evidence_chain center ++ es)) h) = Ok h) as Hh' by done.
  unfold verify_peer_chain. rewrite Hh'. simpl pf_evidence_chain. rewrite filter_app.
  assert (filter (fun e => is_peer_entry e = true) (pf_evidence_chain center) = []) as ->.
  { clear -Hnone. induction Hnone as [|e l He _ IH]; [done|]. rewrite filter_cons_False by congruence. done. }
  assert (filter (fun e => is_peer_entry e = true) es = es) as ->.
  { clear -PT PH Hes Hids. induction Hes as [|p e peers es Hp _ IH]; [done|]. apply Forall_cons in Hids as [Hid Hids].
    rewrite filter_cons_True by (by apply (contributes_entry p)). by rewrite IH. }
  destruct (collect_contributed peers es []) as (new & Hc & Hf); [done..|].
  simpl app. rewrite Hc. simpl app. rewrite (Forall2_length _ _ _ Hf), Nat.eqb_refl, check_leaves_ok.
  - simpl. by rewrite String.eqb_refl, andb_false_r.
  - intros id leaf Hin. rewrite sort_items_perm in Hin. apply list_elem_of_lookup in Hin as [i Hi].
    destruct (Forall2_lookup_l _ _ _ _ _ Hf Hi) as ([k r] & Hr & Hk & Hrep). simpl in *. subst k.
    exists r. split; [done|]. apply alookup_NoDup.
    + assert (new.*1 = peers.*1) as ->; [|done]. clear -PT PH Hf. induction Hf as [|?? ?? [??]]; csimpl; congruence.
    + by eapply list_elem_of_lookup_2.
Qed.
End peers.

(** ** The report of a cycle *)

(** The result of a cycle whose mappings have the expected shape. *)
Definition readable (l1 : L1CycleResult) : Prop :=
  ∃ snap rep refs errs, l1_snapshot l1 = JObj snap ∧ l1_report l1 = JObj rep ∧
    get_or "artifact_refs" (JObj []) rep = JObj refs ∧ get_or "errors" (JArr []) rep = JArr errs.

Section cycle.
Context {PT : PyText} {PH : ProofHash}.

(** Without properties and decisions, no verdict is a pass. *)
Lemma no_checks_no_pass summary :
  ∃ v reason, _determine_verdict summary no_kripke [] = Ok (v, reason) ∧ v ≠ PASS.
Proof.
  unfold _determine_verdict. repeat case_match; simplify_eq/=; eexists _, _; (split; [reflexivity|done]).
Qed.

Lemma init_report now r :
  now ≠ "" → pf_created_at r = "" → pf_report_hash r = "" → Forall text_ref (pf_evidence_chain r) →
  ∃ h, h ≠ "" ∧ report_init now r =
    Ok (mkProof (pf_report_id r) (pf_intent_id r) (pf_cycle_id r) (pf_pre_snapshot r) (pf_post_snapshot r)
          (pf_execution_summary r) (pf_kripke_verdict r) (pf_evidence_chain r) (pf_policy_decisions r)
          (pf_overall_verdict r) (pf_verdict_reason r) now h (pf_peer_node_id r) (pf_peer_chain_ref r)).
Proof.
  intros Hnow Hc Hh He. unfold report_init. rewrite Hc. cbn [String.eqb]. unfold report_hash_of. cbn [pf_report_hash].
  rewrite Hh. cbn [String.eqb].
  match goal with |- context [_compute_hash ?r] => destruct (compute_hash_returns r He) as [h Hr]; rewrite Hr end.
  exists h. split; [by eapply compute_hash_nonempty|done].
Qed.

(** What a cycle report has. *)
Record cycle_proof (l1 : L1CycleResult) (p : ProofReport) : Prop := {
  cp_cycle : pf_cycle_id p = l1_cycle_id l1;
  cp_settled : settled_report p;
  cp_plain : Forall (fun e => is_peer_entry e = false) (pf_evidence_chain p);
  cp_verdict : pf_overall_verdict p ≠ PASS
}.

Lemma plain_text_ref chain : Forall (fun e => is_peer_entry e = false) chain → Forall text_ref chain.
Proof. intros Hc. eapply Forall_impl; [exact Hc|]. intros e He Hp. congruence. Qed.

Lemma generate_l1 clock intent cycle_id snap body pre :
  (∀ n, clock n ≠ "") →
  ∃ p, generate clock intent (mkView cycle_id snap (HasBody body) [] "" "") pre None [] = Ok p ∧
    pf_cycle_id p = cycle_id ∧ settled_report p ∧
    Forall (fun e => is_peer_entry e = false) (pf_evidence_chain p) ∧ pf_overall_verdict p ≠ PASS.
Proof.
  intros Hclock. unfold generate. set (v := mkView _ _ _ _ _ _).
  destruct (no_checks_no_pass (_extract_execution_summary v)) as (verdict & reason & Hv & Hpass).
  change (_extract_policy_decisions v) with (@nil (list (string * json))). cbn [default]. rewrite Hv. cbn [mbind res_bind fst snd].
  assert (Forall settled (_build_evidence_chain clock v [])) as Hset.
  { unfold _build_evidence_chain. constructor; [by apply evidence_settled|]. rewrite app_nil_r.
    case_match; [|constructor]. constructor; [by apply evidence_settled|constructor]. }
  assert (Forall (fun e => is_peer_entry e = false) (_build_evidence_chain clock v [])) as Hplain.
  { unfold _build_evidence_chain. constructor; [done|]. rewrite app_nil_r. case_match; by repeat constructor. }
  match goal with |- context [report_init ?now ?r] =>
    destruct (init_report now r (Hclock _) eq_refl eq_refl (plain_text_ref _ Hplain)) as (h & Hh & ->) end.
  eexists. split; [done|]. split; [done|]. split; [by split_and!; [apply Hclock|..]|]. done.
Qed.

Lemma l1_proof_spec clock intent l1 :
  readable l1 → (∀ n, clock n ≠ "") → ∃ p, l1_proof clock intent l1 = Ok p ∧ cycle_proof l1 p.
Proof.
  intros (snap & rep & refs & errs & Hs & Hr & Hrefs & Herrs) Hclock.
  unfold l1_proof, l1_view, _ReportBody, pre_snapshot_of. rewrite Hr, Hs. cbn [mapping_of mbind res_bind].
  rewrite Hrefs, Herrs. cbn [dict_of py_iter mbind res_bind].
  assert (∃ pre, (if truthy (JObj snap) then Some <$> Ok snap else Ok None) = Ok (A:=option (list (string * json))) pre) as [pre ->].
  { destruct snap; by eexists. }
  cbn [mbind res_bind]. match goal with |- context [generate _ _ (mkView ?a ?b (HasBody ?c) _ _ _)] =>
    destruct (generate_l1 clock intent a b c pre Hclock) as (p & -> & H1 & H2 & H3 & H4) end.
  exists p. by split.
Qed.
End cycle.

(** ** A leaf's answer *)

Section network.
Context {PT : PyText} {PH : ProofHash}.

(** The number a leaf runs: [0] counts as absent. *)
Definition leaf_cycle (n : Z) : Z := if (n =? 0)%Z then 1 else n.

Lemma with_peer_settled p peer : settled_report p → settled_report (with_peer p peer).
Proof. done. Qed.

(** A result as the center sees it. *)
Definition received (peer : string) (l1 : L1CycleResult) (p : ProofReport) (r : LeafCycleResult) : Prop :=
  lr_peer_id r = peer ∧ lr_cycle_id r = l1_cycle_id l1 ∧ JObj (lr_snapshot r) = l1_snapshot l1 ∧
  JObj (lr_report r) = l1_report l1 ∧ lr_proof_report r = with_peer p peer ∧ lr_escalation r = None.

Lemma parse_answer clock peer cid snap rep p :
  settled_report p →
  _parse_leaf_reply clock peer
    [("outputs", JObj [("cycle_id", JStr cid); ("snapshot", JObj snap); ("report", JObj rep);
                       ("proof_report", JObj (proof_to_dict p))])] =
  Ok (mkLeafResult peer (py_str other_str (jor (JStr cid) (JStr (pf_cycle_id p)))) snap rep p None).
Proof.
  intros Hp. transitivity
    (proof ← proof_from_dict clock (proof_to_dict p);
     snapshot ← dict_of (jor (JObj snap) (JObj []));
     report ← dict_of (jor (JObj rep) (JObj []));
     Ok (mkLeafResult peer (py_str other_str (jor (JStr cid) (JStr (pf_cycle_id proof)))) snapshot report proof None));
    [reflexivity|].
  rewrite proof_back by done. cbn [mbind res_bind]. unfold jor. by destruct snap, rep.
Qed.

Lemma leaf_answers c leaf n peer clock clock' runner intent l1 :
  readable l1 → (∀ n, clock n ≠ "") → runner (leaf_cycle n) = Ok l1 →
  ∃ p r, cycle_proof l1 p ∧ received peer l1 p r ∧
    (reply ← make_leaf_cycle_handler clock runner peer intent (cycle_envelope c leaf n);
     _parse_leaf_reply clock' peer reply) = Ok r.
Proof.
  intros Hread Hclock Hrun. destruct (l1_proof_spec clock intent l1 Hread Hclock) as (p & Hp & Hcp).
  destruct Hread as (snap & rep & refs & errs & Hs & Hr & _).
  exists p. unfold make_leaf_cycle_handler, dispatch_leaf_cycle_request.
  change (py_eq (jget "op" (cycle_envelope c leaf n)) (JStr CYCLE_RUN_OP)) with true. cbn [negb].
  assert (py_int (jor (jget "cycle_number" (cycle_envelope c leaf n)) (JInt 1)) = Ok (leaf_cycle n)) as ->.
  { change (jget "cycle_number" (cycle_envelope c leaf n)) with (JInt n). unfold leaf_cycle, jor. simpl.
    by destruct (n =? 0)%Z. }
  cbn [mbind res_bind]. rewrite Hrun. cbn [mbind res_bind]. rewrite Hp. cbn [mbind res_bind]. rewrite Hs, Hr.
  cbn [dict_of mbind res_bind].
  change (dict_set "peer_node_id" (JStr peer) (proof_to_dict p)) with (proof_to_dict (with_peer p peer)).
  rewrite parse_answer by (apply with_peer_settled, Hcp). eexists. split; [done|]. split; [|done].
  split_and!; try done. simpl. rewrite (cp_cycle _ _ Hcp). unfold jor. by destruct (truthy (JStr (l1_cycle_id l1))).
Qed.

(** ** Cycles of a network *)

Lemma leaf_configs_keys edges center refs leaves leaves' :
  leaf_configs edges center refs leaves = Ok leaves' → NoDup leaves.*1 →
  NoDup leaves'.*1 ∧ ∀ id, id ∈ leaves'.*1 ↔ id ∈ leaves.*1 ∨ id ∈ refs.
Proof.
  revert leaves. induction refs as [|r refs IH]; intros leaves Hl Hnd; cbn [leaf_configs] in Hl.
  { injection Hl as ->. set_solver. }
  destruct (_edge_for_leaf edges r center) as [e|]; [|done]. cbn [mbind res_bind] in Hl.
  destruct (IH _ Hl (NoDup_dict_set _ _ _ Hnd)) as [H1 H2]. split; [done|].
  intros id. rewrite H2, dict_set_keys. set_solver.
Qed.

Lemma topology_leaves body t : from_agent_network body = Ok t →
  NoDup (tp_leaves t).*1 ∧ ∀ id, id ∈ (tp_leaves t).*1 ↔ id ∈ nw_leaf_bundle_refs body.
Proof.
  unfold from_agent_network. destruct (negb _); [done|].
  destruct (leaf_configs _ _ _ _) as [l|] eqn:Hl; [|done]. intros [= <-].
  destruct (leaf_configs_keys _ _ _ _ _ Hl) as [H1 H2]; [constructor|]. split; [done|]. intros id. rewrite H2. set_solver.
Qed.

Lemma run_leaf_peer clock c peer n r : run_leaf_cycle clock c peer n = Ok r → lr_peer_id r = peer.
Proof.
  unfold run_leaf_cycle. destruct (alookup peer _) as [leaf|]; [|done]. destruct (ct_request c _ _ _) as [reply|[]]; try done.
  unfold _parse_leaf_reply. destruct (truthy _); [done|]. destruct (jget "outputs" reply) as [| | | | | |outputs]; try done.
  destruct (jget "proof_report" outputs) as [| | | | | |raw]; try done. intros Hr. inv_ok. by simplify_eq/=.
Qed.

Lemma leaf_results_peers clock c n rs :
  run_leaf_cycles clock c n = Ok rs → lr_peer_id <$> rs = sort_strings (tp_leaves (ct_topology c)).*1.
Proof.
  unfold run_leaf_cycles. rewrite mapM_res_ok. generalize (sort_strings (tp_leaves (ct_topology c)).*1) as l.
  intros l Hf. induction Hf as [|p r l rs Hp _ IH]; [done|]. csimpl. rewrite IH. f_equal. by eapply run_leaf_peer.
Qed.

Lemma leaf_pairs_keys clock c n rs :
  run_leaf_cycles clock c n = Ok rs →
  ((fun lr => (lr_peer_id lr, lr_proof_report lr)) <$> rs).*1 = sort_strings (tp_leaves (ct_topology c)).*1.
Proof. intros Hrs%leaf_results_peers. by rewrite <-list_fmap_compose, <-Hrs. Qed.

Lemma leaf_pairs_NoDup clock c n rs :
  run_leaf_cycles clock c n = Ok rs → NoDup (tp_leaves (ct_topology c)).*1 →
  NoDup ((fun lr => (lr_peer_id lr, lr_proof_report lr)) <$> rs).*1.
Proof. intros Hrs Hnd. rewrite (leaf_pairs_keys _ _ _ _ Hrs). unfold sort_strings. by rewrite merge_sort_Permutation. Qed.

Lemma dict_update_fresh {V} (l : list (string * V)) : NoDup l.*1 → dict_update [] l = l.
Proof.
  intros Hnd. unfold dict_update. change l with ([] ++ l) at 2. assert (NoDup (@nil (string * V) ++ l).*1) as Hnd' by done.
  revert Hnd'. clear Hnd. generalize (@nil (string * V)) as acc. induction l as [|[k v] l IH]; intros acc Hnd; simpl.
  { by rewrite app_nil_r. }
  rewrite dict_set_fresh by (rewrite fmap_app in Hnd; apply NoDup_app in Hnd; set_solver).
  rewrite IH; [by rewrite <-app_assoc|]. by rewrite <-app_assoc.
Qed.

(** A cycle that returns has a result per leaf and a valid chain. *)
Lemma cycle_valid clock c n r :
  (∀ i, clock i ≠ "") → NoDup (tp_leaves (ct_topology c)).*1 → "" ∉ (tp_leaves (ct_topology c)).*1 →
  (∀ l1, ct_center_runner c n = Ok l1 → readable l1) →
  run_network_cycle clock c n = Ok r →
  lr_peer_id <$> nc_leaf_results r = sort_strings (tp_leaves (ct_topology c)).*1 ∧
  nc_peer_chain_valid r = true ∧ nc_peer_chain_errors r = [] ∧ pf_overall_verdict (nc_center_proof r) ≠ PASS ∧
  (∀ lr, lr ∈ nc_leaf_results r →
     ∃ e, e ∈ pf_evidence_chain (nc_center_proof r) ∧ is_peer_entry e = true ∧ entry_peer e = lr_peer_id lr ∧
          report_hash_of (lr_proof_report lr) = Ok (entry_chain_ref e)).
Proof.
  intros Hclock Hnd Hempty Hcenter Hrun. unfold run_network_cycle in Hrun. inv_ok. simplify_eq/=.
  rename a into rs, a0 into l1, a1 into cp, a2 into checked.
  match goal with H : run_leaf_cycles _ _ _ = _ |- _ => rename H into Hrs end.
  pose proof (leaf_results_peers _ _ _ _ Hrs) as Hpeers.
  match goal with H : build_center_proof _ _ _ _ = _ |- _ => rename H into Hb end.
  match goal with H : verify_peer_chain _ _ = _ |- _ => rename H into Hv end.
  match goal with H : ct_center_runner _ _ = _ |- _ => apply Hcenter in H as Hread end.
  destruct (l1_proof_spec clock (ct_intent_id c) l1 Hread Hclock) as (p & Hp & Hcp).
  unfold build_center_proof in Hb. rewrite Hp in Hb. cbn [mbind res_bind] in Hb.
  set (peers := (fun lr => (lr_peer_id lr, lr_proof_report lr)) <$> rs) in *.
  pose proof (leaf_pairs_keys _ _ _ _ Hrs) as Hids. pose proof (leaf_pairs_NoDup _ _ _ _ Hrs Hnd) as Hnd'.
  fold peers in Hids, Hnd'.
  rewrite dict_update_fresh in Hv by done.
  assert (Forall (fun p => p.1 ≠ "") peers) as Hne.
  { apply Forall_forall. intros q Hq Heq. apply Hempty. apply elem_of_sort_strings. rewrite <-Hids, <-Heq.
    by apply list_elem_of_fmap_2. }
  assert (verify_peer_chain cp peers = Ok (true, [])) as Hok.
  { eapply attached_verifies; [|done|done|exact Hb]. apply (cp_plain _ _ Hcp). }
  rewrite Hok in Hv. injection Hv as <-. split_and!; [done..| |].
  - unfold attach_peer_proofs, recompute_hash in Hb. inv_ok. subst cp. apply (cp_verdict _ _ Hcp).
  - intros lr Hlr. destruct (verified_peers cp peers [] Hnd' Hok) as [Hall _].
    apply (Hall (lr_peer_id lr) (lr_proof_report lr)). unfold peers. apply list_elem_of_fmap. by exists lr.
Qed.

(** Attaching returns when the hashes of the leaves do. *)
Lemma attach_returns clock center peers :
  Forall (fun e => is_peer_entry e = false) (pf_evidence_chain center) →
  Forall (fun p => p.1 ≠ "" ∧ is_ok (report_hash_of p.2) = true) peers →
  ∃ center', attach_peer_proofs clock center peers = Ok center'.
Proof.
  intros Hplain Hp. unfold attach_peer_proofs.
  assert (∀ i, ∃ es, attach_entries clock i peers = Ok es) as Hes.
  { clear Hplain. induction Hp as [|[id q] peers [Hid Hq] _ IH]; intros i; cbn [attach_entries]; [by eexists|].
    simpl in Hq. destruct (report_hash_of q); [|done]. cbn [mbind res_bind]. destruct (IH (S i)) as [es ->]. by eexists. }
  destruct (Hes 0) as [es He]. rewrite He. cbn [mbind res_bind]. apply attach_entries_spec in He.
  unfold recompute_hash. destruct (compute_hash_returns (with_evidence center (pf_evidence_chain center ++ es))) as [h ->];
    [|by eexists].
  cbn [with_evidence pf_evidence_chain]. apply Forall_app. split; [by apply plain_text_ref|].
  clear Hes. induction He as [|q e peers es Hq _ IH]; [constructor|]. apply Forall_cons in Hp as [[Hid _] Hp].
  constructor; [by apply (contributes_entry q)|by apply IH].
Qed.

Lemma settled_hash p : settled_report p → is_ok (report_hash_of p) = true.
Proof. intros (_ & Hh & _). unfold report_hash_of. by rewrite (proj2 (String.eqb_neq _ _) Hh). Qed.

(** A leaf that is served by its handler in the center's process. *)
Definition leaf_served (t : InProcessTransport) (n : Z) (id : string) : Prop :=
  id ≠ "" ∧ ∃ clock runner intent l1,
    (∀ i, clock i ≠ "") ∧ alookup id (ip_handlers t) = Some (make_leaf_cycle_handler clock runner id intent) ∧
    runner (leaf_cycle n) = Ok l1 ∧ readable l1.

Lemma served_leaf_runs clock c t n id :
  (∀ peer env key, ct_request c peer env key = inprocess_request t peer env) →
  id ∈ (tp_leaves (ct_topology c)).*1 → leaf_served t n id →
  ∃ r, run_leaf_cycle clock c id n = Ok r ∧ settled_report (lr_proof_report r) ∧ lr_escalation r = None.
Proof.
  intros Htr Hin (_ & lclock & runner & intent & l1 & Hclock & Hh & Hrun & Hread). unfold run_leaf_cycle.
  destruct (alookup id (tp_leaves (ct_topology c))) as [leaf|] eqn:Hl; [|by apply alookup_None in Hl].
  destruct (leaf_answers c leaf n id lclock clock runner intent l1 Hread Hclock Hrun) as (p & r & Hcp & Hrec & Hr).
  rewrite Htr. unfold inprocess_request. rewrite Hh. destruct (make_leaf_cycle_handler _ _ _ _ _) as [reply|e]; [|done].
  exists r. split; [done|]. destruct Hrec as (_ & _ & _ & _ & -> & ->). split; [apply with_peer_settled, Hcp|done].
Qed.

Lemma served_leaves_run clock c t n :
  (∀ peer env key, ct_request c peer env key = inprocess_request t peer env) →
  (∀ id, id ∈ (tp_leaves (ct_topology c)).*1 → leaf_served t n id) →
  ∃ rs, run_leaf_cycles clock c n = Ok rs ∧
    Forall (fun r => lr_peer_id r ≠ "" ∧ settled_report (lr_proof_report r) ∧ lr_escalation r = None) rs.
Proof.
  intros Htr Hs. unfold run_leaf_cycles.
  assert (∀ id, id ∈ sort_strings (tp_leaves (ct_topology c)).*1 → id ∈ (tp_leaves (ct_topology c)).*1) as Hin.
  { intros id. by rewrite elem_of_sort_strings. }
  revert Hin. generalize (sort_strings (tp_leaves (ct_topology c)).*1) as l. induction l as [|id l IH]; intros Hin.
  { by exists []. }
  destruct IH as (rs & Hrs & Hf); [set_solver|]. pose proof (Hin id ltac:(set_solver)) as Hid.
  destruct (served_leaf_runs clock c t n id Htr Hid (Hs _ Hid)) as (r & Hr & Hset & Hesc).
  exists (r :: rs). split; [apply mapM_res_ok; constructor; [done|by apply mapM_res_ok]|].
  constructor; [|done]. rewrite (run_leaf_peer _ _ _ _ _ Hr). split; [apply (Hs _ Hid)|done].
Qed.
End network.

(** C29: a cycle of a star network.  Whatever the transport, a cycle that
    returns has one result per leaf, in order of their names, and a proof of
    the center that names every leaf with the hash of its proof and verifies.
    When every leaf is served by its handler in the same process, the cycle
    returns and nothing is escalated. *)
Theorem network_cycle {PT : PyText} {PH : ProofHash} body clock c n :
  from_agent_network body = Ok (ct_topology c) → "" ∉ nw_leaf_bundle_refs body → (∀ i, clock i ≠ "") →
  (∀ l1, ct_center_runner c n = Ok l1 → readable l1) →
  (∀ r, run_network_cycle clock c n = Ok r →
     lr_peer_id <$> nc_leaf_results r = sort_strings (tp_leaves (ct_topology c)).*1 ∧
     nc_peer_chain_valid r = true ∧ nc_peer_chain_errors r = [] ∧
     ∀ lr, lr ∈ nc_leaf_results r →
       ∃ e, e ∈ pf_evidence_chain (nc_center_proof r) ∧ is_peer_entry e = true ∧ entry_peer e = lr_peer_id lr ∧
            report_hash_of (lr_proof_report lr) = Ok (entry_chain_ref e)) ∧
  (∀ t l1, (∀ peer env key, ct_request c peer env key = inprocess_request t peer env) →
     ct_center_runner c n = Ok l1 → (∀ id, id ∈ nw_leaf_bundle_refs body → leaf_served t n id) →
     ∃ r, run_network_cycle clock c n = Ok r ∧ nc_aggregated_escalation r = None).
Proof.
  intros Htop Hempty Hclock Hcenter. destruct (topology_leaves _ _ Htop) as [Hnd Hids]. split.
  - intros r Hr. rewrite <-Hids in Hempty.
    destruct (cycle_valid clock c n r Hclock Hnd Hempty Hcenter Hr) as (H1 & H2 & H3 & _ & H4). done.
  - intros t l1 Htr Hrun Hserved.
    destruct (served_leaves_run clock c t n Htr) as (rs & Hrs & Hf); [intros id Hid; by apply Hserved, Hids|].
    destruct (l1_proof_spec clock (ct_intent_id c) l1 (Hcenter _ Hrun) Hclock) as (p & Hp & Hcp).
    pose proof (leaf_pairs_NoDup _ _ _ _ Hrs Hnd) as Hnd'.
    set (peers := (fun lr => (lr_peer_id lr, lr_proof_report lr)) <$> rs) in *.
    destruct (attach_returns clock (with_peer p (tp_center_peer_id (ct_topology c))) peers) as [cp Ha].
    { apply (cp_plain _ _ Hcp). }
    { apply Forall_fmap. eapply Forall_impl; [exact Hf|]. intros r (H1 & H2 & _). split; [done|by apply settled_hash]. }
    assert (verify_peer_chain cp peers = Ok (true, [])) as Hok.
    { refine (attached_verifies _ _ _ _ (cp_plain _ _ Hcp : Forall _ (pf_evidence_chain (with_peer p _))) Hnd' _ Ha).
      apply Forall_fmap. eapply Forall_impl; [exact Hf|]. by intros r (H1 & _). }
    unfold run_network_cycle, build_center_proof. rewrite Hrs. cbn [mbind res_bind]. rewrite Hrun. cbn [mbind res_bind].
    rewrite Hp. cbn [mbind res_bind]. fold peers. rewrite Ha. cbn [mbind res_bind].
    rewrite (dict_update_fresh peers) by exact Hnd'. rewrite Hok. cbn [mbind res_bind]. eexists. split; [reflexivity|].
    cbn [nc_aggregated_escalation].
    assert (omap (fun lr => e ← lr_escalation lr; Some (lr_peer_id lr, Some e)) rs = []) as ->; [|done].
    clear -Hf. induction Hf as [|r rs (_ & _ & Hr) _ IH]; [done|]. csimpl. by rewrite Hr.
Qed.

(** ** Verdicts *)

Definition denies (d : list (string * json)) : Prop := truthy (get_or "allowed" (JBool true) d) = false.

(** A cycle fails exactly when its execution failed, a property failed or an
    effect was denied; it is inconclusive when nothing was checked. *)
Theorem verdict_spec {PT : PyText} summary k decisions v reason :
  _determine_verdict summary k decisions = Ok (v, reason) →
  (v = FAIL ↔ py_eq (get_or "status" (JStr "") summary) (JStr "failed") = true ∨
              ((0 < kv_properties_checked k)%Z ∧ kv_verified k = false) ∨ Exists denies decisions) ∧
  (v = INCONCLUSIVE ↔ v ≠ FAIL ∧ kv_properties_checked k = 0%Z ∧ decisions = []).
Proof.
  unfold _determine_verdict. set (status := get_or "status" (JStr "") summary).
  assert (∀ a b : string, py_eq status (JStr a) = true → a ≠ b → py_eq status (JStr b) = false) as Hexcl.
  { intros a b Ha Hab. destruct status; try done. simpl in *. apply String.eqb_eq in Ha as ->. by apply String.eqb_neq. }
  set (denied := filter _ decisions).
  assert (Exists denies decisions ↔ denied ≠ []) as Hden.
  { unfold denied. rewrite Exists_exists. split.
    - intros (d & Hd & Hdd) Hnil. apply (not_elem_of_nil d). rewrite <-Hnil. by apply list_elem_of_filter.
    - intros Hne. destruct (filter _ decisions) as [|d l] eqn:Hf; [done|]. exists d.
      assert (d ∈ filter (fun d => truthy (get_or "allowed" (JBool true) d) = false) decisions) as Hd by (rewrite Hf; left).
      apply list_elem_of_filter in Hd as [??]. done. }
  destruct (if py_eq status (JStr "succeeded") then _ else _) as [reason1 failed1] eqn:H1.
  assert (failed1 = true ↔ py_eq status (JStr "failed") = true) as Hf1.
  { destruct (py_eq status (JStr "succeeded")) eqn:E1.
    - rewrite (Hexcl "succeeded" "failed") by done. by injection H1 as <- <-.
    - destruct (py_eq status (JStr "failed")) eqn:E2; [by injection H1 as <- <-|].
      destruct (py_eq status (JStr "partial")); by injection H1 as <- <-. }
  clear H1. rewrite <-Hf1, Hden.
  destruct (match denied with [] => _ | _ => _ end) as [reasons3 failed3] eqn:H3.
  assert (failed3 = true ↔ denied ≠ []) as Hf3 by (destruct denied, decisions; injection H3 as <- <-; done).
  clear H3 Hden. rewrite <-Hf3. intros H. inv_ok. rename a into r2.
  assert (r2.2 = true ↔ (0 < kv_properties_checked k)%Z ∧ kv_verified k = false) as Hf2.
  { destruct (0 <? kv_properties_checked k)%Z eqn:Hc; [apply Z.ltb_lt in Hc|apply Z.ltb_ge in Hc].
    - destruct (kv_verified k); [by simplify_eq/=; naive_solver|]. inv_ok. subst r2. simpl. naive_solver.
    - simplify_eq/=. split; [done|]. intros [? _]. lia. }
  rewrite <-Hf2. clear -H. destruct failed1, r2 as [? []], failed3; cbn in H; simplify_eq; cbn [snd]; try (intuition congruence).
  destruct (Z.eqb_spec (kv_properties_checked k) 0); case_bool_decide; cbn in H; simplify_eq;
    cbn [snd]; intuition congruence.
Qed.

(** ** Differences of snapshots *)

Definition metric (snap : list (string * json)) (key : string) : option json := alookup key (_extract_metrics snap).

(** What a key is in a difference. *)
Definition key_in_diff (pre post : list (string * json)) (d : SnapshotDiff) (key : string) : Prop :=
  match alookup key pre, alookup key post with
  | None, Some _ => key ∈ df_added d ∧ (key ∉ df_removed d) ∧ (key ∉ (sd_key <$> df_changed d))
  | Some _, None => (key ∉ df_added d) ∧ key ∈ df_removed d ∧ (key ∉ (sd_key <$> df_changed d))
  | Some p, Some q =>
      (key ∉ df_added d) ∧ (key ∉ df_removed d) ∧ (key ∈ (sd_key <$> df_changed d) ↔ py_eq p q = false)
  | None, None => (key ∉ df_added d) ∧ (key ∉ df_removed d) ∧ (key ∉ (sd_key <$> df_changed d))
  end.

Section diffs.
Context {PT : PyText}.

Lemma diff_keys_in pre post keys d : diff_keys pre post keys = Ok d →
  ∀ key, (key ∈ df_added d ∨ key ∈ df_removed d ∨ key ∈ (sd_key <$> df_changed d)) → key ∈ keys.
Proof.
  revert d. induction keys as [|k keys IH]; intros d Hd key; cbn [diff_keys] in Hd; [simplify_eq/=; set_solver|].
  inv_ok. subst d. rename a into here, a0 into rest. cbn [df_added df_removed df_changed]. rewrite fmap_app, !elem_of_app.
  match goal with H : diff_keys _ _ _ = Ok rest |- _ => specialize (IH rest H key) end.
  match goal with H : diff_key _ _ _ = Ok here |- _ => unfold diff_key in H end.
  repeat case_match; inv_ok; simplify_eq/=; set_solver.
Qed.

Lemma diff_keys_spec pre post keys d : NoDup keys → diff_keys pre post keys = Ok d →
  ∀ key, key ∈ keys → is_Some (alookup key pre) ∨ is_Some (alookup key post) → key_in_diff pre post d key.
Proof.
  revert d. induction keys as [|k keys IH]; intros d Hnd Hd key Hin Hsome; [set_solver|]. cbn [diff_keys] in Hd.
  apply NoDup_cons in Hnd as [Hk Hnd]. inv_ok. subst d. rename a into here, a0 into rest.
  match goal with H : diff_keys _ _ _ = Ok rest |- _ => pose proof (diff_keys_in _ _ _ _ H) as Hrest;
    specialize (IH rest Hnd H) end.
  match goal with H : diff_key _ _ _ = Ok here |- _ => rename H into Hh; unfold diff_key in Hh end.
  apply elem_of_cons in Hin as [->|Hin].
  - assert ((k ∉ df_added rest) ∧ (k ∉ df_removed rest) ∧ (k ∉ (sd_key <$> df_changed rest))) as (H1 & H2 & H3) by naive_solver.
    unfold key_in_diff. cbn [df_added df_removed df_changed].
    destruct (alookup k pre) as [p|], (alookup k post) as [q|]; rewrite ?fmap_app, ?elem_of_app;
      [|simplify_eq/=; set_solver..|by destruct Hsome as [[]|[]]].
    destruct (py_eq p q) eqn:Hpq; [simplify_eq/=; set_solver|]. inv_ok. simplify_eq/=. set_solver.
  - specialize (IH key Hin Hsome). assert (key ≠ k) as Hne by (by intros ->).
    assert ((key ∉ df_added here) ∧ (key ∉ df_removed here) ∧ (key ∉ (sd_key <$> df_changed here))) as (H1 & H2 & H3).
    { clear -Hh Hne. repeat case_match; inv_ok; simplify_eq/=; set_solver. }
    unfold key_in_diff in *. cbn [df_added df_removed df_changed].
    destruct (alookup key pre), (alookup key post); rewrite fmap_app, !elem_of_app; naive_solver.
Qed.

(** Every metric of either snapshot is added, removed, changed or the same. *)
Theorem diff_snapshots_spec pre post d key :
  diff_snapshots pre post = Ok d → is_Some (metric pre key) ∨ is_Some (metric post key) →
  key_in_diff (_extract_metrics pre) (_extract_metrics post) d key.
Proof.
  intros Hd Hs. unfold diff_snapshots in Hd. eapply diff_keys_spec; [|exact Hd| |exact Hs].
  - unfold sort_strings. rewrite merge_sort_Permutation. apply NoDup_append_new, NoDup_append_new. constructor.
  - rewrite elem_of_sort_strings, !elem_of_append_new.
    assert (∀ m : list (string * json), is_Some (alookup key m) → key ∈ m.*1) as Hkey.
    { intros m [v Hv%alookup_elem_of]. by apply (list_elem_of_fmap_2 fst _ (key, v)). }
    destruct Hs as [Hs|Hs]; [left; right|right]; by apply Hkey.
Qed.
End diffs.

(** ** Examples *)

(** A hash without collisions, to evaluate with. *)
Lemma bits_no_colon p : str_forall (fun c => negb (Ascii.eqb c ":")) (bits p) = true.
Proof. induction p as [p IH|p IH|]; simpl; done. Qed.

Definition number_hash : ProofHash.
Proof.
  refine {| json_text v := bits (encode v); sha256 s := bits (encode s) |}.
  intros s. split; [apply bits_text|apply bits_no_colon].
Defined.

Lemma number_hash_inj : @InjProofHash number_hash.
Proof. split; intros v w Heq; simpl in Heq; by apply bits_inj, encode_inj in Heq. Qed.

(** The hash of a report does not cover its snapshots, and the check of peer
    evidence compares the hash that a leaf's report carries: a leaf whose
    snapshot was changed still verifies. *)
Definition with_snapshots (r : ProofReport) (pre post : list (string * json)) : ProofReport :=
  mkProof (pf_report_id r) (pf_intent_id r) (pf_cycle_id r) pre post (pf_execution_summary r) (pf_kripke_verdict r)
    (pf_evidence_chain r) (pf_policy_decisions r) (pf_overall_verdict r) (pf_verdict_reason r) (pf_created_at r)
    (pf_report_hash r) (pf_peer_node_id r) (pf_peer_chain_ref r).

Lemma changed_leaf_verifies {PT : PyText} {PH : ProofHash} center id leaf pre post :
  verify_peer_chain center [(id, with_snapshots leaf pre post)] = verify_peer_chain center [(id, leaf)].
Proof. reflexivity. Qed.

(** An execution without a report passes when an effect was allowed. *)
Lemma no_report_passes :
  fst <$> _determine_verdict (PT := plain_text) [("status", JStr "no_report")] no_kripke [[("allowed", JBool true)]] = Ok PASS.
Proof. reflexivity. Qed.

Definition example_result (id : string) : L1CycleResult := mkL1 id (JObj []) (JObj [("status", JStr "succeeded")]) JNull.

Definition example_runner (id : string) (n : Z) : res L1CycleResult := Ok (example_result id).

Definition example_clock (n : nat) : string := "2026-01-01".

Definition example_transport : InProcessTransport :=
  inprocess_new []
    [("leaf", make_leaf_cycle_handler (PT := plain_text) (PH := number_hash) example_clock (example_runner "l-1") "leaf" "intent")].

Definition example_controller : NetworkController :=
  mkNetController (mkTopology "net" "center" "center" "file_queue" [("leaf", mkLeafEdge "leaf" ["kpi"])])
    (fun peer env _ => inprocess_request example_transport peer env) (example_runner "c-1") "intent".

Lemma example_readable id : readable (example_result id).
Proof. by exists [], [("status", JStr "succeeded")], [], []. Qed.

Lemma network_cycle_witness :
  ∃ r, run_network_cycle (PT := plain_text) (PH := number_hash) example_clock example_controller 1 = Ok r ∧
       nc_aggregated_escalation r = None.
Proof.
  refine (proj2 (network_cycle (PT := plain_text) (PH := number_hash) star_network example_clock example_controller 1
    eq_refl _ _ _) example_transport (example_result "c-1") _ eq_refl _).
  - by intros ?%list_elem_of_singleton.
  - done.
  - intros l1 [= <-]. apply example_readable.
  - done.
  - intros id ->%list_elem_of_singleton. split; [done|].
    exists example_clock, (example_runner "l-1"), "intent", (example_result "l-1").
    split_and!; [done..|apply example_readable].
Defined.
