(* ===== verification/Binlog.v ===== *)
(** * The binary event log ([tm/storage/binlog.py])

    Records are framed with a magic number, a version, the length of the body
    as a variable-length integer and a CRC-32, and appended to segment files.
    The reader scans the segments in the order of their names and stops in a
    segment at the first frame that is incomplete or wrong.  Bytes are
    integers below 256; a file holds what was written to it, whether or not it
    was flushed. *)

From S2P Require Import Prelude PyVal PyConv.
From stdpp Require Import base gmap strings list pretty sorting.
From Stdlib Require Import ZArith Lia Ascii.

Local Open Scope Z_scope.

Abbreviation bytes := (list Z) (only parsing).

(** ** Variable-length integers *)

Definition MAGIC : bytes := [84; 77; 71; 49].
Definition VER : Z := 1.

Fixpoint varint_loop (fuel : nat) (n : Z) : bytes :=
  match fuel with
  | O => []
  | S fuel =>
      let b := Z.land n 127 in
      let n := Z.shiftr n 7 in
      if n =? 0 then [b] else Z.lor b 128 :: varint_loop fuel n
  end.

(** A length takes one round per seven bits. *)
Definition _varint_encode (n : Z) : bytes := varint_loop (S (Z.to_nat (Z.log2 n))) n.

(** The integer at the front of the buffer, and what follows it. *)
Fixpoint varint_from (buf : bytes) (shift out : Z) : res (Z * list Z) :=
  match buf with
  | [] => Raise (IndexError "index out of bounds on dimension 1")
  | b :: buf =>
      let out := Z.lor out (Z.shiftl (Z.land b 127) shift) in
      if Z.land b 128 =? 0 then Ok (out, buf) else varint_from buf (shift + 7) out
  end.

Definition _varint_decode (buf : bytes) : res (Z * list Z) := varint_from buf 0 0.

(** ** CRC-32 *)

Definition crc_bit (c : Z) : Z :=
  if Z.testbit c 0 then Z.lxor (Z.shiftr c 1) 3988292384 else Z.shiftr c 1.

Definition crc_byte (c b : Z) : Z := Nat.iter 8 crc_bit (Z.lxor c b).

(** [zlib.crc32(data)]. *)
Definition crc32 (data : bytes) : Z := Z.lxor (foldl crc_byte 4294967295 data) 4294967295.

(** [n.to_bytes(4, "big")] and [int.from_bytes(b, "big")]. *)
Definition to_bytes4 (n : Z) : bytes :=
  [Z.shiftr n 24 mod 256; Z.shiftr n 16 mod 256; Z.shiftr n 8 mod 256; n mod 256].

Definition from_bytes (b : bytes) : Z := foldl (fun acc x => acc * 256 + x) 0 b.

(** ** Text *)

(** [text.encode("utf-8")]: texts are kept as their UTF-8 bytes. *)
Fixpoint encode_text (s : string) : bytes :=
  match s with EmptyString => [] | String c s => Z.of_N (N_of_ascii c) :: encode_text s end.

Fixpoint text_bytes (b : bytes) : string :=
  match b with [] => EmptyString | x :: b => String (ascii_of_N (Z.to_N x)) (text_bytes b) end.

Definition within (lo hi x : Z) : bool := (lo <=? x) && (x <=? hi).
Definition tail_byte (x : Z) : bool := within 128 191 x.

(** Well-formed UTF-8, with the lengths and ranges of RFC 3629. *)
Fixpoint utf8_ok (b : bytes) : bool :=
  match b with
  | [] => true
  | x :: b1 =>
      if within 0 127 x then utf8_ok b1
      else
        match b1 with
        | y :: b2 =>
            if within 194 223 x then tail_byte y && utf8_ok b2
            else
              match b2 with
              | z :: b3 =>
                  if within 224 239 x then
                    within (if x =? 224 then 160 else 128) (if x =? 237 then 159 else 191) y && tail_byte z && utf8_ok b3
                  else
                    match b3 with
                    | w :: b4 =>
                        within 240 244 x &&
                        within (if x =? 240 then 144 else 128) (if x =? 244 then 143 else 191) y &&
                        tail_byte z && tail_byte w && utf8_ok b4
                    | [] => false
                    end
              | [] => false
              end
        | [] => false
        end
  end.

(** [body.decode("utf-8")]. *)
Definition decode_text (b : bytes) : res string :=
  if utf8_ok b then Ok (text_bytes b) else Raise (ValueError "invalid utf-8").

(** ** Frames *)

Abbreviation record := (string * list Z)%type (only parsing).

Definition body_of (r : record) : bytes :=
  let etb := encode_text r.1 in _varint_encode (Z.of_nat (length etb)) ++ etb ++ r.2.

Definition frame_of (r : record) : bytes :=
  let body := body_of r in MAGIC ++ [VER] ++ _varint_encode (Z.of_nat (length body)) ++ body.

Definition chunk_of (r : record) : bytes :=
  let frame := frame_of r in frame ++ to_bytes4 (Z.land (crc32 frame) 4294967295).

(** ** The writer *)

Record BinaryLogWriter : Type := mkLogWriter {
  bw_open : bool;
  bw_path : string;
  bw_size : Z;
  bw_seg_bytes : Z
}.

(** A directory: its files by name. *)
Abbreviation folder := (list (string * list Z)) (only parsing).

Definition segment_name (ts : Z) : string := "events-" +:+ pretty ts +:+ ".tmbl".

(** [open(path, "ab")]: the file is made, or kept as it is. *)
Definition touch (name : string) (dir : folder) : folder :=
  match alookup name dir with Some _ => dir | None => dir ++ [(name, [])] end.

Definition append_to (name : string) (data : bytes) (dir : folder) : folder :=
  dict_set name (default [] (alookup name dir) ++ data) dir.

Definition _open_new_segment (seg_bytes ts : Z) (dir : folder) : BinaryLogWriter * list (string * list Z) :=
  (mkLogWriter true (segment_name ts) 0 seg_bytes, touch (segment_name ts) dir).

Definition log_writer (seg_bytes ts : Z) (dir : folder) : BinaryLogWriter * list (string * list Z) :=
  _open_new_segment seg_bytes ts dir.

(** [ts] is the second in which a new segment is opened, if one is. *)
Definition append_many (w : BinaryLogWriter) (dir : folder) (records : list record) (ts : Z)
  : res (BinaryLogWriter * list (string * list Z)) :=
  if negb (bw_open w) then Raise (RuntimeError "binary log writer is closed")
  else
    let blob := mjoin (chunk_of <$> records) in
    let dir := append_to (bw_path w) blob dir in
    let size := bw_size w + Z.of_nat (length blob) in
    if bw_seg_bytes w <=? size then Ok (_open_new_segment (bw_seg_bytes w) ts dir)
    else Ok (mkLogWriter true (bw_path w) size (bw_seg_bytes w), dir).

Definition log_close (w : BinaryLogWriter) : BinaryLogWriter :=
  mkLogWriter false (bw_path w) (bw_size w) (bw_seg_bytes w).

(** ** The reader *)

(** What a scan yields, and the exception that ends it early. *)
Abbreviation scanned := (list (string * list Z) * option exn)%type (only parsing).

Definition read_body (body : bytes) : res record :=
  d ← _varint_decode body;
  et ← decode_text (take (Z.to_nat d.1) d.2);
  Ok (et, drop (Z.to_nat d.1) d.2).

(** The frames from [data] on; each round takes at least nine bytes. *)
Fixpoint scan_frames (fuel : nat) (data : bytes) : scanned :=
  match fuel with
  | O => ([], None)
  | S fuel =>
      if (length data <? 9)%nat then ([], None)
      else if negb (bool_decide (take 4 data = MAGIC)) then ([], None)
      else
        match _varint_decode (drop 5 data) with
        | Raise e => ([], Some e)
        | Ok (blen, rest) =>
            if Z.of_nat (length rest) <? blen + 4 then ([], None)
            else
              let n := Z.to_nat blen in
              let frame := take (length data - length rest + n) data in
              let body := take n rest in
              let crc := from_bytes (take 4 (drop n rest)) in
              if negb (Z.land (crc32 frame) 4294967295 =? crc) then ([], None)
              else
                match read_body body with
                | Raise e => ([], Some e)
                | Ok r => let '(rs, e) := scan_frames fuel (drop (n + 4) rest) in (r :: rs, e)
                end
        end
  end.

Definition scan_file (data : bytes) : scanned := scan_frames (S (length data)) data.

Fixpoint ends_with (suffix s : string) : bool :=
  String.eqb s suffix || match s with EmptyString => false | String _ s => ends_with suffix s end.

Fixpoint scan_files (files : folder) : scanned :=
  match files with
  | [] => ([], None)
  | (name, data) :: files =>
      if negb (ends_with ".tmbl" name) then scan_files files
      else
        match scan_file data with
        | (rs, Some e) => (rs, Some e)
        | (rs, None) => let '(rs', e) := scan_files files in (rs ++ rs', e)
        end
  end.

(** [BinaryLogReader(dir).scan()]. *)
Definition scan_log (dir : folder) : scanned := scan_files (sort_items dir).

(** ** Integers read back *)

Lemma land_127 n : 0 ≤ n → Z.land n 127 = n mod 128.
Proof. intros Hn. change 127 with (Z.ones 7). by rewrite Z.land_ones by lia. Qed.

Lemma last_byte n : Z.land (Z.land n 127) 128 = 0.
Proof. rewrite <-Z.land_assoc. apply Z.land_0_r. Qed.

Lemma more_byte b : (Z.land (Z.lor (Z.land b 127) 128) 128 =? 0) = false.
Proof. rewrite Z.land_lor_distr_l, last_byte. done. Qed.

Lemma more_bits b : Z.land (Z.lor (Z.land b 127) 128) 127 = Z.land b 127.
Proof. rewrite Z.land_lor_distr_l, <-Z.land_assoc. by rewrite Z.lor_0_r. Qed.

Lemma split_bits n s : 0 ≤ s →
  Z.lor (Z.shiftl (Z.land n 127) s) (Z.shiftl (Z.shiftr n 7) (s + 7)) = Z.shiftl n s.
Proof.
  intros Hs. apply Z.bits_inj'. intros k Hk. rewrite Z.lor_spec, !Z.shiftl_spec by lia. change 127 with (Z.ones 7).
  rewrite Z.land_spec. destruct (Z.lt_ge_cases (k - s) 0).
  - rewrite !Z.testbit_neg_r by lia. done.
  - destruct (Z.lt_ge_cases (k - s) 7).
    + rewrite Z.ones_spec_low by lia. rewrite (Z.testbit_neg_r _ (k - (s + 7))) by lia. by rewrite andb_true_r, orb_false_r.
    + rewrite Z.ones_spec_high by lia. rewrite Z.shiftr_spec by lia. rewrite andb_false_r, orb_false_l. f_equal. lia.
Qed.

Lemma varint_loop_back fuel n shift out rest :
  0 ≤ n < 2 ^ (7 * Z.of_nat fuel) → (0 < fuel)%nat → 0 ≤ shift →
  varint_from (varint_loop fuel n ++ rest) shift out = Ok (Z.lor out (Z.shiftl n shift), rest).
Proof.
  revert n shift out. induction fuel as [|fuel IH]; intros n shift out [Hn Hlt] Hf Hs; [lia|]. cbn [varint_loop].
  destruct (Z.eqb_spec (Z.shiftr n 7) 0) as [H0|H0].
  - cbn [app varint_from]. rewrite last_byte. cbn [Z.eqb]. rewrite <-(split_bits n shift Hs), H0, Z.shiftl_0_l, Z.lor_0_r.
    by rewrite <-Z.land_assoc.
  - cbn [app varint_from]. rewrite more_byte, more_bits. rewrite Z.shiftr_div_pow2 in H0 by lia.
    assert (0 ≤ Z.shiftr n 7 < 2 ^ (7 * Z.of_nat fuel)) as Hlt'.
    { rewrite Z.shiftr_div_pow2 by lia. split; [apply Z.div_pos; lia|]. apply Z.div_lt_upper_bound; [lia|].
      rewrite <-Z.pow_add_r by lia. by replace (7 + 7 * Z.of_nat fuel) with (7 * Z.of_nat (S fuel)) by lia. }
    rewrite IH; [|done| |lia].
    + by rewrite <-Z.lor_assoc, split_bits.
    + destruct fuel; [|lia]. change (2 ^ (7 * Z.of_nat 0)) with 1 in Hlt'. rewrite Z.shiftr_div_pow2 in Hlt' by lia. lia.
Qed.

Lemma log2_rounds n : 0 ≤ n → 0 ≤ n < 2 ^ (7 * Z.of_nat (S (Z.to_nat (Z.log2 n)))).
Proof.
  intros Hn. split; [done|]. pose proof (Z.log2_nonneg n). destruct (Z.eq_dec n 0) as [->|]; [done|].
  apply Z.lt_le_trans with (2 ^ Z.succ (Z.log2 n)); [apply Z.log2_spec; lia|]. apply Z.pow_le_mono_r; lia.
Qed.

Lemma varint_back n rest : 0 ≤ n → _varint_decode (_varint_encode n ++ rest) = Ok (n, rest).
Proof.
  intros Hn. unfold _varint_decode, _varint_encode. rewrite varint_loop_back; [|by apply log2_rounds|lia|lia].
  by rewrite Z.lor_0_l, Z.shiftl_0_r.
Qed.

(** The bytes an integer takes. *)
Lemma varint_loop_length fuel n k :
  0 ≤ n < 2 ^ (7 * Z.of_nat k) → (0 < k)%nat → (length (varint_loop fuel n) ≤ k)%nat.
Proof.
  revert n k. induction fuel as [|fuel IH]; intros n k Hn Hk; cbn [varint_loop]; [simpl; lia|].
  destruct (Z.eqb_spec (Z.shiftr n 7) 0) as [H0|H0]; cbn [length]; [lia|]. destruct k as [|k]; [lia|].
  rewrite Z.shiftr_div_pow2 in * by lia. apply le_n_S, IH.
  - split; [apply Z.div_pos; lia|]. apply Z.div_lt_upper_bound; [lia|]. rewrite <-Z.pow_add_r by lia.
    replace (7 + 7 * Z.of_nat k) with (7 * Z.of_nat (S k)) by lia. apply Hn.
  - destruct k; [|lia]. change (2 ^ (7 * Z.of_nat 1)) with 128 in Hn. change (2 ^ 7) with 128 in H0. exfalso. apply H0. apply Z.div_small. lia.
Qed.

(** ** Checksums and texts read back *)

Lemma bytes4_back n : 0 ≤ n < 2 ^ 32 → from_bytes (to_bytes4 n) = n.
Proof.
  intros Hn. unfold from_bytes, to_bytes4. cbn [foldl]. rewrite !Z.shiftr_div_pow2 by lia.
  change (2 ^ 32) with 4294967296 in Hn. change (2 ^ 24) with (256 * 256 * 256). change (2 ^ 16) with (256 * 256).
  change (2 ^ 8) with 256. rewrite <-!Z.div_div by lia.
  pose proof (Z.div_mod n 256 ltac:(lia)). pose proof (Z.div_mod (n / 256) 256 ltac:(lia)).
  pose proof (Z.div_mod (n / 256 / 256) 256 ltac:(lia)). rewrite (Z.mod_small (n / 256 / 256 / 256)); [lia|].
  rewrite !Z.div_div by lia. split; [apply Z.div_pos; lia|apply Z.div_lt_upper_bound; lia].
Qed.

Lemma crc_range c : 0 ≤ Z.land c 4294967295 < 2 ^ 32.
Proof. change 4294967295 with (Z.ones 32). rewrite Z.land_ones by lia. apply Z.mod_pos_bound. lia. Qed.

Lemma text_back s : text_bytes (encode_text s) = s.
Proof. induction s as [|c s IH]; [done|]. cbn [encode_text text_bytes]. by rewrite N2Z.id, ascii_N_embedding, IH. Qed.

(** ** Frames read back *)

Definition utf8_record (r : record) : Prop := utf8_ok (encode_text r.1) = true.

Lemma read_body_back r : utf8_record r → read_body (body_of r) = Ok r.
Proof.
  intros Hu. unfold read_body, body_of. rewrite varint_back by lia. cbn [mbind res_bind fst snd]. rewrite Nat2Z.id.
  rewrite take_app_length, drop_app_length. unfold decode_text. rewrite Hu. cbn [mbind res_bind]. rewrite text_back. by destruct r.
Qed.

Lemma chunk_length r : (9 ≤ length (chunk_of r))%nat.
Proof.
  unfold chunk_of, frame_of, body_of, _varint_encode, to_bytes4, MAGIC. rewrite !length_app. cbn [length varint_loop].
  destruct (Z.shiftr _ 7 =? 0); cbn [length]; lia.
Qed.

Lemma scan_chunk fuel r data :
  utf8_record r →
  scan_frames (S fuel) (chunk_of r ++ data) = let '(rs, e) := scan_frames fuel data in (r :: rs, e).
Proof.
  intros Hu. cbn [scan_frames].
  assert ((length (chunk_of r ++ data) <? 9)%nat = false) as ->.
  { apply Nat.ltb_ge. rewrite length_app. pose proof (chunk_length r). lia. }
  set (v := _varint_encode (Z.of_nat (length (body_of r)))).
  set (crc := to_bytes4 (Z.land (crc32 (frame_of r)) 4294967295)).
  assert (chunk_of r ++ data = MAGIC ++ [VER] ++ v ++ body_of r ++ crc ++ data) as Hdata.
  { unfold chunk_of, frame_of. fold v. rewrite <-!app_assoc. done. }
  rewrite Hdata. change (take 4 (MAGIC ++ [VER] ++ v ++ body_of r ++ crc ++ data)) with MAGIC.
  rewrite bool_decide_eq_true_2 by done. cbn [negb].
  change (drop 5 (MAGIC ++ [VER] ++ v ++ body_of r ++ crc ++ data)) with (v ++ body_of r ++ crc ++ data).
  unfold v at 1. rewrite varint_back by lia. rewrite Nat2Z.id.
  assert (length crc = 4%nat) as Hcrc by done.
  rewrite (proj2 (Z.ltb_ge _ _)) by (rewrite !length_app, Hcrc; lia).
  rewrite (take_app_length (body_of r)), (drop_app_length (body_of r)).
  rewrite (take_app_length' crc) by done.
  assert (from_bytes crc = Z.land (crc32 (frame_of r)) 4294967295) as -> by (apply bytes4_back, crc_range).
  assert (take (length (MAGIC ++ [VER] ++ v ++ body_of r ++ crc ++ data) - length (body_of r ++ crc ++ data) + length (body_of r))
            (MAGIC ++ [VER] ++ v ++ body_of r ++ crc ++ data) = frame_of r) as ->.
  { unfold frame_of. fold v.
    replace (MAGIC ++ [VER] ++ v ++ body_of r ++ crc ++ data) with ((MAGIC ++ [VER] ++ v ++ body_of r) ++ crc ++ data)
      by (by rewrite <-!app_assoc).
    apply take_app_length'. rewrite !length_app. lia. }
  rewrite Z.eqb_refl. cbn [negb]. rewrite read_body_back by done.
  replace (length (body_of r) + 4)%nat with (length (body_of r ++ crc)) by (rewrite length_app; lia).
  rewrite app_assoc, drop_app_length. done.
Qed.

(** A cut in front of the end of a chunk ends the scan without an error. *)
Lemma scan_torn fuel r k :
  Z.of_nat (length (body_of r)) < 2 ^ 28 → (k < length (chunk_of r))%nat →
  scan_frames fuel (take k (chunk_of r)) = ([], None).
Proof.
  intros Hb Hk. destruct fuel as [|fuel]; [done|]. cbn [scan_frames]. rewrite length_take, Nat.min_l by lia.
  destruct (Nat.ltb_spec k 9) as [|Hk9]; [done|].
  set (v := _varint_encode (Z.of_nat (length (body_of r)))).
  assert (length v ≤ 4)%nat as Hv. { apply (varint_loop_length _ _ 4); [|lia]. change (7 * Z.of_nat 4) with 28. lia. }
  set (tail := body_of r ++ to_bytes4 (Z.land (crc32 (frame_of r)) 4294967295)).
  assert (chunk_of r = (MAGIC ++ [VER] ++ v) ++ tail) as Hc.
  { unfold chunk_of, frame_of, tail. fold v. rewrite <-!app_assoc. done. }
  assert (take k (chunk_of r) = MAGIC ++ [VER] ++ v ++ take (k - length (MAGIC ++ [VER] ++ v)) tail) as ->.
  { rewrite Hc, take_app, take_ge by (rewrite !length_app; cbn [length MAGIC]; lia). by rewrite <-!app_assoc. }
  set (rest := take _ tail).
  change (take 4 (MAGIC ++ [VER] ++ v ++ rest)) with MAGIC. rewrite bool_decide_eq_true_2 by done. cbn [negb].
  change (drop 5 (MAGIC ++ [VER] ++ v ++ rest)) with (v ++ rest). unfold v at 1. rewrite varint_back by lia.
  rewrite (proj2 (Z.ltb_lt _ _)); [done|]. unfold rest. rewrite length_take.
  rewrite Hc, length_app in Hk. assert (length tail = length (body_of r) + 4)%nat as Ht by (unfold tail; rewrite length_app; done).
  lia.
Qed.

Definition small_record (r : record) : Prop := utf8_record r ∧ Z.of_nat (length (body_of r)) < 2 ^ 28.

Lemma scan_nothing fuel : scan_frames fuel [] = ([], None).
Proof. by destruct fuel. Qed.

(** A file cut anywhere yields the records before the cut. *)
Lemma scan_cut fuel rs k :
  Forall small_record rs → (length (take k (mjoin (chunk_of <$> rs))) < fuel)%nat →
  ∃ j, scan_frames fuel (take k (mjoin (chunk_of <$> rs))) = (take j rs, None) ∧
       (length (mjoin (chunk_of <$> rs)) ≤ k → j = length rs)%nat.
Proof.
  intros Hrs. revert fuel k. induction Hrs as [|r rs [Hu Hb] _ IH]; intros fuel k Hfuel.
  { exists 0%nat. csimpl. rewrite take_nil, scan_nothing. done. }
  change (mjoin (chunk_of <$> r :: rs)) with (chunk_of r ++ mjoin (chunk_of <$> rs)) in *. destruct (Nat.lt_ge_cases k (length (chunk_of r))) as [Hk|Hk].
  - rewrite take_app_le in * by lia. exists 0%nat. rewrite scan_torn by done. split; [done|]. rewrite length_app. lia.
  - rewrite take_app_ge in * by lia. destruct fuel as [|fuel]; [lia|]. rewrite scan_chunk by done.
    rewrite length_app in Hfuel. pose proof (chunk_length r).
    destruct (IH fuel (k - length (chunk_of r))%nat) as (j & -> & Hj); [lia|]. exists (S j). split; [done|].
    rewrite length_app. cbn [length]. intros. rewrite Hj; lia.
Qed.

Lemma scan_file_cut rs k :
  Forall small_record rs → ∃ j, scan_file (take k (mjoin (chunk_of <$> rs))) = (take j rs, None).
Proof. intros Hrs. destruct (scan_cut (S (length (take k (mjoin (chunk_of <$> rs))))) rs k Hrs) as (j & Hj & _); [lia|]. by exists j. Qed.

Lemma scan_file_back rs : Forall small_record rs → scan_file (mjoin (chunk_of <$> rs)) = (rs, None).
Proof.
  intros Hrs. set (d := mjoin (chunk_of <$> rs)). destruct (scan_cut (S (length d)) rs (length d) Hrs) as (j & Hj & Hlen).
  { rewrite take_ge by (fold d; lia). fold d. lia. }
  unfold scan_file. fold d in Hj. rewrite take_ge in Hj by lia. rewrite Hj, Hlen by (fold d; lia). by rewrite take_ge.
Qed.

(** ** Directories read back *)

(** What the writer made of a directory: the segments it closed with their
    records, and the records of the segment it is at. *)
Definition segment : Type := string * list (string * list Z).

Definition file_of (s : segment) : string * list Z := (s.1, mjoin (chunk_of <$> s.2)).

Record log_at (w : BinaryLogWriter) (dir : folder) (closed : list segment) (cur : list record) : Prop := {
  la_open : bw_open w = true;
  la_dir : dir = (file_of <$> closed) ++ [file_of (bw_path w, cur)];
  la_sorted : StronglySorted str_le (closed.*1 ++ [bw_path w]);
  la_nodup : NoDup (closed.*1 ++ [bw_path w]);
  la_names : Forall (λ n, ends_with ".tmbl" n = true) (closed.*1 ++ [bw_path w])
}.

Lemma file_names segs : (file_of <$> segs).*1 = segs.*1.
Proof. rewrite <-list_fmap_compose. done. Qed.

Lemma ends_with_more a s t : ends_with s t = true → ends_with s (a +:+ t) = true.
Proof. intros Ht. induction a as [|c a IH]; [done|]. simpl. rewrite IH. by rewrite orb_true_r. Qed.

Lemma segment_tmbl ts : ends_with ".tmbl" (segment_name ts) = true.
Proof. by do 2 apply ends_with_more. Qed.

Lemma alookup_at_end {V} (k : string) (v : V) l : k ∉ l.*1 → alookup k (l ++ [(k, v)]) = Some v.
Proof.
  induction l as [|[k' x] l IH]; simpl; [by rewrite decide_True|]. intros Hk. rewrite decide_False by set_solver.
  apply IH. set_solver.
Qed.

Lemma dict_set_at_end {V} (k : string) (v v' : V) l : k ∉ l.*1 → dict_set k v' (l ++ [(k, v)]) = l ++ [(k, v')].
Proof.
  induction l as [|[k' x] l IH]; simpl; [by rewrite decide_True|]. intros Hk. rewrite decide_False by set_solver.
  f_equal. apply IH. set_solver.
Qed.

Lemma join_app {A} (ls ls' : list (list A)) : mjoin (ls ++ ls') = mjoin ls ++ mjoin ls'.
Proof. induction ls as [|l ls IH]; [done|]. simpl. by rewrite IH, app_assoc. Qed.

Lemma join_chunks rs rs' : mjoin (chunk_of <$> rs ++ rs') = mjoin (chunk_of <$> rs) ++ mjoin (chunk_of <$> rs').
Proof. rewrite fmap_app. apply join_app. Qed.

(** Records go to the end of the file the writer is at. *)
Lemma append_at_end w dir closed cur rs :
  log_at w dir closed cur →
  append_to (bw_path w) (mjoin (chunk_of <$> rs)) dir = (file_of <$> closed) ++ [file_of (bw_path w, cur ++ rs)].
Proof.
  intros [_ -> _ Hnd _]. apply NoDup_app in Hnd as (_ & Hni & _).
  assert (bw_path w ∉ (file_of <$> closed).*1) as Hp by (rewrite file_names; set_solver).
  unfold append_to, file_of at 2. cbn [fst snd]. rewrite alookup_at_end by done. cbn [default].
  unfold file_of at 2. cbn [fst snd]. rewrite dict_set_at_end by done. unfold file_of at 3. cbn [fst snd].
  by rewrite join_chunks.
Qed.

(** A new segment is a new file, or the current one when it has its name. *)
Lemma open_segment seg_bytes ts w closed cur dir :
  log_at w dir closed cur → str_le (bw_path w) (segment_name ts) →
  ∃ w' dir' closed' cur', _open_new_segment seg_bytes ts dir = (w', dir') ∧ log_at w' dir' closed' cur' ∧
    bw_path w' = segment_name ts ∧ mjoin closed'.*2 ++ cur' = mjoin closed.*2 ++ cur.
Proof.
  intros [Ho -> Hs Hnd Hn] Hle. unfold _open_new_segment, touch.
  destruct (decide (bw_path w = segment_name ts)) as [He|He].
  - do 2 eexists. exists closed, cur. rewrite <-He. apply NoDup_app in Hnd as Hnd'. destruct Hnd' as (_ & Hni & _).
    unfold file_of at 2. cbn [fst]. rewrite alookup_at_end by (rewrite file_names; set_solver).
    split; [done|]. split; [|done]. by constructor.
  - do 2 eexists. exists (closed ++ [(bw_path w, cur)]), [].
    assert (segment_name ts ∉ closed.*1 ++ [bw_path w]) as Hni.
    { intros [Hin|Hin%list_elem_of_singleton]%elem_of_app; [|done].
      apply StronglySorted_app in Hs as (Hall & _ & _). specialize (Hall _ (bw_path w) Hin ltac:(set_solver)).
      apply He. by apply (anti_symm str_le). }
    assert (alookup (segment_name ts) ((file_of <$> closed) ++ [file_of (bw_path w, cur)]) = None) as ->.
    { apply alookup_None. rewrite fmap_app, file_names. done. }
    split; [done|]. rewrite !fmap_app. cbn [fmap list_fmap fst snd]. split; [|split; [done|]].
    + constructor; cbn [bw_open bw_path]; rewrite ?fmap_app; cbn [fmap list_fmap fst]; [done|done| | |].
      * apply StronglySorted_app. split_and!; [|done|by repeat constructor].
        intros x y Hx ->%list_elem_of_singleton. apply elem_of_app in Hx as [Hx| ->%list_elem_of_singleton]; [|done].
        apply StronglySorted_app in Hs as (Hall & _ & _). transitivity (bw_path w); [|done]. apply Hall; set_solver.
      * apply NoDup_app. split_and!; [done| |apply NoDup_singleton]. intros x Hx ->%list_elem_of_singleton. done.
      * apply Forall_app. split; [done|]. constructor; [apply segment_tmbl|constructor].
    + rewrite app_nil_r. rewrite join_app. simpl. by rewrite app_nil_r.
Qed.

Lemma append_step w dir closed cur rs ts :
  log_at w dir closed cur → str_le (bw_path w) (segment_name ts) →
  ∃ w' dir' closed' cur', append_many w dir rs ts = Ok (w', dir') ∧ log_at w' dir' closed' cur' ∧
    str_le (bw_path w') (segment_name ts) ∧ mjoin closed'.*2 ++ cur' = mjoin closed.*2 ++ cur ++ rs.
Proof.
  intros Hl Hle. unfold append_many. rewrite (la_open _ _ _ _ Hl). cbn [negb]. rewrite (append_at_end _ _ _ _ _ Hl).
  destruct Hl as [Ho _ Hs Hnd Hn]. set (dir' := _ ++ _).
  assert (log_at (mkLogWriter true (bw_path w) (bw_size w + Z.of_nat (length (mjoin (chunk_of <$> rs)))) (bw_seg_bytes w))
            dir' closed (cur ++ rs)) as Hl' by by constructor.
  case_match.
  - destruct (open_segment (bw_seg_bytes w) ts _ _ _ _ Hl' Hle) as (w' & d & c & r & -> & Hat & Hp & Hr).
    exists w', d, c, r. rewrite Hp, Hr. split_and!; [done|done| |done].
    by destruct (str_le_total (segment_name ts) (segment_name ts)).
  - by exists (mkLogWriter true (bw_path w) (bw_size w + Z.of_nat (length (mjoin (chunk_of <$> rs)))) (bw_seg_bytes w)), dir', closed, (cur ++ rs).
Qed.

(** Calls of [append_many], each with the second its rotation would see. *)
Fixpoint append_all (w : BinaryLogWriter) (dir : folder) (batches : list (list record * Z))
  : res (BinaryLogWriter * list (string * list Z)) :=
  match batches with
  | [] => Ok (w, dir)
  | (rs, ts) :: batches => s ← append_many w dir rs ts; append_all s.1 s.2 batches
  end.

Lemma append_all_at batches w dir closed cur :
  log_at w dir closed cur → StronglySorted str_le (bw_path w :: (segment_name <$> batches.*2)) →
  ∃ w' dir' closed' cur', append_all w dir batches = Ok (w', dir') ∧ log_at w' dir' closed' cur' ∧
    mjoin closed'.*2 ++ cur' = mjoin closed.*2 ++ cur ++ mjoin batches.*1.
Proof.
  revert w dir closed cur. induction batches as [|[rs ts] batches IH]; intros w dir closed cur Hl Hs.
  { exists w, dir, closed, cur. simpl. by rewrite app_nil_r. }
  rewrite !fmap_cons in Hs. cbn [fst snd] in Hs. apply StronglySorted_inv in Hs as [Hs' Hall].
  apply Forall_cons in Hall as [Hle _]. apply StronglySorted_inv in Hs' as [Hs' Hall'].
  destruct (append_step w dir closed cur rs ts Hl Hle) as (w1 & d1 & c1 & r1 & Hap & Hl1 & Hp & Hr1).
  destruct (IH w1 d1 c1 r1 Hl1) as (w2 & d2 & c2 & r2 & Hrun & Hl2 & Hr2).
  { constructor; [done|]. eapply Forall_impl; [exact Hall'|]. intros x Hx. by transitivity (segment_name ts). }
  exists w2, d2, c2, r2. cbn [append_all]. rewrite Hap. cbn [mbind res_bind fst snd]. rewrite Hrun.
  split_and!; [done|done|]. rewrite Hr2, app_assoc, Hr1. simpl. by rewrite <-!app_assoc.
Qed.

Lemma sort_items_id {V} (l : list (string * V)) : StronglySorted str_le l.*1 → NoDup l.*1 → sort_items l = l.
Proof.
  intros Hs Hnd. apply (StronglySorted_unique_strong key_le).
  - intros [k1 v1] [k2 v2] H1 H2 H12 H21. unfold key_le in *. simpl in *. assert (k1 = k2) as <- by by apply (anti_symm str_le).
    rewrite sort_items_perm in H1. apply alookup_NoDup in H1, H2; [|done..]. congruence.
  - apply StronglySorted_merge_sort; apply _.
  - clear Hnd. induction l as [|[k v] l IH]; [constructor|]. rewrite fmap_cons in Hs. apply StronglySorted_inv in Hs as [Hs Hall].
    constructor; [by apply IH|]. apply Forall_forall. intros [k' v'] Hin. rewrite Forall_forall in Hall.
    apply Hall. by apply (list_elem_of_fmap_2 fst _ (k', v')).
  - apply sort_items_perm.
Qed.

Lemma scan_closed segs files :
  Forall (λ s : segment, Forall small_record s.2) segs → Forall (λ n, ends_with ".tmbl" n = true) segs.*1 →
  scan_files ((file_of <$> segs) ++ files) = let '(rs, e) := scan_files files in (mjoin segs.*2 ++ rs, e).
Proof.
  intros Hr. induction Hr as [|[n rs] segs Hrs _ IH]; intros Hn.
  { simpl. by destruct (scan_files files). }
  rewrite !fmap_cons in *. apply Forall_cons in Hn as [Hn Hns]. cbn [fst snd] in *. cbn [app scan_files file_of].
  unfold file_of at 1. cbn [fst snd]. rewrite Hn. cbn [negb]. rewrite scan_file_back by done. rewrite IH by done.
  destruct (scan_files files) as [rs' e]. simpl. by rewrite <-app_assoc.
Qed.

Lemma Forall_join_inv {A} (P : A → Prop) (ls : list (list A)) : Forall P (mjoin ls) → Forall (Forall P) ls.
Proof. induction ls as [|l ls IH]; simpl; [constructor|]. intros [Hl Hls]%Forall_app. constructor; [done|by apply IH]. Qed.

(** Scanning the directory with the last segment cut after [k] bytes. *)
Lemma scan_log_cut w dir closed cur k :
  log_at w dir closed cur → Forall small_record (mjoin closed.*2 ++ cur) →
  ∃ j, scan_log ((file_of <$> closed) ++ [(bw_path w, take k (file_of (bw_path w, cur)).2)]) = (mjoin closed.*2 ++ take j cur, None) ∧
       (length (file_of (bw_path w, cur)).2 ≤ k → j = length cur)%nat.
Proof.
  intros [_ _ Hs Hnd Hn] [Hc Hr]%Forall_app. unfold scan_log.
  rewrite sort_items_id by (rewrite fmap_app, file_names; done). apply Forall_app in Hn as [Hn Hp].
  assert (Forall (λ s : segment, Forall small_record s.2) closed) as Hc'.
  { apply Forall_join_inv in Hc. by rewrite Forall_fmap in Hc. }
  rewrite scan_closed by done. apply Forall_cons in Hp as [Hp _]. cbn [scan_files]. rewrite Hp. cbn [negb file_of fst snd].
  destruct (scan_cut (S (length (take k (mjoin (chunk_of <$> cur))))) cur k Hr) as (j & Hj & Hlen); [lia|].
  exists j. unfold scan_file. rewrite Hj. split; [|done]. by rewrite app_nil_r.
Qed.

(** The writer of a fresh directory is at an empty segment. *)
Lemma log_writer_at seg_bytes ts :
  log_at (log_writer seg_bytes ts []).1 (log_writer seg_bytes ts []).2 [] [].
Proof.
  constructor; [done|done| | |]; cbn [log_writer _open_new_segment fst bw_path fmap list_fmap app].
  - repeat constructor.
  - apply NoDup_singleton.
  - constructor; [apply segment_tmbl|constructor].
Qed.

(** C27: Whatever batches are appended to a fresh log directory, with the
    names of its segments in order, a scan reads every record back in the
    order it was written; and when the last segment loses its end at any byte,
    a scan still ends without an error and yields a prefix of the records that
    holds at least those of the segments closed before. *)
Theorem binlog_roundtrip seg_bytes ts batches :
  Forall small_record (mjoin batches.*1) →
  StronglySorted str_le (segment_name <$> ts :: batches.*2) →
  ∃ w closed data,
    append_all (log_writer seg_bytes ts []).1 (log_writer seg_bytes ts []).2 batches = Ok (w, closed ++ [(bw_path w, data)]) ∧
    scan_log (closed ++ [(bw_path w, data)]) = (mjoin batches.*1, None) ∧
    ∀ k, ∃ j, scan_log (closed ++ [(bw_path w, take k data)]) = (take j (mjoin batches.*1), None) ∧
              (length (scan_files closed).1 ≤ j)%nat.
Proof.
  intros Hr Hs. rewrite fmap_cons in Hs.
  destruct (append_all_at batches _ _ [] [] (log_writer_at seg_bytes ts) Hs) as (w & dir & closed & cur & Hrun & Hl & Hall).
  cbn [mjoin list_join fmap list_fmap app] in Hall. rewrite <-Hall in Hr |- *. pose proof (la_dir _ _ _ _ Hl) as ->.
  exists w, (file_of <$> closed), (file_of (bw_path w, cur)).2. split; [exact Hrun|]. split.
  - destruct (scan_log_cut w _ closed cur (length (file_of (bw_path w, cur)).2) Hl Hr) as (j & Hj & Hlen).
    rewrite take_ge in Hj by done. rewrite Hj, Hlen by done. by rewrite take_ge.
  - intros k. destruct (scan_log_cut w _ closed cur k Hl Hr) as (j & Hj & _). rewrite Hj.
    exists (length (mjoin closed.*2) + j)%nat. rewrite take_app_add. split; [done|].
    apply Forall_app in Hr as [Hc _]. apply Forall_join_inv in Hc. rewrite Forall_fmap in Hc.
    rewrite <-(app_nil_r (file_of <$> closed)), scan_closed; [simpl; rewrite app_nil_r; lia|done|].
    destruct Hl as [_ _ _ _ Hn]. by apply Forall_app in Hn as [Hn _].
Qed.

(** Two batches, the first of which fills its segment. *)
Lemma binlog_roundtrip_witness :
  ∃ w closed data,
    append_all (log_writer 20 1700000000 []).1 (log_writer 20 1700000000 []).2
      [([("task", [1; 2; 3]); ("done", [])], 1700000005); ([("task", [255])], 1700000009)] = Ok (w, closed ++ [(bw_path w, data)]) ∧
    scan_log (closed ++ [(bw_path w, data)]) = ([("task", [1; 2; 3]); ("done", []); ("task", [255])], None) ∧
    ∀ k, ∃ j, scan_log (closed ++ [(bw_path w, take k data)]) = (take j [("task", [1; 2; 3]); ("done", []); ("task", [255])], None) ∧
              (length (scan_files closed).1 ≤ j)%nat.
Proof.
  apply (binlog_roundtrip 20 1700000000 [([("task", [1; 2; 3]); ("done", [])], 1700000005); ([("task", [255])], 1700000009)]).
  - repeat constructor; vm_compute; done.
  - repeat constructor; vm_compute; done.
Defined.

(** ** Damaged tails *)

(** A length whose continuation bits run to the end of the file is read past
    it: the scan ends with the exception, not at the damaged frame. *)
Lemma scan_length_runs_out : scan_file (MAGIC ++ [VER; 255; 255; 255; 255]) = ([], Some (IndexError "index out of bounds on dimension 1")).
Proof. vm_compute. done. Qed.

(** A frame with a flipped byte is refused by its checksum. *)
Lemma scan_flipped : scan_file (take 12 (chunk_of ("a", [7])) ++ [0]) = ([], None) ∧ scan_file (chunk_of ("a", [7])) = ([("a", [7])], None).
Proof. split; vm_compute; done. Qed.
