(* ===== verification/Simulator.v ===== *)
(** * The flow simulator ([tm/validate/simulator.py])

    A discrete simulation of a flow whose steps take locks one after another,
    run for a while and release them.  The objects of the steps are shared by
    the dictionary of scheduled steps and the lists of waiting and running
    ones: the dictionary is the store, the lists hold ids.  [rng.shuffle] is a
    parameter that permutes its argument. *)

From S2P Require Import Prelude PyVal PyConv.
From stdpp Require Import base gmap strings list sorting relations.
From Stdlib Require Import ZArith Lia Ascii.

Local Open Scope Z_scope.

(** ** Flows *)

Inductive lock_mode : Type := shared | exclusive.

#[export] Instance lock_mode_eq_dec : EqDecision lock_mode.
Proof. solve_decision. Defined.

Record LockRequest : Type := mkLock { lk_name : string; lk_mode : lock_mode }.

Record StepSpec : Type := mkStep {
  ss_id : string;
  ss_next : list string;
  ss_locks : list LockRequest;
  ss_duration : Z
}.

Record FlowSpec : Type := mkFlow {
  fs_id : string;
  fs_steps : list (string * StepSpec);
  fs_entry : list string
}.

Section parse.
Context {PT : PyText}.

Definition text (v : json) : string := py_str other_str v.

Definition mode_of (v : json) : lock_mode := if decide (str_lower (text v) = "shared") then shared else exclusive.

Definition lock_of (entry : json) : res LockRequest :=
  m ← mapping_of entry;
  Ok (mkLock (text (jget "name" m)) (mode_of (get_or "mode" (JStr "exclusive") m))).

Definition _parse_lock_requests (raw : json) : res (list LockRequest) :=
  if negb (truthy raw) then Ok [] else entries ← py_iter raw; mapM lock_of entries.

Definition next_of (v : json) : list string :=
  match v with
  | JStr s => [s]
  | JArr l => text <$> l
  | JObj m => m.*1
  | _ => []
  end.

(** [max(1, int(duration))], or 50 when the conversion raises. *)
Definition duration_of (v : json) : Z := match py_int v with Ok n => Z.max 1 n | Raise _ => 50 end.

Definition step_spec (node_id : string) (raw_spec : json) : res StepSpec :=
  match jor raw_spec (JObj []) with
  | JObj spec =>
      locks ← _parse_lock_requests (jget "locks" spec);
      Ok (mkStep node_id (next_of (get_or "next" (JArr []) spec)) locks (duration_of (get_or "duration_ms" (JInt 50) spec)))
  | _ => Raise (ValueError ("step '" +:+ node_id +:+ "' must be mapping"))
  end.

Definition incoming_add (incoming : list (string * Z)) (target : string) : list (string * Z) :=
  dict_set target (default 0 (alookup target incoming) + 1) incoming.

Fixpoint parse_steps (doc : list (string * json)) (steps : list (string * StepSpec)) (incoming : list (string * Z))
  : res (list (string * StepSpec) * list (string * Z)) :=
  match doc with
  | [] => Ok (steps, incoming)
  | (raw_id, raw_spec) :: doc =>
      s ← step_spec raw_id raw_spec;
      parse_steps doc (dict_set raw_id s steps) (foldl incoming_add incoming (ss_next s))
  end.

Definition entry_points (steps : list (string * StepSpec)) (incoming : list (string * Z)) : list string :=
  let keys := steps.*1 in
  match sort_strings (filter (λ k, default 0 (alookup k incoming) = 0) keys) with
  | [] => take 1 (sort_strings keys)
  | candidates => candidates
  end.

Definition _parse_flow (doc : list (string * json)) : res FlowSpec :=
  match jget "steps" doc with
  | JObj steps_doc =>
      p ← parse_steps steps_doc [] [];
      Ok (mkFlow (text (get_or "id" (JStr "flow") doc)) p.1 (entry_points p.1 p.2))
  | _ => Raise (ValueError "flow missing steps mapping")
  end.
End parse.

(** ** The simulation *)

Record StepState : Type := mkState {
  st_spec : StepSpec;
  st_acquired : nat;
  st_held : list LockRequest;
  st_started : option Z;
  st_finished : option Z
}.

Definition new_state (spec : StepSpec) : StepState := mkState spec 0 [] None None.

Record slot : Type := mkSlot { sl_shared : Z; sl_exclusive : Z }.

Definition table : Type := list (string * slot).

Inductive event : Type :=
| step_started (step : string) (ts : Z)
| step_finished (step : string) (ts : Z).

Record sim : Type := mkSim {
  now : Z;
  events : list event;
  running : list string;
  completed : list (string * StepState);
  scheduled : list (string * StepState);
  waiting : list string;
  locks_held : list (string * slot)
}.

Definition can_acquire (t : table) (req : LockRequest) : bool :=
  match alookup (lk_name req) t with
  | None => true
  | Some sl =>
      match lk_mode req with
      | exclusive => (sl_shared sl =? 0) && (sl_exclusive sl =? 0)
      | shared => sl_exclusive sl =? 0
      end
  end.

Definition bump (m : lock_mode) (sl : slot) : slot :=
  match m with
  | shared => mkSlot (sl_shared sl + 1) (sl_exclusive sl)
  | exclusive => mkSlot (sl_shared sl) (sl_exclusive sl + 1)
  end.

Definition acquire (t : table) (req : LockRequest) : table :=
  dict_set (lk_name req) (bump (lk_mode req) (default (mkSlot 0 0) (alookup (lk_name req) t))) t.

Definition drop_one (m : lock_mode) (sl : slot) : slot :=
  match m with
  | shared => mkSlot (Z.max 0 (sl_shared sl - 1)) (sl_exclusive sl)
  | exclusive => mkSlot (sl_shared sl) (Z.max 0 (sl_exclusive sl - 1))
  end.

Definition release_one (t : table) (req : LockRequest) : table :=
  match alookup (lk_name req) t with
  | None => t
  | Some sl =>
      let sl := drop_one (lk_mode req) sl in
      if (sl_shared sl =? 0) && (sl_exclusive sl =? 0) then dict_pop (lk_name req) t else dict_set (lk_name req) sl t
  end.

Definition release (t : table) (requests : list LockRequest) : table := foldl release_one t requests.

(** A step that is not scheduled is, and waits. *)
Definition schedule (flow : FlowSpec) (s : sim) (id : string) : sim :=
  match alookup id (fs_steps flow) with
  | None => s
  | Some spec =>
      mkSim (now s) (events s) (running s) (completed s) (dict_set (ss_id spec) (new_state spec) (scheduled s))
        (waiting s ++ [ss_id spec]) (locks_held s)
  end.

Definition schedule_next (flow : FlowSpec) (s : sim) (id : string) : sim :=
  if bool_decide (id ∈ (completed s).*1) || bool_decide (id ∈ (scheduled s).*1) then s else schedule flow s id.

Definition initial_sim (flow : FlowSpec) : sim := foldl (schedule flow) (mkSim 0 [] [] [] [] [] []) (fs_entry flow).

(** The next lock of a waiting step, when it is free. *)
Definition try_acquire (s : sim) (id : string) : sim * bool :=
  match alookup id (scheduled s) with
  | None => (s, false)
  | Some st =>
      match ss_locks (st_spec st) !! st_acquired st with
      | Some req =>
          if can_acquire (locks_held s) req then
            (mkSim (now s) (events s) (running s) (completed s)
               (dict_set id (mkState (st_spec st) (S (st_acquired st)) (st_held st ++ [req]) (st_started st) (st_finished st)) (scheduled s))
               (waiting s) (acquire (locks_held s) req), true)
          else (s, false)
      | None => (s, false)
      end
  end.

(** A waiting step with all its locks starts, when there is room. *)
Definition try_start (max_concurrency : Z) (s : sim) (id : string) : sim * bool :=
  match alookup id (scheduled s) with
  | None => (s, false)
  | Some st =>
      if Nat.eqb (st_acquired st) (length (ss_locks (st_spec st))) && bool_decide (id ∈ waiting s)
         && (Z.of_nat (length (running s)) <? Z.max 1 max_concurrency)
      then
        (mkSim (now s) (events s ++ [step_started (ss_id (st_spec st)) (now s)]) (running s ++ [id]) (completed s)
           (dict_set id (mkState (st_spec st) (st_acquired st) (st_held st) (Some (now s)) (st_finished st)) (scheduled s))
           (remove_first id (waiting s)) (locks_held s), true)
      else (s, false)
  end.

Definition try_candidate (max_concurrency : Z) (a : sim * bool) (id : string) : sim * bool :=
  let '(s, p1) := try_acquire a.1 id in
  let '(s, p2) := try_start max_concurrency s id in
  (s, a.2 || p1 || p2).

(** [state.started_at or now]: a start at time zero counts as none. *)
Definition started_or (s : sim) (id : string) : Z :=
  match alookup id (scheduled s) ≫= st_started with
  | Some t => if t =? 0 then now s else t
  | None => now s
  end.

(** [running.sort(key=...)]: insertion keeps the order of equal keys. *)
Fixpoint insert_by (key : string → Z) (x : string) (l : list string) : list string :=
  match l with
  | [] => [x]
  | y :: l => if key x <=? key y then x :: y :: l else y :: insert_by key x l
  end.

Definition sort_by (key : string → Z) (l : list string) : list string := foldr (insert_by key) [] l.

(** The running step with the earliest start finishes. *)
Definition finish (flow : FlowSpec) (s : sim) : sim :=
  match sort_by (started_or s) (running s) with
  | [] => s
  | id :: rest =>
      match alookup id (scheduled s) with
      | None => s
      | Some st =>
          let t := Z.max (now s) (started_or s id + ss_duration (st_spec st)) in
          let st := mkState (st_spec st) (st_acquired st) (st_held st) (st_started st) (Some t) in
          foldl (schedule_next flow)
            (mkSim t (events s ++ [step_finished (ss_id (st_spec st)) t]) rest (dict_set (ss_id (st_spec st)) st (completed s))
               (dict_set id st (scheduled s)) (waiting s) (release (locks_held s) (st_held st)))
            (ss_next (st_spec st))
      end
  end.

Record SimulationReport : Type := mkReport {
  sr_finished : Z;
  sr_deadlocks : Z;
  sr_events : list event;
  sr_locks_held : option (list (string * slot))
}.

Section simulate.
(** What [rng.shuffle] makes of the candidates of a round. *)
Context (shuffle : nat → list string → list string).

Definition sim_round (flow : FlowSpec) (max_concurrency : Z) (n : nat) (s : sim) : sim * bool :=
  let '(s, progress) := foldl (try_candidate max_concurrency) (s, false) (shuffle n (waiting s)) in
  match running s with [] => (s, progress) | _ => (finish flow s, true) end.

Fixpoint sim_loop (fuel : nat) (flow : FlowSpec) (max_concurrency : Z) (n : nat) (s : sim) : option SimulationReport :=
  match waiting s, running s with
  | [], [] => Some (mkReport (Z.of_nat (length (completed s))) 0 (events s) None)
  | _, _ =>
      match fuel with
      | O => None
      | S fuel =>
          let '(s, progress) := sim_round flow max_concurrency n s in
          if progress then sim_loop fuel flow max_concurrency (S n) s
          else Some (mkReport (Z.of_nat (length (completed s))) 1 (events s) (Some (locks_held s)))
      end
  end.

(** Every round acquires a lock, starts or finishes a step: no more rounds
    than locks and twice the steps of the flow. *)
Definition flow_work (flow : FlowSpec) : nat :=
  sum_list ((λ kv : string * StepSpec, length (ss_locks kv.2) + 2)%nat <$> fs_steps flow).

Definition simulate `{PyText} (doc : list (string * json)) (max_concurrency : Z) : res (option SimulationReport) :=
  flow ← _parse_flow doc;
  Ok (sim_loop (S (flow_work flow)) flow max_concurrency 0 (initial_sim flow)).
End simulate.

(** ** The lock table *)

#[export] Instance LockRequest_eq_dec : EqDecision LockRequest.
Proof. solve_decision. Defined.

(** How often a list of held requests has a lock in a mode. *)
Definition held_count (name : string) (m : lock_mode) (hs : list LockRequest) : Z :=
  Z.of_nat (length (filter (λ r, r = mkLock name m) hs)).

Definition slot_of (t : table) (name : string) : slot := default (mkSlot 0 0) (alookup name t).

(** The table counts the held requests. *)
Definition counts (t : table) (hs : list LockRequest) : Prop :=
  ∀ name, slot_of t name = mkSlot (held_count name shared hs) (held_count name exclusive hs).

(** An exclusive lock is held once and by nobody else. *)
Definition compatible (hs : list LockRequest) : Prop :=
  ∀ name, held_count name exclusive hs ≤ 1 ∧ (held_count name exclusive hs = 1 → held_count name shared hs = 0).

Lemma held_count_perm name m hs hs' : hs ≡ₚ hs' → held_count name m hs = held_count name m hs'.
Proof. intros Hp. unfold held_count. by rewrite Hp. Qed.

#[export] Instance counts_perm t : Proper ((≡ₚ) ==> iff) (counts t).
Proof. intros hs hs' Hp. unfold counts. split; intros Hc n; rewrite Hc; f_equal; by apply held_count_perm. Qed.

#[export] Instance compatible_perm : Proper ((≡ₚ) ==> iff) compatible.
Proof. intros hs hs' Hp. unfold compatible. by setoid_rewrite (λ n m, held_count_perm n m hs hs' Hp). Qed.

Lemma held_count_cons name m r hs :
  held_count name m (r :: hs) = (if decide (r = mkLock name m) then 1 else 0) + held_count name m hs.
Proof.
  unfold held_count. rewrite filter_cons. case_decide; cbn [length]; lia.
Qed.

Lemma held_count_app name m hs hs' : held_count name m (hs ++ hs') = held_count name m hs + held_count name m hs'.
Proof. unfold held_count. rewrite filter_app, length_app. lia. Qed.

Lemma held_count_nonneg name m hs : 0 ≤ held_count name m hs.
Proof. unfold held_count. lia. Qed.

Lemma held_count_elem name m hs : mkLock name m ∈ hs ↔ 0 < held_count name m hs.
Proof.
  unfold held_count. split.
  - intros Hin. assert (mkLock name m ∈ filter (λ r, r = mkLock name m) hs) as Hf by (by apply list_elem_of_filter).
    destruct (filter _ hs); [set_solver|]. cbn [length]. lia.
  - intros Hpos. destruct (filter (λ r, r = mkLock name m) hs) as [|r l] eqn:Hf; [cbn in Hpos; lia|].
    assert (r ∈ filter (λ r, r = mkLock name m) hs) as Hr by (rewrite Hf; set_solver).
    apply list_elem_of_filter in Hr as [-> Hr]. done.
Qed.

Lemma slot_of_set t name sl n : slot_of (dict_set name sl t) n = if decide (n = name) then sl else slot_of t n.
Proof. unfold slot_of. rewrite alookup_dict_set. by case_decide. Qed.

Lemma slot_of_pop t name n : slot_of (dict_pop name t) n = if decide (n = name) then mkSlot 0 0 else slot_of t n.
Proof. unfold slot_of. rewrite alookup_dict_pop. by case_decide. Qed.

Lemma can_acquire_slot t req :
  can_acquire t req = match lk_mode req with
                      | exclusive => (sl_shared (slot_of t (lk_name req)) =? 0) && (sl_exclusive (slot_of t (lk_name req)) =? 0)
                      | shared => sl_exclusive (slot_of t (lk_name req)) =? 0
                      end.
Proof. unfold can_acquire, slot_of. destruct (alookup _ t); [done|]. by destruct (lk_mode req). Qed.

Lemma acquire_counts t hs req : counts t hs → counts (acquire t req) (req :: hs).
Proof.
  intros Hc name. unfold acquire. fold (slot_of t (lk_name req)). rewrite slot_of_set, !held_count_cons. destruct req as [n m]; cbn.
  rewrite !Hc. destruct m; cbn; repeat case_decide; simplify_eq; f_equal; lia.
Qed.

Lemma acquire_compatible t hs req :
  counts t hs → compatible hs → can_acquire t req = true → compatible (req :: hs).
Proof.
  intros Hc Hok Hcan name. rewrite can_acquire_slot, !Hc in Hcan. rewrite !held_count_cons. specialize (Hok name).
  pose proof (held_count_nonneg name shared hs). pose proof (held_count_nonneg name exclusive hs).
  destruct req as [n m]; destruct m; cbn in *; repeat case_decide; simplify_eq; lia.
Qed.

(** A lock that cannot be taken is held in a mode that excludes it. *)
Lemma blocked_by t hs req :
  counts t hs → can_acquire t req = false →
  ∃ r, r ∈ hs ∧ lk_name r = lk_name req ∧ (lk_mode r = exclusive ∨ lk_mode req = exclusive).
Proof.
  intros Hc Hcan. rewrite can_acquire_slot, !Hc in Hcan. cbn in Hcan.
  pose proof (held_count_nonneg (lk_name req) shared hs). pose proof (held_count_nonneg (lk_name req) exclusive hs).
  assert (0 < held_count (lk_name req) exclusive hs ∨ (lk_mode req = exclusive ∧ 0 < held_count (lk_name req) shared hs)) as [He|[Hm Hs]].
  { destruct (lk_mode req); [left; lia|]. apply andb_false_iff in Hcan as [?|?]; [right; split; [done|lia]|left; lia]. }
  - exists (mkLock (lk_name req) exclusive). split; [by apply held_count_elem|]. cbn. auto.
  - exists (mkLock (lk_name req) shared). split; [by apply held_count_elem|]. cbn. auto.
Qed.

Lemma release_one_counts t hs req : counts t (req :: hs) → counts (release_one t req) hs.
Proof.
  intros Hc. assert (∀ n, slot_of (release_one t req) n = if decide (n = lk_name req) then drop_one (lk_mode req) (slot_of t n) else slot_of t n) as Hr.
  { intros n. unfold release_one, slot_of. destruct (alookup (lk_name req) t) as [sl|] eqn:Hl.
    - destruct ((sl_shared (drop_one _ sl) =? 0) && _) eqn:Hz.
      + fold (slot_of (dict_pop (lk_name req) t) n) (slot_of t n). rewrite slot_of_pop. case_decide; [|done]. subst n. unfold slot_of. rewrite Hl.
        cbn [default from_option id]. revert Hz. destruct (drop_one (lk_mode req) sl) as [a b]; cbn [sl_shared sl_exclusive]. intros. f_equal; lia.
      + fold (slot_of (dict_set (lk_name req) (drop_one (lk_mode req) sl) t) n) (slot_of t n). rewrite slot_of_set. case_decide; [|done].
        subst n. unfold slot_of. by rewrite Hl.
    - case_decide; [|done]. subst n. rewrite Hl. by destruct (lk_mode req). }
  intros name. rewrite Hr. rewrite !Hc, !held_count_cons. destruct req as [n m].
  pose proof (held_count_nonneg name shared hs). pose proof (held_count_nonneg name exclusive hs).
  destruct m; cbn; repeat case_decide; simplify_eq; f_equal; lia.
Qed.

Lemma release_all_counts t hs l : counts t (l ++ hs) → counts (release t l) hs.
Proof.
  revert t. induction l as [|r l IH]; intros t Hc; [done|]. cbn [release foldl]. apply IH. by apply release_one_counts.
Qed.

Lemma compatible_app hs hs' : compatible (hs ++ hs') → compatible hs'.
Proof.
  intros Hc name. specialize (Hc name). rewrite !held_count_app in Hc.
  pose proof (held_count_nonneg name shared hs). pose proof (held_count_nonneg name exclusive hs).
  pose proof (held_count_nonneg name shared hs'). pose proof (held_count_nonneg name exclusive hs'). lia.
Qed.

(** Two requests for one lock that are both held are shared. *)
Lemma compatible_shared l1 l2 hs r1 r2 :
  compatible (l1 ++ l2 ++ hs) → r1 ∈ l1 → r2 ∈ l2 → lk_name r1 = lk_name r2 → lk_mode r1 = shared ∧ lk_mode r2 = shared.
Proof.
  intros Hc H1 H2 Hn. specialize (Hc (lk_name r1)). rewrite !held_count_app in Hc. destruct r1 as [n m1], r2 as [n' m2]; cbn in *. subst n'.
  apply held_count_elem in H1, H2.
  pose proof (held_count_nonneg n shared hs). pose proof (held_count_nonneg n exclusive hs).
  pose proof (held_count_nonneg n shared l1). pose proof (held_count_nonneg n exclusive l1).
  pose proof (held_count_nonneg n shared l2). pose proof (held_count_nonneg n exclusive l2).
  destruct m1, m2; [done|lia..].
Qed.

(** ** The log of a simulation *)

(** The steps that run after a log of events. *)
Definition log_step (act : list string) (e : event) : list string :=
  match e with step_started x _ => act ++ [x] | step_finished x _ => remove_first x act end.

Definition active (es : list event) : list string := foldl log_step [] es.

Definition finished_of (es : list event) : list string :=
  omap (λ e, match e with step_finished x _ => Some x | _ => None end) es.

Definition started_of (es : list event) : list string :=
  omap (λ e, match e with step_started x _ => Some x | _ => None end) es.

Definition time_of (e : event) : Z := match e with step_started _ t => t | step_finished _ t => t end.

(** The locks a step of the flow takes. *)
Definition locks_of (flow : FlowSpec) (id : string) : list LockRequest :=
  match alookup id (fs_steps flow) with Some spec => ss_locks spec | None => [] end.

(** Steps that may run together: within the limit, and a lock two of them
    take is shared by both. *)
Record runs_together (flow : FlowSpec) (limit : Z) (act : list string) : Prop := {
  rt_nodup : NoDup act;
  rt_room : Z.of_nat (length act) ≤ limit;
  rt_locks : ∀ i j r1 r2, i ∈ act → j ∈ act → i ≠ j → r1 ∈ locks_of flow i → r2 ∈ locks_of flow j →
    lk_name r1 = lk_name r2 → lk_mode r1 = shared ∧ lk_mode r2 = shared
}.

Definition log_safe (flow : FlowSpec) (limit : Z) (es : list event) : Prop :=
  ∀ p, p `prefix_of` es → runs_together flow limit (active p).

#[export] Instance runs_together_perm flow limit : Proper ((≡ₚ) ==> iff) (runs_together flow limit).
Proof.
  assert (∀ l l', l ≡ₚ l' → runs_together flow limit l → runs_together flow limit l') as H.
  { intros l l' Hp [H1 H2 H3]. constructor; [by rewrite <-Hp|by rewrite <-Hp|]. intros i j r1 r2. rewrite <-!Hp. apply H3. }
  intros l l' Hp. split; apply H; [done|by symmetry].
Qed.

(** Steps reached from the entry points along [next]. *)
Inductive reached (flow : FlowSpec) : string → Prop :=
| reached_entry id : id ∈ fs_entry flow → id ∈ (fs_steps flow).*1 → reached flow id
| reached_next id spec nxt : reached flow id → alookup id (fs_steps flow) = Some spec → nxt ∈ ss_next spec →
    nxt ∈ (fs_steps flow).*1 → reached flow nxt.

(** Steps are stored under their ids. *)
Definition keyed (flow : FlowSpec) : Prop :=
  NoDup (fs_steps flow).*1 ∧ ∀ k spec, alookup k (fs_steps flow) = Some spec → ss_id spec = k.

(** ** The state of a simulation *)

Definition held_in (store : list (string * StepState)) (id : string) : list LockRequest :=
  match alookup id store with Some st => st_held st | None => [] end.

Definition held (s : sim) : list LockRequest := (waiting s ++ running s) ≫= held_in (scheduled s).

Record state_ok (flow : FlowSpec) (waits : bool) (id : string) (st : StepState) : Prop := {
  to_spec : alookup id (fs_steps flow) = Some (st_spec st);
  to_held : st_held st = take (st_acquired st) (ss_locks (st_spec st));
  to_bound : (st_acquired st ≤ length (ss_locks (st_spec st)))%nat;
  to_full : waits = false → st_acquired st = length (ss_locks (st_spec st))
}.

Record sim_ok (flow : FlowSpec) (limit : Z) (s : sim) : Prop := {
  so_keys : NoDup (scheduled s).*1;
  so_ids : waiting s ++ running s ++ (completed s).*1 ≡ₚ (scheduled s).*1;
  so_state : ∀ id st, alookup id (scheduled s) = Some st → state_ok flow (bool_decide (id ∈ waiting s)) id st;
  so_reach : ∀ id, id ∈ (scheduled s).*1 → reached flow id;
  so_counts : counts (locks_held s) (held s);
  so_compat : compatible (held s);
  so_room : Z.of_nat (length (running s)) ≤ limit;
  so_active : active (events s) ≡ₚ running s;
  so_safe : log_safe flow limit (events s);
  so_started : started_of (events s) ≡ₚ running s ++ (completed s).*1;
  so_finished : finished_of (events s) = (completed s).*1;
  so_times : Sorted Z.le (time_of <$> events s) ∧ Forall (λ t, t ≤ now s) (time_of <$> events s)
}.

(** Dictionaries whose key is there. *)
Lemma dict_set_same_keys {V} key (v v0 : V) l : alookup key l = Some v0 → (dict_set key v l).*1 = l.*1.
Proof.
  induction l as [|[k x] l IH]; [done|]. simpl. case_decide; intros Hl; rewrite !fmap_cons; [done|]. by rewrite IH.
Qed.

Lemma held_in_set store id st i : held_in (dict_set id st store) i = if decide (i = id) then st_held st else held_in store i.
Proof. unfold held_in. rewrite alookup_dict_set. by case_decide. Qed.

Lemma bind_held_ext (f g : string → list LockRequest) ids : (∀ i, i ∈ ids → f i = g i) → ids ≫= f = ids ≫= g.
Proof.
  induction ids as [|i ids IH]; intros He; [done|]. rewrite !bind_cons. f_equal; [apply He; set_solver|]. apply IH. set_solver.
Qed.

(** The held requests with one step singled out. *)
Lemma held_split f (ids : list string) id :
  NoDup ids → id ∈ ids → ∃ ids', ids ≡ₚ id :: ids' ∧ (id ∉ ids') ∧ ids ≫= f ≡ₚ (f id : list LockRequest) ++ (ids' ≫= f).
Proof.
  intros Hnd Hin. apply elem_of_Permutation in Hin as [ids' Hp]. exists ids'. split; [done|].
  assert (NoDup (id :: ids')) as Hnd' by by rewrite <-Hp. apply NoDup_cons in Hnd' as [Hni _]. split; [done|]. by rewrite Hp.
Qed.

Lemma held_set_in store ids id st st0 req :
  NoDup ids → id ∈ ids → alookup id store = Some st0 → st_held st = st_held st0 ++ [req] →
  ids ≫= held_in (dict_set id st store) ≡ₚ req :: (ids ≫= held_in store).
Proof.
  intros Hnd Hin Hl Hh. destruct (held_split (held_in store) ids id Hnd Hin) as (ids' & Hp & Hni & ->).
  rewrite Hp, bind_cons, held_in_set, decide_True by done.
  rewrite (bind_held_ext _ (held_in store)) by (intros i Hi; rewrite held_in_set, decide_False; [done|set_solver]).
  unfold held_in at 2. rewrite Hl, Hh, <-app_assoc. symmetry. apply Permutation_middle.
Qed.

Lemma held_set_same store ids id st st0 :
  alookup id store = Some st0 → st_held st = st_held st0 → ids ≫= held_in (dict_set id st store) = ids ≫= held_in store.
Proof.
  intros Hl Hh. apply bind_held_ext. intros i _. rewrite held_in_set. case_decide; [|done]. subst i. unfold held_in. by rewrite Hl.
Qed.

(** ** The log follows the state *)

Lemma active_snoc es e : active (es ++ [e]) = log_step (active es) e.
Proof. unfold active. by rewrite foldl_app. Qed.

Lemma log_safe_snoc flow limit es e :
  log_safe flow limit es → runs_together flow limit (active (es ++ [e])) → log_safe flow limit (es ++ [e]).
Proof.
  intros Hs Hr p [q Hq]. destruct q as [|x q _] using rev_ind.
  - rewrite app_nil_r in Hq. by rewrite <-Hq.
  - rewrite app_assoc in Hq. apply app_inj_tail in Hq as [-> ->]. apply Hs. by exists q.
Qed.

Lemma remove_first_perm {A} `{EqDecision A} (x : A) l : x ∈ l → l ≡ₚ x :: remove_first x l.
Proof.
  induction l as [|y l IH]; [set_solver|]. intros Hin. cbn [remove_first]. case_decide; [by subst|].
  rewrite (IH ltac:(set_solver)) at 1. apply perm_swap.
Qed.

Lemma remove_first_cong {A} `{EqDecision A} (x : A) l l' : x ∈ l → l ≡ₚ l' → remove_first x l ≡ₚ remove_first x l'.
Proof.
  intros Hin Hp. apply (Permutation_cons_inv (a:=x)). rewrite <-!remove_first_perm; [done|by rewrite <-Hp|done].
Qed.

Lemma locks_of_state flow w id st : state_ok flow w id st → locks_of flow id = ss_locks (st_spec st).
Proof. intros [Hs _ _ _]. unfold locks_of. by rewrite Hs. Qed.

(** Running steps hold all their locks, so they may run together. *)
Lemma running_together flow limit s :
  NoDup (waiting s ++ running s) → 
  (∀ id st, alookup id (scheduled s) = Some st → state_ok flow (bool_decide (id ∈ waiting s)) id st) →
  (∀ id, id ∈ running s → id ∈ (scheduled s).*1) →
  compatible (held s) → Z.of_nat (length (running s)) ≤ limit → runs_together flow limit (running s).
Proof.
  intros Hnd Hst Hin Hc Hroom. apply NoDup_app in Hnd as Hnd'. destruct Hnd' as (_ & Hdis & Hndr). split; [done|done|].
  assert (∀ i, i ∈ running s → held_in (scheduled s) i = locks_of flow i) as Hall.
  { intros i Hi. pose proof (Hin i Hi) as Hk. destruct (alookup i (scheduled s)) as [st|] eqn:Hl; [|by apply alookup_None in Hl].
    specialize (Hst i st Hl). rewrite (locks_of_state _ _ _ _ Hst). unfold held_in. rewrite Hl. destruct Hst as [_ -> _ Hf].
    rewrite Hf; [by apply take_ge|]. apply bool_decide_eq_false. intros Hw. by apply (Hdis i). }
  intros i j r1 r2 Hi Hj Hne H1 H2 Hn. rewrite <-Hall in H1, H2 by done. unfold held in Hc.
  destruct (held_split (held_in (scheduled s)) (waiting s ++ running s) i Hnd) as (ids & Hp & Hni & Hb); [set_solver|].
  assert (NoDup ids ∧ j ∈ ids) as [Hnd' Hj'].
  { rewrite Hp in Hnd. split; [by apply NoDup_cons in Hnd as [_ ?]|]. assert (j ∈ i :: ids) as Hji by (rewrite <-Hp; set_solver). set_solver. }
  destruct (held_split (held_in (scheduled s)) ids j Hnd' Hj') as (ids' & _ & _ & Hb').
  rewrite Hb, Hb' in Hc. by apply (compatible_shared _ _ _ _ _ Hc H1 H2).
Qed.

(** ** Every operation keeps the state well formed *)

Section steps.
Context (flow : FlowSpec) (limit : Z) (Hkeyed : keyed flow).

Abbreviation ok := (sim_ok flow limit).

Lemma live_nodup s : ok s → NoDup (waiting s ++ running s ++ (completed s).*1).
Proof. intros Hok. rewrite (so_ids _ _ _ Hok). apply (so_keys _ _ _ Hok). Qed.

Lemma waiting_scheduled s id : ok s → id ∈ waiting s → ∃ st, alookup id (scheduled s) = Some st.
Proof.
  intros Hok Hin. assert (id ∈ (scheduled s).*1) as Hk by (rewrite <-(so_ids _ _ _ Hok); set_solver).
  destruct (alookup id (scheduled s)) as [st|] eqn:Hl; [by exists st|]. by apply alookup_None in Hl.
Qed.

Lemma running_scheduled s id : ok s → id ∈ running s → ∃ st, alookup id (scheduled s) = Some st.
Proof.
  intros Hok Hin. assert (id ∈ (scheduled s).*1) as Hk by (rewrite <-(so_ids _ _ _ Hok); set_solver).
  destruct (alookup id (scheduled s)) as [st|] eqn:Hl; [by exists st|]. by apply alookup_None in Hl.
Qed.

Lemma schedule_keeps s id : ok s → id ∉ (scheduled s).*1 → (id ∈ (fs_steps flow).*1 → reached flow id) → ok (schedule flow s id).
Proof.
  intros Hok Hni Hre. unfold schedule. destruct (alookup id (fs_steps flow)) as [spec|] eqn:Hl; [|done].
  pose proof (proj2 Hkeyed _ _ Hl) as Hid. rewrite Hid. pose proof Hok as [Hk Hids Hst Hr Hc Hcm Hro Ha Hs Hsd Hf Ht].
  assert (id ∉ waiting s ++ running s) as Hnl.
  { intros Hin. apply Hni. rewrite <-Hids. set_solver. }
  assert ((waiting s ++ [id]) ++ running s ≡ₚ id :: waiting s ++ running s) as Hlive by (solve_Permutation).
  set (s' := mkSim _ _ _ _ _ _ _).
  assert (held s' ≡ₚ held s) as Hh.
  { unfold held, s'; cbn [waiting running scheduled]. rewrite Hlive, bind_cons, held_in_set, decide_True by done. cbn [st_held new_state app].
    rewrite (bind_held_ext _ (held_in (scheduled s))); [done|]. intros i Hi. rewrite held_in_set, decide_False; [done|set_solver]. }
  constructor; cbn [scheduled waiting running completed events locks_held now s']; try done.
  - by apply NoDup_dict_set.
  - rewrite dict_set_fresh by done. rewrite fmap_app. cbn [fmap list_fmap fst]. rewrite <-Hids. solve_Permutation.
  - intros i st Hi. rewrite alookup_dict_set in Hi. case_decide as Hd.
    + injection Hi as <-. subst i. rewrite bool_decide_eq_true_2 by set_solver. constructor; cbn; [done|done|lia|done].
    + destruct (Hst i st Hi) as [H1 H2 H3 H4]. constructor; [done..|]. intros Hf'. apply H4.
      rewrite bool_decide_eq_false in Hf' |- *. set_solver.
  - intros i [->|Hi]%dict_set_keys; [|by apply Hr]. apply Hre.
    apply alookup_elem_of in Hl. by apply (list_elem_of_fmap_2 fst _ (id, spec)).
  - by rewrite Hh.
  - by rewrite Hh.
Qed.

Lemma acquire_keeps s id : ok s → id ∈ waiting s → ok (try_acquire s id).1.
Proof.
  intros Hok Hin. unfold try_acquire. destruct (alookup id (scheduled s)) as [st|] eqn:Hl; [|done].
  destruct (ss_locks (st_spec st) !! st_acquired st) as [req|] eqn:Hreq; [|done]. destruct (can_acquire _ req) eqn:Hcan; [|done].
  cbn [fst]. pose proof Hok as [Hk Hids Hst Hr Hc Hcm Hro Ha Hs Hsd Hf Ht].
  pose proof (live_nodup s Hok) as Hnd. rewrite app_assoc in Hnd. apply NoDup_app in Hnd as (Hnd & _ & _).
  set (st' := mkState _ _ _ _ _). set (s' := mkSim _ _ _ _ _ _ _).
  assert (held s' ≡ₚ req :: held s) as Hh.
  { unfold held, s'; cbn [waiting running scheduled]. apply (held_set_in _ _ id st' st); [done|set_solver|done|done]. }
  constructor; cbn [scheduled waiting running completed events locks_held now s']; try done.
  - by apply NoDup_dict_set.
  - by rewrite (dict_set_same_keys _ _ st).
  - intros i sti Hi. rewrite alookup_dict_set in Hi. case_decide as Hd; [|by apply Hst].
    injection Hi as <-. subst i. destruct (Hst id st Hl) as [H1 H2 H3 H4]. rewrite bool_decide_eq_true_2 by done.
    apply lookup_lt_Some in Hreq as Hlt. constructor; cbn [st_spec st_held st_acquired st']; [done| |lia|done].
    by rewrite H2, (take_S_r _ _ _ Hreq).
  - by rewrite (dict_set_same_keys _ _ st).
  - rewrite Hh. by apply acquire_counts.
  - rewrite Hh. by apply (acquire_compatible (locks_held s)).
Qed.

Lemma sorted_snoc_le l t : Sorted Z.le l → Forall (λ x, x ≤ t) l → Sorted Z.le (l ++ [t]).
Proof.
  intros Hs Hf. apply StronglySorted_Sorted. apply StronglySorted_app_2.
  - rewrite Forall_forall in Hf. intros x y Hx ->%list_elem_of_singleton. by apply Hf.
  - apply Sorted.Sorted_StronglySorted; [|done]. intros x y z. apply Z.le_trans.
  - repeat constructor.
Qed.

Lemma start_keeps mc s id : limit = Z.max 1 mc → ok s → ok (try_start mc s id).1.
Proof.
  intros Hlim Hok. unfold try_start. destruct (alookup id (scheduled s)) as [st|] eqn:Hl; [|done].
  destruct (_ && _) eqn:Hcond; [|done]. apply andb_true_iff in Hcond as [[Hacq Hw]%andb_true_iff Hroom].
  apply Nat.eqb_eq in Hacq. apply bool_decide_eq_true in Hw. cbn [fst].
  pose proof Hok as [Hk Hids Hst Hr Hc Hcm Hro Ha Hs Hsd Hf Ht]. destruct (Hst id st Hl) as [H1 H2 H3 H4].
  pose proof (proj2 Hkeyed _ _ H1) as Hid. rewrite Hid.
  pose proof (live_nodup s Hok) as Hnd. set (st' := mkState _ _ _ _ _). set (s' := mkSim _ _ _ _ _ _ _).
  assert (waiting s ++ running s ≡ₚ waiting s' ++ running s') as Hlive.
  { cbn [waiting running s']. rewrite (remove_first_perm id (waiting s) Hw) at 1. solve_Permutation. }
  assert (held s' ≡ₚ held s) as Hh.
  { unfold held. rewrite <-Hlive. cbn [scheduled s']. by rewrite (held_set_same _ _ id st' st). }
  assert (NoDup (waiting s' ++ running s')) as Hnd'.
  { rewrite <-Hlive. rewrite app_assoc in Hnd. by apply NoDup_app in Hnd as (Hnd & _ & _). }
  assert (∀ i sti, alookup i (scheduled s') = Some sti → state_ok flow (bool_decide (i ∈ waiting s')) i sti) as Hst'.
  { cbn [scheduled s']. intros i sti Hi. rewrite alookup_dict_set in Hi. case_decide as Hd.
    - injection Hi as <-. subst i. by constructor.
    - destruct (Hst i sti Hi) as [H1' H2' H3' H4']. constructor; [done..|]. intros Hf'. apply H4'.
      rewrite bool_decide_eq_false in Hf' |- *. intros Hin. apply Hf'. cbn [waiting s']. by apply elem_of_remove_first_ne. }
  assert (active (events s') ≡ₚ running s') as Ha'.
  { cbn [events running s']. rewrite active_snoc. cbn [log_step]. by rewrite Ha. }
  assert ((dict_set id st' (scheduled s)).*1 = (scheduled s).*1) as Hkeys by (by rewrite (dict_set_same_keys _ _ st)).
  assert (Z.of_nat (length (running s')) ≤ limit) as Hro'.
  { cbn [running s']. rewrite length_app. cbn [length]. apply Z.ltb_lt in Hroom. lia. }
  constructor; try done; cbn [scheduled completed events locks_held now s'].
  - by rewrite Hkeys.
  - rewrite Hkeys, <-Hids, app_assoc, <-Hlive. by rewrite <-app_assoc.
  - rewrite Hkeys. done.
  - by rewrite Hh.
  - by rewrite Hh.
  - apply log_safe_snoc; [done|]. change (runs_together flow limit (active (events s'))).
    rewrite Ha'. apply running_together; [done|done| |by rewrite Hh|done].
    intros i Hi. cbn [scheduled s']. rewrite Hkeys, <-Hids, app_assoc, Hlive. set_solver.
  - unfold started_of in *. rewrite omap_app, Hsd. cbn. solve_Permutation.
  - unfold finished_of in *. rewrite omap_app, Hf. cbn. by rewrite app_nil_r.
  - destruct Ht as [Ht1 Ht2]. rewrite fmap_app. cbn [fmap list_fmap time_of]. split; [by apply sorted_snoc_le|].
    apply Forall_app. split; [done|]. constructor; [lia|constructor].
Qed.

(** ** A step finishes *)

Lemma insert_by_perm key x l : insert_by key x l ≡ₚ x :: l.
Proof. induction l as [|y l IH]; [done|]. cbn [insert_by]. case_match; [done|]. rewrite IH. apply perm_swap. Qed.

Lemma sort_by_perm key l : sort_by key l ≡ₚ l.
Proof. induction l as [|x l IH]; [done|]. cbn [sort_by foldr]. rewrite insert_by_perm. by rewrite IH. Qed.

(** The state in which the next steps of a finished one are scheduled. *)
Definition finished_sim (s : sim) (id : string) (rest : list string) (st : StepState) : sim :=
  let t := Z.max (now s) (started_or s id + ss_duration (st_spec st)) in
  let st := mkState (st_spec st) (st_acquired st) (st_held st) (st_started st) (Some t) in
  mkSim t (events s ++ [step_finished (ss_id (st_spec st)) t]) rest (dict_set (ss_id (st_spec st)) st (completed s))
    (dict_set id st (scheduled s)) (waiting s) (release (locks_held s) (st_held st)).

Lemma finished_keeps s id rest st :
  ok s → running s ≡ₚ id :: rest → alookup id (scheduled s) = Some st → ok (finished_sim s id rest st).
Proof.
  intros Hok Hp Hl. pose proof Hok as [Hk Hids Hst Hr Hc Hcm Hro Ha Hs Hsd Hf Ht]. destruct (Hst id st Hl) as [H1 H2 H3 H4].
  pose proof (proj2 Hkeyed _ _ H1) as Hid. unfold finished_sim. cbn [st_spec st_held]. rewrite Hid.
  set (t := Z.max _ _). set (st' := mkState _ _ _ _ _). set (s' := mkSim _ _ _ _ _ _ _).
  pose proof (live_nodup s Hok) as Hnd.
  assert (waiting s ++ running s ++ (completed s).*1 ≡ₚ id :: (waiting s ++ rest ++ (completed s).*1)) as Hall by (rewrite Hp; solve_Permutation).
  pose proof Hnd as Hnd2. rewrite Hall in Hnd2. apply NoDup_cons in Hnd2 as [Hni Hnd2].
  assert ((dict_set id st' (scheduled s)).*1 = (scheduled s).*1) as Hkeys by (by rewrite (dict_set_same_keys _ _ st)).
  assert ((dict_set id st' (completed s)).*1 = (completed s).*1 ++ [id]) as Hcomp.
  { rewrite dict_set_fresh by set_solver. by rewrite fmap_app. }
  assert (held s ≡ₚ st_held st ++ held s') as Hh.
  { unfold held. cbn [waiting running scheduled s']. rewrite (held_set_same _ _ id st' st) by done.
    assert (waiting s ++ running s ≡ₚ id :: (waiting s ++ rest)) as -> by (rewrite Hp; solve_Permutation).
    rewrite bind_cons. unfold held_in at 1. by rewrite Hl. }
  assert (∀ i sti, alookup i (scheduled s') = Some sti → state_ok flow (bool_decide (i ∈ waiting s')) i sti) as Hst'.
  { cbn [scheduled waiting s']. intros i sti Hi. rewrite alookup_dict_set in Hi. case_decide as Hd; [|by apply Hst].
    injection Hi as <-. subst i. constructor; [done|done|done|exact H4]. }
  assert (compatible (held s')) as Hcm' by (apply (compatible_app (st_held st)); by rewrite <-Hh).
  assert (active (events s') ≡ₚ running s') as Ha'.
  { cbn [events running s']. rewrite active_snoc. cbn [log_step].
    rewrite (remove_first_cong id (active (events s)) (id :: rest)) by (rewrite ?Ha, Hp; set_solver). cbn [remove_first]. by rewrite decide_True. }
  assert (Z.of_nat (length (running s')) ≤ limit) as Hro' by (cbn [running s']; rewrite Hp in Hro; cbn [length] in Hro; lia).
  constructor; try done; cbn [scheduled completed events locks_held now waiting running s'].
  - by rewrite Hkeys.
  - rewrite Hkeys, Hcomp, <-Hids, Hall. solve_Permutation.
  - rewrite Hkeys. done.
  - apply release_all_counts. by rewrite <-Hh.
  - apply log_safe_snoc; [done|]. change (runs_together flow limit (active (events s'))).
    rewrite Ha'. apply running_together; [|done| |done|done]; cbn [waiting running scheduled s'].
    + rewrite app_assoc in Hnd2. by apply NoDup_app in Hnd2 as (Hnd2 & _ & _).
    + intros i Hi. rewrite Hkeys, <-Hids, Hall. set_solver.
  - unfold started_of in *. rewrite omap_app, Hsd, Hcomp, Hp. cbn. solve_Permutation.
  - unfold finished_of in *. rewrite omap_app, Hf, Hcomp. done.
  - destruct Ht as [Ht1 Ht2]. assert (Forall (λ x, x ≤ t) (time_of <$> events s)) as Ht3.
    { eapply Forall_impl; [exact Ht2|]. intros x Hx. cbv beta in Hx |- *. transitivity (now s); [done|apply Z.le_max_l]. }
    rewrite fmap_app. cbn [fmap list_fmap time_of]. split; [by apply sorted_snoc_le|].
    apply Forall_app. split; [done|]. constructor; [lia|constructor].
Qed.

(** ** Progress *)

(** Locks taken, steps started and steps finished. *)
Definition progress_of (s : sim) : nat :=
  sum_list ((λ kv : string * StepState, st_acquired kv.2) <$> scheduled s) + length (running s) + 2 * length (completed s).

Lemma sum_set (id : string) st st0 (l : list (string * StepState)) :
  alookup id l = Some st0 →
  (sum_list ((λ kv : string * StepState, st_acquired kv.2) <$> dict_set id st l) + st_acquired st0 =
   sum_list ((λ kv : string * StepState, st_acquired kv.2) <$> l) + st_acquired st)%nat.
Proof.
  induction l as [|[k x] l IH]; [done|]. cbn [alookup dict_set]. case_decide as Hd; intros Hl; rewrite !fmap_cons; cbn [sum_list snd fst].
  - injection Hl as ->. simpl. lia.
  - specialize (IH Hl). simpl. simpl in IH. lia.
Qed.

Lemma acquire_progress s id : (try_acquire s id).2 = true → (progress_of s < progress_of (try_acquire s id).1)%nat.
Proof.
  unfold try_acquire. destruct (alookup id (scheduled s)) as [st|] eqn:Hl; [|done]. destruct (_ !! _); [|done].
  destruct (can_acquire _ _); [|done]. intros _. unfold progress_of. cbn [fst scheduled running completed].
  match goal with |- context [dict_set id ?x _] => pose proof (sum_set id x st _ Hl) as Hs end. cbn [st_acquired] in Hs. lia.
Qed.

Lemma acquire_idle s id : (try_acquire s id).2 = false → (try_acquire s id).1 = s.
Proof. unfold try_acquire. by repeat (case_match; try done). Qed.

Lemma start_progress mc s id : (try_start mc s id).2 = true → (progress_of s < progress_of (try_start mc s id).1)%nat.
Proof.
  unfold try_start. destruct (alookup id (scheduled s)) as [st|] eqn:Hl; [|done]. destruct (_ && _); [|done].
  intros _. unfold progress_of. cbn [fst scheduled running completed]. rewrite length_app. cbn [length].
  match goal with |- context [dict_set id ?x _] => pose proof (sum_set id x st _ Hl) as Hs end. cbn [st_acquired] in Hs. lia.
Qed.

Lemma start_idle mc s id : (try_start mc s id).2 = false → (try_start mc s id).1 = s.
Proof. unfold try_start. by repeat (case_match; try done). Qed.

(** What the candidates of a round leave as it is. *)
Record same_frame (s s' : sim) : Prop := {
  sf_keys : (scheduled s').*1 = (scheduled s).*1;
  sf_completed : completed s' = completed s
}.

Lemma acquire_frame s id : same_frame s (try_acquire s id).1 ∧ waiting (try_acquire s id).1 = waiting s.
Proof.
  unfold try_acquire. destruct (alookup id (scheduled s)) as [st|] eqn:Hl; [|done]. destruct (_ !! _); [|done].
  destruct (can_acquire _ _); [|done]. cbn. split; [|done]. constructor; [|done]. cbn. by rewrite (dict_set_same_keys _ _ st).
Qed.

Lemma start_frame mc s id : same_frame s (try_start mc s id).1 ∧ ∀ i, i ≠ id → i ∈ waiting s → i ∈ waiting (try_start mc s id).1.
Proof.
  unfold try_start. destruct (alookup id (scheduled s)) as [st|] eqn:Hl; [|done]. destruct (_ && _); [|done]. cbn. split.
  - constructor; [|done]. cbn. by rewrite (dict_set_same_keys _ _ st).
  - intros i Hne Hi. by apply elem_of_remove_first_ne.
Qed.

Lemma same_frame_trans s1 s2 s3 : same_frame s1 s2 → same_frame s2 s3 → same_frame s1 s3.
Proof. intros [H1 H2] [H3 H4]. constructor; [by rewrite H3|by rewrite H4]. Qed.

(** One candidate. *)
Lemma candidate_step mc s b id :
  limit = Z.max 1 mc → ok s → id ∈ waiting s →
  let r := try_candidate mc (s, b) id in
  ok r.1 ∧ same_frame s r.1 ∧ (∀ i, i ≠ id → i ∈ waiting s → i ∈ waiting r.1) ∧ (progress_of s ≤ progress_of r.1)%nat ∧
  (r.2 = true → b = true ∨ (progress_of s < progress_of r.1)%nat) ∧
  (r.2 = false → b = false ∧ r.1 = s ∧ (try_acquire s id).2 = false ∧ (try_start mc s id).2 = false).
Proof.
  intros Hlim Hok Hin. unfold try_candidate. cbn [fst snd].
  pose proof (acquire_keeps s id Hok Hin) as Hok1. pose proof (acquire_progress s id) as Hp1. pose proof (acquire_idle s id) as Hi1.
  pose proof (acquire_frame s id) as [Hf1 Hw1]. destruct (try_acquire s id) as [s1 p1]. cbn [fst snd] in *.
  pose proof (start_keeps mc s1 id Hlim Hok1) as Hok2. pose proof (start_progress mc s1 id) as Hp2. pose proof (start_idle mc s1 id) as Hi2.
  pose proof (start_frame mc s1 id) as [Hf2 Hw2]. destruct (try_start mc s1 id) as [s2 p2] eqn:Hs2. cbn [fst snd] in *.
  split_and!; [done|by apply (same_frame_trans s s1 s2)| | | |].
  - intros i Hne Hi. apply Hw2; [done|]. by rewrite Hw1.
  - destruct p1, p2; [specialize (Hp1 eq_refl); specialize (Hp2 eq_refl)|specialize (Hp1 eq_refl); rewrite (Hi2 eq_refl) in *
      |specialize (Hp2 eq_refl); rewrite (Hi1 eq_refl) in *|rewrite (Hi2 eq_refl), (Hi1 eq_refl)]; lia.
  - destruct b; [by left|]. right. destruct p1, p2; [specialize (Hp1 eq_refl); specialize (Hp2 eq_refl)|specialize (Hp1 eq_refl); rewrite (Hi2 eq_refl) in *
      |specialize (Hp2 eq_refl); rewrite (Hi1 eq_refl) in *|done]; lia.
  - destruct b, p1, p2; try done. intros _. rewrite (Hi2 eq_refl), (Hi1 eq_refl) in *. by rewrite Hs2.
Qed.

(** All candidates of a round. *)
Lemma candidates_step mc ids s b :
  limit = Z.max 1 mc → ok s → NoDup ids → ids ⊆ waiting s →
  let r := foldl (try_candidate mc) (s, b) ids in
  ok r.1 ∧ same_frame s r.1 ∧ (progress_of s ≤ progress_of r.1)%nat ∧
  (r.2 = true → b = true ∨ (progress_of s < progress_of r.1)%nat) ∧
  (r.2 = false → b = false ∧ r.1 = s ∧ ∀ id, id ∈ ids → (try_acquire s id).2 = false ∧ (try_start mc s id).2 = false).
Proof.
  intros Hlim. revert s b. induction ids as [|id ids IH]; intros s b Hok Hnd Hsub.
  { cbn. split_and!; [done|done|done|by left|]. intros ->. split_and!; [done|done|set_solver]. }
  apply NoDup_cons in Hnd as [Hni Hnd]. cbn [foldl].
  destruct (candidate_step mc s b id Hlim Hok ltac:(set_solver)) as (Hok1 & Hf1 & Hw1 & Hle1 & Ht1 & Hn1).
  destruct (try_candidate mc (s, b) id) as [s1 b1]. cbn [fst snd] in *.
  destruct (IH s1 b1 Hok1 Hnd) as (Hok2 & Hf2 & Hle2 & Ht2 & Hn2).
  { intros i Hi. apply Hw1; [set_solver|]. apply Hsub. set_solver. }
  split_and!; [done|by apply (same_frame_trans s s1)|lia| |].
  - intros Hr. destruct (Ht2 Hr) as [->|?]; [destruct (Ht1 eq_refl); [by left|]|]; right; lia.
  - intros Hr. destruct (Hn2 Hr) as (-> & -> & Hall). destruct (Hn1 eq_refl) as (-> & -> & Ha & Hs). split_and!; [done|done|].
    intros i [->|Hi]%elem_of_cons; [done|by apply Hall].
Qed.

(** ** Scheduling *)

Lemma schedule_frame s id :
  id ∉ (scheduled s).*1 →
  progress_of (schedule flow s id) = progress_of s ∧ completed (schedule flow s id) = completed s ∧
  ∀ k, k ∈ (scheduled (schedule flow s id)).*1 ↔ k ∈ (scheduled s).*1 ∨ (k = id ∧ id ∈ (fs_steps flow).*1).
Proof.
  intros Hni. unfold schedule. destruct (alookup id (fs_steps flow)) as [spec|] eqn:Hl.
  - rewrite (proj2 Hkeyed _ _ Hl). apply alookup_elem_of in Hl. apply (list_elem_of_fmap_2 fst) in Hl. cbn in Hl. split_and!; [|done|].
    + unfold progress_of. cbn [scheduled running completed]. rewrite dict_set_fresh by done.
      rewrite fmap_app. change (_ <$> [(id, new_state spec)]) with [0%nat].
      assert (∀ l, sum_list (l ++ [0%nat]) = sum_list l) as -> by (induction l as [|x l IHl]; simpl in *; lia). done.
    + intros k. cbn [scheduled]. rewrite dict_set_keys. naive_solver.
  - apply alookup_None in Hl. naive_solver.
Qed.

Lemma schedule_nexts ids s :
  ok s → (∀ id, id ∈ ids → id ∈ (fs_steps flow).*1 → reached flow id) →
  let r := foldl (schedule_next flow) s ids in
  ok r ∧ progress_of r = progress_of s ∧ completed r = completed s ∧
  ∀ k, k ∈ (scheduled s).*1 ∨ (k ∈ ids ∧ k ∈ (fs_steps flow).*1) → k ∈ (scheduled r).*1.
Proof.
  revert s. induction ids as [|id ids IH]; intros s Hok Hre; cbn [foldl].
  { split_and!; [done..|]. set_solver. }
  destruct (decide (id ∈ (scheduled s).*1)) as [Hin|Hni].
  - assert (schedule_next flow s id = s) as ->.
    { unfold schedule_next. rewrite (bool_decide_eq_true_2 (id ∈ (scheduled s).*1)) by done. by rewrite orb_true_r. }
    destruct (IH s Hok) as (H1 & H2 & H3 & H4); [set_solver|]. split_and!; [done..|]. intros k Hk. apply H4. set_solver.
  - assert (schedule_next flow s id = schedule flow s id) as ->.
    { unfold schedule_next. rewrite !bool_decide_eq_false_2; [done|done|]. intros Hc. apply Hni. rewrite <-(so_ids _ _ _ Hok). set_solver. }
    destruct (schedule_frame s id Hni) as (Hp & Hc & Hk). pose proof (schedule_keeps s id Hok Hni (Hre id ltac:(set_solver))) as Hok'.
    destruct (IH _ Hok') as (H1 & H2 & H3 & H4); [set_solver|]. split_and!; [done|by rewrite H2|by rewrite H3|].
    intros k Hk'. apply H4. rewrite Hk. set_solver.
Qed.

(** What follows the entry and the finished steps is scheduled. *)
Definition closed (s : sim) : Prop :=
  (∀ id, id ∈ fs_entry flow → id ∈ (fs_steps flow).*1 → id ∈ (scheduled s).*1) ∧
  ∀ id spec nxt, id ∈ (completed s).*1 → alookup id (fs_steps flow) = Some spec → nxt ∈ ss_next spec →
    nxt ∈ (fs_steps flow).*1 → nxt ∈ (scheduled s).*1.

Lemma closed_frame s s' : same_frame s s' → closed s → closed s'.
Proof. intros [Hk Hc]. unfold closed. by rewrite Hk, Hc. Qed.

Lemma finish_step s :
  ok s → closed s → running s ≠ [] → ok (finish flow s) ∧ closed (finish flow s) ∧ (progress_of s < progress_of (finish flow s))%nat.
Proof.
  intros Hok Hcl Hne. unfold finish. pose proof (sort_by_perm (started_or s) (running s)) as Hp.
  destruct (sort_by _ (running s)) as [|id rest]; [by apply Permutation_nil in Hp|].
  destruct (running_scheduled s id Hok) as [st Hl]; [rewrite <-Hp; set_solver|]. rewrite Hl.
  change (foldl (schedule_next flow) _ _) with (foldl (schedule_next flow) (finished_sim s id rest st) (ss_next (st_spec st))).
  pose proof (finished_keeps s id rest st Hok (symmetry Hp) Hl) as Hok'. destruct (so_state _ _ _ Hok id st Hl) as [Hspec _ _ _].
  pose proof (proj2 Hkeyed _ _ Hspec) as Hid.
  assert (id ∈ (scheduled s).*1) as Hk by (apply alookup_elem_of in Hl; by apply (list_elem_of_fmap_2 fst _ (id, st))).
  destruct (schedule_nexts (ss_next (st_spec st)) (finished_sim s id rest st) Hok') as (H1 & H2 & H3 & H4).
  { intros nxt Hn Hs. apply (reached_next flow id (st_spec st)); [by apply (so_reach _ _ _ Hok)|done..]. }
  assert (id ∉ (completed s).*1) as Hnc.
  { pose proof (live_nodup s Hok) as Hnd. rewrite <-Hp in Hnd. intros Hc. apply NoDup_app in Hnd as (_ & _ & Hnd).
    apply NoDup_app in Hnd as (_ & Hdis & _). apply (Hdis id); [set_solver|done]. }
  assert (completed (finished_sim s id rest st) =
    completed s ++ [(id, mkState (st_spec st) (st_acquired st) (st_held st) (st_started st)
      (Some (Z.max (now s) (started_or s id + ss_duration (st_spec st)))))]) as Hcomp.
  { unfold finished_sim. cbn [completed st_spec]. rewrite Hid. by rewrite dict_set_fresh. }
  assert ((scheduled (finished_sim s id rest st)).*1 = (scheduled s).*1) as Hkeys.
  { unfold finished_sim. cbn [scheduled]. by rewrite (dict_set_same_keys _ _ st). }
  split_and!; [done| |].
  - destruct Hcl as [Hen Hnx]. split.
    + intros i Hi Hs. apply H4. left. rewrite Hkeys. by apply Hen.
    + intros i spec nxt Hi Hsp Hn Hs. rewrite H3, Hcomp, fmap_app in Hi. apply H4. rewrite Hkeys.
      apply elem_of_app in Hi as [Hi|Hi%list_elem_of_singleton]; [left; by apply (Hnx i spec)|]. cbn in Hi. subst i.
      right. rewrite Hspec in Hsp. injection Hsp as <-. done.
  - rewrite H2. unfold progress_of. rewrite Hcomp, length_app. unfold finished_sim. cbn [scheduled running length].
    match goal with |- context [dict_set id ?x _] => pose proof (sum_set id x st _ Hl) as Hs end. cbn [st_acquired] in Hs.
    rewrite <-Hp. cbn [length]. lia.
Qed.

(** ** Progress is bounded *)

Lemma sum_list_perm (l k : list nat) : l ≡ₚ k → sum_list l = sum_list k.
Proof. induction 1; simpl in *; lia. Qed.

Lemma sum_list_app (l k : list nat) : sum_list (l ++ k) = (sum_list l + sum_list k)%nat.
Proof. induction l; simpl in *; lia. Qed.

Lemma progress_bound s : ok s → (progress_of s ≤ flow_work flow)%nat.
Proof.
  intros Hok. set (specs := (λ kv : string * StepState, (kv.1, st_spec kv.2)) <$> scheduled s).
  assert (specs ⊆+ fs_steps flow) as Hsub.
  { apply NoDup_submseteq.
    - apply (NoDup_fmap_1 fst). unfold specs. rewrite <-list_fmap_compose. apply (so_keys _ _ _ Hok).
    - intros [k sp] Hin. apply list_elem_of_fmap in Hin as ([k' st] & [= -> ->] & Hin).
      apply alookup_NoDup in Hin; [|apply (so_keys _ _ _ Hok)]. apply alookup_elem_of, (so_state _ _ _ Hok k' st Hin). }
  apply submseteq_Permutation in Hsub as [rest Hperm]. unfold flow_work.
  rewrite (sum_list_perm _ _ (fmap_Permutation _ _ _ Hperm)), fmap_app, sum_list_app.
  assert (length (running s) + length (completed s) ≤ length (scheduled s))%nat as Hlen.
  { pose proof (Permutation_length (so_ids _ _ _ Hok)) as Hl. rewrite !length_app, !length_fmap in Hl. lia. }
  assert (∀ l : list (string * StepState), (∀ kv, kv ∈ l → st_acquired kv.2 ≤ length (ss_locks (st_spec kv.2)))%nat →
    sum_list ((λ kv : string * StepState, st_acquired kv.2) <$> l) + 2 * length l ≤
    sum_list ((λ kv : string * StepSpec, length (ss_locks kv.2) + 2) <$> ((λ kv : string * StepState, (kv.1, st_spec kv.2)) <$> l)))%nat as Hsum.
  { intros l. induction l as [|[k st] l IH]; intros Hall; [done|]. rewrite !fmap_cons. cbn [sum_list length fst snd].
    specialize (IH ltac:(intros kv Hkv; apply Hall; set_solver)). specialize (Hall (k, st) ltac:(set_solver)). cbn [snd] in Hall.
    simpl in *. lia. }
  specialize (Hsum (scheduled s)). unfold progress_of.
  assert (∀ kv, kv ∈ scheduled s → st_acquired kv.2 ≤ length (ss_locks (st_spec kv.2)))%nat as Hall.
  { intros [k st] Hin. apply alookup_NoDup in Hin; [|apply (so_keys _ _ _ Hok)]. apply (so_state _ _ _ Hok k st Hin). }
  specialize (Hsum Hall). fold specs in Hsum. lia.
Qed.

(** ** Reports *)

(** The steps of a deadlock: each waits for its next lock, which another of
    them, or itself, has already taken in a mode that excludes it. *)
Definition deadlocked (pos : string → nat) (ids : list string) : Prop :=
  ids ≠ [] ∧ ∀ id, id ∈ ids → ∃ r, locks_of flow id !! pos id = Some r ∧
    ∃ id' r', id' ∈ ids ∧ r' ∈ take (pos id') (locks_of flow id') ∧ lk_name r' = lk_name r ∧
      (lk_mode r' = exclusive ∨ lk_mode r = exclusive).

Record report_ok (rep : SimulationReport) : Prop := {
  ro_safe : log_safe flow limit (sr_events rep);
  ro_times : Sorted Z.le (time_of <$> sr_events rep);
  ro_once : NoDup (started_of (sr_events rep)) ∧ NoDup (finished_of (sr_events rep));
  ro_sub : finished_of (sr_events rep) ⊆ started_of (sr_events rep);
  ro_count : sr_finished rep = Z.of_nat (length (finished_of (sr_events rep)));
  ro_done : sr_deadlocks rep = 0 → ∀ id, id ∈ finished_of (sr_events rep) ↔ reached flow id;
  ro_stuck : sr_deadlocks rep ≠ 0 → sr_deadlocks rep = 1 ∧ ∃ pos ids, deadlocked pos ids ∧
    ∀ id, id ∈ ids → reached flow id ∧ id ∉ started_of (sr_events rep)
}.

Lemma reached_scheduled s id : closed s → waiting s = [] → running s = [] → ok s → reached flow id → id ∈ (completed s).*1.
Proof.
  intros [Hen Hnx] Hw Hr Hok. assert (∀ k, k ∈ (scheduled s).*1 → k ∈ (completed s).*1) as Hall.
  { intros k. rewrite <-(so_ids _ _ _ Hok), Hw, Hr. done. }
  induction 1 as [id Hi Hs|id spec nxt _ IH Hsp Hn Hs]; apply Hall; [by apply Hen|by apply (Hnx id spec)].
Qed.

Lemma report_of s d lk :
  ok s → (d = 0 → ∀ id, id ∈ (completed s).*1 ↔ reached flow id) →
  (d ≠ 0 → d = 1 ∧ ∃ pos, deadlocked pos (waiting s)) →
  report_ok (mkReport (Z.of_nat (length (completed s))) d (events s) lk).
Proof.
  intros Hok Hd Hs. pose proof Hok as [_ _ _ Hr _ _ _ _ Hsafe Hsd Hf [Ht _]]. pose proof (live_nodup s Hok) as Hnd.
  apply NoDup_app in Hnd as (_ & Hdis & Hnd).
  constructor; cbn [sr_events sr_finished sr_deadlocks]; rewrite ?Hf; [done|done| | | |done|].
  - rewrite Hsd. split; [done|]. by apply NoDup_app in Hnd as (_ & _ & ?).
  - intros x Hx. rewrite Hsd. set_solver.
  - by rewrite length_fmap.
  - intros Hd'. destruct (Hs Hd') as [-> [pos Hp]]. split; [done|]. exists pos, (waiting s). split; [done|].
    intros id Hid. rewrite Hsd. split; [|by apply Hdis]. apply Hr. rewrite <-(so_ids _ _ _ Hok). set_solver.
Qed.

(** Without progress, nothing runs and every waiting step is blocked. *)
Lemma stuck_deadlock mc s :
  ok s → waiting s ≠ [] → running s = [] →
  (∀ id, id ∈ waiting s → (try_acquire s id).2 = false ∧ (try_start mc s id).2 = false) → ∃ pos, deadlocked pos (waiting s).
Proof.
  intros Hok Hw Hr Hall. exists (λ id, match alookup id (scheduled s) with Some st => st_acquired st | None => 0%nat end). split; [done|].
  intros id Hid. destruct (waiting_scheduled s id Hok Hid) as [st Hl]. rewrite Hl. destruct (Hall id Hid) as [Ha Hs].
  pose proof (so_state _ _ _ Hok id st Hl) as Hst. rewrite (locks_of_state _ _ _ _ Hst). unfold try_acquire in Ha. rewrite Hl in Ha.
  destruct (ss_locks (st_spec st) !! st_acquired st) as [req|] eqn:Hreq.
  - exists req. split; [done|]. destruct (can_acquire (locks_held s) req) eqn:Hcan; [done|].
    destruct (blocked_by _ _ _ (so_counts _ _ _ Hok) Hcan) as (r & Hrin & Hn & Hm). unfold held in Hrin. rewrite Hr, app_nil_r in Hrin.
    apply list_elem_of_bind in Hrin as (id' & Hrin & Hid'). exists id', r. split; [done|].
    destruct (waiting_scheduled s id' Hok Hid') as [st' Hl']. rewrite Hl'. pose proof (so_state _ _ _ Hok id' st' Hl') as Hst'.
    rewrite (locks_of_state _ _ _ _ Hst'). unfold held_in in Hrin. rewrite Hl', (to_held _ _ _ _ Hst') in Hrin. done.
  - apply lookup_ge_None in Hreq. destruct Hst as [_ _ Hb _]. unfold try_start in Hs. rewrite Hl, Hr in Hs.
    rewrite (proj2 (Nat.eqb_eq _ _)) in Hs by lia. rewrite bool_decide_eq_true_2 in Hs by done. cbn [andb length] in Hs.
    rewrite (proj2 (Z.ltb_lt _ _)) in Hs by lia. done.
Qed.

Context (shuffle : nat → list string → list string) (Hshuffle : ∀ n l, shuffle n l ≡ₚ l).

Lemma sim_round_step mc n s :
  limit = Z.max 1 mc → ok s → closed s →
  let r := sim_round shuffle flow mc n s in
  ok r.1 ∧ closed r.1 ∧ (r.2 = true → (progress_of s < progress_of r.1)%nat) ∧
  (r.2 = false → r.1 = s ∧ running s = [] ∧ (waiting s ≠ [] → ∃ pos, deadlocked pos (waiting s))).
Proof.
  intros Hlim Hok Hcl. unfold sim_round.
  destruct (candidates_step mc (shuffle n (waiting s)) s false Hlim Hok) as (Hok1 & Hf1 & Hle & Ht1 & Hn1).
  { rewrite Hshuffle. pose proof (live_nodup s Hok) as Hnd. by apply NoDup_app in Hnd as (? & _ & _). }
  { intros i. by rewrite Hshuffle. }
  destruct (foldl (try_candidate mc) (s, false) (shuffle n (waiting s))) as [s1 b]. cbn [fst snd] in *.
  pose proof (closed_frame _ _ Hf1 Hcl) as Hcl1. destruct (running s1) as [|x run] eqn:Hrun; cbn [fst snd].
  - split_and!; [done|done|intros Hb; by destruct (Ht1 Hb)|]. intros Hb. destruct (Hn1 Hb) as (_ & -> & Hall). split_and!; [done|done|].
    intros Hw. apply (stuck_deadlock mc); [done|done|done|]. intros id Hid. apply Hall. by rewrite Hshuffle.
  - destruct (finish_step s1 Hok1 Hcl1) as (H1 & H2 & H3); [by rewrite Hrun|]. split_and!; [done|done|lia|done].
Qed.

Lemma loop_reports mc fuel n s :
  limit = Z.max 1 mc → ok s → closed s → (flow_work flow - progress_of s < fuel)%nat →
  ∃ rep, sim_loop shuffle fuel flow mc n s = Some rep ∧ report_ok rep.
Proof.
  intros Hlim. revert n s. induction fuel as [|fuel IH]; intros n s Hok Hcl Hfuel; [lia|].
  destruct (decide (waiting s = [] ∧ running s = [])) as [[Hw Hr]|Hne].
  { exists (mkReport (Z.of_nat (length (completed s))) 0 (events s) None). cbn [sim_loop]. rewrite Hw, Hr. split; [done|].
    apply report_of; [done| |done]. intros _ id. split; [|by apply reached_scheduled].
    intros Hid. apply (so_reach _ _ _ Hok). rewrite <-(so_ids _ _ _ Hok). set_solver. }
  destruct (sim_round_step mc n s Hlim Hok Hcl) as (Hok1 & Hcl1 & Ht & Hn). cbn [sim_loop].
  destruct (sim_round shuffle flow mc n s) as [s1 b]. cbn [fst snd] in *.
  assert (∃ rep, (if b then sim_loop shuffle fuel flow mc (S n) s1
    else Some (mkReport (Z.of_nat (length (completed s1))) 1 (events s1) (Some (locks_held s1)))) = Some rep ∧ report_ok rep) as Hgoal.
  { destruct b.
    - specialize (Ht eq_refl). pose proof (progress_bound s1 Hok1). apply IH; [done|done|lia].
    - destruct (Hn eq_refl) as (-> & Hr & Hd). eexists. split; [done|]. apply report_of; [done|done|]. intros _. split; [done|].
      apply Hd. naive_solver. }
  destruct (waiting s), (running s); [naive_solver|done..].
Qed.
End steps.

(** ** Flows as they are parsed *)

Section parsed.
Context {PT : PyText}.

Lemma step_spec_id id raw spec : step_spec id raw = Ok spec → ss_id spec = id.
Proof. unfold step_spec. destruct (jor _ _); try done. intros Hs. inv_ok. by subst. Qed.

Lemma parse_steps_keyed doc steps inc steps' inc' :
  parse_steps doc steps inc = Ok (steps', inc') → NoDup steps.*1 → (∀ k spec, alookup k steps = Some spec → ss_id spec = k) →
  NoDup steps'.*1 ∧ ∀ k spec, alookup k steps' = Some spec → ss_id spec = k.
Proof.
  revert steps inc. induction doc as [|[id raw] doc IH]; intros steps inc Hp Hnd Hk; cbn [parse_steps] in Hp; [by simplify_eq|].
  inv_ok. apply IH in Hp; [done|by apply NoDup_dict_set|]. intros k spec Hl. rewrite alookup_dict_set in Hl. case_decide; [|by apply Hk].
  simplify_eq. by eapply step_spec_id.
Qed.

Lemma parse_flow_keyed doc flow : _parse_flow doc = Ok flow → keyed flow ∧ NoDup (fs_entry flow).
Proof.
  unfold _parse_flow. case_match; try done. intros Hp. inv_ok. subst flow. match goal with p : (_ * _)%type |- _ => destruct p as [steps inc] end.
  cbn [fst snd] in *. unfold keyed. cbn [fs_steps fs_entry].
  match goal with H : parse_steps _ _ _ = _ |- _ => apply parse_steps_keyed in H as [Hnd Hk]; [|constructor|done] end.
  split; [done|]. unfold entry_points.
  destruct (sort_strings (filter _ steps.*1)) as [|x xs] eqn:Hs.
  - destruct (sort_strings steps.*1); cbn; [constructor|apply NoDup_singleton].
  - rewrite <-Hs. unfold sort_strings. rewrite merge_sort_Permutation. by apply NoDup_filter.
Qed.
End parsed.

Lemma initial_ok flow limit :
  keyed flow → NoDup (fs_entry flow) → 1 ≤ limit → sim_ok flow limit (initial_sim flow) ∧ closed flow (initial_sim flow).
Proof.
  intros Hk Hnd Hlim. unfold initial_sim.
  assert (∀ ids s, sim_ok flow limit s → NoDup ids → (∀ id, id ∈ ids → id ∈ fs_entry flow ∧ id ∉ (scheduled s).*1) → completed s = [] →
    let r := foldl (schedule flow) s ids in sim_ok flow limit r ∧ completed r = [] ∧
      ∀ k, k ∈ (scheduled s).*1 ∨ (k ∈ ids ∧ k ∈ (fs_steps flow).*1) → k ∈ (scheduled r).*1) as Hfold.
  { induction ids as [|id ids IH]; intros s Hok Hndi Hids Hc; [split_and!; [done|done|set_solver]|]. cbn [foldl].
    apply NoDup_cons in Hndi as [Hni Hndi]. destruct (Hids id ltac:(set_solver)) as [Hen Hns].
    destruct (schedule_frame flow Hk s id Hns) as (_ & Hc' & Hkeys).
    destruct (IH (schedule flow s id)) as (H1 & H2 & H3).
    - apply schedule_keeps; [done|done|done|]. intros Hs. by apply reached_entry.
    - done.
    - intros i Hi. destruct (Hids i ltac:(set_solver)) as [Hi1 Hi2]. split; [done|]. rewrite Hkeys. set_solver.
    - by rewrite Hc'.
    - split_and!; [done|done|]. intros k Hkk. apply H3. rewrite Hkeys. set_solver. }
  destruct (Hfold (fs_entry flow) (mkSim 0 [] [] [] [] [] [])) as (H1 & H2 & H3).
  - constructor; [constructor|done|done|intros id Hid; by apply not_elem_of_nil in Hid|done|done|cbn; lia|done| |done|done|by repeat constructor].
    intros q Hq. apply prefix_nil_inv in Hq. subst q. constructor; [constructor|cbn; lia|]. intros i j r1 r2 Hi. by apply not_elem_of_nil in Hi.
  - done.
  - intros id Hid. split; [done|]. apply not_elem_of_nil.
  - done.
  - split; [done|]. split; [intros id Hid Hs; apply H3; by right|]. intros id spec nxt Hid. rewrite H2 in Hid. cbn in Hid. set_solver.
Qed.

(** C32: Whatever order the candidates of a round are tried in, simulating a
    document that parses ends with a report.  At every point of its log at
    most [max(1, max_concurrency)] steps run, and two of them take the same
    lock only when both share it; times never go back and no step starts
    twice.  Without a deadlock the finished steps are exactly those reached
    from the entry points; with one, there are waiting steps each of whose
    next lock one of them already holds. *)
Theorem simulate_reports `{PyText} shuffle doc flow max_concurrency :
  (∀ n l, shuffle n l ≡ₚ l) → _parse_flow doc = Ok flow →
  ∃ rep, simulate shuffle doc max_concurrency = Ok (Some rep) ∧ report_ok flow (Z.max 1 max_concurrency) rep.
Proof.
  intros Hsh Hp. unfold simulate. rewrite Hp. cbn [mbind res_bind].
  destruct (parse_flow_keyed doc flow Hp) as [Hk Hnd].
  destruct (initial_ok flow (Z.max 1 max_concurrency) Hk Hnd) as [Hok Hcl]; [lia|].
  destruct (loop_reports flow (Z.max 1 max_concurrency) Hk shuffle Hsh max_concurrency (S (flow_work flow)) 0 (initial_sim flow))
    as (rep & Hrun & Hrep); [done|done|done|lia|]. exists rep. by rewrite Hrun.
Qed.

(** ** Flows simulated *)

Definition sim_step (locks : list (string * string)) (next : list string) (duration : Z) : json :=
  JObj [("locks", JArr ((λ l : string * string, JObj [("name", JStr l.1); ("mode", JStr l.2)]) <$> locks));
        ("next", JArr (JStr <$> next)); ("duration_ms", JInt duration)].

(** Two steps that take two locks in opposite orders. *)
Definition crossed : list (string * json) :=
  [("id", JStr "crossed");
   ("steps", JObj [("a", sim_step [("db", "exclusive"); ("log", "exclusive")] ["c"] 10);
                   ("b", sim_step [("log", "exclusive"); ("db", "exclusive")] ["c"] 10);
                   ("c", sim_step [] [] 5)])].

(** Two readers that run together. *)
Definition readers : list (string * json) :=
  [("id", JStr "readers");
   ("steps", JObj [("a", sim_step [("db", "shared")] ["w"] 100); ("b", sim_step [("db", "shared")] ["w"] 10);
                   ("w", sim_step [("db", "exclusive")] [] 5)])].

Definition in_order (_ : nat) (l : list string) : list string := l.

Lemma simulate_reports_witness :
  match @_parse_flow plain_text readers with
  | Ok flow => ∃ rep, @simulate in_order plain_text readers 2 = Ok (Some rep) ∧ report_ok flow 2 rep
  | Raise _ => False
  end.
Proof.
  destruct (@_parse_flow plain_text readers) as [flow|e] eqn:Hp; [|by vm_compute in Hp].
  apply (@simulate_reports plain_text in_order readers flow 2); [by intros|exact Hp].
Defined.

(** A round of crossed locks ends in a deadlock. *)
Lemma crossed_deadlock :
  @simulate in_order plain_text crossed 2 =
    Ok (Some (mkReport 0 1 [] (Some [("db", mkSlot 0 1); ("log", mkSlot 0 1)]))).
Proof. vm_compute. done. Qed.

(** A start at time zero counts as a start at the time the step is looked at:
    [b] runs from 0 for 10 units and is reported to finish at 110. *)
Lemma zero_start_delayed :
  (∃ rep, @simulate in_order plain_text readers 2 = Ok (Some rep) ∧
    sr_events rep = [step_started "a" 0; step_started "b" 0; step_finished "a" 100; step_finished "b" 110;
                     step_started "w" 110; step_finished "w" 115]).
Proof. eexists. split; [vm_compute; done|done]. Qed.
