(* ===== verification/Conflicts.v ===== *)
(** * Conflicts between flows and policies ([tm/validate/static.py])

    The checks of [tm validate] over documents: repeated ids, environments,
    locks and schedules shared by flows, and arms of a policy that overlap. *)

From S2P Require Import Prelude PyVal PyConv.
From stdpp Require Import base gmap strings list.
From Stdlib Require Import ZArith Lia Ascii.

Local Open Scope Z_scope.

Record Conflict : Type := mkConflict { cf_kind : string; cf_detail : string; cf_subjects : list string }.

(** ** Numeric ranges *)

Record NumericRange : Type := mkRange {
  nr_lower : pyfloat;
  nr_lower_inclusive : bool;
  nr_upper : pyfloat;
  nr_upper_inclusive : bool
}.

Record FieldCondition : Type := mkCond { fc_expr : string; fc_numeric : option NumericRange }.

Definition _ranges_overlap (a b : NumericRange) : bool :=
  let '(lower, lower_inc) :=
    if flt (nr_lower b) (nr_lower a) then (nr_lower a, nr_lower_inclusive a)
    else if flt (nr_lower a) (nr_lower b) then (nr_lower b, nr_lower_inclusive b)
    else (nr_lower a, nr_lower_inclusive a && nr_lower_inclusive b) in
  let '(upper, upper_inc) :=
    if flt (nr_upper a) (nr_upper b) then (nr_upper a, nr_upper_inclusive a)
    else if flt (nr_upper b) (nr_upper a) then (nr_upper b, nr_upper_inclusive b)
    else (nr_upper a, nr_upper_inclusive a && nr_upper_inclusive b) in
  if flt lower upper then true else if feq lower upper then lower_inc && upper_inc else false.

(** [text[len(op):]] when [text] starts with [op]. *)
Fixpoint after_op (op text : string) : option string :=
  match op, text with
  | EmptyString, _ => Some text
  | String a op, String b text => if decide (a = b) then after_op op text else None
  | String _ _, EmptyString => None
  end.

(** The range of an operator and its value. *)
Definition range_of (op : string) (value : pyfloat) : NumericRange :=
  if String.eqb op "<" then mkRange NInf false value false
  else if String.eqb op "<=" then mkRange NInf false value true
  else if String.eqb op ">" then mkRange value false PInf false
  else if String.eqb op ">=" then mkRange value true PInf false
  else mkRange value true value true.

Definition operators : list string := ["<="; ">="; "<"; ">"; "=="; "="].

Section conflicts.
Context {PT : PyText}.

Definition text (v : json) : string := py_str other_str v.

Fixpoint parse_operator (ops : list string) (t : string) : option NumericRange :=
  match ops with
  | [] => range_of "=" <$> float_of_str t
  | op :: ops =>
      match after_op op t with
      | Some value => range_of op <$> float_of_str (strip value)
      | None => parse_operator ops t
      end
  end.

Definition _parse_numeric_expr (expr : string) : option NumericRange := parse_operator operators (strip expr).

Definition _normalize_condition (condition : list (string * json)) : list (string * FieldCondition) :=
  foldl (λ result kv, let expr := text kv.2 in dict_set kv.1 (mkCond expr (_parse_numeric_expr expr)) result) [] condition.

Definition fields_overlap (a b : FieldCondition) : bool :=
  match fc_numeric a, fc_numeric b with
  | Some ra, Some rb => _ranges_overlap ra rb
  | _, _ => String.eqb (fc_expr a) (fc_expr b)
  end.

Definition _conditions_overlap (a b : list (string * FieldCondition)) : bool :=
  existsb (λ kv : string * FieldCondition,
    match alookup kv.1 b with Some cb => fields_overlap kv.2 cb | None => false end) a.

(** ** Ids *)

Definition _collect (ids : list string) : list (string * Z) :=
  foldl (λ counts item, dict_set item (default 0 (alookup item counts) + 1) counts) [] ids.

Definition id_conflicts (what missing : string) (counts : list (string * Z)) : list Conflict :=
  kv ← counts;
  (if String.eqb kv.1 "" then [mkConflict (what +:+ ".missing_id") missing [kv.1]] else []) ++
  (if 1 <? kv.2 then [mkConflict (what +:+ ".id_collision") (what +:+ " id '" +:+ kv.1 +:+ "' repeated") [kv.1]] else []).

Definition or_unknown (id : string) : string := if String.eqb id "" then "<unknown>" else id.

(** ** Flows *)

Record usage : Type := mkUsage { us_exclusive : list string; us_shared : list string }.

Record found : Type := mkFound {
  fd_conflicts : list Conflict;
  fd_locks : list (string * usage);
  fd_crons : list (string * list string)
}.

Definition set_add (x : string) (l : list string) : list string := if decide (x ∈ l) then l else l ++ [x].

Definition add_conflicts (cs : list Conflict) (f : found) : found :=
  mkFound (fd_conflicts f ++ cs) (fd_locks f) (fd_crons f).

Definition is_scalar (v : json) : bool :=
  match v with JStr _ | JInt _ | JFloat _ | JBool _ => true | _ => false end.

Definition env_conflicts (fid : string) (env : json) : list Conflict :=
  match env with
  | JNull => []
  | JObj m =>
      kv ← m;
      if is_scalar kv.2 then []
      else [mkConflict "flow.env_invalid" ("flow '" +:+ fid +:+ "' has non-scalar env value for '" +:+ kv.1 +:+ "'") [fid; kv.1]]
  | _ => [mkConflict "flow.env_invalid" ("flow '" +:+ fid +:+ "' env must be mapping") [fid]]
  end.

Definition check_cron (fid : string) (schedule : json) (f : found) : found :=
  match schedule with
  | JObj m =>
      match jget "cron" m with
      | JStr expr =>
          let expr := strip expr in
          if String.eqb expr "" then f
          else mkFound (fd_conflicts f) (fd_locks f)
                 (dict_set expr (set_add fid (default [] (alookup expr (fd_crons f)))) (fd_crons f))
      | _ => f
      end
  | _ => f
  end.

Definition use_lock (exclusive : bool) (fid : string) (u : usage) : usage :=
  if exclusive then mkUsage (set_add fid (us_exclusive u)) (us_shared u)
  else mkUsage (us_exclusive u) (set_add fid (us_shared u)).

Definition lock_mode_of (m : list (string * json)) : string := str_lower (text (get_or "mode" (JStr "exclusive") m)).

Definition check_lock (fid : string) (f : found) (entry : json) : found :=
  match entry with
  | JObj m =>
      let name := text (get_or "name" (JStr "") m) in
      if String.eqb name "" then
        add_conflicts [mkConflict "flow.lock_invalid" ("flow '" +:+ fid +:+ "' has lock without name") [fid]] f
      else
        let mode := lock_mode_of m in
        let f :=
          if String.eqb mode "exclusive" || String.eqb mode "shared" then f
          else add_conflicts [mkConflict "flow.lock_invalid"
                 ("flow '" +:+ fid +:+ "' lock '" +:+ name +:+ "' has invalid mode '" +:+ mode +:+ "'") [fid; name]] f in
        let slot := default (mkUsage [] []) (alookup name (fd_locks f)) in
        mkFound (fd_conflicts f) (dict_set name (use_lock (negb (String.eqb mode "shared")) fid slot) (fd_locks f)) (fd_crons f)
  | _ => f
  end.

(** The lock entries of a flow, in order: what is not iterable has none. *)
Definition step_locks (spec : json) : list json :=
  match spec with
  | JObj m => match py_iter (jget "locks" m) with Ok entries => entries | Raise _ => [] end
  | _ => []
  end.

Definition flow_locks (steps : json) : list json :=
  match steps with JObj m => mjoin ((λ kv : string * json, step_locks kv.2) <$> m) | _ => [] end.

Definition flow_id (flow : list (string * json)) : string := text (get_or "id" (JStr "") flow).

Definition check_flow (f : found) (flow : list (string * json)) : found :=
  let fid := or_unknown (flow_id flow) in
  let f := add_conflicts (env_conflicts fid (jget "env" flow)) f in
  let f := check_cron fid (jget "schedule" flow) f in
  foldl (check_lock fid) f (flow_locks (jget "steps" flow)).

Definition names_text (names : list string) : string := text (JArr (JStr <$> names)).

Definition lock_conflicts (locks : list (string * usage)) : list Conflict :=
  kv ← locks;
  let exclusives := us_exclusive kv.2 in
  let shareds := us_shared kv.2 in
  (if (1 <? length exclusives)%nat
   then [mkConflict "flow.lock_conflict" ("lock '" +:+ kv.1 +:+ "' exclusive in flows " +:+ names_text (sort_strings exclusives))
           (sort_strings exclusives)]
   else []) ++
  (match exclusives, shareds with
   | _ :: _, _ :: _ =>
       [mkConflict "flow.lock_conflict" ("lock '" +:+ kv.1 +:+ "' exclusive/shared mix across flows")
          (sort_strings (foldl (λ l x, set_add x l) exclusives shareds))]
   | _, _ => []
   end).

Definition cron_conflicts (crons : list (string * list string)) : list Conflict :=
  kv ← crons;
  if (1 <? length kv.2)%nat
  then [mkConflict "flow.cron_overlap" ("cron '" +:+ kv.1 +:+ "' shared by flows " +:+ names_text (sort_strings kv.2)) (sort_strings kv.2)]
  else [].

(** ** Policies *)

Definition arm_entries (arms : json) : list (list (string * json)) :=
  match arms with
  | JArr l => omap as_mapping l
  | _ => []
  end.

Definition normalize_arm (arm : list (string * json)) : string * list (string * FieldCondition) :=
  let name := text (get_or "name" (JStr "") arm) in
  (if String.eqb name "" then "<unnamed>" else name,
   _normalize_condition (default [] (as_mapping (get_or "if" (JObj []) arm)))).

Fixpoint arm_conflicts (pid : string) (arms : list (string * list (string * FieldCondition))) : list Conflict :=
  match arms with
  | [] => []
  | a :: arms =>
      (b ← arms;
       if _conditions_overlap a.2 b.2
       then [mkConflict "policy.arm_overlap" ("policy '" +:+ pid +:+ "' arms '" +:+ a.1 +:+ "' and '" +:+ b.1 +:+ "' overlap") [pid; a.1; b.1]]
       else []) ++ arm_conflicts pid arms
  end.

Definition policy_id (policy : list (string * json)) : string := text (get_or "policy_id" (JStr "") policy).

Definition policy_conflicts (policy : list (string * json)) : list Conflict :=
  arm_conflicts (or_unknown (policy_id policy)) (normalize_arm <$> arm_entries (jget "arms" policy)).

Definition find_conflicts (flows policies : list (list (string * json))) : list Conflict :=
  let ids := id_conflicts "flow" "flow missing id" (_collect (flow_id <$> flows)) ++
             id_conflicts "policy" "policy missing policy_id" (_collect (policy_id <$> policies)) in
  let f := foldl check_flow (mkFound ids [] []) flows in
  fd_conflicts f ++ lock_conflicts (fd_locks f) ++ cron_conflicts (fd_crons f) ++ (policies ≫= policy_conflicts).
End conflicts.

(** ** Ranges have a common value exactly when they overlap

    Between two different bounds there is a value although there may be none
    in the unit of the model, so values are counted in half units. *)

Definition twice (a : pyfloat) : pyfloat := match a with Fin z => Fin (2 * z) | _ => a end.

Definition in_range (x : pyfloat) (r : NumericRange) : Prop :=
  (flt (twice (nr_lower r)) x = true ∨ (nr_lower_inclusive r = true ∧ feq (twice (nr_lower r)) x = true)) ∧
  (flt x (twice (nr_upper r)) = true ∨ (nr_upper_inclusive r = true ∧ feq x (twice (nr_upper r)) = true)).

Definition nan_free (r : NumericRange) : Prop := nr_lower r ≠ NaN ∧ nr_upper r ≠ NaN.

(** Decide comparisons of floats by cases. *)
Ltac float_cases :=
  repeat match goal with a : pyfloat |- _ => destruct a end; cbn [flt feq twice] in *.

Lemma flt_between a b : flt a b = true → ∃ x, flt (twice a) x = true ∧ flt x (twice b) = true.
Proof.
  destruct a as [a| | |], b as [b| | |]; cbn; intros H; try done.
  - exists (Fin (2 * a + 1)). cbn. lia.
  - exists (Fin (2 * a + 1)). cbn. lia.
  - exists (Fin (2 * b - 1)). cbn. lia.
  - by exists (Fin 0).
Qed.

Lemma flt_through a b x : flt (twice a) x = true ∨ feq (twice a) x = true → flt x (twice b) = true ∨ feq x (twice b) = true →
  flt a b = true ∨ feq a b = true.
Proof. destruct a, b, x; cbn; intros [?|?] [?|?]; try done; try (left; done); try (right; done); lia. Qed.

Lemma flt_strict a b x : flt (twice a) x = true → flt x (twice b) = true ∨ feq x (twice b) = true → flt a b = true.
Proof. destruct a, b, x; cbn; intros H [?|?]; try done; lia. Qed.

Lemma flt_strict_r a b x : flt (twice a) x = true ∨ feq (twice a) x = true → flt x (twice b) = true → flt a b = true.
Proof. destruct a, b, x; cbn; intros [Hx|Hx] Hy; try done; lia. Qed.

Lemma flt_trans_twice a b x : flt a b = true → flt (twice b) x = true ∨ feq (twice b) x = true → flt (twice a) x = true.
Proof. destruct a, b, x; cbn; intros H [?|?]; try done; lia. Qed.

Lemma flt_trans_twice_r a b x : flt a b = true → flt x (twice a) = true ∨ feq x (twice a) = true → flt x (twice b) = true.
Proof. destruct a, b, x; cbn; intros H [?|?]; try done; lia. Qed.

Lemma flt_none a b : a ≠ NaN → b ≠ NaN → flt a b = false → flt b a = false → feq a b = true ∧ a = b.
Proof. destruct a as [a| | |], b as [b| | |]; cbn; intros; try done. assert (a = b) as -> by lia. split; [lia|done]. Qed.

(** The larger lower bound and the smaller upper bound. *)
Definition meet_lower (a b : NumericRange) : pyfloat * bool :=
  if flt (nr_lower b) (nr_lower a) then (nr_lower a, nr_lower_inclusive a)
  else if flt (nr_lower a) (nr_lower b) then (nr_lower b, nr_lower_inclusive b)
  else (nr_lower a, nr_lower_inclusive a && nr_lower_inclusive b).

Definition meet_upper (a b : NumericRange) : pyfloat * bool :=
  if flt (nr_upper a) (nr_upper b) then (nr_upper a, nr_upper_inclusive a)
  else if flt (nr_upper b) (nr_upper a) then (nr_upper b, nr_upper_inclusive b)
  else (nr_upper a, nr_upper_inclusive a && nr_upper_inclusive b).

Definition above (x : pyfloat) (l : pyfloat * bool) : Prop :=
  flt (twice l.1) x = true ∨ (l.2 = true ∧ feq (twice l.1) x = true).

Definition below (x : pyfloat) (u : pyfloat * bool) : Prop :=
  flt x (twice u.1) = true ∨ (u.2 = true ∧ feq x (twice u.1) = true).

Lemma meet_lower_spec a b x : nan_free a → nan_free b →
  above x (meet_lower a b) ↔ above x (nr_lower a, nr_lower_inclusive a) ∧ above x (nr_lower b, nr_lower_inclusive b).
Proof.
  intros [Ha _] [Hb _]. unfold meet_lower. destruct (flt (nr_lower b) (nr_lower a)) eqn:H1.
  - split; [|tauto]. intros H. split; [done|]. left. cbn. apply (flt_trans_twice _ _ _ H1). unfold above in H; cbn in H. tauto.
  - destruct (flt (nr_lower a) (nr_lower b)) eqn:H2.
    + split; [|tauto]. intros H. split; [|done]. left. cbn. apply (flt_trans_twice _ _ _ H2). unfold above in H; cbn in H. tauto.
    + destruct (flt_none _ _ Ha Hb H2 H1) as [_ He]. unfold above. cbn. rewrite <-He, andb_true_iff. tauto.
Qed.

Lemma meet_upper_spec a b x : nan_free a → nan_free b →
  below x (meet_upper a b) ↔ below x (nr_upper a, nr_upper_inclusive a) ∧ below x (nr_upper b, nr_upper_inclusive b).
Proof.
  intros [_ Ha] [_ Hb]. unfold meet_upper. destruct (flt (nr_upper a) (nr_upper b)) eqn:H1.
  - split; [|tauto]. intros H. split; [done|]. left. cbn. apply (flt_trans_twice_r _ _ _ H1). unfold below in H; cbn in H. tauto.
  - destruct (flt (nr_upper b) (nr_upper a)) eqn:H2.
    + split; [|tauto]. intros H. split; [|done]. left. cbn. apply (flt_trans_twice_r _ _ _ H2). unfold below in H; cbn in H. tauto.
    + destruct (flt_none _ _ Ha Hb H1 H2) as [_ He]. unfold below. cbn. rewrite <-He, andb_true_iff. tauto.
Qed.

Lemma bounds_meet l u : (if flt l.1 u.1 then true else if feq l.1 u.1 then l.2 && u.2 else false) = true ↔ ∃ x, above x l ∧ below x u.
Proof.
  destruct l as [l li], u as [u ui]. unfold above, below. cbn. destruct (flt l u) eqn:Hlt.
  - split; [|done]. intros _. destruct (flt_between l u Hlt) as (x & H1 & H2). exists x. auto.
  - destruct (feq l u) eqn:Heq.
    + rewrite andb_true_iff. split.
      * intros [-> ->]. exists (twice l). split; right; (split; [done|]); clear Hlt; destruct l, u; cbn in *; try done; lia.
      * intros (x & H1 & H2). split.
        -- destruct H1 as [H1|[? _]]; [|done]. assert (flt l u = true); [|congruence]. apply (flt_strict l u x H1). tauto.
        -- destruct H2 as [H2|[? _]]; [|done]. assert (flt l u = true); [|congruence]. apply (flt_strict_r l u x); [tauto|done].
    + split; [done|]. intros (x & H1 & H2). destruct (flt_through l u x); [tauto|tauto|congruence|congruence].
Qed.

Lemma ranges_overlap_spec a b : nan_free a → nan_free b → _ranges_overlap a b = true ↔ ∃ x, in_range x a ∧ in_range x b.
Proof.
  intros Ha Hb.
  assert (_ranges_overlap a b = (if flt (meet_lower a b).1 (meet_upper a b).1 then true
    else if feq (meet_lower a b).1 (meet_upper a b).1 then (meet_lower a b).2 && (meet_upper a b).2 else false)) as ->.
  { unfold _ranges_overlap, meet_lower, meet_upper. by destruct (flt (nr_lower b) (nr_lower a)), (flt (nr_lower a) (nr_lower b)), (flt (nr_upper a) (nr_upper b)), (flt (nr_upper b) (nr_upper a)). }
  rewrite bounds_meet. unfold in_range. split; intros (x & H1 & H2); exists x.
  - apply meet_lower_spec in H1; [|done..]. apply meet_upper_spec in H2; [|done..]. unfold above, below in *. cbn in *. tauto.
  - rewrite meet_lower_spec, meet_upper_spec by done. unfold above, below. cbn. tauto.
Qed.

(** ** What a clean set of documents is *)

Section clean.
Context {PT : PyText}.

Abbreviation doc := (list (string * json)) (only parsing).

Definition ids_ok (ids : list string) : Prop := NoDup ids ∧ "" ∉ ids.

Definition env_ok (env : json) : Prop := env = JNull ∨ ∃ m, env = JObj m ∧ ∀ kv, kv ∈ m → is_scalar kv.2 = true.

Definition lock_name_of (m : doc) : string := text (get_or "name" (JStr "") m).

Definition lock_ok (entry : json) : Prop :=
  ∀ m, entry = JObj m → lock_name_of m ≠ "" ∧ (lock_mode_of m = "exclusive" ∨ lock_mode_of m = "shared").

(** A step of the flow takes the lock, exclusively or shared. *)
Definition entry_takes (name : string) (exclusive : bool) (entry : json) : Prop :=
  ∃ m, entry = JObj m ∧ lock_name_of m = name ∧ name ≠ "" ∧ negb (String.eqb (lock_mode_of m) "shared") = exclusive.

Definition takes (flow : doc) (name : string) (exclusive : bool) : Prop :=
  ∃ entry, entry ∈ flow_locks (jget "steps" flow) ∧ entry_takes name exclusive entry.

Definition cron_of (schedule : json) : option string :=
  match schedule with
  | JObj m => match jget "cron" m with JStr e => if String.eqb (strip e) "" then None else Some (strip e) | _ => None end
  | _ => None
  end.

Definition subject (flow : doc) : string := or_unknown (flow_id flow).

Definition conds_disjoint (a b : list (string * FieldCondition)) : Prop :=
  ∀ field ca cb, alookup field a = Some ca → alookup field b = Some cb →
    match fc_numeric ca, fc_numeric cb with
    | Some ra, Some rb => ¬ ∃ x, in_range x ra ∧ in_range x rb
    | _, _ => fc_expr ca ≠ fc_expr cb
    end.

Definition arms_of (policy : doc) : list (string * list (string * FieldCondition)) :=
  normalize_arm <$> arm_entries (jget "arms" policy).

Record clean (flows policies : list doc) : Prop := {
  cl_flow_ids : ids_ok (flow_id <$> flows);
  cl_policy_ids : ids_ok (policy_id <$> policies);
  cl_env : ∀ flow, flow ∈ flows → env_ok (jget "env" flow);
  cl_lock : ∀ flow entry, flow ∈ flows → entry ∈ flow_locks (jget "steps" flow) → lock_ok entry;
  cl_exclusive : ∀ f g name e, f ∈ flows → g ∈ flows → takes f name true → takes g name e → e = true ∧ subject f = subject g;
  cl_cron : ∀ f g e, f ∈ flows → g ∈ flows → cron_of (jget "schedule" f) = Some e → cron_of (jget "schedule" g) = Some e → subject f = subject g;
  cl_arms : ∀ p i j a b, p ∈ policies → (i < j)%nat → arms_of p !! i = Some a → arms_of p !! j = Some b → conds_disjoint a.2 b.2
}.

(** No condition compares with NaN. *)
Definition policies_nan_free (policies : list doc) : Prop :=
  ∀ p a field c r, p ∈ policies → a ∈ arms_of p → alookup field a.2 = Some c → fc_numeric c = Some r → nan_free r.

(** *** Ids *)

Lemma collect_count ids counts id :
  default 0 (alookup id (foldl (λ counts item, dict_set item (default 0 (alookup item counts) + 1) counts) counts ids)) =
  default 0 (alookup id counts) + Z.of_nat (length (filter (λ x, x = id) ids)).
Proof.
  revert counts. induction ids as [|x ids IH]; intros counts; cbn [foldl]; [cbn; lia|]. rewrite IH, alookup_dict_set, filter_cons.
  destruct (decide (id = x)) as [->|Hne].
  - rewrite decide_True by done. cbn. lia.
  - rewrite decide_False by congruence. done.
Qed.

Lemma collect_keys ids counts id :
  id ∈ (foldl (λ counts item, dict_set item (default 0 (alookup item counts) + 1) counts) counts ids).*1 ↔ id ∈ counts.*1 ∨ id ∈ ids.
Proof.
  revert counts. induction ids as [|x ids IH]; intros counts; cbn [foldl]; [set_solver|]. rewrite IH, dict_set_keys, elem_of_cons. tauto.
Qed.

Lemma collect_nodup ids counts :
  NoDup counts.*1 → NoDup (foldl (λ counts item, dict_set item (default 0 (alookup item counts) + 1) counts) counts ids).*1.
Proof. revert counts. induction ids as [|x ids IH]; intros counts Hnd; [done|]. apply IH. by apply NoDup_dict_set. Qed.

Lemma NoDup_count (l : list string) : NoDup l ↔ ∀ x, (length (filter (λ y, y = x) l) ≤ 1)%nat.
Proof.
  induction l as [|y l IH]; [split; [cbn; lia|constructor]|]. rewrite NoDup_cons, IH. split.
  - intros [Hni Hl] x. rewrite filter_cons. case_decide as Hx; [|done]. subst y. cbn [length].
    assert (filter (λ y, y = x) l = []) as ->; [|cbn; lia].
    destruct (filter (λ y, y = x) l) as [|z k] eqn:Hf; [done|]. assert (z ∈ filter (λ y, y = x) l) as Hz by (rewrite Hf; set_solver).
    apply list_elem_of_filter in Hz as [-> Hz]. done.
  - intros Hl. split.
    + intros Hin. specialize (Hl y). rewrite filter_cons, decide_True in Hl by done. cbn [length] in Hl.
      assert (y ∈ filter (λ z, z = y) l) as Hz by (by apply list_elem_of_filter). destruct (filter _ l); [set_solver|]. cbn in Hl. lia.
    + intros x. specialize (Hl x). rewrite filter_cons in Hl. case_decide; cbn in Hl; lia.
Qed.

Lemma list_bind_nil {A B} (f : A → list B) l : l ≫= f = [] ↔ ∀ x, x ∈ l → f x = [].
Proof.
  induction l as [|x l IH]; [split; [set_solver|done]|]. rewrite bind_cons, app_nil, IH. split; [intros [H1 H2] y [->|Hy]%elem_of_cons; auto|]. intros H. split; [apply H; left|intros y Hy; apply H; by right].
Qed.

Lemma id_conflicts_clean what missing ids : id_conflicts what missing (_collect ids) = [] ↔ ids_ok ids.
Proof.
  unfold id_conflicts, ids_ok. rewrite list_bind_nil, NoDup_count. pose proof (collect_nodup ids [] ltac:(constructor)) as Hnd.
  assert (∀ id, default 0 (alookup id (_collect ids)) = Z.of_nat (length (filter (λ x, x = id) ids))) as Hcount.
  { intros id. unfold _collect. by rewrite collect_count. }
  split.
  - intros Hall. split.
    + intros x. destruct (alookup x (_collect ids)) as [n|] eqn:Hl.
      * specialize (Hall (x, n) (alookup_elem_of _ _ _ Hl)). apply app_eq_nil in Hall as [_ Hall]. cbn [snd] in Hall.
        specialize (Hcount x). rewrite Hl in Hcount. cbn in Hcount. destruct (Z.ltb_spec 1 n); [done|]. lia.
      * specialize (Hcount x). rewrite Hl in Hcount. cbn in Hcount. lia.
    + intros Hin. assert ("" ∈ (_collect ids).*1) as Hk by (apply collect_keys; auto).
      apply list_elem_of_fmap in Hk as ([k n] & Hk & Hkn). cbn in Hk. subst k. by specialize (Hall _ Hkn).
  - intros [Hle Hni] [k n] Hin. cbn [fst snd]. assert (k ∈ ids) as Hk.
    { assert (k ∈ (_collect ids).*1) as Hk by (by apply (list_elem_of_fmap_2 fst _ (k, n))). apply collect_keys in Hk as [Hk|]; [set_solver|done]. }
    destruct (String.eqb_spec k ""); [subst; done|]. apply alookup_NoDup in Hin; [|done]. specialize (Hcount k). rewrite Hin in Hcount.
    cbn in Hcount. specialize (Hle k). destruct (Z.ltb_spec 1 n); [lia|done].
Qed.

(** *** Flows *)

(** What a lock entry of a flow is refused for. *)
Definition lock_issues (fid : string) (entry : json) : list Conflict :=
  fd_conflicts (check_lock fid (mkFound [] [] []) entry).

Definition users (locks : list (string * usage)) (name : string) (exclusive : bool) : list string :=
  let u := default (mkUsage [] []) (alookup name locks) in if exclusive then us_exclusive u else us_shared u.

Lemma elem_of_set_add x y l : x ∈ set_add y l ↔ x = y ∨ x ∈ l.
Proof. unfold set_add. case_decide; set_solver. Qed.

Lemma NoDup_set_add x l : NoDup l → NoDup (set_add x l).
Proof.
  intros Hnd. unfold set_add. case_decide; [done|]. apply NoDup_app. split_and!; [done| |apply NoDup_singleton].
  intros y Hy ->%list_elem_of_singleton. done.
Qed.

Lemma check_lock_step fid f entry :
  fd_conflicts (check_lock fid f entry) = fd_conflicts f ++ lock_issues fid entry ∧
  fd_crons (check_lock fid f entry) = fd_crons f ∧
  (∀ name e x, x ∈ users (fd_locks (check_lock fid f entry)) name e ↔ x ∈ users (fd_locks f) name e ∨ (x = fid ∧ entry_takes name e entry)) ∧
  (∀ name, NoDup (users (fd_locks f) name true) → NoDup (users (fd_locks (check_lock fid f entry)) name true)).
Proof.
  unfold lock_issues, check_lock. destruct entry as [| | | | | |m];
    try (split_and!; [by rewrite app_nil_r|done| |done]; intros name e x; split; [auto|intros [?|[_ (m' & ? & _)]]; done]).
  fold (lock_name_of m). destruct (String.eqb_spec (lock_name_of m) "") as [H0|H0].
  { split_and!; [done|done| |done]. intros name e x. cbn [fd_locks add_conflicts]. split; [auto|].
    intros [?|[_ (m' & [= <-] & Hn & Hne & _)]]; [done|congruence]. }
  set (f' := if _ || _ then f else _).
  assert (fd_locks f' = fd_locks f ∧ fd_crons f' = fd_crons f) as [-> ->] by (unfold f'; by destruct (_ || _)).
  cbn [fd_conflicts fd_locks fd_crons]. split_and!; [|done| |].
  - unfold f'. destruct (_ || _); cbn; [by rewrite app_nil_r|done].
  - intros name e x. unfold users. rewrite alookup_dict_set. destruct (decide (name = lock_name_of m)) as [->|Hne].
    + cbn [default]. set (u := from_option _ _ _). set (ex := negb _). cbn [id].
      assert (entry_takes (lock_name_of m) e (JObj m) ↔ ex = e) as ->.
      { unfold entry_takes. split; [by intros (m' & [= <-] & _ & _ & H)|intros <-; by exists m]. }
      unfold use_lock. destruct ex, e; cbn [us_exclusive us_shared]; rewrite ?elem_of_set_add; intuition congruence.
    + split; [auto|]. intros [?|[_ (m' & [= <-] & Hn & _)]]; [done|congruence].
  - intros name Hnd. unfold users in *. rewrite alookup_dict_set. destruct (decide (name = lock_name_of m)) as [->|Hne]; [|done].
    cbn [default]. unfold use_lock. destruct (negb _); cbn; [by apply NoDup_set_add|done].
Qed.

Lemma check_locks_step fid entries f :
  let r := foldl (check_lock fid) f entries in
  fd_conflicts r = fd_conflicts f ++ (entries ≫= lock_issues fid) ∧ fd_crons r = fd_crons f ∧
  (∀ name e x, x ∈ users (fd_locks r) name e ↔
    x ∈ users (fd_locks f) name e ∨ (x = fid ∧ ∃ entry, entry ∈ entries ∧ entry_takes name e entry)) ∧
  (∀ name, NoDup (users (fd_locks f) name true) → NoDup (users (fd_locks r) name true)).
Proof.
  revert f. induction entries as [|entry entries IH]; intros f; cbn [foldl].
  { split_and!; [by rewrite app_nil_r|done| |done]. intros. set_solver. }
  destruct (check_lock_step fid f entry) as (H1 & H2 & H3 & H4). destruct (IH (check_lock fid f entry)) as (I1 & I2 & I3 & I4).
  split_and!; [by rewrite I1, H1, bind_cons, app_assoc|by rewrite I2| |auto]. intros name e x. rewrite I3, H3. set_solver.
Qed.

Definition flow_issues (flow : doc) : list Conflict :=
  env_conflicts (subject flow) (jget "env" flow) ++ (flow_locks (jget "steps" flow) ≫= lock_issues (subject flow)).

Definition cron_users (crons : list (string * list string)) (e : string) : list string := default [] (alookup e crons).

Lemma check_cron_step fid schedule f :
  fd_conflicts (check_cron fid schedule f) = fd_conflicts f ∧ fd_locks (check_cron fid schedule f) = fd_locks f ∧
  (∀ e x, x ∈ cron_users (fd_crons (check_cron fid schedule f)) e ↔ x ∈ cron_users (fd_crons f) e ∨ (x = fid ∧ cron_of schedule = Some e)) ∧
  (∀ e, NoDup (cron_users (fd_crons f) e) → NoDup (cron_users (fd_crons (check_cron fid schedule f)) e)).
Proof.
  unfold check_cron, cron_of. repeat (case_match; try (split_and!; [done|done|intros; intuition congruence|done])).
  split_and!; [done|done| |]; cbn [fd_crons]; unfold cron_users.
  - intros e x. rewrite alookup_dict_set. case_decide as Hd; [|intuition congruence]. subst e. cbn [default]. unfold id.
    cbn. rewrite elem_of_set_add. intuition congruence.
  - intros e Hnd. rewrite alookup_dict_set. case_decide as Hd; [|done]. subst e. cbn. by apply NoDup_set_add.
Qed.

Lemma check_flows_step flows f :
  let r := foldl check_flow f flows in
  fd_conflicts r = fd_conflicts f ++ (flows ≫= flow_issues) ∧
  (∀ name e x, x ∈ users (fd_locks r) name e ↔ x ∈ users (fd_locks f) name e ∨ ∃ flow, flow ∈ flows ∧ x = subject flow ∧ takes flow name e) ∧
  (∀ e x, x ∈ cron_users (fd_crons r) e ↔
    x ∈ cron_users (fd_crons f) e ∨ ∃ flow, flow ∈ flows ∧ x = subject flow ∧ cron_of (jget "schedule" flow) = Some e) ∧
  (∀ name, NoDup (users (fd_locks f) name true) → NoDup (users (fd_locks r) name true)) ∧
  (∀ e, NoDup (cron_users (fd_crons f) e) → NoDup (cron_users (fd_crons r) e)).
Proof.
  revert f. induction flows as [|flow flows IH]; intros f; cbn [foldl].
  { split_and!; [by rewrite app_nil_r| | |done|done]; intros; set_solver. }
  set (f0 := add_conflicts (env_conflicts (subject flow) (jget "env" flow)) f). set (f1 := check_cron (subject flow) (jget "schedule" flow) f0).
  destruct (check_cron_step (subject flow) (jget "schedule" flow) f0) as (C1 & C2 & C3 & C4).
  destruct (check_locks_step (subject flow) (flow_locks (jget "steps" flow)) f1) as (L1 & L2 & L3 & L4).
  change (foldl (check_lock (subject flow)) f1 (flow_locks (jget "steps" flow))) with (check_flow f flow) in *.
  destruct (IH (check_flow f flow)) as (I1 & I2 & I3 & I4 & I5). fold f1 in C1, C2, C3, C4.
  split_and!.
  - rewrite I1, L1, C1, bind_cons. unfold flow_issues at 2. cbn [f0 add_conflicts fd_conflicts]. by rewrite <-!app_assoc.
  - intros name e x. rewrite I2, L3, C2. cbn [f0 add_conflicts fd_locks]. unfold takes at 2. set_solver.
  - intros e x. rewrite I3, L2, C3. cbn [f0 add_conflicts fd_crons]. set_solver.
  - intros name Hnd. apply I4, L4. by rewrite C2.
  - intros e Hnd. apply I5. rewrite L2. by apply C4.
Qed.

(** The tables are dictionaries. *)
Definition tables_ok (f : found) : Prop := NoDup (fd_locks f).*1 ∧ NoDup (fd_crons f).*1.

Lemma check_flows_tables flows f : tables_ok f → tables_ok (foldl check_flow f flows).
Proof.
  assert (∀ fid entries g, tables_ok g → tables_ok (foldl (check_lock fid) g entries)) as Hlocks.
  { intros fid entries. induction entries as [|entry entries IH]; intros g Hg; [done|]. cbn [foldl]. apply IH. destruct Hg as [H1 H2].
    unfold check_lock. destruct entry; try done. case_match; [done|]. split; [apply NoDup_dict_set|]; by destruct (_ || _). }
  assert (∀ fid schedule g, tables_ok g → tables_ok (check_cron fid schedule g)) as Hcron.
  { intros fid schedule g [H1 H2]. unfold check_cron. repeat (case_match; try done). split; [done|by apply NoDup_dict_set]. }
  revert f. induction flows as [|flow flows IH]; intros f Hf; [done|]. cbn [foldl]. apply IH, Hlocks, Hcron. done.
Qed.

Lemma at_most_one (l : list string) : NoDup l → (1 <? length l)%nat = false ↔ ∀ x y, x ∈ l → y ∈ l → x = y.
Proof.
  intros Hnd. destruct l as [|a [|b l]]; cbn [length].
  - split; [set_solver|done].
  - split; [|done]. intros _ x y ->%list_elem_of_singleton ->%list_elem_of_singleton. done.
  - split; [done|]. intros H. assert (a = b) as -> by (apply H; set_solver). apply NoDup_cons in Hnd as [Hni _]. set_solver.
Qed.

Lemma if_nil {A} (b : bool) (x : A) : (if b then [x] else []) = [] ↔ b = false.
Proof. by destruct b. Qed.

Lemma lock_conflicts_clean locks :
  NoDup locks.*1 → (∀ name, NoDup (users locks name true)) →
  lock_conflicts locks = [] ↔ ∀ name x y e, x ∈ users locks name true → y ∈ users locks name e → e = true ∧ x = y.
Proof.
  intros Hnd Hus. unfold lock_conflicts. rewrite list_bind_nil. split.
  - intros Hall name x y e Hx Hy. unfold users in Hx, Hy. destruct (alookup name locks) as [u|] eqn:Hl; [|cbn in Hx; set_solver].
    specialize (Hall (name, u) (alookup_elem_of _ _ _ Hl)). cbn [fst snd] in Hall. apply app_nil in Hall as [H1 H2].
    specialize (Hus name). unfold users in Hus. rewrite Hl in Hus. cbn in *. apply if_nil in H1.
    destruct e; [split; [done|]; by apply (proj1 (at_most_one _ Hus) H1)|].
    destruct (us_exclusive u); [set_solver|]. destruct (us_shared u); [set_solver|done].
  - intros Hall [name u] Hin. cbn [fst snd]. apply alookup_NoDup in Hin; [|done]. specialize (Hus name).
    specialize (Hall name). unfold users in Hall, Hus. rewrite Hin in Hall, Hus. cbn in Hall, Hus. apply app_nil. split.
    + apply if_nil, at_most_one; [done|]. intros x y Hx Hy. by apply (Hall x y true).
    + destruct (us_exclusive u) as [|x ex]; [done|]. destruct (us_shared u) as [|y sh]; [done|].
      destruct (Hall x y false); [set_solver|cbn; set_solver|done].
Qed.

Lemma cron_conflicts_clean crons :
  NoDup crons.*1 → (∀ e, NoDup (cron_users crons e)) →
  cron_conflicts crons = [] ↔ ∀ e x y, x ∈ cron_users crons e → y ∈ cron_users crons e → x = y.
Proof.
  intros Hnd Hus. unfold cron_conflicts. rewrite list_bind_nil. split.
  - intros Hall e x y. specialize (Hus e). unfold cron_users in *. destruct (alookup e crons) as [l|] eqn:Hl; [|cbn; set_solver].
    specialize (Hall (e, l) (alookup_elem_of _ _ _ Hl)). cbn in *. apply if_nil in Hall. by apply at_most_one.
  - intros Hall [e l] Hin. cbn [fst snd]. apply alookup_NoDup in Hin; [|done]. specialize (Hall e). specialize (Hus e).
    unfold cron_users in *. rewrite Hin in *. cbn in *. apply if_nil, at_most_one; done.
Qed.

Lemma env_clean fid env : env_conflicts fid env = [] ↔ env_ok env.
Proof.
  unfold env_ok. destruct env as [| | | | | |m]; cbn [env_conflicts]; try (split; [by auto|by intros [?|(? & ? & _)]]).
  rewrite list_bind_nil. split.
  - intros H. right. exists m. split; [done|]. intros kv Hin. specialize (H kv Hin). by destruct (is_scalar kv.2).
  - intros [?|(m' & [= <-] & H)]; [done|]. intros kv Hin. by rewrite (H kv Hin).
Qed.

Lemma lock_issues_clean fid entry : lock_issues fid entry = [] ↔ lock_ok entry.
Proof.
  unfold lock_issues, lock_ok, check_lock. destruct entry as [| | | | | |m]; try (split; [by intros|done]). fold (lock_name_of m).
  destruct (String.eqb_spec (lock_name_of m) "") as [H0|H0]; [split; [done|intros H; by destruct (H m eq_refl)]|].
  destruct (String.eqb (lock_mode_of m) "exclusive" || String.eqb (lock_mode_of m) "shared") eqn:Hm; cbn.
  - split; [|done]. intros _ m' [= <-]. split; [done|]. by apply orb_true_iff in Hm as [?%String.eqb_eq|?%String.eqb_eq]; [left|right].
  - split; [done|]. intros H. apply orb_false_iff in Hm as [?%String.eqb_neq ?%String.eqb_neq]. destruct (H m eq_refl) as [_ [?|?]]; done.
Qed.

(** *** Policies *)

Lemma conditions_disjoint a b :
  NoDup a.*1 → (∀ field c r, alookup field a = Some c → fc_numeric c = Some r → nan_free r) →
  (∀ field c r, alookup field b = Some c → fc_numeric c = Some r → nan_free r) →
  _conditions_overlap a b = false ↔ conds_disjoint a b.
Proof.
  intros Hnd Ha Hb. unfold _conditions_overlap.
  assert (∀ ca cb field, alookup field a = Some ca → alookup field b = Some cb →
    fields_overlap ca cb = false ↔ match fc_numeric ca, fc_numeric cb with
      | Some ra, Some rb => ¬ ∃ x, in_range x ra ∧ in_range x rb | _, _ => fc_expr ca ≠ fc_expr cb end) as Hf.
  { intros ca cb field Hca Hcb. unfold fields_overlap. specialize (Ha field ca). specialize (Hb field cb).
    destruct (fc_numeric ca) as [ra|]; [destruct (fc_numeric cb) as [rb|]|]; [|by rewrite String.eqb_neq..].
    rewrite <-ranges_overlap_spec by auto. by rewrite not_true_iff_false. }
  split.
  - intros He field ca cb Hca Hcb. apply (Hf ca cb field); [done|done|]. apply not_true_iff_false. intros Ht.
    apply not_true_iff_false in He. apply He, existsb_exists. exists (field, ca). split; [by apply list_elem_of_In, alookup_elem_of|].
    cbn. by rewrite Hcb.
  - intros Hd. apply not_true_iff_false. intros ([field ca] & Hin & Ht)%existsb_exists. cbn in Ht.
    apply list_elem_of_In in Hin. apply alookup_NoDup in Hin; [|done]. destruct (alookup field b) as [cb|] eqn:Hcb; [|done].
    specialize (Hd field ca cb Hin Hcb). apply (Hf ca cb field Hin Hcb) in Hd. congruence.
Qed.

Lemma normalize_nodup condition : NoDup (_normalize_condition condition).*1.
Proof.
  unfold _normalize_condition. set (step := λ _ _, _). assert (∀ l acc, NoDup acc.*1 → NoDup (foldl step acc l).*1) as H.
  { induction l as [|kv l IH]; intros acc Hacc; [done|]. apply IH. by apply NoDup_dict_set. }
  apply H. constructor.
Qed.

Lemma arm_conflicts_clean pid arms :
  arm_conflicts pid arms = [] ↔ ∀ i j a b, (i < j)%nat → arms !! i = Some a → arms !! j = Some b → _conditions_overlap a.2 b.2 = false.
Proof.
  induction arms as [|a arms IH]; [split; [by intros _ [|i]|done]|]. cbn [arm_conflicts]. rewrite app_nil, list_bind_nil, IH. split.
  - intros [H1 H2] [|i] [|j] x y Hij Hi Hj; try lia.
    + injection Hi as <-. change (arms !! j = Some y) in Hj. apply list_elem_of_lookup_2 in Hj. specialize (H1 y Hj). by apply if_nil in H1.
    + apply (H2 i j); [lia|done|done].
  - intros H. split.
    + intros y [j Hj]%list_elem_of_lookup. apply if_nil. apply (H 0%nat (S j)); [lia|done|done].
    + intros i j x y Hij Hi Hj. apply (H (S i) (S j)); [lia|done|done].
Qed.

Lemma policy_clean p :
  (∀ a field c r, a ∈ arms_of p → alookup field a.2 = Some c → fc_numeric c = Some r → nan_free r) →
  policy_conflicts p = [] ↔ ∀ i j a b, (i < j)%nat → arms_of p !! i = Some a → arms_of p !! j = Some b → conds_disjoint a.2 b.2.
Proof.
  intros Hnan. unfold policy_conflicts. fold (arms_of p). rewrite arm_conflicts_clean.
  assert (∀ i j a b, arms_of p !! i = Some a → arms_of p !! j = Some b → _conditions_overlap a.2 b.2 = false ↔ conds_disjoint a.2 b.2) as Heq.
  { intros i j a b Hi Hj. apply list_elem_of_lookup_2 in Hi, Hj. apply conditions_disjoint; [|naive_solver..].
    apply list_elem_of_fmap in Hi as (arm & -> & _). apply normalize_nodup. }
  split; intros H i j a b Hij Hi Hj; apply (Heq i j); try done; by apply (H i j).
Qed.

End clean.

(** ** Documents checked *)

Definition arm (name : string) (conds : list (string * string)) : json :=
  JObj [("name", JStr name); ("if", JObj ((λ c : string * string, (c.1, JStr c.2)) <$> conds))].

(** Numbers of one digit, and [nan]. *)
Definition small_numbers : PyText :=
  {| other_str := fun _ => "";
     float_of_str := fun s => if String.eqb s "nan" then Some NaN else if String.eqb s "3" then Some (of_int 3)
       else if String.eqb s "5" then Some (of_int 5) else None;
     int_of_str := fun _ => None |}.

Definition lock_flow (id mode : string) : list (string * json) :=
  [("id", JStr id); ("steps", JObj [("s", JObj [("locks", JArr [JObj [("name", JStr "db"); ("mode", JStr mode)]])])])].

Definition split_policy : list (string * json) :=
  [("policy_id", JStr "p"); ("arms", JArr [arm "low" [("x", "< 3")]; arm "high" [("x", ">= 3")]])].


(** Arms that exclude each other by one field are reported when they share
    values of another. *)
Lemma disjoint_arms_reported :
  length (@find_conflicts small_numbers [] [[("policy_id", JStr "p");
    ("arms", JArr [arm "a" [("x", "< 5"); ("y", "3")]; arm "b" [("x", "< 3"); ("y", "5")]])]]) = 1%nat.
Proof. vm_compute. done. Qed.

(** Arms without a common field may both match and are not reported. *)
Lemma joint_arms_missed :
  @find_conflicts small_numbers [] [[("policy_id", JStr "p"); ("arms", JArr [arm "a" [("x", "< 5")]; arm "b" [("y", "3")]])]] = [].
Proof. vm_compute. done. Qed.

(** With NaN the order of the arms decides. *)
Lemma nan_order :
  _ranges_overlap (range_of "<" (of_int 5)) (range_of "=" NaN) = true ∧
  _ranges_overlap (range_of "=" NaN) (range_of "<" (of_int 5)) = false.
Proof. done. Qed.

(** One flow that takes a lock in both modes is reported as a mix across flows. *)
Lemma own_mix_reported :
  @find_conflicts small_numbers [[("id", JStr "a"); ("steps", JObj [("s", JObj [("locks", JArr [
    JObj [("name", JStr "db"); ("mode", JStr "shared")]; JObj [("name", JStr "db")]])])])]] [] =
  [mkConflict "flow.lock_conflict" "lock 'db' exclusive/shared mix across flows" ["a"]].
Proof. vm_compute. done. Qed.
