(* ===== verification/DslLint.v ===== *)
(** * The linter and the planner of workflow documents ([tm/dsl/lint.py],
      [tm/dsl/plan.py])

    The linter walks the steps of a workflow, resolves references to inputs
    and steps, builds the graph of the steps and searches it for unreachable
    steps and cycles.  Sets are lists without repetition in the order of
    insertion; the code never depends on their order, except for which cycle
    it reports first. *)

From S2P Require Import Prelude PyVal PyConv Policy Dsl DslIr DslFlow.
From stdpp Require Import base gmap strings list pretty relations sorting.
From Stdlib Require Import ZArith Lia Ascii.

(** ** References in texts *)

Definition ref_char (c : ascii) : bool :=
  is_alpha c || is_digit c || bool_decide (c = "_"%char) || bool_decide (c = "-"%char).

Definition ref_or_dot (c : ascii) : bool := ref_char c || bool_decide (c = "."%char).

Fixpoint span_while (ok : ascii → bool) (s : string) : string :=
  match s with
  | EmptyString => EmptyString
  | String c s' => if ok c then String c (span_while ok s') else EmptyString
  end.

(** What follows a literal at the front of a text. *)
Fixpoint after_lit (lit s : string) : option string :=
  match lit, s with
  | EmptyString, _ => Some s
  | String a lit, String b s => if decide (a = b) then after_lit lit s else None
  | String _ _, EmptyString => None
  end.

(** A match of [lit([ok]+)] at the front: its name and its length. *)
Definition match_ref (lit : string) (ok : ascii → bool) (s : string) : option (string * nat) :=
  match after_lit lit s with
  | Some t =>
      let name := span_while ok t in
      if String.eqb name "" then None else Some (name, String.length lit + String.length name)
  | None => None
  end.

(** [pattern.finditer(text)]: the matches from left to right, each with its
    start; a match is skipped over. *)
Fixpoint find_iter {A} (pat : string → option (A * nat)) (skip pos : nat) (s : string) : list (nat * A) :=
  match s with
  | EmptyString => []
  | String _ s' =>
      match skip with
      | S k => find_iter pat k (S pos) s'
      | O =>
          match pat s with
          | Some (a, len) => (pos, a) :: find_iter pat (len - 1) (S pos) s'
          | None => find_iter pat 0 (S pos) s'
          end
      end
  end.

Inductive ref : Type := RInput (name : string) | RStep (name : string).

Definition _INPUT_REF_PATTERN (s : string) : option (string * nat) := match_ref "$input." ref_char s.
Definition _STEP_REF_PATTERN (s : string) : option (string * nat) := match_ref "$step." ref_char s.

(** [payload.split(".", 1)[0]]. *)
Fixpoint before_dot (s : string) : string :=
  match s with
  | EmptyString => EmptyString
  | String c s' => if decide (c = "."%char) then EmptyString else String c (before_dot s')
  end.

Definition _SCALAR_REF_PATTERN (s : string) : option (ref * nat) :=
  match match_ref "$input." ref_or_dot s with
  | Some (payload, n) => Some (RInput (before_dot payload), n)
  | None =>
      match match_ref "$step." ref_or_dot s with
      | Some (payload, n) => Some (RStep (before_dot payload), n)
      | None => None
      end
  end.

(** ** Issues *)

Record LintIssue : Type := mkIssue {
  li_path : string;
  li_code : string;
  li_message : string;
  li_level : string;
  li_line : nat;
  li_column : nat
}.

(** Hints and related places are never set. *)
Definition issue_to_json (i : LintIssue) : json :=
  JObj [("path", JStr (li_path i)); ("code", JStr (li_code i)); ("message", JStr (li_message i)); ("level", JStr (li_level i));
        ("line", JInt (Z.of_nat (li_line i))); ("column", JInt (Z.of_nat (li_column i)))].

Record analysis : Type := mkAnalysis {
  an_issues : list LintIssue;
  an_adjacency : list (string * list string);
  an_locations : list (string * SourceSpan);
  an_entry : option string
}.

Fixpoint _iter_scalar_nodes (n : RawNode) : list (string * SourceLocation) :=
  match n with
  | RawScalar value loc => [(value, loc)]
  | RawMapping entries _ =>
      (fix go (l : list (option string * SourceLocation * RawNode)) : list (string * SourceLocation) :=
         match l with [] => [] | (_, v) :: l => _iter_scalar_nodes v ++ go l end) entries
  | RawSequence items _ =>
      (fix go (l : list RawNode) : list (string * SourceLocation) :=
         match l with [] => [] | v :: l => _iter_scalar_nodes v ++ go l end) items
  end.

Section analyzer.
Context (path : string) (w : WdlWorkflow).

Definition declared_inputs : list string := wi_name <$> wf_inputs w.

Definition issue (code message level : string) (line column : nat) : LintIssue := mkIssue path code message level line column.

Definition issue_at (code message level : string) (loc : SourceSpan) : LintIssue :=
  issue code message level (sp_line loc) (sp_column loc).

Definition missing_input (name : string) (line column : nat) : LintIssue :=
  issue "missing-input" ("Input '" +:+ name +:+ "' is not declared") "error" line column.

Definition unknown_step (name : string) (line column : nat) : LintIssue :=
  issue "unknown-step-ref" ("Step '" +:+ name +:+ "' is not defined or not available in this scope") "error" line column.

Definition _check_scalar (available : list string) (scalar : string * SourceLocation) : list LintIssue :=
  (m ← find_iter _INPUT_REF_PATTERN 0 0 scalar.1;
   if decide (m.2 ∈ declared_inputs) then [] else [missing_input m.2 (loc_line scalar.2) (loc_column scalar.2 + m.1)]) ++
  (m ← find_iter _STEP_REF_PATTERN 0 0 scalar.1;
   if decide (m.2 ∈ available) then [] else [unknown_step m.2 (loc_line scalar.2) (loc_column scalar.2 + m.1)]).

Definition _check_node (available : list string) (n : RawNode) : list LintIssue :=
  _iter_scalar_nodes n ≫= _check_scalar available.

Definition _check_condition (available : list string) (condition : string) (loc : SourceSpan) : list LintIssue :=
  m ← find_iter _SCALAR_REF_PATTERN 0 0 condition;
  match m.2 with
  | RInput name => if decide (name ∈ declared_inputs) then [] else [missing_input name (sp_line loc) (sp_column loc + m.1)]
  | RStep name => if decide (name ∈ available) then [] else [unknown_step name (sp_line loc) (sp_column loc + m.1)]
  end.

(** ** The walk *)

Definition add_issues (new : list LintIssue) (st : analysis) : analysis :=
  mkAnalysis (an_issues st ++ new) (an_adjacency st) (an_locations st) (an_entry st).

Definition set_insert (x : string) (l : list string) : list string := if decide (x ∈ l) then l else l ++ [x].

Definition set_union (l k : list string) : list string := foldl (λ acc x, set_insert x acc) l k.

(** [adjacency.setdefault(src, set()).add(target)]. *)
Definition connect (target : string) (adj : list (string * list string)) (src : string) : list (string * list string) :=
  dict_set src (set_insert target (default [] (alookup src adj))) adj.

Definition connect_all (srcs : list string) (target : string) (st : analysis) : analysis :=
  mkAnalysis (an_issues st) (foldl (connect target) (an_adjacency st) srcs) (an_locations st) (an_entry st).

Definition set_entry_if_none (e : option string) (x : string) : option string := match e with None => Some x | Some _ => e end.

Definition record_call (step_id : string) (loc : SourceSpan) (st : analysis) : analysis :=
  match alookup step_id (an_locations st) with
  | Some first =>
      add_issues [issue_at "duplicate-step-id" ("Step id '" +:+ step_id +:+ "' already defined at line " +:+ pretty (sp_line first)) "error" loc] st
  | None =>
      mkAnalysis (an_issues st)
        (match alookup step_id (an_adjacency st) with Some _ => an_adjacency st | None => dict_set step_id [] (an_adjacency st) end)
        (an_locations st ++ [(step_id, loc)]) (set_entry_if_none (an_entry st) step_id)
  end.

(** What a walk returns: the exits, the steps defined, the analysis. *)
Abbreviation walked := (list string * list string * analysis)%type (only parsing).

Definition _process_call (step_id : string) (args : list WdlArgument) (loc : SourceSpan) (available exits : list string) (st : analysis) : walked :=
  let st := record_call step_id loc st in
  let st := add_issues (args ≫= λ a, _check_node available (wa_value a)) st in
  ([step_id], set_insert step_id available, connect_all exits step_id st).

Fixpoint _first_step_id (s : WdlStep) : option string :=
  match s with
  | WdlCallStep id _ _ _ => Some id
  | WdlWhenStep _ steps _ =>
      match (fix go (l : list WdlStep) : option string :=
         match l with
         | [] => None
         | s :: l => match _first_step_id s with Some x => Some x | None => go l end
         end) steps with
      | Some x => if String.eqb x "" then None else Some x
      | None => None
      end
  end.

Fixpoint first_of (steps : list WdlStep) : option string :=
  match steps with
  | [] => None
  | s :: steps => match _first_step_id s with Some x => Some x | None => first_of steps end
  end.

(** The steps one after the other; [process] is the walk of one step. *)
Fixpoint walk_with (process : WdlStep → list string → list string → analysis → walked)
    (steps : list WdlStep) (available exits : list string) (st : analysis) : walked :=
  match steps with
  | [] => (exits, available, st)
  | s :: steps =>
      let '(exits, available, st) := process s available exits st in
      walk_with process steps available exits st
  end.

(** Linking the exits before a branch to its first step. *)
Definition link_branch (steps : list WdlStep) (exits branch_exits : list string) (st : analysis) : analysis :=
  let entry_if (x : string) st :=
    match an_entry st, exits with
    | None, [] => mkAnalysis (an_issues st) (an_adjacency st) (an_locations st) (Some x)
    | _, _ => st
    end in
  match first_of steps with
  | Some x => if String.eqb x "" then st else connect_all exits x (entry_if x st)
  | None =>
      match branch_exits with
      | x :: _ => if String.eqb x "" then st else entry_if x st
      | [] => st
      end
  end.

Fixpoint process_step (s : WdlStep) (available exits : list string) (st : analysis) {struct s} : walked :=
  match s with
  | WdlCallStep id _ args loc => _process_call id args loc available exits st
  | WdlWhenStep condition steps loc =>
      let st := add_issues (_check_condition available condition loc) st in
      match steps with
      | [] => (exits, available, add_issues [issue_at "empty-branch" "Conditional block has no steps" "warning" loc] st)
      | _ =>
          let '(branch_exits, _, st) := walk_with process_step steps available [] st in
          (set_union exits branch_exits, available, link_branch steps exits branch_exits st)
      end
  end.

Definition _process_sequence (steps : list WdlStep) (available exits : list string) (st : analysis) : walked :=
  walk_with process_step steps available exits st.

(** ** The graph *)

Definition succs (adj : list (string * list string)) (node : string) : list string := default [] (alookup node adj).

(** Each round takes one node from the queue; a node is expanded once. *)
Fixpoint bfs (fuel : nat) (adj : list (string * list string)) (queue visited : list string) : option (list string) :=
  match queue with
  | [] => Some visited
  | node :: queue =>
      match fuel with
      | O => None
      | S fuel =>
          if decide (node ∈ visited) then bfs fuel adj queue visited
          else bfs fuel adj (queue ++ succs adj node) (visited ++ [node])
      end
  end.

Definition edge_count (adj : list (string * list string)) : nat := sum_list ((λ kv : string * list string, length kv.2) <$> adj).

(** The visits of a node: whether a cycle was found, the visited nodes, and
    the nodes reported on the way back. *)
Abbreviation visit_result := (bool * list string * list string)%type (only parsing).

Fixpoint dfs_succs (dfs : string → list string → option visit_result) (nodes visited : list string) : option visit_result :=
  match nodes with
  | [] => Some (false, visited, [])
  | succ :: nodes =>
      match dfs succ visited with
      | None => None
      | Some (true, visited, reports) => Some (true, visited, reports ++ [succ])
      | Some (false, visited, reports) =>
          match dfs_succs dfs nodes visited with
          | None => None
          | Some (found, visited, reports') => Some (found, visited, reports ++ reports')
          end
      end
  end.

Fixpoint dfs (fuel : nat) (adj : list (string * list string)) (stack : list string) (node : string) (visited : list string)
  : option visit_result :=
  match fuel with
  | O => None
  | S fuel =>
      if decide (node ∈ stack) then Some (true, visited, [])
      else if decide (node ∈ visited) then Some (false, visited, [])
      else dfs_succs (dfs fuel adj (node :: stack)) (succs adj node) (visited ++ [node])
  end.

(** The loop over the steps, which stops at the first cycle. *)
Fixpoint dfs_roots (fuel : nat) (adj : list (string * list string)) (roots visited : list string) : option (list string) :=
  match roots with
  | [] => Some []
  | node :: roots =>
      match dfs fuel adj [] node visited with
      | None => None
      | Some (true, _, reports) => Some reports
      | Some (false, visited, reports) =>
          match dfs_roots fuel adj roots visited with None => None | Some reports' => Some (reports ++ reports') end
      end
  end.

Definition graph_nodes (adj : list (string * list string)) : list string := adj.*1 ++ mjoin adj.*2.

Definition _validate_outputs (available : list string) (st : analysis) : analysis :=
  add_issues (wf_outputs w ≫= λ o, _check_node available (wo_value o)) st.

Definition unreachable_issue (st : analysis) (id : string) : LintIssue :=
  issue_at "unreachable-step" ("Step '" +:+ id +:+ "' is not reachable from the workflow entry") "error"
    (default (wf_location w) (alookup id (an_locations st))).

Definition _validate_reachability (st : analysis) : option analysis :=
  match an_locations st with
  | [] =>
      match wf_steps w with
      | [] => Some st
      | _ => Some (add_issues [issue_at "no-call-steps" "Workflow does not define any executable steps" "error" (wf_location w)] st)
      end
  | (first, _) :: _ =>
      let entry := default first (an_entry st) in
      visited ← bfs (S (edge_count (an_adjacency st))) (an_adjacency st) [entry] [];
      let unreachable := sort_strings (filter (λ id, id ∉ visited) (an_locations st).*1) in
      Some (add_issues (unreachable_issue st <$> unreachable)
              (mkAnalysis (an_issues st) (an_adjacency st) (an_locations st) (Some entry)))
  end.

Definition cycle_issue (st : analysis) (id : string) : LintIssue :=
  issue_at "cycle-detected" ("Cycle detected involving step '" +:+ id +:+ "'") "error"
    (default (wf_location w) (alookup id (an_locations st))).

Definition _validate_cycles (st : analysis) : option analysis :=
  reports ← dfs_roots (S (length ((an_locations st).*1 ++ graph_nodes (an_adjacency st)))) (an_adjacency st) (an_locations st).*1 [];
  Some (add_issues (cycle_issue st <$> reports) st).

Definition analyzer_run : option analysis :=
  let '(_, defined, st) := _process_sequence (wf_steps w) [] [] (mkAnalysis [] [] [] None) in
  let st := _validate_outputs defined st in
  st ← _validate_reachability st;
  _validate_cycles st.
End analyzer.

(** ** Documents *)

Definition _issue_from_parse_error (err : DslParseError) (path : string) : LintIssue :=
  match de_location err with
  | Some loc => mkIssue path "parse-error" (de_message err) "error" (loc_line loc) (loc_column loc)
  | None => mkIssue path "parse-error" (de_message err) "error" 0 0
  end.

Inductive linted : Type := Issues (new : list LintIssue) | LintCrash (e : exn) | NoFuel.

Definition _lint_wdl `{PyLiteral} (text path : string) : linted :=
  match parse_wdl_document text with
  | None => NoFuel
  | Some (NotBuilt e) => Issues [_issue_from_parse_error e path]
  | Some (Crashed e) => LintCrash e
  | Some (Built w) => match analyzer_run path w with Some st => Issues (an_issues st) | None => NoFuel end
  end.

Definition _lint_pdl (text path : string) : linted :=
  match parse_pdl_document text with
  | None => NoFuel
  | Some (NotBuilt e) => Issues [_issue_from_parse_error e path]
  | Some (Crashed e) => LintCrash e
  | Some (Built _) => Issues []
  end.

(** The kind of a document by its suffix, or by the version on its first line
    that is not a comment. *)
Fixpoint kind_of_lines (lines : list string) : string :=
  match lines with
  | [] => "wdl"
  | raw :: lines =>
      let stripped := strip raw in
      if String.eqb stripped "" || String.prefix "#" stripped then kind_of_lines lines
      else if String.prefix "version:" (str_lower stripped) then
        match DslIr.partition_at ":" stripped with
        | Some (_, value) => if String.prefix "pdl/" (strip value) then "pdl" else "wdl"
        | None => "wdl"
        end
      else kind_of_lines lines
  end.

Definition _detect_kind (suffix text : string) : string :=
  let suffix := str_lower suffix in
  if String.eqb suffix ".pdl" then "pdl" else if String.eqb suffix ".wdl" then "wdl" else kind_of_lines (splitlines text).

Definition lint_text `{PyLiteral} (path suffix text : string) : linted :=
  if String.eqb (_detect_kind suffix text) "pdl" then _lint_pdl text path else _lint_wdl text path.

(** ** Executions of a workflow

    A run evaluates the conditions it meets and takes or skips each branch;
    [ECall] runs a step, after its arguments were evaluated. *)

Inductive ev : Type :=
| ECall (id : string) (refs : list ref)
| ECond (refs : list ref)
| EOut (refs : list ref).

Definition ev_refs (e : ev) : list ref := match e with ECall _ rs | ECond rs | EOut rs => rs end.
Definition ev_ran (e : ev) : list string := match e with ECall id _ => [id] | _ => [] end.
Definition ran (tr : list ev) : list string := tr ≫= ev_ran.

Definition scalar_refs (scalar : string * SourceLocation) : list ref :=
  (RInput <$> (find_iter _INPUT_REF_PATTERN 0 0 scalar.1).*2) ++ (RStep <$> (find_iter _STEP_REF_PATTERN 0 0 scalar.1).*2).

Definition node_refs (n : RawNode) : list ref := _iter_scalar_nodes n ≫= scalar_refs.

Definition cond_refs (condition : string) : list ref := (find_iter _SCALAR_REF_PATTERN 0 0 condition).*2.

Definition args_refs (args : list WdlArgument) : list ref := args ≫= λ a, node_refs (wa_value a).

Inductive exec : list WdlStep → list ev → Prop :=
| exec_nil : exec [] []
| exec_call id target args loc steps tr :
    exec steps tr → exec (WdlCallStep id target args loc :: steps) (ECall id (args_refs args) :: tr)
| exec_skip c branch loc steps tr : exec steps tr → exec (WdlWhenStep c branch loc :: steps) (ECond (cond_refs c) :: tr)
| exec_take c branch loc steps tb tr :
    exec branch tb → exec steps tr → exec (WdlWhenStep c branch loc :: steps) (ECond (cond_refs c) :: tb ++ tr).

Definition execution (w : WdlWorkflow) (tr : list ev) : Prop :=
  ∃ tr', exec (wf_steps w) tr' ∧ tr = tr' ++ [EOut (wf_outputs w ≫= λ o, node_refs (wo_value o))].

(** Each reference names a declared input, or a step that ran before. *)
Definition refs_ok (declared before : list string) (rs : list ref) : Prop :=
  ∀ r, r ∈ rs → match r with RInput n => n ∈ declared | RStep n => n ∈ before end.

Fixpoint resolved (declared before : list string) (tr : list ev) : Prop :=
  match tr with
  | [] => True
  | e :: tr => refs_ok declared before (ev_refs e) ∧ resolved declared (before ++ ev_ran e) tr
  end.

(** The ids of the calls, and those outside of every branch. *)
Fixpoint step_ids (s : WdlStep) : list string :=
  match s with
  | WdlCallStep id _ _ _ => [id]
  | WdlWhenStep _ steps _ =>
      (fix go (l : list WdlStep) : list string := match l with [] => [] | s :: l => step_ids s ++ go l end) steps
  end.

Definition all_ids (steps : list WdlStep) : list string := steps ≫= step_ids.

Lemma when_ids c steps loc : step_ids (WdlWhenStep c steps loc) = all_ids steps.
Proof. cbn [step_ids]. induction steps as [|s steps IH]; [done|]. cbn. by rewrite IH. Qed.

Definition defines (s : WdlStep) (available : list string) : list string :=
  match s with WdlCallStep id _ _ _ => set_insert id available | WdlWhenStep _ _ _ => available end.

Lemma elem_of_set_insert x y l : x ∈ set_insert y l ↔ x = y ∨ x ∈ l.
Proof. unfold set_insert. case_decide; set_solver. Qed.

Lemma elem_of_set_union x l k : x ∈ set_union l k ↔ x ∈ l ∨ x ∈ k.
Proof.
  unfold set_union. revert l. induction k as [|y k IH]; intros l; cbn [foldl]; [set_solver|]. rewrite IH, elem_of_set_insert. set_solver.
Qed.

Section scopes.
Context (declared : list string).

(** References in scope, by the structure of the steps. *)
Section with_step.
Context (sc : list string → WdlStep → Prop).
Fixpoint scoped_with (available : list string) (steps : list WdlStep) : Prop :=
  match steps with
  | [] => True
  | s :: steps => sc available s ∧ scoped_with (defines s available) steps
  end.
End with_step.

Fixpoint scoped_step (available : list string) (s : WdlStep) {struct s} : Prop :=
  match s with
  | WdlCallStep _ _ args _ => refs_ok declared available (args_refs args)
  | WdlWhenStep c steps _ => refs_ok declared available (cond_refs c) ∧ scoped_with scoped_step available steps
  end.

Definition scoped : list string → list WdlStep → Prop := scoped_with scoped_step.

Lemma refs_ok_mono h h' rs : h ⊆ h' → refs_ok declared h rs → refs_ok declared h' rs.
Proof. intros Hs Hr r Hin. specialize (Hr r Hin). destruct r; [done|]. by apply Hs. Qed.

Lemma resolved_mono h h' tr : h ⊆ h' → resolved declared h tr → resolved declared h' tr.
Proof.
  revert h h'. induction tr as [|e tr IH]; intros h h' Hs; [done|]. intros [H1 H2]. split; [by apply (refs_ok_mono h)|].
  apply (IH (h ++ ev_ran e)); [set_solver|done].
Qed.

Lemma resolved_app h t1 t2 : resolved declared h (t1 ++ t2) ↔ resolved declared h t1 ∧ resolved declared (h ++ ran t1) t2.
Proof.
  revert h. induction t1 as [|e t1 IH]; intros h; cbn [app resolved].
  - unfold ran. cbn. rewrite app_nil_r. tauto.
  - rewrite IH. unfold ran. rewrite bind_cons, app_assoc. tauto.
Qed.

Lemma exec_exists steps : ∃ tr, exec steps tr.
Proof.
  induction steps as [|[id t args loc|c b loc] steps [tr Htr]]; [exists []; constructor|..]; eexists; [by apply exec_call|by apply exec_skip].
Qed.

Lemma scoped_sound steps tr : exec steps tr → ∀ h, scoped h steps → resolved declared h tr.
Proof.
  induction 1 as [|id t args loc steps tr _ IH|c b loc steps tr _ IH|c b loc steps tb tr _ IHb _ IH]; intros h Hs.
  - done.
  - destruct Hs as [H1 H2]. split; [done|]. apply (resolved_mono (set_insert id h)); [|by apply IH].
    intros x. rewrite elem_of_set_insert. set_solver.
  - destruct Hs as [[H1 _] H2]. split; [done|]. cbn. rewrite app_nil_r. by apply IH.
  - destruct Hs as [[H1 Hb] H2]. split; [done|]. cbn. rewrite app_nil_r. apply resolved_app. split; [by apply IHb|].
    apply (resolved_mono h); [set_solver|by apply IH].
Qed.

Definition always_resolved (h : list string) (steps : list WdlStep) : Prop := ∀ tr, exec steps tr → resolved declared h tr.

Lemma step_complete s :
  ∀ h steps, always_resolved h (s :: steps) → scoped_step h s ∧ always_resolved (defines s h) steps.
Proof.
  induction s as [id t args loc|c b loc IHb] using step_ind'; intros h steps Hall.
  - split.
    + destruct (exec_exists steps) as [tr Htr]. by destruct (Hall _ (exec_call id t args loc _ _ Htr)) as [H1 _].
    + intros tr Htr. destruct (Hall _ (exec_call id t args loc _ _ Htr)) as [_ H2].
      apply (resolved_mono (h ++ [id])); [|exact H2]. intros x. cbn. rewrite elem_of_set_insert. set_solver.
  - split.
    + destruct (exec_exists steps) as [tr Htr]. split; [by destruct (Hall _ (exec_skip c b loc _ _ Htr)) as [H1 _]|].
      assert (always_resolved h b) as Hb.
      { intros tb Htb. destruct (Hall _ (exec_take c b loc _ _ _ Htb Htr)) as [_ H2]. cbn in H2. rewrite app_nil_r in H2.
        by apply resolved_app in H2 as [H2 _]. }
      clear Hall Htr tr steps. revert h Hb. induction IHb as [|s b Hs _ IH]; intros h Hb; [done|]. destruct (Hs h b Hb) as [H1 H2]. split; [done|by apply IH].
    + intros tr Htr. destruct (Hall _ (exec_skip c b loc _ _ Htr)) as [_ H2]. cbn in H2. by rewrite app_nil_r in H2.
Qed.

Lemma scoped_iff h steps : scoped h steps ↔ always_resolved h steps.
Proof.
  split; [intros Hs tr Htr; by apply (scoped_sound steps)|]. revert h.
  induction steps as [|s steps IH]; intros h Hall; [done|]. destruct (step_complete s h steps Hall) as [H1 H2]. split; [done|by apply IH].
Qed.

(** The steps every execution runs are those outside of branches. *)
Fixpoint defs (available : list string) (steps : list WdlStep) : list string :=
  match steps with [] => available | s :: steps => defs (defines s available) steps end.

Lemma defs_mono A A' steps : A ⊆ A' → defs A steps ⊆ defs A' steps.
Proof.
  revert A A'. induction steps as [|s steps IH]; intros A A' Hs; [done|]. apply IH. destruct s; [|done]. intros x. cbn [defines]. rewrite !elem_of_set_insert. set_solver.
Qed.

Lemma defs_below A steps : A ⊆ defs A steps.
Proof.
  revert A. induction steps as [|s steps IH]; intros A; [done|]. cbn [defs]. etransitivity; [|apply IH]. destruct s; [|done]. intros x. cbn [defines].
  rewrite elem_of_set_insert. auto.
Qed.

Lemma defs_ran steps tr A : exec steps tr → defs A steps ⊆ A ++ ran tr.
Proof.
  intros He. revert A. induction He as [|id t args loc steps tr _ IH|c b loc steps tr _ IH|c b loc steps tb tr _ _ _ IH]; intros A x; cbn [defs defines].
  - set_solver.
  - intros Hx. apply IH in Hx. unfold ran. rewrite bind_cons. cbn. apply elem_of_app in Hx as [Hx|Hx]; [apply elem_of_set_insert in Hx|]; set_solver.
  - intros Hx. apply IH in Hx. done.
  - intros Hx. apply IH in Hx. unfold ran in *. rewrite bind_cons, bind_app. cbn. set_solver.
Qed.

Lemma skip_all steps : ∃ tr, exec steps tr ∧ ∀ A, A ++ ran tr ⊆ defs A steps.
Proof.
  induction steps as [|[id t args loc|c b loc] steps (tr & Htr & Hr)].
  - exists []. split; [constructor|]. intros A. cbn. by rewrite app_nil_r.
  - exists (ECall id (args_refs args) :: tr). split; [by apply exec_call|]. intros A x Hx. cbn [defs defines]. apply Hr.
    unfold ran in *. rewrite bind_cons in Hx. cbn in Hx. apply elem_of_app. rewrite elem_of_set_insert. set_solver.
  - exists (ECond (cond_refs c) :: tr). split; [by apply exec_skip|]. intros A x Hx. cbn [defs defines]. apply Hr. done.
Qed.
End scopes.

(** References in scope resolve in every execution, and only those do. *)
Lemma execution_resolved w :
  (∀ tr, execution w tr → resolved (declared_inputs w) [] tr) ↔
  scoped (declared_inputs w) [] (wf_steps w) ∧
  refs_ok (declared_inputs w) (defs [] (wf_steps w)) (wf_outputs w ≫= λ o, node_refs (wo_value o)).
Proof.
  rewrite scoped_iff. split.
  - intros Hall. split.
    + intros tr Htr. destruct (proj1 (resolved_app _ _ _ _) (Hall _ (ex_intro _ tr (conj Htr eq_refl)))) as [H1 _]. done.
    + destruct (skip_all (wf_steps w)) as (tr & Htr & Hr). destruct (proj1 (resolved_app _ _ _ _) (Hall _ (ex_intro _ tr (conj Htr eq_refl)))) as [_ [H2 _]].
      by apply (refs_ok_mono _ ([] ++ ran tr)).
  - intros [Hs Ho] tr (tr' & Htr & ->). apply resolved_app. split; [by apply Hs|]. split; [|done].
    apply (refs_ok_mono _ (defs [] (wf_steps w))); [by apply defs_ran|done].
Qed.

(** ** The issues of the walk *)

Definition errs (l : list LintIssue) : list LintIssue := filter (λ i, li_level i = "error") l.

Lemma errs_app l k : errs (l ++ k) = [] ↔ errs l = [] ∧ errs k = [].
Proof. unfold errs. rewrite filter_app. apply app_nil. Qed.

Lemma errs_all l : (∀ i, i ∈ l → li_level i = "error") → errs l = [] ↔ l = [].
Proof.
  intros Hall. unfold errs. destruct l as [|i l]; [done|]. rewrite filter_cons_True by (apply Hall; set_solver). done.
Qed.

Lemma bind_empty {A B} (f : A → list B) l : l ≫= f = [] ↔ ∀ x, x ∈ l → f x = [].
Proof.
  induction l as [|x l IH]; [split; [set_solver|done]|]. rewrite bind_cons, app_nil, IH. split.
  - intros [H1 H2] y [->|Hy]%elem_of_cons; auto.
  - intros H. split; [apply H; left|intros y Hy; apply H; by right].
Qed.

Lemma if_dec_nil {A} (P : Prop) `{Decision P} (x : A) : (if decide P then [] else [x]) = [] ↔ P.
Proof. by case_decide. Qed.

Section walk_issues.
Context (path : string) (w : WdlWorkflow).
Abbreviation declared := (declared_inputs w).

Lemma check_scalar_ok available scalar : _check_scalar path w available scalar = [] ↔ refs_ok declared available (scalar_refs scalar).
Proof.
  unfold _check_scalar, scalar_refs, refs_ok. rewrite app_nil, !bind_empty. setoid_rewrite if_dec_nil.
  split.
  - intros [H1 H2] r [(n & -> & Hn)%list_elem_of_fmap|(n & -> & Hn)%list_elem_of_fmap]%elem_of_app; apply list_elem_of_fmap in Hn as ([p n'] & -> & Hn); [by apply (H1 (p, n'))|by apply (H2 (p, n'))].
  - intros H. split; intros [p n] Hin; [apply (H (RInput n))|apply (H (RStep n))]; apply elem_of_app; [left|right];
      apply list_elem_of_fmap_2; by apply (list_elem_of_fmap_2 snd _ (p, n)).
Qed.

Lemma refs_ok_bind {A} available (f : A → list ref) l : refs_ok declared available (l ≫= f) ↔ ∀ x, x ∈ l → refs_ok declared available (f x).
Proof.
  unfold refs_ok. setoid_rewrite list_elem_of_bind. naive_solver.
Qed.

Lemma check_node_ok available n : _check_node path w available n = [] ↔ refs_ok declared available (node_refs n).
Proof. unfold _check_node, node_refs. rewrite bind_empty, refs_ok_bind. by setoid_rewrite check_scalar_ok. Qed.

Lemma check_condition_ok available c loc : _check_condition path w available c loc = [] ↔ refs_ok declared available (cond_refs c).
Proof.
  unfold _check_condition, cond_refs. rewrite bind_empty. unfold refs_ok. split.
  - intros H r ([p r'] & -> & Hin)%list_elem_of_fmap. specialize (H _ Hin). cbn in *. destruct r'; by apply if_dec_nil in H.
  - intros H [p r] Hin. specialize (H r (list_elem_of_fmap_2 snd _ (p, r) Hin)). cbn. destruct r; by apply if_dec_nil.
Qed.

Lemma check_node_errors available n i : i ∈ _check_node path w available n → li_level i = "error".
Proof.
  unfold _check_node. intros (scalar & Hi & _)%list_elem_of_bind. unfold _check_scalar in Hi.
  apply elem_of_app in Hi as [Hi|Hi]; apply list_elem_of_bind in Hi as (m & Hi & _); case_decide;
    first [by apply not_elem_of_nil in Hi|by apply list_elem_of_singleton in Hi as ->].
Qed.

Lemma check_condition_errors available c loc i : i ∈ _check_condition path w available c loc → li_level i = "error".
Proof.
  unfold _check_condition. intros (m & Hi & _)%list_elem_of_bind. destruct m.2; case_decide;
    first [by apply not_elem_of_nil in Hi|by apply list_elem_of_singleton in Hi as ->].
Qed.

(** Ids that are not there yet, each once. *)
Definition fresh_ids (known ids : list string) : Prop := NoDup ids ∧ ∀ i, i ∈ ids → i ∉ known.

Lemma fresh_app K K' ids ids' :
  (∀ k, k ∈ K' ↔ k ∈ K ∨ k ∈ ids) → fresh_ids K (ids ++ ids') ↔ fresh_ids K ids ∧ fresh_ids K' ids'.
Proof.
  intros HK. unfold fresh_ids. rewrite NoDup_app. setoid_rewrite elem_of_app. setoid_rewrite HK. naive_solver.
Qed.

Definition known (st : analysis) : list string := (an_locations st).*1.

Record walk_ok (st st' : analysis) (ids : list string) (sc : Prop) : Prop := {
  wo_errs : errs (an_issues st') = [] ↔ errs (an_issues st) = [] ∧ fresh_ids (known st) ids ∧ sc;
  wo_known : ∀ k, k ∈ known st' ↔ k ∈ known st ∨ k ∈ ids
}.

Lemma walk_ok_trans st1 st2 st3 ids ids' sc sc' :
  walk_ok st1 st2 ids sc → walk_ok st2 st3 ids' sc' → walk_ok st1 st3 (ids ++ ids') (sc ∧ sc').
Proof.
  intros [H1 K1] [H2 K2]. constructor.
  - rewrite H2, H1, (fresh_app _ (known st2)) by done. tauto.
  - intros k. rewrite K2, K1, elem_of_app. tauto.
Qed.

Lemma add_issues_ok st l (sc : Prop) : (errs l = [] ↔ sc) → walk_ok st (add_issues l st) [] sc.
Proof.
  intros Hl. constructor.
  - cbn [an_issues add_issues]. rewrite errs_app, Hl. split; [intros [? ?]; split_and!; [done|split; [constructor|set_solver]|done]|tauto].
  - intros k. cbn. set_solver.
Qed.

Lemma same_known_ok st st' : an_issues st' = an_issues st → known st' = known st → walk_ok st st' [] True.
Proof.
  intros Hi Hk. constructor; [|intros k; rewrite Hk; set_solver]. rewrite Hi. split; [|tauto]. intros. split_and!; [done|split; [constructor|set_solver]|done].
Qed.

Lemma record_call_ok id loc st : walk_ok st (record_call path id loc st) [id] True.
Proof.
  unfold record_call. destruct (alookup id (an_locations st)) as [first|] eqn:Hl.
  - assert (id ∈ known st) as Hin by (apply alookup_elem_of in Hl; by apply (list_elem_of_fmap_2 fst _ (id, first))). constructor.
    + cbn [an_issues add_issues]. rewrite errs_app. split; [by intros [_ H]|]. intros (_ & [_ Hf] & _). by destruct (Hf id); [set_solver|].
    + intros k. cbn. set_solver.
  - apply alookup_None in Hl. constructor; unfold known; cbn [an_issues an_locations].
    + split; [|tauto]. intros. split_and!; [done| |done]. split; [apply NoDup_singleton|]. by intros i ->%list_elem_of_singleton.
    + intros k. rewrite fmap_app. cbn. set_solver.
Qed.

Definition step_walk (s : WdlStep) : Prop := ∀ available exits st,
  let r := process_step path w s available exits st in
  r.1.2 = defines s available ∧ walk_ok st r.2 (step_ids s) (scoped_step declared available s).

Lemma seq_walk steps : Forall step_walk steps → ∀ available exits st,
  let r := walk_with (process_step path w) steps available exits st in
  r.1.2 = defs available steps ∧ walk_ok st r.2 (all_ids steps) (scoped declared available steps).
Proof.
  induction 1 as [|s steps Hs _ IH]; intros available exits st.
  { split; [done|]. by apply same_known_ok. }
  cbn [walk_with]. destruct (Hs available exits st) as [Ha Hw]. destruct (process_step path w s available exits st) as [[exits1 avail1] st1].
  cbn [fst snd] in *. subst avail1. destruct (IH (defines s available) exits1 st1) as [Ha' Hw']. split; [done|].
  unfold all_ids. rewrite bind_cons. by apply (walk_ok_trans st st1).
Qed.

Lemma step_walk_all s : step_walk s.
Proof.
  induction s as [id t args loc|c steps loc IH] using step_ind'; intros available exits st.
  - cbn [process_step _process_call fst snd defines step_ids scoped_step]. split; [done|].
    set (st1 := record_call path id loc st). set (st2 := add_issues _ st1).
    assert (walk_ok st st2 ([id] ++ []) (True ∧ refs_ok declared available (args_refs args))) as [H1 H2].
    { apply (walk_ok_trans _ st1); [apply record_call_ok|]. apply add_issues_ok. rewrite errs_all.
      - rewrite bind_empty. unfold args_refs. rewrite refs_ok_bind. by setoid_rewrite check_node_ok.
      - intros i (a & Hi & _)%list_elem_of_bind. by apply check_node_errors in Hi. }
    constructor; [|done]. cbn [an_issues connect_all]. rewrite H1. cbn [app]. tauto.
  - rewrite when_ids. cbn [process_step scoped_step defines].
    assert (walk_ok st (add_issues (_check_condition path w available c loc) st) [] (refs_ok declared available (cond_refs c))) as Hc.
    { apply add_issues_ok. rewrite errs_all by (apply check_condition_errors). apply check_condition_ok. }
    destruct steps as [|s0 steps0].
    + cbn [fst snd]. split; [done|]. cbn [all_ids scoped_with]. apply (walk_ok_trans _ (add_issues (_check_condition path w available c loc) st) _ [] []); [done|].
      by apply add_issues_ok.
    + set (steps := s0 :: steps0) in *. destruct (seq_walk steps IH available [] (add_issues (_check_condition path w available c loc) st)) as [_ Hw].
      destruct (walk_with (process_step path w) steps available [] _) as [[bexits avail1] st1]. cbn [fst snd] in *. split; [done|].
      pose proof (walk_ok_trans _ _ _ _ _ _ _ Hc Hw) as [H1 H2]. cbn [app] in H1, H2.
      assert (an_issues (link_branch steps exits bexits st1) = an_issues st1 ∧ known (link_branch steps exits bexits st1) = known st1) as [Hi Hk].
      { unfold link_branch. by repeat (case_match; try done). }
      constructor; [by rewrite Hi|by rewrite Hk].
Qed.

Lemma workflow_walk st :
  let r := _process_sequence path w (wf_steps w) [] [] st in
  r.1.2 = defs [] (wf_steps w) ∧ walk_ok st r.2 (all_ids (wf_steps w)) (scoped declared [] (wf_steps w)).
Proof. apply seq_walk. apply Forall_true. intros. apply step_walk_all. Qed.
End walk_issues.

(** ** The graph of the walk *)

Definition edge (adj : list (string * list string)) (a b : string) : Prop := b ∈ succs adj a.

Lemma edge_connect t adj src a b : edge (connect t adj src) a b ↔ edge adj a b ∨ (a = src ∧ b = t).
Proof.
  unfold edge, succs, connect. rewrite alookup_dict_set. case_decide as Hd; [subst a|naive_solver].
  cbn. rewrite elem_of_set_insert. naive_solver.
Qed.

Lemma edge_connect_all t srcs adj a b : edge (foldl (connect t) adj srcs) a b ↔ edge adj a b ∨ (a ∈ srcs ∧ b = t).
Proof.
  revert adj. induction srcs as [|src srcs IH]; intros adj; cbn [foldl]; [set_solver|]. rewrite IH, edge_connect. set_solver.
Qed.

Lemma edge_record path id loc st a b : edge (an_adjacency (record_call path id loc st)) a b ↔ edge (an_adjacency st) a b.
Proof.
  unfold record_call. destruct (alookup id (an_locations st)); [done|]. cbn [an_adjacency].
  destruct (alookup id (an_adjacency st)) eqn:Hl; [done|]. unfold edge, succs. rewrite alookup_dict_set. case_decide; [|done]. subst a. by rewrite Hl.
Qed.

Lemma rtc_edges (R R' : relation string) : (∀ a b, R a b → R' a b) → ∀ a b, rtc R a b → rtc R' a b.
Proof. intros H a b. induction 1; [done|]. by eapply rtc_l; [apply H|]. Qed.

(** The first step of a branch. *)
Lemma first_when c steps loc : "" ∉ all_ids steps → _first_step_id (WdlWhenStep c steps loc) = first_of steps.
Proof.
  intros Hne. cbn [_first_step_id].
  assert ((fix go (l : list WdlStep) : option string :=
    match l with [] => None | s :: l => match _first_step_id s with Some x => Some x | None => go l end end) steps = first_of steps) as ->.
  { clear Hne. induction steps as [|s steps IH]; [done|]. cbn [first_of]. by rewrite IH. }
  assert (∀ s, "" ∉ step_ids s → _first_step_id s ≠ Some "") as Hs.
  { intros s. destruct s as [id t args l|c' b l]; cbn; [set_solver|]. intros _. case_match; [|done]. match goal with |- context [String.eqb ?y _] => destruct (String.eqb_spec y "") end; [done|congruence]. }
  destruct (first_of steps) as [x|] eqn:Hf; [|done]. destruct (String.eqb_spec x "") as [->|]; [|done]. exfalso.
  revert Hne Hf. induction steps as [|s steps IH]; [done|]. unfold all_ids. rewrite bind_cons. cbn [first_of]. intros Hne.
  specialize (Hs s ltac:(set_solver)). destruct (_first_step_id s); [congruence|]. apply IH. unfold all_ids. set_solver.
Qed.

Section walk_graph.
Context (path : string) (w : WdlWorkflow).

(** What a walk adds to the graph: new steps are reached from the first one,
    which follows every exit before it. *)
Record grown (st st' : analysis) (exits exits' : list string) (first : option string) : Prop := {
  gr_edges : ∀ a b, edge (an_adjacency st) a b → edge (an_adjacency st') a b;
  gr_new : ∀ k, k ∈ known st' → k ∈ known st ∨ ∃ x, first = Some x ∧ rtc (edge (an_adjacency st')) x k;
  gr_first : ∀ x, first = Some x →
    (∀ p, p ∈ exits → edge (an_adjacency st') p x) ∧
    (∀ q, q ∈ exits' → q ∈ exits ∨ rtc (edge (an_adjacency st')) x q) ∧
    ∃ q, q ∈ exits' ∧ rtc (edge (an_adjacency st')) x q;
  gr_none : first = None → exits' = exits;
  gr_entry : (an_entry st = None → known st = []) →
    an_entry st' = (match an_entry st with Some e => Some e | None => first end) ∧ (an_entry st' = None → known st' = [])
}.

Lemma grown_same st st' exits :
  an_adjacency st' = an_adjacency st → an_locations st' = an_locations st → an_entry st' = an_entry st → grown st st' exits exits None.
Proof.
  intros Ha Hl He. constructor; [by rewrite Ha|unfold known; rewrite Hl; by left|done|done|]. unfold known. rewrite He, Hl.
  intros Hn. split; [by destruct (an_entry st)|done].
Qed.

Lemma grown_trans st1 st2 st3 e1 e2 e3 f f' :
  grown st1 st2 e1 e2 f → grown st2 st3 e2 e3 f' → grown st1 st3 e1 e3 (match f with Some x => Some x | None => f' end).
Proof.
  intros [E1 N1 F1 O1 T1] [E2 N2 F2 O2 T2]. constructor.
  - auto.
  - intros k Hk. destruct (N2 k Hk) as [Hk'|(y & Hf' & Hy)].
    + destruct (N1 k Hk') as [?|(x & -> & Hx)]; [by left|]. right. exists x. split; [done|]. by apply (rtc_edges _ _ E2).
    + right. destruct f as [x|]; [|by exists y]. exists x. split; [done|]. destruct (F1 x eq_refl) as (_ & _ & q & Hq & Hxq).
      destruct (F2 y Hf') as (Hqy & _). etransitivity; [by apply (rtc_edges _ _ E2)|]. eapply rtc_l; [by apply Hqy|done].
  - intros x Hx. destruct f as [x'|].
    + injection Hx as ->. destruct (F1 x eq_refl) as (P1 & Q1 & q & Hq & Hxq). split; [auto|]. destruct f' as [y|].
      * destruct (F2 y eq_refl) as (P2 & Q2 & q2 & Hq2 & Hyq2).
        assert (rtc (edge (an_adjacency st3)) x y) as Hxy.
        { etransitivity; [by apply (rtc_edges _ _ E2)|]. apply rtc_once. by apply P2. }
        split; [|exists q2; split; [done|by etransitivity]]. intros r Hr. destruct (Q2 r Hr) as [Hr'|Hyr]; [|right; by etransitivity].
        destruct (Q1 r Hr') as [?|?]; [by left|right]. by apply (rtc_edges _ _ E2).
      * rewrite (O2 eq_refl). split; [|exists q; split; [done|]; by apply (rtc_edges _ _ E2)].
        intros r Hr. destruct (Q1 r Hr) as [?|?]; [by left|right]. by apply (rtc_edges _ _ E2).
    + rewrite <-(O1 eq_refl). by apply F2.
  - intros Hn. destruct f; [done|]. rewrite <-(O1 eq_refl). by apply O2.
  - intros Hi. destruct (T1 Hi) as [H1 H2]. destruct (T2 H2) as [H3 H4]. split; [|done]. rewrite H3, H1. by destruct (an_entry st1), f.
Qed.

Lemma grown_call id args loc available exits st :
  let r := _process_call path w id args loc available exits st in grown st r.2 exits r.1.1 (Some id).
Proof.
  cbn [_process_call fst snd]. constructor; cbn [an_adjacency an_entry connect_all add_issues].
  - intros a b Hab. apply edge_connect_all. left. by apply edge_record.
  - intros k Hk. change (k ∈ known (record_call path id loc st)) in Hk. apply (wo_known _ _ _ _ (record_call_ok path id loc st)) in Hk.
    destruct Hk as [?| ->%list_elem_of_singleton]; [by left|right]. by exists id.
  - intros x [= <-]. split_and!.
    + intros p Hp. apply edge_connect_all. by right.
    + intros q ->%list_elem_of_singleton. by right.
    + exists id. split; [set_solver|done].
  - done.
  - intros Hi. unfold record_call, known in *. destruct (alookup id (an_locations st)) eqn:Hl; cbn [an_entry add_issues an_locations].
    + destruct (an_entry st); [done|]. apply alookup_elem_of in Hl. rewrite (fmap_nil_inv _ _ (Hi eq_refl)) in Hl. set_solver.
    + destruct (an_entry st); done.
Qed.

Definition step_grown (s : WdlStep) : Prop := "" ∉ step_ids s → ∀ available exits st,
  let r := process_step path w s available exits st in grown st r.2 exits r.1.1 (_first_step_id s).

Lemma seq_grown steps : Forall step_grown steps → "" ∉ all_ids steps → ∀ available exits st,
  let r := walk_with (process_step path w) steps available exits st in grown st r.2 exits r.1.1 (first_of steps).
Proof.
  induction 1 as [|s steps Hs _ IH]; intros Hne available exits st; [by apply grown_same|].
  unfold all_ids in Hne. rewrite bind_cons in Hne. cbn [walk_with first_of].
  specialize (Hs ltac:(set_solver) available exits st). destruct (process_step path w s available exits st) as [[e1 a1] st1]. cbn [fst snd] in *.
  eapply grown_trans; [exact Hs|]. apply IH. unfold all_ids. set_solver.
Qed.

Lemma first_nonempty steps x : "" ∉ all_ids steps → first_of steps = Some x → x ∈ all_ids steps.
Proof.
  assert (∀ s y, _first_step_id s = Some y → y ∈ step_ids s) as Hs.
  { intros s. induction s as [id t args l|c b l IH] using step_ind'; intros y Hy; [cbn in *; set_solver|]. rewrite when_ids. cbn in Hy.
    match type of Hy with (match ?g with Some _ => _ | None => _ end) = _ => destruct g as [z|] eqn:Hz end; [|done].
    revert Hy.
    destruct (String.eqb z ""); [done|]. intros [= <-]. revert Hz. induction IH as [|s b Hs _ IH']; [done|]. unfold all_ids. rewrite bind_cons.
    destruct (_first_step_id s) as [v|] eqn:Hv; [intros [= ->]; specialize (Hs _ eq_refl); set_solver|]. intros Hz. specialize (IH' Hz). unfold all_ids in IH'. set_solver. }
  intros _. induction steps as [|s steps IH]; [done|]. cbn [first_of]. unfold all_ids in *. rewrite bind_cons.
  destruct (_first_step_id s) as [v|] eqn:Hv; [intros [= ->]; apply Hs in Hv; set_solver|]. set_solver.
Qed.

Lemma step_grown_all s : step_grown s.
Proof.
  induction s as [id t args loc|c steps loc IH] using step_ind'; intros Hne available exits st; [apply grown_call|].
  rewrite when_ids in Hne. rewrite first_when by done. cbn [process_step]. destruct steps as [|s0 steps0]; [by apply grown_same|].
  set (steps := s0 :: steps0) in *. set (st0 := add_issues _ st).
  pose proof (seq_grown steps IH Hne available [] st0) as Hb. destruct (walk_with (process_step path w) steps available [] st0) as [[bx a1] st1]. cbn [fst snd] in *.
  destruct Hb as [E N F O T]. unfold link_branch. destruct (first_of steps) as [x|] eqn:Hf.
  - assert (x ≠ "") as Hx by (intros ->; by apply Hne, first_nonempty). rewrite (proj2 (String.eqb_neq _ _) Hx).
    destruct (F x eq_refl) as (_ & Q & q & Hq & Hxq).
    set (st2 := connect_all exits x _).
    assert (an_adjacency st2 = foldl (connect x) (an_adjacency st1) exits) as Hadj2 by (unfold st2; by destruct (an_entry st1), exits).
    assert (known st2 = known st1) as Hk2 by (unfold st2; by destruct (an_entry st1), exits).
    assert (∀ a b, edge (an_adjacency st1) a b → edge (an_adjacency st2) a b) as E2 by (intros a b Hab; rewrite Hadj2; apply edge_connect_all; by left).
    constructor.
    + intros a b Hab. by apply E2, E.
    + intros k Hk. rewrite Hk2 in Hk. destruct (N k Hk) as [?|(y & [= <-] & Hy)]; [by left|right]. exists x. split; [done|]. by apply (rtc_edges _ _ E2).
    + intros y [= <-]. split_and!.
      * intros p Hp. rewrite Hadj2. apply edge_connect_all. by right.
      * intros r [Hr|Hr]%elem_of_set_union; [by left|right]. destruct (Q r Hr) as [Hr'|Hr']; [set_solver|]. by apply (rtc_edges _ _ E2).
      * exists q. split; [apply elem_of_set_union; by right|]. by apply (rtc_edges _ _ E2).
    + done.
    + intros Hi. destruct (T Hi) as [H1 H2]. assert (an_entry st2 = an_entry st1) as He.
      { unfold st2. cbn [an_entry connect_all]. destruct (an_entry st1) eqn:He1, exits; cbn; try congruence. change (an_entry st0) with (an_entry st) in H1. by destruct (an_entry st). }
      rewrite He, Hk2. done.
  - rewrite (O eq_refl). cbn [set_union foldl]. constructor; [done|done|done|done|exact T].
Qed.
End walk_graph.

(** ** Edges go forward when ids are distinct *)

Section ranks.
Context (path : string) (w : WdlWorkflow) (rank : string → nat).

Definition forward (adj : list (string * list string)) : Prop := ∀ a b, edge adj a b → rank a < rank b.

Abbreviation ranked := (StronglySorted (λ a b, rank a < rank b)).

Record ahead (st st' : analysis) (exits exits' ids : list string) : Prop := {
  ah_forward : forward (an_adjacency st) → forward (an_adjacency st');
  ah_exits : ∀ q, q ∈ exits' → q ∈ exits ∨ q ∈ ids
}.

Definition step_ahead (s : WdlStep) : Prop := "" ∉ step_ids s → ranked (step_ids s) → ∀ available exits st,
  (∀ p i, p ∈ exits → i ∈ step_ids s → rank p < rank i) →
  let r := process_step path w s available exits st in ahead st r.2 exits r.1.1 (step_ids s).

Lemma forward_connect x adj srcs : forward adj → (∀ p, p ∈ srcs → rank p < rank x) → forward (foldl (connect x) adj srcs).
Proof. intros Hf Hp a b [?|[Ha ->]]%edge_connect_all; auto. Qed.

Lemma seq_ahead steps : Forall step_ahead steps → "" ∉ all_ids steps → ranked (all_ids steps) → ∀ available exits st,
  (∀ p i, p ∈ exits → i ∈ all_ids steps → rank p < rank i) →
  let r := walk_with (process_step path w) steps available exits st in ahead st r.2 exits r.1.1 (all_ids steps).
Proof.
  induction 1 as [|s steps Hs _ IH]; intros Hne Hr available exits st Hp; [by constructor; [|left]|].
  unfold all_ids in Hne, Hr, Hp |- *. rewrite bind_cons in Hne, Hr, Hp |- *. cbn [walk_with].
  apply StronglySorted_app in Hr as (Hcross & Hr1 & Hr2).
  assert (∀ p i, p ∈ exits → i ∈ step_ids s → rank p < rank i) as Hps by (intros p i Hpx Hi; apply Hp; set_solver).
  specialize (Hs ltac:(set_solver) Hr1 available exits st Hps). destruct (process_step path w s available exits st) as [[e1 a1] st1].
  cbn [fst snd] in *. destruct Hs as [F1 Q1]. destruct (IH ltac:(unfold all_ids; set_solver) Hr2 a1 e1 st1) as [F2 Q2].
  { intros p i Hpx Hi. destruct (Q1 p Hpx) as [?|?]; [apply Hp; set_solver|by apply Hcross]. }
  constructor; [auto|]. intros q Hq. destruct (Q2 q Hq) as [Hq'|?]; [destruct (Q1 q Hq')|]; set_solver.
Qed.

Lemma step_ahead_all s : step_ahead s.
Proof.
  induction s as [id t args loc|c steps loc IH] using step_ind'; intros Hne Hr available exits st Hp.
  - cbn [process_step _process_call fst snd]. constructor; [|set_solver]. intros Hf. cbn [an_adjacency connect_all add_issues].
    apply forward_connect; [|intros p Hpx; apply Hp; [done|set_solver]]. intros a b Hab. apply edge_record in Hab. by apply Hf.
  - rewrite when_ids in Hne, Hr, Hp |- *. cbn [process_step]. destruct steps as [|s0 steps0]; [constructor; [done|by left]|].
    set (steps := s0 :: steps0) in *. set (st0 := add_issues _ st).
    destruct (seq_ahead steps IH Hne Hr available [] st0) as [F Q]; [set_solver|].
    destruct (walk_with (process_step path w) steps available [] st0) as [[bx a1] st1]. cbn [fst snd] in *. constructor.
    + intros Hf. specialize (F Hf). unfold link_branch. destruct (first_of steps) as [x|] eqn:Hfi.
      * destruct (String.eqb x ""); [done|]. cbn [an_adjacency connect_all].
        apply forward_connect; [by destruct (an_entry st1), exits|]. intros p Hpx. apply Hp; [done|]. by apply first_nonempty.
      * destruct bx as [|y bx]; [done|]. destruct (String.eqb y ""); [done|]. by destruct (an_entry st1), exits.
    + intros q [?|Hq]%elem_of_set_union; [by left|]. destruct (Q q Hq); [set_solver|by right].
Qed.
End ranks.

(** Distinct ids are ranked by their place. *)
Lemma ranked_ids (ids : list string) : NoDup ids → ∃ rank : string → nat, StronglySorted (λ a b, rank a < rank b) ids.
Proof.
  induction ids as [|x ids IH]; [exists (λ _, 0); constructor|]. intros [Hni Hnd]%NoDup_cons. destruct (IH Hnd) as [r Hr].
  exists (λ y, if decide (y = x) then 0 else S (r y)).
  assert (∀ l, x ∉ l → StronglySorted (λ a b, r a < r b) l →
    StronglySorted (λ a b, (if decide (a = x) then 0 else S (r a)) < (if decide (b = x) then 0 else S (r b))) l) as Hsh.
  { induction l as [|y l IHl]; [constructor|]. intros Hx Hs. apply StronglySorted_inv in Hs as [Hs Hall]. constructor; [apply IHl; [set_solver|done]|].
    apply Forall_forall. intros z Hz. rewrite Forall_forall in Hall. specialize (Hall z Hz). rewrite !decide_False by set_solver. lia. }
  constructor; [by apply Hsh|]. apply Forall_forall. intros z Hz. rewrite decide_True by done. rewrite decide_False by set_solver. lia.
Qed.

(** ** Searches *)

Section searches.
Context (adj : list (string * list string)).

Definition out_of (visited : list string) : nat :=
  sum_list ((λ kv : string * list string, length kv.2) <$> filter (λ kv, kv.1 ∉ visited) adj).

Lemma out_of_visit node visited : node ∉ visited → out_of (visited ++ [node]) + length (succs adj node) ≤ out_of visited.
Proof.
  intros Hni. unfold out_of, succs. induction adj as [|[k l] adj' IH]; [done|]. cbn [alookup]. rewrite !filter_cons. cbn [fst].
  destruct (decide (node = k)) as [->|Hne].
  - rewrite decide_False by set_solver. rewrite decide_True by done. cbn [fmap list_fmap sum_list snd].
    assert (out_of_le : sum_list ((λ kv : string * list string, length kv.2) <$> filter (λ kv, kv.1 ∉ visited ++ [k]) adj') ≤
      sum_list ((λ kv : string * list string, length kv.2) <$> filter (λ kv, kv.1 ∉ visited) adj')).
    { clear IH. induction adj' as [|[k' l'] adj'' IH]; [done|]. rewrite !filter_cons. cbn [fst].
      destruct (decide (k' ∉ visited ++ [k])) as [Hk'|]; [rewrite (decide_True (P := k' ∉ visited)) by set_solver|case_decide]; csimpl; lia. }
    csimpl. lia.
  - destruct (decide (k ∉ visited)) as [Hk|Hk].
    + rewrite decide_True by set_solver. csimpl. lia.
    + rewrite decide_False by set_solver. done.
Qed.

Lemma bfs_total fuel queue visited : length queue + out_of visited ≤ fuel → ∃ V, bfs fuel adj queue visited = Some V ∧
  visited ⊆ V ∧ queue ⊆ V ∧ ((∀ a b, a ∈ visited → edge adj a b → b ∈ visited ++ queue) → ∀ a b, a ∈ V → edge adj a b → b ∈ V).
Proof.
  revert queue visited. induction fuel as [|fuel IH]; intros queue visited Hf.
  { destruct queue; [|cbn in Hf; lia]. exists visited. split_and!; [done|done|set_solver|]. intros H a b Ha Hab. specialize (H a b Ha Hab). by rewrite app_nil_r in H. }
  destruct queue as [|node queue]; cbn [bfs].
  { exists visited. split_and!; [done|done|set_solver|]. intros H a b Ha Hab. specialize (H a b Ha Hab). by rewrite app_nil_r in H. }
  cbn [length] in Hf. destruct (decide (node ∈ visited)) as [Hin|Hni].
  - destruct (IH queue visited) as (V & HV & H1 & H2 & H3); [lia|]. exists V. split_and!; [done|done|set_solver|]. intros H. apply H3.
    intros a b Ha Hab. specialize (H a b Ha Hab). set_solver.
  - pose proof (out_of_visit node visited Hni). destruct (IH (queue ++ succs adj node) (visited ++ [node])) as (V & HV & H1 & H2 & H3).
    { rewrite length_app. lia. }
    exists V. split_and!; [done|set_solver|set_solver|]. intros H'. apply H3. intros a b Ha Hab. apply elem_of_app in Ha as [Ha|Ha].
    + specialize (H' a b Ha Hab). set_solver.
    + apply list_elem_of_singleton in Ha as ->. unfold edge in Hab. set_solver.
Qed.

Lemma bfs_reaches entry : ∃ V, bfs (S (edge_count adj)) adj [entry] [] = Some V ∧ ∀ x, rtc (edge adj) entry x → x ∈ V.
Proof.
  destruct (bfs_total (S (edge_count adj)) [entry] []) as (V & HV & _ & H2 & H3).
  { cbn [length]. unfold out_of, edge_count.
    assert (∀ l : list (string * list string), filter (λ kv, kv.1 ∉ []) l = l) as ->; [|lia].
    induction l as [|x l IHl]; [done|]. rewrite filter_cons_True by set_solver. by f_equal. }
  exists V. split; [done|]. intros x. apply (rtc_ind_r (λ y, y ∈ V)); [set_solver|]. intros y z _ Hyz Hy. apply (H3 ltac:(set_solver) y z); done.
Qed.

(** Depth-first search with more fuel than unvisited nodes returns. *)
Definition unvisited (U visited : list string) : nat := length (filter (λ x, x ∉ visited) U).

Lemma unvisited_mono U visited visited' : visited ⊆ visited' → unvisited U visited' ≤ unvisited U visited.
Proof.
  intros Hs. unfold unvisited. induction U as [|x U IH]; [done|]. rewrite !filter_cons.
  destruct (decide (x ∉ visited')) as [Hx|]; [rewrite (decide_True (P := x ∉ visited)) by set_solver|case_decide]; cbn; lia.
Qed.

Lemma unvisited_visit U visited node : node ∈ U → node ∉ visited → unvisited U (visited ++ [node]) < unvisited U visited.
Proof.
  intros Hin Hni. induction U as [|x U IH]; [set_solver|]. unfold unvisited. rewrite !filter_cons. destruct (decide (x = node)) as [->|Hne].
  - rewrite decide_False by set_solver. rewrite decide_True by done. cbn. pose proof (unvisited_mono U visited (visited ++ [node]) ltac:(set_solver)).
    unfold unvisited in *. lia.
  - specialize (IH ltac:(set_solver)). unfold unvisited in IH.
    destruct (decide (x ∉ visited)) as [Hx|Hx]; [rewrite decide_True by set_solver|rewrite decide_False by set_solver]; cbn; lia.
Qed.

Section dfs.
Context (U : list string) (Hclosed : ∀ a b, edge adj a b → b ∈ U).

Lemma dfs_total fuel stack node visited :
  node ∈ U → unvisited U visited < fuel → ∃ f V reps, dfs fuel adj stack node visited = Some (f, V, reps) ∧ visited ⊆ V.
Proof.
  revert stack node visited. induction fuel as [|fuel IH]; intros stack node visited Hn Hf; [lia|]. cbn [dfs].
  destruct (decide (node ∈ stack)); [by eauto|]. destruct (decide (node ∈ visited)) as [|Hni]; [by eauto|].
  pose proof (unvisited_visit U visited node Hn Hni) as Hlt.
  assert (∀ nodes V, (∀ x, x ∈ nodes → x ∈ U) → unvisited U V < fuel →
    ∃ f V' reps, dfs_succs (dfs fuel adj (node :: stack)) nodes V = Some (f, V', reps) ∧ V ⊆ V') as Hloop.
  { induction nodes as [|x nodes IHn]; intros V HU HV; cbn [dfs_succs]; [by eauto|].
    destruct (IH (node :: stack) x V (HU x ltac:(set_solver)) HV) as (f & V1 & r1 & -> & Hs1). destruct f; [by eauto|].
    destruct (IHn V1) as (f2 & V2 & r2 & -> & Hs2); [set_solver|pose proof (unvisited_mono U V V1 Hs1); lia|]. do 3 eexists. split; [done|set_solver]. }
  destruct (Hloop (succs adj node) (visited ++ [node])) as (f & V & r & -> & Hs); [intros x Hx; by apply (Hclosed node)|lia|].
  do 3 eexists. split; [done|set_solver].
Qed.

Lemma dfs_roots_total fuel roots visited :
  roots ⊆ U → unvisited U visited < fuel → ∃ reps, dfs_roots fuel adj roots visited = Some reps.
Proof.
  revert visited. induction roots as [|node roots IH]; intros visited HU Hf; cbn [dfs_roots]; [by eauto|].
  destruct (dfs_total fuel [] node visited) as (f & V & r & -> & Hs); [set_solver|done|]. destruct f; [by eauto|].
  destruct (IH V) as [r' ->]; [set_solver|pose proof (unvisited_mono U visited V Hs); lia|]. by eauto.
Qed.
End dfs.

(** Along edges that go forward no cycle is found. *)
Lemma dfs_forward rank fuel stack node visited f V reps :
  forward rank adj → (∀ s, s ∈ stack → rank s < rank node) → dfs fuel adj stack node visited = Some (f, V, reps) → f = false ∧ reps = [].
Proof.
  intros Hfw. revert stack node visited f V reps. induction fuel as [|fuel IH]; intros stack node visited f V reps Hst; cbn [dfs]; [done|].
  destruct (decide (node ∈ stack)) as [Hin|]; [specialize (Hst node Hin); lia|]. destruct (decide (node ∈ visited)); [by intros [= <- <- <-]|].
  assert (∀ nodes V0 f V reps, (∀ x, x ∈ nodes → edge adj node x) →
    dfs_succs (dfs fuel adj (node :: stack)) nodes V0 = Some (f, V, reps) → f = false ∧ reps = []) as Hloop.
  { clear f V reps. induction nodes as [|x nodes IHn]; intros V0 f V reps He; cbn [dfs_succs]; [by intros [= <- <- <-]|].
    destruct (dfs fuel adj (node :: stack) x V0) as [[[f1 V1] r1]|] eqn:Hd; [|done].
    pose proof (Hfw node x (He x ltac:(set_solver))) as Hlt.
    destruct (IH (node :: stack) x V0 f1 V1 r1) as [-> ->]; [|done|].
    { intros s [->|Hs]%elem_of_cons; [done|]. specialize (Hst s Hs). lia. }
    destruct (dfs_succs _ nodes V1) as [[[f2 V2] r2]|] eqn:Hd2; [|done]. destruct (IHn V1 f2 V2 r2) as [-> ->]; [set_solver|done|]. by intros [= <- <- <-]. }
  apply Hloop. done.
Qed.

Lemma dfs_roots_forward rank fuel roots visited reps : forward rank adj → dfs_roots fuel adj roots visited = Some reps → reps = [].
Proof.
  intros Hfw. revert visited reps. induction roots as [|node roots IH]; intros visited reps; cbn [dfs_roots]; [by intros [= <-]|].
  destruct (dfs fuel adj [] node visited) as [[[f V] r]|] eqn:Hd; [|done].
  destruct (dfs_forward rank fuel [] node visited f V r Hfw ltac:(set_solver) Hd) as [-> ->].
  destruct (dfs_roots fuel adj roots V) as [r'|] eqn:Hr; [|done]. intros [= <-]. by rewrite (IH V r' Hr).
Qed.
End searches.

(** ** The report of the linter *)

Section report.
Context (path : string) (w : WdlWorkflow).

(** The walk and the outputs report neither unreachable steps nor cycles. *)
Definition walk_code (i : LintIssue) : Prop := li_code i ≠ "unreachable-step" ∧ li_code i ≠ "cycle-detected".

Lemma check_node_codes available n : Forall walk_code (_check_node path w available n).
Proof.
  apply Forall_forall. intros i (scalar & Hi & _)%list_elem_of_bind. unfold _check_scalar in Hi.
  apply elem_of_app in Hi as [Hi|Hi]; apply list_elem_of_bind in Hi as (m & Hi & _); case_decide;
    first [by apply not_elem_of_nil in Hi|by apply list_elem_of_singleton in Hi as ->].
Qed.

Lemma check_condition_codes available c loc : Forall walk_code (_check_condition path w available c loc).
Proof.
  apply Forall_forall. intros i (m & Hi & _)%list_elem_of_bind. destruct m.2; case_decide;
    first [by apply not_elem_of_nil in Hi|by apply list_elem_of_singleton in Hi as ->].
Qed.

Lemma bind_codes {A} (f : A → list LintIssue) l : (∀ x, Forall walk_code (f x)) → Forall walk_code (l ≫= f).
Proof. intros Hf. induction l as [|x l IH]; [constructor|]. rewrite bind_cons. by apply Forall_app. Qed.

Lemma link_branch_issues steps exits bx st : an_issues (link_branch steps exits bx st) = an_issues st.
Proof.
  unfold link_branch. destruct (first_of steps) as [x|]; [destruct (String.eqb x ""); [done|]; cbn; by destruct (an_entry st), exits|].
  destruct bx as [|y bx]; [done|]. destruct (String.eqb y ""); [done|]. by destruct (an_entry st), exits.
Qed.

Definition step_codes (s : WdlStep) : Prop := ∀ available exits st,
  Forall walk_code (an_issues st) → Forall walk_code (an_issues (process_step path w s available exits st).2).

Lemma seq_codes steps : Forall step_codes steps → ∀ available exits st,
  Forall walk_code (an_issues st) → Forall walk_code (an_issues (walk_with (process_step path w) steps available exits st).2).
Proof.
  induction 1 as [|s steps Hs _ IH]; intros available exits st Hst; [done|]. cbn [walk_with]. specialize (Hs available exits st Hst).
  destruct (process_step path w s available exits st) as [[e1 a1] st1]. by apply IH.
Qed.

Lemma step_codes_all s : step_codes s.
Proof.
  induction s as [id t args loc|c steps loc IH] using step_ind'; intros available exits st Hst; cbn [process_step].
  - cbn [_process_call snd an_issues connect_all add_issues]. apply Forall_app. split; [|apply bind_codes; intros; apply check_node_codes].
    unfold record_call. destruct (alookup id (an_locations st)); [|done]. cbn. apply Forall_app. split; [done|]. by repeat constructor.
  - assert (Forall walk_code (an_issues (add_issues (_check_condition path w available c loc) st))) as Hc.
    { cbn. apply Forall_app. split; [done|apply check_condition_codes]. }
    destruct steps as [|s0 steps0]; [cbn; apply Forall_app; split; [done|by repeat constructor]|].
    pose proof (seq_codes (s0 :: steps0) IH available [] _ Hc) as Hb.
    destruct (walk_with _ (s0 :: steps0) available [] _) as [[bx a1] st1]. cbn [snd] in *. by rewrite link_branch_issues.
Qed.

Lemma graph_closed st a b : edge (an_adjacency st) a b → b ∈ known st ++ graph_nodes (an_adjacency st).
Proof.
  unfold edge, succs. destruct (alookup a (an_adjacency st)) as [l|] eqn:Hl; cbn; [|set_solver]. intros Hb. apply elem_of_app. right.
  unfold graph_nodes. apply elem_of_app. right. apply alookup_elem_of, (list_elem_of_fmap_2 snd) in Hl. apply list_elem_of_join. by exists l.
Qed.

(** The searches after the walk. *)
Lemma searches_end st :
  (∀ x, x ∈ known st → ∀ y e, an_locations st = e :: y → rtc (edge (an_adjacency st)) (default e.1 (an_entry st)) x) →
  ∃ reps, (st' ← _validate_reachability path w st; _validate_cycles path w st') =
    Some (mkAnalysis (an_issues st ++
        match an_locations st, wf_steps w with
        | [], _ :: _ => [issue_at path "no-call-steps" "Workflow does not define any executable steps" "error" (wf_location w)]
        | _, _ => []
        end ++ (cycle_issue path w st <$> reps))
      (an_adjacency st) (an_locations st) (match an_locations st with [] => an_entry st | e :: _ => Some (default e.1 (an_entry st)) end)) ∧
    ∀ rank, forward rank (an_adjacency st) → reps = [].
Proof.
  intros Hreach.
  assert (∃ reps, dfs_roots (S (length ((an_locations st).*1 ++ graph_nodes (an_adjacency st)))) (an_adjacency st) (an_locations st).*1 [] = Some reps) as [reps Hd].
  { apply (dfs_roots_total _ ((an_locations st).*1 ++ graph_nodes (an_adjacency st))); [apply graph_closed|set_solver|]. unfold unvisited.
    pose proof (length_filter (λ x, x ∉ []) ((an_locations st).*1 ++ graph_nodes (an_adjacency st))). lia. }
  exists reps. split; [|intros rank Hf; by apply (dfs_roots_forward _ _ _ _ _ _ Hf Hd)].
  unfold _validate_reachability. destruct (an_locations st) as [|[first loc] locs] eqn:Hl.
  - destruct (wf_steps w); cbn [mbind option_bind]; unfold _validate_cycles; cbn [an_locations an_adjacency an_issues an_entry add_issues]; rewrite ?Hl, ?Hd; cbn [mbind option_bind];
      unfold cycle_issue, add_issues; cbn [an_issues an_locations an_adjacency an_entry]; by rewrite ?Hl, ?app_nil_l, <-?app_assoc.
  - destruct (bfs_reaches (an_adjacency st) (default first (an_entry st))) as (V & HV & Hall). rewrite HV. cbn [mbind option_bind].
    assert (filter (λ id, id ∉ V) ((first, loc) :: locs).*1 = []) as ->.
    { rewrite <-Hl. destruct (filter (λ id, id ∉ V) (an_locations st).*1) as [|x l] eqn:Hf; [done|].
      assert (x ∈ filter (λ id, id ∉ V) (an_locations st).*1) as Hx by (rewrite Hf; set_solver).
      apply list_elem_of_filter in Hx as [Hx Hk]. destruct Hx. apply Hall. by apply (Hreach x Hk locs (first, loc)). }
    unfold _validate_cycles. cbn [add_issues an_locations an_adjacency an_issues an_entry]. rewrite ?Hl, ?Hd. cbn [mbind option_bind].
    unfold add_issues, cycle_issue. cbn [an_issues an_locations an_adjacency an_entry]. rewrite ?Hl, ?app_nil_r.
    done.
Qed.

(** The ids of a workflow, and the state of the analysis after the walk. *)
Definition walked_state : analysis := (_process_sequence path w (wf_steps w) [] [] (mkAnalysis [] [] [] None)).2.

Lemma walked_reaches :
  "" ∉ all_ids (wf_steps w) →
  ∀ x, x ∈ known walked_state → ∀ y e, an_locations walked_state = e :: y → rtc (edge (an_adjacency walked_state)) (default e.1 (an_entry walked_state)) x.
Proof.
  intros Hne x Hx y e He.
  assert (Forall (step_grown path w) (wf_steps w)) as Hall by (apply Forall_true; intros; apply step_grown_all).
  destruct (seq_grown path w (wf_steps w) Hall Hne [] [] (mkAnalysis [] [] [] None)) as [_ N _ _ T]. fold walked_state in N, T.
  change (walk_with _ _ _ _ _).2 with walked_state in N, T. destruct (N x Hx) as [Hx'|(f & Hf & Hr)]; [cbn in Hx'; set_solver|].
  destruct (T ltac:(done)) as [Hen _]. rewrite Hen, Hf. done.
Qed.

(** C3: The linter of a workflow with named steps always returns.  It never
    reports an unreachable step, and reports a cycle only when step ids
    repeat.  It reports no error exactly when the ids are distinct, there is a
    call if there are steps, and in every execution, whatever branches are
    taken, each reference in an argument, a condition or an output names a
    declared input or a step that already ran. *)
Theorem lint_workflow :
  "" ∉ all_ids (wf_steps w) →
  ∃ st, analyzer_run path w = Some st ∧
    (∀ i, i ∈ an_issues st → li_code i ≠ "unreachable-step") ∧
    (NoDup (all_ids (wf_steps w)) → ∀ i, i ∈ an_issues st → li_code i ≠ "cycle-detected") ∧
    (errs (an_issues st) = [] ↔
       NoDup (all_ids (wf_steps w)) ∧ (all_ids (wf_steps w) = [] → wf_steps w = []) ∧
       ∀ tr, execution w tr → resolved (declared_inputs w) [] tr).
Proof.
  intros Hne. unfold analyzer_run. pose proof (workflow_walk path w (mkAnalysis [] [] [] None)) as [Hdef Hw].
  pose proof (walked_reaches Hne) as Hreach. unfold walked_state in Hreach.
  pose proof (seq_codes (wf_steps w) ltac:(apply Forall_true; intros; apply step_codes_all) [] [] (mkAnalysis [] [] [] None) ltac:(constructor)) as Hcodes.
  assert (∀ rank, StronglySorted (λ a b, rank a < rank b) (all_ids (wf_steps w)) →
    forward rank (an_adjacency (_process_sequence path w (wf_steps w) [] [] (mkAnalysis [] [] [] None)).2)) as Hfw.
  { intros rank Hr. destruct (seq_ahead path w rank (wf_steps w) ltac:(apply Forall_true; intros; apply step_ahead_all) Hne Hr [] [] (mkAnalysis [] [] [] None)) as [F _];
      [set_solver|]. apply F. intros a b Hab. unfold edge, succs in Hab. cbn in Hab. set_solver. }
  change (walk_with (process_step path w) (wf_steps w) [] [] (mkAnalysis [] [] [] None)) with (_process_sequence path w (wf_steps w) [] [] (mkAnalysis [] [] [] None)) in *.
  destruct (_process_sequence path w (wf_steps w) [] [] (mkAnalysis [] [] [] None)) as [[ex defined] st1]. cbn [fst snd] in *. subst defined.
  set (st2 := _validate_outputs path w (defs [] (wf_steps w)) st1).
  destruct (searches_end st2 Hreach) as (reps & -> & Hreps). eexists. split; [done|].
  assert (Forall walk_code (an_issues st2)) as Hc2.
  { cbn. apply Forall_app. split; [done|]. apply bind_codes. intros. apply check_node_codes. }
  assert (NoDup (all_ids (wf_steps w)) → reps = []) as Hno.
  { intros Hnd. destruct (ranked_ids _ Hnd) as [rank Hr]. apply (Hreps rank). by apply Hfw. }
  rewrite Forall_forall in Hc2. set (nc := match an_locations st2 with [] => _ | _ => _ end).
  assert (∀ i, i ∈ nc → walk_code i) as Hnc.
  { intros i. unfold nc. destruct (an_locations st2), (wf_steps w); first [by intros ?%not_elem_of_nil|by intros ->%list_elem_of_singleton]. }
  cbn [an_issues]. split_and!.
  - intros i [Hi|[Hi|Hi]%elem_of_app]%elem_of_app; [by apply Hc2|by apply Hnc|]. by apply list_elem_of_fmap in Hi as (x & -> & _).
  - intros Hnd i. rewrite (Hno Hnd). intros [Hi|[Hi|Hi]%elem_of_app]%elem_of_app; [by apply Hc2|by apply Hnc|set_solver].
  - rewrite execution_resolved. destruct Hw as [He Hk]. cbn [an_issues st2 _validate_outputs add_issues]. rewrite !errs_app, He.
    assert (errs (wf_outputs w ≫= λ o, _check_node path w (defs [] (wf_steps w)) (wo_value o)) = [] ↔
      refs_ok (declared_inputs w) (defs [] (wf_steps w)) (wf_outputs w ≫= λ o, node_refs (wo_value o))) as ->.
    { rewrite errs_all by (intros i (o & Hi & _)%list_elem_of_bind; by apply check_node_errors in Hi).
      rewrite bind_empty, refs_ok_bind. by setoid_rewrite check_node_ok. }
    assert (fresh_ids (known (mkAnalysis [] [] [] None)) (all_ids (wf_steps w)) ↔ NoDup (all_ids (wf_steps w))) as ->.
    { unfold fresh_ids. split; [tauto|]. intros. split; [done|]. cbn. set_solver. }
    assert (errs nc = [] ↔ (all_ids (wf_steps w) = [] → wf_steps w = [])) as ->.
    { assert (all_ids (wf_steps w) = [] ↔ an_locations st2 = []) as ->.
      { change (an_locations st2) with (an_locations st1). split.
        - intros Hn. destruct (an_locations st1) as [|[k l] ls] eqn:Hl; [done|]. assert (k ∈ known st1) as Hin by (unfold known; rewrite Hl; set_solver).
          apply Hk in Hin as [Hin|Hin]; [cbn in Hin; set_solver|rewrite Hn in Hin; set_solver].
        - intros Hl. destruct (all_ids (wf_steps w)) as [|k ids] eqn:Hi; [done|]. assert (k ∈ known st1) as Hin by (apply Hk; right; set_solver).
          unfold known in Hin. rewrite Hl in Hin. set_solver. }
      unfold nc. destruct (an_locations st2), (wf_steps w); cbn; split; try done; intros Hx; try by specialize (Hx eq_refl). }
    split.
    + tauto.
    + intros (Hnd & Hn & Hs & Ho). rewrite (Hno Hnd). split_and!; done.
Qed.
End report.

(** ** The planner ([plan.py]) *)

Record PlanNode : Type := mkPlanNode {
  pn_id : string;
  pn_type : string;
  pn_label : string;
  pn_target : option string;
  pn_location : SourceSpan
}.

Record PlanEdge : Type := mkPlanEdge { pe_source : string; pe_target : string; pe_label : option string }.

Record WorkflowPlan : Type := mkWPlan {
  wp_name : string;
  wp_version : string;
  wp_entry : option string;
  wp_nodes : list PlanNode;
  wp_edges : list PlanEdge;
  wp_source : option string
}.

Record planner : Type := mkPlanner {
  pl_nodes : list (string * PlanNode);
  pl_edges : list PlanEdge;
  pl_when_counter : nat;
  pl_entry : option string;
  pl_true_pending : list (string * string);
  pl_false_pending : list (string * string)
}.

(** One source of [_connect]: the label it takes, and what is left pending. *)
Definition connect_one (target : string) (p : planner) (src : string) : planner :=
  let add label tp fp :=
    mkPlanner (pl_nodes p) (pl_edges p ++ [mkPlanEdge src target label]) (pl_when_counter p) (pl_entry p) tp fp in
  match alookup src (pl_true_pending p) with
  | Some label => add (Some label) (dict_pop src (pl_true_pending p)) (pl_false_pending p)
  | None =>
      match alookup src (pl_false_pending p) with
      | Some label => add (Some label) (pl_true_pending p) (dict_pop src (pl_false_pending p))
      | None => add None (pl_true_pending p) (pl_false_pending p)
      end
  end.

Definition with_entry (x : string) (p : planner) : planner :=
  match pl_entry p with
  | None => mkPlanner (pl_nodes p) (pl_edges p) (pl_when_counter p) (Some x) (pl_true_pending p) (pl_false_pending p)
  | Some _ => p
  end.

Definition _connect (sources : list string) (target : string) (p : planner) : planner :=
  match sources with
  | [] => with_entry target p
  | _ => foldl (connect_one target) p sources
  end.

(** [nodes.setdefault(id, node)]. *)
Definition add_node (n : PlanNode) (p : planner) : planner :=
  match alookup (pn_id n) (pl_nodes p) with
  | Some _ => p
  | None => mkPlanner (pl_nodes p ++ [(pn_id n, n)]) (pl_edges p) (pl_when_counter p) (pl_entry p) (pl_true_pending p) (pl_false_pending p)
  end.

Definition plan_call (id target : string) (loc : SourceSpan) (exits : list string) (p : planner) : list string * planner :=
  ([id], with_entry id (_connect exits id (add_node (mkPlanNode id "call" id (Some target) loc) p))).

Definition _next_condition_id (p : planner) : string * planner :=
  ("when_" +:+ pretty (pl_when_counter p),
   mkPlanner (pl_nodes p) (pl_edges p) (S (pl_when_counter p)) (pl_entry p) (pl_true_pending p) (pl_false_pending p)).

(** The node of a condition, its edges and the labels of its branches. *)
Definition open_when (condition : string) (loc : SourceSpan) (exits : list string) (p : planner) : string * planner :=
  let '(cond_id, p) := _next_condition_id p in
  let label := strip condition in
  let p := _connect exits cond_id (add_node (mkPlanNode cond_id "condition" label None loc) p) in
  let p := match exits with [] => with_entry cond_id p | _ => p end in
  (cond_id, mkPlanner (pl_nodes p) (pl_edges p) (pl_when_counter p) (pl_entry p)
     (dict_set cond_id ("if " +:+ label) (pl_true_pending p)) (dict_set cond_id ("else not(" +:+ label +:+ ")") (pl_false_pending p))).

Definition close_when (cond_id : string) (p : planner) : planner :=
  mkPlanner (pl_nodes p) (pl_edges p) (pl_when_counter p) (pl_entry p) (dict_pop cond_id (pl_true_pending p)) (pl_false_pending p).

Fixpoint plan_with (process : WdlStep → list string → planner → list string * planner) (steps : list WdlStep)
    (exits : list string) (p : planner) : list string * planner :=
  match steps with
  | [] => (exits, p)
  | s :: steps => let '(exits, p) := process s exits p in plan_with process steps exits p
  end.

Fixpoint plan_step (s : WdlStep) (exits : list string) (p : planner) {struct s} : list string * planner :=
  match s with
  | WdlCallStep id target _ loc => plan_call id target loc exits p
  | WdlWhenStep condition steps loc =>
      let '(cond_id, p) := open_when condition loc exits p in
      let '(branch_exits, p) := plan_with plan_step steps [cond_id] p in
      (cond_id :: branch_exits, close_when cond_id p)
  end.

Definition build_workflow_plan (w : WdlWorkflow) (source : option string) : WorkflowPlan :=
  let p := (plan_with plan_step (wf_steps w) [] (mkPlanner [] [] 0 None [] [])).2 in
  mkWPlan (wf_name w) (wf_version w) (pl_entry p) (pl_nodes p).*2 (pl_edges p) source.

Definition opt_text (o : option string) : json := match o with Some s => JStr s | None => JNull end.

Definition plan_to_dict (p : WorkflowPlan) (filename : option string) : json :=
  JObj [("workflow", JStr (wp_name p)); ("version", JStr (wp_version p)); ("entry", opt_text (wp_entry p)); ("source", opt_text (wp_source p));
        ("nodes", JArr ((λ n, JObj [("id", JStr (pn_id n)); ("type", JStr (pn_type n)); ("label", JStr (pn_label n)); ("target", opt_text (pn_target n));
             ("location", JObj [("line", JInt (Z.of_nat (sp_line (pn_location n)))); ("column", JInt (Z.of_nat (sp_column (pn_location n))));
                                ("filename", opt_text filename)])]) <$> wp_nodes p));
        ("edges", JArr ((λ e, JObj [("from", JStr (pe_source e)); ("to", JStr (pe_target e)); ("label", opt_text (pe_label e))]) <$> wp_edges p))].

(** [plan_to_dot]; a line end of a label is written as two characters. *)
Definition dq (s : string) : string :=
  let q := String (ascii_of_nat 34) EmptyString in q +:+ s +:+ q.

Definition dot_node (n : PlanNode) : string :=
  let label :=
    if String.eqb (pn_type n) "condition" then pn_label n +:+ "\n[condition]"
    else match pn_target n with
         | Some t => if String.eqb t "" then pn_label n else pn_label n +:+ "\n" +:+ t
         | None => pn_label n
         end in
  "  " +:+ dq (pn_id n) +:+ " [label=" +:+ dq label +:+ "];".

Definition dot_edge (e : PlanEdge) : string :=
  let arrow := "  " +:+ dq (pe_source e) +:+ " -> " +:+ dq (pe_target e) in
  match pe_label e with
  | Some l => if String.eqb l "" then arrow +:+ ";" else arrow +:+ " [label=" +:+ dq l +:+ "];"
  | None => arrow +:+ ";"
  end.

Definition plan_to_dot (p : WorkflowPlan) : string :=
  String.concat (String (ascii_of_nat 10) EmptyString)
    (["digraph " +:+ dq (wp_name p) +:+ " {"] ++ (dot_node <$> wp_nodes p) ++ (dot_edge <$> wp_edges p) ++ ["}"]).

Inductive planned : Type := Planned (p : WorkflowPlan) | PlanError (message : string) | PlanCrash (e : exn) | PlanNoFuel.

Definition plan_text `{PyLiteral} (text : string) (filename : option string) : planned :=
  match parse_wdl_document text with
  | None => PlanNoFuel
  | Some (NotBuilt e) => PlanError (de_message e)
  | Some (Crashed e) => PlanCrash e
  | Some (Built w) => Planned (build_workflow_plan w filename)
  end.

(** Plans are connected: edges join nodes, every node is reached from the
    entry, and every step has its node. *)
Definition plan_edge (es : list PlanEdge) (a b : string) : Prop := ∃ l, mkPlanEdge a b l ∈ es.

Record plan_ok (p : planner) (exits : list string) : Prop := {
  po_nodup : NoDup (pl_nodes p).*1;
  po_ids : ∀ k n, (k, n) ∈ pl_nodes p → pn_id n = k;
  po_edges : ∀ a b, plan_edge (pl_edges p) a b → a ∈ (pl_nodes p).*1 ∧ b ∈ (pl_nodes p).*1;
  po_reach : ∀ k, k ∈ (pl_nodes p).*1 → ∃ e, pl_entry p = Some e ∧ rtc (plan_edge (pl_edges p)) e k;
  po_entry : ∀ e, pl_entry p = Some e → e ∈ (pl_nodes p).*1;
  po_exits : ∀ x, x ∈ exits → x ∈ (pl_nodes p).*1;
  po_start : exits = [] → pl_nodes p = [] ∧ pl_entry p = None
}.

Lemma connect_one_edges t p src :
  pl_edges (connect_one t p src) = pl_edges p ++ [mkPlanEdge src t (pe_label (default (mkPlanEdge src t None) (last (pl_edges (connect_one t p src)))))] ∧
  pl_nodes (connect_one t p src) = pl_nodes p ∧ pl_entry (connect_one t p src) = pl_entry p.
Proof. unfold connect_one. destruct (alookup src (pl_true_pending p)); [|destruct (alookup src (pl_false_pending p))]; cbn; by rewrite last_snoc. Qed.

Lemma connect_edges t srcs p :
  (∀ a b, plan_edge (pl_edges (foldl (connect_one t) p srcs)) a b ↔ plan_edge (pl_edges p) a b ∨ (a ∈ srcs ∧ b = t)) ∧
  pl_nodes (foldl (connect_one t) p srcs) = pl_nodes p ∧ pl_entry (foldl (connect_one t) p srcs) = pl_entry p.
Proof.
  revert p. induction srcs as [|src srcs IH]; intros p; cbn [foldl]; [split_and!; [set_solver|done|done]|].
  destruct (IH (connect_one t p src)) as (H1 & H2 & H3). destruct (connect_one_edges t p src) as (E1 & E2 & E3).
  split_and!; [|by rewrite H2|by rewrite H3]. intros a b. rewrite H1, E1. unfold plan_edge. setoid_rewrite elem_of_app. setoid_rewrite list_elem_of_singleton.
  rewrite elem_of_cons. naive_solver.
Qed.

Lemma add_node_keys n p : (pl_nodes (add_node n p)).*1 = if decide (pn_id n ∈ (pl_nodes p).*1) then (pl_nodes p).*1 else (pl_nodes p).*1 ++ [pn_id n].
Proof.
  unfold add_node. destruct (alookup (pn_id n) (pl_nodes p)) as [m|] eqn:Hl.
  - rewrite decide_True; [done|]. apply alookup_elem_of in Hl. by apply (list_elem_of_fmap_2 fst _ (pn_id n, m)).
  - apply alookup_None in Hl. rewrite decide_False by done. cbn. by rewrite fmap_app.
Qed.

Lemma with_entry_same x p : pl_nodes (with_entry x p) = pl_nodes p ∧ pl_edges (with_entry x p) = pl_edges p ∧
  pl_entry (with_entry x p) = Some (default x (pl_entry p)).
Proof. unfold with_entry. by destruct (pl_entry p) eqn:He; rewrite ?He. Qed.

Lemma connect_frame srcs x p :
  (∀ a b, plan_edge (pl_edges (_connect srcs x p)) a b ↔ plan_edge (pl_edges p) a b ∨ (a ∈ srcs ∧ b = x)) ∧
  pl_nodes (_connect srcs x p) = pl_nodes p ∧
  pl_entry (_connect srcs x p) = match srcs with [] => Some (default x (pl_entry p)) | _ => pl_entry p end.
Proof.
  unfold _connect. destruct srcs as [|s srcs]; [|apply connect_edges]. destruct (with_entry_same x p) as (-> & -> & ->).
  split_and!; [set_solver|done|done].
Qed.

(** A node placed after the exits. *)
Lemma place_ok n p p' exits :
  plan_ok p exits → pl_nodes p' = pl_nodes (add_node n p) →
  (∀ a b, plan_edge (pl_edges p') a b ↔ plan_edge (pl_edges p) a b ∨ (a ∈ exits ∧ b = pn_id n)) →
  pl_entry p' = Some (default (pn_id n) (pl_entry p)) → plan_ok p' [pn_id n] ∧ (pl_nodes p).*1 ⊆ (pl_nodes p').*1.
Proof.
  intros [Hnd Hid Hed Hre Hen Hex Hst] Hn He Hentry.
  assert (∀ k, k ∈ (pl_nodes p').*1 ↔ k ∈ (pl_nodes p).*1 ∨ k = pn_id n) as Hk.
  { intros k. rewrite Hn, add_node_keys. case_decide; set_solver. }
  assert (∀ a b, rtc (plan_edge (pl_edges p)) a b → rtc (plan_edge (pl_edges p')) a b) as Hmono.
  { apply rtc_edges. intros a b Hab. apply He. by left. }
  split; [|intros k Hk'; apply Hk; by left]. constructor.
  - rewrite Hn, add_node_keys. case_decide; [done|]. apply NoDup_app. split_and!; [done| |apply NoDup_singleton].
    intros y Hy ->%list_elem_of_singleton. done.
  - intros k m. rewrite Hn. unfold add_node. destruct (alookup (pn_id n) (pl_nodes p)); [apply Hid|]. cbn [pl_nodes].
    intros [?|[= -> ->]%list_elem_of_singleton]%elem_of_app; [by apply Hid|done].
  - intros a b [Hab|[Ha ->]]%He; rewrite !Hk; [destruct (Hed a b Hab); auto|]. split; [left; by apply Hex|by right].
  - assert (∃ e, pl_entry p' = Some e ∧ rtc (plan_edge (pl_edges p')) e (pn_id n)) as Hnew.
    { eexists. split; [exact Hentry|]. destruct exits as [|x exits].
      - destruct (Hst eq_refl) as [_ ->]. done.
      - destruct (Hre x (Hex x ltac:(set_solver))) as (e & -> & Hr). cbn. eapply rtc_r; [by apply Hmono|]. apply He. right. set_solver. }
    intros k [Hk'| ->]%Hk; [|done]. destruct (Hre k Hk') as (e & Hpe & Hr). exists e. rewrite Hentry, Hpe. split; [done|by apply Hmono].
  - intros e. rewrite Hentry. intros [= <-]. apply Hk. destruct (pl_entry p) as [e0|] eqn:Hp0; cbn; [left; by apply Hen|by right].
  - intros x ->%list_elem_of_singleton. apply Hk. by right.
  - done.
Qed.

Definition step_planned (s : WdlStep) : Prop := ∀ exits p, plan_ok p exits →
  let r := plan_step s exits p in plan_ok r.2 r.1 ∧ (pl_nodes p).*1 ++ step_ids s ⊆ (pl_nodes r.2).*1.

Lemma seq_planned steps : Forall step_planned steps → ∀ exits p, plan_ok p exits →
  let r := plan_with plan_step steps exits p in plan_ok r.2 r.1 ∧ (pl_nodes p).*1 ++ all_ids steps ⊆ (pl_nodes r.2).*1.
Proof.
  induction 1 as [|s steps Hs _ IH]; intros exits p Hp; cbn [plan_with].
  { split; [done|]. cbn. by rewrite app_nil_r. }
  destruct (Hs exits p Hp) as [H1 H2]. destruct (plan_step s exits p) as [e1 p1]. cbn [fst snd] in *. destruct (IH e1 p1 H1) as [H3 H4].
  split; [done|]. unfold all_ids. rewrite bind_cons. fold (all_ids steps). intros x Hx. apply H4. apply elem_of_app in Hx as [Hx|[Hx|Hx]%elem_of_app];
    apply elem_of_app; [left; apply H2; set_solver|left; apply H2; set_solver|by right].
Qed.

Lemma entry_of_exits p exits x : plan_ok p exits → exits ≠ [] → pl_entry p = Some (default x (pl_entry p)).
Proof.
  intros Hp Hne. destruct exits as [|y exits]; [done|]. destruct (po_reach _ _ Hp y) as (e & -> & _); [|done]. apply (po_exits _ _ Hp). set_solver.
Qed.

Lemma open_when_ok c loc exits p :
  plan_ok p exits → let r := open_when c loc exits p in plan_ok r.2 [r.1] ∧ (pl_nodes p).*1 ⊆ (pl_nodes r.2).*1.
Proof.
  intros Hp. unfold open_when, _next_condition_id. set (id := "when_" +:+ _). set (n := mkPlanNode id "condition" (strip c) None loc).
  set (p0 := mkPlanner (pl_nodes p) (pl_edges p) (S (pl_when_counter p)) (pl_entry p) (pl_true_pending p) (pl_false_pending p)).
  cbn [fst snd]. assert (plan_ok p0 exits) as Hp0 by (destruct Hp; by constructor).
  set (p1 := match exits with [] => _ | _ => _ end).
  destruct (connect_frame exits id (add_node n p0)) as (E1 & E2 & E3).
  assert (pl_edges (add_node n p0) = pl_edges p0 ∧ pl_entry (add_node n p0) = pl_entry p0) as [A1 A2]
    by (unfold add_node; by destruct (alookup _ _)). rewrite A1 in E1. rewrite A2 in E3.
  assert (pl_nodes p1 = pl_nodes (add_node n p0) ∧ (∀ a b, plan_edge (pl_edges p1) a b ↔ plan_edge (pl_edges p0) a b ∨ (a ∈ exits ∧ b = id)) ∧
    pl_entry p1 = Some (default id (pl_entry p0))) as (N1 & N2 & N3).
  { unfold p1. destruct exits as [|x exits].
    - destruct (with_entry_same id (_connect [] id (add_node n p0))) as (-> & -> & ->). rewrite E3. done.
    - split_and!; [done|done|]. rewrite E3. by apply (entry_of_exits p0 (x :: exits)). }
  destruct (place_ok n p0 p1 exits Hp0 N1 N2 N3) as [H1 H2]. split; [|exact H2]. destruct H1. by constructor.
Qed.

Lemma step_planned_all s : step_planned s.
Proof.
  induction s as [id t args loc|c steps loc IH] using step_ind'; intros exits p Hp; cbn [plan_step].
  - unfold plan_call. cbn [fst snd]. set (n := mkPlanNode id "call" id (Some t) loc). set (p1 := with_entry id _).
    destruct (connect_frame exits id (add_node n p)) as (E1 & E2 & E3). destruct (with_entry_same id (_connect exits id (add_node n p))) as (W1 & W2 & W3).
    assert (pl_edges (add_node n p) = pl_edges p ∧ pl_entry (add_node n p) = pl_entry p) as [A1 A2]
      by (unfold add_node; by destruct (alookup _ _)). rewrite A1 in E1. rewrite A2 in E3.
    fold p1 in W1, W2, W3.
    destruct (place_ok n p p1 exits Hp) as [H1 H2]; [by rewrite W1, E2|by intros; rewrite W2|by rewrite W3, E3; destruct exits|].
    split; [exact H1|]. cbn [step_ids]. intros x [?|?]%elem_of_app; [by apply H2|by apply (po_exits _ _ H1)].
  - rewrite when_ids. destruct (open_when_ok c loc exits p Hp) as [H1 H2]. destruct (open_when c loc exits p) as [cid p1]. cbn [fst snd] in *.
    destruct (seq_planned steps IH [cid] p1 H1) as [H3 H4]. destruct (plan_with plan_step steps [cid] p1) as [be p2]. cbn [fst snd] in *.
    split; [|cbn; set_solver]. assert (cid ∈ (pl_nodes p2).*1) as Hc by (apply H4, elem_of_app; left; apply (po_exits _ _ H1); set_solver).
    destruct H3 as [P1 P2 P3 P4 P5 P6 P7]. constructor; cbn [close_when pl_nodes pl_edges pl_entry]; [done..| |done]. intros x [->|?]%elem_of_cons; auto.
Qed.

(** The plan of a workflow: its edges join its nodes, its nodes have distinct
    ids and are reached from the entry, and every step has a node. *)
Theorem plan_connected w source :
  let p := build_workflow_plan w source in
  NoDup (pn_id <$> wp_nodes p) ∧
  (∀ a b, plan_edge (wp_edges p) a b → a ∈ pn_id <$> wp_nodes p ∧ b ∈ pn_id <$> wp_nodes p) ∧
  (∀ k, k ∈ pn_id <$> wp_nodes p → ∃ e, wp_entry p = Some e ∧ rtc (plan_edge (wp_edges p)) e k) ∧
  (∀ id, id ∈ all_ids (wf_steps w) → id ∈ pn_id <$> wp_nodes p).
Proof.
  assert (plan_ok (mkPlanner [] [] 0 None [] []) []) as H0.
  { constructor; cbn [pl_nodes pl_edges pl_entry]; [apply NoDup_nil_2|intros k n Hin; by apply not_elem_of_nil in Hin|
      intros a b [l Hl]; by apply not_elem_of_nil in Hl|intros k Hk; by apply not_elem_of_nil in Hk|done|intros x Hx; by apply not_elem_of_nil in Hx|done]. }
  destruct (seq_planned (wf_steps w) ltac:(apply Forall_true; intros; apply step_planned_all) [] _ H0) as [[P1 P2 P3 P4 P5 P6 P7] H2].
  unfold build_workflow_plan. cbn [wp_nodes wp_edges wp_entry]. set (p := (plan_with _ _ _ _).2) in *.
  assert (pn_id <$> (pl_nodes p).*2 = (pl_nodes p).*1) as ->.
  { rewrite <-list_fmap_compose. apply list_fmap_ext. intros i [k n] Hi. apply P2. by apply list_elem_of_lookup_2 in Hi. }
  split_and!; [done|done|done|]. intros id Hid. by apply H2.
Qed.

(** ** Workflows linted and planned *)

Definition at_line (n : nat) : SourceSpan := mkSpan n 1.
Definition call (id : string) (arg : string) (n : nat) : WdlStep :=
  WdlCallStep id "tool" [mkWArg "x" (RawScalar arg (mkLoc n 5)) (at_line n)] (at_line n).

Definition flow_of (steps : list WdlStep) (out : string) : WdlWorkflow :=
  mkWorkflow "dsl/v0" "demo" [mkWInput "user" "string" (at_line 2)] steps [mkWOutput "o" (RawScalar out (mkLoc 9 5)) (at_line 9)] [] (at_line 1).

(** A branch reads a step before it, the output a step outside of it. *)
Definition good_flow : WdlWorkflow :=
  flow_of [call "a" "$input.user" 4; WdlWhenStep "$step.a.ok == 1" [call "b" "$step.a.value" 6] (at_line 5); call "c" "$step.a" 7] "$step.c.value".

(** The output reads a step of a branch. *)
Definition branch_flow : WdlWorkflow :=
  flow_of [call "a" "$input.user" 4; WdlWhenStep "$step.a.ok == 1" [call "b" "$step.a.value" 6] (at_line 5)] "$step.b.value".

Lemma lint_workflow_witness :
  ("" ∉ all_ids (wf_steps good_flow)) ∧ (∀ tr, execution good_flow tr → resolved ["user"] [] tr).
Proof.
  split; [vm_compute; set_solver|].
  destruct (lint_workflow "f.wdl" good_flow) as (st & Hrun & _ & _ & Herr); [vm_compute; set_solver|].
  assert (errs (an_issues st) = []) as He.
  { assert (Some (an_issues st) = Some []) as [= ->]; [|done]. change (Some (an_issues st)) with (an_issues <$> Some st). rewrite <-Hrun. vm_compute. done. }
  apply Herr in He as (_ & _ & He). exact He.
Defined.

Lemma branch_output_reported :
  (map li_message <$> (an_issues <$> analyzer_run "f.wdl" branch_flow)) = Some ["Step 'b' is not defined or not available in this scope"].
Proof. vm_compute. done. Qed.

(** A step named like the node of a condition: the plan has one node for both. *)
Lemma condition_id_taken :
  let p := build_workflow_plan (flow_of [call "when_0" "1" 4; WdlWhenStep "$input.user == 1" [call "b" "1" 6] (at_line 5)] "1") None in
  (pn_id <$> wp_nodes p) = ["when_0"; "b"] ∧
  wp_edges p = [mkPlanEdge "when_0" "when_0" None; mkPlanEdge "when_0" "b" (Some "if $input.user == 1")].
Proof. vm_compute. done. Qed.
