(* ===== verification/Triggers.v ===== *)
(** * Triggers ([tm/triggers])

    Schedules, webhooks and watched directories that start flows: the loader
    of their configuration ([config.py]), the adapters ([manager.py]) and the
    dispatch into the work queue ([queue.py]).  Moments are microseconds since
    0001-01-01 of the local clock; the network, the clock and fresh ids are
    arguments. *)

From S2P Require Import Prelude PyVal PyConv Task Idempotency QueueManager.
From stdpp Require Import base gmap strings list sorting pretty.
From Stdlib Require Import ZArith Lia Ascii.

Local Open Scope Z_scope.

Abbreviation doc := (list (string * json)) (only parsing).

(** ** Configuration ([config.py]) *)

(** A configuration, a [TriggerConfigError], or another exception. *)
Inductive cfg (A : Type) : Type :=
| Loaded (a : A)
| ConfigError (message : string)
| ConfigRaise (e : exn).
Arguments Loaded {A} _.
Arguments ConfigError {A} _.
Arguments ConfigRaise {A} _.

#[export] Instance cfg_ret : MRet cfg := fun A a => Loaded a.
#[export] Instance cfg_bind : MBind cfg := fun A B f m =>
  match m with Loaded a => f a | ConfigError e => ConfigError e | ConfigRaise e => ConfigRaise e end.

Record TriggerBaseConfig : Type := mkBase {
  tb_id : string;
  tb_kind : string;
  tb_flow_id : string;
  tb_input_template : list (string * json);
  tb_idempotency_key : option string
}.

Record CronTriggerConfig : Type := mkCron { tc_base : TriggerBaseConfig; tc_cron : string; tc_timezone : string }.

Record WebhookTriggerConfig : Type := mkHook {
  th_base : TriggerBaseConfig;
  th_route : string;
  th_method : string;
  th_bind_host : string;
  th_bind_port : Z;
  th_secret : option string;
  th_allow_cleartext : bool;
  th_certfile : option string;
  th_keyfile : option string
}.

Record FileSystemTriggerConfig : Type := mkFs {
  tf_base : TriggerBaseConfig;
  tf_path : string;
  tf_pattern : string;
  tf_recursive : bool;
  tf_interval : pyfloat
}.

Record TriggerConfigSet : Type := mkSet {
  ts_cron : list CronTriggerConfig;
  ts_webhook : list WebhookTriggerConfig;
  ts_filesystem : list FileSystemTriggerConfig
}.

Definition _require_str (obj : doc) (key : string) : cfg string :=
  match jget key obj with
  | JStr s => Loaded (strip s)
  | _ => ConfigError ("trigger field '" +:+ key +:+ "' must be a string")
  end.

Definition _optional_str (obj : doc) (key : string) : cfg (option string) :=
  match jget key obj with
  | JNull => Loaded None
  | JStr s => Loaded (Some (strip s))
  | _ => ConfigError ("trigger field '" +:+ key +:+ "' must be a string")
  end.

Definition _optional_int (obj : doc) (key : string) (default : Z) : cfg Z :=
  match jget key obj with
  | JNull => Loaded default
  | JInt n => Loaded n
  | _ => ConfigError ("trigger field '" +:+ key +:+ "' must be an integer")
  end.

(** [value or default] of an optional text. *)
Definition text_or (o : option string) (d : string) : string :=
  match o with Some s => if String.eqb s "" then d else s | None => d end.

Definition ascii_upper (c : ascii) : ascii :=
  let n := nat_of_ascii c in
  if andb (Nat.leb 97 n) (Nat.leb n 122) then ascii_of_nat (n - 32) else c.

Fixpoint str_upper (s : string) : string :=
  match s with EmptyString => EmptyString | String c s' => String (ascii_upper c) (str_upper s') end.

Section config.
Context {PT : PyText}.

Definition _coerce_float (value : json) (d : pyfloat) : cfg pyfloat :=
  match value with
  | JNull => Loaded d
  | _ =>
      match py_float value with
      | Ok f => Loaded f
      | Raise (TypeError _) | Raise (ValueError _) => ConfigError "interval must be a number"
      | Raise e => ConfigRaise e
      end
  end.

Definition _extract_base_kwargs (entry : doc) : cfg TriggerBaseConfig :=
  flow_id ← _require_str entry "flow_id";
  match jor (jor (jget "input" entry) (jget "input_template" entry)) (JObj []) with
  | JObj template =>
      key ← _optional_str entry "idempotency_key";
      id ← _require_str entry "id";
      kind ← _require_str entry "kind";
      Loaded (mkBase id (str_lower kind) flow_id template key)
  | _ => ConfigError "trigger 'input' must be an object"
  end.

Definition _build_cron (base : TriggerBaseConfig) (entry : doc) : cfg CronTriggerConfig :=
  expr ← _require_str entry "cron";
  timezone ← _optional_str entry "timezone";
  Loaded (mkCron base expr (text_or timezone "local")).

Definition _build_webhook (base : TriggerBaseConfig) (entry : doc) : cfg WebhookTriggerConfig :=
  route ← _require_str entry "route";
  method ← _optional_str entry "method";
  host ← _optional_str entry "bind_host";
  port ← _optional_int entry "bind_port" 8081;
  secret ← _optional_str entry "secret";
  let allow := truthy (get_or "allow_cleartext" (JBool true) entry) in
  tls ← match jget "tls" entry with
        | JObj tls => c ← _optional_str tls "certfile"; k ← _optional_str tls "keyfile"; Loaded (c, k)
        | _ => Loaded (None, None)
        end;
  Loaded (mkHook base route (str_upper (text_or method "POST")) (text_or host "127.0.0.1") port secret allow tls.1 tls.2).

Definition _build_fs (trigger_id : string) (base : TriggerBaseConfig) (entry : doc) : cfg FileSystemTriggerConfig :=
  path ← _require_str entry "path";
  pattern ← _optional_str entry "pattern";
  let recursive := truthy (get_or "recursive" (JBool false) entry) in
  interval ← _coerce_float (get_or "interval_seconds" (jget "interval" entry) entry) (of_int 5);
  if flt interval (Fin 500000) then ConfigError ("filesystem trigger '" +:+ trigger_id +:+ "' interval must be >= 0.5s")
  else Loaded (mkFs base path (text_or pattern "*") recursive interval).

Definition load_entry (seen : list string) (s : TriggerConfigSet) (entry : json) (idx : nat) : cfg (list string * TriggerConfigSet) :=
  match entry with
  | JObj entry =>
      id ← _require_str entry "id";
      if String.eqb id "" then ConfigError "trigger id must be non-empty"
      else if decide (id ∈ seen) then ConfigError ("duplicate trigger id '" +:+ id +:+ "'")
      else
        kind ← _require_str entry "kind";
        base ← _extract_base_kwargs entry;
        let kind := str_lower kind in
        let seen := seen ++ [id] in
        if String.eqb kind "cron" then
          c ← _build_cron base entry; Loaded (seen, mkSet (ts_cron s ++ [c]) (ts_webhook s) (ts_filesystem s))
        else if String.eqb kind "webhook" then
          c ← _build_webhook base entry; Loaded (seen, mkSet (ts_cron s) (ts_webhook s ++ [c]) (ts_filesystem s))
        else if String.eqb kind "fs" || String.eqb kind "filesystem" then
          c ← _build_fs id base entry; Loaded (seen, mkSet (ts_cron s) (ts_webhook s) (ts_filesystem s ++ [c]))
        else ConfigError ("unsupported trigger kind '" +:+ kind +:+ "'")
  | _ => ConfigError ("trigger entry #" +:+ pretty idx +:+ " must be a mapping")
  end.

Fixpoint load_entries (seen : list string) (s : TriggerConfigSet) (entries : list json) (idx : nat) : cfg TriggerConfigSet :=
  match entries with
  | [] => Loaded s
  | entry :: entries => r ← load_entry seen s entry idx; load_entries r.1 r.2 entries (S idx)
  end.

(** The configuration of a parsed document; a text is a sequence too. *)
Definition load_trigger_config_text (data : json) : cfg TriggerConfigSet :=
  match data with
  | JObj m =>
      match jget "triggers" m with
      | JNull => Loaded (mkSet [] [] [])
      | JArr entries => load_entries [] (mkSet [] [] []) entries 0
      | JStr text => load_entries [] (mkSet [] [] []) (chars text) 0
      | _ => ConfigError "'triggers' must be a list"
      end
  | _ => ConfigError "top-level triggers config must be an object"
  end.

Definition all_triggers (s : TriggerConfigSet) : list TriggerBaseConfig :=
  (tc_base <$> ts_cron s) ++ (th_base <$> ts_webhook s) ++ (tf_base <$> ts_filesystem s).
End config.

(** ** Cron schedules ([manager.py]) *)

(** [range(start, stop, step)]. *)
Definition py_range (start stop step : Z) : res (list Z) :=
  if step =? 0 then Raise (ValueError "range() arg 3 must not be zero")
  else
    let n := if 0 <? step then (stop - start + step - 1) / step else (start - stop - step - 1) / (- step) in
    Ok ((λ i, start + Z.of_nat i * step) <$> seq 0 (Z.to_nat n)).

(** A set of integers kept sorted: [tuple(sorted(values))]. *)
Fixpoint insert_int (x : Z) (l : list Z) : list Z :=
  match l with
  | [] => [x]
  | y :: l' => if x <? y then x :: l else if x =? y then l else y :: insert_int x l'
  end.

Definition sorted_ints (l : list Z) : list Z := foldr insert_int [] l.

Fixpoint split_once (c : ascii) (s : string) : option (string * string) :=
  match s with
  | EmptyString => None
  | String a s' => if decide (a = c) then Some (EmptyString, s') else match split_once c s' with Some (x, y) => Some (String a x, y) | None => None end
  end.

(** [text.split()]: at runs of blanks. *)
Fixpoint split_blank_go (s cur : string) : list string :=
  match s with
  | EmptyString => if String.eqb cur "" then [] else [cur]
  | String c s' =>
      if is_space c then (if String.eqb cur "" then split_blank_go s' "" else cur :: split_blank_go s' "")
      else split_blank_go s' (cur +:+ String c EmptyString)
  end.

Definition split_blank (s : string) : list string := split_blank_go s "".

Fixpoint rstrip_s (s : string) : string :=
  match s with
  | EmptyString => EmptyString
  | String c s' =>
      let t := rstrip_s s' in
      if String.eqb t "" && bool_decide (c = "s"%char) then EmptyString else String c t
  end.

Section cron.
Context {PT : PyText}.

Definition int_text (s : string) : res Z := py_int (JStr s).

Definition cron_token (token : string) (minimum maximum : Z) : res (list Z) :=
  let token := strip token in
  if String.eqb token "*" then py_range minimum (maximum + 1) 1
  else if String.prefix "*/" token then
    step ← int_text (String.substring 2 (String.length token - 2) token);
    py_range minimum (maximum + 1) step
  else
    p ← match split_once "/"%char token with
        | Some (range_part, step_part) => step ← int_text step_part; Ok (range_part, step)
        | None => Ok (token, 1)
        end;
    se ← match split_once "-"%char p.1 with
         | Some (a, b) => start ← int_text a; stop ← int_text b; Ok (start, stop)
         | None => v ← int_text p.1; Ok (v, v)
         end;
    values ← py_range se.1 (se.2 + 1) p.2;
    Ok (filter (λ v, minimum ≤ v ≤ maximum) values).

Definition _parse_cron_field (field : string) (minimum maximum : Z) : res (list Z) :=
  let '(t, ts) := split_char ","%char field in
  values ← mapM (λ token, cron_token token minimum maximum) (t :: ts);
  Ok (sorted_ints (mjoin values)).

Record CronSchedule : Type := mkSchedule {
  cs_interval : option pyfloat;
  cs_minute : list Z;
  cs_hour : list Z;
  cs_day : list Z;
  cs_month : list Z;
  cs_weekday : list Z
}.

Definition from_expr (expr : string) : res CronSchedule :=
  let expr := strip expr in
  if String.prefix "@every" expr then
    match split_blank expr with
    | [_; seconds] =>
        interval ← py_float (JStr (rstrip_s seconds));
        if flt interval fzero || feq interval fzero then Raise (ValueError "@every interval must be positive")
        else Ok (mkSchedule (Some interval) [] [] [] [] [])
    | _ => Raise (ValueError "@every expression must be '@every <seconds>'")
    end
  else
    match split_blank expr with
    | [f0; f1; f2; f3; f4] =>
        minute ← _parse_cron_field f0 0 59;
        hour ← _parse_cron_field f1 0 23;
        day ← _parse_cron_field f2 1 31;
        month ← _parse_cron_field f3 1 12;
        weekday ← _parse_cron_field f4 0 6;
        Ok (mkSchedule None minute hour day month weekday)
    | _ => Raise (ValueError "cron expression must have 5 fields")
    end.
End cron.

(** The calendar of [datetime]: day 0 is Monday, 1 January of year 1.  Cycles
    of 400, 100, 4 and 1 years, and the day of the year. *)
Definition year_cycles (d : Z) : Z * Z * Z * Z * Z :=
  let '(n400, n) := (d / 146097, d mod 146097) in
  let '(n100, n) := (n / 36524, n mod 36524) in
  let '(n4, n) := (n / 1461, n mod 1461) in
  (n400, n100, n4, n / 365, n mod 365).

Definition days_before (m : Z) (leap : bool) : Z :=
  nth (Z.to_nat m) [0; 0; 31; 59; 90; 120; 151; 181; 212; 243; 273; 304; 334; 365] 0 + (if leap && (2 <? m) then 1 else 0).

(** Month and day of the month of a day of the year. *)
Definition month_day (n : Z) (leap : bool) : Z * Z :=
  let month := Z.shiftr (n + 50) 5 in
  let month := if n <? days_before month leap then month - 1 else month in
  (month, n - days_before month leap + 1).

(** Year, month and day of a day number. *)
Definition civil (d : Z) : Z * Z * Z :=
  let '(n400, n100, n4, n1, n) := year_cycles d in
  let year := n400 * 400 + 1 + n100 * 100 + n4 * 4 + n1 in
  if (n1 =? 4) || (n100 =? 4) then (year - 1, 12, 31)
  else
    let leap := (n1 =? 3) && (negb (n4 =? 24) || (n100 =? 3)) in
    let '(m, dd) := month_day n leap in (year, m, dd).

Definition minute_of (k : Z) : Z := k mod 60.
Definition hour_of (k : Z) : Z := (k / 60) mod 24.
Definition month_of (k : Z) : Z := (civil (k / 1440)).1.2.
Definition dom_of (k : Z) : Z := (civil (k / 1440)).2.
Definition weekday_of (k : Z) : Z := (k / 1440) mod 7.

Definition member (v : Z) (l : list Z) : bool := bool_decide (v ∈ l).

Definition _match_dom_dow (k : Z) (days weekdays : list Z) : bool :=
  let dom_match := match days with [] => true | _ => member (dom_of k) days end in
  let dow := (weekday_of k + 1) mod 7 in
  let dow_match := match weekdays with [] => true | _ => member dow weekdays end in
  match days, weekdays with
  | _ :: _, _ :: _ => dom_match || dow_match
  | _, _ => dom_match && dow_match
  end.

(** Whether the schedule names minute [k]. *)
Definition fires_at (c : CronSchedule) (k : Z) : bool :=
  member (minute_of k) (cs_minute c) && member (hour_of k) (cs_hour c) && member (month_of k) (cs_month c) &&
  _match_dom_dow k (cs_day c) (cs_weekday c).

Definition minute_us : Z := 60000000.

(** Moments end with year 9999. *)
Definition max_minute : Z := 3652059 * 1440.

(** [moment + timedelta]. *)
Definition add_us (moment us : Z) : res Z :=
  if moment + us <? max_minute * minute_us then Ok (moment + us) else Raise (OverflowError "date value out of range").

Definition next_minute (k : Z) : res Z :=
  if k + 1 <? max_minute then Ok (k + 1) else Raise (OverflowError "date value out of range").

Fixpoint search_minute (n : nat) (c : CronSchedule) (k : Z) : res Z :=
  match n with
  | O => Raise (RuntimeError "cron schedule could not find next occurrence within a year")
  | S n => if fires_at c k then Ok k else next_minute k ≫= search_minute n c
  end.

(** The minutes of a year. *)
Definition lookahead : nat := Z.to_nat 525600.

Definition next_after (c : CronSchedule) (moment : Z) : res Z :=
  match cs_interval c with
  | Some (Fin us) => add_us moment us
  | Some NaN => Raise (ValueError "cannot convert float NaN to integer")
  | Some _ => Raise (OverflowError "cannot convert float infinity to integer")
  | None =>
      candidate ← next_minute (moment / minute_us);
      k ← search_minute lookahead c candidate;
      Ok (k * minute_us)
  end.

(** The moments at which [_CronAdapter.run] schedules its first [n] events,
    from the moment it starts: each next one is looked for a second after the
    last. *)
Fixpoint cron_fires (n : nat) (c : CronSchedule) (moment : Z) : res (list Z) :=
  match n with
  | O => Ok []
  | S n =>
      t ← next_after c moment;
      later ← add_us t 1000000;
      rest ← cron_fires n c later;
      Ok (t :: rest)
  end.

(** ** The calendar *)

Definition leap (y : Z) : bool := (y mod 4 =? 0) && (negb (y mod 100 =? 0) || (y mod 400 =? 0)).

Definition month_length (y m : Z) : Z :=
  if m =? 2 then if leap y then 29 else 28
  else if member m [4; 6; 9; 11] then 30 else 31.

(** The day after a date. *)
Definition tomorrow (ymd : Z * Z * Z) : Z * Z * Z :=
  let '(y, m, d) := ymd in
  if d <? month_length y m then (y, m, d + 1)
  else if m <? 12 then (y, m + 1, 1) else (y + 1, 1, 1).

Definition year_length (leap : bool) : Z := if leap then 366 else 365.

(** The last day of a leap year is the one [year_cycles] counts apart. *)
Definition date_of (y : Z) (lp : bool) (n : Z) : Z * Z * Z := if n =? 365 then (y, 12, 31) else let '(m, dd) := month_day n lp in (y, m, dd).

Lemma date_next y n :
  0 ≤ n < year_length (leap y) - 1 → date_of y (leap y) (n + 1) = tomorrow (date_of y (leap y) n).
Proof.
  intros Hn.
  assert (∀ lp, forallb (λ n, bool_decide (
    Some (if n + 1 =? 365 then (12, 31) else month_day (n + 1) lp) =
    (let '(m, d) := if n =? 365 then (12, 31) else month_day n lp in
     if d <? (if m =? 2 then if lp then 29 else 28 else if member m [4; 6; 9; 11] then 30 else 31) then Some (m, d + 1) else if m <? 12 then Some (m + 1, 1) else None)))
    (Z.of_nat <$> seq 0 (if lp then 365 else 364)) = true) as Htab by (intros []; vm_compute; done).
  specialize (Htab (leap y)). rewrite forallb_forall in Htab. specialize (Htab n).
  revert Htab. unfold date_of, tomorrow, month_length. intros Htab.
  assert (n ∈ (Z.of_nat <$> seq 0 (if leap y then 365 else 364))) as Hin%list_elem_of_In.
  { apply list_elem_of_fmap. exists (Z.to_nat n). split; [lia|]. apply elem_of_seq. unfold year_length in Hn. destruct (leap y); lia. }
  specialize (Htab Hin). apply bool_decide_eq_true_1 in Htab.
  destruct (n + 1 =? 365), (n =? 365), (month_day n (leap y)) as [m d], (month_day (n + 1) (leap y)) as [m' d'];
    repeat case_match; simplify_eq; congruence.
Qed.

Lemma cycles_spec d :
  let '(n400, n100, n4, n1, n) := year_cycles d in
  d = 146097 * n400 + 36524 * n100 + 1461 * n4 + 365 * n1 + n ∧
  0 ≤ n100 ≤ 4 ∧ 0 ≤ n4 ≤ 24 ∧ 0 ≤ n1 ≤ 4 ∧ 0 ≤ n < 365 ∧
  (n100 = 4 → n4 = 0 ∧ n1 = 0 ∧ n = 0) ∧ (n1 = 4 → n = 0 ∧ n4 < 24).
Proof.
  unfold year_cycles.
  pose proof (Z.div_mod d 146097 ltac:(lia)) as H1. pose proof (Z.mod_pos_bound d 146097 ltac:(lia)) as B1.
  set (a := d mod 146097) in *.
  pose proof (Z.div_mod a 36524 ltac:(lia)) as H2. pose proof (Z.mod_pos_bound a 36524 ltac:(lia)) as B2.
  set (b := a mod 36524) in *.
  pose proof (Z.div_mod b 1461 ltac:(lia)) as H3. pose proof (Z.mod_pos_bound b 1461 ltac:(lia)) as B3.
  set (c := b mod 1461) in *.
  pose proof (Z.div_mod c 365 ltac:(lia)) as H4. pose proof (Z.mod_pos_bound c 365 ltac:(lia)) as B4.
  revert H1 H2 H3 H4 B1 B2 B3 B4.
  generalize (d / 146097) a (a / 36524) b (b / 1461) c (c / 365) (c mod 365). lia.
Qed.

(** The year of a day and the day in it, and the day's date. *)
Definition year_day (d : Z) : Z * Z :=
  let '(n400, n100, n4, n1, n) := year_cycles d in
  if (n1 =? 4) || (n100 =? 4) then (n400 * 400 + n100 * 100 + n4 * 4 + n1, 365)
  else (n400 * 400 + 1 + n100 * 100 + n4 * 4 + n1, n).

(** Days before a year. *)
Definition year_start (y : Z) : Z := 365 * (y - 1) + (y - 1) / 4 - (y - 1) / 100 + (y - 1) / 400.

Lemma leap_spec y : leap y = true ↔ year_start (y + 1) - year_start y = 366.
Proof.
  unfold leap, year_start. rewrite andb_true_iff, orb_true_iff, negb_true_iff, !Z.eqb_eq, Z.eqb_neq.
  replace (y + 1 - 1) with y by lia.
  Z.div_mod_to_equations. lia.
Qed.

Lemma year_length_start y : year_start (y + 1) - year_start y = year_length (leap y).
Proof.
  pose proof (leap_spec y) as H. unfold year_length. destruct (leap y); [by apply H|].
  assert (year_start (y + 1) - year_start y = 365 ∨ year_start (y + 1) - year_start y = 366) as [?|?%H]; [|done..].
  unfold year_start. replace (y + 1 - 1) with y by lia. Z.div_mod_to_equations. lia.
Qed.

Lemma year_start_cycles y a b c e :
  y = 400 * a + 100 * b + 4 * c + e + 1 → 0 ≤ b < 4 → 0 ≤ c < 25 → 0 ≤ e < 4 →
  year_start y = 146097 * a + 36524 * b + 1461 * c + 365 * e.
Proof.
  intros -> Hb Hc He. unfold year_start. replace (400 * a + 100 * b + 4 * c + e + 1 - 1) with (400 * a + 100 * b + 4 * c + e) by lia.
  assert ((400 * a + 100 * b + 4 * c + e) / 4 = 100 * a + 25 * b + c) as -> by (symmetry; apply (Z.div_unique _ _ _ e); lia).
  assert ((400 * a + 100 * b + 4 * c + e) / 100 = 4 * a + b) as -> by (symmetry; apply (Z.div_unique _ _ _ (4 * c + e)); lia).
  assert ((400 * a + 100 * b + 4 * c + e) / 400 = a) as -> by (symmetry; apply (Z.div_unique _ _ _ (100 * b + 4 * c + e)); lia).
  lia.
Qed.

Lemma leap_cycles y a b c e :
  y = 400 * a + 100 * b + 4 * c + e + 1 → 0 ≤ b < 4 → 0 ≤ c < 25 → 0 ≤ e < 4 →
  leap y = (e =? 3) && (negb (c =? 24) || (b =? 3)).
Proof.
  intros -> Hb Hc He. apply eq_true_iff_eq. unfold leap.
  rewrite !andb_true_iff, !orb_true_iff, !negb_true_iff, !Z.eqb_eq, !Z.eqb_neq. Z.div_mod_to_equations. lia.
Qed.

Lemma year_day_spec d :
  let '(y, n) := year_day d in d = year_start y + n ∧ 0 ≤ n < year_length (leap y).
Proof.
  pose proof (cycles_spec d) as H. unfold year_day. destruct (year_cycles d) as [[[[n400 n100] n4] n1] n].
  destruct H as (-> & H100 & H4 & H1 & Hn & He & Hl).
  destruct ((n1 =? 4) || (n100 =? 4)) eqn:E.
  - apply orb_true_iff in E. rewrite !Z.eqb_eq in E. rewrite (year_start_cycles _ n400 (if n100 =? 4 then 3 else n100) (if n100 =? 4 then 24 else n4) 3).
    all: destruct (n100 =? 4) eqn:E4; [apply Z.eqb_eq in E4; destruct (He E4) as (-> & -> & ->); subst n100|apply Z.eqb_neq in E4; assert (n1 = 4) as -> by lia]; try lia.
    + rewrite (leap_cycles _ n400 3 24 3) by lia. cbn. lia.
    + rewrite (leap_cycles _ n400 n100 n4 3) by lia. replace (n4 =? 24) with false by lia. cbn. lia.
  - apply orb_false_iff in E. rewrite !Z.eqb_neq in E. rewrite (year_start_cycles _ n400 n100 n4 n1) by lia.
    split; [lia|]. unfold year_length. destruct (leap _); lia.
Qed.

Lemma year_positive y : 0 < year_length (leap y).
Proof. unfold year_length. destruct (leap y); lia. Qed.

Lemma year_start_mono y y' : y < y' → year_start y + year_length (leap y) ≤ year_start y'.
Proof.
  intros H. rewrite <-year_length_start. remember (Z.to_nat (y' - y - 1)) as n eqn:En. assert (y' = y + 1 + Z.of_nat n) as -> by lia. clear.
  induction n as [|n IH]; [rewrite Z.add_0_r; lia|].
  replace (y + 1 + Z.of_nat (S n)) with (y + 1 + Z.of_nat n + 1) by lia.
  pose proof (year_length_start (y + 1 + Z.of_nat n)). pose proof (year_positive (y + 1 + Z.of_nat n)). lia.
Qed.

Lemma year_day_unique d y n : d = year_start y + n → 0 ≤ n < year_length (leap y) → year_day d = (y, n).
Proof.
  intros Hd Hn. pose proof (year_day_spec d) as H. destruct (year_day d) as [y' n']. destruct H as [Hd' Hn'].
  destruct (Z.lt_trichotomy y y') as [Hlt|[->|Hlt]].
  - pose proof (year_start_mono y y' Hlt). lia.
  - f_equal. lia.
  - pose proof (year_start_mono y' y Hlt). lia.
Qed.

Lemma year_day_next d :
  year_day (d + 1) = let '(y, n) := year_day d in if n <? year_length (leap y) - 1 then (y, n + 1) else (y + 1, 0).
Proof.
  pose proof (year_day_spec d) as H. destruct (year_day d) as [y n]. destruct H as [Hd Hn].
  pose proof (year_length_start y) as Hl. pose proof (year_length_start (y + 1)) as Hl'.
  pose proof (year_positive (y + 1)).
  destruct (n <? year_length (leap y) - 1) eqn:E; apply year_day_unique; lia.
Qed.

Lemma civil_date d : civil d = let '(y, n) := year_day d in date_of y (leap y) n.
Proof.
  pose proof (year_day_spec d) as Hs. pose proof (cycles_spec d) as H. unfold civil. unfold year_day in *.
  destruct (year_cycles d) as [[[[n400 n100] n4] n1] n]. destruct H as (-> & H100 & H4 & H1 & Hn & He & Hl).
  destruct ((n1 =? 4) || (n100 =? 4)) eqn:E.
  - unfold date_of. cbn. f_equal. f_equal. lia.
  - unfold date_of. replace (n =? 365) with false by lia.
    apply orb_false_iff in E. rewrite !Z.eqb_neq in E. by rewrite (leap_cycles _ n400 n100 n4 n1) by lia.
Qed.

(** From 1 January of year 1 on, each day has the date that follows the one of
    the day before in the Gregorian calendar. *)
Lemma civil_next d : civil (d + 1) = tomorrow (civil d).
Proof.
  rewrite !civil_date, year_day_next. pose proof (year_day_spec d) as H. destruct (year_day d) as [y n]. destruct H as [Hd Hn].
  destruct (n <? year_length (leap y) - 1) eqn:E; [apply date_next; lia|].
  replace n with (year_length (leap y) - 1) by lia. destruct (leap y) eqn:El.
  - cbn. unfold tomorrow. cbn. by destruct (leap (y + 1)).
  - cbn. unfold tomorrow. cbn. by destruct (leap (y + 1)).
Qed.

(** ** Fields of a cron expression *)

Lemma elem_of_py_range v start stop step l :
  0 < step → py_range start stop step = Ok l → v ∈ l ↔ start ≤ v < stop ∧ (v - start) mod step = 0.
Proof.
  unfold py_range. intros Hs. replace (step =? 0) with false by lia. replace (0 <? step) with true by lia. intros [= <-].
  rewrite list_elem_of_fmap. setoid_rewrite elem_of_seq. split.
  - intros (i & -> & Hi). replace (start + Z.of_nat i * step - start) with (Z.of_nat i * step) by lia.
    split; [|by apply Z.mod_mul; lia]. assert (Z.of_nat i * step ≤ (stop - start + step - 1) / step * step - step) by nia.
    pose proof (Z.mul_div_le (stop - start + step - 1) step Hs). lia.
  - intros [Hv Hm]. apply Z.div_exact in Hm; [|lia]. exists (Z.to_nat ((v - start) / step)).
    assert (0 ≤ (v - start) / step) by (apply Z.div_pos; lia). split; [rewrite Z2Nat.id by lia; lia|].
    split; [lia|]. cbn. apply Z2Nat.inj_lt; [lia| |].
    + apply Z.div_pos; lia.
    + apply Z.div_lt_upper_bound; [lia|].
      pose proof (Z.div_mod (stop - start + step - 1) step ltac:(lia)). pose proof (Z.mod_pos_bound (stop - start + step - 1) step Hs). lia.
Qed.

Lemma elem_of_insert_int v x l : v ∈ insert_int x l ↔ v = x ∨ v ∈ l.
Proof.
  induction l as [|y l IH]; cbn [insert_int]; [by rewrite list_elem_of_singleton, elem_of_nil; tauto|].
  destruct (x <? y) eqn:E1; [by rewrite elem_of_cons|]. destruct (x =? y) eqn:E2.
  - apply Z.eqb_eq in E2 as ->. rewrite !elem_of_cons. tauto.
  - rewrite !elem_of_cons, IH. tauto.
Qed.

Lemma elem_of_sorted_ints v l : v ∈ sorted_ints l ↔ v ∈ l.
Proof. induction l as [|x l IH]; [done|]. cbn. by rewrite elem_of_insert_int, elem_of_cons, <-IH. Qed.

Lemma insert_int_sorted x l : StronglySorted Z.lt l → StronglySorted Z.lt (insert_int x l).
Proof.
  induction 1 as [|y l Hl IH Hy]; cbn [insert_int]; [repeat constructor|].
  destruct (x <? y) eqn:E1; [constructor; [by constructor|]|destruct (x =? y) eqn:E2; [by constructor|constructor; [done|]]].
  - constructor; [lia|]. eapply Forall_impl; [done|]. intros z ?. lia.
  - apply Forall_forall. intros z [->|Hz]%elem_of_insert_int; [lia|]. rewrite Forall_forall in Hy. by apply Hy.
Qed.

Lemma sorted_ints_sorted l : StronglySorted Z.lt (sorted_ints l).
Proof. induction l; [constructor|]. by apply insert_int_sorted. Qed.

Section fields.
Context {PT : PyText}.

(** What one part of a field names. *)
Definition token_names (token : string) (minimum maximum v : Z) : Prop :=
  ∃ l, cron_token token minimum maximum = Ok l ∧ v ∈ l.

Lemma token_bounds token minimum maximum l : minimum ≤ maximum → cron_token token minimum maximum = Ok l → ∀ v, v ∈ l → minimum ≤ v ≤ maximum.
Proof.
  intros Hmm. assert (∀ step l, py_range minimum (maximum + 1) step = Ok l → ∀ v, v ∈ l → minimum ≤ v ≤ maximum) as Hr.
  { intros step k Hk v Hv. destruct (decide (0 < step)) as [Hs|Hs].
    - apply (elem_of_py_range v _ _ _ _ Hs Hk) in Hv. lia.
    - unfold py_range in Hk. destruct (step =? 0) eqn:E; [done|]. replace (0 <? step) with false in Hk by lia.
      injection Hk as <-. apply list_elem_of_fmap in Hv as (i & -> & Hi%elem_of_seq).
      assert (0 < (minimum - (maximum + 1) - step - 1) / - step) as Hp by lia.
      pose proof (Z.mul_div_le (minimum - (maximum + 1) - step - 1) (- step) ltac:(lia)). nia. }
  unfold cron_token. destruct (String.eqb (strip token) "*"); [apply Hr|].
  destruct (String.prefix "*/" (strip token)); [by intros (step & _ & H)%res_bind_ok; apply (Hr step)|].
  intros (p & _ & (se & _ & (k & _ & [= <-])%res_bind_ok)%res_bind_ok)%res_bind_ok v Hv.
  by apply list_elem_of_filter in Hv as [? _].
Qed.

(** A field is the sorted set of the values its parts name, within its range. *)
Lemma parse_cron_field_spec field minimum maximum l :
  minimum ≤ maximum → _parse_cron_field field minimum maximum = Ok l →
  StronglySorted Z.lt l ∧ (∀ v, v ∈ l → minimum ≤ v ≤ maximum) ∧
  let '(t, ts) := split_char ","%char field in
  ∀ v, v ∈ l ↔ ∃ token, token ∈ t :: ts ∧ token_names token minimum maximum v.
Proof.
  unfold _parse_cron_field. destruct (split_char _ field) as [t ts]. intros Hmm (k & Hk & [= <-])%res_bind_ok.
  apply mapM_res_ok in Hk. split_and!; [apply sorted_ints_sorted| |].
  - intros v. rewrite elem_of_sorted_ints. intros (x & Hv & Hx)%list_elem_of_join.
    apply list_elem_of_lookup_1 in Hx as (i & Hx). destruct (Forall2_lookup_r _ _ _ _ _ Hk Hx) as (tok & _ & Ht). by eapply token_bounds.
  - intros v. rewrite elem_of_sorted_ints, list_elem_of_join. unfold token_names. split.
    + intros (x & Hv & (i & Hx)%list_elem_of_lookup_1). destruct (Forall2_lookup_r _ _ _ _ _ Hk Hx) as (tok & Htok & Ht).
      exists tok. split; [by eapply list_elem_of_lookup_2|eauto].
    + intros (tok & (i & Htok)%list_elem_of_lookup_1 & x & Ht & Hv). destruct (Forall2_lookup_l _ _ _ _ _ Hk Htok) as (x' & Hx & Ht').
      assert (x' = x) as -> by congruence. exists x. split; [done|]. by eapply list_elem_of_lookup_2.
Qed.
End fields.

(** ** The next moment of a schedule *)

Definition no_occurrence : exn := RuntimeError "cron schedule could not find next occurrence within a year".
Definition out_of_range : exn := OverflowError "date value out of range".

(** The minutes looked at from minute [k] on. *)
Definition in_view (n : nat) (k j : Z) : Prop := k ≤ j < k + Z.of_nat n ∧ j < max_minute.

Lemma search_minute_spec n c k :
  k < max_minute →
  match search_minute n c k with
  | Ok j => in_view n k j ∧ fires_at c j = true ∧ ∀ i, k ≤ i < j → fires_at c i = false
  | Raise e => (∀ j, in_view n k j → fires_at c j = false) ∧
      e = if k + Z.of_nat n <? max_minute then no_occurrence else if decide (n = O) then no_occurrence else out_of_range
  end.
Proof.
  revert k. induction n as [|n IH]; intros k Hk; cbn [search_minute].
  { split; [intros j [? ?]; lia|]. by destruct (_ <? _). }
  destruct (fires_at c k) eqn:E; [unfold in_view; split_and!; [lia..|done|lia]|].
  unfold next_minute. destruct (k + 1 <? max_minute) eqn:Em; cbn [mbind res_bind].
  - specialize (IH (k + 1) ltac:(lia)). destruct (search_minute n c (k + 1)) as [j|e].
    + destruct IH as (Hv & Hj & Hi). unfold in_view in *. split_and!; [lia..|done|].
      intros i Hik. destruct (decide (i = k)) as [->|]; [done|]. apply Hi. lia.
    + destruct IH as [Hv ->]. split.
      * intros j Hj. destruct (decide (j = k)) as [->|]; [done|]. apply Hv. unfold in_view in *. lia.
      * destruct (decide (n = O)), (decide (S n = O)), (k + 1 + Z.of_nat n <? max_minute) eqn:E2, (k + Z.of_nat (S n) <? max_minute) eqn:E3; lia || done.
  - split; [|by replace (k + Z.of_nat (S n) <? max_minute) with false by lia].
    intros j [? ?]. by replace j with k by lia.
Qed.

(** Whether the schedule names the moment: the start of one of its minutes. *)
Definition occurrence (c : CronSchedule) (t : Z) : Prop :=
  ∃ k, t = k * minute_us ∧ fires_at c k = true.

Lemma lookahead_minutes : Z.of_nat lookahead = 525600.
Proof. unfold lookahead. apply Z2Nat.id. lia. Qed.

(** Proofs keep the number of minutes folded. *)
#[local] Opaque lookahead.

(** A moment the search from [m] looks at: within a year and before year 10000. *)
Definition within_year (m t : Z) : Prop :=
  m < t ∧ t / minute_us ≤ m / minute_us + 525600 ∧ t < max_minute * minute_us.

Lemma next_after_spec c m :
  cs_interval c = None → m < max_minute * minute_us →
  match next_after c m with
  | Ok t => within_year m t ∧ occurrence c t ∧ ∀ t', m < t' < t → ¬ occurrence c t'
  | Raise e => (∀ t, within_year m t → ¬ occurrence c t) ∧ (e = no_occurrence ∨ e = out_of_range)
  end.
Proof.
  intros Hc Hm. unfold next_after. rewrite Hc. unfold next_minute.
  assert (m / minute_us < max_minute) as Hk by (apply Z.div_lt_upper_bound; unfold minute_us in *; lia).
  assert (∀ k, m < k * minute_us ↔ m / minute_us + 1 ≤ k) as Hlt.
  { intros k. unfold minute_us in *. Z.div_mod_to_equations. lia. }
  assert (∀ k, k * minute_us / minute_us = k) as Hdiv by (intros; apply Z.div_mul; done).
  destruct (m / minute_us + 1 <? max_minute) eqn:E; cbn [mbind res_bind].
  - pose proof (search_minute_spec lookahead c (m / minute_us + 1) ltac:(lia)) as H.
    assert (Z.of_nat lookahead = 525600) as Hla by apply lookahead_minutes.
    destruct (search_minute lookahead c (m / minute_us + 1)) as [k|e]; cbn [mbind res_bind]; unfold in_view, within_year in *.
    + destruct H as (Hv & Hf & Hno). rewrite Hdiv, Hlt. split_and!; [lia|lia|unfold minute_us; lia|by (exists k; split)|].
      intros t' Ht (k' & -> & Hk'). rewrite Hno in Hk'; [done|]. rewrite Hlt in Ht. unfold minute_us in *. lia.
    + destruct H as [Hv ->]. split; [|by repeat case_match; auto].
      intros t Ht (k & -> & Hk'). rewrite Hdiv, Hlt in Ht. rewrite Hv in Hk'; [done|]. unfold minute_us in *. lia.
  - split; [|by right]. intros t Ht (k & -> & _). unfold within_year in Ht. rewrite Hlt in Ht. unfold minute_us in *. lia.
Qed.

Lemma occurrence_later c t t' : occurrence c t → occurrence c t' → t < t' ↔ t + 1000000 < t'.
Proof. intros (k & -> & _) (k' & -> & _). unfold minute_us. lia. Qed.

Lemma year_from_later c m t t' : m = t + 1000000 → occurrence c t → occurrence c t' → within_year t t' → within_year m t'.
Proof.
  intros -> Ho Ho' (Hlt & Hy & Hmax). split; [by apply (proj1 (occurrence_later c t t' Ho Ho'))|]. split; [|done].
  destruct Ho as (k & -> & _). unfold minute_us in *. Z.div_mod_to_equations. lia.
Qed.


(** ** The loader *)

Lemma cfg_bind_loaded {A B} (m : cfg A) (f : A → cfg B) b : (m ≫= f) = Loaded b ↔ ∃ a, m = Loaded a ∧ f a = Loaded b.
Proof. destruct m; cbn; naive_solver. Qed.

Lemma cfg_bind_raise {A B} (m : cfg A) (f : A → cfg B) e :
  (m ≫= f) = ConfigRaise e ↔ m = ConfigRaise e ∨ ∃ a, m = Loaded a ∧ f a = ConfigRaise e.
Proof. destruct m; cbn; naive_solver. Qed.

(** Splits what a loader step loaded or raised. *)
Ltac inv_cfg :=
  repeat match goal with
  | H : (_ ≫= _) = Loaded _ |- _ => apply cfg_bind_loaded in H as (? & ? & H)
  | H : (_ ≫= _) = ConfigRaise _ |- _ => apply cfg_bind_raise in H as [H|(? & ? & H)]
  | H : Loaded _ = Loaded _ |- _ => injection H as <-
  | H : context [if ?b then _ else _] |- _ => destruct b eqn:?; try discriminate
  | H : context [match ?x with JNull => _ | _ => _ end] |- _ => destruct x eqn:?; try discriminate
  end.

Section loader.
Context {PT : PyText}.

Definition trigger_ids (s : TriggerConfigSet) : list string := tb_id <$> all_triggers s.

(** What a set of triggers satisfies: the interval of a watcher is no less
    than half a second, a webhook has a method. *)
Definition triggers_wf (s : TriggerConfigSet) : Prop :=
  Forall (λ f, flt (tf_interval f) (Fin 500000) = false) (ts_filesystem s) ∧
  Forall (λ h, th_method h ≠ "" ∧ th_bind_host h ≠ "") (ts_webhook s) ∧
  Forall (λ c, tc_timezone c ≠ "") (ts_cron s).

Lemma or_text_nonempty o d : d ≠ "" → text_or o d ≠ "".
Proof. destruct o as [s|]; cbn; [|done]. destruct (String.eqb_spec s ""); done. Qed.

Lemma str_upper_nonempty s : s ≠ "" → str_upper s ≠ "".
Proof. by destruct s. Qed.

Lemma snoc_cron s c : trigger_ids (mkSet (ts_cron s ++ [c]) (ts_webhook s) (ts_filesystem s)) ≡ₚ trigger_ids s ++ [tb_id (tc_base c)].
Proof. unfold trigger_ids, all_triggers. cbn. rewrite !fmap_app. cbn. solve_Permutation. Qed.

Lemma snoc_webhook s h : trigger_ids (mkSet (ts_cron s) (ts_webhook s ++ [h]) (ts_filesystem s)) ≡ₚ trigger_ids s ++ [tb_id (th_base h)].
Proof. unfold trigger_ids, all_triggers. cbn. rewrite !fmap_app. cbn. solve_Permutation. Qed.

Lemma snoc_filesystem s f : trigger_ids (mkSet (ts_cron s) (ts_webhook s) (ts_filesystem s ++ [f])) ≡ₚ trigger_ids s ++ [tb_id (tf_base f)].
Proof. unfold trigger_ids, all_triggers. cbn. rewrite !fmap_app. cbn. solve_Permutation. Qed.

Lemma extract_base_id entry id base :
  _require_str entry "id" = Loaded id → _extract_base_kwargs entry = Loaded base → tb_id base = id.
Proof.
  intros Hid H. unfold _extract_base_kwargs in H. apply cfg_bind_loaded in H as (flow & _ & H).
  destruct (jor _ _); try discriminate. inv_cfg. cbn. congruence.
Qed.

Lemma load_entry_ok seen s entry idx seen' s' :
  load_entry seen s entry idx = Loaded (seen', s') →
  (trigger_ids s ≡ₚ seen → NoDup seen → Forall (.≠ "") seen → triggers_wf s →
   trigger_ids s' ≡ₚ seen' ∧ NoDup seen' ∧ Forall (.≠ "") seen' ∧ triggers_wf s').
Proof.
  unfold load_entry. destruct entry as [| | | | | |entry]; try discriminate.
  intros (id & Hid & H)%cfg_bind_loaded. destruct (String.eqb_spec id "") as [->|Hne]; [done|].
  destruct (decide (id ∈ seen)) as [|Hnew]; [done|].
  apply cfg_bind_loaded in H as (kind & _ & H). apply cfg_bind_loaded in H as (base & Hb & H).
  pose proof (extract_base_id _ _ _ Hid Hb) as Hbid. intros Hp Hnd Hf (W1 & W2 & W3).
  assert (NoDup (seen ++ [id]) ∧ Forall (.≠ "") (seen ++ [id])) as [N F].
  { split; [apply NoDup_app; split_and!; [done|set_solver|apply NoDup_singleton]|apply Forall_app; auto]. }
  destruct (String.eqb (str_lower kind) "cron"); [|destruct (String.eqb (str_lower kind) "webhook"); [|destruct (_ || _); [|done]]];
    apply cfg_bind_loaded in H as (c & Hc & [= <- <-]).
  - unfold _build_cron in Hc. inv_cfg. refine (conj _ (conj N (conj F (conj W1 (conj W2 _))))).
    + rewrite snoc_cron. cbn [tc_base]. by rewrite Hp, Hbid.
    + apply Forall_app. split; [done|]. constructor; [by apply or_text_nonempty|done].
  - unfold _build_webhook in Hc. repeat apply cfg_bind_loaded in Hc as (? & _ & Hc). injection Hc as <-. refine (conj _ (conj N (conj F (conj W1 (conj _ W3))))).
    + rewrite snoc_webhook. cbn [th_base]. by rewrite Hp, Hbid.
    + apply Forall_app. split; [done|]. constructor; [|done]. split; [apply str_upper_nonempty|]; by apply or_text_nonempty.
  - unfold _build_fs in Hc. inv_cfg. refine (conj _ (conj N (conj F (conj _ (conj W2 W3))))).
    + rewrite snoc_filesystem. cbn [tf_base]. by rewrite Hp, Hbid.
    + apply Forall_app. split; [done|]. by constructor.
Qed.

Lemma load_entries_ok entries seen s idx s' :
  load_entries seen s entries idx = Loaded s' →
  trigger_ids s ≡ₚ seen → NoDup seen → Forall (.≠ "") seen → triggers_wf s →
  ∃ seen', trigger_ids s' ≡ₚ seen' ∧ NoDup seen' ∧ Forall (.≠ "") seen' ∧ triggers_wf s'.
Proof.
  revert seen s idx. induction entries as [|entry entries IH]; intros seen s idx; cbn [load_entries]; [intros [= <-]; eauto|].
  intros ([seen1 s1] & H1 & H2)%cfg_bind_loaded Hp Hnd Hf Hwf.
  destruct (load_entry_ok _ _ _ _ _ _ H1 Hp Hnd Hf Hwf) as (? & ? & ? & ?). by eapply IH.
Qed.

Lemma optional_str_raise obj key e : _optional_str obj key ≠ ConfigRaise e.
Proof. unfold _optional_str. by destruct (jget key obj). Qed.

Lemma require_str_raise obj key e : _require_str obj key ≠ ConfigRaise e.
Proof. unfold _require_str. by destruct (jget key obj). Qed.

Lemma optional_int_raise obj key d e : _optional_int obj key d ≠ ConfigRaise e.
Proof. unfold _optional_int. by destruct (jget key obj). Qed.

Lemma py_float_raise v e : py_float v = Raise e →
  (∃ m, e = TypeError m) ∨ (∃ m, e = ValueError m) ∨ (∃ m, e = OverflowError m).
Proof. unfold py_float. destruct v; repeat case_match; intros [= <-]; eauto. Qed.

Lemma coerce_float_raise v d e : _coerce_float v d = ConfigRaise e → ∃ m, e = OverflowError m.
Proof.
  unfold _coerce_float. destruct v; try discriminate; destruct (py_float _) eqn:E; try discriminate;
    apply py_float_raise in E as [[m ->]|[[m ->]|[m ->]]]; try discriminate; intros [= <-]; eauto.
Qed.

Ltac no_raise :=
  match goal with
  | H : _optional_str _ _ = ConfigRaise _ |- _ => by apply optional_str_raise in H
  | H : _require_str _ _ = ConfigRaise _ |- _ => by apply require_str_raise in H
  | H : _optional_int _ _ _ = ConfigRaise _ |- _ => by apply optional_int_raise in H
  end.

Lemma load_entry_raise seen s entry idx e : load_entry seen s entry idx = ConfigRaise e → ∃ m, e = OverflowError m.
Proof.
  unfold load_entry, _extract_base_kwargs. destruct entry as [| | | | | |entry]; try discriminate. intros H.
  repeat (inv_cfg; try no_raise; try discriminate); unfold _build_cron, _build_webhook, _build_fs in *;
    repeat (inv_cfg; try no_raise; try discriminate); by eapply coerce_float_raise.
Qed.

(** A configuration that loads has distinct non-empty trigger ids and
    well-formed triggers; the only exception besides a configuration error is
    an integer too large for a float, as the interval of a watcher. *)
Theorem trigger_config_loads data :
  match load_trigger_config_text data with
  | Loaded s => NoDup (trigger_ids s) ∧ Forall (.≠ "") (trigger_ids s) ∧ triggers_wf s
  | ConfigError _ => True
  | ConfigRaise e => ∃ m, e = OverflowError m
  end.
Proof.
  assert (∀ entries, match load_entries [] (mkSet [] [] []) entries 0 with
    | Loaded s => NoDup (trigger_ids s) ∧ Forall (.≠ "") (trigger_ids s) ∧ triggers_wf s
    | ConfigError _ => True | ConfigRaise e => ∃ m, e = OverflowError m end) as Hl.
  { intros entries. destruct (load_entries _ _ _ _) as [s|m|e] eqn:E; [|done|].
    - apply load_entries_ok in E as (seen & -> & ? & ? & ?); [done|done|constructor|done|by split_and!].
    - revert E. generalize (@nil string) (mkSet [] [] []) 0%nat. induction entries as [|x l IH]; intros seen s idx; cbn [load_entries]; [done|].
      intros [H|([seen1 s1] & _ & H)]%cfg_bind_raise; [by eapply load_entry_raise|by eapply IH]. }
  unfold load_trigger_config_text. destruct data as [| | | | | |m]; try done. destruct (jget "triggers" m); try done; [|apply Hl|apply Hl].
  split_and!; repeat constructor.
Qed.
End loader.

(** ** Intervals *)

(** An [@every] schedule adds a second to its interval between events: the
    next moment is looked for a second after the last one. *)
Lemma every_drifts c us m n l :
  cs_interval c = Some (Fin us) → cron_fires n c m = Ok l →
  ∀ i t, l !! i = Some t → t = m + us + Z.of_nat i * (us + 1000000).
Proof.
  intros Hc. revert m l. induction n as [|n IH]; intros m l; cbn [cron_fires]; [by intros [= <-]|].
  unfold next_after at 1, add_us. rewrite Hc. destruct (m + us <? _); [|done]. cbn [mbind res_bind].
  destruct (m + us + 1000000 <? _); [|done]. cbn [mbind res_bind]. intros (l' & Hl & [= <-])%res_bind_ok i t.
  destruct i as [|i]; cbn; [intros [= <-]; lia|]. intros Ht. rewrite (IH _ _ Hl i t Ht). lia.
Qed.

(** ** Examples *)

(** Decimal digits. *)
Fixpoint read_digits (s : string) (acc : Z) : option Z :=
  match s with
  | EmptyString => Some acc
  | String c s' =>
      let n := Z.of_nat (nat_of_ascii c) in
      if (48 <=? n) && (n <=? 57) then read_digits s' (acc * 10 + (n - 48)) else None
  end.

Definition decimal_text : PyText :=
  {| other_str := fun _ => EmptyString;
     float_of_str := fun s => of_int <$> read_digits s 0;
     int_of_str := fun s => read_digits s 0 |}.

#[local] Existing Instance decimal_text.

(** 2024-02-28 23:59:30, a Wednesday. *)
Definition leap_eve : Z := ((738943 * 1440 + 1439) * 60 + 30) * 1000000.

Example leap_eve_date : civil 738943 = (2024, 2, 28) ∧ civil 738944 = (2024, 2, 29) ∧ civil 738945 = (2024, 3, 1) ∧ 738943 mod 7 = 2 ∧ civil 0 = (1, 1, 1).
Proof. vm_compute. done. Qed.

Definition twice_a_day : CronSchedule := mkSchedule None [0] [9; 17] (Z.of_nat <$> seq 1 31) (Z.of_nat <$> seq 1 12) [1].

(** A schedule that names Mondays only in its last field fires every day: the
    two day fields are joined by or, and the star of the other one names all
    the days of the month. *)
Example mondays_fire_daily :
  from_expr "0 9,17 * * 1" = Ok twice_a_day ∧
  cron_fires 4 twice_a_day leap_eve =
    Ok ((λ k, k * minute_us) <$> [738944 * 1440 + 540; 738944 * 1440 + 1020; 738945 * 1440 + 540; 738945 * 1440 + 1020]).
Proof. vm_compute. done. Qed.

Example every_ten : from_expr "@every 10s" = Ok (mkSchedule (Some (Fin 10000000)) [] [] [] [] []) ∧
  cron_fires 3 (mkSchedule (Some (Fin 10000000)) [] [] [] [] []) 0 = Ok [10000000; 21000000; 32000000].
Proof. vm_compute. done. Qed.

Example field_parts :
  _parse_cron_field "*/20,5,30-40/5" 0 59 = Ok [0; 5; 20; 30; 35; 40] ∧
  _parse_cron_field "50-70" 0 59 = Ok [50; 51; 52; 53; 54; 55; 56; 57; 58; 59] ∧
  _parse_cron_field "*/0" 0 59 = Raise (ValueError "range() arg 3 must not be zero").
Proof. vm_compute. done. Qed.

