(* ===== verification/TriggerEvents.v ===== *)
(** * Trigger events and their adapters ([tm/triggers/manager.py], [queue.py])

    The event a trigger builds from its template, the webhook servers, the
    directory watcher, the cron adapter's loop and the dispatch into the work
    queue.  A connection is the bytes the client sends; the decoding of UTF-8
    with replacement and the JSON parser are parameters, clocks, fresh ids and
    the file system's answers are arguments. *)

From S2P Require Import Prelude PyVal PyConv Task Idempotency Retry MemQueue QueueManager Triggers.
From stdpp Require Import base gmap strings list sorting pretty.
From Stdlib Require Import ZArith Lia Ascii.

Local Open Scope Z_scope.

Abbreviation dict := (list (string * json)) (only parsing).

Record TriggerEvent : Type := mkEvent {
  ev_trigger_id : string;
  ev_kind : string;
  ev_flow_id : string;
  ev_payload : list (string * json);
  ev_headers : list (string * string);
  ev_idempotency_key : option string
}.

(** ** Templates *)

Fixpoint drop_chars (n : nat) (s : string) : string :=
  match n, s with
  | S n, String _ s' => drop_chars n s'
  | _, _ => s
  end.

(** [text.replace(old, new)] for a non-empty [old]: occurrences from the left,
    not overlapping.  The text has at most as many as characters. *)
Fixpoint replace_fuel (n : nat) (old new s : string) : string :=
  match n, s with
  | S n, String c s' =>
      if String.prefix old s then new +:+ replace_fuel n old new (drop_chars (String.length old) s)
      else String c (replace_fuel n old new s')
  | _, _ => s
  end.

Definition str_replace (old new s : string) : string := replace_fuel (String.length s) old new s.

Section events.
Context {PT : PyText}.

Definition substitute_one (key value result : string) : string :=
  foldl (λ r placeholder,
           match String.index 0 placeholder r with Some _ => str_replace placeholder value r | None => r end)
    result ["{{ " +:+ key +:+ " }}"; "{{" +:+ key +:+ "}}"].

(** Keys are substituted one after the other, in the text that is left by the
    ones before. *)
Definition _substitute_placeholders (template : string) (context : dict) : string :=
  foldl (λ r kv, substitute_one kv.1 (py_str other_str kv.2) r) template context.

Fixpoint _render_value (value : json) (context : dict) : json :=
  match value with
  | JStr s => JStr (_substitute_placeholders s context)
  | JObj m => JObj ((λ kv, (kv.1, _render_value kv.2 context)) <$> m)
  | JArr l => JArr ((λ v, _render_value v context) <$> l)
  | v => v
  end.

Definition _render_template (template context : dict) : dict :=
  (λ kv, (kv.1, _render_value kv.2 context)) <$> template.

(** [d.setdefault(key, value)]. *)
Definition dict_default {V} (key : string) (v : V) (m : list (string * V)) : list (string * V) :=
  match alookup key m with Some _ => m | None => m ++ [(key, v)] end.

Definition event_context (config : TriggerBaseConfig) (base_context : dict) (event_id : string) (timestamp : pyfloat) : dict :=
  dict_update
    [("trigger_id", JStr (tb_id config)); ("trigger_kind", JStr (tb_kind config)); ("flow_id", JStr (tb_flow_id config));
     ("event_id", JStr event_id); ("timestamp", JFloat timestamp)]
    base_context.

Definition _build_event (config : TriggerBaseConfig) (base_context : dict) (extra_headers : list (string * string))
    (event_id : string) (timestamp : pyfloat) : TriggerEvent :=
  let context := event_context config base_context event_id timestamp in
  let payload :=
    dict_default "_trigger"
      (JObj [("id", JStr (tb_id config)); ("kind", JStr (tb_kind config));
             ("event_id", jget "event_id" context); ("timestamp", jget "timestamp" context)])
      (_render_template (tb_input_template config) context) in
  let headers :=
    dict_update
      [("trigger_id", tb_id config); ("trigger_kind", tb_kind config); ("trigger_event", py_str other_str (jget "event_id" context))]
      extra_headers in
  mkEvent (tb_id config) (tb_kind config) (tb_flow_id config) payload headers (tb_idempotency_key config).

(** ** Dispatch ([queue.py]) *)

Section dispatch.
Context {Qu : Type} `{WorkQueue Qu}.

Definition event_headers (e : TriggerEvent) : list (string * json) :=
  let headers := (λ kv, (kv.1, JStr kv.2)) <$> ev_headers e in
  match ev_idempotency_key e with
  | Some key => if String.eqb key "" then headers else dict_default "idempotency_key" (JStr key) headers
  | None => headers
  end.

Definition _enqueue_sync (m : TaskQueueManager Qu) (e : TriggerEvent) (uuid : string) (now : Now) : TaskQueueManager Qu :=
  (enqueue m (ev_flow_id e) (Map (ev_payload e)) (Map (event_headers e)) empty_map uuid now).2.
End dispatch.

(** ** The cron adapter *)

Definition pad (n : nat) (v : Z) : string :=
  let s := pretty v in
  String.append (String.concat "" (replicate (n - String.length s) "0")) s.

(** [moment.isoformat()]. *)
Definition isoformat (t : Z) : string :=
  let k := t / minute_us in
  let '(y, mo, d) := civil (k / 1440) in
  let us := t mod 1000000 in
  pad 4 y +:+ "-" +:+ pad 2 mo +:+ "-" +:+ pad 2 d +:+ "T" +:+ pad 2 (hour_of k) +:+ ":" +:+ pad 2 (minute_of k) +:+ ":" +:+
  pad 2 ((t / 1000000) mod 60) +:+ (if us =? 0 then "" else "." +:+ pad 6 us).

(** What one turn of [_CronAdapter.run] meets: whether a stop was requested
    before it, the clock, whether the stop comes during the wait, the event's
    fresh id and time. *)
Record tick : Type := mkTick {
  tk_stopped : bool;
  tk_now : Z;
  tk_stops : bool;
  tk_event_id : string;
  tk_time : pyfloat
}.

Definition cron_event (config : CronTriggerConfig) (next_fire : Z) (k : tick) : TriggerEvent :=
  let at_text := isoformat next_fire in
  _build_event (tc_base config) [("scheduled_at", JStr at_text)] [("trigger_scheduled_at", at_text)] (tk_event_id k) (tk_time k).

(** The events handed to the handler, whose exceptions are only logged; an
    exception of the schedule ends the adapter. *)
Fixpoint cron_turns (config : CronTriggerConfig) (schedule : CronSchedule) (next_fire : Z) (ticks : list tick)
  : list TriggerEvent * option exn :=
  match ticks with
  | [] => ([], None)
  | k :: ticks =>
      if tk_stopped k then ([], None)
      else if (tk_now k <? next_fire) && tk_stops k then ([], None)
      else
        let event := cron_event config next_fire k in
        match add_us next_fire 1000000 ≫= next_after schedule with
        | Raise e => ([event], Some e)
        | Ok next => let '(events, e) := cron_turns config schedule next ticks in (event :: events, e)
        end
  end.

Definition cron_run (config : CronTriggerConfig) (schedule : CronSchedule) (started : Z) (ticks : list tick)
  : list TriggerEvent * option exn :=
  match next_after schedule started with
  | Raise e => ([], Some e)
  | Ok next => cron_turns config schedule next ticks
  end.

(** ** The directory watcher *)

Section watcher.

(** What [path.stat()] answers for a file the scan lists; [None] when it is
    gone. *)
Record listed : Type := mkListed {
  li_path : string;
  li_name : string;
  li_parent : string;
  li_stat : option (Z * Z)
}.

(** [datetime.fromtimestamp]: the local moment of a file time. *)
Context (fromtimestamp : Z → Z).

Definition file_event (config : FileSystemTriggerConfig) (f : listed) (mtime size : Z) (event_id : string) (now : pyfloat) : TriggerEvent :=
  _build_event (tf_base config)
    [("path", JStr (li_path f)); ("name", JStr (li_name f)); ("parent", JStr (li_parent f)); ("size", JInt size);
     ("mtime", JStr (isoformat (fromtimestamp mtime)))]
    [("trigger_fs_path", li_path f)] event_id now.

(** The files of a scan: an event for a file that is new or newer than in the
    last scan; [fresh i] is the id and the time of the [i]-th event. *)
Fixpoint scan_paths (config : FileSystemTriggerConfig) (state now_state : list (string * Z)) (files : list listed)
    (fresh : nat → string * pyfloat) (i : nat) : list (string * Z) * list TriggerEvent :=
  match files with
  | [] => (now_state, [])
  | f :: files =>
      match li_stat f with
      | None => scan_paths config state now_state files fresh i
      | Some (mtime, size) =>
          let now_state := dict_set (li_path f) mtime now_state in
          if match alookup (li_path f) state with None => true | Some prev => prev <? mtime end then
            let '(s, events) := scan_paths config state now_state files fresh (S i) in
            (s, file_event config f mtime size (fresh i).1 (fresh i).2 :: events)
          else scan_paths config state now_state files fresh i
      end
  end.

(** One scan of the files [_iter_files] yields, or of a root that is not
    there; handler exceptions are only logged. *)
Definition _scan_once (config : FileSystemTriggerConfig) (state : list (string * Z)) (root : option (list listed))
    (fresh : nat → string * pyfloat) : list (string * Z) * list TriggerEvent :=
  match root with
  | None => (state, [])
  | Some files => scan_paths config state [] files fresh 0
  end.
End watcher.

(** ** Webhook servers *)

Definition filled (o : option string) : bool := match o with Some s => negb (String.eqb s "") | None => false end.

Definition group_key : Type := string * Z * bool.

Fixpoint add_group (key : group_key) (c : WebhookTriggerConfig) (groups : list (group_key * list WebhookTriggerConfig))
  : list (group_key * list WebhookTriggerConfig) :=
  match groups with
  | [] => [(key, [c])]
  | (k, cs) :: groups => if decide (key = k) then (k, cs ++ [c]) :: groups else (k, cs) :: add_group key c groups
  end.

Fixpoint group_webhooks (configs : list WebhookTriggerConfig) (groups : list (group_key * list WebhookTriggerConfig))
  : res (list (group_key * list WebhookTriggerConfig)) :=
  match configs with
  | [] => Ok groups
  | c :: configs =>
      let use_tls := filled (th_certfile c) && filled (th_keyfile c) in
      if negb use_tls && negb (th_allow_cleartext c) then
        Raise (ValueError ("webhook trigger '" +:+ tb_id (th_base c) +:+ "' disallows cleartext but no TLS cert/key provided"))
      else group_webhooks configs (add_group (th_bind_host c, th_bind_port c, use_tls) c groups)
  end.

Record WebhookServer : Type := mkServer {
  ws_host : string;
  ws_port : Z;
  ws_tls : option (string * string);
  ws_routes : list (string * string * WebhookTriggerConfig)
}.

Definition find_route (method path : string) (routes : list (string * string * WebhookTriggerConfig)) : option WebhookTriggerConfig :=
  snd <$> List.find (λ r, String.eqb r.1.1 method && String.eqb r.1.2 path) routes.

Fixpoint add_routes (configs : list WebhookTriggerConfig) (routes : list (string * string * WebhookTriggerConfig))
  : res (list (string * string * WebhookTriggerConfig)) :=
  match configs with
  | [] => Ok routes
  | c :: configs =>
      let method := str_upper (th_method c) in
      match find_route method (th_route c) routes with
      | Some _ => Raise (ValueError ("duplicate webhook route " +:+ th_method c +:+ " " +:+ th_route c))
      | None => add_routes configs (routes ++ [(method, th_route c, c)])
      end
  end.

(** [_WebhookServer.__init__]. *)
Definition server_new (host : string) (port : Z) (tls : option (string * string)) (configs : list WebhookTriggerConfig) : res WebhookServer :=
  routes ← add_routes configs [];
  Ok (mkServer host port tls routes).

Section servers.
(** [ssl_context.load_cert_chain]. *)
Context (load_cert_chain : string → string → res unit).

Definition group_server (g : group_key * list WebhookTriggerConfig) : res WebhookServer :=
  let '(host, port, use_tls, cfgs) := g in
  tls ← (if (use_tls : bool) then
           match cfgs with
           | c :: _ =>
               match th_certfile c, th_keyfile c with
               | Some certfile, Some keyfile => _ ← load_cert_chain certfile keyfile; Ok (Some (certfile, keyfile))
               | _, _ => Raise (ValueError "TLS enabled but certfile/keyfile not provided")
               end
           | [] => Raise (IndexError "list index out of range")
           end
         else Ok None);
  server_new host port tls cfgs.

Definition _build_webhook_servers (configs : list WebhookTriggerConfig) : res (list WebhookServer) :=
  groups ← group_webhooks configs [];
  mapM group_server groups.
End servers.

(** ** The adapters of a configuration *)

Inductive adapter : Type :=
| CronAdapter (config : CronTriggerConfig) (schedule : CronSchedule)
| WebhookAdapter (server : WebhookServer)
| FileSystemAdapter (config : FileSystemTriggerConfig).

Definition _cron_builder (s : TriggerConfigSet) : res (list adapter) :=
  mapM (λ c, schedule ← from_expr (tc_cron c); Ok (CronAdapter c schedule)) (ts_cron s).

Definition _webhook_builder (load_cert_chain : string → string → res unit) (s : TriggerConfigSet) : res (list adapter) :=
  match ts_webhook s with
  | [] => Ok []
  | configs =>
      match _build_webhook_servers load_cert_chain configs with
      | Ok servers => Ok (map WebhookAdapter servers)
      | Raise e => Raise e
      end
  end.

Definition _filesystem_builder (s : TriggerConfigSet) : res (list adapter) := Ok (FileSystemAdapter <$> ts_filesystem s).

(** What [TriggerManager.run] starts: the adapters of the three builders. *)
Definition start_adapters (load_cert_chain : string → string → res unit) (s : TriggerConfigSet) : res (list adapter) :=
  crons ← _cron_builder s;
  hooks ← _webhook_builder load_cert_chain s;
  watchers ← _filesystem_builder s;
  Ok (crons ++ hooks ++ watchers).

(** ** A connection *)

Definition LF : ascii := "010"%char.
Definition crlf : string := String "013"%char (String LF EmptyString).

(** The bytes up to the next line feed, with it, and the rest. *)
Fixpoint take_line (s : string) : string * string :=
  match s with
  | EmptyString => (EmptyString, EmptyString)
  | String c s' => if decide (c = LF) then (String c EmptyString, s') else let '(l, r) := take_line s' in (String c l, r)
  end.

(** [reader.readline()] with asyncio's limit of 64 KiB before the line feed. *)
Definition stream_limit : nat := Z.to_nat 65536.

Definition readline (s : string) : res (string * string) :=
  let '(line, rest) := take_line s in
  let body := match split_once LF line with Some (b, _) => b | None => line end in
  if (stream_limit <? String.length body)%nat then Raise (ValueError "Separator is found, but chunk is longer than limit")
  else Ok (line, rest).

Fixpoint take_chars (n : nat) (s : string) : string :=
  match n, s with
  | S n, String c s' => String c (take_chars n s')
  | _, _ => EmptyString
  end.

(** [reader.readexactly(n)]. *)
Definition readexactly (n : Z) (s : string) : res string :=
  if Z.of_nat (String.length s) <? n then Raise (ValueError "incomplete read")
  else Ok (take_chars (Z.to_nat n) s).

Definition MAX_BODY : Z := 1048576.
Definition MAX_HEADERS : nat := 64.

(** A percent escape's two digits. *)
Definition hex_digit (c : ascii) : option nat :=
  let n := nat_of_ascii c in
  if ((48 <=? n) && (n <=? 57))%nat then Some (n - 48)%nat
  else if ((65 <=? n) && (n <=? 70))%nat then Some (n - 55)%nat
  else if ((97 <=? n) && (n <=? 102))%nat then Some (n - 87)%nat
  else None.

Fixpoint unquote_bytes (s : string) : string :=
  match s with
  | EmptyString => EmptyString
  | String c s' =>
      match s' with
      | String a (String b rest) =>
          match (if decide (c = "%"%char) then hex_digit a else None), hex_digit b with
          | Some x, Some y => String (ascii_of_nat (16 * x + y)) (unquote_bytes rest)
          | _, _ => String c (unquote_bytes s')
          end
      | _ => String c (unquote_bytes s')
      end
  end.

Fixpoint plus_to_blank (s : string) : string :=
  match s with EmptyString => EmptyString | String c s' => String (if decide (c = "+"%char) then " "%char else c) (plus_to_blank s') end.

(** What the handler of an event does with its state; it may raise. *)
Section connection.
Context (decode : string → string) (json_loads : string → res json) (is_decode_error : exn → bool).
Context {S : Type} (handler : S → TriggerEvent → res unit * S).

Definition unquote (s : string) : string := decode (unquote_bytes (plus_to_blank s)).

Fixpoint add_value (key : string) (v : json) (m : list (string * list json)) : list (string * list json) :=
  match m with
  | [] => [(key, [v])]
  | (k, vs) :: m => if decide (key = k) then (k, vs ++ [v]) :: m else (k, vs) :: add_value key v m
  end.

(** [urllib.parse.parse_qs(query, keep_blank_values=True)]. *)
Definition parse_qs (query : string) : list (string * list json) :=
  let '(p, ps) := split_char "&"%char query in
  foldl (λ m part,
           if String.eqb part "" then m
           else let '(k, v) := match split_once "="%char part with Some kv => kv | None => (part, "") end in
                add_value (unquote k) (JStr (unquote v)) m)
    [] (p :: ps).

Definition simple_query (q : list (string * list json)) : list (string * json) :=
  (λ kv, (kv.1, match kv.2 with [v] => v | vs => JArr vs end)) <$> q.

Definition _readline (s : string) : res (string * string) :=
  '(line, rest) ← readline s;
  Ok (strip (decode line), rest).

Fixpoint _read_headers (limit : nat) (s : string) (headers : list (string * string)) : res (option (list (string * string) * string)) :=
  match limit with
  | O => Ok None
  | Datatypes.S limit =>
      '(raw, rest) ← readline s;
      if bool_decide (raw ∈ [crlf; String LF EmptyString; ""]) then Ok (Some (headers, rest))
      else
        match split_once ":"%char (decode raw) with
        | None => Ok None
        | Some (name, value) => _read_headers limit rest (dict_set (str_lower (strip name)) (strip value) headers)
        end
  end.

(** A request as far as it was read. *)
Inductive request : Type :=
| Refused (status : Z) (message : string)
| Received (method target : string) (headers : list (string * string)) (body : string).

Definition read_request (s : string) : res request :=
  '(request_line, s) ← _readline s;
  if String.eqb request_line "" then Ok (Refused 400 "empty request")
  else
    match split_blank request_line with
    | [m; target; _] =>
        hs ← _read_headers MAX_HEADERS s [];
        match hs with
        | None => Ok (Refused 400 "malformed headers")
        | Some (headers, s) =>
            match int_text (default "0" (alookup "content-length" headers)) with
            | Raise (ValueError _) => Ok (Refused 400 "invalid content-length")
            | Raise e => Raise e
            | Ok content_length =>
                if (content_length <? 0) || (MAX_BODY <? content_length) then Ok (Refused 413 "payload too large")
                else
                  body ← (if content_length =? 0 then Ok "" else readexactly content_length s);
                  Ok (Received (str_upper m) target headers body)
            end
        end
    | _ => Ok (Refused 400 "malformed request line")
    end.

(** The secret is checked when one is configured. *)
Definition authorised (cfg : WebhookTriggerConfig) (headers : list (string * string)) : bool :=
  match th_secret cfg with
  | Some secret => String.eqb secret "" || bool_decide (alookup "x-tracemind-secret" headers = Some secret)
  | None => true
  end.

Definition parse_body (headers : list (string * string)) (body_text : string) : res json :=
  if String.prefix "application/json" (default "" (alookup "content-type" headers)) && negb (String.eqb body_text "") then
    match json_loads body_text with
    | Ok v => Ok v
    | Raise e => if is_decode_error e then Ok (JStr body_text) else Raise e
    end
  else Ok (JStr body_text).

Definition partition (c : ascii) (s : string) : string * string := match split_once c s with Some p => p | None => (s, "") end.

Definition webhook_event (cfg : WebhookTriggerConfig) (method target : string) (headers : list (string * string)) (body : string)
    (event_id : string) (now : pyfloat) : res TriggerEvent :=
  let '(path, query) := partition "?"%char target in
  let body_text := decode body in
  parsed ← parse_body headers body_text;
  Ok (_build_event (th_base cfg)
        [("method", JStr method); ("path", JStr path); ("query", JObj (simple_query (parse_qs query)));
         ("headers", JObj ((λ kv, (kv.1, JStr kv.2)) <$> headers)); ("body", parsed); ("body_text", JStr body_text)]
        [("trigger_http_method", method); ("trigger_http_path", path)] event_id now).

(** The response and the state the handler leaves.  Any exception ends in a
    response 500. *)
Definition _handle_client (srv : WebhookServer) (stream : string) (event_id : string) (now : pyfloat) (s : S) : (Z * string) * S :=
  match read_request stream with
  | Raise _ => (500, "internal error", s)
  | Ok (Refused status message) => (status, message, s)
  | Ok (Received method target headers body) =>
      match find_route method (partition "?"%char target).1 (ws_routes srv) with
      | None => (404, "route not found", s)
      | Some cfg =>
          if negb (authorised cfg headers) then (401, "unauthorized", s)
          else
            match webhook_event cfg method target headers body event_id now with
            | Raise _ => (500, "internal error", s)
            | Ok event =>
                match handler s event with
                | (Ok _, s) => (202, "accepted", s)
                | (Raise _, s) => (500, "internal error", s)
                end
            end
      end
  end.
End connection.

(** [_respond]: the bytes written. *)
Definition reason (status : Z) : string :=
  if status =? 202 then "Accepted"
  else if status =? 400 then "Bad Request"
  else if status =? 401 then "Unauthorized"
  else if status =? 404 then "Not Found"
  else if status =? 413 then "Payload Too Large"
  else if status =? 500 then "Internal Server Error"
  else "OK".

Definition _respond (status : Z) (message : string) : string :=
  "HTTP/1.1 " +:+ pretty status +:+ " " +:+ reason status +:+ crlf +:+
  "Content-Type: text/plain; charset=utf-8" +:+ crlf +:+
  "Content-Length: " +:+ pretty (String.length message) +:+ crlf +:+
  "Connection: close" +:+ crlf +:+ crlf +:+ message.

(** ** Routes *)

Definition route_of (c : WebhookTriggerConfig) : string * string := (str_upper (th_method c), th_route c).

Lemma find_route_spec method path routes :
  match find_route method path routes with
  | Some c => (method, path, c) ∈ routes
  | None => (method, path) ∉ routes.*1
  end.
Proof.
  unfold find_route. induction routes as [|[[m p] c] routes IH]; [apply not_elem_of_nil|].
  cbn [List.find fst snd]. destruct (String.eqb_spec m method) as [->|Hm], (String.eqb_spec p path) as [->|Hp]; cbn [andb];
    [by left| | |].
  all: destruct (List.find _ routes) as [[[m' p'] c']|]; cbn in *; [by right|].
  all: intros [Heq|?]%elem_of_cons; [congruence|done].
Qed.

Lemma add_routes_ok configs routes all :
  add_routes configs routes = Ok all → NoDup routes.*1 →
  all = routes ++ ((λ c, (route_of c, c)) <$> configs) ∧ NoDup all.*1.
Proof.
  revert routes. induction configs as [|c configs IH]; intros routes; cbn [add_routes].
  - intros [= <-] Hnd. cbn. by rewrite app_nil_r.
  - pose proof (find_route_spec (str_upper (th_method c)) (th_route c) routes) as Hf.
    destruct (find_route _ _ routes); [done|]. intros H Hnd. apply IH in H as [-> Hall].
    + split; [by rewrite <-app_assoc|done].
    + rewrite fmap_app. apply NoDup_app. cbn. split_and!; [done| |apply NoDup_singleton].
      intros x Hx ->%list_elem_of_singleton. done.
Qed.

(** A server routes each request to the one trigger of its method and path. *)
Lemma server_routes host port tls configs srv :
  server_new host port tls configs = Ok srv →
  NoDup (route_of <$> configs) ∧
  ∀ method path, match find_route method path (ws_routes srv) with
    | Some c => c ∈ configs ∧ route_of c = (method, path)
    | None => (method, path) ∉ route_of <$> configs
    end.
Proof.
  unfold server_new. intros (routes & Hr & [= <-])%res_bind_ok. apply add_routes_ok in Hr as [-> Hnd]; [|constructor].
  cbn [app ws_routes]. assert (((λ c, (route_of c, c)) <$> configs).*1 = route_of <$> configs) as E.
  { rewrite <-list_fmap_compose. done. }
  split; [by rewrite <-E|]. intros method path.
  pose proof (find_route_spec method path ((λ c, (route_of c, c)) <$> configs)) as H.
  destruct (find_route method path _) as [c|].
  - apply list_elem_of_fmap in H as (c' & [= -> -> ->] & Hc). done.
  - by rewrite E in H.
Qed.

(** ** What a server accepts *)

Section accepts.
Context (decode : string → string) (json_loads : string → res json) (is_decode_error : exn → bool).
Context {S : Type} (handler : S → TriggerEvent → res unit * S).

Lemma length_take_chars n s : (n ≤ String.length s)%nat → String.length (take_chars n s) = n.
Proof. revert s. induction n as [|n IH]; intros [|c s]; cbn; intros ?; try lia. rewrite IH; lia. Qed.

Lemma length_dict_set {V} key (v : V) m : (length (dict_set key v m) ≤ Datatypes.S (length m))%nat.
Proof. induction m as [|[k x] m IH]; cbn; [lia|]. destruct (decide (key = k)); cbn; lia. Qed.

Lemma read_headers_bound limit s hs headers rest :
  _read_headers decode limit s hs = Ok (Some (headers, rest)) → (length headers < length hs + limit)%nat.
Proof.
  revert s hs. induction limit as [|limit IH]; intros s hs; cbn [_read_headers]; [done|].
  intros ([raw r] & _ & H)%res_bind_ok. destruct (bool_decide _); [injection H as <- <-; lia|].
  destruct (split_once _ _) as [[name value]|]; [|done]. apply IH in H.
  pose proof (length_dict_set (str_lower (strip name)) (strip value) hs). lia.
Qed.

Lemma read_request_bounds stream method target headers body :
  read_request decode stream = Ok (Received method target headers body) →
  (length headers < MAX_HEADERS)%nat ∧ Z.of_nat (String.length body) ≤ MAX_BODY ∧
  int_text (default "0" (alookup "content-length" headers)) = Ok (Z.of_nat (String.length body)).
Proof.
  unfold read_request. intros ([line s] & _ & H)%res_bind_ok. destruct (String.eqb line ""); [done|].
  destruct (split_blank line) as [|m [|t [|v [|]]]]; try discriminate. apply res_bind_ok in H as ([[hs s']|] & Hh & H); [|discriminate].
  destruct (int_text _) as [n|[]] eqn:En; try discriminate. destruct (_ || _) eqn:Eb; [done|].
  apply orb_false_iff in Eb. apply res_bind_ok in H as (b & Hb & [= <- <- <- <-]). split; [by apply read_headers_bound in Hh|].
  rewrite En. assert (Z.of_nat (String.length b) = n) as <-; [|split; [lia|done]].
  destruct (n =? 0) eqn:E0; [injection Hb as <-; cbn; lia|]. unfold readexactly in Hb. destruct (Z.of_nat (String.length s') <? n) eqn:El; [discriminate|].
  injection Hb as <-. rewrite length_take_chars by lia. lia.
Qed.

Lemma read_request_refused stream status message :
  read_request decode stream = Ok (Refused status message) → status = 400 ∨ status = 413.
Proof.
  unfold read_request. intros ([line s] & _ & H)%res_bind_ok. destruct (String.eqb line ""); [injection H as <- _; auto|].
  destruct (split_blank line) as [|m [|t [|v [|]]]]; try (injection H as <- _; auto).
  apply res_bind_ok in H as ([[hs s']|] & Hh & H); [|injection H as <- _; auto].
  destruct (int_text _) as [n|[]]; try discriminate; try (injection H as <- _; auto).
  destruct (_ || _); [injection H as <- _; auto|]. by apply res_bind_ok in H as (b & _ & [=]).
Qed.

Lemma authorised_spec cfg headers :
  authorised cfg headers = true ↔
  ∀ secret, th_secret cfg = Some secret → secret ≠ "" → alookup "x-tracemind-secret" headers = Some secret.
Proof.
  unfold authorised. destruct (th_secret cfg) as [secret|]; [|naive_solver].
  rewrite orb_true_iff, bool_decide_eq_true. destruct (String.eqb_spec secret ""); naive_solver.
Qed.

Lemma webhook_event_fields cfg method target headers body event_id now event :
  webhook_event decode json_loads is_decode_error cfg method target headers body event_id now = Ok event →
  ev_trigger_id event = tb_id (th_base cfg) ∧ ev_flow_id event = tb_flow_id (th_base cfg).
Proof. unfold webhook_event. destruct (partition _ _) as [path query]. intros (parsed & _ & [= <-])%res_bind_ok. done. Qed.

(** A client that is let in: the trigger of the route, whose secret the client
    knows if it has one. *)
Definition lets_in (configs : list WebhookTriggerConfig) (method path : string) (headers : list (string * string)) (cfg : WebhookTriggerConfig) : Prop :=
  cfg ∈ configs ∧ route_of cfg = (method, path) ∧
  ∀ secret, th_secret cfg = Some secret → secret ≠ "" → alookup "x-tracemind-secret" headers = Some secret.

(** C13: A webhook server answers every connection with one of six statuses.
    The handler runs at most once and only for a request that was read whole,
    within the limits on headers and body, on the route of a trigger whose
    secret, if it has one, the client sent; the event is that trigger's, and
    the answer is 202 exactly when the handler returned.  A request on no
    route is answered 404, one without the secret 401, and neither reaches
    the handler. *)
Theorem webhook_delivery host port tls configs srv stream event_id now s status message s' :
  server_new host port tls configs = Ok srv →
  _handle_client decode json_loads is_decode_error handler srv stream event_id now s = (status, message, s') →
  status ∈ [202; 400; 401; 404; 413; 500] ∧
  (status ≠ 202 ∧ s' = s ∨
   ∃ method target headers body cfg event,
     read_request decode stream = Ok (Received method target headers body) ∧
     (length headers < MAX_HEADERS)%nat ∧ Z.of_nat (String.length body) ≤ MAX_BODY ∧
     lets_in configs method (partition "?"%char target).1 headers cfg ∧
     ev_trigger_id event = tb_id (th_base cfg) ∧ ev_flow_id event = tb_flow_id (th_base cfg) ∧
     s' = (handler s event).2 ∧ status = if is_ok (handler s event).1 then 202 else 500) ∧
  (∀ method target headers body, read_request decode stream = Ok (Received method target headers body) →
     (status = 404 ↔ (method, (partition "?"%char target).1) ∉ route_of <$> configs) ∧
     (status = 401 ↔ (method, (partition "?"%char target).1) ∈ route_of <$> configs ∧
        ¬ ∃ cfg, lets_in configs method (partition "?"%char target).1 headers cfg)).
Proof.
  intros Hsrv. destruct (server_routes _ _ _ _ _ Hsrv) as [Hnd Hroute]. unfold _handle_client.
  destruct (read_request decode stream) as [[st msg|method target headers body]|e] eqn:Er.
  { intros [= <- <- <-]. apply read_request_refused in Er. split; [set_solver|]. split; [left; split; [lia|done]|done]. }
  2: { intros [= <- <- <-]. split; [set_solver|]. split; [by left|done]. }
  destruct (read_request_bounds _ _ _ _ _ Er) as (Hh & Hb & _).
  set (path := (partition "?"%char target).1) in *. specialize (Hroute method path).
  destruct (find_route method path (ws_routes srv)) as [cfg|].
  2: { intros [= <- <- <-]. split; [set_solver|]. split; [by left|]. intros ? ? ? ? [= <- <- <- <-]. fold path. split; [done|]. split; [done|]. by intros [? _]. }
  destruct Hroute as [Hc Hr]. assert ((method, path) ∈ route_of <$> configs) as Hin by (apply list_elem_of_fmap; eauto).
  assert ((∃ c, lets_in configs method path headers c) ↔ authorised cfg headers = true) as Hauth.
  { rewrite authorised_spec. split; [|intros ?; by exists cfg]. intros (c & Hc' & Hr' & Hsec).
    assert (c = cfg) as ->; [|done].
    apply list_elem_of_lookup in Hc as [i Hi], Hc' as [j Hj].
    assert (i = j) as ->; [|congruence]. apply (NoDup_lookup (route_of <$> configs) i j (method, path)); [done|..]; rewrite list_lookup_fmap.
    - rewrite Hi. cbn. by rewrite Hr.
    - rewrite Hj. cbn. by rewrite Hr'. }
  destruct (authorised cfg headers) eqn:Ea; cbn [negb].
  2: { intros [= <- <- <-]. split; [set_solver|]. split; [by left|]. intros ? ? ? ? [= <- <- <- <-]. fold path. rewrite Hauth. by split; split. }
  assert (∀ st, st ≠ 404 → st ≠ 401 → ∀ m t h b, Ok (Received method target headers body) = Ok (Received m t h b) →
    (st = 404 ↔ (m, (partition "?"%char t).1) ∉ route_of <$> configs) ∧
    (st = 401 ↔ (m, (partition "?"%char t).1) ∈ route_of <$> configs ∧ ¬ ∃ cfg, lets_in configs m (partition "?"%char t).1 h cfg)) as Hrest.
  { intros st H1 H2 m t h b [= <- <- <- <-]. fold path. rewrite Hauth. split; split; naive_solver. }
  destruct (webhook_event _ _ _ cfg method target headers body event_id now) as [event|e] eqn:Ee.
  2: { intros [= <- <- <-]. split; [set_solver|]. split; [by left|]. by apply Hrest. }
  destruct (webhook_event_fields _ _ _ _ _ _ _ _ Ee) as [Ht Hf].
  assert (lets_in configs method path headers cfg) as Hl by (split_and!; [done..|by apply authorised_spec]).
  destruct (handler s event) as [[u|e] s1] eqn:Eh; intros [= <- <- <-]; (split; [set_solver|]); (split; [|by apply Hrest]);
    right; exists method, target, headers, body, cfg, event; rewrite Eh; by split_and!.
Qed.
End accepts.

(** ** What a scan reports *)

Section scan.
Context (fromtimestamp : Z → Z) (config : FileSystemTriggerConfig).

(** A file that is there and is new or newer than the last scan saw it. *)
Definition changed (state : list (string * Z)) (f : listed) : bool :=
  match li_stat f with
  | None => false
  | Some (mtime, _) => match alookup (li_path f) state with None => true | Some prev => prev <? mtime end
  end.

Definition reports (f : listed) (e : TriggerEvent) : Prop :=
  ∃ mtime size id now, li_stat f = Some (mtime, size) ∧ e = file_event fromtimestamp config f mtime size id now.

(** The times a scan leaves: those of the files it saw. *)
Definition seen_times (files : list listed) (acc : list (string * Z)) : list (string * Z) :=
  foldl (λ acc f, match li_stat f with Some (mtime, _) => dict_set (li_path f) mtime acc | None => acc end) acc files.

Lemma scan_files_spec state files acc fresh i :
  (scan_paths fromtimestamp config state acc files fresh i).1 = seen_times files acc ∧
  Forall2 reports (filter (λ f, changed state f = true) files) (scan_paths fromtimestamp config state acc files fresh i).2.
Proof.
  revert acc i. induction files as [|f files IH]; intros acc i; cbn [scan_paths seen_times foldl]; [by split|].
  rewrite filter_cons. assert (changed state f = match li_stat f with None => false | Some (mtime, _) => match alookup (li_path f) state with None => true | Some prev => prev <? mtime end end) as Hc by done.
  destruct (li_stat f) as [[mtime size]|] eqn:Es; [|rewrite decide_False by congruence; apply IH].
  rewrite <-Hc. destruct (changed state f).
  - rewrite decide_True by done. destruct (IH (dict_set (li_path f) mtime acc) (Datatypes.S i)) as [H1 H2].
    destruct (scan_paths _ _ _ _ files fresh (Datatypes.S i)) as [s evs]. cbn in *. split; [done|].
    constructor; [|done]. by exists mtime, size, (fresh i).1, (fresh i).2.
  - rewrite decide_False by done. apply IH.
Qed.

Lemma seen_times_other files acc p :
  p ∉ (li_path <$> files) → alookup p (seen_times files acc) = alookup p acc.
Proof.
  revert acc. induction files as [|f files IH]; intros acc; [done|].
  rewrite fmap_cons. intros [Hp Hn]%not_elem_of_cons. cbn [seen_times foldl].
  etrans; [by apply IH|]. destruct (li_stat f) as [[mtime size]|]; [|done].
  rewrite alookup_dict_set. by rewrite decide_False by done.
Qed.

Lemma seen_times_at files acc f mtime size :
  NoDup (li_path <$> files) → f ∈ files → li_stat f = Some (mtime, size) → alookup (li_path f) (seen_times files acc) = Some mtime.
Proof.
  revert acc. induction files as [|g files IH]; intros acc; [by intros _ ?%not_elem_of_nil|].
  rewrite fmap_cons. intros [Hg Hnd]%NoDup_cons [->|Hf]%elem_of_cons Hs; cbn [seen_times foldl]; [|by apply IH].
  rewrite Hs. etrans; [by apply seen_times_other|].
  rewrite alookup_dict_set. by rewrite decide_True.
Qed.

(** A scan reports, in order, exactly the files that are new or newer than in
    the last one, and the same files looked at again are reported no more. *)
Theorem scan_once_spec state files fresh fresh' :
  NoDup (li_path <$> files) →
  let '(state', events) := _scan_once fromtimestamp config state (Some files) fresh in
  Forall2 reports (filter (λ f, changed state f = true) files) events ∧
  _scan_once fromtimestamp config state' (Some files) fresh' = (state', []).
Proof.
  intros Hnd. unfold _scan_once. destruct (scan_files_spec state files [] fresh 0) as [H1 H2].
  destruct (scan_paths fromtimestamp config state [] files fresh 0) as [state' events]. cbn in H1, H2. subst state'. split; [done|].
  destruct (scan_files_spec (seen_times files []) files [] fresh' 0) as [H3 H4].
  destruct (scan_paths _ _ (seen_times files []) [] files fresh' 0) as [s' evs]. cbn in H3, H4. subst s'. f_equal.
  assert (filter (λ f, changed (seen_times files []) f = true) files = []) as E.
  { apply elem_of_nil_inv. intros f [Hc Hf]%list_elem_of_filter. unfold changed in Hc. destruct (li_stat f) as [[mtime size]|] eqn:Es; [|done].
    rewrite (seen_times_at _ _ _ _ _ Hnd Hf Es) in Hc. lia. }
  rewrite E in H4. by inversion H4.
Qed.
End scan.

(** ** The cron adapter follows its schedule *)

Definition goes_on (k : tick) : Prop := tk_stopped k = false ∧ tk_stops k = false.

Lemma cron_turns_follow config c ticks next later rest :
  Forall goes_on ticks → add_us next 1000000 = Ok later → cron_fires (length ticks) c later = Ok rest →
  cron_turns config c next ticks = (zip_with (cron_event config) (next :: rest) ticks, None).
Proof.
  intros Hg. revert next later rest. induction Hg as [|k ticks [Hk1 Hk2] Hg IH]; intros next later rest Hl; [done|].
  cbn [length cron_fires]. intros (t & Ht & (later' & Hl' & (rest' & Hr & [= <-])%res_bind_ok)%res_bind_ok)%res_bind_ok.
  cbn [cron_turns]. rewrite Hk1, Hk2, andb_false_r, Hl. cbn [mbind res_bind]. rewrite Ht. by rewrite (IH _ _ _ Hl' Hr).
Qed.

(** Until it is stopped the adapter hands over one event per moment of its
    schedule. *)
Theorem cron_run_follows config c started ticks l :
  Forall goes_on ticks → cron_fires (S (length ticks)) c started = Ok l →
  cron_run config c started ticks = (zip_with (cron_event config) l ticks, None).
Proof.
  intros Hg (t & Ht & (later & Hl & (rest & Hr & [= <-])%res_bind_ok)%res_bind_ok)%res_bind_ok.
  unfold cron_run. rewrite Ht. by eapply cron_turns_follow.
Qed.

(** ** Events in the queue *)

Section queued.
Context {Qu : Type} `{WorkQueue Qu}.

(** The key of the trigger is the key of its tasks, whatever the event. *)
Lemma event_key (e : TriggerEvent) key uuid t :
  ev_idempotency_key e = Some key → key ≠ "" → alookup "idempotency_key" (ev_headers e) = None →
  idempotency_key (task_new uuid t (ev_flow_id e) (Map (ev_payload e)) (Map (event_headers e)) empty_map) = Some key.
Proof.
  intros Hk Hne Hn. unfold event_headers, idempotency_key, task_new. cbn [te_headers items]. rewrite Hk.
  destruct (String.eqb_spec key "") as [->|_]; [done|]. unfold dict_default.
  assert (alookup "idempotency_key" ((λ kv : string * string, (kv.1, JStr kv.2)) <$> ev_headers e) = None) as Hm.
  { revert Hn. generalize (ev_headers e). intros l. induction l as [|[k v] l IH]; [done|]. cbn [alookup fmap list_fmap fst snd]. by destruct (decide _). }
  rewrite Hm. assert (jget "idempotency_key" (dict_pop "task_id" (((λ kv : string * string, (kv.1, JStr kv.2)) <$> ev_headers e) ++ [("idempotency_key", JStr key)])) = JStr key) as ->.
  2: { destruct (String.eqb_spec key ""); done. }
  unfold jget. rewrite alookup_dict_pop. cbn [decide]. rewrite decide_False by done.
  revert Hm. generalize ((λ kv : string * string, (kv.1, JStr kv.2)) <$> ev_headers e). intros l Hm.
  induction l as [|[k v] l IH]; [done|]. cbn [alookup app] in *. destruct (decide _); [done|]. by apply IH.
Qed.

(** An event is queued, or its key was answered before or is pending: then
    nothing is queued and its payload is lost. *)
Theorem dispatch_spec (m : TaskQueueManager Qu) (e : TriggerEvent) key uuid now :
  ev_idempotency_key e = Some key → key ≠ "" → alookup "idempotency_key" (ev_headers e) = None →
  let m' := _enqueue_sync m e uuid now in
  if decide (is_Some (idem_get (qm_idempotency m) key (mono now)).1 ∨ is_Some (qm_pending_keys m !! key)) then
    qm_queue m' = qm_queue m ∧ qm_pending_keys m' = qm_pending_keys m
  else
    ∃ task, te_input task = Map (ev_payload e) ∧ flow_id task = ev_flow_id e ∧ task_id task = uuid ∧ idempotency_key task = Some key ∧
      qm_queue m' = (wq_put (qm_queue m) (to_dict task) now).2 ∧ qm_pending_keys m' !! key = Some uuid.
Proof.
  intros Hk Hne Hn m'. pose proof (event_key e key uuid (Fin (wall now)) Hk Hne Hn) as Hkey. subst m'. unfold _enqueue_sync, enqueue.
  set (task := task_new uuid _ _ _ _ _) in *. rewrite Hkey. assert (composite_key task = key) as -> by (unfold composite_key; by rewrite Hkey).
  destruct (idem_get (qm_idempotency m) key (mono now)) as [[r|] s'] eqn:Ei; cbn [fst].
  { rewrite decide_True by (left; eauto). done. }
  cbn [with_idempotency qm_pending_keys]. destruct (qm_pending_keys m !! key) as [id|] eqn:Ep.
  { rewrite decide_True by (right; eauto). done. }
  rewrite decide_False by (intros [[? [=]]|[? [=]]]). exists task. unfold _store_envelope. rewrite Hkey.
  assert (composite_key task = key) as -> by (unfold composite_key; by rewrite Hkey). cbn.
  destruct (wq_put (qm_queue m) (to_dict task) now) as [off q]. cbn. split_and!; [done..|].
  unfold set_default_key. rewrite lookup_insert_eq. by rewrite lookup_insert_eq.
Qed.
End queued.
End events.

(** ** Examples *)

#[local] Existing Instance decimal_text.

Definition hook (id : string) (method route : string) (secret key : option string) : WebhookTriggerConfig :=
  mkHook (mkBase id "webhook" ("flow-" +:+ id) [("who", JStr "{{ body_text }} at {{path}}")] key) route method "127.0.0.1" 8081 secret true None None.

Definition demo_hooks : list WebhookTriggerConfig := [hook "a" "POST" "/a" (Some "s3") None; hook "b" "get" "/b" None (Some "k")].

Definition demo_server : WebhookServer :=
  mkServer "127.0.0.1" 8081 None ((λ c, (route_of c, c)) <$> demo_hooks).

Definition lines (l : list string) : string := String.concat "" ((λ s, s +:+ crlf) <$> l).

Definition post_a (secret : string) : string :=
  lines ["POST /a?x=1&x=2&y=%41+b HTTP/1.1"; "Content-Length: 5"; "X-TraceMind-Secret: " +:+ secret; ""] +:+ "hello".

(** A handler that keeps the events. *)
Definition keep_events (s : list TriggerEvent) (e : TriggerEvent) : res unit * list TriggerEvent := (Ok tt, s ++ [e]).

Definition serve (stream : string) : (Z * string) * list TriggerEvent :=
  _handle_client id (λ _, Raise (ValueError "json")) (λ _, true) keep_events demo_server stream "e1" fzero [].

Example answers :
  (serve (post_a "s3")).1 = (202, "accepted") ∧ (serve (post_a "guess")) = (401, "unauthorized", []) ∧
  serve (lines ["GET /c HTTP/1.1"; ""]) = (404, "route not found", []) ∧
  serve (lines ["GET /b HTTP/1.1"; "Content-Length: 2000000"; ""]) = (413, "payload too large", []) ∧
  serve (lines ["GET /b HTTP/1.1"; "Content-Length: 3"; ""]) = (500, "internal error", []) ∧
  serve (lines ["GET /b HTTP/1.1"; "no colon"; ""]) = (400, "malformed headers", []) ∧
  serve "" = (400, "empty request", []) ∧
  (alookup "who" ∘ ev_payload <$> (serve (post_a "s3")).2) = [Some (JStr "hello at /a")] ∧
  simple_query (parse_qs id "x=1&x=2&y=%41+b") = [("x", JArr [JStr "1"; JStr "2"]); ("y", JStr "A b")].
Proof. vm_compute. done. Qed.

(** What a client sends in the path is a template for the keys after it. *)
Example values_are_substituted_again :
  _substitute_placeholders "{{ path }}" [("path", JStr "/{{ body_text }}"); ("body_text", JStr "x")] = "/x".
Proof. vm_compute. done. Qed.

Lemma webhook_delivery_witness :
  server_new "127.0.0.1" 8081 None demo_hooks = Ok demo_server ∧
  ∃ s', serve (post_a "s3") = (202, "accepted", s') ∧
    ∃ method target headers body cfg event,
      read_request id (post_a "s3") = Ok (Received method target headers body) ∧
      lets_in demo_hooks method (partition "?"%char target).1 headers cfg ∧ s' = (keep_events [] event).2.
Proof.
  split; [done|].
  assert (∃ s', serve (post_a "s3") = (202, "accepted", s')) as [s' Hs] by (eexists; vm_compute; done).
  exists s'. split; [exact Hs|].
  destruct (webhook_delivery id (λ _, Raise (ValueError "json")) (λ _, true) keep_events "127.0.0.1" 8081 None demo_hooks demo_server
    (post_a "s3") "e1" fzero [] 202 "accepted" s' eq_refl Hs) as (_ & [[? _]|Hd] & _); [done|].
  destruct Hd as (method & target & headers & body & cfg & event & Hr & _ & _ & Hl & _ & _ & He & _).
  by exists method, target, headers, body, cfg, event.
Defined.

(** Two events of a trigger with a key, the second while the first is queued:
    one task. *)
Definition demo_dispatch : TaskQueueManager InMemoryWorkQueue :=
  manager_new mq_new (mkIS 8 funit 0 [] None) (Some dlq_new) None (of_int 3600) (mkNow 0 0).

Definition get_b (n : nat) : TriggerEvent :=
  _build_event (th_base (hook "b" "get" "/b" None (Some "k"))) [("body_text", JInt (Z.of_nat n)); ("path", JStr "/b")] [] (pretty n) fzero.

Example one_task_for_a_key :
  ev_payload (get_b 1) ≠ ev_payload (get_b 2) ∧
  wq_pending_count (qm_queue (_enqueue_sync (_enqueue_sync demo_dispatch (get_b 1) "t1" (mkNow 1 1)) (get_b 2) "t2" (mkNow 2 2))) = 1%N.
Proof. vm_compute. done. Qed.
