(* ===== verification/IntentTree.v ===== *)
(** * Intent trees ([tm/intent/tree_validator.py], [tm/intent/coverage.py])

    The validator of a document of intents and the coverage of intents by
    tests.  Documents are parsed JSON or YAML; reading files is left out. *)

From S2P Require Import Prelude PyVal PyConv.
From stdpp Require Import base gmap strings list sorting pretty.
From Stdlib Require Import ZArith Lia Ascii.

Abbreviation dict := (list (string * json)) (only parsing).

Record IntentTreeIssue : Type := mkIssue {
  ii_intent_id : option string;
  ii_path : string;
  ii_message : string
}.

(** A sequence that is not a text. *)
Definition as_array (v : json) : option (list json) := match v with JArr l => Some l | _ => None end.

(** A non-empty text. *)
Definition as_name (v : json) : option string :=
  match v with JStr s => if String.eqb s "" then None else Some s | _ => None end.

Definition _extract_intents (payload : dict) : option (list json) :=
  match as_array (jget "intents" payload) with
  | Some l => Some l
  | None =>
      match as_mapping (jget "spec" payload) with
      | None => None
      | Some spec =>
          match as_array (jget "intents" spec) with
          | Some l => Some l
          | None =>
              match as_mapping (jget "spec" spec) with
              | Some embedded => as_array (jget "intents" embedded)
              | None => None
              end
          end
      end
  end.

Definition at_intent (index : nat) (field : string) : string := "intents[" +:+ pretty index +:+ "]" +:+ field.

Definition _extract_trace_links (intent : dict) (index : nat) : dict * string :=
  match as_mapping (jget "trace_links" intent) with
  | Some links => (links, at_intent index ".trace_links")
  | None =>
      match as_mapping (jget "metadata" intent) ≫= (λ m, as_mapping (jget "trace_links" m)) with
      | Some links => (links, at_intent index ".metadata.trace_links")
      | None =>
          match as_mapping (jget "spec" intent) ≫= (λ m, as_mapping (jget "trace_links" m)) with
          | Some links => (links, at_intent index ".spec.trace_links")
          | None => ([], at_intent index ".trace_links")
          end
      end
  end.

(** [key in mapping]. *)
Definition has_key (key : string) (m : dict) : bool := bool_decide (is_Some (alookup key m)).

Definition _has_success_criteria (intent : dict) : bool :=
  has_key "success_criteria" intent ||
  match as_mapping (jget "spec" intent) with Some spec => has_key "success_criteria" spec | None => false end.

(** ** The validator *)

(** The entries that are mapping_items, with their positions, and the others. *)
Fixpoint split_entries (index : nat) (raw : list json) : list (nat * dict) * list IntentTreeIssue :=
  match raw with
  | [] => ([], [])
  | item :: raw =>
      let '(intents, issues) := split_entries (S index) raw in
      match as_mapping item with
      | Some intent => ((index, intent) :: intents, issues)
      | None => (intents, mkIssue None (at_intent index "") "intent entry must be an object" :: issues)
      end
  end.

Abbreviation rows := (list (string * list (nat * list (string * json)))) (only parsing).

(** [id_to_rows.setdefault(id, []).append(row)]. *)
Fixpoint append_row (id : string) (row : nat * dict) (r : rows) : rows :=
  match r with
  | [] => [(id, [row])]
  | (k, l) :: r => if decide (id = k) then (k, l ++ [row]) :: r else (k, l) :: append_row id row r
  end.

Fixpoint rows_by_id (intents : list (nat * dict)) (r : rows) : rows * list IntentTreeIssue :=
  match intents with
  | [] => (r, [])
  | (index, intent) :: intents =>
      match as_name (jget "id" intent) with
      | Some id => rows_by_id intents (append_row id (index, intent) r)
      | None =>
          let '(r, issues) := rows_by_id intents r in
          (r, mkIssue None (at_intent index ".id") "missing or invalid id" :: issues)
      end
  end.

Definition duplicate_issues (r : rows) : list IntentTreeIssue :=
  r ≫= λ idr,
    match idr.2 with
    | _ :: _ :: _ => (λ row, mkIssue (Some idr.1) (at_intent row.1 ".id") ("duplicate id '" +:+ idr.1 +:+ "'")) <$> idr.2
    | _ => []
    end.

(** What the links of the intents add up to. *)
Record links_seen : Type := mkSeen {
  ls_issues : list IntentTreeIssue;
  ls_parent_of : list (string * string);
  ls_roots : list (string * string)
}.

Definition related_issues (id link_path : string) (ids : list string) (related : list json) : list IntentTreeIssue :=
  mjoin (imap (λ ridx item,
    let at_item := link_path +:+ ".related_intents[" +:+ pretty ridx +:+ "]" in
    match as_name item with
    | None => [mkIssue (Some id) at_item "related intent id must be a non-empty string"]
    | Some rid =>
        if String.eqb rid id then [mkIssue (Some id) at_item "related_intents must not reference self"]
        else if negb (bool_decide (rid ∈ ids)) then [mkIssue (Some id) at_item ("related intent '" +:+ rid +:+ "' does not exist")]
        else []
    end) related).

(** The parent of an intent: an issue, an entry of [parent_of] or of the list
    of roots. *)
Definition parent_link (id link_path : string) (ids : list string) (parent : json) (s : links_seen) : links_seen :=
  let at_parent := link_path +:+ ".parent_intent" in
  match parent with
  | JNull => mkSeen (ls_issues s) (ls_parent_of s) (ls_roots s ++ [(id, at_parent)])
  | _ =>
      match as_name parent with
      | None => mkSeen (ls_issues s ++ [mkIssue (Some id) at_parent "parent_intent must be a non-empty string or null"]) (ls_parent_of s) (ls_roots s)
      | Some p =>
          if bool_decide (p ∈ ids) then mkSeen (ls_issues s) (ls_parent_of s ++ [(id, p)]) (ls_roots s)
          else mkSeen (ls_issues s ++ [mkIssue (Some id) at_parent ("parent_intent '" +:+ p +:+ "' does not exist")]) (ls_parent_of s) (ls_roots s)
      end
  end.

Definition see_links (ids : list string) (s : links_seen) (idr : string * list (nat * dict)) : links_seen :=
  match idr.2 with
  | [(index, intent)] =>
      let '(links, link_path) := _extract_trace_links intent index in
      let s := parent_link idr.1 link_path ids (jget "parent_intent" links) s in
      match as_array (get_or "related_intents" (JArr []) links) with
      | None => mkSeen (ls_issues s ++ [mkIssue (Some idr.1) (link_path +:+ ".related_intents") "related_intents must be an array"]) (ls_parent_of s) (ls_roots s)
      | Some related => mkSeen (ls_issues s ++ related_issues idr.1 link_path ids related) (ls_parent_of s) (ls_roots s)
      end
  | _ => s
  end.

Definition root_issues (roots : list (string * string)) : list IntentTreeIssue :=
  let roots := sort_items roots in
  match roots with
  | [] => [mkIssue None "intents" "missing root intent: exactly one intent without parent_intent is required"]
  | [_] => []
  | _ :: others =>
      mkIssue None "intents" ("multiple roots detected: " +:+ String.concat ", " roots.*1) ::
      ((λ r, mkIssue (Some r.1) r.2 "non-root intent must define parent_intent") <$> others)
  end.

(** The part of the path from the first [x] on. *)
Fixpoint from_first (x : string) (l : list string) : list string :=
  match l with
  | [] => []
  | y :: l' => if decide (x = y) then l else from_first x l'
  end.

(** The walk to the parents; marks are 1 on the path and 2 when done. *)
Fixpoint climb (fuel : nat) (parent_of : list (string * string)) (path : list string) (marks : gmap string nat) (node : string)
  : option (gmap string nat * list IntentTreeIssue) :=
  match fuel with
  | O => None
  | S fuel =>
      match marks !! node with
      | Some 2 => Some (marks, [])
      | Some 1 =>
          let cycle := (if decide (node ∈ path) then from_first node path else path) ++ [node] in
          Some (marks, [mkIssue (Some node) "intents[*].trace_links.parent_intent"
                          ("parent_intent cycle detected: " +:+ String.concat " -> " cycle)])
      | _ =>
          let marks := <[node := 1]> marks in
          match alookup node parent_of with
          | Some parent =>
              '(marks, issues) ← climb fuel parent_of (path ++ [node]) marks parent;
              Some (<[node := 2]> marks, issues)
          | None => Some (<[node := 2]> marks, [])
          end
      end
  end.

Fixpoint climb_all (fuel : nat) (parent_of : list (string * string)) (marks : gmap string nat) (nodes : list string) : option (list IntentTreeIssue) :=
  match nodes with
  | [] => Some []
  | node :: nodes =>
      '(marks, issues) ← climb fuel parent_of [] marks node;
      rest ← climb_all fuel parent_of marks nodes;
      Some (issues ++ rest)
  end.

Definition leaf_issues (parent_of : list (string * string)) (r : rows) : list IntentTreeIssue :=
  r ≫= λ idr,
    match idr.2 with
    | [(index, intent)] =>
        if bool_decide (idr.1 ∈ parent_of.*2) then []
        else if _has_success_criteria intent then []
        else [mkIssue (Some idr.1) (at_intent index ".success_criteria") "leaf intent must define success_criteria"]
    | _ => []
    end.

(** Order of the sort key [(intent_id or "", path, message)]. *)
Definition issue_le (a b : IntentTreeIssue) : Prop :=
  let ka := default "" (ii_intent_id a) in
  let kb := default "" (ii_intent_id b) in
  if decide (ka = kb) then
    if decide (ii_path a = ii_path b) then str_le (ii_message a) (ii_message b) else str_le (ii_path a) (ii_path b)
  else str_le ka kb.

#[export] Instance issue_le_dec a b : Decision (issue_le a b).
Proof. unfold issue_le. repeat case_decide; apply _. Defined.

Definition validate_intent_tree (payload : dict) : option (list IntentTreeIssue) :=
  match _extract_intents payload with
  | None => Some [mkIssue None "intents" "missing intents array"]
  | Some raw =>
      let '(intents, i1) := split_entries 0 raw in
      let '(r, i2) := rows_by_id intents [] in
      let ids := r.*1 in
      let seen := foldl (see_links ids) (mkSeen [] [] []) r in
      i3 ← climb_all (S (length ids)) (ls_parent_of seen) ∅ (sort_strings ids);
      Some (merge_sort issue_le
        (i1 ++ i2 ++ duplicate_issues r ++ ls_issues seen ++ root_issues (ls_roots seen) ++ i3 ++ leaf_issues (ls_parent_of seen) r))
  end.

(** ** What a tree of intents is *)

(** The links of an intent. *)
Definition links_of (intent : dict) : dict := (_extract_trace_links intent 0).1.

Definition parent_ref (intent : dict) : json := jget "parent_intent" (links_of intent).

(** The nodes of a document: its intents under their ids. *)
Abbreviation nodes_t := (list (string * list (string * json))) (only parsing).

Definition parent_in (nodes : nodes_t) (child parent : string) : Prop :=
  ∃ m, (child, m) ∈ nodes ∧ parent_ref m = JStr parent.

Inductive descends (nodes : nodes_t) (root : string) : string → Prop :=
| descends_root : descends nodes root root
| descends_child id p : parent_in nodes id p → descends nodes root p → descends nodes root id.

(** The related intents of a node: other intents of the document. *)
Definition related_ok (ids : list string) (id : string) (m : dict) : Prop :=
  ∃ related, get_or "related_intents" (JArr []) (links_of m) = JArr (JStr <$> related) ∧
    Forall (λ r, r ≠ "" ∧ r ≠ id ∧ r ∈ ids) related.

(** One root, from which every intent descends; leaves say when they are
    reached. *)
Record rooted_tree (nodes : nodes_t) : Prop := {
  rt_distinct : NoDup nodes.*1;
  rt_named : "" ∉ nodes.*1;
  rt_related id m : (id, m) ∈ nodes → related_ok nodes.*1 id m;
  rt_root : ∃ root, root ∈ nodes.*1 ∧
    (∀ id m, (id, m) ∈ nodes → if decide (id = root) then parent_ref m = JNull else ∃ p, parent_ref m = JStr p ∧ p ∈ nodes.*1) ∧
    (∀ id, id ∈ nodes.*1 → descends nodes root id);
  rt_leaves id m : (id, m) ∈ nodes → (∀ c, ¬ parent_in nodes c id) → _has_success_criteria m = true
}.

Definition is_intent_tree (raw : list json) : Prop :=
  ∃ nodes : nodes_t, raw = (λ n, JObj n.2) <$> nodes ∧ Forall (λ n, jget "id" n.2 = JStr n.1) nodes ∧ rooted_tree nodes.

(** ** Entries and rows *)

Lemma as_name_Some v s : as_name v = Some s ↔ v = JStr s ∧ s ≠ "".
Proof. unfold as_name. destruct v; try naive_solver. destruct (String.eqb_spec s0 ""); naive_solver. Qed.

Lemma as_mapping_Some v m : as_mapping v = Some m ↔ v = JObj m.
Proof. destruct v; cbn; naive_solver. Qed.

Lemma split_entries_objects (l : list dict) i : split_entries i (JObj <$> l) = (imap (λ k m, (i + k, m)) l, []).
Proof.
  revert i. induction l as [|m l IH]; intros i; [done|]. csimpl. cbn [split_entries]. rewrite IH. cbn [as_mapping]. f_equal. f_equal; [f_equal; lia|].
  apply imap_ext. intros k x _. cbn. f_equal. lia.
Qed.

Lemma split_entries_spec raw i :
  (split_entries i raw).2 = [] ↔ ∃ l : list dict, raw = JObj <$> l ∧ (split_entries i raw).1 = imap (λ k m, (i + k, m)) l.
Proof.
  revert i. induction raw as [|item raw IH]; intros i; cbn [split_entries].
  { split; [intros _; by exists []|done]. }
  specialize (IH (S i)). destruct (split_entries (S i) raw) as [intents issues]. cbn [fst snd] in IH.
  destruct (as_mapping item) as [m|] eqn:Em; cbn [fst snd].
  - apply as_mapping_Some in Em as ->. rewrite IH. split.
    + intros (l & -> & ->). exists (m :: l). split; [done|]. cbn. rewrite Nat.add_0_r. f_equal. apply imap_ext. intros k x _. cbn. f_equal. lia.
    + intros ([|m' l] & [=] & Hs). subst. exists l. split; [done|]. cbn in Hs. injection Hs as _ ->. apply imap_ext. intros k x _. cbn. f_equal. lia.
  - split; [done|]. intros ([|m' l] & [=] & _). subst. done.
Qed.

(** The intents with a name. *)
Definition named_row (x : nat * dict) : option (string * (nat * dict)) := (λ id, (id, x)) <$> as_name (jget "id" x.2).

Lemma rows_by_id_spec intents r :
  (rows_by_id intents r).1 = foldl (λ r x, append_row x.1 x.2 r) r (omap named_row intents) ∧
  ((rows_by_id intents r).2 = [] ↔ Forall (λ x, is_Some (as_name (jget "id" x.2))) intents).
Proof.
  revert r. induction intents as [|[i m] intents IH]; intros r; cbn [rows_by_id omap list_omap]; [by split|].
  unfold named_row at 1. cbn [snd]. destruct (as_name (jget "id" m)) as [id|] eqn:Eid; cbn [fmap option_fmap option_map].
  - cbn [foldl fst snd]. destruct (IH (append_row id (i, m) r)) as [H1 H2]. split; [done|]. rewrite H2, Forall_cons. cbn [snd]. rewrite Eid. naive_solver.
  - destruct (IH r) as [H1 H2]. destruct (rows_by_id intents r) as [r' issues]. cbn in *. split; [done|]. split; [done|].
    rewrite Forall_cons. cbn [snd]. rewrite Eid. by intros [[? ?] _].
Qed.

(** The rows with their ids. *)
Definition flat (r : rows) : list (string * (nat * dict)) := r ≫= λ idr, (λ row, (idr.1, row)) <$> idr.2.

Lemma add_row_flat id row r : flat (append_row id row r) ≡ₚ flat r ++ [(id, row)].
Proof.
  unfold flat. induction r as [|[k l] r IH]; cbn [append_row]; [done|]. destruct (decide (id = k)) as [->|Hne]; csimpl.
  - rewrite fmap_app. cbn. solve_Permutation.
  - rewrite IH. by rewrite app_assoc.
Qed.

Lemma add_row_keys id row r : (append_row id row r).*1 = if decide (id ∈ r.*1) then r.*1 else r.*1 ++ [id].
Proof.
  induction r as [|[k l] r IH]; cbn [append_row]; [done|]. destruct (decide (id = k)) as [->|Hne]; csimpl.
  - rewrite decide_True by (by left). done.
  - rewrite IH. destruct (decide (id ∈ r.*1)), (decide (id ∈ k :: r.*1)) as [Hin|Hin]; [done| | |done].
    + exfalso. apply Hin. by right.
    + apply elem_of_cons in Hin as [?|?]; done.
Qed.

Definition rows_of (v : list (string * (nat * dict))) : rows := foldl (λ r x, append_row x.1 x.2 r) [] v.

Lemma rows_fold_spec v r : NoDup r.*1 →
  flat (foldl (λ r x, append_row x.1 x.2 r) r v) ≡ₚ flat r ++ v ∧ NoDup (foldl (λ r x, append_row x.1 x.2 r) r v).*1.
Proof.
  revert r. induction v as [|[id row] v IH]; intros r Hr; cbn [foldl]; [by rewrite app_nil_r|].
  destruct (IH (append_row id row r)) as [H1 H2].
  - rewrite add_row_keys. destruct (decide (id ∈ r.*1)); [done|]. apply NoDup_app. split_and!; [done|set_solver|apply NoDup_singleton].
  - split; [|done]. rewrite H1. cbn [fst snd]. rewrite add_row_flat. solve_Permutation.
Qed.

Lemma add_row_new id row r : id ∉ r.*1 → append_row id row r = r ++ [(id, [row])].
Proof. induction r as [|[k l] r IH]; csimpl; [done|]. intros [Hne Hr]%not_elem_of_cons. rewrite decide_False by done. by rewrite IH. Qed.

Definition single (x : string * (nat * dict)) : string * list (nat * dict) := (x.1, [x.2]).

Lemma rows_distinct v r : NoDup (r.*1 ++ v.*1) → foldl (λ r x, append_row x.1 x.2 r) r v = r ++ (single <$> v).
Proof.
  revert r. induction v as [|[id row] v IH]; intros r Hr; cbn [foldl]; [by rewrite app_nil_r|].
  cbn [fst snd]. rewrite add_row_new. 2: { apply NoDup_app in Hr as (_ & Hd & _). intros Hin. apply (Hd id Hin). csimpl. by left. }
  rewrite IH. { by rewrite <-app_assoc. } rewrite fmap_app, <-app_assoc. exact Hr.
Qed.

(** No id twice exactly when no duplicate is reported. *)
Lemma duplicate_issues_spec v : duplicate_issues (rows_of v) = [] ↔ NoDup v.*1.
Proof.
  split.
  - intros Hd. destruct (rows_fold_spec v []) as [Hf Hnd]; [constructor|]. fold (rows_of v) in Hf, Hnd. cbn in Hf.
    assert (∀ idr, idr ∈ rows_of v → length idr.2 ≤ 1) as Hlen.
    { intros [id l] Hin. destruct l as [|a [|b l]]; cbn; [lia..|]. exfalso.
      assert (mkIssue (Some id) (at_intent a.1 ".id") ("duplicate id '" +:+ id +:+ "'") ∈ duplicate_issues (rows_of v)) as Hx.
      { apply list_elem_of_bind. exists (id, a :: b :: l). split; [csimpl; by left|done]. }
      rewrite Hd in Hx. by apply not_elem_of_nil in Hx. }
    rewrite <-Hf. revert Hnd Hlen. generalize (rows_of v). clear. intros r. unfold flat.
    induction r as [|[id l] r IH]; csimpl; [constructor|]. intros [Hn Hnd]%NoDup_cons Hlen. rewrite fmap_app. apply NoDup_app. split_and!.
    + specialize (Hlen (id, l) ltac:(by left)). cbn in Hlen. destruct l as [|a [|b l]]; cbn in *; [constructor|apply NoDup_singleton|lia].
    + intros x Hx Hy. apply Hn. rewrite <-list_fmap_compose in Hx. apply list_elem_of_fmap in Hx as (row & Hx & _). cbn in Hx. subst x.
      apply list_elem_of_fmap in Hy as ([k row'] & Hk0 & Hb). cbn in Hk0. subst k. apply list_elem_of_bind in Hb as ([k' l'] & Hk & Hr).
      apply list_elem_of_fmap in Hk as (? & [= -> ->] & _). apply list_elem_of_fmap. by exists (k', l').
    + apply IH; [done|]. intros idr Hi. apply Hlen. by right.
  - intros Hnd. unfold rows_of. rewrite rows_distinct by done. cbn. unfold duplicate_issues. induction v as [|[id row] v IH]; [done|].
    csimpl. apply IH. csimpl in Hnd. by apply NoDup_cons in Hnd as [_ ?].
Qed.

(** ** Cycles of parents *)

Section climbing.
Context (parent_of : list (string * string)) (ids : list string).
Hypothesis parents_known : ∀ x p, alookup x parent_of = Some p → p ∈ ids.

(** The way up ends. *)
Inductive grounded : string → Prop :=
| grounded_root x : alookup x parent_of = None → grounded x
| grounded_child x p : alookup x parent_of = Some p → grounded p → grounded x.

Definition above (x p : string) : Prop := alookup x parent_of = Some p.

Lemma grounded_acyclic x : grounded x → ¬ tc above x x.
Proof.
  induction 1 as [x Hx|x p Hx _ IH]; intros Hc.
  - inversion Hc; unfold above in *; congruence.
  - apply IH. inversion Hc as [? ? Hy|? z ? Hy Ht]; subst; unfold above in Hy.
    + assert (p = x) as -> by congruence. done.
    + assert (z = p) as -> by (unfold above in *; congruence). eapply tc_r; [done|]. by unfold above.
Qed.

Definition marked (path : list string) (marks : gmap string nat) : Prop :=
  (∀ x, marks !! x = Some 1 ↔ x ∈ path) ∧ (∀ x k, marks !! x = Some k → k = 1 ∨ k = 2).

Lemma marked_push path marks node : marked path marks → marked (path ++ [node]) (<[node := 1]> marks).
Proof.
  intros [H1 H2]. split.
  - intros x. destruct (decide (x = node)) as [->|Hne]; [rewrite lookup_insert_eq; set_solver|].
    rewrite lookup_insert_ne by done. rewrite H1. set_solver.
  - intros x k. destruct (decide (x = node)) as [->|Hne]; [rewrite lookup_insert_eq; intros [= <-]; by left|].
    rewrite lookup_insert_ne by done. apply H2.
Qed.

Lemma marked_pop path marks node : node ∉ path → marked (path ++ [node]) marks → marked path (<[node := 2]> marks).
Proof.
  intros Hn [H1 H2]. split.
  - intros x. destruct (decide (x = node)) as [->|Hne]; [rewrite lookup_insert_eq; split; [done|by intros ?]|].
    rewrite lookup_insert_ne by done. rewrite H1. set_solver.
  - intros x k. destruct (decide (x = node)) as [->|Hne]; [rewrite lookup_insert_eq; intros [= <-]; by right|].
    rewrite lookup_insert_ne by done. apply H2.
Qed.

Definition done_grounded (marks : gmap string nat) : Prop := ∀ x, marks !! x = Some 2 → grounded x.

Lemma climb_spec fuel path marks node :
  marked path marks → NoDup path → path ⊆ ids → node ∈ ids → length ids < fuel + length path →
  ∃ marks' issues, climb fuel parent_of path marks node = Some (marks', issues) ∧ marked path marks' ∧
    (issues = [] → marks' !! node = Some 2 ∧ (done_grounded marks → done_grounded marks')) ∧
    (grounded node → (∀ y, y ∈ path → tc above y node) → issues = []).
Proof.
  revert path marks node. induction fuel as [|fuel IH]; intros path marks node Hm Hnd Hsub Hin Hf.
  { exfalso. pose proof (submseteq_length path ids (NoDup_submseteq _ _ Hnd Hsub)). lia. }
  cbn [climb]. assert (marks !! node = None ∨ marks !! node = Some 1 ∨ marks !! node = Some 2) as [E|[E|E]].
  { destruct (marks !! node) as [k|] eqn:E; [|auto]. destruct (proj2 Hm _ _ E) as [-> | ->]; auto. }
  - rewrite E. assert (node ∉ path) as Hnp by (intros Hp; apply (proj1 Hm) in Hp; congruence).
    assert (∀ marks1, marked (path ++ [node]) marks1 → done_grounded marks1 → grounded node → done_grounded (<[node := 2]> marks1)) as Hdone.
    { intros marks1 Hm1 Hd Hg x. destruct (decide (x = node)) as [->|]; [done|]. rewrite lookup_insert_ne by done. apply Hd. }
    assert (done_grounded marks → done_grounded (<[node := 1]> marks)) as Hpush.
    { intros Hd x. destruct (decide (x = node)) as [->|]; [by rewrite lookup_insert_eq|]. rewrite lookup_insert_ne by done. apply Hd. }
    destruct (alookup node parent_of) as [p|] eqn:Ep.
    + destruct (IH (path ++ [node]) (<[node := 1]> marks) p) as (marks' & issues & -> & Hm' & Hi & Hg).
      * by apply marked_push.
      * apply NoDup_app. split_and!; [done|set_solver|apply NoDup_singleton].
      * set_solver.
      * by eapply parents_known.
      * rewrite length_app. cbn. lia.
      * exists (<[node := 2]> marks'), issues. split; [done|]. split; [by apply marked_pop|]. split.
        { intros Hno. destruct (Hi Hno) as [H2 Hd]. split; [apply lookup_insert_eq|]. intros Hd0.
          apply Hdone; [done|auto|]. eapply grounded_child; [done|]. apply Hd; auto. }
        { intros Hgn Habove. apply Hg.
          - inversion Hgn; [congruence|]. by assert (p0 = p) as -> by congruence.
          - intros y [Hy|Hy%list_elem_of_singleton]%elem_of_app; [|subst y; by apply tc_once].
            eapply tc_r; [by apply Habove|done]. }
    + exists (<[node := 2]> (<[node := 1]> marks)), []. split; [done|]. split; [by apply marked_pop, marked_push|]. split; [|done].
      intros _. split; [apply lookup_insert_eq|]. intros Hd. apply Hdone; [by apply marked_push|auto|by apply grounded_root].
  - rewrite E. eexists _, _. split; [done|]. split; [done|]. split; [done|]. intros Hg Habove.
    exfalso. apply (grounded_acyclic _ Hg), Habove. by apply (proj1 Hm).
  - rewrite E. eexists _, _. split; [done|]. split; [done|]. split; [|done]. intros _. by split.
Qed.

Lemma climb_all_total nodes marks :
  marked [] marks → nodes ⊆ ids → is_Some (climb_all (S (length ids)) parent_of marks nodes).
Proof.
  revert marks. induction nodes as [|node nodes IH]; intros marks Hm Hsub; cbn [climb_all]; [by eexists|].
  destruct (climb_spec (S (length ids)) [] marks node Hm) as (marks' & issues & -> & Hm' & _);
    [constructor|set_solver|set_solver|cbn; lia|]. cbn [mbind option_bind].
  destruct (IH marks' Hm' ltac:(set_solver)) as [rest ->]. cbn. by eexists.
Qed.

Lemma climb_all_spec nodes marks :
  marked [] marks → nodes ⊆ ids → done_grounded marks →
  ∃ issues, climb_all (S (length ids)) parent_of marks nodes = Some issues ∧
    ((∀ x, x ∈ nodes → grounded x) ↔ issues = []).
Proof.
  revert marks. induction nodes as [|node nodes IH]; intros marks Hm Hsub Hd; cbn [climb_all].
  { exists []. split; [done|]. split; [done|]. intros _ x ?%not_elem_of_nil. done. }
  destruct (climb_spec (S (length ids)) [] marks node Hm) as (marks' & issues & -> & Hm' & Hi & Hg);
    [constructor|set_solver|set_solver|cbn; lia|]. cbn [mbind option_bind].
  destruct issues as [|i issues].
  - destruct (Hi eq_refl) as [H2 Hd']. destruct (IH marks' Hm' ltac:(set_solver) (Hd' Hd)) as (rest & -> & Hr). exists rest. split; [done|].
    rewrite <-Hr. split; [intros H x Hx; apply H; by right|]. intros H x [->|Hx]%elem_of_cons; [by apply (Hd' Hd)|by apply H].
  - destruct (climb_all_total nodes marks' Hm' ltac:(set_solver)) as [rest ->]. cbn. eexists. split; [done|]. split; [|done].
    intros H. assert (i :: issues = []); [|done]. apply Hg; [apply H; by left|]. by intros y ?%not_elem_of_nil.
Qed.
End climbing.

(** ** Links *)

Lemma links_of_index m i : (_extract_trace_links m i).1 = links_of m.
Proof. unfold links_of, _extract_trace_links. repeat case_match; done. Qed.

Definition parent_issues (ids : list string) (id link_path : string) (parent : json) : list IntentTreeIssue :=
  ls_issues (parent_link id link_path ids parent (mkSeen [] [] [])).

Definition link_issues (ids : list string) (x : string * (nat * dict)) : list IntentTreeIssue :=
  let link_path := (_extract_trace_links x.2.2 x.2.1).2 in
  parent_issues ids x.1 link_path (parent_ref x.2.2) ++
  match as_array (get_or "related_intents" (JArr []) (links_of x.2.2)) with
  | None => [mkIssue (Some x.1) (link_path +:+ ".related_intents") "related_intents must be an array"]
  | Some related => related_issues x.1 link_path ids related
  end.

Definition link_parent (ids : list string) (x : string * (nat * dict)) : list (string * string) :=
  match parent_ref x.2.2 with
  | JNull => []
  | v => match as_name v with Some p => if bool_decide (p ∈ ids) then [(x.1, p)] else [] | None => [] end
  end.

Definition link_root (x : string * (nat * dict)) : list (string * string) :=
  match parent_ref x.2.2 with JNull => [(x.1, (_extract_trace_links x.2.2 x.2.1).2 +:+ ".parent_intent")] | _ => [] end.

Lemma see_links_single ids s x :
  see_links ids s (single x) =
  mkSeen (ls_issues s ++ link_issues ids x) (ls_parent_of s ++ link_parent ids x) (ls_roots s ++ link_root x).
Proof.
  destruct x as [id [i m]]. unfold see_links, single, link_issues, link_parent, link_root, parent_issues, parent_ref. cbn [fst snd].
  rewrite <-(links_of_index m i). destruct (_extract_trace_links m i) as [links path]. cbn [fst snd].
  unfold parent_link. destruct (jget "parent_intent" links); destruct (as_array _); cbn [ls_issues ls_parent_of ls_roots as_name];
    repeat case_match; simplify_eq; cbn [ls_issues ls_parent_of ls_roots]; rewrite ?app_nil_r, ?app_nil_l, <-?app_assoc; try done; cbn; try congruence.
Qed.

Lemma see_links_all ids s v :
  foldl (see_links ids) s (single <$> v) =
  mkSeen (ls_issues s ++ (v ≫= link_issues ids)) (ls_parent_of s ++ (v ≫= link_parent ids)) (ls_roots s ++ (v ≫= link_root)).
Proof.
  revert s. induction v as [|x v IH]; intros s; csimpl; [by destruct s; cbn; rewrite !app_nil_r|].
  rewrite see_links_single, IH. cbn. by rewrite <-!app_assoc.
Qed.

Lemma bind_nil_iff {A B} (f : A → list B) l : l ≫= f = [] ↔ ∀ x, x ∈ l → f x = [].
Proof.
  induction l as [|a l IH]; csimpl; [split; [by intros _ x ?%not_elem_of_nil|done]|]. rewrite app_nil, IH. split.
  - intros [H1 H2] x [->|Hx]%elem_of_cons; auto.
  - intros H. split; [apply H; by left|]. intros x Hx. apply H. by right.
Qed.

Lemma parent_issues_nil ids id path v :
  "" ∉ ids → parent_issues ids id path v = [] ↔ v = JNull ∨ ∃ p, v = JStr p ∧ p ∈ ids.
Proof.
  intros Hn. unfold parent_issues, parent_link. destruct v; cbn [as_name ls_issues]; try naive_solver.
  destruct (String.eqb_spec s "") as [->|Hs]; cbn [ls_issues app].
  - split; [done|]. intros [?|(p & [= <-] & ?)]; done.
  - destruct (bool_decide_reflect (s ∈ ids)); cbn [ls_issues app]; [naive_solver|]. split; [done|]. intros [?|(p & [= <-] & ?)]; done.
Qed.

Lemma related_issues_nil ids id path related :
  "" ∉ ids → related_issues id path ids related = [] ↔
  ∃ names, related = JStr <$> names ∧ Forall (λ r, r ≠ "" ∧ r ≠ id ∧ r ∈ ids) names.
Proof.
  intros Hn. unfold related_issues. set (f := λ (ridx : nat) (item : json), _).
  assert (∀ i v, f i v = [] ↔ ∃ r, v = JStr r ∧ r ≠ "" ∧ r ≠ id ∧ r ∈ ids) as Hf.
  { intros i v. unfold f. destruct (as_name v) as [r|] eqn:E.
    - apply as_name_Some in E as [-> Hr]. destruct (String.eqb_spec r id) as [->|Hne]; [naive_solver|].
      destruct (bool_decide_reflect (r ∈ ids)); cbn [negb]; naive_solver.
    - split; [done|]. intros (r & -> & Hr & _). assert (as_name (JStr r) = Some r) by (by apply as_name_Some). congruence. }
  clearbody f. revert f Hf. induction related as [|v related IH]; intros f Hf.
  { split; [intros _; by exists []|done]. }
  rewrite imap_cons. cbn [mjoin list_join]. rewrite app_nil, Hf, (IH (f ∘ S)) by (intros; apply Hf). split.
  - intros [(r & -> & Hr) (names & -> & Hall)]. exists (r :: names). split; [done|]. by constructor.
  - intros ([|r names] & [=] & Hall); subst. apply Forall_cons in Hall as [Hr Hall]. naive_solver.
Qed.

Lemma link_issues_nil ids x :
  "" ∉ ids → link_issues ids x = [] ↔
  (parent_ref x.2.2 = JNull ∨ ∃ p, parent_ref x.2.2 = JStr p ∧ p ∈ ids) ∧ related_ok ids x.1 x.2.2.
Proof.
  intros Hn. unfold link_issues. rewrite app_nil, parent_issues_nil by done. f_equiv. unfold related_ok.
  destruct (get_or "related_intents" (JArr []) (links_of x.2.2)) as [| | | | |l|] eqn:E; cbn [as_array]; try (split; [done|by intros (? & [=] & _)]).
  rewrite related_issues_nil by done. naive_solver.
Qed.

(** ** The document as a tree *)

Definition nodes_of (v : list (string * (nat * dict))) : nodes_t := (λ x, (x.1, x.2.2)) <$> v.

Lemma nodes_of_keys v : (nodes_of v).*1 = v.*1.
Proof. unfold nodes_of. rewrite <-list_fmap_compose. done. Qed.

Lemma elem_of_nodes v id m : (id, m) ∈ nodes_of v ↔ ∃ i, (id, (i, m)) ∈ v.
Proof.
  unfold nodes_of. rewrite list_elem_of_fmap. split.
  - intros ([id' [i m']] & [= -> ->] & H). by exists i.
  - intros (i & H). by exists (id, (i, m)).
Qed.

Lemma singleton_iff (l : list string) x : NoDup l → l = [x] ↔ ∀ y, y ∈ l ↔ y = x.
Proof.
  intros Hnd. split; [intros -> y; by rewrite list_elem_of_singleton|]. intros H. destruct l as [|a l].
  - exfalso. by apply (not_elem_of_nil x), H.
  - assert (a = x) as -> by (apply H; by left). f_equal. apply NoDup_cons in Hnd as [Hx _].
    apply elem_of_nil_inv. intros y Hy. apply Hx. by assert (y = x) as <- by (apply H; by right).
Qed.

Section document.
Context (v : list (string * (nat * dict))).
Hypothesis distinct : NoDup v.*1.
Hypothesis named : "" ∉ v.*1.

Let ids : list string := v.*1.
Let parents : list (string * string) := v ≫= link_parent ids.

Lemma same_row id r r' : (id, r) ∈ v → (id, r') ∈ v → r = r'.
Proof. intros H H'. apply (alookup_NoDup _ _ _ distinct) in H, H'. congruence. Qed.

Lemma parents_lookup id p : alookup id parents = Some p ↔ parent_in (nodes_of v) id p ∧ p ∈ ids.
Proof.
  assert (∀ x, x ∈ parents ↔ ∃ i m, (x.1, (i, m)) ∈ v ∧ parent_ref m = JStr x.2 ∧ x.2 ∈ ids) as Hp.
  { intros [a b]. unfold parents. rewrite list_elem_of_bind. unfold link_parent. cbn [fst snd]. split.
    - intros ([a' [i m]] & Hx & Hin). exists i, m. cbn [fst snd] in Hx. destruct (as_name (parent_ref m)) as [q|] eqn:E.
      + pose proof (proj1 (proj1 (as_name_Some _ _) E)) as E'. rewrite E' in Hx, E |- *. rewrite E in Hx. destruct (bool_decide_reflect (q ∈ ids)); [|by apply not_elem_of_nil in Hx].
        apply list_elem_of_singleton in Hx as [= -> ->]. done.
      + destruct (parent_ref m); rewrite ?E in Hx; by apply not_elem_of_nil in Hx.
    - intros (i & m & Hin & Hr & Hb). exists (a, (i, m)). split; [|done]. cbn [fst snd]. rewrite Hr.
      assert (as_name (JStr b) = Some b) as -> by (apply as_name_Some; split; [done|]; intros ->; done).
      rewrite bool_decide_true by done. by left. }
  assert (NoDup parents.*1) as Hnd.
  { unfold parents. clear Hp. revert distinct. generalize ids. clear. intros ids. induction v as [|[a [i m]] l IH]; csimpl; [constructor|].
    intros [Ha Hnd]%NoDup_cons. rewrite fmap_app. apply NoDup_app. split_and!; [| |by apply IH].
    - unfold link_parent. cbn [fst snd]. destruct (parent_ref m); repeat case_match; first [apply NoDup_singleton|constructor].
    - intros y Hy Hy'. apply Ha. assert (y = a) as ->.
      { unfold link_parent in Hy. cbn [fst snd] in Hy. destruct (parent_ref m); repeat case_match; set_solver. }
      apply list_elem_of_fmap in Hy' as ([b q] & Hb & Hx). cbn in Hb. subst b. apply list_elem_of_bind in Hx as ([b [j n]] & Hx & Hin).
      apply list_elem_of_fmap. exists (b, (j, n)). split; [|done]. unfold link_parent in Hx. cbn [fst snd] in Hx |- *.
      destruct (parent_ref n); repeat case_match; set_solver. }
  split.
  - intros H%alookup_elem_of. apply Hp in H as (i & m & Hin & Hr & Hb). split; [|done]. exists m. split; [|done]. apply elem_of_nodes. eauto.
  - intros [(m & (i & Hin)%elem_of_nodes & Hr) Hb]. apply alookup_NoDup; [done|]. apply Hp. eauto.
Qed.

Lemma roots_one :
  root_issues (v ≫= link_root) = [] ↔
  ∃ root, root ∈ ids ∧ ∀ id i m, (id, (i, m)) ∈ v → parent_ref m = JNull ↔ id = root.
Proof.
  assert (root_issues (v ≫= link_root) = [] ↔ ∃ x, (v ≫= link_root).*1 = [x]) as ->.
  { unfold root_issues. pose proof (sort_items_perm (v ≫= link_root)) as Hp. destruct (sort_items _) as [|a [|b l]].
    - apply Permutation_nil_l in Hp. rewrite <-Hp. split; [done|]. by intros (x & [=]).
    - apply Permutation_singleton_l in Hp. rewrite <-Hp. split; [intros _; by exists a.1|done].
    - split; [done|]. intros (x & Hx). apply (f_equal length) in Hx. rewrite length_fmap, <-Hp in Hx. done. }
  assert (∀ y, y ∈ (v ≫= link_root).*1 ↔ ∃ i m, (y, (i, m)) ∈ v ∧ parent_ref m = JNull) as Hr.
  { intros y. rewrite list_elem_of_fmap. split.
    - intros ([a p] & -> & ([a' [i m]] & Hx & Hin)%list_elem_of_bind). unfold link_root in Hx. cbn [fst snd] in Hx |- *.
      destruct (parent_ref m) eqn:E; try by apply not_elem_of_nil in Hx. apply list_elem_of_singleton in Hx as [= -> ->]. eauto.
    - intros (i & m & Hin & E). exists (y, (_extract_trace_links m i).2 +:+ ".parent_intent"). split; [done|].
      apply list_elem_of_bind. exists (y, (i, m)). split; [|done]. unfold link_root. cbn [fst snd]. rewrite E. by left. }
  assert (NoDup (v ≫= link_root).*1) as Hnd.
  { clear Hr. revert distinct. clear. induction v as [|[a [i m]] l IH]; csimpl; [constructor|].
    intros [Ha Hnd]%NoDup_cons. rewrite fmap_app. apply NoDup_app. split_and!; [| |by apply IH].
    - unfold link_root. cbn [fst snd]. destruct (parent_ref m); first [apply NoDup_singleton|constructor].
    - intros y Hy Hy'. apply Ha. assert (y = a) as -> by (unfold link_root in Hy; cbn [fst snd] in Hy; destruct (parent_ref m); set_solver).
      apply list_elem_of_fmap in Hy' as ([b q] & Hb & Hx). cbn in Hb. subst b. apply list_elem_of_bind in Hx as ([b [j n]] & Hx & Hin).
      apply list_elem_of_fmap. exists (b, (j, n)). split; [|done]. unfold link_root in Hx. cbn [fst snd] in Hx |- *. destruct (parent_ref n); set_solver. }
  setoid_rewrite (singleton_iff _ _ Hnd). setoid_rewrite Hr. split.
  - intros (root & H). exists root. split.
    + destruct (proj2 (H root) eq_refl) as (i & m & Hin & _). apply list_elem_of_fmap. by exists (root, (i, m)).
    + intros id i m Hin. rewrite <-H. split; [eauto|]. intros (i' & m' & Hin' & E). by pose proof (same_row _ _ _ Hin Hin') as [= <- <-].
  - intros (root & Hroot & H). exists root. intros y. split.
    + intros (i & m & Hin & E). by apply (H y i m).
    + intros ->. apply list_elem_of_fmap in Hroot as ([a [i m]] & -> & Hin). exists i, m. split; [done|]. by apply (H a i m).
Qed.

Definition links_fine : Prop := ∀ id i m, (id, (i, m)) ∈ v → parent_ref m = JNull ∨ ∃ p, parent_ref m = JStr p ∧ p ∈ ids.

(** With one root and known parents, the way up ends exactly for the
    descendants of the root. *)
Lemma grounded_descends root :
  links_fine → (∀ id i m, (id, (i, m)) ∈ v → parent_ref m = JNull ↔ id = root) → root ∈ ids →
  ∀ id, id ∈ ids → grounded parents id ↔ descends (nodes_of v) root id.
Proof.
  intros Hf Hroot Hin id Hid. split.
  - intros Hg. revert Hid. induction Hg as [x Hx|x p Hx _ IH]; intros Hid.
    + apply list_elem_of_fmap in Hid as ([a [i m]] & -> & Ha). cbn [fst] in *. destruct (Hf _ _ _ Ha) as [E|(p & E & Hp)].
      * apply (Hroot _ _ _ Ha) in E as ->. constructor.
      * assert (alookup a parents = Some p); [|congruence]. apply parents_lookup. split; [|done]. exists m. split; [|done]. apply elem_of_nodes. eauto.
    + apply parents_lookup in Hx as [Hpar Hp]. eapply descends_child; [done|auto].
  - intros Hd. revert Hid. induction Hd as [|x p Hpar _ IH]; intros Hid.
    + apply grounded_root. destruct (alookup root parents) as [p|] eqn:E; [|done]. exfalso.
      apply parents_lookup in E as [(m & (i & Hm)%elem_of_nodes & Hp) _]. assert (parent_ref m = JNull) by (by apply (Hroot _ _ _ Hm)). congruence.
    + destruct Hpar as (m & Hm & Hp). pose proof Hm as (i & Hv)%elem_of_nodes. assert (p ∈ ids) as Hpi.
      { destruct (Hf _ _ _ Hv) as [?|(q & ? & ?)]; [congruence|]. by assert (q = p) as <- by congruence. }
      eapply grounded_child; [apply parents_lookup; split; [by exists m|done]|auto].
Qed.

Lemma leaf_issues_nil :
  links_fine → leaf_issues parents (single <$> v) = [] ↔
  ∀ id m, (id, m) ∈ nodes_of v → (∀ c, ¬ parent_in (nodes_of v) c id) → _has_success_criteria m = true.
Proof.
  intros Hf. assert (∀ id, id ∈ ids → id ∈ parents.*2 ↔ ∃ c, parent_in (nodes_of v) c id) as Hpar.
  { intros id Hid. split.
    - intros ([c p] & -> & Hc)%list_elem_of_fmap. exists c. cbn. unfold parents in Hc. apply list_elem_of_bind in Hc as ([a [i m]] & Hx & Ha).
      unfold link_parent in Hx. cbn [fst snd] in Hx. destruct (as_name (parent_ref m)) as [q|] eqn:E.
      + pose proof (proj1 (proj1 (as_name_Some _ _) E)) as E'. rewrite E' in Hx, E. rewrite E in Hx. case_bool_decide; [|by apply not_elem_of_nil in Hx].
        apply list_elem_of_singleton in Hx as [= -> ->]. exists m. split; [|done]. apply elem_of_nodes. eauto.
      + destruct (parent_ref m); rewrite ?E in Hx; by apply not_elem_of_nil in Hx.
    - intros (c & Hc). apply list_elem_of_fmap. exists (c, id). split; [done|]. apply alookup_elem_of, parents_lookup. done. }
  unfold leaf_issues. rewrite bind_nil_iff. split.
  - intros H id m (i & Hv)%elem_of_nodes Hno. specialize (H (single (id, (i, m)))). cbn in H.
    assert (id ∈ ids) as Hid by (apply list_elem_of_fmap; by exists (id, (i, m))).
    rewrite bool_decide_false in H by (rewrite Hpar by done; naive_solver).
    destruct (_has_success_criteria m); [done|]. exfalso. by discriminate H; apply list_elem_of_fmap; exists (id, (i, m)).
  - intros H x ([id [i m]] & -> & Hv)%list_elem_of_fmap. cbn. assert (id ∈ ids) as Hid by (apply list_elem_of_fmap; by exists (id, (i, m))).
    destruct (bool_decide_reflect (id ∈ parents.*2)) as [|Hn]; [done|]. rewrite H with (id := id); [done|apply elem_of_nodes; eauto|].
    intros c Hc. apply Hn, Hpar; eauto.
Qed.

(** The checks on links, roots, cycles and leaves find nothing exactly on a
    rooted tree. *)
Lemma tree_checks :
  ∃ i3, climb_all (S (length ids)) parents ∅ (sort_strings ids) = Some i3 ∧
    (v ≫= link_issues ids = [] ∧ root_issues (v ≫= link_root) = [] ∧ i3 = [] ∧ leaf_issues parents (single <$> v) = [] ↔
     rooted_tree (nodes_of v)).
Proof.
  destruct (climb_all_spec parents ids) with (nodes := sort_strings ids) (marks := ∅ : gmap string nat) as (i3 & Hc & Hg).
  - intros x p Hx. by apply parents_lookup in Hx as [_ ?].
  - split; [intros x; rewrite lookup_empty; split; [done|by intros ?%not_elem_of_nil]|intros x k; by rewrite lookup_empty].
  - intros x. by rewrite elem_of_sort_strings.
  - intros x. by rewrite lookup_empty.
  - exists i3. split; [done|]. setoid_rewrite elem_of_sort_strings in Hg. rewrite <-Hg, roots_one, bind_nil_iff.
    setoid_rewrite link_issues_nil; [|done]. pose proof nodes_of_keys v as Hkeys. split.
    + intros (Hl & (root & Hroot & Hr) & Hgr & Hleaf).
      assert (links_fine) as Hf by (intros id i m Hin; apply (Hl (id, (i, m)) Hin)).
      constructor; rewrite ?Hkeys; [done|done| | |by apply leaf_issues_nil].
      * intros id m (i & Hin)%elem_of_nodes. apply (Hl (id, (i, m)) Hin).
      * exists root. split; [done|]. split.
        -- intros id m (i & Hin)%elem_of_nodes. destruct (decide (id = root)) as [E|E]; [by apply (Hr _ _ _ Hin)|].
           destruct (Hf _ _ _ Hin) as [En|?]; [|done]. by apply (Hr _ _ _ Hin) in En.
        -- intros id Hid. by apply (grounded_descends root Hf Hr Hroot id Hid), Hgr.
    + intros [_ _ Hrel (root & Hroot & Hpar & Hdesc) Hleaf]. rewrite Hkeys in *.
      assert (links_fine) as Hf.
      { intros id i m Hin. specialize (Hpar id m). rewrite elem_of_nodes in Hpar. specialize (Hpar ltac:(eauto)).
        destruct (decide (id = root)); [by left|by right]. }
      assert (∀ id i m, (id, (i, m)) ∈ v → parent_ref m = JNull ↔ id = root) as Hr.
      { intros id i m Hin. specialize (Hpar id m). rewrite elem_of_nodes in Hpar. specialize (Hpar ltac:(eauto)).
        destruct (decide (id = root)); [done|]. destruct Hpar as (p & -> & _). done. }
      split_and!; [|by exists root| |by apply leaf_issues_nil].
      * intros [id [i m]] Hin. cbn [fst snd]. split; [by eapply Hf|]. apply Hrel. apply elem_of_nodes. eauto.
      * intros id Hid. apply (grounded_descends root Hf Hr Hroot id Hid). by apply Hdesc.
Qed.
End document.

(** ** The validator *)

Definition parents_in (ids : list string) (s : links_seen) : Prop := ∀ y, y ∈ ls_parent_of s → y.2 ∈ ids.

Lemma parent_link_in ids id path v s : parents_in ids s → parents_in ids (parent_link id path ids v s).
Proof.
  intros Hs y. unfold parent_link. destruct v; repeat case_match; cbn [ls_parent_of]; try apply Hs.
  all: intros [Hy|Hy%list_elem_of_singleton]%elem_of_app; [by apply Hs|subst y; by eapply bool_decide_eq_true_1].
Qed.

Lemma see_links_in ids s r : parents_in ids s → parents_in ids (foldl (see_links ids) s r).
Proof.
  revert s. induction r as [|[id l] r IH]; intros s Hs; [done|]. cbn [foldl]. apply IH. unfold see_links. cbn [fst snd].
  destruct l as [|[i m] [|]]; [done| |done]. destruct (_extract_trace_links m i) as [links path].
  destruct (as_array _); cbn; by apply parent_link_in.
Qed.

(** The rows of named intents. *)
Lemma named_rows (nodes : nodes_t) f :
  Forall (λ n, jget "id" n.2 = JStr n.1) nodes → "" ∉ nodes.*1 →
  nodes_of (omap named_row (imap (λ k m, (f k, m)) nodes.*2)) = nodes ∧
  Forall (λ x : nat * dict, is_Some (as_name (jget "id" x.2))) (imap (λ k m, (f k, m)) nodes.*2).
Proof.
  intros Hid. revert f. induction Hid as [|[id m] nodes Hm Hid IH]; intros f Hne; [by split|].
  csimpl in Hne. apply not_elem_of_cons in Hne as [Hn Hne]. destruct (IH (f ∘ S) Hne) as [H1 H2]. cbn [snd fst] in Hm.
  assert (as_name (jget "id" m) = Some id) as Ha by (by apply as_name_Some).
  rewrite fmap_cons, imap_cons. split.
  - cbn [omap list_omap]. unfold named_row at 1. cbn [snd]. rewrite Ha. cbn [fmap option_fmap option_map nodes_of list_fmap fst snd]. f_equal. exact H1.
  - constructor; [cbn [snd]; rewrite Ha; by eexists|exact H2].
Qed.

Lemma named_nodes (l : list dict) f :
  Forall (λ x : nat * dict, is_Some (as_name (jget "id" x.2))) (imap (λ k m, (f k, m)) l) →
  ∃ nodes : nodes_t, nodes.*2 = l ∧ Forall (λ n, jget "id" n.2 = JStr n.1) nodes ∧ "" ∉ nodes.*1.
Proof.
  revert f. induction l as [|m l IH]; intros f H; [exists []; split_and!; [done|constructor|apply not_elem_of_nil]|].
  rewrite imap_cons in H. apply Forall_cons in H as [[id Hid] H]. cbn [snd] in Hid. apply as_name_Some in Hid as [Hid Hne].
  destruct (IH (f ∘ S) H) as (nodes & <- & Hn & He). exists ((id, m) :: nodes). split_and!; [done|by constructor|].
  csimpl. apply not_elem_of_cons. by split.
Qed.

Lemma sort_issues_nil l : merge_sort issue_le l = [] ↔ l = [].
Proof.
  pose proof (merge_sort_Permutation issue_le l) as Hp. split; [intros E; rewrite E in Hp; by apply Permutation_nil_l in Hp|by intros ->].
Qed.

(** C2: The validator of intents returns on every document, and reports no
    issue exactly when the document has an array of intents that form a tree:
    objects with distinct non-empty ids, one root without a parent from which
    every intent descends over parents in the document, related intents that
    are other intents of the document, and success criteria on every leaf. *)
Theorem intent_tree_valid payload :
  ∃ issues, validate_intent_tree payload = Some issues ∧
    (issues = [] ↔ ∃ raw, _extract_intents payload = Some raw ∧ is_intent_tree raw).
Proof.
  unfold validate_intent_tree. destruct (_extract_intents payload) as [raw|]; [|eexists; split; [done|]; split; [done|by intros (? & [=] & _)]].
  pose proof (split_entries_spec raw 0) as Hs. destruct (split_entries 0 raw) as [intents i1] eqn:Es. cbn [fst snd] in Hs.
  pose proof (rows_by_id_spec intents []) as [Hr Hn]. destruct (rows_by_id intents []) as [r i2]. cbn [fst snd] in Hr, Hn.
  set (v := omap named_row intents) in *. fold (rows_of v) in Hr. subst r.
  set (seen := foldl (see_links (rows_of v).*1) (mkSeen [] [] []) (rows_of v)).
  destruct (climb_all_total (ls_parent_of seen) (rows_of v).*1) with (nodes := sort_strings (rows_of v).*1) (marks := ∅ : gmap string nat) as [i3 Hi3].
  { intros x p Hx%alookup_elem_of. apply (see_links_in (rows_of v).*1 (mkSeen [] [] []) (rows_of v)) in Hx; [done|]. by intros y ?%not_elem_of_nil. }
  { split; [intros x; rewrite lookup_empty; split; [done|by intros ?%not_elem_of_nil]|intros x k; by rewrite lookup_empty]. }
  { intros x. by rewrite elem_of_sort_strings. }
  rewrite Hi3. cbn [mbind option_bind]. eexists. split; [done|]. rewrite sort_issues_nil, !app_nil, duplicate_issues_spec, Hs, Hn.
  assert (∀ nodes : nodes_t, NoDup v.*1 → nodes_of v = nodes → "" ∉ nodes.*1 →
    (ls_issues seen = [] ∧ root_issues (ls_roots seen) = [] ∧ i3 = [] ∧ leaf_issues (ls_parent_of seen) (rows_of v) = [] ↔ rooted_tree nodes)) as Hcheck.
  { intros nodes Hnd <- Hne. rewrite nodes_of_keys in Hne. assert (rows_of v = single <$> v) as Er by (by apply rows_distinct).
    unfold seen in *. rewrite Er, see_links_all in *. cbn [ls_issues ls_parent_of ls_roots app] in *.
    assert ((single <$> v).*1 = v.*1) as Ek by (rewrite <-list_fmap_compose; done). rewrite Ek in *.
    destruct (tree_checks v Hnd Hne) as (i3' & Hi3' & Hiff). rewrite Hi3' in Hi3. injection Hi3 as <-. exact Hiff. }
  split.
  - intros ((l & -> & Hl) & Hnames & Hnd & Hrest). exists (JObj <$> l). split; [done|].
    rewrite Hl in Hnames. destruct (named_nodes _ _ Hnames) as (nodes & <- & Hid & Hne).
    destruct (named_rows nodes (λ k, 0 + k) Hid Hne) as [Hv _]. rewrite <-Hl in Hv. fold v in Hv.
    exists nodes. split_and!; [by rewrite <-list_fmap_compose|done|]. by apply Hcheck.
  - intros (raw' & [= <-] & nodes & -> & Hid & Htree). assert ("" ∉ nodes.*1) as Hne by apply Htree.
    destruct (named_rows nodes (λ k, 0 + k) Hid Hne) as [Hv Hf].
    assert ((λ n : string * dict, JObj n.2) <$> nodes = JObj <$> nodes.*2) as El by (by rewrite <-list_fmap_compose).
    rewrite El, split_entries_objects in Es. injection Es as <- <-. change (nodes_of v = nodes) in Hv.
    split; [by exists nodes.*2|]. split; [done|]. assert (NoDup v.*1) as Hnd by (rewrite <-nodes_of_keys, Hv; apply Htree).
    split; [done|]. by apply (Hcheck nodes).
Qed.


(** ** Coverage ([coverage.py]) *)

Definition mapping_items (l : list json) : list dict := omap as_mapping l.

Definition _extract_intent_nodes (payload : dict) : list dict :=
  match as_array (jget "intents" payload) with
  | Some l => mapping_items l
  | None =>
      match as_mapping (jget "spec" payload) with
      | None => []
      | Some spec =>
          match as_array (jget "intents" spec) with
          | Some l => mapping_items l
          | None =>
              match as_mapping (jget "spec" spec) with
              | Some embedded => match as_array (jget "intents" embedded) with Some l => mapping_items l | None => [] end
              | None => []
              end
          end
      end
  end.

(** The parent named in the first of three places that names one. *)
Definition _extract_parent_intent (intent : dict) : option string :=
  let from (m : option dict) := m ≫= λ m, as_mapping (jget "trace_links" m) ≫= λ links, as_name (jget "parent_intent" links) in
  match from (Some intent) with
  | Some p => Some p
  | None =>
      match from (as_mapping (jget "metadata" intent)) with
      | Some p => Some p
      | None => from (as_mapping (jget "spec" intent))
      end
  end.

Definition names (v : json) : list string := match as_array v with Some l => omap as_name l | None => [] end.

(** The tests of a document, with the intents they name. *)
Definition _extract_tests (file_name : string) (payload : dict) : res (list (string * list string)) :=
  match jget "kind" payload with
  | JNull | JStr "TestSuite" =>
      match as_mapping (jget "spec" payload) ≫= (λ spec, as_array (jget "tests" spec)) with
      | None => Ok []
      | Some tests =>
          Ok (mjoin (imap (λ index test,
            match as_mapping test with
            | None => []
            | Some t => [(default (file_name +:+ "#test-" +:+ pretty index) (as_name (jget "id" t)), names (jget "intent_refs" t))]
            end) tests))
      end
  | JArr _ | JObj _ => Raise (TypeError "unhashable type")
  | _ => Ok []
  end.

Definition _extract_policy_rule_refs (payload : dict) : nat * nat * list string :=
  match as_array (jget "rules" payload) with
  | None => (0, 0, [])
  | Some rules =>
      let rules := mapping_items rules in
      let refs := (λ r, names (jget "intent_refs" r)) <$> rules in
      (length rules, length (filter (λ l, l ≠ []) refs), mjoin refs)
  end.

(** [sorted(set)]. *)
Definition sorted_set (l : list string) : list string := sort_strings (remove_dups l).

Record coverage_report : Type := mkReport {
  cv_uncovered_leaf_intents : list string;
  cv_intents_without_tests : list string;
  cv_tests_without_intents : list string;
  cv_warnings : list string;
  cv_total_intents : nat;
  cv_leaf_intents : nat;
  cv_tests_scanned : nat;
  cv_rules_scanned : nat;
  cv_rules_with_refs : nat;
  cv_unknown_refs : list string
}.

Definition compute_intents_coverage (intents : dict) (suites : list (string * dict)) (policy : option dict)
  : res (Z * coverage_report) :=
  let nodes := _extract_intent_nodes intents in
  match nodes with
  | [] => Raise (ValueError "intent tree missing intents[]")
  | _ =>
      let named := filter (λ n, is_Some (as_name (jget "id" n))) nodes in
      let ids := remove_dups (omap (λ n, as_name (jget "id" n)) named) in
      let parents := omap _extract_parent_intent named in
      let leaf_ids := sort_strings (filter (λ id, id ∉ parents) ids) in
      suites ← mapM (λ s, _extract_tests s.1 s.2) suites;
      let tests := mjoin suites in
      match tests with
      | [] => Raise (ValueError "no TestSuite tests found")
      | _ =>
          let covered := filter (λ r, r ∈ ids) (tests ≫= snd) in
          let without_intents := sorted_set (fst <$> filter (λ t, Exists (λ r, r ∉ ids) t.2) tests) in
          let without_tests := sort_strings (filter (λ id, id ∉ covered) ids) in
          let uncovered := sort_strings (filter (λ id, id ∉ covered) leaf_ids) in
          let non_leaf := sort_strings (filter (λ id, id ∉ leaf_ids) without_tests) in
          let '(rules, with_refs, refs) := match policy with Some p => _extract_policy_rule_refs p | None => (0, 0, []) end in
          let unknown := sorted_set (filter (λ r, r ∉ ids) refs) in
          let warn (key : string) (l : list string) := match l with [] => [] | _ => [key +:+ ": " +:+ String.concat "," l] end in
          Ok (if bool_decide (uncovered = []) then 0 else 1,
              mkReport uncovered without_tests without_intents
                (warn "non_leaf_intents_without_tests" non_leaf ++ warn "policy_unknown_intent_refs" unknown)
                (length ids) (length leaf_ids) (length tests) rules with_refs unknown)%Z
      end
  end.

(** An intent some test names. *)
Definition tested (suites : list (string * dict)) (id : string) : Prop :=
  ∃ file payload tests test refs, (file, payload) ∈ suites ∧ _extract_tests file payload = Ok tests ∧ (test, refs) ∈ tests ∧ id ∈ refs.

Definition is_intent (nodes : list dict) (id : string) : Prop := ∃ m, m ∈ nodes ∧ as_name (jget "id" m) = Some id.

(** An intent that is no intent's parent. *)
Definition is_leaf (nodes : list dict) (id : string) : Prop :=
  is_intent nodes id ∧ ¬ ∃ m id', m ∈ nodes ∧ as_name (jget "id" m) = Some id' ∧ _extract_parent_intent m = Some id.

(** A report has code 0 exactly when every leaf intent is named by a test; the
    intents without tests are exactly those no test names, and the tests it
    lists are those that name an unknown intent. *)
Theorem coverage_exact intents suites policy code rep :
  compute_intents_coverage intents suites policy = Ok (code, rep) →
  (∀ id, id ∈ cv_uncovered_leaf_intents rep ↔ is_leaf (_extract_intent_nodes intents) id ∧ ¬ tested suites id) ∧
  (∀ id, id ∈ cv_intents_without_tests rep ↔ is_intent (_extract_intent_nodes intents) id ∧ ¬ tested suites id) ∧
  (∀ t, t ∈ cv_tests_without_intents rep ↔
     ∃ file payload tests refs r, (file, payload) ∈ suites ∧ _extract_tests file payload = Ok tests ∧ (t, refs) ∈ tests ∧ r ∈ refs ∧ ¬ is_intent (_extract_intent_nodes intents) r) ∧
  (code = 0%Z ↔ ∀ id, is_leaf (_extract_intent_nodes intents) id → tested suites id).
Proof.
  unfold compute_intents_coverage. generalize (_extract_intent_nodes intents). intros [|n0 nodes0] H; [done|].
  set (nodes := n0 :: nodes0) in *. set (intent := is_intent nodes). set (leaf := is_leaf nodes).
  set (named := filter (λ n, is_Some (as_name (jget "id" n))) nodes) in *.
  set (ids := remove_dups (omap (λ n, as_name (jget "id" n)) named)) in *.
  assert (∀ id, id ∈ ids ↔ intent id) as Hids.
  { intros id. unfold ids, intent, is_intent. rewrite elem_of_remove_dups, list_elem_of_omap. unfold named. split.
    - intros (m & [_ Hm]%list_elem_of_filter & E). eauto.
    - intros (m & Hm & E). exists m. split; [|done]. apply list_elem_of_filter. rewrite E. eauto. }
  assert (∀ id, id ∈ omap _extract_parent_intent named ↔ ∃ m id', m ∈ nodes ∧ as_name (jget "id" m) = Some id' ∧ _extract_parent_intent m = Some id) as Hpar.
  { intros id. rewrite list_elem_of_omap. unfold named. split.
    - intros (m & [[id' Hid] Hm]%list_elem_of_filter & E). eauto 6.
    - intros (m & id' & Hm & Hid & E). exists m. split; [|done]. apply list_elem_of_filter. rewrite Hid. eauto. }
  apply res_bind_ok in H as (ts & Hts & H). apply mapM_res_ok in Hts.
  assert (∀ t refs, (t, refs) ∈ mjoin ts ↔ ∃ file payload tests, (file, payload) ∈ suites ∧ _extract_tests file payload = Ok tests ∧ (t, refs) ∈ tests) as Htests.
  { intros t refs. rewrite list_elem_of_join. split.
    - intros (l & Hin & (i & Hi)%list_elem_of_lookup_1). destruct (Forall2_lookup_r _ _ _ _ _ Hts Hi) as ([file payload] & Hs & E).
      exists file, payload, l. split_and!; [by eapply list_elem_of_lookup_2|done|done].
    - intros (file & payload & tests & (i & Hi)%list_elem_of_lookup_1 & E & Hin). destruct (Forall2_lookup_l _ _ _ _ _ Hts Hi) as (l & Hl & E').
      cbn in E'. assert (l = tests) as -> by congruence. exists tests. split; [done|]. by eapply list_elem_of_lookup_2. }
  cbn zeta in H. revert Htests H. generalize (mjoin ts). intros [|t0 tests0] Htests H; [done|]. set (tests := t0 :: tests0) in *.
  destruct (match policy with Some p => _extract_policy_rule_refs p | None => (0, 0, []) end) as [[rules with_refs] refs]. cbn zeta in H. injection H as <- <-.
  cbn [cv_uncovered_leaf_intents cv_intents_without_tests cv_tests_without_intents].
  assert (∀ id, intent id → id ∈ filter (λ r, r ∈ ids) (tests ≫= snd) ↔ tested suites id) as Hcov.
  { intros id Hi. rewrite list_elem_of_filter, list_elem_of_bind, Hids. unfold tested. split.
    - intros (_ & [t rs] & Hr & Ht). apply Htests in Ht as (file & payload & l & ? & ? & ?). by exists file, payload, l, t, rs.
    - intros (file & payload & l & t & rs & ? & ? & ? & ?). split; [done|]. exists (t, rs). split; [done|]. apply Htests. by exists file, payload, l. }
  assert (∀ id, id ∈ sort_strings (filter (λ id, id ∉ omap _extract_parent_intent named) ids) ↔ leaf id) as Hleaf.
  { intros id. rewrite elem_of_sort_strings, list_elem_of_filter, Hids, Hpar. unfold leaf, is_leaf, intent. tauto. }
  assert (∀ id, id ∈ sort_strings (filter (λ id, id ∉ filter (λ r, r ∈ ids) (tests ≫= snd)) (sort_strings (filter (λ id, id ∉ omap _extract_parent_intent named) ids))) ↔ leaf id ∧ ¬ tested suites id) as Hun.
  { intros id. rewrite elem_of_sort_strings, list_elem_of_filter, Hleaf. split.
    - intros [Hc Hl]. split; [done|]. rewrite Hcov in Hc by apply Hl. done.
    - intros [Hl Hc]. split; [|done]. by rewrite Hcov by apply Hl. }
  split_and!.
  - exact Hun.
  - intros id. rewrite elem_of_sort_strings, list_elem_of_filter, Hids. split.
    + intros [Hc Hi]. split; [done|]. intros Ht. by apply Hc, (proj2 (Hcov id Hi)).
    + intros [Hi Hc]. split; [|done]. intros Ht. by apply Hc, (proj1 (Hcov id Hi)).
  - intros t. unfold sorted_set. rewrite elem_of_sort_strings, elem_of_remove_dups, list_elem_of_fmap. split.
    + intros ([t' rs] & -> & [Hex Ht]%list_elem_of_filter). apply Exists_exists in Hex as (r & Hr & Hn). apply Htests in Ht as (file & payload & l & ? & ? & ?).
      exists file, payload, l, rs, r. rewrite <-Hids. done.
    + intros (file & payload & l & rs & r & ? & ? & ? & Hr & Hn). exists (t, rs). split; [done|]. apply list_elem_of_filter. split; [|apply Htests; by exists file, payload, l].
      apply Exists_exists. exists r. rewrite Hids. done.
  - case_bool_decide as Hb.
    + split; [|done]. intros _ id Hl. destruct (decide (id ∈ filter (λ r, r ∈ ids) (tests ≫= snd))) as [Hc|Hc]; [by apply Hcov; [apply Hl|]|].
      exfalso. apply (not_elem_of_nil id). rewrite <-Hb. apply Hun. split; [done|]. by rewrite <-Hcov by apply Hl.
    + split; [done|]. intros Hall. exfalso. apply Hb, elem_of_nil_inv. intros id [Hl Hn]%Hun. by apply Hn, Hall.
Qed.

(** ** Examples *)

Definition intent_doc (id : string) (links : dict) (rest : dict) : json := JObj ([("id", JStr id); ("trace_links", JObj links)] ++ rest).
Definition child_of (p : string) : dict := [("parent_intent", JStr p)].
Definition met : dict := [("success_criteria", JStr "done")].

Definition good_tree : dict :=
  [("intents", JArr [intent_doc "root" [] []; intent_doc "a" (child_of "root" ++ [("related_intents", JArr [JStr "b"])]) met; intent_doc "b" (child_of "root") met])].

Definition cyclic_tree : dict :=
  [("intents", JArr [intent_doc "root" [] met; intent_doc "a" (child_of "b") []; intent_doc "b" (child_of "a") []])].

Example good_tree_clean : validate_intent_tree good_tree = Some [].
Proof. vm_compute. done. Qed.

Example cycle_found :
  (map ii_message <$> validate_intent_tree cyclic_tree) = Some ["parent_intent cycle detected: a -> b -> a"].
Proof. vm_compute. done. Qed.

(** Links without a parent hide the parent of the metadata from the validator
    and not from the coverage. *)
Example parents_disagree :
  let m := [("id", JStr "a"); ("trace_links", JObj []); ("metadata", JObj [("trace_links", JObj (child_of "root"))])] in
  parent_ref m = JNull ∧ _extract_parent_intent m = Some "root".
Proof. vm_compute. done. Qed.

Example coverage_of_leaves :
  let suite := [("spec", JObj [("tests", JArr [JObj [("id", JStr "t"); ("intent_refs", JArr [JStr "a"; JStr "z"])]])])] in
  (λ r, (r.1, cv_uncovered_leaf_intents r.2, cv_tests_without_intents r.2, cv_warnings r.2)) <$> compute_intents_coverage good_tree [("s.json", suite)] None =
  Ok (1%Z, ["b"], ["t"], ["non_leaf_intents_without_tests: root"]).
Proof. vm_compute. done. Qed.
