(* ===== verification/AgentContract.v ===== *)
(** * Agent contracts and their linter ([tm/agents/models.py],
      [tm/artifacts/models.py], [tm/lint/io_contract_lint.py])

    Agents declare what they read, write and change; a bundle binds agents and
    a plan.  The linter checks the declarations against each other and against
    the plan. *)

From S2P Require Import Prelude PyVal PyConv Artifact.
From stdpp Require Import base gmap strings list pretty.
From Stdlib Require Import ZArith Lia Ascii.

Abbreviation table := (list (string * json)) (only parsing).

(** ** Contracts *)

Record IORef : Type := mkIORef {
  io_ref : string;
  io_kind : string;
  io_schema : json;
  io_required : bool;
  io_mode : string
}.

Record EffectIdempotency : Type := mkIdem { ei_type : string; ei_key_fields : list string }.

Record EffectRef : Type := mkEffect {
  ef_name : string;
  ef_kind : string;
  ef_target : string;
  ef_idempotency : EffectIdempotency;
  ef_rollback : option string;
  ef_evidence : table
}.

Record AgentContract : Type := mkContract {
  ac_inputs : list IORef;
  ac_outputs : list IORef;
  ac_effects : list EffectRef
}.

Record RetryPolicySpec : Type := mkRetrySpec {
  rs_max_attempts : Z;
  rs_base_backoff_s : pyfloat;
  rs_max_backoff_s : pyfloat
}.

Record AgentRuntime : Type := mkRuntime {
  ar_kind : string;
  ar_config : table;
  ar_endpoint : option string;
  ar_transport_kind : option string;
  ar_retry_policy : option RetryPolicySpec;
  ar_timeout_ms : option Z;
  ar_auth_ref : option string
}.

Record AgentEvidenceOutput : Type := mkEvidence { eo_name : string; eo_description : option string; eo_target : option string }.

Record AgentSpec : Type := mkAgent {
  as_agent_id : string;
  as_name : string;
  as_version : string;
  as_runtime : AgentRuntime;
  as_contract : AgentContract;
  as_config_schema : table;
  as_evidence_outputs : list AgentEvidenceOutput
}.

Definition _ensure_schema (value : json) (name : string) : res json :=
  match value with
  | JStr _ | JObj _ => Ok value
  | _ => Raise (TypeError (name +:+ " must be a string or mapping"))
  end.

Definition _ensure_bool (value : json) (name : string) : res bool :=
  match value with JBool b => Ok b | _ => Raise (TypeError (name +:+ " must be a boolean")) end.

Section models.
Context {PT : PyText}.

Definition str_field (data : table) (key name : string) : res string := v ← _require_field data key; _ensure_str v name.

Definition io_from_mapping (data : table) : res IORef :=
  ref ← str_field data "ref" "ref";
  kind ← str_field data "kind" "kind";
  schema ← (v ← _require_field data "schema"; _ensure_schema v "schema");
  required ← (v ← _require_field data "required"; _ensure_bool v "required");
  mode ← str_field data "mode" "mode";
  Ok (mkIORef ref kind schema required mode).

Definition idempotency_from_mapping (data : table) : res EffectIdempotency :=
  key_fields ← _force_list (jget "key_fields" data) "idempotency.key_fields";
  type ← str_field data "type" "idempotency.type";
  Ok (mkIdem type key_fields).

Definition dict_field (data : table) (key name : string) : res table := v ← _require_field data key; _ensure_dict v name.
Definition seq_field (data : table) (key name : string) : res (list json) := v ← _require_field data key; _ensure_sequence v name.

Definition effect_from_mapping (data : table) : res EffectRef :=
  evidence ← dict_field data "evidence" "evidence";
  name ← str_field data "name" "name";
  kind ← str_field data "kind" "kind";
  target ← str_field data "target" "target";
  idem ← (d ← dict_field data "idempotency" "idempotency"; idempotency_from_mapping d);
  rollback ← opt_str data "rollback" "rollback";
  Ok (mkEffect name kind target idem rollback evidence).

(** [[f(_ensure_dict(item, name)) for item in items]]. *)
Definition each_dict {A} (f : table → res A) (name : string) (items : list json) : res (list A) :=
  mapM (λ item, d ← _ensure_dict item name; f d) items.

Definition contract_from_mapping (data : table) : res AgentContract :=
  inputs_raw ← seq_field data "inputs" "contract.inputs";
  outputs_raw ← seq_field data "outputs" "contract.outputs";
  effects_raw ← seq_field data "effects" "contract.effects";
  inputs ← each_dict io_from_mapping "contract.input" inputs_raw;
  outputs ← each_dict io_from_mapping "contract.output" outputs_raw;
  effects ← each_dict effect_from_mapping "contract.effect" effects_raw;
  Ok (mkContract inputs outputs effects).

Definition retry_from_mapping (data : json) : res RetryPolicySpec :=
  raw ← _ensure_dict data "runtime.retry_policy";
  max_attempts ← py_int (get_or "max_attempts" (JInt 3) raw);
  base ← py_float (get_or "base_backoff_s" (JFloat (Fin 100000)) raw);
  max_backoff ← py_float (get_or "max_backoff_s" (JFloat (Fin 2000000)) raw);
  Ok (mkRetrySpec max_attempts base max_backoff).

Definition timeout_of (v : json) : res (option Z) :=
  match v with
  | JNull => Ok None
  | JInt n => if (n <=? 0)%Z then Raise (ValueError "runtime.timeout_ms must be a positive integer") else Ok (Some n)
  | _ => Raise (TypeError "runtime.timeout_ms must be an integer")
  end.

Definition SUPPORTED_TRANSPORT_KINDS : list string := ["inprocess"; "http"; "file_queue"].

Definition lacking (o : option string) : bool := match o with Some s => String.eqb s "" | None => true end.

Definition runtime_from_mapping (data : table) : res AgentRuntime :=
  config ← dict_field data "config" "runtime.config";
  kind ← str_field data "kind" "runtime.kind";
  endpoint ← opt_str data "endpoint" "runtime.endpoint";
  transport_kind ← opt_str data "transport_kind" "runtime.transport_kind";
  auth_ref ← opt_str data "auth_ref" "runtime.auth_ref";
  retry_policy ← match jget "retry_policy" data with JNull => Ok None | v => Some <$> retry_from_mapping v end;
  timeout_ms ← timeout_of (jget "timeout_ms" data);
  if match transport_kind with Some t => negb (bool_decide (t ∈ SUPPORTED_TRANSPORT_KINDS)) | None => false end then
    Raise (ValueError ("runtime.transport_kind must be one of ['file_queue', 'http', 'inprocess'], got '" +:+ default "" transport_kind +:+ "'"))
  else if String.eqb kind "remote" && lacking endpoint then
    Raise (ValueError "runtime.endpoint is required when runtime.kind == 'remote'")
  else if String.eqb kind "remote" && lacking transport_kind then
    Raise (ValueError "runtime.transport_kind is required when runtime.kind == 'remote'")
  else Ok (mkRuntime kind config endpoint transport_kind retry_policy timeout_ms auth_ref).

Definition is_remote (r : AgentRuntime) : bool := String.eqb (ar_kind r) "remote".

Definition evidence_from_mapping (data : table) : res AgentEvidenceOutput :=
  name ← str_field data "name" "evidence_outputs.name";
  description ← opt_str data "description" "evidence_outputs.description";
  target ← opt_str data "target" "evidence_outputs.target";
  Ok (mkEvidence name description target).

Definition agent_from_mapping (data : table) : res AgentSpec :=
  runtime ← (d ← dict_field data "runtime" "runtime"; runtime_from_mapping d);
  contract ← (d ← dict_field data "contract" "contract"; contract_from_mapping d);
  config_schema ← dict_field data "config_schema" "config_schema";
  evidence_raw ← seq_field data "evidence_outputs" "evidence_outputs";
  evidence_outputs ← each_dict evidence_from_mapping "evidence_outputs" evidence_raw;
  agent_id ← str_field data "agent_id" "agent_id";
  name ← str_field data "name" "name";
  version ← str_field data "version" "version";
  Ok (mkAgent agent_id name version runtime contract config_schema evidence_outputs).

(** ** Bundles ([artifacts/models.py]) *)

Record BundleStep : Type := mkBundleStep {
  bs_step : string;
  bs_agent_id : string;
  bs_phase : option string;
  bs_inputs : list string;
  bs_outputs : list string;
  bs_description : option string
}.

Record BundleAgent : Type := mkBundleAgent { ba_spec : AgentSpec; ba_role : option string }.

Record Bundle : Type := mkAgentBundle {
  ab_bundle_id : string;
  ab_agents : list BundleAgent;
  ab_plan : list BundleStep;
  ab_meta : table
}.

Definition bundle_step_from_mapping (raw : table) : res BundleStep :=
  inputs ← _force_list (jget "inputs" raw) "plan.inputs";
  outputs ← _force_list (jget "outputs" raw) "plan.outputs";
  step ← str_field raw "step" "plan.step";
  agent_id ← str_field raw "agent_id" "plan.agent_id";
  phase ← opt_str raw "phase" "plan.phase";
  description ← opt_str raw "description" "plan.description";
  Ok (mkBundleStep step agent_id phase inputs outputs description).

Definition bundle_agent_from_mapping (raw : table) : res BundleAgent :=
  spec ← agent_from_mapping (dict_pop "role" raw);
  role ← opt_str raw "role" "agent.role";
  Ok (mkBundleAgent spec role).

Definition bundle_from_mapping (data : table) : res Bundle :=
  agents_raw ← seq_field data "agents" "agents";
  plan_raw ← seq_field data "plan" "plan";
  bundle_id ← str_field data "bundle_id" "bundle_id";
  agents ← each_dict bundle_agent_from_mapping "agent" agents_raw;
  plan ← each_dict bundle_step_from_mapping "plan step" plan_raw;
  meta ← _ensure_dict (jor (jget "meta" data) (JObj [])) "meta";
  Ok (mkAgentBundle bundle_id agents plan meta).
End models.

(** ** The linter ([io_contract_lint.py]) *)

Record ContractIssue : Type := mkLint { lt_code : string; lt_message : string; lt_severity : string; lt_path : string }.

Definition lint_error (code message path : string) : ContractIssue := mkLint code message "error" path.

(** What is known of a reference; owners and modes are collected and not read. *)
Record IORefMeta : Type := mkMeta { im_kind : string; im_schema_repr : string; im_owners : list string; im_modes : list string }.

(** [needle in text]. *)
Definition str_in (needle text : string) : bool := match String.index 0 needle text with Some _ => true | None => false end.

Definition _requires_effect (mode : string) : bool := str_in "write" mode || str_in "mutate" mode.

Definition label_insert (x : string) (l : list string) : list string := if decide (x ∈ l) then l else l ++ [x].

Section linter.
(** [json.dumps(schema, sort_keys=True)]. *)
Context (dumps : json → string).

Definition _normalize_schema_value (schema : json) : string := match schema with JStr s => s | v => dumps (sort_keys v) end.

Definition declare (label : string) (acc : list (string * IORefMeta) * list ContractIssue) (r : IORef) : list (string * IORefMeta) * list ContractIssue :=
  let '(registry, issues) := acc in
  let repr := _normalize_schema_value (io_schema r) in
  let '(entry, found) :=
    match alookup (io_ref r) registry with
    | None => (mkMeta (io_kind r) repr [] [], [])
    | Some e =>
        (e, (if String.eqb (im_kind e) (io_kind r) then []
             else [lint_error "IO_REF_KIND" ("IORef '" +:+ io_ref r +:+ "' kind '" +:+ io_kind r +:+ "' conflicts with previously declared '" +:+ im_kind e +:+ "'") (label +:+ ".contract")]) ++
            (if String.eqb (im_schema_repr e) repr then []
             else [lint_error "IO_REF_SCHEMA" ("IORef '" +:+ io_ref r +:+ "' schema differs from other declarations") (label +:+ ".contract")]))
    end in
  (dict_set (io_ref r) (mkMeta (im_kind entry) (im_schema_repr entry) (label_insert label (im_owners entry)) (label_insert (io_mode r) (im_modes entry))) registry,
   issues ++ found).

Definition _collect_ref_registry (entries : list (string * AgentContract)) : list (string * IORefMeta) * list ContractIssue :=
  foldl (λ acc e, foldl (declare e.1) acc (ac_inputs e.2 ++ ac_outputs e.2)) ([], []) entries.

Definition effect_issues (label : string) (registry : list (string * IORefMeta)) (e : EffectRef) : list ContractIssue :=
  let path := label +:+ ".contract.effects" in
  (if decide (ef_target e ∈ registry.*1) then []
   else [lint_error "EFFECT_TARGET" ("Effect '" +:+ ef_name e +:+ "' targets undeclared IORef '" +:+ ef_target e +:+ "'") path]) ++
  (if String.eqb (ef_kind e) "resource" && bool_decide (ei_key_fields (ef_idempotency e) = [])
   then [lint_error "RESOURCE_IDEMPOTENCY" ("Effect '" +:+ ef_name e +:+ "' must declare idempotency key fields") path]
   else []).

Definition output_issues (label : string) (targets : list string) (r : IORef) : list ContractIssue :=
  if _requires_effect (io_mode r) && negb (bool_decide (io_ref r ∈ targets))
  then [lint_error "EFFECT_REQUIRED" ("IORef '" +:+ io_ref r +:+ "' with mode '" +:+ io_mode r +:+ "' needs an effect declaration") (label +:+ ".contract.outputs")]
  else [].

Definition _validate_contract_effects (label : string) (c : AgentContract) (registry : list (string * IORefMeta)) : list ContractIssue :=
  (ac_effects c ≫= effect_issues label registry) ++ (ac_outputs c ≫= output_issues label (ef_target <$> ac_effects c)).

(** Inputs and outputs by label; a later contract replaces an earlier one. *)
Definition _build_contract_io_sets (entries : list (string * AgentContract)) : list (string * (list string * list string)) :=
  foldl (λ m e, dict_set e.1 (io_ref <$> ac_inputs e.2, io_ref <$> ac_outputs e.2) m) [] entries.

Context {PT : PyText}.

Definition _extract_preconditions (raw_body : table) : list string :=
  match jget "meta" raw_body with
  | JObj meta => match jget "preconditions" meta with JArr l => py_str other_str <$> l | _ => [] end
  | _ => []
  end.

Definition step_issues (path : string) (s : BundleStep) (inputs outputs available : list string) : list ContractIssue :=
  (bs_inputs s ≫= λ r,
     (if decide (r ∈ available) then [] else [lint_error "IO_CLOSURE" ("Step '" +:+ bs_step s +:+ "' reads '" +:+ r +:+ "' before it is produced") (path +:+ ".inputs")]) ++
     (if decide (r ∈ inputs) then [] else [lint_error "IO_BINDING" ("Agent '" +:+ bs_agent_id s +:+ "' does not declare input '" +:+ r +:+ "'") (path +:+ ".inputs")])) ++
  (bs_outputs s ≫= λ r,
     if decide (r ∈ outputs) then [] else [lint_error "IO_BINDING" ("Agent '" +:+ bs_agent_id s +:+ "' does not declare output '" +:+ r +:+ "'") (path +:+ ".outputs")]).

Fixpoint lint_steps (io_sets : list (string * (list string * list string))) (available : list string) (idx : nat) (plan : list BundleStep) : list ContractIssue :=
  match plan with
  | [] => []
  | s :: plan =>
      match alookup (bs_agent_id s) io_sets with
      | None => lint_steps io_sets available (S idx) plan
      | Some (inputs, outputs) =>
          step_issues ("plan[" +:+ pretty idx +:+ "]") s inputs outputs available ++
          lint_steps io_sets (available ++ bs_outputs s) (S idx) plan
      end
  end.

Definition lint_agent_bundle_io_contract (b : Bundle) (raw_body : table) : list ContractIssue :=
  let entries := (λ a, (as_agent_id (ba_spec a), as_contract (ba_spec a))) <$> ab_agents b in
  match entries with
  | [] => []
  | _ =>
      let '(registry, issues) := _collect_ref_registry entries in
      issues ++ (entries ≫= λ e, _validate_contract_effects e.1 e.2 registry) ++
      lint_steps (_build_contract_io_sets entries) (_extract_preconditions raw_body) 0 (ab_plan b)
  end.

Definition lint_plan_io_contract (plan_body : table) : res (list ContractIssue) :=
  match jget "io_contract" plan_body with
  | JObj contract_raw =>
      match contract_from_mapping contract_raw with
      | Raise (TypeError m) | Raise (ValueError m) => Ok [lint_error "IO_CONTRACT_PARSE" m "io_contract"]
      | Raise e => Raise e
      | Ok contract =>
          let '(registry, issues) := _collect_ref_registry [("plan", contract)] in
          Ok (issues ++ _validate_contract_effects "plan" contract registry)
      end
  | _ => Ok []
  end.
End linter.

(** ** What the linter asks for *)

Section meaning.
Context (dumps : json → string) {PT : PyText}.

Abbreviation entries_t := (list (string * AgentContract)) (only parsing).

Definition declared (entries : entries_t) : list IORef := entries ≫= λ e, ac_inputs e.2 ++ ac_outputs e.2.

(** Declarations of one reference agree. *)
Definition agree (l : list IORef) : Prop :=
  ∀ r r', r ∈ l → r' ∈ l → io_ref r = io_ref r' →
    io_kind r = io_kind r' ∧ _normalize_schema_value dumps (io_schema r) = _normalize_schema_value dumps (io_schema r').

(** The contract an agent id is bound to: the last one. *)
Definition binding (entries : entries_t) (agent_id : string) : option AgentContract := alookup agent_id (reverse entries).

(** Effects change declared references, say how they are repeated, and cover
    the outputs that are written. *)
Definition effects_ok (all : list IORef) (c : AgentContract) : Prop :=
  (∀ e, e ∈ ac_effects c → ef_target e ∈ io_ref <$> all ∧ (ef_kind e = "resource" → ei_key_fields (ef_idempotency e) ≠ [])) ∧
  (∀ r, r ∈ ac_outputs c → _requires_effect (io_mode r) = true → ∃ e, e ∈ ac_effects c ∧ ef_target e = io_ref r).

(** A step whose agent is bound reads what is there at the start or was
    produced by an earlier such step, and reads and produces only what its
    agent declares. *)
Definition plan_closed (entries : entries_t) (initial : list string) (plan : list BundleStep) : Prop :=
  ∀ i s c, plan !! i = Some s → binding entries (bs_agent_id s) = Some c →
    (∀ r, r ∈ bs_inputs s → r ∈ io_ref <$> ac_inputs c ∧
       (r ∈ initial ∨ ∃ j s', (j < i)%nat ∧ plan !! j = Some s' ∧ is_Some (binding entries (bs_agent_id s')) ∧ r ∈ bs_outputs s')) ∧
    (∀ r, r ∈ bs_outputs s → r ∈ io_ref <$> ac_outputs c).

(** What the registry holds after the declarations [l]. *)
Definition registered (l : list IORef) (registry : list (string * IORefMeta)) (issues : list ContractIssue) : Prop :=
  (∀ x, is_Some (alookup x registry) ↔ x ∈ io_ref <$> l) ∧
  (∀ x e, alookup x registry = Some e → ∃ r, r ∈ l ∧ io_ref r = x ∧ im_kind e = io_kind r ∧ im_schema_repr e = _normalize_schema_value dumps (io_schema r)) ∧
  (issues = [] ↔ ∀ r e, r ∈ l → alookup (io_ref r) registry = Some e →
     im_kind e = io_kind r ∧ im_schema_repr e = _normalize_schema_value dumps (io_schema r)).

Lemma declare_registered label l registry issues r :
  registered l registry issues →
  registered (l ++ [r]) (declare dumps label (registry, issues) r).1 (declare dumps label (registry, issues) r).2.
Proof.
  intros (H1 & H2 & H3). unfold declare. set (repr := _normalize_schema_value dumps (io_schema r)).
  assert (∀ x, x ∈ io_ref <$> l ++ [r] ↔ x = io_ref r ∨ x ∈ io_ref <$> l) as Hin by (intros x; rewrite fmap_app, elem_of_app; cbn; rewrite list_elem_of_singleton; tauto).
  destruct (alookup (io_ref r) registry) as [e|] eqn:E; cbn [fst snd im_kind im_schema_repr im_owners im_modes].
  - split_and!.
    + intros x. rewrite alookup_dict_set, Hin, <-H1. case_decide; [subst; split; [by left|by eexists]|]. split; [by right|by intros [?|?]].
    + intros x e'. rewrite alookup_dict_set. case_decide; [subst|].
      * intros [= <-]. cbn. destruct (H2 _ _ E) as (r0 & Hr0 & ?). exists r0. split; [apply elem_of_app; by left|done].
      * intros He'. destruct (H2 _ _ He') as (r0 & Hr0 & ?). exists r0. split; [apply elem_of_app; by left|done].
    + rewrite !app_nil, H3. split.
      * intros (Ha & Hk & Hs) r' e' [Hr'|Hr'%list_elem_of_singleton]%elem_of_app; rewrite alookup_dict_set.
        -- case_decide as Hd; [|by apply Ha]. intros [= <-]. cbn. apply Ha; [done|]. by rewrite Hd.
        -- subst r'. rewrite decide_True by done. intros [= <-]. cbn.
           destruct (String.eqb_spec (im_kind e) (io_kind r)); [|done]. by destruct (String.eqb_spec (im_schema_repr e) repr).
      * intros Ha. assert (im_kind e = io_kind r ∧ im_schema_repr e = repr) as [Hk Hs].
        { apply (Ha r (mkMeta (im_kind e) (im_schema_repr e) (label_insert label (im_owners e)) (label_insert (io_mode r) (im_modes e)))); [apply elem_of_app; right; by left|].
          rewrite alookup_dict_set. by rewrite decide_True. }
        split; [|rewrite Hk, Hs, !String.eqb_refl; done].
        intros r' e' Hr' He'. destruct (decide (io_ref r' = io_ref r)) as [Hd|Hd].
        -- rewrite Hd, E in He'. injection He' as <-.
           apply (Ha r' (mkMeta (im_kind e) (im_schema_repr e) (label_insert label (im_owners e)) (label_insert (io_mode r) (im_modes e)))); [apply elem_of_app; by left|].
           rewrite alookup_dict_set. by rewrite decide_True.
        -- apply Ha; [apply elem_of_app; by left|]. rewrite alookup_dict_set. by rewrite decide_False.
  - assert (io_ref r ∉ io_ref <$> l) as Hnew by (rewrite <-H1, E; by intros [? ?]). rewrite app_nil_r. split_and!.
    + intros x. rewrite alookup_dict_set, Hin, <-H1. case_decide; [subst; split; [by left|by eexists]|]. split; [by right|by intros [?|?]].
    + intros x e'. rewrite alookup_dict_set. case_decide; [subst|].
      * intros [= <-]. exists r. split; [apply elem_of_app; right; by left|done].
      * intros He'. destruct (H2 _ _ He') as (r0 & Hr0 & ?). exists r0. split; [apply elem_of_app; by left|done].
    + rewrite H3. split.
      * intros Ha r' e' [Hr'|Hr'%list_elem_of_singleton]%elem_of_app; rewrite alookup_dict_set.
        -- rewrite decide_False; [by apply Ha|]. intros Hd. apply Hnew. rewrite <-Hd. by apply list_elem_of_fmap_2.
        -- subst r'. rewrite decide_True by done. by intros [= <-].
      * intros Ha r' e' Hr' He'. apply Ha; [apply elem_of_app; by left|]. rewrite alookup_dict_set. rewrite decide_False; [done|].
        intros Hd. apply Hnew. rewrite <-Hd. by apply list_elem_of_fmap_2.
Qed.

Lemma declare_all label rs l acc :
  registered l acc.1 acc.2 → registered (l ++ rs) (foldl (declare dumps label) acc rs).1 (foldl (declare dumps label) acc rs).2.
Proof.
  revert l acc. induction rs as [|r rs IH]; intros l [registry issues] H; cbn [foldl]; [by rewrite app_nil_r|].
  replace (l ++ r :: rs) with ((l ++ [r]) ++ rs) by (by rewrite <-app_assoc). apply IH. by apply declare_registered.
Qed.

Lemma collect_registered entries :
  registered (declared entries) (_collect_ref_registry dumps entries).1 (_collect_ref_registry dumps entries).2.
Proof.
  unfold _collect_ref_registry, declared.
  assert (∀ l acc, registered l acc.1 acc.2 →
    registered (l ++ (entries ≫= λ e, ac_inputs e.2 ++ ac_outputs e.2))
      (foldl (λ acc e, foldl (declare dumps e.1) acc (ac_inputs e.2 ++ ac_outputs e.2)) acc entries).1
      (foldl (λ acc e, foldl (declare dumps e.1) acc (ac_inputs e.2 ++ ac_outputs e.2)) acc entries).2) as H.
  { induction entries as [|e entries IH]; intros l acc H; csimpl; [by rewrite app_nil_r|]. rewrite app_assoc. by apply IH, declare_all. }
  apply (H [] ([], [])). split_and!; [|done|].
  - intros x. cbn. split; [by intros [? ?]|by intros ?%not_elem_of_nil].
  - split; [|done]. by intros _ r e ?%not_elem_of_nil.
Qed.

Lemma registry_issues entries : (_collect_ref_registry dumps entries).2 = [] ↔ agree (declared entries).
Proof.
  destruct (collect_registered entries) as (H1 & H2 & ->). split.
  - intros Ha r r' Hr Hr' Heq. destruct (proj2 (H1 (io_ref r))) as [e He]; [by apply list_elem_of_fmap_2|].
    destruct (Ha r e Hr He) as [<- <-]. rewrite Heq in He. by destruct (Ha r' e Hr' He) as [<- <-].
  - intros Ha r e Hr He. destruct (H2 _ _ He) as (r0 & Hr0 & Heq & -> & ->). by apply Ha.
Qed.

Lemma registry_keys entries x : x ∈ (_collect_ref_registry dumps entries).1.*1 ↔ x ∈ io_ref <$> declared entries.
Proof.
  destruct (collect_registered entries) as (H1 & _). rewrite <-H1.
  destruct (alookup x _) as [e|] eqn:E.
  - split; [by eexists|]. intros _. apply list_elem_of_fmap. exists (x, e). split; [done|]. by apply alookup_elem_of.
  - apply alookup_None in E. split; [done|by intros [? ?]].
Qed.

Lemma bind_empty_iff {A B} (f : A → list B) l : l ≫= f = [] ↔ ∀ x, x ∈ l → f x = [].
Proof.
  induction l as [|a l IH]; csimpl; [split; [by intros _ x ?%not_elem_of_nil|done]|]. rewrite app_nil, IH. split.
  - intros [H1 H2] x [->|Hx]%elem_of_cons; auto.
  - intros H. split; [apply H; by left|]. intros x Hx. apply H. by right.
Qed.

Lemma if_empty {P : Prop} `{Decision P} (i : ContractIssue) : (if decide P then [] else [i]) = [] ↔ P.
Proof. by destruct (decide P). Qed.

Lemma contract_effects_ok label entries c :
  _validate_contract_effects label c (_collect_ref_registry dumps entries).1 = [] ↔ effects_ok (declared entries) c.
Proof.
  unfold _validate_contract_effects, effects_ok. rewrite app_nil, !bind_empty_iff. f_equiv.
  - unfold effect_issues. setoid_rewrite app_nil. setoid_rewrite if_empty. setoid_rewrite registry_keys.
    split; intros H e He; destruct (H e He) as [H1 H2]; (split; [done|]).
    + intros Hk. rewrite Hk in H2. case_bool_decide; done.
    + destruct (String.eqb_spec (ef_kind e) "resource") as [Hk|]; [|done]. by rewrite bool_decide_false by (by apply H2).
  - unfold output_issues. split; intros H r Hr.
    + intros Hm. specialize (H r Hr). rewrite Hm in H. cbn in H. case_bool_decide as Hin; [|done].
      apply list_elem_of_fmap in Hin as (e & -> & He). eauto.
    + destruct (_requires_effect (io_mode r)) eqn:Hm; [|done]. destruct (H r Hr Hm) as (e & He & Ht).
      rewrite bool_decide_true; [done|]. rewrite <-Ht. by apply list_elem_of_fmap_2.
Qed.

Lemma io_sets_lookup entries id :
  alookup id (_build_contract_io_sets entries) = (λ c, (io_ref <$> ac_inputs c, io_ref <$> ac_outputs c)) <$> binding entries id.
Proof.
  unfold _build_contract_io_sets, binding. induction entries as [|[k c] entries IH] using rev_ind; [done|].
  rewrite foldl_app, reverse_snoc. cbn [foldl fst snd alookup]. rewrite alookup_dict_set. by destruct (decide (id = k)).
Qed.

Lemma step_issues_nil path s inputs outputs available :
  step_issues path s inputs outputs available = [] ↔
  (∀ r, r ∈ bs_inputs s → r ∈ available ∧ r ∈ inputs) ∧ (∀ r, r ∈ bs_outputs s → r ∈ outputs).
Proof.
  unfold step_issues. rewrite app_nil, !bind_empty_iff. setoid_rewrite app_nil. by setoid_rewrite if_empty.
Qed.

Lemma lint_steps_closed entries available idx plan :
  lint_steps (_build_contract_io_sets entries) available idx plan = [] ↔ plan_closed entries available plan.
Proof.
  revert available idx. induction plan as [|s plan IH]; intros available idx; cbn [lint_steps]; [by split|].
  rewrite io_sets_lookup. destruct (binding entries (bs_agent_id s)) as [c|] eqn:Eb; cbn [fmap option_fmap option_map].
  - rewrite app_nil, step_issues_nil, IH. split.
    + intros [[Hi Ho] Hc] [|i] s' c'; cbn [lookup list_lookup].
      * intros [= <-] Hb. assert (c' = c) as -> by congruence. split; [|done]. intros r Hr. destruct (Hi r Hr). auto.
      * intros Hs Hb. destruct (Hc i s' c' Hs Hb) as [Hi' Ho']. split; [|done]. intros r Hr. destruct (Hi' r Hr) as [Hd Hav]. split; [done|].
        destruct Hav as [[Hav|Hav]%elem_of_app|(j & s2 & Hj & Hs2 & Hb2 & Hr2)]; [by left| |].
        -- right. exists 0%nat, s. split_and!; [lia|done|by rewrite Eb|done].
        -- right. exists (S j), s2. split_and!; [lia|done..].
    + intros H. split.
      * destruct (H 0%nat s c eq_refl Eb) as [Hi Ho]. split; [|done]. intros r Hr. destruct (Hi r Hr) as [Hd [Hav|(j & ? & Hj & _)]]; [done|lia].
      * intros i s' c' Hs Hb. destruct (H (S i) s' c' Hs Hb) as [Hi Ho]. split; [|done]. intros r Hr. destruct (Hi r Hr) as [Hd Hav]. split; [done|].
        destruct Hav as [Hav|([|j] & s2 & Hj & Hs2 & Hb2 & Hr2)].
        -- left. apply elem_of_app. by left.
        -- cbn in Hs2. injection Hs2 as <-. left. apply elem_of_app. by right.
        -- right. exists j, s2. split_and!; [lia|done..].
  - rewrite IH. split.
    + intros Hc [|i] s' c'; cbn [lookup list_lookup]; [intros [= <-]; congruence|]. intros Hs Hb. destruct (Hc i s' c' Hs Hb) as [Hi Ho]. split; [|done].
      intros r Hr. destruct (Hi r Hr) as [Hd [Hav|(j & s2 & Hj & ?)]]; (split; [done|]); [by left|]. right. exists (S j), s2. split; [lia|done].
    + intros H i s' c' Hs Hb. destruct (H (S i) s' c' Hs Hb) as [Hi Ho]. split; [|done]. intros r Hr. destruct (Hi r Hr) as [Hd Hav]. split; [done|].
      destruct Hav as [Hav|([|j] & s2 & Hj & Hs2 & Hb2 & Hr2)]; [by left| |].
      * cbn in Hs2. injection Hs2 as <-. rewrite Eb in Hb2. by destruct Hb2.
      * right. exists j, s2. split_and!; [lia|done..].
Qed.

Definition bundle_entries (b : Bundle) : entries_t := (λ a, (as_agent_id (ba_spec a), as_contract (ba_spec a))) <$> ab_agents b.

(** The linter reports nothing on a bundle with agents exactly when their
    declarations of a reference agree, every effect has a declared target and
    a resource effect its key fields, every output that is written has an
    effect, and every step reads what is there at the start or an earlier step
    produced, within what its agent declares. *)
Theorem bundle_lint_clean b raw_body :
  ab_agents b ≠ [] →
  lint_agent_bundle_io_contract dumps b raw_body = [] ↔
  agree (declared (bundle_entries b)) ∧
  (∀ a, a ∈ ab_agents b → effects_ok (declared (bundle_entries b)) (as_contract (ba_spec a))) ∧
  plan_closed (bundle_entries b) (_extract_preconditions raw_body) (ab_plan b).
Proof.
  intros Hne. unfold lint_agent_bundle_io_contract. fold (bundle_entries b).
  destruct (bundle_entries b) as [|e0 es] eqn:Ee; [by unfold bundle_entries in Ee; destruct (ab_agents b)|]. rewrite <-Ee. clear Ee e0 es.
  pose proof (registry_issues (bundle_entries b)) as Hr. pose proof (λ l c, contract_effects_ok l (bundle_entries b) c) as He.
  destruct (_collect_ref_registry dumps (bundle_entries b)) as [registry issues]. cbn [fst snd] in *.
  rewrite !app_nil, Hr, lint_steps_closed, bind_empty_iff. split; intros (H1 & H2 & H3); (split_and!; [done| |done]).
  - intros a Ha. apply (He (as_agent_id (ba_spec a))). apply (H2 (as_agent_id (ba_spec a), as_contract (ba_spec a))). unfold bundle_entries. apply list_elem_of_fmap. eauto.
  - intros x Hx. unfold bundle_entries in Hx. apply list_elem_of_fmap in Hx as (a & -> & Ha). cbn [fst snd]. apply He. by apply H2.
Qed.
End meaning.

(** ** What loads is well formed *)

Definition runtime_wf (r : AgentRuntime) : Prop :=
  (is_remote r = true → ∃ e t, ar_endpoint r = Some e ∧ e ≠ "" ∧ ar_transport_kind r = Some t ∧ t ≠ "") ∧
  (∀ t, ar_transport_kind r = Some t → t ∈ SUPPORTED_TRANSPORT_KINDS) ∧
  (∀ n, ar_timeout_ms r = Some n → (0 < n)%Z).

Lemma missing_false o : lacking o = false ↔ ∃ s, o = Some s ∧ s ≠ "".
Proof. destruct o as [s|]; cbn; [|naive_solver]. destruct (String.eqb_spec s ""); naive_solver. Qed.

Lemma runtime_loads `{PyText} data r : runtime_from_mapping data = Ok r → runtime_wf r.
Proof.
  unfold runtime_from_mapping. intros (config & _ & (kind & _ & (endpoint & _ & (transport & _ & (auth & _ & (retry & _ & (timeout & Ht & Hr)%res_bind_ok)%res_bind_ok)%res_bind_ok)%res_bind_ok)%res_bind_ok)%res_bind_ok)%res_bind_ok.
  destruct (match transport with Some t => _ | None => _ end) eqn:E1; [done|].
  destruct (String.eqb kind "remote" && lacking endpoint) eqn:E2; [done|].
  destruct (String.eqb kind "remote" && lacking transport) eqn:E3; [done|]. injection Hr as <-. split_and!.
  - unfold is_remote. cbn. intros Hk. rewrite Hk in E2, E3. cbn in E2, E3.
    apply missing_false in E2 as (e & -> & He), E3 as (t & -> & Hn). eauto 8.
  - cbn. intros t ->. apply negb_false_iff, bool_decide_eq_true_1 in E1. done.
  - cbn. intros n ->. unfold timeout_of in Ht. destruct (jget "timeout_ms" data); try discriminate. destruct (z <=? 0)%Z eqn:En; [done|]. injection Ht as <-. lia.
Qed.

(** Every agent of a bundle that loads has a usable runtime. *)
Theorem bundle_loads `{PyText} data b :
  bundle_from_mapping data = Ok b → Forall (λ a, runtime_wf (as_runtime (ba_spec a))) (ab_agents b).
Proof.
  unfold bundle_from_mapping. intros (l & _ & (pl & _ & (id & _ & (agents & Ha & (plan & _ & (meta & _ & [= <-])%res_bind_ok)%res_bind_ok)%res_bind_ok)%res_bind_ok)%res_bind_ok)%res_bind_ok.
  cbn [ab_agents]. unfold each_dict in Ha. apply mapM_res_ok in Ha. apply Forall_forall. intros a (i & Hi)%list_elem_of_lookup_1.
  destruct (Forall2_lookup_r _ _ _ _ _ Ha Hi) as (item & _ & (d & _ & Hd)%res_bind_ok). unfold bundle_agent_from_mapping in Hd.
  apply res_bind_ok in Hd as (spec & Hs & (role & _ & [= <-])%res_bind_ok). cbn [ba_spec]. unfold agent_from_mapping in Hs.
  apply res_bind_ok in Hs as (rt & (d' & _ & Hrt)%res_bind_ok & Hs). assert (as_runtime spec = rt) as ->; [|by eapply runtime_loads].
  by repeat (apply res_bind_ok in Hs as (? & _ & Hs)); injection Hs as <-.
Qed.

(** ** Examples *)

Definition ref_of (name mode : string) : IORef := mkIORef name "artifact" (JStr "schema") true mode.
Definition agent_of (id : string) (c : AgentContract) : BundleAgent :=
  mkBundleAgent (mkAgent id id "1" (mkRuntime "inprocess" [] None None None None None) c [] []) None.

Definition demo_agents : list BundleAgent :=
  [agent_of "reader" (mkContract [ref_of "q" "read"] [ref_of "r" "read"] []);
   agent_of "writer" (mkContract [ref_of "r" "read"] [ref_of "db" "write"] [mkEffect "w" "resource" "db" (mkIdem "key" ["id"]) None []])].

Definition demo_bundle (plan : list BundleStep) : Bundle := mkAgentBundle "b" demo_agents plan [].
Definition bstep (agent : string) (ins outs : list string) : BundleStep := mkBundleStep agent agent None ins outs None.
Definition given_q : list (string * json) := [("meta", JObj [("preconditions", JArr [JStr "q"])])].

Example order_of_steps :
  let lint plan := lt_message <$> lint_agent_bundle_io_contract (PT := plain_text) (λ _, "") (demo_bundle plan) given_q in
  lint [bstep "reader" ["q"] ["r"]; bstep "writer" ["r"] ["db"]] = [] ∧
  lint [bstep "writer" ["r"] ["db"]; bstep "reader" ["q"] ["r"]] = ["Step 'writer' reads 'r' before it is produced"].
Proof. vm_compute. done. Qed.

(** A step of an agent that is not in the bundle is not looked at. *)
Example unknown_agent_ignored :
  lint_agent_bundle_io_contract (PT := plain_text) (λ _, "") (demo_bundle [bstep "nobody" ["x"] ["y"]]) given_q = [].
Proof. vm_compute. done. Qed.
