(* ===== verification/PlanLint.v ===== *)
(** * The plan linter ([tm/lint/plan_lint.py])

    Checks over the steps and rules of a plan as it is read from a document.
    Entries that are not mappings raise, as do triggers that are not text. *)

From S2P Require Import Prelude PyVal PyConv Selectors AgentContract.
From stdpp Require Import base gmap strings list pretty.
From Stdlib Require Import ZArith Lia Ascii.

Abbreviation table := (list (string * json)) (only parsing).

(** [raw.get(key)] needs a mapping. *)
Definition plan_entry (v : json) : res table :=
  match v with JObj m => Ok m | _ => Raise (AttributeError "object has no attribute 'get'") end.

Definition plan_list (key : string) (plan_body : table) : list json :=
  match jget key plan_body with JArr l => l | _ => [] end.

(** The characters of [_TRIGGER_PATTERN]. *)
Definition trigger_char (c : ascii) : bool :=
  let n := nat_of_ascii c in
  ((65 <=? n) && (n <=? 90)) || ((97 <=? n) && (n <=? 122)) || ((48 <=? n) && (n <=? 57)) ||
  bool_decide (c ∈ ["_"; "."; "["; "]"; "*"; "$"]%char).

(** The end of the pattern also matches before a final line feed. *)
Fixpoint trigger_rest (s : string) : bool :=
  match s with
  | EmptyString => true
  | String c s' => if trigger_char c then trigger_rest s' else bool_decide (c = "010"%char) && String.eqb s' ""
  end.

Definition trigger_pattern (s : string) : bool :=
  match s with EmptyString => false | String c s' => trigger_char c && trigger_rest s' end.

Section lint.
Context {PT : PyText}.

(** A text that is not blank. *)
Definition filled_text (v : json) : option string :=
  match v with JStr s => if String.eqb (strip s) "" then None else Some s | _ => None end.

Definition field_issues (raw : table) (shown path field : string) : list ContractIssue :=
  match alookup field raw with
  | None => [lint_error "STEP_IO" ("step '" +:+ shown +:+ "' missing '" +:+ field +:+ "' field") (path +:+ "." +:+ field)]
  | Some (JArr _) => []
  | Some _ => [lint_error "STEP_IO" ("step '" +:+ shown +:+ "' " +:+ field +:+ " must be a list") (path +:+ "." +:+ field)]
  end.

Fixpoint lint_plan_steps (idx : nat) (seen : list string) (steps : list json) : res (list string * list ContractIssue) :=
  match steps with
  | [] => Ok (seen, [])
  | raw_step :: steps =>
      raw ← plan_entry raw_step;
      let path := "steps[" +:+ pretty idx +:+ "]" in
      let name := jget "name" raw in
      let shown := py_str other_str (jor name (JStr path)) in
      let '(seen, named) :=
        match filled_text name with
        | None => (seen, [lint_error "STEP_NAME" "step.name must be a non-empty string" path])
        | Some s =>
            (label_insert s seen,
             if decide (s ∈ seen) then [lint_error "STEP_NAME_UNIQUE" ("step '" +:+ s +:+ "' is not unique") path] else [])
        end in
      r ← lint_plan_steps (S idx) seen steps;
      Ok (r.1, named ++ field_issues raw shown path "reads" ++ field_issues raw shown path "writes" ++ r.2)
  end.

(** [ref not in seen_names]: a list or a mapping has no hash. *)
Definition ref_issue (seen : list string) (rule path : string) (ref : json) : res (list ContractIssue) :=
  match ref with
  | JArr _ | JObj _ => Raise (TypeError "unhashable type")
  | _ =>
      if match ref with JStr s => bool_decide (s ∈ seen) | _ => false end then Ok []
      else Ok [lint_error "RULE_REF" ("rule '" +:+ rule +:+ "' references undefined step '" +:+ py_str other_str ref +:+ "'") (path +:+ ".steps")]
  end.

Definition trigger_issue (rule path : string) (trigger : json) : res (list ContractIssue) :=
  match trigger with
  | JStr t =>
      Ok ((if String.eqb (strip t) "" then [lint_error "RULE_TRIGGER" ("rule '" +:+ rule +:+ "' trigger must be a non-empty string") (path +:+ ".triggers")] else []) ++
          (if trigger_pattern t then [] else [lint_error "RULE_TRIGGER" ("rule '" +:+ rule +:+ "' trigger '" +:+ t +:+ "' contains invalid characters") (path +:+ ".triggers")]))
  | _ => Raise (TypeError "expected string or bytes-like object")
  end.

Definition rule_steps (seen : list string) (rule path : string) (v : json) : res (list ContractIssue) :=
  if negb (truthy v) then Ok [lint_error "RULE_STEPS" ("rule '" +:+ rule +:+ "' must reference steps") path]
  else
    match v with
    | JArr refs => ls ← mapM (ref_issue seen rule path) refs; Ok (mjoin ls)
    | _ => Ok [lint_error "RULE_STEPS" ("rule '" +:+ rule +:+ "' steps must be a list") (path +:+ ".steps")]
    end.

Definition rule_triggers (rule path : string) (v : json) : res (list ContractIssue) :=
  if negb (truthy v) then Ok [lint_error "RULE_TRIGGER" ("rule '" +:+ rule +:+ "' must declare triggers") path]
  else
    match v with
    | JArr ts => ls ← mapM (trigger_issue rule path) ts; Ok (mjoin ls)
    | _ => Ok [lint_error "RULE_TRIGGER" ("rule '" +:+ rule +:+ "' triggers must be a list") (path +:+ ".triggers")]
    end.

Definition lint_rule (seen : list string) (ridx : nat) (raw_rule : json) : res (list ContractIssue) :=
  raw ← plan_entry raw_rule;
  let path := "rules[" +:+ pretty ridx +:+ "]" in
  let rule := py_str other_str (jor (jget "name" raw) (JStr ("rule[" +:+ pretty ridx +:+ "]"))) in
  a ← rule_steps seen rule path (jget "steps" raw);
  b ← rule_triggers rule path (jget "triggers" raw);
  Ok (a ++ b).

Fixpoint lint_rules (seen : list string) (ridx : nat) (rules : list json) : res (list ContractIssue) :=
  match rules with
  | [] => Ok []
  | r :: rules => a ← lint_rule seen ridx r; b ← lint_rules seen (S ridx) rules; Ok (a ++ b)
  end.

Definition lint_plan (plan_body : table) : res (list ContractIssue) :=
  s ← lint_plan_steps 0 [] (plan_list "steps" plan_body);
  r ← lint_rules s.1 0 (plan_list "rules" plan_body);
  Ok (s.2 ++ r).

(** ** What a clean plan is *)

(** A step with a name and two lists. *)
Definition good_step (v : json) (name : string) : Prop :=
  ∃ m, v = JObj m ∧ jget "name" m = JStr name ∧ strip name ≠ "" ∧
    (∃ l, alookup "reads" m = Some (JArr l)) ∧ (∃ l, alookup "writes" m = Some (JArr l)).

(** A rule whose steps are steps of the plan and whose triggers are written in
    the characters of selectors. *)
Definition good_rule (steps : list string) (v : json) : Prop :=
  ∃ m refs ts, v = JObj m ∧ jget "steps" m = JArr (JStr <$> refs) ∧ refs ≠ [] ∧ refs ⊆ steps ∧
    jget "triggers" m = JArr (JStr <$> ts) ∧ ts ≠ [] ∧ Forall (λ t, strip t ≠ "" ∧ trigger_pattern t = true) ts.

Lemma filled_text_Some v s : filled_text v = Some s ↔ v = JStr s ∧ strip s ≠ "".
Proof. unfold filled_text. destruct v; try naive_solver. destruct (String.eqb_spec (strip s0) ""); naive_solver. Qed.

Lemma field_issues_nil raw shown path field : field_issues raw shown path field = [] ↔ ∃ l, alookup field raw = Some (JArr l).
Proof. unfold field_issues. destruct (alookup field raw) as [[]|]; naive_solver. Qed.

Lemma lint_steps_clean idx seen steps seen' :
  lint_plan_steps idx seen steps = Ok (seen', []) ↔
  ∃ names, Forall2 good_step steps names ∧ NoDup names ∧ (∀ n, n ∈ names → n ∉ seen) ∧ seen' = seen ++ names.
Proof.
  revert idx seen seen'. induction steps as [|v steps IH]; intros idx seen seen'; cbn [lint_plan_steps].
  { split; [intros [= <-]; exists []; split_and!; [constructor|constructor|by intros n ?%not_elem_of_nil|by rewrite app_nil_r]|].
    intros (names & Hn & _ & _ & ->). inversion Hn. by rewrite app_nil_r. }
  destruct (plan_entry v) as [m|e] eqn:Ev.
  2: { split; [done|]. intros (names & Hn & _). inversion Hn as [|? ? ? ? Hg]; subst. by destruct Hg as (m & -> & _). }
  assert (v = JObj m) as -> by (destruct v; by simplify_eq/=).
  cbn [plan_entry mbind res_bind]. destruct (filled_text (jget "name" m)) as [s|] eqn:Es.
  2: { split; [intros (r & _ & [=])%res_bind_ok|]. intros (names & Hn & _). inversion Hn as [|? y ? ? Hg]; subst. destruct Hg as (m' & Heq & Hname & Hf & _).
       injection Heq as Heq. subst m'. assert (filled_text (jget "name" m) = Some y) by (by apply filled_text_Some). congruence. }
  pose proof Es as [Hname Hf]%filled_text_Some. split.
  - intros ([seen1 issues] & H1 & [= -> H2])%res_bind_ok. cbn [fst snd] in H2. rewrite !app_nil in H2. destruct H2 as (Hu & Hr & Hw & ->).
    destruct (decide (s ∈ seen)) as [|Hnew]; [done|]. unfold label_insert in H1. rewrite decide_False in H1 by done.
    apply IH in H1 as (names & Hn & Hnd & Hfresh & ->). exists (s :: names). split_and!.
    + constructor; [|done]. exists m. rewrite !field_issues_nil in *. done.
    + constructor; [|done]. intros Hs. apply (Hfresh s Hs). apply elem_of_app. right. by left.
    + intros n [->|Hn']%elem_of_cons; [done|]. intros Hx. apply (Hfresh n Hn'). apply elem_of_app. by left.
    + by rewrite <-app_assoc.
  - intros (names & Hn & Hnd & Hfresh & ->). inversion Hn as [|? n ? names' Hg Hn']; subst. destruct Hg as (m' & Heq & Hnm & Hf' & Hr & Hw).
    injection Heq as Heq. subst m'. assert (n = s) as -> by congruence. apply NoDup_cons in Hnd as [Hs Hnd].
    assert (s ∉ seen) as Hsn by (apply Hfresh; by left). unfold label_insert. rewrite !decide_False by done.
    assert (lint_plan_steps (S idx) (seen ++ [s]) steps = Ok ((seen ++ [s]) ++ names', [])) as ->.
    { apply IH. exists names'. split_and!; [done|done| |done]. intros n Hn2 [Hx|Hx%list_elem_of_singleton]%elem_of_app; [|by subst].
      apply (Hfresh n); [by right|done]. }
    cbn [mbind res_bind fst snd]. rewrite <-app_assoc. f_equal. f_equal. rewrite !app_nil. split_and!; [done|by apply field_issues_nil..|done].
Qed.

(** A check of each element of a list that finds nothing. *)
Lemma mapM_join_nil {A} (f : A → res (list ContractIssue)) (good : A → Prop) l :
  (∀ x, f x = Ok [] ↔ good x) → (ls ← mapM f l; Ok (mjoin ls)) = Ok [] ↔ Forall good l.
Proof.
  intros Hf. split.
  - intros (ls & Hls & [= Hj])%res_bind_ok. apply mapM_res_ok in Hls. revert Hj. induction Hls as [|x b l ls Hx Hls IH]; cbn; [by constructor|].
    intros [-> Hj]%app_nil. constructor; [by apply Hf|by apply IH].
  - intros Hg. assert (mapM f l = Ok ((λ _, []) <$> l)) as ->.
    { apply mapM_res_ok. induction Hg; cbn; constructor; [by apply Hf|done]. }
    cbn. f_equal. clear. induction l; cbn; done.
Qed.

Lemma ref_issue_nil seen rule path v : ref_issue seen rule path v = Ok [] ↔ ∃ s, v = JStr s ∧ s ∈ seen.
Proof.
  unfold ref_issue. destruct v; try (split; [done|by intros (? & [=] & _)]).
  destruct (bool_decide_reflect (s ∈ seen)); split; try done; [by eexists|]. by intros (? & [= <-] & ?).
Qed.

Lemma trigger_issue_nil rule path v :
  trigger_issue rule path v = Ok [] ↔ ∃ t, v = JStr t ∧ strip t ≠ "" ∧ trigger_pattern t = true.
Proof.
  unfold trigger_issue. destruct v; try (split; [done|by intros (? & [=] & _)]).
  destruct (String.eqb_spec (strip s) ""), (trigger_pattern s) eqn:E; cbn; split; try done; try (intros (? & [= <-] & ? & ?); congruence). by exists s.
Qed.

Lemma Forall_texts (P : string → Prop) l : Forall (λ v, ∃ s, v = JStr s ∧ P s) l ↔ ∃ ss, l = JStr <$> ss ∧ Forall P ss.
Proof.
  split.
  - induction 1 as [|v l (s & -> & Hs) _ (ss & -> & Hss)]; [by exists []|]. exists (s :: ss). split; [done|by constructor].
  - intros (ss & -> & Hss). induction Hss; cbn; constructor; eauto.
Qed.

Lemma rule_steps_nil seen rule path v :
  rule_steps seen rule path v = Ok [] ↔ ∃ refs, v = JArr (JStr <$> refs) ∧ refs ≠ [] ∧ refs ⊆ seen.
Proof.
  unfold rule_steps. destruct v as [| | | | |l|]; try (destruct (negb _); (split; [discriminate|intros (? & [=] & _)]); fail).
  destruct l as [|x l]; [split; [done|intros ([|] & [=] & ? & _); done]|]. cbn [truthy negb].
  rewrite (mapM_join_nil _ _ _ (ref_issue_nil seen rule path)), (Forall_texts (λ s, s ∈ seen)). split.
  - intros (refs & Hl & Hr). exists refs. split_and!; [by rewrite Hl|by destruct refs|]. intros s Hs. rewrite Forall_forall in Hr. by apply Hr.
  - intros (refs & [= Hl] & _ & Hr). exists refs. split; [done|]. apply Forall_forall. intros s Hs. by apply Hr.
Qed.

Lemma rule_triggers_nil rule path v :
  rule_triggers rule path v = Ok [] ↔
  ∃ ts, v = JArr (JStr <$> ts) ∧ ts ≠ [] ∧ Forall (λ t, strip t ≠ "" ∧ trigger_pattern t = true) ts.
Proof.
  unfold rule_triggers. destruct v as [| | | | |l|]; try (destruct (negb _); (split; [discriminate|intros (? & [=] & _)]); fail).
  destruct l as [|x l]; [split; [done|intros ([|] & [=] & ? & _); done]|]. cbn [truthy negb].
  rewrite (mapM_join_nil _ _ _ (trigger_issue_nil rule path)), (Forall_texts (λ t, strip t ≠ "" ∧ trigger_pattern t = true)). split.
  - intros (ts & Hl & Ht). exists ts. split_and!; [by rewrite Hl|by destruct ts|done].
  - intros (ts & [= Hl] & _ & Ht). by exists ts.
Qed.

Lemma lint_rule_clean seen ridx v : lint_rule seen ridx v = Ok [] ↔ good_rule seen v.
Proof.
  unfold lint_rule, good_rule. destruct (plan_entry v) as [m|e] eqn:Ev.
  2: { split; [done|]. by intros (m & ? & ? & -> & _). }
  assert (v = JObj m) as -> by (destruct v; by simplify_eq/=). cbn [mbind res_bind]. split.
  - intros (a & Ha & (b & Hb & [= [-> ->]%app_nil])%res_bind_ok)%res_bind_ok.
    apply rule_steps_nil in Ha as (refs & ? & ? & ?). apply rule_triggers_nil in Hb as (ts & ? & ? & ?). by exists m, refs, ts.
  - intros (m' & refs & ts & [= <-] & ? & ? & ? & ? & ? & ?).
    rewrite (proj2 (rule_steps_nil _ _ _ _)) by (by exists refs). cbn [mbind res_bind].
    rewrite (proj2 (rule_triggers_nil _ _ _)) by (by exists ts). done.
Qed.

Lemma lint_rules_clean seen ridx rules : lint_rules seen ridx rules = Ok [] ↔ Forall (good_rule seen) rules.
Proof.
  revert ridx. induction rules as [|v rules IH]; intros ridx; cbn [lint_rules]; [split; [constructor|done]|]. rewrite Forall_cons. split.
  - intros (a & Ha & (b & Hb & [= [-> ->]%app_nil])%res_bind_ok)%res_bind_ok. apply lint_rule_clean in Ha. by apply IH in Hb.
  - intros [Ha Hb]. rewrite (proj2 (lint_rule_clean _ _ _) Ha). cbn [mbind res_bind]. by rewrite (proj2 (IH _) Hb).
Qed.

(** The linter reports nothing exactly on plans whose steps are mappings with
    distinct names and lists of reads and writes, and whose rules name steps of
    the plan and have triggers in the characters of selectors. *)
Theorem lint_plan_clean plan_body :
  lint_plan plan_body = Ok [] ↔
  ∃ names, NoDup names ∧ Forall2 good_step (plan_list "steps" plan_body) names ∧
    Forall (good_rule names) (plan_list "rules" plan_body).
Proof.
  unfold lint_plan. split.
  - intros ([seen a] & Ha & (b & Hb & [= [-> ->]%app_nil])%res_bind_ok)%res_bind_ok. cbn [fst snd] in *.
    apply lint_steps_clean in Ha as (names & ? & ? & _ & ->). apply lint_rules_clean in Hb. by exists names.
  - intros (names & Hnd & Hs & Hr). rewrite (proj2 (lint_steps_clean 0 [] _ names)).
    + cbn [mbind res_bind fst snd]. by rewrite (proj2 (lint_rules_clean _ _ _) Hr).
    + exists names. split_and!; [done|done|by intros n _ ?%not_elem_of_nil|done].
Qed.
End lint.

(** ** Examples *)

#[local] Existing Instance plain_text.

Definition one_rule_plan (trigger : json) : list (string * json) :=
  [("steps", JArr [JObj [("name", JStr "s"); ("reads", JArr []); ("writes", JArr [])]]);
   ("rules", JArr [JObj [("steps", JArr [JStr "s"]); ("triggers", JArr [trigger])]])].

(** A trigger without its closing bracket passes and is refused by the parser
    of selectors. *)
Example open_bracket_passes :
  lint_plan (one_rule_plan (JStr "a[")) = Ok [] ∧ parse "a[" = Raise (ValueError "Unclosed '[' in selector").
Proof. vm_compute. done. Qed.

(** A trigger that is not text raises instead of being reported. *)
Example number_raises : is_ok (lint_plan (one_rule_plan (JInt 1))) = false.
Proof. vm_compute. done. Qed.
