(* ===== verification/Composer.v ===== *)
(** * The workflow composer ([tm/composer/engine.py])

    Workflows are built from templates, checked against a policy and an
    intent, scored and ranked.  Intents, policies and capabilities are
    mappings; costs are exact numbers; SHA-256 and the clock are arguments. *)

From S2P Require Import Prelude PyVal PyConv Policy Deterministic.
From stdpp Require Import base gmap strings list sorting pretty.
From Stdlib Require Import ZArith QArith Qminmax Lia Lqa Ascii.

Local Open Scope nat_scope.

Abbreviation table := (list (string * json)) (only parsing).

Record TemplateStep : Type := mkStepDef { sd_capability : string; sd_description : string; sd_requires_guard : bool }.
Record Template : Type := mkTemplate { tp_id : string; tp_name : string; tp_steps : list TemplateStep }.

Definition TEMPLATES : list Template :=
  [mkTemplate "T1" "classify-validate-external-write"
     [mkStepDef "compute.process" "Classify input" false; mkStepDef "validate.result" "Validate classification" false;
      mkStepDef "external.write" "Write result to external system" true];
   mkTemplate "T2" "classify-case-audit"
     [mkStepDef "compute.process" "Classify input" false; mkStepDef "case.create" "Create case record" false;
      mkStepDef "audit.record" "Audit the operation" false];
   mkTemplate "T3" "classify-guarded-write-case-audit"
     [mkStepDef "compute.process" "Classify input" false; mkStepDef "external.write" "Guarded external write" true;
      mkStepDef "case.create" "Create case document" false; mkStepDef "audit.record" "Audit the flow" false];
   mkTemplate "T4" "classify-case-guarded-notify-audit"
     [mkStepDef "compute.process" "Classify input" false; mkStepDef "case.create" "Create case document" false;
      mkStepDef "external.notify" "Notify downstream system" true; mkStepDef "audit.record" "Audit the notification" false]].

Record CandidateRejection : Type := mkRejection {
  rj_template_id : string;
  rj_template_name : string;
  rj_code : string;
  rj_message : string;
  rj_evidence : table;
  rj_signature : option string
}.

(** A step of a workflow: its id, capability, description and guard. *)
Record step_record : Type := mkRecord {
  sr_step_id : string;
  sr_capability_id : string;
  sr_description : string;
  sr_guard : option table
}.

Record metrics : Type := mkMetrics {
  mt_steps : nat;
  mt_side_effect_steps : nat;
  mt_irreversible : nat;
  mt_nondet : nat;
  mt_guards : nat;
  mt_approval_guards : nat
}.

Record normalized : Type := mkNormalized {
  nm_side_effect : Q;
  nm_irreversible : Q;
  nm_nondet : Q;
  nm_guards : Q;
  nm_approval : Q;
  nm_complexity : Q
}.

Record Candidate : Type := mkCandidate {
  cd_template_id : string;
  cd_template_name : string;
  cd_workflow : table;
  cd_candidate_id : string;
  cd_signature : string;
  cd_metrics : metrics;
  cd_normalized : normalized;
  cd_guard_names : list json
}.

(** [d[key]]. *)
Definition item (m : table) (key : string) : res json :=
  match alookup key m with Some v => Ok v | None => Raise (KeyError key) end.

(** [value.get(key, default)] needs a mapping. *)
Definition get_of (v : json) (key : string) (d : json) : res json := m ← items_of v; Ok (get_or key d m).

(** A key of a dictionary needs a hash. *)
Definition hashable (v : json) : res json :=
  match v with JArr _ | JObj _ => Raise (TypeError "unhashable type") | _ => Ok v end.

Section composer.
Context {PT : PyText}.

(** ** Names *)

Definition signature_part (step_id : string) (guard : json) : string :=
  step_id +:+ (if truthy guard then "[" +:+ str guard +:+ "]" else "").

Definition _compute_signature (steps : list (string * json)) : string :=
  String.concat "->" ((λ sg, signature_part sg.1 sg.2) <$> steps).

Definition slug_char (c : ascii) : bool :=
  let n := nat_of_ascii c in ((97 <=? n) && (n <=? 122)) || ((48 <=? n) && (n <=? 57)).

(** [re.sub("[^a-z0-9]+", "-", text)]. *)
Fixpoint dash_runs (inside : bool) (s : string) : string :=
  match s with
  | EmptyString => EmptyString
  | String c s' =>
      if slug_char c then String c (dash_runs false s')
      else if inside then dash_runs true s' else String "-"%char (dash_runs true s')
  end.

Definition drop_dash (s : string) : string := match s with String "-"%char s' => s' | _ => s end.

Fixpoint drop_last_dash (s : string) : string :=
  match s with
  | EmptyString => EmptyString
  | String "-"%char EmptyString => EmptyString
  | String c s' => String c (drop_last_dash s')
  end.

Definition _sanitize_identifier (value d : string) : string :=
  if String.eqb value "" then d
  else let cleaned := drop_last_dash (drop_dash (dash_runs false (str_lower value))) in
       if String.eqb cleaned "" then d else cleaned.

(** ** The composer *)

Record WorkflowComposer : Type := mkComposer {
  wc_intent : table;
  wc_policy : table;
  wc_capabilities : list (string * table);
  wc_engine : PolicyEvaluator;
  wc_guard_lookup : list (string * list table)
}.

Fixpoint add_guard (cap : string) (g : table) (m : list (string * list table)) : list (string * list table) :=
  match m with
  | [] => [(cap, [g])]
  | (k, l) :: m => if decide (cap = k) then (k, l ++ [g]) :: m else (k, l) :: add_guard cap g m
  end.

Definition guarded_by (v : json) : list string :=
  match v with JStr s => [s] | JArr l => str <$> l | _ => [] end.

Fixpoint guard_table (guards : list json) (m : list (string * list table)) : res (list (string * list table)) :=
  match guards with
  | [] => Ok m
  | g :: guards =>
      g ← items_of g;
      guard_table guards (foldl (λ m cap, add_guard cap g m) m (guarded_by (jget "required_for" g)))
  end.

(** Later capabilities with the same id replace earlier ones. *)
Definition capability_table (capabilities : list table) : list (string * table) :=
  foldl (λ m spec, match alookup "capability_id" spec with Some id => dict_set (str id) spec m | None => m end) [] capabilities.

Definition composer_new (intent policy : table) (capabilities : list table) : res WorkflowComposer :=
  engine ← evaluator policy;
  guards ← spec_list policy "guards";
  lookup ← guard_table guards [];
  Ok (mkComposer intent policy (capability_table capabilities) engine lookup).

(** [sorted(guards, key=lambda g: g.get("name") or "")]: an insertion sort
    whose comparisons may raise. *)
Definition guard_key (g : table) : json := jor (jget "name" g) (JStr "").

Fixpoint insert_guard (g : table) (l : list table) : res (list table) :=
  match l with
  | [] => Ok [g]
  | h :: l' =>
      before ← py_order LtO (guard_key g) (guard_key h);
      if before : bool then Ok (g :: l) else (cons h) <$> insert_guard g l'
  end.

Fixpoint sort_guards (acc l : list table) : res (list table) :=
  match l with
  | [] => Ok acc
  | g :: l => acc ← insert_guard g acc; sort_guards acc l
  end.

Definition needs_guard (sd : TemplateStep) (spec : table) : res bool :=
  if sd_requires_guard sd then Ok true
  else v ← get_of (get_or "safety_contract" (JObj []) spec) "side_effects" JNull; Ok (truthy v).

(** The states an extractor produces. *)
Definition produce (state : table) (extractor : json) : res table :=
  m ← items_of extractor;
  produces ← items_of (jor (jget "produces" m) (JObj []));
  Ok (foldl (λ st kv, dict_set kv.1 (match kv.2 with JObj v => get_or "value" (JBool true) v | v => v end) st) state produces).

Fixpoint produce_all (state : table) (extractors : list json) : res table :=
  match extractors with
  | [] => Ok state
  | e :: extractors => state ← produce state e; produce_all state extractors
  end.

Record assembly : Type := mkBuilt {
  bt_steps : list step_record;
  bt_guard_names : list json;
  bt_guard_entries : list (json * table);
  bt_state : table
}.

(** [guard_entries[name] = guard]. *)
Fixpoint record_guard (name : json) (g : table) (l : list (json * table)) : list (json * table) :=
  match l with
  | [] => [(name, g)]
  | (k, h) :: l => if py_eq name k then (k, g) :: l else (k, h) :: record_guard name g l
  end.

Definition rejection (t : Template) (code message : string) (evidence : table) (signature : option string) : CandidateRejection :=
  mkRejection (tp_id t) (tp_name t) code message evidence signature.

Definition guard_fields (g : table) : table :=
  [("name", jget "name" g); ("type", jget "type" g); ("required_for", jget "required_for" g); ("scope", jget "scope" g)].

Fixpoint build_steps (w : WorkflowComposer) (t : Template) (idx : nat) (steps : list TemplateStep) (b : assembly) : res (CandidateRejection + assembly) :=
  match steps with
  | [] => Ok (inr b)
  | sd :: steps =>
      let cap_id := sd_capability sd in
      match alookup cap_id (wc_capabilities w) with
      | None => Ok (inl (rejection t "MISSING_CAPABILITY" ("capability '" +:+ cap_id +:+ "' missing from catalog") [("capability_id", JStr cap_id)] None))
      | Some spec =>
          needed ← needs_guard sd spec;
          options ← (if needed : bool then sort_guards [] (default [] (alookup cap_id (wc_guard_lookup w))) else Ok []);
          match needed, options with
          | true, [] => Ok (inl (rejection t "GUARD_REQUIRED_BUT_MISSING" ("guard required for capability '" +:+ cap_id +:+ "'") [("capability_id", JStr cap_id)] None))
          | _, _ =>
              let guard := head options in
              named ← match guard with
                      | Some g => name ← (v ← item g "name"; hashable v); Ok (name, record_guard name g (bt_guard_entries b))
                      | None => Ok (JStr "", bt_guard_entries b)
                      end;
              extractors ← py_iter (jor (jget "state_extractors" spec) (JArr []));
              state ← produce_all (bt_state b) extractors;
              build_steps w t (S idx) steps
                (mkBuilt (bt_steps b ++ [mkRecord (tp_id t +:+ ".step" +:+ pretty (S idx)) cap_id (sd_description sd) (guard_fields <$> guard)])
                   (bt_guard_names b ++ [named.1]) named.2 state)
          end
      end
  end.

(** ** Metrics and costs *)

(** [value or {}], then [.get(key)]. *)
Definition sub_get (m : table) (outer key : string) : res json := get_of (jor (jget outer m) (JObj [])) key JNull.

Definition is_false (v : json) : bool := match v with JBool false => true | _ => false end.

Definition count_step (w : WorkflowComposer) (m : metrics) (s : step_record) : res metrics :=
  spec ← match alookup (sr_capability_id s) (wc_capabilities w) with Some spec => Ok spec | None => Raise (KeyError (sr_capability_id s)) end;
  safety ← items_of (jor (jget "safety_contract" spec) (JObj []));
  let side := if truthy (jget "side_effects" safety) then 1 else 0 in
  supported ← sub_get safety "rollback" "supported";
  let irr := if is_false supported then 1 else 0 in
  let nondet := if is_false (jget "determinism" safety) then 1 else 0 in
  let '(g, a) :=
    match sr_guard s with
    | None => (0, 0)
    | Some g => (1, if json_eqb (jget "type" g) (JStr "approval") then 1 else 0)
    end in
  Ok (mkMetrics (mt_steps m) (mt_side_effect_steps m + side) (mt_irreversible m + irr) (mt_nondet m + nondet) (mt_guards m + g) (mt_approval_guards m + a)).

Fixpoint count_steps (w : WorkflowComposer) (m : metrics) (steps : list step_record) : res metrics :=
  match steps with
  | [] => Ok m
  | s :: steps => m ← count_step w m s; count_steps w m steps
  end.

Definition _metrics_for_steps (w : WorkflowComposer) (steps : list step_record) : res metrics :=
  count_steps w (mkMetrics (length steps) 0 0 0 0 0) steps.

Definition ratio (a b : nat) : Q := (inject_Z (Z.of_nat a) / inject_Z (Z.of_nat b))%Q.

Definition _normalize_metrics (m : metrics) : normalized :=
  let n := if decide (mt_steps m = 0) then 1 else mt_steps m in
  mkNormalized (ratio (mt_side_effect_steps m) n) (ratio (mt_irreversible m) n) (ratio (mt_nondet m) n)
    (Qmin 1 (ratio (mt_guards m) n)) (Qmin 1 (ratio (mt_approval_guards m) (Nat.max 1 (mt_side_effect_steps m))))
    (Qmin 1 (ratio (n - 1) (n + 3))).

Inductive mode : Type := Conservative | Aggressive.

(** [MODE_WEIGHTS.get(mode)]. *)
Definition weights_for (m : string) : option mode :=
  if String.eqb m "conservative" then Some Conservative else if String.eqb m "aggressive" then Some Aggressive else None.

(** The cost terms, in the order in which they are added up. *)
Definition cost_terms (m : mode) (n : normalized) : list (string * Q) :=
  match m with
  | Conservative =>
      [("side_effect", nm_side_effect n * 5); ("irreversible", nm_irreversible n * 4); ("nondet", nm_nondet n * 3);
       ("complexity", nm_complexity n * 2); ("guards", nm_guards n * (1 # 2)); ("approval_coverage", (1 - nm_approval n) * 6)]
  | Aggressive =>
      [("complexity", nm_complexity n * 5); ("side_effect", nm_side_effect n * 2); ("irreversible", nm_irreversible n * 3);
       ("nondet", nm_nondet n * (3 # 2)); ("guards", nm_guards n * (- (1 # 2))); ("approval_coverage", (1 - nm_approval n) * 8)]
  end%Q.

Definition total_cost (m : mode) (n : normalized) : Q := foldl (λ s t, s + t.2)%Q 0%Q (cost_terms m n).

(** ** Candidates *)

Section candidates.
(** The first eight hexadecimal digits of the SHA-256 of a text. *)
Context (short_digest : string → string) (created_at : string).

Definition json_guard (o : option table) : table := match o with Some g => [("guard", JObj g)] | None => [] end.

Definition step_fields (s : step_record) : json :=
  JObj ([("step_id", JStr (sr_step_id s)); ("capability_id", JStr (sr_capability_id s)); ("description", JStr (sr_description s))] ++ json_guard (sr_guard s)).

Definition workflow_edges (steps : list step_record) : list json :=
  zip_with (λ a b, JObj [("from", JStr (sr_step_id a)); ("to", JStr (sr_step_id b))]) steps (tail steps).

Definition workflow_of (w : WorkflowComposer) (t : Template) (b : assembly) (candidate_id : string) (target : json) : table :=
  let policy_id := str_lower (str (jor (jget "policy_id" (wc_policy w)) (JStr "policy"))) in
  [("workflow_id", JStr (policy_id +:+ "." +:+ _sanitize_identifier (tp_id t) (str_lower (tp_id t)) +:+ "." +:+ candidate_id));
   ("intent_id", jget "intent_id" (wc_intent w)); ("policy_id", jget "policy_id" (wc_policy w)); ("name", JStr (tp_name t));
   ("version", jget "version" (wc_intent w)); ("steps", JArr (step_fields <$> bt_steps b)); ("transitions", JArr (workflow_edges (bt_steps b)));
   ("guards", JArr (JObj ∘ snd <$> bt_guard_entries b));
   ("explanation", JObj [("intent_coverage", JStr ("covers intent " +:+ str target));
                         ("capability_reasoning", JStr (String.concat ", " (sr_capability_id <$> bt_steps b)));
                         ("constraint_coverage", JStr "validated against policy guards"); ("risks", JArr [])]);
   ("created_at", JStr created_at); ("metadata", JObj [("template", JStr (tp_id t))])].

Definition goal_target (w : WorkflowComposer) : res json := get_of (get_or "goal" (JObj []) (wc_intent w)) "target" JNull.

Definition last_step (b : assembly) : step_record := default (mkRecord "" "" "" None) (last (bt_steps b)).

Definition _build_candidate (w : WorkflowComposer) (t : Template) : res (CandidateRejection + Candidate) :=
  r ← build_steps w t 0 (tp_steps t) (mkBuilt [] [] [] []);
  match r with
  | inl refused => Ok (inl refused)
  | inr b =>
      let signature := _compute_signature (zip (sr_step_id <$> bt_steps b) (bt_guard_names b)) in
      let candidate_id := short_digest signature in
      target ← goal_target w;
      let workflow := workflow_of w t b candidate_id target in
      violations ← check_state (wc_engine w) (bt_state b);
      match violations with
      | violation :: _ =>
          Ok (inl (rejection t "POLICY_INVARIANT_VIOLATION" (pv_detail violation)
                     [("invariant_id", JStr (pv_rule_id violation)); ("offending_step", JStr (sr_step_id (last_step b)));
                      ("offending_capability", JStr (sr_capability_id (last_step b))); ("state_at_violation", JObj (bt_state b))]
                     (Some signature)))
      | [] =>
          let goal := str (jor target (JStr "")) in
          if String.eqb goal "" || negb (truthy (jget goal (bt_state b))) then
            Ok (inl (rejection t "UNSATISFIABLE_INTENT" "workflow never produces intent goal" [("missing_goal", JStr goal)] (Some signature)))
          else
            m ← _metrics_for_steps w (bt_steps b);
            Ok (inr (mkCandidate (tp_id t) (tp_name t) workflow candidate_id signature m (_normalize_metrics m)
                       (filter (λ n, truthy n = true) (bt_guard_names b))))
      end
  end.

Fixpoint build_all (w : WorkflowComposer) (ts : list Template) : res (list Candidate * list CandidateRejection) :=
  match ts with
  | [] => Ok ([], [])
  | t :: ts =>
      c ← _build_candidate w t;
      rest ← build_all w ts;
      Ok (match c with inl r => (rest.1, r :: rest.2) | inr c => (c :: rest.1, rest.2) end)
  end.

(** ** Ranking *)

(** [(total_cost, (n_steps, signature))] as a key. *)
Definition ranks_before (m : mode) (a b : Candidate) : bool :=
  match Qcompare (total_cost m (cd_normalized a)) (total_cost m (cd_normalized b)) with
  | Lt => true
  | Gt => false
  | Eq =>
      match Nat.compare (mt_steps (cd_metrics a)) (mt_steps (cd_metrics b)) with
      | Lt => true
      | Gt => false
      | Eq => bool_decide (str_le (cd_signature a) (cd_signature b))
      end
  end.

Fixpoint insert_candidate (m : mode) (c : Candidate) (l : list Candidate) : list Candidate :=
  match l with
  | [] => [c]
  | d :: l' => if ranks_before m c d then c :: l else d :: insert_candidate m c l'
  end.

(** A stable sort. *)
Definition rank_candidates (m : mode) (l : list Candidate) : list Candidate := foldr (insert_candidate m) [] l.

(** [l[:k]]. *)
Definition py_prefix {A} (k : Z) (l : list A) : list A :=
  if (k <? 0)%Z then take (length l - Z.to_nat (- k)) l else take (Z.to_nat k) l.

Definition invariant_name (v : json) : res json :=
  m ← items_of v;
  Ok (jor (jget "id" m) (jor (jget "name" m) (jor (jget "rule" m) (JStr "unknown")))).

Record AcceptedEntry : Type := mkAccepted {
  ac_candidate : Candidate;
  ac_mode : mode;
  ac_total_cost : Q;
  ac_rationale : list string;
  ac_invariants : list json
}.

Definition rationale_of (m : metrics) (target : json) : list string :=
  [if decide (mt_side_effect_steps m = 0) then "No side effects are triggered." else pretty (mt_side_effect_steps m) +:+ " side-effect steps reported."] ++
  (if decide (mt_irreversible m = 0) then ["All steps are rollback-friendly."] else []) ++
  (if decide (mt_nondet m = 0) then ["Workflow remains deterministic."] else []) ++
  (if truthy target then ["Satisfies goal: " +:+ str target +:+ "."] else []).

Definition _format_accepted_entry (w : WorkflowComposer) (m : mode) (c : Candidate) : res AcceptedEntry :=
  invariants ← spec_list (wc_policy w) "invariants";
  passed ← mapM invariant_name invariants;
  target ← goal_target w;
  Ok (mkAccepted c m (total_cost m (cd_normalized c)) (rationale_of (cd_metrics c) target) passed).

Definition accept_mode (w : WorkflowComposer) (candidates : list Candidate) (top_k : Z) (mode : string) : res (list AcceptedEntry) :=
  match weights_for mode with
  | None => Ok []
  | Some m => mapM (_format_accepted_entry w m) (py_prefix top_k (rank_candidates m candidates))
  end.

(** Rejections by code and signature, or template. *)
Definition rejection_key (r : CandidateRejection) : string := match rj_signature r with Some s => if String.eqb s "" then rj_template_id r else s | None => rj_template_id r end.

Definition rejected_before (a b : CandidateRejection) : bool :=
  if String.eqb (rj_code a) (rj_code b) then bool_decide (str_le (rejection_key a) (rejection_key b)) else bool_decide (str_le (rj_code a) (rj_code b)).

Fixpoint insert_rejection (r : CandidateRejection) (l : list CandidateRejection) : list CandidateRejection :=
  match l with
  | [] => [r]
  | d :: l' => if rejected_before r d then r :: l else d :: insert_rejection r l'
  end.

Record compose_result : Type := mkResult {
  cr_workflow_policy : table;
  cr_accepted : list AcceptedEntry;
  cr_rejected : list CandidateRejection
}.

Definition compose (w : WorkflowComposer) (modes : list string) (top_k : Z) : res compose_result :=
  built ← build_all w TEMPLATES;
  acc ← mapM (accept_mode w built.1 top_k) modes;
  let acc := mjoin acc in
  Ok (mkResult (match acc with a :: _ => cd_workflow (ac_candidate a) | [] => [] end) acc (foldr insert_rejection [] built.2)).
End candidates.
End composer.

(** ** What is accepted *)

Section accepted_workflows.
Context {PT : PyText} (short_digest : string → string) (created_at : string).

(** A step of a template in a workflow: its capability is in the catalog, and
    a step that needs a guard has one of the policy's guards for its
    capability. *)
Definition step_fits (w : WorkflowComposer) (sd : TemplateStep) (s : step_record) : Prop :=
  sr_capability_id s = sd_capability sd ∧
  ∃ spec needed, alookup (sd_capability sd) (wc_capabilities w) = Some spec ∧ needs_guard sd spec = Ok needed ∧
    if needed : bool
    then ∃ g, g ∈ default [] (alookup (sd_capability sd) (wc_guard_lookup w)) ∧ sr_guard s = Some (guard_fields g)
    else sr_guard s = None.

(** The state after the steps: what their capabilities produce, in order. *)
Inductive runs_to (w : WorkflowComposer) : table → list TemplateStep → table → Prop :=
| runs_nil st : runs_to w st [] st
| runs_cons st sd steps spec extractors st1 st2 :
    alookup (sd_capability sd) (wc_capabilities w) = Some spec →
    py_iter (jor (jget "state_extractors" spec) (JArr [])) = Ok extractors →
    produce_all st extractors = Ok st1 → runs_to w st1 steps st2 → runs_to w st (sd :: steps) st2.

Lemma insert_guard_elem g l l' : insert_guard g l = Ok l' → ∀ x, x ∈ l' ↔ x = g ∨ x ∈ l.
Proof.
  revert l'. induction l as [|h l IH]; intros l'; cbn [insert_guard].
  - intros [= <-] x. rewrite list_elem_of_singleton, elem_of_nil. tauto.
  - intros (b & _ & H)%res_bind_ok. destruct b; [injection H as <-; intros x; by rewrite elem_of_cons|].
    destruct (insert_guard g l) as [l1|e]; [|done]. injection H as <-. intros x. rewrite !elem_of_cons, (IH l1 eq_refl). tauto.
Qed.

Lemma sort_guards_elem acc l l' : sort_guards acc l = Ok l' → ∀ x, x ∈ l' ↔ x ∈ acc ∨ x ∈ l.
Proof.
  revert acc. induction l as [|g l IH]; intros acc; cbn [sort_guards].
  - intros [= <-] x. rewrite elem_of_nil. tauto.
  - intros (acc1 & H1 & H)%res_bind_ok x. rewrite (IH _ H), (insert_guard_elem _ _ _ H1), elem_of_cons. tauto.
Qed.

Lemma build_steps_fits w t idx steps b b' :
  build_steps w t idx steps b = Ok (inr b') →
  ∃ new, bt_steps b' = bt_steps b ++ new ∧ Forall2 (step_fits w) steps new ∧ runs_to w (bt_state b) steps (bt_state b').
Proof.
  revert idx b. induction steps as [|sd steps IH]; intros idx b; cbn [build_steps].
  { intros [= ->]. exists []. split_and!; [by rewrite app_nil_r|constructor|constructor]. }
  destruct (alookup (sd_capability sd) (wc_capabilities w)) as [spec|] eqn:Ec; [|done].
  intros (needed & Hn & (options & Ho & H)%res_bind_ok)%res_bind_ok.
  assert (∃ named extractors state, py_iter (jor (jget "state_extractors" spec) (JArr [])) = Ok extractors ∧ produce_all (bt_state b) extractors = Ok state ∧
    build_steps w t (S idx) steps (mkBuilt (bt_steps b ++ [mkRecord (tp_id t +:+ ".step" +:+ pretty (S idx)) (sd_capability sd) (sd_description sd) (guard_fields <$> head options)])
      (bt_guard_names b ++ [named.1]) named.2 state) = Ok (inr b') ∧ (needed = true → options ≠ [])) as (named & extractors & state & Hx & Hp & Hb & Hne).
  { destruct needed, options as [|g options]; try discriminate; apply res_bind_ok in H as (named & _ & (extractors & Hx & (state & Hp & H)%res_bind_ok)%res_bind_ok);
      exists named, extractors, state; done. }
  clear H. apply IH in Hb as (new & Hs & Hf & Hr). cbn [bt_steps bt_state] in Hs, Hr. eexists (_ :: new). split_and!.
  - rewrite Hs, <-app_assoc. done.
  - constructor; [|done]. split; [done|]. exists spec, needed. split_and!; [done|done|]. cbn [sr_guard]. destruct needed.
    + destruct options as [|g options]; [by destruct Hne|]. exists g. split; [|done].
      destruct (proj1 (sort_guards_elem [] _ _ Ho g) ltac:(by left)) as [?%not_elem_of_nil|?]; done.
    + by injection Ho as <-.
  - by eapply runs_cons.
Qed.

(** A workflow of a template that keeps the policy and reaches the goal. *)
Definition workflow_fits (w : WorkflowComposer) (t : Template) (c : Candidate) : Prop :=
  cd_template_id c = tp_id t ∧
  ∃ b goal, Forall2 (step_fits w) (tp_steps t) (bt_steps b) ∧ runs_to w [] (tp_steps t) (bt_state b) ∧
    check_state (wc_engine w) (bt_state b) = Ok [] ∧
    goal_target w = Ok goal ∧ truthy (jget (str goal) (bt_state b)) = true ∧ str goal ≠ "" ∧
    alookup "steps" (cd_workflow c) = Some (JArr (step_fields <$> bt_steps b)) ∧
    alookup "transitions" (cd_workflow c) = Some (JArr (workflow_edges (bt_steps b))).

Lemma build_candidate_fits w t c : _build_candidate short_digest created_at w t = Ok (inr c) → workflow_fits w t c.
Proof.
  unfold _build_candidate. intros (r & Hr & H)%res_bind_ok. destruct r as [r|b]; [done|].
  apply res_bind_ok in H as (target & Ht & (violations & Hv & H)%res_bind_ok). destruct violations as [|v vs]; [|done].
  destruct (String.eqb (str (jor target (JStr ""))) "" || negb (truthy (jget (str (jor target (JStr ""))) (bt_state b)))) eqn:Eg; [done|].
  apply res_bind_ok in H as (m & _ & [= <-]). apply orb_false_iff in Eg as [Eg1 Eg2]. apply negb_false_iff in Eg2.
  apply build_steps_fits in Hr as (new & Hs & Hf & Hrun). cbn [bt_steps bt_state app] in Hs, Hrun. subst new.
  split; [done|]. exists b, target. assert (jor target (JStr "") = target) as E.
  { unfold jor in *. destruct (truthy target); [done|]. by apply String.eqb_neq in Eg1. }
  rewrite E in *. split_and!; try done. by apply String.eqb_neq.
Qed.

Lemma build_all_spec w ts cs rs :
  build_all short_digest created_at w ts = Ok (cs, rs) →
  (∀ c, c ∈ cs ↔ ∃ t, t ∈ ts ∧ _build_candidate short_digest created_at w t = Ok (inr c)) ∧
  (∀ r, r ∈ rs ↔ ∃ t, t ∈ ts ∧ _build_candidate short_digest created_at w t = Ok (inl r)) ∧
  length cs + length rs = length ts.
Proof.
  revert cs rs. induction ts as [|t ts IH]; intros cs rs; cbn [build_all].
  { intros [= <- <-]. setoid_rewrite elem_of_nil. split_and!; [naive_solver|naive_solver|done]. }
  intros (c & Hc & ([cs1 rs1] & Hrest & H)%res_bind_ok)%res_bind_ok. destruct (IH _ _ Hrest) as (H1 & H2 & H3). cbn [fst snd] in H.
  destruct c as [r0|c0]; injection H as <- <-; (split_and!; [intros x|intros x|cbn; lia]); rewrite ?elem_of_cons, ?H1, ?H2; setoid_rewrite elem_of_cons.
  - split; [naive_solver|]. intros (t' & [->|Ht] & E); [congruence|eauto].
  - split; [naive_solver|]. intros (t' & [->|Ht] & E); [left; congruence|eauto].
  - split; [naive_solver|]. intros (t' & [->|Ht] & E); [left; congruence|eauto].
  - split; [naive_solver|]. intros (t' & [->|Ht] & E); [congruence|eauto].
Qed.

(** ** The ranking *)

Definition cost (m : mode) (c : Candidate) : Q := total_cost m (cd_normalized c).

(** Cheaper first; equal costs by number of steps. *)
Definition no_worse (m : mode) (a b : Candidate) : Prop :=
  (cost m a < cost m b)%Q ∨ (cost m a == cost m b)%Q ∧ (mt_steps (cd_metrics a) ≤ mt_steps (cd_metrics b)).

Lemma ranks_before_spec m a b : if ranks_before m a b then no_worse m a b else no_worse m b a.
Proof.
  unfold ranks_before, no_worse, cost. destruct (Qcompare _ _) eqn:E.
  - apply Qeq_alt in E. destruct (Nat.compare_spec (mt_steps (cd_metrics a)) (mt_steps (cd_metrics b))).
    + destruct (bool_decide _); right; (split; [by first [exact E|symmetry]|lia]).
    + right. split; [exact E|lia].
    + right. split; [by symmetry|lia].
  - apply Qlt_alt in E. by left.
  - apply Qgt_alt in E. by left.
Qed.

Lemma no_worse_trans m a b c : no_worse m a b → no_worse m b c → no_worse m a c.
Proof. unfold no_worse. intros [H1|[H1 H1']] [H2|[H2 H2']]; [left; lra|left; lra|left; lra|right; split; [lra|lia]]. Qed.

Lemma insert_candidate_perm m c l : insert_candidate m c l ≡ₚ c :: l.
Proof. induction l as [|d l IH]; cbn; [done|]. destruct (ranks_before m c d); [done|]. rewrite IH. apply perm_swap. Qed.

Lemma rank_candidates_perm m l : rank_candidates m l ≡ₚ l.
Proof. induction l as [|c l IH]; cbn; [done|]. rewrite insert_candidate_perm. by constructor. Qed.

Lemma rank_candidates_sorted m l : StronglySorted (no_worse m) (rank_candidates m l).
Proof.
  induction l as [|c l IH]; cbn; [constructor|]. fold (rank_candidates m l). revert IH. generalize (rank_candidates m l). clear l. intros l Hl.
  induction Hl as [|d l Hl IH Hd]; cbn [insert_candidate]; [repeat constructor|].
  pose proof (ranks_before_spec m c d) as Hr. destruct (ranks_before m c d).
  - constructor; [by constructor|]. constructor; [done|]. eapply Forall_impl; [exact Hd|]. intros x Hx. by eapply no_worse_trans.
  - constructor; [done|]. rewrite insert_candidate_perm. by constructor.
Qed.

(** What is accepted for a mode: nothing for an unknown one, else the first of
    the candidates ordered by cost. *)
Definition mode_accepts (w : WorkflowComposer) (candidates : list Candidate) (k : Z) (mode : string) (l : list AcceptedEntry) : Prop :=
  match weights_for mode with
  | None => l = []
  | Some m => ∃ ranked, ranked ≡ₚ candidates ∧ StronglySorted (no_worse m) ranked ∧ ac_candidate <$> l = py_prefix k ranked
  end.

Lemma accept_mode_spec w candidates k mode l : accept_mode w candidates k mode = Ok l → mode_accepts w candidates k mode l.
Proof.
  unfold accept_mode, mode_accepts. destruct (weights_for mode) as [m|]; [|by intros [= <-]].
  intros H%mapM_res_ok. exists (rank_candidates m candidates). split_and!; [apply rank_candidates_perm|apply rank_candidates_sorted|].
  induction H as [|c a cs l Hca _ IH]; [done|]. csimpl. rewrite IH. f_equal.
  unfold _format_accepted_entry in Hca. by apply res_bind_ok in Hca as (inv & _ & (passed & _ & (target & _ & [= <-])%res_bind_ok)%res_bind_ok).
Qed.

Lemma insert_rejection_perm r l : insert_rejection r l ≡ₚ r :: l.
Proof. induction l as [|d l IH]; cbn; [done|]. destruct (rejected_before r d); [done|]. rewrite IH. apply perm_swap. Qed.

Lemma sort_rejections_perm l : foldr insert_rejection [] l ≡ₚ l.
Proof. induction l as [|r l IH]; cbn; [done|]. rewrite insert_rejection_perm. by constructor. Qed.

End accepted_workflows.

(** ** Examples *)

#[local] Existing Instance plain_text.

Definition capability (id : string) (produces : table) : table :=
  [("capability_id", JStr id); ("state_extractors", JArr [JObj [("produces", JObj produces)]])].

Definition demo_intent : table := [("intent_id", JStr "i"); ("goal", JObj [("target", JStr "done")])].
Definition demo_policy : table := [("policy_id", JStr "P"); ("invariants", JArr [JObj [("id", JStr "safe"); ("type", JStr "never"); ("condition", JStr "unsafe")]])].

Definition demo_compose (capabilities : list table) : res (list (string * string) * list (string * string)) :=
  w ← composer_new demo_intent demo_policy capabilities;
  r ← compose (λ _, "0") "now" w ["aggressive"; "none"] 1;
  Ok ((λ a, (cd_template_id (ac_candidate a), cd_signature (ac_candidate a))) <$> cr_accepted r, (λ j, (rj_template_id j, rj_code j)) <$> cr_rejected r).

Example one_template_fits :
  demo_compose [capability "compute.process" []; capability "case.create" []; capability "audit.record" [("done", JBool true)]] =
  Ok ([("T2", "T2.step1->T2.step2->T2.step3")], [("T1", "MISSING_CAPABILITY"); ("T3", "MISSING_CAPABILITY"); ("T4", "MISSING_CAPABILITY")]).
Proof. vm_compute. done. Qed.

(** Only the state after the last step is checked: a workflow that breaks the
    policy on the way and repairs it is accepted. *)
Example violation_on_the_way_accepted :
  (fst <$> demo_compose [capability "compute.process" [("unsafe", JBool true)]; capability "case.create" [("unsafe", JBool false)];
                 capability "audit.record" [("done", JBool true)]]) =
  Ok [("T2", "T2.step1->T2.step2->T2.step3")].
Proof. vm_compute. done. Qed.

Definition demo_capabilities : list table :=
  [capability "compute.process" []; capability "case.create" []; capability "audit.record" [("done", JBool true)]].

