(* ===== verification/ProfileGov.v ===== *)
(** * Governance of profile changes ([tm/intent/profile_governance.py])

    A change of a 5W1H profile is staged as a proposal that names what weakens
    the gate: severities that go down, required slots that are dropped, slots
    looked for on a dimension that is off.  The theorems relate those flags to
    the reports of [Completeness]: what an unflagged change can still let
    through, and what it cannot. *)

From S2P Require Import Prelude PyVal PyConv State Profile Completeness.
From stdpp Require Import base gmap strings list.
From Stdlib Require Import ZArith Lia.

Definition PROFILE_OP_CREATE : string := "create_profile".
Definition PROFILE_OP_UPDATE : string := "update_profile".

Definition CHANGE_SEVERITY : string := "severity".
Definition CHANGE_REQUIRED_SLOT : string := "required_slot".
Definition CHANGE_REQUIRED_SLOTS_DIMENSION : string := "required_slots_dimension".

(** Higher is stronger. *)
Definition _SEVERITY_RANK (s : Severity) : Z := match s with OFF => 0 | WARN => 1 | ERROR => 2 end.

Record ProfileChange : Type := mkChange {
  ch_kind : string;
  ch_target : string;
  ch_before : option string;
  ch_after : option string;
  ch_weakens : bool;
  ch_note : string
}.

Definition change_to_dict (c : ProfileChange) : table :=
  [("kind", JStr (ch_kind c)); ("target", JStr (ch_target c)); ("before", jopt (ch_before c));
   ("after", jopt (ch_after c)); ("weakens", JBool (ch_weakens c)); ("note", JStr (ch_note c))].

Record ProfileChangeImpact : Type := mkImpact {
  im_profile_id : string;
  im_operation : string;
  im_baseline_profile : string;
  im_changes : list ProfileChange
}.

Definition weakenings (i : ProfileChangeImpact) : list ProfileChange := filter (fun c => ch_weakens c = true) (im_changes i).

Definition weakens_gate (i : ProfileChangeImpact) : bool := existsb ch_weakens (im_changes i).

Definition impact_to_dict (i : ProfileChangeImpact) : table :=
  [("profile_id", JStr (im_profile_id i)); ("operation", JStr (im_operation i));
   ("baseline_profile", JStr (im_baseline_profile i)); ("weakens_gate", JBool (weakens_gate i));
   ("changes", JArr (JObj ∘ change_to_dict <$> im_changes i));
   ("weakenings", JArr (JObj ∘ change_to_dict <$> weakenings i))].

(** ** The difference of two profiles *)

Definition severity_change (b p : Profile) (d : Dimension) : option ProfileChange :=
  let before := severity b d in
  let after := severity p d in
  if decide (after = before) then None
  else
    let weakens := (_SEVERITY_RANK after <? _SEVERITY_RANK before)%Z in
    Some (mkChange CHANGE_SEVERITY (dim_value d) (Some (severity_value before)) (Some (severity_value after)) weakens
            (if weakens then "downgrade weakens gate" else "upgrade strengthens gate")).

(** [sorted(set(xs) - set(ys))]. *)
Definition sorted_difference (xs ys : list string) : list string :=
  sort_strings (remove_dups (filter (fun x => x ∉ ys) xs)).

Definition dropped_slot (slot : string) : ProfileChange :=
  mkChange CHANGE_REQUIRED_SLOT slot (Some "required") None true "dropped required slot weakens gate".

Definition added_slot (slot : string) : ProfileChange :=
  mkChange CHANGE_REQUIRED_SLOT slot None (Some "required") false "added required slot strengthens gate".

Definition target_change (b p : Profile) : list ProfileChange :=
  let before := p_required_slots_dimension b in
  let after := p_required_slots_dimension p in
  if decide (before = after) then []
  else
    let target_off := bool_decide (severity p after = OFF) in
    [mkChange CHANGE_REQUIRED_SLOTS_DIMENSION (dim_value after) (Some (dim_value before)) (Some (dim_value after)) target_off
       (if target_off then "retargeted onto an off dimension; required-slot enforcement disabled"
        else "retargeted required-slot enforcement")].

Definition diff_profiles (b p : Profile) (operation : string) : ProfileChangeImpact :=
  mkImpact (p_id p) operation (p_id b)
    (omap (severity_change b p) ALL_DIMENSIONS ++
     (dropped_slot <$> sorted_difference (p_required_slots b) (p_required_slots p)) ++
     (added_slot <$> sorted_difference (p_required_slots p) (p_required_slots b)) ++
     target_change b p).

(** ** Proposals *)

Section proposals.
Context {PT : PyText} (files : string → string → option profile_file).

(** The two profiles a proposed document compares: what it changes and what
    it makes of it. *)
Definition compared_profiles (fuel : nat) (raw : table) (base_dir : string) (baseline : option string)
  : fueled (Profile * Profile) :=
  let! proposed := load_profile_from_mapping files fuel raw base_dir in
  let! base := load_profile files fuel (default "base" baseline) base_dir [] in
  Some (Ok (base, proposed)).

Definition assess_profile_change (fuel : nat) (raw : table) (base_dir : string) (baseline : option string)
  : fueled ProfileChangeImpact :=
  let! bp := compared_profiles fuel raw base_dir baseline in
  Some (Ok (diff_profiles bp.1 bp.2 (match baseline with None => PROFILE_OP_CREATE | Some _ => PROFILE_OP_UPDATE end))).

(** The requirement that heads the proposal of a weakening change. *)
Definition weakening_requirement (impact : ProfileChangeImpact) (acknowledged_by : option string) : string :=
  "GATE-WEAKENING change (" +:+ join_with ", " (ch_target <$> weakenings impact) +:+
  "): a human approver MUST consciously accept this; acknowledged_by=" +:+
  (if given acknowledged_by then default "" acknowledged_by else "UNACKNOWLEDGED") +:+ ".".

Definition policy_requirements (impact : ProfileChangeImpact) (acknowledged_by : option string) : list string :=
  (if weakens_gate impact then [weakening_requirement impact acknowledged_by] else []) ++
  ["Accepting this proposal materialises the profile; no silent on-disk edit.";
   "All existing profiles must continue to load and existing intents re-checked."].

Definition profile_target_state (impact : ProfileChangeImpact) (raw : table) (acknowledged_by : option string) : table :=
  [("operation", JStr (im_operation impact)); ("profile_id", JStr (im_profile_id impact));
   ("body", JObj raw); ("impact", JObj (impact_to_dict impact))] ++
  (if given acknowledged_by then [("acknowledged_by", jopt acknowledged_by)] else []).

Definition build_profile_change_proposal (fuel : nat) (effect_ref : string) (raw : table) (summary base_dir : string)
    (baseline acknowledged_by : option string) (reasoning_trace : string) : fueled table :=
  let! impact := assess_profile_change fuel raw base_dir baseline in
  let name := im_operation impact +:+ "." +:+ im_profile_id impact in
  Some (Ok
    [("plan_id", JStr ("profile." +:+ name));
     ("intent_id", JStr "intent.profile_governance.curation");
     ("summary", JStr summary);
     ("decisions", JArr [JObj
       [("effect_ref", JStr effect_ref);
        ("target_state", JObj (profile_target_state impact raw acknowledged_by));
        ("idempotency_key", JStr ("profile." +:+ name +:+ ".v1"));
        ("reasoning_trace", JStr reasoning_trace)]]);
     ("llm_metadata", JObj [("model", JStr "none"); ("prompt_hash", JStr "n/a"); ("determinism_hint", JStr "deterministic")]);
     ("policy_requirements", JArr (JStr <$> policy_requirements impact acknowledged_by))]).
End proposals.

(** ** What is flagged *)

Lemma elem_of_sorted_difference x xs ys : x ∈ sorted_difference xs ys ↔ x ∈ xs ∧ x ∉ ys.
Proof.
  unfold sorted_difference. rewrite elem_of_sort_strings, elem_of_remove_dups, list_elem_of_filter. tauto.
Qed.

(** One change is weaker than another on the ways the module names. *)
Definition weaker (b p : Profile) : Prop :=
  (∃ d, (_SEVERITY_RANK (severity p d) < _SEVERITY_RANK (severity b d))%Z) ∨
  (∃ slot, slot ∈ p_required_slots b ∧ slot ∉ p_required_slots p) ∨
  (p_required_slots_dimension b ≠ p_required_slots_dimension p ∧ severity p (p_required_slots_dimension p) = OFF).

Lemma severity_change_weakens b p d :
  (∃ c, severity_change b p d = Some c ∧ ch_weakens c = true) ↔
  (_SEVERITY_RANK (severity p d) < _SEVERITY_RANK (severity b d))%Z.
Proof.
  unfold severity_change. case_decide as E; [rewrite E; naive_solver lia|]. rewrite <- Z.ltb_lt. simpl. naive_solver.
Qed.

Lemma target_change_weakens b p :
  (∃ c, c ∈ target_change b p ∧ ch_weakens c = true) ↔
  p_required_slots_dimension b ≠ p_required_slots_dimension p ∧ severity p (p_required_slots_dimension p) = OFF.
Proof.
  unfold target_change. case_decide as E; [set_solver|].
  setoid_rewrite list_elem_of_singleton. split.
  - intros (c & -> & Hc). simpl in Hc. by apply bool_decide_eq_true in Hc.
  - intros [_ Ho]. eexists. split; [done|]. simpl. by apply bool_decide_eq_true.
Qed.

Lemma elem_of_ALL_DIMENSIONS d : d ∈ ALL_DIMENSIONS.
Proof. destruct d; set_solver. Qed.

(** The gate is said to be weakened exactly on those ways. *)
Theorem weakens_gate_spec b p operation : weakens_gate (diff_profiles b p operation) = true ↔ weaker b p.
Proof.
  unfold weakens_gate, weaker. rewrite existsb_exists, <- target_change_weakens.
  setoid_rewrite <- severity_change_weakens. setoid_rewrite <- list_elem_of_In.
  unfold diff_profiles. cbn [im_changes]. split.
  - intros (c & Hc & Hw). rewrite !elem_of_app, list_elem_of_omap, !list_elem_of_fmap in Hc.
    destruct Hc as [(d & _ & Hd)|[(s & -> & Hs)|[(s & -> & _)|Ht]]]; [by eauto| |done|by eauto].
    apply elem_of_sorted_difference in Hs. eauto.
  - intros [(d & c & Hd & Hw)|[(s & Hs)|(c & Hc & Hw)]].
    + exists c. split; [|done]. apply elem_of_app. left. apply list_elem_of_omap. eauto using elem_of_ALL_DIMENSIONS.
    + exists (dropped_slot s). split; [|done]. rewrite !elem_of_app. right; left.
      apply list_elem_of_fmap_2. by apply elem_of_sorted_difference.
    + exists c. split; [|done]. rewrite !elem_of_app. auto.
Qed.

Lemma not_weaker b p operation :
  weakens_gate (diff_profiles b p operation) = false →
  (∀ d, severity b d = ERROR → severity p d = ERROR) ∧ p_required_slots b ⊆ p_required_slots p.
Proof.
  intros H. assert (¬ weaker b p) as Hw by (rewrite <- weakens_gate_spec; rewrite H; done). split.
  - intros d Hd. destruct (decide (severity p d = ERROR)) as [|Hp]; [done|]. destruct Hw. left. exists d.
    rewrite Hd. by destruct (severity p d).
  - intros s Hs. destruct (decide (s ∈ p_required_slots p)) as [|Hp]; [done|]. destruct Hw. right; left. eauto.
Qed.

(** ** What an unflagged change keeps *)

Section gate.
Context {PT : PyText}.

(** The verdict of a dimension with its required slots. *)
Definition final_verdict (mode : Mode) (p : Profile) (missing : list string) (body : table) (d : Dimension)
    (j : DimStatus * list string * option string) : DimensionVerdict :=
  degrade p missing (judge_dimension mode p body d j).

Lemma final_severity mode p missing body d j : dv_severity (final_verdict mode p missing body d j) = severity p d.
Proof. unfold final_verdict. by rewrite degrade_severity, judge_dimension_severity. Qed.

Lemma final_dimension mode p missing body d j : dv_dimension (final_verdict mode p missing body d j) = d.
Proof. unfold final_verdict. by rewrite degrade_dim, judge_dimension_dim. Qed.

(** A dimension that counts is satisfied in seal mode by its fields and its
    slots, and missing in design mode when no word of the prose helps. *)
Lemma seal_satisfied p missing body d j :
  severity p d ≠ OFF → j.1.1 ≠ NOT_APPLICABLE →
  satisfied (final_verdict SEAL p missing body d j) = true ↔
  j.1.1 = SATISFIED ∧ (missing = [] ∨ d ≠ p_required_slots_dimension p).
Proof.
  intros Ho Hj. split.
  - unfold satisfied. destruct (dv_status _) eqn:E; try done; intros _.
    + apply seal_status in E. tauto.
    + apply not_applicable_off in E; done.
  - intros [Hs Hm]. destruct j as [[s e] reason]. simpl in Hs, Hj. subst s.
    unfold final_verdict, judge_dimension, satisfied. rewrite decide_False by done.
    rewrite decide_False by naive_solver. unfold degrade. destruct missing as [|m ms]; [done|].
    rewrite decide_False; [done|]. simpl. intros [? _]. by destruct Hm.
Qed.

Lemma design_missing p missing body d j :
  severity p d ≠ OFF → j.1.1 ≠ NOT_APPLICABLE →
  dv_status (final_verdict DESIGN p missing body d j) = MISSING ↔ j.1.1 = MISSING ∧ _scan_prose body d p = None.
Proof.
  intros Ho Hj. destruct j as [[s e] reason]. simpl in *. unfold final_verdict, judge_dimension, degrade.
  rewrite decide_False by done.
  destruct s, (_scan_prose body d p), missing; simpl; repeat case_decide; simpl in *; naive_solver.
Qed.

(** A disposition closes two open verdicts alike. *)
Lemma closure_same reg disp v v' : satisfied v = satisfied v' → (closure reg disp v).1 = (closure reg disp v').1.
Proof.
  unfold closure. intros ->. destruct disp; [|done]. destruct (satisfied v'); [done|].
  by destruct (validate_disposition reg _); [case_decide|].
Qed.

Lemma seal_errors_zero closed v :
  dv_severity v = ERROR → dim_errors SEAL closed v = 0 ↔ satisfied v = true ∨ closed = true.
Proof. unfold dim_errors. intros ->. destruct (satisfied v), closed; naive_solver. Qed.

Lemma design_errors_zero closed v :
  dv_severity v = ERROR → dim_errors DESIGN closed v = 0 ↔ dv_status v ≠ MISSING.
Proof.
  unfold dim_errors, satisfied. intros ->. destruct (dv_status v); simpl; try case_decide; naive_solver.
Qed.

(** What one dimension of a report counts. *)
Definition dimension_errors (mode : Mode) (p : Profile) (missing : list string) (body : table) (reg : list string)
    (ds : list (Dimension * Disposition)) (d : Dimension) (j : DimStatus * list string * option string) : nat :=
  let v := final_verdict mode p missing body d j in
  dim_errors mode (closure reg (dlookup d ds) v).1 v.

Lemma report_errors_zero mode p id body reg ds missing js :
  report_errors (mkReport (p_id p) mode id
    ((fun dj : Dimension * (DimStatus * list string * option string) =>
        degrade p missing (judge_dimension mode p body dj.1 dj.2)) <$> js) missing ds reg) = 0 ↔
  Forall (fun dj => dimension_errors mode p missing body reg ds dj.1 dj.2 = 0) js.
Proof.
  unfold report_errors. simpl. rewrite sum_list_with_zero, Forall_fmap. apply Forall_iff. intros [d j].
  unfold dimension_errors, closed_of, compose. simpl. fold (final_verdict mode p missing body d j).
  by rewrite final_dimension.
Qed.

(** One profile asks of a report at least what another one asks. *)
Lemma report_transfer mode b p body plan network cats reg ds r mb :
  compute_5w1h_completeness mode p body plan network cats reg ds = Ok r →
  _missing_required_slots body b = Ok mb →
  (∀ d j, raw_status body plan network cats d = Ok j →
          dimension_errors mode p (cr_missing_slots r) body reg ds d j = 0 → dimension_errors mode b mb body reg ds d j = 0) →
  exit_code r = 0%Z →
  ∃ r', compute_5w1h_completeness mode b body plan network cats reg ds = Ok r' ∧ exit_code r' = 0%Z.
Proof.
  intros Hc Hm Hd He. pose proof (compute_ok _ _ _ _ _ _ _ _ _ Hc) as (js & mp & Hjs & _ & ->).
  unfold compute_5w1h_completeness in Hc |- *.
  destruct (mapM _ ALL_DIMENSIONS) as [js'|e] eqn:E; [|done].
  assert (js' = js) as ->.
  { apply mapM_res_ok in E. clear -E Hjs. revert js Hjs.
    induction E as [|d dj l js' Hd _ IH]; intros js Hjs; [by apply Forall2_nil_inv_l in Hjs|].
    apply Forall2_cons_inv_l in Hjs as ([d' j] & js'' & [Hd' Hj] & Hr & ->). simpl in Hd', Hj. subst d'.
    rewrite Hj in Hd. injection Hd as <-. by rewrite (IH _ Hr). }
  rewrite Hm. eexists. split; [done|]. unfold exit_code in *. destruct (decide (report_errors _ = 0)) as [He'|]; [|done].
  rewrite decide_True; [done|]. apply report_errors_zero in He'. apply report_errors_zero.
  rewrite Forall_lookup in He' |- *. intros i [d j] Hi. specialize (He' i _ Hi). simpl in *.
  destruct (Forall2_lookup_r _ _ _ _ _ Hjs Hi) as (d' & _ & Hdd & Hraw). simpl in *. subst d'.
  by apply Hd.
Qed.

Lemma missing_slots_mono b p body mp :
  p_required_slots b ⊆ p_required_slots p → _missing_required_slots body p = Ok mp →
  ∃ mb, _missing_required_slots body b = Ok mb ∧ mb ⊆ mp.
Proof.
  intros Hsub. unfold _missing_required_slots. destruct (p_required_slots b) as [|s l].
  { intros _. exists []. split; [done|]. apply list_subseteq_nil. }
  destruct (p_required_slots p) as [|s' l']; [set_solver|].
  destruct (slot_keys_of body) as [present|e]; [|done]. intros [= <-]. eexists. split; [done|].
  intros x. rewrite !list_elem_of_filter. set_solver.
Qed.

(** The slots of the baseline block through the same dimension, or never did. *)
Definition same_target (b p : Profile) : Prop :=
  p_required_slots_dimension b = p_required_slots_dimension p ∨ severity b (p_required_slots_dimension b) ≠ ERROR.

Lemma seal_errors_mono b p mb mp body reg ds d j :
  (severity b d = ERROR → severity p d = ERROR) → mb ⊆ mp → same_target b p → j.1.1 ≠ NOT_APPLICABLE →
  dimension_errors SEAL p mp body reg ds d j = 0 → dimension_errors SEAL b mb body reg ds d j = 0.
Proof.
  intros Hsev Hsub Ht Hj. unfold dimension_errors. destruct (decide (severity b d = ERROR)) as [Eb|Eb].
  2:{ intros _. apply dim_errors_not_error. by rewrite final_severity. }
  specialize (Hsev Eb). rewrite !seal_errors_zero by (by rewrite final_severity).
  set (vb := final_verdict SEAL b mb body d j). set (vp := final_verdict SEAL p mp body d j).
  assert (satisfied vp = true → satisfied vb = true) as Hs.
  { unfold vb, vp. rewrite !seal_satisfied by congruence. intros [? Hm]. split; [done|].
    destruct (decide (d = p_required_slots_dimension b)) as [->|]; [|by right]. left.
    destruct Ht as [Ht|]; [|done]. destruct Hm as [->|Hm]; [|congruence].
    by apply list_nil_subseteq. }
  destruct (satisfied vb) eqn:Evb; [by left|]. destruct (satisfied vp) eqn:Evp; [by discriminate Hs|].
  intros [|Hc]; [done|]. right. by rewrite (closure_same _ _ vb vp) by congruence.
Qed.

Lemma scan_prose_mono b p body d :
  keywords p d ⊆ keywords b d → _scan_prose body d b = None → _scan_prose body d p = None.
Proof.
  unfold _scan_prose. intros Hk Hb. destruct (List.find _ (keywords p d)) as [kw|] eqn:E; [|done].
  apply find_some in E as [Hin Hc]. apply list_elem_of_In, Hk, list_elem_of_In in Hin.
  by rewrite (find_none _ _ Hb _ Hin) in Hc.
Qed.

Lemma design_errors_mono b p mb mp body reg ds d j :
  (severity b d = ERROR → severity p d = ERROR) → keywords p d ⊆ keywords b d → j.1.1 ≠ NOT_APPLICABLE →
  dimension_errors DESIGN p mp body reg ds d j = 0 → dimension_errors DESIGN b mb body reg ds d j = 0.
Proof.
  intros Hsev Hk Hj. unfold dimension_errors. destruct (decide (severity b d = ERROR)) as [Eb|Eb].
  2:{ intros _. apply dim_errors_not_error. by rewrite final_severity. }
  specialize (Hsev Eb). rewrite !design_errors_zero by (by rewrite final_severity).
  rewrite !design_missing by congruence. intros Hp [? Hs]. apply Hp. eauto using scan_prose_mono.
Qed.

Lemma sealed_exit r : sealed r = true ↔ exit_code r = 0%Z.
Proof. unfold sealed, exit_code. rewrite bool_decide_eq_true. by case_decide. Qed.

(** A profile at least as strong: what it lets through, the other one does. *)
Definition passes (mode : Mode) (p : Profile) (body : table) (plan network : option table)
    (cats : list (string * string)) (reg : list string) (ds : list (Dimension * Disposition)) : Prop :=
  ∃ r, compute_5w1h_completeness mode p body plan network cats reg ds = Ok r ∧ exit_code r = 0%Z.

Lemma passes_mono mode b p operation body plan network cats reg ds :
  weakens_gate (diff_profiles b p operation) = false →
  (mode = SEAL → same_target b p) → (mode = DESIGN → ∀ d, keywords p d ⊆ keywords b d) →
  passes mode p body plan network cats reg ds → passes mode b body plan network cats reg ds.
Proof.
  intros [Hsev Hsub]%not_weaker Ht Hk (r & Hc & He).
  pose proof (compute_ok _ _ _ _ _ _ _ _ _ Hc) as (js & mp & _ & Hmp & Hr).
  destruct (missing_slots_mono b p body mp Hsub Hmp) as (mb & Hmb & Hbp).
  eapply report_transfer; [done|done| |done]. intros d j Hj%raw_status_applicable.
  rewrite Hr. cbn [cr_missing_slots]. destruct mode; [apply design_errors_mono|apply seal_errors_mono]; auto.
Qed.
End gate.

(** C33: a proposed profile is loaded and compared with the one it changes,
    or with the base; the change is flagged exactly when a severity goes down,
    a required slot is dropped or the slots are moved to a dimension that is
    off, and then the proposal asks for an approver by name.  An intent that
    passes under the changed profile without a flag passed before: when
    sealed, if the slots stay on their dimension or blocked nothing; in
    design, if no words were added to the lexicon. *)
Theorem profile_governance `{PyText} files fuel raw dir baseline impact :
  assess_profile_change files fuel raw dir baseline = Some (Ok impact) →
  ∃ b p, load_profile files fuel (default "base" baseline) dir [] = Some (Ok b) ∧
    load_profile_from_mapping files fuel raw dir = Some (Ok p) ∧
    (weakens_gate impact = true ↔ weaker b p) ∧
    (∀ effect_ref summary ack trace, ∃ proposal requirements,
       build_profile_change_proposal files fuel effect_ref raw summary dir baseline ack trace = Some (Ok proposal) ∧
       jget "policy_requirements" proposal = JArr (JStr <$> requirements) ∧
       (weakening_requirement impact ack ∈ requirements ↔ weaker b p)) ∧
    (weakens_gate impact = false →
     (same_target b p → ∀ body plan network cats reg ds,
        passes SEAL p body plan network cats reg ds → passes SEAL b body plan network cats reg ds) ∧
     ((∀ d, keywords p d ⊆ keywords b d) → ∀ body plan network cats reg ds,
        passes DESIGN p body plan network cats reg ds → passes DESIGN b body plan network cats reg ds)).
Proof.
  intros Ha. pose proof Ha as Ha'. unfold assess_profile_change, compared_profiles in Ha.
  apply fbind_ok in Ha as ([b p] & (p' & Hp & (b' & Hb & [= -> ->])%fbind_ok)%fbind_ok & [= <-]).
  set (i := diff_profiles b p _) in *.
  assert (weakens_gate i = true ↔ weaker b p) as Hw by apply weakens_gate_spec.
  exists b, p. split; [done|]. split; [done|]. split; [done|]. split.
  - intros effect_ref summary ack trace. unfold build_profile_change_proposal. rewrite Ha'. simpl.
    eexists _, _. split; [done|]. split; [done|]. rewrite <- Hw. unfold policy_requirements.
    destruct (weakens_gate i); [set_solver|]. split; [|done].
    intros [He|[He|[]%not_elem_of_nil]%elem_of_cons]%elem_of_cons; discriminate He.
  - intros Hf. split; intros Hc body plan network cats reg ds; apply (passes_mono _ _ _ _ _ _ _ _ _ _ Hf); auto; done.
Qed.

(** ** Examples *)

#[local] Existing Instance plain_text.

Definition base_library (dir name : string) : option profile_file :=
  if String.eqb name "base"
  then Some (mkFile "base" "" "base.yaml" (JObj [("profile_id", JStr "base"); ("required_slots", JArr [JStr "slo"])]))
  else None.

(** A stronger profile on top of the base: When becomes an error. *)
Definition strict_raw : table :=
  [("profile_id", JStr "strict"); ("extends", JStr "base"); ("severity_overrides", JObj [("when", JStr "error")])].

Definition strict_impact : ProfileChangeImpact :=
  mkImpact "strict" PROFILE_OP_CREATE "base"
    [mkChange CHANGE_SEVERITY "when" (Some "warn") (Some "error") false "upgrade strengthens gate"].

(** An intent with every field, and the slots of the base. *)
Definition full_intent (slots : table) : table :=
  [("actors", JArr [JStr "ops"]); ("context", JStr "load"); ("goal", JStr "serve"); ("inputs", JArr [JStr "qps"]);
   ("property_pattern_refs", JArr [JStr "p"]); ("slot_fills", JObj [("p", JObj slots)])].

Definition loaded_profile (r : fueled Profile) : Profile := match r with Some (Ok p) => p | _ => root_profile end.

Definition base_profile : Profile := loaded_profile (load_profile base_library 2 "base" "" []).

Definition proposed (raw : table) : Profile := loaded_profile (load_profile_from_mapping base_library 2 raw "").

Definition passes_b (mode : Mode) (p : Profile) (body : table) : bool :=
  match compute_5w1h_completeness mode p body None None [] [] [] with
  | Ok r => bool_decide (exit_code r = 0%Z)
  | Raise _ => false
  end.

Lemma profile_governance_witness :
  weakens_gate strict_impact = false ∧ ¬ weaker base_profile (proposed strict_raw) ∧
  passes SEAL base_profile (full_intent [("slo", JStr "p99"); ("when_tick", JStr "1s")]) None None [] [] [].
Proof.
  split; [reflexivity|].
  destruct (profile_governance base_library 2 strict_raw "" None strict_impact) as (b & p & Hb & Hp & Hw & _ & Hk).
  { vm_compute. reflexivity. }
  assert (b = base_profile) as -> by (vm_compute in Hb; injection Hb as <-; vm_compute; reflexivity).
  assert (p = proposed strict_raw) as -> by (vm_compute in Hp; injection Hp as <-; vm_compute; reflexivity).
  split; [rewrite <- Hw; intros H; vm_compute in H; discriminate H|].
  destruct (Hk eq_refl) as [Hs _]. apply Hs.
  - left. vm_compute. reflexivity.
  - eexists. split; [vm_compute; reflexivity|]. vm_compute. reflexivity.
Defined.

Definition unflagged (raw : table) : bool :=
  match assess_profile_change base_library 2 raw "" None with
  | Some (Ok i) => negb (weakens_gate i)
  | _ => false
  end.

(** The slots moved from an error dimension to one that only warns: no flag,
    and an intent without its required slot is sealed. *)
Definition retarget_raw : table :=
  [("profile_id", JStr "soft"); ("extends", JStr "base"); ("required_slots_dimension", JStr "when")].

Lemma retarget_unflagged :
  unflagged retarget_raw = true ∧
  passes_b SEAL (proposed retarget_raw) (full_intent []) = true ∧ passes_b SEAL base_profile (full_intent []) = false.
Proof. by vm_compute. Qed.

(** A word added to the lexicon: no flag, and an intent without actors passes
    the design check. *)
Definition lexicon_raw : table :=
  [("profile_id", JStr "chatty"); ("extends", JStr "base"); ("heuristic_keywords", JObj [("who", JArr [JStr "load"])])].

Lemma lexicon_unflagged :
  unflagged lexicon_raw = true ∧
  passes_b DESIGN (proposed lexicon_raw) (tail (full_intent [])) = true ∧
  passes_b DESIGN base_profile (tail (full_intent [])) = false.
Proof. by vm_compute. Qed.
