(* ===== verification/Cycle.v ===== *)
(** * The controller cycle ([tm/controllers/cycle.py], [controllers/models.py],
      [tm/runtime/reliability.py], [runtime/context.py], the verifier of
      [tm/artifacts/verify.py] on the bodies of a cycle)

    A cycle runs the plan of an accepted agent bundle: observe, decide, act.
    Each step has a bounded number of attempts under a timeout; a proposed
    change goes through verification, approval and the policy guard before
    the next agent starts.  Agents, clocks and the arrival of cancellations
    are an environment; documents written and registered are kept in order. *)

From S2P Require Import Prelude PyVal PyConv Task Idempotency Report PolicyStore Artifact AgentContract.
From stdpp Require Import base gmap strings list pretty.
From Stdlib Require Import ZArith Lia Ascii.

(** ** Reliability of runs ([reliability.py]) *)

Record StepReliabilityPolicy : Type := mkStepPolicy {
  sr_timeout_seconds : option pyfloat;
  sr_max_attempts : Z
}.

Definition default_step_policy : StepReliabilityPolicy := mkStepPolicy None 1.

Record ReliabilityProfile : Type := mkReliability {
  rp_default_policy : StepReliabilityPolicy;
  rp_step_policies : list (string * StepReliabilityPolicy)
}.

Definition policy_for_step (p : ReliabilityProfile) (step_name : string) : StepReliabilityPolicy :=
  default (rp_default_policy p) (alookup step_name (rp_step_policies p)).

(** [try ... except (TypeError, ValueError)]. *)
Definition or_bad_value {A} (d : A) (r : res A) : res A :=
  match r with Raise (TypeError _) | Raise (ValueError _) => Ok d | _ => r end.

Section parsing.
Context {PT : PyText}.

Definition parse_timeout (v : json) : res (option pyfloat) :=
  match v with JNull => Ok None | _ => or_bad_value None (Some <$> py_float v) end.

Definition parse_attempts (v : json) : res Z :=
  match v with
  | JBool _ | JInt _ | JFloat _ | JStr (String _ _) => or_bad_value 1%Z (Z.max 1 <$> py_int v)
  | _ => Ok 1%Z
  end.

Definition _parse_policy (raw : json) : res StepReliabilityPolicy :=
  if negb (truthy raw) then Ok default_step_policy
  else
    m ← mapping_of raw;
    let retries := jor (jor (jget "max_attempts" m) (jget "retries" m)) (jget "max_retries" m) in
    timeout ← parse_timeout (jget "timeout_seconds" m);
    attempts ← parse_attempts retries;
    Ok (mkStepPolicy timeout attempts).

Fixpoint parse_steps_policies (l : table) (acc : list (string * StepReliabilityPolicy))
  : res (list (string * StepReliabilityPolicy)) :=
  match l with
  | [] => Ok acc
  | (name, JObj m) :: l => p ← _parse_policy (JObj m); parse_steps_policies l (dict_set name p acc)
  | _ :: l => parse_steps_policies l acc
  end.

Definition from_meta (meta : table) : res ReliabilityProfile :=
  raw ← mapping_of (jor (jget "reliability" meta) (JObj []));
  d ← _parse_policy (jget "default" raw);
  steps ← match jor (jget "steps" raw) (JObj []) with JObj l => parse_steps_policies l [] | _ => Ok [] end;
  Ok (mkReliability d steps).
End parsing.

Record RunReliabilityState : Type := mkRunState {
  rr_run_id : string;
  rr_workspace_id : option string;
  rr_bundle_artifact_id : option string;
  rr_status : string;
  rr_current_step : option string;
  rr_attempt : Z;
  rr_retry_count : Z;
  rr_timeout_step : option string;
  rr_timeout_seconds : option pyfloat;
  rr_timeout_reason : option string;
  rr_canceled : bool;
  rr_started_at : string;
  rr_ended_at : option string;
  rr_errors : list string;
  rr_last_error : option string
}.

Definition run_state_new (run_id : string) (workspace_id : option string) (now : string) : RunReliabilityState :=
  mkRunState run_id workspace_id None "pending" None 0 0 None None None false now None [] None.

Definition mark_bundle (bundle_id : string) (s : RunReliabilityState) : RunReliabilityState :=
  mkRunState (rr_run_id s) (rr_workspace_id s) (Some bundle_id) (rr_status s) (rr_current_step s) (rr_attempt s)
    (rr_retry_count s) (rr_timeout_step s) (rr_timeout_seconds s) (rr_timeout_reason s) (rr_canceled s)
    (rr_started_at s) (rr_ended_at s) (rr_errors s) (rr_last_error s).

Definition mark_started (now : string) (s : RunReliabilityState) : RunReliabilityState :=
  mkRunState (rr_run_id s) (rr_workspace_id s) (rr_bundle_artifact_id s) "running" (rr_current_step s) (rr_attempt s)
    (rr_retry_count s) (rr_timeout_step s) (rr_timeout_seconds s) (rr_timeout_reason s) (rr_canceled s)
    now (rr_ended_at s) (rr_errors s) (rr_last_error s).

Definition mark_attempt (step : string) (attempt : Z) (s : RunReliabilityState) : RunReliabilityState :=
  mkRunState (rr_run_id s) (rr_workspace_id s) (rr_bundle_artifact_id s) "running" (Some step) attempt
    (Z.max (rr_retry_count s) (attempt - 1)) None None None (rr_canceled s)
    (rr_started_at s) (rr_ended_at s) (rr_errors s) None.

Definition mark_timeout (step : string) (attempt : Z) (timeout_seconds : option pyfloat) (reason : string)
    (s : RunReliabilityState) : RunReliabilityState :=
  mkRunState (rr_run_id s) (rr_workspace_id s) (rr_bundle_artifact_id s) (rr_status s) (rr_current_step s) (rr_attempt s)
    (Z.max (rr_retry_count s) attempt) (Some step) timeout_seconds (Some reason) (rr_canceled s)
    (rr_started_at s) (rr_ended_at s) (rr_errors s) (Some reason).

Definition mark_cancel_requested (s : RunReliabilityState) : RunReliabilityState :=
  mkRunState (rr_run_id s) (rr_workspace_id s) (rr_bundle_artifact_id s) "cancelling" (rr_current_step s) (rr_attempt s)
    (rr_retry_count s) (rr_timeout_step s) (rr_timeout_seconds s) (rr_timeout_reason s) true
    (rr_started_at s) (rr_ended_at s) (rr_errors s) (rr_last_error s).

Definition mark_finished (success : bool) (errors : list string) (now : string) (s : RunReliabilityState)
  : RunReliabilityState :=
  mkRunState (rr_run_id s) (rr_workspace_id s) (rr_bundle_artifact_id s)
    (if negb success && rr_canceled s then "cancelled" else if success then "completed" else "failed")
    (rr_current_step s) (rr_attempt s)
    (rr_retry_count s) (rr_timeout_step s) (rr_timeout_seconds s) (rr_timeout_reason s) (rr_canceled s)
    (rr_started_at s) (Some now)
    (match errors with [] => rr_errors s | _ => errors end)
    (match errors with [] => rr_last_error s | _ => last errors end).

Definition mark_failed (message : string) (s : RunReliabilityState) : RunReliabilityState :=
  mkRunState (rr_run_id s) (rr_workspace_id s) (rr_bundle_artifact_id s) "failed" (rr_current_step s) (rr_attempt s)
    (rr_retry_count s) (rr_timeout_step s) (rr_timeout_seconds s) (rr_timeout_reason s) (rr_canceled s)
    (rr_started_at s) (rr_ended_at s)
    (if decide (message ∈ rr_errors s) then rr_errors s else rr_errors s ++ [message]) (Some message).

Definition opt_str_json (o : option string) : json := match o with Some s => JStr s | None => JNull end.
Definition opt_float_json (o : option pyfloat) : json := match o with Some f => JFloat f | None => JNull end.

Definition run_state_to_dict (s : RunReliabilityState) : table :=
  [("run_id", JStr (rr_run_id s)); ("workspace_id", opt_str_json (rr_workspace_id s));
   ("bundle_artifact_id", opt_str_json (rr_bundle_artifact_id s)); ("status", JStr (rr_status s));
   ("current_step", opt_str_json (rr_current_step s)); ("attempt", JInt (rr_attempt s));
   ("retry_count", JInt (rr_retry_count s)); ("timeout_step", opt_str_json (rr_timeout_step s));
   ("timeout_seconds", opt_float_json (rr_timeout_seconds s)); ("timeout_reason", opt_str_json (rr_timeout_reason s));
   ("canceled", JBool (rr_canceled s)); ("started_at", JStr (rr_started_at s));
   ("ended_at", opt_str_json (rr_ended_at s)); ("errors", JArr (JStr <$> rr_errors s));
   ("last_error", opt_str_json (rr_last_error s))].

(** ** Bodies of a cycle ([controllers/models.py]) *)

Definition _force_sequence (value : json) (name : string) : res (list json) :=
  match value with JArr l => Ok l | _ => Raise (TypeError (name +:+ " must be a sequence")) end.

Definition _force_str_list (value : json) (name : string) : res (list string) :=
  match value with
  | JNull => Ok []
  | _ => seq ← _force_sequence value name; mapM (fun item => _ensure_str item (name +:+ " item")) seq
  end.

Record EnvSnapshotBody : Type := mkSnapshot {
  es_snapshot_id : string;
  es_timestamp : string;
  es_environment : table;
  es_constraints : list table;
  es_data_hash : string
}.

Definition snapshot_from_mapping (v : json) : res EnvSnapshotBody :=
  data ← mapping_of v;
  constraints_seq ← _force_sequence (jor (jget "constraints" data) (JArr [])) "constraints";
  constraints ← mapM (fun item => _ensure_dict item "constraint") constraints_seq;
  snapshot_id ← str_field data "snapshot_id" "snapshot_id";
  timestamp ← str_field data "timestamp" "timestamp";
  environment ← dict_field data "environment" "environment";
  data_hash ← str_field data "data_hash" "data_hash";
  Ok (mkSnapshot snapshot_id timestamp environment constraints data_hash).

Record ProposedChangeDecision : Type := mkChangeDecision {
  cd_effect_ref : string;
  cd_target_state : table;
  cd_idempotency_key : string;
  cd_reasoning_trace : option string
}.

Definition change_decision_from_mapping (data : table) : res ProposedChangeDecision :=
  effect_ref ← str_field data "effect_ref" "decision.effect_ref";
  target_state ← dict_field data "target_state" "decision.target_state";
  idempotency_key ← str_field data "idempotency_key" "decision.idempotency_key";
  reasoning_trace ← opt_str data "reasoning_trace" "decision.reasoning_trace";
  Ok (mkChangeDecision effect_ref target_state idempotency_key reasoning_trace).

Record LlmMetadata : Type := mkLlm {
  lm_model : string;
  lm_prompt_hash : string;
  lm_determinism_hint : string;
  lm_model_id : option string;
  lm_model_version : option string;
  lm_prompt_template_version : option string;
  lm_prompt_version : option string;
  lm_config_id : option string;
  lm_inputs_hash : option string
}.

Definition LLM_OPTIONS : list string := ["deterministic"; "replayable"; "heuristic"].

Definition llm_from_mapping (data : table) : res LlmMetadata :=
  hint ← str_field data "determinism_hint" "llm_metadata.determinism_hint";
  if negb (bool_decide (hint ∈ LLM_OPTIONS))
  then Raise (ValueError "llm_metadata.determinism_hint must be one of: deterministic, heuristic, replayable")
  else
    model ← str_field data "model" "llm_metadata.model";
    prompt_hash ← str_field data "prompt_hash" "llm_metadata.prompt_hash";
    model_id ← opt_str data "model_id" "llm_metadata.model_id";
    model_version ← opt_str data "model_version" "llm_metadata.model_version";
    prompt_template_version ← opt_str data "prompt_template_version" "llm_metadata.prompt_template_version";
    prompt_version ← opt_str data "prompt_version" "llm_metadata.prompt_version";
    config_id ← opt_str data "config_id" "llm_metadata.config_id";
    inputs_hash ← opt_str data "inputs_hash" "llm_metadata.inputs_hash";
    Ok (mkLlm model prompt_hash hint model_id model_version prompt_template_version prompt_version config_id inputs_hash).

Record ProposedChangePlanBody : Type := mkChangePlan {
  cp_plan_id : string;
  cp_intent_id : string;
  cp_decisions : list ProposedChangeDecision;
  cp_llm_metadata : LlmMetadata;
  cp_summary : string;
  cp_policy_requirements : list string
}.

Definition change_plan_from_mapping (v : json) : res ProposedChangePlanBody :=
  data ← mapping_of v;
  decisions_raw ← match jget "decisions" data with
                  | JNull => Raise (ValueError "decisions field is required for ProposedChangePlan")
                  | JArr l => Ok l
                  | _ => Raise (TypeError "decisions must be a list of mappings")
                  end;
  decisions ← each_dict change_decision_from_mapping "decision" decisions_raw;
  llm_raw ← dict_field data "llm_metadata" "llm_metadata";
  policy_requirements ← _force_str_list (jget "policy_requirements" data) "policy_requirements";
  plan_id ← str_field data "plan_id" "plan_id";
  intent_id ← str_field data "intent_id" "intent_id";
  llm ← llm_from_mapping llm_raw;
  summary ← str_field data "summary" "summary";
  Ok (mkChangePlan plan_id intent_id decisions llm summary policy_requirements).

Record ReportDecision : Type := mkReportDecision { rd_effect_ref : string; rd_allowed : bool; rd_reason : string }.

Definition report_decision_from_mapping (data : table) : res ReportDecision :=
  effect_ref ← str_field data "effect_ref" "policy_decision.effect_ref";
  allowed ← (v ← _require_field data "allowed"; _ensure_bool v "policy_decision.allowed");
  reason ← str_field data "reason" "policy_decision.reason";
  Ok (mkReportDecision effect_ref allowed reason).

Record ExecutionReportBody : Type := mkExecutionReport {
  er_report_id : string;
  er_artifact_refs : table;
  er_status : string;
  er_policy_decisions : list ReportDecision;
  er_errors : list string;
  er_artifacts : list (string * table);
  er_execution_hash : string
}.

Definition ALLOWED_STATUSES : list string := ["succeeded"; "partial"; "failed"].

Definition execution_report_from_mapping (v : json) : res ExecutionReportBody :=
  data ← mapping_of v;
  artifact_refs ← dict_field data "artifact_refs" "artifact_refs";
  artifacts_raw ← dict_field data "artifacts" "artifacts";
  decisions_raw ← match jor (jget "policy_decisions" data) (JArr []) with
                  | JArr l => Ok l
                  | _ => Raise (TypeError "policy_decisions must be a list of mappings")
                  end;
  decisions ← each_dict report_decision_from_mapping "policy_decision" decisions_raw;
  status ← str_field data "status" "status";
  if negb (bool_decide (status ∈ ALLOWED_STATUSES))
  then Raise (ValueError "status must be one of: failed, partial, succeeded")
  else
    artifacts ← mapM (fun kv : string * json => d ← _ensure_dict kv.2 ("artifacts." +:+ kv.1); Ok (kv.1, d)) artifacts_raw;
    report_id ← str_field data "report_id" "report_id";
    errors ← _force_str_list (jget "errors" data) "errors";
    execution_hash ← str_field data "execution_hash" "execution_hash";
    Ok (mkExecutionReport report_id artifact_refs status decisions errors artifacts execution_hash).

(** ** Their verification ([artifacts/verify.py]) *)

Inductive cycle_body : Type :=
| Snapshot (b : EnvSnapshotBody)
| ChangePlan (b : ProposedChangePlanBody)
| ExecutionReport (b : ExecutionReportBody).

Definition body_type (b : cycle_body) : string :=
  match b with
  | Snapshot _ => "environment_snapshot"
  | ChangePlan _ => "proposed_change_plan"
  | ExecutionReport _ => "execution_report"
  end.

Definition blank (s : string) : bool := String.eqb s "".
Definition complain (b : bool) (message : string) : list string := if b then [message] else [].

(** [isinstance(value, Sequence)] of a value that is given. *)
Definition not_sequence (v : json) : bool := match v with JNull | JArr _ | JStr _ => false | _ => true end.

Definition _validate_env_snapshot (b : EnvSnapshotBody) (raw : table) : list string :=
  complain (blank (es_snapshot_id b)) "env snapshot must declare 'snapshot_id'" ++
  complain (blank (es_timestamp b)) "env snapshot must declare 'timestamp'" ++
  complain (bool_decide (es_environment b = [])) "env snapshot 'environment' must not be empty" ++
  complain (blank (es_data_hash b)) "env snapshot must declare 'data_hash'" ++
  complain (not_sequence (jget "constraints" raw)) "env snapshot 'constraints' must be a sequence if provided".

Definition decision_errors (idx : nat) (d : ProposedChangeDecision) : list string :=
  let path := "decisions[" +:+ pretty idx +:+ "]" in
  complain (blank (cd_effect_ref d)) (path +:+ ".effect_ref must be non-empty") ++
  complain (blank (cd_idempotency_key d)) (path +:+ ".idempotency_key must be non-empty") ++
  complain (bool_decide (cd_target_state d = [])) (path +:+ ".target_state must be provided").

Definition _validate_proposed_change_plan (b : ProposedChangePlanBody) (raw : table) : list string :=
  complain (blank (cp_plan_id b)) "proposed plan must declare 'plan_id'" ++
  complain (blank (cp_intent_id b)) "proposed plan must declare 'intent_id'" ++
  complain (bool_decide (length (cp_decisions b) = 0)) "proposed plan must include at least one decision" ++
  concat (imap decision_errors (cp_decisions b)) ++
  complain (blank (cp_summary b)) "proposed plan must include a 'summary'" ++
  complain (not_sequence (jget "policy_requirements" raw)) "policy_requirements must be a sequence".

Definition _validate_execution_report (b : ExecutionReportBody) (raw : table) : list string :=
  complain (blank (er_report_id b)) "execution report must declare 'report_id'" ++
  complain (blank (er_execution_hash b)) "execution report must declare 'execution_hash'" ++
  complain (bool_decide (length (er_policy_decisions b) = 0)) "execution report must include policy decisions" ++
  complain (not_sequence (jget "policy_decisions" raw)) "execution report 'policy_decisions' must be a sequence".

Definition validate_body (b : cycle_body) (raw : table) : list string :=
  match b with
  | Snapshot b => _validate_env_snapshot b raw
  | ChangePlan b => _validate_proposed_change_plan b raw
  | ExecutionReport b => _validate_execution_report b raw
  end.

Record ArtifactEnvelope : Type := mkArtifactEnvelope {
  ev_artifact_id : string;
  ev_status : string;
  ev_artifact_type : string;
  ev_version : string;
  ev_created_by : string;
  ev_created_at : string;
  ev_body_hash : string;
  ev_envelope_hash : string;
  ev_meta : table;
  ev_signature : option string
}.

Record CycleArtifact : Type := mkArtifact { ca_envelope : ArtifactEnvelope; ca_body : cycle_body; ca_body_raw : table }.

Definition _is_supported_version (version : string) : bool := String.eqb version "v0" || String.prefix "v0." version.

Definition _apply_success_metadata (e : ArtifactEnvelope) (computed_hash : string) : ArtifactEnvelope :=
  let hashes := dict_set "body_hash" (JStr computed_hash) (default [] (as_mapping (jget "hashes" (ev_meta e)))) in
  let meta := dict_set "produced_by" (JStr "tracemind.verifier.v0")
                (dict_set "determinism" (JBool true) (dict_set "hashes" (JObj hashes) (ev_meta e))) in
  mkArtifactEnvelope (ev_artifact_id e) "accepted" (ev_artifact_type e) (ev_version e) (ev_created_by e) (ev_created_at e)
    computed_hash (ev_envelope_hash e) meta (ev_signature e).

Definition verify_artifact `{BodyDigest} (a : CycleArtifact) : CycleArtifact + list string :=
  let e := ca_envelope a in
  let errors :=
    complain (negb (String.eqb (ev_status e) "candidate")) "artifact status must be 'candidate' for verification" ++
    complain (negb (_is_supported_version (ev_version e))) ("unsupported artifact version '" +:+ ev_version e +:+ "'") ++
    (if String.eqb (ev_artifact_type e) (body_type (ca_body a)) then validate_body (ca_body a) (ca_body_raw a) else []) in
  match errors with
  | [] => inl (mkArtifact (_apply_success_metadata e (body_hash (JObj (ca_body_raw a)))) (ca_body a) (ca_body_raw a))
  | _ => inr errors
  end.

(** ** The registry ([artifacts/registry.py]) *)

Definition registry_entry (a : CycleArtifact) (path : string) : table :=
  let e := ca_envelope a in
  [("artifact_id", JStr (ev_artifact_id e)); ("artifact_type", JStr (ev_artifact_type e));
   ("body_hash", JStr (ev_body_hash e)); ("path", JStr path); ("meta", JObj (ev_meta e));
   ("version", JStr (ev_version e)); ("created_at", JStr (ev_created_at e)); ("status", JStr (ev_status e));
   ("intent_id", match ca_body a with ChangePlan b => JStr (cp_intent_id b) | _ => JNull end)].

Definition registry_add (l : list table) (a : CycleArtifact) (path : string) : res (list table) :=
  if negb (String.eqb (ev_status (ca_envelope a)) "accepted")
  then Raise (ValueError "only accepted artifacts may be registered")
  else Ok (l ++ [registry_entry a path]).

(** ** Names *)

(** [ch.isalnum()] of a lower-case ASCII character. *)
Definition alnum (c : ascii) : bool :=
  let n := nat_of_ascii c in ((97 <=? n) && (n <=? 122)) || ((48 <=? n) && (n <=? 57)).

Definition _slug (value : string) : string :=
  let clean c := if alnum c then c else "-"%char in
  let fix go s := match s with EmptyString => EmptyString | String c s => String (clean c) (go s) end in
  let parts := split_char "-" (go (str_lower (strip value))) in
  String.concat "-" (filter (fun p => p ≠ EmptyString) (parts.1 :: parts.2)).

(** The documents left behind for a bundle. *)
Definition cycle_envelope_doc (name type created_at : string) : json :=
  JObj [("artifact_id", JStr name); ("status", JStr "candidate"); ("artifact_type", JStr type); ("version", JStr "v0");
        ("created_by", JStr "controller.cycle"); ("created_at", JStr created_at); ("body_hash", JStr "");
        ("envelope_hash", JStr ""); ("meta", JObj [("phase", JStr "controller-cycle")])].

Definition _build_gap_map_doc (bundle_id : string) (errors : list string) (created_at : string) : json :=
  let failing := bool_decide (errors ≠ []) in
  JObj [("envelope", cycle_envelope_doc ("tm-controller/gap-map-" +:+ _slug bundle_id) "gap_map" created_at);
        ("body", JObj
          [("gap_id", JStr ("gap-" +:+ _slug bundle_id));
           ("gap_description", JStr (if failing then "Controller cycle detected blocking issues: " +:+ String.concat "; " errors
                                     else "Controller cycle completed without blocking gaps."));
           ("impacted_intents", JArr [JStr bundle_id]);
           ("mitigations", JArr (JStr <$> if failing then errors else ["No additional mitigation required."]));
           ("severity", JStr (if failing then "high" else "low"))])].

Definition _build_backlog_doc (bundle_id : string) (errors : list string) (created_at : string) : json :=
  let failing := bool_decide (errors ≠ []) in
  JObj [("envelope", cycle_envelope_doc ("tm-controller/backlog-" +:+ _slug bundle_id) "backlog" created_at);
        ("body", JObj
          [("backlog_id", JStr ("backlog-" +:+ _slug bundle_id));
           ("items", JArr [JObj
             [("intent_id", JStr bundle_id); ("priority", JStr (if failing then "high" else "low"));
              ("description", JStr (if failing then "Resolve: " +:+ String.concat "; " errors
                                    else "Review controller cycle for bundle " +:+ bundle_id +:+ "."))]])])].

Definition write_gap_and_backlog (dir bundle_id : string) (errors : list string) (created_at : string)
  : list (string * json) :=
  [(dir +:+ "/gap_map.yaml", _build_gap_map_doc bundle_id errors created_at);
   (dir +:+ "/backlog.yaml", _build_backlog_doc bundle_id errors created_at)].

(** ** Agents, clocks, cancellations *)

(** One start of an agent. *)
Record agent_call : Type := mkCall {
  c_agent_id : string;
  c_step : string;
  c_attempt : Z;
  c_config : table;
  c_inputs : table
}.

(** What the world answers.  Operations are numbered: [env_cancel n] says that
    a cancellation arrives just before the [n]-th.  [env_start] is what
    resolving and initialising an agent raises, [env_run] what it returns with
    the evidence it added, or raises; both may depend on everything that
    happened before.  [env_late] says that a wait under a timeout ends with
    the timeout. *)
Record environment : Type := mkEnv {
  env_cancel : nat → bool;
  env_iso_now : nat → string;
  env_monotonic : nat → Z;
  env_late : nat → bool;
  env_start : nat → agent_call → option exn;
  env_run : nat → agent_call → (table * list (string * json)) + exn
}.

(** What an observer of the cycle sees, in order. *)
Inductive cycle_event : Type :=
| CancelRequested
| Called (c : agent_call)
| Planned (p : ProposedChangePlanBody).

(** The run and its [ExecutionContext]. *)
Record cycle_world : Type := mkWorld {
  cw_tick : nat;
  cw_run : RunReliabilityState;
  cw_cancel_event : bool;
  cw_refs : table;
  cw_guard : ExecutionIdempotencyGuard;
  cw_trail : audit_trail;
  cw_executed_steps : list string;
  cw_step_outputs : table;
  cw_approval_token : option string;
  cw_files : list (string * json);
  cw_registry : list table;
  cw_log : list cycle_event
}.

Definition context_new (next_op : nat) (run : RunReliabilityState) (cancel : bool) : cycle_world :=
  mkWorld next_op run cancel [] (mkGuard (of_int 60) ∅) (mkTrail [] []) [] [] None [] [] [].

(** A [ControllerCycleError] with its list of errors, or any other exception. *)
Inductive failure : Type :=
| CycleError (message : string) (errors : list string)
| Crash (e : exn).

(** Stateful computations that may fail. *)
Definition CM (A : Type) : Type := cycle_world → (A + failure) * cycle_world.

#[local] Instance CM_ret : MRet CM := fun A a w => (inl a, w).
#[local] Instance CM_bind : MBind CM := fun A B f m w =>
  match m w with
  | (inl a, w') => f a w'
  | (inr e, w') => (inr e, w')
  end.

Definition fail_with {A} (message : string) (errors : list string) : CM A :=
  fun w => (inr (CycleError message (match errors with [] => [message] | _ => errors end)), w).

Definition lift_res {A} (r : res A) : CM A :=
  fun w => (match r with Ok a => inl a | Raise e => inr (Crash e) end, w).

Definition gets {A} (f : cycle_world → A) : CM A := fun w => (inl (f w), w).
Definition modify (f : cycle_world → cycle_world) : CM unit := fun w => (inl tt, f w).

Definition set_run (s : RunReliabilityState) (w : cycle_world) : cycle_world :=
  mkWorld (cw_tick w) s (cw_cancel_event w) (cw_refs w) (cw_guard w) (cw_trail w) (cw_executed_steps w)
    (cw_step_outputs w) (cw_approval_token w) (cw_files w) (cw_registry w) (cw_log w).
Definition set_refs (r : table) (w : cycle_world) : cycle_world :=
  mkWorld (cw_tick w) (cw_run w) (cw_cancel_event w) r (cw_guard w) (cw_trail w) (cw_executed_steps w)
    (cw_step_outputs w) (cw_approval_token w) (cw_files w) (cw_registry w) (cw_log w).
Definition set_guard (g : ExecutionIdempotencyGuard) (w : cycle_world) : cycle_world :=
  mkWorld (cw_tick w) (cw_run w) (cw_cancel_event w) (cw_refs w) g (cw_trail w) (cw_executed_steps w)
    (cw_step_outputs w) (cw_approval_token w) (cw_files w) (cw_registry w) (cw_log w).
Definition set_trail (t : audit_trail) (w : cycle_world) : cycle_world :=
  mkWorld (cw_tick w) (cw_run w) (cw_cancel_event w) (cw_refs w) (cw_guard w) t (cw_executed_steps w)
    (cw_step_outputs w) (cw_approval_token w) (cw_files w) (cw_registry w) (cw_log w).
Definition set_steps (names : list string) (outputs : table) (w : cycle_world) : cycle_world :=
  mkWorld (cw_tick w) (cw_run w) (cw_cancel_event w) (cw_refs w) (cw_guard w) (cw_trail w) names
    outputs (cw_approval_token w) (cw_files w) (cw_registry w) (cw_log w).
Definition set_token (t : option string) (w : cycle_world) : cycle_world :=
  mkWorld (cw_tick w) (cw_run w) (cw_cancel_event w) (cw_refs w) (cw_guard w) (cw_trail w) (cw_executed_steps w)
    (cw_step_outputs w) t (cw_files w) (cw_registry w) (cw_log w).
Definition set_stored (files : list (string * json)) (registry : list table) (w : cycle_world) : cycle_world :=
  mkWorld (cw_tick w) (cw_run w) (cw_cancel_event w) (cw_refs w) (cw_guard w) (cw_trail w) (cw_executed_steps w)
    (cw_step_outputs w) (cw_approval_token w) files registry (cw_log w).
Definition log_event (e : cycle_event) (w : cycle_world) : cycle_world :=
  mkWorld (cw_tick w) (cw_run w) (cw_cancel_event w) (cw_refs w) (cw_guard w) (cw_trail w) (cw_executed_steps w)
    (cw_step_outputs w) (cw_approval_token w) (cw_files w) (cw_registry w) (cw_log w ++ [e]).

Definition request_cancel (w : cycle_world) : cycle_world :=
  mkWorld (cw_tick w) (mark_cancel_requested (cw_run w)) true (cw_refs w) (cw_guard w) (cw_trail w)
    (cw_executed_steps w) (cw_step_outputs w) (cw_approval_token w) (cw_files w) (cw_registry w)
    (cw_log w ++ [CancelRequested]).

Definition next_tick (w : cycle_world) : cycle_world :=
  mkWorld (S (cw_tick w)) (cw_run w) (cw_cancel_event w) (cw_refs w) (cw_guard w) (cw_trail w) (cw_executed_steps w)
    (cw_step_outputs w) (cw_approval_token w) (cw_files w) (cw_registry w) (cw_log w).

Definition note_evidence (kind : string) (payload : json) : CM unit :=
  modify (fun w => set_trail (record_evidence (cw_trail w) kind payload) w).

(** ** The cycle ([controllers/cycle.py]) *)

Record LlmConfigEntry : Type := mkLlmConfig {
  lc_config_id : string;
  lc_model : string;
  lc_prompt_template_version : string;
  lc_prompt_version : string;
  lc_created_at : string;
  lc_model_id : option string;
  lc_model_version : option string
}.

Record ControllerCycle : Type := mkCycle {
  cy_bundle_path : string;
  cy_bundle_stem : string;
  cy_mode : string;
  cy_dry_run : bool;
  cy_record_path : string;
  cy_artifact_output_dir : string;
  cy_llm_config : option LlmConfigEntry;
  cy_approval_token : option string
}.

(** What the bundle file holds: the body is given when it is a bundle's. *)
Inductive bundle_file : Type :=
| BundleMissing
| BundleUnreadable (reason : string)
| BundleLoaded (artifact_id status type : string) (body : option Bundle).

Record ControllerCycleResult : Type := mkCycleResult {
  ccr_bundle_artifact_id : string;
  ccr_env_snapshot : CycleArtifact;
  ccr_planned_change : CycleArtifact;
  ccr_execution_report : CycleArtifact;
  ccr_policy_decisions : list PolicyDecision;
  ccr_start_time : string;
  ccr_end_time : string
}.

Section cycle.
Context {BD : BodyDigest} {PT : PyText} (env : environment) (cy : ControllerCycle).

(** The next operation: its number, after a cancellation that arrived. *)
Definition next_op : CM nat := fun w =>
  let n := cw_tick w in
  (inl n, next_tick (if env_cancel env n then request_cancel w else w)).

(** An operation of the reliability controller. *)
Definition reliability (f : RunReliabilityState → RunReliabilityState) : CM unit :=
  _ ← next_op; modify (fun w => set_run (f (cw_run w)) w).

Definition iso_now : CM string := n ← next_op; mret (env_iso_now env n).

Definition is_cancelled : CM bool := _ ← next_op; gets cw_cancel_event.

(** [ExecutionContext.run_idempotent], with the evidence of an agent that ran. *)
Definition run_idempotent (key : string) (c : agent_call) : CM ((table * list (string * json)) + exn) :=
  n ← next_op;
  guard ← gets cw_guard;
  let '(cached, guard') := guard_lookup guard key (env_monotonic env n) in
  _ ← modify (set_guard guard');
  match cached with
  | Some result => mret (inl (items result, []))
  | None =>
      _ ← modify (log_event (Called c));
      match env_run env n c with
      | inr e => mret (inr e)
      | inl (outputs, added) =>
          m ← next_op;
          _ ← modify (fun w => set_guard (guard_record (cw_guard w) key (Map outputs) (env_monotonic env m)) w);
          _ ← note_evidence "idempotency" (JObj [("key", JStr key); ("result", JObj outputs)]);
          mret (inl (outputs, added))
      end
  end.

(** How an attempt ends. *)
Inductive attempt_end : Type :=
| Returned (outputs : table) (added : list (string * json))
| TimedOut (reason : string)
| Failed (e : exn).

Definition attempt_of (r : (table * list (string * json)) + exn) : attempt_end :=
  match r with inl (outputs, added) => Returned outputs added | inr e => Failed e end.

(** [run_with_timeout]: leaving the pool waits for the call to end, so it has
    its effects even when the wait for it timed out. *)
Definition run_with_timeout (timeout : option pyfloat) (call : CM ((table * list (string * json)) + exn)) : CM attempt_end :=
  match timeout with
  | None => r ← call; mret (attempt_of r)
  | Some t =>
      if fge fzero t then r ← call; mret (attempt_of r)
      else
        r ← call;
        n ← next_op;
        if env_late env n then mret (TimedOut ("timed out after " +:+ py_str other_str (JFloat t) +:+ " seconds"))
        else mret (attempt_of r)
  end.

Definition run_id : CM json := gets (fun w => JStr (rr_run_id (cw_run w))).

Definition _record_timeout_evidence (step : string) (attempt : Z) (timeout : option pyfloat) (reason : string) : CM unit :=
  id ← run_id;
  note_evidence "reliability.timeout"
    (JObj [("run_id", id); ("step", JStr step); ("attempt", JInt attempt);
           ("timeout_seconds", opt_float_json timeout); ("reason", JStr reason)]).

Definition _record_retry_evidence (step : string) (attempt : Z) (reason : string) : CM unit :=
  id ← run_id;
  note_evidence "reliability.retry"
    (JObj [("run_id", id); ("step", JStr step); ("attempt", JInt attempt); ("reason", JStr reason)]).

Definition _record_cancel_evidence (step : string) (attempt : Z) : CM unit :=
  id ← run_id;
  note_evidence "reliability.cancel"
    (JObj [("run_id", id); ("step", JStr step); ("attempt", JInt attempt); ("message", JStr "cancellation requested")]).

(** The attempts of a step; [n] are left. *)
Fixpoint run_attempts (n : nat) (attempt : Z) (policy : StepReliabilityPolicy) (step : BundleStep) (agent_id : string)
    (config inputs : table) : CM (table * list (string * json)) :=
  match n with
  | O => fail_with "agent did not complete successfully" ["retry failed"]
  | S n =>
      let name := bs_step step in
      _ ← reliability (mark_attempt name attempt);
      cancelled ← is_cancelled;
      if (cancelled : bool) then
        _ ← _record_cancel_evidence name attempt;
        fail_with "controller cycle cancelled" ["run cancelled"]
      else
        let c := mkCall agent_id name attempt config inputs in
        k ← next_op;
        match env_start env k c with
        | Some e => lift_res (Raise e)
        | None =>
            r ← run_with_timeout (sr_timeout_seconds policy) (run_idempotent (agent_id +:+ ":" +:+ name) c);
            match r with
            | Returned outputs added => mret (outputs, added)
            | TimedOut reason =>
                _ ← reliability (mark_timeout name attempt (sr_timeout_seconds policy) reason);
                _ ← _record_timeout_evidence name attempt (sr_timeout_seconds policy) reason;
                if (sr_max_attempts policy <=? attempt)%Z then
                  let message := "agent '" +:+ agent_id +:+ "' timed out during step '" +:+ name +:+ "'" in
                  _ ← reliability (mark_failed message);
                  fail_with ("agent '" +:+ agent_id +:+ "' timed out") [message]
                else
                  _ ← _record_retry_evidence name attempt reason;
                  run_attempts n (attempt + 1) policy step agent_id config inputs
            | Failed e => fail_with ("agent '" +:+ agent_id +:+ "' failed during step '" +:+ name +:+ "'") [exn_str e]
            end
        end
  end.

(** [str] of the [KeyError] of a reference without quotes. *)
Definition missing_ref_text (ref : string) : string :=
  String "034" ("ref '" +:+ ref +:+ "' not found" +:+ String "034" EmptyString).

Fixpoint _collect_inputs (step : string) (refs : list string) (inputs : table) : CM table :=
  match refs with
  | [] => mret inputs
  | ref :: refs =>
      known ← gets cw_refs;
      match alookup ref known with
      | Some v => _collect_inputs step refs (dict_set ref v inputs)
      | None => fail_with ("missing input '" +:+ ref +:+ "' for step '" +:+ step +:+ "'") [missing_ref_text ref]
      end
  end.

Fixpoint _persist_outputs (step : BundleStep) (refs : list string) (outputs : table) : CM unit :=
  match refs with
  | [] => mret tt
  | ref :: refs =>
      match alookup ref outputs with
      | None => lift_res (Raise (RuntimeError ("agent '" +:+ bs_agent_id step +:+ "' did not produce output '" +:+ ref
                                               +:+ "' for step '" +:+ bs_step step +:+ "'")))
      | Some v => _ ← modify (fun w => set_refs (dict_set ref v (cw_refs w)) w); _persist_outputs step refs outputs
      end
  end.

Definition _execute_step (profile : ReliabilityProfile) (step : BundleStep) (agent_id : string) (config : table) : CM table :=
  inputs ← _collect_inputs (bs_step step) (bs_inputs step) [];
  let policy := policy_for_step profile (bs_step step) in
  r ← run_attempts (Z.to_nat (sr_max_attempts policy)) 1 policy step agent_id config inputs;
  let '(outputs, added) := (r : table * list (string * json)) in
  let declared := dict_update [] ((fun ref => (ref, jget ref outputs)) <$> bs_outputs step) in
  _ ← modify (fun w => set_steps (cw_executed_steps w ++ [bs_step step])
                         (dict_set (bs_step step) (JObj declared) (cw_step_outputs w)) w);
  _ ← modify (fun w => set_trail (foldl (fun t e => record_evidence t e.1 e.2) (cw_trail w) added) w);
  _ ← _persist_outputs step (bs_outputs step) outputs;
  mret outputs.

Definition DECIDE_AGENT_ID : string := "tm-agent/controller-decide:0.2".

Definition _build_agent_configs : list (string * table) :=
  let base := [("mode", JStr (cy_mode cy)); ("record_path", JStr (cy_record_path cy))] in
  [(DECIDE_AGENT_ID,
    match cy_llm_config cy with
    | None => base
    | Some l => base ++ [("model", JStr (lc_model l)); ("model_id", opt_str_json (lc_model_id l));
                         ("model_version", opt_str_json (lc_model_version l));
                         ("prompt_template_version", JStr (lc_prompt_template_version l));
                         ("prompt_version", JStr (lc_prompt_version l)); ("llm_config_id", JStr (lc_config_id l))]
    end)].

Definition _build_envelope (type suffix : string) : CM ArtifactEnvelope :=
  now ← iso_now;
  mret (mkArtifactEnvelope ("tm-controller/" +:+ suffix +:+ "-" +:+ _slug (cy_bundle_stem cy)) "candidate" type "v0"
          "controller.cycle" now "" ""
          [("phase", JStr "controller-cycle"); ("bundle", JStr (cy_bundle_path cy)); ("mode", JStr (cy_mode cy))] None).

Definition _verify (a : CycleArtifact) : CM CycleArtifact :=
  match verify_artifact a with
  | inl accepted => mret accepted
  | inr errors => fail_with "artifact verification failed" errors
  end.

Definition accept (type suffix : string) (read : json → res cycle_body) (payload : json) : CM CycleArtifact :=
  envelope ← _build_envelope type suffix;
  body ← lift_res (read payload);
  raw ← lift_res (dict_of payload);
  _verify (mkArtifact envelope body raw).

Definition _accept_snapshot : json → CM CycleArtifact :=
  accept "environment_snapshot" "env_snapshot" (fun v => Snapshot <$> snapshot_from_mapping v).
Definition _accept_plan : json → CM CycleArtifact :=
  accept "proposed_change_plan" "proposed_change_plan" (fun v => ChangePlan <$> change_plan_from_mapping v).
Definition _accept_execution_report : json → CM CycleArtifact :=
  accept "execution_report" "execution_report" (fun v => ExecutionReport <$> execution_report_from_mapping v).

Definition changes_resources (p : ProposedChangePlanBody) : bool :=
  existsb (fun d => String.prefix "resource:" (cd_effect_ref d)) (cp_decisions p).

Definition _plan_requires_approval (a : CycleArtifact) : bool :=
  if cy_dry_run cy then false
  else match ca_body a with ChangePlan p => changes_resources p | _ => false end.

Definition _is_approved : bool :=
  match cy_approval_token cy with Some t => String.prefix "approved" t | None => false end.

Definition _ensure_plan_approval (a : CycleArtifact) : CM unit :=
  if negb (_plan_requires_approval a) then mret tt
  else if negb _is_approved
  then fail_with "resource effects require explicit approval" ["plan requires approval before executing resource effects"]
  else
    match cy_approval_token cy with
    | Some (String _ _ as t) => modify (fun w => match cw_approval_token w with None => set_token (Some t) w | Some _ => w end)
    | _ => mret tt
    end.

Fixpoint evaluate_requirements (requirements : list string) (meta : table) (decisions : list PolicyDecision)
  : CM (list PolicyDecision) :=
  match requirements with
  | [] => mret decisions
  | target :: requirements =>
      trail ← gets cw_trail;
      let '(decision, trail') := guard_evaluate [] target target trail (Some meta) in
      _ ← modify (set_trail trail');
      if pd_allowed decision then evaluate_requirements requirements meta (decisions ++ [decision])
      else fail_with ("policy guard denied '" +:+ target +:+ "'")
             ["policy guard denied '" +:+ target +:+ "'"; pd_effect decision +:+ ": " +:+ pd_reason decision]
  end.

Definition _evaluate_policy (a : CycleArtifact) (meta : table) : CM (list PolicyDecision) :=
  match ca_body a with
  | ChangePlan p => evaluate_requirements (cp_policy_requirements p) meta []
  | _ => fail_with "invalid proposed change plan artifact" []
  end.

(** What the steps have produced so far. *)
Record cycle_products : Type := mkProducts {
  pr_snapshot : option json;
  pr_plan : option CycleArtifact;
  pr_report : option CycleArtifact
}.

Definition plan_event (a : CycleArtifact) (w : cycle_world) : cycle_world :=
  match ca_body a with ChangePlan p => log_event (Planned p) w | _ => w end.

(** A plan that was put forward: verified, approved, checked by the guard. *)
Definition take_plan (meta : table) (payload : json) : CM CycleArtifact :=
  a ← _accept_plan payload;
  _ ← modify (plan_event a);
  _ ← _ensure_plan_approval a;
  _ ← _evaluate_policy a meta;
  mret a.

Fixpoint run_plan (profile : ReliabilityProfile) (agents : list BundleAgent) (meta : table) (plan : list BundleStep)
    (p : cycle_products) : CM cycle_products :=
  match plan with
  | [] => mret p
  | step :: plan =>
      match List.find (fun a => String.eqb (as_agent_id (ba_spec a)) (bs_agent_id step)) (reverse agents) with
      | None => fail_with ("unregistered agent '" +:+ bs_agent_id step +:+ "' in plan") []
      | Some a =>
          let agent_id := as_agent_id (ba_spec a) in
          outputs ← _execute_step profile step agent_id (default [] (alookup agent_id _build_agent_configs));
          let snapshot := match alookup "state:env.snapshot" outputs with Some v => Some v | None => pr_snapshot p end in
          planned ← match alookup "artifact:proposed.plan" outputs with
                    | Some v => a' ← take_plan meta v; mret (Some a')
                    | None => mret (pr_plan p)
                    end;
          match alookup "artifact:execution.report" outputs with
          | Some v =>
              report ← _accept_execution_report v;
              mret (mkProducts snapshot planned (Some report))
          | None => run_plan profile agents meta plan (mkProducts snapshot planned (pr_report p))
          end
      end
  end.

Definition _artifact_document (a : CycleArtifact) : json :=
  let e := ca_envelope a in
  JObj [("envelope", JObj (
           [("artifact_id", JStr (ev_artifact_id e)); ("status", JStr (ev_status e));
            ("artifact_type", JStr (ev_artifact_type e)); ("version", JStr (ev_version e));
            ("created_by", JStr (ev_created_by e)); ("created_at", JStr (ev_created_at e));
            ("body_hash", JStr (ev_body_hash e)); ("envelope_hash", JStr (ev_envelope_hash e));
            ("meta", JObj (ev_meta e))] ++
           match ev_signature e with Some s => [("signature", JStr s)] | None => [] end));
        ("body", JObj (ca_body_raw a))].

Definition _persist_artifact (a : CycleArtifact) (filename : string) : CM unit :=
  let target := cy_artifact_output_dir cy +:+ "/" +:+ filename in
  _ ← modify (fun w => set_stored (cw_files w ++ [(target, _artifact_document a)]) (cw_registry w) w);
  if cy_dry_run cy then mret tt
  else
    w ← gets id;
    registry ← lift_res (registry_add (cw_registry w) a target);
    modify (set_stored (cw_files w) registry).

(** [if x is None: raise ControllerCycleError(message)]. *)
Definition given_or {A} (o : option A) (message : string) : CM A :=
  match o with Some a => mret a | None => fail_with message [] end.

Definition _execute (artifact_id : string) (bundle : Bundle) (start_time : string) : CM ControllerCycleResult :=
  let meta := ab_meta bundle in
  profile ← lift_res (from_meta meta);
  _ ← reliability (mark_bundle artifact_id);
  now ← iso_now;
  _ ← reliability (mark_started now);
  p ← run_plan profile (ab_agents bundle) meta (ab_plan bundle) (mkProducts None None None);
  report ← given_or (pr_report p) "controller cycle did not produce execution report";
  planned ← given_or (pr_plan p) "decide agent did not emit proposed change plan";
  payload ← given_or (pr_snapshot p) "observe agent did not emit state:env.snapshot";
  snapshot ← _accept_snapshot payload;
  _ ← _persist_artifact snapshot "env_snapshot.yaml";
  _ ← _persist_artifact planned "proposed_change_plan.yaml";
  _ ← _persist_artifact report "execution_report.yaml";
  end_time ← iso_now;
  mret (mkCycleResult artifact_id snapshot planned report [] start_time end_time).

Definition _load_bundle (file : bundle_file) : CM (string * Bundle) :=
  match file with
  | BundleMissing => fail_with ("bundle not found: " +:+ cy_bundle_path cy) []
  | BundleUnreadable reason => fail_with ("failed to load bundle: " +:+ reason) []
  | BundleLoaded id status type body =>
      if negb (String.eqb status "accepted") then fail_with "bundle artifact must be accepted" []
      else if negb (String.eqb type "agent_bundle") then fail_with "expected agent bundle artifact" []
      else match body with
           | Some b => mret (id, b)
           | None => fail_with "invalid agent bundle body" []
           end
  end.

(** Everything inside the [try] of [run]. *)
Definition cycle_body_run (file : bundle_file) : CM ControllerCycleResult :=
  start_time ← iso_now;
  ib ← _load_bundle file;
  _execute ib.1 ib.2 start_time.

(** [run]: every failure leaves as a [ControllerCycleError]. *)
Definition cycle_run (file : bundle_file) (w : cycle_world)
  : (ControllerCycleResult + (string * list string)) * cycle_world :=
  let finish success errors w := (now ← iso_now; reliability (mark_finished success errors now)) w in
  match cycle_body_run file w with
  | (inl result, w') => (inl result, (finish true [] w').2)
  | (inr (CycleError message errors), w') => (inr (message, errors), (finish false errors w').2)
  | (inr (Crash e), w') => (inr ("controller cycle failed", [exn_str e]), (finish false [exn_str e] w').2)
  end.
End cycle.

(** ** What a cycle guarantees *)

(** A plan the cycle may act on: resource effects have an approval, and the
    policy of the bundle allows every target the plan names. *)
Definition cleared {PT : PyText} (cy : ControllerCycle) (meta : table) (p : ProposedChangePlanBody) : Prop :=
  (cy_dry_run cy = false → changes_resources p = true →
   ∃ t, cy_approval_token cy = Some t ∧ String.prefix "approved" t = true) ∧
  ∀ target, target ∈ cp_policy_requirements p → target ∈ policy_allowlist (Some meta).

Definition settled {PT : PyText} (cy : ControllerCycle) (meta : table) (l : list cycle_event) : Prop :=
  ∀ p, Planned p ∈ l → cleared cy meta p.

(** No agent starts after a plan that is not cleared. *)
Definition governed {PT : PyText} (cy : ControllerCycle) (meta : table) (l : list cycle_event) : Prop :=
  ∀ pre c post, l = pre ++ Called c :: post → settled cy meta pre.

Definition is_call (e : cycle_event) : bool := match e with Called _ => true | _ => false end.
Definition count_calls (l : list cycle_event) : nat := length (List.filter is_call l).

(** At most [n] agents start after a cancellation. *)
Definition calm (n : nat) (l : list cycle_event) : Prop :=
  ∀ pre post, l = pre ++ CancelRequested :: post → count_calls post ≤ n.

(** Attempts stay within the policy of their step. *)
Definition bounded (profile : ReliabilityProfile) (l : list cycle_event) : Prop :=
  ∀ c, Called c ∈ l → (1 <= c_attempt c <= sr_max_attempts (policy_for_step profile (c_step c)))%Z.

Lemma app_cons_snoc {A} (l pre post : list A) x y :
  l ++ [x] = pre ++ y :: post → (post = [] ∧ x = y ∧ l = pre) ∨ ∃ post', post = post' ++ [x] ∧ l = pre ++ y :: post'.
Proof.
  destruct post as [|z post _] using rev_ind.
  - intros [-> [= ->]]%app_inj_tail. by left.
  - rewrite app_comm_cons, (assoc_L (++)). intros [-> ->]%app_inj_tail. right. eauto.
Qed.

Lemma count_calls_snoc l e : count_calls (l ++ [e]) = count_calls l + (if is_call e then 1 else 0).
Proof. unfold count_calls. rewrite List.filter_app, length_app. simpl. by destruct (is_call e). Qed.

Lemma calm_snoc n l e : calm n l → is_call e = false → calm n (l ++ [e]).
Proof.
  intros H He pre post [(-> & -> & ->)|(post' & -> & ->)]%app_cons_snoc; [apply Nat.le_0_l|].
  rewrite count_calls_snoc, He. specialize (H pre post' eq_refl). lia.
Qed.

Lemma calm_call n l c : calm n l → calm (S n) (l ++ [Called c]).
Proof.
  intros H pre post [(-> & [=] & ->)|(post' & -> & ->)]%app_cons_snoc.
  rewrite count_calls_snoc. specialize (H pre post' eq_refl). simpl. lia.
Qed.

Lemma calm_none n l : CancelRequested ∉ l → calm n l.
Proof. intros H pre post ->. destruct H. set_solver. Qed.

Lemma governed_snoc {PT : PyText} cy meta l e : governed cy meta l → is_call e = false → governed cy meta (l ++ [e]).
Proof.
  intros H He pre c post [(-> & -> & ->)|(post' & -> & ->)]%app_cons_snoc; [done|]. by eapply H.
Qed.

Lemma governed_call {PT : PyText} cy meta l c : governed cy meta l → settled cy meta l → governed cy meta (l ++ [Called c]).
Proof.
  intros H Hs pre c' post [(-> & [= ->] & ->)|(post' & -> & ->)]%app_cons_snoc; [done|]. by eapply H.
Qed.

(** Failures say why. *)
Definition reasons (e : failure) : Prop := match e with CycleError _ errors => errors ≠ [] | Crash _ => True end.

Section spec.
Context {BD : BodyDigest} {PT : PyText} (env : environment) (cy : ControllerCycle).
Context (profile : ReliabilityProfile) (meta : table).

(** Nothing is stored yet, and the events satisfy [φ]. *)
Definition on (F : list (string * json)) (R : list table) (φ : list cycle_event → bool → Prop) (w : cycle_world) : Prop :=
  cw_files w = F ∧ cw_registry w = R ∧ φ (cw_log w) (cw_cancel_event w).

Definition safe (l : list cycle_event) (cancelled : bool) : Prop :=
  bounded profile l ∧ governed cy meta l ∧ calm 1 l ∧ (cancelled = false → CancelRequested ∉ l).
Definition ready (l : list cycle_event) (cancelled : bool) : Prop := safe l cancelled ∧ settled cy meta l.
Definition started (l : list cycle_event) (cancelled : bool) : Prop := ready l cancelled ∧ calm 0 l.

Definition closed (φ : list cycle_event → bool → Prop) : Prop := ∀ l e, φ l e → φ (l ++ [CancelRequested]) true.

Lemma safe_closed : closed safe.
Proof.
  intros l e (H1 & H2 & H3 & H4). split_and!; [|by apply governed_snoc|by apply calm_snoc|done].
  intros c. rewrite elem_of_app, list_elem_of_singleton. intros [Hc|[=]]. auto.
Qed.

Lemma ready_closed : closed ready.
Proof.
  intros l e [H1 H2]. split; [by eapply safe_closed|]. intros p. rewrite elem_of_app, list_elem_of_singleton.
  intros [Hp|[=]]. auto.
Qed.

Lemma started_closed : closed started.
Proof. intros l e [H1 H2]. split; [by eapply ready_closed|by apply calm_snoc]. Qed.

(** From [P], [m] returns with [Q] or fails safely, with nothing stored. *)
Definition spec {A} (P : cycle_world → Prop) (m : CM A) (Q : A → cycle_world → Prop) : Prop :=
  ∀ w, P w → match m w with
             | (inl a, w') => Q a w'
             | (inr e, w') => on [] [] safe w' ∧ reasons e
             end.

Lemma spec_bind {A B} P (m : CM A) R (f : A → CM B) Q :
  spec P m R → (∀ a, spec (R a) (f a) Q) → spec P (m ≫= f) Q.
Proof.
  intros Hm Hf w Hw. specialize (Hm w Hw). unfold mbind, CM_bind. destruct (m w) as [[a|e] w']; [|done].
  by apply Hf.
Qed.

Lemma spec_pre {A} (P P' : cycle_world → Prop) (m : CM A) Q : (∀ w, P' w → P w) → spec P m Q → spec P' m Q.
Proof. intros H Hm w Hw. by apply Hm, H. Qed.

Lemma spec_post {A} P (m : CM A) (Q Q' : A → cycle_world → Prop) :
  (∀ a w, Q a w → Q' a w) → spec P m Q → spec P m Q'.
Proof. intros H Hm w Hw. specialize (Hm w Hw). destruct (m w) as [[a|e] w']; auto. Qed.

Lemma spec_ret {A} (P : cycle_world → Prop) (a : A) (Q : A → cycle_world → Prop) : (∀ w, P w → Q a w) → spec P (mret a) Q.
Proof. intros H w Hw. by apply H. Qed.

Lemma spec_fail {A} (P : cycle_world → Prop) message errors (Q : A → cycle_world → Prop) :
  (∀ w, P w → on [] [] safe w) → spec P (fail_with message errors) Q.
Proof. intros H w Hw. split; [by apply H|]. by destruct errors. Qed.

Lemma spec_lift {A} (P : cycle_world → Prop) (r : res A) :
  (∀ w, P w → on [] [] safe w) → spec P (lift_res r) (λ a w, P w ∧ r = Ok a).
Proof. intros H w Hw. unfold lift_res. destruct r; simpl; split; auto. Qed.

Lemma spec_gets {A} (P : cycle_world → Prop) (f : cycle_world → A) : spec P (gets f) (λ a w, P w ∧ a = f w).
Proof. by intros w Hw. Qed.

(** A fact beside the assertion. *)
Lemma spec_pure {A} (φ : Prop) P (m : CM A) Q : (φ → spec P m Q) → spec (λ w, P w ∧ φ) m Q.
Proof. intros H w [Hw Hφ]. by apply H. Qed.

(** What changes neither the events nor the store keeps every assertion. *)
Definition unseen (f : cycle_world → cycle_world) : Prop :=
  ∀ w, cw_files (f w) = cw_files w ∧ cw_registry (f w) = cw_registry w ∧ cw_log (f w) = cw_log w ∧
       cw_cancel_event (f w) = cw_cancel_event w.

Lemma spec_unseen F R φ f : unseen f → spec (on F R φ) (modify f) (λ _, on F R φ).
Proof. intros Hf w (H1 & H2 & H3). destruct (Hf w) as (E1 & E2 & E3 & E4). unfold on. simpl. by rewrite E1, E2, E3, E4. Qed.

Lemma spec_tick F R φ : closed φ → spec (on F R φ) (next_op env) (λ _, on F R φ).
Proof.
  intros Hc w (H1 & H2 & H3). simpl. destruct (env_cancel env (cw_tick w)); [|done].
  split_and!; simpl; [done|done|]. by eapply Hc.
Qed.

Lemma ready_safe w : on [] [] ready w → on [] [] safe w.
Proof. intros (? & ? & ? & ?). done. Qed.

Lemma started_ready w : on [] [] started w → on [] [] ready w.
Proof. intros (? & ? & ? & ?). done. Qed.

Lemma spec_reliability F R φ f : closed φ → spec (on F R φ) (reliability env f) (λ _, on F R φ).
Proof.
  intros Hc. eapply spec_bind; [by apply spec_tick|]. intros n. by apply (spec_unseen F R φ (λ w, set_run (f (cw_run w)) w)).
Qed.

Lemma spec_iso_now F R φ : closed φ → spec (on F R φ) (iso_now env) (λ _, on F R φ).
Proof. intros Hc. eapply spec_bind; [by apply spec_tick|]. intros n. by apply spec_ret. Qed.

Lemma spec_evidence F R φ kind payload : spec (on F R φ) (note_evidence kind payload) (λ _, on F R φ).
Proof. by apply spec_unseen. Qed.

(** An agent starts only if no cancellation arrived before the check. *)
Lemma spec_is_cancelled :
  spec (on [] [] ready) (is_cancelled env) (λ b w, on [] [] ready w ∧ (b = false → on [] [] started w)).
Proof.
  eapply spec_bind; [apply spec_tick, ready_closed|]. intros n. eapply spec_post; [|apply spec_gets].
  intros b w [Hr ->]. split; [done|]. intros He. destruct Hr as (? & ? & [Hs Hl]). split_and!; try done.
  split; [done|]. apply calm_none. apply Hs. done.
Qed.

Lemma spec_call c : (1 <= c_attempt c <= sr_max_attempts (policy_for_step profile (c_step c)))%Z →
  spec (on [] [] started) (modify (log_event (Called c))) (λ _, on [] [] ready).
Proof.
  intros Hc w (H1 & H2 & ((Hb & Hg & _ & He) & Hs) & H0). split_and!; simpl; [done|done|]. split; [split_and!|].
  - intros c'. rewrite elem_of_app, list_elem_of_singleton. intros [Hc'|[= ->]]; auto.
  - by apply governed_call.
  - by apply calm_call.
  - intros E. rewrite not_elem_of_app, list_elem_of_singleton. auto.
  - intros p. rewrite elem_of_app, list_elem_of_singleton. intros [Hp|[=]]. auto.
Qed.

Lemma spec_run_idempotent key c :
  (1 <= c_attempt c <= sr_max_attempts (policy_for_step profile (c_step c)))%Z →
  spec (on [] [] started) (run_idempotent env key c) (λ _, on [] [] ready).
Proof.
  intros Hc. eapply spec_bind; [apply spec_tick, started_closed|]. intros n.
  eapply spec_bind; [apply spec_gets|]. intros guard. destruct (guard_lookup guard key _) as [cached guard'].
  eapply spec_bind.
  { eapply spec_pre; [|by apply (spec_unseen [] [] started (set_guard guard'))]. by intros w []. }
  intros []. destruct cached as [result|]; [apply spec_ret, started_ready|].
  eapply spec_bind; [by apply spec_call|]. intros [].
  destruct (env_run env n c) as [[outputs added]|e]; [|by apply spec_ret].
  eapply spec_bind; [apply spec_tick, ready_closed|]. intros m.
  eapply spec_bind; [by apply (spec_unseen [] [] ready)|]. intros [].
  eapply spec_bind; [apply spec_evidence|]. intros []. by apply spec_ret.
Qed.

Lemma spec_run_with_timeout P timeout call :
  spec P call (λ _, on [] [] ready) → spec P (run_with_timeout env timeout call) (λ _, on [] [] ready).
Proof.
  intros Hm. unfold run_with_timeout.
  assert (spec P (r ← call; mret (attempt_of r)) (λ _, on [] [] ready)) as Hd.
  { eapply spec_bind; [done|]. intros r. by apply spec_ret. }
  destruct timeout as [t|]; [|done]. destruct (fge fzero t); [done|].
  eapply spec_bind; [done|]. intros r. eapply spec_bind; [apply spec_tick, ready_closed|]. intros n.
  destruct (env_late env n); by apply spec_ret.
Qed.

Lemma spec_recorded kind (payload : json → json) :
  spec (on [] [] ready) (id ← run_id; note_evidence kind (payload id)) (λ _, on [] [] ready).
Proof.
  eapply spec_bind; [apply spec_gets|]. intros id. eapply spec_pre; [|apply spec_evidence]. by intros w [].
Qed.

Lemma spec_run_attempts n attempt policy step agent_id config inputs :
  policy = policy_for_step profile (bs_step step) → (1 <= attempt)%Z →
  (attempt + Z.of_nat n <= sr_max_attempts policy + 1)%Z →
  spec (on [] [] ready) (run_attempts env n attempt policy step agent_id config inputs) (λ _, on [] [] ready).
Proof.
  intros ->. revert attempt. induction n as [|n IH]; intros attempt Ha Hn; [by apply spec_fail; apply ready_safe|].
  eapply spec_bind; [apply spec_reliability, ready_closed|]. intros [].
  eapply spec_bind; [apply spec_is_cancelled|]. intros [|].
  { eapply (spec_bind _ _ (λ _, on [] [] ready)); [|intros []; apply spec_fail, ready_safe].
    eapply spec_pre; [|apply (spec_recorded _ (λ id, JObj [("run_id", id); _; _; _]))]. by intros w []. }
  eapply spec_bind.
  { eapply spec_pre; [|apply spec_tick, started_closed]. intros w [_ H]. by apply H. }
  intros k. destruct (env_start env k _) as [e|].
  { eapply spec_post; [|apply spec_lift]; [by intros a w [_ [=]]|]. intros w Hw. by apply ready_safe, started_ready. }
  eapply spec_bind; [apply spec_run_with_timeout, spec_run_idempotent; simpl in *; lia|].
  intros [outputs added|reason|e]; [by apply spec_ret| |apply spec_fail, ready_safe].
  eapply spec_bind; [apply spec_reliability, ready_closed|]. intros [].
  eapply spec_bind; [apply (spec_recorded _ (λ id, JObj [("run_id", id); _; _; _; _]))|]. intros [].
  destruct (sr_max_attempts _ <=? attempt)%Z eqn:E.
  - eapply spec_bind; [apply spec_reliability, ready_closed|]. intros []. apply spec_fail, ready_safe.
  - eapply spec_bind; [apply (spec_recorded _ (λ id, JObj [("run_id", id); _; _; _]))|]. intros []. apply IH; lia.
Qed.

Lemma spec_collect_inputs step refs inputs :
  spec (on [] [] ready) (_collect_inputs step refs inputs) (λ _, on [] [] ready).
Proof.
  revert inputs. induction refs as [|ref refs IH]; intros inputs; [by apply spec_ret|].
  eapply spec_bind; [apply spec_gets|]. intros known.
  destruct (alookup ref known) as [v|].
  - eapply spec_pre; [|apply IH]. by intros w [].
  - apply spec_fail. intros w [H _]. by apply ready_safe.
Qed.

Lemma spec_persist_outputs step refs outputs :
  spec (on [] [] ready) (_persist_outputs step refs outputs) (λ _, on [] [] ready).
Proof.
  induction refs as [|ref refs IH]; [by apply spec_ret|]. simpl. destruct (alookup ref outputs) as [v|].
  - eapply spec_bind; [by apply (spec_unseen [] [] ready)|]. by intros [].
  - eapply spec_post; [|apply spec_lift, ready_safe]. by intros a w [_ [=]].
Qed.

Lemma spec_execute_step step agent_id config :
  spec (on [] [] ready) (_execute_step env profile step agent_id config) (λ _, on [] [] ready).
Proof.
  eapply spec_bind; [apply spec_collect_inputs|]. intros inputs.
  eapply spec_bind.
  { destruct (decide (0 <= sr_max_attempts (policy_for_step profile (bs_step step)))%Z) as [Hm|Hm].
    - apply spec_run_attempts; [done|lia|]. rewrite Z2Nat.id; lia.
    - rewrite Z2Nat.nonpos by lia. apply spec_fail, ready_safe. }
  intros [outputs added].
  eapply spec_bind; [by apply (spec_unseen [] [] ready)|]. intros [].
  eapply spec_bind; [by apply (spec_unseen [] [] ready)|]. intros [].
  eapply spec_bind; [apply spec_persist_outputs|]. intros []. by apply spec_ret.
Qed.

(** ** Accepted artifacts *)

(** Verified, with the hash of its body. *)
Definition accepted_as (type : string) (a : CycleArtifact) : Prop :=
  body_type (ca_body a) = type ∧ validate_body (ca_body a) (ca_body_raw a) = [] ∧
  ev_status (ca_envelope a) = "accepted" ∧ ev_body_hash (ca_envelope a) = body_hash (JObj (ca_body_raw a)).

Lemma verify_artifact_ok a a' :
  verify_artifact a = inl a' → ev_artifact_type (ca_envelope a) = body_type (ca_body a) →
  accepted_as (body_type (ca_body a)) a'.
Proof.
  unfold verify_artifact. intros H E. rewrite E, String.eqb_refl in H.
  destruct (complain _ _) eqn:E1 in H; [|done]. destruct (complain _ _) eqn:E2 in H; [|done]. simpl in H.
  destruct (validate_body _ _) eqn:E3 in H; [|done]. by injection H as <-.
Qed.

Lemma spec_accept type suffix (read : json → res cycle_body) payload :
  (∀ v b, read v = Ok b → body_type b = type) →
  spec (on [] [] ready) (accept env cy type suffix read payload) (λ a w, on [] [] ready w ∧ accepted_as type a).
Proof.
  intros Hread.
  eapply (spec_bind _ _ (λ e w, on [] [] ready w ∧ ev_artifact_type e = type)).
  { eapply spec_bind; [apply spec_iso_now, ready_closed|]. intros now. by apply spec_ret. }
  intros e. eapply spec_bind; [apply spec_lift; intros w [H _]; by apply ready_safe|]. intros body.
  eapply spec_bind; [apply spec_lift; intros w [[H _] _]; by apply ready_safe|]. intros raw.
  unfold _verify. destruct (verify_artifact _) as [a|errors] eqn:E.
  - apply spec_ret. intros w [[[Hw He] Hb] _]. split; [done|]. apply verify_artifact_ok in E; simpl in *.
    + by rewrite (Hread _ _ Hb) in E.
    + by rewrite (Hread _ _ Hb).
  - apply spec_fail. intros w [[[H _] _] _]. by apply ready_safe.
Qed.

Lemma res_fmap_body {A} (f : A → cycle_body) (r : res A) b : f <$> r = Ok b → ∃ a, b = f a.
Proof. destruct r; simpl; [|done]. intros [= <-]. eauto. Qed.

Lemma accepted_plan_body a : accepted_as "proposed_change_plan" a → ∃ p, ca_body a = ChangePlan p.
Proof. intros [H _]. destruct (ca_body a); simpl in H; try done. eauto. Qed.

(** ** Plans *)

(** [p] is the only plan that may not be cleared yet. *)
Definition pending (p : ProposedChangePlanBody) (l : list cycle_event) (cancelled : bool) : Prop :=
  safe l cancelled ∧ ∀ p', Planned p' ∈ l → p' = p ∨ cleared cy meta p'.

Lemma pending_safe p w : on [] [] (pending p) w → on [] [] safe w.
Proof. intros (? & ? & ? & ?). done. Qed.

Lemma spec_planned p : spec (on [] [] ready) (modify (log_event (Planned p))) (λ _, on [] [] (pending p)).
Proof.
  intros w (H1 & H2 & (Hb & Hg & Hc & He) & Hs). split_and!; simpl; [done|done|]. split; [split_and!|].
  - intros c. rewrite elem_of_app, list_elem_of_singleton. intros [Hc'|[=]]. auto.
  - by apply governed_snoc.
  - by apply calm_snoc.
  - intros E. rewrite not_elem_of_app, list_elem_of_singleton. auto.
  - intros p'. rewrite elem_of_app, list_elem_of_singleton. intros [Hp|[= ->]]; auto.
Qed.

Definition approved (p : ProposedChangePlanBody) : Prop :=
  cy_dry_run cy = false → changes_resources p = true →
  ∃ t, cy_approval_token cy = Some t ∧ String.prefix "approved" t = true.

Lemma spec_ensure_approval p a :
  ca_body a = ChangePlan p →
  spec (on [] [] (pending p)) (_ensure_plan_approval cy a) (λ _ w, on [] [] (pending p) w ∧ approved p).
Proof.
  intros Hp. unfold _ensure_plan_approval, _plan_requires_approval, _is_approved, approved. rewrite Hp.
  destruct (cy_dry_run cy), (changes_resources p); simpl; try by apply spec_ret.
  destruct (cy_approval_token cy) as [t|]; simpl; [|by apply spec_fail; intros w; apply pending_safe].
  destruct (String.prefix "approved" t) eqn:E; simpl; [|by apply spec_fail; intros w; apply pending_safe].
  destruct t as [|c t]; [by apply spec_ret; eauto|].
  eapply spec_post; [|apply (spec_unseen [] [] (pending p)); intros w; by destruct (cw_approval_token w)].
  simpl. intros [] w Hw. eauto.
Qed.

Lemma spec_evaluate p reqs decisions :
  spec (on [] [] (pending p)) (evaluate_requirements reqs meta decisions)
    (λ _ w, on [] [] (pending p) w ∧ ∀ target, target ∈ reqs → target ∈ policy_allowlist (Some meta)).
Proof.
  revert decisions. induction reqs as [|target reqs IH]; intros decisions; [by apply spec_ret; set_solver|].
  cbn [evaluate_requirements]. eapply spec_bind; [apply spec_gets|]. intros trail.
  destruct (guard_evaluate [] target target trail (Some meta)) as [d trail'] eqn:E.
  pose proof (guard_evaluate_spec [] target target trail (Some meta)) as [Hd _]. rewrite E in Hd. simpl in Hd.
  eapply spec_bind.
  { eapply spec_pre; [|by apply (spec_unseen [] [] (pending p) (set_trail trail'))]. by intros w []. }
  intros []. destruct (pd_allowed d); [|apply spec_fail, pending_safe].
  eapply spec_post; [|apply IH]. intros ds w [Hw Hr]. split; [done|]. intros x [->|Hx]%elem_of_cons; [|by apply Hr].
  destruct Hd as [[Hn|Hd] _]; [done| |done]. by apply not_elem_of_nil in Hn.
Qed.

(** What the cycle holds of an accepted plan. *)
Definition plan_ok (a : CycleArtifact) : Prop :=
  accepted_as "proposed_change_plan" a ∧ ∃ p, ca_body a = ChangePlan p ∧ cleared cy meta p.

Lemma spec_take_plan payload : spec (on [] [] ready) (take_plan env cy meta payload) (λ a w, on [] [] ready w ∧ plan_ok a).
Proof.
  eapply spec_bind; [apply spec_accept; by intros v b [p ->]%res_fmap_body|]. intros a.
  apply spec_pure. intros Ha. destruct (accepted_plan_body a Ha) as [p Hp].
  eapply spec_bind.
  { intros w Hw. unfold plan_event. rewrite Hp. by apply (spec_planned p w). }
  intros []. eapply spec_bind; [by apply spec_ensure_approval|]. intros [].
  unfold _evaluate_policy. rewrite Hp.
  eapply (spec_bind _ _ (λ _ w, on [] [] (pending p) w ∧ cleared cy meta p)).
  - intros w [Hw Happ]. eapply spec_post; [|apply spec_evaluate|exact Hw]. intros ds w' [Hw' Hr]. done.
  - intros ds. apply spec_ret. intros w [(H1 & H2 & Hs & Hl) Hc]. split; [|by split; eauto].
    split_and!; [done|done|]. split; [done|]. intros p' Hp'. by destruct (Hl p' Hp') as [->|].
Qed.

Definition products_ok (p : cycle_products) : Prop :=
  (∀ a, pr_plan p = Some a → plan_ok a) ∧ (∀ a, pr_report p = Some a → accepted_as "execution_report" a).

Lemma spec_run_plan agents plan p :
  products_ok p →
  spec (on [] [] ready) (run_plan env cy profile agents meta plan p) (λ p' w, on [] [] ready w ∧ products_ok p').
Proof.
  revert p. induction plan as [|step plan IH]; intros p [Hp Hr]; [by apply spec_ret|]. cbn [run_plan].
  destruct (List.find _ (reverse agents)) as [a|]; [|apply spec_fail, ready_safe].
  eapply spec_bind; [apply spec_execute_step|]. intros outputs.
  eapply (spec_bind _ _ (λ planned w, on [] [] ready w ∧ ∀ a, planned = Some a → plan_ok a)).
  { destruct (alookup "artifact:proposed.plan" outputs) as [v|]; [|by apply spec_ret].
    eapply spec_bind; [apply spec_take_plan|]. intros a'. apply spec_ret. intros w [Hw Ha]. split; [done|].
    by intros ? [= <-]. }
  intros planned. destruct (alookup "artifact:execution.report" outputs) as [v|].
  - eapply (spec_bind _ _ (λ report w, (on [] [] ready w ∧ accepted_as "execution_report" report) ∧ ∀ a, planned = Some a → plan_ok a)).
    + intros w [Hw Hpl]. eapply spec_post; [|apply spec_accept|exact Hw]; [done|]. by intros x b [? ->]%res_fmap_body.
    + intros report. apply spec_ret. intros w [[Hw Hrep] Hpl]. split; [done|]. split; [done|]. by intros ? [= <-].
  - intros w [Hw Hpl]. eapply IH; [|exact Hw]. done.
Qed.

(** ** The store *)

Definition stored_at (filename : string) : string := cy_artifact_output_dir cy +:+ "/" +:+ filename.

Definition registered_if_live (l : list (CycleArtifact * string)) : list table :=
  if cy_dry_run cy then [] else (λ af, registry_entry af.1 (stored_at af.2)) <$> l.

Lemma registered_snoc l a f :
  registered_if_live (l ++ [(a, f)]) = registered_if_live l ++ registered_if_live [(a, f)].
Proof. unfold registered_if_live. destruct (cy_dry_run cy); [done|]. by rewrite fmap_app. Qed.

Definition documents_of (l : list (CycleArtifact * string)) : list (string * json) :=
  (λ af, (stored_at af.2, _artifact_document af.1)) <$> l.

Lemma spec_persist l φ type a f :
  accepted_as type a →
  spec (on (documents_of l) (registered_if_live l) φ) (_persist_artifact cy a f)
    (λ _, on (documents_of (l ++ [(a, f)])) (registered_if_live (l ++ [(a, f)])) φ).
Proof.
  intros (_ & _ & Hs & _) w (H1 & H2 & H3). rewrite registered_snoc. unfold documents_of. rewrite fmap_app. simpl.
  unfold _persist_artifact, mbind, CM_bind, modify, gets, lift_res, registry_add. rewrite Hs.
  unfold registered_if_live in *. destruct (cy_dry_run cy); simpl; unfold on; simpl; rewrite H1, H2; done.
Qed.

(** What a cycle that returns leaves behind. *)
Definition cycle_done (r : ControllerCycleResult) (F : list (string * json)) (R : list table) : Prop :=
  let artifacts := [(ccr_env_snapshot r, "env_snapshot.yaml"); (ccr_planned_change r, "proposed_change_plan.yaml");
                    (ccr_execution_report r, "execution_report.yaml")] in
  accepted_as "environment_snapshot" (ccr_env_snapshot r) ∧ plan_ok (ccr_planned_change r) ∧
  accepted_as "execution_report" (ccr_execution_report r) ∧
  F = documents_of artifacts ∧ R = registered_if_live artifacts.

Definition cycle_post (r : ControllerCycleResult) (w : cycle_world) : Prop :=
  cycle_done r (cw_files w) (cw_registry w) ∧ safe (cw_log w) (cw_cancel_event w).

Lemma spec_given {A} (P : cycle_world → Prop) (o : option A) message :
  (∀ w, P w → on [] [] safe w) → spec P (given_or o message) (λ a w, P w ∧ o = Some a).
Proof. intros H. destruct o; [by apply spec_ret|by apply spec_fail]. Qed.

Lemma spec_execute id bundle start :
  ab_meta bundle = meta → (∀ pf, from_meta meta = Ok pf → pf = profile) →
  spec (on [] [] ready) (_execute env cy id bundle start) cycle_post.
Proof.
  intros Hm Hpf. unfold _execute. rewrite Hm.
  eapply spec_bind; [apply spec_lift, ready_safe|]. intros pf. apply spec_pure. intros ->%Hpf.
  eapply spec_bind; [apply spec_reliability, ready_closed|]. intros [].
  eapply spec_bind; [apply spec_iso_now, ready_closed|]. intros now.
  eapply spec_bind; [apply spec_reliability, ready_closed|]. intros [].
  eapply spec_bind; [by apply spec_run_plan|]. intros p. apply spec_pure. intros [Hpl Hrep].
  eapply spec_bind; [apply spec_given, ready_safe|]. intros report. apply spec_pure. intros Er%Hrep.
  eapply spec_bind; [apply spec_given, ready_safe|]. intros planned. apply spec_pure. intros Ep%Hpl.
  eapply spec_bind; [apply spec_given, ready_safe|]. intros payload. apply spec_pure. intros _.
  eapply spec_bind; [apply spec_accept; by intros v b [? ->]%res_fmap_body|]. intros snapshot. apply spec_pure. intros Hsnap.
  eapply (spec_pre (on (documents_of []) (registered_if_live []) ready)).
  { unfold registered_if_live. by destruct (cy_dry_run cy). }
  eapply spec_bind; [by eapply spec_persist|]. intros [].
  eapply spec_bind; [by eapply spec_persist, Ep|]. intros [].
  eapply spec_bind; [by eapply spec_persist|]. intros [].
  eapply spec_bind; [apply spec_iso_now, ready_closed|]. intros end_time. apply spec_ret.
  intros w (H1 & H2 & Hsafe & _). split; [|done]. by split_and!.
Qed.

Lemma spec_cycle_body file :
  (∀ id status type b, file = BundleLoaded id status type (Some b) →
     ab_meta b = meta ∧ ∀ pf, from_meta meta = Ok pf → pf = profile) →
  spec (on [] [] ready) (cycle_body_run env cy file)
    (λ r w, cycle_post r w ∧ ∃ id b, file = BundleLoaded id "accepted" "agent_bundle" (Some b)).
Proof.
  intros Hf. eapply spec_bind; [apply spec_iso_now, ready_closed|]. intros start.
  eapply (spec_bind _ _ (λ ib w, on [] [] ready w ∧ file = BundleLoaded ib.1 "accepted" "agent_bundle" (Some ib.2))).
  - unfold _load_bundle. destruct file as [|reason|id status type [b|]]; try (apply spec_fail, ready_safe);
      destruct (String.eqb_spec status "accepted") as [->|], (String.eqb_spec type "agent_bundle") as [->|]; simpl;
      try (apply spec_fail, ready_safe). by apply spec_ret.
  - intros [id b]. apply spec_pure. intros E. destruct (Hf _ _ _ _ E). eapply spec_post; [|by eapply spec_execute].
    intros r w Hr. split; [done|]. eauto.
Qed.
End spec.

(** The end of a run: its status, and nothing else changes but for a
    cancellation that arrives. *)
Lemma finish_spec env success errors w :
  let w' := ((now ← iso_now env; reliability env (mark_finished success errors now)) w).2 in
  cw_files w' = cw_files w ∧ cw_registry w' = cw_registry w ∧
  (∀ φ, closed φ → φ (cw_log w) (cw_cancel_event w) → φ (cw_log w') (cw_cancel_event w')) ∧
  rr_status (cw_run w') = (if success then "completed" else if rr_canceled (cw_run w') then "cancelled" else "failed") ∧
  (errors ≠ [] → rr_errors (cw_run w') = errors ∧ rr_last_error (cw_run w') = last errors).
Proof.
  unfold iso_now, reliability, next_op, modify, mbind, CM_bind, mret, CM_ret. simpl.
  destruct (env_cancel env (cw_tick w)), (env_cancel env _); simpl; split_and!;
    try (intros φ Hc Hφ; simpl; eauto); try (by destruct success; simpl; try destruct (rr_canceled _));
    try (by destruct errors).
Qed.

Lemma context_ready `{PyText} cy profile meta n run cancelled :
  on [] [] (ready cy profile meta) (context_new n run cancelled).
Proof.
  split_and!; [done|done|]. split; [split_and!|]; simpl.
  - by intros c []%not_elem_of_nil.
  - intros [|e l] c0 post; discriminate.
  - intros [|e l] post; discriminate.
  - intros _. apply not_elem_of_nil.
  - by intros p []%not_elem_of_nil.
Qed.

(** How a run ended. *)
Definition run_ended `{BodyDigest, PyText} (cy : ControllerCycle) (meta : table)
    (r : ControllerCycleResult + (string * list string)) (w : cycle_world) : Prop :=
  match r with
  | inl result => rr_status (cw_run w) = "completed" ∧ cycle_done cy meta result (cw_files w) (cw_registry w)
  | inr (message, errors) =>
      errors ≠ [] ∧ rr_errors (cw_run w) = errors ∧ rr_last_error (cw_run w) = last errors ∧
      rr_status (cw_run w) = (if rr_canceled (cw_run w) then "cancelled" else "failed") ∧
      cw_files w = [] ∧ cw_registry w = []
  end.

Lemma run_cycle_spec `{BodyDigest, PyText} env cy profile meta file n run cancelled :
  (∀ id status type b, file = BundleLoaded id status type (Some b) →
     ab_meta b = meta ∧ ∀ pf, from_meta meta = Ok pf → pf = profile) →
  let '(r, w) := cycle_run env cy file (context_new n run cancelled) in
  safe cy profile meta (cw_log w) (cw_cancel_event w) ∧ run_ended cy meta r w ∧
  ((∃ result, r = inl result) → ∃ id b, file = BundleLoaded id "accepted" "agent_bundle" (Some b)).
Proof.
  intros Hf. pose proof (spec_cycle_body env cy profile meta file Hf _ (context_ready _ _ _ n run cancelled)) as Hs.
  unfold cycle_run. destruct (cycle_body_run env cy file _) as [[result|e] w].
  - destruct Hs as [[Hd Hsafe] Hfile]. destruct (finish_spec env true [] w) as (H1 & H2 & H3 & H4 & _).
    split; [by apply H3; [apply safe_closed|]|]. split; [|done]. split; [done|]. by rewrite H1, H2.
  - destruct Hs as [(Hw1 & Hw2 & Hsafe) He].
    destruct e as [message errors|e]; [destruct (finish_spec env false errors w) as (H1 & H2 & H3 & H4 & H5)
                                      |destruct (finish_spec env false [exn_str e] w) as (H1 & H2 & H3 & H4 & H5)];
      (split; [by apply H3; [apply safe_closed|]|]); (split; [|by intros [? [=]]]);
      (destruct H5 as [? ?]; [done|]); split_and!; by rewrite ?H1, ?H2.
Qed.


(** ** A cycle of three agents *)

#[local] Existing Instance plain_text.

(** A digest that tells nothing apart: enough to run a cycle. *)
Definition one_digest : BodyDigest.
Proof. refine {| body_digest _ := "h" |}. by intros _. Defined.

#[local] Existing Instance one_digest.

Definition demo_snapshot : json :=
  JObj [("snapshot_id", JStr "s1"); ("timestamp", JStr "t"); ("environment", JObj [("load", JInt 3)]); ("data_hash", JStr "d")].

Definition demo_plan : json :=
  JObj [("plan_id", JStr "p1"); ("intent_id", JStr "i1"); ("summary", JStr "scale");
        ("decisions", JArr [JObj [("effect_ref", JStr "resource:pods"); ("target_state", JObj [("n", JInt 2)]);
                                  ("idempotency_key", JStr "k")]]);
        ("llm_metadata", JObj [("model", JStr "m"); ("prompt_hash", JStr "h"); ("determinism_hint", JStr "replayable")]);
        ("policy_requirements", JArr [JStr "pods"])].

Definition demo_report : json :=
  JObj [("report_id", JStr "r1"); ("artifact_refs", JObj []); ("artifacts", JObj []); ("status", JStr "succeeded");
        ("policy_decisions", JArr [JObj [("effect_ref", JStr "pods"); ("allowed", JBool true); ("reason", JStr "ok")]]);
        ("execution_hash", JStr "e")].

Definition demo_outputs (step : string) : table :=
  if String.eqb step "observe" then [("state:env.snapshot", demo_snapshot)]
  else if String.eqb step "decide" then [("artifact:proposed.plan", demo_plan)]
  else [("artifact:execution.report", demo_report)].

(** A world where waits time out at [late] and cancellations arrive at [cancel]. *)
Definition demo_env (late cancel : nat → bool) : environment :=
  mkEnv cancel (fun _ => "now") (fun _ => 0%Z) late (fun _ _ => None)
    (fun _ c => inl (demo_outputs (c_step c), [("agent." +:+ c_step c, JNull)])).

Definition demo_step (name : string) (ins outs : list string) : BundleStep := mkBundleStep name name None ins outs None.

Definition cycle_bundle (reliability : json) : Bundle :=
  mkAgentBundle "b" (agent_of "observe" (mkContract [] [] []) :: agent_of "decide" (mkContract [] [] []) ::
                     agent_of "act" (mkContract [] [] []) :: [])
    [demo_step "observe" [] ["state:env.snapshot"]; demo_step "decide" ["state:env.snapshot"] ["artifact:proposed.plan"];
     demo_step "act" ["artifact:proposed.plan"] ["artifact:execution.report"]]
    [("policy", JObj [("allow", JArr [JStr "pods"])]); ("reliability", reliability)].

Definition demo_cycle (token : option string) : ControllerCycle :=
  mkCycle "bundle.yaml" "bundle" "live" false "rec.json" "out" None token.

Definition demo_run (late cancel : nat → bool) (token : option string) (reliability : json)
  : (ControllerCycleResult + (string * list string)) * cycle_world :=
  cycle_run (demo_env late cancel) (demo_cycle token)
    (BundleLoaded "b1" "accepted" "agent_bundle" (Some (cycle_bundle reliability)))
    (context_new 0 (run_state_new "r" None "now") false).

Definition steps_called (w : cycle_world) : list (string * Z) :=
  omap (fun e => match e with Called c => Some (c_step c, c_attempt c) | _ => None end) (cw_log w).

Definition never (n : nat) : bool := false.

(** With an approval the cycle returns and registers three artifacts; the
    decisions of the guard are not in its result. *)
Lemma approved_cycle :
  let '(r, w) := demo_run never never (Some "approved:ada") JNull in
  steps_called w = [("observe", 1%Z); ("decide", 1%Z); ("act", 1%Z)] ∧
  length (cw_registry w) = 3 ∧ rr_status (cw_run w) = "completed" ∧
  (∃ result, r = inl result ∧ ccr_policy_decisions result = []) ∧ length (at_audits (cw_trail w)) = 1.
Proof. vm_compute. split_and!; eauto. Qed.

(** Without one it stops before the last agent. *)
Lemma unapproved_cycle :
  let '(r, w) := demo_run never never None JNull in
  steps_called w = [("observe", 1%Z); ("decide", 1%Z)] ∧
  r = inr ("resource effects require explicit approval", ["plan requires approval before executing resource effects"]) ∧
  rr_status (cw_run w) = "failed".
Proof. by vm_compute. Qed.

(** A timeout of the first step, with two attempts: the call that was late is
    not repeated, its result comes from the guard and its evidence is lost. *)
Definition first_wait (n : nat) : bool := Nat.eqb n 9.

Definition two_attempts : json :=
  JObj [("default", JObj [("timeout_seconds", JInt 1); ("max_attempts", JInt 2)])].

Lemma late_call_not_repeated :
  let '(r, w) := demo_run first_wait never (Some "approved:ada") two_attempts in
  steps_called w = [("observe", 1%Z); ("decide", 1%Z); ("act", 1%Z)] ∧
  rr_status (cw_run w) = "completed" ∧ rr_retry_count (cw_run w) = 1%Z ∧
  bool_decide ("reliability.retry" ∈ (at_evidence (cw_trail w)).*1) = true ∧
  bool_decide ("agent.observe" ∈ (at_evidence (cw_trail w)).*1) = false.
Proof. by vm_compute. Qed.

(** One attempt that times out counts as a retry that never took place. *)
Definition one_attempt : json := JObj [("default", JObj [("timeout_seconds", JInt 1)])].

Lemma single_attempt_counted :
  let '(r, w) := demo_run first_wait never (Some "approved:ada") one_attempt in
  steps_called w = [("observe", 1%Z)] ∧ rr_status (cw_run w) = "failed" ∧ rr_retry_count (cw_run w) = 1%Z.
Proof. by vm_compute. Qed.
